(* ===== verification/_CoqProject ===== *)
-Q . S2P
Prelude.v
Machine.v
Key.v
Cborx.v
Chunkers.v
FsEncode.v
Instances.v
FsTree.v
FsBuild.v
FsRead.v
FsWalk.v
PackRecord.v
PackStream.v
Footer.v
FooterFacts.v
Packstore.v
PackstoreRep.v
PackstoreFacts.v
PackstoreRecovery.v
PackstoreQuery.v
Compact.v
MarkSetFacts.v
CompactFacts.v
PackstoreSpec.v
Parallel.v
Text.v
Sshsign.v
Reference.v
Inbox.v
InboxProtocol.v
InboxSpec.v
Refstore.v
Gc.v
GcProtocol.v
GcFacts.v
GcSpec.v
Auth.v
AuthFacts.v
Server.v
ServerFacts.v
ServerSpec.v
Routes.v
Sync.v
Remote.v
SyncLive.v
Path.v
Posix.v
Ignore.v
Ingest.v
IngestPar.v
IngestFacts.v
PosixFacts.v
IngestSpec.v
Tar.v
TarFacts.v
PathFacts.v
TarSafety.v
TarRestore.v
TarSpec.v
AllowStore.v
Remotes.v
Daemon.v
DaemonFacts.v
DaemonSpec.v
Client.v
ClientFacts.v
ClientSpec.v
Mount.v
MountTree.v
Admin.v
AdminSpec.v
AdminTree.v
Embedded.v
Browse.v
BrowseFacts.v
BrowseTree.v
BrowseFits.v
Commands.v
CommandsSpec.v
