(* ===== verification/Prelude.v ===== *)
(** * Amber-Store: a verification development

    Amber-Store keeps directory trees as immutable, content-addressed objects.  A
    local daemon and a remote server each own an object store, a database of
    signed references (names of roots) and a garbage collector; clients and daemons
    exchange objects as packs.  This development models the Go packages that carry
    that logic, up to the commands that a user runs, and proves what they promise to
    each other.

    ** The program and its model

    - Objects.  [key] (a 32-byte key: type, length and hash prefix) and [keylist]:
      Key.v.  [cborx], the xattr codec: Cborx.v.  [chunkers]: Chunkers.v.  [fstree]:
      FsEncode.v (objects, entries and nodes), FsBuild.v (the index and directory
      builders), FsRead.v (content, lookup, listing, collection, path resolution),
      FsTree.v (the tree a key stands for), FsWalk.v ([ReachableKeys],
      [CheckComplete]).
    - Packs.  [amberpack]: PackRecord.v (one record, its checksum and compression)
      and PackStream.v (the pack on the wire).
    - The object store, [packstore].  Footer.v and FooterFacts.v are the sealed
      segments (footer, index, filter, binary search); Packstore.v is the store: its
      state is the record [Store], its operations are computations in the monad [M].
      PackstoreRep.v says what a store represents (a finite map), PackstoreFacts.v
      that the operations implement that map, PackstoreRecovery.v that opening a
      directory restores it, PackstoreQuery.v is [Missing].  Compact.v is [MarkSet]
      and [Compact] as a pipeline of goroutines, with MarkSetFacts.v and
      CompactFacts.v.  Parallel.v is [WriteParallel].  PackstoreSpec.v holds the
      statements that clients use.
    - Incoming packs, [inbox]: Inbox.v (the operations), InboxProtocol.v (uploads,
      workers and restarts as a step relation) and InboxSpec.v.
    - References.  Text.v is base64 and decimal text, [sshsign] is Sshsign.v,
      [reference] is Reference.v, [refstore] is Refstore.v.
    - Garbage collection, [gc]: Gc.v (options, pacing, reference hooks, mark, sweep,
      status, why), GcProtocol.v (a collection interleaved with writers, reference
      updates, wipes and failing disks), GcFacts.v and GcSpec.v.
    - The remote server.  Auth.v and AuthFacts.v are [nonces], [allowlist],
      [httpsig] and [grant]; AllowStore.v is the database of allowed keys
      ([allowstore]); Server.v, ServerFacts.v and ServerSpec.v are the handlers of
      [server]; Routes.v is the upload handler and the routing table.  Admin.v,
      AdminSpec.v and AdminTree.v are the operator's pages ([admin]): sessions, keys,
      and browsing a tree under a reference.
    - Synchronization.  Remote.v is [remoteclient], over an arbitrary connection.
      Sync.v is [remotesync] (batching, push, pull); SyncLive.v states what a pull
      needs of the client (the class [Serves]), proves the pull against it and shows
      that client and server together provide it.  Remotes.v is the registry of
      remotes ([remotes]); Embedded.v is a store in a process of its own ([embedded])
      with the key pair that identifies it ([identity]).
    - The local daemon.  Daemon.v has the handlers of [daemon], DaemonFacts.v and
      DaemonSpec.v what they guarantee.  Client.v is [client] and the daemon's routes,
      as the two ends of a connection, with ClientFacts.v and ClientSpec.v.
    - The file system.  Path.v is [path/filepath], Posix.v a concrete file system
      with symbolic links ([FS]) and the class [OS] of the calls that read one.
      Ignore.v is [amberignore]; Ingest.v is the walk that builds a tree from a
      directory, by one goroutine or many, with IngestPar.v, IngestFacts.v,
      PosixFacts.v and IngestSpec.v.  Tar.v is [tarexport] and [tarextract] as system
      calls that may fail, with TarFacts.v, PathFacts.v, TarSafety.v (what an
      extraction cannot touch), TarRestore.v (what it makes) and TarSpec.v.
    - The user's side.  Mount.v is the read-only FUSE mount ([fuse_linux.go]): the
      files that are materialized and shared, the nodes; MountTree.v is a mounted
      tree.  Browse.v, BrowseFacts.v and BrowseTree.v are the browser of the terminal
      as a machine of messages and commands; BrowseFits.v is what it draws.
      Commands.v and CommandsSpec.v are the other commands of [cmd/amber-store] with
      the user's configuration ([userconfig]), the choice of the socket
      ([socketpath]) and the loading of signing keys.

    Prelude.v (this file) has the shared definitions: Go errors and results, bounds
    checked indexing and slicing, loops over results, and the tactics.  Machine.v has
    machine words, byte order, byte strings and CRC-32C.  Instances.v has concrete
    instances of the external interfaces for the applications.

    ** How code is modelled

    A Go function that can fail returns [result]: [Ok], [Err] with the chain of
    messages that [errors.Is] walks, [Panic] for an index or slice out of range, or
    [Diverge] for a call that has not returned.  State is passed explicitly.
    Machine integers are [Z] with their wrap-around written out ([u32], [u64],
    [i64]).  Bytes are [list byte], maps are [gmap].  Every call to the operating
    system consumes one outcome of a list, so a statement about every list is one
    about every failure.  Goroutines are step relations or event lists; a statement
    about every list is one about every interleaving.

    Code outside the repository is a class of operations, with what the code relies
    on as a class of laws: BLAKE3 ([Blake3]), CBOR ([Cbor], [RefCbor], [HttpCbor],
    [GrantCbor], [MetaCbor], [CborText]), Zstandard ([Zstd]), the filter library
    ([Fuse]), Pebble ([Pebble]), SSH signatures and keys ([SshSig], [SshKeys],
    [SshLine], [SshIdentity], [KeyFiles]), JSON ([RecordJson], [RemotesJson],
    [DaemonJson], [ClientJson], [UserJson]), ignore patterns ([GitIgnore]), the
    content-defined chunker ([Cdc]), archives as bytes ([TarReader]), device numbers
    ([UnixDev]), password hashes and content types ([AdminLib]), the
    terminal ([Terminal]), dates ([Calendar]), floating point ([Float64]), addresses
    ([NetUrl]).  Each has an instance, so the theorems apply to concrete inputs.

    ** What is shown

    - Objects: keys and records round trip and have one form; directories and files
      that the builders write read back exactly; walks visit exactly what is
      reachable; arbitrary input never panics a reader.
    - The store is a finite map from keys to payloads: reads, single, batched and
      parallel writes, crash recovery, compaction, [Missing] and mark sets refine
      it, with failing disks and every interleaving; the pipelines do not deadlock.
    - Collection: in every interleaving no stored reference ever names a tree with a
      missing object; the mark finishes and is exact.
    - The inbox: [WaitFor] returns only when the packs that were queued for a root are
      in the store or failed with a logged error; a pack whose upload was answered with
      success is stored, failed, pending, or waits in the directory for a restart.
    - The server: only authorized requests reach a handler, no signature is accepted
      twice, names keep their owners whatever is requested by keys without [admin] and
      [wipe], only listed keys with the capability change references; what a client
      signs the server accepts.  The operator's pages need a session that is alive; the
      list of keys survives restarts, but for writes that failed.
    - Synchronization: a client believes only what the pinned server signed for its
      request, and gets exactly the objects it asks for; a pull that returns has the
      whole tree, and one from an honest server returns if its answers fit the client's
      limit.
    - Trees: an ingest stores exactly the directory less what is ignored, whatever
      the schedule of its workers; export and extraction by root make it again without
      sockets, from the packages and from the command line, if an archive can carry its
      nodes ([portable]); an extraction changes nothing outside its destination.  The
      daemon, the mount, the operator's pages and the browser show the stored tree, those
      of the daemon's JSON if its names are UTF-8.
    - The user: a reference that is to be signed is signed or not made; the
      configuration that is written is the one that is read; the mount never gives a
      reader another file's content; the browser draws no line with more runes than its
      terminal has columns.

    Examples record where the code does not do what its comments say: an overflow in
    the throttle (GcSpec.v), a race of two first writes of a name (ServerSpec.v), two
    ways an accepted pack is not awaited and one it cannot be read back (InboxSpec.v), a
    remote's name that JSON replaces (Remotes.v), a batch too large for the
    client to read (SyncLive.v), destinations that refuse every entry (TarSpec.v), a
    public key that is not repaired (Embedded.v), and prompts and listings of the
    browser that appear in the wrong place or are too wide (BrowseFacts.v, BrowseFits.v).

    ** Bounds and fuel

    Recursion that is not structural takes fuel.  Loops over bytes take the length of
    the input plus one, which the totality theorems show to be enough.  Walks over
    trees take a fuel argument; the theorems say that enough fuel, which is the height
    of the tree, gives the result ([CheckComplete_iff], [markLive_exact],
    [Why_exact], [Extract_restores]).  Runs of goroutines are finite event lists; that
    they can be completed is proved ([copy_completes], [WriteParallel_terminates],
    [mark_finishes], [Pull_succeeds]).  Path resolution follows at most 40 links, as
    the kernel does.  A member of an archive has at most 1 MiB of extended header, the
    limit of [archive/tar].  Segments are assumed to be at most 64 GiB, the store to have
    fewer than 2^31 segments, clocks to fit 63 bits.

    ** What is not modelled

    The start and the shutdown of the daemon and the server (flags, listeners,
    signals, TLS, metrics, the embedded web page), the table of commands, the progress
    bar, the tables of [gc status] and [gc run], [ingest --output] and the benchmark
    are wiring and presentation.  The kernel side of the mount, the program loop of
    the terminal library, the protocol of the SSH agent, the chunker's choice of cut
    points and the encodings named above are libraries; the model has what the code
    uses of them.  Logging and transport settings are left out everywhere.  A process
    is not told that it lacks permission except by a failing call. *)

From stdpp Require Export base tactics list gmap sets sorting countable strings.
From Stdlib Require Export ZArith Lia.
From Stdlib Require Import ZifyBool ZifyNat.

#[export] Set Default Goal Selector "!".

(** ** Go errors and results

    A Go [error] is the chain of messages that [errors.Is] walks: the outermost
    wrapping first, the sentinel last.  A formatted message keeps its constant
    text only. *)
Definition error := list string.

Definition errors_New (msg : string) : error := [msg].
Definition Errorf (msg : string) (wrapped : error) : error := msg :: wrapped.
Definition errors_Is (e : error) (sentinel : string) : Prop := sentinel ∈ e.

#[export] Instance errors_Is_dec e t : Decision (errors_Is e t).
Proof. unfold errors_Is. apply _. Defined.

(** The outcome of a call: it returns a value, it returns an error, it panics
    (an index or slice expression out of range), or the fuel of the model ran
    out, which stands for a call that has not returned yet. *)
Inductive result (A : Type) : Type :=
| Ok (a : A)
| Err (e : error)
| Panic
| Diverge.
Arguments Ok {A} _.
Arguments Err {A} _.
Arguments Panic {A}.
Arguments Diverge {A}.

#[export] Instance result_bind : MBind result := λ A B f m,
  match m with
  | Ok a => f a
  | Err e => Err e
  | Panic => Panic
  | Diverge => Diverge
  end.
#[export] Instance result_ret : MRet result := λ A a, Ok a.
#[export] Instance result_fmap : FMap result := λ A B f m,
  match m with
  | Ok a => Ok (f a)
  | Err e => Err e
  | Panic => Panic
  | Diverge => Diverge
  end.

(** [wrap msg m] is [if err != nil { return fmt.Errorf(msg + ": %w", err) }]. *)
Definition wrap {A} (msg : string) (m : result A) : result A :=
  match m with
  | Err e => Err (Errorf msg e)
  | r => r
  end.

(** [relabel e m] is [if err != nil { return e }] where the cause only shows
    up in the text of the new error. *)
Definition relabel {A} (e : error) (m : result A) : result A :=
  match m with
  | Err _ => Err e
  | r => r
  end.

Definition is_ok {A} (m : result A) : bool :=
  match m with Ok _ => true | _ => false end.

(** A call that returns normally: a value or an error, no panic. *)
Definition safe {A} (m : result A) : Prop := m ≠ Panic ∧ m ≠ Diverge.

#[export] Instance result_eq_dec {A} `{EqDecision A} : EqDecision (result A).
Proof. solve_decision. Defined.

(** [assert_or b e] is the guard [if !b { return e }]. *)
Definition assert_or (b : bool) (e : error) : result unit :=
  if b then Ok tt else Err e.

(** ** Result lemmas *)
Lemma Ok_inj {A} (a b : A) : Ok a = Ok b → a = b.
Proof. congruence. Qed.

Section result_lemmas.
Context {A B : Type}.
Implicit Types (m : result A) (f : A → result B).

Lemma bind_Ok m f b : m ≫= f = Ok b ↔ ∃ a, m = Ok a ∧ f a = Ok b.
Proof. destruct m; simpl; naive_solver. Qed.

Lemma fmap_Ok (g : A → B) m b : g <$> m = Ok b ↔ ∃ a, m = Ok a ∧ b = g a.
Proof. destruct m; simpl; naive_solver. Qed.

Lemma wrap_Ok msg m a : wrap msg m = Ok a ↔ m = Ok a.
Proof. destruct m; simpl; naive_solver. Qed.

Lemma relabel_Ok e m a : relabel e m = Ok a ↔ m = Ok a.
Proof. destruct m; simpl; naive_solver. Qed.

Lemma assert_or_Ok b e u : assert_or b e = Ok u ↔ b = true.
Proof. destruct b, u; simpl; naive_solver. Qed.

Lemma is_ok_true m : is_ok m = true ↔ ∃ a, m = Ok a.
Proof. destruct m; simpl; naive_solver. Qed.

Lemma safe_Ok (a : A) : safe (Ok a).
Proof. by split. Qed.

Lemma safe_Err e : safe (Err e : result A).
Proof. by split. Qed.

Lemma safe_bind m f : safe m → (∀ a, m = Ok a → safe (f a)) → safe (m ≫= f).
Proof. intros [H1 H2] Hf. destruct m; simpl; try done. by apply Hf. Qed.

Lemma safe_assert b e : safe (assert_or b e).
Proof. by destruct b. Qed.

Lemma safe_wrap msg m : safe m → safe (wrap msg m).
Proof. intros [H1 H2]. by destruct m. Qed.

Lemma safe_relabel e m : safe m → safe (relabel e m).
Proof. intros [H1 H2]. by destruct m. Qed.
End result_lemmas.

Create HintDb amber.
#[export] Hint Resolve safe_Ok safe_Err safe_assert safe_wrap safe_relabel : amber.

(** Open every successful step of a monadic computation in the hypotheses. *)
Ltac inv_ok :=
  repeat match goal with
  | H : ∃ _, _ |- _ => destruct H
  | H : _ ∧ _ |- _ => destruct H
  | H : mbind _ _ = Ok _ |- _ => apply bind_Ok in H
  | H : fmap _ _ = Ok _ |- _ => apply fmap_Ok in H
  | H : wrap _ _ = Ok _ |- _ => apply wrap_Ok in H
  | H : relabel _ _ = Ok _ |- _ => apply relabel_Ok in H
  | H : assert_or _ _ = Ok _ |- _ => apply assert_or_Ok in H
  | H : mret _ = Ok _ |- _ => unfold mret, result_ret in H
  | H : Ok _ = Ok _ |- _ => injection H as H; try subst
  | H : Ok _ = Err _ |- _ => discriminate H
  | H : Err _ = Ok _ |- _ => discriminate H
  | H : Panic = Ok _ |- _ => discriminate H
  | H : Diverge = Ok _ |- _ => discriminate H
  end.

(** ** Lists, lengths and slices *)
Abbreviation zlen l := (Z.of_nat (length l)).

Section go_slices.
Context {A : Type}.
Implicit Types (l k : list A).
Local Open Scope Z_scope.

(** [l[lo:hi]]: panics unless [0 <= lo <= hi <= len(l)]. *)
Definition slice (l : list A) (lo hi : Z) : result (list A) :=
  if (0 <=? lo) && (lo <=? hi) && (hi <=? zlen l)
  then Ok (take (Z.to_nat (hi - lo)) (drop (Z.to_nat lo) l))
  else Panic.

(** [l[lo:]]. *)
Definition slice_from (l : list A) (lo : Z) : result (list A) := slice l lo (zlen l).

(** [l[i]]. *)
Definition index (l : list A) (i : Z) : result A :=
  if (0 <=? i) then
    match l !! Z.to_nat i with Some x => Ok x | None => Panic end
  else Panic.

Lemma slice_ok l lo hi :
  0 <= lo → lo <= hi → hi <= zlen l →
  slice l lo hi = Ok (take (Z.to_nat (hi - lo)) (drop (Z.to_nat lo) l)).
Proof.
  intros. unfold slice.
  by replace ((0 <=? lo) && (lo <=? hi) && (hi <=? zlen l)) with true by lia.
Qed.

Lemma slice_inv l lo hi r :
  slice l lo hi = Ok r →
  0 <= lo ∧ lo <= hi ∧ hi <= zlen l ∧
  r = take (Z.to_nat (hi - lo)) (drop (Z.to_nat lo) l).
Proof.
  unfold slice. destruct (_ && _) eqn:E; intros; [|done]. simplify_eq.
  split_and!; [lia..|done].
Qed.

Lemma slice_length l lo hi r : slice l lo hi = Ok r → zlen r = hi - lo.
Proof.
  intros (? & ? & ? & ->)%slice_inv. rewrite length_take, length_drop. lia.
Qed.

Lemma slice_app3 (l1 l2 l3 : list A) lo hi :
  lo = zlen l1 → hi = zlen l1 + zlen l2 →
  slice (l1 ++ l2 ++ l3) lo hi = Ok l2.
Proof.
  intros -> ->. rewrite slice_ok; rewrite ?length_app; try lia.
  f_equal. rewrite Nat2Z.id, drop_app_length.
  replace (Z.to_nat _) with (length l2) by lia. by rewrite take_app_length.
Qed.

Lemma slice_from_app l1 l2 lo : lo = zlen l1 → slice_from (l1 ++ l2) lo = Ok l2.
Proof.
  intros ->. unfold slice_from. rewrite slice_ok; rewrite ?length_app; [|lia..].
  rewrite Nat2Z.id, drop_app_length, take_ge; [done|lia].
Qed.

Lemma slice_from_cons x l : slice_from (x :: l) 1 = Ok l.
Proof. by apply (slice_from_app [x]). Qed.

Lemma slice_app_l l1 l2 lo hi :
  hi <= zlen l1 → slice (l1 ++ l2) lo hi = slice l1 lo hi.
Proof.
  intros Hhi. unfold slice. rewrite length_app.
  destruct ((0 <=? lo) && (lo <=? hi)) eqn:E; simpl; [|done].
  replace (hi <=? Z.of_nat (length l1 + length l2)) with true by lia.
  replace (hi <=? zlen l1) with true by lia.
  rewrite drop_app_le, take_app_le; [done| |lia].
  rewrite length_drop. lia.
Qed.

Lemma slice_safe l lo hi :
  0 <= lo → lo <= hi → hi <= zlen l → safe (slice l lo hi).
Proof. intros. rewrite slice_ok by done. by split. Qed.

Lemma index_ok l i x : l !! Z.to_nat i = Some x → 0 <= i → index l i = Ok x.
Proof. intros Hx ?. unfold index. rewrite Hx. by replace (0 <=? i) with true by lia. Qed.

Lemma index_inv l i x : index l i = Ok x → 0 <= i ∧ l !! Z.to_nat i = Some x.
Proof.
  unfold index. destruct (0 <=? i) eqn:?; [|done].
  destruct (l !! _) eqn:?; naive_solver lia.
Qed.

Lemma index_safe l i : 0 <= i < zlen l → safe (index l i).
Proof.
  intros [??]. unfold index. replace (0 <=? i) with true by lia.
  destruct (l !! Z.to_nat i) eqn:E; [by split|].
  apply lookup_ge_None in E. lia.
Qed.
End go_slices.

(** [copy(dst[off:], src)] on a fixed array: [src] replaces the bytes from
    [off] on, truncated at the end of [dst]. *)
Definition splice {A} (dst : list A) (off : nat) (src : list A) : list A :=
  take (length dst) (take off dst ++ src ++ drop (off + length src) dst).

Lemma length_splice {A} (dst : list A) off src :
  length (splice dst off src) = length dst.
Proof.
  unfold splice. rewrite length_take, !length_app, length_take, length_drop. lia.
Qed.

Lemma take_app_all {A} (l k : list A) n : n = length l → take n (l ++ k) = l.
Proof. intros ->. apply take_app_length. Qed.

Lemma drop_app_all {A} (l k : list A) n : n = length l → drop n (l ++ k) = k.
Proof. intros ->. apply drop_app_length. Qed.

Section filters.
Context {A : Type} (P : A → Prop) `{!∀ x, Decision (P x)}.

Lemma filter_none (l : list A) : (∀ x, x ∈ l → ¬ P x) → filter P l = [].
Proof.
  induction l as [|x l IH]; intros Hl; [done|].
  rewrite filter_cons_False by (apply Hl; set_solver). apply IH. set_solver.
Qed.

Lemma filter_all (l : list A) : (∀ x, x ∈ l → P x) → filter P l = l.
Proof.
  induction l as [|x l IH]; intros Hl; [done|].
  rewrite filter_cons_True by (apply Hl; set_solver). f_equal. apply IH. set_solver.
Qed.
End filters.

Lemma concat_singleton {A} (l : list A) : concat [l] = l.
Proof. simpl. apply app_nil_r. Qed.

(** Total lookup in a list known to be long enough. *)
Lemma lookup_is_Some_lt {A} (l : list A) i : i < length l → ∃ x, l !! i = Some x.
Proof. intros H. apply lookup_lt_is_Some in H as [x Hx]. eauto. Qed.

(** Effectful maps and folds over a list, in the order of a Go [for] loop. *)
Fixpoint mapR {A B} (f : A → result B) (l : list A) : result (list B) :=
  match l with
  | [] => Ok []
  | x :: l => y ← f x; ys ← mapR f l; Ok (y :: ys)
  end.

Fixpoint foldR {A S} (f : A → S → result S) (l : list A) (s : S) : result S :=
  match l with
  | [] => Ok s
  | x :: l => s' ← f x s; foldR f l s'
  end.

Section map_fold.
Context {A B S : Type}.

Lemma mapR_Ok (f : A → result B) l ys :
  mapR f l = Ok ys ↔ Forall2 (λ x y, f x = Ok y) l ys.
Proof.
  revert ys. induction l as [|x l IH]; intros ys; simpl.
  - split; [naive_solver|by intros ->%Forall2_nil_inv_l].
  - rewrite bind_Ok. split.
    + intros (y & Hy & H). inv_ok. constructor; [done|]. by apply IH.
    + intros (y & k & Hy & Hk & ->)%Forall2_cons_inv_l. exists y. split; [done|].
      apply IH in Hk. by rewrite Hk.
Qed.

Lemma mapR_length (f : A → result B) l ys : mapR f l = Ok ys → length ys = length l.
Proof. intros H%mapR_Ok. symmetry. by eapply Forall2_length. Qed.

Lemma mapR_safe (f : A → result B) l :
  (∀ x, x ∈ l → safe (f x)) → safe (mapR f l).
Proof.
  induction l as [|x l IH]; intros Hl; simpl; [by split|].
  apply safe_bind; [apply Hl; set_solver|intros y _].
  apply safe_bind; [apply IH; set_solver|intros; by split].
Qed.

Lemma foldR_app (f : A → S → result S) l1 l2 s :
  foldR f (l1 ++ l2) s = foldR f l1 s ≫= foldR f l2.
Proof.
  revert s. induction l1 as [|x l1 IH]; intros s; simpl; [done|].
  destruct (f x s); simpl; auto.
Qed.

(** A loop whose body succeeds and keeps [P] succeeds and keeps [P]. *)
Lemma foldR_inv (Q : A → Prop) (P : S → Prop) (f : A → S → result S) l s :
  (∀ x s, Q x → P s → ∃ s', f x s = Ok s' ∧ P s') →
  Forall Q l → P s → ∃ s', foldR f l s = Ok s' ∧ P s'.
Proof.
  intros Hf Hl. revert s. induction Hl as [|x l Hx _ IH]; intros s Hs; simpl; [eauto|].
  destruct (Hf x s Hx Hs) as (s' & -> & Hs'). simpl. by apply IH.
Qed.
End map_fold.

(** Step through a bind whose first computation is known. *)
Ltac rsimpl := cbn [mbind result_bind fmap result_fmap wrap relabel].

(** Split a boolean conjunction or a chain of guards in the context. *)
Ltac destruct_bool :=
  repeat match goal with
  | H : _ && _ = true |- _ => apply andb_true_iff in H as [??]
  | H : _ || _ = false |- _ => apply orb_false_iff in H as [??]
  | H : negb _ = true |- _ => apply negb_true_iff in H
  | H : negb _ = false |- _ => apply negb_false_iff in H
  end.

(** Case analysis on the next [if] or [match] of the goal. *)
Ltac case_if := match goal with |- context [if ?b then _ else _] => destruct b eqn:? end.
