(* ===== verification/Machine.v ===== *)
(** * Machine integers, byte strings and the Go standard library

    What the sources use of [encoding/binary] (big- and little-endian
    integers), [bytes] (lexicographic comparison), [hash/crc32] (the Castagnoli
    checksum) and [sort] (binary search).  Unsigned machine words are [Z] with
    the wrap-around written out; a byte is [Init.Byte.byte]. *)

From Stdlib Require Import Init.Byte Strings.Byte.
From S2P Require Import Prelude.
From Stdlib Require Import ZifyBool ZifyNat.
Local Open Scope Z_scope.

Abbreviation byte := Init.Byte.byte.
Abbreviation bytes := (list byte).

(** ** Bytes *)
Definition b2z (b : byte) : Z := Z.of_N (Byte.to_N b).
(** [byte(z)]: truncation to eight bits. *)
Definition z2b (z : Z) : byte :=
  match Byte.of_N (Z.to_N (z mod 256)) with Some b => b | None => x00 end.

#[export] Instance byte_eq_dec : EqDecision byte := Byte.byte_eq_dec.
#[export] Program Instance byte_countable : Countable byte :=
  inj_countable Byte.to_N Byte.of_N _.
Next Obligation. intros b. apply Byte.of_to_N. Qed.

Lemma b2z_range b : 0 <= b2z b < 256.
Proof. unfold b2z. pose proof (Byte.to_N_bounded b). lia. Qed.

Lemma b2z_z2b z : b2z (z2b z) = z mod 256.
Proof.
  unfold b2z, z2b. pose proof (Z.mod_pos_bound z 256 ltac:(lia)).
  destruct (Byte.of_N (Z.to_N (z mod 256))) as [b|] eqn:E.
  - apply Byte.to_of_N in E. rewrite E. lia.
  - apply Byte.of_N_None_iff in E. lia.
Qed.

Lemma b2z_inj a b : b2z a = b2z b → a = b.
Proof.
  unfold b2z. intros H%N2Z.inj.
  pose proof (Byte.of_to_N a). pose proof (Byte.of_to_N b). congruence.
Qed.

Lemma z2b_b2z b : z2b (b2z b) = b.
Proof. apply b2z_inj. rewrite b2z_z2b. apply Z.mod_small, b2z_range. Qed.

Lemma z2b_mod z : z2b (z mod 256) = z2b z.
Proof. apply b2z_inj. rewrite !b2z_z2b. apply Z.mod_mod. lia. Qed.

#[export] Instance b2z_Inj : Inj (=) (=) b2z := b2z_inj.

(** ** Words *)
Definition u8 (z : Z) : Z := z mod 2 ^ 8.
Definition u16 (z : Z) : Z := z mod 2 ^ 16.
Definition u32 (z : Z) : Z := z mod 2 ^ 32.
Definition u64 (z : Z) : Z := z mod 2 ^ 64.
Definition is_u32 (z : Z) : Prop := 0 <= z < 2 ^ 32.
Definition is_u64 (z : Z) : Prop := 0 <= z < 2 ^ 64.

Lemma u64_small z : is_u64 z → u64 z = z.
Proof. apply Z.mod_small. Qed.
Lemma u64_range z : is_u64 (u64 z).
Proof. apply Z.mod_pos_bound. lia. Qed.
Lemma u32_small z : is_u32 z → u32 z = z.
Proof. apply Z.mod_small. Qed.

(** ** Big-endian integers ([binary.BigEndian]) *)
Fixpoint be_enc (n : nat) (z : Z) : bytes :=
  match n with
  | O => []
  | S n => z2b (Z.shiftr z (8 * Z.of_nat n)) :: be_enc n z
  end.

Definition be_dec (l : bytes) : Z := foldl (λ acc b, acc * 256 + b2z b) 0 l.

(** [binary.LittleEndian]. *)
Definition le_dec (l : bytes) : Z := be_dec (rev l).

Lemma length_be_enc n z : length (be_enc n z) = n.
Proof. induction n; simpl; auto. Qed.

Lemma be_dec_acc l acc :
  foldl (λ acc b, acc * 256 + b2z b) acc l = acc * 256 ^ zlen l + be_dec l.
Proof.
  unfold be_dec. revert acc. induction l as [|b l IH]; intros acc; simpl; [lia|].
  rewrite IH, (IH (0 * 256 + b2z b)). rewrite Nat2Z.inj_succ, Z.pow_succ_r by lia. lia.
Qed.

Lemma be_dec_cons b l : be_dec (b :: l) = b2z b * 256 ^ zlen l + be_dec l.
Proof. unfold be_dec at 1. simpl. apply be_dec_acc. Qed.

Lemma be_dec_app l1 l2 : be_dec (l1 ++ l2) = be_dec l1 * 256 ^ zlen l2 + be_dec l2.
Proof. unfold be_dec at 1. rewrite foldl_app. by rewrite be_dec_acc. Qed.

Lemma be_dec_bound l : 0 <= be_dec l < 256 ^ zlen l.
Proof.
  induction l as [|b l IH]; [done|].
  rewrite be_dec_cons. cbn [length]. rewrite Nat2Z.inj_succ, Z.pow_succ_r by lia.
  pose proof (b2z_range b). nia.
Qed.

Lemma be_dec_enc n z : be_dec (be_enc n z) = z mod 256 ^ Z.of_nat n.
Proof.
  induction n as [|n IH]; [by rewrite Z.mod_1_r|].
  cbn [be_enc]. rewrite be_dec_cons, length_be_enc, IH, b2z_z2b.
  rewrite Z.shiftr_div_pow2 by lia.
  replace (2 ^ (8 * Z.of_nat n)) with (256 ^ Z.of_nat n)
    by (rewrite (Z.pow_mul_r 2 8) by lia; done).
  rewrite Nat2Z.inj_succ, Z.pow_succ_r by lia.
  assert (0 < 256 ^ Z.of_nat n) by (apply Z.pow_pos_nonneg; lia).
  rewrite (Z.mul_comm 256), Z.rem_mul_r by lia. lia.
Qed.

Lemma be_dec_inj l1 l2 : length l1 = length l2 → be_dec l1 = be_dec l2 → l1 = l2.
Proof.
  revert l2. induction l1 as [|a l1 IH]; intros [|b l2] Hlen Heq; try done.
  simpl in Hlen. rewrite !be_dec_cons in Heq.
  pose proof (be_dec_bound l1). pose proof (be_dec_bound l2).
  replace (zlen l2) with (zlen l1) in * by lia.
  assert (0 < 256 ^ zlen l1) by (apply Z.pow_pos_nonneg; lia).
  assert (b2z a = b2z b) as ->%b2z_inj by nia.
  f_equal. apply IH; lia.
Qed.

Lemma be_enc_dec n l : length l = n → be_enc n (be_dec l) = l.
Proof.
  intros Hn. apply be_dec_inj; [by rewrite length_be_enc|].
  rewrite be_dec_enc. apply Z.mod_small. rewrite <- Hn. apply be_dec_bound.
Qed.

Lemma be_dec_enc_small n z :
  0 <= z < 256 ^ Z.of_nat n → be_dec (be_enc n z) = z.
Proof. intros. rewrite be_dec_enc. by apply Z.mod_small. Qed.

Lemma be_enc_S_small n z :
  0 <= z < 256 ^ Z.of_nat n → be_enc (S n) z = x00 :: be_enc n z.
Proof.
  intros Hz. cbn [be_enc]. f_equal. apply b2z_inj.
  rewrite b2z_z2b, Z.shiftr_div_pow2 by lia.
  replace (2 ^ (8 * Z.of_nat n)) with (256 ^ Z.of_nat n)
    by (rewrite (Z.pow_mul_r 2 8) by lia; done).
  by rewrite Z.div_small.
Qed.

Arguments be_enc : simpl never.

(** ** [bytes.Compare] *)
Fixpoint bytes_Compare (a b : bytes) : comparison :=
  match a, b with
  | [], [] => Eq
  | [], _ :: _ => Lt
  | _ :: _, [] => Gt
  | x :: a, y :: b =>
      match b2z x ?= b2z y with
      | Eq => bytes_Compare a b
      | c => c
      end
  end.

Definition bytes_lt (a b : bytes) : Prop := bytes_Compare a b = Lt.
Definition bytes_le (a b : bytes) : Prop := bytes_Compare a b ≠ Gt.

#[export] Instance bytes_lt_dec : RelDecision bytes_lt.
Proof. intros a b. unfold bytes_lt. apply _. Defined.
#[export] Instance bytes_le_dec : RelDecision bytes_le.
Proof. intros a b. unfold bytes_le. apply _. Defined.

Lemma bytes_Compare_refl a : bytes_Compare a a = Eq.
Proof. induction a as [|x a IH]; [done|]. simpl. by rewrite Z.compare_refl. Qed.

Lemma bytes_Compare_eq a b : bytes_Compare a b = Eq ↔ a = b.
Proof.
  split; [|intros ->; apply bytes_Compare_refl].
  revert b. induction a as [|x a IH]; intros [|y b] H; simpl in H; try done.
  destruct (Z.compare_spec (b2z x) (b2z y)); try done. f_equal; auto.
  by apply b2z_inj.
Qed.

Lemma bytes_Compare_antisym a b : bytes_Compare b a = CompOpp (bytes_Compare a b).
Proof.
  revert b. induction a as [|x a IH]; intros [|y b]; simpl; try done.
  rewrite (Z.compare_antisym (b2z x)). destruct (b2z x ?= b2z y); simpl; auto.
Qed.

Lemma bytes_lt_trans a b c : bytes_lt a b → bytes_lt b c → bytes_lt a c.
Proof.
  unfold bytes_lt. revert b c.
  induction a as [|x a IH]; intros [|y b] [|z c] H1 H2; simpl in *; try done.
  destruct (Z.compare_spec (b2z x) (b2z y)); try done;
    destruct (Z.compare_spec (b2z y) (b2z z)); try done;
    destruct (Z.compare_spec (b2z x) (b2z z)); try done; try lia.
  eauto.
Qed.

Lemma bytes_lt_irrefl a : ¬ bytes_lt a a.
Proof. unfold bytes_lt. by rewrite bytes_Compare_refl. Qed.

Lemma bytes_le_lteq a b : bytes_le a b ↔ bytes_lt a b ∨ a = b.
Proof.
  unfold bytes_le, bytes_lt. rewrite <- bytes_Compare_eq.
  destruct (bytes_Compare a b); naive_solver.
Qed.

Lemma bytes_not_lt a b : ¬ bytes_lt a b ↔ bytes_le b a.
Proof.
  unfold bytes_le, bytes_lt. rewrite (bytes_Compare_antisym a b).
  destruct (bytes_Compare a b); naive_solver.
Qed.

Lemma bytes_le_not_lt a b : bytes_le a b ↔ ¬ bytes_lt b a.
Proof. by rewrite bytes_not_lt. Qed.

#[export] Instance bytes_lt_strict : StrictOrder bytes_lt.
Proof.
  split; [intros a; apply bytes_lt_irrefl|intros a b c; apply bytes_lt_trans].
Qed.

#[export] Instance bytes_le_trans : Transitive bytes_le.
Proof.
  intros a b c. rewrite !bytes_le_lteq. intros [?| ->] [?| ->]; auto.
  left. by eapply bytes_lt_trans.
Qed.

#[export] Instance bytes_le_antisym : AntiSymm (=) bytes_le.
Proof.
  intros a b [?|?]%bytes_le_lteq [?|?]%bytes_le_lteq; try done.
  exfalso. eapply bytes_lt_irrefl, bytes_lt_trans; eauto.
Qed.

#[export] Instance bytes_le_total : Total bytes_le.
Proof.
  intros a b. destruct (decide (bytes_lt a b)) as [?|H].
  - left. rewrite bytes_le_lteq. by left.
  - right. by apply bytes_not_lt.
Qed.

Lemma bytes_le_lt_trans a b c : bytes_le a b → bytes_lt b c → bytes_lt a c.
Proof. rewrite bytes_le_lteq. intros [?| ->]; [|done]. by apply bytes_lt_trans. Qed.

Lemma bytes_lt_le_trans a b c : bytes_lt a b → bytes_le b c → bytes_lt a c.
Proof. rewrite bytes_le_lteq. intros ? [?|Hbc]; [|by rewrite <- Hbc]. by eapply bytes_lt_trans. Qed.

(** ** [hash/crc32] with the Castagnoli polynomial *)
Definition crc_bit (c : Z) : Z :=
  if Z.testbit c 0 then Z.lxor (Z.shiftr c 1) 0x82F63B78 else Z.shiftr c 1.
Definition crc_table (i : Z) : Z := Nat.iter 8 crc_bit i.
Definition crc_byte (c : Z) (b : byte) : Z :=
  Z.lxor (crc_table (Z.lxor (u8 c) (b2z b))) (Z.shiftr c 8).
Definition crc32_Update (crc : Z) (p : bytes) : Z :=
  Z.lxor (foldl crc_byte (Z.lxor crc 0xFFFFFFFF) p) 0xFFFFFFFF.
Definition crc32_Checksum (p : bytes) : Z := crc32_Update 0 p.

(** The standard check value of CRC-32C over "123456789". *)
Example crc32_check :
  crc32_Checksum [x31;x32;x33;x34;x35;x36;x37;x38;x39] = 0xE3069283.
Proof. vm_compute. reflexivity. Qed.

Lemma crc32_Update_app c a b :
  crc32_Update (crc32_Update c a) b = crc32_Update c (a ++ b).
Proof.
  unfold crc32_Update. rewrite foldl_app. f_equal.
  by rewrite Z.lxor_assoc, Z.lxor_nilpotent, Z.lxor_0_r.
Qed.

Lemma lxor_bound n a b :
  0 <= n → 0 <= a < 2 ^ n → 0 <= b < 2 ^ n → 0 <= Z.lxor a b < 2 ^ n.
Proof.
  intros Hn Ha Hb. replace (Z.lxor a b) with (Z.lxor a b mod 2 ^ n);
    [apply Z.mod_pos_bound; lia|].
  apply Z.bits_inj'. intros i Hi. rewrite Z.testbit_mod_pow2, Z.lxor_spec by lia.
  destruct (Z.ltb_spec i n); simpl; [done|].
  rewrite <- (Z.mod_small a (2 ^ n)), <- (Z.mod_small b (2 ^ n)) by lia.
  rewrite !Z.testbit_mod_pow2 by lia. by replace (i <? n) with false by lia.
Qed.

Lemma shiftr_bound n a k : 0 <= k → 0 <= a < 2 ^ n → 0 <= Z.shiftr a k < 2 ^ n.
Proof.
  intros Hk Ha. rewrite Z.shiftr_div_pow2 by lia.
  assert (0 < 2 ^ k) by (apply Z.pow_pos_nonneg; lia).
  split; [apply Z.div_pos; lia|]. apply Z.div_lt_upper_bound; nia.
Qed.

Lemma crc_bit_bound c : is_u32 c → is_u32 (crc_bit c).
Proof.
  unfold is_u32, crc_bit. intros. destruct (Z.testbit c 0).
  - apply lxor_bound; [lia|by apply shiftr_bound|lia].
  - by apply shiftr_bound.
Qed.

Lemma crc_byte_bound c b : is_u32 c → is_u32 (crc_byte c b).
Proof.
  intros Hc. unfold crc_byte. apply lxor_bound; [lia| |by apply shiftr_bound].
  assert (is_u32 (Z.lxor (u8 c) (b2z b))) as Hx.
  { pose proof (b2z_range b). unfold u8.
    pose proof (Z.mod_pos_bound c (2 ^ 8) ltac:(lia)).
    pose proof (lxor_bound 8 (c mod 2 ^ 8) (b2z b)). unfold is_u32. lia. }
  unfold crc_table. do 8 (apply crc_bit_bound in Hx). exact Hx.
Qed.

Lemma crc32_Update_bound c p : is_u32 c → is_u32 (crc32_Update c p).
Proof.
  intros Hc. unfold crc32_Update. apply lxor_bound; [lia| |lia].
  assert (is_u32 (Z.lxor c 0xFFFFFFFF)) as Hx by (apply lxor_bound; [lia|done|lia]).
  revert Hx. generalize (Z.lxor c 0xFFFFFFFF).
  induction p as [|b p IH]; intros x Hx; simpl; [done|].
  apply IH. by apply crc_byte_bound.
Qed.

(** One changed byte always changes the checksum: the top bytes of the table
    entries are distinct, so a step determines the byte it consumed. *)
Lemma crc_table_top x y :
  0 <= x < 256 → 0 <= y < 256 →
  Z.shiftr (crc_table x) 24 = Z.shiftr (crc_table y) 24 → x = y.
Proof.
  intros Hx Hy Heq.
  set (tops := (λ n, Z.shiftr (crc_table (Z.of_nat n)) 24) <$> seq 0 256).
  assert (NoDup tops) as Hnd by (apply (bool_decide_unpack _); vm_compute; reflexivity).
  assert (∀ z, 0 <= z < 256 → tops !! Z.to_nat z = Some (Z.shiftr (crc_table z) 24)) as Hl.
  { intros z Hz. unfold tops. rewrite list_lookup_fmap, lookup_seq_lt by lia. simpl.
    by rewrite Z2Nat.id by lia. }
  pose proof (Hl x Hx) as Hlx. rewrite Heq in Hlx.
  pose proof (NoDup_lookup tops _ _ _ Hnd Hlx (Hl y Hy)). lia.
Qed.

Lemma crc_byte_inj c c' b b' :
  is_u32 c → is_u32 c' → crc_byte c b = crc_byte c' b' →
  Z.lxor (u8 c) (b2z b) = Z.lxor (u8 c') (b2z b') ∧ Z.shiftr c 8 = Z.shiftr c' 8.
Proof.
  unfold is_u32, crc_byte. intros Hc Hc' Heq.
  assert (∀ c b, 0 <= Z.lxor (u8 c) (b2z b) < 256) as Hx.
  { intros. apply (lxor_bound 8); [lia|apply Z.mod_pos_bound; lia|apply b2z_range]. }
  assert (∀ c, 0 <= c < 2 ^ 32 → Z.shiftr (Z.shiftr c 8) 24 = 0) as Hs.
  { intros z Hz. rewrite Z.shiftr_shiftr, Z.shiftr_div_pow2 by lia. by apply Z.div_small. }
  assert (Z.lxor (u8 c) (b2z b) = Z.lxor (u8 c') (b2z b')) as Hi.
  { apply crc_table_top; [done..|]. apply (f_equal (λ z, Z.shiftr z 24)) in Heq.
    by rewrite !Z.shiftr_lxor, !Hs, !Z.lxor_0_r in Heq. }
  split; [done|]. rewrite Hi in Heq.
  apply (f_equal (Z.lxor (crc_table (Z.lxor (u8 c') (b2z b'))))) in Heq.
  by rewrite <- !Z.lxor_assoc, Z.lxor_nilpotent, !Z.lxor_0_l in Heq.
Qed.

Lemma lxor_cancel_r a b c : Z.lxor a c = Z.lxor b c → a = b.
Proof.
  intros H. apply (f_equal (λ z, Z.lxor z c)) in H.
  by rewrite !Z.lxor_assoc, Z.lxor_nilpotent, !Z.lxor_0_r in H.
Qed.

Lemma crc_fold_inj p c c' :
  is_u32 c → is_u32 c' → foldl crc_byte c p = foldl crc_byte c' p → c = c'.
Proof.
  revert c c'. induction p as [|b p IH]; intros c c' Hc Hc' Heq; simpl in *; [done|].
  apply IH in Heq; [|by apply crc_byte_bound..].
  apply crc_byte_inj in Heq as [Hlo Hhi]; [|done..].
  apply lxor_cancel_r in Hlo. unfold u8 in Hlo. rewrite !Z.shiftr_div_pow2 in Hhi by lia.
  rewrite (Z.div_mod c (2 ^ 8)), (Z.div_mod c' (2 ^ 8)) by lia. lia.
Qed.

Lemma crc_fold_bound p c : is_u32 c → is_u32 (foldl crc_byte c p).
Proof. revert c. induction p as [|b p IH]; intros c Hc; simpl; [done|]. by apply IH, crc_byte_bound. Qed.

Lemma crc32_detects pre b b' post :
  crc32_Checksum (pre ++ b :: post) = crc32_Checksum (pre ++ b' :: post) → b = b'.
Proof.
  unfold crc32_Checksum, crc32_Update. intros H%lxor_cancel_r.
  rewrite !foldl_app in H. simpl in H.
  assert (is_u32 (foldl crc_byte 0xFFFFFFFF pre)) as Hp by (by apply crc_fold_bound).
  apply crc_fold_inj in H; [|by apply crc_byte_bound..].
  apply crc_byte_inj in H as [H _]; [|done..]. apply b2z_inj.
  rewrite (Z.lxor_comm (u8 _)), (Z.lxor_comm (u8 _) (b2z b')) in H. by apply lxor_cancel_r in H.
Qed.

(** ** [sort.Search]

    The loop [i, j := 0, n; for i < j { h := (i+j)/2; if !f(h) { i = h+1 } else
    { j = h } }].  The predicate may panic.  [j - i] at least halves, so [n]
    iterations are enough ([sort_Search_spec]). *)
Fixpoint search_loop (fuel : nat) (f : nat → result bool) (i j : nat) : result nat :=
  if (i <? j)%nat then
    match fuel with
    | O => Diverge
    | S fuel =>
        let h := Nat.div2 (i + j) in
        b ← f h;
        if b : bool then search_loop fuel f i h else search_loop fuel f (S h) j
    end
  else Ok i.

Definition sort_Search (n : nat) (f : nat → result bool) : result nat :=
  search_loop n f 0 n.

Section search.
Local Open Scope nat_scope.
Context (n : nat) (f : nat → result bool) (g : nat → bool).
Hypothesis f_g : ∀ i, i < n → f i = Ok (g i).
Hypothesis g_mono : ∀ i j, i ≤ j → j < n → g i = true → g j = true.

Lemma search_loop_spec fuel i j :
  j - i ≤ fuel → i ≤ j → j ≤ n →
  (∀ k, k < i → g k = false) → (∀ k, j ≤ k → k < n → g k = true) →
  ∃ r, search_loop fuel f i j = Ok r ∧ i ≤ r ≤ j ∧
       (∀ k, k < r → g k = false) ∧ (∀ k, r ≤ k → k < n → g k = true).
Proof.
  revert i j. induction fuel as [|fuel IH]; intros i j Hf Hij Hjn Hlo Hhi; simpl.
  - replace (i <? j) with false by lia. exists i. split_and!; auto with lia.
  - destruct (i <? j) eqn:E.
    2:{ exists i. split_and!; auto with lia. }
    assert (i ≤ Nat.div2 (i + j) < j) as Hh.
    { rewrite Nat.div2_div. split.
      - apply Nat.div_le_lower_bound; lia.
      - apply Nat.Div0.div_lt_upper_bound; lia. }
    rewrite f_g by lia. simpl. destruct (g _) eqn:Eg.
    + edestruct (IH i (Nat.div2 (i + j))) as (r & -> & ? & ? & ?); try lia; auto.
      { intros k ??. by eapply g_mono; [| |exact Eg]. }
      exists r. split_and!; auto; lia.
    + edestruct (IH (S (Nat.div2 (i + j))) j) as (r & -> & ? & ? & ?); try lia; auto.
      { intros k Hk. destruct (g k) eqn:Ek; [|done].
        assert (g (Nat.div2 (i + j)) = true); [|congruence].
        eapply g_mono; [| |exact Ek]; lia. }
      exists r. split_and!; auto; lia.
Qed.

(** [sort.Search] returns the first index at which a monotone predicate
    holds, [n] if there is none. *)
Lemma sort_Search_spec :
  ∃ r, sort_Search n f = Ok r ∧ r ≤ n ∧
       (∀ k, k < r → g k = false) ∧ (∀ k, r ≤ k → k < n → g k = true).
Proof.
  destruct (search_loop_spec n 0 n) as (r & ? & ? & ? & ?); eauto with lia.
Qed.
End search.

(** Whatever the predicate answers, the search neither leaves its range nor
    runs out of fuel. *)
Lemma search_loop_safe fuel f i j n :
  (j - i ≤ fuel)%nat → (i ≤ j)%nat → (j ≤ n)%nat →
  (∀ k, (k < n)%nat → safe (f k)) →
  safe (search_loop fuel f i j) ∧
  (∀ r, search_loop fuel f i j = Ok r → (i ≤ r ≤ j)%nat).
Proof.
  intros Hf Hij Hjn Hsafe. revert i j Hf Hij Hjn.
  induction fuel as [|fuel IH]; intros i j Hf Hij Hjn; simpl.
  - replace (i <? j)%nat with false by lia. split; [by split|].
    intros ? [=<-]. lia.
  - destruct (i <? j)%nat eqn:E; [|split; [by split|intros ? [=<-]; lia]].
    assert (i ≤ Nat.div2 (i + j) < j)%nat as Hh.
    { rewrite Nat.div2_div. split.
      - apply Nat.div_le_lower_bound; lia.
      - apply Nat.Div0.div_lt_upper_bound; lia. }
    split.
    + apply safe_bind; [apply Hsafe; lia|intros [] _; apply IH; lia].
    + intros r ([] & _ & Hr)%bind_Ok; apply IH in Hr; lia.
Qed.

Lemma sort_Search_safe n f :
  (∀ k, (k < n)%nat → safe (f k)) →
  safe (sort_Search n f) ∧ (∀ r, sort_Search n f = Ok r → (r ≤ n)%nat).
Proof.
  intros H. destruct (search_loop_safe n f 0 n n) as [? Hr]; try lia; [done|].
  split; [done|]. intros r ?%Hr. lia.
Qed.

(** A search over the elements of a list by a predicate that, once true, stays
    true: it splits the list at the first element that satisfies it. *)
Section search_list.
Context {A : Type} (l : list A) (p : A → bool).

Definition search_list : result nat :=
  sort_Search (length l) (λ i, x ← index l (Z.of_nat i); Ok (p x)).

Lemma search_list_spec :
  (∀ i j x y, (i ≤ j)%nat → l !! i = Some x → l !! j = Some y → p x = true → p y = true) →
  ∃ l1 l2, l = l1 ++ l2 ∧ search_list = Ok (length l1) ∧
           Forall (λ x, p x = false) l1 ∧ Forall (λ x, p x = true) l2.
Proof.
  intros Hmono.
  destruct (sort_Search_spec (length l) (λ i, x ← index l (Z.of_nat i); Ok (p x))
              (λ i, default false (p <$> l !! i))) as (r & Hr & Hrn & Hlo & Hhi).
  - intros i [x Hx]%lookup_lt_is_Some_2. rewrite (index_ok _ _ x); [by rewrite Hx| |lia].
    by rewrite Nat2Z.id.
  - intros i j Hij [y Hy]%lookup_lt_is_Some_2. rewrite Hy.
    destruct (l !! i) as [x|] eqn:Hx; [|done]. simpl. by eapply Hmono.
  - exists (take r l), (drop r l). rewrite length_take_le by done.
    split_and!; [by rewrite take_drop|done| |]; apply Forall_lookup; intros i x Hx.
    + apply lookup_take_Some in Hx as [Hx Hi]. specialize (Hlo i Hi). by rewrite Hx in Hlo.
    + rewrite lookup_drop in Hx. specialize (Hhi (r + i)%nat ltac:(lia)).
      rewrite Hx in Hhi. apply Hhi. by eapply lookup_lt_Some.
Qed.

Lemma search_list_safe : safe search_list ∧ (∀ r, search_list = Ok r → (r ≤ length l)%nat).
Proof.
  apply sort_Search_safe. intros k Hk. apply safe_bind; [apply index_safe; lia|].
  intros; by split.
Qed.
End search_list.
