(* ===== verification/Key.v ===== *)
(** * Package [key]: the 32-byte content address (and package [keylist])

    A key is a header byte (object type in the high nibble, a reserved bit,
    the size of the length field), the logical payload length in big-endian
    order, and a truncated BLAKE3 hash of the serialized object.  BLAKE3 is not
    part of the repository: it is the class [Blake3]. *)

From Stdlib Require Import Init.Byte.
From S2P Require Import Prelude Machine.
From Stdlib Require Import ZifyBool ZifyNat.
Local Open Scope Z_scope.

(** [blake3.Sum256], of which the code uses the digest size only. *)
Class Blake3 := {
  Sum256 : bytes → bytes;
  Sum256_length : ∀ b, length (Sum256 b) = 32%nat;
}.

(** ** Object types ([key/type.go]) *)
Definition Blob : Z := 0.
Definition FileNode : Z := 1.
Definition DirLeaf : Z := 2.
Definition DirNode : Z := 3.
Definition XattrSet : Z := 4.

Definition IsValid (t : Z) : bool := t <=? XattrSet.

(** ** The fixed-size array [Key [32]byte] *)
Definition Size : nat := 32.

Record Key := mkKey { kb : bytes; kb_len : (length kb =? Size)%nat = true }.

Lemma length_kb k : length (kb k) = 32%nat.
Proof. destruct k as [b Hb]. simpl. unfold Size in *. lia. Qed.

Lemma Key_eq k1 k2 : kb k1 = kb k2 → k1 = k2.
Proof.
  destruct k1 as [b1 H1], k2 as [b2 H2]; simpl; intros ->.
  f_equal. apply (proof_irrel _).
Qed.

#[export] Instance Key_eq_dec : EqDecision Key.
Proof.
  intros k1 k2. destruct (decide (kb k1 = kb k2)) as [E|E].
  - left. by apply Key_eq.
  - right. by intros ->.
Defined.

(** [copy(k[:], b)] into a zero array. *)
Definition fill (b : bytes) : bytes := take Size (b ++ replicate Size x00).

Lemma length_fill b : length (fill b) = 32%nat.
Proof.
  unfold fill, Size. rewrite length_take, length_app, length_replicate. lia.
Qed.

Lemma length_fill_bool b : (length (fill b) =? Size)%nat = true.
Proof. rewrite length_fill. done. Qed.

Definition to_key (b : bytes) : Key :=
  mkKey (fill b)
    match bool_dec (length (fill b) =? Size)%nat true with
    | left H => H
    | right H => match H (length_fill_bool b) with end
    end.

Lemma kb_to_key b : length b = 32%nat → kb (to_key b) = b.
Proof. intros H. simpl. unfold fill, Size. by apply take_app_all. Qed.

Lemma to_key_kb k : to_key (kb k) = k.
Proof. apply Key_eq, kb_to_key, length_kb. Qed.

#[export] Program Instance Key_countable : Countable Key :=
  inj_countable kb (λ b, Some (to_key b)) _.
Next Obligation. intros k. simpl. by rewrite to_key_kb. Qed.

#[export] Instance Key_inhabited : Inhabited Key := populate (to_key []).

(** ** Errors ([key/errors.go]) *)
Definition ErrBadKeyLength := "key: data is not 32 bytes".
Definition ErrReservedBitSet := "key: reserved header bit is set".
Definition ErrReservedType := "key: reserved object type".
Definition ErrNonCanonicalLength := "key: non-canonical length encoding".

(** ** Accessors *)
Definition kbyte (k : Key) (i : nat) : Z := b2z (nth i (kb k) x00).

Definition Type_ (k : Key) : Z := Z.shiftr (kbyte k 0) 4.

Definition LengthSize (k : Key) : Z := Z.land (kbyte k 0) 0x07 + 1.

(** [var buf [8]byte; copy(buf[8-ls:], k[1:1+ls]); BigEndian.Uint64(buf[:])] *)
Definition Length (k : Key) : Z :=
  let ls := Z.to_nat (LengthSize k) in
  be_dec (splice (replicate 8 x00) (8 - ls) (take ls (drop 1 (kb k)))).

Definition Hash (k : Key) : bytes := drop (1 + Z.to_nat (LengthSize k)) (kb k).

(** ** Construction *)
(** [bits.Len64]. *)
Definition Len64 (z : Z) : Z := if z =? 0 then 0 else Z.log2 z + 1.

Definition lengthSizeFor (length : Z) : Z :=
  if length =? 0 then 1 else (Len64 length + 7) / 8.

Definition NewFromHash (t : Z) (length : Z) (fullHash : bytes) : result Key :=
  if negb (IsValid t) then Err (Errorf "%d" (errors_New ErrReservedType)) else
  let ls := lengthSizeFor length in
  let n := Z.to_nat ls in
  let k0 := z2b (Z.lor (u8 (Z.shiftl t 4)) (u8 (ls - 1))) in
  let buf := be_enc 8 length in
  let k := splice (k0 :: replicate 31 x00) 1 (drop (8 - n) buf) in
  Ok (to_key (splice k (1 + n) (take (Size - 1 - n) fullHash))).

Definition New `{Blake3} (t : Z) (length : Z) (serialized : bytes) : result Key :=
  NewFromHash t length (Sum256 serialized).

Definition Validate (k : Key) : result unit :=
  if negb (Z.land (kbyte k 0) 0x08 =? 0) then Err (errors_New ErrReservedBitSet) else
  if negb (IsValid (Type_ k)) then Err (Errorf "%d" (errors_New ErrReservedType)) else
  if (kbyte k 1 =? 0) && negb ((LengthSize k =? 1) && (Length k =? 0))
  then Err (errors_New ErrNonCanonicalLength) else
  Ok tt.

Definition Parse (b : bytes) : result Key :=
  if negb (length b =? Size)%nat then Err (Errorf "got %d" (errors_New ErrBadKeyLength)) else
  let k := to_key b in
  _ ← Validate k;
  Ok k.

(** ** Package [keylist] *)
Module Keylist.
Definition Flatten (keys : list Key) : bytes :=
  foldl (λ out k, out ++ kb k) [] keys.

(** The loop [for i := 0; i < len(b); i += Size] with [b[i:i+Size]]. *)
Fixpoint parse_loop (fuel : nat) (i : Z) (b : bytes) (keys : list Key) : result (list Key) :=
  if i <? zlen b then
    match fuel with
    | O => Diverge
    | S fuel =>
        s ← slice b i (i + 32);
        k ← wrap "key %d" (Parse s);
        parse_loop fuel (i + 32) b (keys ++ [k])
    end
  else Ok keys.

Definition Parse (b : bytes) : result (list Key) :=
  if negb (zlen b mod 32 =? 0)
  then Err (errors_New "key list length %d is not a multiple of %d")
  else parse_loop (length b) 0 b [].
End Keylist.

(** ** Arithmetic of the header *)
Lemma lengthSizeFor_zero : lengthSizeFor 0 = 1.
Proof. done. Qed.

Lemma lengthSizeFor_bounds z :
  0 < z → 256 ^ (lengthSizeFor z - 1) <= z < 256 ^ lengthSizeFor z ∧ 1 <= lengthSizeFor z.
Proof.
  intros Hz. unfold lengthSizeFor, Len64. replace (z =? 0) with false by lia.
  pose proof (Z.log2_spec z Hz) as [H1 H2]. pose proof (Z.log2_nonneg z).
  set (m := Z.log2 z) in *. set (n := (m + 1 + 7) / 8).
  assert (8 * (n - 1) <= m < 8 * n) as Hn by (subst n; lia).
  assert (∀ e, 0 <= e → 256 ^ e = 2 ^ (8 * e)) as Hp.
  { intros e He. by rewrite (Z.pow_mul_r 2 8). }
  assert (1 <= n) by (subst n; lia).
  rewrite !Hp by lia. split; [|done]. split.
  - etrans; [|exact H1]. apply Z.pow_le_mono_r; lia.
  - eapply Z.lt_le_trans; [exact H2|]. apply Z.pow_le_mono_r; lia.
Qed.

Lemma lengthSizeFor_range z : is_u64 z → 1 <= lengthSizeFor z <= 8.
Proof.
  intros [H0 H1]. destruct (decide (z = 0)) as [->|]; [done|].
  destruct (lengthSizeFor_bounds z) as [[Hlo _] ?]; [lia|]. split; [done|].
  destruct (decide (lengthSizeFor z <= 8)); [done|exfalso].
  assert (256 ^ 8 <= 256 ^ (lengthSizeFor z - 1)) by (apply Z.pow_le_mono_r; lia).
  lia.
Qed.

Lemma lengthSizeFor_unique z n :
  1 <= n → 256 ^ (n - 1) <= z < 256 ^ n → lengthSizeFor z = n.
Proof.
  intros Hn [Hlo Hhi]. assert (0 < 256 ^ (n - 1)) by (apply Z.pow_pos_nonneg; lia).
  destruct (lengthSizeFor_bounds z) as [[Hlo' Hhi'] Hm]; [lia|].
  set (m := lengthSizeFor z) in *.
  destruct (Z.lt_trichotomy m n) as [Hlt|[?|Hgt]]; [|done|].
  - assert (256 ^ m <= 256 ^ (n - 1)) by (apply Z.pow_le_mono_r; lia). lia.
  - assert (256 ^ n <= 256 ^ (m - 1)) by (apply Z.pow_le_mono_r; lia). lia.
Qed.

Lemma header_type t n :
  0 <= t <= 4 → 1 <= n <= 8 →
  let b := b2z (z2b (Z.lor (u8 (Z.shiftl t 4)) (u8 (n - 1)))) in
  Z.shiftr b 4 = t ∧ Z.land b 7 + 1 = n ∧ Z.land b 8 = 0.
Proof.
  intros Ht Hn. assert (t = 0 ∨ t = 1 ∨ t = 2 ∨ t = 3 ∨ t = 4) by lia.
  assert (n = 1 ∨ n = 2 ∨ n = 3 ∨ n = 4 ∨ n = 5 ∨ n = 6 ∨ n = 7 ∨ n = 8) by lia.
  destruct_or!; subst; vm_compute; auto.
Qed.

Lemma header_inv (b : byte) :
  Z.land (b2z b) 8 = 0 →
  z2b (Z.lor (u8 (Z.shiftl (Z.shiftr (b2z b) 4) 4)) (u8 (Z.land (b2z b) 7 + 1 - 1))) = b.
Proof. destruct b; vm_compute; done. Qed.

Lemma kbyte_range k i : 0 <= kbyte k i < 256.
Proof. apply b2z_range. Qed.

Lemma LengthSize_range k : 1 <= LengthSize k <= 8.
Proof.
  unfold LengthSize. change 7 with (Z.ones 3).
  rewrite Z.land_ones by lia. pose proof (Z.mod_pos_bound (kbyte k 0) (2 ^ 3)). lia.
Qed.

Lemma Type_range k : 0 <= Type_ k < 16.
Proof.
  unfold Type_. rewrite Z.shiftr_div_pow2 by lia. pose proof (kbyte_range k 0).
  change (2 ^ 4) with 16. lia.
Qed.

(** The bytes of a key: header, length field, hash. *)
Lemma kb_split k :
  kb k = nth 0 (kb k) x00 :: take (Z.to_nat (LengthSize k)) (drop 1 (kb k)) ++ Hash k.
Proof.
  unfold Hash. pose proof (length_kb k) as Hl. destruct (kb k) as [|b l] eqn:E; [done|].
  simpl. by rewrite take_drop, ?drop_0.
Qed.

Lemma splice_tail (n : nat) (l : bytes) :
  (length l ≤ n)%nat →
  splice (replicate n x00) (n - length l) l = replicate (n - length l) x00 ++ l.
Proof.
  intros Hl. unfold splice. rewrite length_replicate, take_replicate.
  rewrite Nat.min_l by lia. rewrite drop_ge by (rewrite length_replicate; lia).
  rewrite app_nil_r. apply take_ge. rewrite length_app, length_replicate. lia.
Qed.

Lemma be_dec_zeros n l : be_dec (replicate n x00 ++ l) = be_dec l.
Proof.
  induction n as [|n IH]; [done|]. simpl. rewrite be_dec_cons, IH.
  change (b2z x00) with 0. lia.
Qed.

Lemma Length_be_dec k : Length k = be_dec (take (Z.to_nat (LengthSize k)) (drop 1 (kb k))).
Proof.
  unfold Length. pose proof (LengthSize_range k). pose proof (length_kb k).
  set (l := take _ _). assert (length l = Z.to_nat (LengthSize k)) as Hl.
  { subst l. rewrite length_take, length_drop. lia. }
  rewrite <- Hl at 1. rewrite splice_tail by lia. apply be_dec_zeros.
Qed.

Lemma Length_range k : is_u64 (Length k).
Proof.
  unfold Length, is_u64. set (l := splice _ _ _).
  assert (length l = 8%nat) as Hl by (subst l; by rewrite length_splice).
  pose proof (be_dec_bound l) as Hb. rewrite Hl in Hb. exact Hb.
Qed.

Lemma drop_be_enc n m z : (n ≤ m)%nat → drop (m - n) (be_enc m z) = be_enc n z.
Proof.
  induction m as [|m IH]; intros Hn; [by replace n with 0%nat by lia|].
  destruct (decide (n = S m)) as [->|]; [by rewrite Nat.sub_diag|].
  replace (S m - n)%nat with (S (m - n)) by lia. simpl. apply IH. lia.
Qed.

(** The array [NewFromHash] fills in. *)
Lemma NewFromHash_kb t len h k :
  is_u64 len → length h = 32%nat → NewFromHash t len h = Ok k →
  t <= 4 ∧
  kb k = z2b (Z.lor (u8 (Z.shiftl t 4)) (u8 (lengthSizeFor len - 1)))
         :: be_enc (Z.to_nat (lengthSizeFor len)) len
         ++ take (31 - Z.to_nat (lengthSizeFor len)) h.
Proof.
  intros Hlen Hh. unfold NewFromHash, IsValid, XattrSet.
  destruct (t <=? 4) eqn:Ht; cbn [negb]; [|done]. intros Hk. apply (f_equal (λ r, match r with Ok k => kb k | _ => [] end)) in Hk.
  split; [lia|]. rewrite <- Hk. clear Hk.
  pose proof (lengthSizeFor_range len Hlen) as Hr.
  set (n := Z.to_nat (lengthSizeFor len)) in *. set (k0 := z2b _).
  rewrite (drop_be_enc n 8) by lia.
  assert (splice (k0 :: replicate 31 x00) 1 (be_enc n len)
          = k0 :: be_enc n len ++ replicate (31 - n) x00) as ->.
  { unfold splice. rewrite length_be_enc.
    change (take 1 (k0 :: replicate 31 x00)) with [k0].
    change (drop (1 + n) (k0 :: replicate 31 x00)) with (drop n (replicate 31 x00)).
    rewrite drop_replicate. apply take_ge.
    cbn [app length]. rewrite ?length_app, length_be_enc, !length_replicate. lia. }
  rewrite kb_to_key.
  2:{ rewrite length_splice. simpl. rewrite length_app, length_be_enc, length_replicate. lia. }
  unfold splice, Size. rewrite length_take, Hh.
  replace (take (1 + n) _) with (k0 :: be_enc n len).
  2:{ simpl. f_equal. symmetry. apply take_app_all. by rewrite length_be_enc. }
  rewrite drop_ge.
  2:{ simpl. rewrite length_app, length_be_enc, length_replicate. lia. }
  rewrite app_nil_r. replace (32 - 1 - n)%nat with (31 - n)%nat by lia.
  cbn [length app]. rewrite firstn_cons. f_equal. apply take_ge.
  rewrite !length_app, length_take, length_be_enc, length_replicate. lia.
Qed.

Lemma NewFromHash_valid_type t len h : t <= 4 → is_ok (NewFromHash t len h) = true.
Proof.
  intros Ht. unfold NewFromHash, IsValid, XattrSet. by replace (t <=? 4) with true by lia.
Qed.

Lemma kbyte0_cons k b l : kb k = b :: l → kbyte k 0 = b2z b.
Proof. unfold kbyte. by intros ->. Qed.

Section new_from_hash.
Context (t len : Z) (h : bytes) (k : Key).
Hypothesis Ht : 0 <= t.
Hypothesis Hlen : is_u64 len.
Hypothesis Hh : length h = 32%nat.
Hypothesis Hk : NewFromHash t len h = Ok k.

Lemma NewFromHash_header :
  Type_ k = t ∧ LengthSize k = lengthSizeFor len ∧ Z.land (kbyte k 0) 8 = 0.
Proof.
  destruct (NewFromHash_kb t len h k Hlen Hh Hk) as [? Hkb].
  unfold Type_, LengthSize. rewrite (kbyte0_cons _ _ _ Hkb).
  apply header_type; [lia|by apply lengthSizeFor_range].
Qed.

Lemma NewFromHash_length_field :
  take (Z.to_nat (LengthSize k)) (drop 1 (kb k)) = be_enc (Z.to_nat (lengthSizeFor len)) len.
Proof.
  destruct (NewFromHash_kb t len h k Hlen Hh Hk) as [? Hkb].
  destruct NewFromHash_header as (_ & -> & _). rewrite Hkb.
  rewrite skipn_cons, drop_0. apply take_app_all. by rewrite length_be_enc.
Qed.

Lemma NewFromHash_Length : Length k = len.
Proof.
  rewrite Length_be_dec, NewFromHash_length_field. apply be_dec_enc_small.
  pose proof (lengthSizeFor_range len Hlen). rewrite Z2Nat.id by lia.
  destruct (decide (len = 0)) as [->|]; [done|].
  destruct (lengthSizeFor_bounds len) as [[_ ?] _]; unfold is_u64 in *; lia.
Qed.

Lemma NewFromHash_Hash : Hash k = take (31 - Z.to_nat (lengthSizeFor len)) h.
Proof.
  destruct (NewFromHash_kb t len h k Hlen Hh Hk) as [? Hkb].
  destruct NewFromHash_header as (_ & Hls & _). unfold Hash. rewrite Hls, Hkb.
  cbn [Nat.add]. rewrite skipn_cons. apply drop_app_all. by rewrite length_be_enc.
Qed.

(** A nonzero length has no leading zero byte. *)
Lemma NewFromHash_first_byte : len ≠ 0 → kbyte k 1 ≠ 0.
Proof.
  intros Hnz. destruct (NewFromHash_kb t len h k Hlen Hh Hk) as [? Hkb].
  unfold is_u64 in Hlen. destruct (lengthSizeFor_bounds len) as [[Hlo Hhi] Hn]; [lia|].
  unfold kbyte. rewrite Hkb.
  replace (Z.to_nat (lengthSizeFor len)) with (S (Z.to_nat (lengthSizeFor len - 1))) by lia.
  change (nth 1 _ x00) with (z2b (Z.shiftr len (8 * Z.of_nat (Z.to_nat (lengthSizeFor len - 1))))).
  rewrite b2z_z2b, Z.shiftr_div_pow2, Z2Nat.id by lia.
  rewrite (Z.pow_mul_r 2 8) by lia. change (2 ^ 8) with 256.
  assert (0 < 256 ^ (lengthSizeFor len - 1)) by (apply Z.pow_pos_nonneg; lia).
  assert (256 ^ lengthSizeFor len = 256 * 256 ^ (lengthSizeFor len - 1)) as Hpow.
  { rewrite <- Z.pow_succ_r by lia. f_equal. lia. }
  assert (1 <= len / 256 ^ (lengthSizeFor len - 1) < 256); [|rewrite Z.mod_small; lia].
  split; [apply Z.div_le_lower_bound; lia|apply Z.div_lt_upper_bound; lia].
Qed.

Lemma NewFromHash_Validate : Validate k = Ok tt.
Proof.
  destruct NewFromHash_header as (Htype & Hls & Hres).
  destruct (NewFromHash_kb t len h k Hlen Hh Hk) as [Ht4 _].
  unfold Validate, IsValid, XattrSet. rewrite Hres, Htype, Hls, NewFromHash_Length.
  replace (t <=? 4) with true by lia. simpl.
  destruct (decide (len = 0)) as [->|Hnz].
  - by rewrite andb_false_r.
  - pose proof (NewFromHash_first_byte Hnz). by replace (kbyte k 1 =? 0) with false by lia.
Qed.

Lemma NewFromHash_Parse : Parse (kb k) = Ok k.
Proof.
  unfold Parse. rewrite length_kb. simpl. by rewrite to_key_kb, NewFromHash_Validate.
Qed.
End new_from_hash.

Lemma Parse_Ok b k : Parse b = Ok k ↔ b = kb k ∧ Validate k = Ok tt.
Proof.
  unfold Parse. split.
  - destruct (length b =? Size)%nat eqn:E; simpl; [|done]. intros H. inv_ok.
    destruct x. split; [|done]. rewrite kb_to_key; [done|]. unfold Size in *. lia.
  - intros [-> HV]. rewrite length_kb. simpl. by rewrite to_key_kb, HV.
Qed.

Lemma Validate_safe k : safe (Validate k).
Proof. unfold Validate. repeat case_if; auto with amber. Qed.

Lemma Parse_safe b : safe (Parse b).
Proof.
  unfold Parse. case_if; [auto with amber|]. simpl.
  apply safe_bind; [apply Validate_safe|auto with amber].
Qed.

Lemma Validate_inv k :
  Validate k = Ok tt →
  Z.land (kbyte k 0) 8 = 0 ∧ Type_ k <= 4 ∧
  (kbyte k 1 = 0 → LengthSize k = 1 ∧ Length k = 0).
Proof.
  unfold Validate, IsValid, XattrSet. repeat case_if; try done. intros _.
  split_and!; [lia|lia|]. intros Hk1. lia.
Qed.

(** The length field of a valid key is the shortest one. *)
Lemma Validate_length_size k : Validate k = Ok tt → lengthSizeFor (Length k) = LengthSize k.
Proof.
  intros (_ & _ & Hcanon)%Validate_inv. pose proof (LengthSize_range k) as Hls.
  destruct (decide (kbyte k 1 = 0)) as [Hz|Hnz].
  { destruct (Hcanon Hz) as [-> ->]. done. }
  apply lengthSizeFor_unique; [lia|]. rewrite Length_be_dec.
  pose proof (length_kb k) as Hl. unfold kbyte in Hnz.
  destruct (kb k) as [|b0 [|b1 l]]; try done. simpl in Hnz, Hl.
  set (n := Z.to_nat (LengthSize k)). cbn [drop].
  replace n with (S (n - 1)) by lia. cbn [take].
  assert (zlen (take (n - 1) l) = LengthSize k - 1) as Hlen by (rewrite length_take; lia).
  rewrite be_dec_cons, Hlen. pose proof (be_dec_bound (take (n - 1) l)) as Hb.
  rewrite Hlen in Hb. pose proof (b2z_range b1).
  assert (256 ^ LengthSize k = 256 * 256 ^ (LengthSize k - 1)) as ->.
  { rewrite <- Z.pow_succ_r by lia. f_equal. lia. }
  nia.
Qed.

(** A valid key is rebuilt from its type, length and hash. *)
Lemma Validate_rebuild k h :
  length h = 32%nat → take (31 - Z.to_nat (LengthSize k)) h = Hash k →
  Validate k = Ok tt → NewFromHash (Type_ k) (Length k) h = Ok k.
Proof.
  intros Hh Htake HV. pose proof (Validate_length_size k HV) as Hls.
  destruct (Validate_inv k HV) as (Hres & Hty & _).
  pose proof (NewFromHash_valid_type (Type_ k) (Length k) h Hty) as [k' Hk']%is_ok_true.
  rewrite Hk'. f_equal. apply Key_eq.
  destruct (NewFromHash_kb _ _ _ _ (Length_range k) Hh Hk') as [_ ->].
  rewrite Hls, Htake, (kb_split k). f_equal.
  - apply (header_inv (nth 0 (kb k) x00)), Hres.
  - f_equal. rewrite Length_be_dec. apply be_enc_dec.
    pose proof (LengthSize_range k). pose proof (length_kb k).
    rewrite length_take, length_drop. lia.
Qed.

(** ** Key lists *)
Module KeylistFacts.
Import Keylist.

Lemma Flatten_acc ks acc : foldl (λ out k, out ++ kb k) acc ks = acc ++ Flatten ks.
Proof.
  unfold Flatten. revert acc. induction ks as [|k ks IH]; intros acc; simpl.
  - by rewrite app_nil_r.
  - rewrite IH, (IH (kb k)). by rewrite app_assoc.
Qed.

Lemma Flatten_cons k ks : Flatten (k :: ks) = kb k ++ Flatten ks.
Proof. unfold Flatten at 1. simpl. apply Flatten_acc. Qed.

Lemma Flatten_snoc ks k : Flatten (ks ++ [k]) = Flatten ks ++ kb k.
Proof. unfold Flatten. by rewrite foldl_app. Qed.

Lemma length_Flatten ks : zlen (Flatten ks) = 32 * zlen ks.
Proof.
  induction ks as [|k ks IH]; [done|].
  rewrite Flatten_cons, length_app, length_kb. simpl. lia.
Qed.

Lemma parse_loop_Flatten fuel pre ks :
  Forall (λ k, Validate k = Ok tt) ks → (32 * length ks ≤ fuel)%nat →
  parse_loop fuel (32 * zlen pre) (Flatten pre ++ Flatten ks) pre = Ok (pre ++ ks).
Proof.
  revert fuel pre. induction ks as [|k ks IH]; intros fuel pre Hv Hf.
  - unfold Flatten at 2. rewrite !app_nil_r.
    destruct fuel; simpl; rewrite length_Flatten; by rewrite Z.ltb_irrefl.
  - apply Forall_cons in Hv as [Hk Hv]. destruct fuel as [|fuel]; [simpl in Hf; lia|].
    cbn [parse_loop]. rewrite Flatten_cons, !length_app, length_kb.
    rewrite !Nat2Z.inj_add, !length_Flatten.
    replace (_ <? _) with true by lia.
    rewrite slice_app3 by (rewrite ?length_Flatten, ?length_kb; lia). simpl.
    rewrite (proj2 (Parse_Ok (kb k) k)) by done. simpl.
    rewrite (cons_middle k pre ks), !app_assoc, <- Flatten_snoc.
    rewrite <- (IH fuel (pre ++ [k])); [|done|simpl in Hf; lia]. f_equal.
    rewrite length_app. simpl. lia.
Qed.

Lemma parse_loop_inv fuel i b acc ks :
  parse_loop fuel i b acc = Ok ks → 0 <= i → i mod 32 = 0 → zlen b mod 32 = 0 → i <= zlen b →
  ∃ ks', ks = acc ++ ks' ∧ drop (Z.to_nat i) b = Flatten ks' ∧
         Forall (λ k, Validate k = Ok tt) ks'.
Proof.
  revert i acc. induction fuel as [|fuel IH]; intros i acc; simpl.
  - case_if; [done|]. intros [= <-] ????. exists []. rewrite app_nil_r.
    split_and!; [done| |done]. rewrite drop_ge by lia. done.
  - case_if; intros H Hi Hmod Hb Hle.
    2:{ inv_ok. exists []. rewrite app_nil_r. split_and!; [done| |done].
        rewrite drop_ge by lia. done. }
    inv_ok. apply slice_inv in H as (_ & _ & ? & ->). apply Parse_Ok in H0 as [Hs HV].
    apply IH in H1 as (ks' & -> & Hd & Hv); [|lia..].
    exists (x0 :: ks'). rewrite <- app_assoc. split_and!; [done| |by constructor].
    rewrite Flatten_cons, <- Hs, <- Hd.
    replace (Z.to_nat (i + 32)) with (Z.to_nat i + 32)%nat by lia.
    rewrite <- drop_drop. replace (Z.to_nat (i + 32 - i)) with 32%nat by lia.
    by rewrite take_drop.
Qed.
End KeylistFacts.

(** ** Properties *)

(** A key built by [NewFromHash] carries exactly what it was built from
    (type, 64-bit length, truncated hash), passes [Validate], and is read back
    unchanged by [Parse]. *)
Theorem NewFromHash_roundtrip t len h k :
  0 <= t → is_u64 len → length h = 32%nat → NewFromHash t len h = Ok k →
  Type_ k = t ∧ Length k = len ∧ LengthSize k = lengthSizeFor len ∧
  Hash k = take (31 - Z.to_nat (lengthSizeFor len)) h ∧
  Validate k = Ok tt ∧ Parse (kb k) = Ok k.
Proof.
  intros Ht Hlen Hh Hk. destruct (NewFromHash_header t len h k) as (? & ? & _); [done..|].
  split_and!; eauto using NewFromHash_Length, NewFromHash_Hash, NewFromHash_Validate,
    NewFromHash_Parse.
Qed.

Lemma NewFromHash_roundtrip_witness :
  ∃ k, NewFromHash DirNode 1000 (replicate 32 x07) = Ok k ∧
       Type_ k = DirNode ∧ Length k = 1000 ∧ Parse (kb k) = Ok k.
Proof.
  eexists. split; [reflexivity|].
  destruct (NewFromHash_roundtrip DirNode 1000 (replicate 32 x07) _
              ltac:(done) ltac:(done) ltac:(done) eq_refl) as (? & ? & ? & ? & ? & ?).
  split_and!; assumption.
Defined.

(** [Validate] accepts exactly the canonical keys: those that
    [NewFromHash] rebuilds, byte for byte, from the key's own type, length and
    hash bytes (reserved bit clear, defined type, shortest length field). *)
Theorem Validate_canonical k h :
  length h = 32%nat → take (31 - Z.to_nat (LengthSize k)) h = Hash k →
  Validate k = Ok tt ↔ NewFromHash (Type_ k) (Length k) h = Ok k.
Proof.
  intros Hh Ht. split; [by apply Validate_rebuild|]. intros Hk.
  eapply NewFromHash_Validate; [|apply Length_range|exact Hh|exact Hk].
  apply Type_range.
Qed.

Lemma Validate_canonical_witness :
  let k := to_key ([x00; x05] ++ replicate 30 x2a) in
  NewFromHash (Type_ k) (Length k) (replicate 32 x2a) = Ok k.
Proof.
  apply Validate_canonical; [reflexivity|vm_compute; reflexivity|vm_compute; reflexivity].
Defined.

(** A byte string is an accepted key list exactly when it is the
    concatenation of valid keys, and those keys are the ones returned, in
    order. *)
Theorem Keylist_Parse_Flatten b ks :
  Keylist.Parse b = Ok ks ↔ b = Keylist.Flatten ks ∧ Forall (λ k, Validate k = Ok tt) ks.
Proof.
  unfold Keylist.Parse. split.
  - destruct (zlen b mod 32 =? 0) eqn:E; simpl; [|done]. intros H.
    apply KeylistFacts.parse_loop_inv in H as (ks' & -> & Hd & Hv); [|done|done|lia|lia].
    done.
  - intros [-> Hv]. rewrite KeylistFacts.length_Flatten.
    replace (_ =? 0) with true by lia. simpl.
    pose proof (KeylistFacts.length_Flatten ks).
    apply (KeylistFacts.parse_loop_Flatten (length (Keylist.Flatten ks)) [] ks Hv). lia.
Qed.
