(* ===== verification/Cborx.v ===== *)
(** * Package [cborx]: canonical CBOR for extended attributes

    [appendHead]/[readHead] write and read one CBOR head, [appendBStr]/
    [readBStr] one byte string, [EncodeXattrs]/[DecodeXattrs] the map of
    extended attributes.  A Go [map[string][]byte] is a [gmap]; its iteration
    order is the one [map_to_list] gives, which the sort makes irrelevant. *)

From Stdlib Require Import Init.Byte.
From S2P Require Import Prelude Machine.
From Stdlib Require Import ZifyBool ZifyNat.
Local Open Scope Z_scope.

Definition ErrUnexpectedEOF := "unexpected EOF".

(** ** Encoding *)
Definition appendHead (b : bytes) (major : Z) (n : Z) : bytes :=
  let h := u8 (Z.shiftl major 5) in
  if n <? 24 then b ++ [z2b (Z.lor h n)]
  else if n <? 2 ^ 8 then b ++ [z2b (Z.lor h 24); z2b n]
  else if n <? 2 ^ 16 then b ++ [z2b (Z.lor h 25); z2b (Z.shiftr n 8); z2b n]
  else if n <? 2 ^ 32 then
    b ++ [z2b (Z.lor h 26); z2b (Z.shiftr n 24); z2b (Z.shiftr n 16); z2b (Z.shiftr n 8); z2b n]
  else
    b ++ [z2b (Z.lor h 27);
          z2b (Z.shiftr n 56); z2b (Z.shiftr n 48); z2b (Z.shiftr n 40); z2b (Z.shiftr n 32);
          z2b (Z.shiftr n 24); z2b (Z.shiftr n 16); z2b (Z.shiftr n 8); z2b n].

Definition appendBStr (b s : bytes) : bytes := appendHead b 2 (u64 (zlen s)) ++ s.

(** The order [sort.Slice] is given: bytewise on the encoded names. *)
Definition name_le (x y : bytes) : Prop := bytes_le (appendBStr [] x) (appendBStr [] y).
#[export] Instance name_le_dec : RelDecision name_le.
Proof. intros x y. unfold name_le. apply _. Defined.

Definition EncodeXattrs (m : gmap bytes bytes) : bytes :=
  let names := merge_sort name_le (map_to_list m).*1 in
  let out := appendHead [] 5 (u64 (Z.of_nat (size m))) in
  foldl (λ out n, appendBStr (appendBStr out n) (default [] (m !! n))) out names.

(** ** Decoding *)
Definition readHead (b : bytes) : result (Z * Z * bytes) :=
  if (zlen b =? 0) then Err (errors_New ErrUnexpectedEOF) else
  b0 ← index b 0;
  let major := Z.shiftr (b2z b0) 5 in
  let ai := Z.land (b2z b0) 0x1f in
  b ← slice_from b 1;
  let arg (n : Z) :=
    if zlen b <? n then Err (errors_New ErrUnexpectedEOF) else
    a ← slice b 0 n;
    rest ← slice_from b n;
    Ok (major, be_dec a, rest) in
  if ai <? 24 then Ok (major, ai, b)
  else if ai =? 24 then arg 1
  else if ai =? 25 then arg 2
  else if ai =? 26 then arg 4
  else if ai =? 27 then arg 8
  else Err (errors_New "cborx: unsupported additional info %d").

Definition readBStr (b : bytes) : result (bytes * bytes) :=
  '(major, n, b) ← readHead b;
  if negb (major =? 2) then Err (errors_New "cborx: expected byte string (major 2), got major %d") else
  if zlen b <? n then Err (errors_New ErrUnexpectedEOF) else
  out ← slice b 0 n;
  rest ← slice_from b n;
  Ok (out, rest).

Fixpoint decode_pairs (n : nat) (b : bytes) (m : gmap bytes bytes) :
    result (gmap bytes bytes * bytes) :=
  match n with
  | O => Ok (m, b)
  | S n =>
      '(name, b) ← wrap "cborx: xattr key %d" (readBStr b);
      '(val, b) ← wrap "cborx: xattr value for %q" (readBStr b);
      decode_pairs n b (<[name := val]> m)
  end.

Definition DecodeXattrs (b : bytes) : result (gmap bytes bytes) :=
  '(major, n, rest) ← readHead b;
  if negb (major =? 5) then Err (errors_New "cborx: expected CBOR map (major 5), got major %d") else
  let b := rest in
  if n >? zlen b / 2 then Err (errors_New "cborx: xattr map claims %d pairs in %d bytes") else
  '(m, b) ← decode_pairs (Z.to_nat n) b ∅;
  if negb (zlen b =? 0) then Err (errors_New "cborx: %d trailing bytes after xattr map") else
  Ok m.

(** ** One head *)
Lemma head_byte major ai :
  0 <= major < 8 → 0 <= ai < 32 →
  let b := b2z (z2b (Z.lor (u8 (Z.shiftl major 5)) ai)) in
  Z.shiftr b 5 = major ∧ Z.land b 0x1f = ai.
Proof.
  intros Hm Ha.
  assert (∀ m a, m ∈ seqZ 0 8 → a ∈ seqZ 0 32 →
    let b := b2z (z2b (Z.lor (u8 (Z.shiftl m 5)) a)) in
    (Z.shiftr b 5 =? m) && (Z.land b 0x1f =? a) = true) as H.
  { intros m a H1 H2.
    assert (forallb (λ m, forallb (λ a,
      let b := b2z (z2b (Z.lor (u8 (Z.shiftl m 5)) a)) in
      (Z.shiftr b 5 =? m) && (Z.land b 0x1f =? a)) (seqZ 0 32)) (seqZ 0 8) = true) as F
      by (vm_compute; reflexivity).
    rewrite forallb_forall in F. specialize (F m (proj1 (list_elem_of_In _ _) H1)).
    rewrite forallb_forall in F. exact (F a (proj1 (list_elem_of_In _ _) H2)). }
  specialize (H major ai). rewrite !elem_of_seqZ in H.
  specialize (H ltac:(lia) ltac:(lia)). simpl in *. lia.
Qed.

Lemma appendHead_acc b major n : appendHead b major n = b ++ appendHead [] major n.
Proof. unfold appendHead. by repeat case_if. Qed.

Lemma appendBStr_acc b s : appendBStr b s = b ++ appendBStr [] s.
Proof. unfold appendBStr. rewrite appendHead_acc. by rewrite app_assoc. Qed.

(** The head as additional information and big-endian argument bytes. *)
Lemma appendHead_form major n :
  is_u64 n → ∃ ai w,
    appendHead [] major n = z2b (Z.lor (u8 (Z.shiftl major 5)) ai) :: be_enc w n ∧
    ((w = 0%nat ∧ ai = n ∧ n < 24) ∨
     (w = 1%nat ∧ ai = 24 ∧ n < 2 ^ 8) ∨ (w = 2%nat ∧ ai = 25 ∧ n < 2 ^ 16) ∨
     (w = 4%nat ∧ ai = 26 ∧ n < 2 ^ 32) ∨ (w = 8%nat ∧ ai = 27)).
Proof.
  intros [H0 H1]. unfold appendHead. repeat case_if;
    [exists n, 0%nat|exists 24, 1%nat|exists 25, 2%nat|exists 26, 4%nat|exists 27, 8%nat];
    (split; [unfold be_enc; simpl; rewrite ?Z.shiftr_0_r; reflexivity|lia]).
Qed.

Lemma readHead_arg b0 a rest w ai major :
  Z.shiftr (b2z b0) 5 = major → Z.land (b2z b0) 0x1f = ai → length a = w →
  (w = 1%nat ∧ ai = 24 ∨ w = 2%nat ∧ ai = 25 ∨ w = 4%nat ∧ ai = 26 ∨ w = 8%nat ∧ ai = 27) →
  readHead (b0 :: a ++ rest) = Ok (major, be_dec a, rest).
Proof.
  intros Hm Ha Hw Hcase. unfold readHead.
  replace (zlen (b0 :: a ++ rest) =? 0) with false by (simpl; lia).
  rewrite (index_ok _ _ b0) by done. cbn [mbind result_bind]. rewrite Hm, Ha.
  rewrite slice_from_cons. cbn [mbind result_bind].
  assert (∀ n, n = Z.of_nat w →
    (if zlen (a ++ rest) <? n then Err (errors_New ErrUnexpectedEOF) else
     x ← slice (a ++ rest) 0 n; r ← slice_from (a ++ rest) n; Ok (major, be_dec x, r))
    = Ok (major, be_dec a, rest)) as Harg.
  { intros n ->. rewrite length_app. replace (_ <? _) with false by lia.
    rewrite (slice_app3 [] a rest) by (simpl; lia). cbn [mbind result_bind].
    by rewrite slice_from_app by lia. }
  destruct Hcase as [[Ew ->]|[[Ew ->]|[[Ew ->]|[Ew ->]]]]; simpl; apply Harg; lia.
Qed.

Lemma readHead_appendHead major n rest :
  0 <= major < 8 → is_u64 n →
  readHead (appendHead [] major n ++ rest) = Ok (major, n, rest).
Proof.
  intros Hm Hn. destruct (appendHead_form major n Hn) as (ai & w & -> & Hw).
  assert (0 <= ai < 32) as Hai by (unfold is_u64 in Hn; lia).
  destruct (head_byte major ai Hm Hai) as [H5 H1f].
  set (b0 := z2b _) in *. cbn [app].
  destruct Hw as [(-> & -> & Hlt)|Hw].
  - unfold readHead. replace (zlen _ =? 0) with false by (simpl; lia).
    rewrite (index_ok _ _ b0) by done. cbn [mbind result_bind app]. rewrite H5, H1f.
    rewrite slice_from_cons. cbn [mbind result_bind].
    by replace (n <? 24) with true by lia.
  - rewrite (readHead_arg b0 (be_enc w n) rest w ai major);
      [|done|done|by rewrite length_be_enc|lia].
    rewrite be_dec_enc_small; [done|]. unfold is_u64 in *.
    destruct Hw as [(-> & -> & ?)|[(-> & -> & ?)|[(-> & -> & ?)|(-> & ->)]]]; simpl; lia.
Qed.

Lemma readBStr_appendBStr s rest :
  zlen s < 2 ^ 64 → readBStr (appendBStr [] s ++ rest) = Ok (s, rest).
Proof.
  intros Hs. unfold readBStr, appendBStr. rewrite u64_small by (unfold is_u64; lia).
  rewrite <- app_assoc, readHead_appendHead by (unfold is_u64; lia).
  cbn [mbind result_bind]. simpl negb. cbv iota.
  rewrite length_app. replace (_ <? _) with false by lia.
  rewrite (slice_app3 [] s rest) by (simpl; lia). cbn [mbind result_bind].
  by rewrite slice_from_app.
Qed.

(** ** The map *)
Section roundtrip.
Implicit Types (m : gmap bytes bytes) (names : list bytes).

Definition pair_enc m (n : bytes) : bytes :=
  appendBStr [] n ++ appendBStr [] (default [] (m !! n)).

Lemma foldl_pairs m names out :
  foldl (λ out n, appendBStr (appendBStr out n) (default [] (m !! n))) out names
  = out ++ concat (pair_enc m <$> names).
Proof.
  revert out. induction names as [|n names IH]; intros out; simpl.
  - by rewrite app_nil_r.
  - rewrite IH, (appendBStr_acc (appendBStr out n)), (appendBStr_acc out).
    unfold pair_enc. by rewrite !app_assoc.
Qed.

Lemma length_pair_enc m n : 2 <= zlen (pair_enc m n).
Proof.
  assert (∀ s, 1 <= zlen (appendBStr [] s)) as H.
  { intros s. unfold appendBStr. rewrite length_app.
    destruct (appendHead_form 2 _ (u64_range (zlen s))) as (? & ? & -> & _). simpl. lia. }
  unfold pair_enc. rewrite length_app. specialize (H n) as H1.
  specialize (H (default [] (m !! n))). lia.
Qed.

Lemma length_pairs m names : 2 * zlen names <= zlen (concat (pair_enc m <$> names)).
Proof.
  induction names as [|n names IH]; [done|].
  rewrite fmap_cons. cbn [concat length]. rewrite length_app.
  pose proof (length_pair_enc m n). lia.
Qed.

Lemma decode_pairs_enc m names (acc : gmap bytes bytes) rest :
  (∀ n, n ∈ names → zlen n < 2 ^ 64) →
  (∀ n, n ∈ names → zlen (default [] (m !! n)) < 2 ^ 64) →
  decode_pairs (length names) (concat (pair_enc m <$> names) ++ rest) acc
  = Ok (foldl (λ acc n, <[n := default [] (m !! n)]> acc) acc names, rest).
Proof.
  revert acc. induction names as [|n names IH]; intros acc Hn Hv; simpl; [done|].
  unfold pair_enc at 1. rewrite <- !app_assoc.
  rewrite readBStr_appendBStr by (apply Hn; set_solver). simpl.
  rewrite readBStr_appendBStr by (apply Hv; set_solver). simpl.
  apply IH; set_solver.
Qed.

Lemma foldl_insert_lookup m names (acc : gmap bytes bytes) k :
  foldl (λ acc n, <[n := default [] (m !! n)]> acc) acc names !! k
  = if decide (k ∈ names) then Some (default [] (m !! k)) else acc !! k.
Proof.
  revert acc. induction names as [|n names IH]; intros acc; cbn [foldl].
  - rewrite decide_False by set_solver. done.
  - rewrite IH. destruct (decide (k ∈ names)); [rewrite decide_True by set_solver; done|].
    destruct (decide (k = n)) as [->|].
    + rewrite decide_True by set_solver. by rewrite lookup_insert_eq.
    + rewrite decide_False by set_solver. by rewrite lookup_insert_ne.
Qed.

Lemma foldl_insert_all m names :
  (∀ k, k ∈ names ↔ is_Some (m !! k)) →
  foldl (λ acc n, <[n := default [] (m !! n)]> acc) ∅ names = m.
Proof.
  intros Hn. apply map_eq. intros k. rewrite foldl_insert_lookup.
  destruct (decide (k ∈ names)) as [Hk|Hk].
  - apply Hn in Hk as [v Hv]. by rewrite Hv.
  - rewrite lookup_empty. symmetry. apply eq_None_not_Some. by rewrite <- Hn.
Qed.

Lemma sorted_names_elem m k :
  k ∈ merge_sort name_le (map_to_list m).*1 ↔ is_Some (m !! k).
Proof.
  rewrite merge_sort_Permutation, list_elem_of_fmap. split.
  - intros ([k' v] & -> & H%elem_of_map_to_list). eauto.
  - intros [v H]. exists (k, v). split; [done|]. by apply elem_of_map_to_list.
Qed.

Lemma sorted_names_length m :
  length (merge_sort name_le (map_to_list m).*1) = size m.
Proof. by rewrite merge_sort_Permutation, length_fmap, length_map_to_list. Qed.
End roundtrip.

Lemma readHead_safe b : safe (readHead b).
Proof.
  unfold readHead. case_if; [auto with amber|].
  apply safe_bind; [apply index_safe; lia|intros b0 _].
  apply safe_bind; [unfold slice_from; apply slice_safe; lia|intros b' _].
  assert (∀ n, 0 <= n → safe (
    if zlen b' <? n then Err (errors_New ErrUnexpectedEOF) else
    a ← slice b' 0 n; rest ← slice_from b' n;
    Ok (Z.shiftr (b2z b0) 5, be_dec a, rest))) as Harg.
  { intros n Hn. case_if; [auto with amber|].
    apply safe_bind; [apply slice_safe; lia|intros ? _].
    apply safe_bind; [unfold slice_from; apply slice_safe; lia|auto with amber]. }
  case_if; [auto with amber|]. do 4 (case_if; [apply Harg; lia|]). auto with amber.
Qed.

Lemma readHead_arg_nonneg b major n rest : readHead b = Ok (major, n, rest) → 0 <= n.
Proof.
  unfold readHead. case_if; [done|]. intros H. inv_ok.
  assert (0 <= Z.land (b2z x) 31) by (apply Z.land_nonneg; lia).
  revert H1. repeat case_if; intros H1; inv_ok; simplify_eq; try lia; apply be_dec_bound.
Qed.

Lemma readBStr_safe b : safe (readBStr b).
Proof.
  unfold readBStr. apply safe_bind; [apply readHead_safe|intros [[major n] rest] H].
  apply readHead_arg_nonneg in H. repeat case_if; auto with amber.
  apply safe_bind; [apply slice_safe; lia|intros ? _].
  apply safe_bind; [unfold slice_from; apply slice_safe; lia|auto with amber].
Qed.

Lemma decode_pairs_safe n b m : safe (decode_pairs n b m).
Proof.
  revert b m. induction n as [|n IH]; intros b m; simpl; [auto with amber|].
  apply safe_bind; [auto using readBStr_safe with amber|intros [name b'] _].
  apply safe_bind; [auto using readBStr_safe with amber|intros [val b''] _].
  apply IH.
Qed.

(** ** Properties *)

Lemma xattrs_decode (m : gmap bytes bytes) :
  Z.of_nat (size m) < 2 ^ 64 →
  map_Forall (λ k v, zlen k < 2 ^ 64 ∧ zlen v < 2 ^ 64) m →
  DecodeXattrs (EncodeXattrs m) = Ok m.
Proof.
  intros Hsize Hall. unfold EncodeXattrs, DecodeXattrs.
  rewrite foldl_pairs, u64_small by (unfold is_u64; lia).
  set (names := merge_sort _ _).
  assert (∀ k, k ∈ names ↔ is_Some (m !! k)) as Hn by apply sorted_names_elem.
  assert (length names = size m) as Hlen by apply sorted_names_length.
  rewrite readHead_appendHead by (unfold is_u64; lia). cbn [mbind result_bind].
  pose proof (length_pairs m names). simpl negb. cbv iota.
  replace (_ >? _) with false by lia.
  rewrite Nat2Z.id, <- Hlen, <- (app_nil_r (concat _)), decode_pairs_enc.
  - simpl. by rewrite foldl_insert_all.
  - intros n [v Hv]%Hn. by apply Hall in Hv as [? _].
  - intros n [v Hv]%Hn. rewrite Hv. by apply Hall in Hv as [_ ?].
Qed.

(** Encoding then decoding a set of extended attributes gives the same
    set back, for every map whose sizes fit the 64-bit CBOR arguments. *)
Theorem DecodeXattrs_EncodeXattrs (m : gmap bytes bytes) :
  Z.of_nat (size m) < 2 ^ 64 →
  map_Forall (λ k v, zlen k < 2 ^ 64 ∧ zlen v < 2 ^ 64) m →
  DecodeXattrs (EncodeXattrs m) = Ok m.
Proof. exact (xattrs_decode m). Qed.

Lemma DecodeXattrs_EncodeXattrs_witness :
  let m : gmap bytes bytes := {[ [x75; x61] := [x01; x02]; [x62] := [] ]} in
  DecodeXattrs (EncodeXattrs m) = Ok m.
Proof.
  apply DecodeXattrs_EncodeXattrs; [vm_compute; reflexivity|].
  apply map_Forall_insert_2; [vm_compute; auto|].
  apply map_Forall_singleton. vm_compute. auto.
Defined.

(** On arbitrary, untrusted bytes the decoder returns a map or an error:
    no slice expression of it is ever out of range. *)
Theorem DecodeXattrs_never_panics b : safe (DecodeXattrs b).
Proof.
  unfold DecodeXattrs. apply safe_bind; [apply readHead_safe|intros [[major n] rest] _].
  repeat case_if; auto with amber.
  apply safe_bind; [apply decode_pairs_safe|intros [m b'] _]. case_if; auto with amber.
Qed.

(** The decoder accepts more than the encoder emits, although its comments
    say it supports only the shortest-form heads [appendHead] emits: the empty
    map with a two-byte head, and a map that lists one name twice, both
    decode. *)
Theorem DecodeXattrs_accepts_noncanonical :
  (DecodeXattrs [xb8; x00] = Ok ∅ ∧ EncodeXattrs ∅ ≠ [xb8; x00]) ∧
  DecodeXattrs [xa2; x41; x61; x41; x01; x41; x61; x41; x02] = Ok {[ [x61] := [x02] ]}.
Proof. split; [split|]; vm_compute; done. Qed.
