(* ===== verification/Chunkers.v ===== *)
(** * Package [chunkers]: the item chunker

    [ItemChunker] decides where a run of index items or directory entries
    ends.  [SplitBytes] hands file content to the third-party ultracdc chunker
    and is represented, where files are built, by the list of chunks it
    yields. *)

From Stdlib Require Import Init.Byte.
From S2P Require Import Prelude Machine Key.
From Stdlib Require Import ZifyBool ZifyNat.
Local Open Scope Z_scope.

(** Go's [int] on a 64-bit platform. *)
Definition i64 (z : Z) : Z := (z + 2 ^ 63) mod 2 ^ 64 - 2 ^ 63.

Lemma i64_small z : - 2 ^ 63 <= z < 2 ^ 63 → i64 z = z.
Proof. intros. unfold i64. rewrite Z.mod_small; lia. Qed.

Record ItemChunker := mkItemChunker { MinRun : Z; MaxRun : Z; mask : Z }.

(** A negative shift count panics. *)
Definition NewItemChunker (bits : Z) : result ItemChunker :=
  if bits <? 0 then Panic else
  let avg := i64 (Z.shiftl 1 bits) in
  let minRun := Z.max (Z.quot avg 4) 2 in
  let mask := if bits >? 0 then u64 (u64 (Z.shiftl 1 bits) - 1) else 0 in
  Ok (mkItemChunker minRun (i64 (avg * 4)) mask).

Definition IsBoundary `{Blake3} (c : ItemChunker) (enc : bytes) (runLen : Z) : bool :=
  if runLen >=? MaxRun c then true
  else if runLen <? MinRun c then false
  else Z.land (le_dec (take 8 (Sum256 enc))) (mask c) =? 0.

(** The bounds the builders rely on: a run of one item is never closed. *)
Definition chunker_ok (c : ItemChunker) : Prop := 2 <= MinRun c ∧ 2 <= MaxRun c.

Lemma NewItemChunker_ok bits c :
  bits <= 60 → NewItemChunker bits = Ok c →
  chunker_ok c ∧ MinRun c <= MaxRun c ∧ MaxRun c = 4 * 2 ^ bits.
Proof.
  intros Hb. unfold NewItemChunker. case_if; [done|]. intros [= <-]. simpl.
  rewrite Z.shiftl_1_l.
  assert (2 ^ bits <= 2 ^ 60) by (apply Z.pow_le_mono_r; lia).
  assert (1 <= 2 ^ bits) by (apply (Z.pow_le_mono_r 2 0 bits); lia).
  rewrite (i64_small (2 ^ bits)) by lia. rewrite i64_small by lia.
  unfold chunker_ok. simpl. rewrite Z.quot_div_nonneg by lia. lia.
Qed.

Section boundary.
Context `{Blake3}.

Lemma IsBoundary_one c enc : chunker_ok c → IsBoundary c enc 1 = false.
Proof.
  intros [? ?]. unfold IsBoundary.
  replace (1 >=? MaxRun c) with false by lia. by replace (1 <? MinRun c) with true by lia.
Qed.

Lemma IsBoundary_max c enc n : IsBoundary c enc n = false → n < MaxRun c.
Proof. unfold IsBoundary. case_if; [done|]. lia. Qed.
End boundary.
