(* ===== verification/FsEncode.v ===== *)
(** * Package [fstree]: objects and their serialization
    ([object.go], [encode.go], [decode.go])

    The CBOR library (fxamacker/cbor) is not part of the repository.  Its calls
    are the operations of the class [Cbor], and what the code relies on (the
    decoder inverts the encoder within the library's limits) is the class
    [CborLaws]. *)

From Stdlib Require Import Init.Byte.
From S2P Require Import Prelude Machine Key Cborx.
From Stdlib Require Import ZifyBool ZifyNat.
Local Open Scope Z_scope.

(** ** Data *)
Record Object := mkObject { obj_key : Key; obj_bytes : bytes }.

Record Entry := mkEntry {
  Name : bytes;
  Mode : Z;
  UID : Z;
  GID : Z;
  Mtime : Z;
  ContentKey : bytes;
  LinkTarget : bytes;
  Rdev : list Z;
  XattrsIn : bytes;
  XattrsKey : bytes;
}.

Record DirPair := mkDirPair { SepName : bytes; ChildKey : bytes }.

#[export] Instance Object_eq_dec : EqDecision Object.
Proof. solve_decision. Defined.
#[export] Instance Entry_eq_dec : EqDecision Entry.
Proof. solve_decision. Defined.
#[export] Instance DirPair_eq_dec : EqDecision DirPair.
Proof. solve_decision. Defined.

(** The widths of the Go fields. *)
Definition entry_wf (e : Entry) : Prop :=
  is_u64 (Mode e) ∧ is_u64 (UID e) ∧ is_u64 (GID e) ∧
  - 2 ^ 63 <= Mtime e < 2 ^ 63 ∧ Forall is_u64 (Rdev e).

(** ** The CBOR library *)
Class Cbor := {
  marshal_keys : list bytes → result bytes;        (* Marshal([][]byte) *)
  marshal_entry : Entry → result bytes;            (* Marshal(Entry) *)
  marshal_entries : list Entry → result bytes;     (* Marshal([]Entry) *)
  marshal_pair : DirPair → result bytes;           (* Marshal(DirPair) *)
  marshal_pairs : list DirPair → result bytes;     (* Marshal([]DirPair) *)
  unmarshal_keys : bytes → result (list bytes);
  unmarshal_entries : bytes → result (list Entry);
  unmarshal_pairs : bytes → result (list DirPair);
}.

(** The library's default limit on the elements of an array. *)
Definition MaxArrayElements : nat := Z.to_nat 131072.

Class CborLaws `{Cbor} := {
  (** byte strings and arrays of them always encode *)
  marshal_keys_ok l : is_ok (marshal_keys l) = true;
  marshal_pair_ok p : is_ok (marshal_pair p) = true;
  marshal_pairs_ok l : is_ok (marshal_pairs l) = true;
  (** an array of entries encodes when each of its elements does *)
  marshal_entries_ok l :
    Forall (λ e, is_ok (marshal_entry e) = true) l → is_ok (marshal_entries l) = true;
  (** decoding inverts encoding *)
  unmarshal_marshal_keys l b :
    (length l ≤ MaxArrayElements)%nat → marshal_keys l = Ok b → unmarshal_keys b = Ok l;
  unmarshal_marshal_entries l b :
    (length l ≤ MaxArrayElements)%nat → Forall entry_wf l →
    marshal_entries l = Ok b → unmarshal_entries b = Ok l;
  unmarshal_marshal_pairs l b :
    (length l ≤ MaxArrayElements)%nat → marshal_pairs l = Ok b → unmarshal_pairs b = Ok l;
  (** decoding returns on every input *)
  unmarshal_keys_safe b : safe (unmarshal_keys b);
  unmarshal_entries_safe b : safe (unmarshal_entries b);
  unmarshal_pairs_safe b : safe (unmarshal_pairs b);
}.

(** ** Encoders *)
Section encode.
Context `{Blake3} `{Cbor}.

Definition EncodeBlob (data : bytes) : result Object :=
  k ← New Blob (u64 (zlen data)) data;
  Ok (mkObject k data).

Definition EncodeFileNode (children : list Key) : result Object :=
  let arr := kb <$> children in
  let sum := foldl (λ sum c, u64 (sum + Length c)) 0 children in
  b ← marshal_keys arr;
  k ← New FileNode sum b;
  Ok (mkObject k b).

(** The loop body of [EncodeDirLeaf]: the content key and the xattrs key of
    one entry, each counted when it has the size of a key. *)
Definition leaf_sub (e : Entry) (sub : Z) : result Z :=
  sub ← (if (length (ContentKey e) =? Size)%nat
         then ck ← wrap "entry %q content key" (Parse (ContentKey e));
              Ok (u64 (sub + Length ck))
         else Ok sub);
  if (length (XattrsKey e) =? Size)%nat
  then xk ← wrap "entry %q xattrs key" (Parse (XattrsKey e));
       Ok (u64 (sub + Length xk))
  else Ok sub.

Definition EncodeDirLeaf (entries : list Entry) : result Object :=
  b ← marshal_entries entries;
  sub ← foldR leaf_sub entries 0;
  k ← New DirLeaf (u64 (u64 (zlen b) + sub)) b;
  Ok (mkObject k b).

Definition node_sub (p : DirPair) (sub : Z) : result Z :=
  ck ← wrap "dir node child key" (Parse (ChildKey p));
  Ok (u64 (sub + Length ck)).

Definition EncodeDirNode (pairs : list DirPair) : result Object :=
  b ← marshal_pairs pairs;
  sub ← foldR node_sub pairs 0;
  k ← New DirNode (u64 (u64 (zlen b) + sub)) b;
  Ok (mkObject k b).

Definition EncodeXattrSet (m : gmap bytes bytes) : result Object :=
  let b := EncodeXattrs m in
  k ← New XattrSet (u64 (zlen b)) b;
  Ok (mkObject k b).

(** ** Decoders *)
Definition DecodeFileNode (b : bytes) : result (list Key) :=
  raw ← wrap "fstree: decoding file node" (unmarshal_keys b);
  mapR (λ r, wrap "fstree: file node child %d" (Parse r)) raw.

Definition DecodeDirLeaf (b : bytes) : result (list Entry) :=
  wrap "fstree: decoding dir leaf" (unmarshal_entries b).

Definition DecodeDirNode (b : bytes) : result (list DirPair) :=
  wrap "fstree: decoding dir node" (unmarshal_pairs b).
End encode.

(** ** What an encoder returns *)
Section encode_facts.
Context `{Blake3} `{Cbor} `{!CborLaws}.

Lemma New_ok t len b : 0 <= t <= 4 → is_u64 len →
  ∃ k, New t len b = Ok k ∧ Type_ k = t ∧ Length k = len ∧ Validate k = Ok tt.
Proof.
  intros Ht Hlen. unfold New.
  destruct (proj1 (is_ok_true _) (NewFromHash_valid_type t len (Sum256 b) ltac:(lia)))
    as [k Hk].
  exists k. split; [done|]. pose proof (Sum256_length b) as Hh.
  assert (0 <= t) by lia.
  destruct (NewFromHash_header t len (Sum256 b) k) as (? & _ & _); [done..|].
  split_and!; eauto using NewFromHash_Length, NewFromHash_Validate.
Qed.

Lemma New_inv t len b k : 0 <= t → is_u64 len → New t len b = Ok k →
  Type_ k = t ∧ Length k = len ∧ Validate k = Ok tt.
Proof.
  intros Ht Hlen Hk. pose proof (Sum256_length b) as Hh. unfold New in Hk.
  destruct (NewFromHash_header t len (Sum256 b) k) as (? & _ & _); [done..|].
  split_and!; eauto using NewFromHash_Length, NewFromHash_Validate.
Qed.

Lemma EncodeBlob_ok data :
  ∃ o, EncodeBlob data = Ok o ∧ obj_bytes o = data ∧ Type_ (obj_key o) = Blob ∧
       Validate (obj_key o) = Ok tt ∧ Length (obj_key o) = u64 (zlen data).
Proof.
  unfold EncodeBlob. destruct (New_ok Blob (u64 (zlen data)) data) as (k & -> & ? & ? & ?);
    [done|apply u64_range|]. eexists. simpl. split_and!; eauto.
Qed.

Lemma sum_length_range l : is_u64 (foldl (λ sum c, u64 (sum + Length c)) 0 l).
Proof.
  induction l as [|l c _] using rev_ind; [done|]. rewrite foldl_app. apply u64_range.
Qed.

Lemma Parse_children ks :
  Forall (λ k, Validate k = Ok tt) ks →
  mapR (λ r, wrap "fstree: file node child %d" (Parse r)) (kb <$> ks) = Ok ks.
Proof.
  intros Hv. apply mapR_Ok. induction Hv as [|k ks Hk _ IH]; [constructor|].
  constructor; [|done]. apply wrap_Ok, Parse_Ok. done.
Qed.

Lemma EncodeFileNode_ok ks :
  (length ks ≤ MaxArrayElements)%nat → Forall (λ k, Validate k = Ok tt) ks →
  ∃ o, EncodeFileNode ks = Ok o ∧ DecodeFileNode (obj_bytes o) = Ok ks ∧
       Type_ (obj_key o) = FileNode ∧ Validate (obj_key o) = Ok tt ∧
       Length (obj_key o) = foldl (λ sum c, u64 (sum + Length c)) 0 ks.
Proof.
  intros Hlen Hv. unfold EncodeFileNode.
  destruct (proj1 (is_ok_true _) (marshal_keys_ok (kb <$> ks))) as [b Hb]. rewrite Hb. rsimpl.
  destruct (New_ok FileNode _ b ltac:(done) (sum_length_range ks)) as (k & -> & ? & ? & ?).
  eexists. simpl. split_and!; try done. unfold DecodeFileNode.
  rewrite (unmarshal_marshal_keys (kb <$> ks) b); [|by rewrite length_fmap|done]. rsimpl.
  by apply Parse_children.
Qed.

(** The keys an entry carries are either absent or well formed. *)
Definition entry_key_ok (b : bytes) : Prop := length b ≠ 32%nat ∨ is_ok (Parse b) = true.
Definition entry_keys_ok (e : Entry) : Prop :=
  entry_key_ok (ContentKey e) ∧ entry_key_ok (XattrsKey e).

Lemma entry_key_sub b msg s :
  entry_key_ok b → is_u64 s →
  ∃ s', (if (length b =? Size)%nat then ck ← wrap msg (Parse b); Ok (u64 (s + Length ck)) else Ok s)
        = Ok s' ∧ is_u64 s'.
Proof.
  intros Hb Hs. destruct (length b =? Size)%nat eqn:E; [|eauto].
  destruct Hb as [Hb|[k Hk]%is_ok_true]; [unfold Size in E; lia|].
  rewrite Hk. simpl. eexists. split; [done|]. apply u64_range.
Qed.

Lemma leaf_sub_ok es s :
  Forall entry_keys_ok es → is_u64 s → ∃ s', foldR leaf_sub es s = Ok s' ∧ is_u64 s'.
Proof.
  apply foldR_inv. clear es s. intros e s [Hc Hx] Hs. unfold leaf_sub.
  destruct (entry_key_sub _ "entry %q content key" s Hc Hs) as (s1 & -> & Hs1). rsimpl.
  by apply entry_key_sub.
Qed.

Lemma node_sub_ok ps s :
  Forall (λ p, is_ok (Parse (ChildKey p)) = true) ps → is_u64 s →
  ∃ s', foldR node_sub ps s = Ok s' ∧ is_u64 s'.
Proof.
  apply foldR_inv. clear ps s. intros p s [k Hk]%is_ok_true _. unfold node_sub.
  rewrite Hk. rsimpl. eauto using u64_range.
Qed.

Definition encodable (e : Entry) : Prop :=
  entry_wf e ∧ entry_keys_ok e ∧ is_ok (marshal_entry e) = true.

Lemma EncodeDirLeaf_ok es :
  (length es ≤ MaxArrayElements)%nat → Forall encodable es →
  ∃ o, EncodeDirLeaf es = Ok o ∧ DecodeDirLeaf (obj_bytes o) = Ok es ∧
       Type_ (obj_key o) = DirLeaf ∧ Validate (obj_key o) = Ok tt.
Proof.
  intros Hlen Hes. unfold EncodeDirLeaf.
  destruct (proj1 (is_ok_true _) (marshal_entries_ok es ltac:(
    eapply Forall_impl; [exact Hes|by intros e (_ & _ & ?)]))) as [b Hb]. rewrite Hb. rsimpl.
  destruct (leaf_sub_ok es 0) as (s & -> & _); [|done|].
  { eapply Forall_impl; [exact Hes|by intros e (_ & ? & _)]. }
  rsimpl. destruct (New_ok DirLeaf (u64 (u64 (zlen b) + s)) b ltac:(done) (u64_range _))
    as (k & -> & ? & ? & ?).
  eexists. simpl. split_and!; try done. unfold DecodeDirLeaf. apply wrap_Ok.
  apply unmarshal_marshal_entries; [done| |done].
  eapply Forall_impl; [exact Hes|by intros e (? & _ & _)].
Qed.

Lemma EncodeDirNode_ok ps :
  (length ps ≤ MaxArrayElements)%nat → Forall (λ p, is_ok (Parse (ChildKey p)) = true) ps →
  ∃ o, EncodeDirNode ps = Ok o ∧ DecodeDirNode (obj_bytes o) = Ok ps ∧
       Type_ (obj_key o) = DirNode ∧ Validate (obj_key o) = Ok tt.
Proof.
  intros Hlen Hps. unfold EncodeDirNode.
  destruct (proj1 (is_ok_true _) (marshal_pairs_ok ps)) as [b Hb]. rewrite Hb. rsimpl.
  destruct (node_sub_ok ps 0) as (s & -> & _); [done..|]. rsimpl.
  destruct (New_ok DirNode (u64 (u64 (zlen b) + s)) b ltac:(done) (u64_range _))
    as (k & -> & ? & ? & ?).
  eexists. simpl. split_and!; try done. unfold DecodeDirNode. apply wrap_Ok.
  by apply unmarshal_marshal_pairs.
Qed.
End encode_facts.
