(* ===== verification/Instances.v ===== *)
(** * Concrete instances of the external interfaces

    A 32-byte checksum and a self-delimiting codec that satisfy the laws of
    [Blake3] and [CborLaws].  They are not BLAKE3 and not CBOR: they only show
    that the interfaces can be met, and let the theorems be applied to concrete
    inputs. *)

From Stdlib Require Import Init.Byte.
From S2P Require Import Prelude Machine Key Chunkers FsEncode.
From Stdlib Require Import ZifyBool ZifyNat.
Local Open Scope Z_scope.

(** ** A checksum *)
Definition sum_example (b : bytes) : bytes :=
  take 32 (be_enc 4 (crc32_Checksum b) ++ be_enc 4 (zlen b) ++ b ++ replicate 32 x00).

Lemma sum_example_length b : length (sum_example b) = 32%nat.
Proof.
  unfold sum_example. rewrite length_take, !length_app, !length_be_enc, length_replicate. lia.
Qed.

Definition blake3_example : Blake3 := {| Sum256 := sum_example; Sum256_length := sum_example_length |}.

(** ** A codec: each element is announced by a 1, the end by a 0 *)
Section codec.
Context {A : Type} (enc : A → bytes) (dec : bytes → option (A * bytes)).

Fixpoint put_list (l : list A) : bytes :=
  match l with [] => [x00] | x :: l => x01 :: enc x ++ put_list l end.

Fixpoint get_list (fuel : nat) (b : bytes) : option (list A * bytes) :=
  match fuel, b with
  | S fuel, x01 :: b => '(x, b) ← dec b; '(l, b) ← get_list fuel b; Some (x :: l, b)
  | S _, x00 :: b => Some ([], b)
  | _, _ => None
  end.

Lemma get_put_list l : ∀ fuel rest,
  Forall (λ x, ∀ r, dec (enc x ++ r) = Some (x, r)) l →
  (length (put_list l) ≤ fuel)%nat → get_list fuel (put_list l ++ rest) = Some (l, rest).
Proof.
  induction l as [|x l IH]; intros [|fuel] rest Hl Hf; simpl in *; try lia; [done|].
  apply Forall_cons in Hl as [Hx Hl]. rewrite <- app_assoc, Hx. simpl.
  rewrite length_app in Hf. by rewrite IH by (done || lia).
Qed.

(** A whole message: nothing may follow. *)
Definition get_all (b : bytes) : result (list A) :=
  match get_list (length b) b with
  | Some (l, []) => Ok l
  | _ => Err (errors_New "malformed")
  end.

Lemma get_all_put l :
  Forall (λ x, ∀ r, dec (enc x ++ r) = Some (x, r)) l → get_all (put_list l) = Ok l.
Proof.
  intros Hl. unfold get_all. rewrite <- (app_nil_r (put_list l)) at 2.
  by rewrite get_put_list.
Qed.
End codec.

Lemma get_all_safe {A} (dec : bytes → option (A * bytes)) b : safe (get_all dec b).
Proof. unfold get_all. by repeat case_match. Qed.

Definition put_bytes : bytes → bytes := put_list (λ c : byte, [c]).
Definition get_byte (b : bytes) : option (byte * bytes) :=
  match b with c :: b => Some (c, b) | [] => None end.
Definition get_bytes (b : bytes) : option (bytes * bytes) := get_list get_byte (length b) b.

Lemma get_put_bytes b r : get_bytes (put_bytes b ++ r) = Some (b, r).
Proof.
  apply get_put_list; [by apply Forall_true|]. rewrite length_app. unfold put_bytes. lia.
Qed.

(** A word of eight bytes, unsigned or in two's complement. *)
Definition put_word (z : Z) : bytes := be_enc 8 (u64 z).
Definition get_word (b : bytes) : option (Z * bytes) := Some (be_dec (take 8 b), drop 8 b).
Definition get_int (b : bytes) : option (Z * bytes) := '(z, b) ← get_word b; Some (i64 z, b).

Lemma get_put_word z r : is_u64 z → get_word (put_word z ++ r) = Some (z, r).
Proof.
  intros Hz. unfold get_word, put_word.
  rewrite take_app_all, drop_app_all by (by rewrite length_be_enc).
  rewrite (be_dec_enc_small 8) by apply u64_range. unfold is_u64, u64 in *.
  by rewrite Z.mod_small by lia.
Qed.

Lemma get_put_int z r : - 2 ^ 63 <= z < 2 ^ 63 → get_int (put_word z ++ r) = Some (z, r).
Proof.
  intros Hz. unfold get_int. assert (put_word z = put_word (u64 z)) as ->.
  { unfold put_word, u64. by rewrite Z.mod_mod by lia. }
  rewrite get_put_word by apply u64_range. simpl. unfold i64, u64.
  do 2 f_equal. rewrite Zplus_mod_idemp_l, Z.mod_small; lia.
Qed.

Definition put_pair (p : DirPair) : bytes := put_bytes (SepName p) ++ put_bytes (ChildKey p).
Definition get_pair (b : bytes) : option (DirPair * bytes) :=
  '(s, b) ← get_bytes b; '(k, b) ← get_bytes b; Some (mkDirPair s k, b).

Lemma get_put_pair p r : get_pair (put_pair p ++ r) = Some (p, r).
Proof.
  unfold get_pair, put_pair. rewrite <- app_assoc. rewrite get_put_bytes. simpl.
  rewrite get_put_bytes. by destruct p.
Qed.

Definition put_entry (e : Entry) : bytes :=
  put_bytes (Name e) ++ put_word (Mode e) ++ put_word (UID e) ++ put_word (GID e) ++
  put_word (Mtime e) ++ put_bytes (ContentKey e) ++ put_bytes (LinkTarget e) ++
  put_list put_word (Rdev e) ++ put_bytes (XattrsIn e) ++ put_bytes (XattrsKey e).

Definition get_entry (b : bytes) : option (Entry * bytes) :=
  '(nm, b) ← get_bytes b; '(mode, b) ← get_word b; '(uid, b) ← get_word b;
  '(gid, b) ← get_word b; '(mt, b) ← get_int b; '(ck, b) ← get_bytes b;
  '(lt, b) ← get_bytes b; '(rd, b) ← get_list get_word (length b) b;
  '(xi, b) ← get_bytes b; '(xk, b) ← get_bytes b;
  Some (mkEntry nm mode uid gid mt ck lt rd xi xk, b).

Lemma get_put_entry e r : entry_wf e → get_entry (put_entry e ++ r) = Some (e, r).
Proof.
  intros (? & ? & ? & ? & Hr). unfold get_entry, put_entry. rewrite <- !app_assoc.
  do 10 (first [rewrite get_put_bytes | rewrite get_put_word by done
               | rewrite get_put_int by done
               | rewrite (get_put_list put_word get_word);
                 [|eapply Forall_impl; [exact Hr|intros; by apply get_put_word]
                  |rewrite length_app; lia]]; cbn [mbind option_bind]).
  by destruct e.
Qed.

Definition cbor_example : Cbor := {|
  marshal_keys l := Ok (put_list put_bytes l);
  marshal_entry e := Ok (put_entry e);
  marshal_entries l := Ok (put_list put_entry l);
  marshal_pair p := Ok (put_pair p);
  marshal_pairs l := Ok (put_list put_pair l);
  unmarshal_keys := get_all get_bytes;
  unmarshal_entries := get_all get_entry;
  unmarshal_pairs := get_all get_pair;
|}.

Definition cbor_example_laws : @CborLaws cbor_example.
Proof.
  split; intros l; try apply get_all_safe; try done; cbn [marshal_keys marshal_entries marshal_pairs unmarshal_keys
    unmarshal_entries unmarshal_pairs cbor_example].
  - intros b _ [= <-]. apply get_all_put, Forall_true. apply get_put_bytes.
  - intros b _ Hw [= <-]. apply get_all_put. eapply Forall_impl; [exact Hw|].
    intros e He r. by apply get_put_entry.
  - intros b _ [= <-]. apply get_all_put, Forall_true. apply get_put_pair.
Qed.

(** A store that serves exactly the objects of a log. *)
Definition log_get (log : list Object) (k : Key) : result bytes :=
  match list_find (λ o, obj_key o = k) log with
  | Some (_, o) => Ok (obj_bytes o)
  | None => Err (errors_New "not found")
  end.

(** An entry with a name and defaults elsewhere. *)
Definition entry_example (name ck : bytes) (mode : Z) : Entry :=
  mkEntry name mode 0 0 0 ck [] [] [] [].
