(* ===== verification/FsTree.v ===== *)
(** * The abstract trees

    What a set of stored objects means: [file_tree log k data] says that the
    objects of [log] form a file-content tree rooted at [k] whose bytes are
    [data]; [dir_tree log k es] that they form a directory tree whose entries
    are [es].  The first argument bounds the height.  These are the
    specifications the builders are shown to establish and the readers to
    implement. *)

From Stdlib Require Import Init.Byte.
From S2P Require Import Prelude Machine Key FsEncode.
From Stdlib Require Import ZifyBool ZifyNat.
Local Open Scope Z_scope.

Section trees.
Context `{Cbor}.

(** The name of the last entry: the separator a parent stores. *)
Definition last_name (es : list Entry) (n : bytes) : Prop :=
  ∃ e, last es = Some e ∧ Name e = n.

Fixpoint dir_tree (h : nat) (log : list Object) (k : Key) (es : list Entry) : Prop :=
  match h with
  | O => False
  | S h =>
      (Type_ k = DirLeaf ∧ ∃ data, mkObject k data ∈ log ∧ DecodeDirLeaf data = Ok es) ∨
      (Type_ k = DirNode ∧ ∃ data pairs kids,
         mkObject k data ∈ log ∧ DecodeDirNode data = Ok pairs ∧
         Forall2 (λ p kid, Parse (ChildKey p) = Ok (fst kid) ∧
                           last_name (snd kid) (SepName p) ∧
                           dir_tree h log (fst kid) (snd kid)) pairs kids ∧
         es = concat kids.*2)
  end.

Fixpoint file_tree (h : nat) (log : list Object) (k : Key) (content : bytes) : Prop :=
  match h with
  | O => False
  | S h =>
      (Type_ k = Blob ∧ mkObject k content ∈ log) ∨
      (Type_ k = FileNode ∧ ∃ data kids,
         mkObject k data ∈ log ∧ DecodeFileNode data = Ok kids.*1 ∧
         Forall (λ kid, file_tree h log (fst kid) (snd kid)) kids ∧
         content = concat kids.*2)
  end.

Lemma dir_tree_mono h h' log log' k es :
  dir_tree h log k es → (h ≤ h')%nat → log ⊆ log' → dir_tree h' log' k es.
Proof.
  revert h' k es. induction h as [|h IH]; intros h' k es Ht Hh Hlog; [done|].
  destruct h' as [|h']; [lia|]. simpl in *.
  destruct Ht as [(? & data & ? & ?)|(? & data & pairs & kids & ? & ? & Hk & ->)].
  - left. eauto.
  - right. split; [done|]. exists data, pairs, kids. split_and!; auto.
    eapply Forall2_impl; [exact Hk|]. intros p [ck ces] (? & ? & ?). simpl in *.
    split_and!; auto. eapply IH; eauto. lia.
Qed.

Lemma file_tree_mono h h' log log' k c :
  file_tree h log k c → (h ≤ h')%nat → log ⊆ log' → file_tree h' log' k c.
Proof.
  revert h' k c. induction h as [|h IH]; intros h' k c Ht Hh Hlog; [done|].
  destruct h' as [|h']; [lia|]. simpl in *.
  destruct Ht as [(? & ?)|(? & data & kids & ? & ? & Hk & ->)].
  - left. auto.
  - right. split; [done|]. exists data, kids. split_and!; auto.
    eapply Forall_impl; [exact Hk|]. intros [ck cc] ?. simpl in *.
    eapply IH; eauto. lia.
Qed.
End trees.

(** A reader function that returns the stored bytes of every object. *)
Definition serves (get : Key → result bytes) (log : list Object) : Prop :=
  ∀ o, o ∈ log → get (obj_key o) = Ok (obj_bytes o).

Lemma serves_elem get log k b : serves get log → mkObject k b ∈ log → get k = Ok b.
Proof. intros Hs H. apply (Hs _ H). Qed.

(** Strictly increasing entry names. *)
Definition names_sorted (es : list Entry) : Prop :=
  StronglySorted bytes_lt (Name <$> es).

Lemma StronglySorted_lookup_lt {A} (R : relation A) (l : list A) i j x y :
  StronglySorted R l → l !! i = Some x → l !! j = Some y → (i < j)%nat → R x y.
Proof.
  intros Hs. revert i j. induction Hs as [|z l Hs IH Hz]; [done|].
  rewrite Forall_forall in Hz. intros [|i] [|j] Hi Hj Hlt; simpl in *; try lia.
  - simplify_eq. apply Hz. by eapply list_elem_of_lookup_2.
  - eapply IH; eauto. lia.
Qed.

Lemma names_sorted_app es1 es2 :
  names_sorted (es1 ++ es2) ↔
  names_sorted es1 ∧ names_sorted es2 ∧
  (∀ e1 e2, e1 ∈ es1 → e2 ∈ es2 → bytes_lt (Name e1) (Name e2)).
Proof.
  unfold names_sorted. rewrite fmap_app, StronglySorted_app. split.
  - intros (Hx & ? & ?). split_and!; auto.
    intros e1 e2 ??. apply Hx; by apply list_elem_of_fmap_2.
  - intros (? & ? & Hx). split_and!; auto.
    intros n1 n2 (e1 & -> & ?)%list_elem_of_fmap (e2 & -> & ?)%list_elem_of_fmap. auto.
Qed.

Lemma names_sorted_lookup es i j e1 e2 :
  names_sorted es → es !! i = Some e1 → es !! j = Some e2 → (i < j)%nat →
  bytes_lt (Name e1) (Name e2).
Proof.
  intros Hs Hi Hj. apply (StronglySorted_lookup_lt _ _ _ _ _ _ Hs);
    by rewrite list_lookup_fmap, ?Hi, ?Hj.
Qed.

Lemma names_sorted_inj es e1 e2 :
  names_sorted es → e1 ∈ es → e2 ∈ es → Name e1 = Name e2 → e1 = e2.
Proof.
  intros Hs [i Hi]%list_elem_of_lookup [j Hj]%list_elem_of_lookup Hn.
  destruct (Nat.lt_trichotomy i j) as [Hl|[->|Hl]]; [|congruence|].
  - pose proof (names_sorted_lookup _ _ _ _ _ Hs Hi Hj Hl) as Hlt.
    rewrite Hn in Hlt. by apply bytes_lt_irrefl in Hlt.
  - pose proof (names_sorted_lookup _ _ _ _ _ Hs Hj Hi Hl) as Hlt.
    rewrite Hn in Hlt. by apply bytes_lt_irrefl in Hlt.
Qed.

(** The separator of a subtree bounds the names in it. *)
Lemma last_name_max es n e :
  names_sorted es → last_name es n → e ∈ es → bytes_le (Name e) n.
Proof.
  intros Hs (l & Hl & <-) He. apply last_Some in Hl as [es' ->].
  apply names_sorted_app in Hs as (_ & _ & Hx). apply elem_of_app in He as [He|He].
  - apply bytes_le_lteq. left. apply Hx; [done|]. by apply list_elem_of_singleton.
  - apply list_elem_of_singleton in He as ->. apply bytes_le_lteq. by right.
Qed.
