(* ===== verification/FsBuild.v ===== *)
(** * Package [fstree]: the streaming builders
    ([index_builder.go], [dir_builder.go], and the file loop of
    [cmd/amber-store/driver.go])

    An [Emit] callback threads the consumer's state and may fail.  The mutual
    recursion of [add] and [closeLevel] climbs one index level per round and is
    given fuel; [add_spec] shows that twice the number of levels plus two is
    always enough for a chunker that never closes a run of one item. *)

From Stdlib Require Import Init.Byte.
From S2P Require Import Prelude Machine Key Chunkers FsEncode FsTree.
From Stdlib Require Import ZifyBool ZifyNat.
Local Open Scope Z_scope.

(** ** Data *)
Record idxLevel := mkLevel { keys : list Key; seps : list bytes; runLen : Z }.

Record IndexBuilder := mkIndexBuilder {
  ib_ic : ItemChunker;
  isDir : bool;
  levels : list idxLevel;
}.

Record DirBuilder := mkDirBuilder {
  db_ic : ItemChunker;
  idx : IndexBuilder;
  leaf : list Entry;
  leafMax : bytes;
  db_runLen : Z;
}.

Definition emptyLevel : idxLevel := mkLevel [] [] 0.

Definition NewFileIndexBuilder (ic : ItemChunker) : IndexBuilder := mkIndexBuilder ic false [].
Definition newDirIndexBuilder (ic : ItemChunker) : IndexBuilder := mkIndexBuilder ic true [].
Definition NewDirBuilder (ic : ItemChunker) : DirBuilder :=
  mkDirBuilder ic (newDirIndexBuilder ic) [] [] 0.

Definition set_levels (ib : IndexBuilder) (ls : list idxLevel) : IndexBuilder :=
  mkIndexBuilder (ib_ic ib) (isDir ib) ls.

(** [for len(ib.levels) <= l { append(&idxLevel{}) }; return ib.levels[l]] *)
Definition ensure (ib : IndexBuilder) (l : nat) : IndexBuilder * idxLevel :=
  let ls := levels ib ++ replicate (S l - length (levels ib)) emptyLevel in
  (set_levels ib ls, default emptyLevel (ls !! l)).

Definition hasAny (ib : IndexBuilder) : bool := (0 <? length (levels ib))%nat.

Definition reset (ib : IndexBuilder) (l : nat) : IndexBuilder :=
  set_levels ib (<[l := emptyLevel]> (levels ib)).

Section build.
Context `{Blake3} `{Cbor}.
Context {S : Type} (emit : Object → S → result S).

Definition itemEnc (ib : IndexBuilder) (ck : Key) (sep : bytes) : result bytes :=
  if negb (isDir ib) then Ok (kb ck) else marshal_pair (mkDirPair sep (kb ck)).

Definition buildNode (ib : IndexBuilder) (L : idxLevel) : result (Object * bytes) :=
  if isDir ib then
    if (length (seps L) <? length (keys L))%nat then Panic else
    obj ← EncodeDirNode (zip_with (λ s k, mkDirPair s (kb k)) (seps L) (keys L));
    match last (seps L) with
    | Some sep => Ok (obj, sep)
    | None => Panic
    end
  else
    obj ← EncodeFileNode (keys L);
    Ok (obj, []).

Fixpoint add (fuel : nat) (l : nat) (ck : Key) (sep : bytes) (ib : IndexBuilder) (s : S) :
    result (IndexBuilder * S) :=
  match fuel with
  | O => Diverge
  | Datatypes.S fuel =>
      let '(ib, L) := ensure ib l in
      let L := mkLevel (keys L ++ [ck])
                       (if isDir ib then seps L ++ [sep] else seps L)
                       (runLen L + 1) in
      let ib := set_levels ib (<[l := L]> (levels ib)) in
      enc ← itemEnc ib ck sep;
      if IsBoundary (ib_ic ib) enc (runLen L) then closeLevel fuel l ib s
      else Ok (ib, s)
  end
with closeLevel (fuel : nat) (l : nat) (ib : IndexBuilder) (s : S) :
    result (IndexBuilder * S) :=
  match fuel with
  | O => Diverge
  | Datatypes.S fuel =>
      match levels ib !! l with
      | None => Panic
      | Some L =>
          '(obj, sep) ← buildNode ib L;
          let ib := reset ib l in
          s ← emit obj s;
          add fuel (Datatypes.S l) (obj_key obj) sep ib s
      end
  end.

(** Enough rounds for every level there is. *)
Definition add_fuel (ib : IndexBuilder) : nat := 2 * length (levels ib) + 2.

Definition AddChild (ib : IndexBuilder) (childKey : Key) (sep : bytes) (s : S) :
    result (IndexBuilder * S) :=
  add (add_fuel ib) 0 childKey sep ib s.

(** The loop [for l := 0; l < len(ib.levels); l++]. *)
Fixpoint finish_loop (fuel : nat) (l : nat) (ib : IndexBuilder) (s : S) : result (Key * S) :=
  match fuel with
  | O => Diverge
  | Datatypes.S fuel =>
      match levels ib !! l with
      | None => Err (errors_New "fstree: IndexBuilder.Finish with no children")
      | Some L =>
          let isTop := (l =? length (levels ib) - 1)%nat in
          if runLen L =? 0 then finish_loop fuel (Datatypes.S l) ib s
          else if runLen L =? 1 then
            ck ← index (keys L) 0;
            sep ← (if isDir ib then index (seps L) 0 else Ok []);
            let ib := reset ib l in
            if isTop then Ok (ck, s) else
            '(ib, s) ← add (add_fuel ib) (Datatypes.S l) ck sep ib s;
            finish_loop fuel (Datatypes.S l) ib s
          else
            '(obj, sep) ← buildNode ib L;
            let ib := reset ib l in
            s ← emit obj s;
            '(ib, s) ← add (add_fuel ib) (Datatypes.S l) (obj_key obj) sep ib s;
            finish_loop fuel (Datatypes.S l) ib s
      end
  end.

Definition IndexBuilder_Finish (ib : IndexBuilder) (s : S) : result (Key * S) :=
  finish_loop (length (levels ib) + 2) 0 ib s.

(** ** Directories *)
Definition closeLeaf (db : DirBuilder) (s : S) : result (DirBuilder * S) :=
  obj ← EncodeDirLeaf (leaf db);
  let sep := leafMax db in
  s ← emit obj s;
  '(ib, s) ← AddChild (idx db) (obj_key obj) sep s;
  Ok (mkDirBuilder (db_ic db) ib [] [] 0, s).

Definition AddEntry (db : DirBuilder) (e : Entry) (s : S) : result (DirBuilder * S) :=
  enc ← marshal_entry e;
  let db := mkDirBuilder (db_ic db) (idx db) (leaf db ++ [e]) (Name e) (db_runLen db + 1) in
  if IsBoundary (db_ic db) enc (db_runLen db) then closeLeaf db s else Ok (db, s).

Definition DirBuilder_Finish (db : DirBuilder) (s : S) : result (Key * S) :=
  '(db, s) ← (if (db_runLen db >? 0) || negb (hasAny (idx db))
              then closeLeaf db s else Ok (db, s));
  IndexBuilder_Finish (idx db) s.

(** The entry loop of a caller: one [AddEntry] per entry, then [Finish]. *)
Definition build_dir (ic : ItemChunker) (es : list Entry) (s : S) : result (Key * S) :=
  '(db, s) ← foldR (λ e '(db, s), AddEntry db e s) es (NewDirBuilder ic, s);
  DirBuilder_Finish db s.

(** ** Files: the body of [driver.buildFile] on the chunks [SplitBytes]
    yields; an empty file becomes one empty blob. *)
Definition add_chunk (chunk : bytes) (st : IndexBuilder * S) : result (IndexBuilder * S) :=
  let '(ib, s) := st in
  obj ← EncodeBlob chunk;
  s ← emit obj s;
  AddChild ib (obj_key obj) [] s.

Definition buildFile (ic : ItemChunker) (chunks : list bytes) (s : S) : result (Key * S) :=
  '(ib, s) ← foldR add_chunk chunks (NewFileIndexBuilder ic, s);
  '(ib, s) ← (if (length chunks =? 0)%nat then add_chunk [] (ib, s) else Ok (ib, s));
  IndexBuilder_Finish ib s.
End build.

(** The consumer that records every object. *)
Definition emit_log (o : Object) (log : list Object) : result (list Object) := Ok (log ++ [o]).

(** ** Correctness of the streaming builders

    The index builder is verified once, for any notion [Rep] of what a child
    key stands for; files and directories are its two instances.  The state
    invariant [levels_rep] reads the open levels from the top one down: the
    children already added are, in order, the contents of the highest level,
    then of the next one, and so on. *)

Lemma insert_middle {A} (pre : list A) x y Ls :
  <[length pre := y]> (pre ++ x :: Ls) = pre ++ y :: Ls.
Proof. rewrite insert_app_r_alt by lia. by rewrite Nat.sub_diag. Qed.

Lemma lookup_middle {A} (pre : list A) x Ls : (pre ++ x :: Ls) !! length pre = Some x.
Proof. by rewrite lookup_app_r, Nat.sub_diag by lia. Qed.

Section index_spec.
Context `{Blake3} `{Cbor} `{!CborLaws}.
Context {A : Type} (dir : bool) (Rep : list Object → Key → bytes → list A → Prop).

Definition items (L : idxLevel) : list (Key * bytes) :=
  if dir then zip (keys L) (seps L) else (λ k, (k, [])) <$> keys L.

Definition level_rep (log : list Object) (L : idxLevel) (cs : list (list A)) : Prop :=
  runLen L = zlen (keys L) ∧
  length (seps L) = (if dir then length (keys L) else 0%nat) ∧
  Forall2 (λ it c, Rep log (fst it) (snd it) c) (items L) cs.

Fixpoint levels_rep (log : list Object) (Ls : list idxLevel) (c : list A) : Prop :=
  match Ls with
  | [] => c = []
  | L :: Ls => ∃ cs chi, level_rep log L cs ∧ levels_rep log Ls chi ∧ c = chi ++ concat cs
  end.

Context (ic : ItemChunker).
Hypothesis ic_ok : chunker_ok ic.
Hypothesis ic_max : MaxRun ic <= Z.of_nat MaxArrayElements.
Hypothesis Rep_mono : ∀ log log' k s c, Rep log k s c → log ⊆ log' → Rep log' k s c.
Hypothesis Rep_node : ∀ ib log L cs,
  isDir ib = dir → level_rep log L cs → 0 < runLen L <= Z.of_nat MaxArrayElements →
  ∃ obj sep, buildNode ib L = Ok (obj, sep) ∧
             Rep (log ++ [obj]) (obj_key obj) (if dir then sep else []) (concat cs).

Definition levels_ok (Ls : list idxLevel) : Prop := Forall (λ L, runLen L < MaxRun ic) Ls.
Definition top_ok (Ls : list idxLevel) : Prop := ∃ L, last Ls = Some L ∧ 0 < runLen L.
Definition single (k : Key) (sep : bytes) : idxLevel :=
  mkLevel [k] (if dir then [sep] else []) 1.

Lemma level_rep_mono log log' L cs :
  level_rep log L cs → log ⊆ log' → level_rep log' L cs.
Proof.
  intros (? & ? & HF) Hl. split_and!; auto.
  eapply Forall2_impl; [exact HF|]. intros [k s] c ?. simpl. by eapply Rep_mono.
Qed.

Lemma levels_rep_mono log log' Ls c :
  levels_rep log Ls c → log ⊆ log' → levels_rep log' Ls c.
Proof.
  revert c. induction Ls as [|L Ls IH]; intros c; simpl; [done|].
  intros (cs & chi & ? & ? & ->) Hl. exists cs, chi. split_and!; eauto using level_rep_mono.
Qed.

Lemma level_rep_empty log : level_rep log emptyLevel [].
Proof. unfold level_rep, items. simpl. destruct dir; split_and!; try done; constructor. Qed.

(** One more child in a run. *)
Definition snoc (L : idxLevel) (k : Key) (sep : bytes) : idxLevel :=
  mkLevel (keys L ++ [k]) (if dir then seps L ++ [sep] else seps L) (runLen L + 1).

Lemma level_rep_snoc log L cs k sep c :
  level_rep log L cs → Rep log k (if dir then sep else []) c →
  level_rep log (snoc L k sep) (cs ++ [c]).
Proof.
  intros (Hr & Hs & HF) Hk. unfold level_rep, items, snoc in *. simpl.
  destruct dir.
  - rewrite !length_app. simpl. split_and!; [lia|lia|].
    rewrite zip_with_app by (by symmetry). apply Forall2_app; [done|]. simpl. by constructor.
  - rewrite length_app, fmap_app. simpl. split_and!; [lia|done|].
    apply Forall2_app; [done|]. by constructor.
Qed.

Lemma itemEnc_ok ib ck sep : ∃ enc, itemEnc ib ck sep = Ok enc.
Proof.
  unfold itemEnc. destruct (isDir ib); simpl; [|eauto].
  apply is_ok_true, marshal_pair_ok.
Qed.

(** The first step of [add] on a builder whose levels are split at [l]. *)
Lemma ensure_split ib pre Ls :
  levels ib = pre ++ Ls →
  ensure ib (length pre)
  = (set_levels ib (pre ++ default emptyLevel (head Ls) :: tail Ls),
     default emptyLevel (head Ls)).
Proof.
  intros Hl. unfold ensure. rewrite Hl, length_app. destruct Ls as [|L Ls].
  - replace (S (length pre) - _)%nat with 1%nat by (simpl; lia).
    cbn [replicate]. by rewrite app_nil_r, lookup_middle.
  - replace (S (length pre) - _)%nat with 0%nat by (simpl; lia).
    cbn [replicate]. by rewrite app_nil_r, lookup_middle.
Qed.

Lemma add_step fuel pre Ls ck sep ib s enc :
  levels ib = pre ++ Ls → isDir ib = dir → ib_ic ib = ic →
  itemEnc ib ck sep = Ok enc →
  let L' := snoc (default emptyLevel (head Ls)) ck sep in
  let ib' := set_levels ib (pre ++ L' :: tail Ls) in
  add emit_log (S fuel) (length pre) ck sep ib s =
    if IsBoundary ic enc (runLen L') then closeLevel emit_log fuel (length pre) ib' s
    else Ok (ib', s).
Proof.
  intros Hl Hd Hic Henc L' ib'. cbn [add].
  rewrite (ensure_split ib pre Ls Hl). simpl levels. simpl isDir. rewrite Hd.
  rewrite insert_middle.
  match goal with |- context [itemEnc ?i ck sep] =>
    replace (itemEnc i ck sep) with (Ok enc) by (rewrite <- Henc; reflexivity) end.
  rsimpl. cbn [ib_ic set_levels]. rewrite Hic. reflexivity.
Qed.

Lemma level_rep_runLen log L cs : level_rep log L cs → 0 <= runLen L.
Proof. intros (-> & _). lia. Qed.

Lemma closeLevel_step fuel pre L Ls ib log cs :
  levels ib = pre ++ L :: Ls → isDir ib = dir →
  level_rep log L cs → 0 < runLen L <= MaxRun ic →
  ∃ obj sep,
    closeLevel emit_log (S fuel) (length pre) ib log
    = add emit_log fuel (length (pre ++ [emptyLevel])) (obj_key obj) sep
        (set_levels ib ((pre ++ [emptyLevel]) ++ Ls)) (log ++ [obj]) ∧
    Rep (log ++ [obj]) (obj_key obj) (if dir then sep else []) (concat cs).
Proof.
  intros Hl Hd HL Hr. destruct (Rep_node ib log L cs) as (obj & sep & Hb & Hrep); [done..|lia|].
  exists obj, sep. split; [|done]. cbn [closeLevel].
  rewrite Hl, lookup_middle, Hb. rsimpl. unfold reset.
  rewrite Hl, insert_middle, length_app. simpl length.
  by rewrite Nat.add_1_r, <- app_assoc.
Qed.

(** Adding a child appends its content, keeps the invariants, and adds at
    most one level; a new level holds one child above empty ones. *)
Lemma add_spec Ls : ∀ fuel pre ck sep ib log c cnew,
  levels ib = pre ++ Ls → isDir ib = dir → ib_ic ib = ic →
  (2 * length Ls + 2 ≤ fuel)%nat →
  levels_rep log Ls c → levels_ok Ls → Rep log ck (if dir then sep else []) cnew →
  ∃ Ls' new,
    add emit_log fuel (length pre) ck sep ib log
    = Ok (set_levels ib (pre ++ Ls'), log ++ new) ∧
    levels_rep (log ++ new) Ls' (c ++ cnew) ∧ levels_ok Ls' ∧
    ((length Ls' = length Ls ∧ Ls ≠ [] ∧ (top_ok Ls → top_ok Ls')) ∨
     ∃ k s, Ls' = replicate (length Ls) emptyLevel ++ [single k s]).
Proof.
  induction Ls as [|L Ls IH]; intros fuel pre ck sep ib log c cnew Hl Hd Hic Hf Hrep Hok Hk;
    (destruct fuel as [|fuel]; [lia|]);
    destruct (itemEnc_ok ib ck sep) as [enc Henc];
    rewrite (add_step fuel pre _ ck sep ib log enc Hl Hd Hic Henc).
  - simpl in Hrep. subst c. cbn [head tail]. change (default emptyLevel None) with emptyLevel.
    rewrite IsBoundary_one by done.
    exists [snoc emptyLevel ck sep], []. rewrite app_nil_r. split; [done|]. split_and!.
    + exists [cnew], []. split_and!; [|done|by rewrite concat_singleton].
      apply (level_rep_snoc log emptyLevel []); [apply level_rep_empty|done].
    + apply Forall_singleton. simpl. destruct ic_ok. lia.
    + right. exists ck, sep. done.
  - destruct Hrep as (cs & chi & HL & HLs & ->). cbn [head tail].
    change (default emptyLevel (Some L)) with L.
    apply Forall_cons in Hok as [HokL HokLs].
    pose proof (level_rep_snoc _ _ _ _ _ _ HL Hk) as HL'.
    pose proof (level_rep_runLen _ _ _ HL).
    set (L' := snoc L ck sep) in *. assert (runLen L' = runLen L + 1) as Hr by done.
    destruct (IsBoundary ic enc (runLen L')) eqn:Hb.
    2:{ apply IsBoundary_max in Hb. exists (L' :: Ls), []. rewrite app_nil_r.
        split; [reflexivity|]. split_and!.
        - exists (cs ++ [cnew]), chi. split_and!; auto.
          by rewrite concat_app, concat_singleton, app_assoc.
        - by constructor.
        - left. split_and!; [done..|]. intros (T & HT & ?).
          destruct Ls as [|L2 Ls]; [exists L'; split; [done|lia]|by exists T]. }
    destruct fuel as [|fuel]; [simpl in Hf; lia|].
    destruct (closeLevel_step fuel pre L' Ls (set_levels ib (pre ++ L' :: Ls)) log (cs ++ [cnew]))
      as (obj & s' & -> & Hobj); [done..|lia|].
    edestruct (IH fuel (pre ++ [emptyLevel]) (obj_key obj) s'
                 (set_levels (set_levels ib (pre ++ L' :: Ls)) ((pre ++ [emptyLevel]) ++ Ls))
                 (log ++ [obj]) chi (concat (cs ++ [cnew])))
      as (Ls' & new & -> & Hrep' & Hok' & Hsh); [done|done|done|simpl in Hf; lia| |done| |].
    { eapply levels_rep_mono; [exact HLs|set_solver]. }
    { done. }
    exists (emptyLevel :: Ls'), ([obj] ++ new). split.
    { f_equal. f_equal; [|by rewrite app_assoc]. unfold set_levels. simpl.
      by rewrite <- app_assoc. }
    split_and!.
    + exists [], (chi ++ concat (cs ++ [cnew])). split_and!.
      * apply level_rep_empty.
      * by rewrite app_assoc.
      * by rewrite concat_app, concat_singleton, app_nil_r, app_assoc.
    + constructor; [|done]. simpl. destruct ic_ok. lia.
    + destruct Hsh as [(Hlen & Hne & Htop)|(k & s & ->)].
      * left. split_and!; [simpl; lia|done|]. intros (T & HT & ?).
        destruct Ls as [|L2 Ls]; [done|]. destruct Htop as (T' & HT' & ?); [by exists T|].
        destruct Ls' as [|L2' Ls']; [done|]. by exists T'.
      * right. by exists k, s.
Qed.

(** ** Finish *)
Lemma finish_single m : ∀ fuel pre ib log k sep,
  levels ib = pre ++ replicate m emptyLevel ++ [single k sep] → isDir ib = dir →
  (m + 1 ≤ fuel)%nat →
  finish_loop emit_log fuel (length pre) ib log = Ok (k, log).
Proof.
  induction m as [|m IH]; intros fuel pre ib log k sep Hl Hd Hf;
    (destruct fuel as [|fuel]; [lia|]); cbn [finish_loop]; rewrite Hl; simpl.
  - rewrite lookup_middle, Hd. simpl. rewrite length_app. simpl.
    replace (_ =? _)%nat with true by lia. by destruct dir.
  - rewrite lookup_middle. simpl.
    replace (S (length pre)) with (length (pre ++ [emptyLevel])) by (rewrite length_app; simpl; lia).
    apply (IH fuel _ _ _ k sep); [|done|lia]. by rewrite Hl, <- app_assoc.
Qed.

Lemma level_rep_zero log L cs : level_rep log L cs → runLen L = 0 → cs = [].
Proof.
  intros (Hr & Hs & HF) H0'. destruct (keys L) eqn:E; [|simpl in *; lia].
  unfold items in HF. rewrite E in HF. destruct dir; simpl in HF; by inversion HF.
Qed.

Lemma level_rep_one log L cs :
  level_rep log L cs → runLen L = 1 →
  ∃ k s c, L = mkLevel [k] (if dir then [s] else []) 1 ∧ cs = [c] ∧
           Rep log k (if dir then s else []) c.
Proof.
  destruct L as [ks ss r]. unfold level_rep, items. simpl. intros (-> & Hs & HF) H1'.
  destruct ks as [|k [|??]]; simpl in H1'; try lia. destruct dir.
  - destruct ss as [|s [|??]]; try done. simpl in HF.
    apply Forall2_cons_inv_l in HF as (c & cs' & Hk & HF & ->).
    apply Forall2_nil_inv_l in HF as ->. by exists k, s, c.
  - destruct ss; [|done]. simpl in HF.
    apply Forall2_cons_inv_l in HF as (c & cs' & Hk & HF & ->).
    apply Forall2_nil_inv_l in HF as ->. by exists k, [], c.
Qed.

Lemma levels_rep_single m log k s c :
  levels_rep log (replicate m emptyLevel ++ [single k s]) c →
  Rep log k (if dir then s else []) c.
Proof.
  revert c. induction m as [|m IH]; intros c; simpl; intros (cs & chi & HL & Hrep & ->).
  - simpl in Hrep. subst chi. apply level_rep_one in HL as (k' & s' & c & E & -> & Hk); [|done].
    rewrite concat_singleton. simpl. unfold single in E. destruct dir; by simplify_eq.
  - apply level_rep_zero in HL as ->; [|done]. rewrite app_nil_r. by apply IH.
Qed.

(** The levels from [length pre] up finish with a root for their content. *)
Definition finishes (n : nat) : Prop := ∀ Ls fuel pre ib log c,
  length Ls = n → levels ib = pre ++ Ls → isDir ib = dir → ib_ic ib = ic →
  (length Ls + 2 ≤ fuel)%nat → levels_rep log Ls c → levels_ok Ls → top_ok Ls →
  ∃ k sep new, finish_loop emit_log fuel (length pre) ib log = Ok (k, log ++ new) ∧
               Rep (log ++ new) k sep c.

Lemma finish_promote n fuel pre Ls ib log chi ck sep cc :
  finishes n → length Ls = n → levels ib = pre ++ Ls → isDir ib = dir → ib_ic ib = ic →
  (length Ls + 2 ≤ fuel)%nat → levels_rep log Ls chi → levels_ok Ls → (Ls ≠ [] → top_ok Ls) →
  Rep log ck (if dir then sep else []) cc →
  ∃ k sep' new,
    ('(ib, s) ← add emit_log (add_fuel ib) (length pre) ck sep ib log;
     finish_loop emit_log fuel (length pre) ib s) = Ok (k, log ++ new) ∧
    Rep (log ++ new) k sep' (chi ++ cc).
Proof.
  intros Hfin Hn Hl Hd Hic Hf Hrep Hok Htop Hk.
  destruct (add_spec Ls (add_fuel ib) pre ck sep ib log chi cc)
    as (Ls' & new & -> & Hrep' & Hok' & Hsh); [done..| |done|done|done|].
  { unfold add_fuel. rewrite Hl, length_app. lia. }
  rsimpl. destruct Hsh as [(Hlen & Hne & Ht)|(k & s & ->)].
  - destruct (Hfin Ls' fuel pre (set_levels ib (pre ++ Ls')) (log ++ new) (chi ++ cc))
      as (k & sep' & new' & -> & HR); [lia|done..|lia|done|done|by apply Ht, Htop|].
    exists k, sep', (new ++ new'). by rewrite app_assoc.
  - exists k, (if dir then s else []), new. split; [|by eapply levels_rep_single].
    apply (finish_single (length Ls) _ _ _ _ k s); [done|done|lia].
Qed.

Lemma finish_spec n : finishes n.
Proof.
  induction n as [|n IH]; intros Ls fuel pre ib log c Hn Hl Hd Hic Hf Hrep Hok Htop.
  { destruct Ls; [|done]. by destruct Htop as (? & ? & _). }
  destruct Ls as [|L Ls]; [done|]. simpl in Hn. apply Nat.succ_inj in Hn.
  destruct fuel as [|fuel]; [lia|]. destruct Hrep as (cs & chi & HL & Hrep & ->).
  apply Forall_cons in Hok as [HokL Hok]. pose proof (level_rep_runLen _ _ _ HL) as Hpos.
  assert (Ls ≠ [] → top_ok Ls) as Htop'.
  { intros Hne. destruct Htop as (T & HT & ?). exists T. by destruct Ls. }
  assert (length (pre ++ [emptyLevel]) = S (length pre)) as Hpre by (rewrite length_app; simpl; lia).
  assert (levels (reset ib (length pre)) = (pre ++ [emptyLevel]) ++ Ls) as Hreset.
  { unfold reset. simpl. by rewrite Hl, insert_middle, <- app_assoc. }
  cbn [finish_loop]. rewrite Hl, lookup_middle, length_app, Hd. simpl length in Hf |- *.
  destruct (runLen L =? 0) eqn:H0'.
  { apply level_rep_zero in HL as ->; [|lia]. rewrite app_nil_r.
    replace (S (length pre)) with (length (pre ++ [L])) by (rewrite length_app; simpl; lia).
    apply (IH Ls); [done| |done|done|lia|done|done|].
    - by rewrite Hl, <- app_assoc.
    - destruct Htop as (T & HT & ?). exists T. destruct Ls; [|done].
      simpl in HT. simplify_eq. lia. }
  destruct (runLen L =? 1) eqn:H1'.
  - apply level_rep_one in HL as (k & s & c & -> & -> & Hk); [|lia].
    rewrite concat_singleton. cbn [keys seps]. rewrite (index_ok _ _ k) by done. rsimpl.
    assert ((if dir then index (if dir then [s] else []) 0 else Ok []) = Ok (if dir then s else []))
      as -> by (destruct dir; [by rewrite (index_ok _ _ s)|done]). rsimpl.
    destruct (length pre =? _)%nat eqn:Etop.
    + assert (Ls = []) as -> by (destruct Ls; [done|simpl in Etop; lia]).
      simpl in Hrep. subst chi. exists k, (if dir then s else []), []. rewrite app_nil_r. done.
    + rewrite <- Hpre.
      apply (finish_promote n _ _ Ls); [done|done|done|done|done|lia|done|done|done|].
      by destruct dir.
  - destruct (Rep_node ib log L cs Hd HL) as (obj & sep & Hb & Hobj); [lia|].
    rewrite Hb. rsimpl. change (emit_log obj log) with (Ok (log ++ [obj])). rsimpl.
    rewrite <- Hpre.
    edestruct (finish_promote n fuel (pre ++ [emptyLevel]) Ls (reset ib (length pre))
      (log ++ [obj]) chi (obj_key obj) sep (concat cs)) as (k & sep' & new & -> & HR);
      [done..|lia| |done|done|done|].
    { eapply levels_rep_mono; [exact Hrep|set_solver]. }
    exists k, sep', ([obj] ++ new). by rewrite app_assoc.
Qed.

(** ** The builder as a whole *)
Definition ib_inv (ib : IndexBuilder) (log : list Object) (c : list A) : Prop :=
  isDir ib = dir ∧ ib_ic ib = ic ∧ levels_rep log (levels ib) c ∧ levels_ok (levels ib) ∧
  (levels ib ≠ [] → top_ok (levels ib)).

Lemma ib_inv_mono ib log log' c : ib_inv ib log c → log ⊆ log' → ib_inv ib log' c.
Proof. intros (? & ? & ? & ? & ?) ?. split_and!; eauto using levels_rep_mono. Qed.

Lemma ib_inv_new : ib_inv (mkIndexBuilder ic dir []) [] [].
Proof. split_and!; simpl; try done. constructor. Qed.

Lemma top_ok_single m k s : top_ok (replicate m emptyLevel ++ [single k s]).
Proof. exists (single k s). rewrite last_snoc. done. Qed.

Lemma AddChild_spec ib log c ck sep cnew :
  ib_inv ib log c → Rep log ck (if dir then sep else []) cnew →
  ∃ ib' new, AddChild emit_log ib ck sep log = Ok (ib', log ++ new) ∧
             ib_inv ib' (log ++ new) (c ++ cnew) ∧ levels ib' ≠ [].
Proof.
  intros (Hd & Hic & Hrep & Hok & Htop) Hk. unfold AddChild.
  destruct (add_spec (levels ib) (add_fuel ib) [] ck sep ib log c cnew)
    as (Ls' & new & Hadd & Hrep' & Hok' & Hsh); [done..|].
  exists (set_levels ib Ls'), new. split; [exact Hadd|].
  destruct Hsh as [(Hlen & Hne & Ht)|(k & s & ->)].
  - assert (Ls' ≠ []) by (destruct Ls', (levels ib); done).
    split; [|done]. split_and!; auto.
  - split; [split_and!; auto; intros _; apply top_ok_single|].
    simpl. by destruct (length (levels ib)).
Qed.

Lemma Finish_spec ib log c :
  ib_inv ib log c → levels ib ≠ [] →
  ∃ k sep new, IndexBuilder_Finish emit_log ib log = Ok (k, log ++ new) ∧
               Rep (log ++ new) k sep c.
Proof.
  intros (Hd & Hic & Hrep & Hok & Htop) Hne. unfold IndexBuilder_Finish.
  apply (finish_spec (length (levels ib)) (levels ib) _ []); auto.
Qed.
End index_spec.

(** ** Heights *)
Lemma Forall2_common_height {A B} (P : nat → A → B → Prop) l1 l2 :
  (∀ h h' x y, P h x y → (h ≤ h')%nat → P h' x y) →
  Forall2 (λ x y, ∃ h, P h x y) l1 l2 → ∃ h, Forall2 (P h) l1 l2.
Proof.
  intros Hm. induction 1 as [|x y l1 l2 [h Hh] _ [h' IH]]; [by exists 0%nat|].
  exists (h `max` h')%nat. constructor; [eapply Hm; [exact Hh|lia]|].
  eapply Forall2_impl; [exact IH|]. intros ?? ?. eapply Hm; [done|lia].
Qed.

(** ** Files *)
Section files.
Context `{Blake3} `{Cbor} `{!CborLaws}.

Definition file_rep (log : list Object) (k : Key) (sep : bytes) (c : bytes) : Prop :=
  ∃ h, file_tree h log k c ∧ Validate k = Ok tt ∧ Length k = u64 (zlen c).

Lemma file_rep_mono log log' k s c : file_rep log k s c → log ⊆ log' → file_rep log' k s c.
Proof. intros (h & ? & ? & ?) ?. exists h. eauto using file_tree_mono. Qed.

Lemma sum_lengths log ks cs acc :
  Forall2 (λ k c, file_rep log k [] c) ks cs →
  foldl (λ sum c, u64 (sum + Length c)) (u64 acc) ks = u64 (acc + zlen (concat cs)).
Proof.
  intros HF. revert acc. induction HF as [|k c ks cs (h & _ & _ & Hk) _ IH]; intros acc; simpl.
  - f_equal. lia.
  - rewrite Hk. replace (u64 (u64 acc + u64 (zlen c))) with (u64 (acc + zlen c)).
    2:{ unfold u64. by rewrite <- Z.add_mod by lia. }
    rewrite IH, length_app. f_equal. lia.
Qed.

Lemma file_rep_node ib log L cs :
  isDir ib = false → level_rep false file_rep log L cs →
  0 < runLen L <= Z.of_nat MaxArrayElements →
  ∃ obj sep, buildNode ib L = Ok (obj, sep) ∧
             file_rep (log ++ [obj]) (obj_key obj) [] (concat cs).
Proof.
  intros Hd (Hr & _ & HF) Hlen. unfold items in HF. rewrite Forall2_fmap_l in HF. simpl in HF.
  assert (Forall (λ k, Validate k = Ok tt) (keys L)) as Hv.
  { eapply Forall2_Forall_l; [exact HF|]. apply Forall_true. by intros c k (h & _ & ? & _). }
  destruct (EncodeFileNode_ok (keys L)) as (o & Ho & Hdec & Hty & Hval & Hl); [lia|done|].
  unfold buildNode. rewrite Hd, Ho. rsimpl. exists o, []. split; [done|].
  destruct (Forall2_common_height (λ h k c, file_tree h log k c) (keys L) cs) as [h Hh].
  { intros. eapply file_tree_mono; eauto. }
  { eapply Forall2_impl; [exact HF|]. intros k c (h & ? & _). eauto. }
  exists (S h). split_and!; [|done|].
  - right. split; [done|]. exists (obj_bytes o), (zip (keys L) cs).
    pose proof (Forall2_length _ _ _ Hh) as Hlc.
    rewrite fst_zip, snd_zip by lia. split_and!; [destruct o; set_solver|done| |done].
    apply Forall_forall. intros [k c] [i Hi]%list_elem_of_lookup.
    apply lookup_zip_Some in Hi as [Hk Hc].
    eapply file_tree_mono; [exact (Forall2_lookup_lr _ _ _ _ _ _ Hh Hk Hc)|done|set_solver].
  - rewrite Hl. apply (sum_lengths log (keys L) cs 0). done.
Qed.

Section build_file.
Context (ic : ItemChunker).
Hypothesis ic_ok : chunker_ok ic.
Hypothesis ic_max : MaxRun ic <= Z.of_nat MaxArrayElements.

Let inv := ib_inv false file_rep ic.

Lemma add_chunk_spec ib log c chunk :
  inv ib log c →
  ∃ ib' new, add_chunk emit_log chunk (ib, log) = Ok (ib', log ++ new) ∧
             inv ib' (log ++ new) (c ++ chunk) ∧ levels ib' ≠ [].
Proof.
  intros Hinv. unfold add_chunk.
  destruct (EncodeBlob_ok chunk) as (o & -> & Hb & Hty & Hv & Hl). rsimpl.
  change (emit_log o log) with (Ok (log ++ [o])). rsimpl.
  destruct (AddChild_spec false file_rep ic ic_ok ic_max file_rep_mono file_rep_node
              ib (log ++ [o]) c (obj_key o) [] chunk) as (ib' & new & -> & ? & ?).
  - eapply ib_inv_mono; [apply file_rep_mono|exact Hinv|set_solver].
  - exists 1%nat. split_and!; auto. left. split; [done|].
    destruct o; simpl in *; subst. set_solver.
  - exists ib', ([o] ++ new). rewrite app_assoc. done.
Qed.

Lemma add_chunks_spec chunks : ∀ ib log c,
  inv ib log c → (chunks = [] → levels ib = []) →
  ∃ ib' new, foldR (add_chunk emit_log) chunks (ib, log) = Ok (ib', log ++ new) ∧
             inv ib' (log ++ new) (c ++ concat chunks) ∧ (chunks ≠ [] → levels ib' ≠ []).
Proof.
  induction chunks as [|chunk chunks IH] using rev_ind; intros ib log c Hinv Hnil.
  - exists ib, []. simpl. rewrite !app_nil_r. done.
  - rewrite foldR_app.
    assert (∃ ib1 new1, foldR (add_chunk emit_log) chunks (ib, log) = Ok (ib1, log ++ new1) ∧
             inv ib1 (log ++ new1) (c ++ concat chunks)) as (ib1 & new1 & -> & Hinv1).
    { destruct chunks as [|c1 cs1]; [exists ib, []; simpl; by rewrite !app_nil_r|].
      destruct (IH ib log c) as (ib1 & new1 & ? & ? & ?); eauto. done. }
    rsimpl. cbn [foldR].
    destruct (add_chunk_spec ib1 (log ++ new1) _ chunk Hinv1) as (ib' & new & -> & ? & ?).
    rsimpl. exists ib', (new1 ++ new). rewrite app_assoc. split_and!; [done| |done].
    by rewrite concat_app, concat_singleton, app_assoc.
Qed.

Lemma buildFile_spec chunks :
  ∃ k h log, buildFile emit_log ic chunks [] = Ok (k, log) ∧
    file_tree h log k (concat chunks) ∧ Validate k = Ok tt ∧
    Length k = u64 (zlen (concat chunks)).
Proof.
  unfold buildFile.
  destruct (add_chunks_spec chunks (NewFileIndexBuilder ic) [] [])
    as (ib & log & -> & Hinv & Hne); [apply ib_inv_new; done|done|]. rsimpl.
  change ([] ++ log) with log in *. change ([] ++ concat chunks) with (concat chunks) in *.
  assert (∃ ib' log', (if (length chunks =? 0)%nat then add_chunk emit_log [] (ib, log)
                       else Ok (ib, log)) = Ok (ib', log') ∧
            inv ib' log' (concat chunks) ∧ levels ib' ≠ [])
    as (ib' & log' & -> & Hinv' & Hne').
  { destruct chunks as [|ch chunks]; simpl length; simpl Nat.eqb; cbv iota.
    - destruct (add_chunk_spec ib log [] [] Hinv) as (ib' & new & -> & ? & ?). eauto.
    - exists ib, log. eauto. }
  rsimpl.
  destruct (Finish_spec false file_rep ic ic_ok ic_max file_rep_mono file_rep_node
              ib' log' _ Hinv' Hne') as (k & sep & new & -> & (h & ? & ? & ?)).
  exists k, h, (log' ++ new). done.
Qed.
End build_file.
End files.

(** ** Directories *)
Section dirs.
Context `{Blake3} `{Cbor} `{!CborLaws}.

Definition dir_rep (log : list Object) (k : Key) (sep : bytes) (es : list Entry) : Prop :=
  ∃ h, dir_tree h log k es ∧ Validate k = Ok tt ∧ last_name es sep.

Lemma dir_rep_mono log log' k s c : dir_rep log k s c → log ⊆ log' → dir_rep log' k s c.
Proof. intros (h & ? & ? & ?) ?. exists h. eauto using dir_tree_mono. Qed.

Lemma last_name_app es1 es2 n : last_name es2 n → last_name (es1 ++ es2) n.
Proof. intros (e & He & ?). exists e. by rewrite last_app, He. Qed.

Lemma last_name_concat kids p :
  last kids = Some p → last_name (snd p) (fst p) → last_name (concat kids.*2) (fst p).
Proof.
  intros (kids' & ->)%last_Some Hn. rewrite fmap_app, concat_app. apply last_name_app.
  simpl. by rewrite app_nil_r.
Qed.

Lemma dir_rep_node ib log L cs :
  isDir ib = true → level_rep true dir_rep log L cs →
  0 < runLen L <= Z.of_nat MaxArrayElements →
  ∃ obj sep, buildNode ib L = Ok (obj, sep) ∧
             dir_rep (log ++ [obj]) (obj_key obj) sep (concat cs).
Proof.
  intros Hd (Hr & Hs & HF) Hlen. unfold items in HF.
  set (pairs := zip_with (λ s k, mkDirPair s (kb k)) (seps L) (keys L)).
  assert (Forall2 (λ it c, dir_rep log it.1 it.2 c) (zip (keys L) (seps L)) cs) as HF' by done.
  pose proof (Forall2_length _ _ _ HF') as Hlc. rewrite length_zip_with in Hlc.
  assert (∀ i k s, keys L !! i = Some k → seps L !! i = Some s →
            ∃ c, cs !! i = Some c ∧ dir_rep log k s c) as Hitem.
  { intros i k s Hk Hsi.
    destruct (Forall2_lookup_l _ _ _ i (k, s) HF') as (c & ? & ?); [|eauto].
    apply lookup_zip_Some. done. }
  assert (∀ i p, pairs !! i = Some p → ∃ k s c, keys L !! i = Some k ∧ seps L !! i = Some s ∧
            cs !! i = Some c ∧ p = mkDirPair s (kb k) ∧ dir_rep log k s c) as Hpair.
  { intros i p Hp. apply lookup_zip_with_Some in Hp as (s & k & -> & Hsi & Hk).
    destruct (Hitem i k s Hk Hsi) as (c & ? & ?). by exists k, s, c. }
  destruct (EncodeDirNode_ok pairs) as (o & Ho & Hdec & Hty & Hval).
  { subst pairs. rewrite length_zip_with. lia. }
  { apply Forall_lookup. intros i p Hp.
    destruct (Hpair i p Hp) as (k & s & c & _ & _ & _ & -> & (h & _ & Hv & _)).
    simpl. apply is_ok_true. exists k. by apply Parse_Ok. }
  destruct (lookup_lt_is_Some_2 (seps L) (length (seps L) - 1)) as [sep Hsep];
    [lia|]. rewrite <- Nat.sub_1_r, <- last_lookup in Hsep || rewrite Nat.sub_1_r, <- last_lookup in Hsep.
  unfold buildNode. rewrite Hd, Hsep. fold pairs.
  replace (length (seps L) <? length (keys L))%nat with false by lia.
  rewrite Ho. rsimpl. exists o, sep. split; [done|].
  destruct (Forall2_common_height (λ h it c, dir_tree h log it.1 c) (zip (keys L) (seps L)) cs)
    as [h Hh].
  { intros. eapply dir_tree_mono; eauto. }
  { eapply Forall2_impl; [exact HF'|]. intros k c (h & ? & _). eauto. }
  exists (S h). split_and!; [|done|].
  - right. split; [done|]. exists (obj_bytes o), pairs, (zip (keys L) cs).
    rewrite snd_zip by lia. split_and!; [destruct o; set_solver|done| |done].
    apply Forall2_lookup. intros i. destruct (pairs !! i) as [p|] eqn:Hp.
    + destruct (Hpair i p Hp) as (k & s & c & Hk & Hsi & Hc & -> & (h' & _ & Hv & Hln)).
      replace (zip (keys L) cs !! i) with (Some (k, c))
        by (symmetry; by apply lookup_zip_Some).
      constructor. simpl. split_and!; [by apply Parse_Ok|done|].
      eapply (dir_tree_mono h h log); [|done|set_solver].
      refine (Forall2_lookup_lr _ _ _ i (k, s) c Hh _ Hc). by apply lookup_zip_Some.
    + replace (zip (keys L) cs !! i) with (@None (Key * list Entry)); [constructor|].
      symmetry. apply lookup_ge_None. apply lookup_ge_None in Hp. subst pairs.
      rewrite !length_zip_with in *. lia.
  - rewrite last_lookup in Hsep.
    destruct (lookup_lt_is_Some_2 (keys L) (pred (length (seps L)))) as [k Hk]; [lia|].
    destruct (Hitem _ k sep Hk Hsep) as (c & Hc & (h' & _ & _ & Hln)).
    assert (last cs = Some c) as (cs' & ->)%last_Some.
    { rewrite last_lookup. rewrite <- Hc. f_equal. lia. }
    rewrite concat_app, concat_singleton. by apply last_name_app.
Qed.

Section build_dir.
Context (ic : ItemChunker).
Hypothesis ic_ok : chunker_ok ic.
Hypothesis ic_max : MaxRun ic <= Z.of_nat MaxArrayElements.

Let inv := ib_inv true dir_rep ic.

(** The entries seen so far: those already indexed, then the open leaf. *)
Definition db_inv (db : DirBuilder) (log : list Object) (es : list Entry) : Prop :=
  db_ic db = ic ∧ db_runLen db = zlen (leaf db) ∧ db_runLen db < MaxRun ic ∧
  Forall encodable (leaf db) ∧
  (leaf db ≠ [] → last_name (leaf db) (leafMax db)) ∧
  ∃ es1, es = es1 ++ leaf db ∧ inv (idx db) log es1 ∧
         (levels (idx db) = [] → es1 = []).

Lemma closeLeaf_spec ib l mx log es1 :
  inv ib log es1 → Forall encodable l → zlen l <= MaxRun ic → last_name l mx →
  ∃ db' new, closeLeaf emit_log (mkDirBuilder ic ib l mx (zlen l)) log = Ok (db', log ++ new) ∧
    db_inv db' (log ++ new) (es1 ++ l) ∧ leaf db' = [] ∧ levels (idx db') ≠ [].
Proof.
  intros Hinv Henc Hlen Hmax. unfold closeLeaf. cbn [leaf leafMax idx db_ic].
  destruct (EncodeDirLeaf_ok l) as (o & -> & Hdec & Hty & Hval); [lia|done|]. rsimpl.
  change (emit_log o log) with (Ok (log ++ [o])). rsimpl.
  destruct (AddChild_spec true dir_rep ic ic_ok ic_max dir_rep_mono dir_rep_node
              ib (log ++ [o]) es1 (obj_key o) mx l) as (ib' & new & -> & Hinv' & Hne).
  - eapply ib_inv_mono; [apply dir_rep_mono|exact Hinv|set_solver].
  - exists 1%nat. split_and!; auto. left. split; [done|]. exists (obj_bytes o).
    split; [destruct o; set_solver|done].
  - rsimpl. eexists _, ([o] ++ new). rewrite app_assoc. split; [done|].
    split_and!; [|done|done]. destruct ic_ok.
    split_and!; simpl; [done|done|lia|done|done|].
    exists (es1 ++ l). rewrite app_nil_r. done.
Qed.

Lemma AddEntry_spec db log es e :
  db_inv db log es → encodable e →
  ∃ db' new, AddEntry emit_log db e log = Ok (db', log ++ new) ∧
             db_inv db' (log ++ new) (es ++ [e]).
Proof.
  destruct db as [ic' ib l mx r].
  intros (Hic & Hr & Hlt & Henc & Hmx & es1 & -> & Hinv & Hes1) He. simpl in *. subst ic' r.
  unfold AddEntry. destruct He as (He1 & He2 & [enc Hm]%is_ok_true). rewrite Hm. rsimpl.
  cbn [leaf db_runLen idx db_ic].
  assert (last_name (l ++ [e]) (Name e)) as Hln by (exists e; by rewrite last_snoc).
  assert (Forall encodable (l ++ [e])) as Henc'.
  { apply Forall_app. split; [done|]. apply Forall_singleton. split_and!; try done.
    apply is_ok_true. eauto. }
  assert (zlen (l ++ [e]) = zlen l + 1) as Hz by (rewrite length_app; simpl; lia).
  rewrite <- Hz. destruct (IsBoundary ic enc (zlen (l ++ [e]))) eqn:Hb.
  - destruct (closeLeaf_spec ib (l ++ [e]) (Name e) log es1 Hinv Henc') as (db' & new & ? & ? & _);
      [lia|done|]. exists db', new. rewrite <- app_assoc. done.
  - apply IsBoundary_max in Hb. eexists _, []. rewrite app_nil_r. split; [done|].
    split_and!; simpl; [done|done|lia|done|done|]. exists es1. by rewrite <- app_assoc.
Qed.

Lemma AddEntries_spec es : ∀ db log es0,
  db_inv db log es0 → Forall encodable es →
  ∃ db' new, foldR (λ e '(db, s), AddEntry emit_log db e s) es (db, log)
             = Ok (db', log ++ new) ∧ db_inv db' (log ++ new) (es0 ++ es).
Proof.
  induction es as [|e es IH]; intros db log es0 Hinv Henc.
  - exists db, []. rewrite !app_nil_r. done.
  - apply Forall_cons in Henc as [He Henc]. cbn [foldR].
    destruct (AddEntry_spec db log es0 e Hinv He) as (db1 & new1 & -> & Hinv1). rsimpl.
    destruct (IH db1 (log ++ new1) (es0 ++ [e]) Hinv1 Henc) as (db' & new & -> & Hinv').
    exists db', (new1 ++ new). rewrite app_assoc. split; [done|].
    by rewrite <- (app_assoc es0) in Hinv'.
Qed.

(** A directory without entries: one empty leaf, which is the root. *)
Lemma finish_empty log :
  ∃ k log', DirBuilder_Finish emit_log (NewDirBuilder ic) log = Ok (k, log ++ log') ∧
    dir_tree 1 (log ++ log') k [] ∧ Validate k = Ok tt.
Proof.
  unfold DirBuilder_Finish. cbn [db_runLen NewDirBuilder idx]. simpl orb. cbv iota.
  unfold closeLeaf. cbn [leaf leafMax idx db_ic NewDirBuilder].
  destruct (EncodeDirLeaf_ok []) as (o & -> & Hdec & Hty & Hval);
    [simpl; lia|constructor|]. rsimpl.
  change (emit_log o log) with (Ok (log ++ [o])). rsimpl.
  unfold AddChild. destruct (itemEnc_ok (newDirIndexBuilder ic) (obj_key o) []) as [enc Henc].
  change 0%nat with (length (@nil idxLevel)) at 1.
  unfold add_fuel. simpl length at 1. simpl Nat.mul. simpl Nat.add.
  rewrite (add_step true ic 1 [] [] (obj_key o) [] _ _ enc) by done.
  rewrite IsBoundary_one by done. rsimpl. unfold IndexBuilder_Finish. cbn [idx].
  exists (obj_key o), [o]. split_and!; [|left; split; [done|]|done].
  - apply (finish_single true dir_rep dir_rep_node 0 _ [] _ _ (obj_key o) []);
      [done|done|simpl; lia].
  - exists (obj_bytes o). split; [destruct o; set_solver|done].
Qed.

Lemma db_inv_mono db log log' es : db_inv db log es → log ⊆ log' → db_inv db log' es.
Proof.
  intros (? & ? & ? & ? & ? & es1 & ? & Hinv & ?) Hl. split_and!; [done..|]. exists es1. split_and!; [done| |done].
  eapply ib_inv_mono; [apply dir_rep_mono|exact Hinv|done].
Qed.

Lemma db_inv_new log : db_inv (NewDirBuilder ic) log [].
Proof.
  apply (db_inv_mono _ []); [|set_solver]. destruct ic_ok. split_and!; simpl; try done; [lia|].
  exists []. split_and!; try done. by apply ib_inv_new.
Qed.

Lemma DirFinish_spec db log es :
  db_inv db log es → es ≠ [] →
  ∃ k h new, DirBuilder_Finish emit_log db log = Ok (k, log ++ new) ∧
             dir_tree h (log ++ new) k es ∧ Validate k = Ok tt.
Proof.
  intros Hinv Hne. destruct db as [ic' ib l mx r].
  destruct Hinv as (Hic & Hr & Hlt & Hencl & Hmx & es1 & Hes & Hinv & Hes1). simpl in *.
  subst ic' r. unfold DirBuilder_Finish. cbn [db_runLen idx].
  assert (∃ db' new, (if (zlen l >? 0) || negb (hasAny ib)
      then closeLeaf emit_log (mkDirBuilder ic ib l mx (zlen l)) log
      else Ok (mkDirBuilder ic ib l mx (zlen l), log)) = Ok (db', log ++ new) ∧
      inv (idx db') (log ++ new) es ∧ levels (idx db') ≠ [])
    as (db' & new & -> & Hinv' & Hne').
  { destruct l as [|e' l'].
    - rewrite app_nil_r in Hes. subst es1.
      destruct (levels ib) as [|L Ls] eqn:El; [by specialize (Hes1 eq_refl)|].
      unfold hasAny. rewrite El. simpl. eexists _, []. rewrite app_nil_r. split; [done|].
      simpl. rewrite El. done.
    - replace (zlen (e' :: l') >? 0) with true by (simpl; lia). simpl orb. cbv iota.
      destruct (closeLeaf_spec ib (e' :: l') mx log es1 Hinv Hencl)
        as (db' & new & -> & (_ & _ & _ & _ & _ & es2 & Hes2 & Hinv2 & _) & Hleaf & Hne2);
        [lia|by apply Hmx|].
      exists db', new. rewrite Hleaf, app_nil_r in Hes2.
      split_and!; [done| |done]. by rewrite Hes, Hes2. }
  rsimpl.
  destruct (Finish_spec true dir_rep ic ic_ok ic_max dir_rep_mono dir_rep_node
              (idx db') (log ++ new) _ Hinv' Hne') as (k & sep & new' & -> & (h & ? & ? & _)).
  exists k, h, (new ++ new'). rewrite app_assoc. done.
Qed.

Lemma build_dir_spec es :
  Forall encodable es →
  ∃ k h log, build_dir emit_log ic es [] = Ok (k, log) ∧
             dir_tree h log k es ∧ Validate k = Ok tt.
Proof.
  intros Henc. unfold build_dir. destruct es as [|e es].
  { simpl. destruct (finish_empty []) as (k & log & -> & ? & ?). by exists k, 1%nat, log. }
  destruct (AddEntries_spec (e :: es) (NewDirBuilder ic) [] []) as (db & log & -> & Hinv); [apply db_inv_new|done|].
  rsimpl. destruct (DirFinish_spec _ _ _ Hinv) as (k & h & new & -> & ? & ?); [done|]. by exists k, h, (log ++ new).
Qed.
End build_dir.
End dirs.
