(* ===== verification/FsRead.v ===== *)
(** * Package [fstree]: the readers
    ([content.go], [lookup.go], [list.go], [collect.go])

    Every reader takes the function [get] that fetches the bytes stored under
    a key.  The descent is given fuel: one unit per tree level, so the height
    of a well-formed tree is always enough. *)

From Stdlib Require Import Init.Byte.
From S2P Require Import Prelude Machine Key Chunkers FsEncode Instances FsTree FsBuild.
From Stdlib Require Import ZifyBool ZifyNat.
Local Open Scope Z_scope.

Definition ErrNotFound : string := "entry not found".
Definition ErrNotDir : string := "not a directory".

Definition S_IFMT : Z := 0xF000.
Definition S_IFDIR : Z := 0x4000.

(** [bytes.Compare(a, b) >= 0] and [bytes.Compare(a, b) > 0]. *)
Definition cmp_ge (a b : bytes) : bool := match bytes_Compare a b with Lt => false | _ => true end.
Definition cmp_gt (a b : bytes) : bool := match bytes_Compare a b with Gt => true | _ => false end.

(** [strings.SplitSeq(path, "/")] *)
Fixpoint split_slash (path : bytes) : list bytes :=
  match path with
  | [] => [[]]
  | c :: rest =>
      if bool_decide (c = x2f) then [] :: split_slash rest
      else match split_slash rest with
           | comp :: comps => (c :: comp) :: comps
           | [] => [[c]]
           end
  end.

Definition comp_skip (comp : bytes) : bool :=
  bool_decide (comp = []) || bool_decide (comp = [x2e]).
Definition comp_dotdot (comp : bytes) : bool := bool_decide (comp = [x2e; x2e]).

Section readers.
Context `{Cbor}.
Context (get : Key → result bytes).

(** [w.Write] is [write]; an error abandons what was written. *)
Fixpoint WriteContent {W} (write : bytes → W → result W) (fuel : nat) (k : Key) (w : W) : result W :=
  match fuel with
  | O => Diverge
  | S fuel =>
      data ← wrap "reading %s" (get k);
      if Type_ k =? Blob then write data w
      else if Type_ k =? FileNode then
        children ← DecodeFileNode data;
        foldR (λ ck w, WriteContent write fuel ck w) children w
      else Err (errors_New "%s is not a file-content object (type %v)")
  end.

Definition notDirObject {A} : result A :=
  Err (errors_New "fstree: %s is not a directory object (type %v)").

Fixpoint LookupEntry (fuel : nat) (k : Key) (name : bytes) : result Entry :=
  match fuel with
  | O => Diverge
  | S fuel =>
      data ← wrap "fstree: reading %s" (get k);
      if Type_ k =? DirLeaf then
        entries ← wrap "fstree: decoding DirLeaf %s" (DecodeDirLeaf data);
        i ← search_list entries (λ e, cmp_ge (Name e) name);
        if (i <? length entries)%nat then
          e ← index entries (Z.of_nat i);
          if bool_decide (Name e = name) then Ok e
          else Err (Errorf "fstree: %q" (errors_New ErrNotFound))
        else Err (Errorf "fstree: %q" (errors_New ErrNotFound))
      else if Type_ k =? DirNode then
        pairs ← wrap "fstree: decoding DirNode %s" (DecodeDirNode data);
        i ← search_list pairs (λ p, cmp_ge (SepName p) name);
        if (i =? length pairs)%nat then Err (Errorf "fstree: %q" (errors_New ErrNotFound)) else
        p ← index pairs (Z.of_nat i);
        ck ← wrap "fstree: child key in DirNode %s" (Parse (ChildKey p));
        LookupEntry fuel ck name
      else notDirObject
  end.

(** The loop [for ; i < len(entries); i++]: it stops with [true] at the
    first entry beyond the limit. *)
Fixpoint fill (limit : Z) (entries out : list Entry) : list Entry * bool :=
  match entries with
  | [] => (out, false)
  | e :: entries => if zlen out =? limit then (out, true) else fill limit entries (out ++ [e])
  end.

(** The loop over the pairs of a DirNode: it stops with [true] as soon as a
    child reports more. *)
Fixpoint list_children (into : list Entry → Key → result (list Entry * bool))
    (pairs : list DirPair) (out : list Entry) : result (list Entry * bool) :=
  match pairs with
  | [] => Ok (out, false)
  | p :: pairs =>
      ck ← wrap "fstree: child key in DirNode %s" (Parse (ChildKey p));
      '(out, more) ← into out ck;
      if more : bool then Ok (out, true) else list_children into pairs out
  end.

Fixpoint listInto (fuel : nat) (out : list Entry) (k : Key) (after : bytes) (limit : Z) :
    result (list Entry * bool) :=
  match fuel with
  | O => Diverge
  | S fuel =>
      data ← wrap "fstree: reading %s" (get k);
      if Type_ k =? DirLeaf then
        entries ← wrap "fstree: decoding DirLeaf %s" (DecodeDirLeaf data);
        i ← search_list entries (λ e, cmp_gt (Name e) after);
        Ok (fill limit (drop i entries) out)
      else if Type_ k =? DirNode then
        pairs ← wrap "fstree: decoding DirNode %s" (DecodeDirNode data);
        i ← search_list pairs (λ p, cmp_gt (SepName p) after);
        list_children (λ out ck, listInto fuel out ck after limit) (drop i pairs) out
      else notDirObject
  end.

Definition ListEntries (fuel : nat) (dir : Key) (after : bytes) (limit : Z) :
    result (list Entry * bool) :=
  if limit <=? 0 then Err (errors_New "fstree: ListEntries limit must be positive, got %d")
  else listInto fuel [] dir after limit.

(** The body of the entry loop of [collectEntries]. *)
Definition collect_one (e : Entry) (out : list Entry) : result (list Entry) :=
  match last out with
  | Some l =>
      if negb (cmp_gt (Name e) (Name l))
      then Err (errors_New "fstree: DirLeaf %s: entry %q is not after %q")
      else Ok (out ++ [e])
  | None => Ok (out ++ [e])
  end.

Fixpoint collectEntries (fuel : nat) (k : Key) (out : list Entry) : result (list Entry) :=
  match fuel with
  | O => Diverge
  | S fuel =>
      data ← wrap "fstree: reading %s" (get k);
      if Type_ k =? DirLeaf then
        entries ← wrap "fstree: decoding DirLeaf %s" (DecodeDirLeaf data);
        foldR collect_one entries out
      else if Type_ k =? DirNode then
        pairs ← wrap "fstree: decoding DirNode %s" (DecodeDirNode data);
        foldR (λ p out, ck ← wrap "fstree: child key in DirNode %s" (Parse (ChildKey p));
                        collectEntries fuel ck out) pairs out
      else notDirObject
  end.

Definition CollectEntries (fuel : nat) (k : Key) : result (list Entry) :=
  collectEntries fuel k [].

(** The loop body of [ResolvePath]. *)
Definition resolve_comp (fuel : nat) (comp : bytes) (k : Key) : result Key :=
  if comp_skip comp then Ok k
  else if comp_dotdot comp then Err (errors_New "fstree: %q: .. is not supported")
  else
    found ← LookupEntry fuel k comp;
    if negb (Z.land (Mode found) S_IFMT =? S_IFDIR) then Err (Errorf "fstree: %q" (errors_New ErrNotDir))
    else wrap "fstree: %q: content key" (Parse (ContentKey found)).

Definition ResolvePath (fuel : nat) (root : Key) (path : bytes) : result Key :=
  foldR (resolve_comp fuel) (split_slash path) root.

(** The loop body of [ResolveEntry]; the state is [dir] and [cur]. *)
Definition resolve_entry_comp (fuel : nat) (comp : bytes) (st : Key * option Entry) :
    result (Key * option Entry) :=
  let '(dir, cur) := st in
  if comp_skip comp then Ok (dir, cur)
  else if comp_dotdot comp then Err (errors_New "fstree: %q: .. is not supported")
  else
    dir ← match cur with
          | Some c =>
              if negb (Z.land (Mode c) S_IFMT =? S_IFDIR)
              then Err (Errorf "fstree: %q" (errors_New ErrNotDir))
              else wrap "fstree: %q: content key" (Parse (ContentKey c))
          | None => Ok dir
          end;
    ent ← LookupEntry fuel dir comp;
    Ok (dir, Some ent).

Definition ResolveEntry (fuel : nat) (root : Key) (path : bytes) : result (option Entry) :=
  '(_, cur) ← foldR (resolve_entry_comp fuel) (split_slash path) (root, None);
  Ok cur.
End readers.

(** ** The readers implement the abstract trees

    On a directory tree with increasing names, [LookupEntry] finds exactly the
    entries of the tree, [ListEntries] pages through them, [CollectEntries]
    returns all of them; on a file tree [WriteContent] writes its bytes.  The
    last section joins these facts with the builders: what is built is what is
    read. *)

Lemma cmp_ge_true a b : cmp_ge a b = true ↔ bytes_le b a.
Proof.
  unfold cmp_ge. rewrite bytes_le_not_lt. unfold bytes_lt.
  destruct (bytes_Compare a b); naive_solver.
Qed.

Lemma cmp_ge_false a b : cmp_ge a b = false ↔ bytes_lt a b.
Proof. unfold cmp_ge, bytes_lt. destruct (bytes_Compare a b); naive_solver. Qed.

Lemma cmp_gt_true a b : cmp_gt a b = true ↔ bytes_lt b a.
Proof.
  unfold cmp_gt, bytes_lt. rewrite (bytes_Compare_antisym a b).
  destruct (bytes_Compare a b); naive_solver.
Qed.

Lemma cmp_gt_false a b : cmp_gt a b = false ↔ bytes_le a b.
Proof. unfold cmp_gt, bytes_le. destruct (bytes_Compare a b); naive_solver. Qed.

(** ** Searching sorted names *)
Lemma sorted_search {A} (nm : A → bytes) (l : list A) (p : bytes → bool) :
  StronglySorted bytes_lt (nm <$> l) →
  (∀ a b, bytes_lt a b → p a = true → p b = true) →
  ∃ l1 l2, l = l1 ++ l2 ∧ search_list l (λ x, p (nm x)) = Ok (length l1) ∧
           Forall (λ x, p (nm x) = false) l1 ∧ Forall (λ x, p (nm x) = true) l2.
Proof.
  intros Hs Hp. apply search_list_spec. intros i j x y Hij Hx Hy Hpx.
  destruct (decide (i = j)) as [->|Hne]; [congruence|].
  apply (Hp (nm x)); [|done].
  apply (StronglySorted_lookup_lt _ (nm <$> l) i j); [done| | |lia].
  - by rewrite list_lookup_fmap, Hx.
  - by rewrite list_lookup_fmap, Hy.
Qed.

(** The separators of a node's children increase with the children's names. *)
Lemma seps_sorted pairs (kids : list (Key * list Entry)) :
  Forall2 (λ p kid, last_name (snd kid) (SepName p)) pairs kids →
  names_sorted (concat kids.*2) →
  StronglySorted bytes_lt (SepName <$> pairs).
Proof.
  induction 1 as [|p [k c] pairs kids Hl HF IH]; simpl; [constructor|].
  intros (Hc & Hrest & Hx)%names_sorted_app. constructor; [by apply IH|].
  clear IH Hrest. apply Forall_fmap, Forall_lookup. intros i q Hq. simpl.
  destruct (Forall2_lookup_l _ _ _ _ _ HF Hq) as ([k' c'] & Hc' & (e' & He' & <-)).
  destruct Hl as (e & He & <-). simpl in He, He'. apply Hx.
  - apply last_Some in He as [? ->]. set_solver.
  - apply list_elem_of_In, in_concat. exists c'. split; apply list_elem_of_In.
    + apply list_elem_of_fmap. exists (k', c'). split; [done|]. by eapply list_elem_of_lookup_2.
    + apply last_Some in He' as [? ->]. set_solver.
Qed.

(** A search for the separators of a node splits its entries alike. *)
Lemma node_search pairs (kids : list (Key * list Entry)) (p : bytes → bool) :
  Forall2 (λ p kid, last_name (snd kid) (SepName p)) pairs kids →
  names_sorted (concat kids.*2) →
  (∀ a b, bytes_lt a b → p a = true → p b = true) →
  ∃ i, search_list pairs (λ x, p (SepName x)) = Ok i ∧ (i ≤ length pairs)%nat ∧
       Forall (λ e, p (Name e) = false) (concat (take i kids).*2) ∧
       (∀ q, pairs !! i = Some q → p (SepName q) = true).
Proof.
  intros HF Hs Hp.
  destruct (sorted_search SepName pairs p) as (p1 & p2 & -> & Hi & H1 & H2);
    [by eapply seps_sorted|done|].
  exists (length p1). split_and!; [done|rewrite length_app; lia| |].
  2:{ intros q Hq. rewrite Forall_forall in H2. apply H2.
      rewrite lookup_app_r in Hq by lia. by eapply list_elem_of_lookup_2. }
  apply Forall2_app_inv_l in HF as (k1 & k2 & HF1 & _ & ->).
  rewrite take_app_all by (by eapply Forall2_length).
  rewrite fmap_app, concat_app in Hs. apply names_sorted_app in Hs as (Hs1 & _ & _).
  clear -HF1 H1 Hs1 Hp. induction HF1 as [|q [k c] p1 k1 Hl HF IH]; simpl; [constructor|].
  apply Forall_cons in H1 as [Hq H1]. simpl in Hs1.
  apply names_sorted_app in Hs1 as (Hc & Hrest & _). apply Forall_app. split; [|by apply IH].
  apply Forall_forall. intros e He. destruct (p (Name e)) eqn:E; [|done].
  pose proof (last_name_max _ _ _ Hc Hl He) as [Hlt|Heq]%bytes_le_lteq.
  - by rewrite (Hp _ _ Hlt E) in Hq.
  - by rewrite <- Heq, E in Hq.
Qed.

(** ** LookupEntry *)

(** What a lookup promises: the entry of that name, or [ErrNotFound]. *)
Definition lookup_spec (es : list Entry) (name : bytes) : result Entry :=
  match list_find (λ e, Name e = name) es with
  | Some (_, e) => Ok e
  | None => Err (Errorf "fstree: %q" (errors_New ErrNotFound))
  end.

Lemma lookup_spec_absent es name :
  Forall (λ e, Name e ≠ name) es →
  lookup_spec es name = Err (Errorf "fstree: %q" (errors_New ErrNotFound)).
Proof. intros Hf. unfold lookup_spec. by rewrite (proj2 (list_find_None _ _)). Qed.

Lemma lookup_spec_skip es1 es2 name :
  Forall (λ e, Name e ≠ name) es1 → lookup_spec (es1 ++ es2) name = lookup_spec es2 name.
Proof.
  intros Hf. unfold lookup_spec. rewrite list_find_app_r by by apply list_find_None.
  by destruct (list_find _ es2) as [[]|].
Qed.

Lemma lookup_spec_prefix es1 es2 name :
  Forall (λ e, Name e ≠ name) es2 → lookup_spec (es1 ++ es2) name = lookup_spec es1 name.
Proof.
  intros Hf. unfold lookup_spec. destruct (list_find _ es1) as [[i e]|] eqn:E.
  - by erewrite list_find_app_l by done.
  - rewrite list_find_app_r by done. by rewrite (proj2 (list_find_None _ es2)).
Qed.

Lemma leaf_lookup es name :
  names_sorted es →
  (i ← search_list es (λ e, cmp_ge (Name e) name);
   if (i <? length es)%nat then
     e ← index es (Z.of_nat i);
     if bool_decide (Name e = name) then Ok e
     else Err (Errorf "fstree: %q" (errors_New ErrNotFound))
   else Err (Errorf "fstree: %q" (errors_New ErrNotFound))) = lookup_spec es name.
Proof.
  intros Hs.
  destruct (sorted_search Name es (λ n, cmp_ge n name)) as (es1 & es2 & -> & -> & H1 & H2);
    [done| |].
  { intros a b Hab. rewrite !cmp_ge_true. intros Ha.
    apply bytes_le_lteq. left. by eapply bytes_le_lt_trans. }
  rsimpl. assert (Forall (λ e, Name e ≠ name) es1) as Hne.
  { eapply Forall_impl; [exact H1|]. intros e He%cmp_ge_false Hn. rewrite Hn in He. by apply bytes_lt_irrefl in He. }
  rewrite lookup_spec_skip, length_app by done. destruct es2 as [|e es2].
  - replace (_ <? _)%nat with false by (simpl; lia). by rewrite lookup_spec_absent.
  - replace (_ <? _)%nat with true by (simpl; lia).
    rewrite (index_ok _ _ e) by (rewrite ?Nat2Z.id, ?list_lookup_middle; done || lia).
    rsimpl. unfold lookup_spec. case_bool_decide as Hn.
    + by rewrite (list_find_app_l _ [e] es2 0 e) by (simpl; by rewrite decide_True).
    + apply names_sorted_app in Hs as (_ & Hs & _).
      rewrite (proj2 (list_find_None _ _)); [done|]. apply Forall_cons. split; [done|].
      apply (names_sorted_app [e] es2) in Hs as (_ & _ & Hx). apply Forall_forall.
      intros e' He' Heq. apply Forall_cons in H2 as [He%cmp_ge_true _].
      apply bytes_le_lteq in He as [He|He]; [|congruence].
      specialize (Hx e e' ltac:(set_solver) He'). rewrite Heq in Hx.
      eapply bytes_lt_irrefl, bytes_lt_trans; eauto.
Qed.

Lemma concat_split (kids : list (Key * list Entry)) i k c :
  kids !! i = Some (k, c) →
  concat kids.*2 = concat (take i kids).*2 ++ c ++ concat (drop (S i) kids).*2.
Proof.
  intros Hi. rewrite <- (take_drop_middle kids i (k, c) Hi) at 1.
  rewrite fmap_app, concat_app. done.
Qed.

Section dir_readers.
Context `{Cbor} (get : Key → result bytes) (log : list Object).
Hypothesis get_log : serves get log.

(** Weaken the children of a node to their separators. *)
Lemma kids_seps h pairs kids :
  Forall2 (λ p kid, Parse (ChildKey p) = Ok (fst kid) ∧ last_name (snd kid) (SepName p) ∧
                    dir_tree h log (fst kid) (snd kid)) pairs kids →
  Forall2 (λ p kid, last_name (snd kid) (SepName p)) pairs kids.
Proof. intros HF. eapply Forall2_impl; [exact HF|]. by intros ?? (_ & ? & _). Qed.

Lemma LookupEntry_spec h k es name :
  dir_tree h log k es → names_sorted es → LookupEntry get h k name = lookup_spec es name.
Proof.
  revert k es. induction h as [|h IH]; intros k es Ht Hs; [done|]. simpl in Ht.
  cbn [LookupEntry].
  destruct Ht as [(Hty & data & Hin & Hdec)|(Hty & data & pairs & kids & Hin & Hdec & HF & ->)];
    rewrite (serves_elem _ _ _ _ get_log Hin); rsimpl; rewrite Hty; simpl Z.eqb; cbv iota;
    rewrite Hdec; rsimpl.
  - by apply leaf_lookup.
  - pose proof (Forall2_length _ _ _ HF) as Hlen.
    destruct (node_search pairs kids (λ n, cmp_ge n name)) as (i & -> & Hi & Hlo & Hhi);
      [by eapply kids_seps|done| |].
    { intros a b Hab. rewrite !cmp_ge_true. intros Ha.
      apply bytes_le_lteq. left. by eapply bytes_le_lt_trans. }
    rsimpl. assert (Forall (λ e, Name e ≠ name) (concat (take i kids).*2)) as Hne.
    { eapply Forall_impl; [exact Hlo|]. intros e He%cmp_ge_false Hn. rewrite Hn in He.
      by apply bytes_lt_irrefl in He. }
    destruct (i =? length pairs)%nat eqn:Ei.
    { rewrite lookup_spec_absent; [done|]. by rewrite take_ge in Hne by lia. }
    destruct (lookup_lt_is_Some_2 pairs i) as [q Hq]; [lia|].
    rewrite (index_ok _ _ q) by (rewrite ?Nat2Z.id; done || lia). rsimpl.
    destruct (Forall2_lookup_l _ _ _ _ _ HF Hq) as ([ck c] & Hk & Hp & Hl & Ht).
    simpl in Hp, Hl, Ht. rewrite Hp. rsimpl. specialize (Hhi q Hq). apply cmp_ge_true in Hhi.
    rewrite (concat_split _ _ _ _ Hk) in Hs |- *.
    apply names_sorted_app in Hs as (_ & Hs & _). pose proof Hs as (Hsc & _ & Hx)%names_sorted_app.
    rewrite lookup_spec_skip, lookup_spec_prefix; [by apply IH| |done].
    apply Forall_forall. intros e He Heq. destruct Hl as (l & Hl & Hln).
    specialize (Hx l e ltac:(apply last_Some in Hl as [? ->]; set_solver) He).
    rewrite Heq, Hln in Hx. by apply (bytes_lt_irrefl name), (bytes_le_lt_trans _ (SepName q)).
Qed.
(** ** ListEntries *)

(** The entries after [after]. *)
Definition later (after : bytes) (es : list Entry) : list Entry :=
  filter (λ e, bytes_lt after (Name e)) es.

(** What appending a page of [q] to [out] gives. *)
Definition page (limit : Z) (out q : list Entry) : list Entry * bool :=
  (out ++ take (Z.to_nat limit - length out) q, bool_decide (Z.to_nat limit - length out < length q)%nat).

Lemma fill_page limit q : ∀ out, zlen out <= limit → fill limit q out = page limit out q.
Proof.
  unfold page. induction q as [|e q IH]; intros out Hout; cbn [fill].
  { rewrite take_nil, app_nil_r, bool_decide_false by (simpl; lia). done. }
  destruct (zlen out =? limit) eqn:E.
  { replace (Z.to_nat limit - length out)%nat with 0%nat by lia. simpl.
    by rewrite app_nil_r. }
  rewrite IH by (rewrite length_app; simpl; lia). rewrite length_app. simpl length.
  replace (Z.to_nat limit - length out)%nat
    with (S (Z.to_nat limit - (length out + 1)))%nat by lia.
  simpl. rewrite <- app_assoc. f_equal. apply bool_decide_ext. lia.
Qed.

Lemma page_app limit out q1 q2 :
  zlen out <= limit →
  page limit out (q1 ++ q2) =
    let '(out1, more) := page limit out q1 in
    if more then (out1, true) else page limit out1 q2.
Proof.
  intros Hout. unfold page. rewrite length_app.
  destruct (decide (Z.to_nat limit - length out < length q1)%nat) as [H1|H1].
  - rewrite !bool_decide_true by lia. by rewrite take_app_le by lia.
  - rewrite (bool_decide_false (_ < length q1)%nat), (take_ge q1) by lia. rewrite length_app, take_app_ge, app_assoc by lia. f_equal.
    + do 2 f_equal. lia.
    + apply bool_decide_ext. lia.
Qed.

Lemma page_length limit out q : zlen out <= limit → zlen (page limit out q).1 <= limit.
Proof. intros. simpl. rewrite length_app, length_take. lia. Qed.

Lemma later_app after es1 es2 : later after (es1 ++ es2) = later after es1 ++ later after es2.
Proof. apply filter_app. Qed.

Lemma later_none after es :
  Forall (λ e, cmp_gt (Name e) after = false) es → later after es = [].
Proof.
  induction 1 as [|e es He _ IH]; [done|]. unfold later. rewrite filter_cons_False; [done|].
  apply cmp_gt_false in He. by apply bytes_le_not_lt.
Qed.

Lemma later_all after es :
  Forall (λ e, cmp_gt (Name e) after = true) es → later after es = es.
Proof.
  induction 1 as [|e es He _ IH]; [done|]. unfold later. rewrite filter_cons_True; [by f_equal|].
  by apply cmp_gt_true.
Qed.

Lemma list_children_spec into after limit pairs (kids : list (Key * list Entry)) :
  Forall2 (λ p kid, Parse (ChildKey p) = Ok (fst kid)) pairs kids →
  (∀ kid out, kid ∈ kids → zlen out <= limit →
              into out (fst kid) = Ok (page limit out (later after (snd kid)))) →
  ∀ out, zlen out <= limit →
  list_children into pairs out = Ok (page limit out (later after (concat kids.*2))).
Proof.
  induction 1 as [|p [ck c] pairs kids Hp HF IH]; intros Hinto out Hout; cbn [list_children].
  { change (later after (concat _)) with (@nil Entry). unfold page.
    rewrite take_nil, app_nil_r, bool_decide_false by (simpl; lia). done. }
  simpl in Hp. rewrite Hp. rsimpl.
  pose proof (Hinto (ck, c) out ltac:(set_solver) Hout) as Hone. simpl in Hone.
  rewrite Hone. rsimpl.
  cbn [fmap list_fmap snd concat]. rewrite (later_app after c), page_app by done.
  destruct (page limit out (later after c)) as [out1 []] eqn:E; [done|].
  apply IH; [set_solver|]. pose proof (page_length limit out (later after c) Hout).
  by rewrite E in *.
Qed.

Lemma names_sorted_kid (kids : list (Key * list Entry)) kid :
  names_sorted (concat kids.*2) → kid ∈ kids → names_sorted (snd kid).
Proof.
  intros Hs [i Hi]%list_elem_of_lookup. destruct kid as [k c].
  rewrite (concat_split _ _ _ _ Hi), !names_sorted_app in Hs. simpl. tauto.
Qed.

Lemma listInto_spec h k es after limit :
  dir_tree h log k es → names_sorted es →
  ∀ out, zlen out <= limit →
  listInto get h out k after limit = Ok (page limit out (later after es)).
Proof.
  assert (∀ a b, bytes_lt a b → cmp_gt a after = true → cmp_gt b after = true) as Hmono.
  { intros a b Hab. rewrite !cmp_gt_true. intros. by eapply bytes_lt_trans. }
  revert k es. induction h as [|h IH]; intros k es Ht Hs out Hout; [done|]. simpl in Ht.
  cbn [listInto].
  destruct Ht as [(Hty & data & Hin & Hdec)|(Hty & data & pairs & kids & Hin & Hdec & HF & ->)];
    rewrite (serves_elem _ _ _ _ get_log Hin); rsimpl; rewrite Hty; simpl Z.eqb; cbv iota;
    rewrite Hdec; rsimpl.
  - destruct (sorted_search Name es (λ n, cmp_gt n after)) as (es1 & es2 & -> & -> & H1 & H2);
      [done..|]. rsimpl.
    rewrite drop_app_length, later_app, later_none, later_all by done. by rewrite fill_page.
  - destruct (node_search pairs kids (λ n, cmp_gt n after)) as (i & -> & Hi & Hlo & _);
      [by eapply kids_seps|done..|]. rsimpl.
    rewrite <- (take_drop i kids) at 1. rewrite fmap_app, concat_app, later_app, (later_none _ _ Hlo).
    apply list_children_spec; [|intros kid o Hkid Ho|done].
    + apply Forall2_drop. eapply Forall2_impl; [exact HF|]. by intros ?? (? & _).
    + assert (kid ∈ kids) as Hk by (rewrite <- (take_drop i kids); set_solver).
      apply IH; [|by eapply names_sorted_kid|done].
      apply list_elem_of_lookup in Hk as [j Hj].
      by destruct (Forall2_lookup_r _ _ _ _ _ HF Hj) as (? & _ & _ & _ & ?).
Qed.

(** ** CollectEntries *)
Lemma collect_one_spec es : ∀ out,
  names_sorted (out ++ es) → foldR collect_one es out = Ok (out ++ es).
Proof.
  induction es as [|e es IH]; intros out Hs; cbn [foldR]; [by rewrite app_nil_r|].
  assert (collect_one e out = Ok (out ++ [e])) as ->.
  { unfold collect_one. destruct (last out) as [l|] eqn:El; [|done].
    apply names_sorted_app in Hs as (_ & _ & Hx).
    apply last_Some in El as [out' ->].
    by rewrite (proj2 (cmp_gt_true _ _) (Hx l e ltac:(set_solver) ltac:(set_solver))). }
  rsimpl. rewrite IH, <- app_assoc; [done|]. by rewrite <- app_assoc.
Qed.

Lemma collectEntries_spec h k es :
  dir_tree h log k es → ∀ out, names_sorted (out ++ es) →
  collectEntries get h k out = Ok (out ++ es).
Proof.
  revert k es. induction h as [|h IH]; intros k es Ht out Hs; [done|]. simpl in Ht.
  cbn [collectEntries].
  destruct Ht as [(Hty & data & Hin & Hdec)|(Hty & data & pairs & kids & Hin & Hdec & HF & ->)];
    rewrite (serves_elem _ _ _ _ get_log Hin); rsimpl; rewrite Hty; simpl Z.eqb; cbv iota;
    rewrite Hdec; rsimpl; [by apply collect_one_spec|].
  clear Hdec. revert out Hs. induction HF as [|p [ck c] pairs kids (Hp & _ & Ht) _ IHF];
    intros out Hs; simpl in *; [by rewrite app_nil_r|].
  rewrite Hp. rsimpl. rewrite app_assoc in Hs. pose proof Hs as (Hs1 & _)%names_sorted_app.
  rewrite (IH _ _ Ht _ Hs1). rsimpl. rewrite IHF by done. by rewrite app_assoc.
Qed.
End dir_readers.

(** Whatever the store returns, a collected list of entries is sorted. *)
Lemma collect_one_sorted e out out' :
  names_sorted out → collect_one e out = Ok out' → names_sorted out'.
Proof.
  unfold collect_one. intros Hs. destruct (last out) as [l|] eqn:El.
  - destruct (cmp_gt _ _) eqn:Ec; [|done]. intros [= <-]. apply cmp_gt_true in Ec.
    apply names_sorted_app. split_and!; [done|repeat constructor|].
    intros e1 e2 H1 ->%list_elem_of_singleton. eapply bytes_le_lt_trans; [|exact Ec].
    eapply last_name_max; [done| |done]. by exists l.
  - apply last_None in El as ->. intros [= <-]. repeat constructor.
Qed.

Lemma foldR_sorted {A} (f : A → list Entry → result (list Entry)) l :
  (∀ x out out', names_sorted out → f x out = Ok out' → names_sorted out') →
  ∀ out out', names_sorted out → foldR f l out = Ok out' → names_sorted out'.
Proof.
  intros Hf. induction l as [|x l IH]; intros out out' Hs; cbn [foldR].
  - by intros [= <-].
  - intros (o & Ho & Hl)%bind_Ok. eauto.
Qed.

Lemma collectEntries_sorted `{Cbor} get fuel : ∀ k out out',
  names_sorted out → collectEntries get fuel k out = Ok out' → names_sorted out'.
Proof.
  induction fuel as [|fuel IH]; intros k out out' Hs; cbn [collectEntries]; [done|].
  intros (data & _ & Hr)%bind_Ok. destruct (Type_ k =? DirLeaf).
  - apply bind_Ok in Hr as (es & _ & Hr). eapply foldR_sorted; [|exact Hs|exact Hr].
    intros. by eapply collect_one_sorted.
  - destruct (Type_ k =? DirNode); [|done].
    apply bind_Ok in Hr as (es & _ & Hr). eapply foldR_sorted; [|exact Hs|exact Hr].
    intros p o o' Ho (ck & _ & ?)%bind_Ok. eauto.
Qed.

(** ** WriteContent *)

(** An [io.Writer] that keeps what it is given. *)
Definition write_append (data w : bytes) : result bytes := Ok (w ++ data).

Lemma WriteContent_spec `{Cbor} get log h k c :
  serves get log → file_tree h log k c →
  ∀ w, WriteContent get write_append h k w = Ok (w ++ c).
Proof.
  intros Hget. revert k c. induction h as [|h IH]; intros k c Ht w; [done|]. simpl in Ht.
  cbn [WriteContent].
  destruct Ht as [(Hty & Hin)|(Hty & data & kids & Hin & Hdec & HF & ->)];
    rewrite (serves_elem _ _ _ _ Hget Hin); rsimpl; rewrite Hty; simpl Z.eqb; cbv iota; [done|].
  rewrite Hdec. rsimpl. clear Hdec Hin. revert w.
  induction HF as [|[ck cc] kids Ht _ IHF]; intros w; simpl in *; [by rewrite app_nil_r|].
  rewrite (IH _ _ Ht). rsimpl. rewrite IHF. by rewrite app_assoc.
Qed.

(** ** Paths *)
Lemma split_slash_ne path : split_slash path ≠ [].
Proof.
  induction path as [|c path IH]; [done|]. simpl. case_bool_decide; [done|].
  by destruct (split_slash path).
Qed.

Lemma split_slash_app p q : split_slash (p ++ x2f :: q) = split_slash p ++ split_slash q.
Proof.
  induction p as [|c p IH]; simpl.
  - done.
  - case_bool_decide; rewrite IH; [done|].
    pose proof (split_slash_ne p). by destruct (split_slash p).
Qed.

(** [dir_of root cur]: the directory a resolved entry stands for. *)
Definition dir_of (root : Key) (cur : option Entry) : result Key :=
  match cur with
  | None => Ok root
  | Some c =>
      if negb (Z.land (Mode c) S_IFMT =? S_IFDIR)
      then Err (Errorf "fstree: %q" (errors_New ErrNotDir))
      else wrap "fstree: %q: content key" (Parse (ContentKey c))
  end.

Lemma resolve_agree `{Cbor} get fuel comps : ∀ root cur d c,
  foldR (resolve_entry_comp get fuel) comps (root, cur) = Ok (d, c) →
  dir_of d c = dir ← dir_of root cur; foldR (resolve_comp get fuel) comps dir.
Proof.
  induction comps as [|comp comps IH]; intros root cur d c; cbn [foldR].
  { intros [= <- <-]. by destruct (dir_of root cur). }
  intros (st & Hst & Hrest)%bind_Ok. unfold resolve_entry_comp in Hst.
  destruct (comp_skip comp) eqn:Hskip.
  { simplify_eq. rewrite (IH _ _ _ _ Hrest). destruct (dir_of root cur); try done. rsimpl.
    generalize (foldR (resolve_comp get fuel) comps). unfold resolve_comp. by rewrite Hskip. }
  destruct (comp_dotdot comp) eqn:Hdot; [done|].
  apply bind_Ok in Hst as (dir' & Hdir' & (ent & Hent & [= <-])%bind_Ok).
  rewrite (IH _ _ _ _ Hrest). change (dir_of root cur = Ok dir') in Hdir'. rewrite Hdir'. rsimpl.
  generalize (foldR (resolve_comp get fuel) comps). unfold resolve_comp.
  rewrite Hskip, Hdot, Hent. done.
Qed.

Lemma resolve_none `{Cbor} get fuel comps : ∀ root cur d,
  foldR (resolve_entry_comp get fuel) comps (root, cur) = Ok (d, None) → cur = None ∧ d = root.
Proof.
  induction comps as [|comp comps IH]; intros root cur d; cbn [foldR]; [by intros [= -> ->]|].
  intros (st & Hst & Hrest)%bind_Ok. unfold resolve_entry_comp in Hst.
  destruct (comp_skip comp); [simplify_eq; by apply IH|].
  destruct (comp_dotdot comp); [done|].
  apply bind_Ok in Hst as (dir' & _ & (ent & _ & [= <-])%bind_Ok). by apply IH in Hrest as [??].
Qed.

(** ** Properties *)

(** A directory built from entries with increasing names reads back as
    those entries, whatever the chunker: the streaming build returns a valid
    root, and over any store that serves the emitted objects a lookup finds
    exactly the entries by name (and reports [ErrNotFound] for every other
    name), a listing returns the next [limit] entries after a name and whether
    more follow, and a full collection returns all entries in order. *)
Theorem build_dir_readable `{Blake3} `{!Cbor} `{!CborLaws} ic es :
  chunker_ok ic → MaxRun ic <= Z.of_nat MaxArrayElements →
  Forall encodable es → names_sorted es →
  ∃ k log h, build_dir emit_log ic es [] = Ok (k, log) ∧ Validate k = Ok tt ∧
    ∀ get fuel, serves get log → (h ≤ fuel)%nat →
      (∀ name, LookupEntry get fuel k name = lookup_spec es name) ∧
      (∀ after limit, 0 < limit →
         ListEntries get fuel k after limit =
           Ok (take (Z.to_nat limit) (later after es), bool_decide (limit < zlen (later after es)))) ∧
      CollectEntries get fuel k = Ok es.
Proof.
  intros Hic Hmax Henc Hs. destruct (build_dir_spec ic Hic Hmax es Henc) as (k & h & log & Hb & Ht & Hv).
  exists k, log, h. split_and!; [done..|]. intros get fuel Hget Hfuel.
  assert (dir_tree fuel log k es) as Ht' by (by eapply dir_tree_mono).
  split_and!.
  - intros name. by eapply LookupEntry_spec.
  - intros after limit Hl. unfold ListEntries. replace (limit <=? 0) with false by lia.
    erewrite listInto_spec by (done || (simpl; lia)). unfold page. simpl length.
    rewrite Nat.sub_0_r, app_nil_l. do 2 f_equal. apply bool_decide_ext. lia.
  - by eapply (collectEntries_spec get log Hget _ _ _ Ht' []).
Qed.

(** A file built from its chunks reads back as their concatenation: the
    build returns a valid root whose length field is the size of the content
    (modulo 2^64), and [WriteContent] over any store that serves the emitted
    objects appends exactly the content to the writer. *)
Theorem buildFile_readable `{Blake3} `{!Cbor} `{!CborLaws} ic chunks :
  chunker_ok ic → MaxRun ic <= Z.of_nat MaxArrayElements →
  ∃ k log h, buildFile emit_log ic chunks [] = Ok (k, log) ∧ Validate k = Ok tt ∧
    Length k = u64 (zlen (concat chunks)) ∧
    ∀ get fuel w, serves get log → (h ≤ fuel)%nat →
      WriteContent get write_append fuel k w = Ok (w ++ concat chunks).
Proof.
  intros Hic Hmax. destruct (buildFile_spec ic Hic Hmax chunks) as (k & h & log & Hb & Ht & Hv & Hl).
  exists k, log, h. split_and!; [done..|]. intros get fuel w Hget Hfuel.
  eapply WriteContent_spec; [done|]. by eapply file_tree_mono.
Qed.

(** [CollectEntries] enforces the order of names against any store: the
    list it returns, if it returns one, has strictly increasing names, so a
    tree that repeats a child or reorders its leaves is an error and never a
    result. *)
Theorem CollectEntries_sorted `{Cbor} get fuel k es :
  CollectEntries get fuel k = Ok es → names_sorted es.
Proof. apply collectEntries_sorted. constructor. Qed.

(** Resolving a path composes: the directory of [p/q] is the directory of
    [q] below the directory of [p], errors included, for every store. *)
Theorem ResolvePath_app `{Cbor} get fuel root p q :
  ResolvePath get fuel root (p ++ x2f :: q) =
    k ← ResolvePath get fuel root p; ResolvePath get fuel k q.
Proof. unfold ResolvePath. by rewrite split_slash_app, foldR_app. Qed.

(** [ResolveEntry] and [ResolvePath] agree: whenever the first returns an
    entry (or nothing, for the root), the second returns that entry's directory
    key, or the error that says why it is not a directory. *)
Theorem ResolveEntry_ResolvePath `{Cbor} get fuel root path cur :
  ResolveEntry get fuel root path = Ok cur →
  ResolvePath get fuel root path = dir_of root cur.
Proof.
  unfold ResolveEntry, ResolvePath. intros ([d c] & Hf & [= <-])%bind_Ok.
  pose proof (resolve_agree _ _ _ _ _ _ _ Hf) as Ha. cbn in Ha. rewrite <- Ha.
  destruct c; [done|]. by apply resolve_none in Hf as [_ ->].
Qed.

(** ** Applications to concrete inputs *)
Section examples.
#[local] Existing Instance blake3_example.
#[local] Existing Instance cbor_example.
#[local] Existing Instance cbor_example_laws.

Definition chunker_example : ItemChunker := mkItemChunker 2 8 1.
Definition entries_example : list Entry :=
  (λ n, entry_example [n] [] 0x81A4) <$> [x61; x62; x63; x64; x65].

Lemma build_dir_readable_witness :
  ∃ k log h, build_dir emit_log chunker_example entries_example [] = Ok (k, log) ∧
    ∀ get fuel, serves get log → (h ≤ fuel)%nat →
      LookupEntry get fuel k [x63] = Ok (entry_example [x63] [] 0x81A4) ∧
      CollectEntries get fuel k = Ok entries_example.
Proof.
  destruct (build_dir_readable chunker_example entries_example) as (k & log & h & Hb & _ & Hr).
  - by split.
  - vm_compute. discriminate.
  - repeat constructor; try done; left; done.
  - repeat constructor.
  - exists k, log, h. split; [exact Hb|]. intros get fuel Hg Hf.
    destruct (Hr get fuel Hg Hf) as (Hl & _ & Hc). split; [|exact Hc].
    rewrite Hl. vm_compute. reflexivity.
Defined.

Lemma buildFile_readable_witness :
  ∃ k log h, buildFile emit_log chunker_example [[x41; x42]; [x43]; [x44]] [] = Ok (k, log) ∧
    Length k = 4 ∧
    ∀ get fuel w, serves get log → (h ≤ fuel)%nat →
      WriteContent get write_append fuel k w = Ok (w ++ [x41; x42; x43; x44]).
Proof.
  destruct (buildFile_readable chunker_example [[x41; x42]; [x43]; [x44]])
    as (k & log & h & Hb & _ & Hlen & Hr); [by split|vm_compute; discriminate|].
  exists k, log, h. split_and!; [exact Hb|exact Hlen|exact Hr].
Defined.

(** The five entries with the root of their tree, and the tree's store. *)
Definition dir_example : Key * list Object :=
  match build_dir emit_log chunker_example entries_example [] with
  | Ok r => r
  | _ => (to_key [], [])
  end.

Lemma CollectEntries_sorted_witness :
  CollectEntries (log_get dir_example.2) 3 dir_example.1 = Ok entries_example ∧
  names_sorted entries_example.
Proof.
  split; [vm_compute; reflexivity|].
  apply (CollectEntries_sorted (log_get dir_example.2) 3 dir_example.1). vm_compute. reflexivity.
Defined.

Lemma ResolveEntry_ResolvePath_witness :
  ResolvePath (log_get dir_example.2) 3 dir_example.1 [x2e; x2f; x62]
  = dir_of dir_example.1 (Some (entry_example [x62] [] 0x81A4)).
Proof. apply ResolveEntry_ResolvePath. vm_compute. reflexivity. Defined.
End examples.
