(* ===== verification/FsWalk.v ===== *)
(** * Package [fstree]: walking the object graph
    ([children.go], [reachable.go], [checkcomplete.go])

    Both walks are the same breadth-first sweep: the objects of a frontier are
    visited concurrently, then their children are absorbed in frontier order.
    [pick] stands for the scheduler: it chooses the error that the error group
    reports when several visits fail.  The fuel bounds the number of rounds;
    one more than the number of reachable keys is enough. *)

From Stdlib Require Import Init.Byte.
From S2P Require Import Prelude Machine Key FsEncode Instances.
From Stdlib Require Import ZifyBool ZifyNat.
Local Open Scope Z_scope.

(** [errgroup.Group]: run every task, report one of the errors. *)
Section errgroup.
Context {A : Type} (pick : list error → error).

Definition errors_of (rs : list (result A)) : list error :=
  omap (λ r, match r with Err e => Some e | _ => None end) rs.

Definition values_of (rs : list (result A)) : list A :=
  omap (λ r, match r with Ok a => Some a | _ => None end) rs.

Definition Group_Wait (rs : list (result A)) : result (list A) :=
  if existsb (λ r, match r with Panic => true | _ => false end) rs then Panic
  else if existsb (λ r, match r with Diverge => true | _ => false end) rs then Diverge
  else match errors_of rs with
       | [] => Ok (values_of rs)
       | es => Err (pick es)
       end.
End errgroup.

Section walk.
Context `{Cbor}.

(** The children of one entry, appended to [out]. *)
Definition entry_children (ent : Entry) (out : list Key) : result (list Key) :=
  out ← (if (0 <? length (ContentKey ent))%nat
         then ck ← wrap "fstree: %q: content key" (Parse (ContentKey ent)); Ok (out ++ [ck])
         else Ok out);
  if (0 <? length (XattrsKey ent))%nat
  then xk ← wrap "fstree: %q: xattrs key" (Parse (XattrsKey ent)); Ok (out ++ [xk])
  else Ok out.

Definition ChildKeys (k : Key) (data : bytes) : result (list Key) :=
  if (Type_ k =? Blob) || (Type_ k =? XattrSet) then Ok []
  else if Type_ k =? FileNode then wrap "fstree: decoding FileNode %s" (DecodeFileNode data)
  else if Type_ k =? DirNode then
    pairs ← wrap "fstree: decoding DirNode %s" (DecodeDirNode data);
    foldR (λ p out, ck ← wrap "fstree: child key in DirNode %s" (Parse (ChildKey p));
                    Ok (out ++ [ck])) pairs []
  else if Type_ k =? DirLeaf then
    entries ← wrap "fstree: decoding DirLeaf %s" (DecodeDirLeaf data);
    foldR entry_children entries []
  else Err (errors_New "fstree: unknown object type %s").

(** Blob and XattrSet objects have no children. *)
Definition is_leaf (k : Key) : bool := (Type_ k =? Blob) || (Type_ k =? XattrSet).

(** The state of a sweep: [seen], the result so far, the next frontier. *)
Record sweep := mkSweep { seen : gset Key; visited : list Key; next : list Key }.

Definition absorb_one (s : sweep) (ck : Key) : sweep :=
  if bool_decide (ck ∈ seen s) then s
  else mkSweep ({[ck]} ∪ seen s) (visited s ++ [ck]) (next s ++ [ck]).

Definition absorb (childLists : list (list Key)) (s : sweep) : sweep :=
  foldl (foldl absorb_one) s childLists.

Section bfs.
Context (pick : list error → error) (visit : Key → result (list Key)).

(** [for len(frontier) > 0 { ... }] *)
Fixpoint bfs (fuel : nat) (frontier : list Key) (s : sweep) : result (list Key) :=
  match frontier with
  | [] => Ok (visited s)
  | _ =>
      match fuel with
      | O => Diverge
      | S fuel =>
          childLists ← Group_Wait pick (visit <$> frontier);
          let s := absorb childLists (mkSweep (seen s) (visited s) []) in
          bfs fuel (next s) s
      end
  end.

Definition bfs_from (fuel : nat) (root : Key) : result (list Key) :=
  bfs fuel [root] (mkSweep {[root]} [root] []).
End bfs.

Context (pick : list error → error) (get : Key → result bytes) (has : Key → result bool).

Definition fetch_children (k : Key) : result (list Key) :=
  data ← wrap "fstree: reading %s" (get k);
  ChildKeys k data.

(** The task [ReachableKeys] starts for one key; leaves are not fetched. *)
Definition reach_visit (k : Key) : result (list Key) :=
  if is_leaf k then Ok [] else fetch_children k.

Definition ReachableKeys (fuel : nat) (root : Key) : result (list Key) :=
  bfs_from pick reach_visit fuel root.

(** The task [CheckComplete] starts for one key. *)
Definition check_visit (k : Key) : result (list Key) :=
  if is_leaf k then
    ok ← has k;
    if ok : bool then Ok [] else Err (errors_New "fstree: object %s is missing")
  else fetch_children k.

Definition CheckComplete (fuel : nat) (root : Key) : result (list Key) :=
  bfs_from pick check_visit fuel root.

(** ** The object graph *)
Definition child_of (k c : Key) : Prop :=
  is_leaf k = false ∧ ∃ data cs, get k = Ok data ∧ ChildKeys k data = Ok cs ∧ c ∈ cs.

(** [k] is reachable from [root]. *)
Definition reachable (root k : Key) : Prop := rtc child_of root k.

(** [k] is stored and readable. *)
Definition present (k : Key) : Prop :=
  if is_leaf k then has k = Ok true
  else ∃ data cs, get k = Ok data ∧ ChildKeys k data = Ok cs.
End walk.

(** ** The sweep *)
Section group_facts.
Context {A : Type} (pick : list error → error).

Lemma Group_Wait_Ok (rs : list (result A)) vs :
  Group_Wait pick rs = Ok vs ↔ rs = Ok <$> vs.
Proof.
  unfold Group_Wait. split.
  - destruct (existsb _ rs) eqn:E1; [done|]. destruct (existsb _ rs) eqn:E2 in |- *; [done|].
    destruct (errors_of rs) eqn:E3; [|done]. intros [= <-].
    induction rs as [|[a|e| |] rs IH]; simpl in *; try done. f_equal. auto.
  - intros ->.
    assert (errors_of (Ok <$> vs) = [] ∧ values_of (Ok <$> vs) = vs) as [-> ->].
    { induction vs as [|v vs [IH1 IH2]]; [done|]. split; [done|]. simpl. by f_equal. }
    assert (∀ f : result A → bool, (∀ v, f (Ok v) = false) → existsb f (Ok <$> vs) = false) as Hf.
    { intros f Hf. induction vs as [|v vs IH]; [done|]. simpl. by rewrite Hf. }
    by rewrite !Hf.
Qed.

Lemma Group_Wait_safe (rs : list (result A)) : Forall safe rs → safe (Group_Wait pick rs).
Proof.
  intros Hs. unfold Group_Wait.
  assert (existsb (λ r : result A, match r with Panic => true | _ => false end) rs = false) as ->.
  { induction Hs as [|[] rs []]; done. }
  assert (existsb (λ r : result A, match r with Diverge => true | _ => false end) rs = false) as ->.
  { induction Hs as [|[] rs []]; done. }
  by destruct (errors_of rs).
Qed.
End group_facts.

Section sweep_facts.
(** What absorbing a list of children does to the sweep. *)
Definition absorbs (cs : list Key) (s s' : sweep) : Prop :=
  ∃ new, visited s' = visited s ++ new ∧ next s' = next s ++ new ∧ NoDup new ∧
         (∀ k, k ∈ new → (k ∉ seen s) ∧ k ∈ cs) ∧
         (∀ k, k ∈ seen s' ↔ k ∈ seen s ∨ k ∈ cs) ∧
         (∀ k, k ∈ seen s' ↔ k ∈ seen s ∨ k ∈ new).

Lemma absorb_one_spec s ck : absorbs [ck] s (absorb_one s ck).
Proof.
  unfold absorb_one. case_bool_decide.
  - exists []. rewrite !app_nil_r. split_and!; [done|done|constructor|set_solver..].
  - exists [ck]. simpl. split_and!; [done|done|apply NoDup_singleton|set_solver..].
Qed.

Lemma absorbs_trans cs1 cs2 s1 s2 s3 :
  absorbs cs1 s1 s2 → absorbs cs2 s2 s3 → absorbs (cs1 ++ cs2) s1 s3.
Proof.
  intros (n1 & V1 & N1 & D1 & F1 & S1 & T1) (n2 & V2 & N2 & D2 & F2 & S2 & T2).
  exists (n1 ++ n2). split_and!.
  - by rewrite V2, V1, app_assoc.
  - by rewrite N2, N1, app_assoc.
  - apply NoDup_app. split_and!; [done| |done]. intros k ? ?%F2. naive_solver.
  - intros k [Hk|Hk]%elem_of_app; [apply F1 in Hk|apply F2 in Hk]; set_solver.
  - intros k. rewrite S2, S1. set_solver.
  - intros k. rewrite T2, T1. set_solver.
Qed.

Lemma absorb_list_spec cs : ∀ s, absorbs cs s (foldl absorb_one s cs).
Proof.
  induction cs as [|c cs IH]; intros s; simpl.
  - exists []. rewrite !app_nil_r. split_and!; [done|done|constructor|set_solver..].
  - apply (absorbs_trans [c] cs _ (absorb_one s c)); [apply absorb_one_spec|apply IH].
Qed.

Lemma absorb_spec css : ∀ s, absorbs (concat css) s (absorb css s).
Proof.
  induction css as [|cs css IH]; intros s; simpl; [apply (absorb_list_spec [])|].
  eapply absorbs_trans; [apply absorb_list_spec|apply IH].
Qed.
End sweep_facts.

Section bfs_facts.
Context (pick : list error → error) (visit : Key → result (list Key)).
Context (edge : Key → Key → Prop) (root : Key).
Hypothesis visit_edge : ∀ k cs, visit k = Ok cs → ∀ c, c ∈ cs ↔ edge k c.

(** The loop invariant: every key seen is reachable and listed once, and the
    children of the keys before the frontier have all been seen. *)
Definition sweep_inv (frontier : list Key) (s : sweep) : Prop :=
  (∃ rest, visited s = root :: rest) ∧ NoDup (visited s) ∧
  (∀ k, k ∈ seen s ↔ k ∈ visited s) ∧ frontier ⊆ visited s ∧
  (∀ k, k ∈ visited s → rtc edge root k) ∧
  (∀ k, k ∈ visited s → k ∉ frontier →
        is_ok (visit k) = true ∧ ∀ c, edge k c → c ∈ visited s).

Lemma sweep_inv_init : sweep_inv [root] (mkSweep {[root]} [root] []).
Proof.
  split_and!; simpl; [by exists []|apply NoDup_singleton|set_solver..| |set_solver].
  intros k ->%list_elem_of_singleton. apply rtc_refl.
Qed.

Lemma sweep_inv_step frontier s css :
  sweep_inv frontier s → visit <$> frontier = Ok <$> css →
  let s' := absorb css (mkSweep (seen s) (visited s) []) in
  sweep_inv (next s') s' ∧
  (length (visited s') = length (visited s) + length (next s'))%nat.
Proof.
  intros ((rest & Hr) & Hnd & Hseen & Hsub & Hreach & Hdone) Hv s'.
  destruct (absorb_spec css (mkSweep (seen s) (visited s) []))
    as (new & Vis & Nxt & Dup & Fresh & Seen1 & Seen2). fold s' in Vis, Nxt, Seen1, Seen2.
  simpl in *. assert (∀ k, k ∈ frontier → ∃ cs, visit k = Ok cs ∧ cs ⊆ concat css) as Hfr.
  { clear -Hv. revert frontier Hv. induction css as [|cs css IH]; intros [|k f] Hv; try done;
      [set_solver|]. simpl in Hv. injection Hv as Hk Hv.
    intros k' [->|Hk']%elem_of_cons; [exists cs; set_solver|].
    destruct (IH _ Hv _ Hk') as (cs' & ? & ?). exists cs'. set_solver. }
  assert (∀ c, c ∈ concat css → ∃ k, k ∈ frontier ∧ edge k c) as Hcs.
  { clear -Hv visit_edge. revert frontier Hv.
    induction css as [|cs css IH]; intros [|k f] Hv; simpl; try done; [set_solver|].
    simpl in Hv. injection Hv as Hk Hv. intros c [Hc|Hc]%elem_of_app.
    - exists k. split; [set_solver|]. by apply (visit_edge k cs).
    - destruct (IH _ Hv _ Hc) as (k' & ? & ?). exists k'. set_solver. }
  rewrite Nxt, Vis, length_app. split; [|lia]. split_and!.
  - rewrite Vis, Hr. eexists. done.
  - rewrite Vis. apply NoDup_app. split_and!; [done| |done]. intros k Hk [Hn _]%Fresh.
    by apply Hn, Hseen.
  - intros k. rewrite Vis, Seen2, Hseen. set_solver.
  - rewrite Vis. set_solver.
  - intros k. rewrite Vis. intros [Hk|Hk]%elem_of_app; [auto|].
    apply Fresh in Hk as [_ (p & Hp & He)%Hcs]. eapply rtc_r; [|exact He]. apply Hreach. set_solver.
  - intros k. rewrite Vis. intros [Hk|?]%elem_of_app Hnew; [|done].
    destruct (decide (k ∈ frontier)) as [Hf|Hf].
    + destruct (Hfr k Hf) as (cs & Hcv & Hsubc). split; [apply is_ok_true; eauto|].
      intros c Hc%(visit_edge k cs Hcv)%Hsubc.
      assert (c ∈ seen s') as Hc' by (apply Seen1; by right).
      apply Seen2 in Hc' as [?%Hseen|?]; set_solver.
    + destruct (Hdone k Hk Hf) as [? Hc]. split; [done|]. set_solver.
Qed.

Lemma bfs_Ok fuel : ∀ frontier s out,
  sweep_inv frontier s → bfs pick visit fuel frontier s = Ok out → ∃ s', sweep_inv [] s' ∧ visited s' = out.
Proof.
  induction fuel as [|fuel IH]; intros [|k f] s out Hinv; cbn [bfs]; try done.
  - intros [= <-]. eauto.
  - intros [= <-]. eauto.
  - intros (css & Hg%Group_Wait_Ok & Hb)%bind_Ok.
    eapply IH; [|exact Hb]. by apply (sweep_inv_step (k :: f)).
Qed.

(** A walk that returns lists exactly the reachable keys, once each, the root
    first, and has visited all of them. *)
Lemma bfs_from_Ok fuel out :
  bfs_from pick visit fuel root = Ok out →
  (∃ rest, out = root :: rest) ∧ NoDup out ∧ (∀ k, k ∈ out ↔ rtc edge root k) ∧
  (∀ k, k ∈ out → is_ok (visit k) = true).
Proof.
  intros Hb. destruct (bfs_Ok fuel _ _ _ sweep_inv_init Hb) as (s & Hinv & <-).
  destruct Hinv as (Hroot & Hnd & _ & _ & Hreach & Hdone).
  split_and!; [done|done| |intros k Hk; apply Hdone; set_solver].
  intros k. split; [apply Hreach|]. intros Hk. revert k Hk.
  apply (rtc_ind_r (λ k, k ∈ visited s)).
  - destruct Hroot as [? ->]. set_solver.
  - intros k c _ He Hk. destruct (Hdone k Hk ltac:(set_solver)) as [_ Hc]. auto.
Qed.

(** With finitely many reachable keys the walk ends. *)
Context (U : list Key).
Hypothesis finite : ∀ k, rtc edge root k → k ∈ U.
Hypothesis visits_safe : ∀ k, safe (visit k).

Lemma inv_bound frontier s : sweep_inv frontier s → (length (visited s) ≤ length U)%nat.
Proof.
  intros (_ & Hnd & _ & _ & Hreach & _). apply NoDup_incl_length.
  - by apply NoDup_ListNoDup.
  - intros k Hk%list_elem_of_In. apply list_elem_of_In. auto.
Qed.

Lemma bfs_returns fuel : ∀ frontier s,
  sweep_inv frontier s → (length U < fuel + length (visited s))%nat ∨ frontier = [] →
  safe (bfs pick visit fuel frontier s) ∧
  ((∀ k, rtc edge root k → is_ok (visit k) = true) →
   is_ok (bfs pick visit fuel frontier s) = true).
Proof.
  induction fuel as [|fuel IH]; intros frontier s Hinv Hf.
  { destruct Hf as [Hf| ->]; [|by split].
    pose proof (inv_bound frontier s Hinv). lia. }
  destruct frontier as [|k f]; [by split|]. cbn [bfs].
  assert (sweep_inv (k :: f) s ∧ (length U < S fuel + length (visited s))%nat) as [_ Hf'].
  { split; [done|]. by destruct Hf. }
  assert (∀ css, visit <$> (k :: f) = Ok <$> css →
    let s' := absorb css (mkSweep (seen s) (visited s) []) in
    sweep_inv (next s') s' ∧
    ((length U < fuel + length (visited s'))%nat ∨ next s' = [])) as Hnext.
  { intros css Hv s'. destruct (sweep_inv_step _ s css Hinv Hv) as [Hi Hl].
    split; [done|]. fold s' in Hl, Hi. destruct (next s') as [|n ns] eqn:En; [by right|].
    left. simpl in Hl. lia. }
  split.
  - apply safe_bind.
    + apply Group_Wait_safe, Forall_fmap, Forall_true. intros; apply visits_safe.
    + intros css Hg%Group_Wait_Ok. destruct (Hnext css Hg) as [Hi Hm]. by apply IH.
  - intros Hall.
    assert (∃ css, visit <$> (k :: f) = Ok <$> css) as [css Hcss].
    { destruct Hinv as (_ & _ & _ & Hsub & Hreach & _).
      assert (Forall (λ k, is_ok (visit k) = true) (k :: f)) as HF.
      { apply Forall_forall. intros k' Hk'. apply Hall, Hreach, Hsub, Hk'. }
      clear -HF. induction HF as [|k' f' [cs Hcs]%is_ok_true _ [css IHf]]; [by exists []|].
      exists (cs :: css). rewrite !fmap_cons. by rewrite Hcs, IHf. }
    rewrite (proj2 (Group_Wait_Ok pick _ css) Hcss). rsimpl.
    destruct (Hnext css Hcss) as [Hi Hm]. by apply IH.
Qed.

Lemma bfs_from_returns fuel :
  (length U ≤ fuel)%nat →
  safe (bfs_from pick visit fuel root) ∧
  ((∀ k, rtc edge root k → is_ok (visit k) = true) →
   is_ok (bfs_from pick visit fuel root) = true).
Proof. intros. apply bfs_returns; [apply sweep_inv_init|]. left. simpl. lia. Qed.
End bfs_facts.

(** ** Properties *)
Section walk_safe.
Context `{Cbor} `{!CborLaws}.

Lemma foldR_safe {A S} (f : A → S → result S) l :
  (∀ x s, safe (f x s)) → ∀ s, safe (foldR f l s).
Proof.
  intros Hf. induction l as [|x l IH]; intros s; cbn [foldR]; [by split|].
  apply safe_bind; auto.
Qed.

Lemma ChildKeys_safe k data : safe (ChildKeys k data).
Proof.
  unfold ChildKeys. case_if; [by split|].
  case_if.
  { apply safe_wrap. unfold DecodeFileNode. apply safe_bind.
    - apply safe_wrap, unmarshal_keys_safe.
    - intros raw _. apply mapR_safe. intros. apply safe_wrap, Parse_safe. }
  case_if.
  { apply safe_bind; [do 2 apply safe_wrap; apply unmarshal_pairs_safe|]. intros ps _.
    apply foldR_safe. intros p s. apply safe_bind; [apply safe_wrap, Parse_safe|done]. }
  case_if; [|by split].
  apply safe_bind; [do 2 apply safe_wrap; apply unmarshal_entries_safe|]. intros es _.
  apply foldR_safe. intros e s. unfold entry_children. apply safe_bind.
  - case_if; [|by split]. apply safe_bind; [apply safe_wrap, Parse_safe|done].
  - intros o _. case_if; [|by split]. apply safe_bind; [apply safe_wrap, Parse_safe|done].
Qed.

End walk_safe.

Section walk_facts.
Context `{Cbor} (get : Key → result bytes) (has : Key → result bool).

Lemma fetch_children_edge k cs :
  is_leaf k = false → fetch_children get k = Ok cs → ∀ c, c ∈ cs ↔ child_of get k c.
Proof.
  intros Hl (data & Hd & Hc)%bind_Ok c. apply wrap_Ok in Hd. split.
  - intros. split; [done|]. eauto.
  - intros (_ & d & cs' & Hd' & Hc' & ?). congruence.
Qed.

Lemma leaf_edge k c : is_leaf k = true → c ∈ @nil Key ↔ child_of get k c.
Proof. intros Hl. split; [set_solver|]. intros (? & _). congruence. Qed.

Lemma reach_visit_edge k cs : reach_visit get k = Ok cs → ∀ c, c ∈ cs ↔ child_of get k c.
Proof.
  unfold reach_visit. destruct (is_leaf k) eqn:E; [|by apply fetch_children_edge].
  intros [= <-] c. by apply leaf_edge.
Qed.

Lemma check_visit_edge k cs : check_visit get has k = Ok cs → ∀ c, c ∈ cs ↔ child_of get k c.
Proof.
  unfold check_visit. destruct (is_leaf k) eqn:E; [|by apply fetch_children_edge].
  intros ([] & _ & [= <-])%bind_Ok c. by apply leaf_edge.
Qed.

Lemma check_visit_present k : is_ok (check_visit get has k) = true ↔ present get has k.
Proof.
  rewrite is_ok_true. unfold check_visit, present. destruct (is_leaf k).
  - split; [by intros (cs & ([] & ? & ?)%bind_Ok)|]. intros ->. by eexists.
  - unfold fetch_children. split.
    + intros (cs & (data & Hd%wrap_Ok & Hc)%bind_Ok). eauto.
    + intros (data & cs & Hd & Hc). exists cs. by rewrite Hd.
Qed.
End walk_facts.

(** [ReachableKeys] returns the root first and then every object reachable
    from it, each exactly once and nothing else, whichever order the concurrent
    fetches finish in. *)
Theorem ReachableKeys_spec `{Cbor} pick get fuel root out :
  ReachableKeys pick get fuel root = Ok out →
  (∃ rest, out = root :: rest) ∧ NoDup out ∧ (∀ k, k ∈ out ↔ reachable get root k).
Proof.
  intros Hr. destruct (bfs_from_Ok pick (reach_visit get) (child_of get) root
    (reach_visit_edge get) fuel out Hr) as (? & ? & ? & _). done.
Qed.

(** [CheckComplete] decides completeness: when finitely many keys are
    reachable (a content-addressed graph), the walk ends without a panic within
    as many rounds as there are keys, succeeds exactly when every reachable
    object is stored and decodes, and then lists exactly the reachable keys,
    the root first. *)
Theorem CheckComplete_iff `{Cbor} `{!CborLaws} pick get has fuel root U :
  (∀ k, safe (get k)) → (∀ k, safe (has k)) →
  (∀ k, reachable get root k → k ∈ U) → (length U ≤ fuel)%nat →
  safe (CheckComplete pick get has fuel root) ∧
  (is_ok (CheckComplete pick get has fuel root) = true ↔
     ∀ k, reachable get root k → present get has k) ∧
  (∀ out, CheckComplete pick get has fuel root = Ok out →
     (∃ rest, out = root :: rest) ∧ NoDup out ∧ ∀ k, k ∈ out ↔ reachable get root k).
Proof.
  intros Hget Hhas Hfin Hfuel.
  pose proof (bfs_from_Ok pick (check_visit get has) (child_of get) root
                (check_visit_edge get has) fuel) as Hok.
  destruct (bfs_from_returns pick (check_visit get has) (child_of get) root
                (check_visit_edge get has) U Hfin) with (fuel := fuel) as [Hsafe Hall]; [|done|].
  { intros k. unfold check_visit, fetch_children. case_if.
    - apply safe_bind; [done|]. intros [] _; by split.
    - apply safe_bind; [by apply safe_wrap|]. intros. apply ChildKeys_safe. }
  split_and!; [done| |intros out Ho; destruct (Hok out Ho) as (? & ? & ? & ?); done].
  split.
  - intros [out Ho]%is_ok_true k Hk. apply check_visit_present.
    destruct (Hok out Ho) as (_ & _ & Hin & Hv). apply Hv, Hin, Hk.
  - intros Hp. apply Hall. intros k Hk. by apply check_visit_present, Hp.
Qed.

(** ** Applications to concrete inputs: a FileNode over two blobs *)
Section examples.
#[local] Existing Instance blake3_example.
#[local] Existing Instance cbor_example.
#[local] Existing Instance cbor_example_laws.

Definition log_example : list Object :=
  match (a ← EncodeBlob [x41]; b ← EncodeBlob [x42];
         n ← EncodeFileNode [obj_key a; obj_key b; obj_key a]; Ok [n; a; b]) with
  | Ok l => l
  | _ => []
  end.
Definition root_example : Key :=
  match log_example with o :: _ => obj_key o | [] => to_key [] end.
Definition get_example : Key → result bytes := log_get log_example.
Definition has_example (k : Key) : result bool :=
  Ok (bool_decide (k ∈ obj_key <$> log_example)).
Definition pick_example (es : list error) : error := default [] (head es).

Lemma ReachableKeys_spec_witness :
  NoDup (obj_key <$> log_example) ∧
  ∀ k, k ∈ obj_key <$> log_example ↔ reachable get_example root_example k.
Proof.
  destruct (ReachableKeys_spec pick_example get_example 3 root_example (obj_key <$> log_example))
    as (_ & Hnd & Hin); [vm_compute; reflexivity|]. split; [exact Hnd|exact Hin].
Defined.

Lemma reachable_example k :
  reachable get_example root_example k → k ∈ obj_key <$> log_example.
Proof.
  destruct (bfs_from_Ok pick_example (reach_visit get_example) (child_of get_example) root_example
    (reach_visit_edge get_example) 3 (obj_key <$> log_example)) as (_ & _ & Hin & _);
    [vm_compute; reflexivity|]. apply Hin.
Qed.

Lemma CheckComplete_iff_witness :
  (∀ k, reachable get_example root_example k → present get_example has_example k) ∧
  CheckComplete pick_example get_example has_example 3 root_example = Ok (obj_key <$> log_example).
Proof.
  split; [|vm_compute; reflexivity].
  apply (CheckComplete_iff pick_example get_example has_example 3 root_example
           (obj_key <$> log_example)).
  - intros k. unfold get_example, log_get. by destruct (list_find _ _) as [[]|].
  - done.
  - apply reachable_example.
  - vm_compute. lia.
  - vm_compute. reflexivity.
Defined.
End examples.
