(* ===== verification/PackRecord.v ===== *)
(** * Package [amberpack]: the record codec ([record.go])

    A record is a 46-byte header (tag, key, flags, decoded length, stored
    length, checksum) followed by the stored payload.  The zstd library is the
    class [Zstd]. *)

From Stdlib Require Import Init.Byte.
From S2P Require Import Prelude Machine Key.
From Stdlib Require Import ZifyBool ZifyNat.
Local Open Scope Z_scope.

Definition RecHeaderSize : Z := 46.
Definition tagChunk : byte := x01.
Definition flagZstd : Z := 1.
Definition MaxPayload : Z := 256 * 2 ^ 20.
Definition zero4 : bytes := [x00; x00; x00; x00].
Definition ErrCorrupt : string := "amberpack: corrupt pack data".

(** The zstd library: [EncodeAll], and [DecodeAll] into a buffer whose capacity
    caps the output.  A frame of at most [MaxPayload] bytes decodes into a
    buffer of its own size, and decoding returns on every input. *)
Class Zstd := {
  EncodeAll : bytes → bytes;
  DecodeAll : bytes → Z → result bytes;
  DecodeAll_EncodeAll d : zlen d <= MaxPayload → DecodeAll (EncodeAll d) (zlen d) = Ok d;
  DecodeAll_safe b cap : safe (DecodeAll b cap);
}.

Record RecordHdr := mkRecord { rKey : Key; Flags : byte; Ulen : Z; Slen : Z }.

Definition corrupt (msg : string) : error := Errorf msg (errors_New ErrCorrupt).

Definition payloadFits (n : Z) : bool := n <=? MaxPayload.

(** The header bytes with the given checksum field. *)
Definition header (k : Key) (flags : byte) (ulen slen crc : Z) : bytes :=
  [tagChunk] ++ kb k ++ [flags] ++ be_enc 4 (u32 ulen) ++ be_enc 4 (u32 slen) ++ be_enc 4 crc.

Section record.
Context `{Zstd}.

Definition EncodeRecord (k : Key) (data : bytes) : result bytes :=
  if negb (payloadFits (zlen data)) then Err (errors_New "amberpack: object %s too large: %d bytes")
  else
    let comp := EncodeAll data in
    let '(payload, flags) := if zlen comp <? zlen data then (comp, x01) else (data, x00) in
    let rec := header k flags (zlen data) (zlen payload) 0 ++ payload in
    Ok (header k flags (zlen data) (zlen payload) (crc32_Checksum rec) ++ payload).

Definition ParseRecord (b : bytes) : result RecordHdr :=
  if zlen b <? RecHeaderSize then Err (corrupt "truncated record header") else
  tag ← index b 0;
  if negb (bool_decide (tag = tagChunk)) then Err (corrupt "unexpected record tag %#x") else
  flags ← index b 33;
  if negb (Z.ldiff (b2z flags) flagZstd =? 0) then Err (corrupt "unknown record flags %#x") else
  ub ← slice b 34 38;
  let ulen := be_dec ub in
  sb ← slice b 38 42;
  let slen := be_dec sb in
  if zlen b <? RecHeaderSize + slen then Err (corrupt "truncated record payload") else
  if (Z.land (b2z flags) flagZstd =? 0) && negb (ulen =? slen)
  then Err (corrupt "raw record with ulen %d != slen %d") else
  if ulen >? MaxPayload then Err (corrupt "record ulen %d exceeds limit %d") else
  if negb (Z.land (b2z flags) flagZstd =? 0) && (slen >=? ulen)
  then Err (corrupt "compressed record with slen %d >= ulen %d") else
  hd ← slice b 0 42;
  let c := crc32_Update 0 hd in
  let c := crc32_Update c zero4 in
  payload ← slice b RecHeaderSize (RecHeaderSize + slen);
  let c := crc32_Update c payload in
  cb ← slice b 42 46;
  if negb (c =? be_dec cb) then Err (corrupt "record CRC mismatch") else
  kbs ← slice b 1 33;
  k ← relabel (corrupt "record key: %v") (Parse kbs);
  Ok (mkRecord k flags ulen slen).

Definition DecodePayload (flags : byte) (ulen : Z) (stored : bytes) : result bytes :=
  if Z.land (b2z flags) flagZstd =? 0 then Ok stored
  else
    out ← relabel (corrupt "zstd: %v") (DecodeAll stored ulen);
    if negb (u32 (zlen out) =? ulen)
    then Err (corrupt "decompressed to %d bytes, header says %d")
    else Ok out.
End record.

(** ** What a parsed record is *)

(** The header conditions, with the fields at their offsets. *)
Definition record_at (b : bytes) (r : RecordHdr) : Prop :=
  RecHeaderSize + Slen r <= zlen b ∧
  b !! 0%nat = Some tagChunk ∧ b !! 33%nat = Some (Flags r) ∧
  Z.ldiff (b2z (Flags r)) flagZstd = 0 ∧
  Ulen r = be_dec (take 4 (drop 34 b)) ∧ Slen r = be_dec (take 4 (drop 38 b)) ∧
  Ulen r <= MaxPayload ∧
  (if Z.land (b2z (Flags r)) flagZstd =? 0 then Ulen r = Slen r else Slen r < Ulen r) ∧
  crc32_Checksum (take 42 b ++ zero4 ++ take (Z.to_nat (Slen r)) (drop 46 b))
    = be_dec (take 4 (drop 42 b)) ∧
  take 32 (drop 1 b) = kb (rKey r) ∧ Validate (rKey r) = Ok tt.

Lemma be4_range b n : 0 <= be_dec (take 4 (drop n b)) < 2 ^ 32.
Proof.
  pose proof (be_dec_bound (take 4 (drop n b))) as [? Hlt]. split; [done|].
  eapply Z.lt_le_trans; [exact Hlt|]. change (2 ^ 32) with (256 ^ 4).
  apply Z.pow_le_mono_r; [lia|]. rewrite length_take. lia.
Qed.

Lemma slice_drop {A} (b : list A) (lo n : nat) lo' hi' :
  lo' = Z.of_nat lo → hi' = lo' + Z.of_nat n → (lo + n ≤ length b)%nat →
  slice b lo' hi' = Ok (take n (drop lo b)).
Proof.
  intros -> -> ?. rewrite slice_ok by lia. rewrite Nat2Z.id. do 3 f_equal. lia.
Qed.

Lemma index_nat {A} (b : list A) (i : nat) i' x :
  i' = Z.of_nat i → index b i' = Ok x ↔ b !! i = Some x.
Proof.
  intros ->. split.
  - intros [_ Hx]%index_inv. by rewrite Nat2Z.id in Hx.
  - intros Hx. apply index_ok; [by rewrite Nat2Z.id|lia].
Qed.

(** The steps of [ParseRecord] on a slice that holds a whole header. *)
Lemma ParseRecord_unfold b tag flags :
  RecHeaderSize <= zlen b → b !! 0%nat = Some tag → b !! 33%nat = Some flags →
  let ulen := be_dec (take 4 (drop 34 b)) in
  let slen := be_dec (take 4 (drop 38 b)) in
  ParseRecord b =
    if negb (bool_decide (tag = tagChunk)) then Err (corrupt "unexpected record tag %#x") else
    if negb (Z.ldiff (b2z flags) flagZstd =? 0) then Err (corrupt "unknown record flags %#x") else
    if zlen b <? RecHeaderSize + slen then Err (corrupt "truncated record payload") else
    if (Z.land (b2z flags) flagZstd =? 0) && negb (ulen =? slen)
    then Err (corrupt "raw record with ulen %d != slen %d") else
    if ulen >? MaxPayload then Err (corrupt "record ulen %d exceeds limit %d") else
    if negb (Z.land (b2z flags) flagZstd =? 0) && (slen >=? ulen)
    then Err (corrupt "compressed record with slen %d >= ulen %d") else
    if negb (crc32_Checksum (take 42 b ++ zero4 ++ take (Z.to_nat slen) (drop 46 b))
             =? be_dec (take 4 (drop 42 b))) then Err (corrupt "record CRC mismatch") else
    k ← relabel (corrupt "record key: %v") (Parse (take 32 (drop 1 b)));
    Ok (mkRecord k flags ulen slen).
Proof.
  intros Hb Htag Hflags ulen slen. unfold ParseRecord, RecHeaderSize in *.
  replace (zlen b <? 46) with false by lia.
  rewrite (proj2 (index_nat b 0 0 tag eq_refl) Htag). rsimpl.
  case_if; [done|]. rewrite (proj2 (index_nat b 33 33 flags eq_refl) Hflags). rsimpl.
  case_if; [done|]. rewrite (slice_drop b 34 4 34 38), (slice_drop b 38 4 38 42) by lia. rsimpl.
  fold ulen slen. pose proof (be4_range b 38) as Hs. fold slen in Hs.
  case_if; [done|]. case_if; [done|]. case_if; [done|]. case_if; [done|].
  rewrite (slice_drop b 0 42 0 42), (slice_drop b 46 (Z.to_nat slen) 46 (46 + slen)),
    (slice_drop b 42 4 42 46) by lia. rsimpl.
  change (drop 0 b) with b. rewrite !crc32_Update_app, <- ?app_assoc.
  fold (crc32_Checksum (take 42 b ++ zero4 ++ take (Z.to_nat slen) (drop 46 b))).
  case_if; [done|]. rewrite (slice_drop b 1 32 1 33) by lia. done.
Qed.

Lemma header_lookups (b : bytes) : RecHeaderSize <= zlen b →
  ∃ tag flags, b !! 0%nat = Some tag ∧ b !! 33%nat = Some flags.
Proof.
  unfold RecHeaderSize. intros Hb.
  destruct (lookup_lt_is_Some_2 b 0) as [t ?]; [lia|].
  destruct (lookup_lt_is_Some_2 b 33) as [f ?]; [lia|]. eauto.
Qed.

Lemma ParseRecord_Ok b r : ParseRecord b = Ok r ↔ record_at b r.
Proof.
  destruct (decide (RecHeaderSize <= zlen b)) as [Hb|Hb].
  2:{ split.
      - unfold ParseRecord. by replace (zlen b <? RecHeaderSize) with true by lia.
      - intros (Hl & _ & _ & _ & _ & Hs & _). pose proof (be4_range b 38). lia. }
  destruct (header_lookups b Hb) as (tag & flags & Ht & Hf).
  rewrite (ParseRecord_unfold b tag flags) by done.
  pose proof (be4_range b 38) as Hs38. split.
  - repeat (case_if; [done|]). intros (k & Hk%relabel_Ok & [= <-])%bind_Ok.
    apply Parse_Ok in Hk as [Hk Hv]. destruct_bool. unfold record_at.
    cbn [Slen Ulen Flags rKey].
    split_and!; try done; [lia| |by apply Z.eqb_eq|lia| |by apply Z.eqb_eq].
    + rewrite Ht. f_equal. by eapply bool_decide_eq_true_1.
    + destruct (Z.land (b2z flags) flagZstd =? 0); simpl in *; lia.
  - intros (Hl & Ht' & Hf' & Hd & Hu & Hs & Hm & Hr & Hc & Hk & Hv). simplify_eq.
    rewrite <- Hu, <- Hs, Hc, Hd. rewrite (bool_decide_true (tagChunk = _)), Z.eqb_refl by done. simpl negb.
    cbv iota. replace (_ <? _) with false by lia. replace (Ulen r >? MaxPayload) with false by lia.
    rewrite (proj2 (Parse_Ok _ (rKey r))) by done.
    destruct (Z.land _ _ =? 0); simpl.
    + replace (Ulen r =? Slen r) with true by lia. simpl. rewrite Z.eqb_refl. by destruct r.
    + replace (Slen r >=? Ulen r) with false by lia. rewrite Z.eqb_refl. by destruct r.
Qed.

Lemma ParseRecord_cases b :
  (∃ r, ParseRecord b = Ok r) ∨ (∃ e, ParseRecord b = Err e ∧ errors_Is e ErrCorrupt).
Proof.
  assert (∀ msg, ∃ e, Err (corrupt msg) = Err e :> result RecordHdr ∧ errors_Is e ErrCorrupt) as He.
  { intros msg. eexists. split; [done|]. unfold errors_Is. set_solver. }
  destruct (decide (RecHeaderSize <= zlen b)) as [Hb|Hb].
  - destruct (header_lookups b Hb) as (tag & flags & Ht & Hf).
    rewrite (ParseRecord_unfold b tag flags) by done.
    repeat (case_if; [right; apply He|]).
    destruct (Parse_safe (take 32 (drop 1 b))) as [??].
    destruct (Parse _) as [k|e| |]; rsimpl; try done; [by left; eexists|right; apply He].
  - right. unfold ParseRecord. replace (zlen b <? RecHeaderSize) with true by lia. apply He.
Qed.

Lemma ParseRecord_safe b : safe (ParseRecord b).
Proof. destruct (ParseRecord_cases b) as [[r ->]|(e & -> & _)]; by split. Qed.

Lemma DecodePayload_safe `{Zstd} flags ulen stored : safe (DecodePayload flags ulen stored).
Proof.
  unfold DecodePayload. case_if; [by split|].
  apply safe_bind; [apply safe_relabel, DecodeAll_safe|]. intros out _. case_if; by split.
Qed.

(** A parsed record is determined by its own bytes. *)
Lemma field_take (b : bytes) (lo k n : nat) :
  (lo + k ≤ n)%nat → take k (drop lo b) = take k (drop lo (take n b)).
Proof. intros. rewrite skipn_firstn_comm, take_take. f_equal. lia. Qed.

Definition rec_size (r : RecordHdr) : nat := Z.to_nat (RecHeaderSize + Slen r).

Lemma record_at_prefix b b' r :
  record_at b r → take (rec_size r) b = take (rec_size r) b' → record_at b' r.
Proof.
  unfold rec_size, RecHeaderSize.
  intros (Hl & Ht & Hf & Hd & Hu & Hs & Hm & Hr & Hc & Hk & Hv) Heq.
  unfold RecHeaderSize in Hl. pose proof (be4_range b 38) as Hrange.
  set (n := Z.to_nat (46 + Slen r)) in *.
  assert (46 ≤ n)%nat as Hn by lia.
  assert (∀ lo k, (lo + k ≤ n)%nat → take k (drop lo b') = take k (drop lo b)) as Hfield.
  { intros lo k Hk'. rewrite (field_take b lo k n), (field_take b' lo k n) by done. by rewrite Heq. }
  assert (∀ i, (i < n)%nat → b' !! i = b !! i) as Hget.
  { intros i Hi. rewrite <- (lookup_take_lt b n i), <- (lookup_take_lt b' n i) by done. by rewrite Heq. }
  assert (n ≤ length b')%nat as Hlen'.
  { apply (f_equal length) in Heq. rewrite !length_take in Heq. lia. }
  pose proof (Hfield 0%nat 42%nat) as H42. change (drop 0 b') with b' in H42.
  change (drop 0 b) with b in H42.
  unfold record_at, RecHeaderSize. rewrite !Hget, !Hfield, H42 by lia. split_and!; try done. lia.
Qed.

(** ** Encoding *)
Section encode.
Context `{Zstd}.

Lemma length_header k f u s c : length (header k f u s c) = 46%nat.
Proof. unfold header. rewrite !length_app, !length_be_enc, length_kb. done. Qed.

(** The fields of a header, whatever follows it. *)
Lemma header_fields k f u s c t :
  let b := header k f u s c ++ t in
  b !! 0%nat = Some tagChunk ∧ b !! 33%nat = Some f ∧
  take 4 (drop 34 b) = be_enc 4 (u32 u) ∧ take 4 (drop 38 b) = be_enc 4 (u32 s) ∧
  take 4 (drop 42 b) = be_enc 4 c ∧ take 32 (drop 1 b) = kb k ∧ drop 46 b = t ∧
  take 42 b = [tagChunk] ++ kb k ++ [f] ++ be_enc 4 (u32 u) ++ be_enc 4 (u32 s).
Proof.
  intros b. subst b. pose proof (length_kb k) as Hk. unfold header.
  assert (∀ (p m q : bytes), take (length m) (drop (length p) (p ++ m ++ q)) = m) as Hmid.
  { intros p m q. by rewrite drop_app_length, take_app_length. }
  assert (∀ (p q : bytes) x, (p ++ x :: q) !! length p = Some x) as Hat.
  { intros. by apply list_lookup_middle. }
  split_and!.
  - done.
  - rewrite <- !app_assoc. pose proof (Hat ([tagChunk] ++ kb k)) as Hx.
    rewrite length_app, Hk in Hx.
    specialize (Hx (be_enc 4 (u32 u) ++ be_enc 4 (u32 s) ++ be_enc 4 c ++ t) f).
    by rewrite <- app_assoc in Hx.
  - specialize (Hmid ([tagChunk] ++ kb k ++ [f]) (be_enc 4 (u32 u)) (be_enc 4 (u32 s) ++ be_enc 4 c ++ t)).
    rewrite length_be_enc, !length_app, Hk in Hmid. rewrite <- !app_assoc in Hmid |- *. exact Hmid.
  - specialize (Hmid ([tagChunk] ++ kb k ++ [f] ++ be_enc 4 (u32 u)) (be_enc 4 (u32 s)) (be_enc 4 c ++ t)).
    rewrite !length_app, !length_be_enc, Hk in Hmid. rewrite <- !app_assoc in Hmid |- *. exact Hmid.
  - specialize (Hmid ([tagChunk] ++ kb k ++ [f] ++ be_enc 4 (u32 u) ++ be_enc 4 (u32 s)) (be_enc 4 c) t).
    rewrite !length_app, !length_be_enc, Hk in Hmid. rewrite <- !app_assoc in Hmid |- *. exact Hmid.
  - specialize (Hmid [tagChunk] (kb k) ([f] ++ be_enc 4 (u32 u) ++ be_enc 4 (u32 s) ++ be_enc 4 c ++ t)).
    rewrite Hk in Hmid. rewrite <- !app_assoc. exact Hmid.
  - apply drop_app_all. symmetry. apply (length_header k f u s c).
  - replace (([tagChunk] ++ kb k ++ [f] ++ be_enc 4 (u32 u) ++ be_enc 4 (u32 s) ++ be_enc 4 c) ++ t)
      with (([tagChunk] ++ kb k ++ [f] ++ be_enc 4 (u32 u) ++ be_enc 4 (u32 s)) ++ (be_enc 4 c ++ t))
      by (by rewrite <- !app_assoc).
    apply take_app_all. rewrite !length_app, !length_be_enc, Hk. done.
Qed.

Lemma be4_u32 z : 0 <= z < 2 ^ 32 → be_dec (be_enc 4 (u32 z)) = z.
Proof. intros Hz. rewrite u32_small by done. by apply (be_dec_enc_small 4). Qed.

(** An encoded record parses as written, with anything after it, and its
    stored payload decodes to the data. *)
Lemma EncodeRecord_spec k data rec :
  Validate k = Ok tt → EncodeRecord k data = Ok rec →
  ∃ r payload, rKey r = k ∧ length rec = rec_size r ∧ Ulen r = zlen data ∧
    0 <= Slen r <= zlen data ∧ zlen data <= MaxPayload ∧
    rec = take 46 rec ++ payload ∧ zlen payload = Slen r ∧
    record_at rec r ∧ DecodePayload (Flags r) (Ulen r) payload = Ok data.
Proof.
  intros Hv. unfold EncodeRecord, payloadFits. case_if; [done|]. destruct_bool.
  assert (zlen data <= MaxPayload) as Hmax by lia. assert (MaxPayload < 2 ^ 32) as H32 by done.
  destruct (if zlen (EncodeAll data) <? zlen data then _ else _) as [payload flags] eqn:Ep.
  intros <-%Ok_inj.
  assert (zlen payload <= zlen data) as Hple.
  { destruct (zlen (EncodeAll data) <? zlen data) eqn:E; simplify_eq; lia. }
  assert (Z.ldiff (b2z flags) flagZstd = 0 ∧
          (if Z.land (b2z flags) flagZstd =? 0 then zlen data = zlen payload
           else zlen payload < zlen data) ∧
          DecodePayload flags (zlen data) payload = Ok data) as (Hld & Hcmp & Hdec).
  { destruct (zlen (EncodeAll data) <? zlen data) eqn:E; simplify_eq; simpl;
      (split_and!; [done|lia|]); [|done].
    unfold DecodePayload. simpl. rewrite DecodeAll_EncodeAll by done. rsimpl.
    rewrite u32_small, Z.eqb_refl by (unfold is_u32; lia). done. }
  set (c := crc32_Checksum _).
  assert (is_u32 c) as Hc by (by apply crc32_Update_bound).
  exists (mkRecord k flags (zlen data) (zlen payload)), payload.
  pose proof (length_header k flags (zlen data) (zlen payload) c) as Hh.
  destruct (header_fields k flags (zlen data) (zlen payload) c payload)
    as (F0 & F33 & F34 & F38 & F42 & F1 & F46 & Fh).
  unfold rec_size, record_at, RecHeaderSize. cbn [rKey Flags Ulen Slen].
  rewrite F0, F33, F34, F38, F42, F1, F46, Fh, !be4_u32 by lia.
  rewrite length_app, Hh. split_and!; try done; try lia.
  - by rewrite take_app_all.
  - rewrite Nat2Z.id, firstn_all. rewrite (be_dec_enc_small 4) by exact Hc.
    subst c. unfold header. by rewrite <- !app_assoc.
Qed.
End encode.

(** ** Properties *)

(** A record round-trips: encoding an object under a valid key and parsing
    the bytes, whatever follows them in the file or stream, returns the same
    key, the exact extent of the record and a payload that decodes to the
    object's bytes, compressed or not. *)
Theorem ParseRecord_EncodeRecord `{Zstd} k data rec rest :
  Validate k = Ok tt → EncodeRecord k data = Ok rec →
  ∃ r, ParseRecord (rec ++ rest) = Ok r ∧ rKey r = k ∧ length rec = rec_size r ∧
       DecodePayload (Flags r) (Ulen r) (drop 46 rec) = Ok data.
Proof.
  intros Hv He. destruct (EncodeRecord_spec k data rec Hv He)
    as (r & payload & Hk & Hlen & _ & _ & _ & Hrec & _ & Hat & Hdec).
  exists r. split_and!; [|done|done|].
  - apply ParseRecord_Ok. eapply record_at_prefix; [exact Hat|].
    by rewrite <- Hlen, firstn_all, take_app_length.
  - rewrite Hrec, drop_app_all; [done|]. rewrite length_take, Hlen.
    unfold rec_size, RecHeaderSize. destruct Hat as (_ & _ & _ & _ & _ & Hs & _).
    pose proof (be4_range rec 38). lia.
Qed.

(** Every truncation of a record is rejected as corrupt: no proper prefix of
    an encoded record parses, so a torn write is never taken for a record. *)
Theorem ParseRecord_truncated `{Zstd} k data rec n :
  Validate k = Ok tt → EncodeRecord k data = Ok rec → (n < length rec)%nat →
  ∃ e, ParseRecord (take n rec) = Err e ∧ errors_Is e ErrCorrupt.
Proof.
  intros Hv He Hn. destruct (ParseRecord_cases (take n rec)) as [[r' Hr']|?]; [exfalso|done].
  destruct (EncodeRecord_spec k data rec Hv He) as (r & _ & _ & Hlen & _ & _ & _ & _ & _ & Hat & _).
  apply ParseRecord_Ok in Hr' as (Hl & _ & _ & _ & _ & Hs' & _).
  destruct Hat as (_ & _ & _ & _ & _ & Hs & _).
  pose proof (be4_range (take n rec) 38). rewrite length_take in Hl. unfold rec_size, RecHeaderSize in *.
  assert (46 ≤ n)%nat by lia. rewrite <- (field_take rec 38 4 n) in Hs' by lia.
  rewrite <- Hs in Hs'. lia.
Qed.

Lemma insert_split {A} (l : list A) i x :
  l !! i = Some x → ∃ l1 l2, l = l1 ++ x :: l2 ∧ length l1 = i ∧ ∀ y, <[i := y]> l = l1 ++ y :: l2.
Proof.
  intros Hi. exists (take i l), (drop (S i) l). pose proof (lookup_lt_Some _ _ _ Hi).
  split_and!; [by rewrite take_drop_middle|rewrite length_take; lia|].
  intros y. by apply insert_take_drop.
Qed.

(** The bytes the checksum covers. *)
Definition crc_input (b : bytes) (slen : nat) : bytes := take 42 b ++ zero4 ++ take slen (drop 46 b).

Lemma crc_input_insert b i x y slen :
  b !! i = Some x → y ≠ x → (i < 42 ∨ 46 ≤ i < 46 + slen)%nat →
  crc32_Checksum (crc_input (<[i := y]> b) slen) ≠ crc32_Checksum (crc_input b slen).
Proof.
  intros Hi Hne Hr Heq. unfold crc_input in Heq. destruct Hr as [Hr|Hr].
  - rewrite take_insert_lt, drop_insert_lt in Heq by lia.
    assert (take 42 b !! i = Some x) as Hi' by (by rewrite lookup_take_lt).
    destruct (insert_split _ _ _ Hi') as (l1 & l2 & Hb & _ & Hy).
    rewrite Hy, Hb, <- !app_assoc in Heq. simpl in Heq. by apply crc32_detects in Heq.
  - rewrite take_insert_ge, drop_insert_ge, take_insert_lt in Heq by lia.
    assert (take slen (drop 46 b) !! (i - 46)%nat = Some x) as Hi'.
    { rewrite lookup_take_lt, lookup_drop by lia. rewrite <- Hi. f_equal. lia. }
    destruct (insert_split _ _ _ Hi') as (l1 & l2 & Hb & _ & Hy).
    rewrite Hy, Hb, !app_assoc in Heq. by apply crc32_detects in Heq.
Qed.

(** C36. Corruption is detected: in a record that parses, changing any single
    byte (the tag, the key, the flags, the decoded length, the checksum or the
    payload; every byte but the four of the stored length) makes [ParseRecord]
    return an error that wraps [ErrCorrupt]. *)
Theorem ParseRecord_detects_corruption b r i x y :
  ParseRecord b = Ok r → (i < rec_size r)%nat → ¬ (38 ≤ i < 42)%nat →
  b !! i = Some x → y ≠ x →
  ∃ e, ParseRecord (<[i := y]> b) = Err e ∧ errors_Is e ErrCorrupt.
Proof.
  intros Hr Hi Hslen Hx Hne.
  destruct (ParseRecord_cases (<[i := y]> b)) as [[r' Hr']|?]; [exfalso|done].
  apply ParseRecord_Ok in Hr as (_ & _ & _ & _ & _ & Hs & _ & _ & Hc & _).
  apply ParseRecord_Ok in Hr' as (_ & _ & _ & _ & _ & Hs' & _ & _ & Hc' & _).
  unfold rec_size, RecHeaderSize in Hi. pose proof (be4_range b 38) as Hrange.
  assert (Slen r' = Slen r) as HS.
  { rewrite Hs, Hs'. destruct (decide (i < 38)%nat); [by rewrite drop_insert_lt by lia|].
    by rewrite drop_insert_ge, take_insert_ge by lia. }
  rewrite HS in Hc'. fold (crc_input b (Z.to_nat (Slen r))) in Hc.
  fold (crc_input (<[i:=y]> b) (Z.to_nat (Slen r))) in Hc'.
  destruct (decide (42 ≤ i < 46)%nat) as [Hcrc|Hcrc].
  - assert (crc_input (<[i:=y]> b) (Z.to_nat (Slen r)) = crc_input b (Z.to_nat (Slen r))) as Heq.
    { unfold crc_input. by rewrite take_insert_ge, drop_insert_lt by lia. }
    rewrite Heq, Hc in Hc'. apply be_dec_inj in Hc'.
    2:{ rewrite !length_take, !length_drop, length_insert. done. }
    rewrite drop_insert_ge, take_insert_lt in Hc' by lia.
    apply (f_equal (λ l, l !! (i - 42)%nat)) in Hc'.
    assert (take 4 (drop 42 b) !! (i - 42)%nat = Some x) as Hl.
    { rewrite lookup_take_lt, lookup_drop by lia. rewrite <- Hx. f_equal. lia. }
    rewrite Hl, list_lookup_insert_eq in Hc'; [congruence|]. by eapply lookup_lt_Some.
  - apply (crc_input_insert b i x y (Z.to_nat (Slen r))); [done|done|lia|].
    rewrite Hc, Hc'. destruct (decide (i < 42)%nat).
    + by rewrite drop_insert_lt by lia.
    + by rewrite drop_insert_ge, take_insert_ge by lia.
Qed.

(** ** Applications to concrete inputs *)

(** A codec that stores a run of one byte as the byte and its length: it is not
    zstd, and shows that the interface can be met with both branches taken. *)
Section zstd_example.
Definition run_encode (d : bytes) : bytes :=
  match d with
  | c :: _ => if bool_decide (d = replicate (length d) c)
              then x01 :: c :: be_enc 8 (zlen d) else x00 :: d
  | [] => [x00]
  end.

Definition run_decode (b : bytes) (cap : Z) : result bytes :=
  let out := match b with
             | x00 :: d => Some d
             | x01 :: c :: n => Some (replicate (Z.to_nat (Z.min (be_dec n) (MaxPayload + 1))) c)
             | _ => None
             end in
  match out with
  | Some d => if zlen d <=? cap then Ok d else Err (errors_New "output exceeds the buffer")
  | None => Err (errors_New "bad frame")
  end.

Lemma run_decode_encode d : zlen d <= MaxPayload → run_decode (run_encode d) (zlen d) = Ok d.
Proof.
  intros Hd. unfold run_encode. destruct d as [|c d']; [done|].
  remember (c :: d') as d eqn:Ed. case_bool_decide as Hr; unfold run_decode.
  - rewrite (be_dec_enc_small 8) by (unfold MaxPayload in Hd; lia).
    replace (Z.to_nat (Z.min (zlen d) (MaxPayload + 1))) with (length d) by lia.
    rewrite <- Hr. by rewrite Z.leb_refl.
  - by rewrite Z.leb_refl.
Qed.

Lemma run_decode_safe b cap : safe (run_decode b cap).
Proof. unfold run_decode. by repeat case_match. Qed.

Definition zstd_example : Zstd :=
  {| EncodeAll := run_encode; DecodeAll := run_decode;
     DecodeAll_EncodeAll := run_decode_encode; DecodeAll_safe := run_decode_safe |}.
#[local] Existing Instance zstd_example.

Definition key_example : Key := to_key ([x00; x05] ++ replicate 30 x2a).
Definition rec_example : bytes :=
  match EncodeRecord key_example (replicate 20 x41) with Ok r => r | _ => [] end.

Lemma ParseRecord_EncodeRecord_witness :
  ∃ r, ParseRecord (rec_example ++ [x07]) = Ok r ∧ rKey r = key_example ∧
       length rec_example = rec_size r ∧
       DecodePayload (Flags r) (Ulen r) (drop 46 rec_example) = Ok (replicate 20 x41).
Proof.
  apply (ParseRecord_EncodeRecord key_example (replicate 20 x41) rec_example [x07]);
    vm_compute; reflexivity.
Defined.

Lemma ParseRecord_truncated_witness :
  ∃ e, ParseRecord (take 50 rec_example) = Err e ∧ errors_Is e ErrCorrupt.
Proof.
  apply (ParseRecord_truncated key_example (replicate 20 x41) rec_example 50);
    [vm_compute; reflexivity|vm_compute; reflexivity|vm_compute; lia].
Defined.

Lemma ParseRecord_detects_corruption_witness :
  ∃ e, ParseRecord (<[7%nat := x00]> rec_example) = Err e ∧ errors_Is e ErrCorrupt.
Proof.
  apply (ParseRecord_detects_corruption rec_example (mkRecord key_example x01 20 10) 7 x2a x00);
    [vm_compute; reflexivity|vm_compute; lia|lia|vm_compute; reflexivity|discriminate].
Defined.
End zstd_example.
