(* ===== verification/PackStream.v ===== *)
(** * Package [amberpack]: wire packs ([pack.go])

    A wire pack is a magic, the records of its objects and an end marker.  The
    writer's sink is a state [W] with a fallible [write]; the reader's source is
    the bytes that remain before the end of the stream. *)

From Stdlib Require Import Init.Byte.
From S2P Require Import Prelude Machine Key FsEncode PackRecord.
From Stdlib Require Import ZifyBool ZifyNat.
Local Open Scope Z_scope.

Definition packMagic : bytes := [x41; x4d; x42; x45; x52; x50; x4b; x03].
Definition tagEnd : byte := x00.
Definition ErrMalformed : string := "amberpack: malformed pack stream".
Definition malformed (msg : string) : error := Errorf msg (errors_New ErrMalformed).

(** ** Writer *)
Section writer.
Context `{Zstd} {W : Type} (write : bytes → W → result W).

Record Writer := mkWriter { bw : W; wroteHeader : bool }.

Definition NewWriter (w : W) : Writer := mkWriter w false.

Definition ensureHeader (w : Writer) : result Writer :=
  if wroteHeader w then Ok w
  else bw' ← write packMagic (bw w); Ok (mkWriter bw' true).

Definition AddRecord (w : Writer) (rec : bytes) : result Writer :=
  w ← ensureHeader w;
  bw' ← write rec (bw w);
  Ok (mkWriter bw' (wroteHeader w)).

Definition Add (w : Writer) (o : Object) : result Writer :=
  w ← ensureHeader w;
  rec ← EncodeRecord (obj_key o) (obj_bytes o);
  bw' ← write rec (bw w);
  Ok (mkWriter bw' (wroteHeader w)).

Definition Close (w : Writer) : result W :=
  w ← ensureHeader w;
  write [tagEnd] (bw w).

(** One pack: an [Add] per object, then [Close]. *)
Definition write_pack (objs : list Object) (w : W) : result W :=
  w ← foldR (λ o w, Add w o) objs (NewWriter w);
  Close w.
End writer.
Arguments mkWriter {W} _ _.

(** ** Reader *)
Section reader.
Context `{Zstd}.

(** One round of the loop of [All]: the next object and the rest of the
    stream, or the end marker ([None]). *)
Definition read_one (br : bytes) : result (option (Object * bytes)) :=
  match br with
  | [] => Err (malformed "truncated before end marker: %v")
  | tag :: br =>
      if bool_decide (tag = tagEnd) then Ok None
      else if bool_decide (tag = tagChunk) then
        if zlen br <? RecHeaderSize - 1 then Err (malformed "truncated record header: %v") else
        let hdr := tag :: take 45 br in
        let br := drop 45 br in
        sb ← slice hdr 38 42;
        let slen := be_dec sb in
        if slen >? MaxPayload then Err (malformed "record payload %d exceeds limit %d") else
        if zlen br <? slen then Err (malformed "truncated record payload: %v") else
        let stored := take (Z.to_nat slen) br in
        let full := hdr ++ stored in
        let br := drop (Z.to_nat slen) br in
        rec ← relabel (malformed "%v") (ParseRecord full);
        stored ← slice_from full RecHeaderSize;
        payload ← relabel (malformed "%v") (DecodePayload (Flags rec) (Ulen rec) stored);
        Ok (Some (mkObject (rKey rec) payload, br))
      else Err (malformed "bad record tag %#x")
  end.

(** The objects yielded and how the iteration ends. *)
Fixpoint read_all (fuel : nat) (br : bytes) : list Object * result unit :=
  match fuel with
  | O => ([], Diverge)
  | S fuel =>
      match read_one br with
      | Ok None => ([], Ok tt)
      | Ok (Some (o, br)) => let '(os, r) := read_all fuel br in (o :: os, r)
      | Err e => ([], Err e)
      | Panic => ([], Panic)
      | Diverge => ([], Diverge)
      end
  end.

Definition All (stream : bytes) : list Object * result unit :=
  if zlen stream <? zlen packMagic then ([], Err (malformed "reading magic: %v"))
  else if negb (bool_decide (take 8 stream = packMagic)) then ([], Err (malformed "bad magic"))
  else read_all (S (length stream)) (drop 8 stream).
End reader.

(** ** Facts *)

(** A sink that keeps what it is given. *)
Definition write_all (data w : bytes) : result bytes := Ok (w ++ data).

Section stream_facts.
Context `{Zstd}.

(** The records of a list of objects. *)
Definition encode_all (objs : list Object) : result (list bytes) :=
  mapR (λ o, EncodeRecord (obj_key o) (obj_bytes o)) objs.

(** What the sink holds once the header is there. *)
Definition with_header (w : @Writer bytes) : bytes :=
  if wroteHeader w then bw w else bw w ++ packMagic.

Lemma Add_spec w o :
  Add write_all w o =
    rec ← EncodeRecord (obj_key o) (obj_bytes o); Ok (mkWriter (with_header w ++ rec) true).
Proof. destruct w as [acc []]; unfold Add; simpl; by destruct (EncodeRecord _ _). Qed.

Lemma Adds_spec objs : ∀ w,
  foldR (λ o w, Add write_all w o) objs w =
    recs ← encode_all objs;
    Ok (match recs with [] => w | _ => mkWriter (with_header w ++ concat recs) true end).
Proof.
  unfold encode_all. induction objs as [|o objs IH]; intros w; cbn [foldR mapR]; [done|].
  rewrite Add_spec. destruct (EncodeRecord _ _) as [rec| | |]; rsimpl; [|done..].
  rewrite IH. destruct (mapR _ _) as [recs| | |]; rsimpl; [|done..].
  destruct recs; cbn [concat with_header wroteHeader bw];
    by rewrite ?app_nil_r, <- ?app_assoc.
Qed.

Lemma write_pack_spec objs w out :
  write_pack write_all objs w = Ok out ↔
  ∃ recs, encode_all objs = Ok recs ∧ out = w ++ packMagic ++ concat recs ++ [tagEnd].
Proof.
  unfold write_pack. rewrite Adds_spec.
  destruct (encode_all objs) as [recs| | |]; rsimpl; [|split; [done|by intros (? & ? & ?)]..].
  assert (Close write_all (match recs with [] => NewWriter w
            | _ => mkWriter (with_header (NewWriter w) ++ concat recs) true end)
          = Ok (w ++ packMagic ++ concat recs ++ [tagEnd])) as ->.
  { destruct recs; unfold Close, ensureHeader, write_all, with_header; simpl;
      by rewrite <- !app_assoc. }
  split; [intros <-%Ok_inj; eauto|by intros (? & <-%Ok_inj & ->)].
Qed.

(** One record at the front of the stream is read whole. *)
Lemma read_one_record b r stored data rest :
  record_at b r → length b = rec_size r → b = take 46 b ++ stored →
  zlen stored = Slen r → DecodePayload (Flags r) (Ulen r) stored = Ok data →
  read_one (b ++ rest) = Ok (Some (mkObject (rKey r) data, rest)).
Proof.
  intros Hat Hlen Hb Hst Hdec. pose proof Hat as (_ & Ht & _ & _ & _ & Hs & Hmax & Hcmp & _).
  assert (Slen r <= MaxPayload) as Hm by (destruct (Z.land _ _ =? 0); lia).
  pose proof (be4_range b 38) as Hr. rewrite <- Hs in Hr. unfold rec_size, RecHeaderSize in *.
  destruct b as [|tag b']; [done|]. injection Ht as ->. cbn [app read_one length] in *.
  rewrite (bool_decide_false (tagChunk = tagEnd)), bool_decide_true by done.
  unfold RecHeaderSize. rewrite length_app.
  replace (Z.of_nat (length b' + length rest) <? 46 - 1) with false by lia.
  assert (tagChunk :: take 45 (b' ++ rest) = take 46 (tagChunk :: b')) as Hhdr.
  { simpl. by rewrite take_app_le by lia. }
  rewrite Hhdr, (slice_drop _ 38 4 38 42) by (rewrite ?length_take; cbn [length]; lia). rsimpl.
  rewrite <- (field_take _ 38 4 46), <- Hs by lia. cbv zeta.
  replace (Slen r >? MaxPayload) with false by lia.
  rewrite drop_app_le by lia.
  assert (drop 45 b' = stored) as Hd.
  { apply (f_equal (drop 46)) in Hb. rewrite drop_app_all in Hb; [by rewrite <- Hb|].
    rewrite length_take. cbn [length]. lia. }
  rewrite Hd, length_app. replace (_ <? _) with false by lia.
  rewrite (take_app_all stored), (drop_app_all stored) by lia.
  change (tagChunk :: take 45 (b' ++ rest) ++ stored)
    with ((tagChunk :: take 45 (b' ++ rest)) ++ stored). rewrite Hhdr, <- Hb.
  rewrite (proj2 (ParseRecord_Ok _ _) Hat). rsimpl.
  assert (slice_from (tagChunk :: b') 46 = Ok stored) as ->.
  { rewrite Hb at 1. apply slice_from_app. rewrite length_take. cbn [length]. lia. }
  rsimpl. by rewrite Hdec.
Qed.

Lemma read_one_encoded o rec rest :
  Validate (obj_key o) = Ok tt → EncodeRecord (obj_key o) (obj_bytes o) = Ok rec →
  read_one (rec ++ rest) = Ok (Some (o, rest)).
Proof.
  intros Hv He. destruct (EncodeRecord_spec _ _ _ Hv He)
    as (r & payload & Hk & Hlen & _ & _ & _ & Hrec & Hpl & Hat & Hdec).
  rewrite (read_one_record rec r payload (obj_bytes o) rest) by done. rewrite Hk. by destruct o.
Qed.

Lemma read_all_encoded objs recs rest : ∀ fuel,
  Forall (λ o, Validate (obj_key o) = Ok tt) objs → encode_all objs = Ok recs →
  (length objs < fuel)%nat → read_all fuel (concat recs ++ tagEnd :: rest) = (objs, Ok tt).
Proof.
  revert recs. induction objs as [|o objs IH]; intros recs [|fuel] Hv He Hf; simpl in Hf; try lia.
  - injection He as <-. done.
  - apply Forall_cons in Hv as [Ho Hv]. unfold encode_all in He. cbn [mapR] in He. inv_ok.
    cbn [concat read_all]. rewrite <- app_assoc.
    rewrite (read_one_encoded o) by done. rewrite (IH _ fuel); [done|done|done|lia].
Qed.

Lemma encode_all_length objs recs :
  Forall (λ o, Validate (obj_key o) = Ok tt) objs → encode_all objs = Ok recs →
  (46 * length objs ≤ length (concat recs))%nat.
Proof.
  revert recs. induction objs as [|o objs IH]; intros recs Hv He; simpl; [lia|].
  apply Forall_cons in Hv as [Ho Hv]. unfold encode_all in He. cbn [mapR] in He. inv_ok.
  simpl. rewrite length_app. specialize (IH _ Hv H1).
  destruct (EncodeRecord_spec _ _ _ Ho H0) as (r & _ & _ & Hlen & _ & [? _] & _).
  unfold rec_size, RecHeaderSize in Hlen. lia.
Qed.

Definition is_malformed {A} (r : result A) : Prop := ∃ e, r = Err e ∧ errors_Is e ErrMalformed.

Lemma malformed_is {A} msg : is_malformed (Err (malformed msg) : result A).
Proof. eexists. split; [done|]. unfold errors_Is. set_solver. Qed.

(** A record cut short, at the end of the stream. *)
Lemma read_one_truncated o rec n :
  Validate (obj_key o) = Ok tt → EncodeRecord (obj_key o) (obj_bytes o) = Ok rec →
  (n < length rec)%nat → is_malformed (read_one (take n rec)).
Proof.
  intros Hv He Hn. destruct (EncodeRecord_spec _ _ _ Hv He)
    as (r & _ & _ & Hlen & _ & [Hs0 _] & _ & _ & _ & Hat & _).
  destruct Hat as (_ & Ht & _ & _ & _ & Hs & _). unfold rec_size, RecHeaderSize in *.
  destruct rec as [|tag rec]; [done|]. injection Ht as ->. cbn [length] in *.
  destruct n as [|n]; [apply malformed_is|]. cbn [take read_one].
  rewrite (bool_decide_false (tagChunk = tagEnd)), bool_decide_true by done.
  unfold RecHeaderSize. rewrite length_take. case_if; [apply malformed_is|].
  change (tagChunk :: take 45 (take n rec)) with (take 46 (take (S n) (tagChunk :: rec))).
  rewrite (slice_drop _ 38 4 38 42) by (rewrite ?length_take; cbn [length]; lia). rsimpl.
  rewrite <- (field_take _ 38 4 46), <- (field_take _ 38 4 (S n)), <- Hs by lia. cbv zeta.
  case_if; [apply malformed_is|]. rewrite length_drop, length_take.
  replace (_ <? _) with true by lia. apply malformed_is.
Qed.

Lemma read_all_truncated objs recs : ∀ fuel n,
  Forall (λ o, Validate (obj_key o) = Ok tt) objs → encode_all objs = Ok recs →
  (length objs < fuel)%nat → (n ≤ length (concat recs))%nat →
  ∃ os, os `prefix_of` objs ∧ (read_all fuel (take n (concat recs ++ [tagEnd]))).1 = os ∧
        is_malformed (read_all fuel (take n (concat recs ++ [tagEnd]))).2.
Proof.
  revert recs. induction objs as [|o objs IH]; intros recs [|fuel] n Hv He Hf Hn;
    simpl in Hf; try lia.
  - injection He as <-. simpl in Hn. assert (n = 0)%nat as -> by lia. exists [].
    split_and!; [done|done|]. apply malformed_is.
  - apply Forall_cons in Hv as [Ho Hv]. unfold encode_all in He. cbn [mapR] in He.
    apply bind_Ok in He as (rec & Hrec & (recs' & Hrecs & <-%Ok_inj)%bind_Ok).
    cbn [concat] in *. rewrite <- app_assoc, length_app in *. cbn [read_all].
    destruct (decide (n < length rec)%nat) as [Hlt|Hge].
    + rewrite take_app_le by lia. exists []. split; [apply prefix_nil|].
      destruct (read_one_truncated o rec n Ho Hrec Hlt) as (e & -> & Hm).
      split; [done|]. by exists e.
    + rewrite take_app_ge by lia. rewrite (read_one_encoded o) by done.
      destruct (IH recs' fuel (n - length rec)%nat Hv Hrecs) as (os & Hp & H1 & H2); [lia..|].
      destruct (read_all fuel _) as [os' r]. simpl in *. subst os'. exists (o :: os).
      split_and!; [by apply prefix_cons|done|done].
Qed.

(** ** Arbitrary streams *)
Lemma relabel_malformed {A} msg (m : result A) :
  safe m → is_ok (relabel (malformed msg) m) = true ∨ is_malformed (relabel (malformed msg) m).
Proof. intros [??]. destruct m; try done; [by left|right; apply malformed_is]. Qed.

Lemma read_one_cases br :
  read_one br = Ok None ∨ is_malformed (read_one br) ∨
  (∃ o rest, read_one br = Ok (Some (o, rest)) ∧ Validate (obj_key o) = Ok tt ∧
             (length rest < length br)%nat).
Proof.
  destruct br as [|tag br]; cbn [read_one]; [right; left; apply malformed_is|].
  case_bool_decide; [by left|]. right.
  case_bool_decide; [|left; apply malformed_is].
  case_if; [left; apply malformed_is|]. unfold RecHeaderSize in *.
  rewrite (slice_drop _ 38 4 38 42) by (cbn [length]; rewrite ?length_take; lia). rsimpl. cbv zeta.
  set (slen := be_dec _). case_if; [left; apply malformed_is|].
  case_if; [left; apply malformed_is|]. rewrite length_drop in *.
  set (full := _ ++ _). destruct (relabel_malformed "%v" (ParseRecord full) (ParseRecord_safe _))
    as [[r Hr]%is_ok_true|(e & He & Hm)]; [|left; rewrite He; by exists e].
  rewrite Hr. rsimpl. assert (46 ≤ length full)%nat as Hfull.
  { subst full. rewrite length_app. cbn [length]. rewrite length_take. lia. }
  destruct (slice_from full 46) as [stored| | |] eqn:Es;
    [|unfold slice_from in Es; rewrite slice_ok in Es by lia; done..]. rsimpl.
  destruct (relabel_malformed "%v" (DecodePayload (Flags r) (Ulen r) stored) (DecodePayload_safe _ _ _))
    as [[p Hp]%is_ok_true|(e & He & Hm)]; [|left; rewrite He; by exists e].
  rewrite Hp. rsimpl. right. eexists _, _. split; [done|]. cbn [obj_key].
  apply relabel_Ok, ParseRecord_Ok in Hr as (_ & _ & _ & _ & _ & _ & _ & _ & _ & _ & Hv).
  split; [done|]. cbn [length]. rewrite !length_drop. lia.
Qed.

Lemma read_all_cases fuel : ∀ br, (length br < fuel)%nat →
  Forall (λ o, Validate (obj_key o) = Ok tt) (read_all fuel br).1 ∧
  ((read_all fuel br).2 = Ok tt ∨ is_malformed (read_all fuel br).2).
Proof.
  induction fuel as [|fuel IH]; intros br Hf; [lia|]. cbn [read_all].
  destruct (read_one_cases br) as [->|[(e & -> & He)|(o & rest & -> & Hv & Hl)]].
  - split; [constructor|by left].
  - split; [constructor|right; by exists e].
  - destruct (IH rest) as [H1 H2]; [lia|]. destruct (read_all fuel rest) as [os r].
    simpl in *. split; [by constructor|done].
Qed.

(** More fuel than bytes changes nothing. *)
Lemma read_all_fuel fuel : ∀ fuel' br,
  (length br < fuel)%nat → (length br < fuel')%nat → read_all fuel br = read_all fuel' br.
Proof.
  induction fuel as [|fuel IH]; intros [|fuel'] br Hf Hf'; try lia. cbn [read_all].
  destruct (read_one_cases br) as [->|[(e & -> & He)|(o & rest & -> & Hv & Hl)]]; [done..|].
  by rewrite (IH fuel' rest) by lia.
Qed.

Lemma All_magic rest : All (packMagic ++ rest) = read_all (S (8 + length rest)) rest.
Proof. unfold All. by replace (zlen (packMagic ++ rest) <? zlen packMagic) with false by (simpl; lia). Qed.
End stream_facts.

(** ** Properties *)

Lemma All_pack `{Zstd} objs out rest :
  Forall (λ o, Validate (obj_key o) = Ok tt) objs →
  write_pack write_all objs [] = Ok out →
  All (out ++ rest) = (objs, Ok tt).
Proof.
  intros Hv (recs & He & ->)%write_pack_spec. rewrite app_nil_l, <- !app_assoc, All_magic.
  apply read_all_encoded; [done..|]. pose proof (encode_all_length objs recs Hv He).
  rewrite !length_app. simpl. lia.
Qed.

(** A wire pack round-trips: reading the bytes a writer produced for a list
    of objects (with anything after them) yields exactly those objects, in
    order, and ends cleanly at the end marker. *)
Theorem All_write_pack `{Zstd} objs out rest :
  Forall (λ o, Validate (obj_key o) = Ok tt) objs →
  write_pack write_all objs [] = Ok out →
  All (out ++ rest) = (objs, Ok tt).
Proof. exact (All_pack objs out rest). Qed.

(** A truncated wire pack is always detected: every proper prefix of a
    written pack yields some of its first objects and then an error that wraps
    [ErrMalformed], never a clean end. *)
Theorem All_truncated `{Zstd} objs out n :
  Forall (λ o, Validate (obj_key o) = Ok tt) objs →
  write_pack write_all objs [] = Ok out → (n < length out)%nat →
  (All (take n out)).1 `prefix_of` objs ∧ is_malformed (All (take n out)).2.
Proof.
  intros Hv (recs & He & ->)%write_pack_spec Hn. rewrite app_nil_l in *.
  rewrite !length_app in Hn. change (length packMagic) with 8%nat in Hn.
  change (length [tagEnd]) with 1%nat in Hn.
  destruct (decide (n < 8)%nat) as [Hlt|Hge].
  - unfold All. rewrite length_take, length_app. change (length packMagic) with 8%nat.
    replace (_ <? _) with true by lia. split; [apply prefix_nil|apply malformed_is].
  - rewrite take_app_ge by (simpl; lia). rewrite All_magic.
    change (length packMagic) with 8%nat. set (br := take _ _).
    rewrite (read_all_fuel _ (S (length objs) + S (length br)) br) by lia.
    destruct (read_all_truncated objs recs (S (length objs) + S (length br)) (n - 8) Hv He)
      as (os & Hp & <- & Hm); [lia..|done].
Qed.

(** Reading is total: on every byte stream the reader stops without a panic,
    every object it yields has a canonical key, and it ends either at the end
    marker or with exactly one error, which wraps [ErrMalformed]. *)
Theorem All_total `{Zstd} stream :
  Forall (λ o, Validate (obj_key o) = Ok tt) (All stream).1 ∧
  ((All stream).2 = Ok tt ∨ is_malformed (All stream).2).
Proof.
  unfold All. case_if; [split; [constructor|right; apply malformed_is]|].
  case_if; [split; [constructor|right; apply malformed_is]|].
  apply read_all_cases. rewrite length_drop. lia.
Qed.

(** ** Applications to concrete inputs *)
Section examples.
#[local] Existing Instance zstd_example.

Definition objs_example : list Object :=
  [mkObject key_example (replicate 9 x41); mkObject key_example [x01; x02]].
Definition pack_example : bytes :=
  match write_pack write_all objs_example [] with Ok b => b | _ => [] end.

Lemma All_write_pack_witness : All (pack_example ++ [x55]) = (objs_example, Ok tt).
Proof.
  apply All_write_pack; [|vm_compute; reflexivity].
  repeat constructor; vm_compute; reflexivity.
Defined.

Lemma All_truncated_witness : is_malformed (All (take 90 pack_example)).2.
Proof.
  apply (All_truncated objs_example pack_example 90);
    [|vm_compute; reflexivity|vm_compute; lia].
  repeat constructor; vm_compute; reflexivity.
Defined.
End examples.
