(* ===== verification/Footer.v ===== *)
(** * Package [packstore]: sealed segments ([footer.go], [segment.go])

    The index section (fanout on the last key byte, then rows sorted by last
    byte and key), the filter section, the trailer, and the reads of a sealed
    segment.  The xorfilter library is the class [Fuse]; its filter is a plain
    struct that the sources serialize field by field. *)

From Stdlib Require Import Init.Byte.
From S2P Require Import Prelude Machine Key FsRead PackRecord.
From Stdlib Require Import ZifyBool ZifyNat.
Local Open Scope Z_scope.

Definition fanoutSize : Z := 256 * 4.
Definition indexEntrySize : Z := 32 + 8 + 4.
Definition trailerSize : Z := 64.
Definition filterHeaderSize : Z := 29.
Definition filterTypeBinaryFuse16 : byte := x01.
Definition tagSeal : byte := xf0.
Definition magicHeader : bytes := [x41; x4d; x42; x45; x52; x53; x47; x01].
Definition magicTrailer : bytes := [x41; x4d; x42; x45; x52; x53; x47; x46].

Record indexEntry := mkIndexEntry { ie_k : Key; ie_off : Z; ie_slen : Z }.

#[export] Instance indexEntry_eq_dec : EqDecision indexEntry.
Proof. solve_decision. Defined.

(** The last byte of a key. *)
Definition last_byte (k : Key) : Z := kbyte k (Size - 1).

(** [binary.BigEndian.UintN(b[o:])] *)
Definition be_at (n : nat) (b : bytes) (o : Z) : result Z :=
  s ← slice_from b o; w ← slice s 0 (Z.of_nat n); Ok (be_dec w).

(** ** The filter library *)
Record BinaryFuse := mkFuse {
  Seed : Z;
  SegmentLength : Z;
  SegmentLengthMask : Z;
  SegmentCount : Z;
  SegmentCountLength : Z;
  Fingerprints : list Z;
}.

(** The geometry of a constructed filter. *)
Definition geometry_ok (f : BinaryFuse) : Prop :=
  SegmentCount f ≠ 0 ∧ SegmentLength f ≠ 0 ∧
  Z.land (SegmentLength f) (SegmentLength f - 1) = 0 ∧
  SegmentLengthMask f = SegmentLength f - 1 ∧
  SegmentCountLength f = SegmentCount f * SegmentLength f ∧
  zlen (Fingerprints f) = SegmentCountLength f + 2 * SegmentLength f.

(** The widths of the Go fields; the section stores the fingerprint count in
    four bytes. *)
Definition fuse_wf (f : BinaryFuse) : Prop :=
  is_u64 (Seed f) ∧ is_u32 (SegmentLength f) ∧ is_u32 (SegmentLengthMask f) ∧
  is_u32 (SegmentCount f) ∧ is_u32 (SegmentCountLength f) ∧
  is_u32 (zlen (Fingerprints f)) ∧ Forall (λ x, 0 <= x < 2 ^ 16) (Fingerprints f).

Class Fuse := {
  NewBinaryFuse : list Z → result BinaryFuse;
  Contains : BinaryFuse → Z → result bool;
  (** a constructed filter is well formed and has no false negatives *)
  NewBinaryFuse_ok ts f : NewBinaryFuse ts = Ok f →
    fuse_wf f ∧ geometry_ok f ∧ ∀ t, t ∈ ts → Contains f t = Ok true;
  (** a query on a filter with a valid geometry stays within the fingerprints *)
  Contains_ok f t : geometry_ok f → is_ok (Contains f t) = true;
  (** a construction that does not converge is an error *)
  NewBinaryFuse_safe ts : safe (NewBinaryFuse ts);
}.

(** ** The index section *)
Definition compareEntries (a b : indexEntry) : comparison :=
  match Z.compare (last_byte (ie_k a)) (last_byte (ie_k b)) with
  | Eq => bytes_Compare (kb (ie_k a)) (kb (ie_k b))
  | c => c
  end.

Definition entry_le (a b : indexEntry) : Prop := compareEntries a b ≠ Gt.

#[export] Instance entry_le_dec : RelDecision entry_le.
Proof. intros a b. unfold entry_le. apply _. Defined.

Definition entry_bytes (e : indexEntry) : bytes :=
  kb (ie_k e) ++ be_enc 8 (ie_off e) ++ be_enc 4 (ie_slen e).

(** [counts[b]] *)
Definition count_byte (es : list indexEntry) (b : Z) : Z :=
  u32 (zlen (filter (λ e, last_byte (ie_k e) = b) es)).

(** The cumulative counts: [cum += counts[b]] for [b] from 0 to 255. *)
Definition fanout_step (es : list indexEntry) (st : Z * list Z) (b : nat) : Z * list Z :=
  let cum := u32 (st.1 + count_byte es (Z.of_nat b)) in (cum, st.2 ++ [cum]).
Definition fanout_of (es : list indexEntry) : list Z :=
  (foldl (fanout_step es) (0, []) (seq 0 256)).2.

Definition buildIndexSection (entries : list indexEntry) : bytes :=
  let es := merge_sort entry_le entries in
  concat (be_enc 4 <$> fanout_of es) ++ concat (entry_bytes <$> es).

Definition fanout_check (b : bytes) (i : nat) (st : list Z * Z) : result (list Z * Z) :=
  let '(fanout, prev) := st in
  x ← be_at 4 b (Z.of_nat i * 4);
  if x <? prev then Err (corrupt "fanout not monotonic at byte %#x") else Ok (fanout ++ [x], x).

Definition parseIndexSection (b : bytes) (keyCount : Z) : result (list Z * bytes) :=
  if keyCount >? 2 ^ 32 - 1 then Err (corrupt "key count %d exceeds format limit") else
  let want := u64 (fanoutSize + u64 (keyCount * indexEntrySize)) in
  if negb (zlen b =? want) then Err (corrupt "index section is %d bytes, want %d") else
  '(fanout, _) ← foldR (fanout_check b) (seq 0 256) ([], 0);
  total ← index fanout 255;
  if negb (total =? keyCount) then Err (corrupt "fanout total %d != key count %d") else
  rest ← slice_from b fanoutSize;
  Ok (fanout, rest).

Definition searchIndexPos (fanout : list Z) (entries : bytes) (k : Key) : result (option nat) :=
  let b := last_byte k in
  lo ← (if b >? 0 then index fanout (b - 1) else Ok 0);
  hi ← index fanout b;
  let n := Z.to_nat (u32 (hi - lo)) in
  i ← sort_Search n (λ i,
        e ← slice_from entries ((lo + Z.of_nat i) * indexEntrySize);
        ek ← slice e 0 32;
        Ok (cmp_ge ek (kb k)));
  if (n <=? i)%nat then Ok None else
  let pos := (Z.to_nat lo + i)%nat in
  e ← slice_from entries (Z.of_nat pos * indexEntrySize);
  ek ← slice e 0 32;
  if bool_decide (ek = kb k) then Ok (Some pos) else Ok None.

Definition searchIndex (fanout : list Z) (entries : bytes) (k : Key) : result (option (Z * Z)) :=
  pos ← searchIndexPos fanout entries k;
  match pos with
  | None => Ok None
  | Some pos =>
      e ← slice_from entries (Z.of_nat pos * indexEntrySize);
      ob ← slice e 32 40;
      sb ← slice e 40 44;
      Ok (Some (be_dec ob, be_dec sb))
  end.

(** ** The filter section *)
Definition filterKey (k : Key) : Z := be_dec (drop (Size - 8) (kb k)).

(** [slices.Compact]: drop repeats of the previous element. *)
Fixpoint compact (l : list Z) : list Z :=
  match l with
  | x :: ((y :: _) as l') => if x =? y then compact l' else x :: compact l'
  | l => l
  end.

Section filter_section.
Context `{Fuse}.

Definition buildFilterSection (entries : list indexEntry) : result bytes :=
  let tails := compact (merge_sort Z.le ((λ e, filterKey (ie_k e)) <$> entries)) in
  f ← wrap "packstore: building fuse filter" (NewBinaryFuse tails);
  Ok ([filterTypeBinaryFuse16] ++ be_enc 8 (Seed f) ++ be_enc 4 (SegmentLength f) ++
      be_enc 4 (SegmentLengthMask f) ++ be_enc 4 (SegmentCount f) ++
      be_enc 4 (SegmentCountLength f) ++ be_enc 4 (u32 (zlen (Fingerprints f))) ++
      concat (be_enc 2 <$> Fingerprints f)).

Definition parseFilterSection (b : bytes) : result BinaryFuse :=
  if zlen b <? filterHeaderSize then Err (corrupt "filter section too short: %d bytes") else
  t ← index b 0;
  if negb (bool_decide (t = filterTypeBinaryFuse16)) then Err (corrupt "unknown filter type %d") else
  fpb ← slice b 25 29;
  let fpCount := be_dec fpb in
  if negb (zlen b =? filterHeaderSize + 2 * fpCount)
  then Err (corrupt "filter section is %d bytes, want %d") else
  slb ← slice b 9 13;
  smb ← slice b 13 17;
  scb ← slice b 17 21;
  sclb ← slice b 21 25;
  let segLen := be_dec slb in
  let segLenMask := be_dec smb in
  let segCount := be_dec scb in
  let segCountLen := be_dec sclb in
  if segCount =? 0 then Err (corrupt "filter segment count is zero") else
  if (segLen =? 0) || negb (Z.land segLen (u32 (segLen - 1)) =? 0)
     || negb (segLenMask =? u32 (segLen - 1))
     || negb (segCountLen =? u64 (segCount * segLen))
     || negb (fpCount =? u64 (segCountLen + 2 * segLen))
  then Err (corrupt "filter geometry invalid") else
  seedb ← slice b 1 9;
  fps ← mapR (λ i, be_at 2 b (filterHeaderSize + 2 * Z.of_nat i)) (seq 0 (Z.to_nat fpCount));
  Ok (mkFuse (be_dec seedb) segLen segLenMask segCount segCountLen fps).
End filter_section.

(** ** The footer *)
Record footerView := mkFooterView {
  fv_fanout : list Z;
  fv_entries : bytes;
  fv_filter : BinaryFuse;
  fv_keyCount : Z;
  fv_bodyLen : Z;
  fv_indexOff : Z;
  fv_indexLen : Z;
}.

(** The trailer with the given checksum field (bytes 48 to 52); bytes 52 to 56
    are reserved. *)
Definition trailer (indexOff indexLen filterOff filterLen keyCount bodyLen crc : Z) : bytes :=
  be_enc 8 indexOff ++ be_enc 8 indexLen ++ be_enc 8 filterOff ++ be_enc 8 filterLen ++
  be_enc 8 keyCount ++ be_enc 8 bodyLen ++ be_enc 4 crc ++ zero4 ++ magicTrailer.

Section footer.
Context `{Fuse}.

Definition buildFooter (bodyLen : Z) (entries : list indexEntry) : result bytes :=
  if (length entries =? 0)%nat then Err (errors_New "packstore: refusing to seal an empty segment") else
  let idx := buildIndexSection entries in
  filt ← buildFilterSection entries;
  let indexOff := u64 (u64 bodyLen + 1) in
  let tr := trailer indexOff (zlen idx) (u64 (indexOff + zlen idx)) (zlen filt)
                    (zlen entries) (u64 bodyLen) in
  let footer := [tagSeal] ++ idx ++ filt ++ tr 0 in
  let crc := crc32_Checksum (take (length footer - 16) footer) in
  Ok ([tagSeal] ++ idx ++ filt ++ tr crc).

Definition minSegment : Z :=
  zlen magicHeader + 1 + fanoutSize + indexEntrySize + filterHeaderSize + trailerSize.

Definition parseFooter (mm : bytes) : result footerView :=
  if zlen mm <? minSegment then Err (corrupt "file too short: %d bytes") else
  mh ← slice mm 0 (zlen magicHeader);
  if negb (bool_decide (mh = magicHeader)) then Err (corrupt "bad header magic") else
  tr ← slice_from mm (zlen mm - trailerSize);
  mt ← slice tr 56 64;
  if negb (bool_decide (mt = magicTrailer)) then Err (corrupt "bad trailer magic") else
  res ← slice tr 52 56;
  if negb (be_dec res =? 0) then Err (corrupt "nonzero reserved trailer field") else
  indexOff ← be_dec <$> slice tr 0 8;
  indexLen ← be_dec <$> slice tr 8 16;
  filterOff ← be_dec <$> slice tr 16 24;
  filterLen ← be_dec <$> slice tr 24 32;
  keyCount ← be_dec <$> slice tr 32 40;
  bodyLen ← be_dec <$> slice tr 40 48;
  let fileLen := u64 (zlen mm) in
  if (bodyLen <? zlen magicHeader) || (bodyLen >=? fileLen) || (keyCount >? 2 ^ 32 - 1)
     || negb (indexOff =? u64 (bodyLen + 1))
     || negb (indexLen =? u64 (fanoutSize + u64 (keyCount * indexEntrySize)))
     || negb (filterOff =? u64 (indexOff + indexLen))
     || (filterOff >? u64 (fileLen - trailerSize))
     || negb (filterLen =? u64 (u64 (fileLen - trailerSize) - filterOff))
  then Err (corrupt "trailer offsets inconsistent") else
  fb ← slice mm bodyLen (u64 (fileLen - 16));
  cb ← slice tr 48 52;
  if negb (crc32_Checksum fb =? be_dec cb) then Err (corrupt "footer CRC mismatch") else
  t ← index mm bodyLen;
  if negb (bool_decide (t = tagSeal)) then Err (corrupt "missing seal marker") else
  ib ← slice mm indexOff (u64 (indexOff + indexLen));
  '(fanout, entries) ← parseIndexSection ib keyCount;
  fb ← slice mm filterOff (u64 (filterOff + filterLen));
  filter ← parseFilterSection fb;
  Ok (mkFooterView fanout entries filter keyCount bodyLen indexOff indexLen).

Definition fv_lookup (fv : footerView) (k : Key) : result (option (Z * Z)) :=
  searchIndex (fv_fanout fv) (fv_entries fv) k.
Definition fv_lookupPos (fv : footerView) (k : Key) : result (option nat) :=
  searchIndexPos (fv_fanout fv) (fv_entries fv) k.
End footer.

(** ** Sealed segments *)
Record sealedSegment := mkSealed { sg_id : Z; sg_mm : bytes; sg_fv : footerView }.

Section sealed.
Context `{Fuse} `{Zstd}.

(** Mapping the file and parsing its footer, given its content. *)
Definition openSealed (id : Z) (content : bytes) : result sealedSegment :=
  if zlen content <? minSegment then Err (corrupt "%s: file too short: %d bytes") else
  fv ← wrap "%s" (parseFooter content);
  Ok (mkSealed id content fv).

(** The filter, then the index: [None] when the key is not in the segment. *)
Definition sg_find (g : sealedSegment) (k : Key) : result (option (Z * Z)) :=
  c ← Contains (fv_filter (sg_fv g)) (filterKey k);
  if negb c then Ok None else fv_lookup (sg_fv g) k.

Definition sg_has (g : sealedSegment) (k : Key) : result bool :=
  r ← sg_find g k; Ok (match r with Some _ => true | None => false end).

Definition sg_in_bounds (g : sealedSegment) (off slen : Z) : bool :=
  negb ((off <? zlen magicHeader) || (off >? fv_bodyLen (sg_fv g))
        || (RecHeaderSize + slen >? u64 (fv_bodyLen (sg_fv g) - off))).

Definition sg_get (g : sealedSegment) (k : Key) : result (option bytes) :=
  r ← sg_find g k;
  match r with
  | None => Ok None
  | Some (off, slen) =>
      if negb (sg_in_bounds g off slen) then Err (corrupt "%s: index entry out of bounds") else
      h ← slice (sg_mm g) off (off + RecHeaderSize);
      flags ← index h 33;
      ub ← slice h 34 38;
      stored ← slice (sg_mm g) (off + RecHeaderSize) (off + RecHeaderSize + slen);
      data ← wrap "%s" (DecodePayload flags (be_dec ub) stored);
      Ok (Some data)
  end.

Definition sg_getRecord (g : sealedSegment) (k : Key) : result (option bytes) :=
  r ← sg_find g k;
  match r with
  | None => Ok None
  | Some (off, slen) =>
      if negb (sg_in_bounds g off slen) then Err (corrupt "%s: index entry out of bounds") else
      rec ← slice (sg_mm g) off (off + RecHeaderSize + slen);
      Ok (Some rec)
  end.

Definition sg_storedSize (g : sealedSegment) (k : Key) : result (option Z) :=
  r ← sg_find g k; Ok (option_map snd r).

Definition sg_locate (g : sealedSegment) (k : Key) : result (option Z) :=
  r ← sg_find g k; Ok (option_map fst r).
End sealed.
