(* ===== verification/FooterFacts.v ===== *)
(** * Sealed segments: the index is exact, the footer round-trips, reads of
    arbitrary files never panic *)

From Stdlib Require Import Init.Byte.
From S2P Require Import Prelude Machine Key FsTree FsRead PackRecord Footer.
From Stdlib Require Import ZifyBool ZifyNat.
Local Open Scope Z_scope.

(** ** The order of the index rows *)
Lemma last_byte_range k : 0 <= last_byte k < 256.
Proof. unfold last_byte, kbyte. apply b2z_range. Qed.

(** Row order: by last byte, then by key. *)
Lemma entry_le_spec a b :
  entry_le a b ↔ last_byte (ie_k a) < last_byte (ie_k b) ∨
    (last_byte (ie_k a) = last_byte (ie_k b) ∧ bytes_le (kb (ie_k a)) (kb (ie_k b))).
Proof.
  unfold entry_le, compareEntries, bytes_le.
  destruct (Z.compare_spec (last_byte (ie_k a)) (last_byte (ie_k b))); split; intros Hx;
    try lia; try tauto.
  - destruct Hx as [?|[_ ?]]; [lia|done].
  - done.
Qed.

#[export] Instance entry_le_trans : Transitive entry_le.
Proof.
  intros a b c. rewrite !entry_le_spec. intros [?|[? H1]] [?|[? H2]]; try (left; lia).
  right. split; [lia|]. by transitivity (kb (ie_k b)).
Qed.

#[export] Instance entry_le_total : Total entry_le.
Proof.
  intros a b. rewrite !entry_le_spec.
  destruct (Z.lt_trichotomy (last_byte (ie_k a)) (last_byte (ie_k b))) as [?|[?|?]]; [auto| |auto].
  destruct (total bytes_le (kb (ie_k a)) (kb (ie_k b))); [left|right]; right; done.
Qed.

Lemma sorted_rows es : StronglySorted entry_le (merge_sort entry_le es).
Proof. apply (StronglySorted_merge_sort entry_le). Qed.

(** The rows with last byte below, at and above [b] follow each other. *)
Definition below (b : Z) (es : list indexEntry) := filter (λ e, last_byte (ie_k e) < b) es.
Definition at_byte (b : Z) (es : list indexEntry) := filter (λ e, last_byte (ie_k e) = b) es.

Lemma rows_split b es :
  StronglySorted entry_le es →
  ∃ above, es = below b es ++ at_byte b es ++ above ∧ Forall (λ e, b < last_byte (ie_k e)) above.
Proof.
  unfold below, at_byte. induction 1 as [|e es Hs (above & IH & Ha) He].
  { exists []. done. }
  rewrite Forall_forall in He.
  assert (∀ e', e' ∈ es → last_byte (ie_k e) <= last_byte (ie_k e')) as Hle.
  { intros e' H%He%entry_le_spec. lia. }
  destruct (Z.lt_trichotomy (last_byte (ie_k e)) b) as [Hlt|[Heq|Hgt]].
  - exists above. rewrite filter_cons_True, filter_cons_False by lia. simpl. by rewrite <- IH.
  - exists above. rewrite (filter_cons_False _ e), (filter_cons_True _ e) by lia.
    assert (filter (λ e, last_byte (ie_k e) < b) es = []) as Hnil.
    { apply filter_none. intros e' He'. specialize (Hle e' He'). lia. }
    rewrite Hnil in IH |- *. simpl in *. by rewrite <- IH.
  - exists (e :: es). rewrite !filter_cons_False by lia.
    rewrite !filter_none by (intros e' He'; specialize (Hle e' He'); lia). split; [done|]. constructor; [done|].
    apply Forall_forall. intros e' He'. specialize (Hle e' He'). lia.
Qed.

(** ** The fanout *)
Lemma below_S b es : zlen (below (b + 1) es) = zlen (below b es) + zlen (at_byte b es).
Proof.
  unfold below, at_byte. induction es as [|e es IH]; [done|]. rewrite !filter_cons.
  repeat case_decide; simpl in *; lia.
Qed.

Lemma below_all es : below 256 es = es.
Proof. unfold below. apply filter_all. intros. apply last_byte_range. Qed.

Lemma below_none es : below 0 es = [].
Proof.
  unfold below. apply filter_none. intros e _.
  pose proof (last_byte_range (ie_k e)). lia.
Qed.

Lemma below_le b es : zlen (below b es) <= zlen es.
Proof. unfold below. pose proof (length_filter (λ e, last_byte (ie_k e) < b) es). lia. Qed.

Lemma below_mono b b' es : b <= b' → zlen (below b es) <= zlen (below b' es).
Proof.
  intros. unfold below. induction es as [|e es IH]; [done|]. rewrite !filter_cons.
  repeat case_decide; simpl in *; lia.
Qed.

Lemma fanout_fold es n :
  zlen es < 2 ^ 32 →
  foldl (fanout_step es) (0, []) (seq 0 n) =
    (zlen (below (Z.of_nat n) es), (λ i, zlen (below (Z.of_nat i + 1) es)) <$> seq 0 n).
Proof.
  intros Hlen. induction n as [|n IH]; [by rewrite below_none|].
  rewrite seq_S, foldl_app, IH, fmap_app. simpl. unfold fanout_step at 1. simpl.
  assert (u32 (zlen (below (Z.of_nat n) es) + count_byte es (Z.of_nat n))
          = zlen (below (Z.of_nat n + 1) es)) as ->.
  { unfold count_byte. fold (at_byte (Z.of_nat n) es). pose proof (below_S (Z.of_nat n) es).
    pose proof (below_le (Z.of_nat n + 1) es). unfold u32. rewrite (Z.mod_small (zlen (at_byte _ _)));
      [rewrite Z.mod_small; lia|lia]. }
  by replace (Z.of_nat (S n)) with (Z.of_nat n + 1) by lia.
Qed.

Lemma fanout_lookup es i :
  zlen es < 2 ^ 32 → (i < 256)%nat →
  fanout_of es !! i = Some (zlen (below (Z.of_nat i + 1) es)).
Proof.
  intros Hlen Hi. unfold fanout_of. rewrite fanout_fold by done. cbn [snd].
  by rewrite list_lookup_fmap, lookup_seq_lt by done.
Qed.

Lemma fanout_length es : zlen es < 2 ^ 32 → length (fanout_of es) = 256%nat.
Proof. intros. unfold fanout_of. rewrite fanout_fold by done. done. Qed.

(** ** Rows of a fixed size *)
Section rows.
Context {A : Type} (row : A → bytes) (m : nat).
Hypothesis row_length : ∀ x, length (row x) = m.

Lemma length_rows l : length (concat (row <$> l)) = (length l * m)%nat.
Proof.
  induction l as [|x l IH]; [done|]. rewrite fmap_cons. cbn [concat length].
  rewrite length_app, IH, row_length. lia.
Qed.

Lemma rows_at l t i x :
  l !! i = Some x →
  ∃ t', drop (i * m) (concat (row <$> l) ++ t) = row x ++ t'.
Proof.
  revert i. induction l as [|y l IH]; intros [|i] Hi; try done;
    rewrite fmap_cons; cbn [concat]; rewrite <- app_assoc.
  - injection Hi as ->. by eexists.
  - destruct (IH i Hi) as [t' Ht']. exists t'. rewrite <- Ht'.
    rewrite drop_app_ge by (rewrite row_length; lia). f_equal. rewrite row_length. lia.
Qed.

Lemma slice_from_rows l t i x z :
  z = Z.of_nat (i * m) → l !! i = Some x →
  ∃ t', slice_from (concat (row <$> l) ++ t) z = Ok (row x ++ t').
Proof.
  intros -> Hi. destruct (rows_at l t i x Hi) as [t' Ht']. exists t'.
  assert (i * m ≤ length (concat (row <$> l) ++ t))%nat as Hle.
  { rewrite length_app, length_rows. apply lookup_lt_Some in Hi. nia. }
  unfold slice_from. rewrite slice_ok by lia. rewrite Nat2Z.id, Ht'. rewrite take_ge; [done|].
  rewrite <- Ht', length_drop. lia.
Qed.
End rows.

Lemma length_entry_bytes e : length (entry_bytes e) = 44%nat.
Proof. unfold entry_bytes. rewrite !length_app, !length_be_enc, length_kb. done. Qed.

Lemma slice_prefix (a t : bytes) n : n = zlen a → slice (a ++ t) 0 n = Ok a.
Proof. intros ->. by apply (slice_app3 [] a t). Qed.

Lemma be_at_rows n l t i x :
  Forall (λ x, 0 <= x < 256 ^ Z.of_nat n) l → l !! i = Some x →
  ∀ z, z = Z.of_nat (i * n) → be_at n (concat (be_enc n <$> l) ++ t) z = Ok x.
Proof.
  intros Hl Hi z ->. destruct (slice_from_rows (be_enc n) n (length_be_enc n) l t i x _ eq_refl Hi)
    as [t' Ht']. unfold be_at. rewrite Ht'. rsimpl.
  rewrite slice_prefix by (by rewrite length_be_enc). rsimpl.
  rewrite be_dec_enc_small; [done|]. rewrite Forall_forall in Hl. apply Hl.
  by eapply list_elem_of_lookup_2.
Qed.

(** ** The search *)
Lemma sort_Search_ext n f g : (∀ i, (i < n)%nat → f i = g i) → sort_Search n f = sort_Search n g.
Proof.
  intros Hfg. unfold sort_Search. generalize n at 1 3. intros fuel.
  assert (∀ fuel i j, (j ≤ n)%nat → search_loop fuel f i j = search_loop fuel g i j) as Hx.
  { clear fuel. induction fuel as [|fuel IH]; intros i j Hj; simpl; [done|].
    destruct (i <? j)%nat eqn:E; [|done].
    assert (Nat.div2 (i + j) < j)%nat.
    { rewrite Nat.div2_div. apply Nat.Div0.div_lt_upper_bound. lia. }
    rewrite Hfg by lia. destruct (g _) as [[]| | |]; simpl; try done; apply IH; lia. }
  by apply Hx.
Qed.

Lemma lookup_middle3 {A} (l l1 l2 l3 : list A) i x :
  l = l1 ++ l2 ++ l3 → l2 !! i = Some x → l !! (length l1 + i)%nat = Some x.
Proof.
  intros -> Hi. rewrite lookup_app_r by lia. replace (_ + _ - _)%nat with i by lia.
  rewrite lookup_app_l; [done|]. by eapply lookup_lt_Some.
Qed.

Definition keys_of (es : list indexEntry) : list Key := ie_k <$> es.

(** Where a parsed index finds a key: the position of its row. *)
Section search.
Context (es : list indexEntry).
Hypothesis rows_sorted : StronglySorted entry_le es.
Hypothesis rows_distinct : NoDup (keys_of es).
Hypothesis rows_few : zlen es < 2 ^ 32.

Let fanout := fanout_of es.
Let rows := concat (entry_bytes <$> es).

Lemma bucket_sorted b : StronglySorted bytes_lt ((λ e, kb (ie_k e)) <$> at_byte b es).
Proof.
  assert (∀ l, StronglySorted entry_le l → NoDup (keys_of l) →
            StronglySorted bytes_lt ((λ e, kb (ie_k e)) <$> at_byte b l)) as Hx; [|by apply Hx].
  unfold at_byte. induction 1 as [|e l Hs IH He]; intros Hnd; [constructor|].
  apply NoDup_cons in Hnd as [Hni Hnd]. rewrite Forall_forall in He.
  rewrite filter_cons. case_decide as Hb; [|by apply IH]. simpl. constructor; [by apply IH|].
  apply Forall_fmap, Forall_forall. intros e' (Hb' & He')%list_elem_of_filter. simpl.
  specialize (He e' He'). apply entry_le_spec in He as [?|[_ Hle]]; [lia|].
  apply bytes_le_lteq in Hle as [?|Heq]; [done|]. exfalso. apply Hni.
  apply Key_eq in Heq. rewrite Heq. by apply list_elem_of_fmap_2.
Qed.

Lemma row_slice i e : es !! i = Some e →
  (r ← slice_from rows (Z.of_nat i * indexEntrySize); slice r 0 32) = Ok (kb (ie_k e)) ∧
  (r ← slice_from rows (Z.of_nat i * indexEntrySize);
   ob ← slice r 32 40; sb ← slice r 40 44; Ok (be_dec ob, be_dec sb))
    = Ok (be_dec (be_enc 8 (ie_off e)), be_dec (be_enc 4 (ie_slen e))).
Proof.
  intros Hi.
  destruct (slice_from_rows entry_bytes 44 length_entry_bytes es [] i e
              (Z.of_nat i * indexEntrySize)) as [t Ht]; [unfold indexEntrySize; lia|done|].
  rewrite app_nil_r in Ht. fold rows in Ht. rewrite Ht. rsimpl. unfold entry_bytes.
  pose proof (length_kb (ie_k e)) as Hk. split.
  - rewrite <- app_assoc. apply slice_prefix. lia.
  - rewrite <- !app_assoc.
    rewrite (slice_app3 (kb (ie_k e)) (be_enc 8 (ie_off e)) _ 32 40) by (rewrite ?length_be_enc; lia).
    rsimpl. rewrite app_assoc.
    rewrite (slice_app3 (kb (ie_k e) ++ be_enc 8 (ie_off e)) (be_enc 4 (ie_slen e)) _ 40 44)
      by (rewrite ?length_app, ?length_be_enc; lia). done.
Qed.

Lemma searchIndexPos_spec k :
  ∃ r, searchIndexPos fanout rows k = Ok r ∧
       match r with
       | Some pos => ∃ e, es !! pos = Some e ∧ ie_k e = k
       | None => k ∉ keys_of es
       end.
Proof.
  unfold searchIndexPos. set (b := last_byte k). pose proof (last_byte_range k) as Hb. fold b in Hb.
  assert ((if b >? 0 then index fanout (b - 1) else Ok 0) = Ok (zlen (below b es))) as ->.
  { case_if.
    - apply index_ok; [|lia]. unfold fanout. rewrite fanout_lookup by lia.
      by replace (Z.of_nat (Z.to_nat (b - 1)) + 1) with b by lia.
    - assert (b = 0) as -> by lia. by rewrite below_none. }
  rsimpl.
  assert (index fanout b = Ok (zlen (below (b + 1) es))) as ->.
  { apply index_ok; [|lia]. unfold fanout. rewrite fanout_lookup by lia.
    by rewrite Z2Nat.id by lia. }
  rsimpl. rewrite below_S.
  assert (Z.to_nat (u32 (zlen (below b es) + zlen (at_byte b es) - zlen (below b es)))
          = length (at_byte b es)) as ->.
  { pose proof (below_S b es). pose proof (below_le (b + 1) es).
    replace (_ + _ - _) with (zlen (at_byte b es)) by lia.
    unfold u32. rewrite Z.mod_small; lia. }
  destruct (rows_split b es rows_sorted) as (above & Hsplit & Habove).
  assert (∀ i e, at_byte b es !! i = Some e → es !! (length (below b es) + i)%nat = Some e) as Hat.
  { intros i e Hi. by apply (lookup_middle3 _ _ _ _ _ _ Hsplit). }
  destruct (sorted_search (λ e, kb (ie_k e)) (at_byte b es) (λ n, cmp_ge n (kb k)))
    as (l1 & l2 & Hl & Hsearch & H1 & H2); [apply bucket_sorted| |].
  { intros x y Hxy. rewrite !cmp_ge_true. intros Hx.
    apply bytes_le_lteq. left. by eapply bytes_le_lt_trans. }
  unfold search_list in Hsearch.
  erewrite sort_Search_ext; [rewrite Hsearch|].
  2:{ intros i [e Hi]%lookup_lt_is_Some_2. rewrite (index_ok _ _ e) by (rewrite ?Nat2Z.id; done || lia).
      replace (zlen (below b es) + Z.of_nat i) with (Z.of_nat (length (below b es) + i)) by lia.
      destruct (row_slice _ _ (Hat i e Hi)) as [Hr _].
      destruct (slice_from rows _); rsimpl; try done. simpl in Hr. by rewrite Hr. }
  rsimpl. rewrite Nat2Z.id.
  assert (∀ e, e ∈ es → ie_k e = k → e ∈ l2) as Hin.
  { intros e He Hk. assert (e ∈ at_byte b es) as Hbe.
    { apply list_elem_of_filter. split; [by rewrite Hk|done]. }
    rewrite Hl in Hbe. apply elem_of_app in Hbe as [Hbe|?]; [|done].
    rewrite Forall_forall in H1. specialize (H1 e Hbe). apply cmp_ge_false in H1.
    rewrite Hk in H1. by apply bytes_lt_irrefl in H1. }
  destruct l2 as [|e l2].
  { replace (_ <=? _)%nat with true by (rewrite Hl, app_nil_r; lia). eexists. split; [done|].
    intros (e & -> & He)%list_elem_of_fmap. by apply (Hin e) in He; [apply elem_of_nil in He|]. }
  replace (_ <=? _)%nat with false by (rewrite Hl, length_app; simpl; lia).
  assert (at_byte b es !! length l1 = Some e) as He by (rewrite Hl; by apply list_lookup_middle).
  pose proof (Hat _ _ He) as Hes. destruct (row_slice _ _ Hes) as [Hr _].
  destruct (slice_from rows _); try done. simpl in Hr. rsimpl. rewrite Hr. rsimpl.
  case_bool_decide as Hk; eexists; (split; [done|]).
  { exists e. split; [done|]. by apply Key_eq. }
  intros (e' & -> & He')%list_elem_of_fmap. pose proof (Hin e' He' eq_refl) as He2.
  apply elem_of_cons in He2 as [->|He2]; [done|].
  pose proof (bucket_sorted b) as Hs. rewrite Hl, fmap_app in Hs. simpl in Hs.
  apply StronglySorted_app_1_r, StronglySorted_inv in Hs as [_ Hs].
  rewrite Forall_fmap, Forall_forall in Hs. specialize (Hs e' He2). simpl in Hs.
  apply Forall_cons in H2 as [H2 _]. apply cmp_ge_true in H2.
  by apply (bytes_lt_irrefl (kb (ie_k e'))), (bytes_le_lt_trans _ (kb (ie_k e))).
Qed.
End search.

(** ** The index section round-trips *)
Lemma fanout_check_built es t n :
  zlen es < 2 ^ 32 → (n ≤ 256)%nat →
  foldR (fanout_check (concat (be_enc 4 <$> fanout_of es) ++ t)) (seq 0 n) ([], 0) =
    Ok ((λ i, zlen (below (Z.of_nat i + 1) es)) <$> seq 0 n, zlen (below (Z.of_nat n) es)).
Proof.
  intros Hlen. induction n as [|n IH]; intros Hn; [by rewrite below_none|].
  rewrite seq_S, foldR_app, IH by lia. rsimpl. cbn [foldR fanout_check].
  rewrite (be_at_rows 4 (fanout_of es) t n (zlen (below (Z.of_nat n + 1) es))).
  - rsimpl. pose proof (below_mono (Z.of_nat n) (Z.of_nat n + 1) es ltac:(lia)).
    replace (_ <? _) with false by lia. rsimpl. rewrite fmap_app.
    by replace (Z.of_nat (S n)) with (Z.of_nat n + 1) by lia.
  - apply Forall_lookup. intros i x Hi. pose proof (lookup_lt_Some _ _ _ Hi) as Hi'.
    rewrite fanout_length in Hi' by done. rewrite fanout_lookup in Hi by done.
    injection Hi as <-. pose proof (below_le (Z.of_nat i + 1) es). lia.
  - by apply fanout_lookup.
  - lia.
Qed.

Lemma merge_sort_length es : zlen (merge_sort entry_le es) = zlen es.
Proof. by rewrite (Permutation_length (merge_sort_Permutation entry_le es)). Qed.

Lemma length_index es : zlen es < 2 ^ 32 →
  zlen (buildIndexSection es) = fanoutSize + zlen es * indexEntrySize.
Proof.
  intros Hlen. unfold buildIndexSection, fanoutSize, indexEntrySize.
  pose proof (merge_sort_length es) as Hl.
  rewrite length_app, (length_rows (be_enc 4) 4 (length_be_enc 4)),
    (length_rows entry_bytes 44 length_entry_bytes), fanout_length by lia. lia.
Qed.

Lemma parse_build_index es :
  zlen es < 2 ^ 32 →
  parseIndexSection (buildIndexSection es) (zlen es) =
    Ok (fanout_of (merge_sort entry_le es), concat (entry_bytes <$> merge_sort entry_le es)).
Proof.
  intros Hlen. pose proof (length_index es Hlen) as Hidx. pose proof (merge_sort_length es) as Hl.
  unfold parseIndexSection. replace (zlen es >? 2 ^ 32 - 1) with false by lia.
  assert (u64 (fanoutSize + u64 (zlen es * indexEntrySize)) = fanoutSize + zlen es * indexEntrySize) as ->.
  { unfold u64, fanoutSize, indexEntrySize. rewrite (Z.mod_small (zlen es * _)) by lia.
    apply Z.mod_small. lia. }
  rewrite Hidx, Z.eqb_refl. simpl negb. cbv iota.
  set (s := merge_sort entry_le es) in *. change (buildIndexSection es) with
    (concat (be_enc 4 <$> fanout_of s) ++ concat (entry_bytes <$> s)).
  rewrite fanout_check_built by lia. rsimpl.
  assert ((λ i, zlen (below (Z.of_nat i + 1) s)) <$> seq 0 256 = fanout_of s) as ->.
  { unfold fanout_of. by rewrite fanout_fold by lia. }
  rewrite (index_ok _ _ (zlen s)); [|rewrite fanout_lookup by lia; by rewrite below_all|done].
  rsimpl. replace (zlen s =? zlen es) with true by lia. simpl negb. cbv iota.
  rewrite slice_from_app; [done|].
  rewrite (length_rows (be_enc 4) 4 (length_be_enc 4)), fanout_length by lia. done.
Qed.

(** What a lookup in an index promises: the row of the key. *)
Definition index_find (es : list indexEntry) (k : Key) : option (Z * Z) :=
  match list_find (λ e, ie_k e = k) es with
  | Some (_, e) => Some (ie_off e, ie_slen e)
  | None => None
  end.

Definition entry_ok (e : indexEntry) : Prop := is_u64 (ie_off e) ∧ is_u32 (ie_slen e).

Lemma index_find_None es k : k ∉ keys_of es → index_find es k = None.
Proof.
  intros Hk. unfold index_find. rewrite (proj2 (list_find_None _ _)); [done|].
  apply Forall_forall. intros e He <-. apply Hk. by apply list_elem_of_fmap_2.
Qed.

Lemma index_find_Some es e :
  NoDup (keys_of es) → e ∈ es → index_find es (ie_k e) = Some (ie_off e, ie_slen e).
Proof.
  intros Hnd He. unfold index_find. destruct (list_find _ es) as [[i e']|] eqn:Ef.
  - apply list_find_Some in Ef as (Hi & Hk & _). apply list_elem_of_lookup in He as [j Hj].
    assert (i = j) as ->; [|congruence].
    apply (NoDup_lookup (keys_of es) i j (ie_k e)); [done|..]; unfold keys_of;
      rewrite list_lookup_fmap, ?Hi, ?Hj; simpl; congruence.
  - apply list_find_None in Ef. rewrite Forall_forall in Ef. by destruct (Ef e He).
Qed.

Lemma searchIndex_built es k :
  NoDup (keys_of es) → zlen es < 2 ^ 32 → Forall entry_ok es →
  searchIndex (fanout_of (merge_sort entry_le es))
    (concat (entry_bytes <$> merge_sort entry_le es)) k = Ok (index_find es k).
Proof.
  intros Hnd Hlen Hok. set (s := merge_sort entry_le es).
  assert (s ≡ₚ es) as Hperm by apply merge_sort_Permutation.
  assert (NoDup (keys_of s)) as Hnds by (unfold keys_of; by rewrite Hperm).
  assert (zlen s < 2 ^ 32) as Hlens by (rewrite Hperm; done).
  unfold searchIndex.
  destruct (searchIndexPos_spec s (sorted_rows es) Hnds Hlens k) as (r & -> & Hr). rsimpl.
  destruct r as [pos|].
  - destruct Hr as (e & He & <-). destruct (row_slice s pos e He) as [_ Hs].
    assert (e ∈ es) as Hin by (rewrite <- Hperm; by eapply list_elem_of_lookup_2).
    rewrite Forall_forall in Hok. destruct (Hok e Hin) as [Ho Hsl].
    rewrite (be_dec_enc_small 8), (be_dec_enc_small 4) in Hs by done.
    destruct (slice_from _ _); try done. simpl in Hs. rsimpl.
    destruct (slice _ 32 40); try done. rsimpl. simpl in Hs.
    destruct (slice _ 40 44); try done. rsimpl. simpl in Hs. simplify_eq.
    rewrite index_find_Some by done. congruence.
  - rewrite index_find_None; [done|]. unfold keys_of. by rewrite <- Hperm.
Qed.

(** ** Fields at fixed offsets *)
Lemma slice_piece (ps : list bytes) (t b : bytes) i p lo hi :
  b = concat ps ++ t → ps !! i = Some p →
  lo = zlen (concat (take i ps)) → hi = lo + zlen p → slice b lo hi = Ok p.
Proof.
  intros -> Hi -> ->. rewrite <- (take_drop_middle ps i p Hi) at 1.
  rewrite concat_app, <- app_assoc. cbn [concat]. rewrite <- app_assoc. by apply slice_app3.
Qed.

Lemma be_at_after n (a b : bytes) z : 0 <= z → be_at n (a ++ b) (zlen a + z) = be_at n b z.
Proof.
  intros Hz. unfold be_at. assert (slice_from (a ++ b) (zlen a + z) = slice_from b z) as ->; [|done].
  unfold slice_from, slice. rewrite length_app.
  replace (0 <=? zlen a + z) with (0 <=? z) by lia.
  replace (zlen a + z <=? Z.of_nat (length a + length b)) with (z <=? zlen b) by lia.
  rewrite !Z.leb_refl. destruct ((0 <=? z) && (z <=? zlen b)) eqn:E; simpl; [|done].
  rewrite drop_app_ge by lia. do 3 f_equal; lia.
Qed.

(** Prove a slice of a concatenation of pieces of known length. *)
Ltac piece ps t i :=
  eapply (slice_piece ps t _ i);
  [cbn [concat]; rewrite ?app_nil_r, <- ?app_assoc; reflexivity
  |reflexivity
  |cbn [take concat firstn]; rewrite ?length_app, ?length_be_enc, ?length_app; reflexivity
  |rewrite ?length_be_enc; reflexivity].

Section filter_facts.
Context `{Fuse}.

Definition fuse_header (f : BinaryFuse) : list bytes :=
  [[filterTypeBinaryFuse16]; be_enc 8 (Seed f); be_enc 4 (SegmentLength f);
   be_enc 4 (SegmentLengthMask f); be_enc 4 (SegmentCount f);
   be_enc 4 (SegmentCountLength f); be_enc 4 (u32 (zlen (Fingerprints f)))].

Definition fuse_bytes (f : BinaryFuse) : bytes :=
  concat (fuse_header f) ++ concat (be_enc 2 <$> Fingerprints f).

Lemma buildFilterSection_Ok es b :
  buildFilterSection es = Ok b →
  ∃ f, b = fuse_bytes f ∧ fuse_wf f ∧ geometry_ok f ∧
       ∀ e, e ∈ es → Contains f (filterKey (ie_k e)) = Ok true.
Proof.
  unfold buildFilterSection. intros (f & Hf%wrap_Ok & <-%Ok_inj)%bind_Ok. exists f.
  apply NewBinaryFuse_ok in Hf as (Hwf & Hg & Hc). split_and!; [|done|done|].
  { unfold fuse_bytes, fuse_header. cbn [concat]. by rewrite app_nil_r, <- !app_assoc. }
  intros e He. apply Hc.
  assert (∀ l x, x ∈ l → x ∈ compact l) as Hcompact.
  { induction l as [|y l IH]; [done|]. intros x Hx. simpl. destruct l as [|z l]; [done|].
    destruct (y =? z) eqn:E; [assert (y = z) as -> by lia|]; apply elem_of_cons in Hx as [->|Hx].
    - apply IH. set_solver.
    - by apply IH.
    - set_solver.
    - apply elem_of_cons. right. by apply IH. }
  apply Hcompact. rewrite merge_sort_Permutation. by apply (list_elem_of_fmap_2 (λ e, filterKey (ie_k e))).
Qed.

Lemma length_fuse_bytes f :
  zlen (fuse_bytes f) = filterHeaderSize + 2 * zlen (Fingerprints f).
Proof.
  unfold fuse_bytes, fuse_header, filterHeaderSize.
  rewrite length_app, (length_rows (be_enc 2) 2 (length_be_enc 2)). cbn [concat].
  rewrite !length_app, !length_be_enc. cbn [length]. lia.
Qed.

Lemma parse_fuse_bytes f :
  fuse_wf f → geometry_ok f → parseFilterSection (fuse_bytes f) = Ok f.
Proof.
  intros (Hseed & Hsl & Hsm & Hsc & Hscl & Hfc & Hfp) (G1 & G2 & G3 & G4 & G5 & G6).
  unfold parseFilterSection. pose proof (length_fuse_bytes f) as Hlen.
  unfold filterHeaderSize in *. replace (_ <? 29) with false by lia.
  set (t := concat (be_enc 2 <$> Fingerprints f)).
  assert (index (fuse_bytes f) 0 = Ok filterTypeBinaryFuse16) as -> by reflexivity.
  rsimpl. rewrite bool_decide_true by done. cbn [negb].
  assert (slice (fuse_bytes f) 25 29 = Ok (be_enc 4 (u32 (zlen (Fingerprints f))))) as ->
    by (piece (fuse_header f) t 6%nat).
  rsimpl. unfold is_u32, is_u64 in *. rewrite be4_u32 by lia.
  replace (zlen (fuse_bytes f) =? _) with true by lia. cbn [negb].
  assert (slice (fuse_bytes f) 9 13 = Ok (be_enc 4 (SegmentLength f))) as ->
    by (piece (fuse_header f) t 2%nat).
  assert (slice (fuse_bytes f) 13 17 = Ok (be_enc 4 (SegmentLengthMask f))) as ->
    by (piece (fuse_header f) t 3%nat).
  assert (slice (fuse_bytes f) 17 21 = Ok (be_enc 4 (SegmentCount f))) as ->
    by (piece (fuse_header f) t 4%nat).
  assert (slice (fuse_bytes f) 21 25 = Ok (be_enc 4 (SegmentCountLength f))) as ->
    by (piece (fuse_header f) t 5%nat).
  assert (slice (fuse_bytes f) 1 9 = Ok (be_enc 8 (Seed f))) as ->
    by (piece (fuse_header f) t 1%nat).
  rsimpl. rewrite !(be_dec_enc_small 4) by lia. rewrite (be_dec_enc_small 8) by lia.
  assert (u32 (SegmentLength f - 1) = SegmentLength f - 1) as -> by (apply Z.mod_small; lia).
  rewrite <- G5, G3, G4. replace (u64 (SegmentCountLength f)) with (SegmentCountLength f)
    by (symmetry; apply Z.mod_small; lia).
  rewrite <- G6. replace (u64 (zlen (Fingerprints f))) with (zlen (Fingerprints f))
    by (symmetry; apply Z.mod_small; lia).
  replace (SegmentCount f =? 0) with false by lia.
  replace (SegmentLength f =? 0) with false by lia. rewrite !Z.eqb_refl. cbn [negb orb].
  rewrite Nat2Z.id.
  assert (mapR (λ i, be_at 2 (fuse_bytes f) (29 + 2 * Z.of_nat i)) (seq 0 (length (Fingerprints f)))
          = Ok (Fingerprints f)) as ->; [|destruct f; simpl in *; by subst].
  apply mapR_Ok. apply Forall2_lookup. intros i.
  destruct (decide (i < length (Fingerprints f))%nat) as [Hi|Hi].
  - rewrite lookup_seq_lt by done. destruct (lookup_lt_is_Some_2 _ _ Hi) as [x Hx]. rewrite Hx.
    constructor. cbn [Nat.add].
    assert (29 + 2 * Z.of_nat i = zlen (concat (fuse_header f)) + Z.of_nat (i * 2)) as ->.
    { unfold fuse_header. cbn [concat]. rewrite !length_app, !length_be_enc. cbn [length]. lia. }
    unfold fuse_bytes. rewrite be_at_after by lia.
    rewrite <- (app_nil_r (concat (be_enc 2 <$> _))). by eapply (be_at_rows 2).
  - rewrite !lookup_ge_None_2 by (rewrite ?length_seq; lia). constructor.
Qed.
End filter_facts.

(** ** The footer round-trips *)
Section footer_facts.
Context `{Fuse}.

Definition trailer_pieces (io il fo fl kc bl crc : Z) : list bytes :=
  [be_enc 8 io; be_enc 8 il; be_enc 8 fo; be_enc 8 fl; be_enc 8 kc; be_enc 8 bl;
   be_enc 4 crc; zero4; magicTrailer].

Lemma length_trailer io il fo fl kc bl crc : length (trailer io il fo fl kc bl crc) = 64%nat.
Proof. unfold trailer. by rewrite !length_app, !length_be_enc. Qed.

(** The fields of a trailer. *)
Lemma trailer_slices io il fo fl kc bl crc :
  let tr := trailer io il fo fl kc bl crc in
  slice tr 0 8 = Ok (be_enc 8 io) ∧ slice tr 8 16 = Ok (be_enc 8 il) ∧
  slice tr 16 24 = Ok (be_enc 8 fo) ∧ slice tr 24 32 = Ok (be_enc 8 fl) ∧
  slice tr 32 40 = Ok (be_enc 8 kc) ∧ slice tr 40 48 = Ok (be_enc 8 bl) ∧
  slice tr 48 52 = Ok (be_enc 4 crc) ∧ slice tr 52 56 = Ok zero4 ∧
  slice tr 56 64 = Ok magicTrailer.
Proof.
  intros tr. subst tr. unfold trailer. set (ps := trailer_pieces io il fo fl kc bl crc).
  split_and!; [piece ps (@nil byte) 0%nat|piece ps (@nil byte) 1%nat|piece ps (@nil byte) 2%nat
    |piece ps (@nil byte) 3%nat|piece ps (@nil byte) 4%nat|piece ps (@nil byte) 5%nat
    |piece ps (@nil byte) 6%nat|piece ps (@nil byte) 7%nat|piece ps (@nil byte) 8%nat].
Qed.

(** The bytes the footer checksum covers: the seal marker, both sections and
    the first 48 bytes of the trailer. *)
Definition footer_crc_input (idx filt : bytes) (tr : Z → bytes) : bytes :=
  [tagSeal] ++ idx ++ filt ++ take 48 (tr 0).

Lemma trailer_take48 io il fo fl kc bl crc :
  take 48 (trailer io il fo fl kc bl crc) = take 48 (trailer io il fo fl kc bl 0).
Proof.
  assert (∀ c, trailer io il fo fl kc bl c =
    (be_enc 8 io ++ be_enc 8 il ++ be_enc 8 fo ++ be_enc 8 fl ++ be_enc 8 kc ++ be_enc 8 bl) ++
    (be_enc 4 c ++ zero4 ++ magicTrailer)) as Ht by (intros; unfold trailer; by rewrite <- !app_assoc).
  rewrite !Ht, !take_app_all; rewrite ?length_app, ?length_be_enc; done.
Qed.

Lemma take_minus16 (a tr : bytes) : length tr = 64%nat →
  take (length (a ++ tr) - 16) (a ++ tr) = a ++ take 48 tr.
Proof.
  intros Htr. rewrite length_app, take_app_ge by lia. do 2 f_equal. lia.
Qed.

(** The parts of a built footer. *)
Lemma buildFooter_Ok bodyLen es ft :
  buildFooter bodyLen es = Ok ft → 0 <= bodyLen < 2 ^ 63 →
  ∃ f idx, idx = buildIndexSection es ∧ es ≠ [] ∧
    fuse_wf f ∧ geometry_ok f ∧ (∀ e, e ∈ es → Contains f (filterKey (ie_k e)) = Ok true) ∧
    let tr := trailer (u64 (bodyLen + 1)) (zlen idx) (u64 (u64 (bodyLen + 1) + zlen idx))
                      (zlen (fuse_bytes f)) (zlen es) bodyLen in
    ft = [tagSeal] ++ idx ++ fuse_bytes f ++
         tr (crc32_Checksum ([tagSeal] ++ idx ++ fuse_bytes f ++ take 48 (tr 0))).
Proof.
  intros Hb Hbl. unfold buildFooter in Hb. destruct (length es =? 0)%nat eqn:E; [done|].
  apply bind_Ok in Hb as (filt & Hf & <-%Ok_inj).
  apply buildFilterSection_Ok in Hf as (f & -> & Hwf & Hg & Hc).
  exists f, (buildIndexSection es). split; [done|]. split; [by intros ->|].
  split; [exact Hwf|]. split; [exact Hg|]. split; [exact Hc|].
  assert (u64 bodyLen = bodyLen) as -> by (apply Z.mod_small; lia). cbv zeta.
  rewrite !(app_assoc _ (fuse_bytes f)), !(app_assoc [tagSeal]).
  rewrite take_minus16 by apply length_trailer. done.
Qed.

(** What parsing a segment gives when its footer was built over [es]. *)
Definition fv_built (fv : footerView) (bodyLen : Z) (es : list indexEntry) : Prop :=
  let s := merge_sort entry_le es in
  fv_fanout fv = fanout_of s ∧ fv_entries fv = concat (entry_bytes <$> s) ∧
  fv_keyCount fv = zlen es ∧ fv_bodyLen fv = bodyLen ∧ geometry_ok (fv_filter fv) ∧
  (∀ e, e ∈ es → Contains (fv_filter fv) (filterKey (ie_k e)) = Ok true).

Lemma slice_cut (b a m z : bytes) lo hi :
  b = a ++ m ++ z → lo = zlen a → hi = zlen a + zlen m → slice b lo hi = Ok m.
Proof. intros ->. apply slice_app3. Qed.

Lemma lookup_body (a z : bytes) x bl :
  bl = zlen a → (a ++ [x] ++ z) !! Z.to_nat bl = Some x.
Proof. intros ->. rewrite Nat2Z.id. by apply list_lookup_middle. Qed.

Lemma parse_build_footer body es ft :
  take 8 body = magicHeader → buildFooter (zlen body) es = Ok ft →
  zlen es < 2 ^ 32 → zlen (body ++ ft) < 2 ^ 63 →
  ∃ fv, parseFooter (body ++ ft) = Ok fv ∧ fv_built fv (zlen body) es.
Proof.
  intros Hmagic Hft Hes Hlen. rewrite length_app in Hlen.
  destruct (buildFooter_Ok (zlen body) es ft Hft) as (f & idx & Hidx & Hne & Hwf & Hg & Hc & Hfteq);
    [lia|].
  clear Hft. cbv zeta in Hfteq.
  set (F := fuse_bytes f) in *. set (bl := zlen body) in *.
  assert (bl = zlen body) as Hblz by done.
  assert (8 <= bl) as Hbl.
  { apply (f_equal length) in Hmagic. rewrite length_take in Hmagic.
    change (length magicHeader) with 8%nat in Hmagic. lia. }
  assert (zlen ft = 1 + zlen idx + zlen F + 64) as Hftl.
  { rewrite Hfteq, !length_app, length_trailer. simpl length. lia. }
  pose proof (length_index es Hes) as Hil. rewrite <- Hidx in Hil.
  pose proof (length_fuse_bytes f) as HFl. fold F in HFl.
  unfold fanoutSize, indexEntrySize, filterHeaderSize in *.
  assert (1 <= zlen es) as Hes1 by (destruct es; [done|simpl; lia]).
  assert (u64 (bl + 1) = bl + 1) as Hu1 by (apply Z.mod_small; lia).
  rewrite Hu1 in Hfteq.
  assert (u64 (bl + 1 + zlen idx) = bl + 1 + zlen idx) as Hu2 by (apply Z.mod_small; lia).
  rewrite Hu2 in Hfteq. set (crc := crc32_Checksum _) in Hfteq.
  assert (is_u32 crc) as Hcrc by (by apply crc32_Update_bound).
  set (tr := trailer _ _ _ _ _ _ crc) in *.
  assert (length tr = 64%nat) as Htrl by apply length_trailer.
  unfold parseFooter, minSegment, fanoutSize, indexEntrySize, filterHeaderSize, trailerSize.
  change (zlen magicHeader) with 8.
  replace (zlen (body ++ ft) <? _) with false by (rewrite length_app; lia).
  rewrite (slice_drop (body ++ ft) 0 8 0 8) by (rewrite ?length_app; lia).
  change (drop 0 (body ++ ft)) with (body ++ ft). rewrite take_app_le by lia. rsimpl.
  rewrite Hmagic, bool_decide_true by done. cbn [negb].
  assert (slice_from (body ++ ft) (zlen (body ++ ft) - 64) = Ok tr) as ->.
  { rewrite Hfteq. rewrite (app_assoc [tagSeal]), (app_assoc ([tagSeal] ++ idx)), (app_assoc body).
    apply slice_from_app. rewrite !length_app, Htrl. simpl length. lia. }
  rsimpl.
  destruct (trailer_slices (bl + 1) (zlen idx) (bl + 1 + zlen idx) (zlen F) (zlen es) bl crc)
    as (S1 & S2 & S3 & S4 & S5 & S6 & S7 & S8 & S9). fold tr in S1, S2, S3, S4, S5, S6, S7, S8, S9.
  rewrite S9. rsimpl. rewrite bool_decide_true by done. cbn [negb].
  rewrite S8. rsimpl. change (be_dec zero4 =? 0) with true. cbn [negb].
  rewrite S1, S2, S3, S4, S5, S6. rsimpl.
  rewrite !(be_dec_enc_small 8) by lia.
  assert (u64 (zlen (body ++ ft)) = bl + zlen ft) as ->.
  { rewrite length_app. unfold u64. rewrite Z.mod_small; lia. }
  assert (u64 (bl + zlen ft - 64) = bl + zlen ft - 64) as -> by (apply Z.mod_small; lia).
  assert (u64 (bl + zlen ft - 16) = bl + zlen ft - 16) as -> by (apply Z.mod_small; lia).
  assert (u64 (256 * 4 + u64 (zlen es * (32 + 8 + 4))) = zlen idx) as ->.
  { unfold u64. rewrite (Z.mod_small (zlen es * _)), Z.mod_small; lia. }
  rewrite Hu1, Hu2.
  replace (u64 (bl + zlen ft - 64 - (bl + 1 + zlen idx))) with (zlen F)
    by (symmetry; unfold u64; rewrite Z.mod_small; lia).
  rewrite !Z.eqb_refl. cbn [negb orb].
  replace ((bl <? 8) || (bl >=? bl + zlen ft) || (zlen es >? 2 ^ 32 - 1) || false || false || false
           || (bl + 1 + zlen idx >? bl + zlen ft - 64) || false) with false by lia.
  assert (body ++ ft = body ++ ([tagSeal] ++ idx ++ F ++ take 48 tr) ++ drop 48 tr) as Hmm.
  { rewrite Hfteq, <- (take_drop 48 tr) at 1. by rewrite <- !app_assoc. }
  rewrite (slice_cut (body ++ ft) _ _ _ bl (bl + zlen ft - 16) Hmm);
    [|lia|rewrite !length_app, length_take, Htrl; cbn [length]; lia]. rsimpl.
  rewrite S7. rsimpl. rewrite (be_dec_enc_small 4) by exact Hcrc.
  unfold tr at 1. rewrite trailer_take48. fold crc. rewrite Z.eqb_refl. cbn [negb].
  rewrite (index_ok (body ++ ft) bl tagSeal); [|rewrite Hfteq; apply lookup_body; lia|lia].
  rsimpl. rewrite bool_decide_true by done. cbn [negb].
  assert (body ++ ft = (body ++ [tagSeal]) ++ idx ++ (F ++ tr)) as Hmi
    by (rewrite Hfteq; by rewrite <- !app_assoc).
  rewrite (slice_cut (body ++ ft) _ _ _ (bl + 1) (bl + 1 + zlen idx) Hmi)
    by (rewrite ?length_app; simpl length; lia). rsimpl.
  assert (parseIndexSection idx (zlen es) = Ok (fanout_of (merge_sort entry_le es),
            concat (entry_bytes <$> merge_sort entry_le es))) as ->
    by (rewrite Hidx; by apply parse_build_index). rsimpl.
  assert (body ++ ft = ((body ++ [tagSeal]) ++ idx) ++ F ++ tr) as Hmf
    by (rewrite Hfteq; by rewrite <- !app_assoc).
  assert (u64 (bl + 1 + zlen idx + zlen F) = bl + 1 + zlen idx + zlen F) as ->
    by (apply Z.mod_small; lia).
  rewrite (slice_cut (body ++ ft) _ _ _ (bl + 1 + zlen idx) (bl + 1 + zlen idx + zlen F) Hmf)
    by (rewrite ?length_app; simpl length; lia). rsimpl.
  unfold F. rewrite (parse_fuse_bytes f) by done. rsimpl.
  eexists. split; [done|]. split_and!; done.
Qed.
End footer_facts.

(** ** Sealed segments built by this code *)
Section sealed_facts.
Context `{Fuse} `{Zstd}.

Definition sealed_over (g : sealedSegment) (bodyLen : Z) (es : list indexEntry) : Prop :=
  fv_built (sg_fv g) bodyLen es ∧ NoDup (keys_of es) ∧ zlen es < 2 ^ 32 ∧ Forall entry_ok es.

Lemma sg_find_built g bodyLen es k :
  sealed_over g bodyLen es → sg_find g k = Ok (index_find es k).
Proof.
  intros ((Hfan & Hent & _ & _ & Hg & Hc) & Hnd & Hlen & Hok). unfold sg_find, fv_lookup.
  destruct (proj1 (is_ok_true _) (Contains_ok (fv_filter (sg_fv g)) (filterKey k) Hg)) as [c Hcont].
  rewrite Hcont. rsimpl. destruct c; cbn [negb].
  - rewrite Hfan, Hent. by apply searchIndex_built.
  - rewrite index_find_None; [done|]. intros (e & -> & He)%list_elem_of_fmap.
    rewrite (Hc e He) in Hcont. congruence.
Qed.

(** The record of a key that the segment's body holds. *)
Lemma sg_reads_built g bodyLen es k off r :
  sealed_over g bodyLen es → index_find es k = Some (off, Slen r) →
  8 <= off → off + RecHeaderSize + Slen r <= bodyLen → bodyLen < 2 ^ 63 →
  bodyLen <= zlen (sg_mm g) → record_at (drop (Z.to_nat off) (sg_mm g)) r →
  let rec := take (rec_size r) (drop (Z.to_nat off) (sg_mm g)) in
  sg_getRecord g k = Ok (Some rec) ∧
  sg_get g k = data ← wrap "%s" (DecodePayload (Flags r) (Ulen r) (drop 46 rec)); Ok (Some data).
Proof.
  intros Hg Hf Hoff Hend Hbl Hmm Hat rec. pose proof Hg as ((_ & _ & _ & Hb & _) & _).
  pose proof Hat as (_ & _ & Hflags & _ & Hul & Hsl & _).
  pose proof (be4_range (drop (Z.to_nat off) (sg_mm g)) 38) as Hr. rewrite <- Hsl in Hr.
  unfold RecHeaderSize in *.
  assert (sg_in_bounds g off (Slen r) = true) as Hib.
  { unfold sg_in_bounds, RecHeaderSize. rewrite Hb. change (zlen magicHeader) with 8.
    unfold u64. rewrite Z.mod_small by lia. lia. }
  unfold sg_getRecord, sg_get. rewrite (sg_find_built g bodyLen es k Hg), Hf. rsimpl.
  rewrite Hib. cbn [negb]. unfold RecHeaderSize.
  rewrite (slice_drop (sg_mm g) (Z.to_nat off) (rec_size r) off (off + 46 + Slen r))
    by (unfold rec_size, RecHeaderSize; lia).
  split; [done|].
  rewrite (slice_drop (sg_mm g) (Z.to_nat off) 46 off (off + 46)) by lia. rsimpl.
  set (d := drop (Z.to_nat off) (sg_mm g)) in *.
  rewrite (index_ok _ _ (Flags r)); [|rewrite lookup_take_lt by lia; done|lia]. rsimpl.
  assert (46 ≤ length d)%nat as Hd by (unfold d; rewrite length_drop; lia).
  rewrite (slice_drop (take 46 d) 34 4 34 38) by (rewrite ?length_take; lia). rsimpl.
  rewrite <- (field_take d 34 4 46), <- Hul by lia.
  rewrite (slice_drop (sg_mm g) (Z.to_nat off + 46) (Z.to_nat (Slen r)) (off + 46) (off + 46 + Slen r)) by lia. rsimpl.
  assert (take (Z.to_nat (Slen r)) (drop (Z.to_nat off + 46) (sg_mm g)) = drop 46 rec) as ->; [|done].
  unfold rec, rec_size, RecHeaderSize. rewrite skipn_firstn_comm. subst d. rewrite drop_drop.
  f_equal. lia.
Qed.
End sealed_facts.

(** ** Arbitrary files *)
Section total.
Context `{Fuse} `{Zstd}.

(** What a parsed index guarantees its readers. *)
Definition index_wf (fanout : list Z) (entries : bytes) : Prop :=
  length fanout = 256%nat ∧
  (∀ i j x y, (i ≤ j)%nat → fanout !! i = Some x → fanout !! j = Some y → 0 <= x <= y) ∧
  (∀ i x, fanout !! i = Some x → x * indexEntrySize <= zlen entries ∧ x < 2 ^ 32).

Lemma be_at_safe n b o : 0 <= o → o + Z.of_nat n <= zlen b → safe (be_at n b o).
Proof.
  intros. unfold be_at, slice_from. rewrite slice_ok by lia. rsimpl.
  rewrite slice_ok by (rewrite ?length_take, ?length_drop; lia). by split.
Qed.

Lemma be_at_range b o x : be_at 4 b o = Ok x → 0 <= x < 2 ^ 32.
Proof.
  unfold be_at. intros (s & _ & (w & Hw & <-%Ok_inj)%bind_Ok)%bind_Ok.
  apply slice_length in Hw. pose proof (be_dec_bound w) as Hb. rewrite Hw in Hb. exact Hb.
Qed.

(** The fanout read so far, and its last value. *)
Definition fanout_read (st : list Z * Z) (n : nat) : Prop :=
  length st.1 = n ∧ 0 <= st.2 < 2 ^ 32 ∧ (∀ i x, st.1 !! i = Some x → 0 <= x <= st.2) ∧
  (∀ i j x y, (i ≤ j)%nat → st.1 !! i = Some x → st.1 !! j = Some y → x <= y) ∧
  (st.1 ≠ [] → last st.1 = Some st.2).

Lemma fanout_check_total b n :
  (n ≤ 256)%nat → fanoutSize <= zlen b →
  safe (foldR (fanout_check b) (seq 0 n) ([], 0)) ∧
  ∀ st, foldR (fanout_check b) (seq 0 n) ([], 0) = Ok st → fanout_read st n.
Proof.
  unfold fanoutSize. intros Hn Hb. induction n as [|n IH].
  { split; [by split|]. intros st [= <-]. by split_and!. }
  destruct IH as [IHs IHr]; [lia|]. rewrite seq_S, foldR_app. cbn [foldR Nat.add].
  split.
  - apply safe_bind; [done|]. intros [l prev] _. apply safe_bind; [|done].
    apply safe_bind; [apply be_at_safe; lia|]. intros x _. case_if; by split.
  - intros st ([l prev] & Hst & Hone)%bind_Ok. apply IHr in Hst as (H1 & H2 & H3 & H4 & _).
    cbn [fst snd] in *. apply bind_Ok in Hone as (st' & Hone & <-%Ok_inj).
    unfold fanout_check in Hone. apply bind_Ok in Hone as (x & Hx%be_at_range & Hone).
    destruct (x <? prev) eqn:E; [done|]. apply Ok_inj in Hone as <-.
    assert (∀ i y, (l ++ [x]) !! i = Some y → 0 <= y <= x) as Hall.
    { intros i y [Hi|[_ Hi]]%lookup_app_Some; [specialize (H3 i y Hi); lia|].
      apply list_lookup_singleton_Some in Hi as [_ ->]. lia. }
    split_and!; cbn [fst snd]; [rewrite length_app; simpl; lia|lia|lia|done| |by rewrite last_snoc].
    intros i j y z Hij Hi Hj. apply lookup_app_Some in Hj as [Hj|[Hj Hz]].
    + rewrite lookup_app_l in Hi by (apply lookup_lt_Some in Hj; lia). by eapply (H4 i j).
    + apply list_lookup_singleton_Some in Hz as [_ ->]. by apply (Hall i).
Qed.

Lemma parseIndexSection_total b kc :
  0 <= kc → safe (parseIndexSection b kc) ∧
  ∀ fanout entries, parseIndexSection b kc = Ok (fanout, entries) → index_wf fanout entries.
Proof.
  intros Hkc. unfold parseIndexSection. case_if; [by split; [split|]|].
  assert (u64 (fanoutSize + u64 (kc * indexEntrySize)) = fanoutSize + kc * indexEntrySize) as ->.
  { unfold u64, fanoutSize, indexEntrySize. rewrite (Z.mod_small (kc * _)) by lia.
    apply Z.mod_small. lia. }
  case_if; [by split; [split|]|]. destruct_bool.
  assert (fanoutSize <= zlen b) as Hb by (unfold fanoutSize, indexEntrySize in *; lia).
  destruct (fanout_check_total b 256 ltac:(lia) Hb) as [Hs Hr].
  destruct (foldR _ _ _) as [[l prev]|e| |] eqn:E; rsimpl;
    [|by split; [split|]|by destruct Hs|by destruct Hs].
  destruct (Hr _ eq_refl) as (H1 & H2 & H3 & H4 & H5). cbn [fst snd] in *.
  assert (l !! 255%nat = Some prev) as Hlast.
  { rewrite <- H5, last_lookup, H1; [done|]. by intros ->. }
  rewrite (index_ok l 255 prev) by done. rsimpl.
  case_if; [by split; [split|]|]. destruct_bool.
  unfold slice_from. rewrite slice_ok by (unfold fanoutSize in *; lia). rsimpl.
  split; [by split|]. intros fanout entries [= <- <-]. split_and!; [done| |].
  - intros i j x y Hij Hi Hj. specialize (H3 i x Hi). specialize (H4 i j x y Hij Hi Hj). lia.
  - intros i x Hi. specialize (H3 i x Hi). rewrite length_take, length_drop.
    unfold fanoutSize, indexEntrySize in *. lia.
Qed.

Lemma searchIndexPos_total fanout entries k :
  index_wf fanout entries →
  safe (searchIndexPos fanout entries k) ∧
  ∀ pos, searchIndexPos fanout entries k = Ok (Some pos) →
         (Z.of_nat pos + 1) * indexEntrySize <= zlen entries.
Proof.
  intros (Hlen & Hmono & Hmax). unfold searchIndexPos. pose proof (last_byte_range k) as Hb.
  set (b := last_byte k) in *.
  destruct (lookup_lt_is_Some_2 fanout (Z.to_nat b)) as [hi Hhi]; [lia|].
  assert (∃ lo, (if b >? 0 then index fanout (b - 1) else Ok 0) = Ok lo ∧ 0 <= lo <= hi) as (lo & -> & Hlo).
  { destruct (b >? 0) eqn:E.
    - destruct (lookup_lt_is_Some_2 fanout (Z.to_nat (b - 1))) as [lo Hlo]; [lia|].
      exists lo. split; [by apply index_ok; [|lia]|].
      apply (Hmono (Z.to_nat (b - 1)) (Z.to_nat b)); [lia|done..].
    - exists 0. split; [done|]. specialize (Hmono _ _ _ _ (Nat.le_refl _) Hhi Hhi). lia. }
  rsimpl. rewrite (index_ok _ _ hi) by (done || lia). rsimpl.
  destruct (Hmax _ _ Hhi) as [Hm H32].
  assert (u32 (hi - lo) = hi - lo) as -> by (apply Z.mod_small; lia).
  unfold indexEntrySize in *.
  assert (∀ p, 0 <= p < hi → ∃ e, slice_from entries (p * (32 + 8 + 4)) = Ok e ∧ 32 <= zlen e) as Hrow.
  { intros p Hp. unfold slice_from. rewrite slice_ok by lia. eexists. split; [done|].
    rewrite length_take, length_drop. lia. }
  destruct (sort_Search_safe (Z.to_nat (hi - lo)) (λ i,
      e ← slice_from entries ((lo + Z.of_nat i) * (32 + 8 + 4));
      ek ← slice e 0 32; Ok (cmp_ge ek (kb k)))) as [Hsafe Hle].
  { intros i Hi. destruct (Hrow (lo + Z.of_nat i)) as (e & -> & He); [lia|]. rsimpl.
    rewrite slice_ok by lia. by split. }
  destruct (sort_Search _ _) as [i|e| |] eqn:E; rsimpl;
    [|by split; [split|]|by destruct Hsafe|by destruct Hsafe].
  case_if; [by split; [split|]|]. specialize (Hle i eq_refl).
  destruct (Hrow (Z.of_nat (Z.to_nat lo + i))) as (e & -> & He); [lia|]. rsimpl.
  rewrite slice_ok by lia. rsimpl. case_bool_decide; (split; [by split|]); [|done].
  intros pos [= <-]. lia.
Qed.

Lemma searchIndex_total fanout entries k :
  index_wf fanout entries →
  safe (searchIndex fanout entries k) ∧
  ∀ off slen, searchIndex fanout entries k = Ok (Some (off, slen)) → 0 <= off ∧ 0 <= slen < 2 ^ 32.
Proof.
  intros Hwf. unfold searchIndex. destruct (searchIndexPos_total _ _ k Hwf) as [Hs Hp].
  destruct (searchIndexPos _ _ _) as [[pos|]|e| |]; rsimpl;
    [|by split; [split|]|by split; [split|]|by destruct Hs|by destruct Hs].
  specialize (Hp pos eq_refl). unfold indexEntrySize in *.
  unfold slice_from. rewrite slice_ok by lia. rsimpl.
  set (e := take _ _). assert (44 <= zlen e) as He.
  { unfold e. rewrite length_take, length_drop. lia. }
  rewrite !slice_ok by lia. rsimpl. split; [by split|].
  intros off slen [= <- <-]. split; [apply be_dec_bound|apply be4_range].
Qed.

Lemma parseFilterSection_total b :
  safe (parseFilterSection b) ∧ ∀ f, parseFilterSection b = Ok f → geometry_ok f.
Proof.
  unfold parseFilterSection. case_if; [by split; [split|]|]. unfold filterHeaderSize in *.
  destruct (lookup_lt_is_Some_2 b 0) as [t Ht]; [lia|].
  rewrite (index_ok b 0 t) by done. rsimpl. case_if; [by split; [split|]|].
  rewrite (slice_drop b 25 4 25 29) by lia. rsimpl. cbv zeta.
  pose proof (be4_range b 25) as Hr. set (fpc := be_dec (take 4 (drop 25 b))) in *.
  case_if; [by split; [split|]|]. destruct_bool.
  rewrite (slice_drop b 9 4 9 13), (slice_drop b 13 4 13 17), (slice_drop b 17 4 17 21),
    (slice_drop b 21 4 21 25), (slice_drop b 1 8 1 9) by lia. rsimpl.
  pose proof (be4_range b 9) as R9. pose proof (be4_range b 13) as R13.
  pose proof (be4_range b 17) as R17. pose proof (be4_range b 21) as R21.
  set (sl := be_dec (take 4 (drop 9 b))) in *. set (sm := be_dec (take 4 (drop 13 b))) in *.
  set (sc := be_dec (take 4 (drop 17 b))) in *. set (scl := be_dec (take 4 (drop 21 b))) in *.
  case_if; [by split; [split|]|]. case_if; [by split; [split|]|]. destruct_bool.
  assert (u32 (sl - 1) = sl - 1) as Hu by (apply Z.mod_small; lia). rewrite Hu in *.
  assert (u64 (sc * sl) = sc * sl) as Hu2 by (apply Z.mod_small; nia). rewrite Hu2 in *.
  assert (u64 (scl + 2 * sl) = scl + 2 * sl) as Hu3 by (apply Z.mod_small; lia). rewrite Hu3 in *.
  split.
  - apply safe_bind; [|done]. apply mapR_safe. intros i [_ Hi]%elem_of_seq. apply be_at_safe; lia.
  - intros f (fps & Hfps%mapR_length & <-%Ok_inj)%bind_Ok. rewrite length_seq in Hfps.
    unfold geometry_ok. cbn [SegmentCount SegmentLength SegmentLengthMask SegmentCountLength Fingerprints].
    split_and!; try lia.
Qed.

(** What a parsed footer guarantees its readers. *)
Definition fv_wf (mm : bytes) (fv : footerView) : Prop :=
  index_wf (fv_fanout fv) (fv_entries fv) ∧ geometry_ok (fv_filter fv) ∧
  8 <= fv_bodyLen fv < zlen mm.

Lemma be8_range b n : 0 <= be_dec (take 8 (drop n b)) < 2 ^ 64.
Proof.
  pose proof (be_dec_bound (take 8 (drop n b))) as [? Hlt]. split; [done|].
  eapply Z.lt_le_trans; [exact Hlt|]. change (2 ^ 64) with (256 ^ 8).
  apply Z.pow_le_mono_r; [lia|]. rewrite length_take. lia.
Qed.

Lemma parseFooter_total mm :
  zlen mm < 2 ^ 63 →
  safe (parseFooter mm) ∧ ∀ fv, parseFooter mm = Ok fv → fv_wf mm fv.
Proof.
  intros Hmm. unfold parseFooter. case_if; [by split; [split|]|].
  unfold minSegment, fanoutSize, indexEntrySize, filterHeaderSize, trailerSize in *.
  change (zlen magicHeader) with 8 in *. rewrite slice_ok by lia. rsimpl.
  case_if; [by split; [split|]|].
  unfold slice_from. rewrite slice_ok by lia. rsimpl. set (tr := take _ _).
  assert (length tr = 64%nat) as Htr by (unfold tr; rewrite length_take, length_drop; lia).
  rewrite (slice_drop tr 56 8 56 64) by lia. rsimpl. case_if; [by split; [split|]|].
  rewrite (slice_drop tr 52 4 52 56) by lia. rsimpl. case_if; [by split; [split|]|].
  rewrite (slice_drop tr 0 8 0 8), (slice_drop tr 8 8 8 16), (slice_drop tr 16 8 16 24),
    (slice_drop tr 24 8 24 32), (slice_drop tr 32 8 32 40), (slice_drop tr 40 8 40 48) by lia.
  rsimpl.
  pose proof (be8_range tr 32) as Rkc. pose proof (be8_range tr 40) as Rbl.
  pose proof (be8_range tr 24) as Rfl.
  set (io := be_dec (take 8 (drop 0 tr))). set (il := be_dec (take 8 (drop 8 tr))).
  set (fo := be_dec (take 8 (drop 16 tr))). set (fl := be_dec (take 8 (drop 24 tr))) in *.
  set (kc := be_dec (take 8 (drop 32 tr))) in *. set (bl := be_dec (take 8 (drop 40 tr))) in *.
  assert (u64 (zlen mm) = zlen mm) as -> by (apply Z.mod_small; lia).
  assert (u64 (zlen mm - 64) = zlen mm - 64) as -> by (apply Z.mod_small; lia).
  assert (u64 (zlen mm - 16) = zlen mm - 16) as -> by (apply Z.mod_small; lia).
  case_if; [by split; [split|]|]. destruct_bool.
  assert (u64 (bl + 1) = bl + 1) as Hu1 by (apply Z.mod_small; lia). rewrite Hu1 in *.
  assert (u64 (256 * 4 + u64 (kc * (32 + 8 + 4))) = 256 * 4 + kc * (32 + 8 + 4)) as Hu2.
  { unfold u64. rewrite (Z.mod_small (kc * _)), Z.mod_small; lia. }
  rewrite Hu2 in *.
  assert (u64 (io + il) = io + il) as Hu3 by (apply Z.mod_small; lia). rewrite Hu3 in *.
  assert (u64 (zlen mm - 64 - fo) = zlen mm - 64 - fo) as Hu4 by (apply Z.mod_small; lia).
  rewrite Hu4 in *.
  rewrite (slice_ok mm bl (zlen mm - 16)) by lia. rsimpl.
  rewrite (slice_drop tr 48 4 48 52) by lia. rsimpl.
  case_if; [by split; [split|]|].
  destruct (lookup_lt_is_Some_2 mm (Z.to_nat bl)) as [t Ht]; [lia|].
  rewrite (index_ok mm bl t) by (done || lia). rsimpl. case_if; [by split; [split|]|].
  rewrite (slice_ok mm io (io + il)) by lia. rsimpl. set (ib := take _ _).
  destruct (parseIndexSection_total ib kc ltac:(lia)) as [Hs Hi].
  destruct (parseIndexSection ib kc) as [[fanout entries]|e| |]; rsimpl;
    [|by split; [split|]|by destruct Hs|by destruct Hs].
  specialize (Hi _ _ eq_refl).
  assert (u64 (fo + fl) = fo + fl) as -> by (apply Z.mod_small; lia).
  rewrite (slice_ok mm fo (fo + fl)) by lia. rsimpl. set (fb := take _ _).
  destruct (parseFilterSection_total fb) as [Hsf Hf].
  destruct (parseFilterSection fb) as [f|e| |]; rsimpl;
    [|by split; [split|]|by destruct Hsf|by destruct Hsf].
  split; [by split|]. intros fv <-%Ok_inj. split_and!; [exact Hi|by apply Hf|simpl; lia..].
Qed.

Lemma sg_find_total g k :
  fv_wf (sg_mm g) (sg_fv g) →
  safe (sg_find g k) ∧
  ∀ off slen, sg_find g k = Ok (Some (off, slen)) → 0 <= off ∧ 0 <= slen < 2 ^ 32.
Proof.
  intros (Hi & Hg & _). unfold sg_find.
  destruct (proj1 (is_ok_true _) (Contains_ok (fv_filter (sg_fv g)) (filterKey k) Hg)) as [c ->].
  rsimpl. destruct c; cbn [negb]; [by apply searchIndex_total|by split; [split|]].
Qed.

Lemma sg_reads_total g k :
  zlen (sg_mm g) < 2 ^ 63 → fv_wf (sg_mm g) (sg_fv g) →
  safe (sg_get g k) ∧ safe (sg_getRecord g k).
Proof.
  intros Hlen Hwf. destruct (sg_find_total g k Hwf) as [Hs Hf]. destruct Hwf as (_ & _ & Hbl).
  unfold sg_get, sg_getRecord.
  destruct (sg_find g k) as [[[off slen]|]|e| |]; rsimpl; try by destruct Hs.
  destruct (Hf off slen eq_refl) as [Hoff Hslen]. unfold sg_in_bounds, RecHeaderSize.
  change (zlen magicHeader) with 8.
  destruct (negb _) eqn:E; [by split|]. destruct_bool.
  assert (u64 (fv_bodyLen (sg_fv g) - off) = fv_bodyLen (sg_fv g) - off) as Hu
    by (apply Z.mod_small; lia). rewrite Hu in *.
  rewrite (slice_ok (sg_mm g) off (off + 46)), (slice_ok (sg_mm g) off (off + 46 + slen)) by lia.
  rsimpl. split; [|by split].
  set (h := take _ _). assert (46 <= zlen h) as Hh.
  { unfold h. rewrite length_take, length_drop. lia. }
  apply safe_bind; [apply index_safe; lia|]. intros flags _.
  rewrite (slice_ok h 34 38), (slice_ok (sg_mm g) (off + 46)) by lia. rsimpl.
  apply safe_bind; [apply safe_wrap, DecodePayload_safe|done].
Qed.
End total.

(** ** Properties *)

(** C35. A sealed segment finds exactly what was indexed: when a footer is built
    over index entries with distinct keys, appended to the segment's body and
    opened again, a search (filter, fanout bucket, binary search) returns for
    every key the offset and stored length of its entry, and nothing for every
    other key. *)
Theorem sealed_search_exact `{Fuse} id body es ft :
  take 8 body = magicHeader → NoDup (keys_of es) → zlen es < 2 ^ 32 → Forall entry_ok es →
  buildFooter (zlen body) es = Ok ft → zlen (body ++ ft) < 2 ^ 63 →
  ∃ g, openSealed id (body ++ ft) = Ok g ∧ sg_mm g = body ++ ft ∧ fv_bodyLen (sg_fv g) = zlen body ∧
       ∀ k, sg_find g k = Ok (index_find es k).
Proof.
  intros Hm Hnd Hes Hok Hft Hlen.
  destruct (parse_build_footer body es ft Hm Hft Hes Hlen) as (fv & Hp & Hb).
  unfold openSealed. case_if.
  { unfold parseFooter in Hp. rewrite Heqb in Hp. done. }
  rewrite Hp. rsimpl. eexists. split; [done|]. split_and!; [done|apply Hb|].
  intros k. by apply (sg_find_built _ (zlen body) es).
Qed.

(** Opening and reading an arbitrary file never panics: for every content
    of a segment file the footer is accepted or rejected with an error, and on
    an accepted segment every read of every key (the offsets and filter
    geometry come from the file) stays within the mapping. *)
Theorem sealed_reads_total `{Fuse} `{Zstd} id content k :
  zlen content < 2 ^ 63 →
  safe (openSealed id content) ∧
  ∀ g, openSealed id content = Ok g →
       safe (sg_has g k) ∧ safe (sg_get g k) ∧ safe (sg_getRecord g k) ∧
       safe (sg_storedSize g k) ∧ safe (sg_locate g k).
Proof.
  intros Hlen. destruct (parseFooter_total content Hlen) as [Hs Hw].
  unfold openSealed. case_if; [by split; [split|]|].
  split; [apply safe_bind; [by apply safe_wrap|done]|].
  intros g (fv & Hfv%wrap_Ok & <-%Ok_inj)%bind_Ok. specialize (Hw fv Hfv).
  set (g := mkSealed id content fv).
  destruct (sg_reads_total g k Hlen Hw) as [? ?]. destruct (sg_find_total g k Hw) as [Hf _].
  split_and!; try done; unfold sg_has, sg_storedSize, sg_locate; by apply safe_bind.
Qed.

(** ** Applications to concrete inputs *)
Section examples.
(** A filter that keeps the low 16 bits of every key: it is not a binary fuse
    filter, and shows that the interface can be met. *)
Definition fuse_new (ts : list Z) : result BinaryFuse :=
  let n := Z.max 1 (zlen ts) in
  if n + 2 <? 2 ^ 32 then
    Ok (mkFuse 0 1 0 n n (((λ t, t mod 2 ^ 16) <$> ts) ++
                          replicate (Z.to_nat (n + 2) - length ts) 0))
  else Err (errors_New "too many keys").
Definition fuse_contains (f : BinaryFuse) (t : Z) : result bool :=
  Ok (bool_decide (t mod 2 ^ 16 ∈ Fingerprints f)).

Lemma fuse_new_ok ts f : fuse_new ts = Ok f →
  fuse_wf f ∧ geometry_ok f ∧ ∀ t, t ∈ ts → fuse_contains f t = Ok true.
Proof.
  unfold fuse_new. case_if; [|done]. intros <-%Ok_inj.
  set (fps := _ ++ _).
  assert (zlen fps = Z.max 1 (zlen ts) + 2) as Hl.
  { unfold fps. rewrite length_app, length_fmap, length_replicate. lia. }
  assert (Forall (λ x, 0 <= x < 2 ^ 16) fps) as Hf.
  { apply Forall_app. split; [apply Forall_fmap, Forall_true; intros; apply Z.mod_pos_bound; lia|].
    apply Forall_replicate. lia. }
  split; [|split].
  - unfold fuse_wf, is_u64, is_u32. cbn. split_and!; try done; lia.
  - unfold geometry_ok. cbn. split_and!; try done; lia.
  - intros t Ht. unfold fuse_contains. simpl. rewrite bool_decide_true; [done|].
    apply elem_of_app. left. by apply (list_elem_of_fmap_2 (λ t, t mod 2 ^ 16)).
Qed.

Lemma fuse_new_safe ts : safe (fuse_new ts).
Proof. unfold fuse_new. by case_if. Qed.

Definition fuse_example : Fuse :=
  {| NewBinaryFuse := fuse_new; Contains := fuse_contains;
     NewBinaryFuse_ok := fuse_new_ok; Contains_ok := λ f t _, eq_refl;
     NewBinaryFuse_safe := fuse_new_safe |}.
#[local] Existing Instance fuse_example.
#[local] Existing Instance zstd_example.

Definition es_example : list indexEntry :=
  [mkIndexEntry (to_key ([x00; x05] ++ replicate 29 x2a ++ [x09])) 8 10;
   mkIndexEntry (to_key ([x00; x06] ++ replicate 29 x2b ++ [x07])) 64 3].
Definition ft_example : bytes :=
  match buildFooter (zlen magicHeader) es_example with Ok b => b | _ => [] end.

Lemma sealed_search_exact_witness :
  ∃ g, openSealed 1 (magicHeader ++ ft_example) = Ok g ∧
       sg_find g (to_key ([x00; x06] ++ replicate 29 x2b ++ [x07])) = Ok (Some (64, 3)) ∧
       sg_find g (to_key ([x00; x06] ++ replicate 29 x2b ++ [x08])) = Ok None.
Proof.
  destruct (sealed_search_exact 1 magicHeader es_example ft_example) as (g & Hg & _ & _ & Hf).
  - reflexivity.
  - apply (bool_decide_unpack _). vm_compute. reflexivity.
  - reflexivity.
  - repeat constructor; vm_compute; try discriminate; reflexivity.
  - vm_compute. reflexivity.
  - vm_compute. reflexivity.
  - exists g. rewrite !Hf. split; [exact Hg|]. split; vm_compute; reflexivity.
Defined.

Lemma sealed_reads_total_witness :
  safe (openSealed 1 (replicate 2000 x41)).
Proof.
  destruct (sealed_reads_total 1 (replicate 2000 x41) (to_key [])) as [Hs _];
    [vm_compute; reflexivity|]. exact Hs.
Defined.
End examples.
