(* ===== verification/Packstore.v ===== *)
(** * Package [packstore]: the store
    ([packstore.go], [recover.go], [barrier.go], [missing.go], [gc.go],
    [verify.go])

    The state of a [Store] is a record; an operation is a computation in the
    monad [M], which threads the state through errors (what a failed operation
    did stays done).  A file is its content.  Every call to the operating system
    that can fail consumes one outcome of the list [io]: success, or an error
    after [n] bytes of a write; an empty list means that every later call
    succeeds.  An operation is the sequence of steps it performs under the
    store's locks.  The messages wrapped around errors of the operating system
    and the closing of files on error paths are left out. *)

From Stdlib Require Import Init.Byte.
From S2P Require Import Prelude Machine Key FsEncode FsWalk PackRecord Footer.
From Stdlib Require Import ZifyBool ZifyNat.
Local Open Scope Z_scope.

Definition ErrObjectNotFound : string := "packstore: object not found".
Definition ErrClosed : string := "packstore: store closed".
Definition ErrUnknownSegment : string := "packstore: no such segment".
Definition ErrVerify : string := "packstore: object verification failed".

(** ** State *)
Record activeLoc := mkLoc { al_off : Z; al_flags : byte; al_ulen : Z; al_slen : Z }.

Record activeSegment := mkActive {
  a_id : Z;
  a_file : bytes;
  a_size : Z;
  a_index : gmap Key activeLoc;
}.

Record config := mkConfig { segmentSize : Z; cfg_sync : bool }.
Definition defaultConfig : config := mkConfig (256 * 2 ^ 20) true.

Inductive io_outcome :=
| IoOk
| IoErr (e : error) (n : nat).

Record Store := mkStore {
  cfg : config;
  capturing : bool;
  grey : option (gset Key);
  sealed : list sealedSegment;
  active : option activeSegment;
  nextID : Z;
  closed : bool;
  failed : option error;
  fsyncs : Z;
  io : list io_outcome;
}.

Definition set_grey (c : bool) (g : option (gset Key)) (s : Store) : Store :=
  mkStore (cfg s) c g (sealed s) (active s) (nextID s) (closed s) (failed s) (fsyncs s) (io s).
Definition set_sealed (l : list sealedSegment) (s : Store) : Store :=
  mkStore (cfg s) (capturing s) (grey s) l (active s) (nextID s) (closed s) (failed s) (fsyncs s) (io s).
Definition set_active (a : option activeSegment) (s : Store) : Store :=
  mkStore (cfg s) (capturing s) (grey s) (sealed s) a (nextID s) (closed s) (failed s) (fsyncs s) (io s).
Definition set_nextID (n : Z) (s : Store) : Store :=
  mkStore (cfg s) (capturing s) (grey s) (sealed s) (active s) n (closed s) (failed s) (fsyncs s) (io s).
Definition set_closed (s : Store) : Store :=
  mkStore (cfg s) (capturing s) (grey s) (sealed s) (active s) (nextID s) true (failed s) (fsyncs s) (io s).
Definition set_failed (f : option error) (s : Store) : Store :=
  mkStore (cfg s) (capturing s) (grey s) (sealed s) (active s) (nextID s) (closed s) f (fsyncs s) (io s).
Definition set_fsyncs (n : Z) (s : Store) : Store :=
  mkStore (cfg s) (capturing s) (grey s) (sealed s) (active s) (nextID s) (closed s) (failed s) n (io s).
Definition set_io (l : list io_outcome) (s : Store) : Store :=
  mkStore (cfg s) (capturing s) (grey s) (sealed s) (active s) (nextID s) (closed s) (failed s) (fsyncs s) l.

(** ** The monad of store operations *)
Definition M (A : Type) : Type := Store → result A * Store.

Definition retM {A} (a : A) : M A := λ s, (Ok a, s).
Definition bindM {A B} (m : M A) (f : A → M B) : M B := λ s,
  match m s with
  | (Ok a, s) => f a s
  | (Err e, s) => (Err e, s)
  | (Panic, s) => (Panic, s)
  | (Diverge, s) => (Diverge, s)
  end.
Definition liftM {A} (r : result A) : M A := λ s, (r, s).
Definition failM {A} (e : error) : M A := λ s, (Err e, s).
Definition getM {A} (f : Store → A) : M A := λ s, (Ok (f s), s).
Definition modM (f : Store → Store) : M unit := λ s, (Ok tt, f s).
(** The result of [m] as a value: Go's [err := m] without a return. *)
Definition tryM {A} (m : M A) : M (result A) := λ s, let '(r, s) := m s in (Ok r, s).

Declare Scope store_scope.
Delimit Scope store_scope with store.
Notation "x <- m ;; k" := (bindM m (λ x, k))
  (at level 100, m at next level, right associativity) : store_scope.
Notation "m ;;; k" := (bindM m (λ _, k)) (at level 100, right associativity) : store_scope.
Local Open Scope store_scope.

(** One system call that transfers no data. *)
Definition syscall : M unit := λ s,
  match io s with
  | [] => (Ok tt, s)
  | IoOk :: l => (Ok tt, set_io l s)
  | IoErr e _ :: l => (Err e, set_io l s)
  end.

(** [f.WriteAt(data, off)] on a file of content [file]: the new content, and
    whether the call failed.  A failed call may have written a prefix. *)
Definition write_at (file data : bytes) (off : Z) : bytes :=
  take (Z.to_nat off) file ++ data ++ drop (Z.to_nat off + length data) file.

Definition writeAt (file data : bytes) (off : Z) : M (bytes * result unit) := λ s,
  match io s with
  | [] => (Ok (write_at file data off, Ok tt), s)
  | IoOk :: l => (Ok (write_at file data off, Ok tt), set_io l s)
  | IoErr e n :: l => (Ok (write_at file (take n data) off, Err e), set_io l s)
  end.

(** ** Barrier ([barrier.go]) *)
Definition BeginBarrier : M unit := modM (set_grey true (Some ∅)).
Definition AbortBarrier : M unit := modM (set_grey false None).

Definition observe (k : Key) : M unit := modM (λ s,
  if negb (capturing s) then s
  else match grey s with
       | Some g => set_grey (capturing s) (Some ({[k]} ∪ g)) s
       | None => s
       end).

Definition ObserveKeys (keys : list Key) : M unit := modM (λ s,
  if negb (capturing s) then s
  else match grey s with
       | Some g => set_grey (capturing s) (Some (list_to_set keys ∪ g)) s
       | None => s
       end).

Definition takeGrey : M (option (gset Key)) :=
  g <- getM grey;; modM (set_grey false None);;; retM g.

(** ** Reads *)
Section reads.
Context `{Fuse} `{Zstd}.

(** The loop [for i := len(s.sealed) - 1; i >= 0; i--] over the sealed
    segments: the first answer wins, an error stops the search. *)
Fixpoint newest_first {A} (f : sealedSegment → result (option A)) (segs : list sealedSegment) :
    result (option A) :=
  match segs with
  | [] => Ok None
  | g :: segs =>
      r ← f g;
      match r with Some a => Ok (Some a) | None => newest_first f segs end
  end.

Definition active_find (s : Store) (k : Key) : option activeLoc :=
  match active s with Some a => a_index a !! k | None => None end.

Definition Has (k : Key) : M bool := λ s,
  if closed s then (Err (errors_New ErrClosed), s) else
  match active_find s k with
  | Some _ => (Ok true, s)
  | None =>
      (r ← newest_first (λ g, b ← sg_has g k; Ok (if b : bool then Some tt else None)) (rev (sealed s));
       Ok (match r with Some _ => true | None => false end), s)
  end.

(** [f.ReadAt(buf, off)] for [n] bytes. *)
Definition readAt (file : bytes) (n off : Z) : M bytes :=
  syscall;;;
  if (0 <=? off) && (off + n <=? zlen file)
  then liftM (slice file off (off + n))
  else failM (errors_New "EOF").

Definition Get (k : Key) : M bytes :=
  c <- getM closed;;
  if c then failM (errors_New ErrClosed) else
  a <- getM active;;
  match a ≫= (λ a, loc ← a_index a !! k; Some (a, loc)) with
  | Some (a, loc) =>
      stored <- readAt (a_file a) (al_slen loc) (al_off loc + RecHeaderSize);;
      liftM (DecodePayload (al_flags loc) (al_ulen loc) stored)
  | None =>
      segs <- getM sealed;;
      r <- liftM (newest_first (λ g, sg_get g k) (rev segs));;
      match r with
      | Some data => retM data
      | None => failM (errors_New ErrObjectNotFound)
      end
  end.

Definition GetRecord (k : Key) : M bytes :=
  c <- getM closed;;
  if c then failM (errors_New ErrClosed) else
  a <- getM active;;
  match a ≫= (λ a, loc ← a_index a !! k; Some (a, loc)) with
  | Some (a, loc) => readAt (a_file a) (RecHeaderSize + al_slen loc) (al_off loc)
  | None =>
      segs <- getM sealed;;
      r <- liftM (newest_first (λ g, sg_getRecord g k) (rev segs));;
      match r with
      | Some rec => retM rec
      | None => failM (errors_New ErrObjectNotFound)
      end
  end.

Definition StoredSize (k : Key) : M (option Z) := λ s,
  if closed s then (Err (errors_New ErrClosed), s) else
  match active_find s k with
  | Some loc => (Ok (Some (al_slen loc)), s)
  | None => (newest_first (λ g, sg_storedSize g k) (rev (sealed s)), s)
  end.

(** The segment id and the offset of the newest copy. *)
Definition locateLocked (s : Store) (k : Key) : result (option (Z * Z)) :=
  match active s ≫= (λ a, loc ← a_index a !! k; Some (a_id a, al_off loc)) with
  | Some p => Ok (Some p)
  | None => newest_first (λ g, o ← sg_locate g k; Ok (option_map (pair (sg_id g)) o)) (rev (sealed s))
  end.

(** The order of [SortByLocation]: present keys first, by segment and offset. *)
Definition location_le (a b : Key * option (Z * Z)) : Prop :=
  match snd a, snd b with
  | Some (s1, o1), Some (s2, o2) => s1 < s2 ∨ (s1 = s2 ∧ o1 <= o2)
  | Some _, None => True
  | None, Some _ => False
  | None, None => True
  end.

#[global] Instance location_le_dec : RelDecision location_le.
Proof. intros [? [[]|]] [? [[]|]]; unfold location_le; simpl; apply _. Defined.

(** [slices.SortFunc] is not stable; a merge sort gives one of its results. *)
Definition SortByLocation (keys : list Key) : M (list Key) := λ s,
  if closed s then (Ok keys, s) else
  (items ← mapR (λ k, o ← locateLocked s k; Ok (k, o)) keys;
   Ok (fst <$> merge_sort location_le items), s).

Definition minMissingChunk : Z := 64.

(** The window of worker [i]: [keys[lo:min((i+1)*chunkLen, len(keys))]]. *)
Definition missing_window (keys : list Key) (chunkLen i : nat) : result (list Key) :=
  let lo := Nat.min (i * chunkLen) (length keys) in
  slice keys (Z.of_nat lo) (Z.of_nat (Nat.min ((i + 1) * chunkLen) (length keys))).

Definition missing_chunk (s : Store) (chunk : list Key) : result (list Key) :=
  foldR (λ k miss, has ← wrap "missing-check %s" (fst (Has k s));
                   Ok (if has : bool then miss else miss ++ [k])) chunk [].

(** [procs] is [runtime.GOMAXPROCS(0)]; [pick] chooses the reported error. *)
Definition Missing (pick : list error → error) (procs : nat) (keys : list Key) : M (list Key) := λ s,
  let m := ((length keys + 63) / 64)%nat in
  let workers := Nat.min m procs in
  if (workers =? 0)%nat then (Ok [], s) else
  let chunkLen := ((length keys + workers - 1) / workers)%nat in
  (results ← Group_Wait pick ((λ i, chunk ← missing_window keys chunkLen i; missing_chunk s chunk)
                                <$> seq 0 workers);
   Ok (concat results), s).
End reads.

(** ** Writes *)
Section writes.
Context `{Fuse} `{Zstd}.

(** A constructor that fails removes the file it created. *)
Definition createActive : M unit :=
  id <- getM nextID;;
  modM (λ s, set_nextID (u64 (nextID s + 1)) s);;;
  syscall;;; (* OpenFile *)
  w <- writeAt [] magicHeader 0;;
  liftM (snd w);;;
  syscall;;; (* f.Sync *)
  syscall;;; (* dirF.Sync *)
  modM (set_active (Some (mkActive id (fst w) (zlen magicHeader) ∅))).

Definition setFailed (err : error) : M unit := modM (λ s,
  match failed s with
  | None => set_failed (Some (Errorf "packstore: write path failed" err)) s
  | Some _ => s
  end).

(** [if err := m; err != nil { s.setFailed(err); return err }] *)
Definition or_fail {A} (m : M A) : M A :=
  r <- tryM m;;
  match r with
  | Err e => setFailed e;;; failM e
  | r => liftM r
  end.

Definition set_file (a : activeSegment) (file : bytes) : activeSegment :=
  mkActive (a_id a) file (a_size a) (a_index a).

(** The index entries of the active segment, in the order of the map. *)
Definition active_entries (a : activeSegment) : list indexEntry :=
  (λ '(k, loc), mkIndexEntry k (u64 (al_off loc)) (al_slen loc)) <$> map_to_list (a_index a).

Definition sealActiveLocked : M unit :=
  act <- getM active;;
  match act with
  | None => retM tt
  | Some a =>
      if bool_decide (a_index a = ∅) then retM tt else
      footer <- liftM (buildFooter (a_size a) (active_entries a));;
      syscall;;; (* Truncate *)
      let a := set_file a (take (Z.to_nat (a_size a)) (a_file a)) in
      modM (set_active (Some a));;;
      w <- writeAt (a_file a) footer (a_size a);;
      let a := set_file a (fst w) in
      modM (set_active (Some a));;;
      liftM (snd w);;;
      syscall;;; (* f.Sync *)
      syscall;;; (* Rename *)
      syscall;;; (* dirF.Sync *)
      seg <- liftM (openSealed (a_id a) (a_file a));;
      modM (λ s, set_active None (set_sealed (sealed s ++ [seg]) s));;;
      syscall (* f.Close *)
  end.

Definition appendLocked (k : Key) (rec : bytes) (syncNow : bool) : M unit :=
  c <- getM closed;;
  if c then failM (errors_New ErrClosed) else
  f <- getM failed;;
  match f with
  | Some e => failM e
  | None =>
      act <- getM active;;
      match act with None => createActive | Some _ => retM tt end;;;
      act <- getM active;;
      match act with
      | None => liftM Panic
      | Some a =>
          match a_index a !! k with
          | Some _ => retM tt
          | None =>
              let off := a_size a in
              w <- writeAt (a_file a) rec off;;
              modM (set_active (Some (set_file a (fst w))));;;
              liftM (snd w);;;
              flags <- liftM (index rec 33);;
              ub <- liftM (slice rec 34 38);;
              sb <- liftM (slice rec 38 42);;
              let loc := mkLoc off flags (be_dec ub) (be_dec sb) in
              let a := mkActive (a_id a) (fst w) (off + zlen rec) (<[k := loc]> (a_index a)) in
              modM (set_active (Some a));;;
              sy <- getM (λ s, cfg_sync (cfg s));;
              (if syncNow && sy then or_fail syscall else retM tt);;;
              limit <- getM (λ s, segmentSize (cfg s));;
              if a_size a >=? limit then or_fail sealActiveLocked else retM tt
          end
      end
  end.

Definition syncActive : M unit :=
  c <- getM closed;;
  if c then failM (errors_New ErrClosed) else
  f <- getM failed;;
  match f with
  | Some e => failM e
  | None =>
      sy <- getM (λ s, cfg_sync (cfg s));;
      act <- getM active;;
      match act with
      | Some _ => if sy : bool then or_fail syscall;;; modM (λ s, set_fsyncs (fsyncs s + 1) s) else retM tt
      | None => retM tt
      end
  end.

Definition Put (k : Key) (data : bytes) : M unit :=
  f <- getM failed;;
  match f with
  | Some e => failM e
  | None =>
      observe k;;;
      has <- Has k;;
      if has : bool then retM tt else
      rec <- liftM (EncodeRecord k data);;
      appendLocked k rec true
  end.

(** One object of a batch: [None] when it was skipped. *)
Definition batch_one (obj : Object) (seen : gset Key) : M (gset Key * bool) :=
  if bool_decide (obj_key obj ∈ seen) then retM (seen, false) else
  let seen := {[obj_key obj]} ∪ seen in
  observe (obj_key obj);;;
  has <- (λ s, let '(r, s) := Has (obj_key obj) s in (wrap "exists (%s)" r, s));;
  if has : bool then retM (seen, false) else
  rec <- liftM (EncodeRecord (obj_key obj) (obj_bytes obj));;
  appendLocked (obj_key obj) rec false;;;
  retM (seen, true).

(** The iterator yields objects or one error.  On any error the appended prefix
    is fsynced first, whatever that returns. *)
Fixpoint batch_loop (seq : list (Object + error)) (seen : gset Key) (appended : bool) : M unit :=
  let fail := λ e : error, (if appended then tryM syncActive;;; retM tt else retM tt);;; failM e in
  match seq with
  | [] => syncActive
  | inr e :: _ => fail e
  | inl obj :: seq =>
      r <- tryM (batch_one obj seen);;
      match r with
      | Ok (seen, app) => batch_loop seq seen (appended || app)
      | Err e => fail e
      | Panic => liftM Panic
      | Diverge => liftM Diverge
      end
  end.

Definition WriteBatch (seq : list (Object + error)) : M unit := batch_loop seq ∅ false.

(** The first error of a list of calls that all run. *)
Fixpoint first_err (calls : list (M unit)) : M (option error) :=
  match calls with
  | [] => retM None
  | c :: calls =>
      r <- tryM c;;
      rest <- first_err calls;;
      retM (match r with Err e => Some e | _ => rest end)
  end.

Definition finish_errs (calls : list (M unit)) : M unit :=
  e <- first_err calls;;
  match e with Some e => failM e | None => retM tt end.

Definition Wipe : M unit :=
  c <- getM closed;;
  if c then failM (errors_New ErrClosed) else
  act <- getM active;;
  segs <- getM sealed;;
  modM (λ s, set_failed None (set_sealed [] (set_active None s)));;;
  sy <- getM (λ s, cfg_sync (cfg s));;
  finish_errs
    (match act with Some _ => [syscall; syscall] | None => [] end ++
     concat ((λ _, [syscall; syscall]) <$> segs) ++
     (if sy : bool then [syscall] else [])).

Definition Close : M unit :=
  c <- getM closed;;
  if c : bool then retM tt else
  act <- getM active;;
  segs <- getM sealed;;
  modM (λ s, set_sealed [] (set_active None (set_closed s)));;;
  finish_errs
    (match act with Some _ => [syscall; syscall] | None => [] end ++
     ((λ _, syscall) <$> segs) ++ [syscall]).

(** ** The collector's view ([gc.go]) *)
Definition pinSegment (id : Z) (s : Store) : result sealedSegment :=
  if closed s then Err (errors_New ErrClosed) else
  match list_find (λ g, sg_id g = id) (sealed s) with
  | Some (_, g) => Ok g
  | None => Err (errors_New ErrUnknownSegment)
  end.

(** Row [i] of the index of a segment. *)
Definition index_row (fv : footerView) (i : nat) : result indexEntry :=
  e ← slice (fv_entries fv) (Z.of_nat i * indexEntrySize) ((Z.of_nat i + 1) * indexEntrySize);
  kbs ← slice e 0 32;
  ob ← slice e 32 40;
  sb ← slice e 40 44;
  Ok (mkIndexEntry (to_key kbs) (be_dec ob) (be_dec sb)).

(** [ScanIndex]: the entries its callback receives, in index order. *)
Definition allEntries (fv : footerView) : result (list indexEntry) :=
  mapR (index_row fv) (seq 0 (Z.to_nat (fv_keyCount fv))).

Definition ScanIndex (id : Z) (s : Store) : result (list indexEntry) :=
  seg ← pinSegment id s; allEntries (sg_fv seg).

Definition RecordAt (id off : Z) (s : Store) : result bytes :=
  seg ← pinSegment id s;
  let body := fv_bodyLen (sg_fv seg) in
  if (off <? zlen magicHeader) || (off >? body) || (RecHeaderSize >? u64 (body - off))
  then Err (corrupt "%s: record offset %d out of range") else
  b ← slice (sg_mm seg) off body;
  rec ← wrap "%s: offset %d" (ParseRecord b);
  slice (sg_mm seg) off (off + RecHeaderSize + Slen rec).

Definition HasOutside (id : Z) (k : Key) (s : Store) : result bool :=
  if closed s then Err (errors_New ErrClosed) else
  match active_find s k with
  | Some _ => Ok true
  | None =>
      r ← newest_first (λ g, if sg_id g =? id then Ok None else
                             b ← sg_has g k; Ok (if b : bool then Some tt else None)) (rev (sealed s));
      Ok (match r with Some _ => true | None => false end)
  end.

Definition AppendRecord (k : Key) (raw : bytes) : M unit :=
  rec <- liftM (ParseRecord raw);;
  if negb (bool_decide (rKey rec = k)) then failM (corrupt "record key %s does not match %s") else
  if negb (zlen raw =? RecHeaderSize + Slen rec) then failM (corrupt "record is %d bytes, want %d") else
  appendLocked k raw false.

Definition Sync : M unit := syncActive.

Definition Remove (id : Z) : M unit :=
  c <- getM closed;;
  if c then failM (errors_New ErrClosed) else
  segs <- getM sealed;;
  match list_find (λ g, sg_id g = id) segs with
  | None => failM (errors_New ErrUnknownSegment)
  | Some (idx, _) =>
      modM (set_sealed (take idx segs ++ drop (S idx) segs));;;
      sy <- getM (λ s, cfg_sync (cfg s));;
      finish_errs ([syscall; syscall] ++ (if sy : bool then [syscall] else []))
  end.
End writes.

(** ** Recovery ([recover.go] and [load]) *)
Record scanResult := mkScan { sr_size : Z; sr_index : gmap Key activeLoc; sr_sealed : bool }.

Section recovery.
Context `{Fuse} `{Zstd}.

(** The scan loop; every round advances by at least a header, so the length of
    the file bounds the rounds. *)
Fixpoint scan_loop (fuel : nat) (b : bytes) (off : Z) (ix : gmap Key activeLoc) : result scanResult :=
  match fuel with
  | O => Diverge
  | S fuel =>
      if negb (off <? zlen b) then Ok (mkScan off ix false) else
      t ← index b off;
      if bool_decide (t = tagSeal) then
        match parseFooter b with
        | Ok _ => Ok (mkScan (zlen b) ix true)
        | Err _ => Ok (mkScan off ix false)
        | Panic => Panic
        | Diverge => Diverge
        end
      else
        rest ← slice_from b off;
        match ParseRecord rest with
        | Ok rec => scan_loop fuel b (off + RecHeaderSize + Slen rec)
                      (<[rKey rec := mkLoc off (Flags rec) (Ulen rec) (Slen rec)]> ix)
        | Err _ => Ok (mkScan off ix false)
        | Panic => Panic
        | Diverge => Diverge
        end
  end.

Definition scanActive (b : bytes) : result scanResult :=
  if (zlen b <? zlen magicHeader) || negb (bool_decide (take 8 b = magicHeader))
  then Ok (mkScan 0 ∅ false)
  else scan_loop (S (length b)) b (zlen magicHeader) ∅.

Definition hex_digit (c : byte) : option Z :=
  let z := b2z c in
  if (48 <=? z) && (z <=? 57) then Some (z - 48)
  else if (97 <=? z) && (z <=? 102) then Some (z - 87)
  else if (65 <=? z) && (z <=? 70) then Some (z - 55)
  else None.

(** [strconv.ParseUint(hex, 16, 64)] *)
Definition parse_hex (s : bytes) : option Z :=
  foldl (λ acc c, a ← acc; d ← hex_digit c; Some (a * 16 + d)) (Some 0) s.

Definition sealedSuffix : bytes := [x2e; x73; x65; x67].
Definition activeSuffix : bytes := sealedSuffix ++ [x2e; x61; x63; x74; x69; x76; x65].

(** [fmt.Sprintf("%016x", id)] *)
Definition hex_char (d : Z) : byte := z2b (if d <? 10 then 48 + d else 87 + d).
Fixpoint hexn (n : nat) (id : Z) : bytes :=
  match n with
  | O => []
  | S n => hex_char (id / 16 ^ Z.of_nat n mod 16) :: hexn n id
  end.
Definition hex16 (id : Z) : bytes := hexn 16 id.

(** The file name of segment [id]. *)
Definition segmentName (id : Z) (suffix : bytes) : bytes := hex16 id ++ suffix.

Definition HasSuffix (s suffix : bytes) : bool :=
  (length suffix <=? length s)%nat && bool_decide (drop (length s - length suffix) s = suffix).
Definition TrimSuffix (s suffix : bytes) : bytes :=
  if HasSuffix s suffix then take (length s - length suffix) s else s.

Definition parseSegmentID (name suffix : bytes) : result Z :=
  let hex := TrimSuffix name suffix in
  match parse_hex hex with
  | Some id => if (length hex =? 16)%nat then Ok id else Err (corrupt "bad segment file name %q")
  | None => Err (corrupt "bad segment file name %q")
  end.

Definition id_le (a b : sealedSegment) : Prop := sg_id a <= sg_id b.
#[global] Instance id_le_dec : RelDecision id_le.
Proof. intros a b. unfold id_le. apply _. Defined.

Definition sort_sealed (l : list sealedSegment) : list sealedSegment := merge_sort id_le l.

Definition bump_id (id : Z) (s : Store) : Store :=
  if id >=? nextID s then set_nextID (u64 (id + 1)) s else s.

Definition recoverActive (name content : bytes) : M unit :=
  id <- liftM (parseSegmentID name activeSuffix);;
  syscall;;; (* ReadFile *)
  res <- liftM (scanActive content);;
  modM (bump_id id);;;
  if sr_sealed res then
    syscall;;; (* Rename *)
    syscall;;; (* dirF.Sync *)
    seg <- liftM (openSealed id content);;
    modM (λ s, set_sealed (sort_sealed (sealed s ++ [seg])) s)
  else
    syscall;;; (* OpenFile *)
    if sr_size res <? zlen magicHeader then
      syscall;;; (* Truncate *)
      w <- writeAt [] magicHeader 0;;
      liftM (snd w);;;
      modM (set_active (Some (mkActive id (fst w) (zlen magicHeader) (sr_index res))))
    else
      syscall;;; (* Truncate *)
      modM (set_active (Some (mkActive id (take (Z.to_nat (sr_size res)) content)
                                       (sr_size res) (sr_index res)))).

(** One directory entry: an active file is remembered, a sealed one is opened. *)
Definition load_one (e : bytes * bytes) (actives : list (bytes * bytes)) : M (list (bytes * bytes)) :=
  let '(name, content) := e in
  if HasSuffix name activeSuffix then retM (actives ++ [e])
  else if HasSuffix name sealedSuffix then
    id <- liftM (parseSegmentID name sealedSuffix);;
    syscall;;; (* Open, Stat and Mmap *)
    seg <- liftM (openSealed id content);;
    modM (λ s, set_sealed (sealed s ++ [seg]) s);;;
    modM (bump_id id);;;
    retM actives
  else retM actives.

Fixpoint load_all (entries : list (bytes * bytes)) (actives : list (bytes * bytes)) :
    M (list (bytes * bytes)) :=
  match entries with
  | [] => retM actives
  | e :: entries => actives <- load_one e actives;; load_all entries actives
  end.

(** [load] on a directory given as file names and contents. *)
Definition load (entries : list (bytes * bytes)) : M unit :=
  syscall;;; (* ReadDir *)
  actives <- load_all entries [];;
  modM (λ s, set_sealed (sort_sealed (sealed s)) s);;;
  match actives with
  | [] => retM tt
  | [(name, content)] => recoverActive name content
  | _ => failM (corrupt "%d active segments, want at most one: %v")
  end.

Definition newStore (c : config) (outcomes : list io_outcome) : Store :=
  mkStore c false None [] None 1 false None 0 outcomes.

(** [Open] on a directory: creating it, opening it and taking the lock. *)
Definition Open (c : config) (entries : list (bytes * bytes)) (outcomes : list io_outcome) :
    result unit * Store :=
  (syscall;;; syscall;;; syscall;;; load entries) (newStore c outcomes).
End recovery.

(** ** Scrubbing ([verify.go]) *)
Section verify.
Context `{Blake3} `{Fuse} `{Zstd}.

Definition verifyObject (k : Key) (data : bytes) : result unit :=
  want ← relabel (Errorf "%s: %v" (errors_New ErrVerify)) (NewFromHash (Type_ k) (Length k) (Sum256 data));
  if negb (bool_decide (want = k)) then Err (Errorf "payload hashes to %s, not %s" (errors_New ErrVerify)) else
  if ((Type_ k =? Blob) || (Type_ k =? XattrSet)) && negb (Length k =? u64 (zlen data))
  then Err (Errorf "%s length field %d != payload %d" (errors_New ErrVerify))
  else Ok tt.

(** The scan of the body; [ctx] never reports a cancellation here. *)
Fixpoint verify_loop (fuel : nat) (g : sealedSegment) (off : Z) (entries : list indexEntry) :
    result (Z * list indexEntry) :=
  match fuel with
  | O => Diverge
  | S fuel =>
      let bodyLen := fv_bodyLen (sg_fv g) in
      if negb (off <? bodyLen) then Ok (off, entries) else
      b ← slice (sg_mm g) off bodyLen;
      rec ← wrap "%s: record at offset %d" (ParseRecord b);
      stored ← slice (sg_mm g) (off + RecHeaderSize) (off + RecHeaderSize + Slen rec);
      payload ← wrap "%s: record at offset %d" (DecodePayload (Flags rec) (Ulen rec) stored);
      match verifyObject (rKey rec) payload with
      | Err e => Err (Errorf "%s: record at offset %d" (ErrCorrupt :: e))
      | Panic => Panic
      | Diverge => Diverge
      | Ok _ =>
          c ← Contains (fv_filter (sg_fv g)) (filterKey (rKey rec));
          if negb c then Err (corrupt "%s: filter missing key %s (offset %d)") else
          verify_loop fuel g (off + RecHeaderSize + Slen rec)
            (entries ++ [mkIndexEntry (rKey rec) (u64 off) (Slen rec)])
      end
  end.

Definition sg_verify (g : sealedSegment) : result unit :=
  let fv := sg_fv g in
  '(off, entries) ← verify_loop (S (length (sg_mm g))) g (zlen magicHeader) [];
  if negb (off =? fv_bodyLen fv) then Err (corrupt "%s: records end at %d, trailer says %d") else
  if negb (zlen entries =? fv_keyCount fv) then Err (corrupt "%s: body has %d records, trailer says %d") else
  stored ← slice (sg_mm g) (fv_indexOff fv) (fv_indexOff fv + fv_indexLen fv);
  if negb (bool_decide (buildIndexSection entries = stored))
  then Err (corrupt "%s: index section does not match body") else Ok tt.

Definition Verify (s : Store) : result unit :=
  if closed s then Err (errors_New ErrClosed) else
  foldR (λ g _, sg_verify g) (sealed s) tt.
End verify.
