(* ===== verification/PackstoreRep.v ===== *)
(** * What a store represents

    The abstract state of a store is a finite map from keys to payloads.  A
    segment is described by the list of its items: the records of its body, in
    order, with what they decode to.  [store_rep s m] says that the store [s] is
    well formed and represents the map [m]: the items of the active segment
    shadow those of the sealed ones, newer segments shadow older ones. *)

From Stdlib Require Import Init.Byte.
From S2P Require Import Prelude Machine Key FsEncode FsTree FsRead PackRecord Footer FooterFacts Packstore.
From Stdlib Require Import ZifyBool ZifyNat.
Local Open Scope Z_scope.

(** ** Items *)
Record item := mkItem { it_hdr : RecordHdr; it_rec : bytes; it_data : bytes }.

Definition it_key (it : item) : Key := rKey (it_hdr it).

(** A property that every stored object has, for example that its payload hashes
    to its key. *)
Class ItemInv := item_inv : Key → bytes → Prop.

Section items.
Context `{Zstd} `{ItemInv}.

Definition item_ok (it : item) : Prop :=
  item_inv (it_key it) (it_data it) ∧
  record_at (it_rec it) (it_hdr it) ∧ length (it_rec it) = rec_size (it_hdr it) ∧
  DecodePayload (Flags (it_hdr it)) (Ulen (it_hdr it)) (drop 46 (it_rec it)) = Ok (it_data it).

Definition body_of (its : list item) : bytes := magicHeader ++ concat (it_rec <$> its).

(** Where the items of a body start. *)
Fixpoint item_locs (off : Z) (its : list item) : list (Key * activeLoc) :=
  match its with
  | [] => []
  | it :: its =>
      (it_key it, mkLoc off (Flags (it_hdr it)) (Ulen (it_hdr it)) (Slen (it_hdr it)))
      :: item_locs (off + zlen (it_rec it)) its
  end.

Definition items_wf (its : list item) : Prop := Forall item_ok its ∧ NoDup (it_key <$> its).

(** The map a segment represents. *)
Definition item_map (its : list item) : gmap Key item :=
  list_to_map ((λ it, (it_key it, it)) <$> its).

Lemma item_ok_size it : item_ok it →
  0 <= Slen (it_hdr it) <= MaxPayload ∧ zlen (it_rec it) = 46 + Slen (it_hdr it) ∧
  0 <= Ulen (it_hdr it) < 2 ^ 32.
Proof.
  intros (_ & (_ & _ & _ & _ & Hu & Hs & Hm & Hc & _) & Hl & _).
  pose proof (be4_range (it_rec it) 38) as Hs'. pose proof (be4_range (it_rec it) 34) as Hu'.
  rewrite <- Hs in Hs'. rewrite <- Hu in Hu'. unfold rec_size, RecHeaderSize in Hl.
  destruct (Z.land _ _ =? 0); split_and!; lia.
Qed.

Lemma item_locs_keys off its : (item_locs off its).*1 = it_key <$> its.
Proof. revert off. induction its as [|it its IH]; intros off; [done|]. simpl. f_equal. apply IH. Qed.

Lemma item_locs_app off its1 its2 :
  item_locs off (its1 ++ its2) =
  item_locs off its1 ++ item_locs (off + zlen (concat (it_rec <$> its1))) its2.
Proof.
  revert off. induction its1 as [|it its1 IH]; intros off.
  - simpl. f_equal. lia.
  - rewrite fmap_cons. cbn [item_locs app concat]. rewrite IH, length_app. do 3 f_equal. lia.
Qed.

Lemma item_map_keys its : ((λ it, (it_key it, it)) <$> its).*1 = it_key <$> its.
Proof. by rewrite <- list_fmap_compose. Qed.

Lemma item_map_lookup its k it :
  NoDup (it_key <$> its) → item_map its !! k = Some it ↔ it ∈ its ∧ it_key it = k.
Proof.
  intros Hnd. unfold item_map. rewrite <- elem_of_list_to_map by (by rewrite item_map_keys).
  rewrite list_elem_of_fmap. naive_solver.
Qed.

Lemma item_map_None its k : item_map its !! k = None ↔ k ∉ (it_key <$> its).
Proof.
  unfold item_map. rewrite <- item_map_keys. split.
  - apply not_elem_of_list_to_map_2.
  - apply not_elem_of_list_to_map_1.
Qed.

Lemma item_map_snoc its it :
  it_key it ∉ (it_key <$> its) → item_map (its ++ [it]) = <[it_key it := it]> (item_map its).
Proof.
  intros Hk. unfold item_map. rewrite fmap_app, list_to_map_app. cbn.
  rewrite <- insert_union_r; [by rewrite map_union_empty|].
  apply not_elem_of_list_to_map_1. by rewrite item_map_keys.
Qed.

(** The item whose location is [loc]. *)
Lemma item_locs_inv off its k loc :
  (k, loc) ∈ item_locs off its →
  ∃ its1 it its2, its = its1 ++ it :: its2 ∧ it_key it = k ∧
    al_off loc = off + zlen (concat (it_rec <$> its1)) ∧
    al_flags loc = Flags (it_hdr it) ∧ al_ulen loc = Ulen (it_hdr it) ∧ al_slen loc = Slen (it_hdr it).
Proof.
  revert off. induction its as [|it its IH]; intros off; [by intros ?%elem_of_nil|].
  intros [Heq|Hin]%elem_of_cons.
  - simplify_eq/=. exists [], it, its. split_and!; try done. simpl. lia.
  - destruct (IH _ Hin) as (its1 & it' & its2 & -> & ? & Hoff & ?).
    exists (it :: its1), it', its2. split_and!; try naive_solver.
    rewrite fmap_cons. cbn [concat]. rewrite length_app. lia.
Qed.

(** A record inside a body, read from any file that starts with the body. *)
Lemma body_record file its1 it its2 :
  let off := (8 + length (concat (it_rec <$> its1)))%nat in
  item_ok it → take (length (body_of (its1 ++ it :: its2))) file = body_of (its1 ++ it :: its2) →
  record_at (drop off file) (it_hdr it) ∧
  take (rec_size (it_hdr it)) (drop off file) = it_rec it ∧
  (off + rec_size (it_hdr it) ≤ length (body_of (its1 ++ it :: its2)))%nat.
Proof.
  intros off (_ & Hat & Hlen & _) Hfile.
  assert (body_of (its1 ++ it :: its2) = (magicHeader ++ concat (it_rec <$> its1)) ++
            it_rec it ++ concat (it_rec <$> its2)) as Hb.
  { unfold body_of. rewrite fmap_app, concat_app. rewrite fmap_cons. cbn [concat]. by rewrite (app_assoc magicHeader). }
  assert (length (magicHeader ++ concat (it_rec <$> its1)) = off) as Hoff by (by rewrite length_app).
  assert (∃ rest, file = (magicHeader ++ concat (it_rec <$> its1)) ++ it_rec it ++ rest) as [rest Hrest].
  { exists (concat (it_rec <$> its2) ++ drop (length (body_of (its1 ++ it :: its2))) file).
    rewrite <- (take_drop (length (body_of (its1 ++ it :: its2))) file) at 1.
    rewrite Hfile, Hb. by rewrite <- !app_assoc. }
  assert (drop off file = it_rec it ++ rest) as Hdrop by (rewrite Hrest; by apply drop_app_all).
  rewrite Hdrop. split_and!.
  - eapply record_at_prefix; [exact Hat|].
    by rewrite <- Hlen, firstn_all, take_app_length.
  - by rewrite <- Hlen, take_app_length.
  - rewrite Hb, !length_app, Hlen. rewrite length_app in Hoff. lia.
Qed.

(** ** Sealed segments *)
Definition loc_entry (p : Key * activeLoc) : indexEntry := mkIndexEntry p.1 (al_off p.2) (al_slen p.2).

Definition seg_rep `{Fuse} (g : sealedSegment) (its : list item) : Prop :=
  items_wf its ∧ zlen (body_of its) < 2 ^ 63 ∧
  take (length (body_of its)) (sg_mm g) = body_of its ∧
  openSealed (sg_id g) (sg_mm g) = Ok g ∧
  ∃ es, sealed_over g (zlen (body_of its)) es ∧ es ≡ₚ loc_entry <$> item_locs 8 its.

Lemma entry_keys off its : keys_of (loc_entry <$> item_locs off its) = it_key <$> its.
Proof. unfold keys_of. rewrite <- list_fmap_compose. rewrite <- item_locs_keys with (off := off). by apply list_fmap_ext. Qed.

(** The location of an item of a body. *)
Lemma item_locs_middle off its1 it its2 :
  (it_key it, mkLoc (off + zlen (concat (it_rec <$> its1))) (Flags (it_hdr it)) (Ulen (it_hdr it))
                    (Slen (it_hdr it))) ∈ item_locs off (its1 ++ it :: its2).
Proof. rewrite item_locs_app. apply elem_of_app. right. cbn [item_locs]. apply list_elem_of_here. Qed.

(** The answers of a segment are those of its items. *)
Lemma seg_reads `{Fuse} g its k : seg_rep g its →
  sg_has g k = Ok (bool_decide (is_Some (item_map its !! k))) ∧
  sg_get g k = Ok (it_data <$> item_map its !! k) ∧
  sg_getRecord g k = Ok (it_rec <$> item_map its !! k) ∧
  sg_storedSize g k = Ok ((λ it, Slen (it_hdr it)) <$> item_map its !! k).
Proof.
  intros ((Hok & Hnd) & Hbl & Htake & _ & es & Hov & Hperm).
  pose proof (sg_find_built g _ es k Hov) as Hfind. pose proof Hov as (_ & Hnde & _).
  destruct (item_map its !! k) as [it|] eqn:Hk.
  - apply item_map_lookup in Hk as [Hin <-]; [|done].
    rewrite Forall_forall in Hok. specialize (Hok it Hin) as Hit.
    apply list_elem_of_split in Hin as (its1 & its2 & ->).
    pose proof (item_ok_size it Hit) as (Hs & Hl & Hu).
    destruct (body_record (sg_mm g) its1 it its2 Hit Htake) as (Hat & Hrec & Hend).
    set (off := (8 + length (concat (it_rec <$> its1)))%nat) in *.
    pose proof (item_locs_middle 8 its1 it its2) as Hloc.
    apply (list_elem_of_fmap_2 loc_entry) in Hloc. rewrite <- Hperm in Hloc.
    apply index_find_Some in Hloc; [|done]. unfold loc_entry in Hloc at 1. cbn [ie_k ie_off ie_slen fst snd al_off al_slen] in Hloc.
    replace (8 + zlen (concat (it_rec <$> its1))) with (Z.of_nat off) in Hloc by lia.
    cbn [loc_entry ie_off ie_slen fst snd al_off al_slen] in Hloc.
    destruct (sg_reads_built g _ es (it_key it) (Z.of_nat off) (it_hdr it) Hov Hloc) as [Hgr Hg];
      rewrite ?Nat2Z.id; try done; [lia| | |].
    + unfold rec_size, RecHeaderSize in *. lia.
    + apply (f_equal length) in Htake. rewrite length_take in Htake. lia.
    + rewrite Nat2Z.id in Hgr, Hg. rewrite Hrec in Hgr, Hg. destruct Hit as (_ & _ & _ & Hdec). rewrite Hdec in Hg.
      split_and!; [|done|done|]; unfold sg_has, sg_storedSize; rewrite Hfind, Hloc; done.
  - apply item_map_None in Hk.
    assert (index_find es k = None) as Hn.
    { apply index_find_None. unfold keys_of. rewrite Hperm. by rewrite entry_keys. }
    rewrite Hn in Hfind. unfold sg_has, sg_get, sg_getRecord, sg_storedSize. rewrite Hfind. done.
Qed.

(** ** The active segment *)
Definition active_rep (act : option activeSegment) (its : list item) : Prop :=
  match act with
  | None => its = []
  | Some a =>
      items_wf its ∧ a_size a = zlen (body_of its) ∧ a_size a < 2 ^ 37 ∧
      take (length (body_of its)) (a_file a) = body_of its ∧
      a_index a = list_to_map (item_locs 8 its)
  end.

(** ** Stores *)
Definition newest_map (segs : list (list item)) : gmap Key item := ⋃ (item_map <$> rev segs).

Lemma newest_map_snoc its segs :
  item_map its ∪ newest_map segs = item_map [] ∪ newest_map (segs ++ [its]).
Proof.
  unfold newest_map. rewrite rev_app_distr. cbn [rev app]. rewrite fmap_cons. cbn [union_list].
  change (item_map []) with (∅ : gmap Key item). by rewrite (left_id_L ∅ (∪)).
Qed.

(** [represents s m] is about the segments; [room] bounds the active segment of a
    store that still accepts records, so that the index of the segment it
    becomes can count its entries. *)
Definition represents `{Fuse} (s : Store) (m : gmap Key item) : Prop :=
  segmentSize (cfg s) <= 2 ^ 36 ∧
  ∃ its segs, active_rep (active s) its ∧ Forall2 seg_rep (sealed s) segs ∧
              m = item_map its ∪ newest_map segs.

Definition room (s : Store) : Prop :=
  failed s = None → match active s with Some a => a_size a < 2 ^ 36 | None => True end.

Definition store_rep `{Fuse} (s : Store) (m : gmap Key item) : Prop := represents s m ∧ room s.

Lemma represents_frame `{Fuse} s s' m :
  active s' = active s → sealed s' = sealed s → cfg s' = cfg s → represents s m → represents s' m.
Proof. unfold represents. by intros -> -> ->. Qed.

Lemma store_rep_frame `{Fuse} s s' m :
  active s' = active s → sealed s' = sealed s → cfg s' = cfg s → (failed s' = None → failed s = None) →
  store_rep s m → store_rep s' m.
Proof.
  intros Ha Hs Hc Hf [Hr Hroom]. split; [by eapply represents_frame|].
  intros Hn. rewrite Ha. by apply Hroom, Hf.
Qed.

(** The loop over the sealed segments, newest first. *)
Lemma newest_first_spec `{Fuse} {A} (f : sealedSegment → result (option A)) (h : item → A) k gs segs :
  (∀ g its, seg_rep g its → f g = Ok (h <$> item_map its !! k)) →
  Forall2 seg_rep gs segs → newest_first f (rev gs) = Ok (h <$> newest_map segs !! k).
Proof.
  intros Hf Hall. unfold newest_map.
  assert (Forall2 seg_rep (rev gs) (rev segs)) as Hrev.
  { induction Hall; [done|]. simpl. by apply Forall2_app; [|constructor]. }
  clear Hall. induction Hrev as [|g its gs' segs' Hg _ IH]; [done|].
  simpl. rewrite (Hf g its Hg). rsimpl. rewrite lookup_union.
  destruct (item_map its !! k) as [it|] eqn:Hit; simpl.
  - by destruct (_ !! k).
  - rewrite IH. by rewrite (left_id_L None _).
Qed.
End items.

(** ** Reasoning about store operations *)
Definition wp {A} (m : M A) (Q : result A → Store → Prop) (s : Store) : Prop := Q (fst (m s)) (snd (m s)).

Section wp.
Context {A B : Type}.
Implicit Types (s : Store).

Lemma wp_bind (m : M A) (f : A → M B) Q s :
  wp m (λ r s', match r with
                | Ok a => wp (f a) Q s'
                | Err e => Q (Err e) s'
                | Panic => Q Panic s'
                | Diverge => Q Diverge s'
                end) s → wp (bindM m f) Q s.
Proof. unfold wp, bindM. by destruct (m s) as [[] s']. Qed.

Lemma wp_mono (m : M A) (P Q : result A → Store → Prop) s :
  (∀ r s', P r s' → Q r s') → wp m P s → wp m Q s.
Proof. unfold wp. eauto. Qed.

Lemma wp_get (f : Store → A) Q s : Q (Ok (f s)) s → wp (getM f) Q s.
Proof. done. Qed.
Lemma wp_ret (a : A) Q s : Q (Ok a) s → wp (retM a) Q s.
Proof. done. Qed.
Lemma wp_fail e (Q : result A → Store → Prop) s : Q (Err e) s → wp (failM e) Q s.
Proof. done. Qed.
Lemma wp_lift (r : result A) Q s : Q r s → wp (liftM r) Q s.
Proof. done. Qed.
Lemma wp_mod f Q s : Q (Ok tt) (f s) → wp (modM f) Q s.
Proof. done. Qed.
Lemma wp_try (m : M A) Q s : wp m (λ r s', Q (Ok r) s') s → wp (tryM m) Q s.
Proof. unfold wp, tryM. by destruct (m s). Qed.
End wp.

Lemma wp_assoc {A B C} (m : M A) (f : A → M B) (g : B → M C) Q s :
  wp (bindM (bindM m f) g) Q s → wp (bindM m (λ a, bindM (f a) g)) Q s.
Proof. unfold wp, bindM. by destruct (m s) as [[] s']. Qed.

(** No system call fails from here on. *)
Definition quiet (s : Store) : Prop := Forall (λ o, o = IoOk) (io s).

Lemma set_io_id s : set_io (io s) s = s.
Proof. by destruct s. Qed.

Lemma wp_syscall Q s :
  (∀ l, (quiet s → quiet (set_io l s)) → Q (Ok tt) (set_io l s)) →
  (∀ e l, ¬ quiet s → Q (Err e) (set_io l s)) → wp syscall Q s.
Proof.
  intros Hok Herr. unfold wp, syscall, quiet in *. destruct (io s) as [|[|e n] l] eqn:E; simpl.
  - rewrite <- (set_io_id s). apply Hok. rewrite set_io_id, E. done.
  - apply Hok. intros Hq. by inversion Hq.
  - apply Herr. intros Hq. by inversion Hq.
Qed.

Lemma wp_writeAt file data off Q s :
  (∀ l, (quiet s → quiet (set_io l s)) → Q (Ok (write_at file data off, Ok tt)) (set_io l s)) →
  (∀ e n l, ¬ quiet s → Q (Ok (write_at file (take n data) off, Err e)) (set_io l s)) →
  wp (writeAt file data off) Q s.
Proof.
  intros Hok Herr. unfold wp, writeAt, quiet in *. destruct (io s) as [|[|e n] l] eqn:E; simpl.
  - rewrite <- (set_io_id s). apply Hok. rewrite set_io_id, E. done.
  - apply Hok. intros Hq. by inversion Hq.
  - apply Herr. intros Hq. by inversion Hq.
Qed.

(** One step of a computation in the monad. *)
Ltac wp_pure :=
  lazymatch goal with
  | |- wp (bindM _ _) _ _ => apply wp_bind
  | |- wp (getM _) _ _ => apply wp_get
  | |- wp (retM _) _ _ => apply wp_ret
  | |- wp (failM _) _ _ => apply wp_fail
  | |- wp (liftM _) _ _ => apply wp_lift
  | |- wp (modM _) _ _ => apply wp_mod
  | |- wp (tryM _) _ _ => apply wp_try
  end; cbn beta iota.

Ltac wp_step :=
  first [wp_pure |
  lazymatch goal with
  | |- wp (if ?b then _ else _) _ _ => destruct b eqn:?
  | |- wp (match ?x with _ => _ end) _ _ => destruct x eqn:?
  end; cbn beta iota].

(** All the steps up to the next system call or case distinction. *)
Ltac wp_run := repeat wp_pure; cbn [fst snd]; repeat wp_pure.
