(* ===== verification/PackstoreFacts.v ===== *)
(** * The store implements a map

    Every operation of a store that represents the map [m] either answers from
    [m] or leads to a store that represents an updated map; errors, those of the
    system calls included, never lose an object. *)

From Stdlib Require Import Init.Byte.
From S2P Require Import Prelude Machine Key FsEncode FsTree FsRead FsWalk PackRecord Footer FooterFacts Packstore PackstoreRep.
From Stdlib Require Import ZifyBool ZifyNat.
Local Open Scope Z_scope.

Section reads.
Context `{Fuse} `{Zstd} `{ItemInv}.

(** A location of the active index and the item it belongs to. *)
Lemma active_find_spec act its k : active_rep act its →
  match item_map its !! k with
  | None => act ≫= (λ a, a_index a !! k) = None
  | Some it =>
      ∃ a off, act = Some a ∧ item_ok it ∧ 0 <= off ∧ off + zlen (it_rec it) <= zlen (a_file a) ∧
        a_index a !! k = Some (mkLoc off (Flags (it_hdr it)) (Ulen (it_hdr it)) (Slen (it_hdr it))) ∧
        take (rec_size (it_hdr it)) (drop (Z.to_nat off) (a_file a)) = it_rec it
  end.
Proof.
  destruct act as [a|]; [|by intros ->].
  intros ((Hok & Hnd) & Hsz & _ & Hbody & Hix).
  destruct (item_map its !! k) as [it|] eqn:Hk.
  - apply item_map_lookup in Hk as [Hin <-]; [|done].
    rewrite Forall_forall in Hok. pose proof (Hok it Hin) as Hit.
    apply list_elem_of_split in Hin as (its1 & its2 & ->).
    destruct (body_record (a_file a) its1 it its2 Hit Hbody) as (_ & Hrec & Hend).
    exists a, (8 + zlen (concat (it_rec <$> its1))). split_and!; [done|done|lia| | |].
    + apply (f_equal length) in Hbody. rewrite length_take in Hbody.
      destruct Hit as (_ & _ & Hl & _). lia.
    + rewrite Hix. apply elem_of_list_to_map_1; [by rewrite item_locs_keys|]. apply item_locs_middle.
    + by replace (Z.to_nat _) with (8 + length (concat (it_rec <$> its1)))%nat by lia.
  - apply item_map_None in Hk. simpl. rewrite Hix. apply not_elem_of_list_to_map_1. by rewrite item_locs_keys.
Qed.

Lemma Has_spec s m k : represents s m → closed s = false →
  Has k s = (Ok (bool_decide (is_Some (m !! k))), s).
Proof.
  intros (_ & its & segs & Ha & Hs & ->) Hc. unfold Has, active_find. rewrite Hc.
  pose proof (active_find_spec (active s) its k Ha) as Hf. rewrite lookup_union.
  destruct (item_map its !! k) as [it|].
  - destruct Hf as (a & off & -> & _ & _ & _ & -> & _). by destruct (newest_map segs !! k).
  - replace (match active s with Some a => a_index a !! k | None => None end) with (@None activeLoc)
      by (by destruct (active s)).
    rewrite (newest_first_spec _ (λ _, tt) k (sealed s) segs); [|intros g its' Hg|done].
    + rsimpl. rewrite (left_id_L None _). by destruct (newest_map segs !! k).
    + rewrite (proj1 (seg_reads g its' k Hg)). rsimpl. by destruct (item_map its' !! k).
Qed.

(** Only the list of outcomes changed. *)
Definition same_store (s s' : Store) : Prop := ∃ l, s' = set_io l s.

Lemma same_store_refl s : same_store s s.
Proof. exists (io s). by rewrite set_io_id. Qed.

Lemma same_store_rep s s' m : same_store s s' → store_rep s m → store_rep s' m.
Proof. intros [l ->]. by apply store_rep_frame. Qed.

Lemma readAt_spec file n off s :
  0 <= n → 0 <= off → off + n <= zlen file →
  wp (readAt file n off) (λ r s', same_store s s' ∧
    (r = Ok (take (Z.to_nat n) (drop (Z.to_nat off) file)) ∨ (∃ e, r = Err e) ∧ ¬ quiet s)) s.
Proof.
  intros Hn Ho Hle. unfold readAt. wp_step. apply wp_syscall.
  - intros l _. wp_step; [|lia]. wp_step. split; [by exists l|]. left.
    apply (slice_drop file (Z.to_nat off) (Z.to_nat n)); lia.
  - intros e l Hq. split; [by exists l|]. eauto.
Qed.

(** What a lookup that found an item answers: its payload, or the error of the
    one system call that failed. *)
Definition answers {A} (s : Store) (x : option A) (r : result A) : Prop :=
  match x with
  | Some a => r = Ok a ∨ (∃ e, r = Err e) ∧ ¬ quiet s
  | None => r = Err (errors_New ErrObjectNotFound)
  end.

Lemma payload_field (file rec : bytes) r off :
  0 <= off → 0 <= Slen r → take (rec_size r) (drop (Z.to_nat off) file) = rec →
  take (Z.to_nat (Slen r)) (drop (Z.to_nat (off + RecHeaderSize)) file) = drop 46 rec.
Proof.
  intros Ho Hs <-. unfold rec_size, RecHeaderSize.
  rewrite skipn_firstn_comm, drop_drop. f_equal; [lia|]. f_equal. lia.
Qed.

Lemma active_none act k :
  act ≫= (λ a, a_index a !! k) = None →
  act ≫= (λ a, loc ← a_index a !! k; Some (a, loc)) = None.
Proof. destruct act as [a|]; [|done]. simpl. by intros ->. Qed.

Lemma Get_spec s m k : represents s m → closed s = false →
  wp (Get k) (λ r s', same_store s s' ∧ answers s (it_data <$> m !! k) r) s.
Proof.
  intros (_ & its & segs & Ha & Hs & ->) Hc. unfold Get. wp_step. wp_step. rewrite Hc. wp_step. wp_step.
  pose proof (active_find_spec (active s) its k Ha) as Hf. rewrite lookup_union.
  destruct (item_map its !! k) as [it|].
  - rewrite union_Some_l. destruct Hf as (a & off & -> & Hit & Hoff & Hend & Hix & Hrec).
    cbn. rewrite Hix. cbn. pose proof (item_ok_size it Hit) as (Hsl & Hl & _).
    wp_step. eapply wp_mono, readAt_spec; [|unfold RecHeaderSize; lia..].
    intros r s' [Hs' [->|[[e ->] Hq]]]; [|by eauto].
    wp_step. split; [done|]. left. rewrite (payload_field _ _ (it_hdr it) off Hoff (proj1 Hsl) Hrec). apply Hit.
  - rewrite (left_id_L None _), (active_none _ _ Hf). cbn beta iota. do 4 wp_step. rewrite (newest_first_spec _ it_data k _ segs); [|intros ?? Hg; by apply seg_reads|done].
    cbn. destruct (newest_map segs !! k); simpl; (split; [apply same_store_refl|]); [by left|done].
Qed.

Lemma GetRecord_spec s m k : represents s m → closed s = false →
  wp (GetRecord k) (λ r s', same_store s s' ∧ answers s (it_rec <$> m !! k) r) s.
Proof.
  intros (_ & its & segs & Ha & Hs & ->) Hc. unfold GetRecord. wp_step. wp_step. rewrite Hc. wp_step. wp_step.
  pose proof (active_find_spec (active s) its k Ha) as Hf. rewrite lookup_union.
  destruct (item_map its !! k) as [it|].
  - rewrite union_Some_l. destruct Hf as (a & off & -> & Hit & Hoff & Hend & Hix & Hrec).
    cbn. rewrite Hix. cbn. pose proof (item_ok_size it Hit) as (Hsl & Hl & _).
    eapply wp_mono, readAt_spec; [|unfold RecHeaderSize; lia..].
    intros r s' [Hs' [->|[[e ->] Hq]]]; [|by eauto]. split; [done|]. left. by rewrite <- Hrec.
  - rewrite (left_id_L None _), (active_none _ _ Hf). cbn beta iota. do 4 wp_step.
    rewrite (newest_first_spec _ it_rec k _ segs); [|intros ?? Hg; by apply seg_reads|done].
    cbn. destruct (newest_map segs !! k); simpl; (split; [apply same_store_refl|]); [by left|done].
Qed.

Lemma StoredSize_spec s m k : represents s m → closed s = false →
  StoredSize k s = (Ok ((λ it, Slen (it_hdr it)) <$> m !! k), s).
Proof.
  intros (_ & its & segs & Ha & Hs & ->) Hc. unfold StoredSize, active_find. rewrite Hc.
  pose proof (active_find_spec (active s) its k Ha) as Hf. rewrite lookup_union.
  destruct (item_map its !! k) as [it|].
  - rewrite union_Some_l. by destruct Hf as (a & off & -> & _ & _ & _ & -> & _).
  - rewrite (left_id_L None _). destruct (active s) as [a|]; simpl in Hf; rewrite ?Hf;
      (rewrite (newest_first_spec _ (λ it, Slen (it_hdr it)) k _ segs);
        [done|intros ?? Hg; by apply seg_reads|done]).
Qed.
End reads.

(** ** Sealing *)
Section sealing.
Context `{Fuse} `{Zstd} `{ItemInv}.

Lemma body_length its : Forall item_ok its → 8 + 46 * zlen its <= zlen (body_of its).
Proof.
  intros Hok. unfold body_of. rewrite length_app. change (length magicHeader) with 8%nat.
  induction Hok as [|it its Hit Hok IH]; [done|]. rewrite fmap_cons. cbn [concat]. rewrite length_app.
  pose proof (item_ok_size it Hit). simpl length. lia.
Qed.

Lemma item_locs_bounds off its k loc : Forall item_ok its → 0 <= off →
  (k, loc) ∈ item_locs off its →
  off <= al_off loc <= off + zlen (concat (it_rec <$> its)) ∧ 0 <= al_slen loc < 2 ^ 32.
Proof.
  intros Hok Hoff (its1 & it & its2 & -> & _ & -> & _ & _ & ->)%item_locs_inv.
  apply Forall_app in Hok as [_ Hok]. apply Forall_cons in Hok as [Hit _].
  pose proof (item_ok_size it Hit) as (Hs & _). unfold MaxPayload in Hs.
  rewrite fmap_app, concat_app, length_app. split; lia.
Qed.

(** The entries a seal indexes are those of the items. *)
Lemma active_entries_perm a its : active_rep (Some a) its →
  active_entries a ≡ₚ loc_entry <$> item_locs 8 its.
Proof.
  intros ((Hok & Hnd) & Hsz & Hlt & _ & Hix). unfold active_entries. rewrite Hix.
  rewrite map_to_list_to_map by (by rewrite item_locs_keys).
  apply Permutation_refl', list_fmap_ext. intros i [k loc] Hi%list_elem_of_lookup_2.
  apply item_locs_bounds in Hi; [|done|done]. unfold loc_entry. simpl.
  unfold body_of in Hsz. rewrite length_app in Hsz. change (length magicHeader) with 8%nat in Hsz.
  f_equal. apply Z.mod_small. lia.
Qed.

Lemma loc_entries_ok its : Forall item_ok its → zlen (body_of its) < 2 ^ 37 →
  Forall entry_ok (loc_entry <$> item_locs 8 its).
Proof.
  intros Hok Hlt. apply Forall_fmap, Forall_forall. intros [k loc] Hin.
  apply item_locs_bounds in Hin; [|done|done]. unfold body_of in Hlt.
  rewrite length_app in Hlt. change (length magicHeader) with 8%nat in Hlt.
  unfold entry_ok, is_u64, is_u32, loc_entry. simpl. lia.
Qed.

Lemma length_item_locs off its : length (item_locs off its) = length its.
Proof. rewrite <- (length_fmap fst), item_locs_keys. apply length_fmap. Qed.

Lemma footer_length bodyLen es ft : 0 <= bodyLen < 2 ^ 63 → zlen es < 2 ^ 32 →
  buildFooter bodyLen es = Ok ft → zlen ft < 2 ^ 40.
Proof.
  intros Hb Hes Hft. destruct (buildFooter_Ok bodyLen es ft Hft Hb) as (f & idx & -> & _ & Hwf & _ & _ & ->).
  rewrite !length_app, length_trailer. pose proof (length_index es Hes). pose proof (length_fuse_bytes f).
  destruct Hwf as (_ & _ & _ & _ & _ & Hfp & _). unfold is_u32 in Hfp.
  unfold fanoutSize, indexEntrySize, filterHeaderSize in *. change (length [tagSeal]) with 1%nat. lia.
Qed.

Lemma seal_built id its es ft :
  items_wf its → zlen (body_of its) < 2 ^ 37 → es ≡ₚ loc_entry <$> item_locs 8 its →
  buildFooter (zlen (body_of its)) es = Ok ft →
  ∃ g, openSealed id (body_of its ++ ft) = Ok g ∧ sg_id g = id ∧ seg_rep g its.
Proof.
  intros [Hok Hnd] Hlt Hperm Hft.
  assert (zlen es < 2 ^ 32) as Hes.
  { rewrite Hperm, length_fmap, length_item_locs. pose proof (body_length its Hok). lia. }
  pose proof (footer_length (zlen (body_of its)) es ft ltac:(lia) Hes Hft).
  destruct (parse_build_footer (body_of its) es ft) as (fv & Hp & Hb); [done|done|done|rewrite length_app; lia|].
  assert (openSealed id (body_of its ++ ft) = Ok (mkSealed id (body_of its ++ ft) fv)) as Hopen.
  { unfold openSealed. case_if; [|by rewrite Hp]. unfold parseFooter in Hp. by rewrite Heqb in Hp. }
  exists (mkSealed id (body_of its ++ ft) fv). split_and!; [done|done|].
  - split; [done|]. split; [lia|]. split; [apply take_app_length|].
    split; [exact Hopen|]. exists es. split; [|done]. split_and!; [done| |done|].
    + unfold keys_of. rewrite Hperm. by rewrite entry_keys.
    + rewrite Hperm. by apply loc_entries_ok.
Qed.

(** Building a footer fails only when the filter cannot be built. *)
Definition fuse_builds : Prop := ∀ ts, is_ok (NewBinaryFuse ts) = true.

Lemma buildFooter_cases bodyLen es : es ≠ [] →
  safe (buildFooter bodyLen es) ∧ (fuse_builds → ∃ ft, buildFooter bodyLen es = Ok ft).
Proof.
  intros Hne. unfold buildFooter. destruct (length es =? 0)%nat eqn:E; [by destruct es|].
  unfold buildFilterSection. set (ts := compact _). split.
  - pose proof (NewBinaryFuse_safe ts) as Hsafe. apply safe_bind; [|intros; apply safe_Ok].
    apply safe_bind; [by apply safe_wrap|intros; apply safe_Ok].
  - intros Hb. destruct (proj1 (is_ok_true _) (Hb ts)) as [f ->]. rsimpl. eauto.
Qed.

(** The parts of the state that appends and seals leave alone. *)
Definition core (s : Store) : config * bool * option (gset Key) * bool * option error :=
  (cfg s, capturing s, grey s, closed s, failed s).

(** [s'] comes from [s] by steps that keep the objects [m]. *)
Definition keeps (s : Store) (m : gmap Key item) (s' : Store) : Prop :=
  represents s' m ∧ core s' = core s.

Definition healthy (s : Store) : Prop := quiet s ∧ fuse_builds.

Lemma keeps_set_io s m s' l : keeps s m s' → keeps s m (set_io l s').
Proof. intros [Hr Hc]. split; [by eapply represents_frame|done]. Qed.

(** Bytes past the recorded size of the active file do not matter. *)
Lemma keeps_set_file s m s' a file :
  active s' = Some a → take (Z.to_nat (a_size a)) file = take (Z.to_nat (a_size a)) (a_file a) →
  keeps s m s' → keeps s m (set_active (Some (set_file a file)) s').
Proof.
  intros Ha Hf [(Hcfg & its & segs & Hact & Hs & ->) Hc]. split; [|done]. split; [done|].
  exists its, segs. split_and!; [|done|done]. rewrite Ha in Hact. simpl in *.
  pose proof Hact as (_ & Hsz & _). rewrite Hsz, Nat2Z.id in Hf. by rewrite Hf.
Qed.

Lemma take_write_at file data off n :
  (n <= Z.to_nat off)%nat → (Z.to_nat off <= length file)%nat →
  take n (write_at file data off) = take n file.
Proof.
  intros Hn Hl. unfold write_at. rewrite take_app_le by (rewrite length_take; lia).
  rewrite take_take. f_equal. lia.
Qed.

Lemma active_size a its : active_rep (Some a) its →
  a_size a = zlen (body_of its) ∧ 8 <= a_size a <= zlen (a_file a).
Proof.
  intros ([Hok _] & Hsz & _ & Ht & _). split; [done|]. pose proof (body_length its Hok).
  apply (f_equal length) in Ht. rewrite length_take in Ht. lia.
Qed.

(** The sealed file takes the place of the active one. *)
Lemma represents_sealed s a m its segs g :
  represents s m → active s = Some a → active_rep (Some a) its → Forall2 seg_rep (sealed s) segs →
  m = item_map its ∪ newest_map segs → seg_rep g its →
  represents (set_active None (set_sealed (sealed s ++ [g]) s)) m.
Proof.
  intros (Hcfg & _) Ha Hact Hs -> Hg. split; [done|]. exists [], (segs ++ [its]). split_and!; [done| |].
  - simpl. apply Forall2_app; [done|]. by constructor.
  - apply newest_map_snoc.
Qed.

Definition seal_post (s : Store) (m : gmap Key item) (r : result unit) (s' : Store) : Prop :=
  keeps s m s' ∧ safe r ∧
  (r = Ok tt → match active s' with Some a => a_index a = ∅ | None => True end) ∧
  (healthy s → r = Ok tt ∧ quiet s').

Lemma seal_err s m e s' : keeps s m s' → ¬ healthy s → seal_post s m (Err e) s'.
Proof. intros Hk Hh. split_and!; [apply Hk..|split|done|done]. all: done. Qed.

Lemma seal_ok s m s' : keeps s m s' →
  match active s' with Some a => a_index a = ∅ | None => True end → (quiet s → quiet s') →
  seal_post s m (Ok tt) s'.
Proof. intros Hk Ha Hq. split_and!; [apply Hk..|split|done|]; [done..|]. intros [? _]. auto. Qed.

Lemma active_entries_ne a : a_index a ≠ ∅ → active_entries a ≠ [].
Proof. unfold active_entries. intros Hne Hn%fmap_nil_inv. by apply map_to_list_empty_iff in Hn. Qed.

Lemma write_at_end (file data : bytes) off :
  0 <= off <= zlen file →
  write_at (take (Z.to_nat off) file) data off = take (Z.to_nat off) file ++ data.
Proof.
  intros Hoff. unfold write_at. rewrite take_take, Nat.min_id, drop_ge by (rewrite length_take; lia).
  by rewrite app_nil_r.
Qed.

(** The steps of a seal after the footer was written. *)
Lemma seal_finish s m s2 a its segs es ft :
  keeps s m s2 → (quiet s → quiet s2) → active s2 = Some a → active_rep (Some a) its →
  Forall2 seg_rep (sealed s2) segs → m = item_map its ∪ newest_map segs →
  a_file a = body_of its ++ ft → buildFooter (zlen (body_of its)) es = Ok ft →
  es ≡ₚ loc_entry <$> item_locs 8 its →
  wp (syscall;;; syscall;;; syscall;;;
      seg <- liftM (openSealed (a_id a) (a_file a));;
      modM (λ s, set_active None (set_sealed (sealed s ++ [seg]) s));;; syscall)%store
     (seal_post s m) s2.
Proof.
  intros Hk Hq Ha Hact Hs Hm Hfile Hft Hperm.
  destruct (active_size a its Hact) as [Hsz _]. pose proof Hact as (Hwf & _ & Hlt & _).
  destruct (seal_built (a_id a) its es ft Hwf ltac:(lia) Hperm Hft) as (g & Hopen & _ & Hg).
  wp_step. apply wp_syscall; [|intros; apply seal_err; [by apply keeps_set_io|by intros [? _]; auto]].
  intros l1 Hq1. wp_step.
  apply wp_syscall; [|intros; apply seal_err; [by repeat apply keeps_set_io|intros [? _]; naive_solver]].
  intros l2 Hq2. wp_step.
  apply wp_syscall; [|intros; apply seal_err; [by repeat apply keeps_set_io|intros [? _]; naive_solver]].
  intros l3 Hq3. do 2 wp_step. rewrite Hfile, Hopen. do 2 wp_step.
  set (s3 := set_io l3 _).
  assert (keeps s m (set_active None (set_sealed (sealed s3 ++ [g]) s3))) as Hk3.
  { destruct Hk as [Hr Hc]. split; [|exact Hc]. eapply (represents_sealed s3); try done. }
  apply wp_syscall; [|intros; apply seal_err; [by apply keeps_set_io|intros [? _]; naive_solver]].
  intros l4 Hq4. apply seal_ok; [by apply keeps_set_io|done|naive_solver].
Qed.

Lemma seal_spec s m : represents s m → wp sealActiveLocked (seal_post s m) s.
Proof.
  intros Hrep. pose proof Hrep as (Hcfg & its & segs & Hact & Hs & Hm). unfold sealActiveLocked.
  assert (keeps s m s) as Hk by done.
  wp_step. wp_step. destruct (active s) as [a|] eqn:Ha; cbn beta iota.
  2:{ wp_step. apply seal_ok; [done| |done]. by rewrite Ha. }
  wp_step; [wp_step; apply seal_ok; [done| |done]; rewrite Ha; by eapply bool_decide_eq_true_1|].
  assert (active_entries a ≠ []) as Hne by (by apply active_entries_ne; eapply bool_decide_eq_false_1).
  destruct (active_size a its Hact) as [Hsz Hbnd].
  destruct (buildFooter_cases (a_size a) _ Hne) as [Hsafe Hbuild].
  wp_step. wp_step. destruct (buildFooter _ _) as [ft|e| |] eqn:Hft; [|..]; try by destruct Hsafe.
  2:{ apply seal_err; [done|]. intros [_ Hb]. by destruct (Hbuild Hb). }
  wp_step. apply wp_syscall; [|intros; apply seal_err; [by apply keeps_set_io|by intros []]].
  intros l1 Hq1. wp_step. wp_step. wp_step. set (a1 := set_file a _).
  assert (keeps s m (set_active (Some a1) (set_io l1 s))) as Hk1.
  { apply keeps_set_file; [done|by rewrite take_take, Nat.min_id|by apply keeps_set_io]. }
  apply wp_writeAt.
  2:{ intros e n l2 Hq. do 4 wp_step. apply seal_err; [|intros [? _]; naive_solver].
      apply keeps_set_file; [done| |by apply keeps_set_io].
      apply take_write_at; [done|]. simpl. rewrite length_take. lia. }
  intros l2 Hq2. do 4 wp_step. set (a2 := set_file a1 _).
  assert (keeps s m (set_active (Some a2) (set_io l2 (set_active (Some a1) (set_io l1 s))))) as Hk2.
  { apply keeps_set_file; [done| |by apply keeps_set_io].
    apply take_write_at; [done|]. simpl. rewrite length_take. lia. }
  assert (a_file a2 = body_of its ++ ft) as Hfile.
  { change (a_file a2) with (write_at (take (Z.to_nat (a_size a)) (a_file a)) ft (a_size a)).
    rewrite write_at_end, Hsz, Nat2Z.id by lia. by destruct Hact as (_ & _ & _ & -> & _). }
  assert (active_rep (Some a2) its) as Hact2.
  { destruct Hact as (Hw & _ & Hlt & _ & Hix). cbn [active_rep]. rewrite Hfile. split_and!; [apply Hw..|done|done| |done].
    apply take_app_length. }
  apply (seal_finish s m _ a2 its segs (active_entries a) ft Hk2); [|reflexivity|exact Hact2|exact Hs|exact Hm|exact Hfile| |].
  - intros Hq. apply Hq2, Hq1, Hq.
  - rewrite <- Hsz. exact Hft.
  - by apply active_entries_perm.
Qed.
End sealing.

(** ** Appending *)
Section appending.
Context `{Fuse} `{Zstd} `{ItemInv}.

(** The header fields an append reads from the record it was given. *)
Lemma record_fields rec r : record_at rec r →
  index rec 33 = Ok (Flags r) ∧
  (∃ ub, slice rec 34 38 = Ok ub ∧ be_dec ub = Ulen r) ∧
  (∃ sb, slice rec 38 42 = Ok sb ∧ be_dec sb = Slen r).
Proof.
  intros (Hl & _ & Hf & _ & Hu & Hs & _). pose proof (be4_range rec 38) as Hr. rewrite <- Hs in Hr.
  unfold RecHeaderSize in Hl. split_and!.
  - by apply (index_nat rec 33).
  - eexists. split; [apply (slice_drop rec 34 4); lia|]. by rewrite Hu.
  - eexists. split; [apply (slice_drop rec 38 4); lia|]. by rewrite Hs.
Qed.

Definition new_loc (a : activeSegment) (it : item) : activeLoc :=
  mkLoc (a_size a) (Flags (it_hdr it)) (Ulen (it_hdr it)) (Slen (it_hdr it)).

Lemma body_of_snoc its it : body_of (its ++ [it]) = body_of its ++ it_rec it.
Proof. unfold body_of. rewrite fmap_app, concat_app, app_assoc. f_equal. apply app_nil_r. Qed.

Lemma active_rep_append a its it :
  active_rep (Some a) its → item_ok it → a_index a !! it_key it = None → a_size a < 2 ^ 36 →
  active_rep (Some (mkActive (a_id a) (write_at (a_file a) (it_rec it) (a_size a))
                      (a_size a + zlen (it_rec it)) (<[it_key it := new_loc a it]> (a_index a))))
             (its ++ [it]) ∧ it_key it ∉ (it_key <$> its).
Proof.
  intros Hact Hit Hn Hroom. destruct (active_size a its Hact) as [Hsz Hbnd].
  pose proof Hact as ((Hok & Hnd) & _ & _ & Ht & Hix). pose proof (item_ok_size it Hit) as (Hs & Hl & _).
  assert (it_key it ∉ (it_key <$> its)) as Hnew.
  { rewrite Hix in Hn. apply not_elem_of_list_to_map_2 in Hn. by rewrite item_locs_keys in Hn. }
  split; [|done]. cbn [active_rep a_size a_file a_index]. rewrite body_of_snoc. split_and!.
  - split; [apply Forall_app; by split; [|constructor]|].
    rewrite fmap_app. apply NoDup_app. split_and!; [done| |apply NoDup_singleton].
    intros k Hk ->%list_elem_of_singleton. by apply Hnew.
  - rewrite length_app. lia.
  - unfold MaxPayload in Hs. lia.
  - unfold write_at. rewrite Hsz, Nat2Z.id, Ht, app_assoc. apply take_app_length.
  - rewrite Hix, item_locs_app. cbn [item_locs]. rewrite list_to_map_snoc by (by rewrite item_locs_keys).
    f_equal. unfold new_loc. f_equal. unfold body_of in Hsz. rewrite length_app in Hsz. simpl length in Hsz. lia.
Qed.

Lemma represents_append s m a it :
  represents s m → active s = Some a → item_ok it → a_index a !! it_key it = None → a_size a < 2 ^ 36 →
  represents (set_active (Some (mkActive (a_id a) (write_at (a_file a) (it_rec it) (a_size a))
                (a_size a + zlen (it_rec it)) (<[it_key it := new_loc a it]> (a_index a)))) s)
             (<[it_key it := it]> m).
Proof.
  intros (Hcfg & its & segs & Hact & Hs & ->) Ha Hit Hn Hroom. rewrite Ha in Hact.
  destruct (active_rep_append a its it Hact Hit Hn Hroom) as [Hact' Hnew].
  split; [done|]. exists (its ++ [it]), segs. split_and!; [done|done|].
  by rewrite item_map_snoc, insert_union_l.
Qed.

Lemma keeps_frame s m s' s'' :
  active s'' = active s' → sealed s'' = sealed s' → core s'' = core s' → keeps s m s' → keeps s m s''.
Proof.
  intros Ha Hs Hc [Hr Hc']. split; [|congruence]. unfold core in Hc. simplify_eq.
  by eapply (represents_frame s').
Qed.

(** A new active segment is empty. *)
Definition create_post (s : Store) (m : gmap Key item) (r : result unit) (s' : Store) : Prop :=
  keeps s m s' ∧ safe r ∧ (quiet s → r = Ok tt ∧ quiet s') ∧
  match r with
  | Ok _ => ∃ a, active s' = Some a ∧ a_size a = 8 ∧ a_index a = ∅
  | _ => active s' = None
  end.

Lemma createActive_spec s m : represents s m → active s = None → wp createActive (create_post s m) s.
Proof.
  intros Hrep Ha. unfold createActive. wp_run. set (s1 := set_nextID _ s).
  assert (keeps s m s1) as Hk by (by apply (keeps_frame s m s)).
  assert (∀ e s', ¬ quiet s → active s' = None → keeps s m s' → create_post s m (Err e) s') as Herr.
  { intros e s' Hq Ha' Hk'. split_and!; try done; by apply Hk'. }
  apply wp_syscall; [|intros; apply Herr; [done|done|by apply keeps_set_io]].
  intros l1 Hq1. wp_run. apply wp_writeAt.
  2:{ intros e n l2 Hq2. wp_run. apply Herr; [naive_solver|done|by do 2 apply keeps_set_io]. }
  intros l2 Hq2. wp_run.
  apply wp_syscall; [|intros; apply Herr; [naive_solver|done|by do 3 apply keeps_set_io]].
  intros l3 Hq3. wp_run.
  apply wp_syscall; [|intros; apply Herr; [naive_solver|done|by do 4 apply keeps_set_io]].
  intros l4 Hq4. wp_run. split_and!.
  - destruct Hrep as (Hcfg & its & segs & Hact & Hs & Hm). rewrite Ha in Hact. simpl in Hact. subst its.
    split; [|done]. split; [done|]. exists [], segs. split_and!; [|done|done].
    split; [by split; constructor|done].
  - done.
  - intros Hq. split; [done|]. by apply Hq4, Hq3, Hq2, Hq1.
  - eexists. split; [done|]. done.
Qed.

Definition base (s : Store) : config * bool * option (gset Key) * bool :=
  (cfg s, capturing s, grey s, closed s).

Lemma core_base s s' : core s' = core s → base s' = base s ∧ failed s' = failed s.
Proof. unfold core, base. intros [= ? ? ? ? ?]. split; congruence. Qed.

(** A failed step marks the store: what it represents does not change, and the
    active segment accepts no further record. *)
Lemma wp_or_fail {A} (m : M A) Q s :
  wp m (λ r s', match r with
                | Err e => ∀ s'', active s'' = active s' → sealed s'' = sealed s' → base s'' = base s' →
                                  failed s'' ≠ None → Q (Err e) s''
                | r => Q r s'
                end) s → wp (or_fail m) Q s.
Proof.
  intros Hm. unfold or_fail. wp_run. eapply wp_mono, Hm. intros [a|e| |] s' HQ; try done.
  unfold setFailed. wp_run. apply HQ; destruct (failed s') eqn:?; first [reflexivity|done|congruence].
Qed.

Definition append_post (s : Store) (m : gmap Key item) (it : item) (r : result unit) (s' : Store) : Prop :=
  safe r ∧ base s' = base s ∧ (healthy s → r = Ok tt ∧ quiet s' ∧ failed s' = None) ∧
  ∃ m', store_rep s' m' ∧ (m' = m ∨ m' = <[it_key it := it]> m) ∧
        (r = Ok tt → m' = <[it_key it := it]> m ∨ m' = m ∧ is_Some (m !! it_key it)).

Lemma represents_base s s' m :
  active s' = active s → sealed s' = sealed s → base s' = base s → represents s m → represents s' m.
Proof. intros Ha Hs Hb. apply represents_frame; [done|done|]. unfold base in Hb. congruence. Qed.

(** Failing after the record was stored. *)
Lemma append_err_after s m it e s1 s' :
  represents s1 (<[it_key it := it]> m) → active s' = active s1 → sealed s' = sealed s1 →
  base s' = base s1 → base s1 = base s → failed s' ≠ None → ¬ healthy s → append_post s m it (Err e) s'.
Proof.
  intros Hr Ha Hs Hb Hb1 Hf Hh. split_and!; [apply safe_Err|congruence|done|].
  exists (<[it_key it := it]> m). split_and!; [|by right|done]. split; [by eapply represents_base|by intros ?%Hf].
Qed.

Lemma append_err_before s m it e s' :
  store_rep s' m → base s' = base s → ¬ healthy s → append_post s m it (Err e) s'.
Proof.
  intros Hr Hb Hh. split_and!; [apply safe_Err|done|done|]. exists m. split_and!; [done|by left|done].
Qed.

Lemma empty_size a its : active_rep (Some a) its → a_index a = ∅ → a_size a = 8.
Proof.
  intros (_ & -> & _ & _ & Hix) Hn. rewrite Hn in Hix. destruct its as [|it its]; [done|].
  symmetry in Hix. cbn in Hix. by apply insert_non_empty in Hix.
Qed.

(** The steps after a record was written and indexed. *)
Lemma append_finish s m it a syncNow s1 :
  represents s1 (<[it_key it := it]> m) → base s1 = base s → failed s1 = None → active s1 = Some a →
  (quiet s → quiet s1) →
  wp (sy <- getM (λ s, cfg_sync (cfg s));;
      (if syncNow && sy then or_fail syscall else retM tt);;;
      limit <- getM (λ s, segmentSize (cfg s));;
      if a_size a >=? limit then or_fail sealActiveLocked else retM tt)%store
     (append_post s m it) s1.
Proof.
  intros Hr Hb Hf Ha Hq. wp_run.
  assert (∀ s2, same_store s1 s2 → (quiet s → quiet s2) →
            wp (limit <- getM (λ s, segmentSize (cfg s));;
                if a_size a >=? limit then or_fail sealActiveLocked else retM tt)%store
               (append_post s m it) s2) as Hlast.
  { intros s2 [l ->] Hq2. wp_run. set (s2 := set_io l s1) in *.
    assert (represents s2 (<[it_key it := it]> m)) as Hr2 by (by eapply represents_frame).
    wp_step.
    - apply wp_or_fail. eapply wp_mono, seal_spec; [|exact Hr2].
      intros r s' ([Hr' Hc'] & Hsafe & Hsealed & Hh). apply core_base in Hc' as [Hb' Hf'].
      destruct r as [[]|e| |]; try by destruct Hsafe.
      + split_and!; [done|by rewrite Hb'| |].
        * intros [Hqs Hfb]. split_and!; [done|apply Hh; split; auto|rewrite Hf'; apply Hf].
        * exists (<[it_key it := it]> m). split_and!; [split; [done|]|by right|by left].
          intros _. specialize (Hsealed eq_refl). destruct (active s') as [a'|] eqn:Ha'; [|done].
          destruct Hr' as (_ & its & segs & Hact & _). rewrite Ha' in Hact.
          by rewrite (empty_size a' its).
      + intros s'' ????. eapply (append_err_after _ _ _ _ s'); try done; [by rewrite Hb'|].
        intros [Hqs Hfb]. by destruct Hh as [? _]; [split; auto|].
    - wp_run. split_and!; [done|done| |].
      + intros [Hqs _]. split_and!; [done|auto|done].
      + exists (<[it_key it := it]> m). split_and!; [split; [done|]|by right|by left].
        intros _. simpl. rewrite Ha. destruct Hr as [Hcfg _]. simpl in *. lia. }
  wp_step.
  - apply wp_or_fail, wp_syscall.
    + intros l Hl. apply Hlast; [by exists l|auto].
    + intros e l Hl s'' ????. eapply (append_err_after _ _ _ _ s1); try done. intros [? _]. auto.
  - wp_run. apply Hlast; [apply same_store_refl|done].
Qed.

(** The steps of an append to the open active segment. *)
Lemma append_write s m it a syncNow s1 :
  store_rep s1 m → base s1 = base s → failed s1 = None → active s1 = Some a →
  (quiet s → quiet s1) → item_ok it →
  wp (match a_index a !! it_key it with
      | Some _ => retM tt
      | None =>
          let off := a_size a in
          w <- writeAt (a_file a) (it_rec it) off;;
          modM (set_active (Some (set_file a (fst w))));;;
          liftM (snd w);;;
          flags <- liftM (index (it_rec it) 33);;
          ub <- liftM (slice (it_rec it) 34 38);;
          sb <- liftM (slice (it_rec it) 38 42);;
          let loc := mkLoc off flags (be_dec ub) (be_dec sb) in
          let a := mkActive (a_id a) (fst w) (off + zlen (it_rec it)) (<[it_key it := loc]> (a_index a)) in
          modM (set_active (Some a));;;
          sy <- getM (λ s, cfg_sync (cfg s));;
          (if syncNow && sy then or_fail syscall else retM tt);;;
          limit <- getM (λ s, segmentSize (cfg s));;
          if a_size a >=? limit then or_fail sealActiveLocked else retM tt
      end)%store
     (append_post s m it) s1.
Proof.
  intros [Hr Hroom] Hb Hf Ha Hq Hit. pose proof Hr as (_ & its & segs & Hact & _ & Hm).
  rewrite Ha in Hact. specialize (Hroom Hf) as Hsz. rewrite Ha in Hsz.
  destruct (active_size a its Hact) as [_ Hbnd]. destruct (a_index a !! it_key it) eqn:Hix.
  - wp_run. split_and!; [done|done|intros [? _]; auto|]. exists m. split_and!; [done|by left|]. intros _.
    right. split; [done|]. subst m. rewrite lookup_union. pose proof (active_find_spec _ its (it_key it) Hact) as Hfind.
    destruct (item_map its !! it_key it); [by rewrite union_Some_l|]. simpl in Hfind. congruence.
  - pose proof Hit as (_ & Hat & Hrest). destruct (record_fields _ _ Hat) as (-> & (ub & -> & Hub) & (sb & -> & Hsb)).
    cbv zeta. wp_run. apply wp_writeAt.
    + intros l Hl. do 4 wp_pure. cbn [fst snd]. do 8 wp_pure. rewrite Hub, Hsb. eapply (append_finish s m it _ syncNow); try done; [|naive_solver].
      by eapply represents_frame, (represents_append s1 m a it).
    + intros e n l Hl. wp_run. apply append_err_before; [|done|intros [? _]; auto].
      destruct (keeps_set_file s1 m (set_io l s1) a (write_at (a_file a) (take n (it_rec it)) (a_size a)))
        as [Hr' _]; [done|apply take_write_at; lia|by apply keeps_set_io|].
      split; [done|by intros _].
Qed.

Theorem appendLocked_spec s m it syncNow :
  store_rep s m → closed s = false → failed s = None → item_ok it →
  wp (appendLocked (it_key it) (it_rec it) syncNow) (append_post s m it) s.
Proof.
  intros Hr Hc Hf Hit. unfold appendLocked. do 2 wp_step. rewrite Hc. do 2 wp_step. rewrite Hf. do 3 wp_step.
  destruct (active s) as [a|] eqn:Ha; cbn beta iota.
  - do 3 wp_pure. rewrite Ha. by apply append_write.
  - eapply wp_mono, createActive_spec; [|apply Hr|done].
    intros r s' ([Hr' Hc'] & Hsafe & Hq & Hpost). apply core_base in Hc' as [Hb' Hf'].
    destruct r as [[]|e| |]; try by destruct Hsafe.
    + destruct Hpost as (a & Ha' & Hsz & Hix). do 2 wp_pure. rewrite Ha'.
      apply append_write; try done; [|congruence|naive_solver]. split; [done|]. intros _. by rewrite Ha', Hsz.
    + apply append_err_before; [|done|].
      * split; [done|]. intros _. by rewrite Hpost.
      * intros [Hqs _]. by destruct (Hq Hqs).
Qed.
End appending.

(** ** The store as a map from keys to payloads *)
Section map_ops.
Context `{Fuse} `{Zstd} `{ItemInv}.

Definition contents (s : Store) (c : gmap Key bytes) : Prop := ∃ m, store_rep s m ∧ c = it_data <$> m.

Lemma encoded_item k data rec : Validate k = Ok tt → item_inv k data → EncodeRecord k data = Ok rec →
  ∃ it, it_key it = k ∧ it_rec it = rec ∧ it_data it = data ∧ item_ok it.
Proof.
  intros Hv Hinv Henc. destruct (EncodeRecord_spec k data rec Hv Henc)
    as (r & payload & Hk & Hl & Hu & Hs & Hm & Hrec & Hp & Hat & Hdec).
  exists (mkItem r rec data). split_and!; try done. split_and!; [by rewrite <- Hk in Hinv|done|done|]. cbn [it_hdr it_rec it_data].
  replace (drop 46 rec) with payload; [done|]. rewrite Hrec.
  assert (length (take 46 rec) = 46%nat) as H46.
  { rewrite length_take, Hl. unfold rec_size, RecHeaderSize. lia. }
  by rewrite drop_app_all.
Qed.

(** Storing an object: a key that is present keeps its payload. *)
Definition put_absent (c : gmap Key bytes) (k : Key) (data : bytes) : gmap Key bytes :=
  match c !! k with Some _ => c | None => <[k := data]> c end.

(** What every write guarantees: the store is as before or holds the new object
    as well, success means that it does, and a store whose calls all succeed
    stays fit for the next write. *)
Definition put_post (s : Store) (c : gmap Key bytes) (k : Key) (data : bytes) (r : result unit)
    (s' : Store) : Prop :=
  safe r ∧ base s' = base s ∧
  (healthy s → failed s = None → zlen data <= MaxPayload → r = Ok tt ∧ quiet s' ∧ failed s' = None) ∧
  ∃ c', contents s' c' ∧ (c' = c ∨ c' = put_absent c k data) ∧ (r = Ok tt → c' = put_absent c k data).

Lemma Has_contents s c k : contents s c → closed s = false →
  Has k s = (Ok (bool_decide (is_Some (c !! k))), s).
Proof.
  intros (m & [Hr _] & ->) Hc. rewrite (Has_spec s m k Hr Hc). do 2 f_equal.
  apply bool_decide_ext. by rewrite lookup_fmap, fmap_is_Some.
Qed.

Lemma contents_frame s s' c :
  active s' = active s → sealed s' = sealed s → cfg s' = cfg s → (failed s' = None → failed s = None) →
  contents s c → contents s' c.
Proof. intros ???? (m & Hr & ->). exists m. split; [|done]. by eapply store_rep_frame. Qed.

(** A write that stores nothing. *)
Lemma put_none s c k data r :
  contents s c → safe r → (r = Ok tt → is_Some (c !! k)) →
  (failed s = None → zlen data <= MaxPayload → r = Ok tt) → put_post s c k data r s.
Proof.
  intros Hcs Hs Hk Hm. split_and!; [done|done|intros [? _] ??; auto|]. exists c. split_and!; [done|by left|].
  intros Hr. destruct (Hk Hr) as [d Hd]. unfold put_absent. by rewrite Hd.
Qed.

Lemma append_put s c it r s' :
  (∃ m, c = it_data <$> m ∧ append_post s m it r s') → c !! it_key it = None →
  put_post s c (it_key it) (it_data it) r s'.
Proof.
  intros (m & -> & Hs & Hb & Hh & m' & Hr & Hor & Hok) Hn. split_and!; [done|done|auto|].
  unfold put_absent. rewrite Hn. rewrite lookup_fmap, fmap_None in Hn.
  exists (it_data <$> m'). split_and!; [by exists m'|..].
  - destruct Hor as [->| ->]; [by left|right]. apply fmap_insert.
  - intros [->|[-> Hm]]%Hok; [apply fmap_insert|]. rewrite Hn in Hm. by destruct Hm.
Qed.

(** The common tail of the writes: encode, then append. *)
Lemma put_new s c k data syncNow :
  contents s c → closed s = false → Validate k = Ok tt → item_inv k data → c !! k = None →
  wp (rec <- liftM (EncodeRecord k data);; appendLocked k rec syncNow)%store (put_post s c k data) s.
Proof.
  intros Hcs Hc Hv Hinv Hn. do 2 wp_pure. destruct (EncodeRecord k data) as [rec|e| |] eqn:Henc.
  - destruct (encoded_item k data rec Hv Hinv Henc) as (it & <- & <- & <- & Hit).
    destruct (failed s) as [e|] eqn:Hf.
    { unfold appendLocked. do 2 wp_pure. rewrite Hc. do 2 wp_pure. rewrite Hf. wp_pure.
      by apply put_none; [|apply safe_Err|..]; rewrite ?Hf. }
    destruct Hcs as (m & Hr & ->). eapply wp_mono, appendLocked_spec; try done.
    intros r s' Hpost. apply append_put; [by exists m|done].
  - apply put_none; try done. unfold EncodeRecord, payloadFits in Henc. destruct (negb _) eqn:E; [lia|].
    by destruct (if _ <? _ then _ else _).
  - unfold EncodeRecord in Henc. destruct (negb _); [done|]. by destruct (if _ <? _ then _ else _).
  - unfold EncodeRecord in Henc. destruct (negb _); [done|]. by destruct (if _ <? _ then _ else _).
Qed.

(** The state after the barrier saw [k]. *)
Definition observed (k : Key) (s : Store) : Store := snd (observe k s).

Lemma observed_same k s : active (observed k s) = active s ∧ sealed (observed k s) = sealed s ∧
  cfg (observed k s) = cfg s ∧ failed (observed k s) = failed s ∧ closed (observed k s) = closed s ∧
  io (observed k s) = io s.
Proof. unfold observed, observe, modM. simpl. destruct (negb _), (grey s); done. Qed.

Lemma contents_observed k s c : contents s c → contents (observed k s) c.
Proof.
  destruct (observed_same k s) as (? & ? & ? & Hf & _). apply contents_frame; try done. by rewrite Hf.
Qed.

Lemma Put_spec s c k data :
  contents s c → closed s = false → failed s = None → Validate k = Ok tt → item_inv k data →
  wp (Put k data) (put_post (observed k s) c k data) s.
Proof.
  intros Hcs Hc Hf Hv Hinv. unfold Put. do 2 wp_pure. rewrite Hf. wp_pure. unfold observe at 1. wp_pure.
  apply (contents_observed k) in Hcs. pose proof (observed_same k s) as (_ & _ & _ & Hf1 & Hc1 & _).
  change ((if negb (capturing s) then s else _)) with (observed k s).
  apply wp_bind. unfold wp at 1. rewrite (Has_contents _ c k Hcs) by congruence. simpl.
  case_bool_decide as Hk.
  - wp_run. by apply put_none.
  - apply put_new; try done; [congruence|]. by apply eq_None_not_Some.
Qed.

Lemma syncActive_spec s c : contents s c →
  wp syncActive (λ r s', contents s' c ∧ base s' = base s ∧ safe r ∧
    (quiet s → closed s = false → failed s = None → r = Ok tt ∧ quiet s' ∧ failed s' = None)) s.
Proof.
  intros Hcs. unfold syncActive. do 2 wp_pure. destruct (closed s) eqn:Hc; [by wp_run; split_and!|].
  do 2 wp_pure. destruct (failed s) as [e|] eqn:Hf; [by wp_run; split_and!|]. do 4 wp_pure.
  destruct (active s) as [a|]; [|by wp_run; split_and!]. wp_step; [|by wp_run; split_and!].
  wp_pure. apply wp_or_fail, wp_syscall.
  - intros l Hl. wp_run. split_and!; [by apply (contents_frame s)|done|done|auto].
  - intros e l Hq s'' Ha Hs Hb Hf'. split_and!; [|done|done|done].
    apply (contents_frame s); try done. unfold base in Hb. simpl in Hb. congruence.
Qed.

(** *** Batches *)
Definition put_object (c : gmap Key bytes) (o : Object) : gmap Key bytes :=
  put_absent c (obj_key o) (obj_bytes o).

Lemma put_object_key c o : is_Some (put_object c o !! obj_key o).
Proof.
  unfold put_object, put_absent. destruct (c !! obj_key o) eqn:E; rewrite ?E; [done|].
  by rewrite lookup_insert_eq.
Qed.

Lemma put_object_sub c o : c ⊆ put_object c o.
Proof.
  unfold put_object, put_absent. destruct (c !! obj_key o) eqn:E; [done|]. by apply insert_subseteq.
Qed.

Definition seen_in (seen : gset Key) (c : gmap Key bytes) : Prop := seen ⊆ dom c.

(** What the iterator may yield. *)
Definition yields_valid (x : Object + error) : Prop :=
  match x with
  | inl o => Validate (obj_key o) = Ok tt ∧ item_inv (obj_key o) (obj_bytes o)
  | inr _ => True
  end.

Definition one_post (s : Store) (c : gmap Key bytes) (o : Object) (r : result (gset Key * bool))
    (s' : Store) : Prop :=
  safe r ∧ closed s' = false ∧
  (healthy s → failed s = None → zlen (obj_bytes o) <= MaxPayload →
    is_ok r = true ∧ quiet s' ∧ failed s' = None) ∧
  ∃ c', contents s' c' ∧ (c' = c ∨ c' = put_object c o) ∧
        ∀ seen app, r = Ok (seen, app) → c' = put_object c o ∧ seen_in seen c'.

Lemma batch_one_spec s c o seen :
  contents s c → closed s = false → yields_valid (inl o) → seen_in seen c →
  wp (batch_one o seen) (one_post s c o) s.
Proof.
  intros Hcs Hc [Hv Hinv] Hseen. unfold batch_one. wp_step.
  - apply bool_decide_eq_true_1 in Heqb. assert (is_Some (c !! obj_key o)) as [d Hd].
    { apply elem_of_dom. by apply Hseen. }
    assert (put_object c o = c) as Hpc by (unfold put_object, put_absent; by rewrite Hd).
    wp_run. split_and!; [done|done|intros [? _]; auto|]. exists c. rewrite Hpc. split_and!; [done|by left|].
    by intros ?? [= <- <-].
  - cbv zeta. wp_pure. unfold observe at 1. wp_pure.
    change ((if negb (capturing s) then s else _)) with (observed (obj_key o) s).
    pose proof (observed_same (obj_key o) s) as (_ & _ & _ & Hf1 & Hc1 & Hio).
    apply (contents_observed (obj_key o)) in Hcs. set (s1 := observed (obj_key o) s) in *.
    assert (healthy s → healthy s1) as Hh by (unfold healthy, quiet; by rewrite Hio).
    wp_pure. unfold wp at 1. rewrite (Has_contents _ c _ Hcs) by congruence. simpl.
    clear Heqb. case_bool_decide as Hk.
    + destruct Hk as [d Hd].
      assert (put_object c o = c) as Hpc by (unfold put_object, put_absent; by rewrite Hd).
      wp_run. split_and!; [done|congruence|intros [Hq _]%Hh; rewrite <- Hf1; auto|].
      exists c. rewrite Hpc. split_and!; [done|by left|]. intros ?? [= <- <-]. split; [done|].
      unfold seen_in. apply elem_of_dom_2 in Hd. set_solver.
    + apply wp_assoc, wp_bind.
      eapply wp_mono, put_new; [|done|congruence|done|done|by apply eq_None_not_Some].
      intros r s' (Hs & Hb & Hok & c' & Hcs' & Hor & Hput).
      assert (closed s' = false) as Hc' by (unfold base in Hb; congruence).
      destruct r as [[]|e| |]; try by destruct Hs.
      * specialize (Hput eq_refl). wp_run. split_and!; [done|done|rewrite <- Hf1; intros ?%Hh; naive_solver|].
        exists c'. split_and!; [done|done|]. intros ?? [= <- <-]. split; [done|]. subst c'.
        pose proof (put_object_key c o) as ?%elem_of_dom. pose proof (subseteq_dom _ _ (put_object_sub c o)).
        unfold seen_in in *. unfold put_object in *. set_solver.
      * split_and!; [done|done|rewrite <- Hf1; intros ?%Hh; naive_solver|]. exists c'. by split_and!.
Qed.

(** A batch stores a prefix of what the iterator yields, and all of it when it
    succeeds. *)
Definition batch_post (s : Store) (c : gmap Key bytes) (seq : list (Object + error)) (r : result unit)
    (s' : Store) : Prop :=
  safe r ∧ closed s' = false ∧
  (healthy s → failed s = None → Forall (λ x, match x with inl o => zlen (obj_bytes o) <= MaxPayload | inr _ => False end) seq →
    r = Ok tt) ∧
  ∃ objs, contents s' (foldl put_object c objs) ∧ (inl <$> objs) `prefix_of` seq ∧
          (r = Ok tt → inl <$> objs = seq).

Lemma batch_fail_spec s c (app : bool) e : contents s c → closed s = false →
  wp ((if app then tryM syncActive;;; retM tt else retM tt);;; failM e)%store
     (λ r s', r = (Err e : result unit) ∧ contents s' c ∧ closed s' = false) s.
Proof.
  intros Hcs Hc. wp_pure. destruct app; [|wp_run; done]. wp_run.
  eapply wp_mono, (syncActive_spec s c Hcs). intros r s' (Hcs' & Hb & _). wp_run.
  split_and!; [done|done|unfold base in Hb; congruence].
Qed.

Lemma batch_loop_spec seq s c seen app :
  contents s c → closed s = false → Forall yields_valid seq → seen_in seen c →
  wp (batch_loop seq seen app) (batch_post s c seq) s.
Proof.
  revert s c seen app. induction seq as [|x seq IH]; intros s c seen app Hcs Hc Hv Hseen.
  - simpl. eapply wp_mono, (syncActive_spec s c Hcs). intros r s' (Hcs' & Hb & Hs & Hok).
    split_and!; [done|unfold base in Hb; congruence|intros [? _]; naive_solver|].
    exists []. by split_and!.
  - apply Forall_cons in Hv as [Hx Hv]. destruct x as [o|e]; cbn [batch_loop].
    2:{ eapply wp_mono, batch_fail_spec; [|done|done]. intros r s' (-> & Hcs' & Hc').
        split_and!; [apply safe_Err|done|by intros ?? []%Forall_cons|]. exists []. split_and!; [done|apply prefix_nil|done]. }
    do 2 wp_pure. eapply wp_mono, batch_one_spec; try done.
    intros r s' (Hs & Hc' & Hok & c' & Hcs' & Hor & Hput).
    destruct r as [[seen' app']|e| |]; try by destruct Hs.
    + destruct (Hput seen' app' eq_refl) as [-> Hseen'].
      eapply wp_mono, (IH s' (put_object c o)); try done.
      intros r s'' (Hs' & Hc'' & Hok' & objs & Hcs'' & Hpre & Heq).
      split_and!; [done|done| |].
      * intros [Hq Hb] Hf [Ho Hall]%Forall_cons. destruct (Hok (conj Hq Hb) Hf Ho) as (_ & Hq' & Hf').
        by apply Hok'.
      * exists (o :: objs). split_and!; [done|rewrite fmap_cons; by apply prefix_cons|].
        intros Hr. rewrite fmap_cons. f_equal. auto.
    + eapply wp_mono, (batch_fail_spec s' c'); try done. intros r s'' (-> & Hcs'' & Hc'').
      split_and!; [apply safe_Err|done| |].
      * intros Hh Hf [Ho Hall]%Forall_cons. by destruct (Hok Hh Hf Ho).
      * destruct Hor as [->| ->]; [exists []|exists [o]]; split_and!; try done; [apply prefix_nil|].
        apply (prefix_cons (inl o)), prefix_nil.
Qed.
End map_ops.
