(* ===== verification/PackstoreRecovery.v ===== *)
(** * Recovery after a crash ([recover.go], [load])

    The scan of an active file finds exactly the records that are whole, and
    opening the directory a store left behind gives a store with the same
    contents. *)

From Stdlib Require Import Init.Byte.
From S2P Require Import Prelude Machine Key FsEncode FsTree FsRead PackRecord Footer FooterFacts Packstore PackstoreRep PackstoreFacts.
From Stdlib Require Import ZifyBool ZifyNat.
Local Open Scope Z_scope.

Section scan.
Context `{Fuse} `{Zstd} `{ItemInv}.

(** What a crash leaves of the record that was being written. *)
Definition torn (t : bytes) : Prop :=
  t = [] ∨ ∃ it j, item_ok it ∧ (j < length (it_rec it))%nat ∧ t = take j (it_rec it).

Lemma torn_parse t : torn t → t ≠ [] →
  t !! 0%nat ≠ Some tagSeal ∧ ∃ e, ParseRecord t = Err e.
Proof.
  intros [->|(it & j & (_ & Hat & Hlen & _) & Hj & ->)] Hne; [done|]. split.
  - destruct Hat as (_ & Htag & _). destruct j as [|j]; [done|]. rewrite lookup_take_lt by lia. by rewrite Htag.
  - destruct (ParseRecord_cases (take j (it_rec it))) as [[r Hr]|(e & He & _)]; [exfalso|by exists e].
    apply ParseRecord_Ok in Hr as (Hl & _ & _ & _ & _ & Hs' & _).
    destruct Hat as (_ & _ & _ & _ & _ & Hs & _).
    pose proof (be4_range (take j (it_rec it)) 38). rewrite length_take in Hl. unfold rec_size, RecHeaderSize in *.
    assert (46 ≤ j)%nat by lia. rewrite <- (field_take (it_rec it) 38 4 j) in Hs' by lia.
    rewrite <- Hs in Hs'. lia.
Qed.

(** One round of the scan reads one item. *)
Lemma scan_item its1 it its2 rest fuel ix :
  item_ok it →
  let b := body_of (its1 ++ it :: its2) ++ rest in
  scan_loop (S fuel) b (zlen (body_of its1)) ix =
  scan_loop fuel b (zlen (body_of (its1 ++ [it])))
    (<[it_key it := mkLoc (zlen (body_of its1)) (Flags (it_hdr it)) (Ulen (it_hdr it)) (Slen (it_hdr it))]> ix).
Proof.
  intros Hit b. pose proof (item_ok_size it Hit) as (Hs & Hl & _). pose proof Hit as (_ & Hat & Hlen & _).
  assert (b = body_of its1 ++ it_rec it ++ concat (it_rec <$> its2) ++ rest) as Hb.
  { unfold b, body_of. rewrite fmap_app, concat_app, fmap_cons. cbn [concat]. by rewrite <- !app_assoc. }
  assert (drop (length (body_of its1)) b = it_rec it ++ concat (it_rec <$> its2) ++ rest) as Hdrop
    by (rewrite Hb; by rewrite drop_app_length).
  assert (record_at (drop (length (body_of its1)) b) (it_hdr it)) as Hat'.
  { rewrite Hdrop. eapply record_at_prefix; [exact Hat|]. by rewrite <- Hlen, firstn_all, take_app_length. }
  assert (b !! length (body_of its1) = Some tagChunk) as Htag.
  { destruct Hat' as (_ & Htag & _). rewrite lookup_drop in Htag. by rewrite Nat.add_0_r in Htag. }
  assert (zlen (body_of its1) < zlen b) as Hlt by (apply lookup_lt_Some in Htag; lia).
  cbn [scan_loop]. replace (_ <? _) with true by lia. cbn [negb].
  rewrite (proj2 (index_nat b (length (body_of its1)) _ tagChunk eq_refl)) by done. rsimpl.
  rewrite bool_decide_false by done.
  replace (slice_from b (zlen (body_of its1))) with (Ok (drop (length (body_of its1)) b)).
  2:{ symmetry. rewrite Hdrop, Hb. by apply slice_from_app. }
  rsimpl. rewrite (proj2 (ParseRecord_Ok _ (it_hdr it)) Hat'). f_equal.
  rewrite body_of_snoc, length_app. unfold RecHeaderSize. lia.
Qed.

Definition locs_map (its : list item) : gmap Key activeLoc := list_to_map (item_locs 8 its).

Lemma locs_map_snoc its it : it_key it ∉ (it_key <$> its) →
  locs_map (its ++ [it]) =
  <[it_key it := mkLoc (zlen (body_of its)) (Flags (it_hdr it)) (Ulen (it_hdr it)) (Slen (it_hdr it))]> (locs_map its).
Proof.
  intros Hn. unfold locs_map. rewrite item_locs_app. cbn [item_locs].
  rewrite list_to_map_snoc by (by rewrite item_locs_keys).
  unfold body_of. by rewrite length_app, Nat2Z.inj_add.
Qed.

Lemma scan_items its2 its1 rest fuel :
  items_wf (its1 ++ its2) → (length its2 ≤ fuel)%nat →
  let b := body_of (its1 ++ its2) ++ rest in
  scan_loop fuel b (zlen (body_of its1)) (locs_map its1) =
  scan_loop (fuel - length its2) b (zlen (body_of (its1 ++ its2))) (locs_map (its1 ++ its2)).
Proof.
  revert its1 fuel. induction its2 as [|it its2 IH]; intros its1 fuel Hwf Hfuel b.
  - unfold b. by rewrite app_nil_r, Nat.sub_0_r.
  - destruct fuel as [|fuel]; [simpl in Hfuel; lia|]. pose proof Hwf as [Hok Hnd].
    apply Forall_app in Hok as [_ [Hit _]%Forall_cons].
    unfold b. rewrite scan_item by done. rewrite <- locs_map_snoc.
    + rewrite (cons_middle it its1 its2), (app_assoc its1). apply (IH (its1 ++ [it])); [|simpl in Hfuel; lia].
      by rewrite <- app_assoc.
    + rewrite fmap_app, fmap_cons in Hnd. apply NoDup_app in Hnd as (_ & Hd & _).
      intros Hin. apply (Hd _ Hin). apply list_elem_of_here.
Qed.

Lemma body_magic its rest : take 8 (body_of its ++ rest) = magicHeader.
Proof. done. Qed.

(** The scan of a body runs through its items. *)
Lemma scanActive_items its rest : items_wf its →
  scanActive (body_of its ++ rest) =
  scan_loop (S (length (body_of its ++ rest)) - length its) (body_of its ++ rest)
    (zlen (body_of its)) (locs_map its).
Proof.
  intros Hwf. unfold scanActive. rewrite body_magic, (bool_decide_true (_ = _)) by done.
  pose proof (body_length its (proj1 Hwf)) as Hlen.
  replace (zlen (body_of its ++ rest) <? zlen magicHeader) with false.
  2:{ rewrite length_app. change (zlen magicHeader) with 8. lia. }
  cbn [orb negb]. apply (scan_items its [] rest); [done|]. rewrite length_app. lia.
Qed.

Lemma scan_torn its t : items_wf its → torn t →
  scanActive (body_of its ++ t) = Ok (mkScan (zlen (body_of its)) (locs_map its) false).
Proof.
  intros Hwf Ht. rewrite scanActive_items by done.
  pose proof (body_length its (proj1 Hwf)) as Hlen.
  destruct (S (length (body_of its ++ t)) - length its)%nat as [|fuel] eqn:Ef; [rewrite length_app in Ef; lia|].
  cbn [scan_loop]. destruct (decide (t = [])) as [->|Hne].
  { rewrite app_nil_r. by replace (_ <? _) with false by lia. }
  destruct (torn_parse t Ht Hne) as [Hx [e He]]. destruct t as [|x t]; [done|].
  replace (_ <? _) with true by (rewrite length_app; simpl; lia). cbn [negb].
  rewrite (proj2 (index_nat (body_of its ++ x :: t) (length (body_of its)) _ x eq_refl)) by (by apply list_lookup_middle).
  rsimpl. rewrite bool_decide_false by (intros ->; done).
  rewrite slice_from_app by done. rsimpl. by rewrite He.
Qed.

(** Cutting a body anywhere leaves whole items and a torn one. *)
Lemma cut_records its n : Forall item_ok its →
  ∃ its1 t, its1 `prefix_of` its ∧ torn t ∧
    take n (concat (it_rec <$> its)) = concat (it_rec <$> its1) ++ t ∧
    ∀ it, (its1 ++ [it]) `prefix_of` its → (n < length (concat (it_rec <$> its1)) + length (it_rec it))%nat.
Proof.
  intros Hok. revert n. induction Hok as [|it its Hit Hok IH]; intros n.
  - exists [], []. split_and!; [done|by left|by destruct n|]. by intros it ?%prefix_nil_inv.
  - rewrite fmap_cons. cbn [concat]. destruct (decide (n < length (it_rec it))%nat) as [Hn|Hn].
    + exists [], (take n (it_rec it)). split_and!; [apply prefix_nil|right; by exists it, n| |].
      * by rewrite take_app_le by lia.
      * intros it' ->%prefix_cons_inv_1. done.
    + destruct (IH (n - length (it_rec it))%nat) as (its1 & t & Hpre & Ht & Heq & Hmax).
      exists (it :: its1), t. split_and!; [by apply prefix_cons|done| |].
      * rewrite take_app_ge by lia. rewrite Heq, fmap_cons. cbn [concat]. by rewrite app_assoc.
      * intros it' Hp%prefix_cons_inv_2. specialize (Hmax it' Hp). rewrite fmap_cons. cbn [concat].
        rewrite length_app. lia.
Qed.

(** A file with a complete footer is recognised as sealed. *)
Lemma scan_sealed its es ft :
  items_wf its → zlen (body_of its) < 2 ^ 37 → es ≡ₚ loc_entry <$> item_locs 8 its →
  buildFooter (zlen (body_of its)) es = Ok ft →
  scanActive (body_of its ++ ft) = Ok (mkScan (zlen (body_of its ++ ft)) (locs_map its) true).
Proof.
  intros Hwf Hlt Hperm Hft. rewrite scanActive_items by done.
  pose proof (body_length its (proj1 Hwf)) as Hlen.
  destruct (S (length (body_of its ++ ft)) - length its)%nat as [|fuel] eqn:Ef; [rewrite length_app in Ef; lia|].
  destruct (buildFooter_Ok (zlen (body_of its)) es ft Hft ltac:(lia)) as (f & idx & _ & _ & _ & _ & _ & Hfteq).
  destruct (seal_built 0 its es ft Hwf Hlt Hperm Hft) as (g & Hopen & _).
  unfold openSealed in Hopen. destruct (_ <? minSegment); [done|].
  apply bind_Ok in Hopen as (fv & Hfv%wrap_Ok & _).
  assert (∃ ft', ft = tagSeal :: ft') as [ft' ->] by (rewrite Hfteq; by eexists).
  cbn [scan_loop]. replace (_ <? _) with true by (rewrite length_app; simpl length; lia). cbn [negb].
  rewrite (proj2 (index_nat (body_of its ++ tagSeal :: ft') (length (body_of its)) _ tagSeal eq_refl))
    by (by apply list_lookup_middle).
  rsimpl. rewrite bool_decide_true by done. by rewrite Hfv.
Qed.
End scan.

(** ** Segment file names *)
Lemma hex_digit_char d : 0 <= d < 16 → hex_digit (hex_char d) = Some d.
Proof.
  intros Hd. assert (d ∈ [0;1;2;3;4;5;6;7;8;9;10;11;12;13;14;15]) as Hin.
  { rewrite !elem_of_cons. lia. }
  repeat (apply elem_of_cons in Hin as [->|Hin]; [reflexivity|]). by apply elem_of_nil in Hin.
Qed.

Lemma parse_hexn n id acc : 0 <= id →
  foldl (λ acc c, a ← acc; d ← hex_digit c; Some (a * 16 + d)) (Some acc) (hexn n id) =
  Some (acc * 16 ^ Z.of_nat n + id mod 16 ^ Z.of_nat n).
Proof.
  intros Hid. revert acc. induction n as [|n IH]; intros acc.
  - simpl. rewrite Z.mod_1_r. f_equal. lia.
  - cbn [hexn foldl]. rewrite hex_digit_char by (apply Z.mod_pos_bound; lia). simpl. rewrite IH. f_equal.
    rewrite Nat2Z.inj_succ, Z.pow_succ_r by lia.
    rewrite (Z.mul_comm 16 (16 ^ Z.of_nat n)), Z.rem_mul_r by lia. lia.
Qed.

Lemma length_hexn n id : length (hexn n id) = n.
Proof. induction n; simpl; congruence. Qed.

Lemma HasSuffix_app a suffix : HasSuffix (a ++ suffix) suffix = true.
Proof.
  unfold HasSuffix. rewrite length_app. apply andb_true_iff. split; [lia|]. apply bool_decide_eq_true.
  replace (_ - _)%nat with (length a) by lia. by rewrite drop_app_length.
Qed.

Lemma parseSegmentID_name id suffix : is_u64 id → parseSegmentID (segmentName id suffix) suffix = Ok id.
Proof.
  intros Hid. unfold parseSegmentID, segmentName, TrimSuffix. rewrite HasSuffix_app, length_app.
  replace (_ + _ - _)%nat with (length (hex16 id)) by lia. rewrite take_app_length.
  unfold parse_hex, hex16. rewrite parse_hexn, length_hexn by apply Hid. simpl.
  f_equal. apply Z.mod_small. exact Hid.
Qed.

Lemma sealed_not_active id : HasSuffix (segmentName id sealedSuffix) activeSuffix = false.
Proof.
  unfold HasSuffix, segmentName, hex16. rewrite length_app, length_hexn. apply andb_false_iff. right.
  by apply bool_decide_eq_false.
Qed.

(** ** Opening a directory *)
Definition id_lt (a b : sealedSegment) : Prop := sg_id a < sg_id b.

Lemma sorted_ids_unique l1 l2 :
  l1 ≡ₚ l2 → StronglySorted id_lt l1 → StronglySorted id_le l2 → l1 = l2.
Proof.
  revert l2. induction l1 as [|x l1 IH]; intros l2 Hp H1 H2; [by apply Permutation_nil_l in Hp|].
  destruct l2 as [|y l2]; [by apply Permutation_nil_r in Hp|].
  apply StronglySorted_inv in H1 as [H1 Hx]. apply StronglySorted_inv in H2 as [H2 Hy].
  rewrite Forall_forall in Hx, Hy. assert (x = y) as ->.
  { assert (y ∈ x :: l1) as [->|Hyx]%elem_of_cons by (rewrite Hp; apply list_elem_of_here); [done|].
    assert (x ∈ y :: l2) as [->|Hxy]%elem_of_cons by (rewrite <- Hp; apply list_elem_of_here); [done|].
    specialize (Hx y Hyx). specialize (Hy x Hxy). unfold id_lt, id_le in *. lia. }
  f_equal. apply IH; [by apply Permutation_cons_inv in Hp|done|done].
Qed.

Lemma sort_sealed_sorted l : StronglySorted id_lt l → sort_sealed l = l.
Proof.
  intros Hs. symmetry. apply sorted_ids_unique; [|done|].
  - symmetry. apply merge_sort_Permutation.
  - apply Sorted_StronglySorted; [intros a b c; unfold id_le; lia|].
    apply Sorted_merge_sort. intros a b. unfold id_le. lia.
Qed.

Section opening.
Context `{Fuse} `{Zstd} `{ItemInv}.

Definition seg_file (g : sealedSegment) : bytes * bytes := (segmentName (sg_id g) sealedSuffix, sg_mm g).

(** The files of the sealed segments. *)
Definition sealed_files (gs : list sealedSegment) : Prop :=
  StronglySorted id_lt gs ∧ Forall (λ g, is_u64 (sg_id g)) gs.

Lemma load_sealed gs segs rest actives s : io s = [] →
  Forall2 seg_rep gs segs → Forall (λ g, is_u64 (sg_id g)) gs →
  ∃ n, load_all ((seg_file <$> gs) ++ rest) actives s =
       load_all rest actives (set_nextID n (set_sealed (sealed s ++ gs) s)).
Proof.
  intros Hio Hall. revert s Hio. induction Hall as [|g its gs segs Hg _ IH]; intros s Hio Hids.
  - exists (nextID s). simpl. rewrite app_nil_r. by destruct s.
  - apply Forall_cons in Hids as [Hid Hids]. destruct Hg as (_ & _ & _ & Hopen & _).
    rewrite fmap_cons. cbn [app load_all]. unfold bindM at 1, load_one, seg_file at 1.
    rewrite sealed_not_active. unfold segmentName at 1. rewrite HasSuffix_app.
    unfold bindM at 1, liftM at 1. change (hex16 (sg_id g) ++ sealedSuffix) with (segmentName (sg_id g) sealedSuffix).
    rewrite parseSegmentID_name by done. unfold bindM, syscall. rewrite Hio. unfold liftM. rewrite Hopen.
    unfold modM, retM.
    set (s1 := bump_id _ _).
    destruct (IH s1) as [n Hn]; [unfold s1, bump_id; by case_if|done|].
    exists n. rewrite Hn. f_equal. unfold s1, bump_id. case_if; unfold set_nextID, set_sealed; simpl;
      by rewrite <- app_assoc.
Qed.

(** What a crash leaves of the active segment holding [its]: nothing yet, a part
    of the file header, the records and a part of the one being appended, or the
    records and their footer, the file not yet renamed. *)
Inductive active_image (gs : list sealedSegment) : list item → list (bytes * bytes) → Prop :=
| image_none : active_image gs [] []
| image_header id j :
    is_u64 id → (j < 8)%nat →
    active_image gs [] [(segmentName id activeSuffix, take j magicHeader)]
| image_torn id its t :
    is_u64 id → items_wf its → zlen (body_of its) < 2 ^ 36 → torn t →
    active_image gs its [(segmentName id activeSuffix, body_of its ++ t)]
| image_footer id its es ft :
    is_u64 id → items_wf its → zlen (body_of its) < 2 ^ 36 → es ≡ₚ loc_entry <$> item_locs 8 its →
    buildFooter (zlen (body_of its)) es = Ok ft → Forall (λ g, sg_id g < id) gs →
    active_image gs its [(segmentName id activeSuffix, body_of its ++ ft)].

Lemma load_active files actives s :
  Forall (λ f, HasSuffix (fst f) activeSuffix = true) files →
  load_all files actives s = (Ok (actives ++ files), s).
Proof.
  intros Hf. revert actives. induction Hf as [|[name b] files Hn _ IH]; intros actives.
  - simpl. by rewrite app_nil_r.
  - cbn [load_all load_one]. simpl in Hn. rewrite Hn. unfold bindM, retM. rewrite IH. by rewrite <- app_assoc.
Qed.

Lemma image_active gs its files : active_image gs its files →
  Forall (λ f, HasSuffix (fst f) activeSuffix = true) files.
Proof. destruct 1; repeat constructor; apply HasSuffix_app. Qed.

(** The state in which the active file is examined. *)
Definition loaded (c : config) (gs : list sealedSegment) (s : Store) : Prop :=
  cfg s = c ∧ sealed s = gs ∧ active s = None ∧ closed s = false ∧ failed s = None ∧ io s = [].

Lemma bump_id_same id s : cfg (bump_id id s) = cfg s ∧ sealed (bump_id id s) = sealed s ∧
  active (bump_id id s) = active s ∧ closed (bump_id id s) = closed s ∧
  failed (bump_id id s) = failed s ∧ io (bump_id id s) = io s.
Proof. unfold bump_id. by case_if. Qed.

Definition recovered (s : Store) (m : gmap Key item) : Prop :=
  store_rep s m ∧ closed s = false ∧ failed s = None ∧ io s = [].

(** Steps of a computation whose calls succeed. *)
Lemma run_syscall {A} (f : unit → M A) s : io s = [] → bindM syscall f s = f tt s.
Proof. intros Hio. unfold bindM, syscall. by rewrite Hio. Qed.
Lemma run_writeAt {A} file data off (f : bytes * result unit → M A) s :
  io s = [] → bindM (writeAt file data off) f s = f (write_at file data off, Ok tt) s.
Proof. intros Hio. unfold bindM, writeAt. by rewrite Hio. Qed.
Lemma run_lift {A B} (a : A) (f : A → M B) s : bindM (liftM (Ok a)) f s = f a s.
Proof. done. Qed.
Lemma run_mod {A} g (f : unit → M A) s : bindM (modM g) f s = f tt (g s).
Proof. done. Qed.

Lemma recover_torn c gs segs id its t s :
  segmentSize c <= 2 ^ 36 → loaded c gs s → Forall2 seg_rep gs segs →
  is_u64 id → items_wf its → zlen (body_of its) < 2 ^ 36 → torn t →
  ∃ s', recoverActive (segmentName id activeSuffix) (body_of its ++ t) s = (Ok tt, s') ∧
        recovered s' (item_map its ∪ newest_map segs).
Proof.
  intros Hc (Hcfg & Hs & Ha & Hcl & Hf & Hio) Hall Hid Hwf Hlt Ht.
  destruct (bump_id_same id s) as (Bc & Bs & Ba & Bcl & Bf & Bio).
  pose proof (body_length its (proj1 Hwf)) as Hlen.
  assert (io (bump_id id s) = []) as Hio' by congruence.
  unfold recoverActive. rewrite parseSegmentID_name, run_lift, run_syscall, scan_torn, run_lift, run_mod by done.
  cbn [sr_sealed sr_size sr_index]. rewrite run_syscall by done. change (zlen magicHeader) with 8.
  replace (_ <? 8) with false by lia. rewrite run_syscall by done. eexists. split; [done|]. split; [|cbn; rewrite Bcl, Bf, Bio; by split_and!].
  split.
  - split; [by rewrite <- Hcfg, <- Bc in Hc|]. exists its, segs. split_and!; [|cbn; by rewrite Bs, Hs|done].
    cbn [active set_active active_rep a_size a_file a_index]. split_and!; [done|done|lia| |done].
    by rewrite Nat2Z.id, take_app_length, firstn_all.
  - intros _. exact Hlt.
Qed.

Lemma recover_header c gs segs id j s :
  segmentSize c <= 2 ^ 36 → loaded c gs s → Forall2 seg_rep gs segs → is_u64 id → (j < 8)%nat →
  ∃ s', recoverActive (segmentName id activeSuffix) (take j magicHeader) s = (Ok tt, s') ∧
        recovered s' (item_map [] ∪ newest_map segs).
Proof.
  intros Hc (Hcfg & Hs & Ha & Hcl & Hf & Hio) Hall Hid Hj.
  destruct (bump_id_same id s) as (Bc & Bs & Ba & Bcl & Bf & Bio).
  assert (scanActive (take j magicHeader) = Ok (mkScan 0 ∅ false)) as Hscan.
  { unfold scanActive. replace (_ <? _) with true; [done|]. rewrite length_take. change (length magicHeader) with 8%nat. lia. }
  assert (io (bump_id id s) = []) as Hio' by congruence.
  unfold recoverActive. rewrite parseSegmentID_name, run_lift, run_syscall, Hscan, run_lift, run_mod by done.
  cbn [sr_sealed sr_size sr_index]. rewrite run_syscall by done. change (0 <? zlen magicHeader) with true.
  cbv iota. rewrite run_syscall, run_writeAt by done. cbn [snd]. rewrite run_lift.
  eexists. split; [done|]. split; [|cbn; rewrite Bcl, Bf, Bio; by split_and!]. split; [|done].
  split; [by rewrite <- Hcfg, <- Bc in Hc|]. exists [], segs. split_and!; [|cbn; by rewrite Bs, Hs|done].
  split; [by split; constructor|done].
Qed.

Lemma recover_footer c gs segs id its es ft s :
  segmentSize c <= 2 ^ 36 → loaded c gs s → Forall2 seg_rep gs segs → StronglySorted id_lt gs →
  is_u64 id → items_wf its → zlen (body_of its) < 2 ^ 36 → es ≡ₚ loc_entry <$> item_locs 8 its →
  buildFooter (zlen (body_of its)) es = Ok ft → Forall (λ g, sg_id g < id) gs →
  ∃ s', recoverActive (segmentName id activeSuffix) (body_of its ++ ft) s = (Ok tt, s') ∧
        recovered s' (item_map its ∪ newest_map segs).
Proof.
  intros Hc (Hcfg & Hs & Ha & Hcl & Hf & Hio) Hall Hsort Hid Hwf Hlt Hperm Hft Hids.
  destruct (bump_id_same id s) as (Bc & Bs & Ba & Bcl & Bf & Bio).
  assert (zlen (body_of its) < 2 ^ 37) as Hlt' by lia.
  destruct (seal_built id its es ft Hwf Hlt' Hperm Hft) as (g & Hopen & Hgid & Hg).
  assert (io (bump_id id s) = []) as Hio' by congruence.
  unfold recoverActive.
  rewrite parseSegmentID_name, run_lift, run_syscall, (scan_sealed its es ft), run_lift, run_mod by done.
  cbn [sr_sealed sr_size sr_index]. rewrite !run_syscall by done. rewrite Hopen, run_lift.
  eexists. split; [done|]. split; [|cbn; rewrite Bcl, Bf, Bio; by split_and!]. split; [|intros _; cbn; by rewrite Ba, Ha].
  split; [by rewrite <- Hcfg, <- Bc in Hc|]. exists [], (segs ++ [its]). split_and!.
  - cbn. by rewrite Ba, Ha.
  - cbn. rewrite Bs, Hs, sort_sealed_sorted; [by apply Forall2_app; [|constructor]|].
    apply StronglySorted_app_2; [|done|by repeat constructor].
    intros g1 g2 Hg1 ->%list_elem_of_singleton. rewrite Forall_forall in Hids. unfold id_lt. rewrite Hgid. by apply Hids.
  - apply newest_map_snoc.
Qed.

Lemma recover_image c gs segs its files s :
  segmentSize c <= 2 ^ 36 → loaded c gs s → Forall2 seg_rep gs segs → StronglySorted id_lt gs →
  active_image gs its files →
  ∃ s', (match files with
         | [] => retM tt
         | [(name, content)] => recoverActive name content
         | _ => failM (corrupt "%d active segments, want at most one: %v")
         end) s = (Ok tt, s') ∧ recovered s' (item_map its ∪ newest_map segs).
Proof.
  intros Hc Hl Hall Hsort Him. destruct Him as [|id j|id its t|id its es ft].
  - exists s. split; [done|]. destruct Hl as (Hcfg & Hs & Ha & Hcl & Hf & Hio).
    split_and!; [|done|done|done]. split; [|intros _; by rewrite Ha].
    split; [by rewrite Hcfg|]. exists [], segs. rewrite Ha, Hs. by split_and!.
  - by apply (recover_header c gs).
  - by apply (recover_torn c gs).
  - by apply (recover_footer c gs segs id its es ft).
Qed.

Lemma Open_spec c gs segs its files :
  segmentSize c <= 2 ^ 36 → StronglySorted id_lt gs → Forall (λ g, is_u64 (sg_id g)) gs →
  Forall2 seg_rep gs segs → active_image gs its files →
  ∃ s, Open c ((seg_file <$> gs) ++ files) [] = (Ok tt, s) ∧ recovered s (item_map its ∪ newest_map segs).
Proof.
  intros Hc Hsort Hids Hall Him. unfold Open, load. rewrite !run_syscall by done.
  unfold bindM at 1. destruct (load_sealed gs segs files [] (newStore c [])) as [n ->]; [done..|].
  rewrite load_active by (by eapply image_active). rewrite run_mod. cbn [app].
  cbn [sealed set_nextID set_sealed newStore app]. rewrite sort_sealed_sorted by done.
  by eapply recover_image.
Qed.
End opening.
