(* ===== verification/PackstoreQuery.v ===== *)
(** * Queries over many keys ([missing.go]) and bulk removal

    [Missing] splits its argument over workers; the windows cover the list, so
    the answer is the list of absent keys in the order given. *)

From Stdlib Require Import Init.Byte.
From S2P Require Import Prelude Machine Key FsEncode FsTree FsRead FsWalk PackRecord Footer FooterFacts Packstore PackstoreRep PackstoreFacts.
From Stdlib Require Import ZifyBool ZifyNat.
Local Open Scope Z_scope.

Section missing.
Context `{Fuse} `{Zstd} `{ItemInv}.

Definition window (keys : list Key) (c i : nat) : list Key := take c (drop (i * c) keys).

Lemma windows_cover keys c w : concat (window keys c <$> seq 0 w) = take (w * c) keys.
Proof.
  induction w as [|w IH]; [done|]. rewrite seq_S, fmap_app, concat_app, IH. cbn. rewrite app_nil_r.
  unfold window. by rewrite (Nat.add_comm c), <- take_take_drop.
Qed.

Lemma missing_window_Ok keys c i : missing_window keys c i = Ok (window keys c i).
Proof.
  unfold missing_window. set (lo := Nat.min (i * c) (length keys)). set (hi := Nat.min ((i + 1) * c) (length keys)).
  assert (lo ≤ hi)%nat by lia.
  rewrite (slice_drop keys lo (hi - lo)) by lia. f_equal. unfold window.
  destruct (decide (i * c ≤ length keys)%nat).
  - replace lo with (i * c)%nat by lia. destruct (decide ((i + 1) * c ≤ length keys)%nat).
    + f_equal. lia.
    + rewrite !take_ge; [done|rewrite length_drop; lia..].
  - rewrite (drop_ge keys (i * c)), (drop_ge keys lo) by lia. by rewrite !take_nil.
Qed.

Definition absent (c : gmap Key bytes) (keys : list Key) : list Key := filter (λ k, c !! k = None) keys.

Lemma missing_chunk_Ok s c keys acc : contents s c → closed s = false →
  foldR (λ k miss, has ← wrap "missing-check %s" (fst (Has k s));
                   Ok (if has : bool then miss else miss ++ [k])) keys acc = Ok (acc ++ absent c keys).
Proof.
  intros Hcs Hc. revert acc. induction keys as [|k keys IH]; intros acc; simpl.
  - by rewrite app_nil_r.
  - rewrite (Has_contents s c k Hcs Hc). rsimpl. unfold absent. rewrite filter_cons.
    case_bool_decide as Hk.
    + rewrite decide_False by (destruct Hk as [d Hd]; congruence). apply IH.
    + rewrite decide_True by (by apply eq_None_not_Some). etransitivity; [apply (IH (acc ++ [k]))|]. by rewrite <- app_assoc.
Qed.

Lemma Missing_spec pick procs keys s c :
  contents s c → closed s = false → (1 ≤ procs)%nat →
  Missing pick procs keys s = (Ok (filter (λ k, c !! k = None) keys), s).
Proof.
  intros Hcs Hc Hp. unfold Missing. set (n := length keys).
  destruct (decide (n = 0)%nat) as [Hn|Hn].
  { apply nil_length_inv in Hn. subst keys. done. }
  set (w := Nat.min ((n + 63) / 64) procs).
  assert (1 ≤ (n + 63) / 64)%nat by (apply Nat.div_le_lower_bound; lia).
  replace (w =? 0)%nat with false by (symmetry; apply Nat.eqb_neq; lia).
  set (cl := ((n + w - 1) / w)%nat).
  assert (n ≤ w * cl)%nat as Hcover.
  { pose proof (Nat.div_mod (n + w - 1) w ltac:(lia)). pose proof (Nat.mod_upper_bound (n + w - 1) w ltac:(lia)).
    fold cl in H1. nia. }
  erewrite (proj2 (Group_Wait_Ok pick _ (absent c <$> (window keys cl <$> seq 0 w)))).
  - rsimpl. do 2 f_equal. rewrite <- (firstn_all2 keys Hcover) at 2. rewrite <- windows_cover.
    generalize (window keys cl <$> seq 0 w). intros l. induction l as [|x l IH]; [done|].
    rewrite fmap_cons. cbn [concat]. rewrite filter_app. by rewrite IH.
  - rewrite <- !list_fmap_compose. apply list_fmap_ext. intros i k _. simpl.
    rewrite missing_window_Ok. rsimpl. unfold missing_chunk. by rewrite (missing_chunk_Ok s c _ [] Hcs Hc).
Qed.

(** [Missing] returns exactly the keys the store does not hold, in the order
    asked and with their repetitions, however many workers share the list. *)
Theorem Missing_exact pick procs keys s c :
  contents s c → closed s = false → (1 ≤ procs)%nat →
  Missing pick procs keys s = (Ok (filter (λ k, c !! k = None) keys), s).
Proof. exact (Missing_spec pick procs keys s c). Qed.
End missing.
