(* ===== verification/Compact.v ===== *)
(** * Package [packstore]: mark sets and compaction ([markset.go], [compact.go])

    A [MarkSet] keeps one bit per record of the sealed segments and a map for
    the active one.  [Compact] seals the active segment, selects the segments
    with enough garbage, copies their live records and drops them.

    The copy is a pipeline of goroutines: one produces candidates, several
    verify them, the caller appends what is verified.  An execution is a list of
    actions, each of which is one step of one goroutine, so that a statement
    about every list of actions is one about every interleaving.  The channels
    have no capacity here, which allows more interleavings than the code has. *)

From Stdlib Require Import Init.Byte.
From S2P Require Import Prelude Machine Key FsEncode PackRecord Footer Packstore.
From Stdlib Require Import ZifyBool ZifyNat.
Local Open Scope Z_scope.
Local Open Scope store_scope.

(** ** Mark sets *)
Record MarkSet := mkMarkSet {
  ms_segs : list sealedSegment;
  ms_bits : list (list Z);
  ms_active : gmap Key bool;
  ms_marked : Z;
}.

Definition NewMarkSet (s : Store) : MarkSet :=
  mkMarkSet (sealed s)
    ((λ g, replicate (Z.to_nat ((fv_keyCount (sg_fv g) + 63) / 64)) 0) <$> sealed s)
    (match active s with Some a => (λ _, false) <$> a_index a | None => ∅ end) 0.

(** Where a key is: in the active segment, or at a position of a sealed one. *)
Inductive place := InActive | InSegment (seg pos : nat).

Section markset.
Context `{Fuse}.

(** The loop over the sealed segments [0..i), from the last one down. *)
Fixpoint ms_locate_from (segs : list sealedSegment) (i : nat) (k : Key) : result (option place) :=
  match i with
  | O => Ok None
  | S i =>
      match segs !! i with
      | None => Panic
      | Some g =>
          c ← Contains (fv_filter (sg_fv g)) (filterKey k);
          if negb c then ms_locate_from segs i k else
          p ← fv_lookupPos (sg_fv g) k;
          match p with
          | Some p => Ok (Some (InSegment i p))
          | None => ms_locate_from segs i k
          end
      end
  end.

Definition ms_locate (m : MarkSet) (k : Key) : result (option place) :=
  match ms_active m !! k with
  | Some _ => Ok (Some InActive)
  | None => ms_locate_from (ms_segs m) (length (ms_segs m)) k
  end.

(** [m.bits[seg][w]] *)
Definition ms_word (m : MarkSet) (seg w : nat) : result Z :=
  ws ← index (ms_bits m) (Z.of_nat seg); index ws (Z.of_nat w).

Definition ms_set_word (m : MarkSet) (seg w : nat) (v : Z) (n : Z) : MarkSet :=
  mkMarkSet (ms_segs m) (alter (λ ws, <[w := v]> ws) seg (ms_bits m)) (ms_active m) n.

(** The results are [(newly, present)]. *)
Definition Mark (m : MarkSet) (k : Key) : result (bool * bool * MarkSet) :=
  p ← ms_locate m k;
  match p with
  | None => Ok (false, false, m)
  | Some InActive =>
      let newly := negb (default false (ms_active m !! k)) in
      Ok (newly, true, mkMarkSet (ms_segs m) (ms_bits m) (<[k := true]> (ms_active m))
                                 (if newly then ms_marked m + 1 else ms_marked m))
  | Some (InSegment seg pos) =>
      w ← ms_word m seg (pos / 64);
      let b := Z.shiftl 1 (Z.of_nat (pos mod 64)) in
      let newly := Z.land w b =? 0 in
      Ok (newly, true, ms_set_word m seg (pos / 64) (Z.lor w b)
                                   (if newly then ms_marked m + 1 else ms_marked m))
  end.

Definition ms_Contains (m : MarkSet) (k : Key) : result bool :=
  p ← ms_locate m k;
  match p with
  | None => Ok false
  | Some InActive => Ok (default false (ms_active m !! k))
  | Some (InSegment seg pos) =>
      w ← ms_word m seg (pos / 64);
      Ok (negb (Z.land w (Z.shiftl 1 (Z.of_nat (pos mod 64))) =? 0))
  end.

Definition Marked (m : MarkSet) : Z := ms_marked m.
End markset.

(** ** Liveness *)
Record SegmentLiveness := mkLiveness {
  sl_ID : Z;
  sl_Sealed : bool;
  LiveKeys : Z;
  DeadKeys : Z;
  LiveBytes : Z;
  DeadBytes : Z;
}.

Definition sl_add (info : SegmentLiveness) (isLive : bool) (slen : Z) : SegmentLiveness :=
  let n := RecHeaderSize + slen in
  if isLive
  then mkLiveness (sl_ID info) (sl_Sealed info) (LiveKeys info + 1) (DeadKeys info)
                  (u64 (LiveBytes info + n)) (DeadBytes info)
  else mkLiveness (sl_ID info) (sl_Sealed info) (LiveKeys info) (DeadKeys info + 1)
                  (LiveBytes info) (u64 (DeadBytes info + n)).

Definition sg_liveness (live : Key → bool) (g : sealedSegment) : result SegmentLiveness :=
  es ← allEntries (sg_fv g);
  Ok (foldl (λ info e, sl_add info (live (ie_k e)) (ie_slen e)) (mkLiveness (sg_id g) true 0 0 0 0) es).

Definition active_liveness (live : Key → bool) (a : activeSegment) : SegmentLiveness :=
  foldl (λ info '(k, loc), sl_add info (live k) (al_slen loc)) (mkLiveness (a_id a) false 0 0 0 0)
        (map_to_list (a_index a)).

Definition Liveness (live : Key → bool) (s : Store) : result (list SegmentLiveness) :=
  if closed s then Err (errors_New ErrClosed) else
  report ← mapR (sg_liveness live) (sealed s);
  Ok (report ++ match active s with Some a => [active_liveness live a] | None => [] end).

(** ** Compaction *)

(** [o_Horizon] is [None] when the horizon is zero, otherwise whether the file
    of a segment was last modified before it; [o_reaches dead total] is the
    floating-point test [dead >= MinDeadRatio * total].  Pacing only sleeps. *)
Record CompactOpts := mkCompactOpts {
  o_reaches : Z → Z → bool;
  o_Horizon : option (Z → bool);
}.

Record CompactStats := mkCompactStats {
  SegmentsScanned : Z;
  SegmentsCompacted : Z;
  Victims : list Z;
  RecordsCopied : Z;
  BytesCopied : Z;
  BytesFreed : Z;
}.
Definition zeroStats : CompactStats := mkCompactStats 0 0 [] 0 0 0.

Section compact.
Context `{Blake3} `{Fuse} `{Zstd}.

Definition checkRecord (k : Key) (rec : bytes) : result unit :=
  parsed ← ParseRecord rec;
  if negb (bool_decide (rKey parsed = k)) then Err (errors_New "record keyed %s, expected %s") else
  stored ← slice_from rec RecHeaderSize;
  payload ← DecodePayload (Flags parsed) (Ulen parsed) stored;
  verifyObject k payload.

Record copyRec := mkCopyRec { cr_g : sealedSegment; cr_e : indexEntry; cr_rec : bytes }.

Definition verifyRecord (c : copyRec) : result unit :=
  match checkRecord (ie_k (cr_e c)) (cr_rec c) with
  | Err e => Err (Errorf "%s: record at offset %d" (ErrCorrupt :: e))
  | r => r
  end.

Section victims.
Context (live : Key → bool).

(** One segment of the selection loop. *)
Definition victim_of (opts : CompactOpts) (g : sealedSegment) : M bool :=
  old <- match o_Horizon opts with
         | None => retM true
         | Some before => syscall;;; retM (before (sg_id g))
         end;;
  if negb old then retM false else
  info <- liftM (sg_liveness live g);;
  let total := u64 (LiveBytes info + DeadBytes info) in
  retM ((DeadKeys info >? 0) && o_reaches opts (DeadBytes info) total).

Fixpoint select_loop (opts : CompactOpts) (segs : list sealedSegment) (victims : list sealedSegment) :
    M (list sealedSegment * option error) :=
  match segs with
  | [] => retM (victims, None)
  | g :: segs =>
      r <- tryM (victim_of opts g);;
      match r with
      | Ok v => select_loop opts segs (if v : bool then victims ++ [g] else victims)
      | Err e => retM (victims, Some e)
      | Panic => liftM Panic
      | Diverge => liftM Diverge
      end
  end.

(** The victims found, and the error that ended the selection early. *)
Definition selectVictims (opts : CompactOpts) : M (list sealedSegment * option error) :=
  segs <- getM sealed;; select_loop opts segs [].

Definition is_victim (victims : list sealedSegment) (id : Z) : bool :=
  bool_decide (id ∈ sg_id <$> victims).

Fixpoint any_has (k : Key) (segs : list sealedSegment) : result bool :=
  match segs with
  | [] => Ok false
  | g :: segs => h ← sg_has g k; if h : bool then Ok true else any_has k segs
  end.

Definition survivorHas (victims : list sealedSegment) (s : Store) (k : Key) : result bool :=
  match active_find s k with
  | Some _ => Ok true
  | None => any_has k (filter (λ g, is_victim victims (sg_id g) = false) (sealed s))
  end.

(** The state of the copying pipeline. *)
Record pipeline := mkPipe {
  p_store : Store;
  p_todo : list (sealedSegment * indexEntry);  (* the producer's remaining entries *)
  p_cands : list copyRec;                      (* candidates not yet verified *)
  p_verified : list copyRec;                   (* candidates not yet appended *)
  p_pipeErr : option error;                    (* the errgroup's first error *)
  p_appendErr : option error;
  p_cancelled : bool;
  p_copied : Z;
  p_bytes : Z;
}.

(** One step of one goroutine; [stop] resolves a [select] that may also observe
    the cancelled context. *)
Inductive action :=
| Produce (stop : bool)
| VerifyOne (i : nat) (stop : bool)
| AppendOne.

Definition pipe_fail (e : error) (p : pipeline) : pipeline :=
  mkPipe (p_store p) (p_todo p) (p_cands p) (p_verified p)
    (match p_pipeErr p with Some e => Some e | None => Some e end) (p_appendErr p) true
    (p_copied p) (p_bytes p).
Definition pipe_todo (l : list (sealedSegment * indexEntry)) (p : pipeline) : pipeline :=
  mkPipe (p_store p) l (p_cands p) (p_verified p) (p_pipeErr p) (p_appendErr p) (p_cancelled p)
    (p_copied p) (p_bytes p).
Definition pipe_cands (l : list copyRec) (p : pipeline) : pipeline :=
  mkPipe (p_store p) (p_todo p) l (p_verified p) (p_pipeErr p) (p_appendErr p) (p_cancelled p)
    (p_copied p) (p_bytes p).
Definition pipe_verified (l : list copyRec) (p : pipeline) : pipeline :=
  mkPipe (p_store p) (p_todo p) (p_cands p) l (p_pipeErr p) (p_appendErr p) (p_cancelled p)
    (p_copied p) (p_bytes p).

Definition produce (victims : list sealedSegment) (stop : bool) (p : pipeline) : result pipeline :=
  match p_todo p with
  | [] => Ok p
  | (g, e) :: todo =>
      skip ← (if negb (live (ie_k e)) then Ok true else survivorHas victims (p_store p) (ie_k e));
      if skip : bool then Ok (pipe_todo todo p) else
      if negb (sg_in_bounds g (ie_off e) (ie_slen e))
      then Ok (pipe_todo [] (pipe_fail (corrupt "%s: index entry out of bounds") p)) else
      rec ← slice (sg_mm g) (ie_off e) (ie_off e + RecHeaderSize + ie_slen e);
      if stop && p_cancelled p then Ok (pipe_todo [] p) else
      Ok (pipe_todo todo (pipe_cands (p_cands p ++ [mkCopyRec g e rec]) p))
  end.

Definition verify_one (i : nat) (stop : bool) (p : pipeline) : result pipeline :=
  match p_cands p !! i with
  | None => Ok p
  | Some c =>
      let p := pipe_cands (delete i (p_cands p)) p in
      match verifyRecord c with
      | Ok _ => if stop && p_cancelled p then Ok p else Ok (pipe_verified (p_verified p ++ [c]) p)
      | Err e => Ok (pipe_fail e p)
      | Panic => Panic
      | Diverge => Diverge
      end
  end.

Definition append_one (p : pipeline) : result pipeline :=
  match p_verified p with
  | [] => Ok p
  | c :: rest =>
      match p_appendErr p with
      | Some _ => Ok (pipe_verified rest p)
      | None =>
          let '(r, s) := appendLocked (ie_k (cr_e c)) (cr_rec c) false (p_store p) in
          match r with
          | Ok _ => Ok (mkPipe s (p_todo p) (p_cands p) rest (p_pipeErr p) None (p_cancelled p)
                          (p_copied p + 1) (u64 (p_bytes p + zlen (cr_rec c))))
          | Err e => Ok (mkPipe s (p_todo p) (p_cands p) rest (p_pipeErr p) (Some e) true
                           (p_copied p) (p_bytes p))
          | Panic => Panic
          | Diverge => Diverge
          end
      end
  end.

Definition pipe_step (victims : list sealedSegment) (p : pipeline) (a : action) : result pipeline :=
  match a with
  | Produce stop => produce victims stop p
  | VerifyOne i stop => verify_one i stop p
  | AppendOne => append_one p
  end.

(** The pipeline has ended: the producer returned, nothing waits to be appended,
    and the workers have drained the candidates or one of them failed. *)
Definition pipe_done (p : pipeline) : bool :=
  bool_decide (p_todo p = []) && bool_decide (p_verified p = []) &&
  (bool_decide (p_cands p = []) || bool_decide (p_pipeErr p ≠ None)).

Definition pipe_start (victims : list sealedSegment) (s : Store) : result pipeline :=
  todo ← mapR (λ g, es ← allEntries (sg_fv g); Ok (map (pair g) es)) victims;
  Ok (mkPipe s (concat todo) [] [] None None false 0 0).

(** An execution: [Diverge] when the actions do not complete it. *)
Definition copyLive (sched : list action) (victims : list sealedSegment) (s : Store) : result pipeline :=
  p ← pipe_start victims s;
  p ← foldR (λ a p, pipe_step victims p a) sched p;
  if pipe_done p then Ok p else Diverge.

Definition copy_err (p : pipeline) : option error :=
  match p_appendErr p with Some e => Some e | None => p_pipeErr p end.

Definition removeVictims (victims : list sealedSegment) : M unit :=
  modM (λ s, set_sealed (filter (λ g, is_victim victims (sg_id g) = false) (sealed s)) s);;;
  sy <- getM (λ s, cfg_sync (cfg s));;
  finish_errs (concat ((λ _, [syscall; syscall]) <$> victims) ++ (if sy : bool then [syscall] else [])).
End victims.

Definition with_grey (live : Key → bool) (g : option (gset Key)) (k : Key) : bool :=
  bool_decide (k ∈ default ∅ g) || live k.

Definition bytes_freed (victims : list sealedSegment) : Z :=
  foldl (λ n g, u64 (n + zlen (sg_mm g))) 0 victims.

(** The pass after the victims were selected. *)
Definition compact_victims (sched : list action) (live : Key → bool) (victims : list sealedSegment)
    (stats : CompactStats) (s : Store) : CompactStats * result unit * Store :=
  match copyLive live sched victims s with
  | Ok p =>
      let stats := mkCompactStats (SegmentsScanned stats) 0 (Victims stats) (p_copied p) (p_bytes p) 0 in
      match copy_err p with
      | Some e => (stats, Err e, p_store p)
      | None =>
          let '(r, s) := (sy <- getM (λ s, cfg_sync (cfg s));;
                          act <- getM active;;
                          match act with
                          | Some _ => if sy : bool then or_fail syscall else retM tt
                          | None => retM tt
                          end) (p_store p) in
          match r with
          | Ok _ =>
              let '(r, s) := removeVictims victims s in
              (mkCompactStats (SegmentsScanned stats) (zlen victims) (Victims stats) (RecordsCopied stats)
                              (BytesCopied stats) (bytes_freed victims), r, s)
          | r => (stats, r, s)
          end
      end
  | Err e => (stats, Err e, s)
  | Panic => (stats, Panic, s)
  | Diverge => (stats, Diverge, s)
  end.

Definition Compact (sched : list action) (live : Key → bool) (opts : CompactOpts) (s : Store) :
    CompactStats * result unit * Store :=
  let g := grey s in
  let s := set_grey false None s in
  let live := with_grey live g in
  if closed s then (zeroStats, Err (errors_New ErrClosed), s) else
  match failed s with
  | Some e => (zeroStats, Err e, s)
  | None =>
      let '(r, s) := or_fail sealActiveLocked s in
      match r with
      | Ok _ =>
          let n := zlen (sealed s) in
          let '(r, s) := selectVictims live opts s in
          match r with
          | Ok (victims, e) =>
              let stats := mkCompactStats n 0 (sg_id <$> victims) 0 0 0 in
              match e, victims with
              | Some e, _ => (stats, Err e, s)
              | None, [] => (stats, Ok tt, s)
              | None, _ => compact_victims sched live victims stats s
              end
          | Err e => (zeroStats, Err e, s)
          | Panic => (zeroStats, Panic, s)
          | Diverge => (zeroStats, Diverge, s)
          end
      | r => (zeroStats, r, s)
      end
  end.
End compact.
