(* ===== verification/MarkSetFacts.v ===== *)
(** * A mark set is a set of keys

    The bits of a [MarkSet] over the segments of a store implement a subset of
    the keys the store holds: marking adds a key, the counter is the size of
    the set. *)

From Stdlib Require Import Init.Byte.
From S2P Require Import Prelude Machine Key FsEncode FsTree FsRead PackRecord Footer FooterFacts Packstore PackstoreRep Compact.
From Stdlib Require Import ZifyBool ZifyNat.
Local Open Scope Z_scope.

(** ** Bits of a word *)
Lemma land_bit w n : 0 <= n → (Z.land w (Z.shiftl 1 n) =? 0) = negb (Z.testbit w n).
Proof.
  intros Hn. destruct (Z.testbit w n) eqn:Hb; simpl.
  - apply Z.eqb_neq. intros Hz. apply (f_equal (λ z, Z.testbit z n)) in Hz.
    rewrite Z.land_spec, Z.shiftl_spec, Z.sub_diag, Hb, Z.bits_0 in Hz by lia. done.
  - apply Z.eqb_eq, Z.bits_inj'. intros i Hi. rewrite Z.land_spec, Z.bits_0, Z.shiftl_1_l, Z.pow2_bits_eqb by lia.
    destruct (n =? i) eqn:E; [|apply andb_false_r]. apply Z.eqb_eq in E as <-. by rewrite Hb.
Qed.

Lemma lor_bit w n i : 0 <= n → 0 <= i →
  Z.testbit (Z.lor w (Z.shiftl 1 n)) i = Z.testbit w i || (n =? i).
Proof. intros Hn Hi. by rewrite Z.lor_spec, Z.shiftl_1_l, Z.pow2_bits_eqb. Qed.

Section rep.
Context `{Fuse}.

(** The keys of a segment by the position of their rows. *)
Definition slotted (g : sealedSegment) (sl : list Key) : Prop :=
  NoDup sl ∧ fv_keyCount (sg_fv g) = zlen sl ∧
  ∀ k, ∃ c p, Contains (fv_filter (sg_fv g)) (filterKey k) = Ok c ∧ (c = false → k ∉ sl) ∧
              fv_lookupPos (sg_fv g) k = Ok p ∧
              match p with Some i => sl !! i = Some k | None => k ∉ sl end.

Lemma slotted_built g bodyLen es : sealed_over g bodyLen es →
  slotted g (keys_of (merge_sort entry_le es)).
Proof.
  intros ((Hfan & Hent & Hkc & _ & Hg & Hc) & Hnd & Hlen & _).
  pose proof (merge_sort_Permutation entry_le es) as Hperm.
  assert (NoDup (keys_of (merge_sort entry_le es))) as Hnds by (unfold keys_of; by rewrite Hperm).
  split_and!; [done|unfold keys_of; by rewrite length_fmap, merge_sort_length|].
  intros k. destruct (proj1 (is_ok_true _) (Contains_ok (fv_filter (sg_fv g)) (filterKey k) Hg)) as [c Hcont].
  destruct (searchIndexPos_spec _ (sorted_rows es) Hnds ltac:(by rewrite merge_sort_length) k) as (p & Hp & Hpos).
  exists c, p. split_and!; [done| |unfold fv_lookupPos; by rewrite Hfan, Hent|].
  - intros -> (e & -> & He)%list_elem_of_fmap. rewrite Hperm in He. rewrite (Hc e He) in Hcont. done.
  - destruct p as [i|]; [|done]. destruct Hpos as (e & He & <-). unfold keys_of. by rewrite list_lookup_fmap, He.
Qed.

(** The newest segment that holds [k], among the first [n]. *)
Fixpoint slot_of (slots : list (list Key)) (n : nat) (k : Key) : option place :=
  match n with
  | O => None
  | S n =>
      match slots !! n with
      | Some sl => match list_find (eq k) sl with
                   | Some (i, _) => Some (InSegment n i)
                   | None => slot_of slots n k
                   end
      | None => None
      end
  end.

Definition place_of (act : gmap Key bool) (slots : list (list Key)) (k : Key) : option place :=
  match act !! k with Some _ => Some InActive | None => slot_of slots (length slots) k end.

Lemma find_slot (sl : list Key) k i : NoDup sl → sl !! i = Some k → list_find (eq k) sl = Some (i, k).
Proof.
  intros Hnd Hi. apply list_find_Some. split_and!; [done|done|].
  intros j y Hj Hlt <-. assert (j = i) by (by eapply NoDup_lookup). lia.
Qed.

Lemma find_no_slot (sl : list Key) k : k ∉ sl → list_find (eq k) sl = None.
Proof. intros Hk. apply list_find_None, Forall_forall. intros x Hx ->. done. Qed.

Lemma ms_locate_from_spec segs slots n k :
  Forall2 slotted segs slots → (n ≤ length segs)%nat →
  ms_locate_from segs n k = Ok (slot_of slots n k).
Proof.
  intros Hall. induction n as [|n IH]; intros Hn; [done|]. cbn [ms_locate_from slot_of].
  destruct (lookup_lt_is_Some_2 segs n ltac:(lia)) as [g Hg].
  destruct (Forall2_lookup_l _ _ _ _ _ Hall Hg) as (sl & Hsl & Hnd & _ & Hk).
  rewrite Hg, Hsl. destruct (Hk k) as (c & p & -> & Hc & Hlook & Hp). rsimpl.
  destruct c; cbn [negb].
  - rewrite Hlook. rsimpl. destruct p as [i|].
    + by rewrite (find_slot sl k i).
    + rewrite find_no_slot by done. apply IH. lia.
  - rewrite find_no_slot by auto. apply IH. lia.
Qed.

(** The bit of a place. *)
Definition bit_at (m : MarkSet) (k : Key) (p : place) : bool :=
  match p with
  | InActive => default false (ms_active m !! k)
  | InSegment i pos =>
      match ms_bits m !! i ≫= (λ ws, ws !! (pos / 64)%nat) with
      | Some w => Z.testbit w (Z.of_nat (pos mod 64))
      | None => false
      end
  end.

Record ms_rep (m : MarkSet) (slots : list (list Key)) (marked : gset Key) : Prop := {
  rep_slots : Forall2 slotted (ms_segs m) slots;
  rep_words : Forall2 (λ ws sl, length sl ≤ 64 * length ws)%nat (ms_bits m) slots;
  rep_bits : ∀ k, match place_of (ms_active m) slots k with
                  | Some p => bit_at m k p = bool_decide (k ∈ marked)
                  | None => k ∉ marked
                  end;
  rep_count : ms_marked m = Z.of_nat (size marked);
}.

Lemma ms_locate_spec m slots marked k : ms_rep m slots marked →
  ms_locate m k = Ok (place_of (ms_active m) slots k).
Proof.
  intros [Hs _ _ _]. unfold ms_locate, place_of. destruct (ms_active m !! k); [done|].
  rewrite <- (Forall2_length _ _ _ Hs). by apply ms_locate_from_spec.
Qed.

Lemma slot_of_inv slots n k i pos : slot_of slots n k = Some (InSegment i pos) →
  ∃ sl, slots !! i = Some sl ∧ sl !! pos = Some k.
Proof.
  induction n as [|n IH]; [done|]. simpl. destruct (slots !! n) as [sl|] eqn:Hsl; [|done].
  destruct (list_find (eq k) sl) as [[j k']|] eqn:Hf; [|done]. intros [= <- <-].
  apply list_find_Some in Hf as (Hj & <- & _). eauto.
Qed.

Lemma slot_of_segment slots n k p : slot_of slots n k = Some p → ∃ i pos, p = InSegment i pos.
Proof.
  induction n as [|n IH]; [done|]. simpl. destruct (slots !! n) as [sl|]; [|done].
  destruct (list_find (eq k) sl) as [[j k']|]; [|done]. intros [= <-]. eauto.
Qed.

(** The word of a slot exists. *)
Lemma slot_word m slots marked i pos sl k :
  ms_rep m slots marked → slots !! i = Some sl → sl !! pos = Some k →
  ∃ ws w, ms_bits m !! i = Some ws ∧ ws !! (pos / 64)%nat = Some w.
Proof.
  intros [_ Hw _ _] Hi Hpos. destruct (Forall2_lookup_r _ _ _ _ _ Hw Hi) as (ws & Hws & Hlen).
  apply lookup_lt_Some in Hpos. destruct (lookup_lt_is_Some_2 ws (pos / 64)) as [w Hw']; [|eauto].
  apply Nat.Div0.div_lt_upper_bound; lia.
Qed.

Lemma place_of_cases act slots k p : place_of act slots k = Some p →
  (p = InActive ∧ is_Some (act !! k)) ∨
  (∃ i pos sl, p = InSegment i pos ∧ act !! k = None ∧ slots !! i = Some sl ∧ sl !! pos = Some k).
Proof.
  unfold place_of. destruct (act !! k) eqn:Ha.
  - intros [= <-]. left. eauto.
  - intros Hs. destruct (slot_of_segment _ _ _ _ Hs) as (i & pos & ->).
    destruct (slot_of_inv _ _ _ _ _ Hs) as (sl & ? & ?). right. by exists i, pos, sl.
Qed.

(** The word a lookup reads, as a bit of the place. *)
Lemma ms_word_spec m slots marked i pos sl k :
  ms_rep m slots marked → slots !! i = Some sl → sl !! pos = Some k →
  ∃ ws w, ms_bits m !! i = Some ws ∧ ws !! (pos / 64)%nat = Some w ∧ ms_word m i (pos / 64) = Ok w ∧
    bit_at m k (InSegment i pos) = Z.testbit w (Z.of_nat (pos mod 64)).
Proof.
  intros Hr Hi Hpos. destruct (slot_word m slots marked i pos sl k Hr Hi Hpos) as (ws & w & Hws & Hw).
  exists ws, w. split_and!; [done|done| |].
  - unfold ms_word. rewrite (index_ok (ms_bits m) _ ws) by (rewrite ?Nat2Z.id; done || lia). rsimpl.
    by apply index_ok; [rewrite Nat2Z.id|lia].
  - unfold bit_at. rewrite Hws. cbn [mbind option_bind]. by rewrite Hw.
Qed.

Lemma ms_Contains_spec m slots marked k : ms_rep m slots marked →
  ms_Contains m k = Ok (bool_decide (k ∈ marked)).
Proof.
  intros Hr. unfold ms_Contains. rewrite (ms_locate_spec m slots marked) by done. rsimpl.
  pose proof (rep_bits _ _ _ Hr k) as Hb. destruct (place_of _ _ k) as [p|] eqn:Hp.
  - destruct (place_of_cases _ _ _ _ Hp) as [[-> _]|(i & pos & sl & -> & _ & Hi & Hpos)]; [by rewrite <- Hb|].
    destruct (ms_word_spec m slots marked i pos sl k Hr Hi Hpos) as (ws & w & _ & _ & -> & Hbit).
    rsimpl. rewrite land_bit, negb_involutive by lia. congruence.
  - by rewrite bool_decide_false.
Qed.

(** A bit set at the place of [k] is seen there and nowhere else. *)
Lemma bit_at_set m i pos ws w n k' i' pos' :
  ms_bits m !! i = Some ws → ws !! (pos / 64)%nat = Some w →
  bit_at (ms_set_word m i (pos / 64) (Z.lor w (Z.shiftl 1 (Z.of_nat (pos mod 64)))) n) k' (InSegment i' pos') =
  bit_at m k' (InSegment i' pos') || (bool_decide (i = i') && bool_decide (pos = pos')).
Proof.
  intros Hws Hw. cbn [bit_at ms_set_word ms_bits]. destruct (decide (i = i')) as [<-|Hne].
  - rewrite list_lookup_alter, decide_True, Hws by done. cbn [fmap option_fmap option_map mbind option_bind].
    rewrite (bool_decide_true (i = i)) by done. cbn [andb].
    destruct (decide (pos / 64 = pos' / 64)%nat) as [Hd|Hd].
    + rewrite <- Hd, list_lookup_insert_eq, Hw by (by eapply lookup_lt_Some). rewrite lor_bit by lia. f_equal.
      apply eq_true_iff_eq. rewrite bool_decide_eq_true, Z.eqb_eq.
      pose proof (Nat.div_mod_eq pos 64). pose proof (Nat.div_mod_eq pos' 64). lia.
    + rewrite list_lookup_insert_ne by done. rewrite (bool_decide_false (pos = pos')) by congruence.
      by rewrite orb_false_r.
  - rewrite list_lookup_alter_ne by done. rewrite (bool_decide_false (i = i')) by done. simpl. by rewrite orb_false_r.
Qed.

Lemma mark_size (marked : gset Key) (k : Key) :
  (if bool_decide (k ∈ marked) then Z.of_nat (size marked) else Z.of_nat (size marked) + 1) =
  Z.of_nat (size ({[k]} ∪ marked)).
Proof.
  case_bool_decide as Hk.
  - replace ({[k]} ∪ marked) with marked by set_solver. done.
  - rewrite size_union, size_singleton by set_solver. lia.
Qed.

Lemma marked_union k k' (marked : gset Key) :
  bool_decide (k' ∈ {[k]} ∪ marked) = bool_decide (k' ∈ marked) || bool_decide (k' = k).
Proof. apply eq_true_iff_eq. rewrite orb_true_iff, !bool_decide_eq_true. set_solver. Qed.

Lemma place_of_insert act slots k b k' : is_Some (act !! k) →
  place_of (<[k := b]> act) slots k' = place_of act slots k'.
Proof.
  intros [b' Hk]. unfold place_of. destruct (decide (k = k')) as [<-|Hne].
  - by rewrite lookup_insert_eq, Hk.
  - by rewrite lookup_insert_ne.
Qed.

(** The two ways to record a mark. *)
Lemma mark_active_rep m slots marked k n : ms_rep m slots marked → is_Some (ms_active m !! k) →
  n = Z.of_nat (size ({[k]} ∪ marked)) →
  ms_rep (mkMarkSet (ms_segs m) (ms_bits m) (<[k := true]> (ms_active m)) n) slots ({[k]} ∪ marked).
Proof.
  intros [Hs Hw Hbits _] Hk Hn. split; [done|done| |done]. intros k'. specialize (Hbits k').
  cbn [ms_active]. rewrite place_of_insert by done.
  destruct (decide (k' = k)) as [->|Hne].
  - unfold place_of. destruct Hk as [b Hk]. rewrite Hk. cbn. rewrite lookup_insert_eq.
    by rewrite bool_decide_true by set_solver.
  - destruct (place_of (ms_active m) slots k') as [[|i pos]|]; [| |set_solver];
      rewrite marked_union, (bool_decide_false (k' = k)), orb_false_r, <- Hbits by done; [|done].
    cbn. by rewrite lookup_insert_ne.
Qed.

Lemma mark_slot_rep m slots marked k i pos sl ws w n :
  ms_rep m slots marked → place_of (ms_active m) slots k = Some (InSegment i pos) →
  slots !! i = Some sl → sl !! pos = Some k →
  ms_bits m !! i = Some ws → ws !! (pos / 64)%nat = Some w → n = Z.of_nat (size ({[k]} ∪ marked)) →
  ms_rep (ms_set_word m i (pos / 64) (Z.lor w (Z.shiftl 1 (Z.of_nat (pos mod 64)))) n) slots ({[k]} ∪ marked).
Proof.
  intros [Hs Hwords Hbits _] Hp Hi Hpos Hws Hw Hn. split; [done| | |done].
  - cbn [ms_set_word ms_bits]. apply Forall2_alter_l; [done|]. intros x y _ _ Hxy. by rewrite length_insert.
  - intros k'. specialize (Hbits k'). change (ms_active (ms_set_word _ _ _ _ _)) with (ms_active m).
    destruct (place_of (ms_active m) slots k') as [p|] eqn:Hp'.
    + destruct (place_of_cases _ _ _ _ Hp') as [[-> Ha]|(i' & pos' & sl' & -> & Hna & Hi' & Hpos')].
      * assert (k' ≠ k) by (intros ->; congruence).
        by rewrite marked_union, (bool_decide_false (k' = k)), orb_false_r by done.
      * rewrite (bit_at_set m i pos ws w n) by done. rewrite Hbits, marked_union. f_equal.
        apply eq_true_iff_eq. rewrite andb_true_iff, !bool_decide_eq_true. split.
        -- intros [<- <-]. congruence.
        -- intros ->. rewrite Hp in Hp'. by simplify_eq.
    + assert (k' ≠ k) by (intros ->; congruence). set_solver.
Qed.

Lemma Mark_rep m slots marked k : ms_rep m slots marked →
  ∃ m', Mark m k = Ok (bool_decide (is_Some (place_of (ms_active m) slots k)) && negb (bool_decide (k ∈ marked)),
                       bool_decide (is_Some (place_of (ms_active m) slots k)), m') ∧
        dom (ms_active m') = dom (ms_active m) ∧
        ms_rep m' slots (if bool_decide (is_Some (place_of (ms_active m) slots k)) then {[k]} ∪ marked else marked).
Proof.
  intros Hr. unfold Mark. rewrite (ms_locate_spec m slots marked) by done. rsimpl.
  pose proof (rep_bits _ _ _ Hr k) as Hb. destruct (place_of _ _ k) as [p|] eqn:Hp.
  2:{ exists m. split_and!; [by rewrite bool_decide_false by (by intros [])|done|].
      by rewrite bool_decide_false by (by intros []). }
  rewrite (bool_decide_true (is_Some _)) by done. cbn [andb].
  destruct (place_of_cases _ _ _ _ Hp) as [[-> [b Ha]]|(i & pos & sl & -> & Hna & Hi & Hpos)].
  - simpl in Hb. rewrite Hb. eexists. split_and!; [done|simpl; apply dom_insert_lookup_L; eauto|].
    apply mark_active_rep; [done|eauto|]. rewrite <- mark_size, (rep_count _ _ _ Hr). by destruct (bool_decide _).
  - destruct (ms_word_spec m slots marked i pos sl k Hr Hi Hpos) as (ws & w & Hws & Hw & -> & Hbit).
    rsimpl. rewrite land_bit, <- Hbit, Hb by lia. eexists. split_and!; [done|done|].
    apply (mark_slot_rep m slots marked k i pos sl ws w); try done.
    rewrite <- mark_size, (rep_count _ _ _ Hr). by destruct (bool_decide _).
Qed.

(** ** The set a mark set represents, over the keys present in the snapshot *)
Definition ms_set (m : MarkSet) (present marked : gset Key) : Prop :=
  ∃ slots, ms_rep m slots marked ∧
           ∀ k, is_Some (place_of (ms_active m) slots k) ↔ k ∈ present.

Lemma ms_set_sub m present marked : ms_set m present marked → marked ⊆ present.
Proof.
  intros (slots & Hr & Hp) k Hk. apply Hp. pose proof (rep_bits _ _ _ Hr k) as Hb.
  destruct (place_of _ _ k); [done|]. by destruct Hb.
Qed.

Lemma Mark_set m present marked k : ms_set m present marked →
  ∃ m', Mark m k = Ok (bool_decide (k ∈ present) && negb (bool_decide (k ∈ marked)),
                       bool_decide (k ∈ present), m') ∧
        ms_set m' present (if bool_decide (k ∈ present) then {[k]} ∪ marked else marked).
Proof.
  intros (slots & Hr & Hp). destruct (Mark_rep m slots marked k Hr) as (m' & HM & Hdom & Hr').
  rewrite (bool_decide_ext _ _ (Hp k)) in HM, Hr'. exists m'. split; [done|]. exists slots. split; [done|].
  intros k'. rewrite <- Hp. unfold place_of.
  assert (is_Some (ms_active m' !! k') ↔ is_Some (ms_active m !! k')) as Heq.
  { rewrite <- !elem_of_dom. by rewrite Hdom. }
  destruct (ms_active m' !! k'), (ms_active m !! k'); [done| | |done].
  - by destruct Heq as [[? ?] _].
  - by destruct Heq as [_ [? ?]].
Qed.

Lemma ms_Contains_set m present marked k : ms_set m present marked →
  ms_Contains m k = Ok (bool_decide (k ∈ marked)).
Proof. intros (slots & Hr & _). by eapply ms_Contains_spec. Qed.

Lemma Marked_set m present marked : ms_set m present marked → Marked m = Z.of_nat (size marked).
Proof. intros (slots & Hr & _). apply Hr. Qed.

Lemma slot_of_Some slots n k : (n ≤ length slots)%nat →
  is_Some (slot_of slots n k) ↔ ∃ i sl, (i < n)%nat ∧ slots !! i = Some sl ∧ k ∈ sl.
Proof.
  induction n as [|n IH]; intros Hn.
  { split; [by intros []|]. intros (i & sl & Hi & _). lia. }
  cbn [slot_of]. destruct (lookup_lt_is_Some_2 slots n ltac:(lia)) as [sl Hsl]. rewrite Hsl.
  destruct (list_find (eq k) sl) as [[j k']|] eqn:Hf.
  - apply list_find_Some in Hf as (Hj & <- & _). split; [intros _|by eauto].
    exists n, sl. split_and!; [lia|done|by eapply list_elem_of_lookup_2].
  - apply list_find_None in Hf. rewrite Forall_forall in Hf. rewrite IH by lia. split.
    + intros (i & sl' & Hi & ?). exists i, sl'. split; [lia|done].
    + intros (i & sl' & Hi & Hsl' & Hk). exists i, sl'. split_and!; [|done|done].
      destruct (decide (i = n)) as [->|?]; [|lia]. simplify_eq. by destruct (Hf k Hk).
Qed.
End rep.

Section fresh_mark.
Context `{Fuse} `{Zstd} `{ItemInv}.

Lemma seg_slots g its : seg_rep g its → ∃ sl, slotted g sl ∧ ∀ k, k ∈ sl ↔ k ∈ (it_key <$> its).
Proof.
  intros (_ & _ & _ & _ & es & Hov & Hperm). eexists. split; [by eapply slotted_built|]. intros k.
  unfold keys_of. rewrite (merge_sort_Permutation entry_le es), Hperm.
  change (ie_k <$> (loc_entry <$> item_locs 8 its)) with (keys_of (loc_entry <$> item_locs 8 its)).
  by rewrite entry_keys.
Qed.

Lemma all_slots gs segs : Forall2 seg_rep gs segs →
  ∃ slots, Forall2 slotted gs slots ∧
           Forall2 (λ sl its, ∀ k, k ∈ sl ↔ k ∈ (it_key <$> its)) slots segs.
Proof.
  induction 1 as [|g its gs segs Hg _ (slots & Hs & Hk)]; [by exists []|].
  destruct (seg_slots g its Hg) as (sl & Hsl & Hkeys). exists (sl :: slots). by split; constructor.
Qed.

Lemma item_map_dom its k : k ∈ dom (item_map its) ↔ k ∈ (it_key <$> its).
Proof.
  rewrite elem_of_dom. destruct (decide (k ∈ (it_key <$> its))) as [Hin|Hin].
  - split; [done|intros _]. destruct (item_map its !! k) eqn:E; [done|]. by apply item_map_None in E.
  - apply item_map_None in Hin as Hn. rewrite Hn. split; [by intros []|done].
Qed.

Lemma newest_map_dom segs k : k ∈ dom (newest_map segs) ↔ ∃ its, its ∈ segs ∧ k ∈ (it_key <$> its).
Proof.
  unfold newest_map. assert (∀ l : list (list item), k ∈ dom (⋃ (item_map <$> l)) ↔ ∃ its, its ∈ l ∧ k ∈ (it_key <$> its)) as Hl.
  { induction l as [|its l IH]; [set_solver|]. rewrite fmap_cons.
    change (⋃ _) with (item_map its ∪ ⋃ (item_map <$> l)). rewrite dom_union_L, elem_of_union, IH.
    rewrite item_map_dom. set_solver. }
  rewrite Hl. split; intros (its & Hin & ?); exists its; (split; [|done]);
    [by rewrite <- Permutation_rev in Hin|by rewrite <- Permutation_rev].
Qed.

(** The active index holds the keys of the items. *)
Lemma active_keys act its k : active_rep act its →
  is_Some (match act with Some a => (λ _, false) <$> a_index a | None => ∅ end !! k : option bool) ↔
  k ∈ (it_key <$> its).
Proof.
  destruct act as [a|]; [|intros ->; rewrite lookup_empty; split; [by intros []|by intros ?%elem_of_nil]].
  intros (_ & _ & _ & _ & ->). rewrite lookup_fmap, fmap_is_Some, <- item_locs_keys with (off := 8).
  rewrite <- elem_of_dom, dom_list_to_map. by rewrite elem_of_list_to_set.
Qed.

Lemma fresh_bit s k p : bit_at (NewMarkSet s) k p = false.
Proof.
  destruct p as [|i pos]; simpl.
  - destruct (active s) as [a|]; [|by rewrite lookup_empty]. rewrite lookup_fmap. by destruct (a_index a !! k).
  - rewrite list_lookup_fmap. destruct (sealed s !! i); [|done]. cbn [fmap option_fmap option_map mbind option_bind].
    destruct (replicate _ 0 !! _) as [w|] eqn:Hw; [|done]. apply lookup_replicate in Hw as [-> _]. apply Z.bits_0.
Qed.

Lemma NewMarkSet_set s m : represents s m → ms_set (NewMarkSet s) (dom m) ∅.
Proof.
  intros (_ & its & segs & Hact & Hsegs & ->). destruct (all_slots _ _ Hsegs) as (slots & Hs & Hk).
  exists slots. split; [split|].
  - done.
  - cbn [NewMarkSet ms_bits]. apply Forall2_fmap_l. eapply Forall2_impl; [exact Hs|].
    intros g sl (_ & Hkc & _). simpl. rewrite length_replicate, Hkc. lia.
  - intros k. destruct (place_of _ _ k) as [p|]; [|set_solver]. rewrite fresh_bit. by rewrite bool_decide_false by set_solver.
  - done.
  - intros k. cbn [NewMarkSet ms_active]. rewrite dom_union_L, elem_of_union, item_map_dom, newest_map_dom.
    rewrite <- (active_keys _ _ _ Hact). unfold place_of. destruct (_ !! k) as [b|] eqn:Ha; [naive_solver|].
    rewrite slot_of_Some by done. split.
    + intros (i & sl & _ & Hi & Hin). destruct (Forall2_lookup_l _ _ _ _ _ Hk Hi) as (its' & Hi' & Heq).
      right. exists its'. split; [by eapply list_elem_of_lookup_2|by apply Heq].
    + intros [[? [=]]|(its' & (i & Hi)%list_elem_of_lookup & Hin)].
      destruct (Forall2_lookup_r _ _ _ _ _ Hk Hi) as (sl & Hsl & Heq).
      exists i, sl. split_and!; [by eapply lookup_lt_Some|done|by apply Heq].
Qed.
End fresh_mark.
