(* ===== verification/CompactFacts.v ===== *)
(** * Appends do not look at the sealed segments

    An append reads and writes the active segment only; when it seals it adds a
    segment, under the id of the active one, behind those already sealed.  So it
    acts in the same way on a store from which segments were taken away. *)

From Stdlib Require Import Init.Byte.
From S2P Require Import Prelude Machine Key FsEncode FsTree FsRead PackRecord Footer FooterFacts Packstore PackstoreRep PackstoreFacts Compact MarkSetFacts.
From Stdlib Require Import ZifyBool ZifyNat.
Local Open Scope Z_scope.

Definition act_id (s : Store) : option Z := a_id <$> active s.

(** [m] from [s] adds the segments [new], all under the id of the active one,
    and does the same whatever segments precede them. *)
Definition frame_at {A} (m : M A) (s : Store) : Prop :=
  ∃ new, sealed (snd (m s)) = sealed s ++ new ∧
    (∀ l, m (set_sealed l s) = (fst (m s), set_sealed (l ++ new) (snd (m s)))) ∧
    Forall (λ g, act_id s = Some (sg_id g)) new ∧ nextID (snd (m s)) = nextID s ∧
    (act_id (snd (m s)) = act_id s ∨ act_id (snd (m s)) = None) ∧
    (new = [] ∨ (length new = 1%nat ∧ act_id (snd (m s)) = None)).

Section rules.
Context {A B : Type}.
Implicit Types (s : Store).

Lemma frame_pure (m : M A) s r : (∀ l, m (set_sealed l s) = (r, set_sealed l s)) → m s = (r, s) → frame_at m s.
Proof.
  intros Hl Hs. exists []. rewrite Hs. split_and!; [by rewrite app_nil_r| |constructor|done|by left|by left].
  intros l. by rewrite Hl, app_nil_r.
Qed.

Lemma frame_bind (m : M A) (f : A → M B) s :
  frame_at m s → (∀ a, fst (m s) = Ok a → frame_at (f a) (snd (m s))) → frame_at (bindM m f) s.
Proof.
  intros (new & Hs & Hl & Hids & Hn & Ha & Hone) Hf. unfold frame_at, bindM.
  destruct (m s) as [r s1] eqn:Em. simpl in *. destruct r as [a|e| |];
    [|exists new; split_and!; try done; intros l; by rewrite Hl..].
  destruct (Hf a eq_refl) as (new2 & Hs2 & Hl2 & Hids2 & Hn2 & Ha2 & Hone2).
  exists (new ++ new2). split_and!; [by rewrite Hs2, Hs, app_assoc| | |congruence| |].
  - intros l. by rewrite Hl, Hl2, app_assoc.
  - apply Forall_app. split; [done|]. eapply Forall_impl; [exact Hids2|]. intros g Hg. simpl in Hg.
    destruct Ha as [<-|Ha]; congruence.
  - destruct Ha2 as [Ha2|Ha2]; [|by right]. rewrite Ha2. done.
  - destruct Hone as [->|[Hlen Hnone]]; [done|]. right. destruct new2 as [|g new2].
    + rewrite app_nil_r. split; [done|]. destruct Ha2; congruence.
    + apply Forall_cons in Hids2 as [Hg _]. congruence.
Qed.
End rules.

Lemma frame_get {A} (f : Store → A) s : (∀ l, f (set_sealed l s) = f s) → frame_at (getM f) s.
Proof. intros Hf. apply (frame_pure _ _ (Ok (f s))); [|done]. intros l. unfold getM. by rewrite Hf. Qed.

Lemma frame_lift {A} (r : result A) s : frame_at (liftM r) s.
Proof. by apply (frame_pure _ _ r). Qed.

Lemma frame_mod g s :
  sealed (g s) = sealed s → (∀ l, g (set_sealed l s) = set_sealed l (g s)) → nextID (g s) = nextID s →
  act_id (g s) = act_id s ∨ act_id (g s) = None → frame_at (modM g) s.
Proof.
  intros Hs Hl Hn Ha. exists []. unfold modM. cbn [fst snd]. split_and!; [by rewrite app_nil_r| |constructor|done|done|by left].
  intros l. by rewrite Hl, app_nil_r.
Qed.

Lemma active_syscall s : active (snd (syscall s)) = active s ∧ nextID (snd (syscall s)) = nextID s.
Proof. unfold syscall. by destruct (io s) as [|[]]. Qed.

Lemma frame_syscall s : frame_at syscall s.
Proof.
  exists []. unfold syscall. destruct s as [? ? ? ? ? ? ? ? ? [|[] l]]; cbn;
    (split_and!; [by rewrite app_nil_r|intros; by rewrite app_nil_r|constructor|done|by left|by left]).
Qed.

Lemma frame_writeAt file data off s : frame_at (writeAt file data off) s.
Proof.
  exists []. unfold writeAt. destruct s as [? ? ? ? ? ? ? ? ? [|[] l]]; cbn;
    (split_and!; [by rewrite app_nil_r|intros; by rewrite app_nil_r|constructor|done|by left|by left]).
Qed.

Lemma active_writeAt file data off s : active (snd (writeAt file data off s)) = active s.
Proof. unfold writeAt. by destruct (io s) as [|[]]. Qed.

Lemma frame_or_fail {A} (m : M A) s : frame_at m s → frame_at (or_fail m) s.
Proof.
  intros (new & Hs & Hl & Hids & Hn & Ha & Hone). unfold or_fail, tryM, bindM, frame_at.
  destruct (m s) as [r s1] eqn:Em. simpl in *. exists new.
  destruct r as [a|e| |]; simpl; split_and!; try done.
  all: try (intros l; rewrite Hl; by rewrite Em || done).
  all: try (by destruct (failed s1)).
  all: try (intros l; rewrite Hl; simpl; by destruct (failed s1)).
Qed.

Section append.
Context `{Fuse} `{Zstd}.

Lemma sg_id_open id content g : openSealed id content = Ok g → sg_id g = id.
Proof. unfold openSealed. case_if; [done|]. by intros (fv & _ & <-%Ok_inj)%bind_Ok. Qed.

Lemma frame_publish g s : act_id s = Some (sg_id g) →
  frame_at (modM (λ s, set_active None (set_sealed (sealed s ++ [g]) s))) s.
Proof.
  intros Ha. exists [g]. unfold modM. cbn. split_and!; [done|done|by constructor|done|by right|by right].
Qed.

Lemma frame_set_active a s : act_id s = Some (a_id a) → frame_at (modM (set_active (Some a))) s.
Proof. intros Ha. apply frame_mod; try done. left. by rewrite Ha. Qed.

Lemma act_id_syscall s : act_id (snd (syscall s)) = act_id s.
Proof. unfold act_id. by rewrite (proj1 (active_syscall s)). Qed.

Lemma frame_seal s : frame_at sealActiveLocked s.
Proof.
  unfold sealActiveLocked. apply frame_bind; [by apply frame_get|]. intros act [= Hact]. cbn [snd getM].
  destruct act as [a|]; [|apply frame_lift]. case_if; [apply frame_lift|].
  assert (act_id s = Some (a_id a)) as Ha by (unfold act_id; by rewrite Hact).
  apply frame_bind; [apply frame_lift|]. intros ft _. cbn [snd liftM].
  apply frame_bind; [apply frame_syscall|]. intros _ _. cbv zeta.
  apply frame_bind; [apply frame_set_active; by rewrite act_id_syscall|]. intros _ _.
  apply frame_bind; [apply frame_writeAt|]. intros w _.
  apply frame_bind; [apply frame_set_active; unfold act_id; by rewrite active_writeAt|]. intros _ _.
  apply frame_bind; [apply frame_lift|]. intros _ _. cbn [snd liftM].
  apply frame_bind; [apply frame_syscall|]. intros _ _.
  apply frame_bind; [apply frame_syscall|]. intros _ _.
  apply frame_bind; [apply frame_syscall|]. intros _ _.
  apply frame_bind; [apply frame_lift|]. intros g [= Hg]. cbn [snd liftM].
  apply frame_bind; [|intros; apply frame_syscall].
  apply frame_publish. rewrite !act_id_syscall. by rewrite (sg_id_open _ _ _ Hg).
Qed.

(** The part of an append that follows the creation of the active segment. *)
Definition append_tail (k : Key) (rec : bytes) (syncNow : bool) : M unit :=
  (act <- getM active;;
      match act with
      | None => liftM Panic
      | Some a =>
          match a_index a !! k with
          | Some _ => retM tt
          | None =>
              let off := a_size a in
              w <- writeAt (a_file a) rec off;;
              modM (set_active (Some (set_file a (fst w))));;;
              liftM (snd w);;;
              flags <- liftM (index rec 33);;
              ub <- liftM (slice rec 34 38);;
              sb <- liftM (slice rec 38 42);;
              let loc := mkLoc off flags (be_dec ub) (be_dec sb) in
              let a := mkActive (a_id a) (fst w) (off + zlen rec) (<[k := loc]> (a_index a)) in
              modM (set_active (Some a));;;
              sy <- getM (λ s, cfg_sync (cfg s));;
              (if syncNow && sy then or_fail syscall else retM tt);;;
              limit <- getM (λ s, segmentSize (cfg s));;
              if a_size a >=? limit then or_fail sealActiveLocked else retM tt
          end
      end)%store.

Lemma append_unfold k rec syncNow s : closed s = false → failed s = None →
  appendLocked k rec syncNow s =
  bindM (match active s with None => createActive | Some _ => retM tt end) (λ _, append_tail k rec syncNow) s.
Proof. intros Hc Hf. unfold appendLocked, bindM at 1, getM at 1. rewrite Hc. unfold bindM at 1, getM at 1. by rewrite Hf. Qed.

Lemma frame_append_tail k rec syncNow s : frame_at (append_tail k rec syncNow) s.
Proof.
  apply frame_bind; [by apply frame_get|]. intros act [= Hact]. cbn [snd getM].
  destruct act as [a|]; [|apply frame_lift]. destruct (a_index a !! k); [apply frame_lift|]. cbv zeta.
  assert (act_id s = Some (a_id a)) as Ha by (unfold act_id; by rewrite Hact).
  apply frame_bind; [apply frame_writeAt|]. intros w _.
  apply frame_bind; [apply frame_set_active; unfold act_id; by rewrite active_writeAt|]. intros _ _.
  apply frame_bind; [apply frame_lift|]. intros _ _.
  apply frame_bind; [apply frame_lift|]. intros flags _.
  apply frame_bind; [apply frame_lift|]. intros ub _.
  apply frame_bind; [apply frame_lift|]. intros sb _.
  apply frame_bind; [by apply frame_set_active|]. intros _ _.
  apply frame_bind; [by apply frame_get|]. intros sy _.
  apply frame_bind; [case_if; [apply frame_or_fail, frame_syscall|apply frame_lift]|]. intros _ _.
  apply frame_bind; [by apply frame_get|]. intros limit _.
  case_if; [apply frame_or_fail, frame_seal|apply frame_lift].
Qed.

(** ** Fresh ids *)
Definition fresh_for (V : list Z) (s : Store) : Prop :=
  0 <= nextID s ∧ (∀ v, v ∈ V → v < nextID s) ∧ (∀ id, act_id s = Some id → id ∉ V).

Ltac leaf := eexists _, _; split_and!; first [reflexivity|done|by left|by right|by split].

Lemma createActive_frame s : active s = None →
  ∃ r s', createActive s = (r, s') ∧ (∀ l, createActive (set_sealed l s) = (r, set_sealed l s')) ∧
  sealed s' = sealed s ∧ nextID s' = u64 (nextID s + 1) ∧ (act_id s' = None ∨ act_id s' = Some (nextID s)) ∧
  safe r.
Proof.
  intros Ha. unfold createActive, bindM, getM, modM, syscall, writeAt, liftM.
  destruct s as [c cp gr se ac n cl fa fs io]; simpl in *; subst ac.
  destruct io as [|[] io]; cbn; [leaf| |leaf].
  destruct io as [|[] io]; cbn; [leaf| |leaf].
  destruct io as [|[] io]; cbn; [leaf| |leaf].
  destruct io as [|[] io]; cbn; leaf.
Qed.

Lemma fresh_create V s s' : fresh_for V s → nextID s < 2 ^ 64 - 1 → nextID s' = u64 (nextID s + 1) →
  act_id s' = None ∨ act_id s' = Some (nextID s) → fresh_for V s' ∧ nextID s' = nextID s + 1.
Proof.
  intros (Hpos & HV & Hact) Hn Hn' Ha. assert (nextID s' = nextID s + 1) as Heq.
  { rewrite Hn'. apply Z.mod_small. lia. }
  split; [|done]. rewrite <- Heq in *. split_and!; [lia|intros v Hv; specialize (HV v Hv); lia|].
  intros id Hid Hin. destruct Ha as [Ha|Ha]; [congruence|]. specialize (HV id Hin). rewrite Ha in Hid. simplify_eq. lia.
Qed.

(** What an append adds to the sealed segments is not one of [V]. *)
Definition appends_fresh (V : list Z) (d : Z) (m : M unit) (s : Store) : Prop :=
  ∃ r s' new, m s = (r, s') ∧ fresh_for V s' ∧ nextID s' <= nextID s + d ∧
    sealed s' = sealed s ++ new ∧ Forall (λ g, sg_id g ∉ V) new ∧
    ∀ l, m (set_sealed l s) = (r, set_sealed (l ++ new) s').

Lemma tail_fresh V k rec syncNow s : fresh_for V s → appends_fresh V 0 (append_tail k rec syncNow) s.
Proof.
  intros (Hpos & HV & Hact). destruct (frame_append_tail k rec syncNow s) as (new & Hs & Hl & Hids & Hn & Ha & _).
  destruct (append_tail k rec syncNow s) as [r s'] eqn:E. simpl in *. exists r, s', new.
  split_and!; [done| |lia|done| |done].
  - split_and!; [lia|by rewrite Hn|]. intros id Hid. destruct Ha as [Ha|Ha]; [|congruence]. apply Hact. congruence.
  - eapply Forall_impl; [exact Hids|]. intros g Hg. by apply Hact.
Qed.

Lemma unchanged_fresh V (m : M unit) s r : fresh_for V s → m s = (r, s) →
  (∀ l, m (set_sealed l s) = (r, set_sealed l s)) → appends_fresh V 1 m s.
Proof.
  intros HV Hm Hl. exists r, s, []. split_and!; [done|apply HV..|lia|by rewrite app_nil_r|constructor|].
  intros l. by rewrite app_nil_r.
Qed.

Lemma append_fresh V k rec syncNow s : fresh_for V s → nextID s < 2 ^ 64 - 1 →
  appends_fresh V 1 (appendLocked k rec syncNow) s.
Proof.
  intros HV Hn. destruct (closed s) eqn:Hc.
  { eapply unchanged_fresh; [done|unfold appendLocked, bindM, getM; by rewrite Hc|].
    intros l. unfold appendLocked, bindM, getM. simpl. by rewrite Hc. }
  destruct (failed s) as [e|] eqn:Hf.
  { eapply unchanged_fresh; [done|unfold appendLocked, bindM, getM; rewrite Hc; simpl; by rewrite Hf|].
    intros l. unfold appendLocked, bindM, getM. simpl. rewrite Hc. simpl. by rewrite Hf. }
  unfold appends_fresh. rewrite append_unfold by done.
  assert (∀ l, appendLocked k rec syncNow (set_sealed l s) =
            bindM (match active s with None => createActive | Some _ => retM tt end)
                  (λ _, append_tail k rec syncNow) (set_sealed l s)) as Hun by (intros l; by rewrite append_unfold).
  destruct (active s) as [a|] eqn:Ha.
  { destruct (tail_fresh V k rec syncNow s HV) as (r & s' & new & Hm & ? & ? & ? & ? & Hl).
    exists r, s', new. split_and!; try done; [lia|]. intros l. by rewrite Hun, <- Hl. }
  destruct (createActive_frame s Ha) as (r1 & s1 & Hcr & Hcl & Hs1 & Hn1 & Hid & Hsafe).
  destruct (fresh_create V s s1 HV Hn Hn1 Hid) as [HV1 Hn1'].
  unfold bindM. rewrite Hcr. destruct r1 as [[]|e| |]; try by destruct Hsafe.
  - destruct (tail_fresh V k rec syncNow s1 HV1) as (r & s' & new & Hm & HV' & Hn' & Hs' & Hnew & Hl).
    exists r, s', new. split_and!; [done|done|lia|congruence|done|].
    intros l. rewrite Hun. unfold bindM. by rewrite Hcl, <- Hl.
  - exists (Err e), s1, []. split_and!; [done|done|lia|by rewrite app_nil_r|constructor|].
    intros l. rewrite Hun. unfold bindM. by rewrite Hcl, app_nil_r.
Qed.

(** ** Segment ids are distinct *)
Definition all_ids (s : Store) : list Z := (sg_id <$> sealed s) ++ option_list (act_id s).

Definition ids_ok (s : Store) : Prop :=
  0 <= nextID s ∧ NoDup (all_ids s) ∧ Forall (λ i, 0 <= i < nextID s) (all_ids s).

Lemma ids_ok_sublist s s' : all_ids s' `sublist_of` all_ids s → nextID s' = nextID s → ids_ok s → ids_ok s'.
Proof.
  intros Hsub Hn (Hpos & Hnd & Hall). unfold ids_ok. rewrite Hn. split_and!; [done|by eapply sublist_NoDup|].
  rewrite Forall_forall in *. intros i Hi. apply Hall. by eapply elem_of_sublist.
Qed.

Lemma frame_ids {A} (m : M A) s : frame_at m s → ids_ok s → ids_ok (snd (m s)) ∧ nextID (snd (m s)) = nextID s.
Proof.
  intros (new & Hs & _ & Hids & Hn & Ha & Hone) Hok. split; [|done]. apply (ids_ok_sublist s); [|done|done].
  unfold all_ids. rewrite Hs, fmap_app, <- app_assoc. apply sublist_app; [done|].
  destruct Hone as [->|[Hlen ->]].
  - destruct Ha as [->| ->]; [done|]. apply sublist_nil_l.
  - destruct new as [|g [|]]; try done. apply Forall_cons in Hids as [-> _]. done.
Qed.

Lemma append_ids k rec syncNow s : ids_ok s → nextID s < 2 ^ 64 - 1 →
  ids_ok (snd (appendLocked k rec syncNow s)) ∧ nextID (snd (appendLocked k rec syncNow s)) <= nextID s + 1.
Proof.
  intros Hok Hn. destruct (closed s) eqn:Hc.
  { unfold appendLocked, bindM, getM. rewrite Hc. simpl. split; [done|lia]. }
  destruct (failed s) as [e|] eqn:Hf.
  { unfold appendLocked, bindM, getM. rewrite Hc. simpl. rewrite Hf. simpl. split; [done|lia]. }
  rewrite append_unfold by done. destruct (active s) as [a|] eqn:Ha.
  { destruct (frame_ids _ _ (frame_append_tail k rec syncNow s) Hok) as [? Heq].
    change (bindM _ _ s) with (append_tail k rec syncNow s). split; [done|lia]. }
  destruct (createActive_frame s Ha) as (r1 & s1 & Hcr & _ & Hs1 & Hn1 & Hid & Hsafe).
  assert (ids_ok s1 ∧ nextID s1 = nextID s + 1) as [Hok1 Hn1'].
  { destruct Hok as (Hpos & Hnd & Hall). assert (nextID s1 = nextID s + 1) as Heq by (rewrite Hn1; apply Z.mod_small; lia).
    split; [|done]. unfold ids_ok, all_ids in *. rewrite Hs1. unfold act_id in Hnd, Hall. rewrite Ha in Hnd, Hall.
    cbn in Hnd, Hall. rewrite app_nil_r in Hnd, Hall.
    assert (Forall (λ i, 0 <= i < nextID s1) (sg_id <$> sealed s)) as Hlt.
    { eapply Forall_impl; [exact Hall|]. intros i. simpl. lia. }
    split_and!; [lia| |].
    - destruct Hid as [->| ->]; cbn; rewrite ?app_nil_r; [done|]. apply NoDup_app. split_and!; [done| |apply NoDup_singleton].
      intros i Hi ->%list_elem_of_singleton. rewrite Forall_forall in Hall. specialize (Hall _ Hi). lia.
    - apply Forall_app. split; [done|]. destruct Hid as [->| ->]; cbn; repeat constructor; lia. }
  unfold bindM. rewrite Hcr. destruct r1 as [[]|e| |]; try by destruct Hsafe.
  - destruct (frame_ids _ _ (frame_append_tail k rec syncNow s1) Hok1) as [? Heq]. split; [done|lia].
  - split; [done|]. simpl. lia.
Qed.

Lemma ids_fresh s V : ids_ok s → V ⊆ (sg_id <$> sealed s) → fresh_for V s.
Proof.
  intros (Hpos & Hnd & Hall) HV. rewrite Forall_forall in Hall. unfold all_ids in *. split_and!; [done| |].
  - intros v Hv. apply (Hall v). apply elem_of_app. left. by apply HV.
  - intros id Hid Hin. apply NoDup_app in Hnd as (_ & Hdis & _). apply (Hdis id); [by apply HV|]. rewrite Hid. set_solver.
Qed.
End append.

(** ** Compaction loses no live object

    Whatever the interleaving of the copying pipeline, and whatever fails, the
    keys that are live or grey stay in the store; only dead keys disappear. *)

(** ** The rows of an index *)
Lemma index_row_built fv bodyLen es i e `{Fuse} :
  fv_built fv bodyLen es → Forall entry_ok es → merge_sort entry_le es !! i = Some e →
  index_row fv i = Ok e.
Proof.
  intros (_ & Hent & _) Hok Hi. unfold index_row. rewrite Hent.
  assert (entry_ok e) as [Ho Hs].
  { rewrite Forall_forall in Hok. apply Hok. rewrite <- (merge_sort_Permutation entry_le es).
    by eapply list_elem_of_lookup_2. }
  set (s := merge_sort entry_le es) in *.
  assert (slice (concat (entry_bytes <$> s)) (Z.of_nat i * indexEntrySize) ((Z.of_nat i + 1) * indexEntrySize)
          = Ok (entry_bytes e)) as ->.
  { rewrite <- (take_drop_middle s i e Hi) at 1. rewrite fmap_app, fmap_cons, concat_app. cbn [concat].
    apply lookup_lt_Some in Hi. unfold indexEntrySize.
    apply slice_app3; rewrite (length_rows entry_bytes 44 length_entry_bytes), length_take, ?length_entry_bytes; lia. }
  rsimpl. unfold entry_bytes. pose proof (length_kb (ie_k e)) as Hk.
  rewrite slice_prefix by lia. rsimpl.
  rewrite (slice_app3 (kb (ie_k e)) (be_enc 8 (ie_off e)) (be_enc 4 (ie_slen e)) 32 40) by (rewrite ?length_be_enc; lia).
  rsimpl. rewrite app_assoc, <- (app_nil_r (be_enc 4 (ie_slen e))).
  rewrite (slice_app3 (kb (ie_k e) ++ be_enc 8 (ie_off e)) (be_enc 4 (ie_slen e)) [] 40 44)
    by (rewrite ?length_app, ?length_be_enc; lia).
  rsimpl. rewrite to_key_kb, (be_dec_enc_small 8), (be_dec_enc_small 4) by done. by destruct e.
Qed.

Section entries.
Context `{Fuse} `{Zstd} `{ItemInv}.

Lemma allEntries_built g bodyLen es :
  sealed_over g bodyLen es → allEntries (sg_fv g) = Ok (merge_sort entry_le es).
Proof.
  intros (Hb & _ & _ & Hok). unfold allEntries. pose proof Hb as (_ & _ & Hkc & _).
  rewrite Hkc, Nat2Z.id.
  replace (length es) with (length (merge_sort entry_le es)) by (by rewrite (merge_sort_Permutation entry_le es)).
  assert (∀ l off, (∀ i e, l !! i = Some e → index_row (sg_fv g) (off + i) = Ok e) →
            mapR (index_row (sg_fv g)) (seq off (length l)) = Ok l) as Hl.
  { induction l as [|e l IH]; intros off Hrow; [done|]. simpl.
    pose proof (Hrow 0%nat e eq_refl) as Hr0. rewrite Nat.add_0_r in Hr0. rewrite Hr0. rsimpl.
    rewrite IH; [done|]. intros i e' Hi. rewrite <- (Hrow (S i) e' Hi). f_equal. lia. }
  apply Hl. intros i e Hi. simpl. by eapply index_row_built.
Qed.

(** An entry of a segment and the item it points to. *)
Definition entry_item (g : sealedSegment) (e : indexEntry) (it : item) : Prop :=
  item_ok it ∧ it_key it = ie_k e ∧ sg_in_bounds g (ie_off e) (ie_slen e) = true ∧
  slice (sg_mm g) (ie_off e) (ie_off e + RecHeaderSize + ie_slen e) = Ok (it_rec it).

Lemma seg_entries g its : seg_rep g its →
  ∃ es, allEntries (sg_fv g) = Ok es ∧ (ie_k <$> es) ≡ₚ (it_key <$> its) ∧
        Forall (λ e, ∃ it, it ∈ its ∧ entry_item g e it) es.
Proof.
  intros ((Hok & Hnd) & Hbl & Htake & _ & es & Hov & Hperm).
  exists (merge_sort entry_le es). split_and!; [by eapply allEntries_built| |].
  { rewrite (merge_sort_Permutation entry_le es), Hperm.
    change (ie_k <$> (loc_entry <$> item_locs 8 its)) with (keys_of (loc_entry <$> item_locs 8 its)).
    by rewrite entry_keys. }
  rewrite (merge_sort_Permutation entry_le es), Hperm. apply Forall_fmap, Forall_forall.
  intros [k loc] (its1 & it & its2 & -> & Hk & Hoff & _ & _ & Hsl)%item_locs_inv.
  exists it. split; [set_solver|]. apply Forall_app in Hok as [_ [Hit _]%Forall_cons].
  pose proof (item_ok_size it Hit) as (Hs & Hl & _).
  destruct (body_record (sg_mm g) its1 it its2 Hit Htake) as (_ & Hrec & Hend).
  pose proof Hov as ((_ & _ & _ & Hbody & _) & _).
  set (off := (8 + length (concat (it_rec <$> its1)))%nat) in *.
  assert (al_off loc = Z.of_nat off) as Hoff' by lia.
  unfold rec_size, RecHeaderSize in *. unfold loc_entry. cbn [fst snd ie_k ie_off ie_slen].
  split_and!; [done|done| |]; cbn [ie_k ie_off ie_slen]; rewrite Hoff', Hsl.
  - unfold sg_in_bounds. rewrite Hbody. change (zlen magicHeader) with 8. unfold RecHeaderSize.
    assert (u64 (zlen (body_of (its1 ++ it :: its2)) - Z.of_nat off) = zlen (body_of (its1 ++ it :: its2)) - Z.of_nat off) as ->.
    { apply Z.mod_small. lia. }
    lia.
  - rewrite <- Hrec. unfold RecHeaderSize.
    apply (f_equal length) in Htake. rewrite length_take in Htake.
    apply (slice_drop (sg_mm g) off (Z.to_nat (46 + Slen (it_hdr it)))); lia.
Qed.
End entries.

Section checks.
Context `{Blake3} `{Zstd}.

Lemma verifyObject_safe k data : safe (verifyObject k data).
Proof.
  unfold verifyObject. apply safe_bind.
  - apply safe_relabel. unfold NewFromHash. by case_if.
  - intros want _. by repeat case_if.
Qed.

Lemma verifyRecord_safe c : safe (verifyRecord c).
Proof.
  unfold verifyRecord. assert (safe (checkRecord (ie_k (cr_e c)) (cr_rec c))) as Hs.
  { unfold checkRecord. apply safe_bind; [apply ParseRecord_safe|]. intros r (Hl & _ & _ & _ & _ & Hs & _)%ParseRecord_Ok.
    pose proof (be4_range (cr_rec c) 38). case_if; [done|].
    apply safe_bind; [apply slice_safe; unfold RecHeaderSize in *; lia|]. intros stored _.
    apply safe_bind; [apply DecodePayload_safe|]. intros payload _. apply verifyObject_safe. }
  by destruct (checkRecord _ _).
Qed.
End checks.

(** ** The pipeline *)
Section pipeline.
Context `{Blake3} `{Fuse} `{Zstd} `{ItemInv}.
Context (live : Key → bool) (victims : list sealedSegment).

(** The store without the victims. *)
Definition surv (s : Store) : Store :=
  set_sealed (filter (λ g, is_victim victims (sg_id g) = false) (sealed s)) s.

#[local] Abbreviation vids := (sg_id <$> victims).

Lemma any_has_spec k gs segs : Forall2 seg_rep gs segs →
  any_has k gs = Ok (bool_decide (k ∈ dom (newest_map segs))).
Proof.
  intros Hall.
  rewrite (bool_decide_ext _ (Exists (λ its, k ∈ (it_key <$> its)) segs)).
  2:{ rewrite newest_map_dom, Exists_exists. done. }
  induction Hall as [|g its gs segs Hg _ IH]; cbn [any_has]; [by rewrite bool_decide_false by (by intros ?%Exists_nil)|].
  rewrite (proj1 (seg_reads g its k Hg)). rsimpl.
  rewrite (bool_decide_ext _ (k ∈ (it_key <$> its))) by (by rewrite <- elem_of_dom, item_map_dom).
  destruct (decide (k ∈ (it_key <$> its))) as [Hk|Hk].
  - rewrite (bool_decide_true (k ∈ _)) by done. by rewrite bool_decide_true by (by apply Exists_cons_hd).
  - rewrite (bool_decide_false (k ∈ _)), IH by done. f_equal. apply bool_decide_ext. rewrite Exists_cons. naive_solver.
Qed.

Lemma survivorHas_spec s ms k : represents (surv s) ms →
  survivorHas victims s k = Ok (bool_decide (k ∈ dom ms)).
Proof.
  intros (_ & its & segs & Hact & Hs & ->). unfold survivorHas, active_find.
  pose proof (active_find_spec (active s) its k Hact) as Hf.
  destruct (item_map its !! k) as [it|] eqn:Hit.
  - destruct Hf as (a & off & -> & _ & _ & _ & -> & _). f_equal. symmetry. apply bool_decide_eq_true.
    rewrite dom_union_L, elem_of_union. left. by eapply elem_of_dom_2.
  - replace (match active s with Some a => a_index a !! k | None => None end) with (@None activeLoc)
      by (by destruct (active s)).
    etransitivity; [apply (any_has_spec k _ segs Hs)|]. f_equal. apply bool_decide_ext.
    rewrite dom_union_L, elem_of_union. apply not_elem_of_dom in Hit. naive_solver.
Qed.

(** An append, whatever the state of the write path. *)
Lemma append_cases s m it b : store_rep s m → closed s = false → item_ok it →
  ∃ r s' m', appendLocked (it_key it) (it_rec it) b s = (r, s') ∧ safe r ∧ store_rep s' m' ∧
    closed s' = false ∧ (m' = m ∨ m' = <[it_key it := it]> m) ∧ (r = Ok tt → it_key it ∈ dom m').
Proof.
  intros Hr Hc Hit. destruct (failed s) as [e|] eqn:Hf.
  { exists (Err e), s, m. split_and!; try done; [|by left].
    unfold appendLocked, bindM, getM. rewrite Hc. simpl. by rewrite Hf. }
  pose proof (appendLocked_spec s m it b Hr Hc Hf Hit) as Hpost. unfold wp in Hpost.
  destruct (appendLocked (it_key it) (it_rec it) b s) as [r s'].
  cbn [fst snd] in Hpost. destruct Hpost as (Hs & Hb & _ & m' & Hr' & Hor & Hok). exists r, s', m'.
  split_and!; try done; [unfold base in Hb; congruence|].
  intros [->|[-> Hm]]%Hok; [set_solver|by apply elem_of_dom].
Qed.

Definition cand_ok (D : gset Key) (c : copyRec) : Prop :=
  ∃ it, item_ok it ∧ it_key it = ie_k (cr_e c) ∧ it_rec it = cr_rec c ∧ it_key it ∈ D.

Definition todo_ok (D : gset Key) (ge : sealedSegment * indexEntry) : Prop :=
  ∃ it, entry_item (fst ge) (snd ge) it ∧ it_key it ∈ D.

(** [D] are the keys of the store, [S] those of its survivors, when the copy
    starts. *)
Record pipe_inv (D S : gset Key) (p : pipeline) : Prop := {
  inv_full : ∃ m, store_rep (p_store p) m ∧ dom m = D;
  inv_open : closed (p_store p) = false;
  inv_surv : ∃ ms, store_rep (surv (p_store p)) ms ∧ S ⊆ dom ms ∧ dom ms ⊆ D ∧
    (copy_err p = None → ∀ k, live k = true → k ∈ D →
       k ∈ dom ms ∨ k ∈ (ie_k ∘ snd <$> p_todo p) ∨ k ∈ (ie_k ∘ cr_e <$> p_cands p) ∨
       k ∈ (ie_k ∘ cr_e <$> p_verified p));
  inv_fresh : fresh_for vids (p_store p);
  inv_distinct : ids_ok (p_store p);
  inv_ids : nextID (p_store p) + Z.of_nat (length (p_todo p) + length (p_cands p) + length (p_verified p)) < 2 ^ 64 - 1;
  inv_todo : Forall (todo_ok D) (p_todo p);
  inv_cands : Forall (cand_ok D) (p_cands p);
  inv_verified : Forall (cand_ok D) (p_verified p);
  inv_cancel : p_cancelled p = true → copy_err p ≠ None;
}.

Lemma produce_inv D S stop p : pipe_inv D S p →
  ∃ p', produce live victims stop p = Ok p' ∧ pipe_inv D S p'.
Proof.
  intros [Hfull Hopen (ms & Hrs & HS & HD & Hcov) Hfresh Hdis Hids Htodo Hcands Hver Hcan]. unfold produce.
  destruct (p_todo p) as [|[g e] todo] eqn:Et; [by exists p; split; [|split; rewrite ?Et; eauto]|].
  apply Forall_cons in Htodo as [(it & Hit & HkD) Htodo]. simpl in Hit, HkD.
  destruct Hit as (Hok & Hkey & Hib & Hsl).
  assert ((if negb (live (ie_k e)) then Ok true else survivorHas victims (p_store p) (ie_k e)) =
          Ok (negb (live (ie_k e)) || bool_decide (ie_k e ∈ dom ms))) as ->.
  { destruct (live (ie_k e)); simpl; [|done]. by apply survivorHas_spec, Hrs. }
  rsimpl. destruct (negb (live (ie_k e)) || bool_decide (ie_k e ∈ dom ms)) eqn:Hskip.
  - exists (pipe_todo todo p). split; [done|]. split; try done; [|simpl in *; lia].
    exists ms. split_and!; try done. intros He k Hk Hkd. destruct (Hcov He k Hk Hkd) as [?|[Hin|?]]; [by left| |by eauto].
    apply elem_of_cons in Hin as [->|Hin]; [|by eauto]. left. simpl in Hk. rewrite Hk in Hskip. simpl in Hskip.
    by apply bool_decide_eq_true in Hskip.
  - rewrite Hib. cbn [negb]. rewrite Hsl. rsimpl. destruct (stop && p_cancelled p) eqn:Hst.
    + apply andb_true_iff in Hst as [_ Hc]. exists (pipe_todo [] p). split; [done|].
      split; try done; [|simpl in *; lia].
      exists ms. split_and!; try done. intros He. by destruct (Hcan Hc).
    + eexists. split; [done|]. split; try done; cbn.
      * exists ms. split_and!; try done. intros He k Hk Hkd.
        destruct (Hcov He k Hk Hkd) as [?|[Hin|[?|?]]]; [by left| |set_solver|set_solver].
        apply elem_of_cons in Hin as [->|Hin]; [|by eauto]. right; right; left. set_solver.
      * rewrite length_app. simpl in *. lia.
      * apply Forall_app. split; [done|]. constructor; [|done]. exists it. by split_and!.
Qed.

Lemma verify_inv D S i stop p : pipe_inv D S p →
  ∃ p', verify_one i stop p = Ok p' ∧ pipe_inv D S p'.
Proof.
  intros Hinv. pose proof Hinv as [Hfull Hopen (ms & Hrs & HS & HD & Hcov) Hfresh Hdis Hids Htodo Hcands Hver Hcan].
  unfold verify_one. destruct (p_cands p !! i) as [c|] eqn:Hi; [|by exists p].
  pose proof (delete_Permutation _ _ _ Hi) as Hperm. rewrite Hperm in Hcands. apply Forall_cons in Hcands as [Hc Hcands].
  assert (length (p_cands p) = (1 + length (delete i (p_cands p)))%nat) as Hlen by (by rewrite Hperm at 1).
  assert (∀ e q, pipe_fail e (pipe_cands (delete i (p_cands p)) p) = q → pipe_inv D S q) as Hfail.
  { intros e q <-. split; try done; [|cbn; lia|].
    - exists ms. split_and!; try done. unfold copy_err. cbn. destruct (p_appendErr p), (p_pipeErr p); done.
    - intros _. unfold copy_err. cbn. by destruct (p_appendErr p), (p_pipeErr p). }
  pose proof (verifyRecord_safe c) as Hs. destruct (verifyRecord c) as [[]|e| |]; try by destruct Hs.
  2:{ eexists. split; [done|]. by eapply Hfail. }
  destruct (stop && p_cancelled _) eqn:Hst; eexists; (split; [done|]).
  - apply andb_true_iff in Hst as [_ Hcc]. split; try done; [|cbn; lia].
    exists ms. split_and!; try done. intros He. by destruct (Hcan Hcc).
  - split; try done; cbn.
    + exists ms. split_and!; try done. intros He k Hk Hkd.
      destruct (Hcov He k Hk Hkd) as [?|[?|[Hin|?]]]; [by left|by eauto| |set_solver].
      rewrite Hperm in Hin. apply elem_of_cons in Hin as [->|Hin]; [|by eauto]. right; right; right. set_solver.
    + rewrite length_app. simpl. lia.
    + apply Forall_app. by split; [|constructor].
Qed.

Lemma surv_append s new s' :
  Forall (λ g, sg_id g ∉ vids) new → sealed s' = sealed s ++ new →
  surv s' = set_sealed (sealed (surv s) ++ new) s'.
Proof.
  intros Hnew Hs'. unfold surv. simpl. rewrite Hs', filter_app. do 2 f_equal.
  apply filter_all. rewrite Forall_forall in Hnew. intros g Hg. unfold is_victim.
  by apply bool_decide_eq_false, Hnew.
Qed.

Lemma append_inv D S p : pipe_inv D S p → ∃ p', append_one p = Ok p' ∧ pipe_inv D S p'.
Proof.
  intros Hinv. pose proof Hinv as [(m & Hr & Hdom) Hopen (ms & Hrs & HS & HD & Hcov) Hfresh Hdis Hids Htodo Hcands Hver Hcan].
  unfold append_one. destruct (p_verified p) as [|c rest] eqn:Ev; [by exists p|].
  apply Forall_cons in Hver as [(it & Hit & Hkey & Hrec & HkD) Hver]. cbn [length] in Hids.
  destruct (p_appendErr p) as [e|] eqn:Ee.
  { exists (pipe_verified rest p). split; [done|]. split; try done; [by exists m| |cbn; lia].
    exists ms. split_and!; try done. unfold copy_err. cbn. by rewrite Ee. }
  rewrite <- Hkey, <- Hrec.
  destruct (append_cases (p_store p) m it false Hr Hopen Hit) as (r & s' & m' & Happ & Hsafe & Hr' & Hcl' & Hor & _).
  destruct (append_fresh vids (it_key it) (it_rec it) false (p_store p) Hfresh ltac:(lia))
    as (r2 & s2 & new & Happ2 & Hfresh' & Hn' & Hs' & Hnew & Hl).
  rewrite Happ in Happ2. injection Happ2 as <- <-.
  destruct (append_ids (it_key it) (it_rec it) false (p_store p) Hdis ltac:(lia)) as [Hdis' _].
  rewrite Happ in Hdis'. simpl in Hdis'.
  destruct (append_cases (surv (p_store p)) ms it false Hrs Hopen Hit) as (r3 & s3 & ms' & Happ3 & _ & Hrs' & _ & Hors & Hok).
  unfold surv in Happ3 at 1. rewrite Hl in Happ3. injection Happ3 as <- Hs3.
  assert (surv s' = s3) as Hsurv.
  { rewrite <- Hs3. by apply (surv_append (p_store p)). }
  assert (dom m' = D) as Hdom'.
  { destruct Hor as [->| ->]; [done|]. rewrite dom_insert_L, Hdom. set_solver. }
  assert (S ⊆ dom ms' ∧ dom ms' ⊆ D ∧ dom ms ⊆ dom ms') as (HS' & HD' & Hmono).
  { destruct Hors as [->| ->]; rewrite ?dom_insert_L; set_solver. }
  rewrite Happ. destruct r as [[]|e| |]; try by destruct Hsafe.
  - eexists. split; [done|]. split; cbn; try done; [by exists m'| |lia|].
    + exists ms'. rewrite Hsurv. split_and!; try done. unfold copy_err in *. cbn. rewrite Ee in Hcov. intros He k Hk Hkd.
      destruct (Hcov He k Hk Hkd) as [?|[?|[?|Hin]]]; [left; set_solver|by eauto|by eauto|].
      apply elem_of_cons in Hin as [->|Hin]; [|by eauto]. left. cbn. rewrite <- Hkey. by apply Hok.
    + unfold copy_err in *. cbn. by rewrite Ee in Hcan.
  - eexists. split; [done|]. split; cbn; try done; [by exists m'| |lia].
    exists ms'. rewrite Hsurv. split_and!; try done.
Qed.

Lemma pipe_step_inv D S p a : pipe_inv D S p → ∃ p', pipe_step live victims p a = Ok p' ∧ pipe_inv D S p'.
Proof. intros Hinv. destruct a; [by apply produce_inv|by apply verify_inv|by apply append_inv]. Qed.

Lemma pipe_run_inv D S sched p : pipe_inv D S p →
  ∃ p', foldR (λ a p, pipe_step live victims p a) sched p = Ok p' ∧ pipe_inv D S p'.
Proof.
  revert p. induction sched as [|a sched IH]; intros p Hinv; [by exists p|].
  destruct (pipe_step_inv D S p a Hinv) as (p' & Hp & Hinv'). simpl. rewrite Hp. rsimpl. by apply IH.
Qed.

(** The producer's entries are those of the victims' items. *)
Lemma todo_spec D vs vsegs :
  Forall2 seg_rep vs vsegs → (∀ its k, its ∈ vsegs → k ∈ (it_key <$> its) → k ∈ D) →
  ∃ todo, mapR (λ g, es ← allEntries (sg_fv g); Ok (map (pair g) es)) vs = Ok todo ∧
    Forall (todo_ok D) (concat todo) ∧
    (∀ its k, its ∈ vsegs → k ∈ (it_key <$> its) → k ∈ (ie_k ∘ snd <$> concat todo)) ∧
    length (concat todo) = length (concat vsegs).
Proof.
  induction 1 as [|g its vs vsegs Hg _ IH]; intros HD.
  { exists []. split_and!; [done|constructor| |done]. intros its k Hin. by apply elem_of_nil in Hin. }
  destruct IH as (todo & Hm & Hok & Hcov & Hlen); [set_solver|].
  destruct (seg_entries g its Hg) as (es & Hes & Hkeys & Hits).
  exists (map (pair g) es :: todo). split_and!.
  - simpl. rewrite Hes. rsimpl. by rewrite Hm.
  - cbn [concat]. apply Forall_app. split; [|done]. apply Forall_forall.
    change (map (pair g) es) with (pair g <$> es). intros ge (e & -> & He)%list_elem_of_fmap.
    rewrite Forall_forall in Hits. destruct (Hits e He) as (it & Hin & Hit). exists it. split; [done|].
    apply (HD its); [set_solver|]. by apply list_elem_of_fmap_2.
  - intros its' k [->|Hin]%elem_of_cons Hk; cbn [concat]; rewrite fmap_app, elem_of_app; [left|right; by eapply Hcov].
    rewrite <- Hkeys in Hk. apply list_elem_of_fmap in Hk as (e & -> & He).
    apply list_elem_of_fmap. exists (g, e). split; [done|]. apply list_elem_of_fmap. by exists e.
  - cbn [concat]. rewrite !length_app, Hlen. f_equal.
    apply Permutation_length in Hkeys. rewrite !length_fmap in Hkeys. rewrite <- Hkeys. apply length_map.
Qed.

(** The segments that stay and those that go. *)
Lemma split_victims gs segs :
  Forall2 seg_rep gs segs → ∃ kept gone,
    Forall2 seg_rep (filter (λ g, is_victim victims (sg_id g) = false) gs) kept ∧
    Forall2 seg_rep (filter (λ g, is_victim victims (sg_id g) = true) gs) gone ∧
    (∀ its, its ∈ segs ↔ its ∈ kept ∨ its ∈ gone).
Proof.
  induction 1 as [|g its gs segs Hg _ (kept & gone & Hk & Hgo & Hin)].
  { exists [], []. split_and!; [done|done|set_solver]. }
  rewrite !filter_cons. destruct (is_victim victims (sg_id g)) eqn:E.
  - exists kept, (its :: gone). rewrite decide_False, decide_True by done.
    split_and!; [done|by constructor|]. intros x. rewrite !elem_of_cons, Hin. naive_solver.
  - exists (its :: kept), gone. rewrite decide_True, decide_False by done.
    split_and!; [by constructor|done|]. intros x. rewrite !elem_of_cons, Hin. naive_solver.
Qed.

Lemma count_items gs segs : Forall2 seg_rep gs segs → zlen (concat segs) <= zlen gs * (2 ^ 32 - 1).
Proof.
  induction 1 as [|g its gs segs Hg _ IH]; [done|]. cbn [concat length]. rewrite length_app.
  destruct Hg as (_ & _ & _ & _ & es & (_ & _ & Hlt & _) & Hperm).
  apply Permutation_length in Hperm. rewrite length_fmap, length_item_locs in Hperm. lia.
Qed.

(** The victims are segments of the store, in its order. *)
Definition victims_of (s : Store) : Prop :=
  victims = filter (λ g, is_victim victims (sg_id g) = true) (sealed s).

Lemma pipe_start_inv s m :
  store_rep s m → closed s = false → victims_of s → ids_ok s →
  nextID s < 2 ^ 63 → zlen (sealed s) < 2 ^ 31 →
  ∃ p ms, pipe_start victims s = Ok p ∧ store_rep (surv s) ms ∧ pipe_inv (dom m) (dom ms) p ∧ copy_err p = None ∧ p_store p = s.
Proof.
  intros Hr Hc Hv Hids Hn Hlen. assert (fresh_for vids s) as Hf.
  { apply ids_fresh; [done|]. rewrite Hv. intros v (g & -> & Hg)%list_elem_of_fmap.
    apply list_elem_of_fmap_2. by apply list_elem_of_filter in Hg as [_ ?]. }
  pose proof Hr as [(Hcfg & its & segs & Hact & Hs & Hm) Hroom].
  destruct (split_victims _ _ Hs) as (kept & gone & Hkept & Hgone & Hin). rewrite <- Hv in Hgone.
  set (ms := item_map its ∪ newest_map kept).
  assert (store_rep (surv s) ms) as Hrs by (split; [split; [done|by exists its, kept]|done]).
  assert (∀ k, k ∈ dom m ↔ k ∈ dom ms ∨ ∃ its', its' ∈ gone ∧ k ∈ (it_key <$> its')) as HD.
  { intros k. subst m ms. rewrite !dom_union_L, !elem_of_union, !newest_map_dom. setoid_rewrite Hin. naive_solver. }
  destruct (todo_spec (dom m) victims gone Hgone) as (todo & Htodo & Hok & Hcov & Hlen').
  { intros its' k Hi Hk. apply HD. eauto. }
  eexists _, ms. unfold pipe_start. rewrite Htodo. rsimpl. split_and!; [done|done| |done|done].
  split; cbn; try done; [by exists m| |].
  - exists ms. split_and!; [done|done|intros k Hk; by apply HD; left|].
    intros _ k _ Hk. apply HD in Hk as [Hk|(its' & Hi & Hk)]; [by left|]. right; left. by eapply Hcov.
  - pose proof (count_items _ _ Hgone). assert (length victims ≤ length (sealed s))%nat by (rewrite Hv; apply length_filter).
    lia.
Qed.

Lemma copyLive_inv s m sched :
  store_rep s m → closed s = false → victims_of s → ids_ok s →
  nextID s < 2 ^ 63 → zlen (sealed s) < 2 ^ 31 →
  copyLive live sched victims s = Diverge ∨
  ∃ p S, copyLive live sched victims s = Ok p ∧ pipe_inv (dom m) S p ∧ pipe_done p = true.
Proof.
  intros Hr Hc Hv Hf Hn Hlen. destruct (pipe_start_inv s m Hr Hc Hv Hf Hn Hlen) as (p & ms & Hp & _ & Hinv & _).
  unfold copyLive. rewrite Hp. rsimpl. destruct (pipe_run_inv _ _ sched p Hinv) as (p' & -> & Hinv'). rsimpl.
  destruct (pipe_done p') eqn:Hd; [right|by left]. by exists p', (dom ms).
Qed.

(** A completed copy without an error moved every live key. *)
Lemma pipe_done_live D S p : pipe_inv D S p → pipe_done p = true → copy_err p = None →
  ∃ ms, store_rep (surv (p_store p)) ms ∧ dom ms ⊆ D ∧ ∀ k, live k = true → k ∈ D → k ∈ dom ms.
Proof.
  intros Hinv Hd He. destruct (inv_surv _ _ _ Hinv) as (ms & Hrs & _ & HD & Hcov). exists ms. split_and!; [done|done|].
  unfold pipe_done in Hd. apply andb_true_iff in Hd as [[Ht%bool_decide_eq_true Hver%bool_decide_eq_true]%andb_true_iff Hcand].
  assert (p_cands p = []) as Hcd.
  { apply orb_true_iff in Hcand as [Hcand|Hcand]; apply bool_decide_eq_true in Hcand; [done|].
    unfold copy_err in He. destruct (p_appendErr p); [done|]. by rewrite He in Hcand. }
  intros k Hk HkD. specialize (Hcov He k Hk HkD). rewrite Ht, Hver, Hcd in Hcov. set_solver.
Qed.

(** ** The pipeline ends *)
Definition pipe_work (p : pipeline) : nat :=
  3 * length (p_todo p) + 2 * length (p_cands p) + length (p_verified p).

Lemma produce_work D S p p' : pipe_inv D S p → p_todo p ≠ [] → produce live victims false p = Ok p' →
  (pipe_work p' < pipe_work p)%nat.
Proof.
  intros _ Ht. unfold produce, pipe_work. destruct (p_todo p) as [|[g e] todo]; [done|].
  intros (skip & _ & Hp)%bind_Ok. destruct skip; [apply Ok_inj in Hp as <-; simpl; lia|].
  destruct (negb _); [apply Ok_inj in Hp as <-; simpl; lia|].
  apply bind_Ok in Hp as (rec & _ & Hp). simpl in Hp. apply Ok_inj in Hp as <-. simpl. rewrite length_app. simpl. lia.
Qed.

Lemma verify_work p p' : p_cands p ≠ [] → verify_one 0 false p = Ok p' → (pipe_work p' < pipe_work p)%nat.
Proof.
  intros Hc. unfold verify_one, pipe_work. destruct (p_cands p) as [|c cs]; [done|]. cbn [lookup list_lookup].
  destruct (verifyRecord c) as [[]|e| |]; try done; intros <-%Ok_inj; simpl; rewrite ?length_app; simpl; lia.
Qed.

Lemma append_work p p' : p_verified p ≠ [] → append_one p = Ok p' → (pipe_work p' < pipe_work p)%nat.
Proof.
  intros Hv. unfold append_one, pipe_work. destruct (p_verified p) as [|c rest]; [done|].
  destruct (p_appendErr p); [intros <-%Ok_inj; simpl; lia|].
  destruct (appendLocked _ _ _ _) as [[[]|e| |] s']; try done; intros <-%Ok_inj; simpl; lia.
Qed.

Lemma pipe_completes D S p : pipe_inv D S p →
  ∃ sched p', foldR (λ a p, pipe_step live victims p a) sched p = Ok p' ∧ pipe_done p' = true.
Proof.
  remember (pipe_work p) as n eqn:En. revert p En.
  induction n as [n IH] using lt_wf_ind. intros p -> Hinv.
  assert (∀ a p', pipe_step live victims p a = Ok p' → (pipe_work p' < pipe_work p)%nat →
            ∃ sched p', foldR (λ a p, pipe_step live victims p a) sched p = Ok p' ∧ pipe_done p' = true) as Hgo.
  { intros a p' Hp Hlt. destruct (pipe_step_inv D S p a Hinv) as (p2 & Hp2 & Hinv2).
    rewrite Hp in Hp2. injection Hp2 as <-. destruct (IH _ Hlt p' eq_refl Hinv2) as (sched & q & Hq & Hd).
    exists (a :: sched), q. split; [|done]. simpl. rewrite Hp. exact Hq. }
  destruct (decide (p_todo p = [])) as [Ht|Ht].
  2:{ destruct (produce_inv D S false p Hinv) as (p' & Hp & _). apply (Hgo (Produce false) p' Hp). by eapply produce_work. }
  destruct (decide (p_cands p = [])) as [Hc|Hc].
  2:{ destruct (verify_inv D S 0 false p Hinv) as (p' & Hp & _). apply (Hgo (VerifyOne 0 false) p' Hp). by apply verify_work. }
  destruct (decide (p_verified p = [])) as [Hv|Hv].
  2:{ destruct (append_inv D S p Hinv) as (p' & Hp & _). apply (Hgo AppendOne p' Hp). by apply append_work. }
  exists [], p. split; [done|]. unfold pipe_done. by rewrite Ht, Hc, Hv.
Qed.

(** ** Dropping the victims *)
Lemma first_err_same calls s : Forall (λ c, c = syscall) calls →
  ∃ e s', first_err calls s = (Ok e, s') ∧ same_store s s'.
Proof.
  intros Hc. revert s. induction Hc as [|c calls -> _ IH]; intros s.
  { exists None, s. split; [done|apply same_store_refl]. }
  cbn [first_err]. unfold bindM, tryM, retM.
  assert (∃ r l, syscall s = (r, set_io l s)) as (r & l & ->).
  { unfold syscall. destruct (io s) as [|[]] eqn:E; [|eauto..]. exists (Ok tt), (io s). by rewrite set_io_id. }
  destruct (IH (set_io l s)) as (e & s' & He & [l' ->]). rewrite He. eexists _, _. split; [done|]. by exists l'.
Qed.

Lemma finish_errs_same calls s : Forall (λ c, c = syscall) calls →
  ∃ r s', finish_errs calls s = (r, s') ∧ safe r ∧ same_store s s'.
Proof.
  intros Hc. unfold finish_errs, bindM. destruct (first_err_same calls s Hc) as (e & s' & -> & Hs).
  destruct e; eexists _, _; (split; [done|]); by split.
Qed.

Lemma removeVictims_spec s : ∃ r s', removeVictims victims s = (r, s') ∧ safe r ∧ same_store (surv s) s'.
Proof.
  unfold removeVictims. unfold bindM at 1, modM at 1. unfold bindM at 1, getM at 1.
  apply finish_errs_same. apply Forall_app. split.
  - induction victims as [|g vs IH]; [constructor|]. simpl. by repeat constructor.
  - case_if; repeat constructor.
Qed.
End pipeline.

(** ** A whole pass *)
Section compact.
Context `{Blake3} `{Fuse} `{Zstd} `{ItemInv}.

(** What a pass leaves of a store that held the keys [D]. *)
Definition pass_post (live : Key → bool) (D : gset Key) (s' : Store) : Prop :=
  closed s' = false ∧ ids_ok s' ∧
  ∃ m', store_rep s' m' ∧ dom m' ⊆ D ∧ ∀ k, live k = true → k ∈ D → k ∈ dom m'.

Lemma pass_keeps live s m : store_rep s m → closed s = false → ids_ok s → pass_post live (dom m) s.
Proof. intros Hr Hc Hi. split_and!; [done|apply Hi..|]. by exists m. Qed.

Lemma pass_same live D s s' : same_store s s' → pass_post live D s → pass_post live D s'.
Proof.
  intros [l ->] (Hc & Hi & m & Hr & ?). split_and!; [done|apply Hi..|]. exists m. split; [|done].
  by apply (same_store_rep s); [exists l|].
Qed.

Lemma surv_ids victims s : ids_ok s → ids_ok (surv victims s).
Proof.
  apply ids_ok_sublist; [|done]. unfold all_ids. apply sublist_app; [|done].
  apply fmap_sublist, sublist_filter.
Qed.

(** Selection only looks. *)
Lemma victim_of_spec live opts g its s : seg_rep g its →
  ∃ r s', victim_of live opts g s = (r, s') ∧ safe r ∧ same_store s s'.
Proof.
  intros Hg. assert (∃ info, sg_liveness live g = Ok info) as [info Hinfo].
  { destruct (seg_entries g its Hg) as (es & Hes & _). unfold sg_liveness. rewrite Hes. rsimpl. eauto. }
  unfold victim_of. destruct (o_Horizon opts) as [before|].
  - assert (∃ r l, syscall s = (r, set_io l s) ∧ safe r) as (r & l & Hsys & Hsafe).
    { unfold syscall. destruct (io s) as [|[|e n] l] eqn:E.
      - exists (Ok tt), (io s). by rewrite set_io_id.
      - by exists (Ok tt), l.
      - by exists (Err e), l. }
    unfold bindM. rewrite Hsys. destruct r as [[]|e| |]; try by destruct Hsafe.
    + unfold retM, liftM. cbn [negb]. destruct (before (sg_id g)); simpl; rewrite ?Hinfo;
        eexists _, _; (split; [done|]); (split; [done|by exists l]).
    + eexists _, _. split; [done|]. split; [done|by exists l].
  - unfold bindM, retM, liftM. simpl. rewrite Hinfo. eexists _, _. split; [done|]. split; [done|apply same_store_refl].
Qed.

Lemma select_loop_spec live opts gs segs vs s : Forall2 seg_rep gs segs →
  ∃ l e s', select_loop live opts gs vs s = (Ok (vs ++ l, e), s') ∧ l `sublist_of` gs ∧ same_store s s'.
Proof.
  intros Hall. revert vs s. induction Hall as [|g its gs segs Hg _ IH]; intros vs s.
  { exists [], None, s. rewrite app_nil_r. split_and!; [done|constructor|apply same_store_refl]. }
  cbn [select_loop]. unfold bindM, tryM.
  destruct (victim_of_spec live opts g its s Hg) as (r & s1 & -> & Hsafe & [l1 ->]).
  destruct r as [v|e| |]; try by destruct Hsafe.
  - destruct (IH (if v then vs ++ [g] else vs) (set_io l1 s)) as (l & e & s' & -> & Hsub & [l2 ->]).
    exists (if v then g :: l else l), e. eexists. split_and!; [|destruct v; by constructor|by exists l2].
    destruct v; [|done]. by rewrite <- app_assoc.
  - exists [], (Some e), (set_io l1 s). rewrite app_nil_r. split_and!; [done|apply sublist_nil_l|by exists l1].
Qed.

(** Taking the ids of a sublist back to the segments. *)
Lemma filter_sublist_ids (l gs : list sealedSegment) :
  NoDup (sg_id <$> gs) → l `sublist_of` gs → l = filter (λ g, is_victim l (sg_id g) = true) gs.
Proof.
  intros Hnd Hsub.
  assert (∀ l' : list sealedSegment, (∀ g, g ∈ gs → is_victim l' (sg_id g) = true ↔ g ∈ l) →
            filter (λ g, is_victim l' (sg_id g) = true) gs = l) as Hx.
  2:{ symmetry. apply Hx. intros g Hg. unfold is_victim. rewrite bool_decide_eq_true. split.
      - intros (g' & Heq & Hg')%list_elem_of_fmap.
        assert (g' ∈ gs) as Hin by (by eapply elem_of_sublist).
        apply list_elem_of_lookup in Hg as [i Hi]. apply list_elem_of_lookup in Hin as [j Hj].
        assert (i = j) as ->.
        { apply (NoDup_lookup _ i j (sg_id g) Hnd); rewrite list_lookup_fmap, ?Hi, ?Hj; simpl; congruence. }
        congruence.
      - intros Hin. by apply list_elem_of_fmap_2. }
  induction Hsub as [|g l gs Hsub IH|g l gs Hsub IH]; intros l' Hl'; [done| |];
    rewrite fmap_cons in Hnd; apply NoDup_cons in Hnd as [Hni Hnd].
  - rewrite filter_cons_True by (apply Hl'; set_solver). f_equal. apply IH; [done|].
    intros g' Hg'. rewrite Hl' by set_solver. rewrite elem_of_cons.
    split; [intros [->|?]; [|done]|by right]. destruct Hni. by apply list_elem_of_fmap_2.
  - rewrite filter_cons_False.
    + apply IH; [done|]. intros g' Hg'. by apply Hl'; right.
    + intros Hg%Hl'; [|set_solver]. destruct Hni. apply list_elem_of_fmap_2. by eapply elem_of_sublist.
Qed.

(** The fsync between the copies and the removal. *)
Lemma sync_copies_spec s m : store_rep s m → closed s = false → ids_ok s →
  ∃ r s', (sy <- getM (λ s, cfg_sync (cfg s));;
           act <- getM active;;
           match act with
           | Some _ => if sy : bool then or_fail syscall else retM tt
           | None => retM tt
           end)%store s = (r, s') ∧ safe r ∧ store_rep s' m ∧ closed s' = false ∧ ids_ok s' ∧ sealed s' = sealed s ∧
          active s' = active s ∧ cfg s' = cfg s ∧ (r = Ok tt → failed s' = failed s).
Proof.
  intros Hr Hc Hi. unfold bindM at 1, getM at 1. unfold bindM at 1, getM at 1.
  destruct (active s) as [a|] eqn:Ha.
  2:{ exists (Ok tt), s. by rewrite Ha. }
  destruct (cfg_sync (cfg s)).
  2:{ exists (Ok tt), s. by rewrite Ha. }
  unfold or_fail, tryM, bindM. unfold syscall. destruct (io s) as [|[|e n] l] eqn:E; cbn.
  - exists (Ok tt), s. by rewrite Ha.
  - exists (Ok tt), (set_io l s). by split_and!.
  - destruct (failed s) eqn:Hf; (eexists (Err e), _; split; [reflexivity|]).
    + by split_and!.
    + split_and!; try done. by apply (store_rep_frame s).
Qed.

Lemma compact_victims_spec sched live victims stats s m :
  store_rep s m → closed s = false → ids_ok s → nextID s < 2 ^ 63 → zlen (sealed s) < 2 ^ 31 →
  victims `sublist_of` sealed s →
  let '(_, r, s') := compact_victims sched live victims stats s in
  r ≠ Panic ∧ pass_post live (dom m) s' ∧
  (copyLive live sched victims s ≠ Diverge → r ≠ Diverge).
Proof.
  intros Hr Hc Hi Hn Hlen Hsub.
  assert (victims_of victims s) as Hv.
  { apply filter_sublist_ids; [|done]. destruct Hi as (_ & Hnd & _). by apply NoDup_app in Hnd as [? _]. }
  unfold compact_victims.
  destruct (copyLive_inv live victims s m sched Hr Hc Hv Hi Hn Hlen) as [->|(p & S & -> & Hinv & Hd)].
  { split_and!; [done|by apply pass_keeps|done]. }
  destruct (inv_full _ _ _ _ _ Hinv) as (mf & Hrf & Hdf). pose proof (inv_open _ _ _ _ _ Hinv) as Hcp.
  pose proof (inv_distinct _ _ _ _ _ Hinv) as Hip.
  destruct (copy_err p) as [e|] eqn:He.
  { split_and!; [done| |done]. rewrite <- Hdf. by apply pass_keeps. }
  destruct (sync_copies_spec (p_store p) mf Hrf Hcp Hip)
    as (r & s2 & -> & Hsafe & Hr2 & Hc2 & Hi2 & Hs2 & Ha2 & Hcfg2 & Hf2).
  destruct r as [[]|e| |]; try by destruct Hsafe.
  2:{ split_and!; [done| |done]. rewrite <- Hdf. by apply pass_keeps. }
  destruct (removeVictims_spec victims s2) as (r3 & s3 & -> & Hsafe3 & Hsame).
  split_and!; [apply Hsafe3| |intros _; apply Hsafe3].
  destruct (pipe_done_live live victims _ _ _ Hinv Hd He) as (ms & Hrs & HD & Hlive).
  apply (pass_same _ _ (surv victims s2) _ Hsame). split_and!; [done|by apply surv_ids|].
  exists ms. split_and!; [|done|done]. apply (store_rep_frame (surv victims (p_store p))); try done.
  - unfold surv. simpl. by rewrite Hs2.
  - simpl. by rewrite Hf2.
Qed.

Lemma with_grey_true live g k : with_grey live g k = true ↔ k ∈ default ∅ g ∨ live k = true.
Proof. unfold with_grey. by rewrite orb_true_iff, bool_decide_eq_true. Qed.

(** Sealing keeps the ids apart. *)
Lemma seal_first s m : store_rep s m → closed s = false → ids_ok s →
  ∃ r s', or_fail sealActiveLocked s = (r, s') ∧ safe r ∧ store_rep s' m ∧ closed s' = false ∧ ids_ok s' ∧
          nextID s' = nextID s ∧ (length (sealed s') ≤ S (length (sealed s)))%nat.
Proof.
  intros [Hr Hroom] Hc Hi. pose proof (frame_or_fail _ _ (frame_seal s)) as Hfr.
  assert (wp (or_fail sealActiveLocked) (λ r s', safe r ∧ store_rep s' m ∧ closed s' = false) s) as Hwp.
  { apply wp_or_fail. eapply wp_mono, seal_spec; [|exact Hr].
    intros r s' ([Hr' Hcore] & Hsafe & Hsealed & _). apply core_base in Hcore as [Hb Hf].
    assert (closed s' = false) as Hc' by (unfold base in Hb; congruence).
    destruct r as [[]|e| |]; try by destruct Hsafe.
    - split_and!; [done|split; [done|]|done]. intros _. specialize (Hsealed eq_refl).
      destruct (active s') as [a|] eqn:Ha; [|done]. destruct Hr' as (_ & its & segs & Hact & _). rewrite Ha in Hact.
      by rewrite (empty_size a its).
    - intros s'' Ha'' Hs'' Hb'' Hf''. split_and!; [done| |unfold base in *; congruence].
      split; [by apply (represents_base s')|by intros ?%Hf'']. }
  unfold wp in Hwp. destruct (frame_ids _ _ Hfr Hi) as [Hi' Hn']. destruct Hfr as (new & Hs & _ & _ & _ & _ & Hone).
  destruct (or_fail sealActiveLocked s) as [r s']. cbn [fst snd] in *. destruct Hwp as (Hw1 & Hw2 & Hw3).
  exists r, s'. split; [done|]. split; [done|]. split; [done|]. split; [done|]. split; [done|]. split; [done|].
  rewrite Hs, length_app. destruct Hone as [->|[-> _]]; simpl; lia.
Qed.

Lemma Compact_spec sched live opts s m :
  store_rep s m → closed s = false → ids_ok s → nextID s < 2 ^ 63 → zlen (sealed s) < 2 ^ 31 - 1 →
  let '(_, r, s') := Compact sched live opts s in
  r ≠ Panic ∧ pass_post (with_grey live (grey s)) (dom m) s'.
Proof.
  intros Hr Hc Hi Hn Hlen. unfold Compact. cbn [closed failed set_grey]. rewrite Hc.
  set (s0 := set_grey false None s).
  assert (store_rep s0 m) as Hr0 by (by apply (store_rep_frame s)).
  assert (ids_ok s0) as Hi0 by done.
  set (lv := with_grey live (grey s)).
  destruct (failed s) as [e|] eqn:Hf; [split; [done|by apply pass_keeps]|].
  destruct (seal_first s0 m Hr0 Hc Hi0) as (r & s1 & -> & Hsafe & Hr1 & Hc1 & Hi1 & Hn1 & Hlen1).
  destruct r as [[]|e| |]; try by destruct Hsafe.
  2:{ split; [done|by apply pass_keeps]. }
  pose proof Hr1 as [(_ & its & segs & _ & Hsegs & _) _].
  destruct (select_loop_spec lv opts (sealed s1) segs [] s1 Hsegs) as (l & e & s2 & Hsel & Hsub & [l2 ->]).
  unfold selectVictims, bindM at 1, getM at 1. rewrite Hsel. cbn [app].
  assert (pass_post lv (dom m) (set_io l2 s1)) as Hpass.
  { apply (pass_same _ _ s1); [by exists l2|by apply pass_keeps]. }
  destruct e as [e|]; [by split|]. destruct l as [|g l]; [by split|].
  pose proof (compact_victims_spec sched lv (g :: l) (mkCompactStats (zlen (sealed s1)) 0 (sg_id <$> g :: l) 0 0 0)
                (set_io l2 s1) m) as Hcv.
  destruct (compact_victims sched lv (g :: l) _ (set_io l2 s1)) as [[stats r] s'].
  destruct Hcv as (? & ? & _); try done; [simpl; rewrite Hn1; done|simpl in *; lia].
Qed.
(** Every stored object has the property of the items. *)
Lemma represents_item s m k it : represents s m → m !! k = Some it → item_ok it ∧ it_key it = k.
Proof.
  intros (_ & its & segs & Hact & Hs & ->) Hk. rewrite lookup_union in Hk.
  assert (∀ its, items_wf its → item_map its !! k = Some it → item_ok it ∧ it_key it = k) as Hitems.
  { intros l [Hok Hnd] Hl. apply item_map_lookup in Hl as [Hin Hkey]; [|done]. rewrite Forall_forall in Hok. auto. }
  destruct (item_map its !! k) as [it'|] eqn:Hit.
  - rewrite union_Some_l in Hk. injection Hk as ->. apply (Hitems its); [|done].
    destruct (active s) as [a|]; [apply Hact|]. cbn [active_rep] in Hact. subst its. by split; constructor.
  - rewrite (left_id_L None _) in Hk. unfold newest_map in Hk.
    assert (Forall items_wf (rev segs)) as Hwf.
    { apply Forall_rev. clear -Hs. induction Hs as [|g its gs segs Hg _ IH]; constructor; [apply Hg|done]. }
    induction Hwf as [|its' l Hits _ IH]; [done|]. simpl in Hk. rewrite lookup_union in Hk.
    destruct (item_map its' !! k) as [it'|] eqn:Hl; [|by rewrite (left_id_L None _) in Hk; apply IH].
    rewrite union_Some_l in Hk. injection Hk as ->. by apply (Hitems its').
Qed.

Lemma contents_inv s c k d : contents s c → c !! k = Some d → item_inv k d.
Proof.
  intros (m & [Hr _] & ->). rewrite lookup_fmap. destruct (m !! k) as [it|] eqn:Hk; [|done]. intros [= <-].
  destruct (represents_item s m k it Hr Hk) as [(Hi & _) <-]. done.
Qed.

(** A pass in terms of the payloads. *)
Lemma Compact_contents sched live opts s c :
  contents s c → closed s = false → ids_ok s → nextID s < 2 ^ 63 → zlen (sealed s) < 2 ^ 31 - 1 →
  (∀ k d d', item_inv k d → item_inv k d' → d = d') →
  let '(_, r, s') := Compact sched live opts s in
  r ≠ Panic ∧ closed s' = false ∧ ids_ok s' ∧
  ∃ c', contents s' c' ∧ c' ⊆ c ∧
        ∀ k d, c !! k = Some d → live k = true ∨ k ∈ default ∅ (grey s) → c' !! k = Some d.
Proof.
  intros Hcs Hc Hi Hn Hlen Hfun. pose proof Hcs as (m & Hr & Heq).
  pose proof (Compact_spec sched live opts s m Hr Hc Hi Hn Hlen) as Hspec.
  destruct (Compact sched live opts s) as [[stats r] s']. destruct Hspec as (Hp & Hc' & Hi' & m' & Hr' & HD & Hlive).
  split; [done|]. split; [done|]. split; [done|].
  assert (contents s' (it_data <$> m')) as Hcs' by (by exists m').
  assert (dom c = dom m) as Hdom by (subst c; apply dom_fmap_L).
  exists (it_data <$> m'). split_and!; [done| |].
  - apply map_subseteq_spec. intros k d Hk.
    assert (k ∈ dom c) as [d' Hd']%elem_of_dom.
    { rewrite Hdom. apply HD. rewrite <- (dom_fmap_L it_data). by eapply elem_of_dom_2. }
    rewrite Hd'. f_equal. exact (Hfun k _ _ (contents_inv _ _ _ _ Hcs Hd') (contents_inv _ _ _ _ Hcs' Hk)).
  - intros k d Hk Hkeep.
    assert (k ∈ dom m') as Hin.
    { apply Hlive; [apply with_grey_true; tauto|]. rewrite <- Hdom. by eapply elem_of_dom_2. }
    rewrite <- (dom_fmap_L it_data) in Hin. apply elem_of_dom in Hin as [d' Hd']. rewrite Hd'. f_equal.
    exact (Hfun k _ _ (contents_inv _ _ _ _ Hcs' Hd') (contents_inv _ _ _ _ Hcs Hk)).
Qed.
End compact.
