(* ===== verification/PackstoreSpec.v ===== *)
(** * What the object store promises

    The statements about [packstore] that its clients rely on, over the abstract
    contents of a store, with applications to concrete stores. *)

From Stdlib Require Import Init.Byte.
From S2P Require Import Prelude Machine Key FsEncode Instances FsTree FsRead FsWalk PackRecord Footer FooterFacts Packstore PackstoreRep PackstoreFacts PackstoreRecovery PackstoreQuery Compact MarkSetFacts CompactFacts.
From Stdlib Require Import ZifyBool ZifyNat.
Local Open Scope Z_scope.

Section spec.
Context `{Fuse} `{Zstd} `{ItemInv}.

(** C32. A read returns the stored payload: on an open store that holds [c], [Get]
    of a key of [c] gives its payload (or the error of a failed system call),
    [Get] of any other key gives [ErrObjectNotFound], and the store still holds
    [c]. *)
Theorem Get_refines s c k :
  contents s c → closed s = false →
  let '(r, s') := Get k s in
  contents s' c ∧
  match c !! k with
  | Some d => r = Ok d ∨ (∃ e, r = Err e) ∧ ¬ quiet s
  | None => r = Err (errors_New ErrObjectNotFound)
  end.
Proof.
  intros (m & Hr & ->) Hc. pose proof (Get_spec s m k (proj1 Hr) Hc) as Hg. unfold wp in Hg.
  destruct (Get k s) as [r s']. destruct Hg as [Hs Ha]. rewrite lookup_fmap. split; [|done].
  exists m. split; [by eapply same_store_rep|done].
Qed.

(** C6. A write stores the object and loses nothing: whatever system calls fail,
    after [Put k data] the store holds what it held, and [data] under [k] if the
    call succeeded and [k] was absent; when no call fails and the filter library
    can build its filters, it does succeed, and it never panics. *)
Theorem Put_refines s c k data :
  contents s c → closed s = false → failed s = None → Validate k = Ok tt → item_inv k data →
  let '(r, s') := Put k data s in
  safe r ∧ closed s' = false ∧
  (healthy s → zlen data <= MaxPayload → r = Ok tt ∧ quiet s' ∧ failed s' = None) ∧
  ∃ c', contents s' c' ∧ (c' = c ∨ c' = put_absent c k data) ∧ (r = Ok tt → c' = put_absent c k data).
Proof.
  intros Hcs Hc Hf Hv Hi. pose proof (Put_spec s c k data Hcs Hc Hf Hv Hi) as Hp. unfold wp in Hp.
  destruct (observed_same k s) as (_ & _ & _ & Hf' & Hc' & Hio).
  destruct (Put k data s) as [r s']. destruct Hp as (Hs & Hb & Hh & Hex). split_and!; [apply Hs..| | |done].
  - unfold base in Hb. simpl in Hb. congruence.
  - intros Hhe. apply Hh; [|congruence]. unfold healthy, quiet. by rewrite Hio.
Qed.

(** A batch stores a prefix of what its iterator yields: every outcome of
    [WriteBatch] leaves the old objects and, in order, an initial part of the
    new ones; success means all of them, and without failures it succeeds. *)
Theorem WriteBatch_refines s c seq :
  contents s c → closed s = false → failed s = None → Forall yields_valid seq →
  let '(r, s') := WriteBatch seq s in
  safe r ∧ closed s' = false ∧
  (healthy s → Forall (λ x, match x with inl o => zlen (obj_bytes o) <= MaxPayload | inr _ => False end) seq →
   r = Ok tt) ∧
  ∃ objs, contents s' (foldl put_object c objs) ∧ (inl <$> objs) `prefix_of` seq ∧
          (r = Ok tt → inl <$> objs = seq).
Proof.
  intros Hcs Hc Hf Hv. pose proof (batch_loop_spec seq s c ∅ false Hcs Hc Hv ltac:(unfold seen_in; set_solver)) as Hb.
  unfold wp in Hb. unfold WriteBatch. destruct (batch_loop seq ∅ false s) as [r s'].
  destruct Hb as (Hs & Hcl & Hh & Hex). split_and!; [apply Hs..|done| |done]. intros Hhe. by apply Hh.
Qed.

(** The directory a store leaves when the process dies while a record is being
    appended: the sealed files and the active one, its records followed by a
    part [t] of the torn record. *)
Definition disk_image (s : Store) (t : bytes) : list (bytes * bytes) :=
  (seg_file <$> sealed s) ++
  match active s with
  | Some a => [(segmentName (a_id a) activeSuffix, take (Z.to_nat (a_size a)) (a_file a) ++ t)]
  | None => []
  end.

(** C24. A crash loses no stored object and invents none: opening the directory
    gives an open store, fit for writing, with exactly the contents the store
    had, however much of the torn record reached the disk. *)
Theorem crash_restart s c t :
  contents s c → failed s = None → torn t → StronglySorted id_lt (sealed s) → Forall is_u64 (all_ids s) →
  ∃ s', Open (cfg s) (disk_image s t) [] = (Ok tt, s') ∧ contents s' c ∧ closed s' = false ∧ failed s' = None.
Proof.
  intros (m & [(Hcfg & its & segs & Hact & Hs & ->) Hroom] & ->) Hf Ht Hsort Hids.
  apply Forall_app in Hids as [Hids Haid]. rewrite Forall_fmap in Hids.
  assert (active_image (sealed s) its
            (match active s with
             | Some a => [(segmentName (a_id a) activeSuffix, take (Z.to_nat (a_size a)) (a_file a) ++ t)]
             | None => []
             end)) as Him.
  { specialize (Hroom Hf). unfold act_id in Haid. destruct (active s) as [a|]; cbn [active_rep] in Hact; [|subst its; constructor].
    destruct Hact as (Hwf & Hsz & Hlt & Hbody & _). rewrite Hsz, Nat2Z.id, Hbody.
    apply image_torn; [|done|by rewrite <- Hsz|done]. by apply Forall_cons in Haid as [? _]. }
  destruct (Open_spec (cfg s) (sealed s) segs its _ Hcfg Hsort Hids Hs Him) as (s' & Ho & Hrep & Hc' & Hf' & _).
  exists s'. split_and!; [done|by eexists|done|done].
Qed.

(** The scan finds the whole records: of an active file cut anywhere after its
    header, recovery keeps exactly the records that are complete, in the longest
    such prefix, and truncates the file behind them. *)
Theorem scanActive_cut its n :
  items_wf its → (8 ≤ n)%nat →
  ∃ its1, its1 `prefix_of` its ∧
    scanActive (take n (body_of its)) =
      Ok (mkScan (zlen (body_of its1)) (list_to_map (item_locs 8 its1)) false) ∧
    ∀ it, (its1 ++ [it]) `prefix_of` its → Z.of_nat n < zlen (body_of (its1 ++ [it])).
Proof.
  intros [Hok Hnd] Hn. destruct (cut_records its (n - 8) Hok) as (its1 & t & Hpre & Ht & Hcut & Hmax).
  exists its1. split; [done|].
  assert (items_wf its1) as Hwf1.
  { destruct Hpre as [its2 ->]. apply Forall_app in Hok as [? _]. split; [done|].
    rewrite fmap_app in Hnd. by apply NoDup_app in Hnd as [? _]. }
  assert (take n (body_of its) = body_of its1 ++ t) as ->.
  { unfold body_of. rewrite take_app_ge by done. change (length magicHeader) with 8%nat. by rewrite Hcut, app_assoc. }
  split; [by apply scan_torn|]. intros it Hit. specialize (Hmax it Hit).
  rewrite body_of_snoc. unfold body_of. rewrite !length_app. change (length magicHeader) with 8%nat. lia.
Qed.

(** A mark set over a store is a set of the store's keys: after marking [ks],
    [Contains] holds exactly of the keys of [ks] that the store holds, and
    [Marked] counts them. *)
Theorem MarkSet_is_set s c ks :
  contents s c →
  ∃ ms, foldR (λ k ms, '(_, _, ms) ← Mark ms k; Ok ms) ks (NewMarkSet s) = Ok ms ∧
    (∀ k, ms_Contains ms k = Ok (bool_decide (k ∈ ks ∧ k ∈ dom c))) ∧
    Marked ms = Z.of_nat (size (list_to_set ks ∩ dom c : gset Key)).
Proof.
  intros (m & [Hr _] & ->). rewrite dom_fmap_L.
  assert (∀ marked ms, ms_set ms (dom m) marked →
    ∃ ms', foldR (λ k ms, '(_, _, ms) ← Mark ms k; Ok ms) ks ms = Ok ms' ∧
           ms_set ms' (dom m) (marked ∪ (list_to_set ks ∩ dom m))) as Hfold.
  { induction ks as [|k ks IH]; intros marked ms Hms.
    { exists ms. split; [done|]. by replace (marked ∪ _) with marked by set_solver. }
    destruct (Mark_set ms (dom m) marked k Hms) as (ms1 & HM & Hms1). simpl. rewrite HM. rsimpl.
    destruct (IH _ ms1 Hms1) as (ms' & Hf & Hms'). exists ms'. split; [done|].
    case_bool_decide; (eapply (eq_rect _ _ Hms'); set_solver). }
  destruct (Hfold ∅ (NewMarkSet s) (NewMarkSet_set s m Hr)) as (ms & Hf & Hms). rewrite (left_id_L ∅ _) in Hms.
  exists ms. split_and!; [done| |by rewrite (Marked_set _ _ _ Hms)].
  intros k. rewrite (ms_Contains_set _ _ _ k Hms). f_equal. apply bool_decide_ext. set_solver.
Qed.

(** C3. Compaction loses no live object, whatever the interleaving of its workers
    and whatever system call fails: after [Compact] the store holds a part of
    what it held, with the same payloads, and every key that is live or that the
    write barrier captured is still there; it never panics. *)
Theorem Compact_keeps_live `{Blake3} sched live opts s c :
  contents s c → closed s = false → ids_ok s → nextID s < 2 ^ 63 → zlen (sealed s) < 2 ^ 31 - 1 →
  (∀ k d d', item_inv k d → item_inv k d' → d = d') →
  let '(_, r, s') := Compact sched live opts s in
  r ≠ Panic ∧ closed s' = false ∧ ids_ok s' ∧
  ∃ c', contents s' c' ∧ c' ⊆ c ∧
        ∀ k d, c !! k = Some d → live k = true ∨ k ∈ default ∅ (grey s) → c' !! k = Some d.
Proof. intros. by apply Compact_contents. Qed.

(** The copying pipeline cannot get stuck: whatever its goroutines have done so
    far, there is a continuation that completes the copy. *)
Theorem copy_completes `{Blake3} live victims s c sched0 :
  contents s c → closed s = false → ids_ok s → nextID s < 2 ^ 63 → zlen (sealed s) < 2 ^ 31 →
  victims `sublist_of` sealed s →
  ∃ sched p, copyLive live (sched0 ++ sched) victims s = Ok p.
Proof.
  intros (m & Hr & _) Hc Hi Hn Hlen Hsub.
  assert (victims_of victims s) as Hv.
  { apply filter_sublist_ids; [|done]. destruct Hi as (_ & Hnd & _). by apply NoDup_app in Hnd as [? _]. }
  destruct (pipe_start_inv live victims s m Hr Hc Hv Hi Hn Hlen) as (p & ms & Hp & _ & Hinv & _).
  destruct (pipe_run_inv live victims _ _ sched0 p Hinv) as (p0 & Hrun0 & Hinv0).
  destruct (pipe_completes live victims _ _ p0 Hinv0) as (sched & p' & Hrun & Hd).
  exists sched, p'. unfold copyLive. rewrite Hp. rsimpl. rewrite foldR_app, Hrun0. rsimpl. rewrite Hrun. rsimpl. by rewrite Hd.
Qed.
End spec.

(** ** Applications to concrete stores *)
Section examples.
#[local] Existing Instance fuse_example.
#[local] Existing Instance zstd_example.
#[local] Existing Instance blake3_example.

Definition payload_example : bytes := replicate 20 x41.
(** Every object of the example stores has the same payload. *)
#[local] Instance inv_example : ItemInv := λ _ d, d = payload_example.
Definition cfg_example : config := mkConfig 4096 true.
Definition empty_example : Store := newStore cfg_example [].

Lemma empty_contents : contents empty_example ∅.
Proof.
  exists ∅. split; [|done]. split; [|done]. split; [done|]. exists [], []. by split_and!.
Qed.

(** The store after one write. *)
Definition one_example : Store := snd (Put key_example payload_example empty_example).

Lemma Put_refines_witness :
  let '(r, s') := Put key_example payload_example empty_example in
  safe r ∧ closed s' = false ∧
  (healthy empty_example → zlen payload_example <= MaxPayload → r = Ok tt ∧ quiet s' ∧ failed s' = None) ∧
  ∃ c', contents s' c' ∧ (c' = ∅ ∨ c' = put_absent ∅ key_example payload_example) ∧
        (r = Ok tt → c' = put_absent ∅ key_example payload_example).
Proof.
  apply (Put_refines empty_example ∅ key_example payload_example);
    [apply empty_contents|reflexivity|reflexivity|vm_compute; reflexivity|reflexivity].
Defined.

Lemma one_contents : contents one_example {[key_example := payload_example]}.
Proof.
  pose proof (Put_spec empty_example ∅ key_example payload_example empty_contents eq_refl eq_refl
                ltac:(vm_compute; reflexivity) eq_refl) as Hp.
  unfold wp in Hp. destruct Hp as (_ & _ & _ & c' & Hc & _ & Hok).
  rewrite Hok in Hc by (vm_compute; reflexivity). exact Hc.
Qed.

Lemma one_ids : all_ids one_example = [1].
Proof. vm_compute. reflexivity. Qed.
Lemma one_sealed : sealed one_example = [].
Proof. vm_compute. reflexivity. Qed.
Lemma one_next : nextID one_example = 2.
Proof. vm_compute. reflexivity. Qed.

Lemma Get_refines_witness :
  let '(r, s') := Get key_example one_example in
  contents s' {[key_example := payload_example]} ∧
  match ({[key_example := payload_example]} : gmap Key bytes) !! key_example with
  | Some d => r = Ok d ∨ (∃ e, r = Err e) ∧ ¬ quiet one_example
  | None => r = Err (errors_New ErrObjectNotFound)
  end.
Proof. apply (Get_refines one_example _ key_example one_contents). vm_compute. reflexivity. Defined.

Definition batch_example : list (Object + error) := [inl (mkObject key_example payload_example)].

Lemma WriteBatch_refines_witness :
  let '(r, s') := WriteBatch batch_example empty_example in
  safe r ∧ closed s' = false ∧
  (healthy empty_example →
   Forall (λ x, match x with inl o => zlen (obj_bytes o) <= MaxPayload | inr _ => False end) batch_example →
   r = Ok tt) ∧
  ∃ objs, contents s' (foldl put_object ∅ objs) ∧ (inl <$> objs) `prefix_of` batch_example ∧
          (r = Ok tt → inl <$> objs = batch_example).
Proof.
  apply (WriteBatch_refines empty_example ∅ batch_example empty_contents); [reflexivity|reflexivity|].
  constructor; [|constructor]. split; [vm_compute; reflexivity|reflexivity].
Defined.

Lemma one_item : ∃ it, it_key it = key_example ∧ it_rec it = rec_example ∧ it_data it = payload_example ∧ item_ok it.
Proof. apply encoded_item; [vm_compute; reflexivity|reflexivity|vm_compute; reflexivity]. Qed.

Lemma torn_example : torn (take 50 rec_example).
Proof.
  destruct one_item as (it & _ & Hr & _ & Hit). right. exists it, 50%nat. rewrite Hr. split_and!; [done|vm_compute; lia|done].
Qed.

Lemma crash_restart_witness :
  ∃ s', Open (cfg one_example) (disk_image one_example (take 50 rec_example)) [] = (Ok tt, s') ∧
        contents s' {[key_example := payload_example]} ∧ closed s' = false ∧ failed s' = None.
Proof.
  apply (crash_restart one_example _ (take 50 rec_example) one_contents);
    [vm_compute; reflexivity|apply torn_example|rewrite one_sealed; constructor|].
  rewrite one_ids. by repeat constructor.
Defined.

Lemma scanActive_cut_witness : ∃ it, items_wf [it] ∧
  ∃ its1, its1 `prefix_of` [it] ∧
    scanActive (take 40 (body_of [it])) =
      Ok (mkScan (zlen (body_of its1)) (list_to_map (item_locs 8 its1)) false) ∧
    ∀ it', (its1 ++ [it']) `prefix_of` [it] → Z.of_nat 40 < zlen (body_of (its1 ++ [it'])).
Proof.
  destruct one_item as (it & _ & _ & _ & Hit). exists it.
  assert (items_wf [it]) as Hwf by (split; [by constructor; [|constructor]|apply NoDup_singleton]).
  split; [exact Hwf|]. apply (scanActive_cut [it] 40 Hwf). lia.
Defined.

Lemma MarkSet_is_set_witness :
  ∃ ms, foldR (λ k ms, '(_, _, ms) ← Mark ms k; Ok ms) [key_example; key_example] (NewMarkSet one_example) = Ok ms ∧
    (∀ k, ms_Contains ms k =
          Ok (bool_decide (k ∈ [key_example; key_example] ∧ k ∈ dom ({[key_example := payload_example]} : gmap Key bytes)))) ∧
    Marked ms = Z.of_nat (size (list_to_set [key_example; key_example] ∩
                                dom ({[key_example := payload_example]} : gmap Key bytes) : gset Key)).
Proof. apply (MarkSet_is_set one_example _ [key_example; key_example] one_contents). Defined.

Lemma ids_one : ids_ok one_example.
Proof.
  unfold ids_ok. rewrite one_ids, one_next. split_and!; [done|apply NoDup_singleton|by repeat constructor].
Qed.

Definition opts_example : CompactOpts := mkCompactOpts (λ _ _, true) None.

Lemma Compact_keeps_live_witness :
  let '(_, r, s') := Compact [] (λ _, true) opts_example one_example in
  r ≠ Panic ∧ closed s' = false ∧ ids_ok s' ∧
  ∃ c', contents s' c' ∧ c' ⊆ {[key_example := payload_example]} ∧
        ∀ k d, ({[key_example := payload_example]} : gmap Key bytes) !! k = Some d →
               true = true ∨ k ∈ default ∅ (grey one_example) → c' !! k = Some d.
Proof.
  apply (Compact_keeps_live [] (λ _, true) opts_example one_example _ one_contents);
    [vm_compute; reflexivity|apply ids_one|by rewrite one_next|by rewrite one_sealed|].
  intros k d d' -> ->. reflexivity.
Defined.

Lemma copy_completes_witness :
  ∃ sched p, copyLive (λ _, true) ([Produce false] ++ sched) [] one_example = Ok p.
Proof.
  apply (copy_completes (λ _, true) [] one_example _ [Produce false] one_contents);
    [vm_compute; reflexivity|apply ids_one|by rewrite one_next|by rewrite one_sealed|apply sublist_nil_l].
Defined.

Lemma Missing_exact_witness :
  Missing (λ _, []) 4 [key_example; to_key []] one_example =
  (Ok (filter (λ k, ({[key_example := payload_example]} : gmap Key bytes) !! k = None) [key_example; to_key []]), one_example).
Proof. apply (Missing_exact (λ _, []) 4 _ one_example _ one_contents); [vm_compute; reflexivity|lia]. Defined.
End examples.
