(* ===== verification/Parallel.v ===== *)
(** * Package [packstore]: the parallel writer ([parallel.go])

    [WriteParallel] runs a distributor, which sends what the iterator yields into
    a channel, and several writers, which receive from it and append.  An
    execution is a list of events, each of which is one step of one goroutine
    between two synchronisations; an event whose goroutine is blocked has the
    outcome [Diverge].  The event [Other] is a write by someone else, who shares
    the store. *)

From Stdlib Require Import Init.Byte.
From S2P Require Import Prelude Machine Key FsEncode Instances FsTree FsRead FsWalk PackRecord Footer FooterFacts Packstore PackstoreRep PackstoreFacts CompactFacts PackstoreSpec.
From Stdlib Require Import ZifyBool ZifyNat.
Local Open Scope Z_scope.

Definition DefaultBatchSize : Z := 16 * 2 ^ 20.

Record WriteStats := mkStats { Stored : Z; Deduped : Z; BytesStored : Z }.
Record WriteOpts := mkWriteOpts { Writers : Z; BatchSize : Z; wo_Verify : bool }.

(** ** The sharded set of seen keys *)
Abbreviation seenSet := (list (gset Key)).
Definition newSeenSet : seenSet := replicate 256 ∅.
Definition shard_of (k : Key) : nat := N.to_nat (Byte.to_N (default x00 (last (kb k)))).

Definition addIfAbsent (k : Key) (s : seenSet) : result (bool * seenSet) :=
  sh ← index s (Z.of_nat (shard_of k));
  if bool_decide (k ∈ sh) then Ok (false, s) else Ok (true, <[shard_of k := {[k]} ∪ sh]> s).

(** ** Goroutines *)

(** Where a writer is, with the object it works on. *)
Inductive wpc :=
| Recv                             (* at the select *)
| Got (o : Object)                 (* about to tell the barrier *)
| Observed (o : Object)            (* about to look at the seen keys *)
| Fresh (o : Object)               (* about to look into the store *)
| Absent (o : Object)              (* about to verify and encode *)
| Encoded (o : Object) (rec : bytes) (* about to append *)
| Flushing                         (* about to fsync *)
| Exited.

Record worker := mkWorker { w_pc : wpc; w_pending : Z }.

Record prun := mkRun {
  r_store : Store;
  r_rest : list (Object + error);  (* what the iterator will yield *)
  r_producing : bool;              (* the channel is open *)
  r_ch : list Object;
  r_err : option error;            (* the errgroup's first error; then the context is cancelled *)
  r_seen : seenSet;
  r_workers : list worker;
  r_stats : WriteStats;
}.

Inductive event :=
| Distribute (stop : bool)         (* [stop]: the select sees the cancelled context *)
| Work (i : nat) (stop : bool)
| Other (o : Object).

Definition run_store (s : Store) (r : prun) : prun :=
  mkRun s (r_rest r) (r_producing r) (r_ch r) (r_err r) (r_seen r) (r_workers r) (r_stats r).
Definition run_seen (x : seenSet) (r : prun) : prun :=
  mkRun (r_store r) (r_rest r) (r_producing r) (r_ch r) (r_err r) x (r_workers r) (r_stats r).
Definition run_ch (l : list Object) (r : prun) : prun :=
  mkRun (r_store r) (r_rest r) (r_producing r) l (r_err r) (r_seen r) (r_workers r) (r_stats r).
Definition run_stats (x : WriteStats) (r : prun) : prun :=
  mkRun (r_store r) (r_rest r) (r_producing r) (r_ch r) (r_err r) (r_seen r) (r_workers r) x.
Definition run_fail (e : error) (r : prun) : prun :=
  mkRun (r_store r) (r_rest r) (r_producing r) (r_ch r)
    (match r_err r with Some e0 => Some e0 | None => Some e end) (r_seen r) (r_workers r) (r_stats r).
Definition run_close (r : prun) : prun :=
  mkRun (r_store r) (r_rest r) false (r_ch r) (r_err r) (r_seen r) (r_workers r) (r_stats r).
Definition run_worker (i : nat) (pc : wpc) (pending : Z) (r : prun) : prun :=
  mkRun (r_store r) (r_rest r) (r_producing r) (r_ch r) (r_err r) (r_seen r)
    (<[i := mkWorker pc pending]> (r_workers r)) (r_stats r).

Definition cancelled (r : prun) : bool := match r_err r with Some _ => true | None => false end.

Definition add_deduped (x : WriteStats) : WriteStats := mkStats (Stored x) (Deduped x + 1) (BytesStored x).
Definition add_stored (n : Z) (x : WriteStats) : WriteStats := mkStats (Stored x + 1) (Deduped x) (BytesStored x + n).

(** The distributor; [cap] is the capacity of the channel. *)
Definition distribute (cap : nat) (stop : bool) (r : prun) : result prun :=
  if negb (r_producing r) then Diverge else
  match r_rest r with
  | [] => Ok (run_close r)
  | inr e :: _ => Ok (run_close (run_fail e r))
  | inl o :: rest =>
      if stop then (if cancelled r then Ok (run_close r) else Diverge) else
      if (length (r_ch r) <? cap)%nat
      then Ok (mkRun (r_store r) rest true (r_ch r ++ [o]) (r_err r) (r_seen r) (r_workers r) (r_stats r))
      else Diverge
  end.

Section parallel.
Context `{Blake3} `{Fuse} `{Zstd}.

(** What follows a call that returned [x]: an error ends the writer. *)
Definition or_exit {A} (i : nat) (r : prun) (x : result A) (k : A → result prun) : result prun :=
  match x with
  | Ok a => k a
  | Err e => Ok (run_fail e (run_worker i Exited 0 r))
  | Panic => Panic
  | Diverge => Diverge
  end.

(** [verifyObject], if asked for, and [EncodeRecord]. *)
Definition encode_object (verify : bool) (o : Object) : result bytes :=
  _ ← (if verify then verifyObject (obj_key o) (obj_bytes o) else Ok tt);
  EncodeRecord (obj_key o) (obj_bytes o).

(** One step of writer [i], [runWriter]. *)
Definition work (batchSize : Z) (verify : bool) (i : nat) (stop : bool) (r : prun) : result prun :=
  match r_workers r !! i with
  | None => Diverge
  | Some (mkWorker pc pending) =>
      match pc with
      | Exited => Diverge
      | Recv =>
          if stop then (if cancelled r then Ok (run_worker i Exited pending r) else Diverge) else
          match r_ch r with
          | o :: ch => Ok (run_ch ch (run_worker i (Got o) pending r))
          | [] => if r_producing r then Diverge else Ok (run_worker i Exited pending r)
          end
      | Got o => Ok (run_store (snd (observe (obj_key o) (r_store r))) (run_worker i (Observed o) pending r))
      | Observed o =>
          '(added, seen) ← addIfAbsent (obj_key o) (r_seen r);
          if added : bool then Ok (run_seen seen (run_worker i (Fresh o) pending r))
          else Ok (run_stats (add_deduped (r_stats r)) (run_worker i Recv pending r))
      | Fresh o =>
          or_exit i r (fst (Has (obj_key o) (r_store r))) (λ has,
            if has : bool then Ok (run_stats (add_deduped (r_stats r)) (run_worker i Recv pending r))
            else Ok (run_worker i (Absent o) pending r))
      | Absent o => or_exit i r (encode_object verify o) (λ rec, Ok (run_worker i (Encoded o rec) pending r))
      | Encoded o rec =>
          let '(x, s) := appendLocked (obj_key o) rec false (r_store r) in
          let r := run_store s r in
          or_exit i r x (λ _,
            let r := run_stats (add_stored (zlen (obj_bytes o)) (r_stats r)) r in
            let pending := pending + zlen rec in
            if pending >=? batchSize then Ok (run_worker i Flushing 0 r) else Ok (run_worker i Recv pending r))
      | Flushing =>
          let '(x, s) := syncActive (r_store r) in
          let r := run_store s r in
          or_exit i r x (λ _, Ok (run_worker i Recv pending r))
      end
  end.

Definition other_put (o : Object) (r : prun) : result prun :=
  let '(x, s) := Packstore.Put (obj_key o) (obj_bytes o) (r_store r) in
  match x with Panic => Panic | Diverge => Diverge | _ => Ok (run_store s r) end.

Definition run_step (cap : nat) (batchSize : Z) (verify : bool) (ev : event) (r : prun) : result prun :=
  match ev with
  | Distribute stop => distribute cap stop r
  | Work i stop => work batchSize verify i stop r
  | Other o => other_put o r
  end.

Definition run_start (writers : nat) (seq : list (Object + error)) (s : Store) : prun :=
  mkRun s seq true [] None newSeenSet (replicate writers (mkWorker Recv 0)) (mkStats 0 0 0).

(** [eg.Wait()] returns. *)
Definition exited (w : worker) : bool := match w_pc w with Exited => true | _ => false end.
Definition finished (r : prun) : bool := negb (r_producing r) && forallb exited (r_workers r).

(** [procs] is [runtime.GOMAXPROCS(0)]. *)
Definition writers_of (procs : nat) (opts : WriteOpts) : nat :=
  if Writers opts <=? 0 then procs else Z.to_nat (Writers opts).
Definition batch_size (opts : WriteOpts) : Z := if BatchSize opts <=? 0 then DefaultBatchSize else BatchSize opts.

Definition run_events (procs : nat) (opts : WriteOpts) (sched : list event) : prun → result prun :=
  let writers := writers_of procs opts in
  foldR (run_step (writers * 2) (batch_size opts) (wo_Verify opts)) sched.

(** The run of the events [sched]; [Diverge] when they are not a whole run. *)
Definition WriteParallel (procs : nat) (sched : list event) (seq : list (Object + error)) (opts : WriteOpts) (s : Store) :
    result (WriteStats * option error) * Store :=
  match run_events procs opts sched (run_start (writers_of procs opts) seq s) with
  | Ok r =>
      if finished r then
        let '(serr, s) := syncActive (r_store r) in
        (Ok (r_stats r, match r_err r, serr with Some e, _ => Some e | None, Err e => Some e | None, _ => None end), s)
      else (Diverge, r_store r)
  | Err e => (Err e, s)
  | Panic => (Panic, s)
  | Diverge => (Diverge, s)
  end.
End parallel.

(** ** The parallel writer: facts

    An invariant of all executions of [WriteParallel], a measure that every step
    decreases, and progress. *)

(** ** The sharded set is a set *)
Definition seen_is (s : seenSet) (S : gset Key) : Prop :=
  length s = 256%nat ∧ ∀ k, k ∈ S ↔ ∃ sh, s !! shard_of k = Some sh ∧ k ∈ sh.

Lemma shard_bound k : (shard_of k < 256)%nat.
Proof. unfold shard_of. pose proof (Byte.to_N_bounded (default x00 (last (kb k)))). lia. Qed.

Lemma newSeenSet_is : seen_is newSeenSet ∅.
Proof.
  split; [done|]. intros k. split; [set_solver|]. intros (sh & Hsh & Hk). unfold newSeenSet in Hsh.
  apply lookup_replicate in Hsh as [-> _]. set_solver.
Qed.

Lemma addIfAbsent_is s S k : seen_is s S →
  ∃ s', addIfAbsent k s = Ok (bool_decide (k ∉ S), s') ∧ seen_is s' ({[k]} ∪ S).
Proof.
  intros [Hl HS]. pose proof (shard_bound k) as Hb.
  destruct (lookup_lt_is_Some_2 s (shard_of k)) as [sh Hsh]; [lia|].
  unfold addIfAbsent. rewrite (index_ok _ _ sh) by (rewrite ?Nat2Z.id; lia || done). cbn.
  assert (k ∈ sh ↔ k ∈ S) as Hk.
  { rewrite HS. split; [intros; by exists sh|]. intros (sh' & Hsh' & ?). by simplify_eq. }
  case_bool_decide as Hin.
  - exists s. rewrite bool_decide_eq_false_2 by tauto. split; [done|]. split; [done|].
    replace ({[k]} ∪ S) with S by set_solver. done.
  - eexists. rewrite bool_decide_eq_true_2 by tauto. split; [done|]. split; [by rewrite length_insert|].
    intros k'. rewrite elem_of_union, elem_of_singleton, HS.
    destruct (decide (shard_of k' = shard_of k)) as [E|E].
    + rewrite E, list_lookup_insert_eq, Hsh by lia. split.
      * intros [->|(sh' & [= <-] & ?)]; eexists; (split; [done|]); set_solver.
      * intros (sh' & [= <-] & [->%elem_of_singleton|?]%elem_of_union); [by left|right; by eexists].
    + rewrite list_lookup_insert_ne by done. split; [|by right]. intros [->|?]; done.
Qed.

(** ** Objects that the writers hold *)
Definition pc_obj (w : worker) : option Object :=
  match w_pc w with Got o | Observed o | Fresh o | Absent o | Encoded o _ => Some o | _ => None end.
(** Those whose keys they added to the seen ones. *)
Definition pc_claim (w : worker) : option Key :=
  match w_pc w with Fresh o | Absent o | Encoded o _ => Some (obj_key o) | _ => None end.

#[local] Instance recv_dec (pc : wpc) : Decision (pc = Recv).
Proof. destruct pc; first [by left|by right]. Defined.

Definition inflight (r : prun) : list Object := omap pc_obj (r_workers r).
Definition claimed (r : prun) : list Key := omap pc_claim (r_workers r).

Lemma omap_insert {A B} (f : A → option B) (l : list A) i x y : l !! i = Some x →
  ∃ rest, omap f l ≡ₚ option_list (f x) ++ rest ∧ omap f (<[i := y]> l) ≡ₚ option_list (f y) ++ rest.
Proof.
  intros Hx. pose proof (lookup_lt_Some _ _ _ Hx). exists (omap f (take i l) ++ omap f (drop (S i) l)).
  rewrite insert_take_drop by done. rewrite <- (take_drop_middle l i x Hx) at 1. rewrite !omap_app.
  split.
  - cbn [omap list_omap]. destruct (f x); cbn; [symmetry; apply Permutation_middle|done].
  - cbn [omap list_omap]. destruct (f y); cbn; [symmetry; apply Permutation_middle|done].
Qed.

Section invariant.
Context `{Blake3} `{Fuse} `{Zstd} `{ItemInv}.
(** What the store held, what the iterator yields, whether objects are verified,
    and what others write. *)
Context (c0 : gmap Key bytes) (seq0 : list (Object + error)) (verify : bool) (others : Object → Prop).

(** An object that passes the checks of the writers can be stored. *)
Definition storable (o : Object) : Prop :=
  Validate (obj_key o) = Ok tt ∧
  ((verify = true → verifyObject (obj_key o) (obj_bytes o) = Ok tt) → item_inv (obj_key o) (obj_bytes o)).

Definition put_by_others (o : Object) : Prop :=
  others o → Validate (obj_key o) = Ok tt ∧ item_inv (obj_key o) (obj_bytes o).

Context (Hseq : ∀ o, inl o ∈ seq0 → storable o) (Hothers : ∀ o, put_by_others o).

(** Where a stored object can come from. *)
Definition source (k : Key) (d : bytes) : Prop :=
  c0 !! k = Some d ∨
  inl (mkObject k d) ∈ seq0 ∧ (verify = true → verifyObject k d = Ok tt) ∨
  others (mkObject k d).

Definition store_inv (c : gmap Key bytes) (r : prun) : Prop :=
  contents (r_store r) c ∧ closed (r_store r) = false ∧ dom c0 ⊆ dom c ∧ ∀ k d, c !! k = Some d → source k d.

(** While there is no error, every object that was sent is done, in the channel or
    with a writer, and a seen key is stored or claimed. *)
Definition flow_inv (c : gmap Key bytes) (r : prun) : Prop :=
  ∃ S, seen_is (r_seen r) S ∧ (∀ k, k ∈ claimed r → k ∈ S) ∧
    (r_err r = None →
      (∀ k, k ∈ S → k ∈ dom c ∨ k ∈ claimed r) ∧
      ∃ sent done, seq0 = (inl <$> sent) ++ r_rest r ∧ sent ≡ₚ done ++ r_ch r ++ inflight r ∧
        zlen done = Stored (r_stats r) + Deduped (r_stats r) ∧ ∀ o, o ∈ done → obj_key o ∈ S).

Definition worker_ok (w : worker) : Prop :=
  (∀ o, pc_obj w = Some o → inl o ∈ seq0) ∧
  match w_pc w with Encoded o rec => encode_object verify o = Ok rec | _ => True end.

Definition local_inv (r : prun) : Prop :=
  Forall worker_ok (r_workers r) ∧ (∀ x, x ∈ r_rest r → x ∈ seq0) ∧ (∀ o, o ∈ r_ch r → inl o ∈ seq0) ∧
  (r_err r = None → (∃ w, w ∈ r_workers r ∧ exited w = true) → r_ch r = [] ∧ r_producing r = false) ∧
  (r_err r = None → r_producing r = false → r_rest r = []) ∧ r_workers r ≠ [].

(** Nothing can fail. *)
Definition flawless : Prop :=
  fuse_builds ∧ ∀ x, x ∈ seq0 → match x with
                                | inl o => is_ok (encode_object verify o) = true ∧ zlen (obj_bytes o) <= MaxPayload
                                | inr _ => False
                                end.
Definition smooth : Prop := flawless ∧ ∀ o, others o → zlen (obj_bytes o) <= MaxPayload.
(** A condition under which the run is to succeed. *)
Context (fair : Prop) (Hfair : fair → smooth).
Definition good_inv (r : prun) : Prop := fair → r_err r = None ∧ quiet (r_store r) ∧ failed (r_store r) = None.

Definition run_inv (r : prun) : Prop := (∃ c, store_inv c r ∧ flow_inv c r) ∧ local_inv r ∧ good_inv r.

Lemma encode_object_safe o : safe (encode_object verify o).
Proof.
  unfold encode_object. apply safe_bind; [destruct verify; [apply verifyObject_safe|by split]|].
  intros _ _. unfold EncodeRecord. destruct (negb _); [by split|]. by destruct (if _ <? _ then _ else _).
Qed.

(** An error makes the flow irrelevant. *)
Lemma flow_fail c c' r r' : r_seen r' = r_seen r → claimed r' ⊆ claimed r → r_err r' ≠ None → flow_inv c r → flow_inv c' r'.
Proof. intros Hs Hc Hne (S & HS & Hcl & _). exists S. rewrite Hs. split_and!; [done|auto|]. by intros ?%Hne. Qed.

(** A writer moves on with its object. *)
Lemma flow_keep c c' r r' i w w' :
  r_workers r !! i = Some w → r_workers r' = <[i := w']> (r_workers r) → pc_obj w' = pc_obj w → pc_claim w' = pc_claim w →
  r_seen r' = r_seen r → r_rest r' = r_rest r → r_ch r' = r_ch r → r_stats r' = r_stats r → r_err r' = r_err r →
  dom c ⊆ dom c' → flow_inv c r → flow_inv c' r'.
Proof.
  intros Hw Hws Ho Hc Hs Hr Hch Hst He Hd (S & HS & Hcl & Hf).
  unfold flow_inv, claimed, inflight in *. rewrite Hws, Hr, Hch, Hst, Hs, He.
  destruct (omap_insert pc_obj _ i w w' Hw) as (X & HX & HX'). rewrite Ho, <- HX in HX'.
  destruct (omap_insert pc_claim _ i w w' Hw) as (Y & HY & HY'). rewrite Hc, <- HY in HY'.
  exists S. split_and!; [done|intros k; rewrite HY'; auto|]. intros Hn.
  destruct (Hf Hn) as (Hcov & sent & done & Hsent & Hp & Hlen & Hdone).
  split; [intros k [Hk|Hk]%Hcov; [left; set_solver|right; by rewrite HY']|].
  exists sent, done. split_and!; try done. by rewrite HX'.
Qed.

(** A writer is done with its object. *)
Lemma flow_done c c' r r' i w w' o :
  r_workers r !! i = Some w → r_workers r' = <[i := w']> (r_workers r) → pc_obj w = Some o → pc_obj w' = None → pc_claim w' = None →
  r_seen r' = r_seen r → r_rest r' = r_rest r → r_ch r' = r_ch r →
  Stored (r_stats r') + Deduped (r_stats r') = Stored (r_stats r) + Deduped (r_stats r) + 1 → r_err r' = r_err r →
  dom c ⊆ dom c' → (∀ S, seen_is (r_seen r) S → (∀ k, k ∈ claimed r → k ∈ S) → obj_key o ∈ S) →
  (∀ k, pc_claim w = Some k → k ∈ dom c') → flow_inv c r → flow_inv c' r'.
Proof.
  intros Hw Hws Ho Ho' Hc' Hs Hr Hch Hst He Hd Hin Hcl' (S & HS & Hcl & Hf). specialize (Hin S HS Hcl).
  unfold flow_inv, claimed, inflight in *. rewrite Hws, Hr, Hch, Hst, Hs, He.
  destruct (omap_insert pc_obj _ i w w' Hw) as (X & HX & HX'). rewrite Ho' in HX'. rewrite Ho in HX. cbn in HX, HX'.
  destruct (omap_insert pc_claim _ i w w' Hw) as (Y & HY & HY'). rewrite Hc' in HY'. cbn in HY'.
  exists S. split_and!; [done|intros k Hk; apply Hcl; rewrite HY; rewrite HY' in Hk; set_solver|]. intros Hn.
  destruct (Hf Hn) as (Hcov & sent & done & Hsent & Hp & Hlen & Hdone). split.
  - intros k [Hk|Hk]%Hcov; [left; set_solver|]. rewrite HY in Hk. apply elem_of_app in Hk as [Hk|Hk].
    + left. apply Hcl'. destruct (pc_claim w) as [k'|]; [|by apply elem_of_nil in Hk].
      apply list_elem_of_singleton in Hk. by subst.
    + right. by rewrite HY'.
  - exists sent, (o :: done). split_and!; [done| |cbn [length]; lia|].
    + rewrite HX', Hp, HX. solve_Permutation.
    + intros o' [->|?]%elem_of_cons; auto.
Qed.

Lemma claimed_exit r i w : r_workers r !! i = Some w →
  omap pc_claim (<[i := mkWorker Exited 0]> (r_workers r)) ⊆ claimed r.
Proof.
  intros Hw k Hk. destruct (omap_insert pc_claim _ i w (mkWorker Exited 0) Hw) as (Y & HY & HY').
  rewrite HY' in Hk. unfold claimed. rewrite HY. set_solver.
Qed.

Lemma claim_of r i w k : r_workers r !! i = Some w → pc_claim w = Some k → k ∈ claimed r.
Proof. intros Hw Hk. apply list_elem_of_omap. exists w. split; [by eapply list_elem_of_lookup_2|done]. Qed.

(** ** The steps keep the invariant *)
Lemma distribute_inv cap stop r r' : run_inv r → distribute cap stop r = Ok r' → run_inv r'.
Proof.
  intros ((c & Hst & Hfl) & (Hw & Hrest & Hch & Hex & Hcl & Hne0) & Hgood). unfold distribute. destruct (r_producing r) eqn:Hp; [cbn [negb]|done].
  assert (r_err r = None → ∀ w, w ∈ r_workers r → exited w = false) as Hno.
  { intros Hn w Hin. destruct (exited w) eqn:E; [|done]. destruct (Hex Hn (ex_intro _ w (conj Hin E))). congruence. }
  destruct (r_rest r) as [|[o|e] rest] eqn:Hr.
  - intros [= <-]. split; [by exists c|]. split; [|done]. split_and!; cbn; rewrite ?Hr; try done.
    intros Hn (w & Hin & Hw'). by rewrite (Hno Hn w Hin) in Hw'.
  - destruct stop.
    + destruct (cancelled r) eqn:Hca; [|done]. unfold cancelled in Hca. intros [= <-].
      split; [by exists c|]. split; [|done]. split_and!; cbn; rewrite ?Hr; try done; intros Hn; by rewrite Hn in Hca.
    + destruct (length (r_ch r) <? cap)%nat; [|done]. intros [= <-]. split.
      * exists c. split; [done|]. destruct Hfl as (S & HS & Hcm & Hf). exists S. split_and!; [done..|]. cbn. intros Hn.
        destruct (Hf Hn) as (Hcov & sent & done & Hsent & Hpm & Hlen & Hdone). split; [done|].
        exists (sent ++ [o]), done. split_and!; [|by rewrite Hpm; unfold inflight; cbn; solve_Permutation|done|done].
        rewrite Hsent, Hr, fmap_app, <- app_assoc. done.
      * split; [|done]. split_and!; cbn; try done.
        -- intros x Hx. apply Hrest. by right.
        -- intros o' [?|Ho'%list_elem_of_singleton]%elem_of_app; [auto|subst; apply Hrest; by left].
        -- intros Hn (w & Hin & Hw'). by rewrite (Hno Hn w Hin) in Hw'.
  - intros [= <-]. assert (r_err (run_close (run_fail e r)) ≠ None) as Hne by (cbn; by destruct (r_err r)).
    split; [exists c; split; [done|]; by apply (flow_fail c c r); [|intros k|..]|].
    split; [split_and!; cbn in *; rewrite ?Hr; try done; by intros ?%Hne|].
    intros [[_ Hfl'] _]%Hfair. destruct (Hfl' (inr e)). apply Hrest. by left.
Qed.

(** The objects that a step adds to the store. *)
Lemma store_grow c c' r r' k d :
  contents (r_store r') c' → closed (r_store r') = false → (c' = c ∨ c' = <[k := d]> c) → source k d →
  store_inv c r → store_inv c' r' ∧ dom c ⊆ dom c'.
Proof.
  intros Hcs Hcl Hor Hsrc (_ & _ & Hd & Hs). unfold store_inv. destruct Hor as [->| ->]; [by split_and!|].
  rewrite dom_insert. split_and!; [done|done|set_solver| |set_solver].
  intros k' d' [[<- <-]|[_ ?]]%lookup_insert_Some; auto.
Qed.

Lemma append_contents s c k d rec :
  contents s c → closed s = false → Validate k = Ok tt → item_inv k d → EncodeRecord k d = Ok rec →
  wp (appendLocked k rec false) (λ x s', safe x ∧ base s' = base s ∧
    (healthy s → failed s = None → x = Ok tt ∧ quiet s' ∧ failed s' = None) ∧
    ∃ c', contents s' c' ∧ (c' = c ∨ c' = <[k := d]> c) ∧ (x = Ok tt → k ∈ dom c')) s.
Proof.
  intros Hcs Hc Hv Hi He. destruct (encoded_item k d rec Hv Hi He) as (it & <- & <- & <- & Hit).
  destruct (failed s) as [e|] eqn:Hf.
  { unfold appendLocked. do 2 wp_pure. rewrite Hc. do 2 wp_pure. rewrite Hf. wp_pure.
    split_and!; try done. exists c. split_and!; [done|by left|done]. }
  destruct Hcs as (m & Hr & ->). eapply wp_mono, appendLocked_spec; try done.
  intros x s' (Hs & Hb & Hh & m' & Hr' & Hor & Hok). split_and!; try done; [auto|].
  exists (it_data <$> m'). split_and!; [by exists m'|destruct Hor as [->| ->]; [by left|right; apply fmap_insert]|].
  rewrite dom_fmap. intros [->|[-> Hm]]%Hok; [rewrite dom_insert; set_solver|by apply elem_of_dom].
Qed.

Lemma local_move r r' i w w' :
  r_workers r !! i = Some w → r_workers r' = <[i := w']> (r_workers r) → worker_ok w' →
  r_rest r' = r_rest r → (∀ o, o ∈ r_ch r' → o ∈ r_ch r) → r_producing r' = r_producing r →
  (r_err r' = None → r_err r = None) →
  (r_err r' = None → exited w' = true → r_ch r' = [] ∧ r_producing r' = false) → local_inv r → local_inv r'.
Proof.
  intros Hw Hws Hok Hr Hch Hp He Hex (Hall & Hrest & Hch0 & Hex0 & Hcl & Hne0). split_and!.
  - rewrite Hws. by apply Forall_insert.
  - by rewrite Hr.
  - auto.
  - intros Hn (w0 & Hin & Hw0). rewrite Hws in Hin. apply list_elem_of_lookup in Hin as [j Hj].
    destruct (decide (j = i)) as [->|Hne].
    + rewrite list_lookup_insert_eq in Hj by (by eapply lookup_lt_Some). injection Hj as <-. auto.
    + rewrite list_lookup_insert_ne in Hj by done. destruct (Hex0 (He Hn)) as [Hc0 ?].
      { exists w0. split; [by eapply list_elem_of_lookup_2|done]. }
      split; [|by rewrite Hp]. destruct (r_ch r') as [|o l]; [done|].
      pose proof (Hch o ltac:(left)) as Ho. rewrite Hc0 in Ho. by apply elem_of_nil in Ho.
  - rewrite Hp, Hr. auto.
  - rewrite Hws. intros Hnil. apply Hne0, length_zero_iff_nil. by rewrite <- (length_insert _ i w'), Hnil.
Qed.

(** A writer whose call failed. *)
Lemma exit_inv i w r s e c c' :
  r_workers r !! i = Some w → store_inv c' (run_store s r) → flow_inv c r → local_inv r → (¬ fair) →
  run_inv (run_fail e (run_worker i Exited 0 (run_store s r))).
Proof.
  intros Hw Hst Hfl Hloc Hg.
  assert (r_err (run_fail e (run_worker i Exited 0 (run_store s r))) ≠ None) as Hne by (cbn; by destruct (r_err r)).
  split_and!; [|eapply (local_move r _ i w (mkWorker Exited 0)); try done; by try intros ?%Hne|by intros ?%Hg].
  exists c'. split; [done|]. apply (flow_fail c c' r); [done|by apply (claimed_exit r i w)|done|done].
Qed.

(** A writer moves on with its object; the store may have changed under it. *)
Lemma keep_inv i w w' r r' c c' :
  r_workers r !! i = Some w → r_workers r' = <[i := w']> (r_workers r) → pc_obj w' = pc_obj w → pc_claim w' = pc_claim w →
  r_seen r' = r_seen r → r_rest r' = r_rest r → r_ch r' = r_ch r → r_stats r' = r_stats r → r_err r' = r_err r →
  r_producing r' = r_producing r → worker_ok w' → (exited w' = true → r_err r = None → r_ch r = [] ∧ r_producing r = false) →
  flow_inv c r → local_inv r → store_inv c' r' → dom c ⊆ dom c' → good_inv r' → run_inv r'.
Proof.
  intros Hw Hws Ho Hc Hs Hr Hch Hst He Hp Hok Hex Hfl Hloc Hsi Hd Hg.
  split_and!; [exists c'; split; [done|]; by eapply (flow_keep c)| |done].
  eapply (local_move r r' i w w'); try done; rewrite ?Hch, ?He, ?Hp; auto.
Qed.

(** A writer is done with its object and goes back for the next one. *)
Lemma done_inv i w w' o r r' c c' :
  r_workers r !! i = Some w → r_workers r' = <[i := w']> (r_workers r) → pc_obj w = Some o →
  w_pc w' = Recv ∨ w_pc w' = Flushing →
  r_seen r' = r_seen r → r_rest r' = r_rest r → r_ch r' = r_ch r → r_err r' = r_err r → r_producing r' = r_producing r →
  Stored (r_stats r') + Deduped (r_stats r') = Stored (r_stats r) + Deduped (r_stats r) + 1 →
  (∀ S, seen_is (r_seen r) S → (∀ k, k ∈ claimed r → k ∈ S) → obj_key o ∈ S) → (∀ k, pc_claim w = Some k → k ∈ dom c') →
  flow_inv c r → local_inv r → store_inv c' r' → dom c ⊆ dom c' → good_inv r' → run_inv r'.
Proof.
  intros Hw Hws Ho Hpc Hs Hr Hch He Hp Hst Hin Hcl Hfl Hloc Hsi Hd Hg.
  assert (pc_obj w' = None ∧ pc_claim w' = None ∧ exited w' = false ∧ worker_ok w') as (? & ? & Hex & ?).
  { unfold worker_ok, pc_obj, pc_claim, exited. by destruct Hpc as [-> | ->]. }
  split_and!; [exists c'; split; [done|]; by eapply (flow_done c)| |done].
  eapply (local_move r r' i w w'); try done; rewrite ?Hch, ?He, ?Hp; auto. by rewrite Hex.
Qed.

Definition outcome (x : result prun) : Prop := match x with Ok r => run_inv r | Diverge => True | _ => False end.
(** A step that does not block. *)
Definition returns (x : result prun) : Prop := match x with Ok r => run_inv r | _ => False end.

Section work.
Context (batchSize : Z) (i : nat) (stop : bool) (r : prun) (w : worker) (c : gmap Key bytes).
Context (Hw : r_workers r !! i = Some w) (Hok : worker_ok w).
Context (Hst : store_inv c r) (Hfl : flow_inv c r) (Hloc : local_inv r) (Hgood : good_inv r).

Lemma work_recv : w_pc w = Recv → outcome (work batchSize verify i stop r).
Proof.
  intros Hpc. destruct w as [pc pd] eqn:Ew. cbn in Hpc. subst pc. unfold work. rewrite Hw.
  assert (∀ (Hx : r_err r = None → r_ch r = [] ∧ r_producing r = false), run_inv (run_worker i Exited pd r)) as Hexit.
  { intros Hx. by eapply (keep_inv i _ (mkWorker Exited pd) r _ c c). }
  destruct stop.
  - destruct (cancelled r) eqn:Hca; [|done]. apply Hexit. unfold cancelled in Hca. intros Hn. by rewrite Hn in Hca.
  - destruct (r_ch r) as [|o ch] eqn:Hch; [destruct (r_producing r) eqn:Hp; [done|by apply Hexit]|].
    destruct Hloc as (_ & _ & Hseq0 & _). assert (inl o ∈ seq0) as Ho by (apply Hseq0; rewrite Hch; left).
    split_and!; [exists c; split; [done|]| |done].
    + destruct Hfl as (S & HS & Hcl & Hf). unfold flow_inv, claimed, inflight in *. cbn.
      destruct (omap_insert pc_obj _ i _ (mkWorker (Got o) pd) Hw) as (X & HX & HX').
      destruct (omap_insert pc_claim _ i _ (mkWorker (Got o) pd) Hw) as (Y & HY & HY'). cbn in HX, HX', HY, HY'.
      rewrite <- HX in HX'. rewrite <- HY in HY'. exists S. split_and!; [done|intros k; rewrite HY'; auto|]. intros Hn.
      destruct (Hf Hn) as (Hcov & sent & done & Hsent & Hp & Hlen & Hdone).
      split; [intros k [Hk|Hk]%Hcov; [by left|right; by rewrite HY']|].
      exists sent, done. split_and!; try done. rewrite HX', Hp, Hch. solve_Permutation.
    + eapply (local_move r _ i _ (mkWorker (Got o) pd)); try done.
      * split; [by intros o' [= <-]|done].
      * intros o' Hin. rewrite Hch. by right.
Qed.

Lemma work_keys o : w_pc w = Got o ∨ w_pc w = Observed o → returns (work batchSize verify i stop r).
Proof.
  destruct w as [pc pd] eqn:Ew. destruct Hst as (Hcs & Hcl & Hd & Hsrc). cbn.
  intros [-> | ->]; unfold work; rewrite Hw.
  - pose proof (observed_same (obj_key o) (r_store r)) as (_ & _ & _ & Hf1 & Hc1 & Hio).
    eapply (keep_inv i _ (mkWorker (Observed o) pd) r _ c c); try done.
    + split_and!; [by apply contents_observed|exact (eq_trans Hc1 Hcl)|done|done].
    + intros Hg. destruct (Hgood Hg) as (? & Hq & ?). split_and!; [done| |by rewrite <- Hf1 in *]. unfold quiet in *. by rewrite <- Hio in Hq.
  - destruct Hfl as (S & HS & Hclm & Hf). destruct (addIfAbsent_is _ S (obj_key o) HS) as (s' & Hadd & HS').
    rewrite Hadd. cbn. case_bool_decide as Hin.
    + split_and!; [exists c; split; [done|]|eapply (local_move r _ i _ (mkWorker (Fresh o) pd)); try done|done].
      unfold flow_inv, claimed, inflight in *. cbn.
      destruct (omap_insert pc_obj _ i _ (mkWorker (Fresh o) pd) Hw) as (X & HX & HX').
      destruct (omap_insert pc_claim _ i _ (mkWorker (Fresh o) pd) Hw) as (Y & HY & HY'). cbn in HX, HX', HY, HY'.
      rewrite <- HX in HX'. rewrite <- HY in HY'. exists ({[obj_key o]} ∪ S).
      split_and!; [done|intros k; rewrite HY'; set_solver|]. intros Hn.
      destruct (Hf Hn) as (Hcov & sent & done & Hsent & Hp & Hlen & Hdone). split.
      * intros k. rewrite HY', elem_of_union, elem_of_singleton. intros [->|[Hk|Hk]%Hcov]; [right; left|by left|right; by right].
      * exists sent, done. split_and!; try done; [by rewrite HX'|set_solver].
    + apply (done_inv i _ (mkWorker Recv pd) o r _ c c) with (1 := Hw); try done; [by left|cbn; lia|].
      intros S' HS'' _. destruct HS as [_ HS], HS'' as [_ HS'']. rewrite HS'', <- HS. by destruct (decide (obj_key o ∈ S)).
Qed.

Lemma exit_now e : ¬ fair → run_inv (run_fail e (run_worker i Exited 0 r)).
Proof.
  intros Hg. pose proof (exit_inv i w r (r_store r) e c c Hw) as Hx. unfold run_store in Hx. destruct r; cbn in *. by apply Hx.
Qed.

Lemma work_look o : w_pc w = Fresh o ∨ w_pc w = Absent o → returns (work batchSize verify i stop r).
Proof.
  pose proof exit_now as Hexit. pose proof Hst as (Hcs & Hcl & _). pose proof Hok as [Hin _].
  intros Hpc. assert (inl o ∈ seq0) as Ho by (apply Hin; unfold pc_obj; by destruct Hpc as [-> | ->]).
  revert Hpc. destruct w as [pc pd] eqn:Ew. cbn. intros [-> | ->]; unfold work; rewrite Hw.
  - rewrite (Has_contents _ c _ Hcs Hcl). cbn. case_bool_decide as Hk; [|by eapply (keep_inv i _ (mkWorker (Absent o) pd) r _ c c)].
    apply (done_inv i _ (mkWorker Recv pd) o r _ c c) with (1 := Hw); try done; [by left|cbn; lia| |].
    + intros S _ Hcm. apply Hcm. by eapply claim_of.
    + intros k [= <-]. by apply elem_of_dom.
  - pose proof (encode_object_safe o) as Hs. destruct (encode_object verify o) as [rec|e| |] eqn:He; try by destruct Hs.
    + by eapply (keep_inv i _ (mkWorker (Encoded o rec) pd) r _ c c).
    + apply Hexit. intros [[_ Hf] _]%Hfair. destruct (Hf (inl o) Ho) as [Hk _]. by rewrite He in Hk.
Qed.

Lemma work_append o rec : w_pc w = Encoded o rec → returns (work batchSize verify i stop r).
Proof.
  pose proof Hst as (Hcs & Hcl & _). pose proof Hok as [Hin Henc].
  destruct w as [pc pd] eqn:Ew. cbn. intros ->. cbn in Henc. specialize (Hin o eq_refl). unfold work. rewrite Hw.
  apply bind_Ok in Henc as ([] & Hver & Henc). destruct (Hseq o Hin) as [Hv Hi].
  assert (verify = true → verifyObject (obj_key o) (obj_bytes o) = Ok tt) as Hver' by (intros ->; done).
  assert (source (obj_key o) (obj_bytes o)) as Hsrc by (right; left; by destruct o).
  pose proof (append_contents (r_store r) c _ _ rec Hcs Hcl Hv (Hi Hver') Henc) as Hap. unfold wp in Hap.
  destruct (appendLocked _ rec false (r_store r)) as [x s]. destruct Hap as (Hs & Hb & Hh & c' & Hcs' & Hor & Hdom).
  assert (closed s = false) as Hcl' by (unfold base in Hb; cbn in *; congruence).
  destruct (store_grow c c' r (run_store s r) _ _ Hcs' Hcl' Hor Hsrc Hst) as [Hst' Hd].
  assert (fair → x = Ok tt ∧ quiet s ∧ failed s = None) as Hg.
  { intros Hfa. destruct (Hgood Hfa) as (_ & Hq & Hf). apply Hh; [|done]. split; [done|apply (Hfair Hfa)]. }
  destruct x as [[]|e| |]; try by destruct Hs.
  - cbn [or_exit]. specialize (Hdom eq_refl).
    assert (∀ pc pd', pc = Recv ∨ pc = Flushing →
      run_inv (run_worker i pc pd' (run_stats (add_stored (zlen (obj_bytes o)) (r_stats r)) (run_store s r)))) as Hnext.
    { intros pc pd' Hpc. apply (done_inv i _ (mkWorker pc pd') o r _ c c') with (1 := Hw); try done; [cbn; lia| | |].
      - intros S _ Hcm. apply Hcm. by eapply claim_of.
      - by intros k [= <-].
      - intros Hfa. destruct (Hgood Hfa) as (? & _ & _). by destruct (Hg Hfa). }
    cbn. destruct (_ >=? _); apply Hnext; auto.
  - cbn. eapply (exit_inv i _ r s e c c'); try done. by intros [? _]%Hg.
Qed.

Lemma work_flush : w_pc w = Flushing → returns (work batchSize verify i stop r).
Proof.
  pose proof Hst as (Hcs & Hcl & Hd & Hsrc). destruct w as [pc pd] eqn:Ew. cbn. intros ->. unfold work. rewrite Hw.
  pose proof (syncActive_spec (r_store r) c Hcs) as Hsy. unfold wp in Hsy. destruct (syncActive (r_store r)) as [x s].
  destruct Hsy as (Hcs' & Hb & Hs & Hq).
  assert (store_inv c (run_store s r)) as Hst' by (split_and!; try done; unfold base in Hb; cbn in *; congruence).
  assert (fair → x = Ok tt ∧ quiet s ∧ failed s = None) as Hg by (intros (_ & ? & ?)%Hgood; auto).
  destruct x as [[]|e| |]; try by destruct Hs.
  - cbn. eapply (keep_inv i _ (mkWorker Recv pd) r _ c c); try done.
    intros Hfa. destruct (Hgood Hfa) as (? & _ & _). by destruct (Hg Hfa).
  - cbn. eapply (exit_inv i _ r s e c c); try done. by intros [? _]%Hg.
Qed.
End work.

(** A writer only blocks at the channel. *)
Lemma work_returns batchSize i stop r w : run_inv r → r_workers r !! i = Some w → w_pc w ≠ Recv → exited w = false →
  returns (work batchSize verify i stop r).
Proof.
  intros ((c & Hst & Hfl) & Hloc & Hg) Hw Hpc Hex. unfold exited in Hex.
  assert (worker_ok w) as Hok by (by eapply Forall_lookup_1; [apply Hloc|]).
  destruct (w_pc w) eqn:Epc; [done|..|done].
  - eapply work_keys; eauto.
  - eapply work_keys; eauto.
  - eapply work_look; eauto.
  - eapply work_look; eauto.
  - by eapply work_append.
  - by eapply work_flush.
Qed.

Lemma work_inv batchSize i stop r : run_inv r → outcome (work batchSize verify i stop r).
Proof.
  intros Hr. destruct (r_workers r !! i) as [w|] eqn:Hw; [|unfold work; by rewrite Hw].
  destruct (exited w) eqn:Hex.
  { unfold work. rewrite Hw. destruct w as [pc pd]. by destruct pc. }
  destruct (decide (w_pc w = Recv)) as [Hpc|Hpc].
  - destruct Hr as ((c & Hst & Hfl) & Hloc & Hg). eapply (work_recv batchSize i stop r w c); try done.
    by eapply Forall_lookup_1; [apply Hloc|].
  - pose proof (work_returns batchSize i stop r w Hr Hw Hpc Hex). by destruct (work _ _ _ _ _).
Qed.

Lemma other_inv o r : others o → run_inv r → outcome (other_put o r).
Proof.
  intros Ho ((c & Hst & Hfl) & Hloc & Hg). destruct (Hothers o Ho) as [Hv Hi]. pose proof Hst as (Hcs & Hcl & _).
  unfold other_put.
  destruct (failed (r_store r)) as [e|] eqn:Hf.
  { assert (Packstore.Put (obj_key o) (obj_bytes o) (r_store r) = (Err e, r_store r)) as ->.
    { unfold Packstore.Put, bindM, getM. by rewrite Hf. }
    cbn. split_and!; [by exists c|done|done]. }
  pose proof (Put_spec (r_store r) c _ _ Hcs Hcl Hf Hv Hi) as Hput. unfold wp in Hput.
  pose proof (observed_same (obj_key o) (r_store r)) as (_ & _ & _ & Hf1 & Hc1 & Hio).
  destruct (Packstore.Put _ _ _) as [x s]. destruct Hput as (Hs & Hb & Hh & c' & Hcs' & Hor & _).
  assert (closed s = false) as Hcl' by (unfold base in Hb; cbn in *; congruence).
  assert (c' = c ∨ c' = <[obj_key o := obj_bytes o]> c) as Hor'.
  { unfold put_absent in Hor. destruct (c !! obj_key o); tauto. }
  destruct (store_grow c c' r (run_store s r) _ _ Hcs' Hcl' Hor') as [Hst' Hd]; [right; right; by destruct o|done|].
  assert (run_inv (run_store s r)) as Hr; [|destruct x; try done; by destruct Hs].
  split_and!; [exists c'; split; [done|]|done|].
  - destruct Hfl as (S & HS & Hcm & Hf'). exists S. split_and!; [done|done|]. intros Hn. destruct (Hf' Hn) as (Hcov & Hacc).
    split; [|done]. intros k [Hk|Hk]%Hcov; [left; set_solver|by right].
  - intros Hfa. destruct (Hg Hfa) as (He & Hq & _). destruct Hh as (? & ? & ?); [|congruence|by apply (Hfair Hfa)|done].
    split; [unfold quiet in *; by rewrite Hio|apply (Hfair Hfa)].
Qed.

Definition allowed (ev : event) : Prop := match ev with Other o => others o | _ => True end.

Lemma run_step_inv cap batchSize ev r : allowed ev → run_inv r → outcome (run_step cap batchSize verify ev r).
Proof.
  intros Ha Hr. destruct ev as [stop|i stop|o]; cbn; [|by apply work_inv|by apply other_inv].
  destruct (distribute cap stop r) as [r'|e| |] eqn:Hd; cbn; [by eapply distribute_inv|exfalso..|done].
  - unfold distribute in Hd. repeat case_match; done.
  - unfold distribute in Hd. repeat case_match; done.
Qed.

Lemma run_events_inv procs opts sched r : wo_Verify opts = verify → Forall allowed sched → run_inv r →
  outcome (run_events procs opts sched r).
Proof.
  unfold run_events. intros Hv Hall. revert r. induction Hall as [|ev sched Hev _ IH]; intros r Hr; [done|]. cbn [foldR].
  pose proof (run_step_inv (writers_of procs opts * 2) (batch_size opts) ev r Hev Hr) as Hs. rewrite Hv in *.
  destruct (run_step _ _ _ ev r) as [r'| | |]; try done. by apply IH.
Qed.

Lemma run_start_inv n s : (0 < n)%nat → contents s c0 → closed s = false → (fair → quiet s ∧ failed s = None) → run_inv (run_start n seq0 s).
Proof.
  intros Hn0 Hcs Hc Hq. assert (∀ w, w ∈ replicate n (mkWorker Recv 0) → w = mkWorker Recv 0) as Hw.
  { intros w Hin. by apply elem_of_replicate in Hin as [-> _]. }
  assert (omap pc_obj (replicate n (mkWorker Recv 0)) = [] ∧ omap pc_claim (replicate n (mkWorker Recv 0)) = []) as [Ho Hcl].
  { clear. by induction n. }
  split_and!.
  - exists c0. split; [split_and!; try done; by left|]. exists ∅. unfold claimed, inflight. cbn. rewrite Ho, Hcl.
    split_and!; [apply newSeenSet_is|set_solver|]. intros _. split; [set_solver|]. exists [], []. split_and!; try done; set_solver.
  - split_and!; cbn; try done; [|set_solver|intros _ (w & ->%Hw & ?); done|by destruct n; [lia|]]. apply Forall_forall. intros w ->%Hw. by split.
  - intros Hfa. split; [done|]. by apply Hq.
Qed.

(** ** Every step but those of others makes progress *)
Definition pc_left (w : worker) : nat :=
  match w_pc w with
  | Got _ => 7 | Observed _ => 6 | Fresh _ => 5 | Absent _ => 4 | Encoded _ _ => 3 | Flushing => 2 | Recv => 1 | Exited => 0
  end.
Definition steps_left (r : prun) : nat :=
  9 * length (r_rest r) + 8 * length (r_ch r) + (if r_producing r then 1 else 0) + sum_list_with pc_left (r_workers r).

Definition own (ev : event) : bool := match ev with Other _ => false | _ => true end.

Lemma sum_insert ws i w w' : ws !! i = Some w →
  (sum_list_with pc_left (<[i := w']> ws) + pc_left w = sum_list_with pc_left ws + pc_left w')%nat.
Proof.
  intros Hw. pose proof (lookup_lt_Some _ _ _ Hw). rewrite insert_take_drop by done.
  rewrite <- (take_drop_middle ws i w Hw) at 3. rewrite !sum_list_with_app. cbn. lia.
Qed.

Lemma sum_recv n : sum_list_with pc_left (replicate n (mkWorker Recv 0)) = n.
Proof. induction n as [|n IH]; [done|]. cbn in *. by rewrite IH. Qed.

Lemma run_step_left cap batchSize ev r r' : own ev = true → run_step cap batchSize verify ev r = Ok r' →
  (steps_left r' < steps_left r)%nat.
Proof.
  unfold steps_left. destruct ev as [stop|i stop|o]; cbn [own run_step]; intros Hown; [..|done].
  - unfold distribute. destruct (r_producing r) eqn:Hp; [cbn [negb]|done].
    destruct (r_rest r) as [|[o|e] rest] eqn:Hr; [intros [= <-]; cbn; rewrite Hr; cbn; lia| |intros [= <-]; cbn; rewrite Hr; cbn; lia].
    destruct stop; [destruct (cancelled r); [|done]; intros [= <-]; cbn; rewrite Hr; cbn; lia|].
    destruct (length (r_ch r) <? cap)%nat; [|done]. intros [= <-]. cbn. rewrite length_app. cbn. lia.
  - unfold work. destruct (r_workers r !! i) as [[pc pd]|] eqn:Hw; [|done].
    assert (∀ pc' pd', sum_list_with pc_left (<[i := mkWorker pc' pd']> (r_workers r)) + pc_left (mkWorker pc pd) =
      sum_list_with pc_left (r_workers r) + pc_left (mkWorker pc' pd'))%nat as Hsum by (intros; by apply sum_insert).
    destruct pc; unfold or_exit.
    + destruct stop; [destruct (cancelled r); [|done]; intros [= <-]; pose proof (Hsum Exited pd); cbn in *; lia|].
      destruct (r_ch r) as [|o ch] eqn:Hch.
      * destruct (r_producing r) eqn:Hp; [done|]. intros [= <-]. pose proof (Hsum Exited pd). cbn in *. rewrite Hch, Hp. cbn. lia.
      * intros [= <-]. pose proof (Hsum (Got o) pd). cbn in *. lia.
    + intros [= <-]. pose proof (Hsum (Observed o) pd). cbn in *. lia.
    + intros ([added seen] & _ & Hr)%bind_Ok. destruct added; injection Hr as <-;
        [pose proof (Hsum (Fresh o) pd)|pose proof (Hsum Recv pd)]; cbn in *; lia.
    + destruct (fst _) as [[]|e| |]; intros [= <-];
        [pose proof (Hsum Recv pd)|pose proof (Hsum (Absent o) pd)|pose proof (Hsum Exited 0)]; cbn in *; lia.
    + destruct (encode_object _ _) as [rec|e| |]; intros [= <-];
        [pose proof (Hsum (Encoded o rec) pd)|pose proof (Hsum Exited 0)]; cbn in *; lia.
    + destruct (appendLocked _ _ _ _) as [[|e| |] s]; try done.
      * destruct (_ >=? _); intros [= <-]; [pose proof (Hsum Flushing 0)|pose proof (Hsum Recv (pd + zlen rec))]; cbn in *; lia.
      * intros [= <-]. pose proof (Hsum Exited 0). cbn in *. lia.
    + destruct (syncActive _) as [[|e| |] s]; intros [= <-]; [pose proof (Hsum Recv pd)|pose proof (Hsum Exited 0)]; cbn in *; lia.
    + done.
Qed.

(** Until the run is over, some goroutine can move. *)
Lemma run_step_progress cap batchSize r : (0 < cap)%nat → run_inv r → finished r = false →
  ∃ ev r', own ev = true ∧ run_step cap batchSize verify ev r = Ok r'.
Proof.
  intros Hcap Hr Hfin. pose proof Hr as (_ & (_ & _ & _ & Hex & _ & Hne) & _).
  destruct (list_find (λ w, exited w = false) (r_workers r)) as [[i w]|] eqn:Hf.
  - apply list_find_Some in Hf as (Hw & He & _). destruct (decide (w_pc w = Recv)) as [Hpc|Hpc].
    + destruct w as [pc pd]. cbn in Hpc. subst pc. destruct (r_ch r) as [|o ch] eqn:Hch; [destruct (r_producing r) eqn:Hp|].
      * exists (Distribute false). cbn. unfold distribute. rewrite Hp, Hch. cbn [negb].
        replace (length [] <? cap)%nat with true by (cbn [length]; lia).
        destruct (r_rest r) as [|[o|e] rest]; eexists; (split; [done|reflexivity]).
      * exists (Work i false). cbn. unfold work. rewrite Hw, Hch, Hp. eexists. split; [done|reflexivity].
      * exists (Work i false). cbn. unfold work. rewrite Hw, Hch. eexists. split; [done|reflexivity].
    + exists (Work i false). pose proof (work_returns batchSize i false r w Hr Hw Hpc He) as Hret. cbn.
      destruct (work _ _ _ _ _) as [r'| | |]; try done. by exists r'.
  - apply list_find_None in Hf. assert (forallb exited (r_workers r) = true) as Hall.
    { apply Is_true_true, forallb_True. eapply Forall_impl; [exact Hf|]. intros w Hw. cbn in Hw. by destruct (exited w). }
    unfold finished in Hfin. rewrite Hall, andb_true_r in Hfin. apply negb_false_iff in Hfin.
    exists (Distribute (cancelled r)). cbn. unfold distribute. rewrite Hfin. cbn [negb].
    destruct (r_rest r) as [|[o|e] rest]; [eexists; split; [done|reflexivity]| |eexists; split; [done|reflexivity]].
    destruct (cancelled r) eqn:Hca; [eexists; split; [done|reflexivity]|exfalso].
    destruct (r_workers r) as [|w ws] eqn:Hws; [done|]. destruct Hex as [_ Hp]; [| |congruence].
    + unfold cancelled in Hca. by destruct (r_err r).
    + exists w. split; [left|]. cbn in Hall. by apply andb_prop in Hall as [? _].
Qed.

(** A run can always be finished, by its own steps alone. *)
Lemma run_completes procs opts r : (0 < writers_of procs opts)%nat → wo_Verify opts = verify → run_inv r →
  ∃ sched r', forallb own sched = true ∧ run_events procs opts sched r = Ok r' ∧ run_inv r' ∧ finished r' = true.
Proof.
  intros Hn Hv. revert r. apply (well_founded_ind (well_founded_ltof _ steps_left)
    (λ r, run_inv r → ∃ sched r', forallb own sched = true ∧ run_events procs opts sched r = Ok r' ∧ run_inv r' ∧ finished r' = true)).
  intros r IH Hr. destruct (finished r) eqn:Hf; [exists [], r; by split_and!|].
  destruct (run_step_progress (writers_of procs opts * 2) (batch_size opts) r ltac:(lia) Hr Hf) as (ev & r1 & Hev & Hs).
  pose proof (run_step_inv (writers_of procs opts * 2) (batch_size opts) ev r ltac:(by destruct ev) Hr) as Hr1. rewrite Hs in Hr1.
  destruct (IH r1) as (sched & r' & Hown & Hrun & Hr' & Hfin); [by eapply run_step_left|done|].
  exists (ev :: sched), r'. unfold run_events. cbn [forallb foldR]. unfold run_events in Hrun. rewrite Hev, Hown, Hv, Hs. rewrite Hv in Hrun. by split_and!.
Qed.

Lemma run_events_left procs opts sched r r' : wo_Verify opts = verify → run_events procs opts sched r = Ok r' →
  Forall allowed sched → run_inv r → (length (filter own sched) + steps_left r' ≤ steps_left r)%nat.
Proof.
  intros Hv. unfold run_events. rewrite Hv. revert r. induction sched as [|ev sched IH]; intros r; cbn [foldR]; [intros [= <-]; cbn; lia|].
  intros (r1 & Hs & Hrun)%bind_Ok [Hev Hall]%Forall_cons Hr.
  pose proof (run_step_inv (writers_of procs opts * 2) (batch_size opts) ev r Hev Hr) as Hr1. rewrite Hs in Hr1.
  specialize (IH r1 Hrun Hall Hr1). rewrite filter_cons. destruct (decide (own ev)) as [Ho|Ho].
  - apply Is_true_true in Ho. pose proof (run_step_left _ _ ev r r1 Ho Hs). cbn [length]. lia.
  - destruct ev; try done. cbn in Hs. unfold other_put in Hs. destruct (Packstore.Put _ _ _) as [[] s]; try done;
      injection Hs as <-; exact IH.
Qed.

(** What a run that ended without error did. *)
Lemma run_finished_ok r : run_inv r → finished r = true → r_err r = None →
  ∃ c objs, store_inv c r ∧ seq0 = inl <$> objs ∧ (∀ o, o ∈ objs → obj_key o ∈ dom c) ∧
    zlen objs = Stored (r_stats r) + Deduped (r_stats r).
Proof.
  intros ((c & Hst & S & HS & _ & Hf) & (_ & _ & _ & Hex & Hrest & Hne) & _) Hfin Hn.
  apply andb_prop in Hfin as [Hp Hall]. apply negb_true_iff in Hp. apply Is_true_true, forallb_True in Hall.
  destruct (Hf Hn) as (Hcov & sent & done & Hsent & Hperm & Hlen & Hdone).
  assert (inflight r = [] ∧ claimed r = []) as [Hi Hc].
  { unfold inflight, claimed. clear - Hall. induction Hall as [|w ws Hw _ [IH1 IH2]]; [done|]. cbn. rewrite IH1, IH2.
    unfold exited, pc_obj, pc_claim in *. by destruct (w_pc w). }
  assert (r_ch r = []) as Hch.
  { destruct (r_workers r) as [|w ws] eqn:Hws; [done|]. apply Hex; [done|]. exists w. split; [left|].
    apply Forall_cons in Hall as [? _]. by apply Is_true_true. }
  rewrite (Hrest Hn Hp), app_nil_r in Hsent. rewrite Hch, Hi, ?app_nil_r in Hperm.
  exists c, sent. split_and!; [done|done| |by rewrite Hperm].
  intros o. rewrite Hperm. intros [?|Hin]%Hdone%Hcov; [done|]. rewrite Hc in Hin. by apply elem_of_nil in Hin.
Qed.
End invariant.

(** ** What the parallel writer promises *)
Section spec.
Context `{Blake3} `{Fuse} `{Zstd} `{ItemInv}.

(** The objects of other writers in an execution. *)
Definition others_in (sched : list event) (o : Object) : Prop := Other o ∈ sched.

Lemma allowed_in sched : Forall (allowed (others_in sched)) sched.
Proof. apply Forall_forall. by intros [| |o] Hin. Qed.

Lemma WriteParallel_spec procs sched seq opts s c :
  contents s c → closed s = false → (0 < writers_of procs opts)%nat →
  (∀ o, inl o ∈ seq → storable (wo_Verify opts) o) → (∀ o, put_by_others (others_in sched) o) →
  let '(x, s') := WriteParallel procs sched seq opts s in
  x = Diverge ∨ ∃ stats err c', x = Ok (stats, err) ∧ contents s' c' ∧ closed s' = false ∧ dom c ⊆ dom c' ∧
    (∀ k d, c' !! k = Some d → source c seq (wo_Verify opts) (others_in sched) k d) ∧
    (err = None → ∃ objs, seq = inl <$> objs ∧ (∀ o, o ∈ objs → obj_key o ∈ dom c') ∧
                          zlen objs = Stored stats + Deduped stats) ∧
    (smooth seq (wo_Verify opts) (others_in sched) → quiet s → failed s = None → err = None ∧ quiet s' ∧ failed s' = None).
Proof.
  intros Hcs Hc Hn Hseq Ho. unfold WriteParallel.
  set (fair := smooth seq (wo_Verify opts) (others_in sched) ∧ quiet s ∧ failed s = None).
  assert (fair → smooth seq (wo_Verify opts) (others_in sched)) as Hfair by (by intros [? _]).
  pose proof (run_events_inv c seq (wo_Verify opts) _ Hseq Ho fair Hfair procs opts sched (run_start (writers_of procs opts) seq s)
    eq_refl (allowed_in sched)) as Hrun.
  specialize (Hrun ltac:(by apply run_start_inv; [..|intros [_ ?]])).
  destruct (run_events _ _ _ _) as [r|e| |]; try by left. destruct (finished r) eqn:Hfin; [|by left].
  assert (∃ c1, store_inv c seq (wo_Verify opts) (others_in sched) c1 r ∧ (r_err r = None →
    ∃ objs, seq = inl <$> objs ∧ (∀ o, o ∈ objs → obj_key o ∈ dom c1) ∧ zlen objs = Stored (r_stats r) + Deduped (r_stats r)))
    as (c1 & (Hcs1 & Hc1 & Hd & Hsrc) & Hobjs).
  { destruct (r_err r) eqn:He; [destruct Hrun as ((c1 & Hst & _) & _); by exists c1|].
    destruct (run_finished_ok _ _ _ _ _ r Hrun Hfin He) as (c1 & objs & Hst & ? & ? & ?). exists c1. split; [done|]. by exists objs. }
  pose proof Hrun as (_ & _ & Hg).
  pose proof (syncActive_spec (r_store r) c1 Hcs1) as Hsy. unfold wp in Hsy. destruct (syncActive (r_store r)) as [serr s'].
  cbn [fst snd] in Hsy. destruct Hsy as (Hcs' & Hb & Hs & Hq). right. eexists _, _, c1. split_and!; try done.
  - unfold base in Hb. cbn in *. congruence.
  - destruct (r_err r); [done|]. intros _. by apply Hobjs.
  - intros Hsm Hqs Hfs. destruct (Hg (conj Hsm (conj Hqs Hfs))) as (-> & Hq' & Hf').
    by destruct (Hq Hq' Hc1 Hf') as (-> & ? & ?).
Qed.

(** C27. The parallel writer stores the stream, whatever the interleaving of its
    goroutines and of other writers and whatever system call fails: it never
    panics, loses no stored key, and adds only objects of the stream (that were
    verified, if asked for) and of the others; when it reports no error every
    object of the stream is stored and counted once; when nothing can fail it
    reports no error and leaves the store working. *)
Theorem WriteParallel_refines procs sched seq opts s c :
  contents s c → closed s = false → (0 < writers_of procs opts)%nat →
  (∀ o, inl o ∈ seq → storable (wo_Verify opts) o) → (∀ o, put_by_others (others_in sched) o) →
  let '(x, s') := WriteParallel procs sched seq opts s in
  x = Diverge ∨ ∃ stats err c', x = Ok (stats, err) ∧ contents s' c' ∧ closed s' = false ∧ dom c ⊆ dom c' ∧
    (∀ k d, c' !! k = Some d → source c seq (wo_Verify opts) (others_in sched) k d) ∧
    (err = None → ∃ objs, seq = inl <$> objs ∧ (∀ o, o ∈ objs → obj_key o ∈ dom c') ∧
                          zlen objs = Stored stats + Deduped stats) ∧
    (smooth seq (wo_Verify opts) (others_in sched) → quiet s → failed s = None → err = None ∧ quiet s' ∧ failed s' = None).
Proof. exact (WriteParallel_spec procs sched seq opts s c). Qed.

Lemma WriteParallel_ends procs sched seq opts s c r :
  contents s c → closed s = false → (0 < writers_of procs opts)%nat →
  (∀ o, inl o ∈ seq → storable (wo_Verify opts) o) → (∀ o, put_by_others (others_in sched) o) →
  run_events procs opts sched (run_start (writers_of procs opts) seq s) = Ok r →
  (length (filter own sched) ≤ 9 * length seq + 1 + writers_of procs opts)%nat ∧
  ∃ sched' x s', forallb own sched' = true ∧ WriteParallel procs (sched ++ sched') seq opts s = (Ok x, s').
Proof.
  intros Hcs Hc Hn Hseq Ho Hrun.
  assert (run_inv c seq (wo_Verify opts) (others_in sched) False (run_start (writers_of procs opts) seq s)) as Hinv
    by (by apply run_start_inv).
  pose proof (run_events_inv c seq (wo_Verify opts) _ Hseq Ho False ltac:(done) procs opts sched _ eq_refl (allowed_in sched) Hinv) as Hr.
  rewrite Hrun in Hr. split.
  - pose proof (run_events_left c seq _ _ Hseq Ho False ltac:(done) procs opts sched _ r eq_refl Hrun (allowed_in sched) Hinv) as Hl.
    unfold steps_left in Hl. cbn in Hl. rewrite sum_recv in Hl. lia.
  - destruct (run_completes c seq _ _ Hseq Ho False ltac:(done) procs opts r Hn eq_refl Hr) as (sched' & r' & Hown & Hrun' & _ & Hfin).
    exists sched'. unfold WriteParallel, run_events in *. rewrite foldR_app, Hrun. cbn [mbind result_bind]. rewrite Hrun', Hfin.
    destruct (syncActive (r_store r')) as [serr s'] eqn:Es. eexists _, s'. split; [done|reflexivity].
Qed.

(** C29. The parallel writer terminates: in no execution do its goroutines take more
    steps than are bounded by the length of the stream and the number of writers,
    and whatever they and others have done so far, they can still take steps that
    end the run: there is no deadlock. *)
Theorem WriteParallel_terminates procs sched seq opts s c r :
  contents s c → closed s = false → (0 < writers_of procs opts)%nat →
  (∀ o, inl o ∈ seq → storable (wo_Verify opts) o) → (∀ o, put_by_others (others_in sched) o) →
  run_events procs opts sched (run_start (writers_of procs opts) seq s) = Ok r →
  (length (filter own sched) ≤ 9 * length seq + 1 + writers_of procs opts)%nat ∧
  ∃ sched' x s', forallb own sched' = true ∧ WriteParallel procs (sched ++ sched') seq opts s = (Ok x, s').
Proof. exact (WriteParallel_ends procs sched seq opts s c r). Qed.
End spec.

(** ** Applications *)
Section examples.
#[local] Existing Instance fuse_example.
#[local] Existing Instance zstd_example.
#[local] Existing Instance blake3_example.
#[local] Existing Instance PackstoreSpec.inv_example.

(** One writer, and the same object twice. *)
Definition stream_example : list (Object + error) := replicate 2 (inl (mkObject key_example payload_example)).
Definition wopts_example : WriteOpts := mkWriteOpts 1 0 false.
Definition sched_example : list event := replicate 3 (Distribute false) ++ replicate 10 (Work 0 false).

Lemma stream_storable o : inl o ∈ stream_example → storable (wo_Verify wopts_example) o.
Proof.
  intros [[= ->] _]%elem_of_replicate. split; [vm_compute; reflexivity|done].
Qed.

Lemma no_others o : put_by_others (others_in sched_example) o.
Proof. intros [Hin|Hin]%elem_of_app; by apply elem_of_replicate in Hin as [? _]. Qed.

Lemma WriteParallel_refines_witness :
  ∃ s' c', WriteParallel 4 sched_example stream_example wopts_example empty_example = (Ok (mkStats 1 1 20, None), s') ∧
    contents s' c' ∧ key_example ∈ dom c'.
Proof.
  pose proof (WriteParallel_refines 4 sched_example stream_example wopts_example empty_example ∅ empty_contents eq_refl
    ltac:(vm_compute; lia) stream_storable no_others) as Hw.
  assert (fst (WriteParallel 4 sched_example stream_example wopts_example empty_example) = Ok (mkStats 1 1 20, None)) as Hx
    by (vm_compute; reflexivity).
  destruct (WriteParallel _ _ _ _ _) as [x s']. cbn [fst] in Hx. subst x.
  destruct Hw as [|(stats & err & c' & [= <- <-] & Hcs & _ & _ & _ & Hok & _)]; [done|].
  destruct (Hok eq_refl) as (objs & Hobjs & Hin & _). exists s', c'. split_and!; [done|done|].
  apply (Hin (mkObject key_example payload_example)). destruct objs as [|o objs]; [done|]. injection Hobjs as <- _. left.
Defined.

Lemma WriteParallel_terminates_witness :
  ∃ sched' x s', forallb own sched' = true ∧
    WriteParallel 4 (take 5 sched_example ++ sched') stream_example wopts_example empty_example = (Ok x, s').
Proof.
  destruct (run_events 4 wopts_example (take 5 sched_example) (run_start (writers_of 4 wopts_example) stream_example empty_example))
    as [r|e| |] eqn:Hr; [|vm_compute in Hr; discriminate..].
  apply (WriteParallel_terminates 4 (take 5 sched_example) stream_example wopts_example empty_example ∅ r empty_contents eq_refl
    ltac:(vm_compute; lia) stream_storable); [|exact Hr].
  intros o Hin. apply no_others. unfold others_in in *. eapply elem_of_submseteq; [exact Hin|]. apply sublist_submseteq, sublist_take.
Defined.
End examples.
