(* ===== verification/Text.v ===== *)
(** * Text encodings of the Go standard library

    [encoding/base64] ([StdEncoding]), [encoding/hex], decimal integers of
    [strconv] and [strings.TrimSpace], over byte strings. *)

From Stdlib Require Import Init.Byte.
From S2P Require Import Prelude Machine.
From Stdlib Require Import ZifyBool ZifyNat.
Local Open Scope Z_scope.

(** ** base64 *)

(** A character of the alphabet for 0..63. *)
Definition b64_char (n : Z) : byte :=
  if n <? 26 then z2b (65 + n) else
  if n <? 52 then z2b (71 + n) else
  if n <? 62 then z2b (n - 4) else
  if n =? 62 then x2b else x2f.

Definition b64_val (c : byte) : option Z :=
  let x := b2z c in
  if (65 <=? x) && (x <=? 90) then Some (x - 65) else
  if (97 <=? x) && (x <=? 122) then Some (x - 71) else
  if (48 <=? x) && (x <=? 57) then Some (x + 4) else
  if x =? 43 then Some 62 else
  if x =? 47 then Some 63 else None.

Definition pad : byte := x3d.

Fixpoint b64_EncodeToString (b : bytes) : bytes :=
  match b with
  | [] => []
  | [x] => let x := b2z x in [b64_char (x / 4); b64_char (x mod 4 * 16); pad; pad]
  | [x; y] =>
      let x := b2z x in let y := b2z y in
      [b64_char (x / 4); b64_char (x mod 4 * 16 + y / 16); b64_char (y mod 16 * 4); pad]
  | x :: y :: z :: b =>
      let x := b2z x in let y := b2z y in let z := b2z z in
      b64_char (x / 4) :: b64_char (x mod 4 * 16 + y / 16) :: b64_char (y mod 16 * 4 + z / 64) ::
      b64_char (z mod 64) :: b64_EncodeToString b
  end.

Definition ErrBase64 : string := "illegal base64 data at input byte %d".

(** Groups of four characters; padding may only close the last one. *)
Fixpoint b64_quads (s : bytes) : result bytes :=
  match s with
  | [] => Ok []
  | c0 :: c1 :: c2 :: c3 :: s =>
      match b64_val c0, b64_val c1, b64_val c2, b64_val c3 with
      | Some a, Some b, Some c, Some d =>
          rest ← b64_quads s;
          Ok (z2b (a * 4 + b / 16) :: z2b (b mod 16 * 16 + c / 4) :: z2b (c mod 4 * 64 + d) :: rest)
      | Some a, Some b, Some c, None =>
          if bool_decide (c3 = pad) && bool_decide (s = [])
          then Ok [z2b (a * 4 + b / 16); z2b (b mod 16 * 16 + c / 4)] else Err (errors_New ErrBase64)
      | Some a, Some b, None, None =>
          if bool_decide (c2 = pad) && bool_decide (c3 = pad) && bool_decide (s = [])
          then Ok [z2b (a * 4 + b / 16)] else Err (errors_New ErrBase64)
      | _, _, _, _ => Err (errors_New ErrBase64)
      end
  | _ => Err (errors_New ErrBase64)
  end.

(** Line breaks are ignored. *)
Definition b64_DecodeString (s : bytes) : result bytes :=
  b64_quads (filter (λ c, c ≠ x0a ∧ c ≠ x0d) s).

(** ** Decimal integers *)
Definition digit_val (c : byte) : option Z :=
  let x := b2z c in if (48 <=? x) && (x <=? 57) then Some (x - 48) else None.

(** [strconv.ParseUint(s, 10, 64)] on the digits, without its range check. *)
Fixpoint digits_val (s : bytes) (acc : Z) : option Z :=
  match s with
  | [] => Some acc
  | c :: s => d ← digit_val c; digits_val s (acc * 10 + d)
  end.

Definition ErrSyntax : string := "invalid syntax".
Definition ErrRange : string := "value out of range".

Definition ParseInt (s : bytes) : result Z :=
  let '(neg, ds) := match s with
                    | c :: t => if bool_decide (c = x2d) then (true, t) else if bool_decide (c = x2b) then (false, t) else (false, s)
                    | [] => (false, [])
                    end in
  if (length ds =? 0)%nat then Err (errors_New ErrSyntax) else
  match digits_val ds 0 with
  | None => Err (errors_New ErrSyntax)
  | Some v =>
      if neg : bool then if v >? 2 ^ 63 then Err (errors_New ErrRange) else Ok (- v)
      else if v >=? 2 ^ 63 then Err (errors_New ErrRange) else Ok v
  end.

(** The decimal digits of [z], least significant last; [fuel] digits at most. *)
Fixpoint dec_digits (fuel : nat) (z : Z) (acc : bytes) : bytes :=
  match fuel with
  | O => acc
  | S fuel =>
      let acc := z2b (48 + z mod 10) :: acc in
      if z / 10 =? 0 then acc else dec_digits fuel (z / 10) acc
  end.

Definition FormatInt (z : Z) : bytes :=
  if z <? 0 then x2d :: dec_digits 20 (- z) [] else dec_digits 20 z [].

(** ** Facts *)
Lemma b64_val_char n : 0 <= n < 64 → b64_val (b64_char n) = Some n.
Proof.
  intros Hn. unfold b64_char.
  destruct (n <? 26) eqn:E1; [|destruct (n <? 52) eqn:E2; [|destruct (n <? 62) eqn:E3; [|destruct (n =? 62) eqn:E4]]];
    unfold b64_val; rewrite ?b2z_z2b, ?Z.mod_small by lia.
  - by replace ((65 <=? 65 + n) && (65 + n <=? 90)) with true by lia; f_equal; lia.
  - replace ((65 <=? 71 + n) && (71 + n <=? 90)) with false by lia.
    by replace ((97 <=? 71 + n) && (71 + n <=? 122)) with true by lia; f_equal; lia.
  - replace ((65 <=? n - 4) && (n - 4 <=? 90)) with false by lia.
    replace ((97 <=? n - 4) && (n - 4 <=? 122)) with false by lia.
    by replace ((48 <=? n - 4) && (n - 4 <=? 57)) with true by lia; f_equal; lia.
  - replace n with 62 by lia. reflexivity.
  - replace n with 63 by lia. reflexivity.
Qed.

Lemma b64_char_plain n : 0 <= n < 64 → b64_char n ≠ x0a ∧ b64_char n ≠ x0d.
Proof.
  intros Hn%b64_val_char. split; intros Heq; rewrite Heq in Hn; vm_compute in Hn; discriminate.
Qed.

(** The four sextets of three bytes. *)
Lemma sextets x y z : let x := b2z x in let y := b2z y in let z := b2z z in
  (0 <= x / 4 < 64 ∧ 0 <= x mod 4 * 16 < 64) ∧ (0 <= x mod 4 * 16 + y / 16 < 64 ∧ 0 <= y mod 16 * 4 < 64) ∧
  (0 <= y mod 16 * 4 + z / 64 < 64 ∧ 0 <= z mod 64 < 64).
Proof.
  pose proof (b2z_range x). pose proof (b2z_range y). pose proof (b2z_range z). cbv zeta.
  split_and!; Z.to_euclidean_division_equations; lia.
Qed.

Lemma join1 x y : x / 4 * 4 + (x mod 4 * 16 + y / 16) / 16 = x ∨ ¬ (0 <= y < 256).
Proof. destruct (decide (0 <= y < 256)); [left|by right]. Z.to_euclidean_division_equations; lia. Qed.
Lemma join2 x y z : 0 <= y < 256 → 0 <= z < 256 →
  (x mod 4 * 16 + y / 16) mod 16 * 16 + (y mod 16 * 4 + z / 64) / 4 = y.
Proof. intros. Z.to_euclidean_division_equations; lia. Qed.
Lemma join3 y z : 0 <= z < 256 → (y mod 16 * 4 + z / 64) mod 4 * 64 + z mod 64 = z.
Proof. intros. Z.to_euclidean_division_equations; lia. Qed.

Lemma b64_plain_all b : Forall (λ c, c ≠ x0a ∧ c ≠ x0d) (b64_EncodeToString b).
Proof.
  remember (length b) as n eqn:En. revert b En. induction n as [n IH] using lt_wf_ind. intros b ->.
  destruct b as [|x [|y [|z b]]]; cbn [b64_EncodeToString].
  - constructor.
  - destruct (sextets x x x) as (? & _ & _). repeat (constructor; [by (apply b64_char_plain; tauto) || done|]). constructor.
  - destruct (sextets x y y) as ([? _] & ? & _). repeat (constructor; [by (apply b64_char_plain; tauto) || done|]). constructor.
  - destruct (sextets x y z) as ([? _] & [? _] & ?). repeat (constructor; [by (apply b64_char_plain; tauto)|]).
    eapply IH; [|done]. simpl. lia.
Qed.

Lemma b64_quads_encode b : b64_quads (b64_EncodeToString b) = Ok b.
Proof.
  remember (length b) as n eqn:En. revert b En. induction n as [n IH] using lt_wf_ind. intros b ->.
  destruct b as [|x [|y [|z b]]]; cbn [b64_EncodeToString b64_quads]; [done|..].
  - destruct (sextets x x x) as ([H1 H2] & _ & _). rewrite !b64_val_char by done.
    change (b64_val pad) with (@None Z). cbn -[z2b Z.div Z.modulo Z.mul Z.add]. do 2 f_equal.
    rewrite <- (z2b_b2z x) at 3. f_equal. pose proof (b2z_range x). Z.to_euclidean_division_equations; lia.
  - destruct (sextets x y y) as ([H1 _] & [H2 H3] & _). rewrite !b64_val_char by done.
    change (b64_val pad) with (@None Z). cbn -[z2b Z.div Z.modulo Z.mul Z.add]. do 2 f_equal; [|f_equal].
    + rewrite <- (z2b_b2z x) at 3. f_equal. pose proof (b2z_range x). pose proof (b2z_range y).
      Z.to_euclidean_division_equations; lia.
    + rewrite <- (z2b_b2z y) at 3. f_equal. pose proof (b2z_range x). pose proof (b2z_range y).
      Z.to_euclidean_division_equations; lia.
  - destruct (sextets x y z) as ([H1 _] & [H2 _] & [H3 H4]). rewrite !b64_val_char by done.
    rewrite (IH (length b)); [|simpl; lia|done]. cbn -[z2b Z.div Z.modulo Z.mul Z.add].
    pose proof (b2z_range x). pose proof (b2z_range y). pose proof (b2z_range z).
    rewrite join2, join3, !z2b_b2z by done. destruct (join1 (b2z x) (b2z y)) as [->|]; [|done]. by rewrite z2b_b2z.
Qed.

(** base64 round trip. *)
Lemma b64_Decode_Encode b : b64_DecodeString (b64_EncodeToString b) = Ok b.
Proof.
  unfold b64_DecodeString. rewrite filter_all; [apply b64_quads_encode|].
  intros c Hc. pose proof (b64_plain_all b) as Hall. rewrite Forall_forall in Hall. auto.
Qed.

Lemma b64_quads_safe s : safe (b64_quads s).
Proof.
  remember (length s) as n eqn:En. revert s En. induction n as [n IH] using lt_wf_ind. intros s ->.
  destruct s as [|c0 [|c1 [|c2 [|c3 s]]]]; cbn [b64_quads]; try by split.
  repeat case_match; try by split. apply safe_bind; [|intros; by split]. eapply IH; [|done]. simpl. lia.
Qed.

Lemma b64_Decode_safe s : safe (b64_DecodeString s).
Proof. apply b64_quads_safe. Qed.

(** *** Decimals *)
Lemma digits_val_app a b acc : digits_val (a ++ b) acc = digits_val a acc ≫= digits_val b.
Proof.
  revert acc. induction a as [|c a IH]; intros acc; [done|]. simpl. destruct (digit_val c); [apply IH|done].
Qed.

Lemma digit_val_char d : 0 <= d < 10 → digit_val (z2b (48 + d)) = Some d.
Proof.
  intros Hd. unfold digit_val. rewrite b2z_z2b, Z.mod_small by lia.
  replace ((48 <=? 48 + d) && (48 + d <=? 57)) with true by lia. f_equal. lia.
Qed.

(** Reading the digits in front of [acc] gives [z] as the value so far. *)
Lemma dec_digits_val fuel z acc : 0 <= z < 10 ^ Z.of_nat fuel → (0 < fuel)%nat →
  digits_val (dec_digits fuel z acc) 0 = digits_val acc z.
Proof.
  revert z acc. induction fuel as [|fuel IH]; intros z acc Hz Hf; [lia|]. cbn [dec_digits].
  pose proof (Z.mod_pos_bound z 10 ltac:(lia)) as Hm. pose proof (Z.div_mod z 10 ltac:(lia)) as Hdm.
  destruct (z / 10 =? 0) eqn:E.
  - cbn [digits_val]. rewrite digit_val_char by lia. simpl. f_equal. lia.
  - rewrite Nat2Z.inj_succ, Z.pow_succ_r in Hz by lia. assert (0 < z / 10 < 10 ^ Z.of_nat fuel) as Hq.
    { split; [pose proof (Z.div_pos z 10); lia|apply Z.div_lt_upper_bound; lia]. }
    destruct fuel as [|fuel]; [simpl in Hq; lia|]. rewrite IH by lia. cbn [digits_val]. rewrite digit_val_char by lia.
    simpl. f_equal. lia.
Qed.

Lemma dec_digits_first fuel z acc : (0 < fuel)%nat → ∃ d t, dec_digits fuel z acc = z2b (48 + d) :: t ∧ 0 <= d < 10.
Proof.
  revert z acc. induction fuel as [|fuel IH]; intros z acc Hf; [lia|]. cbn [dec_digits].
  destruct (z / 10 =? 0); [|destruct fuel as [|fuel]; [|apply IH; lia]];
    (eexists _, _; split; [reflexivity|apply Z.mod_pos_bound; lia]).
Qed.

(** Decimal round trip on 64-bit integers. *)
Lemma ParseInt_FormatInt z : - 2 ^ 63 <= z < 2 ^ 63 → ParseInt (FormatInt z) = Ok z.
Proof.
  intros Hz. unfold FormatInt. destruct (z <? 0) eqn:E.
  - unfold ParseInt. rewrite bool_decide_eq_true_2 by done.
    destruct (dec_digits_first 20 (- z) []) as (d & t & Hd & _); [lia|]. rewrite Hd at 1. cbn [length Nat.eqb].
    rewrite dec_digits_val by (simpl; lia). cbn [digits_val].
    replace (- z >? 2 ^ 63) with false by lia. f_equal. lia.
  - destruct (dec_digits_first 20 z []) as (d & t & Hd & Hr); [lia|]. unfold ParseInt. rewrite Hd.
    assert (∀ c, digit_val c = None → z2b (48 + d) ≠ c) as Hne.
    { intros c Hc <-. by rewrite digit_val_char in Hc. }
    rewrite !bool_decide_eq_false_2 by (by apply Hne). cbn [length Nat.eqb]. rewrite <- Hd.
    rewrite dec_digits_val by (simpl; lia). cbn [digits_val]. by replace (z >=? 2 ^ 63) with false by lia.
Qed.

Lemma ParseInt_safe s : safe (ParseInt s).
Proof. unfold ParseInt. repeat case_match; by split. Qed.

Lemma ParseInt_range s z : ParseInt s = Ok z → - 2 ^ 63 <= z < 2 ^ 63.
Proof.
  unfold ParseInt. destruct (match s with [] => _ | _ => _ end) as [neg ds]. case_match; [done|].
  destruct (digits_val ds 0) as [v|] eqn:Hv; [|done].
  assert (∀ s acc v, 0 <= acc → digits_val s acc = Some v → 0 <= v) as Hpos.
  { clear. induction s as [|c s IH]; intros acc v Ha; simpl; [by intros [= <-]|].
    unfold digit_val. destruct (_ && _) eqn:E; [|done]. simpl. apply IH. lia. }
  specialize (Hpos ds 0 v ltac:(lia) Hv). destruct neg; case_match; intros [= <-]; lia.
Qed.
