(* ===== verification/Sshsign.v ===== *)
(** * Package [sshsign]: SSHSIG signatures ([sshsign.go])

    The formats and the cryptography are those of the libraries [sshsig] and
    [ssh], which the class [SshSig] stands for.  Loading keys from files and
    agents is in Commands.v. *)

From Stdlib Require Import Init.Byte.
From S2P Require Import Prelude Machine FsEncode Instances.
Local Open Scope Z_scope.

Class SshSig := {
  Signature : Type;                              (* sshsig.Signature *)
  sig_PublicKey : Signature → bytes;             (* sig.PublicKey.Marshal() *)
  sig_HashAlgorithm : Signature → string;
  ParseSignature : bytes → result Signature;
  sig_Marshal : Signature → bytes;
  (* sshsig.Verify(message, sig, key, hash, namespace) *)
  sshsig_Verify : bytes → Signature → bytes → string → string → result unit;
  Signer : Type;                                 (* ssh.Signer *)
  signer_PublicKey : Signer → bytes;             (* signer.PublicKey().Marshal() *)
  (* sshsig.Sign(message, signer, hash, namespace) *)
  sshsig_Sign : bytes → Signer → string → string → result Signature;
}.

(** The library's contract: calls return; a signature survives its encoding and
    verifies under the key and namespace it was made with. *)
Class SshSigLaws `{SshSig} := {
  ParseSignature_safe b : safe (ParseSignature b);
  sshsig_Verify_safe p s k h ns : safe (sshsig_Verify p s k h ns);
  sshsig_Sign_safe p k h ns : safe (sshsig_Sign p k h ns);
  Parse_Marshal s : ParseSignature (sig_Marshal s) = Ok s;
  Sign_PublicKey p k h ns s : sshsig_Sign p k h ns = Ok s → sig_PublicKey s = signer_PublicKey k;
  Sign_Verify p k h ns s : sshsig_Sign p k h ns = Ok s →
    sshsig_Verify p s (sig_PublicKey s) (sig_HashAlgorithm s) ns = Ok tt;
}.

Section sshsign.
Context `{SshSig}.

Definition RefNamespace : string := "amber-store-ref".
Definition HashSHA512 : string := "sha512".

Definition SignNamespace (signer : Signer) (payload : bytes) (namespace : string) : result bytes :=
  sig ← wrap "signing" (sshsig_Sign payload signer HashSHA512 namespace);
  Ok (sig_Marshal sig).

Definition SignWith (signer : Signer) (payload : bytes) : result bytes := SignNamespace signer payload RefNamespace.

Definition VerifyNamespace (payload blob pubWire : bytes) (namespace : string) : result bytes :=
  sig ← wrap "parsing signature" (ParseSignature blob);
  if negb (bool_decide (sig_PublicKey sig = pubWire))
  then Err (errors_New "recorded public key differs from the signature's") else
  _ ← sshsig_Verify payload sig (sig_PublicKey sig) (sig_HashAlgorithm sig) namespace;
  Ok (sig_PublicKey sig).

Definition Verify (payload blob pubWire : bytes) : result bytes := VerifyNamespace payload blob pubWire RefNamespace.

(** [blob] is a signature over [payload] in [ns] by the key [pk]. *)
Definition signed_by (pk payload blob : bytes) (ns : string) : Prop :=
  ∃ sig, ParseSignature blob = Ok sig ∧ sig_PublicKey sig = pk ∧
         sshsig_Verify payload sig pk (sig_HashAlgorithm sig) ns = Ok tt.

Lemma VerifyNamespace_Ok payload blob pk ns k :
  VerifyNamespace payload blob pk ns = Ok k ↔ k = pk ∧ signed_by pk payload blob ns.
Proof.
  unfold VerifyNamespace, signed_by. split.
  - intros (sig & Hp%wrap_Ok & Hr)%bind_Ok. case_bool_decide as Hk; [|done]. cbn [negb] in Hr.
    apply bind_Ok in Hr as ([] & Hv & [= <-]). subst pk. split; [done|]. by exists sig.
  - intros (-> & sig & Hp & Hk & Hv). rewrite Hp. cbn. rewrite bool_decide_eq_true_2 by done. cbn. by rewrite Hk, Hv.
Qed.

Context `{!SshSigLaws}.

Lemma VerifyNamespace_safe payload blob pk ns : safe (VerifyNamespace payload blob pk ns).
Proof.
  unfold VerifyNamespace. apply safe_bind; [apply safe_wrap, ParseSignature_safe|intros sig _].
  case_if; [by split|]. apply safe_bind; [apply sshsig_Verify_safe|by intros].
Qed.

(** What is signed verifies. *)
Lemma Verify_Sign signer payload ns blob : SignNamespace signer payload ns = Ok blob →
  VerifyNamespace payload blob (signer_PublicKey signer) ns = Ok (signer_PublicKey signer).
Proof.
  intros (sig & Hs%wrap_Ok & [= <-])%bind_Ok. apply VerifyNamespace_Ok. split; [done|]. exists sig.
  split_and!; [apply Parse_Marshal|by eapply Sign_PublicKey|].
  erewrite <- Sign_PublicKey by done. by eapply Sign_Verify.
Qed.
End sshsign.

(** ** A signature scheme for examples: a signature names all that it covers *)
Section example.
Definition ns_bytes (s : string) : bytes := String.list_byte_of_string s.

Definition put_sig (s : bytes * bytes * bytes) : bytes := put_bytes s.1.1 ++ put_bytes s.1.2 ++ put_bytes s.2.
Definition get_sig (b : bytes) : result (bytes * bytes * bytes) :=
  match '(k, b) ← get_bytes b; '(ns, b) ← get_bytes b; '(p, b) ← get_bytes b; Some (k, ns, p, b) with
  | Some (k, ns, p, []) => Ok (k, ns, p)
  | _ => Err (errors_New "sshsig: malformed")
  end.

Definition sshsig_example : SshSig := {|
  Signature := bytes * bytes * bytes;
  sig_PublicKey s := s.1.1;
  sig_HashAlgorithm _ := HashSHA512;
  ParseSignature := get_sig;
  sig_Marshal := put_sig;
  sshsig_Verify p s k _ ns := if bool_decide (s = (k, ns_bytes ns, p)) then Ok tt else Err (errors_New "sshsig: bad signature");
  Signer := bytes;
  signer_PublicKey k := k;
  sshsig_Sign p k _ ns := Ok (k, ns_bytes ns, p);
|}.

Lemma sshsig_example_laws : @SshSigLaws sshsig_example.
Proof.
  split; cbn.
  - intros b. unfold get_sig. by repeat case_match.
  - intros. case_if; by split.
  - by intros.
  - intros [[k ns] p]. unfold get_sig, put_sig. cbn [fst snd]. do 2 (rewrite get_put_bytes; cbn [mbind option_bind]).
    rewrite <- (app_nil_r (put_bytes p)), get_put_bytes. done.
  - by intros p k h ns s [= <-].
  - intros p k h ns s [= <-]. cbn. by rewrite bool_decide_eq_true_2.
Qed.
End example.
