(* ===== verification/Reference.v ===== *)
(** * Package [reference]: the named-pointer record

    A reference is a name, the key it points to, who made it and when, and an
    optional signature.  The deterministic CBOR codec of the record is the class
    [RefCbor]. *)

From Stdlib Require Import Init.Byte.
From S2P Require Import Prelude Machine Key FsEncode Instances Sshsign.
From Stdlib Require Import ZifyBool ZifyNat.
Local Open Scope Z_scope.

Definition MaxNameLen : Z := 1024.
Definition MaxUserLen : Z := 1024.
Definition MaxSignatureLen : Z := 64 * 2 ^ 10.
Definition MaxPublicKeyLen : Z := 16 * 2 ^ 10.

Record Reference := mkReference {
  ref_Name : bytes;
  ref_Key : bytes;
  ref_User : bytes;
  ref_CreatedAt : Z;
  ref_Signature : bytes;
  ref_PublicKey : bytes;
}.

#[export] Instance Reference_eq_dec : EqDecision Reference.
Proof. solve_decision. Defined.

(** ** UTF-8 ([utf8.ValidString] and [range] over a string) *)
Definition in_range (lo hi z : Z) : bool := (lo <=? z) && (z <=? hi).
Definition cont (b : byte) : bool := in_range 128 191 (b2z b).

(** What may follow the first byte of a sequence of three or four. *)
Definition second3 (x y : Z) : bool :=
  if x =? 224 then in_range 160 191 y else if x =? 237 then in_range 128 159 y else in_range 128 191 y.
Definition second4 (x y : Z) : bool :=
  if x =? 240 then in_range 144 191 y else if x =? 244 then in_range 128 143 y else in_range 128 191 y.

Fixpoint utf8_ValidString (s : bytes) : bool :=
  match s with
  | [] => true
  | b0 :: s1 =>
      let x := b2z b0 in
      if x <? 128 then utf8_ValidString s1
      else match s1 with
      | [] => false
      | b1 :: s2 =>
          if in_range 194 223 x then cont b1 && utf8_ValidString s2
          else match s2 with
          | [] => false
          | b2 :: s3 =>
              if in_range 224 239 x then second3 x (b2z b1) && cont b2 && utf8_ValidString s3
              else match s3 with
              | [] => false
              | b3 :: s4 =>
                  in_range 240 244 x && second4 x (b2z b1) && cont b2 && cont b3 && utf8_ValidString s4
              end
          end
      end
  end.

(** The runes of a string; a byte that starts no sequence is U+FFFD. *)
Definition RuneError : Z := 65533.
Fixpoint runes (s : bytes) : list Z :=
  match s with
  | [] => []
  | b0 :: s1 =>
      let x := b2z b0 in
      if x <? 128 then x :: runes s1
      else match s1 with
      | [] => [RuneError]
      | b1 :: s2 =>
          if in_range 194 223 x && cont b1 then ((x mod 32) * 64 + b2z b1 mod 64) :: runes s2
          else match s2 with
          | [] => RuneError :: runes s1
          | b2 :: s3 =>
              if in_range 224 239 x && second3 x (b2z b1) && cont b2
              then ((x mod 16) * 4096 + (b2z b1 mod 64) * 64 + b2z b2 mod 64) :: runes s3
              else match s3 with
              | [] => RuneError :: runes s1
              | b3 :: s4 =>
                  if in_range 240 244 x && second4 x (b2z b1) && cont b2 && cont b3
                  then ((x mod 8) * 262144 + (b2z b1 mod 64) * 4096 + (b2z b2 mod 64) * 64 + b2z b3 mod 64)
                       :: runes s4
                  else RuneError :: runes s1
              end
          end
      end
  end.

(** ** Validation *)
Fixpoint name_runes (rs : list Z) : result unit :=
  match rs with
  | [] => Ok tt
  | r :: rs =>
      if r =? 64 then Err (errors_New "reference name must not contain '@'") else
      if (r <? 32) || (r =? 127) then Err (errors_New "reference name must not contain control characters")
      else name_runes rs
  end.

Definition ValidateName (name : bytes) : result unit :=
  if (length name =? 0)%nat then Err (errors_New "reference name must not be empty") else
  if zlen name >? MaxNameLen then Err (errors_New "reference name exceeds %d bytes") else
  if negb (utf8_ValidString name) then Err (errors_New "reference name must be valid UTF-8") else
  name_runes (runes name).

Fixpoint user_runes (rs : list Z) : result unit :=
  match rs with
  | [] => Ok tt
  | r :: rs =>
      if (r <? 32) || (r =? 127) then Err (errors_New "user must not contain control characters")
      else user_runes rs
  end.

Definition ValidateUser (user : bytes) : result unit :=
  if (length user =? 0)%nat then Err (errors_New "user must not be empty") else
  if zlen user >? MaxUserLen then Err (errors_New "user exceeds %d bytes") else
  if negb (utf8_ValidString user) then Err (errors_New "user must be valid UTF-8") else
  user_runes (runes user).

Definition ref_validate (r : Reference) : result unit :=
  _ ← ValidateName (ref_Name r);
  _ ← wrap "reference key" (Parse (ref_Key r));
  _ ← (if (length (ref_User r) =? 0)%nat then Ok tt else wrap "reference user" (ValidateUser (ref_User r)));
  if zlen (ref_Signature r) >? MaxSignatureLen then Err (errors_New "reference signature exceeds %d bytes") else
  if zlen (ref_PublicKey r) >? MaxPublicKeyLen then Err (errors_New "reference public key exceeds %d bytes") else
  Ok tt.

(** ** The codec *)
Definition ref_wf (r : Reference) : Prop := - 2 ^ 63 <= ref_CreatedAt r < 2 ^ 63.

#[export] Instance ref_wf_dec r : Decision (ref_wf r).
Proof. unfold ref_wf. apply _. Defined.

Class RefCbor := {
  marshal_ref : Reference → result bytes;    (* encMode.Marshal(Reference) *)
  unmarshal_ref : bytes → result Reference;  (* cbor.Unmarshal *)
  marshal_ref_safe r : safe (marshal_ref r);
  unmarshal_ref_safe b : safe (unmarshal_ref b);
  (** a decoded record has the widths of the Go fields *)
  unmarshal_ref_wf b r : unmarshal_ref b = Ok r → ref_wf r;
  (** decoding inverts encoding; text strings must be UTF-8 *)
  unmarshal_marshal_ref r b :
    ref_wf r → utf8_ValidString (ref_Name r) = true → utf8_ValidString (ref_User r) = true →
    marshal_ref r = Ok b → unmarshal_ref b = Ok r;
}.

Section codec.
Context `{RefCbor}.

Definition Encode (r : Reference) : result bytes :=
  _ ← ref_validate r; marshal_ref r.

Definition Decode (b : bytes) : result Reference :=
  r ← wrap "decoding reference" (unmarshal_ref b);
  _ ← wrap "invalid reference" (ref_validate r);
  canonical ← wrap "re-encoding reference" (marshal_ref r);
  if negb (bool_decide (canonical = b)) then Err (errors_New "reference encoding is not canonical") else
  Ok r.

Definition unsigned (r : Reference) : Reference :=
  mkReference (ref_Name r) (ref_Key r) (ref_User r) (ref_CreatedAt r) [] (ref_PublicKey r).

Definition SignaturePayload (r : Reference) : result bytes := Encode (unsigned r).

Context `{SshSig}.

Definition DecodeVerified (raw : bytes) : result Reference :=
  rec ← Decode raw;
  if (length (ref_Signature rec) =? 0)%nat || (length (ref_PublicKey rec) =? 0)%nat
  then Err (errors_New "reference record is not signed") else
  payload ← SignaturePayload rec;
  _ ← wrap "reference signature does not verify" (Verify payload (ref_Signature rec) (ref_PublicKey rec));
  Ok rec.
End codec.

(** ** Names *)

(** In valid UTF-8 only the ASCII bytes are runes below 128. *)
Lemma cont_high b : cont b = true → 128 <= b2z b.
Proof. unfold cont, in_range. lia. Qed.

(** A test on runes that only ASCII can meet. *)
Definition plain (bad : Z → bool) : Prop := ∀ z, 128 <= z → bad z = false.

Lemma existsb_skip {A} (f : A → bool) x l : f x = false → existsb f (x :: l) = existsb f l.
Proof. intros Hx. simpl. by rewrite Hx. Qed.

(** Sequences of three and four bytes decode to runes above ASCII. *)
Lemma high3 x y z : in_range 224 239 x = true → second3 x y = true →
  128 <= y ∧ 128 <= (x mod 16) * 4096 + (y mod 64) * 64 + z mod 64.
Proof.
  unfold second3, in_range. intros Hx Hy.
  pose proof (Z.mod_pos_bound y 64). pose proof (Z.mod_pos_bound z 64).
  destruct (x =? 224) eqn:E.
  - split; [lia|]. replace x with 224 by lia. assert (y mod 64 = y - 128) by (Z.to_euclidean_division_equations; lia).
    change (224 mod 16) with 0. lia.
  - assert (x mod 16 = x - 224) by (Z.to_euclidean_division_equations; lia).
    split; [destruct (x =? 237); lia|lia].
Qed.

Lemma high4 x y z w : in_range 240 244 x = true → second4 x y = true →
  128 <= y ∧ 128 <= (x mod 8) * 262144 + (y mod 64) * 4096 + (z mod 64) * 64 + w mod 64.
Proof.
  unfold second4, in_range. intros Hx Hy.
  pose proof (Z.mod_pos_bound y 64). pose proof (Z.mod_pos_bound z 64). pose proof (Z.mod_pos_bound w 64).
  destruct (x =? 240) eqn:E.
  - split; [lia|]. replace x with 240 by lia. assert (y mod 64 = y - 128) by (Z.to_euclidean_division_equations; lia).
    change (240 mod 8) with 0. lia.
  - assert (x mod 8 = x - 240) by (Z.to_euclidean_division_equations; lia).
    split; [destruct (x =? 244); lia|lia].
Qed.

Lemma runes_bytes bad s : plain bad → utf8_ValidString s = true →
  existsb bad (runes s) = existsb (λ b, bad (b2z b)) s.
Proof.
  intros Hp. remember (length s) as n eqn:En. revert s En.
  induction n as [n IH] using lt_wf_ind. intros s -> Hv.
  destruct s as [|b0 s1]; [done|]. cbn [utf8_ValidString runes] in *.
  destruct (b2z b0 <? 128) eqn:E0.
  { simpl. f_equal. eapply IH; [|done|done]. simpl. lia. }
  assert (128 <= b2z b0) as H0 by lia.
  destruct s1 as [|b1 s2]; [done|]. destruct (in_range 194 223 (b2z b0)) eqn:E1.
  { apply andb_true_iff in Hv as [Hc Hv]. rewrite Hc. cbn [andb].
    pose proof (cont_high _ Hc). pose proof (Z.mod_pos_bound (b2z b1) 64).
    rewrite !existsb_skip by (apply Hp; unfold in_range in *; lia).
    eapply IH; [|done|done]. simpl. lia. }
  cbn [andb]. destruct s2 as [|b2 s3]; [done|]. destruct (in_range 224 239 (b2z b0)) eqn:E2.
  { rewrite !andb_true_iff in Hv. destruct Hv as [[Hs Hc] Hv]. rewrite Hs, Hc. cbn [andb].
    destruct (high3 _ _ (b2z b2) E2 Hs). pose proof (cont_high _ Hc).
    rewrite !existsb_skip by (apply Hp; lia).
    eapply IH; [|done|done]. simpl. lia. }
  cbn [andb]. destruct s3 as [|b3 s4]; [done|]. rewrite !andb_true_iff in Hv.
  destruct Hv as [[[[H4 Hs] Hc] Hc'] Hv]. rewrite H4, Hs, Hc, Hc'. cbn [andb].
  destruct (high4 _ _ (b2z b2) (b2z b3) H4 Hs). pose proof (cont_high _ Hc). pose proof (cont_high _ Hc').
  rewrite !existsb_skip by (apply Hp; lia).
  eapply IH; [|done|done]. simpl. lia.
Qed.

Definition bad_name (z : Z) : bool := (z =? 64) || (z <? 32) || (z =? 127).
Definition bad_user (z : Z) : bool := (z <? 32) || (z =? 127).

Lemma plain_name : plain bad_name.
Proof. intros z Hz. unfold bad_name. lia. Qed.
Lemma plain_user : plain bad_user.
Proof. intros z Hz. unfold bad_user. lia. Qed.

Lemma name_runes_Ok rs : name_runes rs = Ok tt ↔ existsb bad_name rs = false.
Proof.
  induction rs as [|r rs IH]; [done|]. cbn [name_runes existsb]. unfold bad_name at 1.
  destruct (r =? 64); [by split|]. destruct (r <? 32), (r =? 127); done.
Qed.

Lemma user_runes_Ok rs : user_runes rs = Ok tt ↔ existsb bad_user rs = false.
Proof.
  induction rs as [|r rs IH]; [done|]. cbn [user_runes existsb]. unfold bad_user at 1.
  destruct (r <? 32), (r =? 127); done.
Qed.

Lemma existsb_bytes_false (bad : Z → bool) (s : bytes) :
  existsb (λ b, bad (b2z b)) s = false ↔ Forall (λ b, bad (b2z b) = false) s.
Proof.
  induction s as [|b s IH]; simpl; [by split; constructor|].
  rewrite orb_false_iff, IH. split; [intros []; by constructor|by intros [? ?]%Forall_cons].
Qed.

(** The rules for names, over bytes: a name is valid exactly when it has 1 to
    1024 bytes, is UTF-8, and contains no ['@'], no byte below 0x20 and no 0x7f.
    The loop over runes decides this, since in UTF-8 only ASCII bytes encode
    ASCII. *)
Theorem ValidateName_spec name :
  ValidateName name = Ok tt ↔
    1 <= zlen name <= MaxNameLen ∧ utf8_ValidString name = true ∧
    Forall (λ b, b2z b ≠ 64 ∧ 32 <= b2z b ∧ b2z b ≠ 127) name.
Proof.
  unfold ValidateName. destruct (length name =? 0)%nat eqn:E0; [split; [done|lia]|].
  destruct (zlen name >? MaxNameLen) eqn:E1; [split; [done|lia]|].
  destruct (utf8_ValidString name) eqn:E2; cbn [negb]; [|split; [done|by intros (_ & ? & _)]].
  rewrite name_runes_Ok, runes_bytes, existsb_bytes_false by (done || apply plain_name).
  split.
  - intros Hf. split_and!; [lia..|done|]. eapply Forall_impl; [exact Hf|]. intros b. unfold bad_name. simpl. lia.
  - intros (_ & _ & Hf). eapply Forall_impl; [exact Hf|]. intros b. unfold bad_name. simpl. lia.
Qed.

Lemma ValidateUser_Ok user : ValidateUser user = Ok tt ↔
  1 <= zlen user <= MaxUserLen ∧ utf8_ValidString user = true ∧ Forall (λ b, bad_user (b2z b) = false) user.
Proof.
  unfold ValidateUser. destruct (length user =? 0)%nat eqn:E0; [split; [done|lia]|].
  destruct (zlen user >? MaxUserLen) eqn:E1; [split; [done|lia]|].
  destruct (utf8_ValidString user) eqn:E2; cbn [negb]; [|split; [done|by intros (_ & ? & _)]].
  rewrite user_runes_Ok, runes_bytes, existsb_bytes_false by (done || apply plain_user).
  split; [|by intros (_ & _ & ?)]. intros. split_and!; [lia..|done|done].
Qed.

(** ** The codec *)
Lemma ValidateName_utf8 n : ValidateName n = Ok tt → utf8_ValidString n = true.
Proof.
  unfold ValidateName. do 2 (case_if; [done|]). by destruct (utf8_ValidString n).
Qed.

Lemma ref_validate_utf8 r : ref_validate r = Ok tt →
  utf8_ValidString (ref_Name r) = true ∧ utf8_ValidString (ref_User r) = true.
Proof.
  intros ([] & Hn & Hr)%bind_Ok. apply bind_Ok in Hr as (k & Hk & Hr). apply bind_Ok in Hr as ([] & Hu & _).
  split; [by apply ValidateName_utf8|]. destruct (length (ref_User r) =? 0)%nat eqn:E.
  - by destruct (ref_User r).
  - apply wrap_Ok, ValidateUser_Ok in Hu. tauto.
Qed.

Lemma name_runes_safe rs : safe (name_runes rs).
Proof. induction rs; simpl; [by split|]. do 2 (case_if; [by split|]). done. Qed.
Lemma user_runes_safe rs : safe (user_runes rs).
Proof. induction rs; simpl; [by split|]. case_if; [by split|done]. Qed.

Lemma ref_validate_safe r : safe (ref_validate r).
Proof.
  unfold ref_validate, ValidateName, ValidateUser. apply safe_bind; [|intros _ _; apply safe_bind; [|intros _ _; apply safe_bind; [|intros _ _]]].
  - repeat (case_if; [by split|]). apply name_runes_safe.
  - apply safe_wrap, Parse_safe.
  - case_if; [by split|]. apply safe_wrap. repeat (case_if; [by split|]). apply user_runes_safe.
  - repeat (case_if; [by split|]). by split.
Qed.

Section codec_facts.
Context `{RefCbor}.

Lemma Encode_Decode r b : Decode b = Ok r → Encode r = Ok b ∧ ref_wf r.
Proof.
  intros (r' & Hu & Hr)%bind_Ok. apply wrap_Ok in Hu. apply bind_Ok in Hr as ([] & Hv & Hr). apply wrap_Ok in Hv.
  apply bind_Ok in Hr as (c & Hc & Hr). apply wrap_Ok in Hc. case_bool_decide; [|done]. injection Hr as ->. subst c.
  split; [|by eapply unmarshal_ref_wf]. unfold Encode. by rewrite Hv.
Qed.

Lemma Decode_Encode r b : ref_wf r → Encode r = Ok b → Decode b = Ok r.
Proof.
  intros Hw ([] & Hv & Hm)%bind_Ok. destruct (ref_validate_utf8 r Hv).
  unfold Decode. rewrite (unmarshal_marshal_ref r b) by done. cbn. rewrite Hv. cbn. rewrite Hm. cbn.
  by rewrite bool_decide_eq_true_2.
Qed.

Lemma Decode_safe b : safe (Decode b).
Proof.
  unfold Decode. apply safe_bind; [apply safe_wrap, unmarshal_ref_safe|intros r _].
  apply safe_bind; [apply safe_wrap, ref_validate_safe|intros _ _].
  apply safe_bind; [apply safe_wrap, marshal_ref_safe|intros c _]. case_if; by split.
Qed.

(** C38. A record has exactly one accepted encoding, and it is the one [Encode]
    writes: [Decode] accepts [b] as [r] if and only if [Encode] turns [r] into
    [b].  Neither panics. *)
Theorem Decode_iff_Encode r b :
  ref_wf r → (Decode b = Ok r ↔ Encode r = Ok b) ∧ safe (Decode b) ∧ safe (Encode r).
Proof.
  intros Hw. split_and!; try apply Decode_safe.
  - split; [intros Hd; apply (Encode_Decode r b Hd)|by apply Decode_Encode].
  - apply (safe_bind (ref_validate r) (λ _, marshal_ref r)); [apply ref_validate_safe|intros _ _; apply marshal_ref_safe].
Qed.

Context `{SshSig}.

(** What a verified record guarantees: its bytes are its canonical encoding, it
    is signed, the signature is one by the record's own public key over its
    payload, and any record with that payload has the same name, key, user, time
    and public key. *)
Theorem DecodeVerified_sound raw r :
  DecodeVerified raw = Ok r →
  Encode r = Ok raw ∧ ref_Signature r ≠ [] ∧ ref_PublicKey r ≠ [] ∧
  ∃ payload, SignaturePayload r = Ok payload ∧
    signed_by (ref_PublicKey r) payload (ref_Signature r) RefNamespace ∧
    ∀ r', ref_wf r' → SignaturePayload r' = Ok payload → unsigned r' = unsigned r.
Proof.
  intros (r0 & Hd & Hr)%bind_Ok. destruct ((length _ =? 0)%nat || _) eqn:Es; [done|].
  apply bind_Ok in Hr as (p & Hp & Hr). apply bind_Ok in Hr as (pk & Hv & Hr).
  apply wrap_Ok, VerifyNamespace_Ok in Hv as [_ Hv]. injection Hr as ->. destruct (Encode_Decode r raw Hd) as [He Hw].
  split_and!; [done|by intros E; rewrite E in Es|by intros E; rewrite E, orb_true_r in Es|].
  exists p. split_and!; [done|done|]. intros r' Hw' Hp'.
  apply Decode_Encode in Hp; [|done]. apply Decode_Encode in Hp'; [|done]. congruence.
Qed.
End codec_facts.

(** ** A codec *)
Definition put_ref (r : Reference) : bytes :=
  put_bytes (ref_Name r) ++ put_bytes (ref_Key r) ++ put_bytes (ref_User r) ++ put_word (ref_CreatedAt r) ++
  put_bytes (ref_Signature r) ++ put_bytes (ref_PublicKey r).
Definition get_ref (b : bytes) : option (Reference * bytes) :=
  '(n, b) ← get_bytes b; '(k, b) ← get_bytes b; '(u, b) ← get_bytes b; '(t, b) ← get_int b;
  '(s, b) ← get_bytes b; '(p, b) ← get_bytes b; Some (mkReference n k u t s p, b).

Lemma get_put_ref r b : ref_wf r → get_ref (put_ref r ++ b) = Some (r, b).
Proof.
  intros Hw. unfold get_ref, put_ref. rewrite <- !app_assoc.
  do 3 (rewrite get_put_bytes; cbn [mbind option_bind]). rewrite get_put_int by done. cbn [mbind option_bind].
  do 2 (rewrite get_put_bytes; cbn [mbind option_bind]). by destruct r.
Qed.

Definition unmarshal_example (b : bytes) : result Reference :=
  match get_ref b with
  | Some (r, []) => if bool_decide (ref_wf r) then Ok r else Err (errors_New "range")
  | _ => Err (errors_New "cbor")
  end.

Definition refcbor_example : RefCbor.
Proof.
  apply (Build_RefCbor (λ r, Ok (put_ref r)) unmarshal_example).
  - done.
  - intros b. unfold unmarshal_example. by repeat case_match.
  - intros b r. unfold unmarshal_example. repeat case_match; try done. by case_bool_decide; intros [= <-].
  - intros r b Hw _ _ [= <-]. unfold unmarshal_example.
    rewrite <- (app_nil_r (put_ref r)), get_put_ref by done. by rewrite bool_decide_eq_true_2.
Defined.

Section examples.
#[local] Existing Instance refcbor_example.

#[local] Existing Instance sshsig_example.

(** A record whose key is that of an empty blob, signed by the key [02]. *)
Definition unsigned_example : Reference :=
  mkReference [x61; xc3; xa9] (x10 :: replicate 31 x00) [x75] (-5) [] [x02].
Definition ref_example : Reference :=
  mkReference [x61; xc3; xa9] (x10 :: replicate 31 x00) [x75] (-5)
    (put_sig ([x02], ns_bytes RefNamespace, put_ref unsigned_example)) [x02].

Definition raw_example : bytes := put_ref ref_example.

Lemma Decode_iff_Encode_witness :
  (Decode raw_example = Ok ref_example ↔ Encode ref_example = Ok raw_example) ∧
  safe (Decode raw_example) ∧ safe (Encode ref_example).
Proof. apply (Decode_iff_Encode ref_example raw_example). vm_compute. split; [discriminate|reflexivity]. Defined.

Lemma DecodeVerified_sound_witness :
  DecodeVerified raw_example = Ok ref_example ∧ Encode ref_example = Ok raw_example.
Proof.
  assert (DecodeVerified raw_example = Ok ref_example) as Hd by (vm_compute; reflexivity).
  split; [exact Hd|]. destruct (DecodeVerified_sound raw_example ref_example Hd) as [He _]. exact He.
Defined.
End examples.
