(* ===== verification/Inbox.v ===== *)
(** * Package [inbox]: received packs ([entry.go], [inbox.go])

    An inbox keeps packs that were received and not yet processed: a directory of
    entries, a directory of partial transfers and one of entries that failed.  An
    operation is a computation that threads the state through errors; every call
    to the operating system consumes one outcome of [ib_io], and an empty list
    means that every later call succeeds. *)

From Stdlib Require Import Init.Byte.
From S2P Require Import Prelude Machine Key FsEncode Reference PackRecord PackStream Footer Packstore Parallel.
From Stdlib Require Import ZifyBool ZifyNat.
Local Open Scope Z_scope.

(** ** Entries ([entry.go]) *)
Record Meta := mkMeta { m_Ref : bytes; m_Root : bytes; m_ReceivedAt : Z }.

(** The CBOR codec of the header.  It writes any text, and refuses to read one that is
    not UTF-8. *)
Class MetaCbor := {
  marshal_meta : Meta → result bytes;
  unmarshal_meta : bytes → result Meta;
}.
Definition meta_wf (m : Meta) : Prop := - 2 ^ 63 <= m_ReceivedAt m < 2 ^ 63.
Class MetaCborLaws `{MetaCbor} := {
  marshal_meta_safe m : safe (marshal_meta m);
  unmarshal_meta_safe b : safe (unmarshal_meta b);
  unmarshal_marshal_meta m b : meta_wf m → utf8_ValidString (m_Ref m) = true → marshal_meta m = Ok b → unmarshal_meta b = Ok m;
}.

Section entry.
Context `{MetaCbor}.

(** The bytes the header consists of. *)
Definition writeMetaHeader (m : Meta) : result bytes :=
  b ← wrap "encoding inbox meta" (marshal_meta m);
  Ok (be_enc 4 (zlen b) ++ b).

(** The header, and the rest of the file behind it. *)
Definition readMetaHeader (file : bytes) : result (Meta * bytes) :=
  if zlen file <? 4 then Err (Errorf "reading inbox meta length" (errors_New "unexpected EOF")) else
  let n := be_dec (take 4 file) in
  let rest := drop 4 file in
  if zlen rest <? n then Err (Errorf "reading inbox meta" (errors_New "unexpected EOF")) else
  m ← wrap "decoding inbox meta" (unmarshal_meta (take (Z.to_nat n) rest));
  Ok (m, drop (Z.to_nat n) rest).
End entry.

(** ** State ([inbox.go]) *)
Record workItem := mkWork { wi_name : bytes; wi_root : Key }.

Record Inbox := mkInbox {
  ib_dir : gmap bytes bytes;
  ib_tmp : gmap bytes bytes;
  ib_failed : gmap bytes bytes;
  ib_work : list workItem;
  ib_groups : gmap Key Z;
  ib_closed : bool;
  ib_io : list (option error);
}.

Definition set_dirs (dir tmp fail : gmap bytes bytes) (ib : Inbox) : Inbox :=
  mkInbox dir tmp fail (ib_work ib) (ib_groups ib) (ib_closed ib) (ib_io ib).
Definition set_tmp (tmp : gmap bytes bytes) (ib : Inbox) : Inbox := set_dirs (ib_dir ib) tmp (ib_failed ib) ib.
Definition set_queue (work : list workItem) (groups : gmap Key Z) (ib : Inbox) : Inbox :=
  mkInbox (ib_dir ib) (ib_tmp ib) (ib_failed ib) work groups (ib_closed ib) (ib_io ib).
Definition set_ib_io (l : list (option error)) (ib : Inbox) : Inbox :=
  mkInbox (ib_dir ib) (ib_tmp ib) (ib_failed ib) (ib_work ib) (ib_groups ib) (ib_closed ib) l.

(** ** The monad of inbox operations *)
Definition IB (A : Type) : Type := Inbox → result A * Inbox.

Definition retI {A} (a : A) : IB A := λ ib, (Ok a, ib).
Definition bindI {A B} (m : IB A) (f : A → IB B) : IB B := λ ib,
  match m ib with
  | (Ok a, ib) => f a ib
  | (Err e, ib) => (Err e, ib)
  | (Panic, ib) => (Panic, ib)
  | (Diverge, ib) => (Diverge, ib)
  end.
Definition liftI {A} (r : result A) : IB A := λ ib, (r, ib).
Definition getI {A} (f : Inbox → A) : IB A := λ ib, (Ok (f ib), ib).
Definition modI (f : Inbox → Inbox) : IB unit := λ ib, (Ok tt, f ib).
Definition tryI {A} (m : IB A) : IB (result A) := λ ib, let '(r, ib) := m ib in (Ok r, ib).

Declare Scope inbox_scope.
Delimit Scope inbox_scope with inbox.
Notation "x <- m ;; k" := (bindI m (λ x, k)) (at level 100, m at next level, right associativity) : inbox_scope.
Notation "m ;;; k" := (bindI m (λ _, k)) (at level 100, right associativity) : inbox_scope.
Local Open Scope inbox_scope.

(** One call of the operating system. *)
Definition os : IB unit := λ ib,
  match ib_io ib with
  | [] => (Ok tt, ib)
  | None :: l => (Ok tt, set_ib_io l ib)
  | Some e :: l => (Err e, set_ib_io l ib)
  end.

(** [hex.EncodeToString] *)
Definition hex_EncodeToString (b : bytes) : bytes :=
  concat ((λ c, [hex_char (b2z c / 16); hex_char (b2z c mod 16)]) <$> b).

Definition packSuffix : bytes := [x2e; x70; x61; x63; x6b].
Definition entry_name (bodyHash : bytes) : bytes := hex_EncodeToString bodyHash ++ packSuffix.
Section inbox.
Context `{Blake3} `{Fuse} `{Zstd} `{MetaCbor}.

Definition Discard (tmp : bytes) : IB unit :=
  r <- tryI os;;
  match r with
  | Ok _ => modI (λ ib, set_tmp (delete tmp (ib_tmp ib)) ib)
  | _ => retI tt
  end.

(** [tmp] is the name that [os.CreateTemp] picks, [body] what the reader yields
    before its end or its error [readErr].  On an error the file is removed. *)
Definition Stage (tmp : bytes) (meta : Meta) (body : bytes) (readErr : option error) : IB (bytes * bytes * Z) :=
  os;;; (* CreateTemp *)
  modI (λ ib, set_tmp (<[tmp := []]> (ib_tmp ib)) ib);;;
  r <- tryI (hdr <- liftI (writeMetaHeader meta);;
             os;;; os;;; (* the two writes of the header *)
             os;;; (* Copy *)
             liftI (match readErr with Some e => Err e | None => Ok tt end);;;
             modI (λ ib, set_tmp (<[tmp := hdr ++ body]> (ib_tmp ib)) ib);;;
             os;;; os);; (* Sync, Close *)
  match r with
  | Ok _ => retI (tmp, Sum256 body, zlen body)
  | Err e => Discard tmp;;; liftI (Err e)
  | Panic => liftI Panic
  | Diverge => liftI Diverge
  end.

(** The parts of [Commit] between which other goroutines run: the test for an
    entry of that name, *)
Definition commit_stat (tmp bodyHash : bytes) : IB bool :=
  os;;;
  ex <- getI (λ ib, ib_dir ib !! entry_name bodyHash);;
  match ex with
  | Some _ => Discard tmp;;; retI true
  | None => retI false
  end.

(** the rename (of a file that is there) and the sync of the directory, *)
Definition commit_rename (tmp bodyHash : bytes) : IB unit :=
  os;;;
  f <- getI (λ ib, ib_tmp ib !! tmp);;
  match f with
  | None => liftI (Err (errors_New "file does not exist"))
  | Some file =>
      modI (λ ib, set_dirs (<[entry_name bodyHash := file]> (ib_dir ib)) (delete tmp (ib_tmp ib)) (ib_failed ib) ib);;;
      os;;; os (* syncDir *)
  end.

(** and what happens under the mutex. *)
Definition commit_enqueue (bodyHash : bytes) (root : Key) : IB unit :=
  modI (λ ib, set_queue (ib_work ib ++ [mkWork (entry_name bodyHash) root])
                        (<[root := default 0 (ib_groups ib !! root) + 1]> (ib_groups ib)) ib).

Definition Commit (tmp bodyHash : bytes) (root : Key) : IB bool :=
  ex <- commit_stat tmp bodyHash;;
  if ex : bool then retI false else
  commit_rename tmp bodyHash;;;
  commit_enqueue bodyHash root;;;
  retI true.

(** The condition [WaitFor] waits for. *)
Definition WaitFor_returns (root : Key) (ib : Inbox) : bool := negb (default 0 (ib_groups ib !! root) >? 0).

Definition ib_Close (ib : Inbox) : Inbox :=
  mkInbox (ib_dir ib) (ib_tmp ib) (ib_failed ib) (ib_work ib) (ib_groups ib) true (ib_io ib).

(** Move an entry to the failed ones. *)
Definition quarantine (name : bytes) : IB unit :=
  r <- tryI os;;
  match r with
  | Ok _ => modI (λ ib, match ib_dir ib !! name with
                        | Some f => set_dirs (delete name (ib_dir ib)) (ib_tmp ib) (<[name := f]> (ib_failed ib)) ib
                        | None => ib
                        end)
  | _ => retI tt
  end.

(** Opening an entry: the error of the call, or that there is no such file. *)
Definition open_entry (name : bytes) : IB bytes :=
  os;;;
  f <- getI (λ ib, ib_dir ib !! name);;
  match f with Some f => retI f | None => liftI (Err (errors_New "file does not exist")) end.

Definition readRoot (name : bytes) : IB Key :=
  f <- open_entry name;;
  liftI ('(m, _) ← readMetaHeader f; Key.Parse (m_Root m)).

(** The loop of [recover] over the entries. *)
Fixpoint recover_entries (names : list bytes) : IB unit :=
  match names with
  | [] => retI tt
  | name :: names =>
      if negb (HasSuffix name packSuffix) then recover_entries names else
      r <- tryI (readRoot name);;
      match r with
      | Ok root =>
          modI (λ ib, set_queue (ib_work ib ++ [mkWork name root])
                                (<[root := default 0 (ib_groups ib !! root) + 1]> (ib_groups ib)) ib);;;
          recover_entries names
      | Err _ => quarantine name;;; recover_entries names
      | Panic => liftI Panic
      | Diverge => liftI Diverge
      end
  end.

Fixpoint remove_all (names : list bytes) : IB unit :=
  match names with [] => retI tt | name :: names => Discard name;;; remove_all names end.

(** The order in which [os.ReadDir] lists a directory. *)
Definition ReadDir (d : gmap bytes bytes) : list bytes := merge_sort bytes_le (map_to_list d).*1.

Definition recover : IB unit :=
  os;;;
  tmps <- getI (λ ib, ReadDir (ib_tmp ib));;
  remove_all tmps;;;
  os;;;
  names <- getI (λ ib, ReadDir (ib_dir ib));;
  recover_entries names.

(** [Open] on the directories that an earlier run left. *)
Definition ib_Open (dir tmp fail : gmap bytes bytes) (io : list (option error)) : result unit * Inbox :=
  (os;;; os;;; os;;; recover) (mkInbox dir tmp fail [] ∅ false io).

(** What the iterator over a pack yields. *)
Definition pack_seq (body : bytes) : list (Object + error) :=
  let '(objs, r) := PackStream.All body in
  (inl <$> objs) ++ match r with Err e => [inr e] | _ => [] end.

Definition verify_opts : WriteOpts := mkWriteOpts 0 0 true.

(** The steps of [process]: the entry goes into the store, by a run [sched] of the
    parallel writer ([false] when that fails), *)
Definition process_write (procs : nat) (sched : list event) (f : bytes) (s : Store) : result bool * Store :=
  match readMetaHeader f with
  | Ok (_, body) =>
      let '(x, s) := WriteParallel procs sched (pack_seq body) verify_opts s in
      ('(_, err) ← x; Ok (match err with None => true | Some _ => false end), s)
  | Err _ => (Ok false, s)
  | Panic => (Panic, s)
  | Diverge => (Diverge, s)
  end.

(** then its file goes away, or to the failed ones. *)
Definition process_end (name : bytes) (ok : bool) : IB unit :=
  if ok then
    r <- tryI os;;
    match r with
    | Ok _ => modI (λ ib, set_dirs (delete name (ib_dir ib)) (ib_tmp ib) (ib_failed ib) ib)
    | _ => retI tt
    end
  else quarantine name.

Definition process (procs : nat) (sched : list event) (name : bytes) (ib : Inbox) (s : Store) : result unit * Inbox * Store :=
  match open_entry name ib with
  | (Ok f, ib) =>
      let '(x, s) := process_write procs sched f s in
      match x with
      | Ok ok => let '(r, ib) := process_end name ok ib in (r, ib, s)
      | Err e => (Err e, ib, s)
      | Panic => (Panic, ib, s)
      | Diverge => (Diverge, ib, s)
      end
  | (Err _, ib) => (Ok tt, ib, s)
  | (Panic, ib) => (Panic, ib, s)
  | (Diverge, ib) => (Diverge, ib, s)
  end.

(** The two critical sections of [processLoop]. *)
Definition take_work (ib : Inbox) : option (workItem * Inbox) :=
  match ib_work ib with
  | [] => None
  | it :: work => Some (it, set_queue work (ib_groups ib) ib)
  end.

Definition finish_work (root : Key) (ib : Inbox) : Inbox :=
  let n := default 0 (ib_groups ib !! root) in
  if n >? 0 then
    set_queue (ib_work ib) (if n =? 1 then delete root (ib_groups ib) else <[root := n - 1]> (ib_groups ib)) ib
  else ib.
End inbox.
