(* ===== verification/InboxProtocol.v ===== *)
(** * The inbox: uploads, workers and restarts

    A step relation over the inbox, the store, the uploads that are under way and
    the entries that workers hold.  Each step is what one goroutine does between
    two synchronisations; [restart] is the death of the process and [Open]. *)

From Stdlib Require Import Init.Byte.
From S2P Require Import Prelude Machine Key FsEncode PackRecord PackStream Footer Packstore PackstoreRep PackstoreFacts Parallel Inbox.
From Stdlib Require Import ZifyBool ZifyNat.
Local Open Scope Z_scope.

(** An upload: the temporary file, the body in it and the root it is for. *)
Record upload := mkUpload { u_tmp : bytes; u_body : bytes; u_root : Key }.

(** How far the upload is: staged, found to be new, or renamed. *)
Inductive stage := Staged | Statted | Renamed.

(** How far a worker is with an item: taken, opened with that content, written
    (successfully or not), or its file dealt with. *)
Inductive task := Taken | Opened (f : bytes) | Written (ok : bool) | Ended.

Section protocol.
Context `{Blake3} `{Fuse} `{Zstd} `{MetaCbor}.

(** Only verified objects are stored. *)
#[local] Instance verified_inv : ItemInv := λ k d, verifyObject k d = Ok tt.

Record World := mkWorld {
  w_ib : Inbox;
  w_store : Store;
  w_uploads : list (upload * stage);
  w_tasks : list (workItem * task);
  w_bodies : list bytes;            (* every body that was staged *)
  w_acked : list (Key * bytes);     (* queued or recovered since the last start, with their roots *)
  w_received : list bytes;          (* every body whose upload was answered with success *)
  w_failed : list bytes;            (* the entries with a logged error *)
  w_unsynced : list bytes;          (* entries renamed by a commit that then failed, not queued since *)
}.

Definition body_name (body : bytes) : bytes := entry_name (Sum256 body).

(** The length of an encoded header fits its field; requests bound it. *)
Definition meta_small (m : Meta) : Prop := ∀ b, marshal_meta m = Ok b → zlen b < 2 ^ 32.

(** The content of an entry. *)
Definition is_file (f body : bytes) (root : Key) : Prop :=
  ∃ meta hdr, meta_wf meta ∧ meta_small meta ∧ m_Root meta = kb root ∧ writeMetaHeader meta = Ok hdr ∧ f = hdr ++ body.

(** A commit that fails after its rename leaves the entry behind. *)
Definition left_behind (u : upload) (r : result unit) (ib ib' : Inbox) (un : list bytes) : list bytes :=
  match r with
  | Ok _ => un
  | _ => if bool_decide (ib_tmp ib' !! u_tmp u = ib_tmp ib !! u_tmp u) then un else body_name (u_body u) :: un
  end.

Inductive inbox_step : World → World → Prop :=
| step_stage tmp meta root body readErr r ib ib' s us ts bs ak rc fl un :
    Stage tmp meta body readErr ib = (r, ib') → m_Root meta = kb root → meta_wf meta → meta_small meta →
    ib_tmp ib !! tmp = None → tmp ∉ (u_tmp ∘ fst <$> us) →
    inbox_step (mkWorld ib s us ts bs ak rc fl un)
      (mkWorld ib' s (match r with Ok _ => us ++ [(mkUpload tmp body root, Staged)] | _ => us end) ts (bs ++ [body]) ak rc fl un)
| step_discard u ib s us us' ts bs ak rc fl un :
    inbox_step (mkWorld ib s (us ++ (u, Staged) :: us') ts bs ak rc fl un)
      (mkWorld (snd (Discard (u_tmp u) ib)) s (us ++ us') ts bs ak rc fl un)
| step_stat u r ib ib' s us us' ts bs ak rc fl un :
    commit_stat (u_tmp u) (Sum256 (u_body u)) ib = (r, ib') →
    inbox_step (mkWorld ib s (us ++ (u, Staged) :: us') ts bs ak rc fl un)
      (mkWorld ib' s (us ++ (match r with Ok false => [(u, Statted)] | _ => [] end) ++ us') ts bs ak
         (match r with Ok true => u_body u :: rc | _ => rc end) fl un)
| step_rename u r ib ib' s us us' ts bs ak rc fl un :
    commit_rename (u_tmp u) (Sum256 (u_body u)) ib = (r, ib') →
    inbox_step (mkWorld ib s (us ++ (u, Statted) :: us') ts bs ak rc fl un)
      (mkWorld ib' s (us ++ (match r with Ok _ => [(u, Renamed)] | _ => [] end) ++ us') ts bs ak rc fl
         (left_behind u r ib ib' un))
| step_enqueue u ib s us us' ts bs ak rc fl un :
    inbox_step (mkWorld ib s (us ++ (u, Renamed) :: us') ts bs ak rc fl un)
      (mkWorld (snd (commit_enqueue (Sum256 (u_body u)) (u_root u) ib)) s (us ++ us') ts bs
         ((u_root u, u_body u) :: ak) (u_body u :: rc) fl (filter (λ n, n ≠ body_name (u_body u)) un))
| step_take it ib ib' s us ts bs ak rc fl un :
    take_work ib = Some (it, ib') →
    inbox_step (mkWorld ib s us ts bs ak rc fl un) (mkWorld ib' s us ((it, Taken) :: ts) bs ak rc fl un)
| step_open it r ib ib' s us ts ts' bs ak rc fl un :
    open_entry (wi_name it) ib = (r, ib') →
    inbox_step (mkWorld ib s us (ts ++ (it, Taken) :: ts') bs ak rc fl un)
      (mkWorld ib' s us (ts ++ (it, match r with Ok f => Opened f | _ => Ended end) :: ts') bs ak rc
         (match r, ib_dir ib !! wi_name it with Err _, Some _ => wi_name it :: fl | _, _ => fl end) un)
| step_write procs sched it f ok ib s s' us ts ts' bs ak rc fl un :
    (0 < procs)%nat → (∀ o, put_by_others (others_in sched) o) →
    process_write procs sched f s = (Ok ok, s') →
    inbox_step (mkWorld ib s us (ts ++ (it, Opened f) :: ts') bs ak rc fl un)
      (mkWorld ib s' us (ts ++ (it, Written ok) :: ts') bs ak rc (if ok then fl else wi_name it :: fl) un)
| step_end it ok ib s us ts ts' bs ak rc fl un :
    inbox_step (mkWorld ib s us (ts ++ (it, Written ok) :: ts') bs ak rc fl un)
      (mkWorld (snd (process_end (wi_name it) ok ib)) s us (ts ++ (it, Ended) :: ts') bs ak rc fl un)
| step_finish it ib s us ts ts' bs ak rc fl un :
    inbox_step (mkWorld ib s us (ts ++ (it, Ended) :: ts') bs ak rc fl un)
      (mkWorld (finish_work (wi_root it) ib) s us (ts ++ ts') bs ak rc fl un)
| step_put k d ib s us ts bs ak rc fl un :
    failed s = None → Validate k = Ok tt → verifyObject k d = Ok tt →
    inbox_step (mkWorld ib s us ts bs ak rc fl un) (mkWorld ib (snd (Packstore.Put k d s)) us ts bs ak rc fl un)
| step_restart io ib ib' s s' us ts bs ak ak' rc fl un :
    ib_Open (ib_dir ib) (ib_tmp ib) (ib_failed ib) io = (Ok tt, ib') →
    (∀ c, contents s c → contents s' c) → closed s' = false →
    (∀ root body, (root, body) ∈ ak' → body ∈ bs ∧ mkWork (body_name body) root ∈ ib_work ib') →
    inbox_step (mkWorld ib s us ts bs ak rc fl un)
      (mkWorld ib' s' [] [] bs ak' rc (elements (dom (ib_dir ib) ∖ list_to_set (wi_name <$> ib_work ib')) ++ fl) []).
End protocol.
