(* ===== verification/InboxSpec.v ===== *)
(** * The inbox: facts

    What each operation changes, and an invariant of the steps. *)

From Stdlib Require Import Init.Byte.
From S2P Require Import Prelude Machine Key FsEncode Reference Instances FsTree FsRead FsWalk PackRecord PackStream Footer FooterFacts Packstore PackstoreRep PackstoreFacts PackstoreRecovery CompactFacts PackstoreSpec Parallel Inbox InboxProtocol.
From Stdlib Require Import ZifyBool ZifyNat.
Local Open Scope Z_scope.

(** ** What the operations change *)
Section frames.
Context `{Blake3} `{Fuse} `{Zstd} `{MetaCbor}.

(** The queue and the entries stay. *)
Definition same_queue (ib ib' : Inbox) : Prop := ib_work ib' = ib_work ib ∧ ib_groups ib' = ib_groups ib.
Definition same_but_tmp (ib ib' : Inbox) : Prop := same_queue ib ib' ∧ ib_dir ib' = ib_dir ib.

Lemma os_frame ib : let '(r, ib') := os ib in (r = Ok tt ∨ ∃ e, r = Err e) ∧ same_but_tmp ib ib' ∧ ib_tmp ib' = ib_tmp ib.
Proof. unfold os. destruct (ib_io ib) as [|[e|] l]; (split_and!; [eauto|done|done]). Qed.

Lemma Discard_frame t ib : let '(r, ib') := Discard t ib in
  r = Ok tt ∧ same_but_tmp ib ib' ∧ (ib_tmp ib' = ib_tmp ib ∨ ib_tmp ib' = delete t (ib_tmp ib)).
Proof.
  unfold Discard, bindI, tryI. pose proof (os_frame ib) as Hos. destruct (os ib) as [r ib1].
  destruct Hos as (Hr & Hsame & Ht). destruct r; cbn; rewrite ?Ht; (split_and!; [done|done|auto]).
Qed.

Lemma open_entry_frame name ib : let '(r, ib') := open_entry name ib in
  same_but_tmp ib ib' ∧ ib_tmp ib' = ib_tmp ib ∧ safe r ∧ ∀ f, r = Ok f → ib_dir ib !! name = Some f.
Proof.
  unfold open_entry, bindI, getI. pose proof (os_frame ib) as Hos. destruct (os ib) as [r ib1].
  destruct Hos as ([-> | [e ->]] & Hsame & Ht); [|done]. assert (ib_dir ib1 = ib_dir ib) as -> by apply Hsame.
  destruct (ib_dir ib !! name) as [f|]; cbn; (split_and!; [done..|]); [by intros ? [= ->]|done].
Qed.

Lemma quarantine_frame name ib : let '(r, ib') := quarantine name ib in
  r = Ok tt ∧ same_queue ib ib' ∧ ib_tmp ib' = ib_tmp ib ∧ (ib_dir ib' = ib_dir ib ∨ ib_dir ib' = delete name (ib_dir ib)).
Proof.
  unfold quarantine, bindI, tryI. pose proof (os_frame ib) as Hos. destruct (os ib) as [r ib1].
  destruct Hos as (Hr & [Hq Hd] & Ht). destruct r; cbn; rewrite ?Hd; [|by split_and!; auto..].
  destruct (ib_dir ib !! name); cbn; rewrite ?Hd; (split_and!; [done|done|done|auto]).
Qed.

Lemma process_end_frame name ok ib : let '(r, ib') := process_end name ok ib in
  r = Ok tt ∧ same_queue ib ib' ∧ ib_tmp ib' = ib_tmp ib ∧ (ib_dir ib' = ib_dir ib ∨ ib_dir ib' = delete name (ib_dir ib)).
Proof.
  destruct ok; [|apply quarantine_frame].
  unfold process_end, bindI, tryI. pose proof (os_frame ib) as Hos. destruct (os ib) as [r ib1].
  destruct Hos as (Hr & [Hq Hd] & Ht). destruct r; cbn; rewrite ?Hd; (split_and!; [done|done|done|auto]).
Qed.

Lemma commit_stat_frame t h ib : let '(r, ib') := commit_stat t h ib in
  same_but_tmp ib ib' ∧ (ib_tmp ib' = ib_tmp ib ∨ ib_tmp ib' = delete t (ib_tmp ib)) ∧
  (r = Ok true → is_Some (ib_dir ib !! entry_name h)).
Proof.
  unfold commit_stat, bindI, getI. pose proof (os_frame ib) as Hos. destruct (os ib) as [r ib1].
  destruct Hos as ([-> | [e ->]] & [Hq Hd] & Ht); [|by split_and!; [|left|]].
  rewrite Hd. destruct (ib_dir ib !! entry_name h); [|by split_and!; [|left|]].
  pose proof (Discard_frame t ib1) as Hdis. destruct (Discard t ib1) as [r ib2]. destruct Hdis as (-> & [[? ?] ?] & ?).
  rewrite <- Ht. split_and!; [|done|by eexists]. unfold same_but_tmp, same_queue in *. destruct Hq. split_and!; congruence.
Qed.

Lemma commit_rename_frame t h ib : let '(r, ib') := commit_rename t h ib in
  same_queue ib ib' ∧
  ((is_ok r = false ∧ ib_dir ib' = ib_dir ib ∧ ib_tmp ib' = ib_tmp ib) ∨
   ∃ f, ib_tmp ib !! t = Some f ∧ ib_dir ib' = <[entry_name h := f]> (ib_dir ib) ∧ ib_tmp ib' = delete t (ib_tmp ib)).
Proof.
  unfold commit_rename, bindI at 1. pose proof (os_frame ib) as Hos. destruct (os ib) as [r ib1].
  destruct Hos as ([-> | [e ->]] & [Hq Hd] & Ht); [|by split; [|left]].
  unfold getI, bindI at 1. destruct (ib_tmp ib1 !! t) as [f|] eqn:Hf; [|by split; [|left]].
  unfold modI, bindI at 1. set (ib2 := set_dirs _ _ _ ib1). unfold bindI.
  pose proof (os_frame ib2) as Hos. destruct (os ib2) as [r2 ib3]. destruct Hos as (Hr2 & [Hq3 Hd3] & Ht3).
  assert (same_queue ib ib3) as Hq13 by (unfold same_queue in *; destruct Hq, Hq3; subst ib2; cbn in *; split; congruence).
  rewrite Ht in Hf. destruct Hr2 as [-> | [e ->]].
  - pose proof (os_frame ib3) as Hos. destruct (os ib3) as [r4 ib4]. destruct Hos as (_ & [Hq4 Hd4] & Ht4).
    split; [unfold same_queue in *; destruct Hq13, Hq4; split; congruence|]. right. exists f. subst ib2. cbn in *. split_and!; congruence.
  - split; [done|]. right. exists f. subst ib2. cbn in *. split_and!; congruence.
Qed.

(** A computation that stays within a preorder. *)
Definition within (R : Inbox → Inbox → Prop) {A} (m : IB A) : Prop := ∀ ib, R ib (snd (m ib)).

Lemma within_bind (R : Inbox → Inbox → Prop) `{!PreOrder R} {A B} (m : IB A) (f : A → IB B) :
  within R m → (∀ a, within R (f a)) → within R (bindI m f).
Proof.
  intros Hm Hf ib. specialize (Hm ib). unfold bindI. destruct (m ib) as [[a|e| |] ib1]; [|done..]. etrans; [done|apply Hf].
Qed.

(** Only the temporary file [t] changes. *)
Definition only_tmp (t : bytes) (ib ib' : Inbox) : Prop :=
  same_but_tmp ib ib' ∧ ∀ t', t' ≠ t → ib_tmp ib' !! t' = ib_tmp ib !! t'.

#[local] Instance only_tmp_preorder t : PreOrder (only_tmp t).
Proof.
  split; [done|]. intros ib1 ib2 ib3 [[[? ?] ?] Ht] [[[? ?] ?] Ht']. unfold only_tmp, same_but_tmp, same_queue.
  split_and!; [congruence..|]. intros t' Hne. by rewrite Ht', Ht.
Qed.

Lemma os_within t : within (only_tmp t) os.
Proof.
  intros ib. pose proof (os_frame ib) as Hos. destruct (os ib) as [r ib']. destruct Hos as (_ & Hsame & Ht).
  split; [done|]. intros t' _. cbn. by rewrite Ht.
Qed.
Lemma Discard_within t : within (only_tmp t) (Discard t).
Proof.
  intros ib. pose proof (Discard_frame t ib) as Hd. destruct (Discard t ib) as [r ib']. destruct Hd as (_ & Hsame & Ht).
  split; [done|]. intros t' Hne. cbn. destruct Ht as [-> | ->]; [done|by apply lookup_delete_ne].
Qed.
Lemma set_tmp_within t f : within (only_tmp t) (modI (λ ib, set_tmp (<[t := f]> (ib_tmp ib)) ib)).
Proof. intros ib. split; [done|]. intros t' Hne. by apply lookup_insert_ne. Qed.
Lemma lift_within t {A} (r : result A) : within (only_tmp t) (liftI r).
Proof. by intros ib. Qed.
Lemma try_within t {A} (m : IB A) : within (only_tmp t) m → within (only_tmp t) (tryI m).
Proof. intros Hm ib. specialize (Hm ib). unfold tryI. by destruct (m ib). Qed.

(** The part of [Stage] that writes the file. *)
Definition stage_write (t : bytes) (meta : Meta) (body : bytes) (readErr : option error) : IB unit :=
  (hdr <- liftI (writeMetaHeader meta);; os;;; os;;; os;;;
   liftI (match readErr with Some e => Err e | None => Ok tt end);;;
   modI (λ ib, set_tmp (<[t := hdr ++ body]> (ib_tmp ib)) ib);;; os;;; os)%inbox.

Ltac within_steps :=
  lazymatch goal with
  | |- within _ (bindI _ _) => apply within_bind; [apply _|within_steps|intros ?; within_steps]
  | |- within _ os => apply os_within
  | |- within _ (Discard _) => apply Discard_within
  | |- within _ (modI _) => apply set_tmp_within
  | |- within _ (liftI _) => apply lift_within
  | |- within _ (tryI _) => apply try_within; within_steps
  | |- within _ (retI _) => by intros ?
  | |- within _ (match ?r with _ => _ end) => destruct r; within_steps
  end.

Lemma stage_write_ok t meta body readErr ib : is_ok (fst (stage_write t meta body readErr ib)) = true →
  ∃ hdr, writeMetaHeader meta = Ok hdr ∧ ib_tmp (snd (stage_write t meta body readErr ib)) !! t = Some (hdr ++ body).
Proof.
  unfold stage_write, bindI, liftI, modI. destruct (writeMetaHeader meta) as [hdr| | |]; [|done..].
  destruct (os ib) as [[|e| |] ib1]; try done. destruct (os ib1) as [[|e| |] ib2]; try done.
  destruct (os ib2) as [[|e| |] ib3]; try done. destruct readErr; [done|].
  set (ib4 := set_tmp _ ib3). pose proof (os_frame ib4) as Hos. destruct (os ib4) as [r5 ib5].
  destruct Hos as ([-> | [e ->]] & _ & Ht5); [|done].
  pose proof (os_frame ib5) as Hos. destruct (os ib5) as [r6 ib6]. destruct Hos as (_ & _ & Ht6). intros _.
  exists hdr. split; [done|]. cbn. rewrite Ht6, Ht5. subst ib4. apply lookup_insert_eq.
Qed.

Lemma Stage_frame t meta body readErr ib : let '(r, ib') := Stage t meta body readErr ib in
  only_tmp t ib ib' ∧
  (is_ok r = true → ∃ hdr, writeMetaHeader meta = Ok hdr ∧ ib_tmp ib' !! t = Some (hdr ++ body)).
Proof.
  assert (within (only_tmp t) (Stage t meta body readErr)) as Hw.
  { unfold Stage. within_steps. }
  specialize (Hw ib). rewrite (surjective_pairing (Stage t meta body readErr ib)). split; [done|]. clear Hw.
  unfold Stage. fold (stage_write t meta body readErr). unfold bindI, tryI, modI.
  destruct (os ib) as [[|e| |] ib1]; try done. set (ib2 := set_tmp _ ib1).
  pose proof (stage_write_ok t meta body readErr ib2) as Hok.
  destruct (stage_write t meta body readErr ib2) as [[[]|e| |] ib3]; cbn in *; try done.
  pose proof (Discard_frame t ib3) as Hd. by destruct (Discard t ib3) as [[|e'| |] ib4].
Qed.
End frames.

(** ** Names and headers *)
Lemma hex_char_inj a b : 0 <= a < 16 → 0 <= b < 16 → hex_char a = hex_char b → a = b.
Proof. intros Ha Hb E. pose proof (hex_digit_char a Ha) as H1. rewrite E, hex_digit_char in H1 by done. congruence. Qed.

Lemma hex_inj a b : hex_EncodeToString a = hex_EncodeToString b → a = b.
Proof.
  unfold hex_EncodeToString. revert b. induction a as [|x a IH]; intros [|y b]; cbn; try done.
  intros [= H1 H2 Hr]. f_equal; [|auto]. pose proof (b2z_range x). pose proof (b2z_range y).
  apply hex_char_inj in H1; [|lia..]. apply hex_char_inj in H2; [|lia..]. apply b2z_inj. lia.
Qed.

Lemma entry_name_inj a b : entry_name a = entry_name b → a = b.
Proof. unfold entry_name. by intros ?%app_inv_tail%hex_inj. Qed.

Lemma entry_name_suffix h : HasSuffix (entry_name h) packSuffix = true.
Proof.
  unfold HasSuffix, entry_name. rewrite length_app. replace (_ + _ - _)%nat with (length (hex_EncodeToString h)) by lia.
  rewrite drop_app_length, bool_decide_eq_true_2 by done. rewrite andb_true_r. lia.
Qed.

(** ** Recovery *)
Section recovery.
Context `{Blake3} `{Fuse} `{Zstd} `{MetaCbor} `{!MetaCborLaws}.

(** The counts of the groups are those of the items. *)
Definition counts (groups : gmap Key Z) (its : list workItem) : Prop :=
  ∀ root, default 0 (groups !! root) = zlen (filter (λ it, wi_root it = root) its).

Lemma counts_perm groups its its' : its ≡ₚ its' → counts groups its → counts groups its'.
Proof. intros Hp Hc root. rewrite Hc. by rewrite Hp. Qed.

Lemma counts_add groups its it : counts groups its →
  counts (<[wi_root it := default 0 (groups !! wi_root it) + 1]> groups) (it :: its).
Proof.
  intros Hc root. rewrite filter_cons. destruct (decide (wi_root it = root)) as [<-|Hne].
  - rewrite lookup_insert_eq, Hc. unfold default, from_option, id. cbn [length]. lia.
  - by rewrite lookup_insert_ne, Hc.
Qed.

Lemma counts_finish ib its it : counts (ib_groups ib) (it :: its) → counts (ib_groups (finish_work (wi_root it) ib)) its.
Proof.
  intros Hc root. pose proof (Hc (wi_root it)) as Hn. rewrite filter_cons_True in Hn by done. cbn [length] in Hn.
  unfold finish_work. replace (_ >? 0) with true by lia. cbn.
  specialize (Hc root). rewrite filter_cons in Hc. destruct (decide (wi_root it = root)) as [<-|Hne].
  - destruct (_ =? 1) eqn:E; [rewrite lookup_delete_eq|rewrite lookup_insert_eq]; unfold default, from_option, id in *; cbn [length] in *; lia.
  - destruct (_ =? 1); [rewrite lookup_delete_ne by done|rewrite lookup_insert_ne by done]; exact Hc.
Qed.

Lemma readRoot_frame name ib : same_but_tmp ib (snd (readRoot name ib)).
Proof.
  unfold readRoot, bindI. pose proof (open_entry_frame name ib) as Ho. destruct (open_entry name ib) as [r ib'].
  destruct Ho as (Hsame & _). by destruct r.
Qed.

Lemma recover_entries_spec names ib ib' :
  NoDup names → (∀ it, it ∈ ib_work ib → wi_name it ∈ dom (ib_dir ib) ∧ wi_name it ∉ names) →
  (∀ name, name ∈ names → name ∈ dom (ib_dir ib)) →
  counts (ib_groups ib) (ib_work ib) → recover_entries names ib = (Ok tt, ib') →
  (∀ it, it ∈ ib_work ib' → wi_name it ∈ dom (ib_dir ib')) ∧ counts (ib_groups ib') (ib_work ib') ∧
  ib_dir ib' ⊆ ib_dir ib.
Proof.
  revert ib. induction names as [|name names IH]; intros ib Hnd Hwork Hnames Hc; cbn [recover_entries].
  { intros [= <-]. split_and!; [|done|done]. intros it Hit. by apply Hwork. }
  apply NoDup_cons in Hnd as [Hn Hnd]. destruct (HasSuffix name packSuffix); cbn [negb].
  2:{ apply IH; [done| |set_solver|done]. intros it Hit. destruct (Hwork it Hit). set_solver. }
  unfold bindI, tryI at 1. pose proof (readRoot_frame name ib) as Hrr. destruct (readRoot name ib) as [r ib1].
  cbn [snd] in Hrr. destruct Hrr as [[Hw1 Hg1] Hd1]. destruct r as [root|e| |]; try done; cbn.
  - set (ib2 := set_queue _ _ ib1). intros Hrec. destruct (IH ib2) as (? & ? & ?); try done.
    + subst ib2. cbn. rewrite Hw1, Hd1. intros it [Hit|Hit]%elem_of_app.
      * destruct (Hwork it Hit). set_solver.
      * apply list_elem_of_singleton in Hit. subst it. cbn. split; [apply Hnames; left|done].
    + subst ib2. cbn. rewrite Hd1. set_solver.
    + subst ib2. cbn. eapply counts_perm; [apply Permutation_cons_append|].
      apply (counts_add _ _ (mkWork name root)). by rewrite Hg1, Hw1.
    + split_and!; try done. by rewrite <- Hd1.
  - pose proof (quarantine_frame name ib1) as Hq. destruct (quarantine name ib1) as [r ib2].
    destruct Hq as (-> & [Hw2 Hg2] & _ & Hd2). rewrite Hd1 in Hd2. intros Hrec. destruct (IH ib2) as (? & ? & ?); try done.
    + rewrite Hw2, Hw1. intros it Hit. destruct (Hwork it Hit) as [Hi1 Hi2]. apply not_elem_of_cons in Hi2 as [Hi2 Hi3].
      split; [|done]. destruct Hd2 as [-> | ->]; [done|]. rewrite dom_delete. set_solver.
    + intros n Hin. assert (n ≠ name) by congruence. specialize (Hnames n ltac:(by right)).
      destruct Hd2 as [-> | ->]; [done|]. rewrite dom_delete. set_solver.
    + by rewrite Hg2, Hg1, Hw2, Hw1.
    + split_and!; try done. etrans; [done|]. destruct Hd2 as [-> | ->]; [done|apply delete_subseteq].
Qed.

Lemma remove_all_frame names ib : same_but_tmp ib (snd (remove_all names ib)).
Proof.
  revert ib. induction names as [|name names IH]; intros ib; [done|]. cbn. unfold bindI.
  pose proof (Discard_frame name ib) as Hd. destruct (Discard name ib) as [r ib1]. destruct Hd as (-> & [[? ?] ?] & _).
  destruct (IH ib1) as [[? ?] ?]. unfold same_but_tmp, same_queue. split_and!; congruence.
Qed.

(** What a restart finds: every entry it enqueues is there, and nothing new is. *)
Lemma ib_Open_spec dir tmp fail io ib : ib_Open dir tmp fail io = (Ok tt, ib) →
  (∀ it, it ∈ ib_work ib → wi_name it ∈ dom (ib_dir ib)) ∧ counts (ib_groups ib) (ib_work ib) ∧ ib_dir ib ⊆ dir.
Proof.
  assert (∀ ib0 r ib1, os ib0 = (r, ib1) → same_but_tmp ib0 ib1) as Hos.
  { intros ib0 r ib1 E. pose proof (os_frame ib0) as Ho. rewrite E in Ho. by destruct Ho as (_ & ? & _). }
  unfold ib_Open, recover, bindI, getI. set (ib0 := mkInbox _ _ _ _ _ _ _).
  destruct (os ib0) as [[|e| |] ib1] eqn:E1; try done. destruct (os ib1) as [[|e| |] ib2] eqn:E2; try done.
  destruct (os ib2) as [[|e| |] ib3] eqn:E3; try done. destruct (os ib3) as [[|e| |] ib4] eqn:E4; try done.
  pose proof (remove_all_frame (ReadDir (ib_tmp ib4)) ib4) as Hra. destruct (remove_all _ ib4) as [[|e| |] ib5]; try done.
  destruct (os ib5) as [[|e| |] ib6] eqn:E6; try done. apply Hos in E1, E2, E3, E4, E6.
  assert (same_but_tmp ib0 ib6) as [[Hw Hg] Hd].
  { unfold same_but_tmp, same_queue in *. cbn [snd] in *. destruct_and!. split_and!; congruence. }
  cbn in Hw, Hg, Hd. intros Hrec. eapply recover_entries_spec in Hrec.
  - by rewrite Hd in Hrec.
  - unfold ReadDir. rewrite (merge_sort_Permutation bytes_le). apply NoDup_fst_map_to_list.
  - rewrite Hw. set_solver.
  - intros name. unfold ReadDir. rewrite (merge_sort_Permutation bytes_le), Hd. intros ([n f] & -> & Hin)%list_elem_of_fmap.
    apply elem_of_map_to_list in Hin. by apply elem_of_dom_2 in Hin.
  - by rewrite Hw, Hg.
Qed.
End recovery.

(** ** The inbox: guarantees

    An accepted pack is stored before [WaitFor] of its root returns, and no accepted
    pack is forgotten. *)

Section invariant.
Context `{Blake3} `{Fuse} `{Zstd} `{MetaCbor} `{!MetaCborLaws}.
#[local] Existing Instance verified_inv.

Definition pack_objs (body : bytes) : list Object := fst (PackStream.All body).
Definition stored (c : gmap Key bytes) (body : bytes) : Prop := ∀ o, o ∈ pack_objs body → obj_key o ∈ dom c.

(** Reading a header decodes what was encoded. *)
Lemma readMetaHeader_written meta hdr body : meta_small meta → writeMetaHeader meta = Ok hdr →
  ∃ b, marshal_meta meta = Ok b ∧ readMetaHeader (hdr ++ body) = (m ← wrap "decoding inbox meta" (unmarshal_meta b); Ok (m, body)).
Proof.
  intros Hsm Hw. apply bind_Ok in Hw as (b & Hb%wrap_Ok & Hh). assert (hdr = be_enc 4 (zlen b) ++ b) as -> by congruence.
  specialize (Hsm b Hb). exists b. split; [done|]. unfold readMetaHeader. rewrite <- app_assoc.
  pose proof (length_be_enc 4 (zlen b)) as Hl. rewrite length_app.
  replace (Z.of_nat _ <? 4) with false by lia. rewrite take_app_all, drop_app_all by done.
  rewrite (be_dec_enc_small 4) by (simpl; lia). rewrite length_app. replace (Z.of_nat _ <? zlen b) with false by lia.
  by rewrite Nat2Z.id, take_app_length, drop_app_length.
Qed.

(** A header is read back, if its reference is UTF-8; another may not be decoded. *)
Lemma readMetaHeader_file f body root : is_file f body root →
  (∃ meta, readMetaHeader f = Ok (meta, body)) ∨ ∃ e, readMetaHeader f = Err e.
Proof.
  intros (meta & hdr & _ & Hsm & _ & Hw & ->). destruct (readMetaHeader_written meta hdr body Hsm Hw) as (b & _ & ->).
  destruct (unmarshal_meta_safe b) as [Hp Hd]. destruct (unmarshal_meta b) as [m|e| |]; [left; by exists m|right; by eexists|done..].
Qed.

Lemma readMetaHeader_utf8 meta hdr body : meta_wf meta → meta_small meta → utf8_ValidString (m_Ref meta) = true →
  writeMetaHeader meta = Ok hdr → readMetaHeader (hdr ++ body) = Ok (meta, body).
Proof.
  intros Hwf Hsm Hu Hw. destruct (readMetaHeader_written meta hdr body Hsm Hw) as (b & Hb & ->).
  by rewrite (unmarshal_marshal_meta meta b Hwf Hu Hb).
Qed.

Lemma pack_seq_storable body o : inl o ∈ pack_seq body → storable true o.
Proof.
  unfold pack_seq. pose proof (All_total body) as [Hv _]. destruct (PackStream.All body) as [objs r]. cbn in Hv.
  intros [Hin|Hin]%elem_of_app.
  - apply list_elem_of_fmap in Hin as (o' & [= <-] & Hin). rewrite Forall_forall in Hv. split; [by apply Hv|].
    intros Hver. exact (Hver eq_refl).
  - destruct r; [by apply elem_of_nil in Hin|by apply list_elem_of_singleton in Hin|by apply elem_of_nil in Hin..].
Qed.

Lemma process_write_spec procs sched f s s' c ok body root :
  (0 < procs)%nat → (∀ o, put_by_others (others_in sched) o) → contents s c → closed s = false → is_file f body root →
  process_write procs sched f s = (Ok ok, s') →
  ∃ c', contents s' c' ∧ closed s' = false ∧ dom c ⊆ dom c' ∧ (ok = true → stored c' body).
Proof.
  intros Hp Ho Hcs Hc Hf. unfold process_write. destruct (readMetaHeader_file f body root Hf) as [[meta ->]|[e ->]].
  2:{ intros [= <- <-]. by exists c. }
  pose proof (WriteParallel_spec procs sched (pack_seq body) verify_opts s c Hcs Hc Hp (pack_seq_storable body) Ho) as Hw.
  destruct (WriteParallel _ _ _ _ _) as [x s1]. destruct Hw as [->|(stats & err & c' & -> & Hcs' & Hc' & Hd & _ & Hok & _)]; [done|].
  cbn. intros [= <- <-]. exists c'. split_and!; try done. destruct err; [done|]. intros _.
  destruct (Hok eq_refl) as (objs & Hobjs & Hin & _). intros o Hino. apply Hin. unfold pack_seq, pack_objs in *.
  destruct (PackStream.All body) as [os' r]. cbn in Hino. assert (inl o ∈ (inl <$> objs : list (Object + error))) as Hx.
  { rewrite <- Hobjs. apply elem_of_app. left. by apply list_elem_of_fmap_2. }
  by apply list_elem_of_fmap in Hx as (o' & [= <-] & ?).
Qed.

(** ** The invariant *)

(** The objects of the pack are stored, or an error was logged for it. *)
Definition settled (bs fl : list bytes) (c : gmap Key bytes) (name : bytes) : Prop :=
  name ∈ fl ∨ ∃ body, body ∈ bs ∧ body_name body = name ∧ stored c body.

(** An item that is still to be processed. *)
Definition held (work : list workItem) (ts : list (workItem * task)) (it : workItem) : Prop :=
  it ∈ work ∨ (it, Taken) ∈ ts ∨ ∃ f, (it, Opened f) ∈ ts.

Definition entry_ok (bs : list bytes) (name f : bytes) : Prop :=
  ∃ body root, name = body_name body ∧ body ∈ bs ∧ is_file f body root.

Definition uploads_ok (tmp : gmap bytes bytes) (us : list (upload * stage)) (bs : list bytes) : Prop :=
  ∀ u st, (u, st) ∈ us → u_body u ∈ bs ∧
    (st ≠ Renamed → ∀ f, tmp !! u_tmp u = Some f → is_file f (u_body u) (u_root u)).

Section clauses.
Context (dir : gmap bytes bytes) (bs : list bytes) (S : bytes → Prop).

Definition task_ok (name : bytes) (t : task) : Prop :=
  match t with
  | Taken => name ∈ dom dir ∨ S name
  | Opened f => entry_ok bs name f ∧ (name ∈ dom dir ∨ S name)
  | Written _ | Ended => S name
  end.

Definition items_ok (work : list workItem) (ts : list (workItem * task)) (us : list (upload * stage)) : Prop :=
  (∀ it, it ∈ work → wi_name it ∈ dom dir ∨ S (wi_name it)) ∧ (∀ it t, (it, t) ∈ ts → task_ok (wi_name it) t) ∧
  (∀ u, (u, Renamed) ∈ us → body_name (u_body u) ∈ dom dir ∨ S (body_name (u_body u))).

Definition acks_ok (work : list workItem) (ts : list (workItem * task)) (ak : list (Key * bytes)) : Prop :=
  ∀ root body, (root, body) ∈ ak → body ∈ bs ∧ (S (body_name body) ∨ held work ts (mkWork (body_name body) root)).

(** An entry that is still to be processed: queued or with a worker, about to be
    queued by the upload that renamed it, or left behind by a commit that failed. *)
Definition pending (work : list workItem) (ts : list (workItem * task)) (us : list (upload * stage)) (un : list bytes) (name : bytes) : Prop :=
  (∃ root, held work ts (mkWork name root)) ∨ (∃ u, (u, Renamed) ∈ us ∧ body_name (u_body u) = name) ∨ name ∈ un.

(** Received packs and the entries in the directory are settled or pending. *)
Definition kept_ok (waits : bytes → Prop) (un rc : list bytes) : Prop :=
  (∀ body, body ∈ rc → body ∈ bs ∧ waits (body_name body)) ∧ (∀ n, n ∈ dom dir → waits n) ∧ (∀ n, n ∈ un → n ∈ dom dir ∨ S n).
End clauses.

Definition inbox_inv (w : World) : Prop :=
  ∃ c, contents (w_store w) c ∧ closed (w_store w) = false ∧
    (∀ name f, ib_dir (w_ib w) !! name = Some f → entry_ok (w_bodies w) name f) ∧
    uploads_ok (ib_tmp (w_ib w)) (w_uploads w) (w_bodies w) ∧
    counts (ib_groups (w_ib w)) (ib_work (w_ib w) ++ (w_tasks w).*1) ∧
    let S := settled (w_bodies w) (w_failed w) c in
    items_ok (ib_dir (w_ib w)) (w_bodies w) S (ib_work (w_ib w)) (w_tasks w) (w_uploads w) ∧
    acks_ok (w_bodies w) S (ib_work (w_ib w)) (w_tasks w) (w_acked w) ∧
    kept_ok (ib_dir (w_ib w)) (w_bodies w) S
      (λ n, S n ∨ pending (ib_work (w_ib w)) (w_tasks w) (w_uploads w) (w_unsynced w) n) (w_unsynced w) (w_received w).

Lemma settled_mono bs bs' fl fl' c c' name : bs ⊆ bs' → fl ⊆ fl' → dom c ⊆ dom c' → settled bs fl c name → settled bs' fl' c' name.
Proof.
  intros Hb Hf Hd [?|(body & ? & ? & Hs)]; [left; auto|]. right. exists body. split_and!; auto. intros o Ho. by apply Hd, Hs.
Qed.

Lemma entry_ok_mono bs bs' name f : bs ⊆ bs' → entry_ok bs name f → entry_ok bs' name f.
Proof. intros Hb (body & root & ? & ? & ?). exists body, root. auto. Qed.

Lemma uploads_ok_mono tmp tmp' us us' bs bs' : (∀ t f, t ∈ (u_tmp ∘ fst <$> us') → tmp' !! t = Some f → tmp !! t = Some f) →
  us' ⊆ us → bs ⊆ bs' → uploads_ok tmp us bs → uploads_ok tmp' us' bs'.
Proof.
  intros Ht Hu Hb Hok u st Hin. destruct (Hok u st (Hu _ Hin)) as [Hbody Hf]. split; [auto|]. intros Hst f Hl.
  apply Hf; [done|]. apply Ht; [|done]. by apply (list_elem_of_fmap_2 (u_tmp ∘ fst) us' (u, st)).
Qed.

Lemma items_ok_mono dir dir' bs bs' (S S' : bytes → Prop) work ts us us' :
  (∀ n, n ∈ dom dir → n ∈ dom dir' ∨ S' n) → bs ⊆ bs' → (∀ n, S n → S' n) → (∀ u, (u, Renamed) ∈ us' → (u, Renamed) ∈ us) →
  items_ok dir bs S work ts us → items_ok dir' bs' S' work ts us'.
Proof.
  intros Hd Hb HS Hu (Hw & Ht & Hr).
  assert (∀ n, n ∈ dom dir ∨ S n → n ∈ dom dir' ∨ S' n) as Hp by (intros n [?|?]; auto).
  split_and!; [auto| |auto]. intros it t Hin. specialize (Ht it t Hin). unfold task_ok in *.
  destruct t; [auto| |auto..]. destruct Ht as [? ?]. split; [by eapply entry_ok_mono|auto].
Qed.

Lemma acks_ok_mono bs bs' (S S' : bytes → Prop) work work' ts ts' ak :
  bs ⊆ bs' → (∀ n, S n → S' n) → (∀ it, held work ts it → held work' ts' it ∨ S' (wi_name it)) →
  acks_ok bs S work ts ak → acks_ok bs' S' work' ts' ak.
Proof. intros Hb HS Hh Ha root body [? Hor]%Ha. split; [auto|]. destruct Hor as [?|[?|?]%Hh]; auto. Qed.

Lemma pending_mono (S' : bytes → Prop) work work' ts ts' us us' un un' n :
  (∀ it, held work ts it → held work' ts' it ∨ S' (wi_name it)) →
  (∀ u, (u, Renamed) ∈ us → (u, Renamed) ∈ us' ∨ pending work' ts' us' un' (body_name (u_body u))) →
  (∀ n, n ∈ un → n ∈ un' ∨ S' n ∨ pending work' ts' us' un' n) →
  pending work ts us un n → S' n ∨ pending work' ts' us' un' n.
Proof.
  intros Hh Hu Hun [[root [?|?]%Hh]|[(u & [?|?]%Hu & <-)|[?|[?|?]]%Hun]]; auto.
  - right. left. by exists root.
  - right. right. left. by exists u.
  - right. by right; right.
Qed.

Lemma kept_ok_mono dir dir' bs bs' (S S' waits waits' : bytes → Prop) un un' rc rc' :
  bs ⊆ bs' → (∀ n, S n → S' n) → (∀ n, waits n → waits' n) → (∀ n, n ∈ dom dir' → n ∈ dom dir ∨ waits' n) →
  (∀ n, n ∈ dom dir → n ∈ dom dir' ∨ S' n) → (∀ n, n ∈ un' → n ∈ un ∨ n ∈ dom dir') →
  (∀ body, body ∈ rc' → body ∈ rc ∨ body ∈ bs' ∧ waits' (body_name body)) →
  kept_ok dir bs S waits un rc → kept_ok dir' bs' S' waits' un' rc'.
Proof.
  intros Hb HS Hw Hd' Hd Hun Hrc (K1 & K2 & K3). split_and!.
  - intros body [[? ?]%K1|?]%Hrc; auto.
  - intros n [?|?]%Hd'; auto.
  - intros n [[?%Hd|?]%K3|?]%Hun; tauto || auto.
Qed.

(** One task of the list is replaced. *)
Lemma in_replace {A} (l l' : list A) x y z : z ∈ l ++ y :: l' → z = y ∨ z ∈ l ++ x :: l'.
Proof. rewrite !elem_of_app, !elem_of_cons. tauto. Qed.

Lemma in_drop {A} (l l' : list A) x : l ++ l' ⊆ l ++ x :: l'.
Proof. intros y. rewrite !elem_of_app, elem_of_cons. tauto. Qed.

Lemma in_mid {A} (l l' : list A) x : x ∈ l ++ x :: l'.
Proof. apply elem_of_app. right. left. Qed.

Lemma held_replace work ts ts' it x y i : held work (ts ++ (it, x) :: ts') i → i = it ∨ held work (ts ++ (it, y) :: ts') i.
Proof.
  intros [?|[Hin|[f Hin]]]; [right; by left|..].
  - destruct (in_replace _ _ (it, y) _ _ Hin) as [[= -> _]|?]; [by left|right; right; by left].
  - destruct (in_replace _ _ (it, y) _ _ Hin) as [[= -> _]|?]; [by left|right; right; right; by exists f].
Qed.

Lemma items_task dir bs S work ts ts' us it x y :
  items_ok dir bs S work (ts ++ (it, x) :: ts') us → task_ok dir bs S (wi_name it) y →
  items_ok dir bs S work (ts ++ (it, y) :: ts') us.
Proof.
  intros (Hw & Ht & Hr) Hy. split_and!; [done| |done]. intros it' t Hin.
  destruct (in_replace _ _ (it, x) _ _ Hin) as [[= -> ->]|?]; auto.
Qed.

(** ** The steps keep it *)

(** Uploads that come and go. *)
Lemma step_upload ib ib' s us us' ts bs bs' ak rc rc' fl un :
  inbox_inv (mkWorld ib s us ts bs ak rc fl un) → same_but_tmp ib ib' → bs ⊆ bs' → uploads_ok (ib_tmp ib') us' bs' →
  (∀ u, (u, Renamed) ∈ us' ↔ (u, Renamed) ∈ us) → (∀ body, body ∈ rc' → body ∈ rc ∨ body ∈ bs' ∧ body_name body ∈ dom (ib_dir ib)) →
  inbox_inv (mkWorld ib' s us' ts bs' ak rc' fl un).
Proof.
  intros (c & Hcs & Hc & Hdir & Hus & Hcnt & Hit & Hak & Hkept) [[Hw Hg] Hd] Hb Hus' Hr Hrc. cbn in *. exists c.
  cbn. rewrite Hw, Hg, Hd. split_and!; try done.
  - intros name f Hf. eapply entry_ok_mono; [done|auto].
  - eapply items_ok_mono, Hit; auto. { intros n. by apply settled_mono. } intros u. by apply Hr.
  - eapply acks_ok_mono, Hak; auto. intros n. by apply settled_mono.
  - assert (∀ n, settled bs fl c n → settled bs' fl c n) as HS by (intros n; by apply settled_mono).
    assert (∀ n, settled bs fl c n ∨ pending (ib_work ib) ts us un n → settled bs' fl c n ∨ pending (ib_work ib) ts us' un n) as Hp.
    { intros n [?|Hp]; [auto|]. eapply pending_mono, Hp; auto. intros u Hu. left. by apply Hr. }
    eapply kept_ok_mono, Hkept; auto. intros body [?|[? Hn]]%Hrc; [by left|right]. split; [done|]. by apply Hp, (proj1 (proj2 Hkept)).
Qed.

Lemma delete_tmp (tmp tmp' : gmap bytes bytes) t t' f : tmp' = tmp ∨ tmp' = delete t tmp → tmp' !! t' = Some f → tmp !! t' = Some f.
Proof. intros [-> | ->]; [done|]. by intros [_ ?]%lookup_delete_Some. Qed.

Lemma inv_stage tmp meta root body readErr r ib ib' s us ts bs ak rc fl un :
  Stage tmp meta body readErr ib = (r, ib') → m_Root meta = kb root → meta_wf meta → meta_small meta →
  tmp ∉ (u_tmp ∘ fst <$> us) → inbox_inv (mkWorld ib s us ts bs ak rc fl un) →
  inbox_inv (mkWorld ib' s (match r with Ok _ => us ++ [(mkUpload tmp body root, Staged)] | _ => us end) ts (bs ++ [body]) ak rc fl un).
Proof.
  intros Hst Hroot Hwf Hsm Hn Hinv. pose proof (Stage_frame tmp meta body readErr ib) as Hf. rewrite Hst in Hf.
  destruct Hf as [[Hsame Htmp] Hok]. assert (bs ⊆ bs ++ [body]) as Hb by set_solver.
  assert (uploads_ok (ib_tmp ib') us (bs ++ [body])) as Hus.
  { destruct Hinv as (c & _ & _ & _ & Hus & _). eapply uploads_ok_mono, Hus; try done. intros t f Ht. by rewrite Htmp by congruence. }
  eapply step_upload; [done|done|done| | |by left].
  2:{ intros u. destruct r; try done. rewrite elem_of_app. split; [by intros [?|[=]%list_elem_of_singleton]|by left]. }
  destruct r as [x|e| |]; try done. destruct (Hok eq_refl) as (hdr & Hhdr & Hl).
  intros u st [Hin|[= -> ->]%list_elem_of_singleton]%elem_of_app; [by apply Hus|]. cbn. split; [set_solver|].
  intros _ f Hf. rewrite Hl in Hf. injection Hf as <-. by exists meta, hdr.
Qed.

Lemma inv_rename u r ib ib' s us us' ts bs ak rc fl un :
  commit_rename (u_tmp u) (Sum256 (u_body u)) ib = (r, ib') →
  inbox_inv (mkWorld ib s (us ++ (u, Statted) :: us') ts bs ak rc fl un) →
  inbox_inv (mkWorld ib' s (us ++ (match r with Ok _ => [(u, Renamed)] | _ => [] end) ++ us') ts bs ak rc fl (left_behind u r ib ib' un)).
Proof.
  intros Hren (c & Hcs & Hc & Hdir & Hus & Hcnt & Hit & Hak & Hkept). cbn in *.
  pose proof (commit_rename_frame (u_tmp u) (Sum256 (u_body u)) ib) as Hf. rewrite Hren in Hf. destruct Hf as [[Hw Hg] Hcase].
  destruct (Hus u Statted (in_mid _ _ _)) as [Hbody Hfile].
  set (new := match r with Ok _ => [(u, Renamed)] | _ => [] end).
  assert (∀ v st, (v, st) ∈ us ++ new ++ us' → (v, st) ∈ us ++ (u, Statted) :: us' ∨ v = u ∧ st = Renamed ∧ is_ok r = true) as Hin.
  { intros v st. rewrite !elem_of_app, elem_of_cons. intros [?|[Hn|?]]; [auto| |auto]. right. subst new.
    destruct r; try by apply elem_of_nil in Hn. by apply list_elem_of_singleton in Hn as [= -> ->]. }
  assert (uploads_ok (ib_tmp ib') (us ++ new ++ us') bs) as Hus'.
  { intros v st [Hv|(-> & -> & _)]%Hin; [|by split]. destruct (Hus v st Hv) as [? Hfv]. split; [done|]. intros Hst f Hl.
    apply Hfv; [done|]. destruct Hcase as [(_ & _ & Ht)|(f0 & _ & _ & Ht)]; rewrite Ht in Hl; [done|].
    by apply lookup_delete_Some in Hl as [_ ?]. }
  assert (∀ v, (v, Renamed) ∈ us ++ (u, Statted) :: us' → (v, Renamed) ∈ us ++ new ++ us') as Hold.
  { intros v. rewrite !elem_of_app, elem_of_cons. intros [?|[[=]|?]]; auto. }
  assert (∀ un' n, un ⊆ un' → settled bs fl c n ∨ pending (ib_work ib) ts (us ++ (u, Statted) :: us') un n →
    settled bs fl c n ∨ pending (ib_work ib) ts (us ++ new ++ us') un' n) as Hp.
  { intros un' n Hun [?|Hp]; [by left|]. eapply pending_mono, Hp; auto. }
  exists c. cbn. rewrite Hw, Hg. destruct Hcase as [(Hr & Hd & Ht)|(f & Hl & Hd & Ht)]; rewrite Hd.
  - assert (left_behind u r ib ib' un = un) as ->. { destruct r; [done|..]; unfold left_behind; by rewrite bool_decide_eq_true_2 by (by rewrite Ht). }
    split_and!; try done.
    + eapply items_ok_mono, Hit; auto. intros v [?|(_ & _ & Hr')]%Hin; [done|congruence].
    + eapply kept_ok_mono, Hkept; auto.
  - assert (left_behind u r ib ib' un = if is_ok r then un else body_name (u_body u) :: un) as ->.
    { destruct r; [done|..]; unfold left_behind; by rewrite bool_decide_eq_false_2 by (by rewrite Ht, lookup_delete_eq, Hl). }
    assert (entry_ok bs (body_name (u_body u)) f) as Hent by (exists (u_body u), (u_root u); split_and!; [done|done|by apply Hfile]).
    split_and!; try done.
    + intros name f'. intros [[<- <-]|[_ ?]]%lookup_insert_Some; auto.
    + destruct Hit as (Hit1 & Hit2 & Hit3). split_and!.
      * intros it ?%Hit1. rewrite dom_insert. set_solver.
      * intros it t Hit'%Hit2. unfold task_ok in *. destruct t; rewrite ?dom_insert; set_solver.
      * intros v [Hv|(-> & _)]%Hin; rewrite dom_insert; [|left; set_solver]. destruct (Hit3 v Hv); [left; set_solver|by right].
    + set (un' := if is_ok r then un else _). assert (un ⊆ un') as Hsub by (subst un'; destruct (is_ok r); set_solver).
      eapply kept_ok_mono, Hkept; auto.
      * intros n. rewrite dom_insert, elem_of_union, elem_of_singleton. intros [->|?]; [right|by left]. right. right. subst new un'.
        destruct r; cbn [is_ok]; [left|right; left..]. exists u. split; [|done]. apply elem_of_app. right. left.
      * intros n ?. left. rewrite dom_insert. set_solver.
      * intros n. subst un'. destruct (is_ok r); [by left|]. intros [->|?]%elem_of_cons; [right|by left]. rewrite dom_insert. set_solver.
Qed.

Lemma inv_enqueue u ib s us us' ts bs ak rc fl un :
  inbox_inv (mkWorld ib s (us ++ (u, Renamed) :: us') ts bs ak rc fl un) →
  inbox_inv (mkWorld (snd (commit_enqueue (Sum256 (u_body u)) (u_root u) ib)) s (us ++ us') ts bs
    ((u_root u, u_body u) :: ak) (u_body u :: rc) fl (filter (λ n, n ≠ body_name (u_body u)) un)).
Proof.
  intros (c & Hcs & Hc & Hdir & Hus & Hcnt & (Hit1 & Hit2 & Hit3) & Hak & Hkept). cbn in *. exists c. cbn.
  destruct (Hus u Renamed (in_mid _ _ _)) as [Hbody _]. pose proof (Hit3 u (in_mid _ _ _)) as Hpres.
  fold (body_name (u_body u)). set (it := mkWork (body_name (u_body u)) (u_root u)).
  assert (∀ i, held (ib_work ib) ts i → held (ib_work ib ++ [it]) ts i) as Hh.
  { intros i [?|?]; [left; apply elem_of_app; by left|by right]. }
  assert (held (ib_work ib ++ [it]) ts it) as Hnew by (left; apply elem_of_app; right; left).
  split_and!; try done.
  - eapply uploads_ok_mono, Hus; [done|apply in_drop|done].
  - eapply counts_perm, (counts_add _ _ it), Hcnt. rewrite <- app_assoc. cbn. by rewrite Permutation_middle.
  - split_and!; [|done|intros v Hv; apply Hit3, in_drop, Hv].
    intros i [?|Hi%list_elem_of_singleton]%elem_of_app; [auto|by subst].
  - intros root body [[= -> ->]|Hin]%elem_of_cons; [by auto|]. destruct (Hak _ _ Hin) as [? [?|?]]; auto.
  - set (un' := filter _ un). assert (∀ n, settled bs fl c n ∨ pending (ib_work ib) ts (us ++ (u, Renamed) :: us') un n →
      settled bs fl c n ∨ pending (ib_work ib ++ [it]) ts (us ++ us') un' n) as Hp.
    { assert (pending (ib_work ib ++ [it]) ts (us ++ us') un' (body_name (u_body u))) as Hpu by (left; by exists (u_root u)).
      intros n [?|Hp]; [by left|]. eapply pending_mono, Hp; [auto|..].
      - intros v. rewrite !elem_of_app, elem_of_cons. intros [?|[[= ->]|?]]; auto.
      - intros n' Hn. destruct (decide (n' = body_name (u_body u))) as [->|Hne]; [auto|left]. by apply list_elem_of_filter. }
    eapply kept_ok_mono, Hkept; auto.
    + intros n [_ ?]%list_elem_of_filter. by left.
    + intros body [->|?]%elem_of_cons; [right|by left]. split; [done|]. right. left. by exists (u_root u).
Qed.

Lemma inv_take it ib ib' s us ts bs ak rc fl un :
  take_work ib = Some (it, ib') → inbox_inv (mkWorld ib s us ts bs ak rc fl un) →
  inbox_inv (mkWorld ib' s us ((it, Taken) :: ts) bs ak rc fl un).
Proof.
  unfold take_work. intros Htake (c & Hcs & Hc & Hdir & Hus & Hcnt & (Hit1 & Hit2 & Hit3) & Hak & Hkept). cbn in *.
  destruct (ib_work ib) as [|it0 work] eqn:Hw; [done|]. injection Htake as -> <-. exists c.
  assert (∀ i, held (it :: work) ts i → held work ((it, Taken) :: ts) i ∨ settled bs fl c (wi_name i)) as Hh.
  { intros i [[->|?]%elem_of_cons|[?|[f ?]]]; left; [right; left; left|by left|right; left; by right|right; right; exists f; by right]. }
  cbn. split_and!; try done.
  - eapply counts_perm, Hcnt. cbn. apply Permutation_middle.
  - split_and!; [intros i Hi; apply Hit1; by right| |done].
    intros i t [[= -> ->]|?]%elem_of_cons; [apply Hit1; left|auto].
  - eapply acks_ok_mono, Hak; auto.
  - eapply kept_ok_mono, Hkept; auto. intros n [?|Hp]; [by left|]. eapply pending_mono, Hp; auto.
Qed.

(** A task moves on and the item's name is settled, or it is still held. *)
Lemma step_task it x y ib ib' s' us ts ts' bs ak rc fl fl' un c c' :
  same_queue ib ib' → ib_tmp ib' = ib_tmp ib → contents s' c' → closed s' = false → dom c ⊆ dom c' → fl ⊆ fl' →
  (∀ n, n ∈ dom (ib_dir ib) → n ∈ dom (ib_dir ib') ∨ settled bs fl' c' n) →
  ib_dir ib' ⊆ ib_dir ib →
  task_ok (ib_dir ib') bs (settled bs fl' c') (wi_name it) y →
  (settled bs fl' c' (wi_name it) ∨ ∃ f, y = Opened f) →
  (∀ name f, ib_dir ib !! name = Some f → entry_ok bs name f) → uploads_ok (ib_tmp ib) us bs →
  counts (ib_groups ib) (ib_work ib ++ (ts ++ (it, x) :: ts').*1) →
  items_ok (ib_dir ib) bs (settled bs fl c) (ib_work ib) (ts ++ (it, x) :: ts') us →
  acks_ok bs (settled bs fl c) (ib_work ib) (ts ++ (it, x) :: ts') ak →
  kept_ok (ib_dir ib) bs (settled bs fl c) (λ n, settled bs fl c n ∨ pending (ib_work ib) (ts ++ (it, x) :: ts') us un n) un rc →
  inbox_inv (mkWorld ib' s' us (ts ++ (it, y) :: ts') bs ak rc fl' un).
Proof.
  intros [Hw Hg] Htmp Hcs' Hc' Hd Hfl Hdom Hsub Hy Hor Hdir Hus Hcnt Hit Hak Hkept. exists c'. cbn.
  rewrite Hw, Hg, Htmp. assert (∀ n, settled bs fl c n → settled bs fl' c' n) as HS by (intros n; by apply settled_mono).
  assert (∀ i, held (ib_work ib) (ts ++ (it, x) :: ts') i → held (ib_work ib) (ts ++ (it, y) :: ts') i ∨ settled bs fl' c' (wi_name i)) as Hh.
  { intros i Hh. destruct (held_replace _ _ _ _ _ y _ Hh) as [->|?]; [|auto].
    destruct Hor as [?|[f ->]]; [auto|left]. right. right. exists f. apply in_mid. }
  split_and!; try done.
  - intros name f Hf. apply Hdir. by eapply lookup_weaken.
  - rewrite fmap_app in *. done.
  - eapply items_task; [|exact Hy]. eapply items_ok_mono, Hit; auto.
  - eapply acks_ok_mono, Hak; auto.
  - eapply kept_ok_mono, Hkept; auto.
    + intros n [?|Hp]; [auto|]. eapply pending_mono, Hp; auto.
    + intros n Hn. left. by apply (subseteq_dom _ _ Hsub).
Qed.

Lemma inv_open it r ib ib' s us ts ts' bs ak rc fl un :
  open_entry (wi_name it) ib = (r, ib') → inbox_inv (mkWorld ib s us (ts ++ (it, Taken) :: ts') bs ak rc fl un) →
  inbox_inv (mkWorld ib' s us (ts ++ (it, match r with Ok f => Opened f | _ => Ended end) :: ts') bs ak rc
    (match r, ib_dir ib !! wi_name it with Err _, Some _ => wi_name it :: fl | _, _ => fl end) un).
Proof.
  intros Hop (c & Hcs & Hc & Hdir & Hus & Hcnt & Hit & Hak & Hkept). cbn in *.
  pose proof (open_entry_frame (wi_name it) ib) as Hf. rewrite Hop in Hf. destruct Hf as ([Hq Hd] & Ht & Hsafe & Hok).
  set (fl' := match r, ib_dir ib !! wi_name it with Err _, Some _ => wi_name it :: fl | _, _ => fl end).
  assert (fl ⊆ fl') as Hfl by (subst fl'; destruct r; try done; destruct (ib_dir ib !! wi_name it); [by intros ? ?; right|done]).
  pose proof (proj1 (proj2 Hit) it Taken (in_mid _ _ _)) as Hpres. cbn in Hpres.
  eapply (step_task it Taken _ ib ib' s us ts ts' bs ak rc fl fl' un c c); try done; rewrite ?Hd; auto.
  - destruct r as [f|e| |]; try by destruct Hsafe.
    + specialize (Hok f eq_refl). split; [auto|]. destruct Hpres; [by left|right; by eapply settled_mono].
    + subst fl'. destruct (ib_dir ib !! wi_name it) eqn:El; [left; left|].
      destruct Hpres as [Hin|Hs]; [|done]. apply elem_of_dom in Hin as [? ?]. congruence.
  - destruct r as [f|e| |]; [right; by exists f|left|by destruct Hsafe..].
    subst fl'. destruct (ib_dir ib !! wi_name it) eqn:El; [left; left|].
    destruct Hpres as [Hin|Hs]; [|done]. apply elem_of_dom in Hin as [? ?]. congruence.
Qed.

Lemma inv_processed procs sched it f ok ib s s' us ts ts' bs ak rc fl un :
  (0 < procs)%nat → (∀ o, put_by_others (others_in sched) o) → process_write procs sched f s = (Ok ok, s') →
  inbox_inv (mkWorld ib s us (ts ++ (it, Opened f) :: ts') bs ak rc fl un) →
  inbox_inv (mkWorld ib s' us (ts ++ (it, Written ok) :: ts') bs ak rc (if ok then fl else wi_name it :: fl) un).
Proof.
  intros Hp Ho Hpw (c & Hcs & Hc & Hdir & Hus & Hcnt & Hit & Hak & Hkept). cbn in *.
  destruct (proj1 (proj2 Hit) it (Opened f) (in_mid _ _ _)) as [(body & root & Hname & Hin & Hfile) _].
  destruct (process_write_spec procs sched f s s' c ok body root Hp Ho Hcs Hc Hfile Hpw) as (c' & Hcs' & Hc' & Hd & Hst).
  assert (settled bs (if ok then fl else wi_name it :: fl) c' (wi_name it)) as Hset.
  { destruct ok; [right; exists body; by split_and!; auto|left; left]. }
  eapply (step_task it (Opened f) _ ib ib s' us ts ts' bs ak rc fl _ un c c'); try done; auto.
  destruct ok; [done|by intros ? ?; right].
Qed.

Lemma inv_end it ok ib s us ts ts' bs ak rc fl un :
  inbox_inv (mkWorld ib s us (ts ++ (it, Written ok) :: ts') bs ak rc fl un) →
  inbox_inv (mkWorld (snd (process_end (wi_name it) ok ib)) s us (ts ++ (it, Ended) :: ts') bs ak rc fl un).
Proof.
  intros (c & Hcs & Hc & Hdir & Hus & Hcnt & Hit & Hak & Hkept). cbn in *.
  pose proof (process_end_frame (wi_name it) ok ib) as Hf. destruct (process_end (wi_name it) ok ib) as [r ib'].
  destruct Hf as (_ & Hq & Ht & Hd). pose proof (proj1 (proj2 Hit) it (Written ok) (in_mid _ _ _)) as Hset. cbn in *.
  eapply (step_task it (Written ok) _ ib ib' s us ts ts' bs ak rc fl fl un c c); try done; auto.
  - intros n Hn. destruct Hd as [-> | ->]; [by left|]. destruct (decide (n = wi_name it)) as [->|Hne]; [by right|left].
    rewrite dom_delete. set_solver.
  - destruct Hd as [-> | ->]; [done|apply delete_subseteq].
Qed.

Lemma inv_finish it ib s us ts ts' bs ak rc fl un :
  inbox_inv (mkWorld ib s us (ts ++ (it, Ended) :: ts') bs ak rc fl un) →
  inbox_inv (mkWorld (finish_work (wi_root it) ib) s us (ts ++ ts') bs ak rc fl un).
Proof.
  intros (c & Hcs & Hc & Hdir & Hus & Hcnt & (Hit1 & Hit2 & Hit3) & Hak & Hkept). cbn in *. exists c. cbn.
  assert (∀ i, held (ib_work ib) (ts ++ (it, Ended) :: ts') i → held (ib_work ib) (ts ++ ts') i ∨ settled bs fl c (wi_name i)) as Hh.
  { intros i [?|[Hin|[f Hin]]]; left; [by left|right..].
    - left. rewrite elem_of_app, elem_of_cons in *. destruct Hin as [?|[[=]|?]]; auto.
    - right. exists f. rewrite elem_of_app, elem_of_cons in *. destruct Hin as [?|[[=]|?]]; auto. }
  assert (ib_dir (finish_work (wi_root it) ib) = ib_dir ib ∧ ib_tmp (finish_work (wi_root it) ib) = ib_tmp ib ∧
          ib_work (finish_work (wi_root it) ib) = ib_work ib) as (-> & -> & ->) by (unfold finish_work; by case_match).
  split_and!; try done.
  - apply counts_finish. eapply counts_perm, Hcnt. rewrite !fmap_app. cbn. rewrite !app_assoc. symmetry. apply Permutation_middle.
  - split_and!; [done| |done]. intros i t Hin. apply Hit2, in_drop, Hin.
  - eapply acks_ok_mono, Hak; auto.
  - eapply kept_ok_mono, Hkept; auto. intros n [?|Hp]; [by left|]. eapply pending_mono, Hp; auto.
Qed.

Lemma inv_put k d ib s us ts bs ak rc fl un :
  failed s = None → Validate k = Ok tt → verifyObject k d = Ok tt → inbox_inv (mkWorld ib s us ts bs ak rc fl un) →
  inbox_inv (mkWorld ib (snd (Packstore.Put k d s)) us ts bs ak rc fl un).
Proof.
  intros Hf Hv Hver (c & Hcs & Hc & Hdir & Hus & Hcnt & Hit & Hak & Hkept).
  cbn [w_ib w_store w_uploads w_tasks w_bodies w_acked w_received w_failed w_unsynced] in *.
  pose proof (Put_spec s c k d Hcs Hc Hf Hv Hver) as Hp. unfold wp in Hp. pose proof (observed_same k s) as (_ & _ & _ & _ & Hc1 & _).
  destruct (Packstore.Put k d s) as [r s']. destruct Hp as (_ & Hb & _ & c' & Hcs' & Hor & _). cbn [fst snd] in *.
  assert (dom c ⊆ dom c') as Hd.
  { destruct Hor as [-> | ->]; [done|]. apply subseteq_dom. apply (put_object_sub c (mkObject k d)). }
  assert (closed s' = false) as Hc' by (unfold base in Hb; congruence). exists c'.
  assert (∀ n, settled bs fl c n → settled bs fl c' n) as HS by (intros n; by apply settled_mono).
  cbn [w_ib w_store w_uploads w_tasks w_bodies w_acked w_received w_failed w_unsynced]. split_and!; try done.
  - eapply items_ok_mono, Hit; auto.
  - eapply acks_ok_mono, Hak; auto.
  - eapply kept_ok_mono, Hkept; auto. intros n [?|?]; auto.
Qed.

Lemma inv_restart io ib ib' s s' us ts bs ak ak' rc fl un :
  ib_Open (ib_dir ib) (ib_tmp ib) (ib_failed ib) io = (Ok tt, ib') →
  (∀ c, contents s c → contents s' c) → closed s' = false →
  (∀ root body, (root, body) ∈ ak' → body ∈ bs ∧ mkWork (body_name body) root ∈ ib_work ib') →
  inbox_inv (mkWorld ib s us ts bs ak rc fl un) →
  inbox_inv (mkWorld ib' s' [] [] bs ak' rc (elements (dom (ib_dir ib) ∖ list_to_set (wi_name <$> ib_work ib')) ++ fl) []).
Proof.
  intros Hop Hcs' Hc' Hak' (c & Hcs & Hc & Hdir & Hus & Hcnt & Hit & Hak & Hrc & Hdom & Hun). cbn in *.
  destruct (ib_Open_spec _ _ _ _ _ Hop) as (Hw & Hg & Hsub).
  set (fl' := elements _ ++ fl). assert (fl ⊆ fl') as Hfl by (intros x Hx; apply elem_of_app; by right).
  assert (∀ n, settled bs fl c n → settled bs fl' c n) as HS by (intros n; by apply settled_mono).
  assert (∀ n, n ∈ dom (ib_dir ib) → settled bs fl' c n ∨ pending (ib_work ib') [] [] [] n) as Hn.
  { intros n Hin. destruct (decide (n ∈ wi_name <$> ib_work ib')) as [Hi|Hi].
    - apply list_elem_of_fmap in Hi as ([nm root] & -> & ?). right. left. exists root. by left.
    - left. left. apply elem_of_app. left. apply elem_of_elements. apply elem_of_difference. by rewrite elem_of_list_to_set. }
  assert (∀ n, settled bs fl c n ∨ pending (ib_work ib) ts us un n → settled bs fl' c n ∨ pending (ib_work ib') [] [] [] n) as Hp.
  { intros n Hor. assert (settled bs fl c n ∨ n ∈ dom (ib_dir ib)) as [?|?]; [|by auto|by auto].
    destruct Hor as [?|[[root [Hh|[Hh|[f Hh]]]]|[(u & Hu & <-)|Hu]]]; [by left|..].
    - destruct (proj1 Hit _ Hh); auto.
    - destruct (proj1 (proj2 Hit) _ _ Hh); auto.
    - destruct (proj1 (proj2 Hit) _ _ Hh) as [_ [?|?]]; auto.
    - destruct (proj2 (proj2 Hit) _ Hu); auto.
    - destruct (Hun _ Hu); auto. }
  exists c. cbn. rewrite app_nil_r. split_and!; try done; [auto|..].
  - intros name f Hf. apply Hdir. by eapply lookup_weaken.
  - by intros ? ? ?%elem_of_nil.
  - split_and!; [intros it Hin; left; by apply Hw|by intros ? ? ?%elem_of_nil|by intros ? ?%elem_of_nil].
  - intros root body [? ?]%Hak'. split; [done|right; by left].
  - split_and!; [intros body [? ?]%Hrc; split; [done|by apply Hp]| |by intros ? ?%elem_of_nil].
    intros n Hin. apply Hn. by apply (subseteq_dom _ _ Hsub).
Qed.

Lemma inbox_step_inv w w' : inbox_step w w' → inbox_inv w → inbox_inv w'.
Proof.
  intros Hs Hinv. destruct Hs.
  - by eapply inv_stage.
  - pose proof (Discard_frame (u_tmp u) ib) as Hd. destruct (Discard (u_tmp u) ib) as [r ib']. destruct Hd as (_ & Hsame & Ht).
    eapply step_upload; [exact Hinv|done|done| | |by left].
    2:{ intros v. rewrite !elem_of_app, elem_of_cons. split; [tauto|]. by intros [?|[[=]|?]]; auto. }
    destruct Hinv as (c & _ & _ & _ & Hus & _). eapply uploads_ok_mono, Hus; [|apply in_drop|done].
    intros t f _. by apply (delete_tmp _ _ (u_tmp u)).
  - pose proof (commit_stat_frame (u_tmp u) (Sum256 (u_body u)) ib) as Hd. rewrite H4 in Hd. destruct Hd as (Hsame & Ht & Hdup).
    set (new := match r with Ok false => [(u, Statted)] | _ => [] end).
    assert (∀ v st, (v, st) ∈ us ++ new ++ us' → (v, st) ∈ us ++ (u, Staged) :: us' ∨ (v, st) = (u, Statted)) as Hin.
    { intros v st. rewrite !elem_of_app, elem_of_cons. intros [?|[Hn|?]]; [auto| |auto]. right. subst new.
      destruct r as [[]| | |]; try by apply elem_of_nil in Hn. by apply list_elem_of_singleton in Hn. }
    assert (uploads_ok (ib_tmp ib) (us ++ (u, Staged) :: us') bs) as Hus by (by destruct Hinv as (c & _ & _ & _ & Hus & _)).
    eapply step_upload; [exact Hinv|done|done| | |].
    2:{ intros v. split; [by intros [?|[=]]%Hin|]. rewrite !elem_of_app, elem_of_cons. by intros [?|[[=]|?]]; auto. }
    2:{ intros body. destruct r as [[]| | |]; [|by left..]. intros [->|?]%elem_of_cons; [right|by left].
        split; [apply (Hus u Staged), in_mid|]. by apply elem_of_dom, Hdup. }
    intros v st Hv.
    assert (∃ st', (v, st') ∈ us ++ (u, Staged) :: us' ∧ (st ≠ Renamed → st' ≠ Renamed)) as (st' & Hv' & Hne).
    { destruct (Hin v st Hv) as [?|[= -> ->]]; [by exists st|]. exists Staged. split; [apply in_mid|done]. }
    destruct (Hus v st' Hv') as [? Hf]. split; [done|]. intros Hst f Hl. apply Hf; [auto|]. by apply (delete_tmp _ _ (u_tmp u) _ _ Ht).
  - by eapply inv_rename.
  - by apply inv_enqueue.
  - by eapply inv_take.
  - by apply inv_open.
  - by eapply inv_processed.
  - by apply inv_end.
  - by apply inv_finish.
  - by apply inv_put.
  - by eapply inv_restart.
Qed.

(** An empty inbox beside an open store. *)
Definition inbox_start (w : World) : Prop :=
  (∃ c, contents (w_store w) c) ∧ closed (w_store w) = false ∧ ib_dir (w_ib w) = ∅ ∧ ib_work (w_ib w) = [] ∧ ib_groups (w_ib w) = ∅ ∧
  w_uploads w = [] ∧ w_tasks w = [] ∧ w_acked w = [] ∧ w_received w = [] ∧ w_unsynced w = [].

Lemma inbox_start_inv w : inbox_start w → inbox_inv w.
Proof.
  intros ([c Hcs] & Hc & Hd & Hw & Hg & Hu & Ht & Ha & Hr & Hn). exists c. rewrite Hd, Hw, Hg, Hu, Ht, Ha, Hr, Hn.
  split_and!; try done.
  all: unfold items_ok, acks_ok, uploads_ok, kept_ok; split_and?; intros *; rewrite ?dom_empty_L; by intros ?%elem_of_nil || by intros ?%elem_of_empty.
Qed.

(** No two bodies that were sent share their hash. *)
Definition no_collision (bs : list bytes) : Prop := ∀ b b', b ∈ bs → b' ∈ bs → Sum256 b = Sum256 b' → b = b'.

(** The store has every object of the pack. *)
Definition ingested (s : Store) (body : bytes) : Prop := ∀ o, o ∈ pack_objs body → fst (Has (obj_key o) s) = Ok true.

Lemma held_waits ib ts it : counts (ib_groups ib) (ib_work ib ++ ts.*1) → held (ib_work ib) ts it → WaitFor_returns (wi_root it) ib = false.
Proof.
  intros Hcnt Hh. specialize (Hcnt (wi_root it)). unfold WaitFor_returns. rewrite Hcnt.
  assert (it ∈ filter (λ i, wi_root i = wi_root it) (ib_work ib ++ ts.*1)) as Hf.
  { apply list_elem_of_filter. split; [done|]. apply elem_of_app.
    destruct Hh as [?|[Hh|[f Hh]]]; [by left|right; by apply (list_elem_of_fmap_2 fst) in Hh..]. }
  destruct (filter _ _); [by apply elem_of_nil in Hf|]. cbn [length]. lia.
Qed.

(** C15. Setting a reference waits for its packs.  In every interleaving of uploads,
    workers, other writers, failing system calls and restarts, while nothing is deleted
    from the store and no two bodies that are sent have the same hash: [WaitFor] of a root does not return while an entry queued under the
    root is queued or with a worker; when it returns, every pack that was queued (or
    recovered) under that root since the start is in the store or has an error in the
    log; and every pack whose upload was ever answered with success is in the store, has
    such an error, is queued, with a worker or about to be queued, or is an entry that a
    commit left behind when it failed after its rename, which waits for the next start.
    A pack that is already in the directory when it comes again is answered with success
    and not queued once more: it is only waited for under the roots that its entry is
    queued for. *)
Theorem inbox_barrier w0 w :
  inbox_start w0 → rtc inbox_step w0 w → no_collision (w_bodies w) →
  (∀ it, held (ib_work (w_ib w)) (w_tasks w) it → WaitFor_returns (wi_root it) (w_ib w) = false) ∧
  (∀ root body, (root, body) ∈ w_acked w → WaitFor_returns root (w_ib w) = true →
    ingested (w_store w) body ∨ body_name body ∈ w_failed w) ∧
  (∀ body, body ∈ w_received w →
    ingested (w_store w) body ∨ body_name body ∈ w_failed w ∨
    (∃ root, held (ib_work (w_ib w)) (w_tasks w) (mkWork (body_name body) root)) ∨
    (∃ u, (u, Renamed) ∈ w_uploads w ∧ u_body u = body) ∨
    body_name body ∈ w_unsynced w).
Proof.
  intros Hst Hsteps Hnc. assert (inbox_inv w) as (c & Hcs & Hc & _ & Hus & Hcnt & _ & Hak & Hrc & _).
  { apply inbox_start_inv in Hst. induction Hsteps as [|w1 w2 w3 Hs _ IH]; [done|]. apply IH; [by eapply inbox_step_inv|done]. }
  assert (∀ b b', b ∈ w_bodies w → b' ∈ w_bodies w → body_name b = body_name b' → b = b') as Hinj by (intros b b' ? ? ?%entry_name_inj; auto).
  assert (∀ body, body ∈ w_bodies w → settled (w_bodies w) (w_failed w) c (body_name body) →
    ingested (w_store w) body ∨ body_name body ∈ w_failed w) as Hset.
  { intros body Hb [?|(b & Hin & Hn & Hs)]; [by right|left]. apply Hinj in Hn as ->; [|done..].
    intros o Ho. rewrite (Has_contents _ c _ Hcs Hc). cbn. rewrite bool_decide_eq_true_2; [done|]. by apply elem_of_dom, Hs. }
  split_and!.
  - intros it. by apply held_waits.
  - intros root body Hin Hwait. destruct (Hak root body Hin) as [Hb [?|Hh]]; [auto|exfalso].
    apply (held_waits _ _ _ Hcnt) in Hh. cbn in Hh. congruence.
  - intros body Hin. destruct (Hrc body Hin) as [Hb [?|[?|[(u & Hu & Hn)|?]]]]; [|by auto| |by auto].
    + destruct (Hset body Hb) as [?|?]; auto.
    + do 3 right. left. exists u. split; [done|]. apply Hinj; [by apply (Hus u Renamed)|done..].
Qed.
End invariant.

(** ** Applications *)
Section examples.
#[local] Existing Instance fuse_example.
#[local] Existing Instance zstd_example.
#[local] Existing Instance blake3_example.
#[local] Existing Instance verified_inv.

Definition put_meta (m : Meta) : bytes := put_bytes (m_Ref m) ++ put_bytes (m_Root m) ++ put_word (m_ReceivedAt m).
Definition get_meta (b : bytes) : result Meta :=
  match '(r, b) ← get_bytes b; '(k, b) ← get_bytes b; '(t, b) ← get_int b; Some (mkMeta r k t, b) with
  | Some (m, []) => if utf8_ValidString (m_Ref m) then Ok m else Err (errors_New "invalid UTF-8 string")
  | _ => Err (errors_New "malformed")
  end.
#[local] Instance metacbor_example : MetaCbor := {| marshal_meta m := Ok (put_meta m); unmarshal_meta := get_meta |}.

#[local] Instance metacbor_example_laws : MetaCborLaws.
Proof.
  split; cbn.
  - by intros.
  - intros b. unfold get_meta. by repeat case_match.
  - intros m b Hm Hu [= <-]. unfold get_meta, put_meta. do 2 (rewrite get_put_bytes; cbn [mbind option_bind]).
    rewrite <- (app_nil_r (put_word (m_ReceivedAt m))), get_put_int by done.
    destruct m. cbn in *. by rewrite Hu.
Qed.

(** A pack with one blob, uploaded under two roots. *)
Definition blob_example : Object := default (mkObject key_example []) (head log_example).
Definition body_example : bytes := default [] (match write_pack write_all [blob_example] [] with Ok b => Some b | _ => None end).
Definition root1 : Key := obj_key blob_example.
Definition root2 : Key := key_example.
Definition meta_of (root : Key) : Meta := mkMeta [] (kb root) 7.
Definition inbox_example : Inbox := mkInbox ∅ ∅ ∅ [] ∅ false [].

Definition tmp_example : bytes := [x74].
Definition u_example (root : Key) : upload := mkUpload tmp_example body_example root.
Definition hash_example : bytes := Sum256 body_example.

(** The inbox after each call of an upload under the first root. *)
Definition ib_staged : Inbox := snd (Stage tmp_example (meta_of root1) body_example None inbox_example).
Definition ib_renamed : Inbox := snd (commit_rename tmp_example hash_example ib_staged).
Definition ib_queued : Inbox := snd (commit_enqueue hash_example root1 ib_renamed).
Definition it_example : workItem := mkWork (body_name body_example) root1.
Definition ib_taken : Inbox := set_queue [] (ib_groups ib_queued) ib_queued.
Definition file_example : bytes := default [] (ib_dir ib_taken !! body_name body_example).
Definition events_example : list event := replicate 2 (Distribute false) ++ replicate 7 (Work 0 false).
Definition stored_example : Store := snd (process_write 1 events_example file_example empty_example).
Definition ib_done : Inbox := finish_work root1 (snd (process_end (body_name body_example) true ib_taken)).

Definition world0 : World := mkWorld inbox_example empty_example [] [] [] [] [] [] [].
Definition world_queued : World :=
  mkWorld ib_queued empty_example [] [] [body_example] [(root1, body_example)] [body_example] [] [].
Definition world_done : World :=
  mkWorld ib_done stored_example [] [] [body_example] [(root1, body_example)] [body_example] [] [].

Lemma upload_steps : rtc inbox_step world0 world_queued.
Proof.
  eapply rtc_l.
  { apply (step_stage tmp_example (meta_of root1) root1 body_example None (Ok (tmp_example, hash_example, zlen body_example)) inbox_example ib_staged).
    - rewrite (surjective_pairing (Stage _ _ _ _ _)). by f_equal.
    - reflexivity.
    - vm_compute. split; [discriminate|reflexivity].
    - intros b [= <-]. vm_compute. reflexivity.
    - reflexivity.
    - intros []%elem_of_nil. }
  eapply rtc_l.
  { apply (step_stat (u_example root1) (Ok false) ib_staged ib_staged _ [] []). reflexivity. }
  eapply rtc_l.
  { apply (step_rename (u_example root1) (Ok tt) ib_staged ib_renamed _ [] []).
    rewrite (surjective_pairing (commit_rename _ _ _)). by f_equal. }
  eapply rtc_l; [apply (step_enqueue (u_example root1) ib_renamed _ [] [])|]. apply rtc_refl.
Qed.

Lemma work_steps : rtc inbox_step world_queued world_done.
Proof.
  eapply rtc_l; [apply (step_take it_example ib_queued ib_taken); reflexivity|].
  eapply rtc_l; [apply (step_open it_example (Ok file_example) ib_taken ib_taken _ _ [] []); vm_compute; reflexivity|].
  eapply rtc_l.
  { apply (step_write 1 events_example it_example file_example true ib_taken empty_example stored_example _ [] []); [lia| |].
    - intros o [Hin|Hin]%elem_of_app; by apply elem_of_replicate in Hin as [? _].
    - rewrite (surjective_pairing (process_write _ _ _ _)). by f_equal. }
  eapply rtc_l; [apply (step_end it_example true ib_taken _ _ [] [])|].
  eapply rtc_l; [apply (step_finish it_example _ _ _ [] [])|]. apply rtc_refl.
Qed.

Lemma contents_start : contents empty_example ∅.
Proof. exists ∅. split; [|done]. split; [|done]. split; [done|]. exists [], []. by split_and!. Qed.

Lemma inbox_barrier_witness : ingested stored_example body_example ∨ body_name body_example ∈ w_failed world_done.
Proof.
  assert (inbox_start world0) as Hst by (split_and!; try reflexivity; exists ∅; exact contents_start).
  destruct (inbox_barrier world0 world_done Hst (transitivity upload_steps work_steps)) as (_ & Hb & _).
  - intros b b' ->%list_elem_of_singleton ->%list_elem_of_singleton _. reflexivity.
  - apply (Hb root1 body_example); [left|]. vm_compute. reflexivity.
Defined.

(** A second upload of the same pack under another root while the first is queued
    is dropped as a duplicate, and [WaitFor] of that root does not wait for it. *)
Example duplicate_not_awaited :
  let ib := snd (Stage [x75] (meta_of root2) body_example None ib_queued) in
  let '(added, ib) := Commit [x75] hash_example root2 ib in
  added = Ok false ∧ WaitFor_returns root2 ib = true ∧ WaitFor_returns root1 ib = false.
Proof. vm_compute. done. Qed.

(** A commit that fails to sync the directory leaves an entry that nobody will
    process; when the client tries again it is told that the pack is accepted. *)
Example unsynced_entry_lost :
  let ib := snd (Stage tmp_example (meta_of root1) body_example None inbox_example) in
  let '(r, ib) := Commit tmp_example hash_example root1 (set_ib_io [None; None; Some ["EIO"]] ib) in
  let ib' := snd (Stage [x75] (meta_of root1) body_example None ib) in
  let '(r', ib') := Commit [x75] hash_example root1 ib' in
  r = Err ["EIO"] ∧ r' = Ok false ∧ ib_work ib' = [] ∧ is_Some (ib_dir ib' !! body_name body_example).
Proof. vm_compute. split_and!; try done. by eexists. Qed.

(** The reference of the header comes from the query of the request as it is.  One that
    is not UTF-8 is written and cannot be read back: the pack is accepted, and its entry
    goes to the failed ones. *)
Example undecodable_reference :
  let meta := mkMeta [xff] (kb root1) 7 in
  let ib := snd (Stage tmp_example meta body_example None inbox_example) in
  let '(added, ib) := Commit tmp_example hash_example root1 ib in
  let '(r, ib, s) := process 1 events_example (body_name body_example) ib empty_example in
  added = Ok true ∧ r = Ok tt ∧ ib_dir ib = ∅ ∧ is_Some (ib_failed ib !! body_name body_example) ∧
  fst (Has root1 s) = Ok false.
Proof. vm_compute. split_and!; try done. by eexists. Qed.
End examples.
