(* ===== verification/Refstore.v ===== *)
(** * Package [refstore]: the store of reference records ([refstore.go])

    The records live in a Pebble database, which is the class [Pebble]: every
    call may fail, so a call returns its outcome and the next state of the
    database, and [db_map] is what the database holds.  [writeMu] makes [Put],
    [Delete] and [Wipe] atomic. *)

From Stdlib Require Import Init.Byte.
From S2P Require Import Prelude Machine Key Cborx.
From Stdlib Require Import ZifyBool ZifyNat.
Local Open Scope Z_scope.

(** ** The database *)
Class Pebble := {
  DB : Type;
  db_map : DB → gmap bytes bytes;
  db_Get : bytes → DB → result (option bytes) * DB;     (* [None] is [pebble.ErrNotFound] *)
  db_Set : bytes → bytes → DB → result unit * DB;
  db_Delete : bytes → DB → result unit * DB;
  db_Iter : DB → result (list (bytes * bytes)) * DB;    (* a whole scan *)
  db_Commit : list bytes → DB → result unit * DB;       (* a batch of deletions *)
}.

Definition ErrNotFound : string := "refstore: reference not found".

(** A write that fails may or may not have reached the database; a scan is
    in the order of the keys. *)
Definition write_law `{Pebble} (db db' : DB) (m : gmap bytes bytes) (r : result unit) : Prop :=
  safe r ∧ (db_map db' = db_map db ∨ db_map db' = m) ∧ (r = Ok tt → db_map db' = m).

Class PebbleLaws `{Pebble} := {
  db_Get_law k db : let '(r, db') := db_Get k db in
    safe r ∧ db_map db' = db_map db ∧ (∀ v, r = Ok v → v = db_map db !! k) ∧
    ∀ e, r = Err e → ¬ errors_Is e ErrNotFound;    (* the database does not know this package's error *)
  db_Set_law k v db : let '(r, db') := db_Set k v db in write_law db db' (<[k := v]> (db_map db)) r;
  db_Delete_law k db : let '(r, db') := db_Delete k db in write_law db db' (delete k (db_map db)) r;
  db_Iter_law db : let '(r, db') := db_Iter db in
    safe r ∧ db_map db' = db_map db ∧
    ∀ l, r = Ok l → l ≡ₚ map_to_list (db_map db) ∧ StronglySorted bytes_lt l.*1;
  db_Commit_law ks db : let '(r, db') := db_Commit ks db in
    write_law db db' (filter (λ '(k, _), k ∉ ks) (db_map db)) r;
}.

Section refstore.
Context `{Pebble}.

(** ** Operations *)
Definition Put (name record : bytes) (db : DB) : result unit * DB := db_Set name record db.

Definition Get (name : bytes) (db : DB) : result bytes * DB :=
  let '(r, db) := db_Get name db in
  (r ≫= (λ v, match v with Some v => Ok v | None => Err (errors_New ErrNotFound) end), db).

Definition Delete (name : bytes) (db : DB) : result unit * DB :=
  let '(r, db) := Get name db in
  match r with
  | Ok _ => db_Delete name db
  | Err e => (Err e, db)
  | Panic => (Panic, db)
  | Diverge => (Diverge, db)
  end.

Record Record_ := mkRecord { rec_Name : bytes; rec_Data : bytes }.

Definition All (db : DB) : result (list Record_) * DB :=
  let '(r, db) := db_Iter db in
  ((λ l : list (bytes * bytes), (λ '(k, v), mkRecord k v) <$> l) <$> r, db).

Definition Wipe (db : DB) : result unit * DB :=
  let '(r, db) := db_Iter db in
  match r with
  | Ok l => db_Commit l.*1 db
  | Err e => (Err e, db)
  | Panic => (Panic, db)
  | Diverge => (Diverge, db)
  end.

(** ** Facts *)
Context `{!PebbleLaws}.

Lemma Put_law name record db : let '(r, db') := Put name record db in
  write_law db db' (<[name := record]> (db_map db)) r.
Proof. apply db_Set_law. Qed.

Lemma Get_law name db : let '(r, db') := Get name db in
  safe r ∧ db_map db' = db_map db ∧ (∀ v, r = Ok v → db_map db !! name = Some v) ∧
  (∀ e, r = Err e → errors_Is e ErrNotFound → db_map db !! name = None) ∧
  (db_map db !! name = None → ∃ e, r = Err e).
Proof.
  unfold Get. pose proof (db_Get_law name db) as Hg. destruct (db_Get name db) as [r db'].
  destruct Hg as (Hs & Hm & Hv & He). split_and!; [|done|..].
  - apply safe_bind; [done|]. intros [v|] _; by split.
  - intros v (w & Hw & Hk)%bind_Ok. rewrite (Hv w) in Hk by done. by destruct (db_map db !! name); inv_ok.
  - intros e Hr Hnf. destruct r as [v|e'| |]; [|injection Hr as <-; by destruct (He e')|done..].
    rewrite (Hv v) in Hr by done. by destruct (db_map db !! name).
  - intros Hn. destruct r as [v|e| |]; [|by eexists|by destruct Hs..]. rewrite (Hv v), Hn by done. simpl. eauto.
Qed.

Lemma Delete_law name db : let '(r, db') := Delete name db in
  write_law db db' (delete name (db_map db)) r ∧ (r = Ok tt → is_Some (db_map db !! name)).
Proof.
  unfold Delete. pose proof (Get_law name db) as Hg. destruct (Get name db) as [r db1].
  destruct Hg as (Hs & Hm & Hv & _). destruct r as [v|e| |]; [|by split; [split_and!; [|left|]|]|by destruct Hs..].
  pose proof (db_Delete_law name db1) as Hd. destruct (db_Delete name db1) as [r db'].
  unfold write_law in *. rewrite Hm in Hd. split; [done|]. intros _. rewrite (Hv v) by done. by eexists.
Qed.

Lemma All_law db : let '(r, db') := All db in
  safe r ∧ db_map db' = db_map db ∧
  ∀ l, r = Ok l →
    StronglySorted bytes_lt (rec_Name <$> l) ∧
    ∀ name data, mkRecord name data ∈ l ↔ db_map db !! name = Some data.
Proof.
  unfold All. pose proof (db_Iter_law db) as Hi. destruct (db_Iter db) as [r db']. destruct Hi as (Hs & Hm & Hl).
  split_and!; [by destruct r, Hs|done|].
  intros l' (l & -> & ->)%fmap_Ok. destruct (Hl l eq_refl) as [Hp Hsort]. split.
  - rewrite <- list_fmap_compose. erewrite list_fmap_ext; [exact Hsort|]. by intros ? [].
  - intros name data. rewrite <- elem_of_map_to_list, <- Hp, list_elem_of_fmap. split.
    + by intros ([] & [= -> ->] & ?).
    + intros. by exists (name, data).
Qed.

Lemma Wipe_law db : let '(r, db') := Wipe db in write_law db db' ∅ r.
Proof.
  unfold Wipe. pose proof (db_Iter_law db) as Hi. destruct (db_Iter db) as [r db1]. destruct Hi as (Hs & Hm & Hl).
  destruct r as [l|e| |]; [|by split_and!; [|left|]|by destruct Hs..].
  destruct (Hl l eq_refl) as [Hp _].
  pose proof (db_Commit_law l.*1 db1) as Hc. destruct (db_Commit l.*1 db1) as [r db'].
  replace (filter _ (db_map db1)) with (∅ : gmap bytes bytes) in Hc; [by unfold write_law in *; rewrite Hm in Hc|].
  symmetry. apply map_empty. intros k. apply map_lookup_filter_None. right. intros v Hk Hn. apply Hn. rewrite Hp.
  apply list_elem_of_fmap. exists (k, v). split; [done|]. apply elem_of_map_to_list. by rewrite <- Hm.
Qed.
End refstore.

(** ** A database in memory

    The list holds the outcomes of the coming calls: [false] fails. *)
Section memory.
Definition memdb : Type := gmap bytes bytes * list bool.
Definition next_ok (db : memdb) : bool := match db.2 with b :: _ => b | [] => true end.
Definition call {A} (db : memdb) (a : A) (m : gmap bytes bytes) : result A * memdb :=
  if next_ok db then (Ok a, (m, tail db.2)) else (Err (errors_New "pebble"), (db.1, tail db.2)).

Definition le_entry (a b : bytes * bytes) : Prop := bytes_le a.1 b.1.
#[local] Instance le_entry_trans : Transitive le_entry.
Proof. intros a b c. apply bytes_le_trans. Qed.
#[local] Instance le_entry_total : Total le_entry.
Proof. intros a b. apply bytes_le_total. Qed.
#[local] Instance le_entry_dec : RelDecision le_entry := λ a b, bytes_le_dec a.1 b.1.

Definition pebble_example : Pebble := {|
  DB := memdb;
  db_map := fst;
  db_Get k db := call db (db.1 !! k) db.1;
  db_Set k v db := call db tt (<[k := v]> db.1);
  db_Delete k db := call db tt (delete k db.1);
  db_Iter db := call db (merge_sort le_entry (map_to_list db.1)) db.1;
  db_Commit ks db := call db tt (filter (λ '(k, _), k ∉ ks) db.1);
|}.

#[local] Existing Instance pebble_example.

Lemma call_write db m : let '(r, db') := call db tt m in write_law db db' m r.
Proof. unfold call. destruct (next_ok db); split_and!; try done; [by right|by left]. Qed.

Lemma call_read {A} (db : memdb) (a : A) : let '(r, db') := call db a db.1 in
  safe r ∧ db_map db' = db_map db ∧ (∀ v, r = Ok v → v = a) ∧ ∀ e, r = Err e → ¬ errors_Is e ErrNotFound.
Proof.
  unfold call. destruct (next_ok db); split_and!; try done; [by intros v [= ->]|].
  intros e [= <-]. vm_compute. intros Hin%list_elem_of_singleton. discriminate.
Qed.

Lemma sort_entries (m : gmap bytes bytes) :
  StronglySorted bytes_lt (merge_sort le_entry (map_to_list m)).*1.
Proof.
  assert (StronglySorted le_entry (merge_sort le_entry (map_to_list m))) as Hs.
  { apply (StronglySorted_merge_sort le_entry). }
  assert (NoDup (merge_sort le_entry (map_to_list m)).*1) as Hnd.
  { rewrite (merge_sort_Permutation le_entry). apply NoDup_fst_map_to_list. }
  induction Hs as [|x l _ IH Hx]; [constructor|]. apply NoDup_cons in Hnd as [Hn Hnd]. constructor; [by apply IH|].
  apply Forall_fmap, Forall_forall. intros y Hy. rewrite Forall_forall in Hx. specialize (Hx y Hy).
  apply bytes_le_lteq in Hx as [?|Heq]; [done|]. exfalso. apply Hn. rewrite Heq. by apply list_elem_of_fmap_2.
Qed.

Lemma pebble_example_laws : PebbleLaws.
Proof.
  split.
  - intros k db. apply (call_read db (db.1 !! k)).
  - intros k v db. apply call_write.
  - intros k db. apply call_write.
  - intros db. pose proof (call_read db (merge_sort le_entry (map_to_list db.1))) as Hr. simpl in *.
    destruct (call _ _ _) as [r db']. destruct Hr as (Hs & Hm & Hv & _). split_and!; [done..|].
    intros l ->%Hv. split; [apply merge_sort_Permutation|apply sort_entries].
  - intros ks db. apply call_write.
Qed.
End memory.
