(* ===== verification/Gc.v ===== *)
(** * Package [gc]: the mark-and-sweep collector
    ([gc.go], [collector.go], [cycle.go], [status.go])

    A cycle snapshots the roots of all references behind the write barrier,
    marks what they reach while writers run, and compacts the packs.  The
    operations of the collector are functions on the object store and the
    reference database; the points between which other goroutines run are
    separate functions, which [cycle] composes and which the relation
    [gc_step] of GcProtocol interleaves with writers, reference updates, failing
    disks and wipes.

    A stack is a list whose head is the last element of the Go slice.  Floating
    point numbers are the class [Float64]; the clock, the space left on the
    disk and the cancellation of a context are arguments. *)

From Stdlib Require Import Init.Byte.
From S2P Require Import Prelude Machine Key Chunkers FsEncode Instances FsWalk PackRecord Footer Packstore PackstoreRep Compact Reference Refstore.
From Stdlib Require Import ZifyBool ZifyNat.
Local Open Scope Z_scope.
Local Open Scope store_scope.

(** ** Options and pacing ([gc.go]) *)
Class Float64 := {
  float64 : Type;
  f_zero : float64;
  f_half : float64;
  f_tenth : float64;
  f_lt0 : float64 → bool;                  (* f < 0 *)
  f_le0 : float64 → bool;                  (* f <= 0 *)
  f_ratio : Z → Z → float64;               (* float64(a) / float64(b) *)
  f_reaches : float64 → Z → Z → bool;      (* float64(dead) >= f * float64(total) *)
}.

Definition Second : Z := 1000000000.
Definition DefaultGrace : Z := 3600 * Second.

Section options.
Context `{Float64}.

Definition DefaultGarbage : float64 := f_half.
Definition minFreeGarbage : float64 := f_tenth.

Record Options := mkOptions {
  Grace : Z;
  Garbage : float64;
  MinFree : Z;
  Rate : Z;
  Interval : Z;
  Jobs : Z;
}.

Definition withDefaults (gomaxprocs : Z) (o : Options) : Options :=
  mkOptions (if Grace o <=? 0 then DefaultGrace else Grace o)
            (if f_le0 (Garbage o) then DefaultGarbage else Garbage o)
            (MinFree o) (Rate o) (Interval o)
            (if Jobs o <=? 0 then gomaxprocs else Jobs o).
End options.

(** Arithmetic of [int64]: division truncates. *)
Definition throttleOwed (n rate : Z) : Z :=
  i64 (i64 (Z.quot n rate * Second) + Z.quot (i64 (Z.rem n rate * Second)) rate).

Record throttle := mkThrottle { th_rate : Z; th_start : Z; th_bytes : Z }.

(** How long [pace] sleeps, and the counter after it. *)
Definition pace (now : Z) (t : throttle) (n : Z) : Z * throttle :=
  if th_rate t <=? 0 then (0, t) else
  let bytes := i64 (th_bytes t + n) in
  let ahead := i64 (throttleOwed bytes (th_rate t) - (now - th_start t)) in
  ((if ahead >? 0 then ahead else 0), mkThrottle (th_rate t) (th_start t) bytes).

(** [unix.Statfs]: [None] when the call fails. *)
Record Statfs_t := mkStatfs { st_Blocks : Z; st_Bavail : Z; st_Bsize : Z }.

Definition freeBelow (st : option Statfs_t) (min : Z) : bool :=
  match st with
  | None => false
  | Some st =>
      let min := if min =? 0 then u64 (st_Blocks st * u64 (st_Bsize st)) / 20 else min in
      u64 (st_Bavail st * u64 (st_Bsize st)) <? min
  end.

(** ** Roots and marking ([collector.go]) *)
Section collector.
Context `{Blake3} `{Fuse} `{Zstd} `{Cbor} `{RefCbor} `{Pebble} `{Float64}.

(** The root a stored record names. *)
Definition record_root (data : bytes) : result Key :=
  ref ← wrap "gc: reference %q" (Decode data);
  wrap "gc: reference %q" (Key.Parse (ref_Key ref)).

Definition roots (db : DB) : result (list Key) * DB :=
  let '(r, db) := Refstore.All db in
  (r ≫= mapR (λ rec, record_root (rec_Data rec)), db).

(** One turn of the loop of [markFrom], with [k] popped. *)
Definition mark_step (live : MarkSet) (k : Key) (stack : list Key) : M (MarkSet * list Key) :=
  x <- liftM (Mark live k);;
  let '(newly, present, live) := x in
  if negb present then failM (errors_New "gc: mark: object %s missing from store") else
  if negb newly then retM (live, stack) else
  if (Type_ k =? Blob) || (Type_ k =? XattrSet) then retM (live, stack) else
  data <- Packstore.Get k;;
  children <- liftM (ChildKeys k data);;
  retM (live, rev children ++ stack).

(** [ctx n] is [ctx.Err()] in turn [n]; it is looked at every 1024 turns. *)
Definition ctx_check (ctx : nat → option error) (n : nat) : option error :=
  if (n mod 1024 =? 0)%nat then ctx n else None.

Fixpoint markFrom_loop (ctx : nat → option error) (fuel n : nat) (live : MarkSet) (stack : list Key) : M MarkSet :=
  match stack with
  | [] => retM live
  | k :: stack =>
      match fuel with
      | O => liftM Diverge
      | S fuel =>
          match ctx_check ctx n with
          | Some e => failM e
          | None =>
              x <- mark_step live k stack;;
              markFrom_loop ctx fuel (S n) x.1 x.2
          end
      end
  end.

Definition markFrom (ctx : nat → option error) (fuel : nat) (live : MarkSet) (root : Key) : M MarkSet :=
  markFrom_loop ctx fuel 0 live [root].

Fixpoint mark_roots (ctx : nat → option error) (fuel : nat) (live : MarkSet) (rs : list Key) : M MarkSet :=
  match rs with
  | [] => retM live
  | root :: rs => live <- markFrom ctx fuel live root;; mark_roots ctx fuel live rs
  end.

Definition markLive (ctx : nat → option error) (fuel : nat) (rs : list Key) : M MarkSet :=
  live <- getM NewMarkSet;; mark_roots ctx fuel live rs.

(** [live.Contains] as the predicate [Compact] calls. *)
Definition ms_live (live : MarkSet) (k : Key) : bool :=
  match ms_Contains live k with Ok b => b | _ => false end.

(** ** References and writes *)

(** [PrepareRef] after it took the lock.  The walk reads while writers run:
    [at_ k] is the store at the time it reads [k].  On success the caller keeps
    the lock until it commits or aborts. *)
Definition PrepareRef (pick : list error → error) (fuel : nat) (at_ : Key → Store) (root : Key) : M unit :=
  match CheckComplete pick (λ k, fst (Packstore.Get k (at_ k))) (λ k, fst (Has k (at_ k))) fuel root with
  | Ok keys => ObserveKeys keys
  | Err e => failM (Errorf "gc: walking root %s" e)
  | Panic => liftM Panic
  | Diverge => liftM Diverge
  end.

Definition ReleaseRef (root : Key) : result unit := Ok tt.

(** ** A cycle ([cycle.go]) *)
Definition ErrCycleRunning : string := "gc: a cycle is already running".

Record CycleStats := mkCycleStats {
  cs_Threshold : float64;
  cs_Marked : Z;
  cs_Scored : Z;
  cs_Reaped : list Z;
  cs_CopiedRecords : Z;
  cs_CopiedBytes : Z;
  cs_FreedBytes : Z;
}.

Record Collector := mkCollector {
  c_objects : Store;
  c_refs : DB;
  c_opts : Options;
  c_last : option CycleStats;
  c_lastErr : option error;
  c_running : bool;     (* [cycleMu] is held *)
}.

(** The line above which packs are reaped. *)
Definition threshold (opts : Options) (st : option Statfs_t) (garbage : float64) : float64 :=
  if negb (f_lt0 garbage) then garbage else
  if freeBelow st (MinFree opts) then minFreeGarbage else Garbage opts.

(** Barrier on, then the roots, under the reference lock. *)
Definition cycle_snapshot (s : Store) (db : DB) : result (list Key) * Store * DB :=
  let '(_, s) := BeginBarrier s in
  let '(r, db) := roots db in
  match r with
  | Ok rs => (Ok rs, s, db)
  | r => let '(_, s) := AbortBarrier s in (r, s, db)
  end.

(** The mark, which gives up the barrier when it fails. *)
Definition cycle_mark (ctx : nat → option error) (fuel : nat) (rs : list Key) : M MarkSet := λ s,
  let '(r, s) := markLive ctx fuel rs s in
  match r with
  | Ok live => (Ok live, s)
  | r => let '(_, s) := AbortBarrier s in (r, s)
  end.

(** The sweep, under the reference lock.  [before id] is whether the file of
    segment [id] is older than the horizon. *)
Definition sweep_opts (line : float64) (before : Z → bool) : CompactOpts := mkCompactOpts (f_reaches line) (Some before).

Definition cycle_sweep (sched : list action) (cancelled : option error) (line : float64) (before : Z → bool)
    (live : MarkSet) (s : Store) : CompactStats * result unit * Store :=
  match cancelled with
  | Some e => let '(_, s) := AbortBarrier s in (zeroStats, Err e, s)
  | None => Compact sched (ms_live live) (sweep_opts line before) s
  end.

(** What the world does to a cycle: the scheduler, the context, the disk, the
    clock, and [e_mid], which stands for everything other goroutines do to the
    store between the snapshot and the sweep (the hook [midMark]). *)
Record cycle_env := mkEnv {
  e_ctx : nat → option error;
  e_cancelled : option error;
  e_statfs : option Statfs_t;
  e_before : Z → bool;
  e_sched : list action;
  e_mid : Store → Store;
}.

Definition zeroCycle (line : float64) : CycleStats := mkCycleStats line 0 0 [] 0 0 0.

Definition cycle (env : cycle_env) (fuel : nat) (garbage : float64) (c : Collector) : CycleStats * result unit * Collector :=
  let line := threshold (c_opts c) (e_statfs env) garbage in
  let put s db := mkCollector s db (c_opts c) (c_last c) (c_lastErr c) (c_running c) in
  let stats := zeroCycle line in
  let '(r, s, db) := cycle_snapshot (c_objects c) (c_refs c) in
  match r with
  | Ok rs =>
      let '(r, s) := cycle_mark (e_ctx env) fuel rs s in
      match r with
      | Ok live =>
          let '(cs, r, s) := cycle_sweep (e_sched env) (e_cancelled env) line (e_before env) live (e_mid env s) in
          (mkCycleStats line (Marked live) (SegmentsScanned cs) (Victims cs) (RecordsCopied cs)
                        (i64 (BytesCopied cs)) (i64 (BytesFreed cs)), r, put s db)
      | Err e => (stats, Err e, put s db)
      | Panic => (stats, Panic, put s db)
      | Diverge => (stats, Diverge, put s db)
      end
  | Err e => (stats, Err e, put s db)
  | Panic => (stats, Panic, put s db)
  | Diverge => (stats, Diverge, put s db)
  end.

(** A second cycle is refused; the outcome of a cycle is kept for the status. *)
Definition Run (env : cycle_env) (fuel : nat) (garbage : float64) (c : Collector) : result CycleStats * Collector :=
  if c_running c then (Err (errors_New ErrCycleRunning), c) else
  let '(stats, r, c) := cycle env fuel garbage c in
  let err := match r with Err e => Some e | _ => None end in
  (r ≫= (λ _, Ok stats), mkCollector (c_objects c) (c_refs c) (c_opts c) (Some stats) err false).
(** [Wipe] waits out a running cycle, then runs [reset]; the server's reset wipes
    the references first. *)
Definition reset (s : Store) (db : DB) : result unit * Store * DB :=
  let '(r, db) := Refstore.Wipe db in
  match r with
  | Ok _ => let '(r, s) := Packstore.Wipe s in (wrap "wiping objects" r, s, db)
  | r => (wrap "wiping references" r, s, db)
  end.

Definition collector_Wipe (c : Collector) : result unit * Collector :=
  let '(r, s, db) := reset (c_objects c) (c_refs c) in
  match r with
  | Ok _ => (Ok tt, mkCollector s db (c_opts c) None None false)
  | r => (r, mkCollector s db (c_opts c) (c_last c) (c_lastErr c) false)
  end.

(** ** Reports ([status.go]) *)
Record PackStatus := mkPackStatus {
  ps_ID : Z;
  ps_Sealed : Z;
  ps_Body : Z;
  ps_Keys : Z;
  ps_Live : Z;
  ps_Garbage : float64;
  ps_Eligible : bool;
}.

Record Status_ := mkStatus {
  sta_Packs : list PackStatus;
  sta_LiveBytes : Z;
  sta_GarbageBytes : Z;
  sta_Refs : Z;
  sta_Marked : Z;
  sta_Last : option CycleStats;
  sta_LastError : option error;
}.

(** One row of the liveness report; the active segment has none. *)
Definition pack_status (sealedAt : Z → Z) (horizon : Z) (sl : SegmentLiveness) : option PackStatus :=
  if negb (sl_Sealed sl) then None else
  let body := i64 (u64 (LiveBytes sl + DeadBytes sl)) in
  Some (mkPackStatus (sl_ID sl) (sealedAt (sl_ID sl)) body (u64 (LiveKeys sl + DeadKeys sl)) (i64 (LiveBytes sl))
          (if body >? 0 then f_ratio (DeadBytes sl) body else f_zero) (sealedAt (sl_ID sl) <? horizon)).

(** [sealedAt] gives the times [Segments] reports. *)
Definition Status (ctx : nat → option error) (fuel : nat) (sealedAt : Z → Z) (now : Z) (c : Collector) :
    result Status_ * Collector :=
  let put s db := mkCollector s db (c_opts c) (c_last c) (c_lastErr c) (c_running c) in
  let '(r, db) := Refstore.All (c_refs c) in
  match r with
  | Ok recs =>
      let '(r, db) := roots db in
      match r with
      | Ok rs =>
          let '(r, s) := markLive ctx fuel rs (c_objects c) in
          (live ← r;
           report ← Liveness (ms_live live) s;
           let packs := omap (pack_status sealedAt (now - Grace (c_opts c))) report in
           let sealed_rows := filter (λ sl, sl_Sealed sl = true) report in
           Ok (mkStatus packs (foldl (λ n p, i64 (n + ps_Live p)) 0 packs)
                 (foldl (λ n sl, i64 (n + i64 (DeadBytes sl))) 0 sealed_rows) (zlen recs) (Marked live)
                 (c_last c) (c_lastErr c)), put s db)
      | Err e => (Err e, put (c_objects c) db)
      | Panic => (Panic, put (c_objects c) db)
      | Diverge => (Diverge, put (c_objects c) db)
      end
  | Err e => (Err e, put (c_objects c) db)
  | Panic => (Panic, put (c_objects c) db)
  | Diverge => (Diverge, put (c_objects c) db)
  end.

(** The walk of [reaches]; [get] is [c.objects.Get]. *)
Fixpoint reaches_loop (get : Key → result bytes) (k : Key) (fuel : nat) (visited : gset Key) (stack : list Key) :
    result bool :=
  match stack with
  | [] => Ok false
  | cur :: stack =>
      match fuel with
      | O => Diverge
      | S fuel =>
          if bool_decide (cur = k) then Ok true else
          if bool_decide (cur ∈ visited) then reaches_loop get k fuel visited stack else
          let visited := {[cur]} ∪ visited in
          if (Type_ cur =? Blob) || (Type_ cur =? XattrSet) then reaches_loop get k fuel visited stack else
          data ← get cur;
          children ← ChildKeys cur data;
          reaches_loop get k fuel visited (rev children ++ stack)
      end
  end.

Definition reaches (get : Key → result bytes) (fuel : nat) (root k : Key) : result bool :=
  reaches_loop get k fuel ∅ [root].

(** The names whose tree reaches [k], in the order of the records. *)
Fixpoint why_names (get : Key → result bytes) (fuel : nat) (k : Key) (recs : list Record_) : result (list bytes) :=
  match recs with
  | [] => Ok []
  | r :: recs =>
      root ← record_root (rec_Data r);
      found ← wrap "gc: reference %q" (reaches get fuel root k);
      names ← why_names get fuel k recs;
      Ok (if found : bool then rec_Name r :: names else names)
  end.

Definition Why (get : Key → result bytes) (fuel : nat) (k : Key) (db : DB) : result (list bytes) * DB :=
  let '(r, db) := Refstore.All db in
  (recs ← r; names ← why_names get fuel k recs; Ok (merge_sort bytes_le names), db).
End collector.
