(* ===== verification/GcProtocol.v ===== *)
(** * The collector among its clients

    A [World] is the object store, the reference database, the holders of the
    shared reference lock and the phase of the cycle.  [gc_step] interleaves the
    steps of a cycle with writers, reference updates, deletions, wipes and
    failures of the disk.  What a goroutine does while it holds the reference
    lock exclusively is one step; the lock is free for it only when nobody holds
    it shared.  The mark advances one object at a time.

    The walk of a reference update reads the store while writers change it: a
    holder that is [Preparing] remembers the states the store went through since
    the walk began, and every read of the walk is answered by one of them. *)

From Stdlib Require Import Init.Byte.
From S2P Require Import Prelude Machine Key FsEncode FsWalk PackRecord Footer Packstore PackstoreRep PackstoreFacts Compact MarkSetFacts CompactFacts Reference Refstore Gc.
From Stdlib Require Import ZifyBool ZifyNat.
Local Open Scope Z_scope.

Inductive holder :=
| Writing                                            (* between BeginWrite and its release *)
| Preparing (root : Key) (seen_states : list Store)  (* in PrepareRef *)
| Prepared (root : Key).                             (* between PrepareRef and commit or abort *)

Inductive phase :=
| Idle
| Snapshotted (rs : list Key)
| Marking (rs : list Key) (live : MarkSet) (stack todo : list Key)
| AllMarked (rs : list Key) (live : MarkSet).            (* marked, not yet swept *)

Definition saw (s : Store) (h : holder) : holder :=
  match h with Preparing root l => Preparing root (s :: l) | h => h end.

Section protocol.
Context `{Blake3} `{Fuse} `{Zstd} `{ItemInv} `{Cbor} `{RefCbor} `{Pebble} `{Float64}.

Record World := mkWorld { w_store : Store; w_refs : DB; w_held : list holder; w_phase : phase }.

Inductive gc_step : World → World → Prop :=
| step_disk l s db hs ph :
    gc_step (mkWorld s db hs ph) (mkWorld (set_io l s) db hs ph)
| step_begin_write s db hs ph :
    gc_step (mkWorld s db hs ph) (mkWorld s db (Writing :: hs) ph)
| step_end_write s db hs1 hs2 ph :
    gc_step (mkWorld s db (hs1 ++ Writing :: hs2) ph) (mkWorld s db (hs1 ++ hs2) ph)
| step_put k data s db hs ph :
    Writing ∈ hs → Validate k = Ok tt → item_inv k data → nextID s < 2 ^ 64 - 1 →
    let s' := snd (Packstore.Put k data s) in
    gc_step (mkWorld s db hs ph) (mkWorld s' db (saw s' <$> hs) ph)
| step_batch o seen s db hs ph :
    Writing ∈ hs → yields_valid (inl o) → nextID s < 2 ^ 64 - 1 →
    let s' := snd (batch_one o seen s) in
    gc_step (mkWorld s db hs ph) (mkWorld s' db (saw s' <$> hs) ph)
| step_prepare_begin root s db hs ph :
    gc_step (mkWorld s db hs ph) (mkWorld s db (Preparing root [s] :: hs) ph)
| step_prepare pick fuel at_ root l s s' db hs1 hs2 ph :
    (∀ k, ∃ s0 io0, s0 ∈ l ∧ at_ k = set_io io0 s0) →
    PrepareRef pick fuel at_ root s = (Ok tt, s') →
    gc_step (mkWorld s db (hs1 ++ Preparing root l :: hs2) ph)
            (mkWorld s' db (saw s' <$> (hs1 ++ Prepared root :: hs2)) ph)
| step_prepare_fail root l s db hs1 hs2 ph :
    gc_step (mkWorld s db (hs1 ++ Preparing root l :: hs2) ph) (mkWorld s db (hs1 ++ hs2) ph)
| step_put_ref name body ref root r s db db' hs ph :
    Prepared root ∈ hs → Decode body = Ok ref → Key.Parse (ref_Key ref) = Ok root →
    Refstore.Put name body db = (r, db') →
    gc_step (mkWorld s db hs ph) (mkWorld s db' hs ph)
| step_release root s db hs1 hs2 ph :
    gc_step (mkWorld s db (hs1 ++ Prepared root :: hs2) ph) (mkWorld s db (hs1 ++ hs2) ph)
| step_delete_ref name r s db db' hs ph :
    Refstore.Delete name db = (r, db') →
    gc_step (mkWorld s db hs ph) (mkWorld s db' hs ph)
| step_snapshot r s s' db db' :
    cycle_snapshot s db = (r, s', db') →
    gc_step (mkWorld s db [] Idle)
            (mkWorld s' db' [] (match r with Ok rs => Snapshotted rs | _ => Idle end))
| step_new_marks rs s db hs :
    gc_step (mkWorld s db hs (Snapshotted rs)) (mkWorld s db hs (Marking rs (NewMarkSet s) [] rs))
| step_root rs live root todo s db hs :
    gc_step (mkWorld s db hs (Marking rs live [] (root :: todo))) (mkWorld s db hs (Marking rs live [root] todo))
| step_mark rs live live' k stack stack' todo s s' db hs :
    mark_step live k stack s = (Ok (live', stack'), s') →
    gc_step (mkWorld s db hs (Marking rs live (k :: stack) todo)) (mkWorld s' db hs (Marking rs live' stack' todo))
| step_marked rs live s db hs :
    gc_step (mkWorld s db hs (Marking rs live [] [])) (mkWorld s db hs (AllMarked rs live))
| step_abort s db hs ph :          (* the mark failed, or the context was cancelled *)
    ph ≠ Idle →
    gc_step (mkWorld s db hs ph) (mkWorld (snd (AbortBarrier s)) db hs Idle)
| step_sweep sched cancelled line before rs live cs r s s' db :
    nextID s < 2 ^ 63 → zlen (sealed s) < 2 ^ 31 - 1 →
    cycle_sweep sched cancelled line before live s = (cs, r, s') →
    gc_step (mkWorld s db [] (AllMarked rs live)) (mkWorld s' db [] Idle)
| step_wipe r s s' db db' hs :
    Forall (λ h, h = Writing) hs → reset s db = (r, s', db') →
    gc_step (mkWorld s db hs Idle) (mkWorld s' db' hs Idle).

(** ** The object graph of a store's contents *)
Definition cget (c : gmap Key bytes) (k : Key) : result bytes :=
  match c !! k with Some d => Ok d | None => Err (errors_New ErrObjectNotFound) end.
Definition chas (c : gmap Key bytes) (k : Key) : result bool := Ok (bool_decide (is_Some (c !! k))).

Definition closure (c : gmap Key bytes) (root k : Key) : Prop := reachable (cget c) root k.

(** Every object reachable from [root] is stored and can be decoded. *)
Definition complete (c : gmap Key bytes) (root : Key) : Prop :=
  ∀ k, closure c root k → present (cget c) (chas c) k.
End protocol.
