(* ===== verification/GcFacts.v ===== *)
(** * The collector: completeness of references is invariant

    The invariant of [gc_step] and its preservation by every step, and the
    progress of the mark. *)

From Stdlib Require Import Init.Byte.
From S2P Require Import Prelude Machine Key FsEncode FsWalk PackRecord Footer Packstore PackstoreRep PackstoreFacts Compact MarkSetFacts CompactFacts Reference Refstore Gc GcProtocol.
From Stdlib Require Import ZifyBool ZifyNat.
Local Open Scope Z_scope.

(** ** The object graph *)
Section graph.
Context `{Cbor}.
Implicit Types (c : gmap Key bytes) (r k x : Key).

Lemma Ok_eq {A} (a b : A) : Ok a = Ok b ↔ a = b.
Proof. split; [apply Ok_inj|by intros ->]. Qed.

Lemma cget_Ok c k d : cget c k = Ok d ↔ c !! k = Some d.
Proof. unfold cget. destruct (c !! k); naive_solver. Qed.

Lemma present_dom c k : present (cget c) (chas c) k → k ∈ dom c.
Proof.
  unfold present, chas. rewrite elem_of_dom. destruct (is_leaf k).
  - intros [= ?%bool_decide_eq_true]. done.
  - intros (d & cs & Hd%cget_Ok & _). by exists d.
Qed.

Lemma present_mono c c' k : c ⊆ c' → present (cget c) (chas c) k → present (cget c') (chas c') k.
Proof.
  intros Hsub. unfold present, chas. destruct (is_leaf k).
  - rewrite !Ok_eq, !bool_decide_eq_true. intros [d Hd]. exists d. by eapply lookup_weaken.
  - intros (d & cs & Hd%cget_Ok & Hcs). exists d, cs. split; [|done]. apply cget_Ok. by eapply lookup_weaken.
Qed.

Lemma child_mono c c' k x : c ⊆ c' → child_of (cget c) k x → child_of (cget c') k x.
Proof.
  intros Hsub (Hl & d & cs & Hd%cget_Ok & ?). split; [done|]. exists d, cs. split; [|done].
  apply cget_Ok. by eapply lookup_weaken.
Qed.

(** The children of a complete object do not depend on what else is stored. *)
Lemma child_stable c c' k x : c ⊆ c' → present (cget c) (chas c) k →
  child_of (cget c') k x → child_of (cget c) k x.
Proof.
  intros Hsub Hp (Hl & d & cs & Hd%cget_Ok & Hcs & Hx). unfold present in Hp. rewrite Hl in Hp.
  destruct Hp as (d' & cs' & Hd'%cget_Ok & Hcs'). pose proof (lookup_weaken _ _ _ _ Hd' Hsub).
  split; [done|]. exists d', cs'. split; [by apply cget_Ok|]. split; [done|]. congruence.
Qed.

Lemma closure_mono c c' r k : c ⊆ c' → closure c r k → closure c' r k.
Proof. intros Hsub Hr. induction Hr as [|k x y Hx _ IH]; [apply rtc_refl|]. eapply rtc_l; [by eapply child_mono|done]. Qed.

Lemma complete_child c r x : complete c r → child_of (cget c) r x → complete c x.
Proof. intros Hc Hx k Hk. apply Hc. by eapply rtc_l. Qed.

Lemma closure_stable c c' r k : c ⊆ c' → complete c r → closure c' r k → closure c r k.
Proof.
  intros Hsub Hc Hr. unfold closure, reachable in *. induction Hr as [|r x k Hx _ IH]; [apply rtc_refl|].
  assert (child_of (cget c) r x) as Hx' by (eapply child_stable; [done|apply Hc, rtc_refl|done]).
  eapply rtc_l; [done|]. apply IH. by eapply complete_child.
Qed.

Lemma complete_mono c c' r : c ⊆ c' → complete c r → complete c' r.
Proof. intros Hsub Hc k Hk. eapply present_mono; [done|]. apply Hc. by eapply closure_stable. Qed.

(** Removing objects outside the closure does no harm. *)
Lemma complete_restrict c c' r : c' ⊆ c → complete c r → (∀ k, closure c r k → k ∈ dom c') → complete c' r.
Proof.
  intros Hsub Hc Hk k Hr. apply (closure_mono c' c) in Hr; [|done].
  pose proof (Hk k Hr) as [d Hd]%elem_of_dom. specialize (Hc k Hr). unfold present, chas in *. destruct (is_leaf k).
  - rewrite Ok_eq, bool_decide_eq_true. by exists d.
  - destruct Hc as (d' & cs & Hd'%cget_Ok & Hcs). exists d, cs. split; [by apply cget_Ok|].
    pose proof (lookup_weaken _ _ _ _ Hd Hsub). congruence.
Qed.

(** ** The walk of a reference update *)

(** Its reads are answered from the contents. *)
Definition answered c (get : Key → result bytes) (has : Key → result bool) : Prop :=
  ∀ k, (∀ d, get k = Ok d → c !! k = Some d) ∧ (has k = Ok true → is_Some (c !! k)).

Lemma CheckComplete_complete c pick get has fuel root keys :
  answered c get has → CheckComplete pick get has fuel root = Ok keys →
  complete c root ∧ ∀ k, k ∈ keys ↔ closure c root k.
Proof.
  intros Hans Hcc.
  destruct (bfs_from_Ok pick (check_visit get has) (child_of get) root (check_visit_edge get has) fuel keys Hcc)
    as (_ & _ & Hkeys & Hok).
  assert (∀ k, k ∈ keys → present (cget c) (chas c) k ∧ ∀ x, child_of get k x ↔ child_of (cget c) k x) as Hloc.
  { intros k Hk. specialize (Hok k Hk). apply check_visit_present in Hok. unfold present, chas in *.
    destruct (Hans k) as [Hget Hhas]. destruct (is_leaf k) eqn:Hl.
    - split; [by rewrite Ok_eq, bool_decide_eq_true; auto|]. intros x. split; intros [? _]; congruence.
    - destruct Hok as (d & cs & Hd & Hcs). pose proof (Hget d Hd) as Hc. apply cget_Ok in Hc. split; [by exists d, cs|].
      intros x. split; intros (_ & d' & cs' & Hd' & Hcs' & Hx); (split; [done|]); exists d, cs; (split; [done|]); (split; [done|]); congruence. }
  assert (∀ k, k ∈ keys ↔ closure c root k) as Hcl.
  { intros k. rewrite Hkeys. split.
    - revert k. apply rtc_ind_r; [apply rtc_refl|]. intros y z Hy Hz IH.
      eapply rtc_r; [exact IH|]. apply Hloc; [|done]. by apply Hkeys.
    - revert k. apply rtc_ind_r; [apply rtc_refl|]. intros y z Hy Hz IH.
      eapply rtc_r; [exact IH|]. apply Hloc; [|done]. by apply Hkeys. }
  split; [|done]. intros k Hk. by apply Hloc, Hcl.
Qed.

(** ** The mark: what is marked, and what is left to do *)
Record tri c (rs : list Key) (marked : gset Key) (pend : list Key) : Prop := {
  tri_roots r : r ∈ rs → r ∈ marked ∨ r ∈ pend;
  tri_child k x : k ∈ marked → child_of (cget c) k x → x ∈ marked ∨ x ∈ pend;
  tri_reach k : k ∈ marked ∨ k ∈ pend → ∃ r, r ∈ rs ∧ closure c r k;
}.

Lemma tri_init c rs : tri c rs ∅ rs.
Proof.
  split; [by right|set_solver|]. intros k [?|Hk]; [set_solver|]. exists k. split; [done|apply rtc_refl].
Qed.

(** With nothing left, exactly the closure of the roots is marked. *)
Lemma tri_done c rs marked : tri c rs marked [] → ∀ k, k ∈ marked ↔ ∃ r, r ∈ rs ∧ closure c r k.
Proof.
  intros [Hr Hc Hreach] k. split; [intros Hk; apply Hreach; by left|].
  intros (r & Hin & Hcl). revert k Hcl. apply rtc_ind_r.
  - destruct (Hr r Hin); [done|set_solver].
  - intros y z _ Hz IH. destruct (Hc y z IH Hz); [done|set_solver].
Qed.

Lemma tri_pend c rs marked p p' : (∀ k, k ∈ p' ↔ k ∈ p) → tri c rs marked p → tri c rs marked p'.
Proof. intros Hp [H1 H2 H3]. split; setoid_rewrite Hp; auto. Qed.

Lemma tri_seen c rs marked k pend : k ∈ marked → tri c rs marked (k :: pend) → tri c rs marked pend.
Proof.
  intros Hk [H1 H2 H3]. split.
  - intros r Hr. destruct (H1 r Hr) as [|Hin]; [by left|]. apply elem_of_cons in Hin as [->|]; auto.
  - intros y x Hy Hx. destruct (H2 y x Hy Hx) as [|Hin]; [by left|]. apply elem_of_cons in Hin as [->|]; auto.
  - intros y Hy. apply H3. set_solver.
Qed.

Lemma tri_mark c rs marked k pend cs :
  (∀ x, child_of (cget c) k x ↔ x ∈ cs) → tri c rs marked (k :: pend) → tri c rs ({[k]} ∪ marked) (cs ++ pend).
Proof.
  intros Hcs [H1 H2 H3]. split.
  - intros r Hr. destruct (H1 r Hr); set_solver.
  - intros y x [->%elem_of_singleton|Hy]%elem_of_union Hx.
    + apply Hcs in Hx. right. set_solver.
    + destruct (H2 y x Hy Hx); set_solver.
  - intros y Hy. destruct (decide (y ∈ cs)) as [Hin|Hn].
    + destruct (H3 k) as (r & Hr & Hcl); [right; left|]. exists r. split; [done|].
      eapply rtc_r; [exact Hcl|]. by apply Hcs.
    + apply H3. set_solver.
Qed.

Lemma tri_grow c c' rs marked pend : c ⊆ c' → (∀ r, r ∈ rs → complete c r) →
  tri c rs marked pend → tri c' rs marked pend.
Proof.
  intros Hsub Hcomp [H1 H2 H3]. split; [done| |].
  - intros k x Hk Hx. apply (H2 k x Hk). destruct (H3 k) as (r & Hr & Hcl); [by left|].
    eapply child_stable; [done| |done]. by apply (Hcomp r).
  - intros k Hk. destruct (H3 k Hk) as (r & Hr & Hcl). exists r. split; [done|]. by apply (closure_mono c).
Qed.
End graph.

(** ** Steps of the store *)
Section store.
Context `{Blake3} `{Fuse} `{Zstd} `{ItemInv} `{Cbor} `{!CborLaws}.
Implicit Types (s : Store) (c : gmap Key bytes).

(** A step that loses nothing. *)
Record grows s c s' c' : Prop := {
  grows_contents : contents s' c';
  grows_sub : c ⊆ c';
  grows_closed : closed s' = false;
  grows_ids : ids_ok s';
  grows_capturing : capturing s' = capturing s;
  grows_grey g : grey s = Some g → ∃ g', grey s' = Some g' ∧ g ⊆ g';
}.

Lemma grows_refl s c s' : contents s c → closed s = false → ids_ok s →
  sealed s' = sealed s → active s' = active s → cfg s' = cfg s → failed s' = failed s → closed s' = closed s →
  nextID s' = nextID s → capturing s' = capturing s →
  (∀ g, grey s = Some g → ∃ g', grey s' = Some g' ∧ g ⊆ g') → grows s c s' c.
Proof.
  intros Hcs Hc (Hi1 & Hi2 & Hi3) Hse Ha Hcf Hf Hcl Hn Hcap Hg. split; try done.
  - apply (contents_frame s); try done. by rewrite Hf.
  - by rewrite Hcl.
  - unfold ids_ok, all_ids, act_id in *. rewrite Hn, Hse, Ha. done.
Qed.

Lemma grows_trans s1 c1 s2 c2 s3 c3 : grows s1 c1 s2 c2 → grows s2 c2 s3 c3 → grows s1 c1 s3 c3.
Proof.
  intros [_ Hs1 _ _ Hc1 Hg1] [Hcs Hs2 Hcl Hi Hc2 Hg2]. split; try done.
  - by etrans.
  - congruence.
  - intros g Hg. destruct (Hg1 g Hg) as (g1 & Hg1' & ?). destruct (Hg2 g1 Hg1') as (g2 & ? & ?).
    exists g2. split; [done|]. by etrans.
Qed.

Lemma grows_id s c : contents s c → closed s = false → ids_ok s → grows s c s c.
Proof. intros. apply grows_refl; try done. intros g Hg. by exists g. Qed.

Lemma observe_grows k s c : contents s c → closed s = false → ids_ok s → grows s c (observed k s) c.
Proof.
  intros. unfold observed, observe, modM. cbn [snd]. destruct (negb (capturing s)); [by apply grows_id|].
  destruct (grey s) as [g|] eqn:Hg; [|by apply grows_id].
  apply grows_refl; try done. intros g' Hg'. cbn [grey set_grey]. eexists. split; [done|]. set_solver.
Qed.

Lemma put_absent_sub c k data : c ⊆ put_absent c k data.
Proof. unfold put_absent. destruct (c !! k) eqn:Hk; [done|]. by apply insert_subseteq. Qed.

(** The tail of a write of an absent key. *)
Lemma write_tail_grows s c k data b r s' :
  contents s c → closed s = false → ids_ok s → nextID s < 2 ^ 64 - 1 → Validate k = Ok tt → item_inv k data →
  c !! k = None → (rec <- liftM (EncodeRecord k data);; appendLocked k rec b)%store s = (r, s') →
  ∃ c', grows s c s' c'.
Proof.
  intros Hcs Hc Hi Hn Hv Hinv Hk Heq.
  pose proof (put_new s c k data b Hcs Hc Hv Hinv Hk) as Hp. unfold wp in Hp. rewrite Heq in Hp. cbn [fst snd] in Hp.
  destruct Hp as (_ & Hb & _ & c' & Hcs' & Hor & _). unfold base in Hb. injection Hb as Hb1 Hb2 Hb3 Hb4.
  exists c'. split; try done.
  - destruct Hor as [->| ->]; [done|]. apply put_absent_sub.
  - congruence.
  - unfold bindM, liftM in Heq. destruct (EncodeRecord k data) as [rec| | |]; try by injection Heq as <- <-.
    destruct (append_ids k rec b s Hi Hn) as [Hi' _]. by rewrite Heq in Hi'.
  - rewrite Hb3. intros g Hg. by exists g.
Qed.

Lemma Put_grows s c k data : contents s c → closed s = false → ids_ok s → nextID s < 2 ^ 64 - 1 →
  Validate k = Ok tt → item_inv k data → ∃ c', grows s c (snd (Packstore.Put k data s)) c'.
Proof.
  intros Hcs Hc Hi Hn Hv Hinv. unfold Packstore.Put, bindM at 1, getM.
  destruct (failed s) as [e|] eqn:Hf; [exists c; by apply grows_id|].
  unfold bindM at 1. replace (observe k s) with (Ok tt, observed k s) by reflexivity. cbn [fst snd].
  pose proof (observe_grows k s c Hcs Hc Hi) as Hg. unfold bindM at 1.
  rewrite (Has_contents _ c) by apply Hg. case_bool_decide as Hk; [by exists c|].
  destruct (bindM _ _ (observed k s)) as [r s'] eqn:Heq.
  destruct (write_tail_grows (observed k s) c k data true r s') as [c' Hg']; try apply Hg; try done.
  - destruct (observed_same k s) as (_ & _ & _ & _ & _ & _). unfold observed, observe, modM. cbn [snd].
    by destruct (negb _), (grey s).
  - by apply eq_None_not_Some.
  - exists c'. by eapply grows_trans.
Qed.

Lemma batch_one_grows s c o seen : contents s c → closed s = false → ids_ok s → nextID s < 2 ^ 64 - 1 →
  yields_valid (inl o) → ∃ c', grows s c (snd (batch_one o seen s)) c'.
Proof.
  intros Hcs Hc Hi Hn [Hv Hinv]. unfold batch_one. case_bool_decide; [exists c; by apply grows_id|].
  unfold bindM at 1. replace (observe (obj_key o) s) with (Ok tt, observed (obj_key o) s) by reflexivity. cbn [fst snd].
  pose proof (observe_grows (obj_key o) s c Hcs Hc Hi) as Hg. unfold bindM at 1.
  rewrite (Has_contents _ c) by apply Hg. cbn [wrap]. case_bool_decide as Hk; [by exists c|].
  set (s1 := observed (obj_key o) s) in *.
  destruct ((rec <- liftM (EncodeRecord (obj_key o) (obj_bytes o));; appendLocked (obj_key o) rec false)%store s1)
    as [r s'] eqn:Heq.
  destruct (write_tail_grows s1 c (obj_key o) (obj_bytes o) false r s') as [c' Hg']; try apply Hg; try done.
  { unfold s1, observed, observe, modM. cbn [snd]. by destruct (negb _), (grey s). }
  { by apply eq_None_not_Some. }
  exists c'. eapply grows_trans; [exact Hg|]. replace (snd _) with s'; [done|].
  unfold bindM, liftM in *. destruct (EncodeRecord _ _) as [rec| | |]; try by injection Heq as <- <-.
  rewrite Heq. by destruct r.
Qed.

Lemma set_io_grows l s c : contents s c → closed s = false → ids_ok s → grows s c (set_io l s) c.
Proof. intros. apply grows_refl; try done. intros g Hg. by exists g. Qed.

Lemma same_store_grows s c s' : contents s c → closed s = false → ids_ok s → same_store s s' → grows s c s' c.
Proof. intros ??? [l ->]. by apply set_io_grows. Qed.

Lemma ObserveKeys_grows keys s c : contents s c → closed s = false → ids_ok s →
  grows s c (snd (ObserveKeys keys s)) c ∧
  (capturing s = true → ∀ g, grey s = Some g → grey (snd (ObserveKeys keys s)) = Some (list_to_set keys ∪ g)).
Proof.
  intros. unfold ObserveKeys, modM. cbn [snd]. destruct (capturing s) eqn:Hcap; cbn [negb].
  - destruct (grey s) as [g|] eqn:Hg; [|split; [by apply grows_id|done]]. split.
    + apply grows_refl; try done. intros g' Hg'. cbn [grey set_grey]. eexists. split; [done|]. set_solver.
    + intros _ g' [= <-]. done.
  - split; [by apply grows_id|done].
Qed.

Lemma Get_answer s c k r s' : contents s c → closed s = false → Packstore.Get k s = (r, s') →
  same_store s s' ∧ (∀ d, r = Ok d → c !! k = Some d) ∧ (quiet s → ∀ d, c !! k = Some d → r = Ok d) ∧ safe r.
Proof.
  intros (m & [Hr _] & ->) Hc Heq. pose proof (Get_spec s m k Hr Hc) as Hg. unfold wp in Hg. rewrite Heq in Hg.
  cbn [fst snd] in Hg. destruct Hg as [Hs Ha]. split; [done|]. rewrite lookup_fmap. unfold answers in Ha.
  destruct (it_data <$> m !! k) as [d|]; [|by subst r].
  destruct Ha as [->|[[e ->] Hq]]; [|by split_and!]. split_and!; [by intros ? [= ->]|by intros _ ? [= ->]|apply safe_Ok].
Qed.

Lemma Has_answer s c k : contents s c → closed s = false → fst (Has k s) = chas c k.
Proof. intros Hcs Hc. by rewrite (Has_contents s c k Hcs Hc). Qed.

(** What one turn of the mark does. *)
Lemma mark_step_Ok s c live P marked k stack live' stack' s' :
  contents s c → closed s = false → ms_set live P marked →
  mark_step live k stack s = (Ok (live', stack'), s') →
  same_store s s' ∧ k ∈ P ∧
  ((k ∈ marked ∧ ms_set live' P marked ∧ stack' = stack) ∨
   ((k ∉ marked) ∧ ms_set live' P ({[k]} ∪ marked) ∧
    ∃ cs, stack' = rev cs ++ stack ∧ ∀ x, child_of (cget c) k x ↔ x ∈ cs)).
Proof.
  intros Hcs Hc Hms. unfold mark_step. destruct (Mark_set live P marked k Hms) as (m' & HM & Hms').
  unfold bindM at 1, liftM at 1. rewrite HM. case_bool_decide as HP; cbn [negb andb]; [|done].
  case_bool_decide as Hmk; cbn [negb].
  { intros [= <- <- <-]. split; [apply same_store_refl|]. split; [done|]. left. split; [done|]. split; [|done].
    by replace ({[k]} ∪ marked) with marked in Hms' by set_solver. }
  fold (is_leaf k). destruct (is_leaf k) eqn:Hl.
  { intros [= <- <- <-]. split; [apply same_store_refl|]. split; [done|]. right. split; [done|]. split; [done|].
    exists []. split; [done|]. intros x. split; [|set_solver]. intros [? _]. congruence. }
  unfold bindM at 1. destruct (Packstore.Get k s) as [r s1] eqn:Hg.
  destruct (Get_answer s c k r s1 Hcs Hc Hg) as (Hss & Hd & _). destruct r as [d| | |]; try done.
  unfold bindM, liftM. destruct (ChildKeys k d) as [cs| | |] eqn:Hck; try done. intros [= <- <- <-].
  split; [done|]. split; [done|]. right. split; [done|]. split; [done|]. exists cs. split; [done|].
  specialize (Hd d eq_refl). apply cget_Ok in Hd. intros x. split.
  - intros (_ & d' & cs' & Hd' & Hck' & Hx). congruence.
  - intros Hx. split; [done|]. by exists d, cs.
Qed.

(** A turn succeeds on a complete object of a store whose reads succeed. *)
Lemma mark_step_returns s c live P marked k stack :
  contents s c → closed s = false → quiet s → ms_set live P marked → k ∈ P → present (cget c) (chas c) k →
  ∃ live' stack' s', mark_step live k stack s = (Ok (live', stack'), s').
Proof.
  intros Hcs Hc Hq Hms HP Hpr. unfold mark_step. destruct (Mark_set live P marked k Hms) as (m' & HM & _).
  unfold bindM at 1, liftM at 1. rewrite HM. rewrite bool_decide_eq_true_2 by done. cbn [negb andb].
  destruct (negb (bool_decide (k ∈ marked))); cbn [negb]; [|by eexists _, _, _].
  fold (is_leaf k). unfold present in Hpr. destruct (is_leaf k); [by eexists _, _, _|].
  destruct Hpr as (d & cs & Hd%cget_Ok & Hck). unfold bindM at 1. destruct (Packstore.Get k s) as [r s1] eqn:Hg.
  destruct (Get_answer s c k r s1 Hcs Hc Hg) as (_ & _ & Hok & _). rewrite (Hok Hq d Hd).
  unfold bindM, liftM. rewrite Hck. by eexists _, _, _.
Qed.

Lemma ms_live_spec live P marked k : ms_set live P marked → ms_live live k = bool_decide (k ∈ marked).
Proof. intros Hms. unfold ms_live. by rewrite (ms_Contains_set live P marked k Hms). Qed.

Lemma Wipe_contents s c : contents s c → closed s = false → ids_ok s →
  let s' := snd (Packstore.Wipe s) in contents s' ∅ ∧ closed s' = false ∧ ids_ok s'.
Proof.
  intros (m & [(Hcfg & _) _] & _) Hc Hi.
  set (s1 := set_failed None (set_sealed [] (set_active None s))).
  set (calls := match active s with Some _ => [syscall; syscall] | None => [] end ++
     concat ((λ _ : sealedSegment, [syscall; syscall]) <$> sealed s) ++ (if cfg_sync (cfg s) then [syscall] else [])).
  assert (Packstore.Wipe s = finish_errs calls s1) as ->.
  { unfold Packstore.Wipe, bindM, getM, modM. rewrite Hc. reflexivity. }
  destruct (finish_errs_same calls s1) as (r & s2 & -> & _ & [l ->]).
  { apply Forall_app. split; [by destruct (active s); repeat constructor|]. apply Forall_app. split.
    - apply Forall_concat, Forall_fmap, Forall_true. intros g. by repeat constructor.
    - destruct (cfg_sync (cfg s)); by repeat constructor. }
  cbn [snd]. split_and!; [|done|].
  - exists ∅. split; [|done]. split; [|done]. split; [done|]. exists [], []. by split_and!.
  - destruct Hi as (Hpos & _). split_and!; [done|apply NoDup_nil_2|constructor].
Qed.
End store.

(** ** The invariant *)
Section invariant.
Context `{Blake3} `{Fuse} `{Zstd} `{ItemInv} `{Cbor} `{!CborLaws} `{RefCbor} `{Pebble} `{!PebbleLaws} `{Float64}.
Implicit Types (s : Store) (c : gmap Key bytes) (db : DB).

(** No reference dangles. *)
Definition refs_inv c db : Prop :=
  ∀ name body, db_map db !! name = Some body → ∃ root, record_root body = Ok root ∧ complete c root.

Definition holder_inv c (h : holder) : Prop :=
  match h with
  | Writing => True
  | Preparing _ l => ∀ s0, s0 ∈ l → ∃ c0, contents s0 c0 ∧ closed s0 = false ∧ c0 ⊆ c
  | Prepared root => complete c root
  end.

(** The barrier has captured what was referenced after the snapshot. *)
Record cycle_inv c s db (hs : list holder) (rs : list Key) : Prop := {
  ci_capturing : capturing s = true;
  ci_roots r : r ∈ rs → complete c r;
  ci_grey : ∃ g, grey s = Some g ∧
    (∀ name body root, db_map db !! name = Some body → record_root body = Ok root →
       root ∈ rs ∨ ∀ k, closure c root k → k ∈ g) ∧
    (∀ root, Prepared root ∈ hs → ∀ k, closure c root k → k ∈ g);
}.

Definition phase_roots (ph : phase) : option (list Key) :=
  match ph with
  | Idle => None
  | Snapshotted rs | Marking rs _ _ _ | AllMarked rs _ => Some rs
  end.

Definition mark_inv c (ph : phase) : Prop :=
  match ph with
  | Idle | Snapshotted _ => True
  | Marking rs live stack todo => ∃ P marked, ms_set live P marked ∧ P ⊆ dom c ∧
      (∀ r k, r ∈ rs → closure c r k → k ∈ P) ∧ tri c rs marked (stack ++ todo)
  | AllMarked rs live => ∃ P marked, ms_set live P marked ∧ ∀ k, k ∈ marked ↔ ∃ r, r ∈ rs ∧ closure c r k
  end.

Record gc_inv (w : World) c : Prop := {
  gi_contents : contents (w_store w) c;
  gi_closed : closed (w_store w) = false;
  gi_ids : ids_ok (w_store w);
  gi_refs : refs_inv c (w_refs w);
  gi_held : Forall (holder_inv c) (w_held w);
  gi_cycle rs : phase_roots (w_phase w) = Some rs → cycle_inv c (w_store w) (w_refs w) (w_held w) rs;
  gi_mark : mark_inv c (w_phase w);
}.

(** ** Growth *)
Lemma refs_grow c c' db : c ⊆ c' → refs_inv c db → refs_inv c' db.
Proof. intros Hsub Hr name body Hb. destruct (Hr name body Hb) as (root & ? & ?). exists root. eauto using complete_mono. Qed.

Lemma holder_grow c c' h : c ⊆ c' → holder_inv c h → holder_inv c' h.
Proof.
  intros Hsub. destruct h as [|root l|root]; [done| |by apply complete_mono].
  intros Hl s0 Hs0. destruct (Hl s0 Hs0) as (c0 & ? & ? & ?). exists c0. split_and!; [done..|]. by etrans.
Qed.

Lemma saw_inv c s h : contents s c → closed s = false → holder_inv c h → holder_inv c (saw s h).
Proof.
  intros Hcs Hc. destruct h as [|root l|root]; [done| |done]. intros Hl s0 [->|Hs0]%elem_of_cons; [by exists c|auto].
Qed.

Lemma cycle_grow c c' s s' db hs hs' rs :
  grows s c s' c' → refs_inv c db → Forall (holder_inv c) hs →
  (∀ root, Prepared root ∈ hs' → Prepared root ∈ hs) →
  cycle_inv c s db hs rs → cycle_inv c' s' db hs' rs.
Proof.
  intros Hg Hrefs Hh Hsub [Hcap Hroots (g & Hgr & Hr & Hp)]. pose proof (grows_sub _ _ _ _ Hg) as Hcc.
  destruct (grows_grey _ _ _ _ Hg g Hgr) as (g' & Hgr' & Hgg). split.
  - by rewrite (grows_capturing _ _ _ _ Hg).
  - intros r Hin. by eapply complete_mono; [|apply Hroots].
  - exists g'. split_and!; [done| |].
    + intros name body root Hb Hroot. destruct (Hr name body root Hb Hroot) as [|Hcl]; [by left|]. right.
      intros k Hk. apply Hgg, Hcl. destruct (Hrefs name body Hb) as (root' & Hroot' & Hcomp).
      rewrite Hroot in Hroot'. injection Hroot' as <-. by apply (closure_stable c c').
    + intros root Hin k Hk. apply Hsub in Hin. apply Hgg, (Hp root Hin). rewrite Forall_forall in Hh.
      apply (closure_stable c c'); [done|by apply (Hh (Prepared root))|done].
Qed.

Lemma mark_grow c c' ph : c ⊆ c' →
  (∀ rs r, phase_roots ph = Some rs → r ∈ rs → complete c r) → mark_inv c ph → mark_inv c' ph.
Proof.
  intros Hsub Hroots. destruct ph as [|rs|rs live stack todo|rs live]; [done..| |].
  - intros (P & marked & Hms & HP & Hcl & Ht). exists P, marked. split_and!; [done| | |].
    + pose proof (subseteq_dom _ _ Hsub). set_solver.
    + intros r k Hr Hk. apply (Hcl r k Hr). apply (closure_stable c c'); eauto.
    + apply (tri_grow c c'); eauto.
  - intros (P & marked & Hms & Hk). exists P, marked. split; [done|]. intros k. rewrite Hk.
    split; intros (r & Hr & Hcl); exists r; (split; [done|]); [by apply (closure_mono c)|].
    apply (closure_stable c c'); eauto.
Qed.

Lemma inv_roots w c rs r : gc_inv w c → phase_roots (w_phase w) = Some rs → r ∈ rs → complete c r.
Proof. intros Hi Hrs Hr. apply (gi_cycle _ _ Hi rs Hrs). done. Qed.

(** A step that only adds objects, and forgets or updates holders. *)
Lemma inv_grow w c s' c' hs' :
  gc_inv w c → grows (w_store w) c s' c' → Forall (holder_inv c') hs' →
  (∀ root, Prepared root ∈ hs' → Prepared root ∈ w_held w) →
  gc_inv (mkWorld s' (w_refs w) hs' (w_phase w)) c'.
Proof.
  intros Hi Hg Hh Hsub. pose proof (grows_sub _ _ _ _ Hg) as Hcc. split; simpl; try apply Hg.
  - eapply refs_grow; [done|apply Hi].
  - done.
  - intros rs Hrs. eapply cycle_grow; [done|apply Hi|apply Hi|done|by apply Hi].
  - eapply mark_grow; [done| |apply Hi]. intros rs r Hrs Hr. by eapply inv_roots.
Qed.

Lemma saw_Prepared s (hs : list holder) root : Prepared root ∈ saw s <$> hs → Prepared root ∈ hs.
Proof. intros ([|?|root'] & Heq & ?)%list_elem_of_fmap; simpl in Heq; naive_solver. Qed.

Lemma inv_write w c s' c' :
  gc_inv w c → grows (w_store w) c s' c' → gc_inv (mkWorld s' (w_refs w) (saw s' <$> w_held w) (w_phase w)) c'.
Proof.
  intros Hi Hg. eapply inv_grow; [done|done| |by intros ? ?%saw_Prepared].
  apply Forall_fmap. eapply Forall_impl; [apply Hi|]. intros h Hh. apply saw_inv; [apply Hg..|].
  eapply holder_grow; [apply Hg|done].
Qed.

Lemma inv_held w c hs' : gc_inv w c → (∀ h, h ∈ hs' → h ∈ w_held w ∨ h = Writing ∨ ∃ root, h = Preparing root [w_store w]) →
  gc_inv (mkWorld (w_store w) (w_refs w) hs' (w_phase w)) c.
Proof.
  intros Hi Hsub. eapply inv_grow; [done|apply grows_id; apply Hi| |].
  - apply Forall_forall. intros h Hh. destruct (Hsub h Hh) as [Hin|[->|[root ->]]]; [|done|].
    + pose proof (gi_held _ _ Hi) as Hall. rewrite Forall_forall in Hall. auto.
    + intros s0 ->%list_elem_of_singleton. exists c. split_and!; [apply Hi..|done].
  - intros root Hin. destruct (Hsub _ Hin) as [|[?|[? ?]]]; done.
Qed.

(** ** References *)
Lemma record_root_Ok body ref root : Decode body = Ok ref → Key.Parse (ref_Key ref) = Ok root → record_root body = Ok root.
Proof. intros Hd Hp. unfold record_root. rewrite Hd. simpl. by rewrite Hp. Qed.

(** A change of the references to ones that are complete and captured. *)
Lemma inv_refs w c db' : gc_inv w c →
  (∀ name body, db_map db' !! name = Some body →
     db_map (w_refs w) !! name = Some body ∨ ∃ root, record_root body = Ok root ∧ Prepared root ∈ w_held w) →
  gc_inv (mkWorld (w_store w) db' (w_held w) (w_phase w)) c.
Proof.
  intros [Hcs Hc Hids Hrefs Hheld Hcyc Hmark] Hdb. split; simpl; try done.
  - intros name body Hb. destruct (Hdb name body Hb) as [|(root & Hroot & Hin)]; [by eapply Hrefs|].
    exists root. split; [done|]. rewrite Forall_forall in Hheld. by apply (Hheld (Prepared root)).
  - intros rs Hrs. destruct (Hcyc rs Hrs) as [Hcap Hroots (g & Hg & Hr & Hp)]. split; [done..|].
    exists g. split_and!; [done| |done]. intros name body root Hb Hroot.
    destruct (Hdb name body Hb) as [|(root' & Hroot' & Hin)]; [by eapply Hr|].
    right. rewrite Hroot in Hroot'. injection Hroot' as <-. by apply Hp.
Qed.

Lemma write_law_lookup db db' m r name body : write_law db db' m r → db_map db' !! name = Some body →
  db_map db !! name = Some body ∨ m !! name = Some body.
Proof. intros (_ & [->| ->] & _) ?; auto. Qed.

Lemma inv_put_ref w c name body ref root r db' : gc_inv w c →
  Prepared root ∈ w_held w → Decode body = Ok ref → Key.Parse (ref_Key ref) = Ok root →
  Refstore.Put name body (w_refs w) = (r, db') → gc_inv (mkWorld (w_store w) db' (w_held w) (w_phase w)) c.
Proof.
  intros Hi Hin Hd Hp Hput. apply inv_refs; [done|]. intros n b Hb.
  pose proof (Put_law name body (w_refs w)) as Hlaw. rewrite Hput in Hlaw.
  destruct (write_law_lookup _ _ _ _ _ _ Hlaw Hb) as [|Hm]; [by left|].
  apply lookup_insert_Some in Hm as [[<- <-]|[_ ?]]; [|by left]. right. exists root. split; [|done].
  by eapply record_root_Ok.
Qed.

Lemma inv_delete_ref w c name r db' : gc_inv w c → Refstore.Delete name (w_refs w) = (r, db') →
  gc_inv (mkWorld (w_store w) db' (w_held w) (w_phase w)) c.
Proof.
  intros Hi Hdel. apply inv_refs; [done|]. intros n b Hb. left.
  pose proof (Delete_law name (w_refs w)) as Hlaw. rewrite Hdel in Hlaw. destruct Hlaw as [Hlaw _].
  destruct (write_law_lookup _ _ _ _ _ _ Hlaw Hb) as [|[_ ?]%lookup_delete_Some]; done.
Qed.

(** The reads of a walk that began while the store held less. *)
Lemma walk_answered c (l : list Store) at_ root :
  holder_inv c (Preparing root l) → (∀ k, ∃ s0 io0, s0 ∈ l ∧ at_ k = set_io io0 s0) →
  answered c (λ k, fst (Packstore.Get k (at_ k))) (λ k, fst (Has k (at_ k))).
Proof.
  intros Hl Hat k. destruct (Hat k) as (s0 & io0 & Hs0 & ->). destruct (Hl s0 Hs0) as (c0 & Hcs & Hc & Hsub).
  assert (contents (set_io io0 s0) c0) as Hcs' by (by apply (contents_frame s0)). split.
  - destruct (Packstore.Get k (set_io io0 s0)) as [r s'] eqn:Hg. simpl. intros d ->.
    destruct (Get_answer _ c0 k _ s' Hcs' Hc Hg) as (_ & Hd & _). eapply lookup_weaken; [by apply Hd|done].
  - rewrite (Has_answer _ c0 k Hcs' Hc). unfold chas. rewrite Ok_eq, bool_decide_eq_true.
    intros [d Hd]. exists d. by eapply lookup_weaken.
Qed.

Lemma PrepareRef_Ok pick fuel at_ root s s' : PrepareRef pick fuel at_ root s = (Ok tt, s') →
  ∃ keys, CheckComplete pick (λ k, fst (Packstore.Get k (at_ k))) (λ k, fst (Has k (at_ k))) fuel root = Ok keys ∧
          s' = snd (ObserveKeys keys s).
Proof.
  unfold PrepareRef. destruct (CheckComplete _ _ _ _ _) as [keys|e| |]; [|done..]. intros Ho.
  exists keys. by rewrite Ho.
Qed.

Lemma inv_prepare s db hs1 hs2 ph c pick fuel at_ root l s' :
  gc_inv (mkWorld s db (hs1 ++ Preparing root l :: hs2) ph) c →
  (∀ k, ∃ s0 io0, s0 ∈ l ∧ at_ k = set_io io0 s0) → PrepareRef pick fuel at_ root s = (Ok tt, s') →
  gc_inv (mkWorld s' db (saw s' <$> (hs1 ++ Prepared root :: hs2)) ph) c.
Proof.
  intros Hi Hat (keys & Hcc & ->)%PrepareRef_Ok. pose proof (gi_held _ _ Hi) as Hheld. simpl in Hheld.
  apply Forall_app in Hheld as [Hh1 [Hl Hh2]%Forall_cons].
  destruct (CheckComplete_complete c pick _ _ fuel root keys (walk_answered c l at_ root Hl Hat) Hcc) as [Hcomp Hkeys].
  destruct (ObserveKeys_grows keys s c (gi_contents _ _ Hi) (gi_closed _ _ Hi) (gi_ids _ _ Hi)) as [Hg Hgrey].
  set (s' := snd (ObserveKeys keys s)) in *.
  assert (gc_inv (mkWorld s' db (saw s' <$> (hs1 ++ hs2)) ph) c) as Hi'.
  { apply (inv_grow (mkWorld s db (hs1 ++ Preparing root l :: hs2) ph) c s' c); [exact Hi|done| |].
    - apply Forall_fmap, Forall_app. split; (eapply Forall_impl; [done|]); intros h Hh; (apply saw_inv; [apply Hg..|done]).
    - intros r Hin%saw_Prepared. simpl. set_solver. }
  destruct Hi' as [Hcs Hc Hids Hrefs Hheld Hcyc Hmark]. split; simpl in *; try done.
  - rewrite fmap_app, Forall_app in *. destruct Hheld. split; [done|]. by constructor.
  - intros rs Hrs. destruct (Hcyc rs Hrs) as [Hcap Hroots (g & Hgr & Hr & Hp)]. split; [done..|].
    exists g. split_and!; [done|done|]. rewrite !fmap_app in *. intros r Hin k Hk.
    apply elem_of_app in Hin as [Hin|[Heq|Hin]%elem_of_cons]; [apply (Hp r); set_solver| |apply (Hp r); set_solver].
    injection Heq as ->. destruct (gi_cycle _ _ Hi rs Hrs) as [Hcap0 _ (g0 & Hgr0 & _)]. simpl in *.
    rewrite (Hgrey Hcap0 g0 Hgr0) in Hgr. injection Hgr as <-. apply elem_of_union_l, elem_of_list_to_set. by apply Hkeys.
Qed.

(** ** The cycle *)
Lemma roots_law db r db' : roots db = (r, db') →
  safe r ∧ db_map db' = db_map db ∧
  ∀ rs, r = Ok rs →
    (∀ name body, db_map db !! name = Some body → ∃ root, record_root body = Ok root ∧ root ∈ rs) ∧
    (∀ root, root ∈ rs → ∃ name body, db_map db !! name = Some body ∧ record_root body = Ok root).
Proof.
  unfold roots. pose proof (All_law db) as Hall. destruct (Refstore.All db) as [r0 db0]. intros [= <- <-].
  destruct Hall as (Hs & Hm & Hl). split_and!; [|done|].
  - apply safe_bind; [done|]. intros l _. apply mapR_safe. intros rec _. apply safe_bind; [apply safe_wrap, Decode_safe|].
    intros ref _. apply safe_wrap, Parse_safe.
  - intros rs (l & -> & Hrs)%bind_Ok. apply mapR_Ok in Hrs. destruct (Hl l eq_refl) as [_ Hin]. split.
    + intros name body Hb. apply Hin in Hb. apply list_elem_of_lookup in Hb as [i Hi].
      destruct (Forall2_lookup_l _ _ _ _ _ Hrs Hi) as (root & Hroot & Hr). exists root. split; [done|].
      by eapply list_elem_of_lookup_2.
    + intros root [i Hi]%list_elem_of_lookup. destruct (Forall2_lookup_r _ _ _ _ _ Hrs Hi) as ([name body] & Hrec & Hr).
      exists name, body. split; [|done]. apply Hin. by eapply list_elem_of_lookup_2.
Qed.

Lemma inv_idle s db hs c : contents s c → closed s = false → ids_ok s → refs_inv c db → Forall (holder_inv c) hs →
  gc_inv (mkWorld s db hs Idle) c.
Proof. intros. by split. Qed.

Lemma barrier_store (b : bool) o s c : contents s c → contents (set_grey b o s) c.
Proof. by apply contents_frame. Qed.

Lemma inv_snapshot s db c r s' db' : gc_inv (mkWorld s db [] Idle) c → cycle_snapshot s db = (r, s', db') →
  gc_inv (mkWorld s' db' [] (match r with Ok rs => Snapshotted rs | _ => Idle end)) c.
Proof.
  intros [Hcs Hc Hids Hrefs _ _ _] Heq. simpl in *. unfold cycle_snapshot, BeginBarrier, AbortBarrier, modM in Heq.
  destruct (roots db) as [r0 db0] eqn:Hr. destruct (roots_law db r0 db0 Hr) as (Hs & Hm & Hrs).
  assert (refs_inv c db0) as Hrefs0 by (intros name body; rewrite Hm; apply Hrefs).
  destruct r0 as [rs|e| |]; [|injection Heq as <- <- <-; apply inv_idle; try done; by apply (barrier_store _ _ s)|by destruct Hs..].
  injection Heq as <- <- <-. destruct (Hrs rs eq_refl) as [Hto Hfrom]. split; simpl; try done.
  intros rs' [= <-]. split; [done| |].
  - intros root Hin. destruct (Hfrom root Hin) as (name & body & Hb & Hroot).
    destruct (Hrefs name body Hb) as (root' & Hroot' & Hcomp). rewrite Hroot in Hroot'. by injection Hroot' as ->.
  - exists ∅. split_and!; [done| |set_solver]. intros name body root Hb Hroot. left. rewrite Hm in Hb.
    destruct (Hto name body Hb) as (root' & Hroot' & Hin). rewrite Hroot in Hroot'. by injection Hroot' as ->.
Qed.

(** A step of the mark: the store changes only in its coming system calls. *)
Lemma inv_phase s db hs ph s' ph' c : gc_inv (mkWorld s db hs ph) c → same_store s s' →
  phase_roots ph' = phase_roots ph → mark_inv c ph' → gc_inv (mkWorld s' db hs ph') c.
Proof.
  intros [Hcs Hc Hids Hrefs Hheld Hcyc _] [l ->] Hph Hm. simpl in *. split; simpl; try done.
  intros rs Hrs. rewrite Hph in Hrs. destruct (Hcyc rs Hrs) as [? ? ?]. by split.
Qed.

Lemma inv_new_marks s db hs rs c : gc_inv (mkWorld s db hs (Snapshotted rs)) c →
  gc_inv (mkWorld s db hs (Marking rs (NewMarkSet s) [] rs)) c.
Proof.
  intros Hi. eapply inv_phase; [done|apply same_store_refl|done|].
  destruct (gi_contents _ _ Hi) as (m & [Hr _] & Heq). simpl in Hr. exists (dom m), ∅.
  assert (dom c = dom m) as Hdom by (subst c; apply dom_fmap_L).
  split_and!; [by apply NewMarkSet_set|by rewrite Hdom| |apply tri_init].
  intros r k Hin Hk. rewrite <- Hdom. apply present_dom. by apply (inv_roots _ _ rs r Hi eq_refl Hin).
Qed.

Lemma inv_mark s db hs rs live k stack todo c live' stack' s' :
  gc_inv (mkWorld s db hs (Marking rs live (k :: stack) todo)) c →
  mark_step live k stack s = (Ok (live', stack'), s') →
  gc_inv (mkWorld s' db hs (Marking rs live' stack' todo)) c.
Proof.
  intros Hi Hstep. destruct (gi_mark _ _ Hi) as (P & marked & Hms & HP & Hcl & Ht).
  destruct (mark_step_Ok s c live P marked k stack live' stack' s' (gi_contents _ _ Hi) (gi_closed _ _ Hi) Hms Hstep)
    as (Hss & HkP & Hcase).
  eapply inv_phase; [done|done|done|]. destruct Hcase as [(Hk & Hms' & ->)|(Hk & Hms' & cs & -> & Hcs)].
  - exists P, marked. split_and!; try done. by eapply tri_seen.
  - exists P, ({[k]} ∪ marked). split_and!; try done.
    eapply tri_pend; [|by apply (tri_mark c rs marked k (stack ++ todo) cs)].
    intros x. rewrite !elem_of_app. assert (x ∈ rev cs ↔ x ∈ cs) as ->; [|tauto].
    by rewrite !list_elem_of_In, <- in_rev.
Qed.

Lemma inv_marked s db hs rs live c : gc_inv (mkWorld s db hs (Marking rs live [] [])) c →
  gc_inv (mkWorld s db hs (AllMarked rs live)) c.
Proof.
  intros Hi. eapply inv_phase; [done|apply same_store_refl|done|].
  destruct (gi_mark _ _ Hi) as (P & marked & Hms & HP & Hcl & Ht). exists P, marked. split; [done|]. by apply tri_done.
Qed.

Lemma inv_abort s db hs ph c : gc_inv (mkWorld s db hs ph) c → gc_inv (mkWorld (snd (AbortBarrier s)) db hs Idle) c.
Proof. intros [Hcs Hc Hids Hrefs Hheld _ _]. by apply inv_idle. Qed.

(** What is referenced is marked or captured. *)
Lemma referenced_kept s db rs live c name body root k :
  gc_inv (mkWorld s db [] (AllMarked rs live)) c → db_map db !! name = Some body → record_root body = Ok root →
  closure c root k → ms_live live k = true ∨ k ∈ default ∅ (grey s).
Proof.
  intros Hi Hb Hroot Hk. destruct (gi_cycle _ _ Hi rs eq_refl) as [_ _ (g & Hg & Hr & _)]. simpl in *.
  destruct (Hr name body root Hb Hroot) as [Hin|Hcl].
  - left. destruct (gi_mark _ _ Hi) as (P & marked & Hms & Hmk). rewrite (ms_live_spec live P marked k Hms).
    apply bool_decide_eq_true. apply Hmk. by exists root.
  - right. rewrite Hg. by apply Hcl.
Qed.

Lemma inv_wipe s db hs c r s' db' : gc_inv (mkWorld s db hs Idle) c → Forall (λ h, h = Writing) hs →
  reset s db = (r, s', db') → ∃ c', gc_inv (mkWorld s' db' hs Idle) c'.
Proof.
  intros [Hcs Hc Hids Hrefs _ _ _] Hh Heq. simpl in *. unfold reset in Heq.
  assert (∀ c', Forall (holder_inv c') hs) as Hheld by (intros c'; eapply Forall_impl; [done|]; by intros h ->).
  pose proof (Refstore.Wipe_law db) as Hw. destruct (Refstore.Wipe db) as [rw db1].
  assert (refs_inv c db1) as Hrefs1.
  { intros name body Hb. destruct (write_law_lookup _ _ _ _ _ _ Hw Hb) as [Hb'|Hb']; [by apply (Hrefs name)|set_solver]. }
  destruct Hw as (Hsafe & _ & Hok). destruct rw as [[]|e| |]; [|by injection Heq as <- <- <-; exists c; apply inv_idle|by destruct Hsafe..].
  pose proof (Wipe_contents s c Hcs Hc Hids) as Hwc. destruct (Packstore.Wipe s) as [r2 s2]. cbn [snd] in Hwc.
  destruct Hwc as (Hcs2 & Hc2 & Hi2). injection Heq as <- <- <-. exists ∅. apply inv_idle; try done.
  intros name body. by rewrite (Hok eq_refl), lookup_empty.
Qed.

Hypothesis item_fun : ∀ k d d', item_inv k d → item_inv k d' → d = d'.

Lemma inv_sweep s db rs live c sched cancelled line before cs r s' :
  gc_inv (mkWorld s db [] (AllMarked rs live)) c → nextID s < 2 ^ 63 → zlen (sealed s) < 2 ^ 31 - 1 →
  cycle_sweep sched cancelled line before live s = (cs, r, s') → ∃ c', gc_inv (mkWorld s' db [] Idle) c'.
Proof.
  intros Hi Hn Hlen Heq. unfold cycle_sweep in Heq.
  destruct cancelled as [e|]; [injection Heq as <- <- <-; exists c; by eapply inv_abort|].
  pose proof (Compact_contents sched (ms_live live) (sweep_opts line before) s c (gi_contents _ _ Hi) (gi_closed _ _ Hi)
    (gi_ids _ _ Hi) Hn Hlen item_fun) as Hcc.
  rewrite Heq in Hcc. destruct Hcc as (_ & Hc' & Hids' & c' & Hcs' & Hsub & Hkeep).
  exists c'. apply inv_idle; try done. intros name body Hb. destruct (gi_refs _ _ Hi name body Hb) as (root & Hroot & Hcomp).
  exists root. split; [done|]. apply (complete_restrict c); [done|done|]. intros k Hk.
  pose proof (present_dom _ _ (Hcomp k Hk)) as [d Hd]%elem_of_dom. apply elem_of_dom. exists d.
  apply Hkeep; [done|]. by eapply referenced_kept.
Qed.

(** Every step preserves the invariant. *)
Lemma gc_step_inv w w' c : gc_step w w' → gc_inv w c → ∃ c', gc_inv w' c'.
Proof.
  intros Hstep Hi. destruct Hstep.
  - exists c. apply (inv_grow (mkWorld s db hs ph) c (set_io l s) c hs); [done|apply set_io_grows; apply Hi|apply Hi|done].
  - exists c. apply (inv_held _ c (Writing :: hs) Hi). intros h Hh. set_solver.
  - exists c. apply (inv_held _ c (hs1 ++ hs2) Hi). intros h Hh. left. simpl. set_solver.
  - destruct (Put_grows s c k data) as [c' Hg]; [apply Hi..|done|done|done|]. exists c'. by apply (inv_write _ c s' c' Hi).
  - destruct (batch_one_grows s c o seen) as [c' Hg]; [apply Hi..|done|done|]. exists c'. by apply (inv_write _ c s' c' Hi).
  - exists c. apply (inv_held _ c (Preparing root [s] :: hs) Hi). intros h [->|]%elem_of_cons; eauto.
  - exists c. by eapply inv_prepare.
  - exists c. apply (inv_held _ c (hs1 ++ hs2) Hi). intros h Hh. left. simpl. set_solver.
  - exists c. by eapply (inv_put_ref _ c name body ref root r db' Hi).
  - exists c. apply (inv_held _ c (hs1 ++ hs2) Hi). intros h Hh. left. simpl. set_solver.
  - exists c. by eapply (inv_delete_ref _ c name r db' Hi).
  - exists c. by eapply inv_snapshot.
  - exists c. by apply inv_new_marks.
  - exists c. eapply inv_phase; [done|apply same_store_refl|done|]. exact (gi_mark _ _ Hi).
  - exists c. by eapply inv_mark.
  - exists c. by apply inv_marked.
  - exists c. by eapply inv_abort.
  - by eapply inv_sweep.
  - by eapply inv_wipe.
Qed.

Lemma gc_steps_inv w w' c : rtc gc_step w w' → gc_inv w c → ∃ c', gc_inv w' c'.
Proof.
  intros Hr. revert c. induction Hr as [|w1 w2 w3 Hs _ IH]; intros c Hi; [by exists c|].
  destruct (gc_step_inv _ _ _ Hs Hi) as [c2 Hi2]. by eapply IH.
Qed.
End invariant.
