(* ===== verification/GcSpec.v ===== *)
(** * The collector: the mark and the walk of [Why] end

    Runs of the mark loop on a store whose reads succeed, the loop of
    [markFrom] over them, and the walk that tells which references reach a key. *)

From Stdlib Require Import Init.Byte.
From S2P Require Import Prelude Machine Key Chunkers FsEncode Instances FsTree FsRead FsWalk PackRecord Footer FooterFacts Packstore PackstoreRep PackstoreFacts Compact MarkSetFacts CompactFacts PackstoreSpec Reference Refstore Gc GcProtocol GcFacts.
From Stdlib Require Import ZifyBool ZifyNat.
Local Open Scope Z_scope.

(** ** The mark runs to its end *)
Section mark.
Context `{Blake3} `{Fuse} `{Zstd} `{ItemInv} `{Cbor} `{!CborLaws}.
Implicit Types (s : Store) (c : gmap Key bytes).

(** [n] turns of the loop empty the stack. *)
Inductive mark_run : nat → Store → MarkSet → list Key → Store → MarkSet → Prop :=
| run_done s live : mark_run 0 s live [] s live
| run_turn n s s1 s2 live live1 live2 k stack stack1 :
    mark_step live k stack s = (Ok (live1, stack1), s1) → mark_run n s1 live1 stack1 s2 live2 →
    mark_run (S n) s live (k :: stack) s2 live2.

Lemma same_store_trans s1 s2 s3 : same_store s1 s2 → same_store s2 s3 → same_store s1 s3.
Proof. intros [l1 ->] [l2 ->]. by exists l2. Qed.

Lemma same_store_contents s s' c : same_store s s' → contents s c → contents s' c.
Proof. intros [l ->]. by apply contents_frame. Qed.

Lemma Get_quiet k s s' r : Packstore.Get k s = (r, s') → quiet s → quiet s'.
Proof.
  intros Heq Hq. assert (wp (Packstore.Get k) (λ _ s', quiet s') s) as Hw; [|by unfold wp in Hw; rewrite Heq in Hw].
  unfold Packstore.Get. do 2 wp_pure. case_match; [by wp_run|]. do 2 wp_pure. case_match.
  - destruct p as [a loc]. unfold readAt. do 2 wp_pure. apply wp_syscall.
    + intros l Hl. specialize (Hl Hq). case_match; unfold wp, liftM, failM; cbn [fst snd]; [by destruct (slice _ _ _)|done].
    + intros e l Hn. done.
  - unfold wp, bindM, getM, liftM, retM, failM. cbn [fst snd]. by destruct (newest_first _ _) as [[]| | |].
Qed.

Lemma mark_step_quiet live k stack s r s' : mark_step live k stack s = (r, s') → quiet s → quiet s'.
Proof.
  unfold mark_step, bindM, liftM, failM, retM. destruct (Mark live k) as [[[newly present] live']| | |]; try by intros [= <- <-].
  do 3 (case_match; [by intros [= <- <-]|]). destruct (Packstore.Get k s) as [r1 s1] eqn:Hg. intros Heq Hq.
  apply Get_quiet in Hg; [|done]. destruct r1; [|by injection Heq as <- <-..].
  by destruct (ChildKeys k a); injection Heq as <- <-.
Qed.

Section run.
Context (c : gmap Key bytes) (rs : list Key) (P : gset Key).
Hypothesis roots_complete : ∀ r, r ∈ rs → complete c r.
Hypothesis roots_in : ∀ r k, r ∈ rs → closure c r k → k ∈ P.

Lemma mark_run_exists todo n : ∀ stack s live marked,
  contents s c → closed s = false → quiet s → ms_set live P marked → (size (P ∖ marked) ≤ n)%nat →
  tri c rs marked (stack ++ todo) →
  ∃ m s' live' marked', mark_run m s live stack s' live' ∧ same_store s s' ∧ quiet s' ∧
    ms_set live' P marked' ∧ tri c rs marked' todo.
Proof.
  induction n as [n IHn] using lt_wf_ind. induction stack as [|k stack IH]; intros s live marked Hcs Hc Hq Hms Hn Ht.
  { exists 0%nat, s, live, marked. split_and!; [constructor|apply same_store_refl|done..]. }
  destruct (tri_reach _ _ _ _ Ht k) as (r & Hr & Hcl); [right; left|].
  destruct (mark_step_returns s c live P marked k stack Hcs Hc Hq Hms (roots_in r k Hr Hcl) (roots_complete r Hr k Hcl))
    as (live1 & stack1 & s1 & Hstep).
  destruct (mark_step_Ok s c live P marked k stack live1 stack1 s1 Hcs Hc Hms Hstep) as (Hss & HkP & Hcase).
  assert (contents s1 c) as Hcs1 by (by eapply same_store_contents).
  assert (closed s1 = false) as Hc1 by (by destruct Hss as [l ->]).
  assert (quiet s1) as Hq1 by (by eapply mark_step_quiet).
  assert (∃ m s' live' marked', mark_run m s1 live1 stack1 s' live' ∧ same_store s1 s' ∧ quiet s' ∧
    ms_set live' P marked' ∧ tri c rs marked' todo) as (m & s' & live' & marked' & Hrun & Hss' & ? & ? & ?).
  { destruct Hcase as [(Hk & Hms1 & ->)|(Hk & Hms1 & cs & -> & Hch)].
    - apply (IH s1 live1 marked); try done. by eapply tri_seen.
    - apply (IHn (size (P ∖ ({[k]} ∪ marked)))) with (marked := {[k]} ∪ marked); try done.
      + assert (size (P ∖ ({[k]} ∪ marked)) < size (P ∖ marked))%nat; [|lia]. apply subset_size. set_solver.
      + eapply tri_pend; [|by apply (tri_mark c rs marked k (stack ++ todo) cs)].
        intros x. rewrite !elem_of_app. assert (x ∈ rev cs ↔ x ∈ cs) as ->; [|tauto].
        by rewrite !list_elem_of_In, <- in_rev. }
  exists (S m), s', live', marked'. split_and!; try done; [by econstructor|]. by eapply same_store_trans.
Qed.
End run.

(** The loop of [markFrom] follows a run, if the context is not cancelled. *)
Lemma markFrom_run m s live stack s' live' : mark_run m s live stack s' live' →
  ∀ fuel n, (m ≤ fuel)%nat → markFrom_loop (λ _, None) fuel n live stack s = (Ok live', s').
Proof.
  assert (∀ n, ctx_check (λ _, None) n = None) as Hctx by (intros n; unfold ctx_check; by case_if).
  induction 1 as [s live|m s s1 s2 live live1 live2 k stack stack1 Hs Hr IH]; intros fuel n Hf; [by destruct fuel|].
  destruct fuel as [|fuel]; [lia|]. cbn [markFrom_loop]. rewrite Hctx. unfold bindM. rewrite Hs. apply IH. lia.
Qed.

Lemma mark_roots_runs c rs P :
  (∀ r, r ∈ rs → complete c r) → (∀ r k, r ∈ rs → closure c r k → k ∈ P) →
  ∀ todo s live marked, contents s c → closed s = false → quiet s → ms_set live P marked → tri c rs marked todo →
  ∃ m, ∀ fuel, (m ≤ fuel)%nat → ∃ s' live' marked',
    mark_roots (λ _, None) fuel live todo s = (Ok live', s') ∧ same_store s s' ∧ ms_set live' P marked' ∧ tri c rs marked' [].
Proof.
  intros Hcomp HP. induction todo as [|root todo IH]; intros s live marked Hcs Hc Hq Hms Ht.
  { exists 0%nat. intros fuel _. exists s, live, marked. split_and!; [done|apply same_store_refl|done..]. }
  destruct (mark_run_exists c rs P Hcomp HP todo (size (P ∖ marked)) [root] s live marked)
    as (m1 & s1 & live1 & marked1 & Hrun & Hss & Hq1 & Hms1 & Ht1); try done.
  destruct (IH s1 live1 marked1) as [m2 Hm2]; try done; [by eapply same_store_contents|by destruct Hss as [l ->]|].
  exists (m1 + m2)%nat. intros fuel Hf. destruct (Hm2 fuel ltac:(lia)) as (s' & live' & marked' & Heq & Hss' & ? & ?).
  exists s', live', marked'. split_and!; try done; [|by eapply same_store_trans].
  cbn [mark_roots]. unfold bindM, markFrom. rewrite (markFrom_run _ _ _ _ _ _ Hrun) by lia. done.
Qed.

(** ** Reachability of one key ([reaches]) *)
Section reaches.
Context (get : Key → result bytes) (target : Key).

(** What the walk has visited and what is on its stack. *)
Record reach_inv (root : Key) (visited : gset Key) (stack : list Key) : Prop := {
  ri_target : target ∉ visited;
  ri_root : root ∈ visited ∨ root ∈ stack;
  ri_child k x : k ∈ visited → child_of get k x → x ∈ visited ∨ x ∈ stack;
  ri_reach k : k ∈ visited ∨ k ∈ stack → reachable get root k;
}.

Lemma reach_closed root visited : reach_inv root visited [] → ¬ reachable get root target.
Proof.
  intros [Ht Hr Hc _] Hreach. apply Ht.
  assert (∀ k, reachable get root k → k ∈ visited) as Hall; [|by apply Hall].
  apply rtc_ind_r; [destruct Hr; [done|set_solver]|]. intros y z _ Hz IH. destruct (Hc y z IH Hz); [done|set_solver].
Qed.

Lemma reach_push root visited cur stack cs : cur ≠ target →
  (∀ x, child_of get cur x ↔ x ∈ cs) → reach_inv root visited (cur :: stack) →
  reach_inv root ({[cur]} ∪ visited) (rev cs ++ stack).
Proof.
  intros Hne Hcs [Ht Hr Hc Hreach].
  assert (∀ x, x ∈ rev cs ↔ x ∈ cs) as Hrev by (intros x; by rewrite !list_elem_of_In, <- in_rev).
  split; [set_solver|set_solver| |].
  - intros k x [->%elem_of_singleton|Hk]%elem_of_union Hx.
    + right. apply elem_of_app. left. by apply Hrev, Hcs.
    + destruct (Hc k x Hk Hx); set_solver.
  - intros k Hk. destruct (decide (k ∈ cs)) as [Hin|Hn].
    + eapply rtc_r; [apply (Hreach cur); right; left|by apply Hcs].
    + apply Hreach. set_solver.
Qed.

Lemma reaches_loop_sound root fuel : ∀ visited stack b, reach_inv root visited stack →
  reaches_loop get target fuel visited stack = Ok b → b = true ↔ reachable get root target.
Proof.
  induction fuel as [|fuel IH]; intros visited [|cur stack] b Hinv; cbn [reaches_loop]; try done.
  1,2: intros [= <-]; split; [done|]; intros; by destruct (reach_closed root visited).
  case_bool_decide as Heq.
  { intros [= <-]. split; [|done]. intros _. subst. apply (ri_reach _ _ _ Hinv). right. left. }
  case_bool_decide as Hv.
  { apply IH. destruct Hinv as [Ht Hr Hc Hreach]. split; [done|set_solver| |intros k Hk; apply Hreach; set_solver].
    intros k x Hk Hx. destruct (Hc k x Hk Hx); set_solver. }
  fold (is_leaf cur). destruct (is_leaf cur) eqn:Hl.
  { apply IH. apply (reach_push root visited cur stack []); try done. intros x. split; [intros [? _]; congruence|set_solver]. }
  intros (d & Hd & (cs & Hcs & Hr)%bind_Ok)%bind_Ok. revert Hr. apply IH. apply reach_push; try done.
  intros x. split; [intros (_ & d' & cs' & Hd' & Hcs' & Hx); congruence|]. intros Hx. split; [done|]. eauto.
Qed.

(** The walk of a finite graph ends. *)
Lemma reaches_loop_returns root (U : gset Key) n : (∀ k, safe (get k)) → (∀ k, reachable get root k → k ∈ U) →
  ∀ stack visited, reach_inv root visited stack → (size (U ∖ visited) ≤ n)%nat →
  ∃ m, ∀ fuel, (m ≤ fuel)%nat → safe (reaches_loop get target fuel visited stack).
Proof.
  intros Hget HU. induction n as [n IHn] using lt_wf_ind. induction stack as [|cur stack IH]; intros visited Hinv Hn.
  { exists 0%nat. intros [|fuel] _; by split. }
  destruct (decide (cur = target)) as [->|Hne].
  { exists 1%nat. intros [|fuel] Hf; [lia|]. cbn [reaches_loop]. rewrite bool_decide_eq_true_2 by done. by split. }
  assert (∃ m, ∀ fuel, (m ≤ fuel)%nat → safe (if bool_decide (cur ∈ visited) then reaches_loop get target fuel visited stack else
    if is_leaf cur then reaches_loop get target fuel ({[cur]} ∪ visited) stack else
    d ← get cur; cs ← ChildKeys cur d; reaches_loop get target fuel ({[cur]} ∪ visited) (rev cs ++ stack))) as [m Hm].
  { case_bool_decide as Hv.
    { apply IH; [|done]. destruct Hinv as [Ht Hr Hc Hreach]. split; [done|set_solver| |intros k Hk; apply Hreach; set_solver].
      intros k x Hk Hx. destruct (Hc k x Hk Hx); set_solver. }
    assert (size (U ∖ ({[cur]} ∪ visited)) < n)%nat as Hlt.
    { eapply Nat.lt_le_trans; [|exact Hn]. apply subset_size.
      assert (cur ∈ U) by (apply HU, (ri_reach _ _ _ Hinv); right; left). set_solver. }
    destruct (is_leaf cur) eqn:Hl.
    { apply (IHn _ Hlt); [|done]. apply (reach_push root visited cur stack []); try done.
      intros x. split; [intros [? _]; congruence|set_solver]. }
    pose proof (Hget cur) as Hsg. destruct (get cur) as [d|e| |] eqn:Hd; cbn; [|exists 0%nat; intros; by split|by destruct Hsg..].
    pose proof (ChildKeys_safe cur d) as Hsc. destruct (ChildKeys cur d) as [cs|e| |] eqn:Hcs; cbn; [|exists 0%nat; intros; by split|by destruct Hsc..].
    apply (IHn _ Hlt); [|done]. apply reach_push; try done.
    intros x. split; [intros (_ & d' & cs' & Hd' & Hcs' & Hx); congruence|]. intros Hx. split; [done|]. eauto. }
  exists (S m). intros [|fuel] Hf; [lia|]. cbn [reaches_loop]. rewrite bool_decide_eq_false_2 by done.
  apply Hm. lia.
Qed.

Lemma reach_inv_start root : reach_inv root ∅ [root].
Proof.
  split; [set_solver|set_solver|set_solver|]. intros k [?| ->%list_elem_of_singleton]; [set_solver|apply rtc_refl].
Qed.
End reaches.

(** Whether [root] reaches [k], with the fuel the graph needs. *)
Lemma reaches_spec get root k b fuel : reaches get fuel root k = Ok b → b = true ↔ reachable get root k.
Proof. apply reaches_loop_sound, reach_inv_start. Qed.

Lemma reaches_returns get root k (U : gset Key) : (∀ x, safe (get x)) → (∀ x, reachable get root x → x ∈ U) →
  ∃ m, ∀ fuel, (m ≤ fuel)%nat → safe (reaches get fuel root k).
Proof.
  intros Hget HU. exact (reaches_loop_returns get k root U _ Hget HU [root] ∅ (reach_inv_start get k root) (le_n _)).
Qed.

Lemma why_names_spec `{RefCbor} get fuel k recs names : why_names get fuel k recs = Ok names →
  ∀ n, n ∈ names ↔ ∃ rec root, rec ∈ recs ∧ rec_Name rec = n ∧ record_root (rec_Data rec) = Ok root ∧ reachable get root k.
Proof.
  revert names. induction recs as [|r recs IH]; intros names; cbn [why_names].
  { intros [= <-] n. set_solver. }
  intros (root & Hroot & (found & Hf%wrap_Ok & (names0 & Hn0 & [= <-])%bind_Ok)%bind_Ok)%bind_Ok n.
  apply reaches_spec in Hf. specialize (IH names0 Hn0 n). assert (n ∈ (if found then rec_Name r :: names0 else names0) ↔
    (found = true ∧ n = rec_Name r) ∨ n ∈ names0) as -> by (destruct found; set_solver).
  rewrite Hf, IH. split.
  - intros [[Hr ->]|(rec & root' & Hin & ?)]; [exists r, root|exists rec, root']; set_solver.
  - intros (rec & root' & [->|Hin]%elem_of_cons & <- & Hroot' & Hr); [left|right; by exists rec, root'].
    rewrite Hroot in Hroot'. by injection Hroot' as ->.
Qed.
End mark.

(** ** The collector: its guarantees

    No reference ever dangles, whatever the interleaving; a mark can always be
    finished and is exact; the report of [Why]; the arithmetic of the throttle. *)

Section spec.
Context `{Blake3} `{Fuse} `{Zstd} `{ItemInv} `{Cbor} `{!CborLaws} `{RefCbor} `{Pebble} `{!PebbleLaws} `{Float64}.

(** Every reference names a root whose whole tree is stored and can be decoded. *)
Definition no_dangling (w : World) : Prop :=
  ∃ c, contents (w_store w) c ∧
    ∀ name body, db_map (w_refs w) !! name = Some body → ∃ root, record_root body = Ok root ∧ complete c root.

(** An open store and its references, with no cycle and no client. *)
Definition gc_start (w : World) : Prop :=
  no_dangling w ∧ closed (w_store w) = false ∧ ids_ok (w_store w) ∧ w_held w = [] ∧ w_phase w = Idle.

Lemma start_inv w : gc_start w → ∃ c, gc_inv w c.
Proof.
  destruct w as [s db hs ph]. intros ((c & Hcs & Hr) & Hc & Hi & Hh & Hp). simpl in *. subst. exists c. by apply inv_idle.
Qed.

Hypothesis item_fun : ∀ k d d', item_inv k d → item_inv k d' → d = d'.

(** C1. No reference dangles: in every state the collector, writers, reference
    updates, deletions, wipes and failing disks can reach together, every stored
    reference names a root whose whole tree is in the object store. *)
Theorem gc_no_dangling w w' : gc_start w → rtc gc_step w w' → no_dangling w'.
Proof.
  intros [c Hi]%start_inv Hr. destruct (gc_steps_inv item_fun w w' c Hr Hi) as [c' Hi'].
  exists c'. split; [apply Hi'|]. intros name body Hb. by apply (gi_refs _ _ Hi' name).
Qed.

(** Steps of the mark alone. *)
Lemma run_steps n s live stack s' live' rs todo (db : DB) hs : mark_run n s live stack s' live' →
  rtc gc_step (mkWorld s db hs (Marking rs live stack todo)) (mkWorld s' db hs (Marking rs live' [] todo)).
Proof.
  induction 1 as [|n s s1 s2 live live1 live2 k stack stack1 Hs _ IH]; [apply rtc_refl|].
  eapply rtc_l; [by apply step_mark|done].
Qed.

Lemma todo_steps c rs P (db : DB) hs todo : (∀ r, r ∈ rs → complete c r) → (∀ r k, r ∈ rs → closure c r k → k ∈ P) →
  ∀ stack s live marked, contents s c → closed s = false → quiet s → ms_set live P marked →
  tri c rs marked (stack ++ todo) →
  ∃ s' live' marked', rtc gc_step (mkWorld s db hs (Marking rs live stack todo)) (mkWorld s' db hs (Marking rs live' [] [])) ∧
    same_store s s' ∧ ms_set live' P marked' ∧ tri c rs marked' [].
Proof.
  intros Hcomp HP. induction todo as [|root todo IH]; intros stack s live marked Hcs Hc Hq Hms Ht;
    destruct (mark_run_exists c rs P Hcomp HP _ (size (P ∖ marked)) stack s live marked Hcs Hc Hq Hms (le_n _) Ht)
      as (m & s1 & live1 & marked1 & Hrun & Hss & Hq1 & Hms1 & Ht1).
  - exists s1, live1, marked1. split_and!; try done. by eapply run_steps.
  - destruct (IH [root] s1 live1 marked1) as (s' & live' & marked' & Hr & Hss' & Hms' & Ht'); try done.
    { by eapply same_store_contents. }
    { by destruct Hss as [l ->]. }
    exists s', live', marked'. split_and!; try done; [|by eapply same_store_trans].
    etrans; [by eapply run_steps|]. eapply rtc_l; [apply step_root|done].
Qed.

(** C33. A mark can always be finished: from every reachable state in which a mark is
    under way and the disk answers, steps of the mark alone end it, and then
    exactly the keys reachable from the snapshot's roots are live. *)
Theorem mark_finishes w w' rs live stack todo :
  gc_start w → rtc gc_step w w' → w_phase w' = Marking rs live stack todo → quiet (w_store w') →
  ∃ s' live' c, rtc gc_step w' (mkWorld s' (w_refs w') (w_held w') (AllMarked rs live')) ∧
    contents s' c ∧ same_store (w_store w') s' ∧
    ∀ k, ms_live live' k = true ↔ ∃ r, r ∈ rs ∧ closure c r k.
Proof.
  intros [c0 Hi0]%start_inv Hr Hph Hq. destruct (gc_steps_inv item_fun w w' c0 Hr Hi0) as [c Hi].
  destruct w' as [s db hs ph]. simpl in *. subst ph. destruct (gi_mark _ _ Hi) as (P & marked & Hms & _ & Hcl & Ht).
  destruct (todo_steps c rs P db hs todo (λ r, inv_roots _ c rs r Hi eq_refl) Hcl stack s live marked
    (gi_contents _ _ Hi) (gi_closed _ _ Hi) Hq Hms Ht) as (s' & live' & marked' & Hsteps & Hss & Hms' & Ht').
  exists s', live', c. split_and!; [|eapply same_store_contents; [exact Hss|apply Hi]|done|].
  - eapply rtc_r; [exact Hsteps|apply step_marked].
  - intros k. rewrite (ms_live_spec live' P marked' k Hms'), bool_decide_eq_true. by apply tri_done.
Qed.
End spec.

Section mark_spec.
Context `{Blake3} `{Fuse} `{Zstd} `{ItemInv} `{Cbor} `{!CborLaws}.

(** The mark is exact and ends: on an open store whose reads succeed and in which
    the roots are complete, [markLive] returns, with enough fuel, a set that
    contains exactly the keys reachable from the roots, and changes nothing. *)
Theorem markLive_exact s c rs :
  contents s c → closed s = false → quiet s → (∀ r, r ∈ rs → complete c r) →
  ∃ n, ∀ fuel, (n ≤ fuel)%nat → ∃ live s', markLive (λ _, None) fuel rs s = (Ok live, s') ∧ same_store s s' ∧
    ∀ k, ∃ b, ms_Contains live k = Ok b ∧ (b = true ↔ ∃ r, r ∈ rs ∧ closure c r k).
Proof.
  intros Hcs Hc Hq Hcomp. pose proof Hcs as (m & [Hr _] & Heq).
  assert (dom c = dom m) as Hdom by (subst c; apply dom_fmap_L).
  destruct (mark_roots_runs c rs (dom m) Hcomp) with (todo := rs) (s := s) (live := NewMarkSet s) (marked := ∅ : gset Key)
    as [n Hn]; try done; [|by apply NewMarkSet_set|apply tri_init|].
  { intros r k Hr' Hk. rewrite <- Hdom. apply present_dom. by apply (Hcomp r). }
  exists n. intros fuel Hf. destruct (Hn fuel Hf) as (s' & live & marked & Heq' & Hss & Hms & Ht).
  exists live, s'. split_and!; [done|done|]. intros k. exists (bool_decide (k ∈ marked)).
  split; [by eapply ms_Contains_set|]. rewrite bool_decide_eq_true. by apply tri_done.
Qed.

(** [Why] lists exactly the references that keep a key alive, sorted: when it
    answers, a name is listed if and only if its reference's root reaches the key. *)
Theorem Why_exact `{RefCbor} `{Pebble} `{!PebbleLaws} get fuel k db names db' :
  Why get fuel k db = (Ok names, db') →
  StronglySorted bytes_le names ∧ db_map db' = db_map db ∧
  ∀ n, n ∈ names ↔ ∃ body root, db_map db !! n = Some body ∧ record_root body = Ok root ∧ reachable get root k.
Proof.
  unfold Why. pose proof (All_law db) as Hall. destruct (Refstore.All db) as [r db1].
  destruct Hall as (_ & Hm & Hl). intros [= Hr <-]. apply bind_Ok in Hr as (recs & -> & (ns & Hns & [= <-])%bind_Ok).
  destruct (Hl recs eq_refl) as [_ Hin]. split_and!; [apply (StronglySorted_merge_sort bytes_le)|done|].
  intros n. rewrite (merge_sort_Permutation bytes_le ns), (why_names_spec _ _ _ _ _ Hns n). split.
  - intros ([name body] & root & Hrec & <- & ?). exists body, root. split; [by apply Hin|done].
  - intros (body & root & Hb & ?). exists (mkRecord n body), root. split; [by apply Hin|done].
Qed.
End mark_spec.

(** ** The throttle *)
(** Within its bounds the throttle is exact: for a rate of at most 9223372036
    bytes per second and less than 292 years of copying, no intermediate product
    overflows and the time owed is [n * 1e9 / rate] nanoseconds, rounded down. *)
Theorem throttleOwed_exact n rate :
  0 <= n → 0 < rate <= 9223372036 → n / rate < 9223372036 → throttleOwed n rate = n * Second / rate.
Proof.
  intros Hn Hr Hq. unfold throttleOwed, Second. rewrite Z.quot_div_nonneg, Z.rem_mod_nonneg by lia.
  pose proof (Z.mod_pos_bound n rate ltac:(lia)) as Hm. pose proof (Z.div_pos n rate Hn ltac:(lia)) as Hd.
  rewrite (i64_small (n / rate * 1000000000)), (i64_small (n mod rate * 1000000000)) by lia.
  assert (0 <= n mod rate * 1000000000 / rate < 1000000000) as Hb.
  { split; [apply Z.div_pos; lia|apply Z.div_lt_upper_bound; nia]. }
  rewrite Z.quot_div_nonneg by nia. rewrite i64_small by lia.
  rewrite (Z.div_mod n rate) at 3 by lia.
  replace ((rate * (n / rate) + n mod rate) * 1000000000) with (n mod rate * 1000000000 + n / rate * 1000000000 * rate) by ring.
  rewrite Z.div_add by lia. lia.
Qed.

(** Above that rate the product of the remainder overflows: the time owed is
    negative, so [pace] does not wait. *)
Example throttleOwed_overflows : throttleOwed 9999999999 10000000000 = -844674407.
Proof. vm_compute. reflexivity. Qed.

(** ** Applications *)
Section examples.
#[local] Existing Instance fuse_example.
#[local] Existing Instance zstd_example.
#[local] Existing Instance blake3_example.
#[local] Existing Instance PackstoreSpec.inv_example.
#[local] Existing Instance cbor_example.
#[local] Existing Instance cbor_example_laws.
#[local] Existing Instance refcbor_example.
#[local] Existing Instance pebble_example.
#[local] Existing Instance pebble_example_laws.

(** Percent in place of floating point. *)
#[local] Instance float_example : Float64 := {|
  float64 := Z; f_zero := 0; f_half := 50; f_tenth := 10; f_lt0 f := f <? 0; f_le0 f := f <=? 0;
  f_ratio a b := 100 * a / b; f_reaches f dead total := 100 * dead >=? f * total |}.

Definition gc_ref_example : bytes := put_ref (mkReference [x61] (kb key_example) [] 1 [] []).
Definition db_example : DB := ({[ [x61] := gc_ref_example ]}, []).
Definition world_example : World := mkWorld one_example db_example [] Idle.

Lemma record_root_example : record_root gc_ref_example = Ok key_example.
Proof. vm_compute. reflexivity. Qed.

Lemma roots_example : roots db_example = (Ok [key_example], db_example).
Proof. rewrite (surjective_pairing (roots db_example)). f_equal. Qed.

Lemma complete_example : complete {[key_example := payload_example]} key_example.
Proof.
  assert (is_leaf key_example = true) as Hl by (vm_compute; reflexivity).
  intros k Hk. unfold closure, reachable in Hk. inversion Hk as [|? y ? [Hf _] _]; subst; [|congruence].
  unfold present, chas. rewrite Hl, lookup_singleton_eq. reflexivity.
Qed.

Lemma start_example : gc_start world_example.
Proof.
  split_and!; [|vm_compute; reflexivity|apply ids_one..|reflexivity|reflexivity].
  exists {[key_example := payload_example]}. split; [apply one_contents|].
  intros name body Hb. cbn in Hb. apply lookup_singleton_Some in Hb as [_ <-].
  exists key_example. split; [apply record_root_example|apply complete_example].
Qed.

Definition marking_example : World :=
  let s := snd (BeginBarrier one_example) in
  mkWorld s db_example [] (Marking [key_example] (NewMarkSet s) [] [key_example]).

Lemma steps_example : rtc gc_step world_example marking_example.
Proof.
  eapply rtc_l; [eapply (step_snapshot (Ok [key_example]))|].
  - unfold cycle_snapshot, BeginBarrier, modM. rewrite roots_example. reflexivity.
  - eapply rtc_l; [apply step_new_marks|apply rtc_refl].
Qed.

Lemma fun_example (k : Key) d d' : item_inv k d → item_inv k d' → d = d'.
Proof. by intros -> ->. Qed.

Lemma gc_no_dangling_witness : no_dangling marking_example.
Proof. apply (gc_no_dangling fun_example world_example marking_example start_example steps_example). Defined.

Lemma quiet_example : quiet one_example.
Proof. unfold quiet. replace (io one_example) with (@nil io_outcome) by (vm_compute; reflexivity). constructor. Qed.

Lemma mark_finishes_witness :
  ∃ s' live' c, rtc gc_step marking_example (mkWorld s' db_example [] (AllMarked [key_example] live')) ∧
    contents s' c ∧ same_store (w_store marking_example) s' ∧
    ∀ k, ms_live live' k = true ↔ ∃ r, r ∈ [key_example] ∧ closure c r k.
Proof.
  exact (mark_finishes fun_example world_example marking_example _ _ _ _ start_example steps_example eq_refl quiet_example).
Defined.

Lemma markLive_exact_witness :
  ∃ n, ∀ fuel, (n ≤ fuel)%nat → ∃ live s', markLive (λ _, None) fuel [key_example] one_example = (Ok live, s') ∧
    same_store one_example s' ∧
    ∀ k, ∃ b, ms_Contains live k = Ok b ∧
      (b = true ↔ ∃ r, r ∈ [key_example] ∧ closure {[key_example := payload_example]} r k).
Proof.
  apply (markLive_exact one_example _ [key_example] one_contents); [vm_compute; reflexivity|apply quiet_example|].
  intros r ->%list_elem_of_singleton. apply complete_example.
Defined.

Lemma Why_exact_witness :
  StronglySorted bytes_le [[x61]] ∧ db_map db_example = db_map db_example ∧
  ∀ n, n ∈ [[x61]] ↔ ∃ body root, db_map db_example !! n = Some body ∧ record_root body = Ok root ∧
    reachable (cget {[key_example := payload_example]}) root key_example.
Proof.
  apply (Why_exact (cget {[key_example := payload_example]}) 5 key_example db_example [[x61]] db_example).
  rewrite (surjective_pairing (Why _ _ _ _)). f_equal.
Defined.

Lemma throttleOwed_exact_witness : throttleOwed 10000000000 3000 = 10000000000 * Second / 3000.
Proof. apply (throttleOwed_exact 10000000000 3000); [lia|lia|vm_compute; reflexivity]. Defined.
End examples.
