(* ===== verification/Auth.v ===== *)
(** * Request authentication
    (packages [nonces], [allowlist], [httpsig] and [grant])

    The replay cache, the list of allowed keys with their capabilities, the
    signatures of requests and responses, and the delegated grants.  The SSH key
    formats and the CBOR codecs of the signed payloads are classes.

    A clock reading has two parts, as [time.Now] has: the wall clock, which
    timestamps are compared with, and the monotonic clock, which orders the
    readings of one process.  Both count nanoseconds. *)

From Stdlib Require Import Init.Byte.
From S2P Require Import Prelude Machine Key Chunkers FsEncode Instances Text Sshsign.
From Stdlib Require Import ZifyBool ZifyNat.
Local Open Scope Z_scope.

Record Time := mkTime { wall : Z; mono : Z }.

(** ** Replay cache ([nonces.go]) *)
Record Cache := mkCache { nc_window : Z; nc_seen : gmap bytes Z }.

Definition nonces_New (window : Z) : Cache := mkCache window ∅.

Definition nonce_key (id nonce : bytes) : bytes := id ++ [x00] ++ nonce.

(** Drop what is older than the retention period. *)
Definition nonce_sweep (cutoff : Z) (seen : gmap bytes Z) : gmap bytes Z :=
  filter (λ '(_, t), ¬ t < cutoff) seen.

Definition SeenBefore (id nonce : bytes) (now : Time) (c : Cache) : bool * Cache :=
  let k := nonce_key id nonce in
  let cutoff := mono now - 2 * nc_window c in
  let seen := nonce_sweep cutoff (nc_seen c) in
  match seen !! k with
  | Some t => if negb (t <? cutoff) then (true, mkCache (nc_window c) seen)
              else (false, mkCache (nc_window c) (<[k := mono now]> seen))
  | None => (false, mkCache (nc_window c) (<[k := mono now]> seen))
  end.

(** ** Allowed keys ([allowlist.go]) *)
Record Entry := mkAllow {
  Read : bool;
  PushObjects : bool;
  WriteRefs : bool;
  Delegate : bool;
  WipeAll : bool;
  Admin : bool;
}.

#[export] Instance allow_eq_dec : EqDecision Entry.
Proof. solve_decision. Defined.

Definition CapRead : string := "read".
Definition CapPushObjects : string := "push-objects".
Definition CapWriteRefs : string := "write-refs".
Definition CapDelegate : string := "delegate".
Definition CapWipe : string := "wipe".
Definition CapAdmin : string := "admin".

Definition noAccess : Entry := mkAllow false false false false false false.
Definition FullAccess : Entry := mkAllow true true true false false false.

Definition add_cap (n : string) (e : Entry) : result Entry :=
  if String.eqb n CapRead then Ok (mkAllow true (PushObjects e) (WriteRefs e) (Delegate e) (WipeAll e) (Admin e)) else
  if String.eqb n CapPushObjects then Ok (mkAllow (Read e) true (WriteRefs e) (Delegate e) (WipeAll e) (Admin e)) else
  if String.eqb n CapWriteRefs then Ok (mkAllow (Read e) (PushObjects e) true (Delegate e) (WipeAll e) (Admin e)) else
  if String.eqb n CapDelegate then Ok (mkAllow (Read e) (PushObjects e) (WriteRefs e) true (WipeAll e) (Admin e)) else
  if String.eqb n CapWipe then Ok (mkAllow (Read e) (PushObjects e) (WriteRefs e) (Delegate e) true (Admin e)) else
  if String.eqb n CapAdmin then Ok (mkAllow (Read e) (PushObjects e) (WriteRefs e) (Delegate e) (WipeAll e) true) else
  Err (errors_New "unknown capability %q").

Definition ParseCaps (names : list string) : result Entry := foldR add_cap names noAccess.

Definition Allows (e : Entry) (cap : string) : bool :=
  if Admin e then true else
  if String.eqb cap CapRead then Read e else
  if String.eqb cap CapPushObjects then PushObjects e else
  if String.eqb cap CapWriteRefs then WriteRefs e else
  if String.eqb cap CapDelegate then Delegate e else
  if String.eqb cap CapWipe then WipeAll e else false.

Definition Caps (e : Entry) : list string :=
  if Admin e then [CapAdmin] else
  (if Read e then [CapRead] else []) ++ (if PushObjects e then [CapPushObjects] else []) ++
  (if WriteRefs e then [CapWriteRefs] else []) ++ (if Delegate e then [CapDelegate] else []) ++
  (if WipeAll e then [CapWipe] else []).

(** Keys in SSH wire format. *)
Definition List := gmap bytes Entry.
Definition Lookup (l : List) (pubWire : bytes) : option Entry := l !! pubWire.

Class SshKeys := {
  PublicKey : Type;
  ParsePublicKey : bytes → result PublicKey;
  pk_Marshal : PublicKey → bytes;
  FingerprintSHA256 : PublicKey → bytes;
  ParseAuthorizedKey : bytes → result (PublicKey * list string);   (* the key and its options *)
}.

(** [bufio.ScanLines]: lines end at a line feed, one carriage return before it is
    dropped, and a last line may lack it. *)
Fixpoint split_lines (b cur : bytes) : list bytes :=
  match b with
  | [] => match cur with [] => [] | _ => [cur] end
  | c :: b => if bool_decide (c = x0a) then cur :: split_lines b [] else split_lines b (cur ++ [c])
  end.
Definition drop_cr (l : bytes) : bytes :=
  match rev l with c :: r => if bool_decide (c = x0d) then rev r else l | [] => [] end.
Definition MaxScanTokenSize : Z := 64 * 1024.

(** The encodings of the white space of Unicode. *)
Definition spaces : list bytes :=
  [[x09]; [x0a]; [x0b]; [x0c]; [x0d]; [x20]; [xc2; x85]; [xc2; xa0]; [xe1; x9a; x80]; [xe2; x80; xa8]; [xe2; x80; xa9];
   [xe2; x80; xaf]; [xe2; x81; x9f]; [xe3; x80; x80]] ++
  ((λ c, [xe2; x80; c]) <$> [x80; x81; x82; x83; x84; x85; x86; x87; x88; x89; x8a]).

(** The space that starts [l], if one does. *)
Definition space_at (sp : list bytes) (l : bytes) : option bytes :=
  snd <$> list_find (λ s : bytes, take (length s) l = s) sp.

Fixpoint trim_from (fuel : nat) (sp : list bytes) (l : bytes) : bytes :=
  match fuel with
  | O => l
  | S fuel => match space_at sp l with Some s => trim_from fuel sp (drop (length s) l) | None => l end
  end.
Definition TrimSpace (l : bytes) : bytes :=
  let l := trim_from (length l) spaces l in
  rev (trim_from (length l) ((@rev byte) <$> spaces) (rev l)).

Section allowlist.
Context `{SshKeys}.

Fixpoint parse_lines (lines : list bytes) (l : List) : result List :=
  match lines with
  | [] => Ok l
  | raw :: lines =>
      if zlen raw >=? MaxScanTokenSize then Err (errors_New "allowed-keys line %d: token too long") else
      let line := TrimSpace (drop_cr raw) in
      if bool_decide (line = []) || bool_decide (head line = Some x23) then parse_lines lines l else
      '(pub, options) ← wrap "allowed-keys line %d" (ParseAuthorizedKey line);
      e ← (if (length options =? 0)%nat then Ok FullAccess else wrap "allowed-keys line %d" (ParseCaps options));
      parse_lines lines (<[pk_Marshal pub := e]> l)
  end.

Definition allowlist_Parse (b : bytes) : result List := parse_lines (split_lines b []) ∅.
End allowlist.

(** ** Signed requests and responses ([httpsig.go]) *)
Record requestPayload := mkRequestPayload {
  rp_Method : bytes;
  rp_PathQuery : bytes;
  rp_Timestamp : Z;
  rp_Nonce : bytes;
  rp_BodyHash : bytes;
  rp_Audience : bytes;
}.

Record responsePayload := mkResponsePayload { sp_Nonce : bytes; sp_Status : Z; sp_BodyHash : bytes }.

Class HttpCbor := {
  marshal_request : requestPayload → result bytes;
  marshal_response : responsePayload → result bytes;
}.
Definition is_int (z : Z) : Prop := - 2 ^ 63 <= z < 2 ^ 63.
(** The encodings are deterministic, so they determine what they encode. *)
Class HttpCborLaws `{HttpCbor} := {
  marshal_request_safe p : safe (marshal_request p);
  marshal_response_safe p : safe (marshal_response p);
  marshal_request_inj p q b : is_int (rp_Timestamp p) → is_int (rp_Timestamp q) → marshal_request p = Ok b → marshal_request q = Ok b → p = q;
  marshal_response_inj p q b : is_int (sp_Status p) → is_int (sp_Status q) → marshal_response p = Ok b → marshal_response q = Ok b → p = q;
}.

(** What the server looks at in a request. *)
Record Request := mkRequest {
  rq_Method : bytes;
  rq_URI : bytes;
  rq_PublicKey : bytes;    (* Amber-Public-Key *)
  rq_Timestamp : bytes;    (* Amber-Timestamp *)
  rq_Nonce : bytes;        (* Amber-Nonce *)
  rq_Signature : bytes;    (* Amber-Signature *)
  rq_Grant : bytes;        (* Amber-Grant *)
  rq_Body : bytes;
}.

Definition Namespace : string := "amber-store-http".
Definition DefaultWindow : Z := 300 * 1000000000.
Definition trailerLenSize : Z := 4.

(** [time.Time.Sub] saturates. *)
Definition sat64 (z : Z) : Z := Z.max (- 2 ^ 63) (Z.min (2 ^ 63 - 1) z).

Section httpsig.
Context `{Blake3} `{SshSig} `{SshKeys} `{HttpCbor}.

Definition HashBody (body : bytes) : bytes := Sum256 body.

Definition AppendSignatureTrailer (w sigB64 : bytes) : bytes := w ++ sigB64 ++ be_enc 4 (zlen sigB64).

Definition SplitSignatureTrailer (body : bytes) : result (option (bytes * bytes)) :=
  if zlen body <? trailerLenSize then Ok None else
  let end_ := zlen body - trailerLenSize in
  l ← slice_from body end_;
  let n := be_dec l in
  if n >? end_ then Ok None else
  let start := end_ - n in
  prefix ← slice body 0 start;
  sig ← slice body start end_;
  Ok (Some (prefix, sig)).

Definition requestSigPayload (method pathQuery : bytes) (timestamp : Z) (nonce bodyHash audience : bytes) : result bytes :=
  marshal_request (mkRequestPayload method pathQuery timestamp nonce bodyHash audience).

(** The request with its signature headers set. *)
Definition SignRequestHash (req : Request) (signer : Signer) (audience : bytes) (timestamp : Z) (nonce bodyHash : bytes) :
    result Request :=
  payload ← wrap "encoding request signature payload"
              (requestSigPayload (rq_Method req) (rq_URI req) timestamp nonce bodyHash audience);
  sig ← SignNamespace signer payload Namespace;
  Ok (mkRequest (rq_Method req) (rq_URI req) (b64_EncodeToString (signer_PublicKey signer)) (FormatInt timestamp)
        (b64_EncodeToString nonce) (b64_EncodeToString sig) (rq_Grant req) (rq_Body req)).

Definition SignRequest (req : Request) (signer : Signer) (audience : bytes) (timestamp : Z) (nonce : bytes) : result Request :=
  SignRequestHash req signer audience timestamp nonce (HashBody (rq_Body req)).

(** The claimed key, or an error; and the nonce an error is signed over. *)
Definition VerifyRequestHash (r : Request) (audience bodyHash : bytes) (now : Time) (window : Z) :
    result PublicKey * bytes :=
  if bool_decide (rq_PublicKey r = []) || bool_decide (rq_Timestamp r = []) || bool_decide (rq_Nonce r = []) ||
     bool_decide (rq_Signature r = [])
  then (Err (errors_New "request is not signed (missing Amber-* headers)"), []) else
  match (pubWire ← wrap "decoding Amber-Public-Key" (b64_DecodeString (rq_PublicKey r));
         pub ← wrap "parsing public key" (ParsePublicKey pubWire);
         ts ← wrap "parsing Amber-Timestamp" (ParseInt (rq_Timestamp r));
         nonce ← wrap "decoding Amber-Nonce" (b64_DecodeString (rq_Nonce r));
         sig ← wrap "decoding Amber-Signature" (b64_DecodeString (rq_Signature r));
         Ok (pubWire, pub, ts, nonce, sig)) with
  | Ok (pubWire, pub, ts, nonce, sig) =>
      let d := sat64 (wall now - ts) in
      if (d <? - window) || (d >? window)
      then (Err (errors_New "request timestamp outside the window"), nonce) else
      (payload ← wrap "encoding request signature payload"
                   (requestSigPayload (rq_Method r) (rq_URI r) ts nonce bodyHash audience);
       _ ← wrap "request signature" (VerifyNamespace payload sig pubWire Namespace);
       Ok pub, nonce)
  | Err e => (Err e, [])
  | Panic => (Panic, [])
  | Diverge => (Diverge, [])
  end.

Definition VerifyRequest (r : Request) (audience body : bytes) (now : Time) (window : Z) : result PublicKey * bytes :=
  VerifyRequestHash r audience (HashBody body) now window.

Definition SignResponse (signer : Signer) (nonce : bytes) (status : Z) (bodyHash : bytes) : result bytes :=
  payload ← wrap "encoding response signature payload" (marshal_response (mkResponsePayload nonce status bodyHash));
  sig ← SignNamespace signer payload Namespace;
  Ok (b64_EncodeToString sig).

Definition VerifyResponse (serverPubWire nonce : bytes) (status : Z) (bodyHash sigB64 : bytes) : result unit :=
  if bool_decide (sigB64 = []) then Err (errors_New "response is not signed (missing Amber-Signature)") else
  sig ← wrap "decoding response signature" (b64_DecodeString sigB64);
  payload ← wrap "encoding response signature payload" (marshal_response (mkResponsePayload nonce status bodyHash));
  _ ← wrap "response signature" (VerifyNamespace payload sig serverPubWire Namespace);
  Ok tt.
End httpsig.

(** ** Grants ([grant.go]) *)
Record Grant := mkGrant { g_Subject : bytes; g_Caps : list string; g_IssuedAt : Z; g_ExpiresAt : Z }.
Record envelope := mkEnvelope { env_Payload : bytes; env_Signature : bytes; env_IssuerKey : bytes }.

Class GrantCbor := {
  marshal_grant : Grant → result bytes;
  unmarshal_grant : bytes → result Grant;
  marshal_envelope : envelope → result bytes;
  unmarshal_envelope : bytes → result envelope;
}.
Definition grant_wf (g : Grant) : Prop := - 2 ^ 63 <= g_IssuedAt g < 2 ^ 63 ∧ - 2 ^ 63 <= g_ExpiresAt g < 2 ^ 63.
Class GrantCborLaws `{GrantCbor} := {
  marshal_grant_safe g : safe (marshal_grant g);
  unmarshal_grant_safe b : safe (unmarshal_grant b);
  marshal_envelope_safe e : safe (marshal_envelope e);
  unmarshal_envelope_safe b : safe (unmarshal_envelope b);
  unmarshal_grant_wf b g : unmarshal_grant b = Ok g → grant_wf g;
  unmarshal_marshal_grant g b : grant_wf g → marshal_grant g = Ok b → unmarshal_grant b = Ok g;
  unmarshal_marshal_envelope e b : marshal_envelope e = Ok b → unmarshal_envelope b = Ok e;
}.

Definition GrantNamespace : string := "amber-store-grant".

Fixpoint check_caps (caps : list string) : result unit :=
  match caps with
  | [] => Ok tt
  | c :: caps =>
      if String.eqb c CapRead || String.eqb c CapPushObjects then check_caps caps
      else Err (errors_New "capability %q cannot be delegated by a grant")
  end.

Definition validateCaps (caps : list string) : result unit :=
  if (length caps =? 0)%nat then Err (errors_New "grant carries no capabilities") else check_caps caps.

Definition string_le (a b : string) : Prop := String.leb a b = true.
#[export] Instance string_le_dec : RelDecision string_le.
Proof. intros a b. unfold string_le. apply _. Defined.

Section grant.
Context `{SshSig} `{GrantCbor}.

Definition grant_Sign (g : Grant) (issuer : Signer) : result bytes :=
  _ ← validateCaps (g_Caps g);
  if (length (g_Subject g) =? 0)%nat then Err (errors_New "grant has no subject key") else
  if g_IssuedAt g >? g_ExpiresAt g then Err (errors_New "grant expires before it is issued") else
  let g := mkGrant (g_Subject g) (merge_sort string_le (g_Caps g)) (g_IssuedAt g) (g_ExpiresAt g) in
  payload ← wrap "encoding grant" (marshal_grant g);
  sig ← SignNamespace issuer payload GrantNamespace;
  marshal_envelope (mkEnvelope payload sig (signer_PublicKey issuer)).

Definition grant_Verify (raw subjectPubWire : bytes) (now : Time) (window : Z) : result (Grant * bytes) :=
  env ← wrap "decoding grant envelope" (unmarshal_envelope raw);
  _ ← wrap "grant signature" (VerifyNamespace (env_Payload env) (env_Signature env) (env_IssuerKey env) GrantNamespace);
  g ← wrap "decoding grant payload" (unmarshal_grant (env_Payload env));
  _ ← validateCaps (g_Caps g);
  if negb (bool_decide (g_Subject g = subjectPubWire)) then Err (errors_New "grant subject does not match the request key") else
  let n := wall now in
  if n <? i64 (g_IssuedAt g - window) then Err (errors_New "grant is not valid yet") else
  if n >? i64 (g_ExpiresAt g + window) then Err (errors_New "grant is expired") else
  Ok (g, env_IssuerKey env).
End grant.
