(* ===== verification/AuthFacts.v ===== *)
(** * Request authentication: facts

    What an accepted signature covers, the validity of grants, and how long the
    replay cache remembers. *)

From Stdlib Require Import Init.Byte.
From S2P Require Import Prelude Machine Key Chunkers FsEncode Instances Text Sshsign Auth.
From Stdlib Require Import ZifyBool ZifyNat.
Local Open Scope Z_scope.

(** ** Replay cache *)
Section cache.
Implicit Types (c : Cache) (k : bytes).

Lemma sweep_keep cutoff seen k t : seen !! k = Some t → cutoff <= t → nonce_sweep cutoff seen !! k = Some t.
Proof. intros Hk Ht. apply map_lookup_filter_Some. split; [done|lia]. Qed.

(** A nonce that is remembered and not too old is recognised. *)
Lemma SeenBefore_hit id nonce now c t :
  nc_seen c !! nonce_key id nonce = Some t → mono now - 2 * nc_window c <= t → fst (SeenBefore id nonce now c) = true.
Proof.
  intros Hk Ht. unfold SeenBefore. rewrite (sweep_keep _ _ _ _ Hk Ht).
  by replace (negb (t <? _)) with true by lia.
Qed.

(** An unrecognised nonce is remembered with the time of the request. *)
Lemma SeenBefore_records id nonce now c c' :
  SeenBefore id nonce now c = (false, c') → nc_seen c' !! nonce_key id nonce = Some (mono now).
Proof.
  unfold SeenBefore. destruct (nonce_sweep _ _ !! _) as [t|]; [destruct (negb _); [done|]|];
    intros [= <-]; apply lookup_insert_eq.
Qed.

(** A nonce that is not too old stays. *)
Lemma SeenBefore_keeps id nonce now c b c' k t :
  SeenBefore id nonce now c = (b, c') → nc_seen c !! k = Some t → mono now - 2 * nc_window c <= t →
  nc_seen c' !! k = Some t.
Proof.
  intros Heq Hk Ht. pose proof (sweep_keep _ _ _ _ Hk Ht) as Hs.
  destruct (decide (k = nonce_key id nonce)) as [->|Hne].
  - pose proof (SeenBefore_hit id nonce now c t Hk Ht) as Hb. rewrite Heq in Hb. simpl in Hb. subst b.
    unfold SeenBefore in Heq. rewrite Hs in Heq. replace (negb (t <? _)) with true in Heq by lia.
    by injection Heq as <-.
  - unfold SeenBefore in Heq. destruct (nonce_sweep _ _ !! nonce_key _ _) as [t'|]; [destruct (negb _)|];
      injection Heq as <- <-; cbn [nc_seen]; [done|by rewrite lookup_insert_ne by done..].
Qed.

Lemma SeenBefore_window id nonce now c : nc_window (snd (SeenBefore id nonce now c)) = nc_window c.
Proof. unfold SeenBefore. by destruct (nonce_sweep _ _ !! _) as [t|]; [destruct (negb _)|]. Qed.
End cache.

(** ** Capabilities *)
Lemma add_cap_safe n e : safe (add_cap n e).
Proof. unfold add_cap. repeat case_if; by split. Qed.

(** The capabilities that grants can carry. *)
Definition delegable (c : string) : Prop := c = CapRead ∨ c = CapPushObjects.

Lemma check_caps_Ok caps : check_caps caps = Ok tt ↔ Forall delegable caps.
Proof.
  induction caps as [|c caps IH]; simpl; [by split; constructor|].
  rewrite Forall_cons, <- IH. unfold delegable.
  destruct (String.eqb_spec c CapRead), (String.eqb_spec c CapPushObjects); simpl; naive_solver.
Qed.

Lemma validateCaps_Ok caps : validateCaps caps = Ok tt ↔ caps ≠ [] ∧ Forall delegable caps.
Proof.
  unfold validateCaps. destruct caps as [|c caps]; [split; [done|by intros [? _]]|].
  cbn [length Nat.eqb]. rewrite check_caps_Ok. naive_solver.
Qed.

Lemma check_caps_safe caps : safe (check_caps caps).
Proof. induction caps; simpl; [by split|]. case_if; [done|by split]. Qed.

Lemma validateCaps_safe caps : safe (validateCaps caps).
Proof. unfold validateCaps. case_if; [by split|apply check_caps_safe]. Qed.

(** An entry made of delegable names allows what they name and nothing else. *)
Lemma ParseCaps_delegable caps e cap : Forall delegable caps → ParseCaps caps = Ok e →
  Allows e cap = true → delegable cap ∧ cap ∈ caps.
Proof.
  intros Hd Hp. unfold ParseCaps in Hp.
  assert (∀ e0 e, foldR add_cap caps e0 = Ok e →
    Admin e = Admin e0 ∧ WriteRefs e = WriteRefs e0 ∧ Delegate e = Delegate e0 ∧ WipeAll e = WipeAll e0 ∧
    (Read e = true → Read e0 = true ∨ CapRead ∈ caps) ∧
    (PushObjects e = true → PushObjects e0 = true ∨ CapPushObjects ∈ caps)) as Hf.
  { clear Hp. induction Hd as [|c caps [->| ->] _ IH]; intros e0 e1; cbn [foldR].
    - intros [= <-]. split_and!; auto.
    - intros (e2 & Ha & Hr)%bind_Ok. injection Ha as <-. destruct (IH _ _ Hr) as (? & ? & ? & ? & ? & Hp). cbn in *.
      split_and!; try done; [intros; right; left|]. intros [|]%Hp; [by left|right; by right].
    - intros (e2 & Ha & Hr)%bind_Ok. injection Ha as <-. destruct (IH _ _ Hr) as (? & ? & ? & ? & Hrd & ?). cbn in *.
      split_and!; try done; [|intros; right; left]. intros [|]%Hrd; [by left|right; by right]. }
  destruct (Hf noAccess e Hp) as (Ha & Hw & Hdel & Hwi & Hr & Hpu). cbn in *.
  unfold Allows. rewrite Ha. unfold delegable.
  destruct (String.eqb_spec cap CapRead) as [->|]; [intros [|]%Hr; [done|auto]|].
  destruct (String.eqb_spec cap CapPushObjects) as [->|]; [intros [|]%Hpu; [done|auto]|].
  repeat case_if; congruence.
Qed.

(** ** Signatures *)
Lemma sat64_window d w : 0 <= w < 2 ^ 63 - 1 → - w <= sat64 d <= w → - w <= d <= w.
Proof. unfold sat64. lia. Qed.

Section httpsig_facts.
Context `{Blake3} `{SshSig} `{SshKeys} `{HttpCbor}.

(** What the acceptance of a request means: its headers decode, its time is near
    the clock, and the claimed key signed exactly its content for this server. *)
Definition accepted (r : Request) (audience bodyHash : bytes) (now : Time) (window : Z) (pub : PublicKey) (nonce : bytes)
    (ts : Z) : Prop :=
  ∃ pubWire sig payload,
    b64_DecodeString (rq_PublicKey r) = Ok pubWire ∧ ParsePublicKey pubWire = Ok pub ∧
    ParseInt (rq_Timestamp r) = Ok ts ∧ b64_DecodeString (rq_Nonce r) = Ok nonce ∧
    b64_DecodeString (rq_Signature r) = Ok sig ∧ - window <= sat64 (wall now - ts) <= window ∧
    marshal_request (mkRequestPayload (rq_Method r) (rq_URI r) ts nonce bodyHash audience) = Ok payload ∧
    signed_by pubWire payload sig Namespace.

Lemma VerifyRequestHash_Ok r audience bodyHash now window pub nonce :
  VerifyRequestHash r audience bodyHash now window = (Ok pub, nonce) →
  ∃ ts, accepted r audience bodyHash now window pub nonce ts.
Proof.
  unfold VerifyRequestHash. destruct (_ || _ || _ || _); [done|].
  destruct (b64_DecodeString (rq_PublicKey r)) as [pubWire| | |] eqn:Hpk; try done. cbn.
  destruct (ParsePublicKey pubWire) as [pub'| | |] eqn:Hpp; try done. cbn.
  destruct (ParseInt (rq_Timestamp r)) as [ts| | |] eqn:Hts; try done. cbn.
  destruct (b64_DecodeString (rq_Nonce r)) as [n| | |] eqn:Hn; try done. cbn.
  destruct (b64_DecodeString (rq_Signature r)) as [sig| | |] eqn:Hs; try done. cbn.
  destruct (_ || _) eqn:Hw; [done|]. intros [= Hr <-]. apply bind_Ok in Hr as (payload & Hp%wrap_Ok & Hr).
  apply bind_Ok in Hr as (k & Hv%wrap_Ok & [= <-]). apply VerifyNamespace_Ok in Hv as [_ Hv].
  exists ts, pubWire, sig, payload. split_and!; try done; lia.
Qed.

Context `{!SshSigLaws}.

Lemma Verify_signed req signer audience ts nonce req' now window pub :
  - 2 ^ 63 <= ts < 2 ^ 63 → nonce ≠ [] → signer_PublicKey signer ≠ [] → ParsePublicKey (signer_PublicKey signer) = Ok pub →
  - window <= sat64 (wall now - ts) <= window →
  SignRequest req signer audience ts nonce = Ok req' → rq_Signature req' ≠ [] →
  VerifyRequest req' audience (rq_Body req) now window = (Ok pub, nonce).
Proof.
  intros Hts Hn Hpk Hpub Hw (payload & Hp%wrap_Ok & (sig & Hs & [= <-])%bind_Ok)%bind_Ok Hsig. cbn in Hsig.
  assert (∀ b, b ≠ [] → b64_EncodeToString b ≠ []) as Hb64.
  { intros [|x [|y [|z b]]]; done. }
  assert (FormatInt ts ≠ []) as Hf.
  { intros Hf. pose proof (ParseInt_FormatInt ts Hts) as Hpi. by rewrite Hf in Hpi. }
  unfold VerifyRequest, VerifyRequestHash. cbn [rq_PublicKey rq_Timestamp rq_Nonce rq_Signature rq_Method rq_URI].
  rewrite !bool_decide_eq_false_2 by auto. cbn [orb].
  rewrite !b64_Decode_Encode, ParseInt_FormatInt by done. cbn. rewrite Hpub. cbn.
  replace ((sat64 (wall now - ts) <? - window) || (sat64 (wall now - ts) >? window)) with false by lia.
  rewrite Hp. cbn. rewrite (Verify_Sign signer payload Namespace sig Hs). done.
Qed.

(** A signed request is accepted: the headers that [SignRequest] sets make
    [VerifyRequest] of the same server return the signer's key and the nonce, as
    long as the clock is within the window of the timestamp. *)
Theorem VerifyRequest_SignRequest req signer audience ts nonce req' now window pub :
  - 2 ^ 63 <= ts < 2 ^ 63 → nonce ≠ [] → signer_PublicKey signer ≠ [] → ParsePublicKey (signer_PublicKey signer) = Ok pub →
  - window <= sat64 (wall now - ts) <= window →
  SignRequest req signer audience ts nonce = Ok req' → rq_Signature req' ≠ [] →
  VerifyRequest req' audience (rq_Body req) now window = (Ok pub, nonce).
Proof. exact (Verify_signed req signer audience ts nonce req' now window pub). Qed.

(** The signature at the end of a streamed body. *)
Lemma Split_Append w sig : zlen sig < 2 ^ 32 → SplitSignatureTrailer (AppendSignatureTrailer w sig) = Ok (Some (w, sig)).
Proof.
  intros Hl. unfold SplitSignatureTrailer, AppendSignatureTrailer, trailerLenSize.
  set (b := w ++ sig ++ be_enc 4 (zlen sig)).
  assert (zlen b = zlen w + zlen sig + 4) as Hb by (unfold b; rewrite !length_app, length_be_enc; lia).
  replace (zlen b <? 4) with false by lia.
  assert (slice_from b (zlen b - 4) = Ok (be_enc 4 (zlen sig))) as ->.
  { unfold b. rewrite app_assoc. apply slice_from_app. rewrite <- app_assoc. fold b. rewrite Hb, length_app. lia. }
  cbn [mbind result_bind]. rewrite (be_dec_enc_small 4) by (simpl; lia).
  replace (zlen sig >? zlen b - 4) with false by lia.
  assert (slice b 0 (zlen b - 4 - zlen sig) = Ok w) as ->.
  { unfold b. apply (slice_app3 [] w); [done|]. fold b. rewrite Hb. simpl. lia. }
  cbn [mbind result_bind].
  assert (slice b (zlen b - 4 - zlen sig) (zlen b - 4) = Ok sig) as ->; [|done].
  unfold b. apply slice_app3; fold b; rewrite Hb; lia.
Qed.

(** A response that verifies is the one signed: same nonce, status and body. *)
Lemma VerifyResponse_Ok pk nonce status bodyHash sigB64 : VerifyResponse pk nonce status bodyHash sigB64 = Ok tt ↔
  sigB64 ≠ [] ∧ ∃ sig payload, b64_DecodeString sigB64 = Ok sig ∧
    marshal_response (mkResponsePayload nonce status bodyHash) = Ok payload ∧ signed_by pk payload sig Namespace.
Proof.
  unfold VerifyResponse. case_bool_decide as He; [split; [done|by intros [? _]]|]. split.
  - intros (sig & Hs%wrap_Ok & (p & Hp%wrap_Ok & (k & Hv%wrap_Ok & _)%bind_Ok)%bind_Ok)%bind_Ok.
    apply VerifyNamespace_Ok in Hv as [_ Hv]. split; [done|]. by exists sig, p.
  - intros (_ & sig & p & Hs & Hp & Hv). rewrite Hs. cbn. rewrite Hp. cbn.
    by rewrite (proj2 (VerifyNamespace_Ok p sig pk Namespace pk) (conj eq_refl Hv)).
Qed.
End httpsig_facts.

(** ** Grants *)
Section grant_facts.
Context `{SshSig} `{GrantCbor} `{!GrantCborLaws}.

(** What a verified grant guarantees; the wrapped sums are exact here. *)
Lemma grant_Verify_Ok raw subject now window g issuer :
  0 <= window < 2 ^ 63 → 0 <= wall now < 2 ^ 63 → grant_Verify raw subject now window = Ok (g, issuer) →
  g_Subject g = subject ∧ g_Caps g ≠ [] ∧ Forall delegable (g_Caps g) ∧
  g_IssuedAt g - window <= wall now <= g_ExpiresAt g + window ∧
  ∃ payload sig, unmarshal_envelope raw = Ok (mkEnvelope payload sig issuer) ∧ unmarshal_grant payload = Ok g ∧
    signed_by issuer payload sig GrantNamespace.
Proof.
  intros Hw Hn (env & He%wrap_Ok & (k & Hv%wrap_Ok & (g' & Hg%wrap_Ok & ([] & Hc & Hr)%bind_Ok)%bind_Ok)%bind_Ok)%bind_Ok.
  apply VerifyNamespace_Ok in Hv as [_ Hv]. case_bool_decide as Hs; [|done]. cbn [negb] in Hr.
  destruct (wall now <? _) eqn:E1; [done|]. destruct (wall now >? _) eqn:E2; [done|]. injection Hr as -> <-.
  apply validateCaps_Ok in Hc as [Hc1 Hc2]. destruct (unmarshal_grant_wf _ _ Hg) as [Hi Hx].
  assert (g_IssuedAt g - window <= wall now <= g_ExpiresAt g + window) as Ht.
  { unfold i64 in *. split.
    - destruct (decide (g_IssuedAt g - window < - 2 ^ 63)); [lia|]. rewrite Z.mod_small in E1 by lia. lia.
    - destruct (decide (g_ExpiresAt g + window < 2 ^ 63)); [rewrite Z.mod_small in E2 by lia; lia|]. lia. }
  destruct env as [payload sig ik]. cbn in *. split_and!; try done; try lia. by exists payload, sig.
Qed.
End grant_facts.

(** ** Codecs and keys for examples *)
Section codecs.
Definition sshkeys_example : SshKeys := {|
  PublicKey := bytes;
  ParsePublicKey b := if bool_decide (b = []) then Err (errors_New "ssh: short read") else Ok b;
  pk_Marshal k := k;
  FingerprintSHA256 k := k;
  ParseAuthorizedKey b := if bool_decide (b = []) then Err (errors_New "ssh: no key found") else Ok (b, []);
|}.

Definition httpcbor_example : HttpCbor := {|
  marshal_request p := Ok (put_bytes (rp_Method p) ++ put_bytes (rp_PathQuery p) ++ put_bytes (FormatInt (rp_Timestamp p)) ++
    put_bytes (rp_Nonce p) ++ put_bytes (rp_BodyHash p) ++ put_bytes (rp_Audience p));
  marshal_response p := Ok (put_bytes (sp_Nonce p) ++ put_bytes (FormatInt (sp_Status p)) ++ put_bytes (sp_BodyHash p));
|}.

Lemma put_bytes_inj a b r r' : put_bytes a ++ r = put_bytes b ++ r' → a = b ∧ r = r'.
Proof. intros He. pose proof (get_put_bytes a r) as Ha. rewrite He, get_put_bytes in Ha. by injection Ha as -> ->. Qed.

Lemma FormatInt_inj a b : is_int a → is_int b → FormatInt a = FormatInt b → a = b.
Proof. intros Ha Hb He. pose proof (ParseInt_FormatInt a Ha) as H1. rewrite He, ParseInt_FormatInt in H1 by done. congruence. Qed.

Lemma httpcbor_example_laws : @HttpCborLaws httpcbor_example.
Proof.
  split; cbn; try done.
  - intros [m u t n b a] [m' u' t' n' b' a'] x Ht Ht' [= <-] He. cbn in *. injection He as He.
    apply put_bytes_inj in He as [-> He]. apply put_bytes_inj in He as [-> He]. apply put_bytes_inj in He as [Hf He].
    apply FormatInt_inj in Hf as ->; [|done..]. apply put_bytes_inj in He as [-> He]. apply put_bytes_inj in He as [-> He].
    rewrite <- (app_nil_r (put_bytes a)), <- (app_nil_r (put_bytes a')) in He. by apply put_bytes_inj in He as [-> _].
  - intros [n t b] [n' t' b'] x Ht Ht' [= <-] He. cbn in *. injection He as He.
    apply put_bytes_inj in He as [-> He]. apply put_bytes_inj in He as [Hf He]. apply FormatInt_inj in Hf as ->; [|done..].
    rewrite <- (app_nil_r (put_bytes b)), <- (app_nil_r (put_bytes b')) in He. by apply put_bytes_inj in He as [-> _].
Qed.

Definition put_string (s : string) : bytes := put_bytes (ns_bytes s).
Definition get_string (b : bytes) : option (string * bytes) :=
  '(s, b) ← get_bytes b; Some (String.string_of_list_byte s, b).

Lemma get_put_string s r : get_string (put_string s ++ r) = Some (s, r).
Proof.
  unfold get_string, put_string. rewrite get_put_bytes. cbn. unfold ns_bytes.
  by rewrite String.string_of_list_byte_of_string.
Qed.

Definition put_grant (g : Grant) : bytes :=
  put_bytes (g_Subject g) ++ put_list put_string (g_Caps g) ++ put_word (g_IssuedAt g) ++ put_word (g_ExpiresAt g).
Definition get_grant (b : bytes) : result Grant :=
  match '(s, b) ← get_bytes b; '(c, b) ← get_list get_string (length b) b; '(i, b) ← get_int b; '(e, b) ← get_int b;
        Some (mkGrant s c i e, b) with
  | Some (g, []) => Ok g
  | _ => Err (errors_New "malformed")
  end.

Definition put_envelope (e : envelope) : bytes :=
  put_bytes (env_Payload e) ++ put_bytes (env_Signature e) ++ put_bytes (env_IssuerKey e).
Definition get_envelope (b : bytes) : result envelope :=
  match '(p, b) ← get_bytes b; '(s, b) ← get_bytes b; '(k, b) ← get_bytes b; Some (mkEnvelope p s k, b) with
  | Some (e, []) => Ok e
  | _ => Err (errors_New "malformed")
  end.

Definition grantcbor_example : GrantCbor := {|
  marshal_grant g := Ok (put_grant g);
  unmarshal_grant := get_grant;
  marshal_envelope e := Ok (put_envelope e);
  unmarshal_envelope := get_envelope;
|}.

Lemma grantcbor_example_laws : @GrantCborLaws grantcbor_example.
Proof.
  split; cbn.
  - by intros.
  - intros b. unfold get_grant. by repeat case_match.
  - by intros.
  - intros b. unfold get_envelope. by repeat case_match.
  - intros b g. unfold get_grant. destruct (get_bytes b) as [[s b1]|]; [|done]. cbn.
    destruct (get_list _ _ _) as [[c b2]|]; [|done]. cbn. destruct (drop 8 _); [|done].
    intros [= <-]. split; cbn; unfold i64; lia.
  - intros g b [Hi He] [= <-]. unfold get_grant, put_grant. rewrite get_put_bytes. cbn [mbind option_bind].
    rewrite (get_put_list put_string get_string); [|apply Forall_true; intros c r; apply get_put_string|rewrite length_app; lia].
    cbn [mbind option_bind]. rewrite get_put_int by done. cbn [mbind option_bind].
    rewrite <- (app_nil_r (put_word (g_ExpiresAt g))), get_put_int by done. by destruct g.
  - intros e b [= <-]. unfold get_envelope, put_envelope. do 2 (rewrite get_put_bytes; cbn [mbind option_bind]).
    rewrite <- (app_nil_r (put_bytes (env_IssuerKey e))), get_put_bytes. by destruct e.
Qed.
End codecs.

Section applications.
#[local] Existing Instance blake3_example.
#[local] Existing Instance sshsig_example.
#[local] Existing Instance sshsig_example_laws.
#[local] Existing Instance sshkeys_example.
#[local] Existing Instance httpcbor_example.

Definition client_key : @Signer sshsig_example := [x02].
Definition client_pub : @PublicKey sshkeys_example := [x02].
Definition unsigned_request : Request := mkRequest (ns_bytes "GET") (ns_bytes "/v1/refs") [] [] [] [] [] [x2a].

Lemma VerifyRequest_SignRequest_witness : ∃ req', SignRequest unsigned_request client_key [x05] 1000 [x07] = Ok req' ∧
  VerifyRequest req' [x05] [x2a] (mkTime 1010 0) 100 = (Ok client_pub, [x07]).
Proof.
  destruct (SignRequest unsigned_request client_key [x05] 1000 [x07]) as [req'|e| |] eqn:Hs; [|discriminate..].
  exists req'. split; [reflexivity|].
  apply (VerifyRequest_SignRequest unsigned_request client_key [x05] 1000 [x07] req' (mkTime 1010 0) 100 client_pub);
    [lia|discriminate|discriminate|reflexivity|vm_compute; split; discriminate|exact Hs|].
  injection Hs as <-. vm_compute. discriminate.
Defined.
End applications.
