(* ===== verification/Server.v ===== *)
(** * Package [server]: the remote server's handlers
    ([server.go], [sign.go], [refs.go], [objects.go], [wipe.go])

    A handler is a function from an authenticated request and the server's state
    to a response and the next state.  What a request meets in the world (the
    clock, the allowlist at its two lookups, the answers of the disk, the walk's
    scheduling) is an argument.  Error texts are rendered by [render], since an
    error keeps only the constant parts of its messages; logging is left out. *)

From Stdlib Require Import Init.Byte.
From S2P Require Import Prelude Machine Key FsEncode Instances FsWalk PackRecord PackStream Footer Packstore Compact Text Sshsign Reference Refstore Gc Auth.
From Stdlib Require Import ZifyBool ZifyNat.
Local Open Scope Z_scope.

Definition DefaultMaxBody : Z := 64 * 2 ^ 20.

Definition StatusOK : Z := 200.
Definition StatusNoContent : Z := 204.
Definition StatusUnauthorized : Z := 401.
Definition StatusForbidden : Z := 403.
Definition StatusNotFound : Z := 404.
Definition StatusConflict : Z := 409.
Definition StatusRequestEntityTooLarge : Z := 413.
Definition StatusUnprocessableEntity : Z := 422.
Definition StatusInternalServerError : Z := 500.

Record Response := mkResponse {
  rs_Status : Z;
  rs_ContentType : string;
  rs_Body : bytes;
  rs_Signature : option bytes;
}.

(** The effective capabilities, the key and the nonce of an accepted request. *)
Record authedRequest := mkAuthed { a_pubWire : bytes; a_entry : Entry; a_nonce : bytes; a_body : bytes }.

(** A refusal: the status, the message and the nonce it is signed over. *)
Record refusal := mkRefusal { rf_status : Z; rf_msg : error; rf_nonce : bytes }.

Section server.
Context `{Blake3} `{Fuse} `{Zstd} `{Cbor} `{RefCbor} `{Pebble} `{SshSig} `{SshKeys} `{HttpCbor} `{GrantCbor}.
Context (render : error → bytes).

Record handler := mkHandler {
  h_store : Store;
  h_refs : DB;
  h_identity : Signer;
  h_window : Z;
  h_maxBody : Z;
  h_nonces : Cache;
}.

Definition set_nonces (c : Cache) (h : handler) : handler :=
  mkHandler (h_store h) (h_refs h) (h_identity h) (h_window h) (h_maxBody h) c.
Definition set_stores (s : Store) (db : DB) (h : handler) : handler :=
  mkHandler s db (h_identity h) (h_window h) (h_maxBody h) (h_nonces h).

(** [New]: zero values mean the defaults. *)
Definition server_New (s : Store) (db : DB) (identity : Signer) (window maxBody : Z) : handler :=
  let window := if window =? 0 then DefaultWindow else window in
  mkHandler s db identity window (if maxBody =? 0 then DefaultMaxBody else maxBody) (nonces_New window).

Definition identityWire (h : handler) : bytes := signer_PublicKey (h_identity h).

(** ** Signed responses ([sign.go]) *)
Definition signAndWrite (h : handler) (nonce : bytes) (status : Z) (contentType : string) (body : bytes) : Response :=
  match SignResponse (h_identity h) nonce status (HashBody body) with
  | Ok sig => mkResponse status contentType body (Some sig)
  | _ => mkResponse StatusInternalServerError "text/plain; charset=utf-8" (render (errors_New "signing response failed")) None
  end.

Definition signError (h : handler) (nonce : bytes) (status : Z) (msg : error) : Response :=
  signAndWrite h nonce status "text/plain; charset=utf-8" (render msg ++ [x0a]).

Definition refuse (h : handler) (f : refusal) : Response := signError h (rf_nonce f) (rf_status f) (rf_msg f).

(** ** Authorization ([server.go]) *)

(** [allow] and [allow'] are the lists the two calls of [h.allow()] return. *)
Definition authorize (window : Z) (allow allow' : List) (pub : PublicKey) (r : Request) (now : Time) : result Entry :=
  match Lookup allow (pk_Marshal pub) with
  | Some ent => Ok ent
  | None =>
      if bool_decide (rq_Grant r = []) then Err (errors_New "public key is not in the server allowlist") else
      raw ← wrap "decoding Amber-Grant" (b64_DecodeString (rq_Grant r));
      '(g, issuerWire) ← wrap "capability grant" (grant_Verify raw (pk_Marshal pub) now window);
      match Lookup allow' issuerWire with
      | Some issuer =>
          if Allows issuer CapDelegate then ParseCaps (g_Caps g)
          else Err (errors_New "grant issuer is not an allowlisted delegate")
      | None => Err (errors_New "grant issuer is not an allowlisted delegate")
      end
  end.

(** The checks of a request whose body has the hash [bodyHash]: signature, key,
    replay, capability.  The replay cache may change even if it is refused. *)
Definition check_request (h : handler) (allow allow' : List) (now : Time) (need : string) (r : Request)
    (bodyHash body : bytes) : (refusal + authedRequest) * Cache :=
  let '(v, nonce) := VerifyRequestHash r (identityWire h) bodyHash now (h_window h) in
  match v with
  | Ok pub =>
      match authorize (h_window h) allow allow' pub r now with
      | Ok ent =>
          let '(seen, c) := SeenBefore (FingerprintSHA256 pub) nonce now (h_nonces h) in
          if seen : bool then (inl (mkRefusal StatusUnauthorized (errors_New "replayed nonce") nonce), c) else
          if negb (Allows ent need) then (inl (mkRefusal StatusForbidden (errors_New "key lacks the %s capability") nonce), c) else
          (inr (mkAuthed (pk_Marshal pub) ent nonce body), c)
      | Err e => (inl (mkRefusal StatusForbidden e nonce), h_nonces h)
      | _ => (inl (mkRefusal StatusForbidden [] nonce), h_nonces h)
      end
  | Err e => (inl (mkRefusal StatusUnauthorized e nonce), h_nonces h)
  | _ => (inl (mkRefusal StatusUnauthorized [] nonce), h_nonces h)
  end.

(** The middleware.  [readErr] is the error of reading the body, if any. *)
Definition auth (need : string) (next : authedRequest → handler → Response * handler)
    (readErr : option error) (allow allow' : List) (now : Time) (r : Request) (h : handler) : Response * handler :=
  match readErr with
  | Some e => (signError h [] StatusInternalServerError e, h)
  | None =>
      let body := take (Z.to_nat (h_maxBody h + 1)) (rq_Body r) in
      if zlen body >? h_maxBody h
      then (signError h [] StatusRequestEntityTooLarge (errors_New "request body exceeds the server limit"), h) else
      let '(v, c) := check_request h allow allow' now need r (HashBody body) body in
      let h := set_nonces c h in
      match v with
      | inl f => (refuse h f, h)
      | inr a => next a h
      end
  end.

Definition getIdentity (h : handler) : Response := signAndWrite h [] StatusOK "application/octet-stream" (identityWire h).

(** ** References ([refs.go]) *)
Definition refName (q : bytes) : result bytes :=
  if bool_decide (q = []) then Err (errors_New "missing name query parameter") else
  _ ← ValidateName q; Ok q.

(** The checks of the record itself: canonical, of that name, and signed. *)
Definition putRef_record (q : bytes) (a : authedRequest) : refusal + Reference :=
  let bad status msg := inl (mkRefusal status msg (a_nonce a)) in
  match refName q with
  | Ok name =>
      match Decode (a_body a) with
      | Ok rec =>
          if negb (bool_decide (ref_Name rec = name))
          then bad StatusUnprocessableEntity (errors_New "record name does not match query name") else
          if (length (ref_Signature rec) =? 0)%nat || (length (ref_PublicKey rec) =? 0)%nat
          then bad StatusUnprocessableEntity (errors_New "reference record is not signed") else
          match SignaturePayload rec with
          | Ok payload =>
              match Sshsign.Verify payload (ref_Signature rec) (ref_PublicKey rec) with
              | Ok _ => inr rec
              | Err e => bad StatusUnprocessableEntity (Errorf "reference signature does not verify" e)
              | _ => bad StatusUnprocessableEntity []
              end
          | Err e => bad StatusInternalServerError e
          | _ => bad StatusInternalServerError []
          end
      | Err e => bad StatusUnprocessableEntity e
      | _ => bad StatusUnprocessableEntity []
      end
  | Err e => bad StatusUnprocessableEntity e
  | _ => bad StatusUnprocessableEntity []
  end.

(** The checks against the stored record of the name: the root to prepare. *)
Definition putRef_owner (a : authedRequest) (rec : Reference) (existing : result bytes) : refusal + Key :=
  let bad status msg := inl (mkRefusal status msg (a_nonce a)) in
  let parse := match Key.Parse (ref_Key rec) with
               | Ok k => inr k
               | Err e => bad StatusUnprocessableEntity e
               | _ => bad StatusUnprocessableEntity []
               end in
  match existing with
  | Ok existing =>
      match Decode existing with
      | Ok old =>
          if negb (bool_decide (ref_PublicKey old = ref_PublicKey rec)) && negb (Admin (a_entry a))
          then bad StatusForbidden (errors_New "reference is owned by a different signer key") else
          if (ref_CreatedAt rec <=? ref_CreatedAt old) && negb (bool_decide (existing = a_body a)) &&
             negb (Admin (a_entry a))
          then bad StatusConflict (errors_New "reference record is not newer than the stored one") else
          parse
      | Err e => bad StatusInternalServerError e
      | _ => bad StatusInternalServerError []
      end
  | Err e => if bool_decide (errors_Is e Refstore.ErrNotFound) then parse else bad StatusInternalServerError e
  | _ => bad StatusInternalServerError []
  end.

(** The status of a failed walk. *)
Definition prepare_status (e : error) : Z :=
  if bool_decide (errors_Is e "fstree: object %s is missing") || bool_decide (errors_Is e ErrObjectNotFound)
  then StatusNotFound else StatusInternalServerError.

(** Its text: an object that is absent is named in [msg]. *)
Definition prepare_error (msg : string) (e : error) : error :=
  if prepare_status e =? StatusNotFound then Errorf msg e else e.

(** The part of [putRef] before the walk. *)
Definition putRef_check (q : bytes) (a : authedRequest) (db : DB) : (refusal + Key) * DB :=
  match putRef_record q a with
  | inl f => (inl f, db)
  | inr rec => let '(existing, db) := Refstore.Get q db in (putRef_owner a rec existing, db)
  end.

(** [waitFor k] is what the store has become when [h.inbox.WaitFor(k)] returns;
    [prepare] is [PrepareRef]; the lock it takes is released at the end. *)
Definition putRef (waitFor : Key → Store → Store) (prepare : Key → M unit) (q : bytes) (a : authedRequest) (h : handler) : Response * handler :=
  let '(v, db) := putRef_check q a (h_refs h) in
  match v with
  | inl f => (refuse h f, set_stores (h_store h) db h)
  | inr k =>
      let '(r, s) := prepare k (waitFor k (h_store h)) in
      match r with
      | Ok _ =>
          let '(r, db) := Refstore.Put q (a_body a) db in
          let h := set_stores s db h in
          match r with
          | Ok _ => (signAndWrite h (a_nonce a) StatusNoContent "" [], h)
          | Err e => (signError h (a_nonce a) StatusInternalServerError e, h)
          | _ => (signError h (a_nonce a) StatusInternalServerError [], h)
          end
      | Err e => (signError h (a_nonce a) (prepare_status e)
                      (prepare_error "referenced content is incomplete: %s — push objects before the ref" e), set_stores s db h)
      | _ => (signError h (a_nonce a) StatusInternalServerError [], set_stores s db h)
      end
  end.

Definition getRef (q : bytes) (a : authedRequest) (h : handler) : Response * handler :=
  match refName q with
  | Ok name =>
      let '(r, db) := Refstore.Get name (h_refs h) in
      let h := set_stores (h_store h) db h in
      match r with
      | Ok data => (signAndWrite h (a_nonce a) StatusOK "application/cbor" data, h)
      | Err e => if bool_decide (errors_Is e Refstore.ErrNotFound)
                 then (signError h (a_nonce a) StatusNotFound (errors_New "reference not found"), h)
                 else (signError h (a_nonce a) StatusInternalServerError e, h)
      | _ => (signError h (a_nonce a) StatusInternalServerError [], h)
      end
  | Err e => (signError h (a_nonce a) StatusUnprocessableEntity e, h)
  | _ => (signError h (a_nonce a) StatusUnprocessableEntity [], h)
  end.

Definition deleteRef (q : bytes) (a : authedRequest) (h : handler) : Response * handler :=
  match refName q with
  | Ok name =>
      let '(r, db) := Refstore.Delete name (h_refs h) in
      let h := set_stores (h_store h) db h in
      match r with
      | Ok _ => (signAndWrite h (a_nonce a) StatusNoContent "" [], h)
      | Err e => if bool_decide (errors_Is e Refstore.ErrNotFound)
                 then (signError h (a_nonce a) StatusNotFound (errors_New "reference not found"), h)
                 else (signError h (a_nonce a) StatusInternalServerError e, h)
      | _ => (signError h (a_nonce a) StatusInternalServerError [], h)
      end
  | Err e => (signError h (a_nonce a) StatusUnprocessableEntity e, h)
  | _ => (signError h (a_nonce a) StatusUnprocessableEntity [], h)
  end.

(** ** Objects ([objects.go]) *)

(** [missing] is [h.store.Missing]. *)
Definition postMissing (missing : list Key → M (list Key)) (a : authedRequest) (h : handler) : Response * handler :=
  match Keylist.Parse (a_body a) with
  | Ok keys =>
      let '(r, s) := missing keys (h_store h) in
      let h := set_stores s (h_refs h) h in
      match r with
      | Ok ks => (signAndWrite h (a_nonce a) StatusOK "application/octet-stream" (Keylist.Flatten ks), h)
      | Err e => (signError h (a_nonce a) StatusInternalServerError e, h)
      | _ => (signError h (a_nonce a) StatusInternalServerError [], h)
      end
  | Err e => (signError h (a_nonce a) StatusUnprocessableEntity e, h)
  | _ => (signError h (a_nonce a) StatusUnprocessableEntity [], h)
  end.

(** The objects of the keys, in order, as the records of a pack; what was written
    before an error stays written. *)
Fixpoint stream_objects (keys : list Key) (w : @Writer bytes) (s : Store) : result unit * @Writer bytes * Store :=
  match keys with
  | [] => (Ok tt, w, s)
  | k :: keys =>
      let '(r, s) := Packstore.Get k s in
      match (data ← r; Add write_all w (mkObject k data)) with
      | Ok w => stream_objects keys w s
      | Err e => (Err e, w, s)
      | Panic => (Panic, w, s)
      | Diverge => (Diverge, w, s)
      end
  end.

(** The response is in the body: the pack, then its signature.  A stream that is
    cut holds at most the bytes written so far, and no signature. *)
Definition postObjectsGet (missing : list Key → M (list Key)) (a : authedRequest) (h : handler) :
    Response * handler :=
  let stream body := mkResponse StatusOK "application/octet-stream" body None in
  match Keylist.Parse (a_body a) with
  | Ok keys =>
      let '(r, s) := missing keys (h_store h) in
      let h := set_stores s (h_refs h) h in
      match r with
      | Ok (_ :: _) => (signError h (a_nonce a) StatusNotFound (errors_New "objects not found:"), h)
      | Ok [] =>
          let '(r, w, s) := stream_objects keys (NewWriter []) (h_store h) in
          let h := set_stores s (h_refs h) h in
          match (_ ← r; PackStream.Close write_all w) with
          | Ok pack =>
              match SignResponse (h_identity h) (a_nonce a) StatusOK (Sum256 pack) with
              | Ok sig => (stream (AppendSignatureTrailer pack sig), h)
              | _ => (stream pack, h)
              end
          | _ => (stream (bw w), h)
          end
      | Err e => (signError h (a_nonce a) StatusInternalServerError e, h)
      | _ => (signError h (a_nonce a) StatusInternalServerError [], h)
      end
  | Err e => (signError h (a_nonce a) StatusUnprocessableEntity e, h)
  | _ => (signError h (a_nonce a) StatusUnprocessableEntity [], h)
  end.

(** [get] is [h.store.Get] during the walk. *)
Definition postObjectsReachable (pick : list error → error) (fuel : nat) (get : Key → result bytes)
    (a : authedRequest) (h : handler) : Response * handler :=
  match Key.Parse (a_body a) with
  | Ok root =>
      match ReachableKeys pick get fuel root with
      | Ok keys => (signAndWrite h (a_nonce a) StatusOK "application/octet-stream" (Keylist.Flatten keys), h)
      | Err e => (signError h (a_nonce a) StatusInternalServerError e, h)
      | _ => (signError h (a_nonce a) StatusInternalServerError [], h)
      end
  | Err e => (signError h (a_nonce a) StatusUnprocessableEntity e, h)
  | _ => (signError h (a_nonce a) StatusUnprocessableEntity [], h)
  end.

(** ** Wipe ([wipe.go]) *)
(** The JSON object with the member wiped. *)
Definition wiped_body : bytes :=
  [x7b; x22; x77; x69; x70; x65; x64; x22; x3a; x74; x72; x75; x65; x7d].

Definition postWipe (a : authedRequest) (h : handler) : Response * handler :=
  let '(r, s, db) := reset (h_store h) (h_refs h) in
  let h := set_stores s db h in
  match r with
  | Ok _ => (signAndWrite h (a_nonce a) StatusOK "application/json" wiped_body, h)
  | Err e => (signError h (a_nonce a) StatusInternalServerError e, h)
  | _ => (signError h (a_nonce a) StatusInternalServerError [], h)
  end.
End server.
