(* ===== verification/ServerFacts.v ===== *)
(** * The remote server: guarantees

    Who gets in, that nobody gets in twice with one signature, and who may move a
    reference. *)

From Stdlib Require Import Init.Byte.
From S2P Require Import Prelude Machine Key Chunkers FsEncode Instances FsTree FsRead FsWalk PackRecord PackStream Footer FooterFacts Packstore Compact PackstoreSpec Text Sshsign Reference Refstore Gc Auth AuthFacts Server.
From Stdlib Require Import ZifyBool ZifyNat.
Local Open Scope Z_scope.

Section auth.
Context `{Blake3} `{Fuse} `{Zstd} `{Cbor} `{RefCbor} `{Pebble} `{SshSig} `{SshKeys} `{HttpCbor} `{GrantCbor}.

(** One request as it meets the server. *)
Record attempt := mkAttempt {
  at_need : string;
  at_allow : List;
  at_allow' : List;
  at_now : Time;
  at_req : Request;
  at_hash : bytes;
  at_body : bytes;
}.

Definition attempt_one (h : handler) (e : attempt) : (refusal + authedRequest) * handler :=
  let '(v, c) := check_request h (at_allow e) (at_allow' e) (at_now e) (at_need e) (at_req e) (at_hash e) (at_body e) in
  (v, set_nonces c h).

(** The outcomes of a sequence of requests. *)
Fixpoint attempts (h : handler) (es : list attempt) : list (refusal + authedRequest) :=
  match es with
  | [] => []
  | e :: es => let '(v, h) := attempt_one h e in v :: attempts h es
  end.

(** The second of two requests carries the signed headers of the first. *)
Definition replays (e e' : attempt) : Prop :=
  rq_PublicKey (at_req e') = rq_PublicKey (at_req e) ∧ rq_Nonce (at_req e') = rq_Nonce (at_req e) ∧
  rq_Timestamp (at_req e') = rq_Timestamp (at_req e).

Lemma check_request_inr h e a c :
  check_request h (at_allow e) (at_allow' e) (at_now e) (at_need e) (at_req e) (at_hash e) (at_body e) = (inr a, c) →
  ∃ pub ent nonce ts,
    accepted (at_req e) (identityWire h) (at_hash e) (at_now e) (h_window h) pub nonce ts ∧
    authorize (h_window h) (at_allow e) (at_allow' e) pub (at_req e) (at_now e) = Ok ent ∧
    SeenBefore (FingerprintSHA256 pub) nonce (at_now e) (h_nonces h) = (false, c) ∧ Allows ent (at_need e) = true ∧
    a = mkAuthed (pk_Marshal pub) ent nonce (at_body e).
Proof.
  unfold check_request. destruct (VerifyRequestHash _ _ _ _ _) as [v nonce] eqn:Hv.
  destruct v as [pub| | |]; try done. destruct (VerifyRequestHash_Ok _ _ _ _ _ _ _ Hv) as [ts Hacc].
  destruct (authorize _ _ _ _ _ _) as [ent| | |] eqn:Hau; try done.
  destruct (SeenBefore _ _ _ _) as [seen c'] eqn:Hs. destruct seen; [done|].
  destruct (Allows ent (at_need e)) eqn:Hal; [|done]. intros [= <- <-]. by exists pub, ent, nonce, ts.
Qed.

(** What one request does to a remembered nonce that is not too old. *)
Lemma attempt_keeps h e k t : nc_seen (h_nonces h) !! k = Some t → mono (at_now e) - 2 * nc_window (h_nonces h) <= t →
  nc_seen (h_nonces (snd (attempt_one h e))) !! k = Some t.
Proof.
  intros Hk Ht. unfold attempt_one, check_request. destruct (VerifyRequestHash _ _ _ _ _) as [[pub| | |] nonce]; try done.
  destruct (authorize _ _ _ _ _ _) as [ent| | |]; try done. destruct (SeenBefore _ _ _ _) as [seen c] eqn:Hs.
  pose proof (SeenBefore_keeps _ _ _ _ _ _ _ _ Hs Hk Ht). destruct seen; [done|]. by destruct (negb _).
Qed.

Lemma attempt_frame h e : let h' := snd (attempt_one h e) in
  h_window h' = h_window h ∧ nc_window (h_nonces h') = nc_window (h_nonces h).
Proof.
  unfold attempt_one, check_request. destruct (VerifyRequestHash _ _ _ _ _) as [[pub| | |] nonce]; try done.
  destruct (authorize _ _ _ _ _ _) as [ent| | |]; try done. pose proof (SeenBefore_window (FingerprintSHA256 pub) nonce (at_now e) (h_nonces h)) as Hw.
  destruct (SeenBefore _ _ _ _) as [seen c]. destruct seen; [done|]. by destruct (negb _).
Qed.

(** A request whose timestamp is outside the window is refused. *)
Lemma stale_refused e' ts w : ParseInt (rq_Timestamp (at_req e')) = Ok ts → 0 <= w < 2 ^ 63 - 1 →
  ¬ (- w <= wall (at_now e') - ts <= w) →
  ∀ es h j out, h_window h = w → es !! j = Some e' → attempts h es !! j = Some out → ∃ f, out = inl f.
Proof.
  intros Hts Hw Hout. induction es as [|e es IH]; intros h j out Hh Hj Ho; [done|].
  cbn [attempts] in Ho. pose proof (attempt_frame h e) as [Hf _]. destruct (attempt_one h e) as [v h1] eqn:Ha. cbn in *.
  destruct j as [|j]; [|eapply (IH h1 j); [congruence|done|done]].
  injection Hj as ->. injection Ho as <-. destruct v as [f|a]; [by exists f|]. unfold attempt_one in Ha.
  destruct (check_request _ _ _ _ _ _ _ _) as [v c] eqn:Hc. injection Ha as -> _.
  destruct (check_request_inr h e' a c Hc) as (pub & ent & nonce & ts' & Hacc & _).
  destruct Hacc as (pw & sig & payload & _ & _ & Hts' & _ & _ & Hwin & _).
  assert (ts' = ts) as -> by congruence. apply sat64_window in Hwin; [|lia]. by rewrite Hh in Hwin.
Qed.

(** The later request is refused while its nonce is remembered. *)
Lemma remembered_refused h es j e' out pub nonce ts t wl :
  b64_DecodeString (rq_PublicKey (at_req e')) ≫= ParsePublicKey = Ok pub →
  b64_DecodeString (rq_Nonce (at_req e')) = Ok nonce → ParseInt (rq_Timestamp (at_req e')) = Ok ts →
  0 <= h_window h < 2 ^ 63 - 1 → nc_window (h_nonces h) = h_window h →
  nc_seen (h_nonces h) !! nonce_key (FingerprintSHA256 pub) nonce = Some t →
  - h_window h <= wl - ts <= h_window h → mono (at_now e') - t <= wall (at_now e') - wl →
  (∀ p e, (p ≤ j)%nat → es !! p = Some e → mono (at_now e) <= mono (at_now e')) →
  es !! j = Some e' → attempts h es !! j = Some out → ∃ f, out = inl f.
Proof.
  intros Hpub Hnonce Hts Hw Hnc. revert h Hw Hnc j. induction es as [|e es IH]; intros h Hw Hnc j Hk Hwl Hclk Hmono Hj Hout;
    [done|]. cbn [attempts] in Hout. pose proof (attempt_frame h e) as [Hf1 Hf2].
  pose proof (attempt_keeps h e (nonce_key (FingerprintSHA256 pub) nonce) t Hk) as Hkeep.
  destruct (attempt_one h e) as [v h'] eqn:Hatt. cbn [snd] in *.
  destruct out as [f|a]; [by exists f|exfalso]. destruct j as [|j].
  - injection Hj as ->. injection Hout as ->. unfold attempt_one in Hatt.
    destruct (check_request _ _ _ _ _ _ _ _) as [v c] eqn:Hc. injection Hatt as -> _.
    destruct (check_request_inr h e' a c Hc) as (pub' & ent & nonce' & ts' & Hacc & _ & Hs & _ & _).
    destruct Hacc as (pw & sig & payload & Hd & Hp & Hts' & Hn' & _ & Hwin & _).
    rewrite Hd in Hpub. cbn in Hpub. assert (pub' = pub) as -> by congruence. assert (nonce' = nonce) as -> by congruence.
    assert (ts' = ts) as -> by congruence. apply sat64_window in Hwin; [|lia].
    pose proof (SeenBefore_hit (FingerprintSHA256 pub) nonce (at_now e') (h_nonces h) t Hk) as Hhit.
    rewrite Hs, Hnc in Hhit. cbn in Hhit. specialize (Hhit ltac:(lia)). done.
  - cbn in Hj, Hout.
    assert (∃ f, (inr a : refusal + authedRequest) = inl f) as [f ?]; [|done].
    destruct (decide (mono (at_now e') - 2 * h_window h <= t)) as [Hle|Hgt].
    + apply (IH h') with (j := j); try done; [lia|congruence| |lia|].
      * apply Hkeep. rewrite Hnc. specialize (Hmono 0%nat e ltac:(lia) eq_refl). lia.
      * intros p e0 Hp He0. apply (Hmono (S p) e0); [lia|done].
    + exact (stale_refused e' ts (h_window h') Hts ltac:(lia) ltac:(lia) es h' j _ eq_refl Hj Hout).
Qed.

(** C9. No signature is accepted twice: when a request is accepted, every later
    request with its key, nonce and timestamp is refused, as long as the clock
    readings of the requests do not run backwards and the wall clock is not set
    back in between. *)
Theorem replay_refused h es i j e e' a out :
  0 <= h_window h < 2 ^ 63 - 1 → nc_window (h_nonces h) = h_window h → (i < j)%nat →
  es !! i = Some e → es !! j = Some e' → replays e e' →
  (∀ p e0, (i < p ≤ j)%nat → es !! p = Some e0 → mono (at_now e0) <= mono (at_now e')) →
  mono (at_now e') - mono (at_now e) <= wall (at_now e') - wall (at_now e) →
  attempts h es !! i = Some (inr a) → attempts h es !! j = Some out → ∃ f, out = inl f.
Proof.
  revert h i j. induction es as [|e0 es IH]; intros h i j Hw Hnc Hij Hi Hj Hrep Hmono Hclk Ha Hout; [done|].
  cbn [attempts] in Ha, Hout. pose proof (attempt_frame h e0) as [Hf1 Hf2].
  destruct (attempt_one h e0) as [v h'] eqn:Hatt. cbn [snd] in *. destruct j as [|j]; [lia|]. destruct i as [|i].
  - injection Hi as ->. injection Ha as ->. unfold attempt_one in Hatt.
    destruct (check_request _ _ _ _ _ _ _ _) as [v c] eqn:Hc. injection Hatt as -> <-.
    destruct (check_request_inr h e a c Hc) as (pub & ent & nonce & ts & Hacc & _ & Hs & _ & _).
    destruct Hacc as (pw & sig & payload & Hd & Hp & Hts & Hn & _ & Hwin & _).
    apply sat64_window in Hwin; [|lia]. destruct Hrep as (Hr1 & Hr2 & Hr3).
    apply (remembered_refused (set_nonces c h) es j e' out pub nonce ts (mono (at_now e)) (wall (at_now e)));
      rewrite ?Hr1, ?Hr2, ?Hr3; try done.
    + by rewrite Hd.
    + by rewrite Hf2, Hf1.
    + by eapply SeenBefore_records.
    + intros p e1 Hpj He1. apply (Hmono (S p) e1); [lia|done].
  - apply (IH h' i j); try done; [lia|congruence|lia|].
    intros p e1 Hp He1. apply (Hmono (S p) e1); [lia|done].
Qed.

(** ** Who gets in *)

(** A key that is not listed holds a grant of a listed delegate, valid now, that
    names [need]. *)
Definition granted (window : Z) (allow' : List) (now : Time) (subject : bytes) (need : string) : Prop :=
  ∃ g issuer ient payload sig,
    Lookup allow' issuer = Some ient ∧ Allows ient CapDelegate = true ∧
    unmarshal_grant payload = Ok g ∧ signed_by issuer payload sig GrantNamespace ∧
    g_Subject g = subject ∧ need ∈ g_Caps g ∧ delegable need ∧
    g_IssuedAt g - window <= wall now <= g_ExpiresAt g + window.

Context `{!GrantCborLaws}.

Lemma authorize_Ok window allow allow' pub r now ent need :
  0 <= window < 2 ^ 63 → 0 <= wall now < 2 ^ 63 →
  authorize window allow allow' pub r now = Ok ent → Allows ent need = true →
  Lookup allow (pk_Marshal pub) = Some ent ∨
  Lookup allow (pk_Marshal pub) = None ∧ granted window allow' now (pk_Marshal pub) need.
Proof.
  intros Hw Hn. unfold authorize. destruct (Lookup allow _) as [ent'|]; [intros [= ->]; by left|].
  case_bool_decide; [done|]. intros (raw & _ & ([g issuer] & Hv%wrap_Ok & Hr)%bind_Ok)%bind_Ok Hal.
  destruct (grant_Verify_Ok _ _ _ _ _ _ Hw Hn Hv) as (Hsub & _ & Hdel & Ht & payload & sig & _ & Hg & Hsig).
  destruct (Lookup allow' issuer) as [ient|] eqn:Hl; [|done]. destruct (Allows ient CapDelegate) eqn:Hd; [|done].
  destruct (ParseCaps_delegable _ _ _ Hdel Hr Hal) as [Hdn Hin]. right. split; [done|].
  exists g, issuer, ient, payload, sig. split_and!; try done; lia.
Qed.

Lemma auth_spec render need next readErr allow allow' now r h :
  0 <= h_window h < 2 ^ 63 - 1 → 0 <= wall now < 2 ^ 63 →
  let res := auth render need next readErr allow allow' now r h in
  (∃ resp c, res = (resp, set_nonces c h)) ∨
  ∃ a c pub ts, res = next a (set_nonces c h) ∧
    a_body a = rq_Body r ∧ zlen (rq_Body r) <= h_maxBody h ∧ a_pubWire a = pk_Marshal pub ∧
    accepted r (identityWire h) (HashBody (rq_Body r)) now (h_window h) pub (a_nonce a) ts ∧
    - h_window h <= wall now - ts <= h_window h ∧ Allows (a_entry a) need = true ∧
    (Lookup allow (pk_Marshal pub) = Some (a_entry a) ∨
     Lookup allow (pk_Marshal pub) = None ∧ granted (h_window h) allow' now (pk_Marshal pub) need).
Proof.
  intros Hw Hn. cbv zeta. unfold auth. destruct readErr as [e|].
  { left. eexists _, (h_nonces h). by destruct h. }
  set (body := take _ (rq_Body r)). destruct (zlen body >? h_maxBody h) eqn:Hlen.
  { left. eexists _, (h_nonces h). by destruct h. }
  assert (body = rq_Body r) as Hbody.
  { unfold body in *. destruct (decide (zlen (rq_Body r) <= h_maxBody h + 1)); [apply take_ge; lia|].
    rewrite length_take in Hlen. lia. }
  destruct (check_request _ _ _ _ _ _ _ _) as [v c] eqn:Hc. destruct v as [f|a]; [left; by eexists _, c|right].
  destruct (check_request_inr h (mkAttempt need allow allow' now r (HashBody body) body) a c Hc)
    as (pub & ent & nonce & ts & Hacc & Hau & _ & Hal & ->). cbn in *. rewrite Hbody in *.
  exists (mkAuthed (pk_Marshal pub) ent nonce (rq_Body r)), c, pub, ts. split_and!; try done; try lia.
  - pose proof Hacc as (? & ? & ? & _ & _ & _ & _ & _ & Hwin & _). apply sat64_window in Hwin; lia.
  - pose proof Hacc as (? & ? & ? & _ & _ & _ & _ & _ & Hwin & _). apply sat64_window in Hwin; lia.
  - by apply (authorize_Ok (h_window h) allow allow' pub r now); [lia|..].
Qed.

(** C8. Only authorized requests reach a handler: either [auth] answers itself and
    changes nothing but the replay cache, or the request carries a signature by
    its key over exactly its method, address, body and this server's key, with a
    timestamp near the clock, and the key is listed with the needed capability or
    holds a valid grant for it from a listed delegate; a grant can only open
    reading and pushing objects. *)
Theorem auth_sound render need next readErr allow allow' now r h :
  0 <= h_window h < 2 ^ 63 - 1 → 0 <= wall now < 2 ^ 63 →
  let res := auth render need next readErr allow allow' now r h in
  (∃ resp c, res = (resp, set_nonces c h)) ∨
  ∃ a c pub ts, res = next a (set_nonces c h) ∧
    a_body a = rq_Body r ∧ zlen (rq_Body r) <= h_maxBody h ∧ a_pubWire a = pk_Marshal pub ∧
    accepted r (identityWire h) (HashBody (rq_Body r)) now (h_window h) pub (a_nonce a) ts ∧
    - h_window h <= wall now - ts <= h_window h ∧ Allows (a_entry a) need = true ∧
    (Lookup allow (pk_Marshal pub) = Some (a_entry a) ∨
     Lookup allow (pk_Marshal pub) = None ∧ granted (h_window h) allow' now (pk_Marshal pub) need).
Proof. exact (auth_spec render need next readErr allow allow' now r h). Qed.

(** ** Who may move a reference *)
Context `{!PebbleLaws}.

(** A record that was accepted for the name, with its signature. *)
Definition proper_record (name b : bytes) : Prop :=
  ∃ rec payload, Decode b = Ok rec ∧ ref_Name rec = name ∧ SignaturePayload rec = Ok payload ∧
    signed_by (ref_PublicKey rec) payload (ref_Signature rec) RefNamespace.

(** The record of the name moved on: the same bytes, or a later record of the same
    signer. *)
Definition moved_on (name b b' : bytes) : Prop :=
  b' = b ∨ ∃ old new, Decode b = Ok old ∧ Decode b' = Ok new ∧ proper_record name b' ∧
    ref_PublicKey new = ref_PublicKey old ∧ ref_CreatedAt old < ref_CreatedAt new.

Lemma moved_on_trans name b1 b2 b3 : moved_on name b1 b2 → moved_on name b2 b3 → moved_on name b1 b3.
Proof.
  intros [->|(o & n & Ho & Hn & Hp & Hk & Ht)]; [done|]. intros [->|(o' & n' & Ho' & Hn' & Hp' & Hk' & Ht')]; right.
  - by exists o, n.
  - assert (o' = n) as -> by congruence. exists o, n'. split_and!; try done; [congruence|lia].
Qed.

Lemma moved_on_proper name b b' : proper_record name b → moved_on name b b' → proper_record name b'.
Proof. by intros Hp [->|(? & ? & _ & _ & ? & _)]. Qed.

Lemma putRef_record_inr q a rec : putRef_record q a = inr rec → Decode (a_body a) = Ok rec ∧ proper_record q (a_body a).
Proof.
  unfold putRef_record. destruct (refName q) as [name| | |] eqn:Hn; try done.
  assert (name = q) as ->.
  { unfold refName in Hn. case_bool_decide; [done|]. by apply bind_Ok in Hn as (? & _ & [= ->]). }
  destruct (Decode (a_body a)) as [rec'| | |] eqn:Hd; try done. case_bool_decide as Hname; [|done]. cbn [negb].
  destruct (_ || _); [done|]. destruct (SignaturePayload rec') as [p| | |] eqn:Hp; try done.
  destruct (Sshsign.Verify _ _ _) as [k| | |] eqn:Hv; try done. intros [= <-]. split; [done|].
  apply VerifyNamespace_Ok in Hv as [_ Hv]. by exists rec', p.
Qed.

Lemma putRef_owner_inr q a rec existing k : Decode (a_body a) = Ok rec → proper_record q (a_body a) →
  Admin (a_entry a) = false → putRef_owner a rec (Ok existing) = inr k → moved_on q existing (a_body a).
Proof.
  intros Hd Hprop Ha. unfold putRef_owner. destruct (Decode existing) as [old| | |] eqn:Ho; try done. rewrite Ha. cbn [negb].
  rewrite !andb_true_r. case_bool_decide as Hpk; cbn [negb]; [|done].
  destruct ((ref_CreatedAt rec <=? ref_CreatedAt old) && _) eqn:Hc; [done|]. intros _.
  apply andb_false_iff in Hc as [Hc|Hc]; [right; exists old, rec; split_and!; try done; lia|left].
  case_bool_decide; [done|discriminate].
Qed.

(** What a PUT that is not an admin's does to the references. *)
Lemma putRef_refs render waitFor prepare q a h :
  Admin (a_entry a) = false → let m := db_map (h_refs h) in let m' := db_map (h_refs (snd (putRef render waitFor prepare q a h))) in
  m' = m ∨ ∃ b, m' = <[q := b]> m ∧ proper_record q b ∧ ∀ b0, m !! q = Some b0 → moved_on q b0 b.
Proof.
  intros Ha. cbv zeta. unfold putRef, putRef_check. destruct (putRef_record q a) as [f|rec] eqn:Hrec; [by left|].
  destruct (putRef_record_inr q a rec Hrec) as [Hd Hprop].
  pose proof (Refstore.Get_law q (h_refs h)) as Hg. destruct (Refstore.Get q (h_refs h)) as [existing db].
  destruct Hg as (Hsafe & Hm & Hok & Hnf & _). destruct (putRef_owner a rec existing) as [f|k] eqn:Hown; [by left|].
  destruct (prepare k (waitFor k (h_store h))) as [[u| | |] s]; [|by left..].
  pose proof (Refstore.Put_law q (a_body a) db) as Hput. destruct (Refstore.Put q (a_body a) db) as [r db'].
  replace (db_map (h_refs _)) with (db_map db') by (by destruct r). rewrite <- Hm.
  destruct Hput as (_ & [Heq|Heq] & _); [by left|right]. exists (a_body a). split_and!; try done. intros b0 Hb0.
  rewrite Hm in Hb0. destruct existing as [e0|e| |]; [| |by destruct Hsafe..].
  - pose proof (Hok e0 eq_refl). assert (e0 = b0) as -> by congruence. by eapply putRef_owner_inr.
  - unfold putRef_owner in Hown. case_bool_decide as Hnf'; [|done]. rewrite (Hnf e eq_refl Hnf') in Hb0. done.
Qed.

Lemma getRef_refs render q a h : db_map (h_refs (snd (getRef render q a h))) = db_map (h_refs h).
Proof.
  unfold getRef. destruct (refName q) as [name| | |]; try done.
  pose proof (Refstore.Get_law name (h_refs h)) as Hg. destruct (Refstore.Get name (h_refs h)) as [r db].
  destruct Hg as (_ & Hm & _). destruct r; cbn; [done|by case_bool_decide|done..].
Qed.

(** How the references of the server can change: no name is lost, a name keeps its
    signer and moves forward in time, a new name has a proper record. *)
Definition refs_moved (m m' : gmap bytes bytes) : Prop :=
  ∀ name, match m !! name, m' !! name with
          | Some b, Some b' => moved_on name b b'
          | Some _, None => False
          | None, Some b' => proper_record name b'
          | None, None => True
          end.

#[export] Instance refs_moved_preorder : PreOrder refs_moved.
Proof.
  split.
  - intros m name. destruct (m !! name); [by left|done].
  - intros m1 m2 m3 H12 H23 name. specialize (H12 name). specialize (H23 name).
    destruct (m1 !! name) as [b1|], (m2 !! name) as [b2|], (m3 !! name) as [b3|]; try done;
      [by eapply moved_on_trans|by eapply moved_on_proper].
Qed.

(** A PUT of a key that is not an admin. *)
Lemma putRef_moved render waitFor prepare q a h : Admin (a_entry a) = false →
  refs_moved (db_map (h_refs h)) (db_map (h_refs (snd (putRef render waitFor prepare q a h)))).
Proof.
  intros Hadm. destruct (putRef_refs render waitFor prepare q a h Hadm) as [->|(b & -> & Hp & Hm)]; [done|].
  intros name. destruct (decide (name = q)) as [->|Hne].
  - rewrite lookup_insert_eq. destruct (db_map (h_refs h) !! q); [by apply Hm|done].
  - rewrite lookup_insert_ne by done. apply (reflexivity (R := refs_moved)).
Qed.
End auth.
