(* ===== verification/ServerSpec.v ===== *)
(** * The remote server: applications

    The guarantees of the server at concrete requests, and what requests that run
    at the same time can do to one another. *)

From Stdlib Require Import Init.Byte.
From S2P Require Import Prelude Machine Key Chunkers FsEncode Instances FsTree FsRead FsWalk PackRecord PackStream Footer FooterFacts Packstore Compact PackstoreSpec Text Sshsign Reference Refstore Gc Auth AuthFacts Server ServerFacts.
From Stdlib Require Import ZifyBool ZifyNat.
Local Open Scope Z_scope.

Section examples.
#[local] Existing Instance fuse_example.
#[local] Existing Instance zstd_example.
#[local] Existing Instance blake3_example.
#[local] Existing Instance cbor_example.
#[local] Existing Instance refcbor_example.
#[local] Existing Instance pebble_example.
#[local] Existing Instance pebble_example_laws.
#[local] Existing Instance sshsig_example.
#[local] Existing Instance sshkeys_example.
#[local] Existing Instance httpcbor_example.
#[local] Existing Instance grantcbor_example.
#[local] Existing Instance grantcbor_example_laws.

Definition render_example (e : error) : bytes := concat (ns_bytes <$> e).

(** A server with the key [05], a window of 100, and one listed key, [02]. *)
Definition server_example : handler := server_New empty_example (∅, []) [x05] 100 1000.
Definition allow_example : List := {[ [x02] := FullAccess ]}.
Definition get_request : Request := mkRequest (ns_bytes "GET") (ns_bytes "/v1/refs") [] [] [] [] [] [].
Definition signed_example : Request := default get_request (match SignRequest get_request [x02] [x05] 1000 [x07] with Ok r => Some r | _ => None end).
Definition attempt_at (t : Z) : attempt :=
  mkAttempt CapRead allow_example allow_example (mkTime t t) signed_example (HashBody []) [].
Definition attempts_example : list attempt := [attempt_at 1010; attempt_at 1090].

Lemma replay_refused_witness : ∃ f, attempts server_example attempts_example !! 1%nat = Some (inl f).
Proof.
  destruct (attempts server_example attempts_example !! 1%nat) as [out|] eqn:Hout; [|vm_compute in Hout; discriminate].
  assert (∃ a, attempts server_example attempts_example !! 0%nat = Some (inr a)) as [a Ha] by (vm_compute; by eexists).
  destruct (replay_refused server_example attempts_example 0 1 (attempt_at 1010) (attempt_at 1090) a out) as [f ->];
    [vm_compute; split; [discriminate|reflexivity]|reflexivity|lia|reflexivity|reflexivity|by split_and!| |vm_compute; discriminate|exact Ha|exact Hout|by exists f].
  intros [|[|p]] e0 Hp [= <-]; [lia|vm_compute; discriminate].
Defined.

(** A handler that leaves a mark on the server. *)
Definition next_example (a : authedRequest) (h : handler) : Response * handler :=
  (signAndWrite render_example h (a_nonce a) StatusOK "" [],
   mkHandler (h_store h) (h_refs h) (h_identity h) (h_window h) 7 (h_nonces h)).

Lemma auth_sound_witness : ∃ a pub ts,
  accepted signed_example [x05] (HashBody []) (mkTime 1010 0) 100 pub (a_nonce a) ts ∧
  Allows (a_entry a) CapRead = true ∧ a_pubWire a = pk_Marshal pub.
Proof.
  assert (h_maxBody (snd (auth render_example CapRead next_example None allow_example allow_example (mkTime 1010 0)
    signed_example server_example)) = 7) as Hm by (vm_compute; reflexivity).
  destruct (auth_sound render_example CapRead next_example None allow_example allow_example (mkTime 1010 0) signed_example
    server_example) as [(resp & c & Hr)|(a & c & pub & ts & _ & _ & _ & Hpw & Hacc & _ & Hal & _)].
  - vm_compute. split; [discriminate|reflexivity].
  - vm_compute. split; [discriminate|reflexivity].
  - rewrite Hr in Hm. discriminate.
  - by exists a, pub, ts.
Defined.

(** A reference to an empty blob, signed by the key [02] at the time [t]. *)
Definition signed_record (k : bytes) (t : Z) : bytes :=
  let r := mkReference [x61] (x10 :: replicate 31 x00) [x75] t [] k in
  put_ref (mkReference [x61] (x10 :: replicate 31 x00) [x75] t
             (put_sig (k, ns_bytes RefNamespace, put_ref r)) k).
Definition put_of (k : bytes) (t : Z) : authedRequest := mkAuthed k FullAccess [x07] (signed_record k t).
Definition put_one (k : bytes) (t : Z) (h : handler) : Response * handler :=
  putRef render_example (λ _ s, s) (λ _ s, (Ok tt, s)) [x61] (put_of k t) h.

Definition stored_example : handler := snd (put_one [x02] 5 server_example).

(** The owner moves the reference, an older record and a stranger's are refused. *)
Example put_again :
  rs_Status (fst (put_one [x02] 6 stored_example)) = StatusNoContent ∧
  rs_Status (fst (put_one [x02] 4 stored_example)) = StatusConflict ∧
  rs_Status (fst (put_one [x03] 6 stored_example)) = StatusForbidden.
Proof. vm_compute. done. Qed.

(** The checks of two requests may both run before either is stored: then a
    stranger's record replaces the one that the owner was just told is stored. *)
Example putRef_race :
  let db := h_refs server_example in
  let '(owner, db) := putRef_check [x61] (put_of [x02] 5) db in
  let '(stranger, db) := putRef_check [x61] (put_of [x03] 4) db in
  let '(r, db) := Refstore.Put [x61] (signed_record [x02] 5) db in
  let '(r', db) := Refstore.Put [x61] (signed_record [x03] 4) db in
  owner = stranger ∧ (∃ k, owner = inr k) ∧ r = Ok tt ∧ r' = Ok tt ∧ db_map db !! [x61] = Some (signed_record [x03] 4).
Proof. vm_compute. split_and!; by try eexists. Qed.
End examples.
