(* ===== verification/Routes.v ===== *)
(** * Package [server]: uploads and routing ([objects.go], [server.go])

    The handler that streams an upload into the inbox, and the table of routes:
    which handler serves a request and which capability it needs. *)

From Stdlib Require Import Init.Byte.
From S2P Require Import Prelude Machine Key Chunkers FsEncode Instances FsTree FsRead FsWalk PackRecord PackStream Footer FooterFacts Packstore Compact PackstoreSpec Parallel Inbox InboxProtocol InboxSpec Text Sshsign Reference Refstore Gc Auth AuthFacts Server ServerFacts ServerSpec.
From Stdlib Require Import ZifyBool ZifyNat.
Local Open Scope Z_scope.

(** [hex.DecodeString] *)
Fixpoint hex_DecodeString (s : bytes) : result bytes :=
  match s with
  | [] => Ok []
  | [_] => Err (errors_New "encoding/hex: odd length hex string")
  | a :: b :: s =>
      match hex_digit a, hex_digit b with
      | Some x, Some y => rest ← hex_DecodeString s; Ok (z2b (16 * x + y) :: rest)
      | _, _ => Err (errors_New "encoding/hex: invalid byte")
      end
  end.

(** What a request meets: the allowlist at its two lookups, the clock, the errors
    of reading, and how the calls that depend on scheduling turn out. *)
Record context `{Fuse} `{Zstd} `{Pebble} := mkContext {
  cx_allow : List;
  cx_allow' : List;
  cx_now : Time;
  cx_readErr : option error;
  cx_tmp : bytes;
  cx_receivedAt : Z;
  cx_waitFor : Key → Store → Store;
  cx_prepare : Key → M unit;
  cx_missing : list Key → M (list Key);
  cx_pick : list error → error;
  cx_fuel : nat;
  cx_get : Key → result bytes;
}.

Inductive endpoint :=
| GetIdentity
| PostMissing
| PostObjects (rootHex ref : bytes)
| PostObjectsGet
| PostObjectsReachable
| PutRef (name : bytes)
| GetRef (name : bytes)
| DeleteRef (name : bytes)
| PostWipe.

Section routes.
Context `{Blake3} `{Fuse} `{Zstd} `{Cbor} `{RefCbor} `{Pebble} `{SshSig} `{SshKeys} `{HttpCbor} `{GrantCbor} `{MetaCbor}.
Context (render : error → bytes).

(** The JSON object with the member accepted. *)
Definition accepted_body : bytes :=
  [x7b; x22; x61; x63; x63; x65; x70; x74; x65; x64; x22; x3a; x74; x72; x75; x65; x7d].

Definition postObjects (cx : context) (rootHex ref : bytes) (r : Request) (h : handler) (ib : Inbox) : Response * handler * Inbox :=
  match hex_DecodeString rootHex with
  | Ok rootBytes =>
      match Key.Parse rootBytes with
      | Ok root =>
          let meta := mkMeta ref (kb root) (cx_receivedAt cx) in
          let body := take (Z.to_nat (h_maxBody h + 1)) (rq_Body r) in
          let '(st, ib) := Stage (cx_tmp cx) meta body (cx_readErr cx) ib in
          match st with
          | Ok (tmp, bodyHash, n) =>
              if n >? h_maxBody h
              then (signError render h [] StatusRequestEntityTooLarge (errors_New "request body exceeds the server limit"), h,
                    snd (Discard tmp ib)) else
              let '(v, c) := check_request h (cx_allow cx) (cx_allow' cx) (cx_now cx) CapPushObjects r bodyHash body in
              let h := set_nonces c h in
              match v with
              | inl f => (refuse render h f, h, snd (Discard tmp ib))
              | inr a =>
                  let '(added, ib) := Commit tmp bodyHash root ib in
                  match added with
                  | Ok _ => (signAndWrite render h (a_nonce a) StatusOK "application/json" accepted_body, h, ib)
                  | Err e => (signError render h (a_nonce a) StatusInternalServerError e, h, snd (Discard tmp ib))
                  | _ => (signError render h (a_nonce a) StatusInternalServerError [], h, ib)
                  end
              end
          | Err e => (signError render h [] StatusInternalServerError e, h, ib)
          | _ => (signError render h [] StatusInternalServerError [], h, ib)
          end
      | Err e => (signError render h [] StatusUnprocessableEntity (Errorf "invalid root key" e), h, ib)
      | _ => (signError render h [] StatusUnprocessableEntity [], h, ib)
      end
  | Err e => (signError render h [] StatusUnprocessableEntity (Errorf "invalid root query parameter" e), h, ib)
  | _ => (signError render h [] StatusUnprocessableEntity [], h, ib)
  end.

(** The handlers behind [auth]: the capability each needs, and what it does. *)
Definition route (cx : context) (e : endpoint) : option (string * (authedRequest → handler → Response * handler)) :=
  match e with
  | GetIdentity | PostObjects _ _ => None
  | PostMissing => Some (CapRead, postMissing render (cx_missing cx))
  | PostObjectsGet => Some (CapRead, postObjectsGet render (cx_missing cx))
  | PostObjectsReachable => Some (CapRead, postObjectsReachable render (cx_pick cx) (cx_fuel cx) (cx_get cx))
  | PutRef name => Some (CapWriteRefs, putRef render (cx_waitFor cx) (cx_prepare cx) name)
  | GetRef name => Some (CapRead, getRef render name)
  | DeleteRef name => Some (CapAdmin, deleteRef render name)
  | PostWipe => Some (CapWipe, postWipe render)
  end.

(** The server: a request at an endpoint. *)
Definition serve (cx : context) (e : endpoint) (r : Request) (h : handler) (ib : Inbox) : Response * handler * Inbox :=
  match e with
  | GetIdentity => (getIdentity render h, h, ib)
  | PostObjects rootHex ref => postObjects cx rootHex ref r h ib
  | _ =>
      match route cx e with
      | Some (need, next) =>
          (auth render need next (cx_readErr cx) (cx_allow cx) (cx_allow' cx) (cx_now cx) r h, ib)
      | None => (getIdentity render h, h, ib)
      end
  end.
End routes.

(** ** Who can change what *)
Section facts.
Context `{Blake3} `{Fuse} `{Zstd} `{Cbor} `{RefCbor} `{Pebble} `{SshSig} `{SshKeys} `{HttpCbor} `{GrantCbor} `{MetaCbor}.
Context `{!GrantCborLaws} `{!PebbleLaws}.

(** The request is signed by a key that is listed with the capability. *)
Definition listed_signer (h : handler) (cx : context) (r : Request) (need : string) : Prop :=
  ∃ pub ent nonce ts hash, accepted r (identityWire h) hash (cx_now cx) (h_window h) pub nonce ts ∧
    Lookup (cx_allow cx) (pk_Marshal pub) = Some ent ∧ Allows ent need = true.

(** The request is signed by a key that is listed with the capability or holds a
    grant for it. *)
Definition allowed_signer (h : handler) (cx : context) (r : Request) (need : string) : Prop :=
  ∃ pub nonce ts hash, accepted r (identityWire h) hash (cx_now cx) (h_window h) pub nonce ts ∧
    ((∃ ent, Lookup (cx_allow cx) (pk_Marshal pub) = Some ent ∧ Allows ent need = true) ∨
     granted (h_window h) (cx_allow' cx) (cx_now cx) (pk_Marshal pub) need).

Lemma postMissing_refs render missing a h : db_map (h_refs (snd (postMissing render missing a h))) = db_map (h_refs h).
Proof. unfold postMissing. destruct (Keylist.Parse _); try done. by destruct (missing _ _) as [[]]. Qed.
Lemma postObjectsGet_refs render missing a h : db_map (h_refs (snd (postObjectsGet render missing a h))) = db_map (h_refs h).
Proof.
  unfold postObjectsGet. destruct (Keylist.Parse _); try done. destruct (missing _ _) as [[[|]| | |] s]; try done.
  destruct (stream_objects _ _ _) as [[r w] s']. destruct (_ ← r; _); try done. by destruct (SignResponse _ _ _ _).
Qed.
Lemma postObjectsReachable_refs render pick fuel get a h :
  db_map (h_refs (snd (postObjectsReachable render pick fuel get a h))) = db_map (h_refs h).
Proof. unfold postObjectsReachable. destruct (Key.Parse _); try done. by destruct (ReachableKeys _ _ _ _). Qed.

(** Only three routes can change the references. *)
Lemma route_refs render cx e need next a h : route render cx e = Some (need, next) →
  db_map (h_refs (snd (next a h))) = db_map (h_refs h) ∨ need ∈ [CapWriteRefs; CapAdmin; CapWipe].
Proof.
  destruct e; intros [= <- <-]; first [right; set_solver|left].
  - apply postMissing_refs.
  - apply postObjectsGet_refs.
  - apply postObjectsReachable_refs.
  - apply getRef_refs.
Qed.

Lemma refs_cap_listed need : need ∈ [CapWriteRefs; CapAdmin; CapWipe] → ¬ delegable need.
Proof.
  rewrite !elem_of_cons, elem_of_nil. intros [->|[->|[->|[]]]] [[=]|[=]].
Qed.

Lemma postObjects_refs render cx rootHex ref r h ib : h_refs (snd (fst (postObjects render cx rootHex ref r h ib))) = h_refs h.
Proof.
  unfold postObjects. destruct (hex_DecodeString rootHex); try done. destruct (Key.Parse _); try done. cbv zeta.
  destruct (Stage _ _ _ _ _) as [[[[tmp hash] n]| | |] ib1]; try done. destruct (n >? _); [done|].
  destruct (check_request _ _ _ _ _ _ _ _) as [[f|a'] c]; [done|]. by destruct (Commit _ _ _ _) as [[| | |] ib2].
Qed.

(** A pack is queued only for an authorized request. *)
Lemma postObjects_work render cx rootHex ref r h ib :
  ib_work (snd (postObjects render cx rootHex ref r h ib)) = ib_work ib ∨
  ∃ a c hash body, check_request h (cx_allow cx) (cx_allow' cx) (cx_now cx) CapPushObjects r hash body = (inr a, c).
Proof.
  unfold postObjects. destruct (hex_DecodeString rootHex); try by left. destruct (Key.Parse _) as [root| | |]; try by left. cbv zeta.
  set (body := take _ (rq_Body r)). set (meta := mkMeta _ _ _).
  pose proof (Stage_frame (cx_tmp cx) meta body (cx_readErr cx) ib) as Hst.
  destruct (Stage _ _ _ _ _) as [st ib1]. destruct Hst as [[[[Hw _] _] _] _].
  assert (∀ t, ib_work (snd (Discard t ib1)) = ib_work ib) as Hd.
  { intros t. pose proof (Discard_frame t ib1) as Hd. destruct (Discard t ib1) as [r1 ib2]. destruct Hd as (_ & [[Hw' _] _] & _).
    by rewrite <- Hw, <- Hw'. }
  destruct st as [[[tmp hash] n]| | |]; try by left. destruct (n >? _); [left; apply Hd|].
  destruct (check_request _ _ _ _ _ _ _ _) as [[f|a'] c] eqn:Hc; [left; apply Hd|right]. eauto.
Qed.

(** C14. Nobody changes anything without the capability for it: when serving a
    request changed the references, it was signed by a key listed with
    [write-refs], [admin] or [wipe], which no grant can confer; when it queued a
    pack, it was signed by a key with [push-objects], listed or granted. *)
Theorem serve_authorized render cx e r h ib :
  0 <= h_window h < 2 ^ 63 - 1 → 0 <= wall (cx_now cx) < 2 ^ 63 →
  let '(_, h', ib') := serve render cx e r h ib in
  (db_map (h_refs h') = db_map (h_refs h) ∨
   ∃ need, need ∈ [CapWriteRefs; CapAdmin; CapWipe] ∧ listed_signer h cx r need) ∧
  (ib_work ib' = ib_work ib ∨ allowed_signer h cx r CapPushObjects).
Proof.
  intros Hw Hn. unfold serve.
  assert (∀ need next, route render cx e = Some (need, next) →
    let h' := snd (auth render need next (cx_readErr cx) (cx_allow cx) (cx_allow' cx) (cx_now cx) r h) in
    db_map (h_refs h') = db_map (h_refs h) ∨ ∃ need, need ∈ [CapWriteRefs; CapAdmin; CapWipe] ∧ listed_signer h cx r need) as Hroute.
  { intros need next Hr. cbv zeta.
    destruct (auth_spec render need next (cx_readErr cx) (cx_allow cx) (cx_allow' cx) (cx_now cx) r h Hw Hn)
      as [(resp & c & ->)|(a & c & pub & ts & -> & _ & _ & _ & Hacc & _ & Hal & Hor)]; [by left|].
    destruct (route_refs render cx e need next a (set_nonces c h) Hr) as [->|Hneed]; [by left|right].
    exists need. split; [done|]. destruct Hor as [Hl|[_ (? & ? & ? & ? & ? & _ & _ & _ & _ & _ & _ & Hdel & _)]].
    - by eexists pub, (a_entry a), _, ts, _.
    - by destruct (refs_cap_listed need Hneed). }
  assert (∀ x : Response * handler, (db_map (h_refs (snd x)) = db_map (h_refs h) ∨
      ∃ need, need ∈ [CapWriteRefs; CapAdmin; CapWipe] ∧ listed_signer h cx r need) →
    let '(_, h', ib') := (x, ib) in (db_map (h_refs h') = db_map (h_refs h) ∨
      ∃ need, need ∈ [CapWriteRefs; CapAdmin; CapWipe] ∧ listed_signer h cx r need) ∧
      (ib_work ib' = ib_work ib ∨ allowed_signer h cx r CapPushObjects)) as Hpair.
  { intros [resp h'] Hx. split; [done|by left]. }
  destruct e; try (apply Hpair, (Hroute _ _ eq_refl)); [split; by left|].
  pose proof (postObjects_refs render cx rootHex ref r h ib) as Hrefs. pose proof (postObjects_work render cx rootHex ref r h ib) as Hwork.
  destruct (postObjects _ _ _ _ _ _ _) as [[resp h'] ib']. cbn [fst snd] in *. rewrite Hrefs. split; [by left|].
  destruct Hwork as [?|(a & c & hash & body & Hc)]; [by left|right].
  destruct (check_request_inr h (mkAttempt CapPushObjects (cx_allow cx) (cx_allow' cx) (cx_now cx) r hash body) a c Hc)
    as (pub & ent & nonce & ts & Hacc & Hau & _ & Hal & _). cbn in *.
  exists pub, nonce, ts, hash. split; [done|].
  destruct (authorize_Ok (h_window h) (cx_allow cx) (cx_allow' cx) pub r (cx_now cx) ent CapPushObjects ltac:(lia) Hn Hau Hal)
    as [?|[_ ?]]; [left; by exists ent|by right].
Qed.

(** The server goes on: it serves a request of a key that is listed neither with [admin]
    nor with [wipe], or something else than its references changes. *)
Inductive served render : handler * Inbox → handler * Inbox → Prop :=
| served_request cx e r h ib :
    0 <= h_window h < 2 ^ 63 - 1 → 0 <= wall (cx_now cx) < 2 ^ 63 →
    ¬ listed_signer h cx r CapAdmin → ¬ listed_signer h cx r CapWipe →
    served render (h, ib) (snd (fst (serve render cx e r h ib)), snd (serve render cx e r h ib))
| served_other h ib h' ib' : h_refs h' = h_refs h → served render (h, ib) (h', ib').

Lemma auth_moved render cx e need next r h : route render cx e = Some (need, next) →
  0 <= h_window h < 2 ^ 63 - 1 → 0 <= wall (cx_now cx) < 2 ^ 63 → ¬ listed_signer h cx r CapAdmin → ¬ listed_signer h cx r CapWipe →
  refs_moved (db_map (h_refs h)) (db_map (h_refs (snd (auth render need next (cx_readErr cx) (cx_allow cx) (cx_allow' cx) (cx_now cx) r h)))).
Proof.
  intros Hr Hw Hn Hadm Hwipe.
  destruct (auth_spec render need next (cx_readErr cx) (cx_allow cx) (cx_allow' cx) (cx_now cx) r h Hw Hn)
    as [(resp & c & ->)|(a & c & pub & ts & -> & _ & _ & _ & Hacc & _ & Hal & Hor)]; [done|].
  destruct (route_refs render cx e need next a (set_nonces c h) Hr) as [->|Hneed]; [done|].
  assert (Lookup (cx_allow cx) (pk_Marshal pub) = Some (a_entry a)) as Hl.
  { destruct Hor as [?|[_ (? & ? & ? & ? & ? & _ & _ & _ & _ & _ & _ & Hdel & _)]]; [done|]. by destruct (refs_cap_listed need Hneed). }
  assert (∀ cap, Allows (a_entry a) cap = true → listed_signer h cx r cap) as Hlisted by (intros cap Hc; by eexists pub, (a_entry a), _, ts, _).
  destruct e; try discriminate Hr; injection Hr as <- <-; try (rewrite !elem_of_cons, elem_of_nil in Hneed; by destruct Hneed as [|[|[|[]]]]).
  - change (h_refs h) with (h_refs (set_nonces c h)). apply putRef_moved. destruct (Admin (a_entry a)) eqn:Ea; [|done].
    destruct Hadm. apply Hlisted. unfold Allows. by rewrite Ea.
  - by destruct Hadm; apply Hlisted.
  - by destruct Hwipe; apply Hlisted.
Qed.

Lemma served_moved render x y : served render x y → refs_moved (db_map (h_refs x.1)) (db_map (h_refs y.1)).
Proof.
  intros [cx e r h ib Hw Hn Hadm Hwipe|h ib h' ib' Heq]; [|cbn; by rewrite Heq]. cbn [fst snd]. unfold serve.
  pose proof (λ need next Hr, auth_moved render cx e need next r h Hr Hw Hn Hadm Hwipe) as Hroute.
  destruct e; try exact (Hroute _ _ eq_refl); [done|]. by rewrite postObjects_refs.
Qed.

(** C7. Names have owners: whatever requests a server serves one after the other, at any
    endpoint and signed by anybody but keys that are listed with [admin] or [wipe] (with a
    window of less than 2^63-1 and a clock between 1970 and 2^63 nanoseconds later), no
    stored name is lost, the record of a name is only replaced by a later one with the
    same signer key, and every record that was added is the canonical record of its name
    with a signature by its key. *)
Theorem refs_owned render h ib h' ib' :
  rtc (served render) (h, ib) (h', ib') → refs_moved (db_map (h_refs h)) (db_map (h_refs h')).
Proof.
  intros Hs. change (refs_moved (db_map (h_refs (h, ib).1)) (db_map (h_refs (h', ib').1))).
  induction Hs as [|x y z Hxy _ IH]; [done|]. etrans; [by eapply served_moved|done].
Qed.
End facts.

(** ** Applications *)
Section examples.
#[local] Existing Instance fuse_example.
#[local] Existing Instance zstd_example.
#[local] Existing Instance blake3_example.
#[local] Existing Instance cbor_example.
#[local] Existing Instance refcbor_example.
#[local] Existing Instance pebble_example.
#[local] Existing Instance pebble_example_laws.
#[local] Existing Instance sshsig_example.
#[local] Existing Instance sshkeys_example.
#[local] Existing Instance httpcbor_example.
#[local] Existing Instance grantcbor_example.
#[local] Existing Instance grantcbor_example_laws.
#[local] Instance metacbor_none : MetaCbor := {| marshal_meta _ := Ok []; unmarshal_meta _ := Ok (mkMeta [] [] 0) |}.

Definition cx_example : context :=
  mkContext _ _ _ allow_example allow_example (mkTime 1010 0) None [x74] 0 (λ _ s, s) (λ _ s, (Ok tt, s)) (λ _ s, (Ok [], s))
    (λ _, []) 1 (λ _, Err (errors_New "no object")).
Definition put_request : Request :=
  let r := mkRequest (ns_bytes "PUT") (ns_bytes "/v1/refs?name=a") [] [] [] [] [] (signed_record [x02] 5) in
  match SignRequest r [x02] [x05] 1000 [x08] with Ok r => r | _ => r end.
Definition empty_inbox : Inbox := mkInbox ∅ ∅ ∅ [] ∅ false [].

(** A PUT that is accepted was signed by a listed key. *)
Lemma serve_authorized_witness :
  ∃ need, need ∈ [CapWriteRefs; CapAdmin; CapWipe] ∧ listed_signer server_example cx_example put_request need.
Proof.
  pose proof (serve_authorized render_example cx_example (PutRef [x61]) put_request server_example empty_inbox) as Hs.
  assert (db_map (h_refs (snd (fst (serve render_example cx_example (PutRef [x61]) put_request server_example empty_inbox)))) !! [x61] =
    Some (signed_record [x02] 5)) as Hl by (vm_compute; reflexivity).
  destruct (serve _ _ _ _ _ _) as [[resp h'] ib']. cbn [fst snd] in Hl. destruct Hs as [[Heq|Hx] _].
  - vm_compute. split; [discriminate|reflexivity].
  - vm_compute. split; [discriminate|reflexivity].
  - rewrite Heq in Hl. discriminate.
  - exact Hx.
Defined.

(** The owner's record is stored, and reading it by way of the server keeps it. *)
Lemma not_listed cap : Allows FullAccess cap = false → ¬ listed_signer server_example cx_example put_request cap.
Proof.
  intros Hc (pub & ent & nonce & ts & hash & _ & Hl & Ha). unfold Lookup in Hl. cbn in Hl.
  unfold allow_example in Hl. apply lookup_singleton_Some in Hl as [_ <-]. congruence.
Qed.

Lemma refs_owned_witness :
  let '(_, h, _) := serve render_example cx_example (PutRef [x61]) put_request server_example empty_inbox in
  db_map (h_refs h) !! [x61] = Some (signed_record [x02] 5) ∧ refs_moved (db_map (h_refs server_example)) (db_map (h_refs h)).
Proof.
  pose proof (served_request render_example cx_example (PutRef [x61]) put_request server_example empty_inbox
    ltac:(vm_compute; split; [discriminate|reflexivity]) ltac:(vm_compute; split; [discriminate|reflexivity])
    ltac:(apply not_listed; reflexivity) ltac:(apply not_listed; reflexivity)) as Hstep.
  assert (db_map (h_refs (snd (fst (serve render_example cx_example (PutRef [x61]) put_request server_example empty_inbox)))) !! [x61] =
    Some (signed_record [x02] 5)) as Hl by (vm_compute; reflexivity).
  destruct (serve _ _ _ _ _ _) as [[resp h'] ib']. split; [exact Hl|].
  apply (refs_owned render_example server_example empty_inbox h' ib'). eapply rtc_l; [exact Hstep|apply rtc_refl].
Defined.
End examples.
