(* ===== verification/Sync.v ===== *)
(** * Package [remotesync]: push and pull ([batch.go], [push.go], [pull.go])

    The calls of the remote client are arguments.  The goroutines of a push or a
    pull work on different batches; a run lists them in the order in which they
    end, and what others write meanwhile are events of the parallel writer. *)

From Stdlib Require Import Init.Byte.
From S2P Require Import Prelude Machine Key Chunkers FsEncode Instances FsTree FsRead FsWalk PackRecord PackStream Footer FooterFacts Packstore PackstoreRep PackstoreFacts Compact MarkSetFacts CompactFacts PackstoreSpec Parallel Inbox InboxProtocol Reference Refstore Gc GcProtocol GcFacts.
From Stdlib Require Import ZifyBool ZifyNat.
Local Open Scope Z_scope.

(** ** Batches ([batch.go]) *)
Definition DefaultBatchBytes : Z := 60 * 2 ^ 20.
Definition maxBatchKeys : Z := 8192.
Definition nominalNodeSize : Z := 4096.
Definition DefaultJobs : Z := 8.

Record SyncOpts := mkSyncOpts { so_BatchBytes : Z; so_Jobs : Z; so_Prefetch : Z }.
Definition batchBytes (o : SyncOpts) : Z := if so_BatchBytes o =? 0 then DefaultBatchBytes else so_BatchBytes o.
Definition jobs (o : SyncOpts) : Z := if so_Jobs o <=? 0 then DefaultJobs else so_Jobs o.
Definition prefetch (o : SyncOpts) : Z := if so_Prefetch o <=? 0 then jobs o else so_Prefetch o.

Definition PushSizer `{Fuse} `{Zstd} (s : Store) (k : Key) : Z :=
  match fst (StoredSize k s) with Ok (Some slen) => slen | _ => nominalNodeSize end.
Definition PullSizer (k : Key) : Z := if Type_ k =? Blob then Length k else nominalNodeSize.

Record batcher := mkBatcher { b_cur : list Key; b_bytes : Z }.

Section batches.
Context (target : Z) (size : Key → Z).

(** The completed batch that [k] would have overflowed, if any. *)
Definition batcher_add (k : Key) (b : batcher) : option (list Key) * batcher :=
  let s := size k in
  if (0 <? length (b_cur b))%nat && ((u64 (b_bytes b + s) >? target) || (zlen (b_cur b) >=? maxBatchKeys))
  then (Some (b_cur b), mkBatcher [k] s)
  else (None, mkBatcher (b_cur b ++ [k]) (u64 (b_bytes b + s))).

Definition batcher_flush (b : batcher) : option (list Key) :=
  match b_cur b with [] => None | l => Some l end.

Fixpoint batches_from (keys : list Key) (b : batcher) : list (list Key) :=
  match keys with
  | [] => option_list (batcher_flush b)
  | k :: keys => let '(full, b) := batcher_add k b in option_list full ++ batches_from keys b
  end.

Definition Batches (keys : list Key) : list (list Key) := batches_from keys (mkBatcher [] 0).
End batches.

(** ** Push ([push.go]) *)

(** The loop of [checkChunks]; one turn per chunk. *)
Fixpoint chunks_from (fuel : nat) (keys : list Key) : list (list Key) :=
  match fuel with
  | O => []
  | S fuel =>
      if zlen keys >? maxBatchKeys
      then take (Z.to_nat maxBatchKeys) keys :: chunks_from fuel (drop (Z.to_nat maxBatchKeys) keys)
      else match keys with [] => [] | _ => [keys] end
  end.
Definition checkChunks (keys : list Key) : list (list Key) := chunks_from (S (length keys)) keys.

Record assembledPack := mkPack { pk_recs : list bytes; pk_count : Z; pk_bytes : Z }.
Record PushStats := mkPushStats { ObjectsTotal : Z; ObjectsPushed : Z; BytesPushed : Z }.

Section push.
Context `{Fuse} `{Zstd} `{Cbor}.
Local Open Scope store_scope.

(** The records of a batch; the context is not cancelled. *)
Fixpoint assemble_from (batch : list Key) (recs : list bytes) (pushed : Z) : M (list bytes * Z) :=
  match batch with
  | [] => retM (recs, pushed)
  | k :: batch =>
      rec <- (λ s, let '(r, s) := GetRecord k s in (wrap "reading %s" r, s));;
      assemble_from batch (recs ++ [rec]) (i64 (pushed + (zlen rec - RecHeaderSize)))
  end.
Definition assemblePack (batch : list Key) : M assembledPack :=
  p <- assemble_from batch [] 0;;
  retM (mkPack (fst p) (zlen batch) (snd p)).

(** The batches, in the order of their uploads; [push] is [rc.PushPackRaw]. *)
Fixpoint upload_all (push : list bytes → result unit) (batches : list (list Key)) (st : PushStats) : M PushStats :=
  match batches with
  | [] => retM st
  | batch :: batches =>
      pack <- assemblePack batch;;
      liftM (push (pk_recs pack));;;
      upload_all push batches (mkPushStats (ObjectsTotal st) (ObjectsPushed st + pk_count pack) (BytesPushed st + pk_bytes pack))
  end.

(** [missing_of] is [rc.Missing]; [arrange] is the order in which the answers
    arrive, [order] the one in which the batches are uploaded. *)
Definition Push (pick : list error → error) (fuel : nat) (get : Key → result bytes) (missing_of : list Key → result (list Key))
    (arrange : list Key → list Key) (order : list (list Key) → list (list Key)) (push : list bytes → result unit)
    (root : Key) (opts : SyncOpts) : M PushStats :=
  keys <- liftM (wrap "walking reachable objects" (ReachableKeys pick get fuel root));;
  miss <- liftM (Group_Wait pick (missing_of <$> checkChunks keys));;
  missing <- SortByLocation (arrange (concat miss));;
  sizer <- getM PushSizer;;
  upload_all push (order (Batches (batchBytes opts) sizer missing)) (mkPushStats (zlen keys) 0 0).
End push.

(** ** Pull ([pull.go]) *)
Record PullStats := mkPullStats { ObjectsFetched : Z; BytesFetched : Z }.

Section pull.
Context `{Blake3} `{Fuse} `{Zstd} `{Cbor}.
Local Open Scope store_scope.

Definition fetched_bytes (objs : list Object) : Z := foldl (λ n o, i64 (n + zlen (obj_bytes o))) 0 objs.

(** One batch, fetched and stored by the events [sched]. *)
Definition fetch_batch (procs : nat) (fetch : list Key → result (list Object)) (batch : list Key) (sched : list event)
    (st : PullStats) : M PullStats :=
  objs <- liftM (fetch batch);;
  w <- WriteParallel procs sched (inl <$> objs) (mkWriteOpts 0 0 true);;
  match snd w with
  | Some e => failM (Errorf "storing fetched objects" e)
  | None => retM (mkPullStats (ObjectsFetched st + zlen objs) (BytesFetched st + fetched_bytes objs))
  end.

(** [runs] are the batches in the order in which they end, each with its events. *)
Fixpoint run_batches (procs : nat) (fetch : list Key → result (list Object)) (runs : list (list Key * list event))
    (st : PullStats) : M PullStats :=
  match runs with
  | [] => retM st
  | (batch, sched) :: runs => st <- fetch_batch procs fetch batch sched st;; run_batches procs fetch runs st
  end.

Definition fetchAll (procs : nat) (fetch : list Key → result (list Object)) (order : list (list Key) → list (list Key * list event))
    (keys : list Key) (opts : SyncOpts) (st : PullStats) : M PullStats :=
  run_batches procs fetch (order (Batches (batchBytes opts) PullSizer keys)) st.

(** One level of the walk of [localMissing]: what is seen, missing and next. *)
Fixpoint missing_level (frontier : list Key) (seen : gset Key) (missing next : list Key) : M (gset Key * list Key * list Key) :=
  match frontier with
  | [] => retM (seen, missing, next)
  | k :: frontier =>
      if bool_decide (k ∈ seen) then missing_level frontier seen missing next else
      let seen := {[k]} ∪ seen in
      has <- Has k;;
      if negb has then missing_level frontier seen (missing ++ [k]) next else
      if (Type_ k =? Blob) || (Type_ k =? XattrSet) then missing_level frontier seen missing next else
      data <- Packstore.Get k;;
      kids <- liftM (ChildKeys k data);;
      missing_level frontier seen missing (next ++ kids)
  end.

Fixpoint missing_loop (fuel : nat) (frontier : list Key) (seen : gset Key) (missing : list Key) : M (list Key) :=
  match frontier with
  | [] => retM missing
  | _ =>
      match fuel with
      | O => liftM Diverge
      | S fuel =>
          x <- missing_level frontier seen missing [];;
          missing_loop fuel (snd x) (fst (fst x)) (snd (fst x))
      end
  end.
Definition localMissing (fuel : nat) (root : Key) : M (list Key) := missing_loop fuel [root] ∅ [].

(** The loop of [Pull]; [turns] bounds its turns, and [order n] is the order of the
    turn that leaves [n] more. *)
Fixpoint pull_loop (turns fuel procs : nat) (fetch : list Key → result (list Object))
    (order : nat → list (list Key) → list (list Key * list event)) (root : Key) (opts : SyncOpts) (toFetch : list Key)
    (st : PullStats) : M PullStats :=
  match turns with
  | O => liftM Diverge
  | S turns =>
      st <- (if (0 <? length toFetch)%nat then fetchAll procs fetch (order turns) toFetch opts st else retM st);;
      toFetch <- localMissing fuel root;;
      if (length toFetch =? 0)%nat then retM st else pull_loop turns fuel procs fetch order root opts toFetch st
  end.

(** [reachable_of] is [rc.ReachableKeys], [missing] is [store.Missing]. *)
Definition Pull (turns fuel procs : nat) (reachable_of : Key → result (list Key)) (missing : list Key → M (list Key))
    (fetch : list Key → result (list Object)) (order : nat → list (list Key) → list (list Key * list event)) (root : Key)
    (opts : SyncOpts) : M PullStats :=
  serverKeys <- liftM (wrap "listing reachable keys" (reachable_of root));;
  toFetch <- (λ s, let '(r, s) := missing serverKeys s in
                   (wrap "checking the reachable set against the local store" r, s));;
  pull_loop turns fuel procs fetch order root opts toFetch (mkPullStats 0 0).
End pull.

(** ** Push and pull: guarantees *)

(** ** Batches *)
Section batches.
Context (target : Z) (size : Key → Z).

Definition total (l : list Key) : Z := foldr (λ k n, size k + n) 0 l.

(** A batch is not empty, has few keys, and fits, unless it is one object. *)
Definition batch_ok (l : list Key) : Prop :=
  l ≠ [] ∧ zlen l <= maxBatchKeys ∧ (total l <= target ∨ length l = 1%nat).

Context (Htarget : 0 <= target < 2 ^ 63) (Hsize : ∀ k, 0 <= size k < 2 ^ 63).

Definition batcher_ok (b : batcher) : Prop :=
  b_bytes b = total (b_cur b) ∧ (b_cur b = [] ∨ batch_ok (b_cur b)).

Lemma total_app l1 l2 : total (l1 ++ l2) = total l1 + total l2.
Proof. unfold total. induction l1 as [|k l1 IH]; simpl; [done|]. rewrite IH. lia. Qed.

Lemma total_pos l : 0 <= total l.
Proof. unfold total. induction l as [|k l IH]; simpl; [done|]. pose proof (Hsize k). lia. Qed.

Lemma batcher_ok_range b : batcher_ok b → 0 <= b_bytes b < 2 ^ 63.
Proof.
  intros [-> [->|(_ & _ & Hor)]]; [done|]. pose proof (total_pos (b_cur b)). destruct Hor as [?|Hl]; [lia|]. destruct (b_cur b) as [|k [|k' l]]; try done. cbn.
  specialize (Hsize k). lia.
Qed.

Lemma batcher_add_ok k b : batcher_ok b →
  let '(full, b') := batcher_add target size k b in
  batcher_ok b' ∧ b_cur b' ≠ [] ∧ Forall batch_ok (option_list full) ∧ concat (option_list full) ++ b_cur b' = b_cur b ++ [k].
Proof.
  intros Hb. pose proof (batcher_ok_range b Hb) as Hr. pose proof (Hsize k) as Hk. destruct Hb as [Hbytes Hcur].
  unfold batcher_add. rewrite (u64_small (b_bytes b + size k)) by (unfold is_u64; lia).
  destruct (_ && _) eqn:E; cbn [option_list].
  - apply andb_true_iff in E as [Hlen _]. destruct Hcur as [Hn|Hok]; [rewrite Hn in Hlen; done|]. split_and!.
    + split; [cbn; lia|]. right. split_and!; [done|unfold maxBatchKeys; cbn; lia|by right].
    + done.
    + by constructor.
    + cbn. by rewrite app_nil_r.
  - split_and!; [|by destruct (b_cur b)|constructor|done]. split; [cbn [b_bytes b_cur]; rewrite total_app; cbn; lia|].
    right. cbn [b_cur]. split; [by destruct (b_cur b)|]. apply andb_false_iff in E.
    rewrite total_app, !length_app. destruct Hcur as [->|(Hne & Hmax & _)]; [split; [done|by right]|].
    destruct E as [E|E]; [destruct (b_cur b); [done|cbn in E; lia]|]. split; [cbn [length]; lia|left]. cbn. lia.
Qed.

Lemma batches_from_ok keys b : batcher_ok b →
  concat (batches_from target size keys b) = b_cur b ++ keys ∧ Forall batch_ok (batches_from target size keys b).
Proof.
  revert b. induction keys as [|k keys IH]; intros b Hb; cbn [batches_from].
  - destruct Hb as [_ Hcur]. unfold batcher_flush. destruct (b_cur b) as [|k l]; [by split|]. cbn. rewrite app_nil_r. split; [done|].
    destruct Hcur; [done|by constructor].
  - pose proof (batcher_add_ok k b Hb) as Ha. destruct (batcher_add target size k b) as [full b']. destruct Ha as (Hb' & _ & Hfull & Heq).
    destruct (IH b' Hb') as [Hc Hf]. rewrite concat_app, Hc, app_assoc, Heq, <- app_assoc. split; [done|]. by apply Forall_app.
Qed.
End batches.

(** The limits that hold whatever the sizes. *)
Lemma batches_from_keys target size keys b : zlen (b_cur b) <= maxBatchKeys →
  concat (batches_from target size keys b) = b_cur b ++ keys ∧
  Forall (λ l, l ≠ [] ∧ zlen l <= maxBatchKeys) (batches_from target size keys b).
Proof.
  revert b. induction keys as [|k keys IH]; intros b Hb; cbn [batches_from].
  - unfold batcher_flush. destruct (b_cur b) as [|k l]; [by split|]. cbn. rewrite app_nil_r. split; [done|by constructor].
  - unfold batcher_add. cbv zeta. destruct (_ && _) eqn:E; cbn [option_list app].
    + destruct (IH (mkBatcher [k] (size k))) as [Hc Hf]; [done|]. cbn. rewrite Hc. split; [done|]. constructor; [|done].
      apply andb_true_iff in E as [E _]. split; [|done]. by intros Hn; rewrite Hn in E.
    + destruct (IH (mkBatcher (b_cur b ++ [k]) (u64 (b_bytes b + size k)))) as [Hc Hf].
      * cbn [b_cur]. rewrite length_app. cbn [length]. apply andb_false_iff in E. unfold maxBatchKeys in *.
        destruct E as [E|E]; [|lia]. destruct (b_cur b); [cbn; lia|discriminate].
      * change (option_list (@None (list Key))) with (@nil (list Key)). rewrite app_nil_l, Hc. cbn [b_cur].
        rewrite <- app_assoc. by split.
Qed.

(** Batching keeps every key, in order, and respects its limits: the batches put
    together are the keys, and none is empty or has more than 8192 keys; when no
    size reaches 2^63 the estimated size of a batch is within the target unless it
    is a single object. *)
Theorem Batches_spec target size keys :
  concat (Batches target size keys) = keys ∧
  Forall (λ l, l ≠ [] ∧ zlen l <= maxBatchKeys) (Batches target size keys) ∧
  ((0 <= target < 2 ^ 63 ∧ ∀ k, 0 <= size k < 2 ^ 63) → Forall (batch_ok target size) (Batches target size keys)).
Proof.
  destruct (batches_from_keys target size keys (mkBatcher [] 0)) as [Hc Hf]; [done|]. split_and!; [done|done|].
  intros [Ht Hs]. apply (batches_from_ok target size Ht Hs keys (mkBatcher [] 0)). split; [done|by left].
Qed.

(** ** The local walk *)
Section walk.
Context `{Blake3} `{Fuse} `{Zstd} `{Cbor} `{ItemInv}.

(** The walk so far: a key that was seen is missing, or present with its children
    seen or still to visit. *)
Definition walked (c : gmap Key bytes) (seen : gset Key) (missing pend : list Key) : Prop :=
  (∀ k, k ∈ missing → k ∉ dom c) ∧
  ∀ k, k ∈ seen → k ∈ missing ∨
    present (cget c) (chas c) k ∧ ∀ x, child_of (cget c) k x → x ∈ seen ∨ x ∈ pend.

Lemma walked_missing c seen missing k pend next : k ∉ dom c → walked c seen missing (k :: pend ++ next) →
  walked c ({[k]} ∪ seen) (missing ++ [k]) (pend ++ next).
Proof.
  intros Hk [Hm Hw]. split.
  - intros x [?|Hx%list_elem_of_singleton]%elem_of_app; [auto|by subst].
  - intros x [Hx%elem_of_singleton|[?|[Hp Hc]]%Hw]%elem_of_union; [left; subst; set_solver|left; set_solver|right].
    split; [done|]. intros y [?|[->|?]%elem_of_cons]%Hc; set_solver.
Qed.

Lemma walked_present c seen missing k pend next kids : present (cget c) (chas c) k →
  (∀ x, child_of (cget c) k x → x ∈ kids) → walked c seen missing (k :: pend ++ next) →
  walked c ({[k]} ∪ seen) missing (pend ++ next ++ kids).
Proof.
  intros Hp Hk [Hm Hw]. split; [done|]. intros x [Hx%elem_of_singleton|[?|[Hpx Hc]]%Hw]%elem_of_union; [right|by left|right].
  - subst x. split; [done|]. intros y ?%Hk. right. rewrite !elem_of_app. tauto.
  - split; [done|]. intros y Hy%Hc. rewrite !elem_of_app in *. rewrite elem_of_cons in Hy.
    destruct Hy as [?|[->|?]]; [set_solver|set_solver|]. right. rewrite elem_of_app in *. tauto.
Qed.

Lemma walked_seen c seen missing k pend next : k ∈ seen → walked c seen missing (k :: pend ++ next) →
  walked c seen missing (pend ++ next).
Proof.
  intros Hk [Hm Hw]. split; [done|]. intros x [?|[? Hc]]%Hw; [by left|right]. split; [done|].
  intros y [?|[->|?]%elem_of_cons]%Hc; auto.
Qed.

Lemma missing_level_spec frontier seen missing next s c :
  contents s c → closed s = false → walked c seen missing (frontier ++ next) →
  let '(r, s') := missing_level frontier seen missing next s in
  contents s' c ∧ closed s' = false ∧ ∀ seen' missing' next', r = Ok (seen', missing', next') →
    walked c seen' missing' next' ∧ seen ⊆ seen' ∧ ∀ k, k ∈ frontier → k ∈ seen'.
Proof.
  revert seen missing next s. induction frontier as [|k frontier IH]; intros seen missing next s Hcs Hc Hw.
  { cbn. split_and!; [done|done|]. intros ??? [= <- <- <-]. by split_and!; [..|intros ? ?%elem_of_nil]. }
  cbn [missing_level]. case_bool_decide as Hin.
  { specialize (IH seen missing next s Hcs Hc (walked_seen _ _ _ _ _ _ Hin Hw)).
    destruct (missing_level frontier _ _ _ s) as [r s']. destruct IH as (? & ? & Hok). split_and!; [done|done|].
    intros ??? Hr. destruct (Hok _ _ _ Hr) as (? & ? & ?). split_and!; [done|done|]. intros x [->|?]%elem_of_cons; auto. }
  assert (∀ missing1 next1 s1, contents s1 c → closed s1 = false → walked c ({[k]} ∪ seen) missing1 (frontier ++ next1) →
    let '(r, s') := missing_level frontier ({[k]} ∪ seen) missing1 next1 s1 in
    contents s' c ∧ closed s' = false ∧ ∀ seen' missing' next', r = Ok (seen', missing', next') →
      walked c seen' missing' next' ∧ seen ⊆ seen' ∧ ∀ x, x ∈ k :: frontier → x ∈ seen') as Hgo.
  { intros missing1 next1 s1 Hcs1 Hc1 Hw1. specialize (IH _ missing1 next1 s1 Hcs1 Hc1 Hw1).
    destruct (missing_level frontier _ _ _ s1) as [r s']. destruct IH as (? & ? & Hok). split_and!; [done|done|].
    intros ??? Hr. destruct (Hok _ _ _ Hr) as (? & Hsub & ?). split_and!; [done|set_solver|].
    intros x [->|?]%elem_of_cons; [apply Hsub; set_solver|auto]. }
  unfold bindM at 1. rewrite (Has_contents s c k Hcs Hc). case_bool_decide as Hk; cbn [negb].
  2:{ apply Hgo; [done|done|]. apply walked_missing; [by rewrite elem_of_dom|done]. }
  change ((Type_ k =? Blob) || (Type_ k =? XattrSet)) with (is_leaf k). destruct (is_leaf k) eqn:Hl.
  { apply Hgo; [done|done|]. rewrite <- (app_nil_r next). apply walked_present; [| |done].
    - unfold present. rewrite Hl. unfold chas. by rewrite bool_decide_eq_true_2.
    - intros x [Hf _]. congruence. }
  unfold bindM at 1. destruct (Packstore.Get k s) as [r s1] eqn:Hg.
  destruct (Get_answer s c k r s1 Hcs Hc Hg) as ([l Hss] & Hr & _ & Hsafe).
  assert (contents s1 c ∧ closed s1 = false) as [Hcs1 Hc1] by (subst s1; split; [by apply (contents_frame s)|done]).
  destruct r as [data|e| |]; cbn beta iota; [|by split_and!; [..|intros ???]|by destruct Hsafe..]. specialize (Hr data eq_refl).
  unfold bindM, liftM. destruct (ChildKeys k data) as [kids|e| |] eqn:Hkids; cbn beta iota; [|by split_and!; [..|intros ???]..].
  apply Hgo; [done|done|]. apply walked_present; [| |done].
  - unfold present. rewrite Hl. exists data, kids. split; [by apply cget_Ok|done].
  - intros x (_ & data' & cs & Hd%cget_Ok & Hcs' & Hx). assert (data' = data) as -> by congruence. congruence.
Qed.

Lemma missing_loop_spec fuel frontier seen missing s c :
  contents s c → closed s = false → walked c seen missing frontier →
  let '(r, s') := missing_loop fuel frontier seen missing s in
  contents s' c ∧ closed s' = false ∧ ∀ missing', r = Ok missing' →
    ∃ seen', walked c seen' missing' [] ∧ seen ⊆ seen' ∧ ∀ k, k ∈ frontier → k ∈ seen'.
Proof.
  revert frontier seen missing s. induction fuel as [|fuel IH]; intros frontier seen missing s Hcs Hc Hw;
    (destruct frontier as [|k frontier];
      [cbn; split_and!; [done|done|]; intros ? [= <-]; exists seen; split_and!; [done|done|by intros ? ?%elem_of_nil]|]); [done|].
  cbn [missing_loop]. unfold bindM.
  pose proof (missing_level_spec (k :: frontier) seen missing [] s c Hcs Hc ltac:(by rewrite app_nil_r)) as Hl.
  destruct (missing_level (k :: frontier) seen missing [] s) as [[[[seen1 missing1] next1]|e| |] s1];
    [|destruct Hl as (? & ? & _); cbn beta iota; by split_and!; [..|intros ?]..].
  destruct Hl as (Hcs1 & Hc1 & Hok). destruct (Hok _ _ _ eq_refl) as (Hw1 & Hsub & Hin). cbn [fst snd].
  specialize (IH next1 seen1 missing1 s1 Hcs1 Hc1 Hw1). destruct (missing_loop fuel next1 seen1 missing1 s1) as [r s2].
  destruct IH as (? & ? & Hok2). split_and!; [done|done|]. intros m Hm. destruct (Hok2 m Hm) as (seen' & ? & Hsub' & _).
  exists seen'. split_and!; [done|set_solver|auto].
Qed.

(** An empty answer of [localMissing] means that the tree is complete, and what it
    lists is absent. *)
Lemma localMissing_spec fuel root s c : contents s c → closed s = false →
  let '(r, s') := localMissing fuel root s in
  contents s' c ∧ closed s' = false ∧ (r = Ok [] → complete c root) ∧ ∀ m k, r = Ok m → k ∈ m → k ∉ dom c.
Proof.
  intros Hcs Hc. unfold localMissing. assert (walked c ∅ [] [root]) as Hw0 by (split; [by intros ? ?%elem_of_nil|set_solver]).
  pose proof (missing_loop_spec fuel [root] ∅ [] s c Hcs Hc Hw0) as Hl. destruct (missing_loop _ _ _ _ s) as [r s'].
  destruct Hl as (? & ? & Hok). split_and!; [done|done| |].
  - intros ->. destruct (Hok [] eq_refl) as (seen & [_ Hw] & _ & Hroot).
    assert (∀ k, k ∈ seen → present (cget c) (chas c) k ∧ ∀ x, child_of (cget c) k x → x ∈ seen) as Hcl.
    { intros k [?%elem_of_nil|[? Hx]]%Hw; [done|]. split; [done|]. by intros x [?|?%elem_of_nil]%Hx. }
    intros k Hk. apply Hcl. unfold closure, reachable in Hk. assert (root ∈ seen) as Hr by (apply Hroot; left).
    clear - Hk Hr Hcl. induction Hk as [|x y z Hxy _ IH]; [done|]. apply IH. by eapply Hcl.
  - intros m k -> Hk. destruct (Hok m eq_refl) as (seen & [Hm _] & _). auto.
Qed.
End walk.

(** ** Pull *)
Section pull.
Context `{Blake3} `{Fuse} `{Zstd} `{Cbor}.
#[local] Existing Instance InboxProtocol.verified_inv.

Context (procs : nat) (Hprocs : (0 < procs)%nat).
Context (fetch : list Key → result (list Object)) (order : nat → list (list Key) → list (list Key * list event)).
(** The keys of what is fetched were parsed, and others write only what they may. *)
Context (Hfetch : ∀ batch objs, fetch batch = Ok objs → Forall (λ o, Validate (obj_key o) = Ok tt) objs).
Context (Horder : ∀ n bs batch sched, (batch, sched) ∈ order n bs → ∀ o, put_by_others (others_in sched) o).

(** What the steps of a pull keep: the store is open and loses no key. *)
Definition kept (s : Store) (c : gmap Key bytes) {A} (x : result A * Store) : Prop :=
  ∀ a, fst x = Ok a → ∃ c', contents (snd x) c' ∧ closed (snd x) = false ∧ dom c ⊆ dom c'.

Lemma fetch_batch_kept batch sched st s c : (∀ o, put_by_others (others_in sched) o) → contents s c → closed s = false →
  kept s c (fetch_batch procs fetch batch sched st s).
Proof.
  intros Ho Hcs Hc. unfold fetch_batch, bindM, liftM. destruct (fetch batch) as [objs|e| |] eqn:Hf; [|done..].
  set (opts := mkWriteOpts 0 0 true).
  pose proof (WriteParallel_spec procs sched (inl <$> objs) opts s c Hcs Hc Hprocs) as Hw.
  destruct (WriteParallel _ _ _ _ _) as [x s1]. destruct Hw as [->|(stats & err & c' & -> & Hcs' & Hc' & Hd & _)]; [|done|done|].
  - intros o Hin. apply list_elem_of_fmap in Hin as (o' & [= <-] & Hin).
    pose proof (Hfetch batch objs Hf) as Hv. rewrite Forall_forall in Hv. split; [by apply Hv|]. intros Hver. exact (Hver eq_refl).
  - cbn [snd]. destruct err; intros a Ha; [done|]. by exists c'.
Qed.

Lemma run_batches_kept runs st s c : (∀ batch sched, (batch, sched) ∈ runs → ∀ o, put_by_others (others_in sched) o) →
  contents s c → closed s = false → kept s c (run_batches procs fetch runs st s).
Proof.
  revert st s c. induction runs as [|[batch sched] runs IH]; intros st s c Ho Hcs Hc; [intros a _; by exists c|].
  cbn [run_batches]. unfold bindM. pose proof (fetch_batch_kept batch sched st s c (Ho batch sched ltac:(left)) Hcs Hc) as Hf.
  destruct (fetch_batch _ _ _ _ _ s) as [[st1|e| |] s1]; [|done..]. destruct (Hf st1 eq_refl) as (c1 & Hcs1 & Hc1 & Hd1).
  intros a Ha. destruct (IH st1 s1 c1) with (a := a) as (c' & ? & ? & ?); [|done|done|done|].
  - intros b sc Hin. apply (Ho b sc). by right.
  - exists c'. split_and!; [done|done|set_solver].
Qed.

Lemma pull_loop_kept turns fuel root opts toFetch st s c : contents s c → closed s = false →
  ∀ st' s', pull_loop turns fuel procs fetch order root opts toFetch st s = (Ok st', s') →
  ∃ c', contents s' c' ∧ closed s' = false ∧ dom c ⊆ dom c' ∧ complete c' root.
Proof.
  revert toFetch st s c. induction turns as [|turns IH]; intros toFetch st s c Hcs Hc st' s'; [done|]. cbn [pull_loop].
  unfold bindM at 1. set (first := if (0 <? length toFetch)%nat then _ else _).
  assert (kept s c (first s)) as Hk.
  { subst first. destruct (0 <? length toFetch)%nat; [|intros a _; by exists c]. unfold fetchAll. apply run_batches_kept; [|done|done].
    intros b sc Hin. by eapply Horder. }
  destruct (first s) as [[st1|e| |] s1]; try done. destruct (Hk st1 eq_refl) as (c1 & Hcs1 & Hc1 & Hd1). cbn [snd] in *.
  unfold bindM. pose proof (localMissing_spec fuel root s1 c1 Hcs1 Hc1) as Hm. destruct (localMissing fuel root s1) as [r s2].
  destruct Hm as (Hcs2 & Hc2 & Hdone & _). destruct r as [toFetch'|e| |]; try done.
  destruct (length toFetch' =? 0)%nat eqn:El.
  - intros [= <- <-]. exists c1. split_and!; try done. apply Hdone. destruct toFetch'; [done|discriminate].
  - intros Hp. destruct (IH toFetch' st1 s2 c1 Hcs2 Hc2 st' s' Hp) as (c' & ? & ? & ? & ?). exists c'. split_and!; try done. set_solver.
Qed.

Lemma Pull_kept turns fuel reachable_of missing root opts s c st s' :
  contents s c → closed s = false →
  (∀ ks r s1, missing ks s = (r, s1) → contents s1 c ∧ closed s1 = false) →
  Pull turns fuel procs reachable_of missing fetch order root opts s = (Ok st, s') →
  ∃ c', contents s' c' ∧ closed s' = false ∧ dom c ⊆ dom c' ∧ complete c' root.
Proof.
  intros Hcs Hc Hmiss. unfold Pull, bindM, liftM. destruct (wrap _ (reachable_of root)) as [keys|e| |]; try done.
  destruct (missing keys s) as [r s1] eqn:Em. destruct (Hmiss keys r s1 Em) as [Hcs1 Hc1].
  destruct (wrap _ r) as [toFetch|e| |]; try done. by apply pull_loop_kept.
Qed.

(** A pull that succeeds leaves the whole tree in the store: whatever the server
    lists and sends, when [Pull] returns without an error every object reachable
    from the root is stored, every stored object was verified against its key, and
    no stored key is lost. *)
Theorem Pull_complete turns fuel reachable_of missing root opts s c st s' :
  contents s c → closed s = false →
  (∀ ks r s1, missing ks s = (r, s1) → contents s1 c ∧ closed s1 = false) →
  Pull turns fuel procs reachable_of missing fetch order root opts s = (Ok st, s') →
  ∃ c', contents s' c' ∧ closed s' = false ∧ dom c ⊆ dom c' ∧ complete c' root.
Proof. exact (Pull_kept turns fuel reachable_of missing root opts s c st s'). Qed.
End pull.

(** ** Applications *)
Section examples.
#[local] Existing Instance fuse_example.
#[local] Existing Instance zstd_example.
#[local] Existing Instance blake3_example.
#[local] Existing Instance cbor_example.
#[local] Existing Instance InboxProtocol.verified_inv.

(** A pull of a file of two blobs into an empty store, from a server that has it. *)
Definition fetch_example (batch : list Key) : result (list Object) := Ok (filter (λ o, obj_key o ∈ batch) log_example).
Definition pull_events : list event := replicate 4 (Distribute false) ++ replicate 19 (Work 0 false) ++ [Work 1 false; Work 2 false; Work 3 false].
Definition order_example (_ : nat) (bs : list (list Key)) : list (list Key * list event) := (λ b, (b, pull_events)) <$> bs.
Definition pull_example : result PullStats * Store :=
  Pull 2 5 4 (λ _, Ok (obj_key <$> log_example)) (Missing pick_example 4) fetch_example order_example root_example
    (mkSyncOpts 0 0 0) empty_example.

Lemma log_valid : Forall (λ o, Validate (obj_key o) = Ok tt) log_example.
Proof. repeat constructor; vm_compute; reflexivity. Qed.

Lemma fetch_valid batch objs : fetch_example batch = Ok objs → Forall (λ o, Validate (obj_key o) = Ok tt) objs.
Proof.
  intros [= <-]. apply Forall_forall. intros o [_ Ho]%list_elem_of_filter.
  pose proof log_valid as Hv. rewrite Forall_forall in Hv. by apply Hv.
Qed.

Lemma order_valid n bs batch sched : (batch, sched) ∈ order_example n bs → ∀ o, put_by_others (others_in sched) o.
Proof.
  intros Hin o Ho. apply list_elem_of_fmap in Hin as (b & [= -> ->] & _). unfold others_in, pull_events in Ho.
  apply elem_of_app in Ho as [Ho|Ho]; [by apply elem_of_replicate in Ho as [? _]|].
  apply elem_of_app in Ho as [Ho|Ho]; [by apply elem_of_replicate in Ho as [? _]|].
  rewrite !elem_of_cons, elem_of_nil in Ho. destruct Ho as [[=]|[[=]|[[=]|[]]]].
Qed.

Lemma contents_empty : contents empty_example ∅.
Proof. exists ∅. split; [|done]. split; [|done]. split; [done|]. exists [], []. by split_and!. Qed.

Lemma missing_keeps ks r s1 : Missing pick_example 4 ks empty_example = (r, s1) → contents s1 ∅ ∧ closed s1 = false.
Proof.
  unfold Missing. destruct (Nat.min _ _ =? 0)%nat; intros [= _ <-]; (split; [apply contents_empty|reflexivity]).
Qed.

Lemma pull_example_ok : fst pull_example = Ok (mkPullStats 3 201).
Proof. vm_compute. reflexivity. Qed.

Lemma pull_example_run : Pull 2 5 4 (λ _, Ok (obj_key <$> log_example)) (Missing pick_example 4) fetch_example order_example
  root_example (mkSyncOpts 0 0 0) empty_example = (Ok (mkPullStats 3 201), snd pull_example).
Proof. rewrite <-pull_example_ok. unfold pull_example. apply surjective_pairing. Qed.

Lemma Pull_complete_witness : ∃ c', contents (snd pull_example) c' ∧ complete c' root_example.
Proof.
  destruct (Pull_complete 4 ltac:(lia) fetch_example order_example fetch_valid order_valid 2 5 _ _ root_example _ _ ∅ _ _
              contents_empty eq_refl missing_keeps pull_example_run) as (c' & Hcs & _ & _ & Hc).
  exists c'. split; [exact Hcs|exact Hc].
Defined.
End examples.
