(* ===== verification/Remote.v ===== *)
(** * Package [remoteclient]: the signed client of a remote server
    ([remoteclient.go], [objects.go], [refs.go])

    The server at the other end of the connection is any function from a request
    and a state of the outside world to a response; parsing an address is the
    [net/url] library.  What a call takes from its surroundings (the clock, the
    random bytes of its nonce, what the grant provider returns) is an argument. *)

From Stdlib Require Import Init.Byte.
From S2P Require Import Prelude Machine Key Chunkers FsEncode Instances FsTree FsRead FsWalk PackRecord PackStream Footer FooterFacts Packstore PackstoreRep PackstoreFacts PackstoreQuery Compact PackstoreSpec Parallel Inbox InboxProtocol InboxSpec Text Sshsign Reference Refstore Gc GcProtocol GcFacts GcSpec Auth AuthFacts Server ServerFacts ServerSpec Routes.
From Stdlib Require Import ZifyBool ZifyNat.
Local Open Scope Z_scope.

Definition maxResponse : Z := 256 * 2 ^ 20.

(** ** Addresses ([net/url]) *)
Record URL := mkURL { u_Scheme : string; u_Host : bytes; u_RequestURI : bytes }.
Class NetUrl := { url_Parse : bytes → result URL }.

Definition unreserved (c : byte) : bool :=
  let x := b2z c in
  ((65 <=? x) && (x <=? 90)) || ((97 <=? x) && (x <=? 122)) || ((48 <=? x) && (x <=? 57)) ||
  (x =? 45) || (x =? 95) || (x =? 46) || (x =? 126).
Definition upper_hex (d : Z) : byte := z2b (if d <? 10 then 48 + d else 55 + d).
(** [url.QueryEscape] *)
Definition QueryEscape (s : bytes) : bytes :=
  concat ((λ c, if unreserved c then [c] else if bool_decide (c = x20) then [x2b] else
                [x25; upper_hex (b2z c / 16); upper_hex (b2z c mod 16)]) <$> s).

Definition str (s : string) : bytes := String.list_byte_of_string s.

(** [strings.TrimRight(s, "/")] *)
Fixpoint trim_slashes (r : bytes) : bytes :=
  match r with c :: r' => if bool_decide (c = x2f) then trim_slashes r' else r | [] => [] end.
Definition TrimRightSlash (s : bytes) : bytes := rev (trim_slashes (rev s)).

(** ** Failures *)

(** A status that is not 2xx is an error of its own. *)
Inductive fault :=
| Failure (e : error)
| StatusError (code : Z) (msg : bytes)
| Stuck.                                          (* the call panics or does not return *)

Definition reply (A : Type) : Type := fault + A.
Definition of_result {A} (r : result A) : reply A :=
  match r with Ok a => inr a | Err e => inl (Failure e) | _ => inl Stuck end.
Definition bindR {A B} (r : reply A) (f : A → reply B) : reply B := match r with inl e => inl e | inr a => f a end.
Definition wrapR {A} (msg : string) (r : reply A) : reply A :=
  match r with inl (Failure e) => inl (Failure (Errorf msg e)) | _ => r end.
(** What a caller that only prints the error sees. *)
Definition to_result {A} (r : reply A) : result A :=
  match r with
  | inr a => Ok a
  | inl (Failure e) => Err e
  | inl (StatusError _ _) => Err (errors_New "server responded %d: %s")
  | inl Stuck => Panic
  end.

(** ** Messages *)

(** A response, with the error of reading its body, if one comes after the bytes. *)
Record HttpResponse := mkHttp {
  hr_StatusCode : Z;
  hr_Header : bytes;       (* Amber-Signature in the header *)
  hr_Trailer : bytes;      (* and in the trailer *)
  hr_Body : bytes;
  hr_ReadErr : option error;
}.

(** [io.ReadAll] of at most [n] bytes *)
Definition read_limited (n : Z) (resp : HttpResponse) : result bytes :=
  if zlen (hr_Body resp) <? n
  then match hr_ReadErr resp with Some e => Err e | None => Ok (hr_Body resp) end
  else Ok (take (Z.to_nat n) (hr_Body resp)).

Section remoteclient.
Context `{Blake3} `{Zstd} `{SshSig} `{SshKeys} `{HttpCbor} `{NetUrl}.
Context {W : Type} (Do : Request → W → result HttpResponse * W).

Record Client := mkClient { cl_base : bytes; cl_signer : Signer; cl_serverPubWire : bytes }.

(** The random bytes, the clock and the grant of one call ([None] or the empty
    string: no grant). *)
Record call := mkCall { ca_nonce : result bytes; ca_now : Z; ca_grant : option bytes }.

Definition remote_New (baseURL : bytes) (signer : Signer) (serverPubWire : bytes) : result Client :=
  u ← wrap "remote URL" (url_Parse baseURL);
  if negb (String.eqb (u_Scheme u) "http" || String.eqb (u_Scheme u) "https") || bool_decide (u_Host u = [])
  then Err (errors_New "remote URL %q must be http(s)://host[:port][/path]") else
  if (length serverPubWire =? 0)%nat then Err (errors_New "no pinned server key for %s") else
  Ok (mkClient (TrimRightSlash baseURL) signer serverPubWire).

Definition newNonce (ca : call) : result bytes := wrap "generating nonce" (ca_nonce ca).

(** [http.NewRequestWithContext] *)
Definition NewRequest (method url body : bytes) : result Request :=
  u ← url_Parse url; Ok (mkRequest method (u_RequestURI u) [] [] [] [] [] body).

Definition attachGrant (ca : call) (r : Request) : Request :=
  match ca_grant ca with
  | Some ((_ :: _) as g) => mkRequest (rq_Method r) (rq_URI r) (rq_PublicKey r) (rq_Timestamp r) (rq_Nonce r) (rq_Signature r)
                              (b64_EncodeToString g) (rq_Body r)
  | _ => r
  end.

Definition signedRequest (cl : Client) (ca : call) (method pathQuery body : bytes) : result (Request * bytes) :=
  req ← NewRequest method (cl_base cl ++ pathQuery) body;
  nonce ← newNonce ca;
  req ← SignRequest req (cl_signer cl) (cl_serverPubWire cl) (ca_now ca) nonce;
  Ok (attachGrant ca req, nonce).

(** The check of a response and what it means. *)
Definition receive (cl : Client) (nonce : bytes) (resp : HttpResponse) : reply (Z * bytes) :=
  bindR (of_result (wrap "reading response" (read_limited maxResponse resp))) (λ respBody,
  let sig := if bool_decide (hr_Header resp = []) then hr_Trailer resp else hr_Header resp in
  bindR (of_result (wrap "server identity mismatch for %s"
           (VerifyResponse (cl_serverPubWire cl) nonce (hr_StatusCode resp) (HashBody respBody) sig))) (λ _,
  if (hr_StatusCode resp <? 200) || (hr_StatusCode resp >? 299)
  then inl (StatusError (hr_StatusCode resp) respBody)
  else inr (hr_StatusCode resp, respBody))).

Definition send (cl : Client) (req : Request) (nonce : bytes) (w : W) : reply (Z * bytes) * W :=
  let '(r, w) := Do req w in
  (bindR (of_result (wrap "contacting remote %s" r)) (receive cl nonce), w).

(** A request built by [mk] is sent, if it was built. *)
Definition send_signed (cl : Client) (mk : result (Request * bytes)) (w : W) : reply (Z * bytes) * W :=
  match mk with
  | Ok (req, nonce) => send cl req nonce w
  | Err e => (inl (Failure e), w)
  | _ => (inl Stuck, w)
  end.

Definition do (cl : Client) (ca : call) (method pathQuery body : bytes) (w : W) : reply (Z * bytes) * W :=
  send_signed cl (signedRequest cl ca method pathQuery body) w.

(** The body is streamed; its hash was computed before. *)
Definition doStreaming (cl : Client) (ca : call) (method pathQuery bodyHash body : bytes) (w : W) : reply (Z * bytes) * W :=
  send_signed cl
    (req ← NewRequest method (cl_base cl ++ pathQuery) body;
     nonce ← newNonce ca;
     req ← SignRequestHash req (cl_signer cl) (cl_serverPubWire cl) (ca_now ca) nonce bodyHash;
     Ok (attachGrant ca req, nonce)) w.

Definition remote_Wipe (cl : Client) (ca : call) (w : W) : reply unit * W :=
  let '(r, w) := do cl ca (str "POST") (str "/v1/wipe") [] w in
  (wrapR "wiping remote %s" (bindR r (λ _, inr tt)), w).

Definition FetchIdentity (baseURL : bytes) (w : W) : reply bytes * W :=
  match NewRequest (str "GET") (TrimRightSlash baseURL ++ str "/v1/identity") [] with
  | Ok req =>
      let '(r, w) := Do req w in
      (bindR (of_result (wrap "contacting remote %s" r)) (λ resp,
       bindR (of_result (wrap "reading identity" (read_limited (2 ^ 20) resp))) (λ body,
       if negb (hr_StatusCode resp =? 200) then inl (StatusError (hr_StatusCode resp) body) else
       bindR (of_result (wrap "server identity is not a valid SSH public key" (ParsePublicKey body))) (λ _,
       bindR (of_result (wrap "server identity self-signature"
                (VerifyResponse body [] (hr_StatusCode resp) (HashBody body) (hr_Header resp)))) (λ _,
       inr body)))), w)
  | Err e => (inl (Failure e), w)
  | _ => (inl Stuck, w)
  end.

(** ** Objects ([objects.go]) *)
Definition remote_Missing (cl : Client) (ca : call) (keys : list Key) (w : W) : reply (list Key) * W :=
  let '(r, w) := do cl ca (str "POST") (str "/v1/objects/missing") (Keylist.Flatten keys) w in
  (bindR r (λ '(_, body), of_result (Keylist.Parse body)), w).

(** The pack is written twice: to the hash and to the connection. *)
Definition postPack (cl : Client) (ca : call) (ref : bytes) (root : Key) (writeBody : result bytes) (w : W) : reply unit * W :=
  match writeBody with
  | Ok body =>
      let q := str "ref=" ++ QueryEscape ref ++ str "&root=" ++ QueryEscape (hex_EncodeToString (kb root)) in
      let '(r, w) := doStreaming cl ca (str "POST") (str "/v1/objects?" ++ q) (Sum256 body) body w in
      (bindR r (λ _, inr tt), w)
  | Err e => (inl (Failure e), w)
  | _ => (inl Stuck, w)
  end.

Definition PushPack (cl : Client) (ca : call) (ref : bytes) (root : Key) (objs : list Object) (w : W) : reply unit * W :=
  postPack cl ca ref root (write_pack write_all objs []) w.

Definition PushPackRaw (cl : Client) (ca : call) (ref : bytes) (root : Key) (records : list bytes) (w : W) : reply unit * W :=
  postPack cl ca ref root
    (pw ← foldR (λ rec pw, AddRecord write_all pw rec) records (NewWriter []); PackStream.Close write_all pw) w.

Definition remote_ReachableKeys (cl : Client) (ca : call) (root : Key) (w : W) : reply (list Key) * W :=
  let '(r, w) := do cl ca (str "POST") (str "/v1/objects/reachable") (kb root) w in
  (bindR r (λ '(_, body), of_result (Keylist.Parse body)), w).

(** The objects of a pack, all or none. *)
Definition pack_objects (pack : bytes) : result (list Object) :=
  let '(objs, r) := PackStream.All pack in _ ← wrap "reading object stream" r; Ok objs.

(** The check of a fetched pack: the signature is at the end of the body. *)
Definition receive_pack (cl : Client) (nonce : bytes) (resp : HttpResponse) : reply (list Object) :=
  bindR (of_result (wrap "reading response" (read_limited maxResponse resp))) (λ body,
  if negb (hr_StatusCode resp =? 200) then
    bindR (of_result (wrap "server identity mismatch for %s"
             (VerifyResponse (cl_serverPubWire cl) nonce (hr_StatusCode resp) (HashBody body) (hr_Header resp)))) (λ _,
    inl (StatusError (hr_StatusCode resp) body))
  else
    bindR (of_result (SplitSignatureTrailer body)) (λ split,
    match split with
    | None => inl (Failure (errors_New "server identity mismatch for %s: response is missing its in-band signature"))
    | Some (pack, sig) =>
        bindR (of_result (wrap "server identity mismatch for %s"
                 (VerifyResponse (cl_serverPubWire cl) nonce 200 (HashBody pack) sig))) (λ _,
        of_result (pack_objects pack))
    end)).

Definition FetchObjects (cl : Client) (ca : call) (keys : list Key) (w : W) : reply (list Object) * W :=
  match signedRequest cl ca (str "POST") (str "/v1/objects/get") (Keylist.Flatten keys) with
  | Ok (req, nonce) =>
      let '(r, w) := Do req w in
      (bindR (of_result (wrap "contacting remote %s" r)) (receive_pack cl nonce), w)
  | Err e => (inl (Failure e), w)
  | _ => (inl Stuck, w)
  end.

(** ** References ([refs.go]) *)
Definition ErrRefNotFound : string := "reference not found on the remote".

Definition refsPath (name : bytes) : bytes :=
  str "/v1/refs" ++ (if bool_decide (name = []) then [] else str "?name=" ++ QueryEscape name).

Definition remote_PutRef (cl : Client) (ca : call) (name record : bytes) (w : W) : reply unit * W :=
  let '(r, w) := do cl ca (str "PUT") (refsPath name) record w in
  (bindR r (λ _, inr tt), w).

Definition remote_GetRef (cl : Client) (ca : call) (name : bytes) (w : W) : reply bytes * W :=
  let '(r, w) := do cl ca (str "GET") (refsPath name) [] w in
  (match r with
   | inl (StatusError code msg) =>
       if code =? 404 then inl (Failure (Errorf "reference %q" (errors_New ErrRefNotFound))) else inl (StatusError code msg)
   | inl e => inl e
   | inr (_, body) => inr body
   end, w).
End remoteclient.

(** ** The remote client: what it accepts, and how it meets the server

    Whatever is at the other end of the connection, a client takes only what the
    pinned server key signed for the very request; and against the server of
    [Routes.v] its calls return what the server's store holds. *)

(** ** Authenticity *)
Section authentic.
Context `{Blake3} `{Zstd} `{SshSig} `{SshKeys} `{HttpCbor} `{NetUrl} `{!HttpCborLaws}.

(** The signatures of the key [pk] on HTTP payloads are those of the responses
    [said]: nobody else has the key. *)
Definition only_signs (pk : bytes) (said : responsePayload → Prop) : Prop :=
  ∀ payload blob, signed_by pk payload blob Namespace → ∃ p, said p ∧ is_int (sp_Status p) ∧ marshal_response p = Ok payload.

Lemma VerifyResponse_said pk said nonce status hash sig : only_signs pk said → is_int status →
  VerifyResponse pk nonce status hash sig = Ok tt → said (mkResponsePayload nonce status hash).
Proof.
  intros Ho Hst (_ & blob & payload & _ & Hm & (p & Hp & Hi & Hm')%Ho)%VerifyResponse_Ok. by rewrite (marshal_response_inj (mkResponsePayload nonce status hash) p payload Hst Hi Hm Hm').
Qed.

(** The answer of a call, a status error included, is one the server gave to the
    request with this nonce. *)
Definition authentic (said : responsePayload → Prop) (nonce : bytes) (r : reply (Z * bytes)) : Prop :=
  match r with
  | inr (status, body) => 200 <= status <= 299 ∧ said (mkResponsePayload nonce status (HashBody body))
  | inl (StatusError status body) => said (mkResponsePayload nonce status (HashBody body))
  | inl _ => True
  end.

Lemma receive_authentic cl said nonce resp : only_signs (cl_serverPubWire cl) said → is_int (hr_StatusCode resp) → authentic said nonce (receive cl nonce resp).
Proof.
  intros Ho Hst. unfold receive. destruct (read_limited _ _) as [body| | |]; try done. cbn [wrap of_result bindR]. cbv zeta.
  destruct (VerifyResponse _ _ _ _ _) as [[]| | |] eqn:Hv; try done. apply (VerifyResponse_said _ said) in Hv; [|done..]. cbn [wrap of_result bindR].
  destruct (_ || _) eqn:E; [done|]. split; [lia|done].
Qed.

Context {W : Type} (Do : Request → W → result HttpResponse * W).
Context (HDo : ∀ req w resp w', Do req w = (Ok resp, w') → is_int (hr_StatusCode resp)).

Lemma send_signed_authentic cl said mk w nonce : only_signs (cl_serverPubWire cl) said →
  (∀ req n, mk = Ok (req, n) → n = nonce) → authentic said nonce (fst (send_signed Do cl mk w)).
Proof.
  intros Ho Hn. unfold send_signed. destruct mk as [[req n]| | |]; try done. rewrite (Hn req n eq_refl). unfold send.
  destruct (Do req w) as [[resp| | |] w'] eqn:Hdo; try done. apply receive_authentic; [done|by eapply HDo].
Qed.

Lemma signedRequest_nonce cl ca method path body nonce req n : ca_nonce ca = Ok nonce →
  signedRequest cl ca method path body = Ok (req, n) → n = nonce.
Proof.
  intros Hn (r0 & _ & (n' & Hn' & (r1 & _ & [= _ <-])%bind_Ok)%bind_Ok)%bind_Ok. unfold newNonce in Hn'. rewrite Hn in Hn'. by injection Hn'.
Qed.

(** C19. The client believes only the pinned server: whatever the connection
    delivers, the status and body a call returns (success or status error) are
    those of a response that the server signed for the nonce of this call, and
    fetched objects are exactly those of a pack it signed for it, each with a
    valid key.  So answers cannot be forged, altered or replayed. *)
Theorem remote_authentic cl ca said nonce w :
  only_signs (cl_serverPubWire cl) said → ca_nonce ca = Ok nonce →
  (∀ method path body, authentic said nonce (fst (do Do cl ca method path body w))) ∧
  (∀ method path hash body, authentic said nonce (fst (doStreaming Do cl ca method path hash body w))) ∧
  ∀ keys, match fst (FetchObjects Do cl ca keys w) with
          | inr objs => ∃ pack, said (mkResponsePayload nonce 200 (HashBody pack)) ∧ PackStream.All pack = (objs, Ok tt) ∧
                                Forall (λ o, Validate (obj_key o) = Ok tt) objs
          | inl (StatusError status body) => said (mkResponsePayload nonce status (HashBody body))
          | inl _ => True
          end.
Proof.
  intros Ho Hn. split_and!.
  - intros method path body. apply send_signed_authentic; [done|]. intros req n. by apply signedRequest_nonce.
  - intros method path hash body. apply send_signed_authentic; [done|].
    intros req n (r0 & _ & (n' & Hn' & (r1 & _ & [= _ <-])%bind_Ok)%bind_Ok)%bind_Ok. unfold newNonce in Hn'. rewrite Hn in Hn'. by injection Hn'.
  - intros keys. unfold FetchObjects. destruct (signedRequest _ _ _ _ _) as [[req n]| | |] eqn:Hs; try done.
    apply (signedRequest_nonce _ _ _ _ _ nonce) in Hs as ->; [|done]. destruct (Do req w) as [[resp| | |] w'] eqn:Hdo; try done.
    apply HDo in Hdo. cbn [wrap of_result bindR fst]. unfold receive_pack. destruct (read_limited _ _) as [body| | |]; try done.
    cbn [wrap of_result bindR]. destruct (negb _) eqn:Est.
    + destruct (VerifyResponse _ _ _ _ _) as [[]| | |] eqn:Hv; try done. by apply (VerifyResponse_said _ said) in Hv.
    + destruct (SplitSignatureTrailer body) as [[[pack sig]|]| | |]; try done. cbn [of_result bindR].
      destruct (VerifyResponse _ _ _ _ _) as [[]| | |] eqn:Hv; try done. apply (VerifyResponse_said _ said) in Hv; [|done..].
      cbn [wrap of_result bindR]. unfold pack_objects. destruct (PackStream.All pack) as [objs [[]| | |]] eqn:Ha; try done. exists pack.
      pose proof (All_total pack) as [Hall _]. by rewrite Ha in Hall.
Qed.
End authentic.

(** ** The client and the server *)
Section served.
Context `{Blake3} `{Fuse} `{Zstd} `{Cbor} `{RefCbor} `{Pebble} `{SshSig} `{SshKeys} `{HttpCbor} `{GrantCbor} `{MetaCbor} `{NetUrl}.
Context `{!SshSigLaws} `{ItemInv}.
Context (render : error → bytes).

Definition http_of (resp : Response) : HttpResponse :=
  mkHttp (rs_Status resp) (default [] (rs_Signature resp)) [] (rs_Body resp) None.

(** A connection to the server, for the requests that its mux gives to [e]. *)
Definition server_Do (cx : context) (e : endpoint) (r : Request) (w : handler * Inbox) : result HttpResponse * (handler * Inbox) :=
  let '(resp, h, ib) := serve render cx e r (fst w) (snd w) in (Ok (http_of resp), (h, ib)).

(** A client of a server that it knows and that knows it, at a call: the key is
    pinned, the signer is listed with the capability, the clocks are close, the
    nonce is new, and both can sign. *)
Definition signs (k : Signer) : Prop := ∀ payload, ∃ blob, SignNamespace k payload Namespace = Ok blob ∧ blob ≠ [].

Record session (cl : Client) (ca : call) (cx : context) (h : handler) (need : string) (nonce : bytes) (pub : PublicKey) (ent : Entry) :
    Prop := mkSession {
  ss_pin : cl_serverPubWire cl = identityWire h;
  ss_signer : signs (cl_signer cl);
  ss_server : signs (h_identity h);
  ss_requests p : is_ok (marshal_request p) = true;
  ss_responses p : is_ok (marshal_response p) = true;
  ss_nonce : ca_nonce ca = Ok nonce ∧ nonce ≠ [];
  ss_time : - 2 ^ 63 <= ca_now ca < 2 ^ 63 ∧ - h_window h <= sat64 (wall (cx_now cx) - ca_now ca) <= h_window h;
  ss_key : signer_PublicKey (cl_signer cl) ≠ [] ∧ ParsePublicKey (signer_PublicKey (cl_signer cl)) = Ok pub;
  ss_listed : Lookup (cx_allow cx) (pk_Marshal pub) = Some ent ∧ Allows ent need = true;
  ss_fresh : fst (SeenBefore (FingerprintSHA256 pub) nonce (cx_now cx) (h_nonces h)) = false;
  ss_read : cx_readErr cx = None;
}.

Lemma b64_nonempty b : b ≠ [] → b64_EncodeToString b ≠ [].
Proof. by destruct b as [|x [|y [|z b]]]. Qed.

Lemma SignResponse_signs k nonce status hash : signs k → is_ok (marshal_response (mkResponsePayload nonce status hash)) = true →
  ∃ sig, SignResponse k nonce status hash = Ok sig ∧ VerifyResponse (signer_PublicKey k) nonce status hash sig = Ok tt.
Proof.
  intros Hk Hm. destruct (marshal_response _) as [payload| | |] eqn:Hp; try done. destruct (Hk payload) as (blob & Hb & Hne).
  exists (b64_EncodeToString blob). unfold SignResponse. rewrite Hp. cbn. rewrite Hb. split; [done|].
  apply VerifyResponse_Ok. split; [by apply b64_nonempty|]. exists blob, payload. split_and!; [apply b64_Decode_Encode|done|].
  by apply (VerifyNamespace_Ok payload blob _ _ (signer_PublicKey k)), Verify_Sign.
Qed.

(** The signed request passes the middleware. *)
Lemma signed_served cl ca cx h need nonce pub ent next method path body u : session cl ca cx h need nonce pub ent →
  url_Parse (cl_base cl ++ path) = Ok u → zlen body <= h_maxBody h →
  ∃ req c, signedRequest cl ca method path body = Ok (req, nonce) ∧
    auth render need next (cx_readErr cx) (cx_allow cx) (cx_allow' cx) (cx_now cx) req h =
    next (mkAuthed (pk_Marshal pub) ent nonce body) (set_nonces c h).
Proof.
  intros Hs Hu Hl. destruct (ss_nonce _ _ _ _ _ _ _ _ Hs) as [Hn Hnn]. destruct (ss_time _ _ _ _ _ _ _ _ Hs) as [Hts Hw].
  destruct (ss_key _ _ _ _ _ _ _ _ Hs) as [Hpk Hpub]. destruct (ss_listed _ _ _ _ _ _ _ _ Hs) as [Hent Hal].
  unfold signedRequest, NewRequest, newNonce. rewrite Hu, Hn. cbn [mbind result_bind wrap].
  set (req0 := mkRequest _ _ _ _ _ _ _ _).
  destruct (SignRequest req0 (cl_signer cl) (cl_serverPubWire cl) (ca_now ca) nonce) as [req| | |] eqn:Hsr.
  2-4: exfalso; revert Hsr; unfold SignRequest, SignRequestHash, requestSigPayload; match goal with |- context [marshal_request ?p] =>
    pose proof (ss_requests _ _ _ _ _ _ _ _ Hs p); destruct (marshal_request p) as [pl| | |] eqn:Hm; try done end;
    cbn; destruct (ss_signer _ _ _ _ _ _ _ _ Hs pl) as (? & -> & _); done.
  eexists _, (snd (SeenBefore (FingerprintSHA256 pub) nonce (cx_now cx) (h_nonces h))). split; [done|].
  pose proof Hsr as (pl & _ & (blob & Hb & Hreq)%bind_Ok)%bind_Ok.
  assert (rq_Signature req ≠ []) as Hsig.
  { injection Hreq as <-. cbn. destruct (ss_signer _ _ _ _ _ _ _ _ Hs pl) as (blob' & Hb' & Hne). rewrite Hb in Hb'.
    injection Hb' as ->. by apply b64_nonempty. }
  pose proof (Verify_signed _ _ _ _ _ _ (cx_now cx) (h_window h) pub Hts Hnn Hpk Hpub Hw Hsr Hsig) as Hv.
  unfold auth. rewrite (ss_read _ _ _ _ _ _ _ _ Hs).
  assert (∀ r, rq_Body (attachGrant ca r) = rq_Body r ∧ ∀ a b n w, VerifyRequestHash (attachGrant ca r) a b n w = VerifyRequestHash r a b n w)
    as Hatt by (intros r; unfold attachGrant; by repeat case_match).
  assert (rq_Body req = body) as Hbody by (by injection Hreq as <-).
  rewrite (proj1 (Hatt req)), Hbody. rewrite take_ge by lia. replace (zlen body >? h_maxBody h) with false by lia.
  unfold check_request. rewrite (proj2 (Hatt req)), <- (ss_pin _ _ _ _ _ _ _ _ Hs).
  unfold VerifyRequest in Hv. change (rq_Body req0) with body in Hv. rewrite Hv. unfold authorize. rewrite Hent. cbn beta iota.
  pose proof (ss_fresh _ _ _ _ _ _ _ _ Hs) as Hf. destruct (SeenBefore _ _ _ _) as [seen c]. cbn in Hf. subst seen. rewrite Hal. done.
Qed.

(** A signed response with a status of success is received whole. *)
Lemma receive_signed cl h nonce status ct body : cl_serverPubWire cl = identityWire h → signs (h_identity h) →
  (∀ p, is_ok (marshal_response p) = true) → 200 <= status <= 299 → zlen body < maxResponse →
  receive cl nonce (http_of (signAndWrite render h nonce status ct body)) = inr (status, body).
Proof.
  intros Hpin Hsg Hm Hst Hl. destruct (SignResponse_signs (h_identity h) nonce status (HashBody body) Hsg (Hm _)) as (sig & Hs & Hv).
  unfold signAndWrite. rewrite Hs. unfold receive, http_of, read_limited. cbn [rs_Status rs_Signature rs_Body from_option id hr_Body hr_ReadErr].
  replace (zlen body <? maxResponse) with true by lia. cbn [wrap of_result bindR hr_Header hr_Trailer hr_StatusCode].
  assert (sig ≠ []) as Hne by (by intros ->). rewrite bool_decide_eq_false_2 by done. rewrite Hpin. unfold identityWire. rewrite Hv. cbn [wrap of_result bindR].
  replace ((status <? 200) || (status >? 299)) with false by lia. done.
Qed.

Context (cx : context) (cl : Client) (ca : call) (h : handler) (ib : Inbox) (c : gmap Key bytes).
Context (nonce : bytes) (pub : PublicKey) (ent : Entry) (Hss : session cl ca cx h CapRead nonce pub ent).
Context (Hurl : ∀ path, is_ok (url_Parse (cl_base cl ++ path)) = true).
Context (Hstore : contents (h_store h) c) (Hopen : closed (h_store h) = false).
Context (pick : list error → error) (procs : nat) (Hprocs : (1 ≤ procs)%nat) (Hmissing : cx_missing cx = Missing pick procs).

Lemma valid_keys keys : Forall (λ k, Validate k = Ok tt) keys → Keylist.Parse (Keylist.Flatten keys) = Ok keys.
Proof. intros Hk. by apply Keylist_Parse_Flatten. Qed.

Lemma Missing_served keys : Forall (λ k, Validate k = Ok tt) keys →
  zlen (Keylist.Flatten keys) <= h_maxBody h → zlen (Keylist.Flatten keys) < maxResponse →
  fst (remote_Missing (server_Do cx PostMissing) cl ca keys (h, ib)) = inr (filter (λ k, c !! k = None) keys).
Proof.
  intros Hv Hmax Hl. unfold remote_Missing, do. pose proof (Hurl (str "/v1/objects/missing")) as Hu.
  destruct (url_Parse (cl_base cl ++ str "/v1/objects/missing")) as [u| | |] eqn:Eu; try done.
  destruct (signed_served cl ca cx h CapRead nonce pub ent (postMissing render (cx_missing cx)) (str "POST") _ (Keylist.Flatten keys) u Hss Eu Hmax)
    as (req & nc & -> & Hauth). unfold send_signed, send, server_Do, serve, route. cbn [fst snd]. rewrite Hauth. unfold postMissing.
  cbn [a_body a_nonce]. rewrite valid_keys, Hmissing by done. cbn [h_store set_nonces].
  rewrite (Missing_spec pick procs keys (h_store h) c Hstore Hopen Hprocs). cbn [wrap of_result bindR fst].
  rewrite receive_signed; [|apply Hss..|done|].
  - cbn [bindR fst]. rewrite valid_keys; [done|]. rewrite Forall_forall in *. intros k [_ ?]%list_elem_of_filter. auto.
  - rewrite KeylistFacts.length_Flatten in *. pose proof (length_filter (λ k, c !! k = None) keys). lia.
Qed.

(** ** Fetching *)
Context (Hquiet : quiet (h_store h)).
Context (Hc : ∀ k d, c !! k = Some d → Validate k = Ok tt ∧ zlen d <= MaxPayload).

Definition objects_of (keys : list Key) : list Object := (λ k, mkObject k (default [] (c !! k))) <$> keys.

(** The answer with the objects of [keys] and its signature is not too long. *)
Definition answer_fits (keys : list Key) : Prop :=
  ∀ pack sig, write_pack write_all (objects_of keys) [] = Ok pack →
    SignResponse (h_identity h) nonce StatusOK (Sum256 pack) = Ok sig → zlen (AppendSignatureTrailer pack sig) < maxResponse.

Lemma Add_total w o : zlen (obj_bytes o) <= MaxPayload → ∃ w', Add write_all w o = Ok w'.
Proof.
  intros Hl. rewrite Add_spec. unfold EncodeRecord, payloadFits. replace (zlen (obj_bytes o) <=? MaxPayload) with true by lia. cbn.
  destruct (if zlen (EncodeAll _) <? _ then _ else _) as [payload flags]. by eexists.
Qed.

Lemma stream_objects_spec keys w s : contents s c → closed s = false → quiet s → (∀ k, k ∈ keys → k ∈ dom c) →
  ∃ w' s', stream_objects keys w s = (Ok tt, w', s') ∧ foldR (λ o w, Add write_all w o) (objects_of keys) w = Ok w'.
Proof.
  revert w s. induction keys as [|k keys IH]; intros w s Hcs Hcl Hq Hin; [by exists w, s|]. cbn [stream_objects].
  destruct (proj1 (elem_of_dom c k) (Hin k ltac:(left))) as [d Hd]. destruct (Packstore.Get k s) as [r s1] eqn:Hg.
  destruct (Get_answer s c k r s1 Hcs Hcl Hg) as (Hss1 & _ & Hr & _). rewrite (Hr Hq d Hd). cbn [mbind result_bind].
  destruct (Add_total w (mkObject k d)) as [w1 Hw1]; [by eapply Hc|]. rewrite Hw1.
  destruct (IH w1 s1) as (w' & s' & -> & Hf).
  - by eapply same_store_contents.
  - by destruct Hss1 as [l ->].
  - by eapply Get_quiet.
  - intros x Hx. apply Hin. by right.
  - exists w', s'. split; [done|]. unfold objects_of in *. cbn [fmap list_fmap foldR]. rewrite Hd. cbn [from_option id]. by rewrite Hw1.
Qed.

Lemma objects_valid keys : (∀ k, k ∈ keys → k ∈ dom c) → Forall (λ k, Validate k = Ok tt) keys ∧
  Forall (λ o, Validate (obj_key o) = Ok tt) (objects_of keys).
Proof.
  intros Hin. assert (∀ k, k ∈ keys → Validate k = Ok tt) as Hv.
  { intros k [d Hd]%Hin%elem_of_dom. by eapply Hc. }
  split; apply Forall_forall; [done|]. intros o Ho. apply list_elem_of_fmap in Ho as (k & -> & Hk). by apply Hv.
Qed.

Lemma FetchObjects_served keys : (∀ k, k ∈ keys → k ∈ dom c) → zlen (Keylist.Flatten keys) <= h_maxBody h → answer_fits keys →
  fst (FetchObjects (server_Do cx PostObjectsGet) cl ca keys (h, ib)) = inr (objects_of keys).
Proof.
  intros Hin Hmax Hfit. destruct (objects_valid keys Hin) as [Hv Hvo]. unfold FetchObjects.
  pose proof (Hurl (str "/v1/objects/get")) as Hu. destruct (url_Parse (cl_base cl ++ str "/v1/objects/get")) as [u| | |] eqn:Eu; try done.
  destruct (signed_served cl ca cx h CapRead nonce pub ent (postObjectsGet render (cx_missing cx)) (str "POST") _ (Keylist.Flatten keys) u Hss Eu Hmax)
    as (req & nc & -> & Hauth). unfold server_Do, serve, route. cbn [fst snd]. rewrite Hauth. unfold postObjectsGet.
  cbn [a_body a_nonce]. rewrite valid_keys, Hmissing by done. cbn [h_store set_nonces].
  rewrite (Missing_spec pick procs keys (h_store h) c Hstore Hopen Hprocs).
  replace (filter (λ k, c !! k = None) keys) with (@nil Key).
  2:{ symmetry. assert (∀ k, k ∉ filter (λ k, c !! k = None) keys) as Hnil by (intros k [Hk [d Hd]%Hin%elem_of_dom]%list_elem_of_filter; congruence).
      destruct (filter _ keys) as [|k l]; [done|]. destruct (Hnil k). left. }
  cbv zeta. cbn [h_store set_stores].
  destruct (stream_objects_spec keys (NewWriter []) (h_store h) Hstore Hopen Hquiet Hin) as (w & s1 & -> & Hw).
  cbn [mbind result_bind h_identity set_stores set_nonces].
  destruct (PackStream.Close write_all w) as [pack| | |] eqn:Hpack; [|exfalso; revert Hpack; unfold PackStream.Close, ensureHeader; by destruct (wroteHeader w)..].
  assert (write_pack write_all (objects_of keys) [] = Ok pack) as Hwp by (unfold write_pack; by rewrite Hw).
  destruct (SignResponse_signs (h_identity h) nonce StatusOK (Sum256 pack)) as (sig & Hsig & Hver); [apply Hss..|].
  rewrite Hsig. specialize (Hfit pack sig Hwp Hsig). unfold receive_pack, http_of, read_limited.
  cbn [wrap of_result bindR fst rs_Status rs_Signature rs_Body from_option id hr_Body hr_ReadErr hr_StatusCode].
  replace (_ <? maxResponse) with true by lia. cbn [wrap of_result bindR negb Z.eqb StatusOK Pos.eqb].
  rewrite Split_Append.
  2:{ unfold AppendSignatureTrailer in Hfit. rewrite !length_app in Hfit. unfold maxResponse in Hfit. lia. }
  cbn [of_result bindR]. rewrite (ss_pin _ _ _ _ _ _ _ _ Hss). unfold identityWire, HashBody, StatusOK in *. rewrite Hver. cbn [wrap of_result bindR].
  unfold pack_objects. rewrite <- (app_nil_r pack), (All_pack (objects_of keys) pack [] Hvo Hwp). done.
Qed.

(** C21. The client and the server fit together: a listed client with a fresh nonce
    and a clock near the server's gets, through its signed requests and the
    server's signed answers, exactly the keys the server lacks from [Missing] and
    exactly the objects it asked for, in order, from [FetchObjects], as long as
    request and answer are within the size limits. *)
Theorem remote_served keys : zlen (Keylist.Flatten keys) <= h_maxBody h →
  (Forall (λ k, Validate k = Ok tt) keys → zlen (Keylist.Flatten keys) < maxResponse →
   fst (remote_Missing (server_Do cx PostMissing) cl ca keys (h, ib)) = inr (filter (λ k, c !! k = None) keys)) ∧
  ((∀ k, k ∈ keys → k ∈ dom c) → answer_fits keys →
   fst (FetchObjects (server_Do cx PostObjectsGet) cl ca keys (h, ib)) = inr (objects_of keys)).
Proof. intros Hmax. split; [intros; by apply Missing_served|intros; by apply FetchObjects_served]. Qed.
End served.

(** ** Applications *)
Section examples.
#[local] Existing Instance fuse_example.
#[local] Existing Instance zstd_example.
#[local] Existing Instance blake3_example.
#[local] Existing Instance cbor_example.
#[local] Existing Instance refcbor_example.
#[local] Existing Instance pebble_example.
#[local] Existing Instance sshkeys_example.
#[local] Existing Instance httpcbor_example.
#[local] Existing Instance httpcbor_example_laws.
#[local] Existing Instance grantcbor_example.
#[local] Existing Instance Routes.metacbor_none.
#[local] Existing Instance PackstoreSpec.inv_example.

(** Addresses are taken as they are. *)
#[local] Instance url_example : NetUrl := {| url_Parse b := Ok (mkURL "http" [x68] b) |}.
Definition call_example : call := mkCall (Ok [x07]) 1000 None.

Section meeting.
#[local] Existing Instance sshsig_example.
#[local] Existing Instance sshsig_example_laws.

(** The client with the key [02] of the server with the key [05]. *)
Definition remote_example : Client := mkClient (str "http://h") ([x02] : @Signer sshsig_example) [x05].
Definition cx_read : context :=
  mkContext _ _ _ allow_example allow_example (mkTime 1010 0) None [x74] 0 (λ _ s, s) (λ _ s, (Ok tt, s)) (Missing pick_example 4)
    (λ _, []) 1 (λ _, Err (errors_New "no object")).
Definition holder_example : handler := server_New one_example (∅, []) ([x05] : @Signer sshsig_example) 100 1000.

Lemma example_signs (k : @Signer sshsig_example) : signs k.
Proof.
  intros payload. exists (put_sig (k, ns_bytes Namespace, payload)). split; [reflexivity|]. unfold put_sig, put_bytes. cbn [fst snd].
  intros Hn%app_nil%proj1. by destruct k.
Qed.

Lemma session_example : session remote_example call_example cx_read holder_example CapRead [x07] ([x02] : @PublicKey sshkeys_example) FullAccess.
Proof.
  split; try done; try apply example_signs; vm_compute; try split; try reflexivity; try discriminate.
Qed.

Lemma one_payload k d : ({[key_example := payload_example]} : gmap Key bytes) !! k = Some d → Validate k = Ok tt ∧ zlen d <= MaxPayload.
Proof. intros [<- <-]%lookup_singleton_Some. split; vm_compute; [reflexivity|discriminate]. Qed.

Lemma url_ok path : is_ok (url_Parse (cl_base remote_example ++ path)) = true.
Proof. reflexivity. Qed.

Lemma remote_served_witness :
  fst (FetchObjects (server_Do render_example cx_read PostObjectsGet) remote_example call_example [key_example]
         (holder_example, empty_inbox)) = inr [mkObject key_example payload_example].
Proof.
  destruct (remote_served render_example cx_read remote_example call_example holder_example empty_inbox
    {[key_example := payload_example]} [x07] ([x02] : @PublicKey sshkeys_example) FullAccess session_example url_ok one_contents eq_refl pick_example 4
    ltac:(lia) eq_refl ltac:(constructor) one_payload [key_example]) as [_ Hf].
  - vm_compute. discriminate.
  - rewrite Hf; [reflexivity| |].
    + intros k ->%list_elem_of_singleton. rewrite dom_singleton. by apply elem_of_singleton.
    + intros pack sig [= <-] [= <-]. vm_compute. reflexivity.
Defined.
End meeting.

(** A key that signed one response only: an empty answer to the nonce [07]. *)
Definition said_example : responsePayload := mkResponsePayload [x07] 200 (HashBody []).
Definition said_bytes : bytes := match marshal_response said_example with Ok b => b | _ => [] end.
#[local] Instance sshsig_once : SshSig := {|
  Signature := bytes * bytes * bytes;
  sig_PublicKey s := s.1.1;
  sig_HashAlgorithm _ := HashSHA512;
  ParseSignature := get_sig;
  sig_Marshal := put_sig;
  sshsig_Verify p s k _ ns := if bool_decide (s = (k, ns_bytes ns, p) ∧ (k = [x05] → p = said_bytes)) then Ok tt
                              else Err (errors_New "sshsig: bad signature");
  Signer := bytes;
  signer_PublicKey k := k;
  sshsig_Sign p k _ ns := Ok (k, ns_bytes ns, p);
|}.
Definition pinned_example : Client := mkClient (str "http://h") ([x02] : @Signer sshsig_once) [x05].
Definition answer_example (_ : Request) (w : unit) : result HttpResponse * unit :=
  (Ok (mkHttp 200 (b64_EncodeToString (put_sig ([x05], ns_bytes Namespace, said_bytes))) [] [] None), w).

Lemma said_once : only_signs [x05] (λ p, p = said_example).
Proof.
  intros payload blob (sig & _ & Hk & Hv). cbn in Hv. case_bool_decide as Hd; [|done]. destruct Hd as [_ Hd].
  exists said_example. split; [done|]. split; [split; vm_compute; congruence|]. by rewrite (Hd eq_refl).
Qed.

Lemma remote_authentic_witness :
  fst (do answer_example pinned_example call_example (str "POST") (str "/v1/wipe") [] tt) = inr (200, []) ∧
  mkResponsePayload [x07] 200 (HashBody []) = said_example.
Proof.
  assert (fst (do answer_example pinned_example call_example (str "POST") (str "/v1/wipe") [] tt) = inr (200, [])) as Hr
    by (vm_compute; reflexivity).
  destruct (remote_authentic answer_example ltac:(intros ? ? ? ? [= <- <-]; split; vm_compute; congruence) pinned_example call_example
    (λ p, p = said_example) [x07] tt said_once eq_refl) as (Hd & _ & _).
  specialize (Hd (str "POST") (str "/v1/wipe") []). rewrite Hr in Hd. split; [exact Hr|]. apply Hd.
Defined.
End examples.
