(* ===== verification/SyncLive.v ===== *)
(** * A pull from an honest server succeeds ([pull.go])

    What a pull needs of the remote client is the class [Serves]: it delivers the
    objects that are asked for.  Against any client that keeps this promise, and a
    local disk that does not fail, every execution of [Pull] that ends is a success,
    and there is one that ends. *)

From Stdlib Require Import Init.Byte.
From S2P Require Import Prelude Machine Key Chunkers FsEncode Instances FsTree FsRead FsWalk PackRecord PackStream Footer FooterFacts Packstore PackstoreRep PackstoreFacts PackstoreQuery Compact PackstoreSpec Parallel Inbox InboxProtocol InboxSpec Text Sshsign Reference Refstore Gc GcProtocol GcFacts GcSpec Auth AuthFacts Server ServerFacts ServerSpec Routes Sync Remote.
From Stdlib Require Import ZifyBool ZifyNat.
Local Open Scope Z_scope.

(** The client delivers the objects of [remote], for the requests that fit into an
    answer. *)
Class Serves (remote : gmap Key bytes) (fits : list Key → Prop) (fetch : list Key → result (list Object)) : Prop :=
  serves batch : fits batch → (∀ k, k ∈ batch → k ∈ dom remote) →
    ∃ objs, fetch batch = Ok objs ∧ obj_key <$> objs = batch ∧ ∀ o, o ∈ objs → remote !! obj_key o = Some (obj_bytes o).

Section live.
Context `{Blake3} `{Fuse} `{Zstd} `{Cbor}.
#[local] Existing Instance InboxProtocol.verified_inv.

Context (procs : nat) (Hprocs : (0 < procs)%nat) (Hfuse : fuse_builds).
Context (remote : gmap Key bytes) (fits : list Key → Prop) (fetch : list Key → result (list Object)) `{!Serves remote fits fetch}.

Definition verified_object (o : Object) : Prop :=
  Validate (obj_key o) = Ok tt ∧ verifyObject (obj_key o) (obj_bytes o) = Ok tt ∧ zlen (obj_bytes o) <= MaxPayload.
(** The server holds objects that can be stored. *)
Context (Hremote : ∀ k d, remote !! k = Some d → verified_object (mkObject k d)).

(** No two payloads share a key. *)
Definition agrees (k : Key) (d : bytes) : Prop := ∀ d', remote !! k = Some d' → d = d'.

Record good (s : Store) (c : gmap Key bytes) : Prop := mkGood {
  good_contents : contents s c;
  good_open : closed s = false;
  good_quiet : quiet s;
  good_failed : failed s = None;
  good_agrees k d : c !! k = Some d → agrees k d;
}.

(** Other writers write storable objects. *)
Definition polite (sched : list event) : Prop :=
  ∀ o, Other o ∈ sched → verified_object o ∧ agrees (obj_key o) (obj_bytes o).

Definition honest_order (order : nat → list (list Key) → list (list Key * list event)) : Prop :=
  ∀ n bs, fst <$> order n bs ≡ₚ bs ∧ ∀ batch sched, (batch, sched) ∈ order n bs → polite sched.

(** ** Fetching *)
Lemma remote_storable objs o : (∀ o, o ∈ objs → remote !! obj_key o = Some (obj_bytes o)) →
  (inl o : Object + error) ∈ ((inl <$> objs) : list (Object + error)) → verified_object o ∧ o ∈ objs.
Proof.
  intros Hobjs Hin. apply list_elem_of_fmap in Hin as (o' & [= <-] & Hin). split; [|done].
  specialize (Hremote _ _ (Hobjs _ Hin)). by destruct o.
Qed.

Lemma verified_encodes o : verified_object o → is_ok (encode_object true o) = true.
Proof.
  intros (_ & Hv & Hl). unfold encode_object. rewrite Hv. cbn. unfold EncodeRecord, payloadFits.
  replace (zlen (obj_bytes o) <=? MaxPayload) with true by lia. cbn. by destruct (zlen _ <? zlen _).
Qed.

(** What a step of the pull does to a good store: it ends well with the keys [new]
    stored, unless the events given are not a whole run. *)
Definition advances {A} (new : Key → Prop) (c : gmap Key bytes) (x : result A * Store) : Prop :=
  fst x = Diverge ∨ ∃ a c', fst x = Ok a ∧ good (snd x) c' ∧ dom c ⊆ dom c' ∧ ∀ k, new k → k ∈ dom c'.

Lemma fetch_batch_live batch sched st s c : good s c → polite sched → fits batch → (∀ k, k ∈ batch → k ∈ dom remote) →
  advances (λ k, k ∈ batch) c (fetch_batch procs fetch batch sched st s).
Proof.
  intros Hg Hp Hfit Hb. destruct (serves batch Hfit Hb) as (objs & Hf & Hk & Hobjs).
  unfold advances, fetch_batch, bindM, liftM. rewrite Hf. cbn beta iota. set (opts := mkWriteOpts 0 0 true).
  pose proof (WriteParallel_spec procs sched (inl <$> objs) opts s c (good_contents _ _ Hg) (good_open _ _ Hg) Hprocs) as Hw.
  destruct (WriteParallel _ _ _ _ _) as [x s1]. destruct Hw as [->|(stats & err & c' & -> & Hcs' & Hc' & Hd & Hsrc & Hall & Hok)].
  - intros o Ho. destruct (remote_storable objs o Hobjs Ho) as [(? & ? & ?) _]. split; [done|]. intros Hv. by apply Hv.
  - intros o Ho. destruct (Hp o Ho) as [(? & ? & ?) _]. by split.
  - by left.
  - destruct Hok as (-> & Hq' & Hf').
    + split; [split; [exact Hfuse|]|intros o Ho; by destruct (Hp o Ho) as [(? & ? & ?) _]].
      intros [o|e] Hin; [|by apply list_elem_of_fmap in Hin as (? & [=] & _)].
      destruct (remote_storable objs o Hobjs Hin) as [Hvo _]. split; [by apply verified_encodes|apply Hvo].
    + apply Hg.
    + apply Hg.
    + right. cbn [fst snd]. eexists _, c'. split; [reflexivity|]. split_and!; [|done|].
      * split; try done. intros k d Hkd. destruct (Hsrc k d Hkd) as [Hx|[[Hx _]|Hx]].
        -- by apply Hg.
        -- destruct (remote_storable objs _ Hobjs Hx) as [_ Hx']. intros d' Hd'. specialize (Hobjs _ Hx'). cbn in Hobjs. congruence.
        -- by apply (Hp _ Hx).
      * intros k Hkb. destruct (Hall eq_refl) as (objs' & Heq & Hin & _). apply list_fmap_eq_inj in Heq; [subst objs'|by intros ?? [=]].
        rewrite <- Hk in Hkb. apply list_elem_of_fmap in Hkb as (o & -> & Ho). by apply Hin.
Qed.

Lemma run_batches_live runs st s c : good s c → (∀ batch sched, (batch, sched) ∈ runs → polite sched) →
  (∀ batch, batch ∈ fst <$> runs → fits batch ∧ ∀ k, k ∈ batch → k ∈ dom remote) →
  advances (λ k, k ∈ concat (fst <$> runs)) c (run_batches procs fetch runs st s).
Proof.
  revert st s c. induction runs as [|[batch sched] runs IH]; intros st s c Hg Hp Hb.
  { right. exists st, c. split_and!; try done. by intros k ?%elem_of_nil. }
  cbn [run_batches]. unfold bindM. destruct (Hb batch ltac:(left)) as [Hfit Hin].
  pose proof (fetch_batch_live batch sched st s c Hg (Hp batch sched ltac:(left)) Hfit Hin) as Hf.
  destruct (fetch_batch _ _ _ _ _ s) as [r s1]. destruct Hf as [Hf|(st1 & c1 & Hf & Hg1 & Hd1 & Hk1)]; cbn [fst snd] in *; subst r.
  { by left. }
  destruct (IH st1 s1 c1) as [Hr|(st2 & c2 & Hr & Hg2 & Hd2 & Hk2)]; [done| | |by left|right].
  - intros b sc Hx. apply (Hp b sc). by right.
  - intros b Hx. apply Hb. by right.
  - exists st2, c2. split_and!; [done|done|set_solver|]. intros k. cbn. intros [?|?]%elem_of_app; [|auto]. apply Hd2, Hk1. done.
Qed.

Context (opts : SyncOpts).
Context (Hfits : ∀ keys batch, (∀ k, k ∈ keys → k ∈ dom remote) → batch ∈ Batches (batchBytes opts) PullSizer keys → fits batch).

Lemma Batches_concat target size keys : concat (Batches target size keys) = keys.
Proof. by destruct (batches_from_keys target size keys (mkBatcher [] 0)) as [Hc _]. Qed.

Lemma batches_served keys : (∀ k, k ∈ keys → k ∈ dom remote) →
  ∀ batch, batch ∈ Batches (batchBytes opts) PullSizer keys → fits batch ∧ ∀ k, k ∈ batch → k ∈ dom remote.
Proof.
  intros Hk batch Hb. split; [by eapply Hfits|]. intros k Hkb. apply Hk. rewrite <- (Batches_concat (batchBytes opts) PullSizer keys).
  apply list_elem_of_In, in_concat. exists batch. by rewrite <- !list_elem_of_In.
Qed.

Lemma fetchAll_live order n keys st s c : honest_order order → good s c → (∀ k, k ∈ keys → k ∈ dom remote) →
  advances (λ k, k ∈ keys) c (fetchAll procs fetch (order n) keys opts st s).
Proof.
  intros Horder Hg Hk. unfold fetchAll. set (bs := Batches (batchBytes opts) PullSizer keys). destruct (Horder n bs) as [Hperm Hp].
  destruct (run_batches_live (order n bs) st s c Hg Hp) as [?|(st' & c' & ? & ? & ? & Hin)]; [|by left|right].
  - intros batch Hb. rewrite Hperm in Hb. by apply (batches_served keys Hk).
  - exists st', c'. split_and!; try done. intros k Hkk. apply Hin. rewrite Hperm. unfold bs. by rewrite Batches_concat.
Qed.

(** ** The local walk *)
Context (root : Key) (Hroot : complete remote root).

Lemma closure_remote k : closure remote root k → k ∈ dom remote ∧ (is_leaf k = false → ∃ d cs, remote !! k = Some d ∧ ChildKeys k d = Ok cs).
Proof.
  intros Hk%Hroot. unfold present in Hk. destruct (is_leaf k).
  - injection Hk as Hk%bool_decide_eq_true. split; [by apply elem_of_dom|done].
  - destruct Hk as (d & cs & Hd%cget_Ok & Hcs). split; [apply elem_of_dom; eauto|eauto].
Qed.

Lemma Get_good k s c r s' : good s c → Packstore.Get k s = (r, s') → good s' c.
Proof.
  intros Hg Hget. destruct (Get_answer s c k r s' (good_contents _ _ Hg) (good_open _ _ Hg) Hget) as (Hss & _).
  pose proof (Get_quiet k s s' r Hget (good_quiet _ _ Hg)) as Hq. destruct Hg. split; try done; [by eapply same_store_contents|..];
    by destruct Hss as [l ->].
Qed.

Lemma missing_level_live frontier seen missing next s c : good s c → (∀ k, k ∈ frontier → closure remote root k) →
  ∃ seen' missing' next' s', missing_level frontier seen missing next s = (Ok (seen', missing ++ missing', next ++ next'), s') ∧
    good s' c ∧ (seen' = seen ∧ next' = [] ∨ ∃ k, k ∈ frontier ∧ k ∈ seen' ∧ k ∉ seen) ∧ seen ⊆ seen' ∧
    ∀ k, k ∈ missing' ∨ k ∈ next' → closure remote root k.
Proof.
  intros Hg. revert seen missing next s Hg. induction frontier as [|k frontier IH]; intros seen missing next s Hg Hfr.
  { exists seen, [], [], s. rewrite !app_nil_r. split_and!; [done|done|by left|done|]. intros k [?%elem_of_nil|?%elem_of_nil]; done. }
  cbn [missing_level]. assert (closure remote root k) as Hk by (apply Hfr; left).
  assert (∀ k, k ∈ frontier → closure remote root k) as Hfr' by (intros; apply Hfr; by right).
  case_bool_decide as Hin.
  { destruct (IH seen missing next s Hg Hfr') as (seen' & m' & n' & s' & -> & ? & Hor & ? & ?).
    exists seen', m', n', s'. split_and!; try done. destruct Hor as [?|(x & ? & ?)]; [by left|right]. exists x. split; [by right|done]. }
  assert (∀ ms ks s1, good s1 c → (∀ x, x ∈ ms ∨ x ∈ ks → closure remote root x) →
    ∃ seen' missing' next' s', missing_level frontier ({[k]} ∪ seen) (missing ++ ms) (next ++ ks) s1 =
      (Ok (seen', missing ++ missing', next ++ next'), s') ∧ good s' c ∧
      (seen' = seen ∧ next' = [] ∨ ∃ x, x ∈ k :: frontier ∧ x ∈ seen' ∧ x ∉ seen) ∧ seen ⊆ seen' ∧
      ∀ x, x ∈ missing' ∨ x ∈ next' → closure remote root x) as Hgo.
  { intros ms ks s1 Hg1 Hcl. destruct (IH ({[k]} ∪ seen) (missing ++ ms) (next ++ ks) s1 Hg1 Hfr') as (seen' & m' & n' & s' & -> & ? & _ & Hsub & Hall).
    exists seen', (ms ++ m'), (ks ++ n'), s'. rewrite !app_assoc. split_and!; [done|done| |set_solver|].
    - right. exists k. split_and!; [left|set_solver|done].
    - intros x. rewrite !elem_of_app. naive_solver. }
  destruct (closure_remote k Hk) as [_ Hnode]. unfold bindM at 1.
  rewrite (Has_contents s c k (good_contents _ _ Hg) (good_open _ _ Hg)). case_bool_decide as Hc; cbn [negb].
  2:{ specialize (Hgo [k] [] s Hg). rewrite app_nil_r in Hgo. apply Hgo. intros x [->%list_elem_of_singleton|?%elem_of_nil]; done. }
  change ((Type_ k =? Blob) || (Type_ k =? XattrSet)) with (is_leaf k). destruct (is_leaf k) eqn:Hl.
  { specialize (Hgo [] [] s Hg). rewrite !app_nil_r in Hgo. apply Hgo. intros x [?%elem_of_nil|?%elem_of_nil]; done. }
  destruct (Hnode eq_refl) as (d & kids & Hd & Hkids). destruct Hc as [d' Hd']. assert (d' = d) as -> by (by eapply Hg).
  unfold bindM at 1. destruct (Packstore.Get k s) as [r s1] eqn:Hget.
  destruct (Get_answer s c k r s1 (good_contents _ _ Hg) (good_open _ _ Hg) Hget) as (Hss & _ & Hr & _).
  rewrite (Hr (good_quiet _ _ Hg) d Hd'). unfold bindM, liftM. cbn beta iota. rewrite Hkids. cbn beta iota.
  specialize (Hgo [] kids s1). rewrite app_nil_r in Hgo. apply Hgo; [by eapply Get_good|].
  intros x [?%elem_of_nil|Hx]; [done|]. eapply rtc_r; [exact Hk|]. split; [done|]. exists d, kids. split; [by apply cget_Ok|done].
Qed.

Lemma missing_loop_live fuel frontier seen missing s c : good s c → (∀ k, k ∈ frontier → closure remote root k) →
  (∀ k, k ∈ missing → closure remote root k) → (size (dom remote ∖ seen) < fuel)%nat →
  ∃ missing' s', missing_loop fuel frontier seen missing s = (Ok missing', s') ∧ good s' c ∧
    ∀ k, k ∈ missing' → closure remote root k.
Proof.
  revert frontier seen missing s. induction fuel as [|fuel IH]; intros frontier seen missing s Hg Hfr Hm Hs; [lia|].
  destruct frontier as [|k frontier]; [by exists missing, s|]. cbn [missing_loop]. unfold bindM.
  destruct (missing_level_live (k :: frontier) seen missing [] s c Hg Hfr) as (seen' & m' & n' & s1 & -> & Hg1 & Hor & Hsub & Hcl).
  cbn [fst snd app]. assert (∀ x, x ∈ missing ++ m' → closure remote root x) as Hm' by (intros x [?|?]%elem_of_app; auto).
  destruct Hor as [[-> ->]|(x & Hx & Hx' & Hnx)]; [destruct fuel; by exists (missing ++ m'), s1|]. apply IH; [done|auto|done|].
  assert (size (dom remote ∖ seen') < size (dom remote ∖ seen))%nat; [|lia]. apply subset_size.
  assert (x ∈ dom remote) by (by apply closure_remote, Hfr). set_solver.
Qed.

Lemma localMissing_live fuel s c : good s c → (size (dom remote) < fuel)%nat →
  ∃ m s', localMissing fuel root s = (Ok m, s') ∧ good s' c ∧ (∀ k, k ∈ m → k ∈ dom remote ∧ k ∉ dom c) ∧
    (m = [] → complete c root).
Proof.
  intros Hg Hf. destruct (missing_loop_live fuel [root] ∅ [] s c Hg) as (m & s' & Hm & Hg' & Hcl).
  - intros k ->%list_elem_of_singleton. apply rtc_refl.
  - by intros k ?%elem_of_nil.
  - by rewrite difference_empty_L.
  - exists m, s'. pose proof (localMissing_spec fuel root s c (good_contents _ _ Hg) (good_open _ _ Hg)) as Hs.
    unfold localMissing in *. rewrite Hm in Hs. destruct Hs as (_ & _ & Hdone & Habs). split_and!; try done.
    + intros k Hk. split; [by apply closure_remote, Hcl|by eapply Habs].
    + intros ->. by apply Hdone.
Qed.

(** ** The loop *)

(** A turn that finds keys missing leaves fewer to fetch. *)
Lemma turn_left (c c1 : gmap Key bytes) (toFetch m : list Key) : dom c ⊆ dom c1 → (∀ k, k ∈ toFetch → k ∈ dom c1) → m ≠ [] →
  (∀ k, k ∈ m → k ∈ dom remote ∧ k ∉ dom c1) →
  (size (dom remote ∖ (dom c1 ∪ list_to_set m)) < size (dom remote ∖ (dom c ∪ list_to_set toFetch)))%nat.
Proof.
  intros Hd Hk Hne Hm. destruct m as [|k m]; [done|]. destruct (Hm k ltac:(left)) as [Hkr Hkc]. apply subset_size. split.
  - intros x. rewrite !elem_of_difference, !elem_of_union, !elem_of_list_to_set. intros [? Hx]. split; [done|]. intros [?|?]; apply Hx; left; auto.
  - intros Hsub. assert (k ∈ dom remote ∖ (dom c ∪ list_to_set toFetch)) as Hx.
    { rewrite elem_of_difference, elem_of_union, elem_of_list_to_set. split; [done|]. intros [?|?]; apply Hkc; auto. }
    apply Hsub in Hx. rewrite elem_of_difference, elem_of_union, elem_of_list_to_set in Hx. destruct Hx as [_ Hx]. apply Hx. right. left.
Qed.
Lemma pull_loop_live order turns fuel toFetch st s c : honest_order order → good s c → (∀ k, k ∈ toFetch → k ∈ dom remote) →
  (size (dom remote) < fuel)%nat → (size (dom remote ∖ (dom c ∪ list_to_set toFetch)) < turns)%nat →
  let '(r, s') := pull_loop turns fuel procs fetch order root opts toFetch st s in
  r = Diverge ∨ ∃ st' c', r = Ok st' ∧ good s' c' ∧ dom c ⊆ dom c' ∧ complete c' root.
Proof.
  intros Horder Hg Hk Hfuel. revert toFetch st s c Hg Hk. induction turns as [|turns IH]; intros toFetch st s c Hg Hk Ht; [lia|].
  cbn [pull_loop]. unfold bindM at 1. set (first := if (0 <? length toFetch)%nat then _ else _).
  assert (advances (λ k, k ∈ toFetch) c (first s)) as Hp.
  { subst first. destruct toFetch as [|k toFetch]; [|by apply fetchAll_live].
    right. exists st, c. split_and!; try done. by intros ? ?%elem_of_nil. }
  destruct (first s) as [r s1]. destruct Hp as [Hp|(st1 & c1 & Hp & Hg1 & Hd1 & Hk1)]; cbn [fst snd] in *; subst r; [by left|].
  unfold bindM. destruct (localMissing_live fuel s1 c1 Hg1 Hfuel) as (m & s2 & -> & Hg2 & Hm & Hdone).
  destruct m as [|k m]; [right; by exists st1, c1; auto|]. cbn [length Nat.eqb].
  specialize (IH (k :: m) st1 s2 c1 Hg2 ltac:(intros x Hx; by apply Hm)).
  destruct (pull_loop _ _ _ _ _ _ _ _ _ s2) as [r s3]. destruct IH as [->|(st' & c' & -> & ? & ? & ?)]; [|by left|right].
  - assert (size (dom remote ∖ (dom c1 ∪ list_to_set (k :: m))) < size (dom remote ∖ (dom c ∪ list_to_set toFetch)))%nat; [|lia].
    by apply turn_left.
  - exists st', c'. split_and!; try done. set_solver.
Qed.

(** ** A run that ends *)
Definition own_only (sched : list event) : Prop := forallb own sched = true.

Lemma own_polite sched : own_only sched → polite sched.
Proof. intros Hs o Ho. unfold own_only in Hs. rewrite forallb_forall in Hs. by specialize (Hs (Other o) ltac:(by apply list_elem_of_In)). Qed.

Lemma fetch_batch_ends batch st s c : good s c → fits batch → (∀ k, k ∈ batch → k ∈ dom remote) →
  ∃ sched, own_only sched ∧ fst (fetch_batch procs fetch batch sched st s) ≠ Diverge.
Proof.
  intros Hg Hfit Hb. destruct (serves batch Hfit Hb) as (objs & Hf & _ & Hobjs). set (wopts := mkWriteOpts 0 0 true).
  destruct (WriteParallel_ends procs [] (inl <$> objs) wopts s c (run_start (writers_of procs wopts) (inl <$> objs) s)
    (good_contents _ _ Hg) (good_open _ _ Hg) Hprocs) as (_ & sched & x & s' & Hown & Hw).
  - intros o Ho. destruct (remote_storable objs o Hobjs Ho) as [(? & ? & ?) _]. split; [done|]. intros Hv. by apply Hv.
  - by intros o ?%elem_of_nil.
  - done.
  - exists sched. split; [exact Hown|]. unfold fetch_batch, bindM, liftM. rewrite Hf. cbn beta iota. cbn [app] in Hw. fold wopts. rewrite Hw.
    by destruct (snd x).
Qed.

Lemma run_batches_ends batches st s c : good s c →
  (∀ batch, batch ∈ batches → fits batch ∧ ∀ k, k ∈ batch → k ∈ dom remote) →
  ∃ runs, fst <$> runs = batches ∧ (∀ b sched, (b, sched) ∈ runs → own_only sched) ∧ fst (run_batches procs fetch runs st s) ≠ Diverge.
Proof.
  revert st s c. induction batches as [|batch batches IH]; intros st s c Hg Hb.
  { exists []. split_and!; [done|by intros ?? ?%elem_of_nil|done]. }
  destruct (Hb batch ltac:(left)) as [Hfit Hin]. destruct (fetch_batch_ends batch st s c Hg Hfit Hin) as (sched & Hown & Hne).
  pose proof (fetch_batch_live batch sched st s c Hg (own_polite _ Hown) Hfit Hin) as Hl.
  destruct (fetch_batch procs fetch batch sched st s) as [r s1] eqn:Hr. destruct Hl as [?|(st1 & c1 & Hok & Hg1 & _)]; [done|].
  cbn [fst snd] in *. subst r. destruct (IH st1 s1 c1 Hg1 ltac:(intros; apply Hb; by right)) as (runs & <- & Hruns & Hne').
  exists ((batch, sched) :: runs). split_and!; [done| |].
  - intros b sc [[= -> ->]|?]%elem_of_cons; [done|by eapply Hruns].
  - cbn [run_batches]. unfold bindM. by rewrite Hr.
Qed.

(** Only the orders of the turns that are left matter. *)
Lemma pull_loop_ext turns fuel (o1 o2 : nat → list (list Key) → list (list Key * list event)) toFetch st s :
  (∀ n bs, (n < turns)%nat → o1 n bs = o2 n bs) →
  pull_loop turns fuel procs fetch o1 root opts toFetch st s = pull_loop turns fuel procs fetch o2 root opts toFetch st s.
Proof.
  revert toFetch st s. induction turns as [|turns IH]; intros toFetch st s Ho; [done|]. cbn [pull_loop]. unfold bindM, fetchAll.
  rewrite Ho by lia. set (first := if (0 <? length toFetch)%nat then _ else _). destruct (first s) as [[st1|e| |] s1]; try done.
  destruct (localMissing fuel root s1) as [[m|e| |] s2]; try done. destruct (length m =? 0)%nat; [done|]. apply IH. intros. apply Ho. lia.
Qed.

(** The order that runs [runs] in turn [turn] on [bs], and is [o] elsewhere. *)
Definition with_runs (turn : nat) (bs : list (list Key)) (runs : list (list Key * list event))
    (o : nat → list (list Key) → list (list Key * list event)) (n : nat) (bs' : list (list Key)) : list (list Key * list event) :=
  if decide (n = turn ∧ bs' = bs) then runs else o n bs'.

Lemma with_runs_honest turn bs runs o : fst <$> runs = bs → (∀ b sched, (b, sched) ∈ runs → own_only sched) →
  honest_order o → honest_order (with_runs turn bs runs o).
Proof.
  intros Hf Hr Ho n bs'. unfold with_runs. case_decide as Hd; [destruct Hd as [-> ->]|apply Ho].
  rewrite Hf. split; [done|]. intros b sc Hin. by apply own_polite, (Hr b).
Qed.

Definition no_events (_ : nat) (bs : list (list Key)) : list (list Key * list event) := (λ b, (b, [])) <$> bs.
Lemma no_events_honest : honest_order no_events.
Proof.
  intros n bs. split.
  - unfold no_events. rewrite <- list_fmap_compose. by rewrite list_fmap_id.
  - intros b sc Hin. apply list_elem_of_fmap in Hin as (? & [= -> ->] & _). by intros o ?%elem_of_nil.
Qed.

Lemma pull_loop_ends turns fuel toFetch st s c : good s c → (∀ k, k ∈ toFetch → k ∈ dom remote) →
  (size (dom remote) < fuel)%nat → (size (dom remote ∖ (dom c ∪ list_to_set toFetch)) < turns)%nat →
  ∃ order', honest_order order' ∧ fst (pull_loop turns fuel procs fetch order' root opts toFetch st s) ≠ Diverge.
Proof.
  intros Hg Hk Hfuel. revert toFetch st s c Hg Hk. induction turns as [|turns IH]; intros toFetch st s c Hg Hk Ht; [lia|].
  set (bs := Batches (batchBytes opts) PullSizer toFetch).
  assert (∀ batch, batch ∈ bs → fits batch ∧ ∀ k, k ∈ batch → k ∈ dom remote) as Hbs by (by apply batches_served).
  destruct (run_batches_ends bs st s c Hg Hbs) as (runs & Hruns & Hown & Hne).
  assert (∀ b sched, (b, sched) ∈ runs → polite sched) as Hpol by (intros b sc Hin; by apply own_polite, (Hown b)).
  destruct (run_batches_live runs st s c Hg Hpol ltac:(by rewrite Hruns)) as [?|(st1 & c1 & Hr & Hg1 & Hd1 & Hk1)]; [done|].
  rewrite Hruns in Hk1. unfold bs in Hk1. rewrite Batches_concat in Hk1.
  destruct (run_batches procs fetch runs st s) as [r s1] eqn:Hrun. cbn [fst snd] in *. subst r.
  destruct (localMissing_live fuel s1 c1 Hg1 Hfuel) as (m & s2 & Hmiss & Hg2 & Hm & _).
  assert (∃ o, honest_order o ∧ (m ≠ [] → fst (pull_loop turns fuel procs fetch o root opts m st1 s2) ≠ Diverge)) as (o & Ho & Hrest).
  { destruct m as [|k m]; [exists no_events; split; [apply no_events_honest|done]|].
    destruct (IH (k :: m) st1 s2 c1 Hg2 ltac:(intros x Hx; by apply Hm)) as (o & ? & ?); [|by exists o].
    pose proof (turn_left c c1 toFetch (k :: m) Hd1 Hk1 ltac:(done) Hm). lia. }
  exists (with_runs turns bs runs o). split; [by apply with_runs_honest|]. cbn [pull_loop]. unfold bindM at 1.
  set (first := if (0 <? length toFetch)%nat then _ else _). assert (first s = (Ok st1, s1)) as ->.
  { subst first. destruct toFetch as [|k toFetch]; cbn [length Nat.ltb Nat.leb].
    - by destruct runs.
    - unfold fetchAll. fold bs. unfold with_runs. by rewrite decide_True. }
  unfold bindM. rewrite Hmiss. destruct m as [|k m]; [done|]. cbn [length Nat.eqb].
  rewrite (pull_loop_ext turns fuel _ o); [by apply Hrest|]. intros n bs' Hn. unfold with_runs. rewrite decide_False; [done|]. lia.
Qed.
(** C18. A pull from an honest server succeeds: when the server has the whole tree,
    lists keys that it has (even if not all of the tree) and delivers what it is asked
    for in batches that it can answer, the answer to every batch that [Batches] makes of
    keys that it has fits the client's limit on responses (hypothesis [Hfits]), and the
    local disk does not fail, then every execution of [Pull] is a success that leaves the
    tree complete in the store, however its batches and writers are scheduled, and there
    is such an execution (those that are not are the lists of events that are not whole
    runs).  [Hfits] is needed: the estimate that [Batches] goes by does not bound an
    answer, and nominal_size_exceeds_response is a batch of an honest server that no
    client can be answered. *)
Theorem Pull_succeeds pick turns fuel reachable_of keys s c :
  good s c → reachable_of root = Ok keys → (∀ k, k ∈ keys → k ∈ dom remote) →
  (size (dom remote) < fuel)%nat → (size (dom remote) < turns)%nat →
  (∀ order, honest_order order →
   let '(r, s') := Pull turns fuel procs reachable_of (Missing pick procs) fetch order root opts s in
   r = Diverge ∨ ∃ st c', r = Ok st ∧ contents s' c' ∧ dom c ⊆ dom c' ∧ complete c' root) ∧
  ∃ order st s', honest_order order ∧
    Pull turns fuel procs reachable_of (Missing pick procs) fetch order root opts s = (Ok st, s').
Proof.
  intros Hg Hkeys Hin Hfuel Hturns. set (toFetch := filter (λ k, c !! k = None) keys).
  assert (∀ o, Pull turns fuel procs reachable_of (Missing pick procs) fetch o root opts s =
    pull_loop turns fuel procs fetch o root opts toFetch (mkPullStats 0 0) s) as Hpull.
  { intros o. unfold Pull, bindM, liftM. rewrite Hkeys. cbn [wrap].
    by rewrite (Missing_spec pick procs keys s c (good_contents _ _ Hg) (good_open _ _ Hg)) by lia. }
  assert (∀ k, k ∈ toFetch → k ∈ dom remote) as Hf by (intros k [_ ?]%list_elem_of_filter; auto).
  assert (size (dom remote ∖ (dom c ∪ list_to_set toFetch)) < turns)%nat as Ht
    by (eapply Nat.le_lt_trans; [apply subseteq_size|exact Hturns]; set_solver).
  split.
  - intros order Horder. rewrite Hpull. pose proof (pull_loop_live order turns fuel toFetch (mkPullStats 0 0) s c Horder Hg Hf Hfuel Ht) as Hl.
    destruct (pull_loop _ _ _ _ _ _ _ _ _ s) as [r s']. destruct Hl as [?|(st & c' & ? & ? & ? & ?)]; [by left|right].
    exists st, c'. split_and!; try done. by eapply good_contents.
  - destruct (pull_loop_ends turns fuel toFetch (mkPullStats 0 0) s c Hg Hf Hfuel Ht) as (o & Ho & Hne). exists o.
    pose proof (pull_loop_live o turns fuel toFetch (mkPullStats 0 0) s c Ho Hg Hf Hfuel Ht) as Hl. rewrite Hpull.
    destruct (pull_loop _ _ _ _ _ _ _ _ _ s) as [r s']. destruct Hl as [?|(st & c' & -> & _)]; [done|]. by exists st, s'.
Qed.
End live.

(** ** The remote client keeps the promise *)
Section client.
Context `{Blake3} `{Fuse} `{Zstd} `{Cbor} `{RefCbor} `{Pebble} `{SshSig} `{SshKeys} `{HttpCbor} `{GrantCbor} `{MetaCbor} `{NetUrl}.
Context `{!SshSigLaws} `{ItemInv}.
Context (render : error → bytes) (cx : context) (cl : Client) (c : gmap Key bytes).
Context (Hurl : ∀ path, is_ok (url_Parse (cl_base cl ++ path)) = true).
Context (pick : list error → error) (procs : nat) (Hprocs : (1 ≤ procs)%nat) (Hmissing : cx_missing cx = Missing pick procs).
Context (Hc : ∀ k d, c !! k = Some d → Validate k = Ok tt ∧ zlen d <= MaxPayload).

(** For each request the call's surroundings and the server it meets. *)
Context (ca : list Key → call) (at_ : list Key → handler * Inbox).
Context (nonce : list Key → bytes) (pub : PublicKey) (ent : Entry).

Definition remote_fetch (batch : list Key) : result (list Object) :=
  to_result (fst (FetchObjects (server_Do render cx PostObjectsGet) cl (ca batch) batch (at_ batch))).

Definition ready (batch : list Key) : Prop :=
  let h := fst (at_ batch) in
  session cl (ca batch) cx h CapRead (nonce batch) pub ent ∧ contents (h_store h) c ∧ closed (h_store h) = false ∧ quiet (h_store h).

Definition within_limits (batch : list Key) : Prop :=
  let h := fst (at_ batch) in zlen (Keylist.Flatten batch) <= h_maxBody h ∧ answer_fits h c (nonce batch) batch.

#[export] Instance client_serves : (∀ batch, ready batch) → Serves c within_limits remote_fetch.
Proof.
  intros Hr batch [Hmax Hfit] Hin. destruct (Hr batch) as (Hss & Hcs & Hop & Hq). exists (objects_of c batch). split_and!.
  - unfold remote_fetch. destruct (at_ batch) as [h ib]. cbn [fst] in *.
    by rewrite (FetchObjects_served render cx cl (ca batch) h ib c (nonce batch) pub ent Hss Hurl Hcs Hop pick procs Hprocs Hmissing Hq Hc).
  - unfold objects_of. rewrite <- list_fmap_compose. apply list_fmap_id.
  - intros o Ho. apply list_elem_of_fmap in Ho as (k & -> & Hk). cbn. destruct (proj1 (elem_of_dom c k) (Hin k Hk)) as [d Hd]. by rewrite Hd.
Qed.
End client.

(** ** Applications *)
Section examples.
#[local] Existing Instance zstd_example.
#[local] Existing Instance blake3_example.
#[local] Existing Instance cbor_example.
#[local] Existing Instance InboxProtocol.verified_inv.

(** A filter that can always be built: it lets everything through. *)
#[local] Instance fuse_open : Fuse.
Proof.
  refine {| NewBinaryFuse _ := Ok (mkFuse 0 1 0 1 1 [0; 0; 0]); Contains _ _ := Ok true |}; try done.
  intros ts f [= <-]. split_and!; try done; vm_compute; repeat split; try discriminate; repeat constructor; discriminate.
Defined.

(** A server with a file of two blobs. *)
Definition tree_example : gmap Key bytes := list_to_map ((λ o, (obj_key o, obj_bytes o)) <$> log_example).
Definition deliver_example (batch : list Key) : result (list Object) :=
  Ok ((λ k, mkObject k (default [] (tree_example !! k))) <$> batch).

#[local] Instance deliver_serves : Serves tree_example (λ _, True) deliver_example.
Proof.
  intros batch _ Hin. eexists. split; [reflexivity|]. split; [rewrite <- list_fmap_compose; apply list_fmap_id|].
  intros o Ho. apply list_elem_of_fmap in Ho as (k & -> & Hk). cbn [obj_key obj_bytes]. destruct (proj1 (elem_of_dom _ k) (Hin k Hk)) as [d Hd]. by rewrite Hd.
Qed.

Lemma tree_objects k d : tree_example !! k = Some d → mkObject k d ∈ log_example.
Proof.
  intros Hkd%elem_of_list_to_map_2. apply list_elem_of_fmap in Hkd as ([k' d'] & [= -> ->] & Hin). done.
Qed.

Lemma tree_keys k : k ∈ obj_key <$> log_example → k ∈ dom tree_example.
Proof.
  intros Hk. apply list_elem_of_fmap in Hk as (o & -> & Ho). unfold tree_example. rewrite dom_list_to_map, elem_of_list_to_set.
  rewrite <- list_fmap_compose. by apply list_elem_of_fmap_2.
Qed.

Lemma tree_verified k d : tree_example !! k = Some d → verified_object (mkObject k d).
Proof.
  intros Hin%tree_objects. assert (Forall verified_object log_example) as Hv.
  { repeat constructor; vm_compute; try reflexivity; discriminate. }
  rewrite Forall_forall in Hv. by apply Hv.
Qed.

Lemma tree_complete : complete tree_example root_example.
Proof.
  intros k Hk. destruct (bfs_from_Ok pick_example (reach_visit (cget tree_example)) (child_of (cget tree_example)) root_example
    (reach_visit_edge (cget tree_example)) 3 (obj_key <$> log_example)) as (_ & _ & Hin & _); [vm_compute; reflexivity|].
  apply Hin in Hk. apply check_visit_present.
  assert (Forall (λ k, is_ok (check_visit (cget tree_example) (chas tree_example) k) = true) (obj_key <$> log_example)) as Hv.
  { repeat constructor; vm_compute; reflexivity. }
  rewrite Forall_forall in Hv. by apply Hv.
Qed.

Lemma good_empty : good tree_example empty_example ∅.
Proof. split; try done; [|constructor]. exists ∅. split; [|done]. split; [|done]. split; [done|]. exists [], []. by split_and!. Qed.

Lemma fuse_open_builds : fuse_builds.
Proof. intros ts. reflexivity. Qed.

Lemma Pull_succeeds_witness : ∃ order st s', honest_order tree_example order ∧
  Pull 4 4 4 (λ _, Ok [root_example]) (Missing pick_example 4) deliver_example order root_example (mkSyncOpts 0 0 0) empty_example = (Ok st, s').
Proof.
  apply (Pull_succeeds 4 ltac:(lia) fuse_open_builds tree_example (λ _, True) deliver_example tree_verified (mkSyncOpts 0 0 0)
    ltac:(done) root_example tree_complete pick_example 4 4 (λ _, Ok [root_example]) [root_example] empty_example ∅ good_empty eq_refl).
  - intros k ->%list_elem_of_singleton. apply tree_keys. left.
  - vm_compute. lia.
  - vm_compute. lia.
Defined.
End examples.

(** ** The estimate of node sizes

    A batch is sized by the keys: a node counts as 4096 bytes, whatever its length
    field says.  Here 8192 attribute sets of 64 KiB make one batch, and its answer
    is twice what a client reads of a response. *)
Definition xattr_key : Key := match NewFromHash XattrSet 65536 (replicate 32 x2a) with Ok k => k | _ => to_key [] end.

Example nominal_size_exceeds_response :
  Batches DefaultBatchBytes PullSizer (replicate (Z.to_nat maxBatchKeys) xattr_key) = [replicate (Z.to_nat maxBatchKeys) xattr_key] ∧
  maxBatchKeys * Length xattr_key = 2 * maxResponse.
Proof. split; vm_compute; reflexivity. Qed.
