(* ===== verification/Path.v ===== *)
(** * Paths ([path], [path/filepath] and [strings] on Unix)

    A path is a byte string; its components are what the slashes separate. *)

From Stdlib Require Import Init.Byte.
From S2P Require Import Prelude Machine FsRead.
Local Open Scope Z_scope.

Definition slash : byte := x2f.
Definition dot : bytes := [x2e].
Definition dotdot : bytes := [x2e; x2e].

(** [strings.Join(comps, "/")] *)
Fixpoint join_slash (comps : list bytes) : bytes :=
  match comps with
  | [] => []
  | [c] => c
  | c :: comps => c ++ slash :: join_slash comps
  end.

(** One component of [Clean]: [stack] holds the result so far, last first. *)
Definition clean_comp (rooted : bool) (stack : list bytes) (comp : bytes) : list bytes :=
  if comp_skip comp then stack else
  if comp_dotdot comp then
    match stack with
    | top :: rest => if comp_dotdot top then dotdot :: stack else rest
    | [] => if rooted then [] else [dotdot]
    end
  else comp :: stack.

Definition clean_comps (rooted : bool) (path : bytes) : list bytes :=
  rev (foldl (clean_comp rooted) [] (split_slash path)).

Definition is_rooted (path : bytes) : bool := bool_decide (head path = Some slash).

(** [filepath.Clean] *)
Definition Clean (path : bytes) : bytes :=
  let rooted := is_rooted path in
  match clean_comps rooted path with
  | [] => if rooted then [slash] else dot
  | comps => (if rooted then [slash] else []) ++ join_slash comps
  end.

(** [filepath.Join(a, b)] *)
Definition Join (a b : bytes) : bytes :=
  match a, b with
  | [], [] => []
  | [], _ => Clean b
  | _, [] => Clean a
  | _, _ => Clean (a ++ slash :: b)
  end.

(** [strings.HasPrefix] and [strings.TrimPrefix] *)
Definition HasPrefix (s prefix : bytes) : bool := bool_decide (take (length prefix) s = prefix).
Definition TrimPrefix (s prefix : bytes) : bytes := if HasPrefix s prefix then drop (length prefix) s else s.

(** [filepath.Dir]: what comes before the last slash, cleaned. *)
Fixpoint drop_last_comp (r : bytes) : bytes :=
  match r with c :: r' => if bool_decide (c = slash) then r else drop_last_comp r' | [] => [] end.
Definition Dir (path : bytes) : bytes := Clean (rev (drop_last_comp (rev path))).

(** [filepath.IsAbs] *)
Definition IsAbs (path : bytes) : bool := is_rooted path.

(** ** Facts *)

(** A component that names an entry of a directory. *)
Definition plain_name (c : bytes) : Prop := c ≠ [] ∧ c ≠ dot ∧ c ≠ dotdot ∧ slash ∉ c.

Lemma split_slash_no c : slash ∉ c → split_slash c = [c].
Proof.
  induction c as [|x c IH]; intros Hn; [done|]. cbn. rewrite bool_decide_eq_false_2 by (intros ->; set_solver).
  rewrite IH by set_solver. done.
Qed.

Lemma split_slash_cons c p : slash ∉ c → split_slash (c ++ slash :: p) = c :: split_slash p.
Proof.
  induction c as [|x c IH]; intros Hn; [done|]. cbn. rewrite bool_decide_eq_false_2 by (intros ->; set_solver).
  rewrite IH by set_solver. done.
Qed.

Lemma split_join comps : comps ≠ [] → Forall (λ c, slash ∉ c) comps → split_slash (join_slash comps) = comps.
Proof.
  induction comps as [|c comps IH]; [done|]. intros _ Hf. apply Forall_cons in Hf as [Hc Hf]. destruct comps as [|d comps].
  - by apply split_slash_no.
  - change (join_slash (c :: d :: comps)) with (c ++ slash :: join_slash (d :: comps)). by rewrite split_slash_cons, IH.
Qed.

Lemma plain_clean rooted stack c : plain_name c → clean_comp rooted stack c = c :: stack.
Proof.
  intros (H1 & H2 & H3 & _). unfold clean_comp, comp_skip, comp_dotdot. fold dot dotdot. by rewrite !bool_decide_eq_false_2.
Qed.

Lemma plain_cleans rooted comps : ∀ stack, Forall plain_name comps → foldl (clean_comp rooted) stack comps = rev comps ++ stack.
Proof.
  induction comps as [|c comps IH]; intros stack Hf; [done|]. apply Forall_cons in Hf as [Hc Hf]. cbn.
  rewrite plain_clean, IH by done. by rewrite <- app_assoc.
Qed.

Lemma plain_no_slash comps : Forall plain_name comps → Forall (λ c, slash ∉ c) comps.
Proof. intros Hf. eapply Forall_impl; [exact Hf|]. by intros c (_ & _ & _ & ?). Qed.

Lemma plain_head c : plain_name c → is_rooted c = false.
Proof. intros (Hc & _ & _ & Hs). unfold is_rooted. destruct c as [|x c]; [done|]. apply bool_decide_eq_false_2. cbn. intros [= ->]. apply Hs. left. Qed.

Lemma join_head c comps : plain_name c → is_rooted (join_slash (c :: comps)) = false.
Proof.
  intros (Hc & _ & _ & Hs). unfold is_rooted. destruct c as [|x c]; [done|]. apply bool_decide_eq_false_2.
  destruct comps; cbn; intros [= ->]; apply Hs; left.
Qed.

(** The text of a path: absolute or relative, with plain components. *)
Definition path_text (rooted : bool) (comps : list bytes) : bytes :=
  match comps with
  | [] => if rooted then [slash] else dot
  | _ => (if rooted then [slash] else []) ++ join_slash comps
  end.

Lemma split_path_text rooted comps : Forall plain_name comps → comps ≠ [] →
  split_slash (path_text rooted comps) = (if rooted then [[]] else []) ++ comps.
Proof.
  intros Hf Hne. unfold path_text. destruct comps as [|c comps]; [done|]. destruct rooted; cbn [app].
  - cbn [split_slash]. rewrite bool_decide_eq_true_2 by done. rewrite split_join by (done || by apply plain_no_slash). done.
  - by rewrite split_join by (done || by apply plain_no_slash).
Qed.

Lemma path_text_rooted rooted comps : Forall plain_name comps → is_rooted (path_text rooted comps) = rooted.
Proof.
  intros Hf. unfold path_text. destruct comps as [|c comps]; [by destruct rooted|]. apply Forall_cons in Hf as [Hc _].
  destruct rooted; [done|]. by apply join_head.
Qed.

(** Clean paths are unchanged. *)
Lemma Clean_text rooted comps : Forall plain_name comps → Clean (path_text rooted comps) = path_text rooted comps.
Proof.
  intros Hf. unfold Clean. rewrite path_text_rooted by done. destruct comps as [|c comps]; [by destruct rooted|].
  unfold clean_comps. rewrite split_path_text by done. rewrite foldl_app.
  replace (foldl (clean_comp rooted) [] (if rooted then [[]] else [])) with (@nil bytes) by (by destruct rooted).
  rewrite plain_cleans, app_nil_r, rev_involutive by done. done.
Qed.

(** Joining a name to a clean path appends it. *)
Lemma Join_text rooted comps c : Forall plain_name comps → plain_name c →
  Join (path_text rooted comps) c = path_text rooted (comps ++ [c]).
Proof.
  intros Hf Hc. assert (path_text rooted comps ≠ []) as Hne.
  { unfold path_text. destruct comps as [|d comps]; [by destruct rooted|]. apply Forall_cons in Hf as [(Hd & _) _].
    destruct rooted; [done|]. destruct d; [done|]. by destruct comps. }
  assert (Join (path_text rooted comps) c = Clean (path_text rooted comps ++ slash :: c)) as ->.
  { unfold Join. destruct (path_text rooted comps) as [|x p]; [done|]. destruct Hc as (Hc & _). by destruct c. }
  assert (is_rooted (path_text rooted comps ++ slash :: c) = rooted) as Hr.
  { rewrite <- (path_text_rooted rooted comps Hf) at 2. unfold is_rooted. by destruct (path_text rooted comps). }
  unfold Clean, clean_comps. rewrite Hr, split_slash_app.
  assert (split_slash c = [c]) as -> by (apply split_slash_no, Hc).
  assert (foldl (clean_comp rooted) [] (split_slash (path_text rooted comps)) = rev comps) as Hfold.
  { destruct comps as [|d comps]; [by destruct rooted|]. rewrite split_path_text, foldl_app by done.
    replace (foldl (clean_comp rooted) [] (if rooted then [[]] else [])) with (@nil bytes) by (by destruct rooted).
    by rewrite plain_cleans, app_nil_r by done. }
  rewrite foldl_app, Hfold. cbn [foldl]. rewrite plain_clean by done.
  assert (rev (c :: rev comps) = comps ++ [c]) as -> by (cbn; by rewrite rev_involutive).
  destruct (comps ++ [c]) eqn:E; [by destruct comps|]. done.
Qed.

(** [strings.Split(s, sep)] for a separator of one byte. *)
Fixpoint split_on (sep : byte) (s : bytes) : list bytes :=
  match s with
  | [] => [[]]
  | c :: s =>
      if bool_decide (c = sep) then [] :: split_on sep s
      else match split_on sep s with
           | part :: parts => (c :: part) :: parts
           | [] => [[c]]
           end
  end.

Lemma split_on_no sep s : sep ∉ s → split_on sep s = [s].
Proof.
  induction s as [|c s IH]; intros Hn; [done|]. cbn. rewrite bool_decide_eq_false_2 by (intros ->; set_solver).
  rewrite IH by set_solver. done.
Qed.

Lemma split_on_cons sep s t : sep ∉ s → split_on sep (s ++ sep :: t) = s :: split_on sep t.
Proof.
  induction s as [|c s IH]; intros Hn; [cbn; by rewrite bool_decide_eq_true_2|]. cbn.
  rewrite bool_decide_eq_false_2 by (intros ->; set_solver). rewrite IH by set_solver. done.
Qed.
