(* ===== verification/Posix.v ===== *)
(** * The file system as the programs see it

    [OS] has the reading calls of [os] and [golang.org/x/sys/unix] that an ingest
    makes.  [FS] is a concrete file system: a finite map from the components of an
    absolute path to an inode, with symbolic links resolved the way the kernel
    does; [os_of] reads it. *)

From Stdlib Require Import Init.Byte.
From S2P Require Import Prelude Machine FsRead Path.
Local Open Scope Z_scope.

(** ** Errors *)
Definition ErrNotExist : string := "file does not exist".
Definition ErrExist : string := "file already exists".
Definition ENOENT : error := ["no such file or directory"; ErrNotExist]%string.
Definition EEXIST : error := ["file exists"; ErrExist]%string.
Definition ENOTDIR : error := errors_New "not a directory".
Definition EISDIR : error := errors_New "is a directory".
Definition ELOOP : error := errors_New "too many levels of symbolic links".
Definition EINVAL : error := errors_New "invalid argument".
Definition ERANGE : error := errors_New "numerical result out of range".
Definition ENODATA : error := errors_New "no data available".
Definition EPERM_ : string := "operation not permitted".
Definition EACCES_ : string := "permission denied".
(** On Linux ENOTSUP and EOPNOTSUPP are one number. *)
Definition ENOTSUP_ : string := "operation not supported".

(** ** File types *)
Definition S_IFREG : Z := 0x8000.
Definition S_IFLNK : Z := 0xA000.
Definition S_IFCHR : Z := 0x2000.
Definition S_IFBLK : Z := 0x6000.
Definition S_IFIFO : Z := 0x1000.
Definition S_IFSOCK : Z := 0xC000.
Definition fmt (mode : Z) : Z := Z.land mode S_IFMT.
Definition perm (mode : Z) : Z := Z.land mode 0xFFF.

(** [fs.FileInfo] with its [syscall.Stat_t]; the time is in nanoseconds. *)
Record FileInfo := mkFileInfo {
  st_mode : Z; st_uid : Z; st_gid : Z; st_rdev : Z; st_size : Z; st_mtime : Z;
}.

Definition info_IsDir (i : FileInfo) : bool := fmt (st_mode i) =? S_IFDIR.
(** [Mode().IsRegular()]: none of the type bits that [os] derives from [st_mode]. *)
Definition info_IsRegular (i : FileInfo) : bool :=
  negb (existsb (Z.eqb (fmt (st_mode i))) [S_IFDIR; S_IFLNK; S_IFCHR; S_IFBLK; S_IFIFO; S_IFSOCK]).

Record DirEntry := mkDirEntry { de_Name : bytes; de_IsDir : bool }.

(** ** The calls of an ingest.  The xattr calls get the size of the buffer and
    return the size they report and what they wrote. *)
Class OS := {
  os_ReadDir : bytes → result (list DirEntry);
  os_Lstat : bytes → result FileInfo;
  os_Stat : bytes → result FileInfo;
  os_ReadFile : bytes → result bytes;
  os_Readlink : bytes → result bytes;
  Llistxattr : bytes → Z → result (Z * bytes);
  Lgetxattr : bytes → bytes → Z → result (Z * bytes);
}.

(** ** A concrete file system *)
Record inode := mkInode {
  i_mode : Z; i_uid : Z; i_gid : Z; i_mtime : Z; i_rdev : Z;
  i_data : bytes;                    (* content, or the target of a link *)
  i_xattrs : gmap bytes bytes;
}.

Abbreviation FS := (gmap (list bytes) inode).

Definition i_dir (i : inode) : bool := fmt (i_mode i) =? S_IFDIR.
Definition i_link (i : inode) : bool := fmt (i_mode i) =? S_IFLNK.

(** Resolving the components [comps] from the directory [cur].  A path may end in a
    name that does not exist; a link at the end is followed if [follow] is set or
    something comes after it. *)
Fixpoint walk (links : nat) (fs : FS) (follow : bool) (cur comps : list bytes) : result (list bytes) :=
  (fix go (cur comps : list bytes) : result (list bytes) :=
     match comps with
     | [] => Ok cur
     | c :: rest =>
         if comp_skip c then go cur rest else
         if comp_dotdot c then go (removelast cur) rest else
         let p := cur ++ [c] in
         match fs !! p with
         | None => if forallb comp_skip rest then Ok p else Err ENOENT
         | Some i =>
             if i_link i then
               if negb follow && bool_decide (rest = []) then Ok p else
               match links with
               | O => Err ELOOP
               | S links =>
                   walk links fs follow (if is_rooted (i_data i) then [] else cur) (split_slash (i_data i) ++ rest)
               end
             else if i_dir i then go p rest
             else if bool_decide (rest = []) then Ok p else Err ENOTDIR
         end
     end) cur comps.

Definition max_links : nat := 40.

(** A process: its file system and working directory. *)
Definition resolve (fs : FS) (cwd : list bytes) (follow : bool) (path : bytes) : result (list bytes) :=
  match path with
  | [] => Err ENOENT
  | _ => walk max_links fs follow (if is_rooted path then [] else cwd) (split_slash path)
  end.

Definition lookup_path (fs : FS) (cwd : list bytes) (follow : bool) (path : bytes) : result inode :=
  p ← resolve fs cwd follow path;
  match fs !! p with Some i => Ok i | None => Err ENOENT end.

Definition i_info (i : inode) : FileInfo :=
  mkFileInfo (i_mode i) (i_uid i) (i_gid i) (i_rdev i) (zlen (i_data i)) (i_mtime i).

(** The names in a directory, in the order of [os.ReadDir]. *)
Definition child_of (dir p : list bytes) : option bytes :=
  match last p with
  | Some c => if bool_decide (p = dir ++ [c]) then Some c else None
  | None => None
  end.
Definition children (fs : FS) (dir : list bytes) : list bytes :=
  merge_sort bytes_le (omap (child_of dir) (map_to_list fs).*1).

Definition read_dir (fs : FS) (cwd : list bytes) (path : bytes) : result (list DirEntry) :=
  p ← resolve fs cwd true path;
  match fs !! p with
  | None => Err ENOENT
  | Some i =>
      if i_dir i then
        Ok ((λ c, mkDirEntry c (match fs !! (p ++ [c]) with Some j => i_dir j | None => false end)) <$> children fs p)
      else Err ENOTDIR
  end.

Definition read_file (fs : FS) (cwd : list bytes) (path : bytes) : result bytes :=
  i ← lookup_path fs cwd true path; if i_dir i then Err EISDIR else Ok (i_data i).

Definition read_link (fs : FS) (cwd : list bytes) (path : bytes) : result bytes :=
  i ← lookup_path fs cwd false path; if i_link i then Ok (i_data i) else Err EINVAL.

(** What a call that fills a buffer of [size] bytes returns; size 0 asks for the
    length. *)
Definition fill_buffer (data : bytes) (size : Z) : result (Z * bytes) :=
  if size =? 0 then Ok (zlen data, []) else
  if size <? zlen data then Err ERANGE else Ok (zlen data, data).

(** The attribute names, each followed by a zero byte. *)
Definition xattr_list (xs : gmap bytes bytes) : bytes :=
  concat ((λ p, p.1 ++ [x00]) <$> map_to_list xs).

Definition list_xattr (fs : FS) (cwd : list bytes) (path : bytes) (size : Z) : result (Z * bytes) :=
  i ← lookup_path fs cwd false path; fill_buffer (xattr_list (i_xattrs i)) size.

Definition get_xattr (fs : FS) (cwd : list bytes) (path name : bytes) (size : Z) : result (Z * bytes) :=
  i ← lookup_path fs cwd false path;
  match i_xattrs i !! name with Some v => fill_buffer v size | None => Err ENODATA end.

Definition os_of (fs : FS) (cwd : list bytes) : OS := {|
  os_ReadDir := read_dir fs cwd;
  os_Lstat path := i_info <$> lookup_path fs cwd false path;
  os_Stat path := i_info <$> lookup_path fs cwd true path;
  os_ReadFile := read_file fs cwd;
  os_Readlink := read_link fs cwd;
  Llistxattr := list_xattr fs cwd;
  Lgetxattr := get_xattr fs cwd;
|}.
