(* ===== verification/Ignore.v ===== *)
(** * Package [amberignore]: the filter of an ingest

    A matcher belongs to one directory and carries the patterns of the ignore files
    from the root down to it.  The pattern language is go-git's, the class
    [GitIgnore]. *)

From Stdlib Require Import Init.Byte Strings.String.
From S2P Require Import Prelude Machine Auth Path Posix.
Local Open Scope Z_scope.

(** The package [gitignore] of go-git. *)
Class GitIgnore := {
  Pattern : Type;
  GMatcher : Type;
  ParsePattern : bytes → list bytes → Pattern;
  NewMatcher : list Pattern → GMatcher;
  GMatch : GMatcher → list bytes → bool → bool;
}.

Definition FileName : bytes := Eval vm_compute in list_byte_of_string ".amberignore".

Section ignore.
Context `{OS} `{GitIgnore}.

Record Matcher := mkMatcher { rel : list bytes; patterns : list Pattern; gm : GMatcher }.

(** [appendCopy(s, v)] *)
Definition appendCopy (s : list bytes) (v : bytes) : list bytes := s ++ [v].

(** [strings.TrimSuffix(line, "\r")] *)
Definition trim_cr (line : bytes) : bytes :=
  match rev line with c :: r => if bool_decide (c = x0d) then rev r else line | [] => line end.

(** The loop body of [load]: one line of the file. *)
Definition load_line (rel : list bytes) (ps : list Pattern) (line : bytes) : list Pattern :=
  let line := trim_cr line in
  if HasPrefix line [x23] || bool_decide (TrimSpace line = []) then ps
  else ps ++ [ParsePattern line rel].

Definition load (dir : bytes) (rel : list bytes) (parent : option Matcher) : result Matcher :=
  match os_ReadFile (Join dir FileName) with
  | Err e =>
      if bool_decide (errors_Is e ErrNotExist) then
        match parent with
        | Some p => Ok (mkMatcher rel (patterns p) (gm p))
        | None => Ok (mkMatcher [] [] (NewMatcher []))
        end
      else Err e
  | Ok data =>
      let inherited := match parent with Some p => patterns p | None => [] end in
      let ps := foldl (load_line rel) inherited (split_on x0a data) in
      Ok (mkMatcher rel ps (NewMatcher ps))
  | Panic => Panic
  | Diverge => Diverge
  end.

Definition Root (rootDir : bytes) : result Matcher := load rootDir [] None.

(** A nil matcher is [None]. *)
Definition Descend (m : option Matcher) (absDir name : bytes) : result (option Matcher) :=
  match m with
  | None => Ok None
  | Some m => Some <$> load absDir (appendCopy (rel m) name) (Some m)
  end.

Definition Ignored (m : option Matcher) (name : bytes) (isDir : bool) : bool :=
  match m with
  | None => false
  | Some m =>
      if negb isDir && bool_decide (name = FileName) then false
      else GMatch (gm m) (appendCopy (rel m) name) isDir
  end.

(** ** What a matcher stands for *)

(** The lines of an ignore file that are patterns. *)
Definition pattern_lines (data : bytes) : list bytes :=
  filter (λ line, ¬ (HasPrefix line [x23] || bool_decide (TrimSpace line = [])) = true) (trim_cr <$> split_on x0a data).

(** The patterns one directory adds: its path below the root is [rel]. *)
Definition dir_patterns (dir : bytes) (rel : list bytes) : result (list Pattern) :=
  match os_ReadFile (Join dir FileName) with
  | Ok data => Ok ((λ line, ParsePattern line rel) <$> pattern_lines data)
  | Err e => if bool_decide (errors_Is e ErrNotExist) then Ok [] else Err e
  | Panic => Panic
  | Diverge => Diverge
  end.

(** The patterns in force in the directory [names] below [root], outermost first. *)
Fixpoint patterns_at (dir : bytes) (rel names : list bytes) : result (list Pattern) :=
  here ← dir_patterns dir rel;
  match names with
  | [] => Ok here
  | c :: names => below ← patterns_at (Join dir c) (rel ++ [c]) names; Ok (here ++ below)
  end.

(** The matcher that a walk carries to the directory [names] below [dir]. *)
Fixpoint descend_all (m : option Matcher) (dir : bytes) (names : list bytes) : result (option Matcher) :=
  match names with
  | [] => Ok m
  | c :: names => m ← Descend m (Join dir c) c; descend_all m (Join dir c) names
  end.

(** The matcher at the path [rel] with the patterns [ps]. *)
Definition matches (m : Matcher) (path : list bytes) (ps : list Pattern) : Prop :=
  m = mkMatcher path ps (NewMatcher ps).

Lemma load_lines path lines : ∀ ps,
  foldl (load_line path) ps lines =
  ps ++ ((λ line, ParsePattern line path) <$>
    filter (λ line, ¬ (HasPrefix line [x23] || bool_decide (TrimSpace line = [])) = true) (trim_cr <$> lines)).
Proof.
  induction lines as [|line lines IH]; intros ps; [by rewrite app_nil_r|]. cbn [foldl]. rewrite IH. unfold load_line.
  rewrite fmap_cons. destruct (HasPrefix (trim_cr line) [x23] || bool_decide (TrimSpace (trim_cr line) = [])) eqn:E.
  - by rewrite filter_cons_False by (rewrite E; naive_solver).
  - rewrite filter_cons_True by (rewrite E; done). by rewrite <- app_assoc.
Qed.

Lemma load_spec dir path parent pp ps :
  (parent = None → path = [] ∧ ps = []) → (∀ p, parent = Some p → matches p pp ps) →
  load dir path parent = (λ here, mkMatcher path (ps ++ here) (NewMatcher (ps ++ here))) <$> dir_patterns dir path.
Proof.
  intros Hn Hs. unfold load, dir_patterns. destruct (os_ReadFile _) as [data|e| |]; [| |done..].
  - rewrite load_lines. cbn. destruct parent as [p|]; [|by destruct (Hn eq_refl) as [_ ->]].
    by rewrite (Hs p eq_refl).
  - case_bool_decide; [|done]. cbn. rewrite app_nil_r. destruct parent as [p|]; [by rewrite (Hs p eq_refl)|].
    by destruct (Hn eq_refl) as [-> ->].
Qed.

Lemma descend_all_patterns names : ∀ dir path m ps,
  matches m path ps →
  descend_all (Some m) dir names =
  match names with
  | [] => Ok (Some m)
  | c :: names =>
      qs ← patterns_at (Join dir c) (path ++ [c]) names;
      Ok (Some (mkMatcher (path ++ c :: names) (ps ++ qs) (NewMatcher (ps ++ qs))))
  end.
Proof.
  induction names as [|c names IH]; intros dir path m ps Hm; [done|]. cbn [descend_all Descend].
  unfold appendCopy. rewrite Hm. cbn [rel]. rewrite (load_spec _ _ _ path ps) by (done || by intros ? [= <-]).
  destruct names as [|d names]; cbn [patterns_at]; destruct (dir_patterns (Join dir c) (path ++ [c])) as [here| | |];
    try done; rsimpl; rewrite (IH (Join dir c) (path ++ [c]) _ (ps ++ here)) by done.
  destruct (patterns_at _ _ _) as [qs| | |]; [|done..]. rsimpl. by rewrite <- !app_assoc.
Qed.

(** The matcher that a walk carries from the ingest root to the directory [names]
    below it has exactly the patterns of the ignore files on the way, outermost
    first and each anchored at its own directory, whatever files are missing; a file
    that cannot be read is the walk's error. *)
Theorem matcher_patterns dir names :
  (m ← Root dir; descend_all (Some m) dir names) =
  (λ ps, Some (mkMatcher names ps (NewMatcher ps))) <$> patterns_at dir [] names.
Proof.
  unfold Root. rewrite (load_spec dir [] None [] []) by done.
  destruct names as [|c names]; cbn [patterns_at]; destruct (dir_patterns dir []) as [here| | |]; try done. rsimpl.
  rewrite (descend_all_patterns _ dir [] _ here) by done.
  by destruct (patterns_at _ _ names).
Qed.
End ignore.
