(* ===== verification/Ingest.v ===== *)
(** * Command [ingest]: from a file system to objects
    ([cmd/amber-store]: driver.go, ingest.go, scan.go, meta.go, xattr_common.go;
    [chunkers/byte.go])

    The walk reads the file system through [OS], filters with [Matcher] and emits
    objects.  [d_buildDir] is the sequential walk; [pb_buildDir] is the one that
    [ingest] runs, with one goroutine per entry: each entry's objects are a list of
    their own, and [sched] says how the lists of one directory are interleaved. *)

From Stdlib Require Import Init.Byte Strings.String.
From S2P Require Import Prelude Machine Key Cborx Chunkers FsEncode FsTree FsBuild FsRead PackRecord PackStream Path Posix Ignore.
From Stdlib Require Import ZifyBool ZifyNat.
Local Open Scope Z_scope.

(** ** Splitting content ([chunkers/byte.go]) *)

(** How a call of [Next] ends. *)
Inductive next := More | EOF | Fail (e : error).

(** The ultracdc library: the options, and what the calls of [Next] return on a
    reader with this content. *)
Class Cdc := {
  ByteOpts : Type;
  mkByteOpts : Z → Z → Z → ByteOpts;
  NewChunker : option ByteOpts → bytes → result (list (bytes * next));
}.

(** It cuts content into pieces, for options it accepts. *)
Class CdcLaws `{Cdc} := {
  chunks_concat opts content nexts : NewChunker opts content = Ok nexts →
    ∃ cs c, nexts = ((λ x, (x, More)) <$> cs) ++ [(c, EOF)] ∧ concat cs ++ c = content;
}.

Section split.
Context `{Cdc} {T : Type} (fn : bytes → T → result T).

Fixpoint split_loop (nexts : list (bytes * next)) (t : T) : result T :=
  match nexts with
  | [] => Diverge
  | (chunk, n) :: nexts =>
      t ← (if (0 <? length chunk)%nat then fn chunk t else Ok t);
      match n with
      | EOF => Ok t
      | Fail e => Err e
      | More => split_loop nexts t
      end
  end.

Definition SplitBytes (r : bytes) (opts : option ByteOpts) (t : T) : result T :=
  nexts ← NewChunker opts r; split_loop nexts t.
End split.

(** ** Metadata ([meta.go]) *)

(** Device numbers in [golang.org/x/sys/unix]. *)
Class UnixDev := { Major : Z → Z; Minor : Z → Z; Mkdev : Z → Z → Z }.
Class UnixDevLaws `{UnixDev} := {
  Major_range d : is_u32 (Major d);
  Minor_range d : is_u32 (Minor d);
  Mkdev_Major_Minor d : is_u64 d → Mkdev (Major d) (Minor d) = d;
}.

Record meta := mkMeta { m_Mode : Z; m_UID : Z; m_GID : Z; m_Mtime : Z }.

Definition entryMeta (info : FileInfo) : meta :=
  mkMeta (u64 (st_mode info)) (u64 (st_uid info)) (u64 (st_gid info)) (i64 (st_mtime info)).

Definition deviceNumbers `{UnixDev} (info : FileInfo) : Z * Z :=
  let rdev := u64 (st_rdev info) in (u64 (Major rdev), u64 (Minor rdev)).

(** ** Extended attributes ([xattr_common.go]) *)
Definition splitXattrNames (buf : bytes) : list bytes :=
  filter (λ n, (0 < length n)%nat) (split_on x00 buf).

Definition ignoreUnsupported (e : error) : option error :=
  if bool_decide (errors_Is e ENOTSUP_) then None else Some e.

(** [make([]byte, sz)] and a call that fills it: a negative size panics. *)
Definition filled (sz : Z) (call : Z → result (Z * bytes)) : result bytes :=
  if sz <? 0 then Panic else
  '(n, data) ← call sz;
  slice (take (Z.to_nat sz) (data ++ replicate (Z.to_nat sz) x00)) 0 n.

Definition read_xattr (get : bytes → bytes → Z → result (Z * bytes)) (path name : bytes) (m : gmap bytes bytes) :
    result (gmap bytes bytes) :=
  '(sz, _) ← get path name 0;
  val ← filled sz (get path name);
  Ok (<[name := val]> m).

Definition readAllXattrs (path nameBuf : bytes) (get : bytes → bytes → Z → result (Z * bytes)) :
    result (gmap bytes bytes) :=
  foldR (read_xattr get path) (splitXattrNames nameBuf) ∅.

Definition unsupported_empty {A} (m : result A) (k : A → result (gmap bytes bytes)) : result (gmap bytes bytes) :=
  match m with
  | Err e => match ignoreUnsupported e with None => Ok ∅ | Some e => Err e end
  | Ok a => k a
  | Panic => Panic
  | Diverge => Diverge
  end.

Definition readXattrsWith (path : bytes) (list : bytes → Z → result (Z * bytes))
    (get : bytes → bytes → Z → result (Z * bytes)) : result (gmap bytes bytes) :=
  unsupported_empty (list path 0) (λ '(sz, _),
    if sz =? 0 then Ok ∅ else
    unsupported_empty (filled sz (list path)) (λ buf, readAllXattrs path buf get)).

Definition readXattrs `{OS} (path : bytes) : result (gmap bytes bytes) := readXattrsWith path Llistxattr Lgetxattr.

(** ** The walk ([driver.go]) *)
Record driver `{Cdc} := mkDriver { ic : ItemChunker; byteOpts : option ByteOpts; xattrInlineMax : Z }.

Definition set_content (e : Entry) (ck : bytes) : Entry :=
  mkEntry (Name e) (Mode e) (UID e) (GID e) (Mtime e) ck (LinkTarget e) (Rdev e) (XattrsIn e) (XattrsKey e).
Definition set_link (e : Entry) (t : bytes) : Entry :=
  mkEntry (Name e) (Mode e) (UID e) (GID e) (Mtime e) (ContentKey e) t (Rdev e) (XattrsIn e) (XattrsKey e).
Definition set_rdev (e : Entry) (r : list Z) : Entry :=
  mkEntry (Name e) (Mode e) (UID e) (GID e) (Mtime e) (ContentKey e) (LinkTarget e) r (XattrsIn e) (XattrsKey e).
Definition set_xattrs (e : Entry) (xin xkey : bytes) : Entry :=
  mkEntry (Name e) (Mode e) (UID e) (GID e) (Mtime e) (ContentKey e) (LinkTarget e) (Rdev e) xin xkey.

Section driver.
Context `{Blake3} `{Cbor} `{OS} `{GitIgnore} `{Cdc} `{UnixDev}.
Context {S : Type} (emit : Object → S → result S).
Context (d : driver).

(** The callback of [buildFile]; the state has the flag [saw]. *)
Definition on_chunk (chunk : bytes) (st : bool * IndexBuilder * S) : result (bool * IndexBuilder * S) :=
  let '(_, ib, s) := st in
  '(ib, s) ← add_chunk emit chunk (ib, s);
  Ok (true, ib, s).

Definition d_buildFile (full : bytes) (s : S) : result (Key * S) :=
  f ← os_ReadFile full;
  '(saw, ib, s) ← SplitBytes on_chunk f (byteOpts d) (false, NewFileIndexBuilder (ic d), s);
  '(ib, s) ← (if saw : bool then Ok (ib, s) else add_chunk emit [] (ib, s));
  IndexBuilder_Finish emit ib s.

(** The attributes of an entry that is not a link. *)
Definition add_xattrs (full : bytes) (e : Entry) (s : S) : result (Entry * S) :=
  xattrs ← readXattrs full;
  if (size xattrs =? 0)%nat then Ok (e, s) else
  let enc := EncodeXattrs xattrs in
  if zlen enc <=? xattrInlineMax d then Ok (set_xattrs e enc [], s) else
  obj ← EncodeXattrSet xattrs;
  s ← emit obj s;
  Ok (set_xattrs e [] (kb (obj_key obj)), s).

(** The switch over the file type. *)
Definition entry_body (full name : bytes) (ign : option Matcher)
    (buildDir : bytes → option Matcher → S → result (Key * S)) (info : FileInfo) (e : Entry) (s : S) :
    result (Entry * S) :=
  let ty := Z.land (Mode e) S_IFMT in
  if ty =? S_IFREG then
    '(ck, s) ← d_buildFile full s;
    Ok (set_content e (kb ck), s)
  else if ty =? S_IFDIR then
    sub ← Descend ign full name;
    '(ck, s) ← buildDir full sub s;
    Ok (set_content e (kb ck), s)
  else if ty =? S_IFLNK then
    target ← os_Readlink full;
    Ok (set_link e target, s)
  else if (ty =? S_IFCHR) || (ty =? S_IFBLK) then
    let '(major, minor) := deviceNumbers info in
    Ok (set_rdev e [major; minor], s)
  else if (ty =? S_IFIFO) || (ty =? S_IFSOCK) then Ok (e, s)
  else Err (errors_New "%s: unsupported file type %#o").

Definition buildEntry (full name : bytes) (ign : option Matcher)
    (buildDir : bytes → option Matcher → S → result (Key * S)) (s : S) : result (Entry * S) :=
  info ← os_Lstat full;
  let m := entryMeta info in
  let e := mkEntry name (m_Mode m) (m_UID m) (m_GID m) (m_Mtime m) [] [] [] [] [] in
  '(e, s) ← entry_body full name ign buildDir info e s;
  if Z.land (m_Mode m) S_IFMT =? S_IFLNK then Ok (e, s) else add_xattrs full e s.

(** The loop body of [buildDir]. *)
Definition dir_step (path : bytes) (ign : option Matcher)
    (buildDir : bytes → option Matcher → S → result (Key * S)) (de : DirEntry) (st : DirBuilder * S) :
    result (DirBuilder * S) :=
  let '(db, s) := st in
  if Ignored ign (de_Name de) (de_IsDir de) then Ok (db, s) else
  let full := Join path (de_Name de) in
  '(e, s) ← buildEntry full (de_Name de) ign buildDir s;
  AddEntry emit db e s.

Fixpoint d_buildDir (fuel : nat) (path : bytes) (ign : option Matcher) (s : S) : result (Key * S) :=
  match fuel with
  | O => Diverge
  | Datatypes.S fuel =>
      ents ← os_ReadDir path;
      '(db, s) ← foldR (dir_step path ign (d_buildDir fuel)) ents (NewDirBuilder (ic d), s);
      DirBuilder_Finish emit db s
  end.
End driver.

(** ** The parallel walk ([ingest.go]) *)

(** One interleaving of the lists: each number of the schedule takes the next element
    of a list, and the lists are drained in order when it is exhausted. *)
Fixpoint interleave {A} (sched : list nat) (ls : list (list A)) : list A :=
  match sched with
  | [] => concat ls
  | n :: sched =>
      match ls !! n with
      | Some (x :: l) => x :: interleave sched (<[n := l]> ls)
      | _ => interleave sched ls
      end
  end.

(** [wg.Wait()]: a worker that panics ends the program, one that hangs is waited for. *)
Fixpoint waited {A} (rs : list (result A)) : result unit :=
  match rs with
  | [] => Ok tt
  | Panic :: _ => Panic
  | Diverge :: rs => match waited rs with Panic => Panic | _ => Diverge end
  | _ :: rs => waited rs
  end.

(** What the workers that returned emitted. *)
Definition worker_log {A B} (r : result (A * list B)) : list B := match r with Ok (_, l) => l | _ => [] end.

(** The loop over [entries] and [errs]. *)
Definition par_step `{Blake3} `{Cbor} {S} (emit : Object → S → result S) (r : result (Entry * list Object))
    (st : DirBuilder * S) : result (DirBuilder * S) :=
  let '(db, s) := st in
  '(e, _) ← r;
  AddEntry emit db e s.

Section pbuilder.
Context `{Blake3} `{Cbor} `{OS} `{GitIgnore} `{Cdc} `{UnixDev}.
Context (sched : bytes → list nat).        (* the schedule of the workers of a directory *)
Context (d : driver).

Fixpoint pb_buildDir (fuel : nat) (path : bytes) (ign : option Matcher) (s : list Object) :
    result (Key * list Object) :=
  match fuel with
  | O => Diverge
  | Datatypes.S fuel =>
      ents ← os_ReadDir path;
      let kept := filter (λ de, Ignored ign (de_Name de) (de_IsDir de) = false) ents in
      let rs := (λ de, buildEntry emit_log d (Join path (de_Name de)) (de_Name de) ign (pb_buildDir fuel) []) <$> kept in
      _ ← waited rs;
      let s := s ++ interleave (sched path) (worker_log <$> rs) in
      '(db, s) ← foldR (par_step emit_log) rs (NewDirBuilder (ic d), s);
      DirBuilder_Finish emit_log db s
  end.
End pbuilder.

(** ** Writing the pack ([writePack], with [ingestObjects]) *)
Record chunkConfig := mkChunkConfig { cc_min : Z; cc_avg : Z; cc_max : Z; itemBits : Z; cc_xattrInlineMax : Z }.

Definition cc_byteOpts `{Cdc} (cc : chunkConfig) : result (option ByteOpts) :=
  if (cc_min cc =? 0) && (cc_avg cc =? 0) && (cc_max cc =? 0) then Ok None else
  if (cc_min cc <=? 0) || (cc_avg cc <=? 0) || (cc_max cc <=? 0)
  then Err (errors_New "--min, --avg and --max must all be set together") else
  Ok (Some (mkByteOpts (cc_min cc) (cc_avg cc) (cc_max cc))).

Section write_pack.
Context `{Blake3} `{Cbor} `{Zstd} `{OS} `{GitIgnore} `{Cdc} `{UnixDev}.
Context {W : Type} (write : bytes → W → result W).
Context (sched : bytes → list nat) (fuel : nat).

(** [build] is the result of [buildRoot]; when it fails, [partial] are the objects
    that the writer received before. *)
Definition ingestObjects (build : result (Key * list Object)) (partial : list Object) : list Object * result Key :=
  match build with
  | Ok (k, log) => (log, Ok k)
  | Err e => (partial, Err e)
  | Panic => (partial, Panic)
  | Diverge => (partial, Diverge)
  end.

Definition writePack (dst : W) (path : bytes) (isDir : bool) (ign : option Matcher) (cc : chunkConfig)
    (partial : list Object) : result (Key * W) :=
  opts ← cc_byteOpts cc;
  ch ← NewItemChunker (itemBits cc);
  let d := mkDriver _ ch opts (cc_xattrInlineMax cc) in
  let build := if isDir then pb_buildDir sched d fuel path ign [] else d_buildFile emit_log d path [] in
  let '(objs, root) := ingestObjects build partial in
  pw ← foldR (λ o pw, Add write pw o) objs (NewWriter dst);
  root ← root;
  dst ← Close write pw;
  Ok (root, dst).
End write_pack.

Definition ingestStat `{OS} (path : bytes) : result bool :=
  info ← os_Stat path;
  if info_IsDir info then Ok true else
  if info_IsRegular info then Ok false else
  Err (errors_New "%s is neither a regular file nor a directory").

(** [strings.ReplaceAll(s, "'", `'\''`)] in quotes *)
Definition shellQuote (s : bytes) : bytes :=
  [x27] ++ concat ((λ c, if bool_decide (c = x27) then [x27; x5c; x27; x27] else [c]) <$> s) ++ [x27].

(** ** The scan that sizes the progress bar ([scan.go]) *)
Section scan.
Context `{OS} `{GitIgnore}.

Record scanned := mkScanned { sc_files : Z; sc_bytes : Z; sc_errs : list error }.

Definition scan_add (a b : scanned) : scanned :=
  mkScanned (i64 (sc_files a + sc_files b)) (i64 (sc_bytes a + sc_bytes b)) (sc_errs a ++ sc_errs b).
Definition scan_err (e : error) : scanned := mkScanned 0 0 [e].

(** [run r k]: a call that fails is recorded. *)
Definition scan_run {A} (r : result A) (k : A → result scanned) : result scanned :=
  match r with Ok a => k a | Err e => Ok (scan_err e) | Panic => Panic | Diverge => Diverge end.

Fixpoint scan_walk (fuel : nat) (dir : bytes) (ign : option Matcher) : result scanned :=
  match fuel with
  | O => Diverge
  | Datatypes.S fuel =>
      scan_run (os_ReadDir dir) (λ ents,
        foldR (λ de acc,
          if Ignored ign (de_Name de) (de_IsDir de) then Ok acc else
          let full := Join dir (de_Name de) in
          one ← scan_run (os_Lstat full) (λ info,
            if info_IsDir info then scan_run (Descend ign full (de_Name de)) (scan_walk fuel full)
            else if info_IsRegular info then Ok (mkScanned 1 (st_size info) [])
            else Ok (mkScanned 0 0 []));
          Ok (scan_add acc one)) ents (mkScanned 0 0 []))
  end.

(** The first error is the one of the goroutine that came [first]. *)
Definition scanTree (fuel : nat) (first : nat) (dir : bytes) (ign : option Matcher) : result (Z * Z) :=
  s ← scan_walk fuel dir ign;
  match sc_errs s !! (first mod length (sc_errs s))%nat with
  | Some e => Err e
  | None => Ok (sc_files s, sc_bytes s)
  end.
End scan.
