(* ===== verification/IngestPar.v ===== *)
(** * The parallel walk of an ingest builds what the sequential one builds

    Everything that emits to a log only appends to it ([framed]), so the objects of
    an entry do not depend on what was emitted before, and the order in which the
    workers emit changes nothing but the order of the log. *)

From Stdlib Require Import Init.Byte.
From S2P Require Import Prelude Machine Key Cborx Chunkers FsEncode FsTree FsBuild FsRead PackRecord Packstore Path Posix Ignore Ingest.
Local Open Scope Z_scope.

(** ** Computations that append to the log *)
Definition lift_log {A} (s : list Object) (r : result (A * list Object)) : result (A * list Object) :=
  '(a, n) ← r; Ok (a, s ++ n).

(** An object whose key is derived from its bytes, as the store verifies it. *)
Definition good_obj `{Blake3} (o : Object) : Prop :=
  Validate (obj_key o) = Ok tt ∧ verifyObject (obj_key o) (obj_bytes o) = Ok tt.

Definition framed `{Blake3} {A} (f : list Object → result (A * list Object)) : Prop :=
  (∀ s, f s = lift_log s (f [])) ∧ (∀ a n, f [] = Ok (a, n) → Forall good_obj n).

Section framed.
Context `{Blake3} {A B : Type}.

Lemma framed_ret (a : A) : framed (λ s, Ok (a, s)).
Proof. split; [intros s; cbn; by rewrite app_nil_r|]. intros ? ? [= <- <-]. constructor. Qed.

Lemma framed_err e : framed (λ _ : list Object, Err e : result (A * list Object)).
Proof. done. Qed.

Lemma framed_panic : framed (λ _ : list Object, Panic : result (A * list Object)).
Proof. done. Qed.

Lemma framed_diverge : framed (λ _ : list Object, Diverge : result (A * list Object)).
Proof. done. Qed.

Lemma framed_pure (m : result B) (k : B → list Object → result (A * list Object)) :
  (∀ b, m = Ok b → framed (k b)) → framed (λ s, b ← m; k b s).
Proof. intros Hk. destruct m as [b| | |]; [|done..]. by apply (Hk b). Qed.

Lemma framed_bind (f : list Object → result (B * list Object)) (k : B → list Object → result (A * list Object)) :
  framed f → (∀ b, framed (k b)) → framed (λ s, '(b, s) ← f s; k b s).
Proof.
  intros [Hf Gf] Hk. split.
  - intros s. rewrite (Hf s). destruct (f []) as [[b n]| | |]; [|done..]. cbn. destruct (Hk b) as [Hkb _].
    rewrite (Hkb (s ++ n)), (Hkb n). unfold lift_log. destruct (k b []) as [[a m]| | |]; [|done..]. cbn. by rewrite app_assoc.
  - intros a n. destruct (f []) as [[b n1]| | |] eqn:E; [|done..]. cbn. destruct (Hk b) as [Hkb Gkb]. rewrite (Hkb n1).
    unfold lift_log. destruct (k b []) as [[a2 n2]| | |] eqn:E2; [|done..]. cbn. intros [= <- <-]. apply Forall_app. eauto.
Qed.

Lemma framed_emit o (k : list Object → result (A * list Object)) :
  good_obj o → framed k → framed (λ s, s ← emit_log o s; k s).
Proof.
  intros Ho [Hk Gk]. split.
  - intros s. cbn. rewrite (Hk (s ++ [o])), (Hk [o]). unfold lift_log. destruct (k []) as [[a m]| | |]; [|done..].
    cbn. by rewrite <- app_assoc.
  - intros a n. cbn. rewrite (Hk [o]). unfold lift_log. destruct (k []) as [[a2 n2]| | |] eqn:E; [|done..]. cbn.
    intros [= <- <-]. constructor; eauto.
Qed.

Lemma framed_ext (f g : list Object → result (A * list Object)) : (∀ s, f s = g s) → framed f → framed g.
Proof. intros Hfg [Hf Gf]. split; [intros s; by rewrite <- !Hfg|]. intros a n. rewrite <- Hfg. apply Gf. Qed.
End framed.

Lemma framed_fold `{Blake3} {A B} (f : B → A * list Object → result (A * list Object)) l :
  (∀ x a, framed (λ s, f x (a, s))) → ∀ a, framed (λ s, foldR f l (a, s)).
Proof.
  intros Hf. induction l as [|x l IH]; intros a; [apply framed_ret|]. cbn [foldR].
  eapply framed_ext; [|apply (framed_bind _ (λ a s, foldR f l (a, s)) (Hf x a)); apply IH].
  intros s. cbn. by destruct (f x (a, s)) as [[]| | |].
Qed.

(** ** The encoders derive their keys *)
Section encoders.
Context `{Blake3} `{Cbor}.

Lemma New_good t len b k : 0 <= t <= 4 → is_u64 len → New t len b = Ok k →
  ((t =? Blob) || (t =? XattrSet) = true → len = u64 (zlen b)) → good_obj (mkObject k b).
Proof.
  intros Ht Hlen Hk Hl. destruct (New_inv t len b k ltac:(lia) Hlen Hk) as (Hty & Hlk & Hv). split; [done|]. cbn.
  unfold verifyObject. rewrite Hty, Hlk. fold (New t len b). rewrite Hk. rsimpl. rewrite bool_decide_eq_true_2 by done. cbn.
  destruct ((t =? Blob) || (t =? XattrSet)); [|done]. rewrite (Hl eq_refl), Z.eqb_refl. done.
Qed.

Lemma EncodeBlob_good b o : EncodeBlob b = Ok o → good_obj o.
Proof. intros (k & Hk & [= <-])%bind_Ok. eapply New_good; [|apply u64_range|exact Hk|done]. unfold Blob. lia. Qed.

Lemma EncodeXattrSet_good m o : EncodeXattrSet m = Ok o → good_obj o.
Proof. intros (k & Hk & [= <-])%bind_Ok. eapply New_good; [|apply u64_range|exact Hk|done]. unfold XattrSet. lia. Qed.

Lemma EncodeFileNode_good ks o : EncodeFileNode ks = Ok o → good_obj o.
Proof.
  intros (b & Hb & (k & Hk & [= <-])%bind_Ok)%bind_Ok. eapply New_good; [|apply sum_length_range|exact Hk|done]. unfold FileNode. lia.
Qed.

Lemma EncodeDirLeaf_good es o : EncodeDirLeaf es = Ok o → good_obj o.
Proof.
  intros (b & Hb & (sub & Hs & (k & Hk & [= <-])%bind_Ok)%bind_Ok)%bind_Ok.
  eapply New_good; [|apply u64_range|exact Hk|done]. unfold DirLeaf. lia.
Qed.

Lemma EncodeDirNode_good ps o : EncodeDirNode ps = Ok o → good_obj o.
Proof.
  intros (b & Hb & (sub & Hs & (k & Hk & [= <-])%bind_Ok)%bind_Ok)%bind_Ok.
  eapply New_good; [|apply u64_range|exact Hk|done]. unfold DirNode. lia.
Qed.

Lemma buildNode_good ib L o sep : buildNode ib L = Ok (o, sep) → good_obj o.
Proof.
  unfold buildNode. destruct (isDir ib).
  - destruct (_ <? _)%nat; [done|]. intros (obj & Ho & Hl)%bind_Ok. destruct (last (seps L)); [|done].
    injection Hl as <- _. by eapply EncodeDirNode_good.
  - intros (obj & Ho & [= <- _])%bind_Ok. by eapply EncodeFileNode_good.
Qed.
End encoders.

#[export] Hint Resolve EncodeBlob_good EncodeXattrSet_good EncodeDirLeaf_good buildNode_good : amber.

Section builders.
Context `{Blake3} `{Cbor}.

Lemma add_framed fuel :
  (∀ l ck sep ib, framed (add emit_log fuel l ck sep ib)) ∧ (∀ l ib, framed (closeLevel emit_log fuel l ib)).
Proof.
  induction fuel as [|fuel [IHa IHc]]; [split; intros; apply framed_diverge|]. split.
  - intros l ck sep ib. eapply framed_ext; [intros s; reflexivity|]. cbn [add]. destruct (ensure ib l) as [ib' L].
    apply framed_pure. intros enc _. destruct (IsBoundary _ _ _); [apply IHc|apply framed_ret].
  - intros l ib. cbn [closeLevel]. destruct (levels ib !! l) as [L|]; [|apply framed_panic].
    apply framed_pure. intros [obj sep] Hb. apply framed_emit; [eauto with amber|apply IHa].
Qed.

Lemma finish_framed fuel : ∀ l ib, framed (finish_loop emit_log fuel l ib).
Proof.
  induction fuel as [|fuel IH]; intros l ib; [apply framed_diverge|]. cbn [finish_loop].
  destruct (levels ib !! l) as [L|]; [|apply framed_err]. destruct (runLen L =? 0); [apply IH|].
  destruct (runLen L =? 1).
  - apply framed_pure. intros ck _. apply framed_pure. intros sep _. destruct (_ =? _)%nat; [apply framed_ret|].
    apply framed_bind; [apply add_framed|intros; apply IH].
  - apply framed_pure. intros [obj sep] Hb. apply framed_emit; [eauto with amber|].
    apply framed_bind; [apply add_framed|intros; apply IH].
Qed.

Lemma closeLeaf_framed db : framed (closeLeaf emit_log db).
Proof.
  apply framed_pure. intros obj Ho. apply framed_emit; [eauto with amber|].
  apply framed_bind; [apply add_framed|intros; apply framed_ret].
Qed.

Lemma AddEntry_framed db e : framed (AddEntry emit_log db e).
Proof.
  apply framed_pure. intros enc _. cbv zeta. destruct (IsBoundary _ _ _); [apply closeLeaf_framed|apply framed_ret].
Qed.

Lemma DirFinish_framed db : framed (DirBuilder_Finish emit_log db).
Proof.
  apply framed_bind; [|intros; apply finish_framed]. destruct (_ || _); [apply closeLeaf_framed|apply framed_ret].
Qed.

Lemma add_chunk_framed ib chunk : framed (λ s, add_chunk emit_log chunk (ib, s)).
Proof. apply framed_pure. intros obj Ho. apply framed_emit; [eauto with amber|apply add_framed]. Qed.
End builders.

Section driver_frame.
Context `{Blake3} `{Cbor} `{OS} `{GitIgnore} `{Cdc} `{UnixDev} (d : driver).

Lemma split_framed nexts : ∀ saw ib,
  framed (λ s, '(saw, ib, s) ← split_loop (on_chunk emit_log) nexts (saw, ib, s); Ok (saw, ib, s)).
Proof.
  induction nexts as [|[chunk n] nexts IH]; intros saw ib; [apply framed_diverge|]. cbn [split_loop].
  assert (∀ saw ib, framed (λ s, '(saw, ib, s) ← match n with EOF => Ok (saw, ib, s) | Fail e => Err e
            | More => split_loop (on_chunk emit_log) nexts (saw, ib, s) end; Ok (saw, ib, s))) as Hn.
  { intros saw' ib'. destruct n; [apply IH|apply framed_ret|apply framed_err]. }
  destruct (0 <? length chunk)%nat; [|apply Hn]. unfold on_chunk.
  eapply framed_ext; [|apply (framed_bind _ (λ ib s, '(saw, ib, s) ← match n with EOF => Ok (true, ib, s) | Fail e => Err e
            | More => split_loop (on_chunk emit_log) nexts (true, ib, s) end; Ok (saw, ib, s))
            (add_chunk_framed ib chunk)); intros; apply Hn].
  intros s. cbn beta. destruct (add_chunk emit_log chunk (ib, s)) as [[ib' s']| | |]; done.
Qed.

Lemma d_buildFile_framed full : framed (d_buildFile emit_log d full).
Proof.
  apply framed_pure. intros f _. unfold SplitBytes.
  destruct (NewChunker (byteOpts d) f) as [nexts| | |]; [|apply framed_err|apply framed_panic|apply framed_diverge].
  eapply framed_ext; [|eapply (framed_bind _ (λ p s, '(ib, s) ← (if p.1 : bool then Ok (p.2, s) else add_chunk emit_log [] (p.2, s));
     IndexBuilder_Finish emit_log ib s) (split_framed nexts false (NewFileIndexBuilder (ic d))))].
  - intros s. cbn beta. rsimpl. destruct (split_loop _ _ _) as [[[saw ib] s']| | |]; done.
  - intros [saw ib]. cbn [fst snd]. apply framed_bind; [|intros; apply finish_framed].
    destruct saw; [apply framed_ret|apply add_chunk_framed].
Qed.

Lemma add_xattrs_framed full e : framed (add_xattrs emit_log d full e).
Proof.
  apply framed_pure. intros xs _. destruct (_ =? _)%nat; [apply framed_ret|]. cbv zeta.
  destruct (_ <=? _); [apply framed_ret|]. apply framed_pure. intros obj Ho. apply framed_emit; [eauto with amber|apply framed_ret].
Qed.

Lemma entry_body_framed full name ign bd info e :
  (∀ path m, framed (bd path m)) → framed (entry_body emit_log d full name ign bd info e).
Proof.
  intros Hbd. unfold entry_body. destruct (_ =? S_IFREG).
  { apply framed_bind; [apply d_buildFile_framed|intros; apply framed_ret]. }
  destruct (_ =? S_IFDIR).
  { apply framed_pure. intros sub _. apply framed_bind; [apply Hbd|intros; apply framed_ret]. }
  destruct (_ =? S_IFLNK); [apply framed_pure; intros; apply framed_ret|].
  destruct (_ || _); [apply framed_ret|]. destruct (_ || _); [apply framed_ret|apply framed_err].
Qed.

Lemma buildEntry_framed full name ign bd :
  (∀ path m, framed (bd path m)) → framed (buildEntry emit_log d full name ign bd).
Proof.
  intros Hbd. apply framed_pure. intros info _. apply framed_bind; [by apply entry_body_framed|]. intros e.
  destruct (_ =? _); [apply framed_ret|apply add_xattrs_framed].
Qed.

Lemma d_buildDir_framed fuel : ∀ path ign, framed (d_buildDir emit_log d fuel path ign).
Proof.
  induction fuel as [|fuel IH]; intros path ign; [apply framed_diverge|]. apply framed_pure. intros ents _.
  apply framed_bind; [|intros; apply DirFinish_framed]. apply framed_fold. intros de db. unfold dir_step.
  destruct (Ignored _ _ _); [apply framed_ret|].
  apply framed_bind; [by apply buildEntry_framed|intros; apply AddEntry_framed].
Qed.
End driver_frame.

(** ** Agreement *)

(** [p] and [s] return the same value or the same error, with the same objects in
    any order.  A call that panics or hangs says nothing. *)
Definition agrees {A} (p s : result (A * list Object)) : Prop :=
  (∀ a l, p = Ok (a, l) → ∃ l', s = Ok (a, l') ∧ l ≡ₚ l') ∧
  (∀ e, p = Err e → s = Err e) ∧
  (∀ a l', s = Ok (a, l') → ∃ l, p = Ok (a, l) ∧ l ≡ₚ l').

Section agrees.
Context {A B : Type}.

#[export] Instance agrees_refl : Reflexive (@agrees A).
Proof. intros r. split_and!; eauto. Qed.

(** The continuation sees its log in another order. *)
Lemma agrees_lift (s s' : list Object) (r : result (A * list Object)) : s ≡ₚ s' → agrees (lift_log s r) (lift_log s' r).
Proof.
  intros Hs. destruct r as [[a n]| | |]; split_and!; cbn; intros; simplify_eq; eauto;
    eexists; (split; [done|]); by rewrite Hs.
Qed.

Lemma agrees_framed `{Blake3} (k : list Object → result (A * list Object)) s s' : framed k → s ≡ₚ s' → agrees (k s) (k s').
Proof. intros [Hk _] Hs. rewrite (Hk s), (Hk s'). by apply agrees_lift. Qed.

Lemma agrees_bind `{Blake3} (p s : result (B * list Object)) (k : B → list Object → result (A * list Object)) :
  agrees p s → (∀ b, framed (k b)) → agrees ('(b, l) ← p; k b l) ('(b, l) ← s; k b l).
Proof.
  intros (H1 & H2 & H3) Hk. destruct p as [[b l]|e| |].
  - destruct (H1 b l eq_refl) as (l' & -> & Hl). by apply agrees_framed.
  - rewrite (H2 e eq_refl). apply agrees_refl.
  - destruct s as [[b l]|e| |]; [by destruct (H3 b l eq_refl) as (? & ? & _)|..]; by split_and!.
  - destruct s as [[b l]|e| |]; [by destruct (H3 b l eq_refl) as (? & ? & _)|..]; by split_and!.
Qed.

Lemma agrees_pure (m : result B) (k k' : B → result (A * list Object)) :
  (∀ b, m = Ok b → agrees (k b) (k' b)) → agrees (b ← m; k b) (b ← m; k' b).
Proof. intros Hk. destruct m; [by apply Hk|apply agrees_refl..]. Qed.
End agrees.

(** Every schedule emits the same objects. *)
Lemma interleave_perm {A} sched : ∀ ls : list (list A), interleave sched ls ≡ₚ concat ls.
Proof.
  induction sched as [|n sched IH]; intros ls; [done|]. cbn. destruct (ls !! n) as [[|x l]|] eqn:E; [apply IH| |apply IH].
  rewrite IH. apply list_elem_of_split_length in E as (l1 & l2 & -> & ->). rewrite insert_app_r_alt, Nat.sub_diag by done.
  cbn. rewrite !concat_app. cbn. apply (Permutation_middle (concat l1) (l ++ concat l2) x).
Qed.

Lemma waited_Ok {A} (rs : list (result A)) : waited rs = Ok tt ↔ Forall safe rs.
Proof.
  induction rs as [|r rs IH]; [done|]. rewrite Forall_cons, <- IH. unfold safe. destruct r; cbn; [naive_solver..|].
  destruct (waited rs); naive_solver.
Qed.

Lemma waited_not_err {A} (rs : list (result A)) e : waited rs ≠ Err e.
Proof. induction rs as [|[] rs IH]; cbn; try done. by destruct (waited rs). Qed.

Section agreement.
Context `{Blake3} `{Cbor} `{OS} `{GitIgnore} `{Cdc} `{UnixDev} (d : driver).

Lemma buildEntry_agrees full name ign bd bd' :
  (∀ path m, agrees (bd path m []) (bd' path m [])) →
  agrees (buildEntry emit_log d full name ign bd []) (buildEntry emit_log d full name ign bd' []).
Proof.
  intros Hbd. unfold buildEntry. apply agrees_pure. intros info _. cbv zeta. apply agrees_bind.
  - unfold entry_body. destruct (_ =? S_IFREG); [apply agrees_refl|]. destruct (_ =? S_IFDIR); [|apply agrees_refl].
    apply agrees_pure. intros sub _. apply agrees_bind; [apply Hbd|intros; apply framed_ret].
  - intros e. destruct (_ =? _); [apply framed_ret|apply add_xattrs_framed].
Qed.

(** The sequential loop on the entries' results. *)
Definition seq_step (r : result (Entry * list Object)) (st : DirBuilder * list Object) :
    result (DirBuilder * list Object) :=
  let '(db, s) := st in '(e, n) ← r; AddEntry emit_log db e (s ++ n).

Lemma seq_steps path ign bd ents : (∀ path m, framed (bd path m)) → ∀ st,
  foldR (dir_step emit_log d path ign bd) ents st =
  foldR seq_step ((λ de, buildEntry emit_log d (Join path (de_Name de)) (de_Name de) ign bd []) <$>
    filter (λ de, Ignored ign (de_Name de) (de_IsDir de) = false) ents) st.
Proof.
  intros Hbd. induction ents as [|de ents IH]; intros [db s]; [done|]. cbn [foldR dir_step].
  destruct (Ignored ign (de_Name de) (de_IsDir de)) eqn:E.
  - rewrite filter_cons_False by (by rewrite E). apply IH.
  - rewrite filter_cons_True by done. rewrite fmap_cons. cbn [foldR seq_step].
    rewrite (proj1 (buildEntry_framed d (Join path (de_Name de)) (de_Name de) ign bd Hbd) s). unfold lift_log.
    destruct (buildEntry _ _ _ _ _ _ []) as [[e n]| | |]; [|done..]. cbn.
    destruct (AddEntry _ _ _ _) as [st| | |]; [|done..]. apply IH.
Qed.

Lemma loop_agrees rs rs' : Forall2 agrees rs rs' → Forall safe rs → ∀ db s t,
  s ≡ₚ t ++ concat (worker_log <$> rs) →
  agrees (foldR (par_step emit_log) rs (db, s)) (foldR seq_step rs' (db, t)).
Proof.
  induction 1 as [|r r' rs rs' (Hok & Herr & _) _ IH]; intros Hw db s t Hs.
  { cbn in *. rewrite app_nil_r in Hs. apply (agrees_framed (λ s, Ok (db, s)) s t); [apply framed_ret|done]. }
  apply Forall_cons in Hw as [Hr Hw]. cbn [foldR par_step seq_step]. destruct r as [[e n]|e| |]; [| |by destruct Hr..].
  - destruct (Hok e n eq_refl) as (n' & -> & Hn). rsimpl. cbn in Hs.
    rewrite (proj1 (AddEntry_framed db e) s), (proj1 (AddEntry_framed db e) (t ++ n')). unfold lift_log.
    destruct (AddEntry emit_log db e []) as [[db' m]| | |]; [|apply agrees_refl..]. rsimpl. apply IH; [done|].
    rewrite Hs, Hn. solve_Permutation.
  - rewrite (Herr e eq_refl). apply agrees_refl.
Qed.

Lemma seq_all_ok rs : ∀ st st', foldR seq_step rs st = Ok st' → Forall (λ r, is_ok r = true) rs.
Proof.
  induction rs as [|r rs IH]; intros [db s] st'; [by constructor|]. cbn [foldR seq_step]. intros (st1 & Hst & Hrest)%bind_Ok.
  constructor; [by destruct r as [[]| | |]|]. by eapply IH.
Qed.

Lemma seq_waited rs rs' st st' : Forall2 agrees rs rs' → foldR seq_step rs' st = Ok st' → waited rs = Ok tt.
Proof.
  intros Hrs Hst%seq_all_ok. apply waited_Ok. eapply Forall2_Forall_l; [exact Hrs|]. eapply Forall_impl; [exact Hst|].
  intros r' [[b lb] Hr']%is_ok_true r (_ & _ & Hseq). destruct (Hseq b lb Hr') as (l & -> & _). by split.
Qed.

Lemma dir_agrees rs rs' s t db (k : DirBuilder → list Object → result (Key * list Object)) :
  Forall2 agrees rs rs' → s ≡ₚ t ++ concat (worker_log <$> rs) → (∀ db, framed (k db)) →
  agrees (_ ← waited rs; '(db, s) ← foldR (par_step emit_log) rs (db, s); k db s)
         ('(db, s) ← foldR seq_step rs' (db, t); k db s).
Proof.
  intros Hrs Hs Hk. destruct (waited rs) as [[]|e| |] eqn:Hw; [|by apply waited_not_err in Hw| |].
  - apply waited_Ok in Hw. by apply agrees_bind; [apply loop_agrees|].
  - split_and!; [done..|]. intros a l' (st & Hst & _)%bind_Ok. by rewrite (seq_waited _ _ _ _ Hrs Hst) in Hw.
  - split_and!; [done..|]. intros a l' (st & Hst & _)%bind_Ok. by rewrite (seq_waited _ _ _ _ Hrs Hst) in Hw.
Qed.

Lemma pb_agrees sched fuel : ∀ path ign,
  agrees (pb_buildDir sched d fuel path ign []) (d_buildDir emit_log d fuel path ign []).
Proof.
  induction fuel as [|fuel IH]; intros path ign; [apply agrees_refl|]. cbn [pb_buildDir d_buildDir].
  apply agrees_pure. intros ents _. cbv zeta. rewrite seq_steps by (intros; apply d_buildDir_framed).
  apply dir_agrees; [| |intros; apply DirFinish_framed].
  - apply Forall2_fmap_l, Forall2_fmap_r, Forall_Forall2_diag, Forall_true. intros de. by apply buildEntry_agrees.
  - cbn. apply interleave_perm.
Qed.

(** C20. Whatever the schedule of its workers, the parallel walk of an ingest returns the
    root key, or the error, that the sequential walk returns, and emits the same
    objects, in some order. *)
Theorem pb_buildDir_sequential sched fuel path ign :
  let par := pb_buildDir sched d fuel path ign [] in
  let seq := d_buildDir emit_log d fuel path ign [] in
  (∀ k l, par = Ok (k, l) → ∃ l', seq = Ok (k, l') ∧ l ≡ₚ l') ∧
  (∀ e, par = Err e → seq = Err e) ∧
  (∀ k l', seq = Ok (k, l') → ∃ l, par = Ok (k, l) ∧ l ≡ₚ l').
Proof. exact (pb_agrees sched fuel path ign). Qed.
End agreement.
