(* ===== verification/IngestFacts.v ===== *)
(** * What an ingest stores

    A [node] is a file, directory, link, device, pipe or socket with its metadata.
    [at_path] says that the file system has a node at a path, [prune] is the node
    without what the ignore files exclude, and [stored] says that objects hold a node
    under a directory entry.  An ingest of a node stores exactly the pruned node. *)

From Stdlib Require Import Init.Byte.
From S2P Require Import Prelude Machine Key Cborx Chunkers FsEncode FsTree FsBuild FsRead Path Posix Ignore Ingest IngestPar.
From Stdlib Require Import ZifyBool ZifyNat.
Local Open Scope Z_scope.

Local Set Warnings "-register-all".

(** ** Nodes *)
Record nmeta := mkNmeta {
  n_perm : Z; n_uid : Z; n_gid : Z; n_mtime : Z; n_xattrs : gmap bytes bytes;
}.

Inductive node :=
| NFile (m : nmeta) (content : bytes)
| NDir (m : nmeta) (children : list (bytes * node))
| NLink (m : nmeta) (target : bytes)
| NDev (m : nmeta) (chr : bool) (rdev : Z)
| NFifo (m : nmeta)
| NSock (m : nmeta).

(** Induction with a hypothesis for every child. *)
Section node_ind.
Context (P : node → Prop).
Context (Hfile : ∀ m c, P (NFile m c)) (Hlink : ∀ m t, P (NLink m t)) (Hdev : ∀ m c r, P (NDev m c r))
        (Hfifo : ∀ m, P (NFifo m)) (Hsock : ∀ m, P (NSock m))
        (Hdir : ∀ m ch, Forall (λ p, P p.2) ch → P (NDir m ch)).

Fixpoint node_rect' (n : node) : P n :=
  match n with
  | NFile m c => Hfile m c
  | NLink m t => Hlink m t
  | NDev m c r => Hdev m c r
  | NFifo m => Hfifo m
  | NSock m => Hsock m
  | NDir m ch =>
      Hdir m ch ((fix go (ch : list (bytes * node)) : Forall (λ p, P p.2) ch :=
        match ch with
        | [] => Forall_nil_2 _
        | p :: ch => Forall_cons_2 _ p ch (node_rect' p.2) (go ch)
        end) ch)
  end.
End node_ind.

Definition node_meta (n : node) : nmeta :=
  match n with NFile m _ | NDir m _ | NLink m _ | NDev m _ _ | NFifo m | NSock m => m end.

Definition node_type (n : node) : Z :=
  match n with
  | NFile _ _ => S_IFREG
  | NDir _ _ => S_IFDIR
  | NLink _ _ => S_IFLNK
  | NDev _ chr _ => if chr then S_IFCHR else S_IFBLK
  | NFifo _ => S_IFIFO
  | NSock _ => S_IFSOCK
  end.

Definition node_mode (n : node) : Z := Z.lor (node_type n) (n_perm (node_meta n)).
Definition node_dir (n : node) : bool := match n with NDir _ _ => true | _ => false end.
Definition node_link (n : node) : bool := match n with NLink _ _ => true | _ => false end.

Fixpoint depth (n : node) : nat :=
  match n with NDir _ ch => S (foldr (λ p acc, Nat.max (depth p.2) acc) O ch) | _ => O end.

(** The ranges of what [lstat] reports; attribute names are not empty and end at a
    zero byte. *)
Definition xattrs_wf (xs : gmap bytes bytes) : Prop :=
  map_Forall (λ k v, k ≠ [] ∧ (x00 ∉ k) ∧ zlen k < 2 ^ 64 ∧ zlen v < 2 ^ 64) xs ∧ Z.of_nat (size xs) < 2 ^ 64.
Definition meta_wf (m : nmeta) : Prop :=
  0 <= n_perm m < 0x1000 ∧ is_u32 (n_uid m) ∧ is_u32 (n_gid m) ∧ - 2 ^ 63 <= n_mtime m < 2 ^ 63 ∧ xattrs_wf (n_xattrs m).

Fixpoint node_wf (n : node) : Prop :=
  meta_wf (node_meta n) ∧
  match n with
  | NDir _ ch => StronglySorted bytes_lt ch.*1 ∧ foldr (λ p P, node_wf p.2 ∧ P) True ch
  | NFile _ c => zlen c < 2 ^ 63
  | NLink m _ => n_xattrs m = ∅
  | NDev _ _ rdev => is_u64 rdev
  | _ => True
  end.

Lemma type_mode ty p : 0 <= p < 0x1000 → Z.land ty S_IFMT = ty → Z.land (Z.lor ty p) S_IFMT = ty.
Proof.
  intros Hp Hty. rewrite Z.land_lor_distr_l, Hty.
  assert (Z.land p S_IFMT = 0) as ->; [|apply Z.lor_0_r].
  assert (p = Z.land p (Z.ones 12)) as ->. { rewrite Z.land_ones by lia. rewrite Z.mod_small; [done|]. cbn. lia. }
  rewrite <- Z.land_assoc. change (Z.land (Z.ones 12) S_IFMT) with 0. apply Z.land_0_r.
Qed.

Lemma node_mode_type n : meta_wf (node_meta n) → Z.land (node_mode n) S_IFMT = node_type n.
Proof. intros (Hp & _). apply type_mode; [done|]. by destruct n as [| | |? []| |]. Qed.

Lemma node_mode_range n : meta_wf (node_meta n) → 0 <= node_mode n < 2 ^ 32.
Proof.
  intros (Hp & _). unfold node_mode.
  assert (0 <= node_type n < 2 ^ 16) as Ht by (destruct n as [| | |? []| |]; vm_compute; by split).
  split; [apply Z.lor_nonneg; lia|]. destruct (Z.eq_dec (Z.lor (node_type n) (n_perm (node_meta n))) 0) as [->|Hne]; [lia|].
  assert (0 <= Z.lor (node_type n) (n_perm (node_meta n))) by (apply Z.lor_nonneg; lia).
  apply Z.log2_lt_pow2; [lia|]. rewrite Z.log2_lor by lia.
  assert (Z.log2 (node_type n) <= 16) by (destruct n as [| | |? []| |]; vm_compute; done).
  assert (Z.log2 (n_perm (node_meta n)) <= 12); [|lia].
  destruct (Z.eq_dec (n_perm (node_meta n)) 0) as [->|]; [done|]. apply Z.lt_le_incl, Z.log2_lt_pow2; [lia|]. change (2 ^ 12) with 0x1000. lia.
Qed.

(** ** A node in the file system *)
Section at_path.
Context `{OS}.

Definition lstat_is (path : bytes) (n : node) : Prop :=
  ∃ info, os_Lstat path = Ok info ∧ st_mode info = node_mode n ∧ st_uid info = n_uid (node_meta n) ∧
    st_gid info = n_gid (node_meta n) ∧ st_mtime info = n_mtime (node_meta n) ∧
    match n with NDev _ _ rdev => st_rdev info = rdev | NFile _ c => st_size info = zlen c | _ => True end.

Definition xattrs_are (path : bytes) (xs : gmap bytes bytes) : Prop :=
  (∃ names, names ≡ₚ (map_to_list xs).*1 ∧
     ∀ size, Llistxattr path size = fill_buffer (concat ((λ n, n ++ [x00]) <$> names)) size) ∧
  (∀ name v, xs !! name = Some v → ∀ size, Lgetxattr path name size = fill_buffer v size).

Fixpoint at_path (path : bytes) (n : node) : Prop :=
  lstat_is path n ∧ (node_link n = false → xattrs_are path (n_xattrs (node_meta n))) ∧
  match n with
  | NFile _ c => os_ReadFile path = Ok c
  | NDir _ ch =>
      os_ReadDir path = Ok ((λ p, mkDirEntry p.1 (node_dir p.2)) <$> ch) ∧
      foldr (λ p P, at_path (Join path p.1) p.2 ∧ P) True ch
  | NLink _ t => os_Readlink path = Ok t
  | _ => True
  end.

(** ** What the ignore files leave.  [ign] is the matcher of the directory [n]. *)
Section prune.
Context `{GitIgnore}.

Fixpoint prune (ign : option Matcher) (path : bytes) (n : node) : result node :=
  match n with
  | NDir m ch =>
      ch ← foldr (λ p rest,
        if Ignored ign p.1 (node_dir p.2) then rest else
        let full := Join path p.1 in
        sub ← (if node_dir p.2 then Descend ign full p.1 else Ok ign);
        c ← prune sub full p.2;
        rest ← rest;
        Ok ((p.1, c) :: rest)) (Ok []) ch;
      Ok (NDir m ch)
  | _ => Ok n
  end.

Lemma prune_none path n : prune None path n = Ok n.
Proof.
  revert path. induction n as [| | | | |m ch IH] using node_rect'; intros path; try done. cbn [prune].
  assert (∀ l, Forall (λ p : bytes * node, ∀ path, prune None path p.2 = Ok p.2) l →
    foldr (λ p rest, if Ignored None p.1 (node_dir p.2) then rest else
        sub ← (if node_dir p.2 then Descend None (Join path p.1) p.1 else Ok None);
        c ← prune sub (Join path p.1) p.2; rest ← rest; Ok ((p.1, c) :: rest)) (Ok []) l = Ok l) as Hl.
  { induction 1 as [|[c n] l Hc _ IHl]; [done|]. cbn [foldr]. rewrite IHl. cbn [Ignored fst snd].
    destruct (node_dir n); cbn [Descend]; rsimpl; rewrite Hc; done. }
  rewrite Hl by done. done.
Qed.
End prune.
End at_path.

(** ** A node in the store *)
Section stored.
Context `{Cbor} `{UnixDev}.

Definition entry_is (e : Entry) (name : bytes) (n : node) : Prop :=
  Name e = name ∧ Mode e = node_mode n ∧ UID e = n_uid (node_meta n) ∧ GID e = n_gid (node_meta n) ∧
  Mtime e = n_mtime (node_meta n) ∧
  (* the fields of the other types are empty *)
  match n with
  | NFile _ _ | NDir _ _ => LinkTarget e = [] ∧ Rdev e = []
  | NLink _ _ => ContentKey e = [] ∧ Rdev e = []
  | NDev _ _ _ => ContentKey e = [] ∧ LinkTarget e = []
  | _ => ContentKey e = [] ∧ LinkTarget e = [] ∧ Rdev e = []
  end.

(** The attributes are inline, or an object of their own, or there are none. *)
Definition xattrs_stored (log : list Object) (e : Entry) (xs : gmap bytes bytes) : Prop :=
  (xs = ∅ ∧ XattrsIn e = [] ∧ XattrsKey e = []) ∨
  (XattrsIn e = EncodeXattrs xs ∧ XattrsKey e = []) ∨
  (XattrsIn e = [] ∧ ∃ k, XattrsKey e = kb k ∧ Validate k = Ok tt ∧ mkObject k (EncodeXattrs xs) ∈ log).

Inductive stored (log : list Object) : Entry → bytes → node → Prop :=
| stored_file e name m c k h :
    entry_is e name (NFile m c) → xattrs_stored log e (n_xattrs m) →
    ContentKey e = kb k → Validate k = Ok tt → Length k = zlen c → file_tree h log k c →
    stored log e name (NFile m c)
| stored_dir e name m ch k h es :
    entry_is e name (NDir m ch) → xattrs_stored log e (n_xattrs m) →
    ContentKey e = kb k → Validate k = Ok tt → dir_tree h log k es →
    Forall2 (λ e p, stored log e p.1 p.2) es ch →
    stored log e name (NDir m ch)
| stored_link e name m t :
    entry_is e name (NLink m t) → xattrs_stored log e ∅ → LinkTarget e = t → stored log e name (NLink m t)
| stored_dev e name m chr rdev :
    entry_is e name (NDev m chr rdev) → xattrs_stored log e (n_xattrs m) → Rdev e = [Major rdev; Minor rdev] →
    stored log e name (NDev m chr rdev)
| stored_fifo e name m : entry_is e name (NFifo m) → xattrs_stored log e (n_xattrs m) → stored log e name (NFifo m)
| stored_sock e name m : entry_is e name (NSock m) → xattrs_stored log e (n_xattrs m) → stored log e name (NSock m).

(** The objects under a directory key hold the children. *)
Definition stored_children (log : list Object) (k : Key) (ch : list (bytes * node)) : Prop :=
  ∃ h es, dir_tree h log k es ∧ Forall2 (λ e p, stored log e p.1 p.2) es ch.

Lemma xattrs_stored_mono log log' e xs : xattrs_stored log e xs → log ⊆ log' → xattrs_stored log' e xs.
Proof. intros [?|[?|(? & k & ? & ? & ?)]] Hl; [by left|by right; left|]. right. right. split; [done|]. exists k. auto. Qed.

Lemma stored_all_mono log log' es ch :
  Forall (λ p : bytes * node, ∀ e name, stored log e name p.2 → stored log' e name p.2) ch →
  Forall2 (λ e p, stored log e p.1 p.2) es ch → Forall2 (λ e p, stored log' e p.1 p.2) es ch.
Proof. intros Hm. induction 1; [done|]. apply Forall_cons in Hm as [? ?]. constructor; auto. Qed.

Lemma stored_mono log log' n : log ⊆ log' → ∀ e name, stored log e name n → stored log' e name n.
Proof.
  intros Hl. induction n as [m c|m t|m chr r|m|m|m ch IH] using node_rect'; intros e name; inversion 1; subst.
  - eapply stored_file; eauto using xattrs_stored_mono, file_tree_mono.
  - eapply stored_link; eauto using xattrs_stored_mono.
  - eapply stored_dev; eauto using xattrs_stored_mono.
  - eapply stored_fifo; eauto using xattrs_stored_mono.
  - eapply stored_sock; eauto using xattrs_stored_mono.
  - eapply stored_dir; eauto using xattrs_stored_mono, dir_tree_mono.
    by eapply stored_all_mono.
Qed.
End stored.

(** ** Reading attributes *)
Lemma fill_buffer_filled data : filled (zlen data) (fill_buffer data) = Ok data.
Proof.
  unfold filled, fill_buffer. replace (zlen data <? 0) with false by lia. destruct data as [|x l]; [done|].
  replace (zlen (x :: l) =? 0) with false by (simpl; lia). replace (zlen (x :: l) <? zlen (x :: l)) with false by lia.
  rsimpl. rewrite Nat2Z.id, take_app_length. rewrite slice_ok by lia. rewrite Z.sub_0_r, Nat2Z.id. by rewrite drop_0, firstn_all.
Qed.

Lemma splitXattrNames_spec names : Forall (λ n : bytes, n ≠ [] ∧ (x00 ∉ n)) names →
  splitXattrNames (concat ((λ n, n ++ [x00]) <$> names)) = names.
Proof.
  intros Hn. unfold splitXattrNames. induction Hn as [|n names [Hne Hz] _ IH]; [done|]. cbn [fmap list_fmap concat].
  rewrite <- app_assoc. cbn [app]. rewrite split_on_cons by done. rewrite filter_cons_True by (destruct n; [done|simpl; lia]).
  by rewrite IH.
Qed.

Section read_xattrs.
Context `{OS}.

Lemma read_xattr_spec (path name v : bytes) m : (∀ size, Lgetxattr path name size = fill_buffer v size) →
  read_xattr Lgetxattr path name m = Ok (<[name := v]> m).
Proof.
  intros Hget. unfold read_xattr. rewrite (Hget 0). cbn [fill_buffer Z.eqb]. rsimpl.
  assert (filled (zlen v) (Lgetxattr path name) = Ok v) as ->; [|done].
  transitivity (filled (zlen v) (fill_buffer v)); [|apply fill_buffer_filled]. unfold filled. by rewrite Hget.
Qed.

Lemma readAll_spec (path : bytes) (xs : gmap bytes bytes) (names : list bytes) : (∀ n v, xs !! n = Some v → ∀ size, Lgetxattr path n size = fill_buffer v size) →
  Forall (λ n, is_Some (xs !! n)) names → ∀ m : gmap bytes bytes,
  ∃ m', foldR (read_xattr Lgetxattr path) names m = Ok m' ∧
    ∀ n, m' !! n = if bool_decide (n ∈ names) then xs !! n else m !! n.
Proof.
  intros Hget. induction 1 as [|n names [v Hv] _ IH]; intros m.
  { exists m. split; [done|]. intros n. by rewrite bool_decide_eq_false_2 by set_solver. }
  cbn [foldR]. rewrite (read_xattr_spec path n v) by (by apply Hget). rsimpl. destruct (IH (<[n := v]> m)) as (m' & -> & Hm'). exists m'. split; [done|]. intros n'. rewrite Hm'.
  destruct (decide (n' ∈ names)); [by rewrite !bool_decide_eq_true_2 by set_solver|].
  rewrite (bool_decide_eq_false_2 (n' ∈ names)) by done. destruct (decide (n' = n)) as [->|Hne].
  - by rewrite lookup_insert_eq, bool_decide_eq_true_2 by set_solver.
  - by rewrite lookup_insert_ne, bool_decide_eq_false_2 by set_solver.
Qed.

Lemma readXattrs_spec (path : bytes) (xs : gmap bytes bytes) : xattrs_wf xs → xattrs_are path xs → readXattrs path = Ok xs.
Proof.
  intros [Hwf _] [(names & Hp & Hlist) Hget]. unfold readXattrs, readXattrsWith. rewrite (Hlist 0). cbn [fill_buffer Z.eqb unsupported_empty].
  set (buf := concat _). destruct (zlen buf =? 0) eqn:Hz.
  { assert (names = []) as ->.
    { destruct names as [|n names]; [done|]. unfold buf in Hz. cbn in Hz. rewrite !length_app in Hz. cbn in Hz. lia. }
    symmetry in Hp. apply Permutation_nil_r in Hp. apply fmap_nil_inv in Hp. apply map_to_list_empty_iff in Hp. by subst. }
  assert (filled (zlen buf) (Llistxattr path) = Ok buf) as ->.
  { transitivity (filled (zlen buf) (fill_buffer buf)); [|apply fill_buffer_filled]. unfold filled. by rewrite Hlist. }
  cbn [unsupported_empty]. unfold readAllXattrs, buf.
  assert (∀ n, n ∈ names ↔ is_Some (xs !! n)) as Hn.
  { intros n. rewrite Hp, list_elem_of_fmap. split.
    - intros ([k v] & -> & Hin%elem_of_map_to_list). by exists v.
    - intros [v Hv]. exists (n, v). split; [done|]. by apply elem_of_map_to_list. }
  rewrite splitXattrNames_spec.
  - destruct (readAll_spec path xs names Hget ltac:(apply Forall_forall; intros n; apply Hn) ∅) as (m & -> & Hm).
    f_equal. apply map_eq. intros n. rewrite Hm. case_bool_decide as Hin; [done|]. rewrite lookup_empty.
    destruct (xs !! n) eqn:E; [|done]. exfalso. by apply Hin, Hn.
  - apply Forall_forall. intros n [v Hv]%Hn. by destruct (Hwf n v Hv) as (? & ? & _).
Qed.
End read_xattrs.

(** The CBOR library encodes every entry. *)
Class CborTotal `{Cbor} := { marshal_entry_ok e : is_ok (marshal_entry e) = true }.

(** A driver whose chunkers work: runs of at least two items, nodes within the limit
    of the CBOR decoder, options that the byte chunker accepts. *)
Record driver_ok `{Cdc} (d : driver) : Prop := {
  drv_ic : chunker_ok (ic d);
  drv_max : MaxRun (ic d) <= Z.of_nat MaxArrayElements;
  drv_opts : ∀ content, is_ok (NewChunker (byteOpts d) content) = true;
}.

Section ingest.
Context `{Blake3} `{Cbor} `{!CborLaws} `{!CborTotal} `{OS} `{GitIgnore} `{Cdc} `{!CdcLaws} `{UnixDev} `{!UnixDevLaws}.
Context (d : driver) (Hd : driver_ok d).

Definition nonempty (cs : list bytes) : list bytes := filter (λ c, (0 <? length c)%nat = true) cs.

Lemma split_loop_spec cs c : ∀ saw ib s,
  split_loop (on_chunk emit_log) (((λ x, (x, More)) <$> cs) ++ [(c, EOF)]) (saw, ib, s) =
  '(ib, s) ← foldR (add_chunk emit_log) (nonempty (cs ++ [c])) (ib, s);
  Ok (saw || negb (length (nonempty (cs ++ [c])) =? 0)%nat, ib, s).
Proof.
  induction cs as [|x cs IH]; intros saw ib s.
  - cbn [fmap list_fmap app split_loop]. unfold nonempty. destruct (0 <? length c)%nat eqn:E.
    + rewrite filter_cons_True by done. cbn [foldR on_chunk]. destruct (add_chunk _ _ _) as [[ib' s']| | |]; [|done..]. cbn.
      by rewrite orb_true_r.
    + rewrite filter_cons_False by (by rewrite E). cbn. by rewrite orb_false_r.
  - cbn [fmap list_fmap app split_loop]. unfold nonempty in *. destruct (0 <? length x)%nat eqn:E.
    + rewrite filter_cons_True by done. cbn [foldR on_chunk].
      destruct (add_chunk emit_log x (ib, s)) as [[ib' s']| | |]; [|done..]. rsimpl. rewrite IH.
      destruct (foldR _ _ _) as [[ib2 s2]| | |]; [|done..]. cbn. by rewrite orb_true_r.
    + rewrite filter_cons_False by (by rewrite E). rsimpl. apply IH.
Qed.

Lemma concat_nonempty cs : concat (nonempty cs) = concat cs.
Proof.
  unfold nonempty. induction cs as [|c cs IH]; [done|]. destruct (0 <? length c)%nat eqn:E.
  - rewrite filter_cons_True by done. cbn [concat]. by rewrite IH.
  - rewrite filter_cons_False by (by rewrite E). destruct c; [apply IH|cbn in E; lia].
Qed.

Lemma d_buildFile_spec full c s : os_ReadFile full = Ok c →
  ∃ k h new, d_buildFile emit_log d full s = Ok (k, s ++ new) ∧ file_tree h new k c ∧ Validate k = Ok tt ∧
    Length k = u64 (zlen c).
Proof.
  intros Hread. destruct Hd as [Hic Hmax Hopts].
  destruct (proj1 (is_ok_true _) (Hopts c)) as [nexts Hnexts].
  destruct (chunks_concat _ _ _ Hnexts) as (cs & cl & -> & Hcat).
  assert (concat (nonempty (cs ++ [cl])) = c) as Hcc by (by rewrite concat_nonempty, concat_app, concat_singleton).
  destruct (buildFile_spec (ic d) Hic Hmax (nonempty (cs ++ [cl]))) as (k & h & log & Hb & Ht & Hv & Hl).
  rewrite Hcc in Ht, Hl. exists k, h, log. split_and!; [|done..].
  rewrite (proj1 (d_buildFile_framed d full) s). unfold d_buildFile, SplitBytes. rewrite Hread. rsimpl. rewrite Hnexts. rsimpl. rewrite split_loop_spec.
  unfold buildFile in Hb. destruct (foldR _ _ _) as [[ib s']| | |]; [|done..]. cbn in *.
  destruct (length (nonempty (cs ++ [cl])) =? 0)%nat; cbn in *; rewrite Hb; done.
Qed.

Lemma EncodeXattrSet_ok xs : ∃ o, EncodeXattrSet xs = Ok o ∧ obj_bytes o = EncodeXattrs xs ∧ Validate (obj_key o) = Ok tt.
Proof.
  unfold EncodeXattrSet. destruct (New_ok XattrSet (u64 (zlen (EncodeXattrs xs))) (EncodeXattrs xs)) as (k & -> & ? & ? & ?);
    [done|apply u64_range|]. eexists. done.
Qed.

Lemma add_xattrs_spec full e xs s : xattrs_wf xs → xattrs_are full xs → XattrsIn e = [] → XattrsKey e = [] →
  ∃ xin xkey new, add_xattrs emit_log d full e s = Ok (set_xattrs e xin xkey, s ++ new) ∧
    xattrs_stored new (set_xattrs e xin xkey) xs ∧ entry_key_ok xkey.
Proof.
  intros Hwf Hxs Hi Hk. unfold add_xattrs. rewrite (readXattrs_spec full xs Hwf Hxs). rsimpl.
  destruct (size xs =? 0)%nat eqn:Hs.
  { exists [], [], []. rewrite app_nil_r. split_and!; [|left; split_and!; [|done..]|by left].
    - destruct e; cbn in *. by subst.
    - apply map_size_empty_inv. lia. }
  destruct (_ <=? _).
  - exists (EncodeXattrs xs), [], []. rewrite app_nil_r. split_and!; [done| |by left]. by right; left.
  - destruct (EncodeXattrSet_ok xs) as (o & -> & Hb & Hv). rsimpl. exists [], (kb (obj_key o)), [o].
    split_and!; [done| |].
    + right. right. split; [done|]. exists (obj_key o). split_and!; [done..|]. destruct o; cbn in *. subst. set_solver.
    + right. apply is_ok_true. exists (obj_key o). by apply Parse_Ok.
Qed.

(** The entry with the metadata of a node. *)
Definition base_entry (name : bytes) (n : node) : Entry :=
  mkEntry name (node_mode n) (n_uid (node_meta n)) (n_gid (node_meta n)) (n_mtime (node_meta n)) [] [] [] [] [].

Lemma base_entry_spec n info name :
  meta_wf (node_meta n) → st_mode info = node_mode n → st_uid info = n_uid (node_meta n) →
  st_gid info = n_gid (node_meta n) → st_mtime info = n_mtime (node_meta n) →
  let m := entryMeta info in
  mkEntry name (m_Mode m) (m_UID m) (m_GID m) (m_Mtime m) [] [] [] [] [] = base_entry name n ∧ m_Mode m = node_mode n.
Proof.
  intros Hwf Em Eu Eg Et. pose proof (node_mode_range n Hwf). destruct Hwf as (_ & Hu & Hg & Hm & _). unfold is_u32 in *.
  unfold entryMeta, base_entry. cbn. rewrite Em, Eu, Eg, Et, !u64_small, i64_small by (unfold is_u64; lia). done.
Qed.

Lemma base_entry_wf name n : meta_wf (node_meta n) → entry_wf (base_entry name n).
Proof.
  intros Hwf. pose proof (node_mode_range n Hwf). destruct Hwf as (_ & Hu & Hg & Hm & _).
  unfold entry_wf, base_entry, is_u64, is_u32 in *. cbn. split_and!; try lia. constructor.
Qed.

Lemma key_ok k : Validate k = Ok tt → entry_key_ok (kb k).
Proof. intros Hv. right. apply is_ok_true. exists k. by apply Parse_Ok. Qed.

(** The attributes complete an entry. *)
Lemma finish_entry full n e s :
  meta_wf (node_meta n) → xattrs_are full (n_xattrs (node_meta n)) → XattrsIn e = [] → XattrsKey e = [] →
  entry_wf e → entry_key_ok (ContentKey e) →
  ∃ xin xkey new, add_xattrs emit_log d full e s = Ok (set_xattrs e xin xkey, s ++ new) ∧
    xattrs_stored new (set_xattrs e xin xkey) (n_xattrs (node_meta n)) ∧ encodable (set_xattrs e xin xkey).
Proof.
  intros (_ & _ & _ & _ & Hx) Hxs Hi Hk Hwf Hc.
  destruct (add_xattrs_spec full e _ s Hx Hxs Hi Hk) as (xin & xkey & new & -> & Hst & Hkey).
  exists xin, xkey, new. split_and!; [done..|]. split_and!; [done|done|apply marshal_entry_ok].
Qed.

(** Building the entry of [n] stores [n'], provided that [bd] stores directories. *)
Lemma buildEntry_spec full name ign bd n n' :
  at_path full n → node_wf n →
  (sub ← (if node_dir n then Descend ign full name else Ok ign); prune sub full n) = Ok n' →
  (∀ m ch m' ch' sub, n = NDir m ch → prune sub full n = Ok (NDir m' ch') →
     ∃ k new, bd full sub [] = Ok (k, new) ∧ stored_children new k ch' ∧ Validate k = Ok tt) →
  ∃ e new, buildEntry emit_log d full name ign bd [] = Ok (e, new) ∧ stored new e name n' ∧ encodable e.
Proof.
  intros Hat Hwf Hp Hbd. unfold buildEntry.
  assert (meta_wf (node_meta n)) as Hm by (by destruct n, Hwf).
  assert (lstat_is full n ∧ (node_link n = false → xattrs_are full (n_xattrs (node_meta n)))) as [Hls Hxs]
    by (destruct n; destruct Hat as (? & ? & _); done).
  destruct Hls as (info & -> & Emode & Eu & Eg & Et & Einfo). rsimpl.
  destruct (base_entry_spec n info name Hm Emode Eu Eg Et) as [-> ->].
  pose proof (base_entry_wf name n Hm) as Hew. rewrite node_mode_type by done.
  unfold entry_body. change (Mode (base_entry name n)) with (node_mode n). rewrite node_mode_type by done.
  destruct n as [m c|m ch|m t|m chr r|m|m]; cbn [node_type node_dir node_link] in *.
  - cbn in Hp. injection Hp as <-. destruct Hat as (_ & _ & Hread), Hwf as [_ Hlen].
    destruct (d_buildFile_spec full c [] Hread) as (k & h & new & -> & Ht & Hv & Hl). cbn [Z.eqb Pos.eqb S_IFREG S_IFLNK app]. rsimpl.
    destruct (finish_entry full (NFile m c) (set_content (base_entry name (NFile m c)) (kb k)) new Hm (Hxs eq_refl))
      as (xin & xkey & new2 & -> & Hst & Henc); [done..|by apply key_ok|]. eexists _, _. split_and!; [done| |done].
    eapply stored_file; [done| |done|done| |].
    + eapply xattrs_stored_mono; [exact Hst|set_solver].
    + rewrite Hl. apply u64_small. unfold is_u64. lia.
    + eapply file_tree_mono; [exact Ht|done|set_solver].
  - apply bind_Ok in Hp as (sub & -> & Hp). cbn [Z.eqb Pos.eqb S_IFREG S_IFDIR S_IFLNK]. rsimpl.
    assert (∃ ch', n' = NDir m ch') as [ch' ->] by (cbn in Hp; apply bind_Ok in Hp as (ch' & _ & [= <-]); eauto).
    destruct (Hbd m ch m ch' sub eq_refl Hp) as (k & new & -> & (h & es & Ht & Hes) & Hv). rsimpl.
    destruct (finish_entry full (NDir m ch) (set_content (base_entry name (NDir m ch)) (kb k)) new Hm (Hxs eq_refl))
      as (xin & xkey & new2 & -> & Hst & Henc); [done..|by apply key_ok|]. eexists _, _. split_and!; [done| |done].
    eapply stored_dir; [done| |done|done| |].
    + eapply xattrs_stored_mono; [exact Hst|set_solver].
    + eapply dir_tree_mono; [exact Ht|done|set_solver].
    + eapply stored_all_mono; [|exact Hes]. apply Forall_true. intros p e0 nm. apply stored_mono. set_solver.
  - cbn in Hp. injection Hp as <-. destruct Hat as (_ & _ & ->). cbn [Z.eqb Pos.eqb S_IFREG S_IFDIR S_IFLNK]. rsimpl.
    eexists _, _. split_and!; [done| |].
    + apply stored_link; [done|by left|done].
    + split_and!; [done|split; by left|apply marshal_entry_ok].
  - cbn in Hp. injection Hp as <-. destruct Hwf as [_ Hr].
    assert (deviceNumbers info = (Major r, Minor r)) as Edev.
    { unfold deviceNumbers. rewrite Einfo, (u64_small r) by done. pose proof (Major_range r). pose proof (Minor_range r).
      unfold is_u32 in *. rewrite !u64_small by (unfold is_u64; lia). done. }
    rewrite Edev. assert (entry_wf (set_rdev (base_entry name (NDev m chr r)) [Major r; Minor r])) as Hew'.
    { destruct Hew as (Hw1 & Hw2 & Hw3 & Hw4 & _). do 4 (split; [done|]). pose proof (Major_range r). pose proof (Minor_range r).
      unfold is_u32 in *. repeat constructor; cbn; lia. }
    destruct (finish_entry full (NDev m chr r) (set_rdev (base_entry name (NDev m chr r)) [Major r; Minor r]) [] Hm (Hxs eq_refl))
      as (xin & xkey & new2 & Hadd & Hst & Henc); [done..|by left|].
    exists (set_xattrs (set_rdev (base_entry name (NDev m chr r)) [Major r; Minor r]) xin xkey), new2.
    split_and!; [by destruct chr|by apply stored_dev|done].
  - cbn in Hp. injection Hp as <-.
    destruct (finish_entry full (NFifo m) (base_entry name (NFifo m)) [] Hm (Hxs eq_refl))
      as (xin & xkey & new2 & Hadd & Hst & Henc); [done..|by left|].
    eexists _, _. split_and!; [exact Hadd|by apply stored_fifo|done].
  - cbn in Hp. injection Hp as <-.
    destruct (finish_entry full (NSock m) (base_entry name (NSock m)) [] Hm (Hxs eq_refl))
      as (xin & xkey & new2 & Hadd & Hst & Henc); [done..|by left|].
    eexists _, _. split_and!; [exact Hadd|by apply stored_sock|done].
Qed.

(** A worker's result that stores a child. *)
Definition stores (r : result (Entry * list Object)) (p : bytes * node) : Prop :=
  ∃ e new, r = Ok (e, new) ∧ stored new e p.1 p.2 ∧ encodable e.

Lemma seq_stores rs ch : Forall2 stores rs ch → ∀ db log es0,
  db_inv (ic d) db log es0 →
  ∃ db' new es, foldR seq_step rs (db, log) = Ok (db', log ++ new) ∧ db_inv (ic d) db' (log ++ new) (es0 ++ es) ∧
    Forall2 (λ e p, stored new e p.1 p.2) es ch.
Proof.
  destruct Hd as [Hic Hmax _]. induction 1 as [|r p rs ch (e & n & -> & Hst & Henc) _ IH]; intros db log es0 Hinv.
  { exists db, [], []. rewrite !app_nil_r. split_and!; [done..|constructor]. }
  cbn [foldR seq_step]. rsimpl.
  destruct (AddEntry_spec (ic d) Hic Hmax db (log ++ n) es0 e) as (db1 & new1 & -> & Hinv1);
    [eapply db_inv_mono; [exact Hinv|set_solver]|done|]. rsimpl.
  destruct (IH db1 ((log ++ n) ++ new1) (es0 ++ [e]) Hinv1) as (db' & new & es & -> & Hinv' & Hes).
  exists db', (n ++ new1 ++ new), (e :: es). split_and!.
  - by rewrite <- !app_assoc.
  - rewrite <- !app_assoc in Hinv'. done.
  - constructor; [eapply stored_mono; [|exact Hst]; set_solver|].
    eapply stored_all_mono; [|exact Hes]. apply Forall_true. intros q e0 nm. apply stored_mono. set_solver.
Qed.

(** A directory of workers that all store their child. *)
Lemma dir_stores rs ch s : Forall2 stores rs ch →
  ∃ k new, ('(db, s) ← foldR seq_step rs (NewDirBuilder (ic d), s); DirBuilder_Finish emit_log db s) = Ok (k, s ++ new) ∧
    stored_children (s ++ new) k ch ∧ Validate k = Ok tt.
Proof.
  intros Hrs. pose proof Hd as [Hic Hmax _]. destruct rs as [|r rs].
  { apply Forall2_nil_inv_l in Hrs as ->. cbn [foldR]. rsimpl.
    destruct (finish_empty (ic d) Hic Hmax s) as (k & new & -> & Ht & Hv). exists k, new. split_and!; [done| |done].
    exists 1%nat, []. by split. }
  destruct (seq_stores _ _ Hrs (NewDirBuilder (ic d)) s []) as (db & new & es & -> & Hinv & Hes); [by apply db_inv_new|]. rsimpl.
  destruct (DirFinish_spec (ic d) Hic Hmax _ _ _ Hinv) as (k & h & new2 & -> & Ht & Hv).
  { apply Forall2_length in Hes. apply Forall2_length in Hrs. intros E. rewrite app_nil_l in E. subst es. cbn in *. lia. }
  exists k, (new ++ new2). rewrite <- app_assoc in *. split_and!; [done| |done]. exists h, es. split; [done|].
  eapply stored_all_mono; [|exact Hes]. apply Forall_true. intros q e0 nm. apply stored_mono. set_solver.
Qed.

(** [n] is stored when it is built as a directory. *)
Definition builds (n : node) : Prop := ∀ m ch m' ch' path ign fuel,
  n = NDir m ch → at_path path n → node_wf n → prune ign path n = Ok (NDir m' ch') → (depth n ≤ fuel)%nat →
  ∃ k new, d_buildDir emit_log d fuel path ign [] = Ok (k, new) ∧ stored_children new k ch' ∧ Validate k = Ok tt.

Lemma children_store path ign fuel ch : Forall (λ p, builds p.2) ch → ∀ ch',
  foldr (λ p P, at_path (Join path p.1) p.2 ∧ P) True ch → foldr (λ p P, node_wf p.2 ∧ P) True ch →
  (foldr (λ p acc, Nat.max (depth p.2) acc) O ch ≤ fuel)%nat →
  foldr (λ p rest,
    if Ignored ign p.1 (node_dir p.2) then rest else
    let full := Join path p.1 in
    sub ← (if node_dir p.2 then Descend ign full p.1 else Ok ign);
    c ← prune sub full p.2;
    rest ← rest;
    Ok ((p.1, c) :: rest)) (Ok []) ch = Ok ch' →
  Forall2 stores ((λ de, buildEntry emit_log d (Join path (de_Name de)) (de_Name de) ign (d_buildDir emit_log d fuel) []) <$>
    filter (λ de, Ignored ign (de_Name de) (de_IsDir de) = false) ((λ p, mkDirEntry p.1 (node_dir p.2)) <$> ch)) ch'.
Proof.
  induction 1 as [|[c n] ch Hc _ IH]; intros ch'; cbn [foldr fst snd].
  { intros _ _ _ [= <-]. constructor. }
  intros [Hat Hats] [Hwf Hwfs] Hdep Hp. rewrite fmap_cons. cbn [fst snd].
  destruct (Ignored ign c (node_dir n)) eqn:E.
  { rewrite filter_cons_False by (cbn; by rewrite E). apply IH; [done|done|lia|done]. }
  rewrite filter_cons_True by done. rewrite fmap_cons. cbv zeta in Hp.
  apply bind_Ok in Hp as (sub & Hsub & Hp). apply bind_Ok in Hp as (n' & Hn & Hp).
  apply bind_Ok in Hp as (rest & Hrest & [= <-]). constructor; [|apply IH; [done|done|lia|done]].
  cbn [de_Name]. apply (buildEntry_spec _ _ _ _ n n'); [done|done|by rewrite Hsub|].
  intros m ch1 m' ch1' sub' -> Hpr. eapply Hc; [done|done|done|exact Hpr|cbn [snd] in *; lia].
Qed.

Lemma all_build n : builds n.
Proof.
  induction n as [| | | | |m ch IH] using node_rect'; intros m0 ch0 m' ch' path ign fuel E Hat Hwf Hp Hdep; try done.
  injection E as <- <-. cbn [depth] in Hdep. destruct fuel as [|fuel]; [lia|]. destruct Hat as (_ & _ & Hread & Hats).
  destruct Hwf as (_ & _ & Hwfs). cbn [prune] in Hp. apply bind_Ok in Hp as (ch1 & Hp & [= <- <-]).
  cbn [d_buildDir]. rewrite Hread. rsimpl. rewrite seq_steps by (intros; apply d_buildDir_framed).
  apply dir_stores. apply children_store; [done..|lia|done].
Qed.

Lemma ingest_dir sched fuel path ign m ch ch' :
  at_path path (NDir m ch) → node_wf (NDir m ch) → prune ign path (NDir m ch) = Ok (NDir m ch') →
  (depth (NDir m ch) ≤ fuel)%nat →
  ∃ k log, pb_buildDir sched d fuel path ign [] = Ok (k, log) ∧ stored_children log k ch' ∧ Validate k = Ok tt ∧
    Forall good_obj log.
Proof.
  intros Hat Hwf Hp Hf. destruct (all_build _ _ _ _ _ path ign fuel eq_refl Hat Hwf Hp Hf) as (k & new & Hb & (h & es & Ht & Hes) & Hv).
  destruct (pb_agrees d sched fuel path ign) as (_ & _ & Hseq). destruct (Hseq k new Hb) as (log & Hlog & Hperm).
  exists k, log. assert (new ⊆ log) as Hsub by (intros o; by rewrite Hperm). split_and!; [done| |done|].
  - exists h, es. split; [by eapply dir_tree_mono|]. eapply stored_all_mono; [|exact Hes]. apply Forall_true.
    intros q e0 nm. by apply stored_mono.
  - rewrite Hperm. by eapply (proj2 (d_buildDir_framed d fuel path ign)).
Qed.
End ingest.
