(* ===== verification/PosixFacts.v ===== *)
(** * Nodes in the concrete file system

    [fs_has] says that a file system has a node under a path of real directories;
    the calls of [os_of] then find that node ([fs_at_path]). *)

From Stdlib Require Import Init.Byte.
From S2P Require Import Prelude Machine FsRead Path Posix Ignore Ingest IngestFacts.
From Stdlib Require Import ZifyBool ZifyNat.
Local Open Scope Z_scope.

(** Every component of [p] names a directory, no link among them. *)
Definition real_dir (fs : FS) (p : list bytes) : Prop :=
  Forall plain_name p ∧ ∀ q c r, p = q ++ c :: r → ∃ i, fs !! (q ++ [c]) = Some i ∧ i_dir i = true.

Lemma real_dir_nil fs : real_dir fs [].
Proof. split; [constructor|]. by intros [] c r [=]. Qed.

Lemma real_dir_snoc fs p c i : real_dir fs p → plain_name c → fs !! (p ++ [c]) = Some i → i_dir i = true →
  real_dir fs (p ++ [c]).
Proof.
  intros [Hp Hd] Hc Hi Hdir. split; [apply Forall_app; split; [done|by apply Forall_singleton]|]. intros q c' r E.
  destruct r as [|c2 r _] using rev_ind.
  - apply app_inj_tail in E as [-> ->]. eauto.
  - rewrite app_comm_cons, app_assoc in E. apply app_inj_tail in E as [E _]. by eapply Hd.
Qed.

Lemma dir_not_link i : i_dir i = true → i_link i = false.
Proof. unfold i_dir, i_link. intros ->%Z.eqb_eq. done. Qed.

Lemma plain_skip c : plain_name c → comp_skip c = false ∧ comp_dotdot c = false.
Proof.
  intros (H1 & H2 & H3 & _). unfold comp_skip, comp_dotdot. fold dot dotdot. by rewrite !bool_decide_eq_false_2.
Qed.

(** One step of [walk] through a directory. *)
Lemma walk_dir links fs follow cur c rest i :
  plain_name c → fs !! (cur ++ [c]) = Some i → i_dir i = true →
  walk links fs follow cur (c :: rest) = walk links fs follow (cur ++ [c]) rest.
Proof.
  intros Hc Hi Hd. destruct (plain_skip c Hc) as [E1 E2].
  destruct links; cbn [walk]; rewrite E1, E2, Hi, (dir_not_link i Hd), Hd; done.
Qed.

Lemma walk_real links fs follow p : ∀ cur rest, Forall plain_name p →
  (∀ q c r, p = q ++ c :: r → ∃ i, fs !! (cur ++ q ++ [c]) = Some i ∧ i_dir i = true) →
  walk links fs follow cur (p ++ rest) = walk links fs follow (cur ++ p) rest.
Proof.
  induction p as [|c p IH]; intros cur rest Hp Hd; [by rewrite app_nil_r|]. apply Forall_cons in Hp as [Hc Hp].
  destruct (Hd [] c p eq_refl) as (i & Hi & Hdir). cbn [app] in Hi |- *. rewrite (walk_dir _ _ _ _ _ _ i) by done.
  rewrite IH; [by rewrite <- app_assoc|done|]. intros q c' r ->. destruct (Hd (c :: q) c' r eq_refl) as (j & Hj & ?).
  exists j. by rewrite <- app_assoc.
Qed.

Lemma walk_nil links fs follow cur : walk links fs follow cur [] = Ok cur.
Proof. by destruct links. Qed.

(** The last component: found, absent, or a link that is not followed. *)
Lemma walk_last links fs follow cur c :
  plain_name c → (∀ i, fs !! (cur ++ [c]) = Some i → follow = true → i_link i = false) →
  walk links fs follow cur [c] = Ok (cur ++ [c]).
Proof.
  intros Hc Hl. destruct (plain_skip c Hc) as [E1 E2].
  destruct links; cbn [walk]; rewrite E1, E2; destruct (fs !! (cur ++ [c])) as [i|] eqn:Hi; try done;
    (destruct (i_link i) eqn:E; [|by destruct (i_dir i)]);
    (destruct follow; [by rewrite (Hl i eq_refl eq_refl) in E|done]).
Qed.

Section resolve.
Context (fs : FS) (cwd : list bytes).

Lemma path_text_ne rooted p : Forall plain_name p → path_text rooted p ≠ [].
Proof.
  intros Hf. unfold path_text. destruct p as [|c p]; [by destruct rooted|]. apply Forall_cons in Hf as [(Hc & _) _].
  destruct rooted; [done|]. destruct c; [done|]. by destruct p.
Qed.

(** Absolute paths with plain components. *)
Lemma resolve_text follow p : Forall plain_name p →
  resolve fs cwd follow (path_text true p) = walk max_links fs follow [] p.
Proof.
  intros Hp. unfold resolve. destruct (path_text true p) as [|x l] eqn:E; [by apply path_text_ne in E|]. rewrite <- E.
  rewrite path_text_rooted by done. destruct p as [|c p]; [done|].
  rewrite split_path_text by done. done.
Qed.

Lemma resolve_dir follow p : real_dir fs p → resolve fs cwd follow (path_text true p) = Ok p.
Proof.
  intros [Hp Hd]. rewrite resolve_text by done. rewrite <- (app_nil_r p) at 1. rewrite walk_real by done. apply walk_nil.
Qed.

Lemma resolve_child follow p c : real_dir fs p → plain_name c →
  (∀ i, fs !! (p ++ [c]) = Some i → follow = true → i_link i = false) →
  resolve fs cwd follow (path_text true (p ++ [c])) = Ok (p ++ [c]).
Proof.
  intros [Hp Hd] Hc Hl. rewrite resolve_text by (apply Forall_app; split; [done|by apply Forall_singleton]).
  rewrite walk_real by done. by apply walk_last.
Qed.
End resolve.

(** ** Directories *)
Lemma child_of_spec dir p c : child_of dir p = Some c ↔ p = dir ++ [c].
Proof.
  unfold child_of. split.
  - destruct (last p) as [c'|]; [|done]. case_bool_decide; [|done]. by intros [= <-].
  - intros ->. rewrite last_snoc. by rewrite bool_decide_eq_true_2.
Qed.

Lemma children_elem fs dir c : c ∈ children fs dir ↔ is_Some (fs !! (dir ++ [c])).
Proof.
  unfold children. rewrite merge_sort_Permutation, list_elem_of_omap. split.
  - intros (p & ([q i] & E & Hq%elem_of_map_to_list)%list_elem_of_fmap & ->%child_of_spec). cbn in E. subst q. by exists i.
  - intros [i Hi]. exists (dir ++ [c]). split; [|by apply child_of_spec]. apply list_elem_of_fmap.
    exists (dir ++ [c], i). split; [done|]. by apply elem_of_map_to_list.
Qed.

Lemma omap_NoDup {A B} (f : A → option B) l :
  (∀ x y b, f x = Some b → f y = Some b → x = y) → NoDup l → NoDup (omap f l).
Proof.
  intros Hf. induction 1 as [|x l Hx _ IH]; [constructor|]. cbn. destruct (f x) as [b|] eqn:E; [|done].
  constructor; [|done]. intros (y & Hy & Hb)%list_elem_of_omap. by rewrite (Hf x y b) in Hx.
Qed.

Lemma sorted_lt_unique (l1 l2 : list bytes) :
  StronglySorted bytes_le l1 → NoDup l1 → StronglySorted bytes_lt l2 → (∀ c, c ∈ l1 ↔ c ∈ l2) → l1 = l2.
Proof.
  intros H1 Hn1 H2 Helem. assert (NoDup l2) as Hn2.
  { clear -H2. induction H2 as [|x l _ IH Hx]; constructor; [|done]. intros Hin. rewrite Forall_forall in Hx.
    by apply (bytes_lt_irrefl x), Hx. }
  apply (StronglySorted_unique bytes_le); [done| |by apply NoDup_Permutation].
  clear -H2. induction H2 as [|x l _ IH Hx]; constructor; [done|]. eapply Forall_impl; [exact Hx|].
  intros y Hy. apply bytes_le_lteq. by left.
Qed.

Lemma children_sorted fs dir names : StronglySorted bytes_lt names →
  (∀ c, is_Some (fs !! (dir ++ [c])) ↔ c ∈ names) → children fs dir = names.
Proof.
  intros Hs Hc. apply sorted_lt_unique; [apply StronglySorted_merge_sort; apply _| |done|].
  - unfold children. rewrite merge_sort_Permutation. apply omap_NoDup; [|apply NoDup_fst_map_to_list].
    intros p q c ->%child_of_spec ->%child_of_spec. done.
  - intros c. by rewrite children_elem, Hc.
Qed.

(** ** Nodes *)
Definition inode_is (i : inode) (n : node) : Prop :=
  i_mode i = node_mode n ∧ i_uid i = n_uid (node_meta n) ∧ i_gid i = n_gid (node_meta n) ∧
  i_mtime i = n_mtime (node_meta n) ∧ i_xattrs i = n_xattrs (node_meta n) ∧
  match n with
  | NFile _ c => i_data i = c
  | NLink _ t => i_data i = t
  | NDev _ _ rdev => i_rdev i = rdev
  | _ => True
  end.

Fixpoint fs_has (fs : FS) (p : list bytes) (n : node) : Prop :=
  (∃ i, fs !! p = Some i ∧ inode_is i n) ∧
  match n with
  | NDir _ ch =>
      (∀ c, is_Some (fs !! (p ++ [c])) ↔ c ∈ ch.*1) ∧
      foldr (λ q P, (plain_name q.1 ∧ fs_has fs (p ++ [q.1]) q.2) ∧ P) True ch
  | _ => True
  end.

Lemma inode_dir i n : meta_wf (node_meta n) → inode_is i n → i_dir i = node_dir n ∧ i_link i = node_link n.
Proof.
  intros Hm (Emode & _). unfold i_dir, i_link, fmt. rewrite Emode, node_mode_type by done. by destruct n as [| | |? []| |].
Qed.

(** The proper prefixes of [p] are real directories. *)
Definition located (fs : FS) (p : list bytes) : Prop :=
  p = [] ∨ ∃ q c, p = q ++ [c] ∧ real_dir fs q ∧ plain_name c.

Lemma located_plain fs p : located fs p → Forall plain_name p.
Proof. intros [->|(q & c & -> & [Hq _] & Hc)]; [constructor|]. apply Forall_app; split; [done|by apply Forall_singleton]. Qed.

Lemma located_resolve fs cwd follow p : located fs p →
  (∀ i, fs !! p = Some i → follow = true → i_link i = false) → resolve fs cwd follow (path_text true p) = Ok p.
Proof. intros [->|(q & c & -> & Hq & Hc)] Hl; [apply resolve_dir, real_dir_nil|by apply resolve_child]. Qed.

Lemma located_real fs p i : located fs p → fs !! p = Some i → i_dir i = true → real_dir fs p.
Proof. intros [->|(q & c & -> & Hq & Hc)] Hi Hd; [apply real_dir_nil|by eapply real_dir_snoc]. Qed.

Lemma real_located fs p : real_dir fs p → located fs p.
Proof.
  destruct p as [|c p _] using rev_ind; [by left|]. intros [Hp Hd]. apply Forall_app in Hp as [Hp Hc]. rewrite Forall_singleton in Hc.
  right. exists p, c. split_and!; [done| |done]. split; [done|]. intros q c' r ->. eapply (Hd q c' (r ++ [c])). by rewrite <- app_assoc.
Qed.

Lemma located_child fs p c : real_dir fs p → plain_name c → located fs (p ++ [c]).
Proof. intros Hp Hc. right. by exists p, c. Qed.

Section at_path_fs.
Context (fs : FS) (cwd : list bytes).
#[local] Instance os_fs : OS := os_of fs cwd.

Lemma located_lookup follow p i : located fs p → fs !! p = Some i → (follow = true → i_link i = false) →
  lookup_path fs cwd follow (path_text true p) = Ok i.
Proof.
  intros Hp Hi Hl. unfold lookup_path. rewrite located_resolve; [|done|intros j Hj; simplify_eq; done]. rsimpl. by rewrite Hi.
Qed.

Lemma fs_xattrs p i : located fs p → fs !! p = Some i → xattrs_are (path_text true p) (i_xattrs i).
Proof.
  intros Hp Hi. split.
  - exists (map_to_list (i_xattrs i)).*1. split; [done|]. intros size. cbn. unfold list_xattr.
    rewrite (located_lookup false p i) by done. rsimpl. unfold xattr_list. by rewrite <- list_fmap_compose.
  - intros name v Hv size. cbn. unfold get_xattr. rewrite (located_lookup false p i) by done. rsimpl. by rewrite Hv.
Qed.

Lemma fs_lstat p i n : located fs p → fs !! p = Some i → inode_is i n →
  lstat_is (path_text true p) n ∧ xattrs_are (path_text true p) (n_xattrs (node_meta n)).
Proof.
  intros Hp Hi (Hm & Hu & Hg & Ht & Hx & Hd). split.
  - exists (i_info i). split; [cbn; by rewrite (located_lookup false p i)|]. split_and!; [done..|]. destruct n; cbn; by subst.
  - rewrite <- Hx. by apply fs_xattrs.
Qed.

Lemma dir_entries_spec p ch :
  StronglySorted bytes_lt ch.*1 → (∀ c, is_Some (fs !! (p ++ [c])) ↔ c ∈ ch.*1) →
  Forall (λ q : bytes * node, ∃ i, fs !! (p ++ [q.1]) = Some i ∧ i_dir i = node_dir q.2) ch →
  (λ c, mkDirEntry c (match fs !! (p ++ [c]) with Some j => i_dir j | None => false end)) <$> children fs p =
  (λ q, mkDirEntry q.1 (node_dir q.2)) <$> ch.
Proof.
  intros Hs Hc Hall. rewrite (children_sorted fs p ch.*1) by done. rewrite <- list_fmap_compose.
  clear Hs Hc. induction Hall as [|[c n] ch (i & Hi & Hd) _ IH]; [done|]. rewrite !fmap_cons, IH. cbn in *. by rewrite Hi, Hd.
Qed.

Lemma node_wf_meta n : node_wf n → meta_wf (node_meta n).
Proof. by destruct n; intros [? _]. Qed.

Lemma fs_at_path n : node_wf n → ∀ p, located fs p → fs_has fs p n → at_path (path_text true p) n.
Proof.
  induction n as [m c|m t|m chr r|m|m|m ch IH] using node_rect'; intros Hwf p Hp [(i & Hi & His) Hrest];
    pose proof (node_wf_meta _ Hwf) as Hm; destruct (inode_dir i _ Hm His) as [Hdir Hlink];
    destruct (fs_lstat p i _ Hp Hi His) as [Hls Hxs]; (split; [exact Hls|split; [by intros _|]]).
  - cbn. unfold read_file. rewrite (located_lookup true p i) by done. rsimpl. rewrite Hdir. by destruct His as (_ & _ & _ & _ & _ & ->).
  - cbn. unfold read_link. rewrite (located_lookup false p i) by done. rsimpl. rewrite Hlink. by destruct His as (_ & _ & _ & _ & _ & ->).
  - done.
  - done.
  - done.
  - destruct Hrest as [Hc Hch], Hwf as (_ & Hs & Hwfs). pose proof (located_real fs p i Hp Hi Hdir) as Hreal.
    assert (Forall (λ q : bytes * node, (plain_name q.1 ∧ fs_has fs (p ++ [q.1]) q.2) ∧ node_wf q.2 ∧
      (∀ p, located fs p → fs_has fs p q.2 → at_path (path_text true p) q.2)) ch) as Hall.
    { clear -IH Hch Hwfs. induction IH as [|q ch Hq _ IHf]; [constructor|]. destruct Hch as [? Hch], Hwfs as [? Hwfs].
      constructor; [|by apply IHf]. split_and!; [naive_solver..|]. by apply Hq. }
    split.
    + cbn [os_ReadDir os_fs os_of]. unfold read_dir. rewrite resolve_dir by done. rsimpl. rewrite Hi, Hdir. f_equal.
      apply dir_entries_spec; [done..|]. eapply Forall_impl; [exact Hall|]. intros [c n] ((_ & Hn) & Hnw & _). cbn in *.
      destruct n; destruct Hn as [(j & Hj & Hjs) _]; exists j; (split; [done|]); by apply (inode_dir j _ (node_wf_meta _ Hnw) Hjs).
    + clear -Hall Hreal. induction Hall as [|[c n] ch ((Hpc & Hn) & _ & Hat) _ IHf]; [done|]. split; [|apply IHf].
      cbn [fst snd] in *. rewrite Join_text; [|by destruct Hreal|done]. apply Hat; [by apply located_child|done].
Qed.
End at_path_fs.
