(* ===== verification/IngestSpec.v ===== *)
(** * The contract of an ingest, and an application

    The pack that [ingest] writes for a directory holds exactly the directory, less
    what the ignore files exclude. *)

From Stdlib Require Import Init.Byte.
From S2P Require Import Prelude Machine Key Cborx Chunkers FsEncode Instances FsTree FsBuild FsRead PackRecord PackStream Packstore Path Posix Ignore Ingest IngestPar IngestFacts PosixFacts.
From Stdlib Require Import ZifyBool ZifyNat.
Local Open Scope Z_scope.

(** A configuration of the chunkers that works: at most 2^15 items in a run on
    average, and sizes that the byte chunker accepts. *)
Definition config_ok `{Cdc} (cc : chunkConfig) : Prop :=
  0 <= itemBits cc <= 15 ∧ ∃ opts, cc_byteOpts cc = Ok opts ∧ ∀ content, is_ok (NewChunker opts content) = true.

Lemma write_pack_fits `{Zstd} objs : Forall (λ o, zlen (obj_bytes o) <= MaxPayload) objs → ∀ w,
  ∃ w', foldR (λ o pw, Add write_all pw o) objs w = Ok w'.
Proof.
  induction 1 as [|o objs Ho _ IH]; intros w; [by eexists|]. cbn [foldR]. rewrite Add_spec. unfold EncodeRecord, payloadFits.
  replace (zlen (obj_bytes o) <=? MaxPayload) with true by lia. cbn. destruct (zlen _ <? zlen _); cbn; apply IH.
Qed.

Section spec.
Context `{Blake3} `{Cbor} `{!CborLaws} `{!CborTotal} `{OS} `{GitIgnore} `{Cdc} `{!CdcLaws} `{UnixDev} `{!UnixDevLaws} `{Zstd}.

Lemma writePack_tree sched fuel path ign cc partial m ch ch' :
  config_ok cc → at_path path (NDir m ch) → node_wf (NDir m ch) →
  prune ign path (NDir m ch) = Ok (NDir m ch') → (depth (NDir m ch) ≤ fuel)%nat →
  ∃ root objs, stored_children objs root ch' ∧ Validate root = Ok tt ∧ Forall good_obj objs ∧
    writePack write_all sched fuel [] path true ign cc partial = (out ← write_pack write_all objs []; Ok (root, out)).
Proof.
  intros (Hbits & opts & Hopts & Hacc) Hat Hwf Hp Hf.
  destruct (proj1 (is_ok_true (NewItemChunker (itemBits cc)))) as [c Hic].
  { unfold NewItemChunker. by replace (itemBits cc <? 0) with false by lia. }
  destruct (NewItemChunker_ok (itemBits cc) c ltac:(lia) Hic) as (Hok & _ & Hmax).
  set (d := mkDriver _ c opts (cc_xattrInlineMax cc)).
  assert (driver_ok d) as Hd.
  { split; [done| |done]. cbn [ic d]. rewrite Hmax. pose proof (Z.pow_le_mono_r 2 (itemBits cc) 15 ltac:(lia) ltac:(lia)) as Hpow.
    unfold MaxArrayElements. rewrite Z2Nat.id by lia. change (2 ^ 15) with 32768 in Hpow. lia. }
  destruct (ingest_dir d Hd sched fuel path ign m ch ch' Hat Hwf Hp Hf) as (root & objs & Hb & Hst & Hv & Hgood).
  exists root, objs. split_and!; [done..|]. unfold writePack. rewrite Hopts, Hic. rsimpl. fold d. rewrite Hb.
  cbn [ingestObjects]. unfold write_pack. by destruct (foldR _ objs _) as [pw|e| |].
Qed.

Lemma good_valid objs : Forall good_obj objs → Forall (λ o, Validate (obj_key o) = Ok tt) objs.
Proof. intros Hg. eapply Forall_impl; [exact Hg|by intros o []]. Qed.

Lemma ingest_stored sched fuel path ign cc partial m ch ch' :
  config_ok cc → at_path path (NDir m ch) → node_wf (NDir m ch) →
  prune ign path (NDir m ch) = Ok (NDir m ch') → (depth (NDir m ch) ≤ fuel)%nat →
  ∃ root objs, stored_children objs root ch' ∧ Validate root = Ok tt ∧ Forall good_obj objs ∧
    (Forall (λ o, zlen (obj_bytes o) <= MaxPayload) objs →
     ∃ out, writePack write_all sched fuel [] path true ign cc partial = Ok (root, out) ∧
       ∀ rest, All (out ++ rest) = (objs, Ok tt)).
Proof.
  intros Hcc Hat Hwf Hp Hf. destruct (writePack_tree sched fuel path ign cc partial m ch ch' Hcc Hat Hwf Hp Hf) as (root & objs & Hst & Hv & Hgood & ->).
  exists root, objs. split_and!; [done..|]. intros Hfit. destruct (write_pack_fits objs Hfit (NewWriter [])) as [pw Hpw].
  assert (∃ out, PackStream.Close write_all pw = Ok out) as [out Hout] by (destruct pw as [b []]; by eexists).
  assert (write_pack write_all objs [] = Ok out) as Hw by (unfold write_pack; by rewrite Hpw).
  exists out. rewrite Hw. split; [done|]. intros rest. by apply All_pack; [apply good_valid|].
Qed.

(** A pack that is written holds the tree. *)
Lemma ingest_written sched fuel path ign cc partial m ch ch' root out :
  config_ok cc → at_path path (NDir m ch) → node_wf (NDir m ch) →
  prune ign path (NDir m ch) = Ok (NDir m ch') → (depth (NDir m ch) ≤ fuel)%nat →
  writePack write_all sched fuel [] path true ign cc partial = Ok (root, out) →
  ∃ objs, stored_children objs root ch' ∧ Validate root = Ok tt ∧ All out = (objs, Ok tt).
Proof.
  intros Hcc Hat Hwf Hp Hf. destruct (writePack_tree sched fuel path ign cc partial m ch ch' Hcc Hat Hwf Hp Hf) as (root' & objs & Hst & Hv & Hgood & ->).
  intros (out' & Hw & [= <- <-])%bind_Ok. exists objs. split_and!; [done..|]. rewrite <- (app_nil_r out'). by apply All_pack; [apply good_valid|].
Qed.

(** C10. Ingesting a directory succeeds for every schedule of the workers, and what it
    writes is exactly the tree: the root key holds, entry by entry and with all
    metadata, attributes and content, the directory without what its ignore files
    exclude.  Every object carries the key derived from its bytes, and the pack reads
    back as these objects. *)
Theorem ingest_stores sched fuel path ign cc partial m ch ch' :
  config_ok cc → at_path path (NDir m ch) → node_wf (NDir m ch) →
  prune ign path (NDir m ch) = Ok (NDir m ch') → (depth (NDir m ch) ≤ fuel)%nat →
  ∃ root objs, stored_children objs root ch' ∧ Validate root = Ok tt ∧ Forall good_obj objs ∧
    (Forall (λ o, zlen (obj_bytes o) <= MaxPayload) objs →
     ∃ out, writePack write_all sched fuel [] path true ign cc partial = Ok (root, out) ∧
       ∀ rest, All (out ++ rest) = (objs, Ok tt)).
Proof. exact (ingest_stored sched fuel path ign cc partial m ch ch'). Qed.
End spec.

(** ** Instances of the libraries *)

(** Content in one piece. *)
Definition cdc_example : Cdc := {|
  ByteOpts := Z * Z * Z;
  mkByteOpts a b c := (a, b, c);
  NewChunker opts content := Ok [(content, EOF)];
|}.

Definition cdc_example_laws : @CdcLaws cdc_example.
Proof. split. intros opts content nexts [= <-]. exists [], content. done. Qed.

Definition dev_example : UnixDev := {|
  Major d := Z.shiftr d 32 mod 2 ^ 32; Minor d := d mod 2 ^ 32; Mkdev a b := a * 2 ^ 32 + b;
|}.

Definition dev_example_laws : @UnixDevLaws dev_example.
Proof.
  split; cbn [Major Minor Mkdev dev_example].
  - intros d. apply Z.mod_pos_bound. lia.
  - intros d. apply Z.mod_pos_bound. lia.
  - intros d Hd. unfold is_u64 in Hd. rewrite Z.shiftr_div_pow2 by lia.
    assert (0 <= d / 2 ^ 32 < 2 ^ 32) by (split; [apply Z.div_pos; lia|apply Z.div_lt_upper_bound; lia]).
    rewrite Z.mod_small by done. pose proof (Z.div_mod d (2 ^ 32)). lia.
Qed.

(** Patterns that are names. *)
Definition ignore_example : GitIgnore := {|
  Pattern := bytes;
  GMatcher := list bytes;
  ParsePattern line _ := line;
  NewMatcher ps := ps;
  GMatch ps path _ := match last path with Some c => bool_decide (c ∈ ps) | None => false end;
|}.

Definition cbor_example_total : @CborTotal cbor_example.
Proof. by split. Qed.

(** ** An application: the directory "/d" with a file, a link, and a file that is
    ignored *)
Section example.
#[local] Existing Instance blake3_example.
#[local] Existing Instance cbor_example.
#[local] Existing Instance cbor_example_laws.
#[local] Existing Instance cbor_example_total.
#[local] Existing Instance zstd_example.
#[local] Existing Instance cdc_example.
#[local] Existing Instance cdc_example_laws.
#[local] Existing Instance dev_example.
#[local] Existing Instance dev_example_laws.
#[local] Existing Instance ignore_example.

Definition meta_example : nmeta := mkNmeta 0x1ED 1000 1000 1700000000123456789 ∅.
Definition file_node : node := NFile meta_example [x68; x69].
Definition link_node : node := NLink (mkNmeta 0x1FF 1000 1000 1700000000123456789 ∅) [x66].
Definition dir_node : node := NDir meta_example [([x66], file_node); ([x6c], link_node); ([x78], file_node)].

Definition inode_of (n : node) (data : bytes) : inode :=
  mkInode (node_mode n) (n_uid (node_meta n)) (n_gid (node_meta n)) (n_mtime (node_meta n)) 0 data (n_xattrs (node_meta n)).

Definition fs_example : FS :=
  <[ [] := inode_of dir_node [] ]> (<[ [[x64]] := inode_of dir_node [] ]>
    (<[ [[x64]; [x66]] := inode_of file_node [x68; x69] ]> (<[ [[x64]; [x6c]] := inode_of link_node [x66] ]>
      (<[ [[x64]; [x78]] := inode_of file_node [x68; x69] ]> ∅)))).
#[local] Instance os_example : OS := os_of fs_example [].

Definition ign_example : option Matcher := Some (mkMatcher [] [[x78]] [[x78]]).
Definition cc_example : chunkConfig := mkChunkConfig 0 0 0 7 256.

Lemma plain_byte c : c ≠ x2f → c ≠ x2e → plain_name [c].
Proof. intros Hs Hd. unfold plain_name, dot, dotdot, slash. rewrite list_elem_of_singleton. split_and!; congruence. Qed.

Lemma fs_example_has : fs_has fs_example [[x64]] dir_node.
Proof.
  split; [eexists; split; [vm_compute; reflexivity|split_and!; reflexivity]|]. split.
  - intros c. unfold fs_example. rewrite !lookup_insert_is_Some', lookup_empty. cbn. split.
    + intros Hc. repeat (destruct Hc as [Hc|Hc]; [first [discriminate Hc|injection Hc as <-; set_solver]|]). by apply is_Some_None in Hc.
    + intros Hc. rewrite !elem_of_cons, elem_of_nil in Hc. destruct Hc as [->|[->|[->|[]]]]; auto 10.
  - cbn [foldr fst snd]. split_and!; try done; try (by apply plain_byte);
      (split; [eexists; split; [vm_compute; reflexivity|split_and!; reflexivity]|done]).
Qed.

Lemma dir_node_wf : node_wf dir_node.
Proof.
  assert (meta_wf meta_example) as Hm.
  { split_and!; cbn; unfold is_u32; try lia. split; [apply map_Forall_empty|done]. }
  split; [done|]. split; [repeat constructor|]. cbn. split_and!; done || lia.
Qed.

Lemma d_real : real_dir fs_example [[x64]].
Proof.
  split; [constructor; [by apply plain_byte|constructor]|]. intros [|c0 q] c r E; [|by destruct q].
  injection E as <- <-. eexists. split; [vm_compute; reflexivity|reflexivity].
Qed.

Lemma ingest_stores_witness :
  ∃ root objs, stored_children objs root [([x66], file_node); ([x6c], link_node)] ∧ Forall good_obj objs.
Proof.
  destruct (ingest_stores (λ _, [1%nat; 0%nat]) 2 [x2f; x64] ign_example cc_example [] meta_example
    [([x66], file_node); ([x6c], link_node); ([x78], file_node)] [([x66], file_node); ([x6c], link_node)])
    as (root & objs & Hst & _ & Hgood & _).
  - split; [cbn; lia|]. exists None. by split.
  - exact (fs_at_path fs_example [] dir_node dir_node_wf [[x64]] (real_located _ _ d_real) fs_example_has).
  - exact dir_node_wf.
  - reflexivity.
  - cbn. lia.
  - by exists root, objs.
Defined.
End example.
