(* ===== verification/Tar.v ===== *)
(** * Packages [tarexport] and [tarextract]

    An archive is the list of its members, each a header and its content
    ([archive/tar] in PAX format carries names, times to the nanosecond and
    attribute records unchanged).  The writer checks what it is given; the reader
    may end in an error anywhere.  Extraction makes system calls on the concrete file
    system of Posix.v, each of which may fail. *)

From Stdlib Require Import Init.Byte Strings.String.
From S2P Require Import Prelude Machine Key Cborx Chunkers FsEncode FsTree FsRead Text Path Posix Ingest.
From Stdlib Require Import ZifyBool ZifyNat.
Local Open Scope Z_scope.

Inductive typeflag := TypeReg | TypeDir | TypeSymlink | TypeFifo | TypeChar | TypeBlock | TypeOther.

#[export] Instance typeflag_eq_dec : EqDecision typeflag.
Proof. solve_decision. Defined.

Record Header := mkHeader {
  h_Name : bytes; h_Mode : Z; h_Uid : Z; h_Gid : Z; h_ModTime : Z;
  h_Typeflag : typeflag; h_Size : Z; h_Linkname : bytes; h_Devmajor : Z; h_Devminor : Z;
  h_PAX : gmap bytes bytes;
}.

Abbreviation member := (Header * bytes)%type.

Definition xattrPrefix : bytes := Eval vm_compute in list_byte_of_string "SCHILY.xattr.".

(** ** The writer of [archive/tar] *)
Record tarWriter := mkTarWriter { tw_members : list member; tw_left : Z }.

Definition tar_NewWriter : tarWriter := mkTarWriter [] 0.

(** What the fixed fields of a header hold: texts of at most 100 ASCII bytes, numbers of
    seven or eleven octal digits.  Anything else goes into a record of the extended
    header ([allowedFormats]). *)
Definition octal_fits (digits n : Z) : bool := (0 <=? n) && (n <? 2 ^ (3 * digits)).
Definition text_fits (s : bytes) : bool := (zlen s <=? 100) && forallb (λ c, (0 <? b2z c) && (b2z c <? 128)) s.

(** [formatPAXTime]: a time in nanoseconds as seconds with a fraction, without the zeros
    at the end. *)
Fixpoint drop_zeros (l : bytes) : bytes := match l with x30 :: l => drop_zeros l | _ => l end.
Definition nine_digits (n : Z) : bytes := let d := FormatInt n in replicate (9 - length d) x30 ++ d.
Definition formatPAXTime (ns : Z) : bytes :=
  let secs := ns / 10 ^ 9 in
  let nsecs := ns mod 10 ^ 9 in
  if nsecs =? 0 then FormatInt secs else
  let '(sign, secs, nsecs) := if secs <? 0 then ([x2d], - (secs + 1), 10 ^ 9 - nsecs) else ([], secs, nsecs) in
  rev (drop_zeros (rev (sign ++ FormatInt secs ++ [x2e] ++ nine_digits nsecs))).

Definition paxPath : bytes := Eval vm_compute in list_byte_of_string "path".
Definition paxLinkpath : bytes := Eval vm_compute in list_byte_of_string "linkpath".
Definition paxUid : bytes := Eval vm_compute in list_byte_of_string "uid".
Definition paxGid : bytes := Eval vm_compute in list_byte_of_string "gid".
Definition paxSize : bytes := Eval vm_compute in list_byte_of_string "size".
Definition paxMtime : bytes := Eval vm_compute in list_byte_of_string "mtime".

(** The records of the extended header, and the bytes that they take there: each is
    preceded by its own length ([formatPAXRecord]). *)
Definition pax_fields (h : Header) : list (bytes * bytes) :=
  (if text_fits (h_Name h) then [] else [(paxPath, h_Name h)]) ++
  (if text_fits (h_Linkname h) then [] else [(paxLinkpath, h_Linkname h)]) ++
  (if octal_fits 7 (h_Uid h) then [] else [(paxUid, FormatInt (h_Uid h))]) ++
  (if octal_fits 7 (h_Gid h) then [] else [(paxGid, FormatInt (h_Gid h))]) ++
  (if octal_fits 11 (h_Size h) then [] else [(paxSize, FormatInt (h_Size h))]) ++
  (if octal_fits 11 (h_ModTime h / 10 ^ 9) && (h_ModTime h mod 10 ^ 9 =? 0) then [] else [(paxMtime, formatPAXTime (h_ModTime h))]) ++
  map_to_list (h_PAX h).
Definition pax_record_len (p : bytes * bytes) : Z :=
  let digits n := zlen (FormatInt n) in
  let rest := zlen p.1 + zlen p.2 + 3 in
  let size := rest + digits rest in
  let size' := rest + digits size in
  if size' =? size then size else rest + digits size'.
Definition pax_size (h : Header) : Z := foldr (λ p n, pax_record_len p + n) 0 (pax_fields h).
Definition maxSpecialFileSize : Z := 2 ^ 20.

(** The checks on a header: seven octal digits for device numbers, no '=' and no zero
    byte in the key of a record, no zero byte in a name, no negative size, and at most
    1 MiB of records. *)
Definition header_ok (h : Header) : bool :=
  octal_fits 7 (h_Devmajor h) && octal_fits 7 (h_Devminor h) &&
  (0 <=? h_Size h) && bool_decide (x00 ∉ h_Name h) && bool_decide (x00 ∉ h_Linkname h) &&
  forallb (λ p : bytes * bytes, bool_decide (x3d ∉ p.1) && bool_decide (x00 ∉ p.1)) (map_to_list (h_PAX h)) &&
  (pax_size h <=? maxSpecialFileSize).

Definition tw_Flush (tw : tarWriter) : result unit :=
  if tw_left tw >? 0 then Err (errors_New "archive/tar: missed writing %d bytes") else Ok tt.

Definition tw_WriteHeader (h : Header) (tw : tarWriter) : result tarWriter :=
  _ ← tw_Flush tw;
  if header_ok h then Ok (mkTarWriter (tw_members tw ++ [(h, [])]) (h_Size h))
  else Err (errors_New "archive/tar: cannot encode header").

Definition tw_Write (data : bytes) (tw : tarWriter) : result tarWriter :=
  if zlen data >? tw_left tw then Err (errors_New "archive/tar: write too long") else
  match last (tw_members tw) with
  | Some (h, c) => Ok (mkTarWriter (removelast (tw_members tw) ++ [(h, c ++ data)]) (tw_left tw - zlen data))
  | None => if zlen data =? 0 then Ok tw else Err (errors_New "archive/tar: write too long")
  end.

Definition tw_Close (tw : tarWriter) : result (list member) := _ ← tw_Flush tw; Ok (tw_members tw).

(** ** Export ([tarexport.go]) *)
Section export.
Context `{Cbor} (get : Key → result bytes).
Context (h : nat).                  (* the height of the objects' trees *)

Definition unsafe_name (comp : bytes) : bool :=
  bool_decide (comp = []) || bool_decide (comp = dot) || bool_decide (comp = dotdot) || bool_decide (slash ∈ comp).

(** The records of an entry's attributes. *)
Definition pax_records (m : gmap bytes bytes) : gmap bytes bytes :=
  map_fold (λ k v recs, <[xattrPrefix ++ k := v]> recs) ∅ m.

Definition setXattrs (ent : Entry) : result (gmap bytes bytes) :=
  if (0 <? length (XattrsIn ent))%nat then pax_records <$> DecodeXattrs (XattrsIn ent)
  else if (length (XattrsKey ent) =? Size)%nat then
    xk ← wrap "tarexport: xattrs key for %s" (Parse (XattrsKey ent));
    data ← wrap "tarexport: reading xattrs %s for %s" (get xk);
    pax_records <$> DecodeXattrs data
  else Ok ∅.

Definition writeContent (k : Key) (tw : tarWriter) : result tarWriter :=
  wrap "tarexport" (WriteContent get tw_Write h k tw).

(** [entry]; [dir] is the call for a subdirectory. *)
Definition tar_entry (dir : Key → bytes → tarWriter → result tarWriter) (prefix : bytes) (ent : Entry) (tw : tarWriter) :
    result tarWriter :=
  let comp := Name ent in
  if unsafe_name comp then Err (errors_New "tarexport: refusing unsafe entry name %q") else
  let name := Join prefix comp in
  pax ← setXattrs ent;
  let hdr name ty size link maj min :=
    mkHeader name (Z.land (Mode ent) 0xFFF) (i64 (UID ent)) (i64 (GID ent)) (Mtime ent) ty size link maj min pax in
  let ty := Z.land (Mode ent) S_IFMT in
  if ty =? S_IFDIR then
    tw ← tw_WriteHeader (hdr (name ++ [slash]) TypeDir 0 [] 0 0) tw;
    ck ← Parse (ContentKey ent);
    dir ck name tw
  else if ty =? S_IFREG then
    ck ← Parse (ContentKey ent);
    tw ← tw_WriteHeader (hdr name TypeReg (i64 (Length ck)) [] 0 0) tw;
    writeContent ck tw
  else if ty =? S_IFLNK then tw_WriteHeader (hdr name TypeSymlink 0 (LinkTarget ent) 0 0) tw
  else if ty =? S_IFIFO then tw_WriteHeader (hdr name TypeFifo 0 [] 0 0) tw
  else if (ty =? S_IFCHR) || (ty =? S_IFBLK) then
    match Rdev ent with
    | [maj; min] => tw_WriteHeader (hdr name (if ty =? S_IFCHR then TypeChar else TypeBlock) 0 [] (i64 maj) (i64 min)) tw
    | _ => Err (errors_New "tarexport: %s: device entry missing [major, minor]")
    end
  else if ty =? S_IFSOCK then Ok tw
  else Err (errors_New "tarexport: %s: unsupported file type %#o").

Fixpoint tar_dir (fuel : nat) (dirKey : Key) (prefix : bytes) (tw : tarWriter) : result tarWriter :=
  match fuel with
  | O => Diverge
  | S fuel =>
      entries ← CollectEntries get h dirKey;
      foldR (tar_entry (tar_dir fuel) prefix) entries tw
  end.

Definition tar_Write (fuel : nat) (root : Key) : result (list member) :=
  if negb (Type_ root =? DirLeaf) && negb (Type_ root =? DirNode)
  then Err (errors_New "tarexport: root %s is not a directory object (type %v)") else
  tw ← tar_dir fuel root [] tar_NewWriter;
  tw_Close tw.
End export.

(** ** System calls of an extraction

    A process has a file system, a working directory, an identity, a creation mask
    and a clock.  Every call takes one outcome; [Fails e n] makes it fail, a write
    after [n] bytes. *)
Inductive outcome := Fine | Fails (e : error) (n : nat).

Record proc := mkProc {
  w_fs : FS; w_cwd : list bytes; w_euid : Z; w_egid : Z; w_umask : Z; w_now : Z; w_events : list outcome;
}.

Definition X (A : Type) : Type := proc → result A * proc.
#[export] Instance X_ret : MRet X := λ A a w, (Ok a, w).
#[export] Instance X_bind : MBind X := λ A B f m w,
  match m w with
  | (Ok a, w) => f a w
  | (Err e, w) => (Err e, w)
  | (Panic, w) => (Panic, w)
  | (Diverge, w) => (Diverge, w)
  end.

Definition liftX {A} (r : result A) : X A := λ w, (r, w).
Definition failX {A} (e : error) : X A := liftX (Err e).
Definition wrapX {A} (msg : string) (m : X A) : X A := λ w, let '(r, w) := m w in (wrap msg r, w).
(** [tryX m]: the error as a value. *)
Definition tryX {A} (m : X A) : X (A + error) := λ w,
  match m w with
  | (Ok a, w) => (Ok (inl a), w)
  | (Err e, w) => (Ok (inr e), w)
  | (Panic, w) => (Panic, w)
  | (Diverge, w) => (Diverge, w)
  end.

Definition set_fs (fs : FS) (w : proc) : proc :=
  mkProc fs (w_cwd w) (w_euid w) (w_egid w) (w_umask w) (w_now w) (w_events w).
Definition pop_event (w : proc) : outcome * proc :=
  match w_events w with
  | [] => (Fine, w)
  | o :: evs => (o, mkProc (w_fs w) (w_cwd w) (w_euid w) (w_egid w) (w_umask w) (w_now w) evs)
  end.

(** A call that reads or changes the file system, or fails without an effect. *)
Definition sys {A} (f : proc → result (A * FS)) : X A := λ w,
  match pop_event w with
  | (Fails e _, w) => (Err e, w)
  | (Fine, w) =>
      match f w with
      | Ok (a, fs) => (Ok a, set_fs fs w)
      | Err e => (Err e, w)
      | Panic => (Panic, w)
      | Diverge => (Diverge, w)
      end
  end.

Definition sys_stat (follow : bool) (path : bytes) : X FileInfo :=
  sys (λ w, i ← lookup_path (w_fs w) (w_cwd w) follow path; Ok (i_info i, w_fs w)).

(** A change in a directory changes its time. *)
Definition touch (dir : list bytes) (now : Z) (fs : FS) : FS :=
  alter (λ i, mkInode (i_mode i) (i_uid i) (i_gid i) now (i_rdev i) (i_data i) (i_xattrs i)) dir fs.

(** A new name: it must not exist, not even as a link.  The new inode belongs to the
    process. *)
Definition create (path : bytes) (mode rdev : Z) (data : bytes) (w : proc) : result (unit * FS) :=
  p ← resolve (w_fs w) (w_cwd w) false path;
  match w_fs w !! p with
  | Some _ => Err EEXIST
  | None =>
      if bool_decide (p = []) then Err EEXIST else
      let i := mkInode mode (w_euid w) (w_egid w) (w_now w) rdev data ∅ in
      Ok (tt, touch (removelast p) (w_now w) (<[p := i]> (w_fs w)))
  end.

Definition masked (ty mode : Z) (w : proc) : Z := Z.lor ty (Z.ldiff (perm mode) (w_umask w)).

Definition sys_mkdir (path : bytes) (mode : Z) : X unit := sys (λ w, create path (masked S_IFDIR mode w) 0 [] w).
Definition sys_creat_excl (path : bytes) (mode : Z) : X unit := sys (λ w, create path (masked S_IFREG mode w) 0 [] w).
Definition sys_symlink (target path : bytes) : X unit := sys (create path (Z.lor S_IFLNK 0x1FF) 0 target).
Definition sys_mkfifo (path : bytes) (mode : Z) : X unit := sys (λ w, create path (masked S_IFIFO mode w) 0 [] w).
Definition sys_mknod (path : bytes) (mode dev : Z) : X unit :=
  sys (λ w, if w_euid w =? 0 then create path (masked (fmt mode) mode w) dev [] w else Err (errors_New EPERM_)).

(** A change of one inode. *)
Definition change (follow : bool) (path : bytes) (f : inode → inode) (w : proc) : result (unit * FS) :=
  p ← resolve (w_fs w) (w_cwd w) follow path;
  match w_fs w !! p with
  | None => Err ENOENT
  | Some i => Ok (tt, <[p := f i]> (w_fs w))
  end.

Definition append_data (data : bytes) (now : Z) (i : inode) : inode :=
  mkInode (i_mode i) (i_uid i) (i_gid i) now (i_rdev i) (i_data i ++ data) (i_xattrs i).

(** [write] on the open file; a call that fails may have written a part. *)
Definition sys_write (path data : bytes) : X unit := λ w,
  match pop_event w with
  | (Fails e n, w) =>
      match change false path (append_data (take n data) (w_now w)) w with
      | Ok (_, fs) => (Err e, set_fs fs w)
      | _ => (Err e, w)
      end
  | (Fine, w) =>
      match change false path (append_data data (w_now w)) w with
      | Ok (_, fs) => (Ok tt, set_fs fs w)
      | r => (u ← r; Ok tt, w)
      end
  end.

Definition sys_close : X unit := sys (λ w, Ok (tt, w_fs w)).

(** [lchown]: an identity of 2^32-1 is left alone; the set-id bits of anything but a
    directory are cleared. *)
Definition chown_id (new old : Z) : Z := if u32 new =? 2 ^ 32 - 1 then old else u32 new.
Definition chowned (uid gid : Z) (i : inode) : inode :=
  mkInode (if i_dir i then i_mode i else Z.ldiff (i_mode i) 0xC00) (chown_id uid (i_uid i)) (chown_id gid (i_gid i))
    (i_mtime i) (i_rdev i) (i_data i) (i_xattrs i).
Definition sys_lchown (path : bytes) (uid gid : Z) : X unit := sys (change false path (chowned uid gid)).

Definition chmoded (mode : Z) (i : inode) : inode :=
  mkInode (Z.lor (fmt (i_mode i)) (perm mode)) (i_uid i) (i_gid i) (i_mtime i) (i_rdev i) (i_data i) (i_xattrs i).
Definition sys_chmod (path : bytes) (mode : Z) : X unit := sys (change true path (chmoded mode)).

Definition with_xattr (name v : bytes) (i : inode) : inode :=
  mkInode (i_mode i) (i_uid i) (i_gid i) (i_mtime i) (i_rdev i) (i_data i) (<[name := v]> (i_xattrs i)).
Definition sys_lsetxattr (path name v : bytes) : X unit := sys (change false path (with_xattr name v)).

Definition with_mtime (ns : Z) (i : inode) : inode :=
  mkInode (i_mode i) (i_uid i) (i_gid i) ns (i_rdev i) (i_data i) (i_xattrs i).
Definition sys_utimens (follow : bool) (path : bytes) (ns : Z) : X unit := sys (change follow path (with_mtime ns)).

(** ** [os.MkdirAll] *)
Fixpoint skip_sep (sep : bool) (r : bytes) : bytes :=
  match r with
  | c :: r' => if Bool.eqb (bool_decide (c = slash)) sep then skip_sep sep r' else r
  | [] => []
  end.
Definition parent_text (path : bytes) : bytes := rev (skip_sep false (skip_sep true (rev path))).

Fixpoint MkdirAll (fuel : nat) (path : bytes) (mode : Z) : X unit :=
  match fuel with
  | O => liftX Diverge
  | S fuel =>
      st ← tryX (sys_stat true path);
      match st with
      | inl info => if info_IsDir info then mret tt else failX ENOTDIR
      | inr _ =>
          let parent := parent_text path in
          _ ← (if (0 <? length parent)%nat then MkdirAll fuel parent mode else mret tt);
          r ← tryX (sys_mkdir path mode);
          match r with
          | inl _ => mret tt
          | inr e =>
              st ← tryX (sys_stat false path);
              match st with
              | inl info => if info_IsDir info then mret tt else failX e
              | inr _ => failX e
              end
          end
      end
  end.

(** ** Extraction ([tarextract.go]) *)
Definition safeJoin (dest name : bytes) : result bytes :=
  if existsb (λ part, bool_decide (part = dotdot)) (split_slash name)
  then Err (errors_New "refusing unsafe entry name %q") else
  let clean := Clean (slash :: name) in
  let target := Join dest clean in
  if negb (bool_decide (target = dest)) && negb (HasPrefix target (dest ++ [slash]))
  then Err (errors_New "refusing unsafe entry name %q") else
  Ok target.

Fixpoint reject_loop (fuel : nat) (dest p : bytes) : X unit :=
  match fuel with
  | O => liftX Diverge
  | S fuel =>
      if HasPrefix p (dest ++ [slash]) then
        st ← tryX (sys_stat false p);
        match st with
        | inr e => if bool_decide (errors_Is e ErrNotExist) then reject_loop fuel dest (Dir p) else failX e
        | inl fi =>
            if info_IsDir fi then reject_loop fuel dest (Dir p)
            else failX (errors_New "refusing to extract through non-directory %s")
        end
      else mret tt
  end.

Definition rejectSymlinkComponents (dest path : bytes) : X unit := reject_loop (S (length path)) dest path.

(** The content of a member, and the error that reading it ends with, if any. *)
Definition writeRegular (target content : bytes) (rerr : option error) : X unit :=
  _ ← sys_creat_excl target 0x180;
  r ← tryX (_ ← sys_write target content; match rerr with Some e => failX e | None => mret tt end);
  match r with
  | inr e => _ ← tryX sys_close; failX e
  | inl _ => sys_close
  end.

Definition isPrivilegeError (e : error) : bool :=
  bool_decide (e = errors_New EPERM_) || bool_decide (e = errors_New EACCES_) || bool_decide (e = errors_New ENOTSUP_).

Definition setMtime (target : bytes) (ns : Z) (isSymlink : bool) : X unit :=
  wrapX "%s: set mtime" (sys_utimens (negb isSymlink) target ns).

(** The records in some order. *)
Fixpoint set_records (target : bytes) (recs : list (bytes * bytes)) : X unit :=
  match recs with
  | [] => mret tt
  | (k, v) :: recs =>
      if negb (HasPrefix k xattrPrefix) then set_records target recs else
      let name := TrimPrefix k xattrPrefix in
      r ← tryX (sys_lsetxattr target name v);
      match r with
      | inl _ => set_records target recs
      | inr e =>
          if isPrivilegeError e || bool_decide (e = errors_New ENOTSUP_) then set_records target recs
          else failX (Errorf "setting xattr %q on %s" e)
      end
  end.

Definition euid : X Z := λ w, (Ok (w_euid w), w).

Definition applyMeta (target : bytes) (h : Header) (isSymlink : bool) : X unit :=
  uid ← euid;
  _ ← (if uid =? 0 then wrapX "%s: chown" (sys_lchown target (h_Uid h) (h_Gid h)) else mret tt);
  _ ← (if isSymlink then mret tt else
         _ ← wrapX "%s: chmod" (sys_chmod target (Z.land (h_Mode h) 0xFFF));
         set_records target (map_to_list (h_PAX h)));
  setMtime target (h_ModTime h) isSymlink.

Section extract.
Context `{UnixDev}.

(** The switch of [Extract] over the type of a member. *)
Definition extract_entry (target : bytes) (h : Header) (content : bytes) (rerr : option error) (dirs : list Header) :
    X (list Header) :=
  match h_Typeflag h with
  | TypeDir =>
      _ ← MkdirAll (S (length target)) target 0x1C0;
      mret (dirs ++ [h])
  | TypeReg =>
      _ ← writeRegular target content rerr;
      _ ← applyMeta target h false;
      mret dirs
  | TypeSymlink =>
      _ ← sys_symlink (h_Linkname h) target;
      _ ← applyMeta target h true;
      mret dirs
  | TypeFifo =>
      _ ← wrapX "%s: mkfifo" (sys_mkfifo target (u32 (Z.land (h_Mode h) 0xFFF)));
      _ ← applyMeta target h false;
      mret dirs
  | TypeChar | TypeBlock =>
      let mode := Z.lor (u32 (Z.land (h_Mode h) 0xFFF)) (if bool_decide (h_Typeflag h = TypeChar) then S_IFCHR else S_IFBLK) in
      let dev := i64 (Mkdev (u32 (h_Devmajor h)) (u32 (h_Devminor h))) in
      r ← tryX (sys_mknod target mode dev);
      match r with
      | inr e => if isPrivilegeError e then mret dirs else failX (Errorf "%s: mknod" e)
      | inl _ =>
          _ ← applyMeta target h false;
          mret dirs
      end
  | TypeOther => failX (errors_New "%s: unsupported tar type %q")
  end.

(** The body of the loop over the members.  It returns the directories seen. *)
Definition extract_member (destDir : bytes) (m : member) (rerr : option error) (dirs : list Header) : X (list Header) :=
  let '(h, content) := m in
  target ← liftX (safeJoin destDir (h_Name h));
  _ ← rejectSymlinkComponents destDir target;
  extract_entry target h content rerr dirs.

(** The loop over the members; an archive ends cleanly or with an error. *)
Fixpoint extract_members (destDir : bytes) (ms : list (member * option error)) (ends : option error) (dirs : list Header) :
    X (list Header) :=
  match ms with
  | [] => match ends with None => mret dirs | Some e => failX e end
  | (m, rerr) :: ms =>
      dirs ← extract_member destDir m rerr dirs;
      extract_members destDir ms ends dirs
  end.

Fixpoint apply_dirs (destDir : bytes) (dirs : list Header) : X unit :=
  match dirs with
  | [] => mret tt
  | h :: dirs =>
      target ← liftX (safeJoin destDir (h_Name h));
      _ ← applyMeta target h false;
      apply_dirs destDir dirs
  end.

Definition Extract (destDir : bytes) (ms : list (member * option error)) (ends : option error) : X unit :=
  _ ← MkdirAll (S (length destDir)) destDir 0x1ED;
  dirs ← extract_members destDir ms ends [];
  apply_dirs destDir dirs.
End extract.
