(* ===== verification/TarFacts.v ===== *)
(** * Exporting what an ingest stored

    [node_members] is the archive of a node: one member per file, directory, link,
    pipe and device in depth-first order, none for a socket.  Exporting a stored
    directory writes exactly that archive. *)

From Stdlib Require Import Init.Byte.
From S2P Require Import Prelude Machine Key Cborx Chunkers FsEncode FsTree FsRead Path Posix Ingest IngestFacts PosixFacts Tar.
From Stdlib Require Import ZifyBool ZifyNat.
Local Open Scope Z_scope.

Section members.
Context `{UnixDev}.

Definition node_header (name : bytes) (n : node) : Header :=
  let m := node_meta n in
  mkHeader (match n with NDir _ _ => name ++ [slash] | _ => name end) (n_perm m) (n_uid m) (n_gid m) (n_mtime m)
    (match n with
     | NDir _ _ => TypeDir | NLink _ _ => TypeSymlink | NFifo _ => TypeFifo
     | NDev _ chr _ => if chr then TypeChar else TypeBlock | _ => TypeReg end)
    (match n with NFile _ c => zlen c | _ => 0 end)
    (match n with NLink _ t => t | _ => [] end)
    (match n with NDev _ _ r => Major r | _ => 0 end) (match n with NDev _ _ r => Minor r | _ => 0 end)
    (pax_records (n_xattrs m)).

Definition node_content (n : node) : bytes := match n with NFile _ c => c | _ => [] end.

(** The members of the node [name] in the directory [pre]. *)
Fixpoint node_members (pre : list bytes) (name : bytes) (n : node) : list member :=
  let this := (node_header (join_slash (pre ++ [name])) n, node_content n) in
  match n with
  | NSock _ => []
  | NDir _ ch => this :: foldr (λ p ms, node_members (pre ++ [name]) p.1 p.2 ++ ms) [] ch
  | _ => [this]
  end.

Definition tree_members (pre : list bytes) (ch : list (bytes * node)) : list member :=
  foldr (λ p ms, node_members pre p.1 p.2 ++ ms) [] ch.

(** What an archive can carry: names of files and targets without zero bytes, attribute
    names without '=', device numbers of seven octal digits, and at most 1 MiB of records
    for the attributes, the name and the other fields of a member. *)
Definition tar_name (c : bytes) : Prop := plain_name c ∧ x00 ∉ c.
Definition carried (full : bytes) (n : node) : Prop :=
  map_Forall (λ k _, x3d ∉ k) (n_xattrs (node_meta n)) ∧
  match n with
  | NLink _ t => x00 ∉ t
  | NDev _ _ r => Major r < 2 ^ 21 ∧ Minor r < 2 ^ 21
  | _ => True
  end ∧
  pax_size (node_header full n) <= maxSpecialFileSize.
Fixpoint exportable (pre : list bytes) (name : bytes) (n : node) : Prop :=
  carried (join_slash (pre ++ [name])) n ∧
  match n with
  | NDir _ ch => foldr (λ p P, (tar_name p.1 ∧ exportable (pre ++ [name]) p.1 p.2) ∧ P) True ch
  | _ => True
  end.
End members.

(** ** Records *)
Lemma pax_records_lookup m k : pax_records m !! (xattrPrefix ++ k) = m !! k.
Proof.
  revert k. unfold pax_records. apply (map_fold_weak_ind (λ recs m, ∀ k, recs !! (xattrPrefix ++ k) = m !! k)).
  - intros k. by rewrite !lookup_empty.
  - intros i x m' r Hi IH k. destruct (decide (i = k)) as [->|Hne]; [by rewrite !lookup_insert_eq|].
    rewrite !lookup_insert_ne; [apply IH|done|]. intros E. by apply app_inv_head in E.
Qed.

Lemma pax_records_inv m q v : pax_records m !! q = Some v → ∃ k, q = xattrPrefix ++ k ∧ m !! k = Some v.
Proof.
  unfold pax_records. apply (map_fold_weak_ind (λ recs m, recs !! q = Some v → ∃ k, q = xattrPrefix ++ k ∧ m !! k = Some v)).
  - by rewrite lookup_empty.
  - intros i x m' r Hi IH [[<- <-]|[Hne Hq]]%lookup_insert_Some; [exists i; by rewrite lookup_insert_eq|].
    destruct (IH Hq) as (k & -> & Hk). exists k. split; [done|]. rewrite lookup_insert_ne; [done|]. congruence.
Qed.

Lemma xattrPrefix_plain : (x3d ∉ xattrPrefix) ∧ (x00 ∉ xattrPrefix).
Proof. split; apply (bool_decide_unpack _); vm_compute; exact I. Qed.

(** ** The writer *)
Section writer.
Context `{UnixDev} `{!UnixDevLaws}.

Lemma node_header_ok name n : node_wf n → carried name n → (x00 ∉ name) → header_ok (node_header name n) = true.
Proof.
  intros Hwf (Hattr & He & Hsize) Hno. unfold header_ok. replace (pax_size _ <=? maxSpecialFileSize) with true by lia. rewrite andb_true_r.
  assert (x00 ∉ h_Name (node_header name n)) as Hname by (destruct n; cbn; [done|rewrite elem_of_app, list_elem_of_singleton; by intros [?|?]|done..]).
  assert (x00 ∉ h_Linkname (node_header name n)) as Hlink by (destruct n as [| |? t| | |]; [apply not_elem_of_nil|apply not_elem_of_nil|exact He|apply not_elem_of_nil..]).
  rewrite !(bool_decide_eq_true_2 (x00 ∉ _)) by done.
  assert (forallb (λ p : bytes * bytes, bool_decide (x3d ∉ p.1) && bool_decide (x00 ∉ p.1)) (map_to_list (h_PAX (node_header name n))) = true) as ->.
  { apply forallb_forall. intros [q v] Hin%list_elem_of_In%elem_of_map_to_list. cbn in Hin.
    apply pax_records_inv in Hin as (k & -> & Hk). cbn [fst].
    assert (meta_wf (node_meta n)) as (_ & _ & _ & _ & [Hx _]) by (by apply node_wf_meta).
    destruct (Hx k v Hk) as (_ & Hz & _). pose proof (Hattr k v Hk) as He'. cbn in He'.
    rewrite !bool_decide_eq_true_2; [done| |]; rewrite elem_of_app; pose proof xattrPrefix_plain; naive_solver. }
  destruct n as [m c|m ch|m t|m chr r|m|m]; cbn; try done.
  - replace (0 <=? zlen c) with true by lia. done.
  - destruct He as (? & ?). pose proof (Major_range r). pose proof (Minor_range r). unfold is_u32, octal_fits in *. change (2 ^ (3 * 7)) with (2 ^ 21).
    replace (0 <=? Major r) with true by lia. replace (0 <=? Minor r) with true by lia. replace (Major r <? 2 ^ 21) with true by lia.
    by replace (Minor r <? 2 ^ 21) with true by lia.
Qed.

Lemma write_header h ms : header_ok h = true →
  tw_WriteHeader h (mkTarWriter ms 0) = Ok (mkTarWriter (ms ++ [(h, [])]) (h_Size h)).
Proof. intros Hh. unfold tw_WriteHeader. cbn. by rewrite Hh. Qed.

Lemma WriteContent_tar `{Cbor} get log h k c : serves get log → file_tree h log k c → ∀ ms hd c0 left, zlen c <= left →
  WriteContent get tw_Write h k (mkTarWriter (ms ++ [(hd, c0)]) left) = Ok (mkTarWriter (ms ++ [(hd, c0 ++ c)]) (left - zlen c)).
Proof.
  intros Hget. revert k c. induction h as [|h IH]; intros k c Ht ms hd c0 left Hl; [done|]. simpl in Ht. cbn [WriteContent].
  destruct Ht as [(Hty & Hin)|(Hty & data & kids & Hin & Hdec & HF & ->)];
    rewrite (serves_elem _ _ _ _ Hget Hin); rsimpl; rewrite Hty; simpl Z.eqb; cbv iota.
  - unfold tw_Write. cbn [tw_left tw_members]. replace (zlen c >? left) with false by lia. rewrite last_snoc, removelast_last. done.
  - rewrite Hdec. rsimpl. clear Hdec Hin. revert c0 left Hl. induction HF as [|[ck cc] kids Ht _ IHF]; intros c0 left Hl.
    + cbn. by rewrite app_nil_r, Z.sub_0_r.
    + rewrite !fmap_cons in *. cbn [foldR concat fst snd] in *. rewrite length_app in *. rewrite (IH _ _ Ht) by lia. rsimpl. rewrite IHF by lia. rewrite app_assoc. do 2 f_equal. lia.
Qed.
End writer.

(** ** Exporting a stored node *)
Lemma perm_mode n : meta_wf (node_meta n) → Z.land (node_mode n) 0xFFF = n_perm (node_meta n).
Proof.
  intros (Hp & _). unfold node_mode. rewrite Z.land_lor_distr_l.
  assert (Z.land (node_type n) 0xFFF = 0) as -> by (by destruct n as [| | |? []| |]).
  rewrite Z.lor_0_l. change 0xFFF with (Z.ones 12). rewrite Z.land_ones by lia. apply Z.mod_small. cbn. lia.
Qed.

Lemma plain_safe c : plain_name c → unsafe_name c = false.
Proof. intros (H1 & H2 & H3 & H4). unfold unsafe_name. by rewrite !bool_decide_eq_false_2. Qed.

Lemma tar_plain pre : Forall tar_name pre → Forall plain_name pre.
Proof. intros Hp. eapply Forall_impl; [exact Hp|]. by intros c []. Qed.

Lemma join_slash_no b comps : b ≠ slash → Forall (λ c, b ∉ c) comps → b ∉ join_slash comps.
Proof.
  intros Hb. induction 1 as [|c comps Hc Hcs IH]; [by intros ?%elem_of_nil|]. destruct comps as [|d comps]; [exact Hc|].
  change (join_slash (c :: d :: comps)) with (c ++ slash :: join_slash (d :: comps)). rewrite elem_of_app, elem_of_cons. naive_solver.
Qed.

Lemma full_no_zero pre c : Forall tar_name pre → tar_name c → x00 ∉ join_slash (pre ++ [c]).
Proof.
  intros Hp [_ Hc]. apply join_slash_no; [done|]. apply Forall_app. split; [|by apply Forall_singleton].
  eapply Forall_impl; [exact Hp|]. by intros d [].
Qed.

Lemma Join_pre pre c : Forall plain_name pre → plain_name c → Join (join_slash pre) c = join_slash (pre ++ [c]).
Proof.
  intros Hp Hc. destruct pre as [|d pre].
  - cbn [join_slash app]. destruct c as [|x c]; [by destruct Hc|]. exact (Clean_text false [x :: c] ltac:(by apply Forall_singleton)).
  - change (join_slash (d :: pre)) with (path_text false (d :: pre)). by rewrite Join_text.
Qed.

Lemma EncodeXattrs_ne m : EncodeXattrs m ≠ [].
Proof.
  unfold EncodeXattrs. rewrite foldl_pairs. unfold appendHead. repeat case_match; done.
Qed.

Section export.
Context `{Cbor} `{UnixDev} `{!UnixDevLaws} (get : Key → result bytes) (log : list Object).
Hypothesis get_log : serves get log.

Lemma setXattrs_spec e xs : xattrs_wf xs → xattrs_stored log e xs → setXattrs get e = Ok (pax_records xs).
Proof.
  intros [Hx Hs] Hst. assert (DecodeXattrs (EncodeXattrs xs) = Ok xs) as Hdec.
  { apply xattrs_decode; [done|]. intros k v Hk. by destruct (Hx k v Hk) as (_ & _ & ? & ?). }
  unfold setXattrs. destruct Hst as [(-> & -> & ->)|[(-> & _)|(-> & k & -> & Hv & Hin)]].
  - done.
  - destruct (EncodeXattrs xs) eqn:E; [by apply EncodeXattrs_ne in E|]. cbn [length Nat.ltb Nat.leb]. rewrite <- E in *. by rewrite Hdec.
  - cbn [length Nat.ltb Nat.leb]. rewrite (kb_len k). rewrite (proj2 (Parse_Ok (kb k) k)) by done. cbn. 
    rewrite (serves_elem _ _ _ _ get_log Hin). cbn. by rewrite Hdec.
Qed.

(** The fields of the header of [tar_entry]. *)
Lemma entry_header e name n :
  meta_wf (node_meta n) → entry_is e name n →
  Z.land (Mode e) 0xFFF = n_perm (node_meta n) ∧ i64 (UID e) = n_uid (node_meta n) ∧ i64 (GID e) = n_gid (node_meta n) ∧
  Mtime e = n_mtime (node_meta n).
Proof.
  intros Hm (_ & -> & -> & -> & -> & _). rewrite perm_mode by done. destruct Hm as (_ & Hu & Hg & _). unfold is_u32 in *.
  by rewrite !i64_small by lia.
Qed.

(** The node is exported by [tar_entry], for enough fuel. *)
Definition exports (n : node) : Prop := ∀ e name pre,
  stored log e name n → node_wf n → exportable pre name n → tar_name name → Forall tar_name pre →
  ∃ F, ∀ h fuel ms, (F ≤ h)%nat → (F ≤ fuel)%nat →
    tar_entry get h (tar_dir get h fuel) (join_slash pre) e (mkTarWriter ms 0) = Ok (mkTarWriter (ms ++ node_members pre name n) 0).

Lemma stored_is e name n : stored log e name n → entry_is e name n ∧ xattrs_stored log e (if node_link n then ∅ else n_xattrs (node_meta n)).
Proof. by inversion 1. Qed.

(** What [tar_entry] does before it looks at the type. *)
Lemma tar_entry_start e name n pre h dir tw :
  stored log e name n → node_wf n → tar_name name → Forall tar_name pre →
  tar_entry get h dir (join_slash pre) e tw =
  (let full := join_slash (pre ++ [name]) in
   let hdr nm ty size link maj min := mkHeader nm (n_perm (node_meta n)) (n_uid (node_meta n)) (n_gid (node_meta n))
     (n_mtime (node_meta n)) ty size link maj min (pax_records (n_xattrs (node_meta n))) in
   match n with
   | NDir _ _ => tw ← tw_WriteHeader (hdr (full ++ [slash]) TypeDir 0 [] 0 0) tw; ck ← Parse (ContentKey e); dir ck full tw
   | NFile _ _ => ck ← Parse (ContentKey e); tw ← tw_WriteHeader (hdr full TypeReg (i64 (Length ck)) [] 0 0) tw; writeContent get h ck tw
   | NLink _ _ => tw_WriteHeader (hdr full TypeSymlink 0 (LinkTarget e) 0 0) tw
   | NFifo _ => tw_WriteHeader (hdr full TypeFifo 0 [] 0 0) tw
   | NDev _ chr _ =>
       match Rdev e with
       | [maj; min] => tw_WriteHeader (hdr full (if chr then TypeChar else TypeBlock) 0 [] (i64 maj) (i64 min)) tw
       | _ => Err (errors_New "tarexport: %s: device entry missing [major, minor]")
       end
   | NSock _ => Ok tw
   end).
Proof.
  intros Hst Hwf [Hc _] Hpre%tar_plain. destruct (stored_is _ _ _ Hst) as [Hent Hxs]. pose proof (node_wf_meta _ Hwf) as Hm.
  unfold tar_entry. pose proof Hent as (Hn & Hmode & _). rewrite Hn, plain_safe, Join_pre by done.
  rewrite (setXattrs_spec e (n_xattrs (node_meta n))); [|by destruct Hm as (_ & _ & _ & _ & ?)|].
  2:{ destruct n; cbn in *; try done. destruct Hwf as [_ Hl]. by rewrite Hl. }
  rsimpl. cbv zeta. destruct (entry_header e name n Hm Hent) as (-> & -> & -> & ->). rewrite Hmode, node_mode_type by done.
  by destruct n as [m c|m ch|m t|m [] r|m|m].
Qed.

Lemma node_header_mk full n :
  node_header full n = mkHeader (h_Name (node_header full n)) (n_perm (node_meta n)) (n_uid (node_meta n)) (n_gid (node_meta n))
    (n_mtime (node_meta n)) (h_Typeflag (node_header full n)) (h_Size (node_header full n)) (h_Linkname (node_header full n))
    (h_Devmajor (node_header full n)) (h_Devminor (node_header full n)) (pax_records (n_xattrs (node_meta n))).
Proof. done. Qed.

(** A node with a header and no content or children. *)
Lemma header_only full n ms : node_wf n → carried full n → (x00 ∉ full) → h_Size (node_header full n) = 0 →
  tw_WriteHeader (node_header full n) (mkTarWriter ms 0) = Ok (mkTarWriter (ms ++ [(node_header full n, [])]) 0).
Proof. intros Hwf He Hno Hs. rewrite write_header by (by apply node_header_ok). by rewrite Hs. Qed.

Lemma export_file m c : exports (NFile m c).
Proof.
  intros e name pre Hst Hwf He Hc Hpre. inversion Hst as [? ? ? ? k hh Hent Hxs Hck Hv Hl Ht| | | | |]; subst. exists hh.
  intros h fuel ms Hh _. rewrite (tar_entry_start e _ _ pre h _ _ Hst Hwf Hc Hpre). cbv zeta.
  pose proof Hwf as [_ Hlen]. rewrite Hck, (proj2 (Parse_Ok (kb k) k)) by done. rsimpl. rewrite Hl, i64_small by lia.
  rewrite (write_header (node_header (join_slash (pre ++ [name])) (NFile m c))) by (apply node_header_ok; [done|exact (proj1 He)|by apply full_no_zero]). rsimpl. unfold writeContent.
  rewrite (WriteContent_tar get log h k c get_log); [|by eapply file_tree_mono|by cbn]. cbn. by rewrite Z.sub_diag.
Qed.

Lemma stored_names es ch : Forall2 (λ e p, stored log e p.1 p.2) es ch → Name <$> es = ch.*1.
Proof.
  induction 1 as [|e [c n] es ch Hst _ IH]; [done|]. rewrite !fmap_cons, IH. by destruct (stored_is _ _ _ Hst) as [(-> & _) _].
Qed.

(** The children of a directory, one after the other. *)
Lemma export_children pre es ch :
  Forall (λ p, exports p.2) ch → Forall2 (λ e p, stored log e p.1 p.2) es ch → Forall tar_name pre →
  foldr (λ p P, node_wf p.2 ∧ P) True ch → foldr (λ p P, (tar_name p.1 ∧ exportable pre p.1 p.2) ∧ P) True ch →
  ∃ F, ∀ h fuel ms, (F ≤ h)%nat → (F ≤ fuel)%nat →
    foldR (tar_entry get h (tar_dir get h fuel) (join_slash pre)) es (mkTarWriter ms 0) =
    Ok (mkTarWriter (ms ++ tree_members pre ch) 0).
Proof.
  intros Hex Hst Hpre. induction Hst as [|e [c n] es ch Hn _ IH]; intros Hwf Hexp.
  { exists O. intros. cbn. by rewrite app_nil_r. }
  apply Forall_cons in Hex as [Hx Hex]. destruct Hwf as [Hw Hwf], Hexp as [[Hc He] Hexp]. cbn [fst snd] in *.
  destruct (Hx e c pre Hn Hw He Hc Hpre) as [F1 HF1]. destruct (IH Hex Hwf Hexp) as [F2 HF2].
  exists (F1 + F2)%nat. intros h fuel ms Hh Hf. cbn [foldR]. rewrite HF1 by lia. rsimpl. rewrite HF2 by lia.
  cbn [tree_members foldr fst snd]. by rewrite <- app_assoc.
Qed.

(** A stored directory, collected and exported. *)
Lemma export_tar_dir pre k ch :
  Forall (λ p, exports p.2) ch → stored_children log k ch → Forall tar_name pre → StronglySorted bytes_lt ch.*1 →
  foldr (λ p P, node_wf p.2 ∧ P) True ch → foldr (λ p P, (tar_name p.1 ∧ exportable pre p.1 p.2) ∧ P) True ch →
  ∃ F, ∀ h fuel ms, (F ≤ h)%nat → (F ≤ fuel)%nat →
    tar_dir get h fuel k (join_slash pre) (mkTarWriter ms 0) = Ok (mkTarWriter (ms ++ tree_members pre ch) 0).
Proof.
  intros Hex (hd & es & Ht & Hes) Hpre Hs Hwf Hexp. destruct (export_children pre es ch Hex Hes Hpre Hwf Hexp) as [F HF].
  exists (S (F + hd)). intros h [|fuel] ms Hh Hf; [lia|]. cbn [tar_dir]. unfold CollectEntries.
  rewrite (collectEntries_spec get log get_log h k es); [|eapply dir_tree_mono; [exact Ht|lia|done]|].
  - rsimpl. apply HF; lia.
  - cbn. unfold names_sorted. by rewrite (stored_names es ch Hes).
Qed.

Lemma all_export n : exports n.
Proof.
  induction n as [m c|m t|m chr r|m|m|m ch IH] using node_rect'; [apply export_file|..];
    intros e name pre Hst Hwf He Hc Hpre.
  - exists O. intros h fuel ms _ _. rewrite (tar_entry_start e _ _ pre h _ _ Hst Hwf Hc Hpre). inversion Hst; subst.
    exact (header_only _ (NLink m _) ms Hwf (proj1 He) (full_no_zero _ _ Hpre Hc) eq_refl).
  - exists O. intros h fuel ms _ _. rewrite (tar_entry_start e _ _ pre h _ _ Hst Hwf Hc Hpre).
    inversion Hst as [| | |? ? ? ? ? Hent Hxs Hr| |]; subst. rewrite Hr. pose proof (Major_range r). pose proof (Minor_range r).
    unfold is_u32 in *. cbv zeta. rewrite !i64_small by lia. exact (header_only _ (NDev m chr r) ms Hwf (proj1 He) (full_no_zero _ _ Hpre Hc) eq_refl).
  - exists O. intros h fuel ms _ _. rewrite (tar_entry_start e _ _ pre h _ _ Hst Hwf Hc Hpre).
    exact (header_only _ (NFifo m) ms Hwf (proj1 He) (full_no_zero _ _ Hpre Hc) eq_refl).
  - exists O. intros h fuel ms _ _. rewrite (tar_entry_start e _ _ pre h _ _ Hst Hwf Hc Hpre). cbn. by rewrite app_nil_r.
  - inversion Hst as [|? ? ? ? k hh es Hent Hxs Hck Hv Ht Hes| | | |]; subst. pose proof Hwf as (_ & Hs & Hwfs). pose proof He as [_ Hexp].
    destruct (export_tar_dir (pre ++ [name]) k ch IH) as [F HF]; [by exists hh, es|apply Forall_app; split; [done|by apply Forall_singleton]|done..|].
    exists F. intros h fuel ms Hh Hf. rewrite (tar_entry_start e _ _ pre h _ _ Hst Hwf Hc Hpre). cbv zeta.
    change (tw_WriteHeader _ (mkTarWriter ms 0)) with (tw_WriteHeader (node_header (join_slash (pre ++ [name])) (NDir m ch)) (mkTarWriter ms 0)).
    rewrite (header_only _ (NDir m ch)) by (first [exact (proj1 He)|done|by apply full_no_zero]). rsimpl. rewrite Hck, (proj2 (Parse_Ok (kb k) k)) by done. rsimpl.
    rewrite HF by lia. cbn [node_members]. unfold tree_members. by rewrite <- app_assoc.
Qed.

Lemma export_tree k ch :
  stored_children log k ch → StronglySorted bytes_lt ch.*1 →
  Forall (λ p, node_wf p.2 ∧ exportable [] p.1 p.2 ∧ tar_name p.1) ch →
  ∃ F, ∀ h fuel, (F ≤ h)%nat → (F ≤ fuel)%nat → tar_Write get h fuel k = Ok (tree_members [] ch).
Proof.
  intros Hst Hs Hall.
  assert (foldr (λ p P, node_wf p.2 ∧ P) True ch ∧ foldr (λ p P, (tar_name p.1 ∧ exportable [] p.1 p.2) ∧ P) True ch) as [Hwf Hexp].
  { clear -Hall. induction Hall as [|p ch (? & ? & ?) _ [? ?]]; cbn; naive_solver. }
  destruct (export_tar_dir [] k ch ltac:(apply Forall_true; intros; apply all_export) Hst (Forall_nil_2 _) Hs Hwf Hexp) as [F HF].
  exists F. intros h fuel Hh Hf. unfold tar_Write.
  assert (negb (Type_ k =? DirLeaf) && negb (Type_ k =? DirNode) = false) as ->.
  { destruct Hst as ([|hd] & es & Ht & _); [done|]. destruct Ht as [(-> & _)|(-> & _)]; done. }
  unfold tar_NewWriter. rewrite (HF h fuel [] Hh Hf : tar_dir get h fuel k [] _ = _). done.
Qed.
End export.
