(* ===== verification/PathFacts.v ===== *)
(** * The paths of an extraction

    [safeJoin] of a destination with plain components is that destination followed by
    plain components; [Dir] and the parent of [MkdirAll] drop the last of them. *)

From Stdlib Require Import Init.Byte.
From S2P Require Import Prelude Machine FsRead Path Posix PosixFacts Tar.
From Stdlib Require Import ZifyBool ZifyNat.
Local Open Scope Z_scope.

(** The names in a path without "..". *)
Definition names_in (path : bytes) : list bytes := filter (λ c, comp_skip c = false) (split_slash path).

Lemma split_slash_parts path : Forall (λ c, slash ∉ c) (split_slash path).
Proof.
  induction path as [|x path IH]; [constructor; [set_solver|constructor]|]. cbn [split_slash]. case_bool_decide as Hx.
  - constructor; [set_solver|done].
  - destruct (split_slash path) as [|p ps]; [constructor; [set_solver|constructor]|]. apply Forall_cons in IH as [Hp Hps].
    constructor; [|done]. intros [E|?]%elem_of_cons; [by subst x|done].
Qed.

Lemma clean_no_dotdot rooted parts : ∀ stack,
  Forall (λ c, comp_dotdot c = false) parts →
  foldl (clean_comp rooted) stack parts = rev (filter (λ c, comp_skip c = false) parts) ++ stack.
Proof.
  induction parts as [|c parts IH]; intros stack Hn; [done|]. apply Forall_cons in Hn as [Hc Hn]. cbn [foldl]. rewrite IH by done.
  unfold clean_comp at 1. destruct (comp_skip c) eqn:E.
  - by rewrite filter_cons_False by (by rewrite E).
  - rewrite filter_cons_True, Hc by done. cbn. by rewrite <- app_assoc.
Qed.

Lemma names_plain path : Forall (λ c, comp_dotdot c = false) (split_slash path) → Forall plain_name (names_in path).
Proof.
  intros Hn. apply Forall_forall. intros c [Hs Hin]%list_elem_of_filter. rewrite Forall_forall in Hn. specialize (Hn c Hin).
  pose proof (proj1 (Forall_forall _ _) (split_slash_parts path) c Hin) as Hslash. cbn in Hslash.
  unfold comp_skip, comp_dotdot in *. apply orb_false_iff in Hs as [H1 H2].
  apply bool_decide_eq_false_1 in H1, H2, Hn. done.
Qed.

(** [Clean] of an absolute path. *)
Lemma Clean_rooted name : Forall (λ c, comp_dotdot c = false) (split_slash name) →
  Clean (slash :: name) = path_text true (names_in name).
Proof.
  intros Hn. unfold Clean, clean_comps, path_text. change (is_rooted (slash :: name)) with true. cbn [split_slash].
  rewrite bool_decide_eq_true_2 by done. rewrite clean_no_dotdot by (constructor; done).
  rewrite filter_cons_False by done. rewrite app_nil_r, rev_involutive. fold (names_in name). by destruct (names_in name).
Qed.

Lemma is_rooted_app p q : p ≠ [] → is_rooted (p ++ q) = is_rooted p.
Proof. by destruct p. Qed.

Lemma foldl_text rooted p : Forall plain_name p → foldl (clean_comp rooted) [] (split_slash (path_text rooted p)) = rev p.
Proof.
  intros Hp. destruct p as [|c p]; [by destruct rooted|]. rewrite split_path_text, foldl_app by done.
  replace (foldl (clean_comp rooted) [] (if rooted then [[]] else [])) with (@nil bytes) by (by destruct rooted).
  by rewrite plain_cleans, app_nil_r.
Qed.

(** Joining an absolute clean path to a path that cleans to [p]. *)
Lemma Join_stack t rooted p q : t ≠ [] → is_rooted t = rooted → foldl (clean_comp rooted) [] (split_slash t) = rev p → Forall plain_name q →
  Join t (path_text true q) = match p ++ q with [] => path_text rooted [] | _ => path_text rooted (p ++ q) end.
Proof.
  intros Hne Hr Hp Hq. pose proof (path_text_ne true q Hq) as Hne'.
  assert (Join t (path_text true q) = Clean (t ++ slash :: path_text true q)) as ->.
  { unfold Join. destruct t; [done|]. by destruct (path_text true q). }
  unfold Clean, clean_comps. rewrite is_rooted_app, Hr by done. rewrite split_slash_app, foldl_app, Hp.
  assert (foldl (clean_comp rooted) (rev p) (split_slash (path_text true q)) = rev (p ++ q)) as ->.
  { destruct q as [|c q]; [rewrite app_nil_r; by vm_compute|]. rewrite split_path_text, foldl_app by done.
    change (foldl (clean_comp rooted) (rev p) [[]]) with (rev p). rewrite plain_cleans by done. by rewrite <- rev_app_distr. }
  rewrite rev_involutive. unfold path_text. by destruct (p ++ q).
Qed.

Lemma Join_texts rooted p q : Forall plain_name p → Forall plain_name q →
  Join (path_text rooted p) (path_text true q) = path_text rooted (p ++ q).
Proof.
  intros Hp Hq. rewrite (Join_stack _ rooted p q); [by destruct (p ++ q)|by apply path_text_ne|by apply path_text_rooted|by apply foldl_text|done].
Qed.

Lemma safeJoin_text rooted dc name t : Forall plain_name dc →
  safeJoin (path_text rooted dc) name = Ok t → ∃ comps, Forall plain_name comps ∧ t = path_text rooted (dc ++ comps).
Proof.
  intros Hdc. unfold safeJoin. destruct (existsb _ _) eqn:E; [done|].
  assert (Forall (λ c, comp_dotdot c = false) (split_slash name)) as Hn.
  { apply Forall_forall. intros c Hc. destruct (comp_dotdot c) eqn:Ec; [|done]. rewrite <- not_true_iff_false in E. destruct E.
    apply existsb_exists. exists c. split; [by apply list_elem_of_In|done]. }
  rewrite Clean_rooted, Join_texts by (done || by apply names_plain). destruct (_ && _); [done|]. intros [= <-].
  exists (names_in name). split; [by apply names_plain|done].
Qed.

(** ** Splitting a text *)
Lemma join_app a b : a ≠ [] → b ≠ [] → join_slash (a ++ b) = join_slash a ++ slash :: join_slash b.
Proof.
  intros Ha Hb. induction a as [|c [|d a] IH]; [done| |].
  - by destruct b.
  - change (join_slash ((c :: d :: a) ++ b)) with (c ++ slash :: join_slash ((d :: a) ++ b)). rewrite IH by done.
    change (join_slash (c :: d :: a)) with (c ++ slash :: join_slash (d :: a)). by rewrite <- app_assoc.
Qed.

Lemma text_app rooted p q : p ≠ [] → q ≠ [] → path_text rooted (p ++ q) = path_text rooted p ++ slash :: join_slash q.
Proof.
  intros Hp Hq. unfold path_text. destruct p as [|c p]; [done|]. cbn [app]. change (c :: p ++ q) with ((c :: p) ++ q).
  rewrite join_app by done. by rewrite app_assoc.
Qed.

Lemma HasPrefix_text rooted p q : p ≠ [] → Forall plain_name (p ++ q) →
  HasPrefix (path_text rooted (p ++ q)) (path_text rooted p ++ [slash]) = negb (bool_decide (q = [])).
Proof.
  intros Hp Hpl. unfold HasPrefix. destruct q as [|c q].
  - rewrite app_nil_r, (bool_decide_eq_true_2 ([] = [])) by done. apply bool_decide_eq_false_2. intros E.
    apply (f_equal length) in E. rewrite length_take, length_app in E. cbn in E. lia.
  - rewrite (bool_decide_eq_false_2 (c :: q = [])) by done. apply bool_decide_eq_true_2. rewrite text_app by done.
    rewrite length_app. cbn [length]. rewrite cons_middle, app_assoc, take_app_all; [done|]. by rewrite length_app.
Qed.

Lemma elem_of_rev {A} (x : A) l : x ∈ rev l ↔ x ∈ l.
Proof. by rewrite !list_elem_of_In, <- in_rev. Qed.

Lemma drop_last_plain c r : slash ∉ c → drop_last_comp (rev c ++ slash :: r) = slash :: r.
Proof.
  intros Hc. assert (slash ∉ rev c) as Hr by (by rewrite elem_of_rev).
  induction (rev c) as [|x l IH]; cbn; [done|]. rewrite bool_decide_eq_false_2 by set_solver. apply IH. set_solver.
Qed.

Lemma Clean_trailing rooted p : Forall plain_name p → Clean (path_text rooted p ++ [slash]) = path_text rooted p.
Proof.
  intros Hp. pose proof (path_text_ne rooted p Hp) as Hne. unfold Clean, clean_comps.
  rewrite is_rooted_app, path_text_rooted by done. change [slash] with (slash :: []). rewrite split_slash_app, foldl_app, foldl_text by done.
  change (foldl (clean_comp rooted) (rev p) (split_slash [])) with (rev p). rewrite rev_involutive. unfold path_text. by destruct p.
Qed.

Lemma Dir_text rooted p c : p ≠ [] → Forall plain_name p → plain_name c → Dir (path_text rooted (p ++ [c])) = path_text rooted p.
Proof.
  intros Hne Hp Hc. unfold Dir. rewrite text_app by done. cbn [join_slash]. rewrite rev_app_distr. cbn [rev]. rewrite <- app_assoc. cbn [app].
  rewrite drop_last_plain by (by destruct Hc as (_ & _ & _ & ?)). cbn [rev]. rewrite rev_involutive. by apply Clean_trailing.
Qed.

(** ** The parent that [MkdirAll] makes first *)
Definition slashed (trailing : bool) (t : bytes) : bytes := if trailing then t ++ [slash] else t.

Lemma skip_name c r : slash ∉ c → skip_sep false (c ++ r) = skip_sep false r.
Proof.
  induction c as [|x c IH]; intros Hc; [done|]. cbn. rewrite bool_decide_eq_false_2 by set_solver. cbn. apply IH. set_solver.
Qed.

Lemma skip_trailing tr c r : plain_name c →
  skip_sep true (rev (slashed tr (rev r ++ c))) = rev c ++ r.
Proof.
  intros Hc. assert (slash ∉ rev c) as Hr by (rewrite elem_of_rev; by destruct Hc as (_ & _ & _ & ?)).
  assert (rev (slashed tr (rev r ++ c)) = (if tr then [slash] else []) ++ rev c ++ r) as ->.
  { unfold slashed. destruct tr; rewrite ?rev_app_distr; cbn [rev app]; by rewrite rev_involutive. }
  assert (skip_sep true (rev c ++ r) = rev c ++ r) as Hs.
  { destruct (rev c) as [|x l] eqn:E; [apply (f_equal (@rev byte)) in E; rewrite rev_involutive in E; by destruct Hc|].
    cbn. by rewrite bool_decide_eq_false_2 by set_solver. }
  destruct tr; [|done]. cbn. exact Hs.
Qed.

Lemma parent_step rooted p c tr : Forall plain_name p → plain_name c →
  parent_text (slashed tr (path_text rooted (p ++ [c]))) =
  match p with [] => if rooted then [slash] else [] | _ => path_text rooted p ++ [slash] end.
Proof.
  intros Hp Hc. assert (slash ∉ rev c) as Hr by (rewrite elem_of_rev; by destruct Hc as (_ & _ & _ & ?)).
  assert (∃ r, path_text rooted (p ++ [c]) = rev r ++ c ∧ rev (skip_sep false r) =
    match p with [] => if rooted then [slash] else [] | _ => path_text rooted p ++ [slash] end) as (r & -> & <-).
  { destruct p as [|d p].
    - exists (if rooted then [slash] else []). by destruct rooted.
    - exists (slash :: rev (path_text rooted (d :: p))). rewrite text_app by done. cbn [rev skip_sep]. rewrite rev_involutive, <- app_assoc.
      split; [done|]. rewrite bool_decide_eq_true_2 by done. cbn. by rewrite rev_involutive. }
  unfold parent_text. by rewrite skip_trailing, skip_name.
Qed.
