(* ===== verification/TarSafety.v ===== *)
(** * Extraction stays inside its destination

    Whatever the archive holds, and whatever calls fail, [Extract] changes nothing
    outside the destination directory but the directories on the way to it.  The
    argument follows the code: [safeJoin] gives a path below the destination,
    [rejectSymlinkComponents] leaves only real directories on that path, and nothing
    that was created changes its type afterwards. *)

From Stdlib Require Import Init.Byte.
From S2P Require Import Prelude Machine Chunkers FsRead Path Posix Ingest IngestFacts PosixFacts Tar PathFacts.
From Stdlib Require Import ZifyBool ZifyNat.
Local Open Scope Z_scope.

#[export] Instance inode_eq_dec : EqDecision inode.
Proof. solve_decision. Defined.

(** Every inode is in a directory. *)
Definition fs_closed (fs : FS) : Prop :=
  ∀ p c i, fs !! (p ++ [c]) = Some i → p ≠ [] → ∃ j, fs !! p = Some j ∧ i_dir j = true.

(** Nothing disappears or changes its type. *)
Definition grows (fs fs' : FS) : Prop :=
  ∀ p i, fs !! p = Some i → ∃ i', fs' !! p = Some i' ∧ fmt (i_mode i') = fmt (i_mode i).

#[export] Instance grows_preorder : PreOrder grows.
Proof.
  split; [intros fs p i Hi; eauto|]. intros a b c Hab Hbc p i Hi. destruct (Hab p i Hi) as (j & Hj & E).
  destruct (Hbc p j Hj) as (l & Hl & E'). exists l. split; [done|congruence].
Qed.

Lemma same_dir i j : fmt (i_mode i) = fmt (i_mode j) → i_dir i = i_dir j.
Proof. unfold i_dir. by intros ->. Qed.

(** ** Paths of a process *)
Section paths.
Context (rooted : bool) (cwd : list bytes).

Definition base : list bytes := if rooted then [] else cwd.

(** The prefixes of [p] are directories; they are directories or missing. *)
Definition dirs_to (fs : FS) (p : list bytes) : Prop :=
  ∀ q c r, p = q ++ c :: r → ∃ i, fs !! (base ++ q ++ [c]) = Some i ∧ i_dir i = true.
Definition clear (fs : FS) (p : list bytes) : Prop :=
  ∀ q c r i, p = q ++ c :: r → fs !! (base ++ q ++ [c]) = Some i → i_dir i = true.

Lemma dirs_grow fs fs' p : grows fs fs' → dirs_to fs p → dirs_to fs' p.
Proof.
  intros Hg Hd q c r ->. destruct (Hd q c r eq_refl) as (i & Hi & Hdir). destruct (Hg _ _ Hi) as (i' & Hi' & E).
  exists i'. split; [done|]. by rewrite (same_dir _ _ E).
Qed.

Lemma dirs_clear fs p : dirs_to fs p → clear fs p.
Proof. intros Hd q c r i -> Hi. destruct (Hd q c r eq_refl) as (j & Hj & ?). by simplify_eq. Qed.

Lemma dirs_prefix fs p q : dirs_to fs (p ++ q) → dirs_to fs p.
Proof. intros Hd p' c r ->. apply (Hd p' c (r ++ q)). by rewrite <- app_assoc. Qed.

Lemma clear_prefix fs p q : clear fs (p ++ q) → clear fs p.
Proof. intros Hd p' c r i -> Hi. apply (Hd p' c (r ++ q) i); [by rewrite <- app_assoc|done]. Qed.

Lemma dirs_snoc fs p c : dirs_to fs p → (∃ i, fs !! (base ++ p ++ [c]) = Some i ∧ i_dir i = true) → dirs_to fs (p ++ [c]).
Proof.
  intros Hd Hc q c' r E. destruct r as [|x r _] using rev_ind.
  - apply app_inj_tail in E as [-> ->]. done.
  - rewrite app_comm_cons, app_assoc in E. apply app_inj_tail in E as [E _]. by eapply Hd.
Qed.

Lemma clear_snoc fs p c : clear fs p → (∀ i, fs !! (base ++ p ++ [c]) = Some i → i_dir i = true) → clear fs (p ++ [c]).
Proof.
  intros Hd Hc q c' r i E. destruct r as [|x r _] using rev_ind.
  - apply app_inj_tail in E as [-> ->]. apply Hc.
  - rewrite app_comm_cons, app_assoc in E. apply app_inj_tail in E as [E _]. by eapply Hd.
Qed.

Lemma resolve_base fs follow tr p : Forall plain_name p → p ≠ [] →
  resolve fs cwd follow (slashed tr (path_text rooted p)) =
  walk max_links fs follow base (p ++ if tr then [[]] else []).
Proof.
  intros Hp Hne. pose proof (path_text_ne rooted p Hp) as Ht. unfold resolve.
  assert (slashed tr (path_text rooted p) ≠ []) as Hs by (unfold slashed; destruct tr, (path_text rooted p); done).
  destruct (slashed tr (path_text rooted p)) as [|x l] eqn:E; [done|]. rewrite <- E. clear Hs.
  assert (is_rooted (slashed tr (path_text rooted p)) = rooted) as ->.
  { unfold slashed. destruct tr; rewrite ?is_rooted_app by done; by apply path_text_rooted. }
  fold base. assert (split_slash (slashed tr (path_text rooted p)) = (if rooted then [[]] else []) ++ p ++ if tr then [[]] else []) as ->.
  { unfold slashed. destruct tr; [|by rewrite app_nil_r, split_path_text].
    change [slash] with (slash :: []). rewrite split_slash_app, split_path_text by done. by rewrite <- app_assoc. }
  by destruct rooted.
Qed.

Lemma walk_dirs links fs follow p rest : Forall plain_name p → dirs_to fs p →
  walk links fs follow base (p ++ rest) = walk links fs follow (base ++ p) rest.
Proof. intros Hp Hd. by apply walk_real. Qed.

Lemma walk_skip links fs follow cur : walk links fs follow cur [[]] = Ok cur.
Proof. by destruct links. Qed.

Lemma walk_missing links fs follow cur c rest : plain_name c → fs !! (cur ++ [c]) = None →
  walk links fs follow cur (c :: rest) = if forallb comp_skip rest then Ok (cur ++ [c]) else Err ENOENT.
Proof. intros Hc Hn. destruct (plain_skip c Hc) as [E1 E2]. destruct links; cbn [walk]; by rewrite E1, E2, Hn. Qed.

(** A clear path: it exists, its last component is missing, or more is. *)
Lemma clear_cases fs p : clear fs p →
  dirs_to fs p ∨ ∃ q c r, p = q ++ c :: r ∧ dirs_to fs q ∧ fs !! (base ++ q ++ [c]) = None.
Proof.
  induction p as [|c p IH] using rev_ind; intros Hc; [left; by intros [] ? ?|].
  destruct (IH (clear_prefix _ _ _ Hc)) as [Hd|(q & d & r & -> & Hq & Hn)].
  - destruct (fs !! (base ++ p ++ [c])) as [i|] eqn:E; [left|right; by exists p, c, []].
    apply dirs_snoc; [done|]. exists i. split; [done|]. by apply (Hc p c [] i).
  - right. exists q, d, (r ++ [c]). by rewrite <- app_assoc.
Qed.

Lemma resolve_clear fs follow tr p c : Forall plain_name p → plain_name c → clear fs (p ++ [c]) →
  (resolve fs cwd follow (slashed tr (path_text rooted (p ++ [c]))) = Ok (base ++ p ++ [c]) ∧ dirs_to fs p) ∨
  resolve fs cwd follow (slashed tr (path_text rooted (p ++ [c]))) = Err ENOENT.
Proof.
  intros Hp Hc Hclear. assert (Forall plain_name (p ++ [c])) as Hpc by (apply Forall_app; split; [done|by apply Forall_singleton]).
  rewrite resolve_base by (done || by destruct p).
  destruct (clear_cases fs (p ++ [c]) Hclear) as [Hd|(q & d & r & E & Hq & Hn)].
  - left. split; [|by eapply dirs_prefix]. rewrite walk_dirs by done. destruct tr; [apply walk_skip|apply walk_nil].
  - rewrite E in Hpc. apply Forall_app in Hpc as [Hpq [Hpd Hpr]%Forall_cons]. rewrite E, <- app_assoc, walk_dirs by done.
    cbn [app]. rewrite walk_missing by (done || by rewrite <- app_assoc).
    destruct r as [|x r].
    + apply app_inj_tail in E as [-> ->]. left. split; [|done]. rewrite <- app_assoc. by destruct tr.
    + right. cbn. apply Forall_cons in Hpr as [Hx _]. destruct (plain_skip x Hx) as [-> _]. done.
Qed.

(** An existing path whose parents are directories. *)
Lemma resolve_at fs follow p c i : Forall plain_name p → plain_name c → dirs_to fs p → fs !! (base ++ p ++ [c]) = Some i →
  (follow = true → i_link i = false) → resolve fs cwd follow (path_text rooted (p ++ [c])) = Ok (base ++ p ++ [c]).
Proof.
  intros Hp Hc Hd Hi Hl. assert (Forall plain_name (p ++ [c])) as Hpc by (apply Forall_app; split; [done|by apply Forall_singleton]).
  change (path_text rooted (p ++ [c])) with (slashed false (path_text rooted (p ++ [c]))).
  rewrite resolve_base by (done || by destruct p). rewrite app_nil_r, walk_dirs by done.
  rewrite walk_last; [by rewrite <- app_assoc|done|]. intros j Hj Hf. rewrite <- app_assoc in Hj. simplify_eq. by apply Hl.
Qed.
End paths.

(** ** Calls *)

(** The process goes on in the same directory; its outcomes are used up. *)
Definition same (w w' : proc) : Prop :=
  w_cwd w' = w_cwd w ∧ w_euid w' = w_euid w ∧ w_egid w' = w_egid w ∧ w_umask w' = w_umask w ∧ w_now w' = w_now w ∧
  (∀ o, o ∈ w_events w' → o ∈ w_events w).

#[export] Instance same_preorder : PreOrder same.
Proof. split; [done|]. intros a b c (? & ? & ? & ? & ? & ?) (? & ? & ? & ? & ? & ?). split_and!; try congruence. eauto. Qed.

Lemma same_set fs w : same w (set_fs fs w).
Proof. done. Qed.

Lemma pop_spec w : ∃ o w1, pop_event w = (o, w1) ∧ same w w1 ∧ w_fs w1 = w_fs w ∧ (o = Fine ∨ o ∈ w_events w).
Proof.
  unfold pop_event. destruct (w_events w) as [|o evs] eqn:E; [exists Fine, w; split_and!; auto; done|].
  eexists o, _. split_and!; [done| |done|right; left]. split_and!; [done..|]. cbn. rewrite E. intros o'. by right.
Qed.

Lemma sys_spec {A} (f : proc → result (A * FS)) w : ∃ w1, same w w1 ∧ w_fs w1 = w_fs w ∧
  ((∃ e n, Fails e n ∈ w_events w ∧ sys f w = (Err e, w1)) ∨
   sys f w = match f w1 with
             | Ok (a, fs) => (Ok a, set_fs fs w1) | Err e => (Err e, w1) | Panic => (Panic, w1) | Diverge => (Diverge, w1) end).
Proof.
  destruct (pop_spec w) as (o & w1 & Hp & Hs & Hf & Ho). exists w1. split_and!; [done..|]. unfold sys. rewrite Hp.
  destruct o as [|e n]; [by right|left]. exists e, n. destruct Ho as [?|?]; done.
Qed.

Lemma resolve_safe fs cwd follow path : safe (resolve fs cwd follow path).
Proof.
  unfold resolve. destruct path as [|x path]; [by split|]. generalize (x :: path) as l. intros l.
  generalize (if is_rooted l then [] else cwd) as cur. generalize (split_slash l) as comps.
  induction max_links as [|links IH]; intros comps; induction comps as [|c rest IHc]; intros cur; cbn [walk]; try by split.
  - repeat (case_match; try by split; try apply IHc); apply IHc.
  - repeat (case_match; try by split; try apply IHc; try apply IH); first [apply IHc|apply IH].
Qed.

Lemma lookup_safe fs cwd follow path : safe (lookup_path fs cwd follow path).
Proof. apply safe_bind; [apply resolve_safe|]. intros p _. by destruct (fs !! p). Qed.

(** ** Weakest preconditions *)
Definition wp {A} (m : X A) (w : proc) (Q : result A → proc → Prop) : Prop := Q (m w).1 (m w).2.

Section wp.
Context {A B : Type}.

Lemma xp_mono (m : X A) w (P Q : result A → proc → Prop) : wp m w P → (∀ r w', P r w' → Q r w') → wp m w Q.
Proof. unfold wp. auto. Qed.

Lemma xp_ret (a : A) w Q : Q (Ok a) w → wp (mret a) w Q.
Proof. done. Qed.

Lemma xp_fail e w (Q : result A → proc → Prop) : Q (Err e) w → wp (failX e) w Q.
Proof. done. Qed.

Lemma xp_lift r w (Q : result A → proc → Prop) : Q r w → wp (liftX r) w Q.
Proof. done. Qed.

(** The value goes on, anything else ends the computation. *)
Lemma xp_bind (m : X B) (f : B → X A) w Q :
  wp m w (λ r w', match r with
    | Ok b => wp (f b) w' Q | Err e => Q (Err e) w' | Panic => Q Panic w' | Diverge => Q Diverge w' end) →
  wp (m ≫= f) w Q.
Proof. unfold wp, mbind, X_bind. destruct (m w) as [[b|e| |] w']; done. Qed.

Lemma xp_try (m : X A) w Q :
  wp m w (λ r w', match r with
    | Ok a => Q (Ok (inl a)) w' | Err e => Q (Ok (inr e)) w' | Panic => Q Panic w' | Diverge => Q Diverge w' end) →
  wp (tryX m) w Q.
Proof. unfold wp, tryX. destruct (m w) as [[a|e| |] w']; done. Qed.

Lemma xp_wrap msg (m : X A) w Q : wp m w (λ r w', Q (wrap msg r) w') → wp (wrapX msg m) w Q.
Proof. unfold wp, wrapX. by destruct (m w). Qed.

Lemma xp_sys (f : proc → result (A * FS)) w Q :
  (∀ w1, same w w1 → w_fs w1 = w_fs w →
    (∀ e n, Fails e n ∈ w_events w → Q (Err e) w1) ∧
    match f w1 with
    | Ok (a, fs) => Q (Ok a) (set_fs fs w1) | Err e => Q (Err e) w1 | Panic => Q Panic w1 | Diverge => Q Diverge w1 end) →
  wp (sys f) w Q.
Proof.
  intros HQ. destruct (sys_spec f w) as (w1 & Hs & Hf & Hcase). destruct (HQ w1 Hs Hf) as [Hfail Hok]. unfold wp.
  destruct Hcase as [(e & n & Hin & ->)| ->]; [by eapply Hfail|]. by destruct (f w1) as [[a fs]|e| |].
Qed.
End wp.

(** [stat] changes nothing. *)
Lemma xp_stat follow path w (Q : result (FileInfo + error) → proc → Prop) :
  (∀ r w', same w w' → w_fs w' = w_fs w →
     match r with
     | inl info => ∃ i, lookup_path (w_fs w) (w_cwd w) follow path = Ok i ∧ info = i_info i
     | inr e => lookup_path (w_fs w) (w_cwd w) follow path = Err e ∨ ∃ n, Fails e n ∈ w_events w
     end → Q (Ok r) w') →
  wp (tryX (sys_stat follow path)) w Q.
Proof.
  intros HQ. apply xp_try, xp_sys. intros w1 Hs Hf. split.
  - intros e n Hin. apply HQ; [done|done|]. right. by exists n.
  - rewrite Hf, (proj1 Hs). pose proof (lookup_safe (w_fs w) (w_cwd w) follow path) as [Hp Hd].
    destruct (lookup_path _ _ _ _) as [i|e| |] eqn:E; [| |done..]; cbn; apply HQ; eauto.
Qed.

Lemma masked_fmt ty mode w : Z.land ty S_IFMT = ty → fmt (masked ty mode w) = ty.
Proof.
  intros Hty. unfold fmt, masked, perm. rewrite Z.land_lor_distr_l, Hty.
  assert (Z.land (Z.ldiff (Z.land mode 0xFFF) (w_umask w)) S_IFMT = 0) as ->; [|apply Z.lor_0_r].
  apply Z.bits_inj'. intros n Hn. rewrite Z.bits_0, Z.land_spec, Z.ldiff_spec, Z.land_spec.
  pose proof (f_equal (λ z, Z.testbit z n) (eq_refl : Z.land 0xFFF S_IFMT = 0)) as E. cbv beta in E. rewrite Z.land_spec, Z.bits_0 in E.
  destruct (Z.testbit mode n), (Z.testbit 0xFFF n), (Z.testbit S_IFMT n), (Z.testbit (w_umask w) n); done.
Qed.

(** ** Creating names *)
Lemma touch_lookup dir now fs q :
  touch dir now fs !! q = if decide (q = dir) then
    (λ i, mkInode (i_mode i) (i_uid i) (i_gid i) now (i_rdev i) (i_data i) (i_xattrs i)) <$> fs !! q else fs !! q.
Proof.
  unfold touch. destruct (decide (q = dir)) as [->|Hne]; [by rewrite lookup_alter_eq|by rewrite lookup_alter_ne].
Qed.

(** The file system with a new inode. *)
Definition added (p : list bytes) (i : inode) (now : Z) (fs : FS) : FS := touch (removelast p) now (<[p := i]> fs).

Lemma removelast_snoc {A} (p : list A) c : removelast (p ++ [c]) = p.
Proof. apply removelast_last. Qed.

Lemma snoc_ne {A} (p : list A) c : p ++ [c] ≠ p.
Proof. intros E. apply (f_equal length) in E. rewrite length_app in E. cbn in E. lia. Qed.

Lemma added_lookup p c i now fs : added (p ++ [c]) i now fs !! (p ++ [c]) = Some i.
Proof.
  unfold added. rewrite touch_lookup, removelast_snoc. rewrite decide_False by apply snoc_ne. by rewrite lookup_insert_eq.
Qed.

Lemma added_other p c i now fs q : q ≠ p ++ [c] → q ≠ p → added (p ++ [c]) i now fs !! q = fs !! q.
Proof. intros H1 H2. unfold added. rewrite touch_lookup, removelast_snoc, decide_False by done. by rewrite lookup_insert_ne. Qed.

Lemma added_grows p c i now fs : fs !! (p ++ [c]) = None → grows fs (added (p ++ [c]) i now fs).
Proof.
  intros Hn q j Hj. unfold added. rewrite touch_lookup, removelast_snoc.
  rewrite lookup_insert_ne by (intros <-; congruence). rewrite Hj. destruct (decide (q = p)); eauto.
Qed.

Lemma added_closed p c i now fs : fs !! (p ++ [c]) = None → fs_closed fs →
  (p ≠ [] → ∃ j, fs !! p = Some j ∧ i_dir j = true) → fs_closed (added (p ++ [c]) i now fs).
Proof.
  intros Hn Hc Hp q d j Hj Hq. pose proof (added_grows p c i now fs Hn) as Hg.
  assert (∃ k, fs !! q = Some k ∧ i_dir k = true) as (k & Hk & Hd).
  { destruct (decide (q ++ [d] = p ++ [c])) as [E|Hne].
    - apply app_inj_tail in E as [-> ->]. by apply Hp.
    - destruct (fs !! (q ++ [d])) as [j'|] eqn:E; [by eapply Hc|]. exfalso. unfold added in Hj.
      rewrite touch_lookup, lookup_insert_ne, E in Hj by done. by destruct (decide _). }
  destruct (Hg q k Hk) as (k' & Hk' & E). exists k'. split; [done|]. by rewrite (same_dir _ _ E).
Qed.

(** What changes when the prefixes of [P] are made: those that were missing, and the
    directories they were made in. *)
Definition mk_frame (fs fs' : FS) (P : list bytes) : Prop :=
  ∀ q, fs' !! q ≠ fs !! q → ∃ r, P = q ++ r ∧ (q ≠ [] ∧ fs !! q = None ∨ ∃ c r', r = c :: r' ∧ fs !! (q ++ [c]) = None).

Lemma mk_frame_refl fs P : mk_frame fs fs P.
Proof. by intros q. Qed.

(** One more component. *)
Lemma mk_frame_snoc fs fs1 P c i now :
  mk_frame fs fs1 P → fs !! (P ++ [c]) = None → mk_frame fs (added (P ++ [c]) i now fs1) (P ++ [c]).
Proof.
  intros Hf Hn q Hq. destruct (decide (q = P ++ [c])) as [->|H1]; [exists []; rewrite app_nil_r; split; [done|]; left; by destruct P|].
  destruct (decide (q = P)) as [->|H2]; [exists [c]; split; [done|]; right; by exists c, []|].
  rewrite added_other in Hq by done. destruct (Hf q Hq) as (r & -> & Hor). exists (r ++ [c]). rewrite <- app_assoc. split; [done|].
  destruct Hor as [?|(d & r' & -> & ?)]; [by left|]. right. exists d, (r' ++ [c]). done.
Qed.

Section mkdir.
Context (rooted : bool) (cwd : list bytes).
Abbreviation base := (base rooted cwd).
Abbreviation clear := (clear rooted cwd).
Abbreviation dirs_to := (dirs_to rooted cwd).
Abbreviation text := (path_text rooted).

(** The prefixes of [p] were made, or some of them. *)
Record made (p : list bytes) (fs fs' : FS) : Prop := mkMade {
  made_grows : grows fs fs';
  made_closed : fs_closed fs → (base ≠ [] → ∃ j, fs !! base = Some j ∧ i_dir j = true) → fs_closed fs';
  made_clear : clear fs' p;
  made_frame : mk_frame fs fs' (base ++ p);
}.

Lemma made_refl p fs : clear fs p → made p fs fs.
Proof. intros Hc. split; [done|done|done|apply mk_frame_refl]. Qed.

Lemma create_spec tr p c mode rdev data w :
  Forall plain_name p → plain_name c → clear (w_fs w) (p ++ [c]) → w_cwd w = cwd →
  create (slashed tr (text (p ++ [c]))) mode rdev data w =
    Ok (tt, added (base ++ p ++ [c]) (mkInode mode (w_euid w) (w_egid w) (w_now w) rdev data ∅) (w_now w) (w_fs w)) ∧
    dirs_to (w_fs w) p ∧ w_fs w !! (base ++ p ++ [c]) = None ∨
  ∃ e, create (slashed tr (text (p ++ [c]))) mode rdev data w = Err e.
Proof.
  intros Hp Hc Hcl Hw. unfold create. rewrite Hw.
  destruct (resolve_clear rooted cwd (w_fs w) false tr p c Hp Hc Hcl) as [[-> Hd]| ->]; [|right; by eexists]. rsimpl.
  destruct (w_fs w !! (base ++ p ++ [c])) eqn:E; [right; by eexists|].
  rewrite bool_decide_eq_false_2 by (rewrite app_assoc; by destruct (base ++ p)). left. done.
Qed.

Lemma MkdirAll_root fuel mode w : wp (MkdirAll fuel [slash] mode) w (λ _ w', same w w' ∧ w_fs w' = w_fs w).
Proof.
  destruct fuel as [|fuel]; [by apply xp_lift|]. cbn [MkdirAll]. apply xp_bind, xp_stat. intros st w1 Hs1 Hf1 _.
  destruct st as [info|e]; [by destruct (info_IsDir info); [apply xp_ret|apply xp_fail]|].
  change (parent_text [slash]) with (@nil byte). cbn [length Nat.ltb Nat.leb]. apply xp_bind, xp_ret, xp_bind, xp_try, xp_sys.
  intros w2 Hs2 Hf2.
  assert (same w w2 ∧ w_fs w2 = w_fs w) as [Hs Hf] by (split; [by etrans|congruence]).
  assert (∀ e, wp (st ← tryX (sys_stat false [slash]); match st with inl info => if info_IsDir info then mret tt else failX e | inr _ => failX e end)
    w2 (λ _ w', same w w' ∧ w_fs w' = w_fs w)) as Hend.
  { intros e0. apply xp_bind, xp_stat. intros st w3 Hs3 Hf3 _. assert (same w w3 ∧ w_fs w3 = w_fs w) by (split; [by etrans|congruence]).
    destruct st as [info|]; [destruct (info_IsDir info); [by apply xp_ret|by apply xp_fail]|by apply xp_fail]. }
  split; [intros; apply Hend|]. unfold create. destruct (resolve_safe (w_fs w2) (w_cwd w2) false [slash]) as [? ?].
  change (resolve (w_fs w2) (w_cwd w2) false [slash]) with (Ok (@nil bytes)). rsimpl.
  destruct (w_fs w2 !! []); apply Hend.
Qed.

Lemma made_step p c fs fs1 : clear fs (p ++ [c]) → made p fs fs1 → fs1 !! (base ++ p ++ [c]) = fs !! (base ++ p ++ [c]) ∧ clear fs1 (p ++ [c]).
Proof.
  intros Hc [Hg Hcl Hk Hf]. assert (fs1 !! (base ++ p ++ [c]) = fs !! (base ++ p ++ [c])) as E.
  { destruct (decide (fs1 !! (base ++ p ++ [c]) = fs !! (base ++ p ++ [c]))) as [|Hne]; [done|].
    destruct (Hf _ Hne) as (r & Er & _). apply (f_equal length) in Er. rewrite !length_app in Er. cbn in Er. lia. }
  split; [done|]. apply clear_snoc; [done|]. intros i Hi. rewrite E in Hi. by apply (Hc p c [] i).
Qed.

(** [fs1] is where the parents were made; then the directory itself is. *)
Lemma made_add p c fs fs1 i now : made p fs fs1 → dirs_to fs1 p → fs !! (base ++ p ++ [c]) = None → i_dir i = true →
  fs1 !! (base ++ p ++ [c]) = None →
  made (p ++ [c]) fs (added (base ++ p ++ [c]) i now fs1) ∧ dirs_to (added (base ++ p ++ [c]) i now fs1) (p ++ [c]).
Proof.
  intros [Hg Hcl Hk Hf] Hd Hn Hi Hn1. rewrite app_assoc in *. pose proof (added_grows (base ++ p) c i now fs1 Hn1) as Hg1.
  assert (dirs_to (added ((base ++ p) ++ [c]) i now fs1) (p ++ [c])) as Hd'.
  { apply dirs_snoc; [by eapply dirs_grow|]. exists i. rewrite app_assoc. split; [apply added_lookup|done]. }
  split; [|done]. split.
  - by etrans.
  - intros Hc Hb. apply added_closed; [done|by apply Hcl|]. intros Hne. destruct p as [|d p _] using rev_ind.
    + rewrite app_nil_r in *. destruct (Hb Hne) as (j & Hj & Hdj). destruct (Hg _ _ Hj) as (j' & Hj' & E). exists j'.
      split; [done|]. by rewrite (same_dir _ _ E).
    + by apply (Hd p d []).
  - by apply dirs_clear.
  - rewrite app_assoc. by apply mk_frame_snoc.
Qed.

Lemma info_dir i : info_IsDir (i_info i) = i_dir i.
Proof. done. Qed.

(** A directory found by [stat]. *)
Lemma found_dir fs follow tr p c i : Forall plain_name p → plain_name c → clear fs (p ++ [c]) →
  lookup_path fs cwd follow (slashed tr (text (p ++ [c]))) = Ok i → dirs_to fs (p ++ [c]).
Proof.
  intros Hp Hc Hcl. unfold lookup_path. destruct (resolve_clear rooted cwd fs follow tr p c Hp Hc Hcl) as [[-> Hd]| ->]; [|done]. rsimpl.
  destruct (fs !! (base ++ p ++ [c])) as [j|] eqn:E; [|done]. intros [= <-]. apply dirs_snoc; [done|]. exists j. split; [done|].
  by apply (Hcl p c [] j).
Qed.

Lemma made_last p c fs fs1 : made p fs fs1 → clear fs (p ++ [c]) → made (p ++ [c]) fs fs1.
Proof.
  intros Hm Hc. destruct (made_step p c fs fs1 Hc Hm) as [E Hk]. destruct Hm as [Hg Hcl _ Hf]. split; [done..|].
  intros q Hq. destruct (Hf q Hq) as (r & Er & Hor). exists (r ++ [c]). rewrite app_assoc, Er, <- app_assoc. split; [done|].
  destruct Hor as [?|(d & r' & -> & ?)]; [by left|]. right. exists d, (r' ++ [c]). done.
Qed.

Lemma MkdirAll_spec fuel : ∀ p tr mode w, Forall plain_name p → p ≠ [] → clear (w_fs w) p → w_cwd w = cwd →
  wp (MkdirAll fuel (slashed tr (text p)) mode) w (λ r w',
    same w w' ∧ made p (w_fs w) (w_fs w') ∧ (∀ u, r = Ok u → dirs_to (w_fs w') p)).
Proof.
  induction fuel as [|fuel IH]; intros p tr mode w Hp Hne Hcl Hw.
  { apply xp_lift. split_and!; [done|by apply made_refl|done]. }
  destruct p as [|c p _] using rev_ind; [done|]. apply Forall_app in Hp as [Hp Hc]. rewrite Forall_singleton in Hc.
  cbn [MkdirAll]. apply xp_bind, xp_stat. intros st w1 Hs1 Hf1 Hst. rewrite Hw in Hst. destruct st as [info|e].
  { destruct Hst as (i & Hi & ->). destruct (info_IsDir (i_info i)); [apply xp_ret|apply xp_fail]; rewrite Hf1;
      (split_and!; [done|by apply made_refl|intros ? [=]]). by eapply found_dir. }
  apply xp_bind. rewrite parent_step by done.
  (* the parents *)
  assert (wp (if (0 <? length match p with [] => if rooted then [slash] else [] | _ => text p ++ [slash] end)%nat
      then MkdirAll fuel match p with [] => if rooted then [slash] else [] | _ => text p ++ [slash] end mode else mret tt) w1
    (λ r w2, same w w2 ∧ made p (w_fs w) (w_fs w2) ∧ (∀ u, r = Ok u → dirs_to (w_fs w2) p))) as Hpar.
  { assert (clear (w_fs w) p) as Hclp by (by eapply clear_prefix). destruct p as [|d p].
    - assert (∀ w2, same w1 w2 → w_fs w2 = w_fs w1 → same w w2 ∧ made [] (w_fs w) (w_fs w2)) as Hsame.
      { intros w2 Hs2 Hf2. split; [by etrans|]. rewrite Hf2, Hf1. by apply made_refl. }
      destruct rooted; cbn [length Nat.ltb Nat.leb].
      + eapply xp_mono; [apply MkdirAll_root|]. intros r w2 [Hs2 Hf2]. cbn beta. destruct (Hsame w2 Hs2 Hf2). split_and!; [done..|].
        intros _ _ [] ? ? ?; done.
      + apply xp_ret. destruct (Hsame w1 ltac:(done) eq_refl). split_and!; [done..|]. intros _ _ [] ? ? ?; done.
    - assert ((0 <? length (text (d :: p) ++ [slash]))%nat = true) as -> by (apply Nat.ltb_lt; rewrite length_app; cbn; lia).
      eapply xp_mono; [apply (IH (d :: p) true); [done|done|by rewrite Hf1|by rewrite (proj1 Hs1)]|].
      rewrite Hf1. intros r w2 (? & ? & ?). split_and!; [by etrans|done|done]. }
  eapply xp_mono; [exact Hpar|]. clear Hpar. intros r w2 (Hs2 & Hm & Hd).
  pose proof (made_last p c _ _ Hm Hcl) as Hm'. destruct r as [u|e2| |]; try (split_and!; [done|done|by intros ? [=]]).
  specialize (Hd u eq_refl). destruct (made_step p c _ _ Hcl Hm) as [Elast Hclear].
  apply xp_bind, xp_try, xp_sys. intros w3 Hs3 Hf3.
  assert (∀ e0 w4, same w w4 → w_fs w4 = w_fs w2 →
    wp (st ← tryX (sys_stat false (slashed tr (text (p ++ [c])))); match st with inl info => if info_IsDir info then mret tt else failX e0
        | inr _ => failX e0 end) w4 (λ r w', same w w' ∧ made (p ++ [c]) (w_fs w) (w_fs w') ∧ (∀ u, r = Ok u → dirs_to (w_fs w') (p ++ [c])))) as Hend.
  { intros e0 w4 Hs4 Hf4. apply xp_bind, xp_stat. intros st w5 Hs5 Hf5 Hst'.
    assert (same w w5 ∧ w_fs w5 = w_fs w2) as [Hs Hf] by (split; [by etrans|congruence]). rewrite <- Hf in *.
    destruct st as [info|]; [|apply xp_fail; split_and!; [done|done|by intros ? [=]]].
    destruct Hst' as (i & Hi & ->). rewrite Hf4, (proj1 Hs4), Hw in Hi. destruct (info_IsDir (i_info i)); [apply xp_ret|apply xp_fail];
      (split_and!; [done|done|intros ? [=]]). by eapply (found_dir _ false tr p c i). }
  assert (same w w3) as Hs by (by etrans). split; [intros e0 n _; by apply Hend|].
  destruct (create_spec tr p c (masked S_IFDIR mode w3) 0 [] w3 Hp Hc) as [(-> & Hd3 & Hn3)|[e0 ->]];
    [by rewrite Hf3|by rewrite (proj1 Hs)| |by apply Hend].
  rewrite Hf3 in *. destruct (made_add p c (w_fs w) (w_fs w2) (mkInode (masked S_IFDIR mode w3) (w_euid w3) (w_egid w3) (w_now w3) 0 [] ∅)
    (w_now w3) Hm Hd ltac:(congruence)) as [Hm3 Hd4]; [|done|].
  - unfold i_dir. cbn [i_mode]. by rewrite masked_fmt.
  - cbn. apply xp_ret. cbn [w_fs set_fs]. split_and!; [done..|]. by intros.
Qed.
End mkdir.

(** ** Confined computations *)
Lemma closed_parent fs P r i : fs_closed fs → fs !! (P ++ r) = Some i → P ≠ [] → r ≠ [] → ∃ j, fs !! P = Some j ∧ i_dir j = true.
Proof.
  intros Hc. revert i. induction r as [|c r IH] using rev_ind; intros i Hi HP Hr; [done|]. rewrite app_assoc in Hi.
  destruct (Hc _ _ _ Hi) as (j & Hj & Hd); [by destruct P|]. destruct r as [|d r]; [rewrite app_nil_r in Hj; eauto|]. by eapply IH.
Qed.

Section confined.
Context (rooted : bool) (cwd dc : list bytes) (Hdc : Forall plain_name dc) (Hne : dc ≠ []).
Abbreviation base := (base rooted cwd).
Abbreviation clear := (clear rooted cwd).
Abbreviation dirs_to := (dirs_to rooted cwd).
Abbreviation text := (path_text rooted).
Abbreviation D := (base ++ dc).

(** Only what is below [D] changed, and nothing lost its type. *)
Definition inside (fs fs' : FS) : Prop :=
  grows fs fs' ∧ (∀ q, ¬ D `prefix_of` q → fs' !! q = fs !! q) ∧ (fs_closed fs → fs_closed fs').

#[local] Instance inside_preorder : PreOrder inside.
Proof.
  split; [intros fs; by split_and!|]. intros a b c (H1 & H2 & H3) (H4 & H5 & H6). split_and!; [by etrans| |auto].
  intros q Hq. rewrite H5, H2 by done. done.
Qed.

Definition good_fs (fs : FS) : Prop := fs_closed fs ∧ dirs_to fs dc.

Lemma good_inside fs fs' : inside fs fs' → good_fs fs → good_fs fs'.
Proof. intros (Hg & _ & Hc) [H1 H2]. split; [auto|by eapply dirs_grow]. Qed.

(** No call reports a missing file that is there. *)
Definition ev_ok (w : proc) : Prop := ∀ e n, Fails e n ∈ w_events w → ¬ errors_Is e ErrNotExist.

Lemma ev_same w w' : same w w' → ev_ok w → ev_ok w'.
Proof. intros (_ & _ & _ & _ & _ & Hs) He e n Hin. eapply He, Hs, Hin. Qed.

Definition triple {A : Type} (P : FS → Prop) (m : X A) (Q : A → FS → Prop) : Prop :=
  ∀ w, w_cwd w = cwd → ev_ok w → good_fs (w_fs w) → P (w_fs w) →
    wp m w (λ r w', same w w' ∧ inside (w_fs w) (w_fs w') ∧ ∀ a, r = Ok a → Q a (w_fs w')).

Definition stable (R : FS → Prop) : Prop := ∀ fs fs', inside fs fs' → R fs → R fs'.

Section rules.
Context {A B : Type}.

Lemma t_ret (a : A) (Q : A → FS → Prop) : triple (Q a) (mret a) Q.
Proof. intros w _ _ _ HP. apply xp_ret. split_and!; [done|done|]. by intros ? [= <-]. Qed.

Lemma t_fail (e : error) (P : FS → Prop) (Q : A → FS → Prop) : triple P (failX e) Q.
Proof. intros w _ _ _ _. apply xp_fail. by split_and!. Qed.

Lemma t_lift (r : result A) (Q : A → FS → Prop) (P : FS → Prop) : (∀ a fs, r = Ok a → P fs → Q a fs) → triple P (liftX r) Q.
Proof. intros HQ w _ _ _ HP. apply xp_lift. split_and!; [done|done|]. intros a Ha. by apply HQ. Qed.

Lemma t_pre (P P' : FS → Prop) (m : X A) (Q : A → FS → Prop) : (∀ fs, good_fs fs → P fs → P' fs) → triple P' m Q → triple P m Q.
Proof. intros HP Hm w ? ? ? ?. apply Hm; auto. Qed.

Lemma t_post (P : FS → Prop) (m : X A) (Q Q' : A → FS → Prop) : triple P m Q' → (∀ a fs, Q' a fs → Q a fs) → triple P m Q.
Proof. intros Hm HQ w ? ? ? ?. eapply xp_mono; [by apply Hm|]. intros r w' (? & ? & ?). split_and!; auto. Qed.

Lemma t_bind (P : FS → Prop) (m : X B) (f : B → X A) (R : B → FS → Prop) (Q : A → FS → Prop) : triple P m R → (∀ b, triple (R b) (f b) Q) → triple P (m ≫= f) Q.
Proof.
  intros Hm Hf w Hw He Hg HP. apply xp_bind. eapply xp_mono; [by apply Hm|]. intros r w1 (Hs & Hi & HR).
  destruct r as [b|e| |]; try (by split_and!). eapply xp_mono.
  - apply (Hf b w1); [by rewrite (proj1 Hs)|by eapply ev_same|by eapply good_inside|by apply HR].
  - intros r w2 (? & ? & ?). split_and!; [by etrans|by etrans|done].
Qed.

(** A stable fact survives a call that fails. *)
Lemma t_try (P : FS → Prop) (m : X A) (R : A → FS → Prop) (Q : FS → Prop) : triple P m R → stable Q → (∀ fs, P fs → Q fs) →
  triple P (tryX m) (λ r fs, match r with inl a => R a fs | inr _ => Q fs end).
Proof.
  intros Hm HQ HP w Hw He Hg Hp. apply xp_try. eapply xp_mono; [by apply Hm|]. intros r w1 (Hs & Hi & HR).
  destruct r as [b|e| |]; split_and!; try done; intros a [= <-]; [by apply HR|]. eapply HQ; [exact Hi|auto].
Qed.

Lemma t_wrap (msg : string) (P : FS → Prop) (m : X A) (Q : A → FS → Prop) : triple P m Q → triple P (wrapX msg m) Q.
Proof.
  intros Hm w Hw He Hg Hp. apply xp_wrap. eapply xp_mono; [by apply Hm|]. intros r w1 (? & ? & ?). split_and!; [done|done|].
  destruct r as [x| | |]; cbn; intros b [=]; subst; auto.
Qed.

Lemma t_frame (P : FS → Prop) (m : X A) (Q : A → FS → Prop) (R : FS → Prop) : triple P m Q → stable R → triple (λ fs, P fs ∧ R fs) m (λ a fs, Q a fs ∧ R fs).
Proof.
  intros Hm HR w Hw He Hg [Hp Hr]. eapply xp_mono; [by apply Hm|]. intros r w1 (? & Hi & ?). split_and!; [done|done|].
  intros a Ha. split; [auto|by eapply HR].
Qed.
End rules.

(** ** The checks *)

(** [Lstat] does not find a link or a file at this path below the destination. *)
Definition seen (fs : FS) (q : list bytes) : Prop :=
  match lookup_path fs cwd false (text (dc ++ q)) with
  | Ok i => i_dir i = true | Err e => errors_Is e ErrNotExist | _ => True end.

Lemma seen_clear fs comps : good_fs fs → Forall plain_name comps →
  (∀ q c r, comps = q ++ c :: r → seen fs (q ++ [c])) → clear fs (dc ++ comps).
Proof.
  intros [Hcl Hd]. induction comps as [|c comps IH] using rev_ind; intros Hp Hseen; [rewrite app_nil_r; by apply dirs_clear|].
  apply Forall_app in Hp as [Hp Hc]. rewrite Forall_singleton in Hc. rewrite app_assoc.
  assert (clear fs (dc ++ comps)) as Hclear.
  { apply IH; [done|]. intros q d r ->. apply (Hseen q d (r ++ [c])). by rewrite <- app_assoc. }
  apply clear_snoc; [done|]. intros i Hi.
  assert (dirs_to fs (dc ++ comps)) as Hdirs.
  { destruct (clear_cases rooted cwd fs _ Hclear) as [?|(q & d & r & E & _ & Hn)]; [done|]. exfalso. rewrite E in Hi.
    replace (base ++ (q ++ d :: r) ++ [c]) with ((base ++ q ++ [d]) ++ r ++ [c]) in Hi by (rewrite <- !app_assoc; done).
    destruct (closed_parent fs _ _ i Hcl Hi) as (j & Hj & _); [destruct base, q; done|by destruct r|congruence]. }
  pose proof (Hseen comps c [] eq_refl) as Hs. unfold seen, lookup_path in Hs. rewrite app_assoc in Hs.
  rewrite (resolve_at rooted cwd fs false _ _ i) in Hs; [|by apply Forall_app|done..]. cbn in Hs. by rewrite Hi in Hs.
Qed.

Lemma reject_spec fuel comps : Forall plain_name comps → ∀ w, w_cwd w = cwd → ev_ok w →
  wp (reject_loop fuel (text dc) (text (dc ++ comps))) w (λ r w', same w w' ∧ w_fs w' = w_fs w ∧
    ∀ u, r = Ok u → ∀ q c r', comps = q ++ c :: r' → seen (w_fs w) (q ++ [c])).
Proof.
  revert comps. induction fuel as [|fuel IH]; intros comps Hp w Hw He; [apply xp_lift; by split_and!|]. cbn [reject_loop].
  rewrite HasPrefix_text by (done || by apply Forall_app). destruct comps as [|c comps _] using rev_ind.
  { rewrite bool_decide_eq_true_2 by done. apply xp_ret. split_and!; [done|done|]. by intros _ _ [] ? ?. }
  rewrite bool_decide_eq_false_2 by (by destruct comps). cbn [negb].
  apply Forall_app in Hp as [Hp Hc]. rewrite Forall_singleton in Hc.
  apply xp_bind, xp_stat. intros st w1 Hs1 Hf1 Hst.
  assert (seen (w_fs w) (comps ++ [c]) → wp (reject_loop fuel (text dc) (Dir (text (dc ++ comps ++ [c])))) w1 (λ r w', same w w' ∧ w_fs w' = w_fs w ∧
    ∀ u, r = Ok u → ∀ q d r', comps ++ [c] = q ++ d :: r' → seen (w_fs w) (q ++ [d]))) as Hgo.
  { intros Hseen. rewrite app_assoc, Dir_text; [|by destruct dc|by apply Forall_app|done].
    eapply xp_mono; [apply (IH comps Hp w1); [by rewrite (proj1 Hs1)|by eapply ev_same]|].
    rewrite Hf1. intros r w2 (? & ? & Hq). split_and!; [by etrans|done|]. intros u Hu q d r' E.
    destruct r' as [|x r' _] using rev_ind; [by apply app_inj_tail in E as [-> ->]|].
    rewrite app_comm_cons, app_assoc in E. apply app_inj_tail in E as [E _]. by eapply Hq. }
  rewrite Hw in Hst. destruct st as [fi|e].
  - destruct Hst as (i & Hi & ->). rewrite info_dir. destruct (i_dir i) eqn:Hd; [|apply xp_fail; by split_and!].
    apply Hgo. unfold seen. by rewrite Hi.
  - case_bool_decide as Hex; [|apply xp_fail; by split_and!]. apply Hgo. unfold seen.
    destruct Hst as [->|[n Hin]]; [done|]. by apply He in Hin.
Qed.

Lemma t_reject comps : Forall plain_name comps →
  triple (λ _, True) (rejectSymlinkComponents (text dc) (text (dc ++ comps))) (λ _ fs, clear fs (dc ++ comps)).
Proof.
  intros Hp w Hw He Hg _. eapply xp_mono; [by apply (reject_spec _ comps Hp w)|]. intros r w' (Hs & Hf & Hq). cbn beta.
  rewrite Hf. split_and!; [done|done|]. intros u Hu. apply seen_clear; [done|done|by eapply Hq].
Qed.

(** ** The calls on a target *)

(** The target exists with this type, and real directories lead to it. *)
Definition at_target (comps : list bytes) (ty : Z) (fs : FS) : Prop :=
  ∃ p c i, dc ++ comps = p ++ [c] ∧ dirs_to fs p ∧ fs !! (base ++ p ++ [c]) = Some i ∧ fmt (i_mode i) = ty.

Lemma at_target_stable comps ty : stable (at_target comps ty).
Proof.
  intros fs fs' (Hg & _) (p & c & i & E & Hd & Hi & Ht). destruct (Hg _ _ Hi) as (i' & Hi' & Ei).
  exists p, c, i'. split_and!; [done|by eapply dirs_grow|done|congruence].
Qed.

Lemma at_target_dir comps fs : dirs_to fs (dc ++ comps) → at_target comps S_IFDIR fs.
Proof.
  intros Hd. destruct (dc ++ comps) as [|c p _] eqn:E using rev_ind; [by destruct dc|].
  destruct (Hd p c [] eq_refl) as (i & Hi & Hdir). exists p, c, i. split_and!; [done|by eapply dirs_prefix|done|by apply Z.eqb_eq].
Qed.

Lemma target_plain comps p c : Forall plain_name comps → dc ++ comps = p ++ [c] → Forall plain_name p ∧ plain_name c.
Proof.
  intros Hp E. assert (Forall plain_name (p ++ [c])) as H by (rewrite <- E; by apply Forall_app).
  apply Forall_app in H as [? H]. by rewrite Forall_singleton in H.
Qed.

Lemma target_below comps p c : dc ++ comps = p ++ [c] → D `prefix_of` base ++ p ++ [c].
Proof. intros <-. rewrite app_assoc. by exists comps. Qed.

(** A new inode below the destination. *)
Lemma added_inside p c i now fs : good_fs fs → dirs_to fs p → fs !! (base ++ p ++ [c]) = None →
  dc `prefix_of` p → inside fs (added (base ++ p ++ [c]) i now fs).
Proof.
  intros [Hc Hd] Hp Hn Hpre. rewrite app_assoc in *. split_and!.
  - by apply added_grows.
  - intros q Hq. apply added_other; intros ->; apply Hq.
    + destruct Hpre as [r ->]. exists (r ++ [c]). by rewrite !app_assoc.
    + destruct Hpre as [r ->]. exists r. by rewrite app_assoc.
  - intros _. apply added_closed; [done|done|]. intros _. destruct p as [|d p _] using rev_ind.
    + destruct Hpre as [r E]. by destruct dc.
    + by apply (Hp p d []).
Qed.

Lemma t_create_if comps (allowed : proc → bool) (mode : proc → Z) ty rdev data e :
  Forall plain_name comps → (∀ w, fmt (mode w) = ty) →
  triple (λ fs, clear fs (dc ++ comps))
    (sys (λ w, if allowed w then create (text (dc ++ comps)) (mode w) rdev data w else Err e)) (λ _, at_target comps ty).
Proof.
  intros Hp Hmode w Hw He Hg Hcl. apply xp_sys. intros w1 Hs Hf. split; [intros; rewrite Hf; by split_and!|].
  destruct (allowed w1); [|rewrite Hf; by split_and!].
  destruct (dc ++ comps) as [|c p _] eqn:E using rev_ind; [by destruct dc|]. destruct (target_plain comps p c Hp E) as [Hpp Hcc].
  destruct (create_spec rooted cwd false p c (mode w1) rdev data w1 Hpp Hcc) as [(Hcr & Hd & Hn)|[e' Hcr]];
    [by rewrite Hf|by rewrite (proj1 Hs)| |]; unfold slashed in Hcr; rewrite Hcr; [|rewrite Hf; by split_and!].
  cbn. rewrite Hf in *. split_and!; [done| |].
  - apply added_inside; [done|done|done|]. destruct comps as [|c' comps _] using rev_ind.
    + exfalso. rewrite app_nil_r in E. destruct Hg as [_ Hdd]. rewrite E in Hdd.
      destruct (Hdd p c [] eq_refl) as (i & Hi & _). congruence.
    + rewrite app_assoc in E. apply app_inj_tail in E as [<- _]. by exists comps.
  - intros _ _. eexists p, c, _. rewrite app_assoc. split_and!; [done| |apply added_lookup|apply Hmode].
    eapply dirs_grow; [|exact Hd]. apply added_grows. by rewrite <- app_assoc.
Qed.

Lemma t_create comps (mode : proc → Z) ty rdev data : Forall plain_name comps → (∀ w, fmt (mode w) = ty) →
  triple (λ fs, clear fs (dc ++ comps)) (sys (λ w, create (text (dc ++ comps)) (mode w) rdev data w)) (λ _, at_target comps ty).
Proof. exact (t_create_if comps (λ _, true) mode ty rdev data EINVAL). Qed.

(** Changing an inode without changing its type. *)
Lemma insert_inside p c i i' fs : good_fs fs → D `prefix_of` base ++ p ++ [c] → fs !! (base ++ p ++ [c]) = Some i →
  fmt (i_mode i') = fmt (i_mode i) → inside fs (<[base ++ p ++ [c] := i']> fs).
Proof.
  intros [Hc _] Hpre Hi Hfmt.
  assert (grows fs (<[base ++ p ++ [c] := i']> fs)) as Hg.
  { intros q j Hj. destruct (decide (q = base ++ p ++ [c])) as [->|Hq]; [|exists j; by rewrite lookup_insert_ne].
    simplify_eq. exists i'. by rewrite lookup_insert_eq. }
  split_and!; [done| |].
  - intros q Hq. rewrite lookup_insert_ne; [done|]. by intros <-.
  - intros _ q d j Hj Hq. assert (∃ k, fs !! (q ++ [d]) = Some k) as [k Hk].
    { destruct (decide (q ++ [d] = base ++ p ++ [c])) as [E|Hn]; [rewrite E; eauto|]. rewrite lookup_insert_ne in Hj by done. eauto. }
    destruct (Hc q d k Hk Hq) as (l & Hl & Hd). destruct (Hg q l Hl) as (l' & Hl' & E). exists l'. split; [done|].
    by rewrite (same_dir _ _ E).
Qed.

Lemma change_spec follow comps ty f w : Forall plain_name comps → (follow = true → ty ≠ S_IFLNK) →
  (∀ i, fmt (i_mode (f i)) = fmt (i_mode i)) → w_cwd w = cwd → good_fs (w_fs w) → at_target comps ty (w_fs w) →
  ∃ fs', change follow (text (dc ++ comps)) f w = Ok (tt, fs') ∧ inside (w_fs w) fs'.
Proof.
  intros Hp Hl Hf Hw Hg (p & c & i & E & Hd & Hi & Ht). destruct (target_plain comps p c Hp E) as [Hpp Hcc].
  unfold change. rewrite Hw, E, (resolve_at rooted cwd (w_fs w) follow p c i); [|done..|]. 2:{
    intros Hfol. unfold i_link. apply Z.eqb_neq. rewrite Ht. by apply Hl. }
  rsimpl. rewrite Hi. eexists. split; [done|]. eapply insert_inside; [done|by eapply target_below|done|apply Hf].
Qed.

Lemma t_change follow comps ty f : Forall plain_name comps → (follow = true → ty ≠ S_IFLNK) →
  (∀ i, fmt (i_mode (f i)) = fmt (i_mode i)) →
  triple (at_target comps ty) (sys (change follow (text (dc ++ comps)) f)) (λ _, at_target comps ty).
Proof.
  intros Hp Hl Hf w Hw He Hg Ht. apply xp_sys. intros w1 Hs Hf1. split; [intros; rewrite Hf1; by split_and!|].
  destruct (change_spec follow comps ty f w1 Hp Hl Hf) as (fs' & -> & Hin); [by rewrite (proj1 Hs)|by rewrite Hf1..|].
  rewrite Hf1 in Hin. split_and!; [done|done|]. intros _ _. by eapply at_target_stable.
Qed.

Lemma t_write comps data : Forall plain_name comps →
  triple (at_target comps S_IFREG) (sys_write (text (dc ++ comps)) data) (λ _, at_target comps S_IFREG).
Proof.
  intros Hp w Hw He Hg Ht. unfold wp, sys_write. destruct (pop_spec w) as (o & w1 & -> & Hs & Hf & _).
  assert (∀ d, ∃ fs', change false (text (dc ++ comps)) (append_data d (w_now w1)) w1 = Ok (tt, fs') ∧ inside (w_fs w) fs') as Hch.
  { intros d. destruct (change_spec false comps S_IFREG (append_data d (w_now w1)) w1 Hp) as (fs' & Hc & Hin);
      [done|done|by rewrite (proj1 Hs)|by rewrite Hf..|]. exists fs'. by rewrite <- Hf. }
  destruct o as [|e n].
  - destruct (Hch data) as (fs' & -> & Hin). cbn. split_and!; [done|done|]. intros _ _. by eapply at_target_stable.
  - destruct (Hch (take n data)) as (fs' & -> & Hin). cbn. by split_and!.
Qed.

(** ** Metadata *)
Lemma chowned_fmt uid gid i : fmt (i_mode (chowned uid gid i)) = fmt (i_mode i).
Proof.
  unfold chowned, fmt. cbn [i_mode]. destruct (i_dir i); [done|]. apply Z.bits_inj'. intros n Hn.
  rewrite !Z.land_spec, Z.ldiff_spec. pose proof (f_equal (λ z, Z.testbit z n) (eq_refl : Z.land 0xC00 S_IFMT = 0)) as E.
  cbv beta in E. rewrite Z.land_spec, Z.bits_0 in E. destruct (Z.testbit (i_mode i) n), (Z.testbit 0xC00 n), (Z.testbit S_IFMT n); done.
Qed.

Lemma chmoded_fmt mode i : fmt (i_mode (chmoded mode i)) = fmt (i_mode i).
Proof.
  unfold chmoded, fmt, perm. cbn [i_mode]. rewrite Z.land_lor_distr_l, <- !Z.land_assoc.
  change (Z.land S_IFMT S_IFMT) with S_IFMT. change (Z.land 0xFFF S_IFMT) with 0. rewrite Z.land_0_r. apply Z.lor_0_r.
Qed.

Lemma t_skip (P : FS → Prop) : triple P (mret tt) (λ _, P).
Proof. exact (t_ret tt (λ _, P)). Qed.

Lemma t_records comps ty recs : Forall plain_name comps →
  triple (at_target comps ty) (set_records (text (dc ++ comps)) recs) (λ _, at_target comps ty).
Proof.
  intros Hp. induction recs as [|[k v] recs IH]; cbn [set_records]; [apply t_skip|]. destruct (negb _); [done|]. cbv zeta.
  eapply t_bind; [eapply t_try; [by apply t_change|apply at_target_stable|done]|].
  intros [u|e]; [apply IH|]. destruct (_ || _); [apply IH|apply t_fail].
Qed.

Lemma t_euid (P : FS → Prop) : triple P euid (λ _, P).
Proof. intros w _ _ _ HP. unfold wp, euid. cbn. by split_and!. Qed.

Lemma t_meta comps ty h sym : Forall plain_name comps → (sym = false → ty ≠ S_IFLNK) →
  triple (at_target comps ty) (applyMeta (text (dc ++ comps)) h sym) (λ _, at_target comps ty).
Proof.
  intros Hp Hl. unfold applyMeta. eapply t_bind; [apply t_euid|]. intros uid. cbv beta. eapply t_bind.
  { instantiate (1 := λ _, at_target comps ty). destruct (uid =? 0); [|apply t_skip]. apply t_wrap, t_change; [done..|apply chowned_fmt]. }
  intros ?. cbv beta. eapply t_bind.
  { instantiate (1 := λ _, at_target comps ty). destruct sym; [apply t_skip|]. eapply t_bind; [|intros ?; by apply t_records].
    apply t_wrap, t_change; [done|auto|apply chmoded_fmt]. }
  intros ?. cbv beta. unfold setMtime. apply t_wrap, t_change; [done| |done]. destruct sym; [done|auto].
Qed.

(** ** Members *)
Definition dirs_ok (dirs : list Header) (fs : FS) : Prop :=
  Forall (λ h, ∀ t, safeJoin (text dc) (h_Name h) = Ok t →
    ∃ comps, Forall plain_name comps ∧ t = text (dc ++ comps) ∧ at_target comps S_IFDIR fs) dirs.

Lemma dirs_ok_stable dirs : stable (dirs_ok dirs).
Proof.
  intros fs fs' Hin Hd. eapply Forall_impl; [exact Hd|]. intros h Hh t Ht. destruct (Hh t Ht) as (comps & ? & ? & ?).
  exists comps. split_and!; [done..|]. by eapply at_target_stable.
Qed.

(** The destination and what leads to it exist. *)
Lemma prefix_exists fs q r : good_fs fs → q ≠ [] → D = q ++ r → ∃ j, fs !! q = Some j ∧ i_dir j = true.
Proof.
  intros [Hc Hd] Hq E. assert (∃ j, fs !! D = Some j ∧ i_dir j = true) as (j & Hj & Hdir).
  { destruct (exists_last Hne) as (p & c & Edc). rewrite Edc. by apply (Hd p c []). }
  destruct r as [|c r]; [rewrite app_nil_r in E; subst q; eauto|]. rewrite E in Hj. by eapply closed_parent.
Qed.

Lemma made_inside p fs fs' : good_fs fs → dc `prefix_of` p → made rooted cwd p fs fs' → inside fs fs'.
Proof.
  intros Hg [r ->] [Hgr Hcl _ Hf]. split_and!; [done| |].
  - intros q Hq. destruct (decide (fs' !! q = fs !! q)) as [|Hn]; [done|]. exfalso. destruct (Hf q Hn) as (s & Es & Hor).
    rewrite app_assoc in Es. destruct (app_eq_inv _ _ _ _ Es) as [(x & E1 & E2)|(x & E1 & E2)]; [|apply Hq; by exists x].
    destruct x as [|c x]; [rewrite app_nil_r in E1; subst q; apply Hq; by exists []|].
    destruct Hor as [[Hq0 Hnone]|(c' & r' & -> & Hnone)].
    + destruct (prefix_exists fs q (c :: x) Hg Hq0 E1) as (j & Hj & _). congruence.
    + injection E2 as <- _. destruct (prefix_exists fs (q ++ [c']) x Hg) as (j & Hj & _); [by destruct q|by rewrite <- app_assoc|congruence].
  - intros Hc. apply Hcl; [done|]. intros Hb. by eapply (prefix_exists fs base dc).
Qed.

Lemma t_mkdir comps fuel mode : Forall plain_name comps →
  triple (λ fs, clear fs (dc ++ comps)) (MkdirAll fuel (text (dc ++ comps)) mode) (λ _ fs, dirs_to fs (dc ++ comps)).
Proof.
  intros Hp w Hw He Hg Hcl. eapply xp_mono; [apply (MkdirAll_spec rooted cwd fuel (dc ++ comps) false mode w)|];
    [by apply Forall_app|by destruct dc|done|done|]. intros r w' (Hs & Hm & Hd). split_and!; [done| |done].
  eapply made_inside; [done|by exists comps|done].
Qed.

Lemma t_regular comps content rerr : Forall plain_name comps →
  triple (λ fs, clear fs (dc ++ comps)) (writeRegular (text (dc ++ comps)) content rerr) (λ _, at_target comps S_IFREG).
Proof.
  intros Hp. unfold writeRegular. eapply t_bind; [apply t_create; [done|]; intros w; by apply masked_fmt|]. intros ?. cbv beta.
  assert (∀ P : FS → Prop, triple P sys_close (λ _, P)) as Hclose.
  { intros P w Hw He Hg HP. apply xp_sys. intros w1 Hs Hf. split; [intros; rewrite Hf; by split_and!|]. cbn. rewrite Hf. by split_and!. }
  eapply t_bind.
  - eapply t_try; [|apply at_target_stable|done]. eapply t_bind; [by apply t_write|]. intros ?. cbv beta.
    instantiate (1 := λ _, at_target comps S_IFREG). destruct rerr; [apply t_fail|apply t_skip].
  - intros [u|e]; cbv beta iota; [apply Hclose|]. eapply t_bind; [|intros ?; apply t_fail].
    eapply t_try; [apply Hclose|apply at_target_stable|done].
Qed.

(** Metadata of a target that was just made. *)
Lemma t_made_meta {A : Type} (comps : list bytes) (P : FS → Prop) (make : X A) (ty : Z) (h : Header) (sym : bool) (dirs : list Header) : Forall plain_name comps → (sym = false → ty ≠ S_IFLNK) →
  triple P make (λ _, at_target comps ty) →
  triple (λ fs, P fs ∧ dirs_ok dirs fs) (_ ← make; _ ← applyMeta (text (dc ++ comps)) h sym; mret dirs) dirs_ok.
Proof.
  intros Hp Hl Hm. eapply t_bind; [apply t_frame; [exact Hm|apply dirs_ok_stable]|]. intros ?. cbv beta.
  eapply t_bind; [apply t_frame; [by apply t_meta|apply dirs_ok_stable]|]. intros ?. cbv beta.
  eapply t_pre; [|apply t_ret]. by intros fs _ [_ ?].
Qed.

Context `{UnixDev}.

Lemma t_mknod comps m dev h dirs : Forall plain_name comps → fmt m ≠ S_IFLNK →
  triple (λ fs, clear fs (dc ++ comps) ∧ dirs_ok dirs fs)
    (r ← tryX (sys_mknod (text (dc ++ comps)) m dev);
     match r with
     | inr e => if isPrivilegeError e then mret dirs else failX (Errorf "%s: mknod" e)
     | inl _ => _ ← applyMeta (text (dc ++ comps)) h false; mret dirs
     end) dirs_ok.
Proof.
  intros Hp Hl. eapply t_bind.
  - eapply (t_try _ _ (λ _ fs, at_target comps (fmt m) fs ∧ dirs_ok dirs fs) (dirs_ok dirs)); [|apply dirs_ok_stable|by intros fs [_ ?]].
    apply t_frame; [|apply dirs_ok_stable]. apply (t_create_if comps (λ w, w_euid w =? 0)); [done|]. intros w. apply masked_fmt.
    unfold fmt. by rewrite <- Z.land_assoc.
  - intros [u|e]; cbv beta iota; [|destruct (isPrivilegeError e); [apply t_ret|apply t_fail]].
    eapply t_bind; [apply t_frame; [by apply t_meta|apply dirs_ok_stable]|]. intros ?. cbv beta.
    eapply t_pre; [|apply t_ret]. by intros fs _ [_ ?].
Qed.

Lemma dev_fmt mode chr :
  fmt (Z.lor (u32 (Z.land mode 0xFFF)) (if chr : bool then S_IFCHR else S_IFBLK)) = if chr then S_IFCHR else S_IFBLK.
Proof.
  unfold fmt. rewrite Z.lor_comm. apply type_mode; [|by destruct chr].
  assert (0 <= Z.land mode 0xFFF < 0x1000) as Hr. { change 0xFFF with (Z.ones 12). rewrite Z.land_ones by lia. by apply Z.mod_pos_bound. }
  rewrite u32_small by (unfold is_u32; lia). done.
Qed.

Lemma t_entry comps h content rerr dirs : Forall plain_name comps → safeJoin (text dc) (h_Name h) = Ok (text (dc ++ comps)) →
  triple (λ fs, clear fs (dc ++ comps) ∧ dirs_ok dirs fs) (extract_entry (text (dc ++ comps)) h content rerr dirs) dirs_ok.
Proof.
  intros Hp Hj. unfold extract_entry.
  assert (∀ ty, Z.land ty S_IFMT = ty → ∀ w m, fmt (masked ty m w) = ty) as Hmask by (intros; by apply masked_fmt).
  destruct (h_Typeflag h).
  - apply (t_made_meta comps _ _ S_IFREG); [done..|by apply t_regular].
  - eapply t_bind; [apply t_frame; [by apply t_mkdir|apply dirs_ok_stable]|]. intros ?. cbv beta. eapply t_pre; [|apply t_ret].
    intros fs _ [Hd Hok]. apply Forall_app. split; [done|]. apply Forall_singleton. intros t Ht. exists comps.
    split_and!; [done|congruence|by apply at_target_dir].
  - apply (t_made_meta comps _ _ S_IFLNK); [done..|]. by apply (t_create comps (λ _, Z.lor S_IFLNK 0x1FF)).
  - apply (t_made_meta comps _ _ S_IFIFO); [done..|]. apply t_wrap. apply t_create; [done|]. by intros w; apply Hmask.
  - apply t_mknod; [done|]. by rewrite (dev_fmt _ true).
  - apply t_mknod; [done|]. by rewrite (dev_fmt _ false).
  - apply t_fail.
Qed.

Lemma t_member m rerr dirs : triple (dirs_ok dirs) (extract_member (text dc) m rerr dirs) dirs_ok.
Proof.
  destruct m as [h content]. unfold extract_member.
  destruct (safeJoin (text dc) (h_Name h)) as [t|e| |] eqn:Ej.
  - destruct (safeJoin_text rooted dc _ _ Hdc Ej) as (comps & Hp & ->).
    change (triple (dirs_ok dirs) (_ ← rejectSymlinkComponents (text dc) (text (dc ++ comps));
      extract_entry (text (dc ++ comps)) h content rerr dirs) dirs_ok).
    eapply t_bind; [|intros ?; by apply t_entry]. eapply t_pre; [|apply t_frame; [by apply t_reject|apply (dirs_ok_stable dirs)]].
    by intros fs _ ?.
  - exact (t_fail e (dirs_ok dirs) dirs_ok).
  - intros w _ _ _ _. by split_and!.
  - intros w _ _ _ _. by split_and!.
Qed.

Lemma t_members ms ends : ∀ dirs, triple (dirs_ok dirs) (extract_members (text dc) ms ends dirs) dirs_ok.
Proof.
  induction ms as [|[m rerr] ms IH]; intros dirs; cbn [extract_members]; [destruct ends; [apply t_fail|apply t_ret]|].
  eapply t_bind; [apply t_member|apply IH].
Qed.

Lemma t_dirs dirs : triple (dirs_ok dirs) (apply_dirs (text dc) dirs) (λ _ _, True).
Proof.
  induction dirs as [|h dirs IH]; cbn [apply_dirs]; [eapply t_post; [apply t_skip|done]|].
  destruct (safeJoin (text dc) (h_Name h)) as [t|e| |] eqn:Ej;
    [|exact (t_fail e _ _)|intros w _ _ _ _; by split_and!|intros w _ _ _ _; by split_and!].
  intros w Hw He Hg Hd. pose proof Hd as [Hh Hrest]%Forall_cons. destruct (Hh t Ej) as (comps & Hp & -> & Hat).
  assert (triple (λ fs, at_target comps S_IFDIR fs ∧ dirs_ok dirs fs)
    (_ ← applyMeta (text (dc ++ comps)) h false; apply_dirs (text dc) dirs) (λ _ _, True)) as Ht; [|by apply Ht].
  eapply t_bind; [apply t_frame; [by apply t_meta|apply dirs_ok_stable]|]. intros ?. cbv beta.
  eapply t_pre; [|exact IH]. by intros fs _ [_ ?].
Qed.

(** ** The whole extraction *)
Lemma Extract_confined ms ends w :
  w_cwd w = cwd → ev_ok w → fs_closed (w_fs w) → (base ≠ [] → ∃ j, w_fs w !! base = Some j ∧ i_dir j = true) →
  clear (w_fs w) dc →
  ∀ q, ¬ D `prefix_of` q → ¬ q `prefix_of` D → w_fs (Extract (text dc) ms ends w).2 !! q = w_fs w !! q.
Proof.
  intros Hw He Hc Hb Hcl q Hq1 Hq2.
  assert (wp (Extract (text dc) ms ends) w (λ _ w', w_fs w' !! q = w_fs w !! q)) as Hwp; [|exact Hwp].
  unfold Extract. apply xp_bind. eapply xp_mono; [apply (MkdirAll_spec rooted cwd _ dc false _ w); done|].
  intros r w1 (Hs & [Hg1 Hc1 _ Hf] & Hd). assert (w_fs w1 !! q = w_fs w !! q) as E1.
  { destruct (decide (w_fs w1 !! q = w_fs w !! q)) as [|Hn]; [done|]. destruct (Hf q Hn) as (s & Es & _). destruct Hq2. by exists s. }
  destruct r as [u|e| |]; [|done..].
  assert (triple (dirs_ok []) (dirs ← extract_members (text dc) ms ends []; apply_dirs (text dc) dirs) (λ _ _, True)) as Ht
    by (eapply t_bind; [apply t_members|apply t_dirs]).
  eapply xp_mono; [apply Ht; [by rewrite (proj1 Hs)|by eapply ev_same|split; [by apply Hc1|by eapply Hd]|constructor]|].
  intros r w2 (_ & (_ & Hin & _) & _). by rewrite Hin.
Qed.
End confined.
