(* ===== verification/TarRestore.v ===== *)
(** * Extraction without failures

    The paths of a tree in the order of its archive, and what the calls of an extraction
    do when none of them fails: each adds one inode or changes one. *)

From Stdlib Require Import Init.Byte.
From S2P Require Import Prelude Machine Chunkers FsRead Path Posix Ingest IngestFacts PosixFacts Tar TarFacts PathFacts TarSafety.
From Stdlib Require Import ZifyBool ZifyNat.
Local Open Scope Z_scope.

(** ** The paths of a tree *)

(** The nodes of a tree with their paths, parents first, without sockets. *)
Fixpoint flat (pre : list bytes) (name : bytes) (n : node) : list (list bytes * node) :=
  match n with
  | NSock _ => []
  | NDir _ ch => (pre ++ [name], n) :: foldr (λ p l, flat (pre ++ [name]) p.1 p.2 ++ l) [] ch
  | _ => [(pre ++ [name], n)]
  end.

Definition flats (pre : list bytes) (ch : list (bytes * node)) : list (list bytes * node) :=
  foldr (λ p l, flat pre p.1 p.2 ++ l) [] ch.

Definition is_sock (n : node) : bool := match n with NSock _ => true | _ => false end.
Definition node_children (n : node) : list (bytes * node) := match n with NDir _ ch => ch | _ => [] end.

Lemma flat_unfold pre name n :
  flat pre name n = if is_sock n then [] else (pre ++ [name], n) :: flats (pre ++ [name]) (node_children n).
Proof. by destruct n. Qed.

Lemma members_flat `{UnixDev} pre name n :
  node_members pre name n = (λ p, (node_header (join_slash p.1) p.2, node_content p.2)) <$> flat pre name n.
Proof.
  revert pre name. induction n as [m c|m t|m chr r|m|m|m ch IH] using node_rect'; intros pre name; try done.
  cbn [node_members flat]. rewrite fmap_cons. cbn [fst snd]. f_equal.
  induction IH as [|[c n] ch Hn _ IHf]; [done|]. cbn [foldr fst snd]. by rewrite fmap_app, <- Hn, IHf.
Qed.

Lemma tree_members_flat `{UnixDev} pre ch :
  tree_members pre ch = (λ p, (node_header (join_slash p.1) p.2, node_content p.2)) <$> flats pre ch.
Proof.
  induction ch as [|[c n] ch IH]; [done|]. cbn [tree_members flats foldr fst snd]. rewrite fmap_app, <- members_flat.
  f_equal. apply IH.
Qed.

Lemma flats_elem pre ch x : x ∈ flats pre ch ↔ ∃ c n, (c, n) ∈ ch ∧ x ∈ flat pre c n.
Proof.
  induction ch as [|[c n] ch IH]; cbn [flats foldr fst snd].
  - split; [by intros ?%elem_of_nil|]. by intros (? & ? & ?%elem_of_nil & _).
  - rewrite elem_of_app. fold (flats pre ch). rewrite IH. split.
    + intros [?|(c' & n' & ? & ?)]; [exists c, n; split; [left|done]|exists c', n'; split; [by right|done]].
    + intros (c' & n' & [[= -> ->]|?]%elem_of_cons & ?); [by left|right; eauto].
Qed.

(** Every path of a subtree starts with the path of its root. *)
Lemma flat_prefix pre name n x : x ∈ flat pre name n → ∃ r, x.1 = pre ++ name :: r.
Proof.
  revert pre name. induction n as [m c|m t|m chr r|m|m|m ch IH] using node_rect'; intros pre name; rewrite flat_unfold;
    cbn [is_sock node_children flats foldr]; try (intros ->%list_elem_of_singleton; by exists []).
  - by intros ?%elem_of_nil.
  - intros [->|Hx]%elem_of_cons; [by exists []|]. apply flats_elem in Hx as (c & n & Hin & Hx).
    rewrite Forall_forall in IH. destruct (IH _ Hin _ _ Hx) as [r ->]. exists (c :: r). by rewrite <- app_assoc.
Qed.

Lemma flats_prefix pre ch x : x ∈ flats pre ch → ∃ c n r, (c, n) ∈ ch ∧ x.1 = pre ++ c :: r.
Proof. intros (c & n & Hin & Hx)%flats_elem. destruct (flat_prefix _ _ _ _ Hx) as [r Hr]. by exists c, n, r. Qed.

Lemma fst_unique {A B} (l : list (A * B)) a x y : NoDup l.*1 → (a, x) ∈ l → (a, y) ∈ l → x = y.
Proof.
  induction l as [|[b z] l IH]; [by intros _ ?%elem_of_nil|]. rewrite fmap_cons. intros [Hn Hnd]%NoDup_cons.
  assert (∀ v, (b, v) ∈ l → False) as Hb by (intros v Hv; apply Hn; apply list_elem_of_fmap; by exists (b, v)).
  intros [[= -> ->]|Hx]%elem_of_cons [[= ]|Hy]%elem_of_cons; subst; auto; exfalso; eauto.
Qed.

Lemma fst_elem {A B} (l : list (A * B)) a b : (a, b) ∈ l → a ∈ l.*1.
Proof. intros Hin. apply list_elem_of_fmap. by exists (a, b). Qed.

(** The paths below a child are those of the child. *)
Lemma flats_child pre ch c n q : NoDup ch.*1 → (c, n) ∈ ch →
  (pre ++ c :: q) ∈ (flats pre ch).*1 ↔ (pre ++ c :: q) ∈ (flat pre c n).*1.
Proof.
  intros Hnd Hin. rewrite !list_elem_of_fmap. split.
  - intros (x & Ex & (c' & n' & Hin' & Hx)%flats_elem). destruct (flat_prefix _ _ _ _ Hx) as [r Er].
    rewrite <- Ex in Er. apply app_inv_head in Er. injection Er as <- <-.
    assert (n' = n) as -> by (by eapply fst_unique). by exists x.
  - intros (x & Ex & Hx). exists x. split; [done|]. apply flats_elem. by exists c, n.
Qed.

(** Every directory has its names once. *)
Fixpoint unique (n : node) : Prop :=
  match n with NDir _ ch => NoDup ch.*1 ∧ foldr (λ p P, unique p.2 ∧ P) True ch | _ => True end.

Lemma sorted_nodup l : StronglySorted bytes_lt l → NoDup l.
Proof.
  induction 1 as [|a l _ IH Ha]; [constructor|]. constructor; [|done]. intros Hin. rewrite Forall_forall in Ha.
  exact (bytes_lt_irrefl a (Ha a Hin)).
Qed.

Lemma wf_unique n : node_wf n → unique n.
Proof.
  induction n as [| | | | |m ch IH] using node_rect'; try done. intros (_ & Hs & Hwf). split; [by apply sorted_nodup|]. clear Hs.
  induction IH as [|p ch Hp _ IHf]; [done|]. destruct Hwf as [Hw Hwf]. split; [by apply Hp|by apply IHf].
Qed.

Lemma flats_nodup pre ch : NoDup ch.*1 → Forall (λ p, NoDup (flat pre p.1 p.2).*1) ch → NoDup (flats pre ch).*1.
Proof.
  intros Hnd Hall. induction Hall as [|[c n] ch Hn _ IH]; [constructor|]. rewrite fmap_cons in Hnd. apply NoDup_cons in Hnd as [Hc Hnd].
  cbn [flats foldr fst snd] in *. rewrite fmap_app. apply NoDup_app. split_and!; [done| |by apply IH].
  intros q (x & -> & Hx)%list_elem_of_fmap (y & E & Hy)%list_elem_of_fmap.
  destruct (flat_prefix _ _ _ _ Hx) as [r Ex]. destruct (flats_prefix _ _ _ Hy) as (c' & n' & r' & Hin & Ey).
  rewrite Ex, Ey in E. apply app_inv_head in E. injection E as -> ->. apply Hc. by eapply fst_elem.
Qed.

Lemma flat_nodup n : unique n → ∀ pre name, NoDup (flat pre name n).*1.
Proof.
  induction n as [| | | | |m ch IH] using node_rect'; intros Hu pre name; rewrite flat_unfold; cbn [is_sock node_children flats foldr];
    try (apply NoDup_singleton || constructor). 
  - intros (x & E & Hx)%list_elem_of_fmap. cbn in E. destruct (flats_prefix _ _ _ Hx) as (c & n & r & _ & Er). rewrite <- E in Er.
    apply (f_equal length) in Er. rewrite !length_app in Er. cbn in Er. lia.
  - destruct Hu as [Hnd Hu]. apply flats_nodup; [done|]. clear Hnd. induction IH as [|p ch Hp _ IHf]; [constructor|].
    destruct Hu as [Hw Hu]. constructor; [by apply Hp|by apply IHf].
Qed.

(** A directory comes before what is in it. *)
Definition parent_in (l : list (list bytes * node)) (pre p : list bytes) : Prop :=
  ∃ q c, p = q ++ [c] ∧ (q = pre ∨ ∃ m ch, (q, NDir m ch) ∈ l).

Lemma parent_mono l l' pre p : l ⊆ l' → parent_in l pre p → parent_in l' pre p.
Proof. intros Hl (q & c & -> & Hq). exists q, c. split; [done|]. destruct Hq as [?|(m & ch & ?)]; [by left|right; exists m, ch; auto]. Qed.

Definition parents_first (pre : list bytes) (L : list (list bytes * node)) : Prop :=
  ∀ l x r, L = l ++ x :: r → parent_in l pre x.1.

Lemma parents_app pre L L' : parents_first pre L → parents_first pre L' → parents_first pre (L ++ L').
Proof.
  intros H1 H2 l x r E. apply app_eq_inv in E as [(s & -> & E)|(s & -> & E)].
  - destruct s as [|y s]; cbn in E; [|injection E as -> ->; by eapply H1].
    rewrite app_nil_r in *. eapply parent_mono; [|by apply (H2 [] x r)]. set_solver.
  - eapply parent_mono; [|by apply (H2 s x r)]. set_solver.
Qed.

Lemma flat_parents n : ∀ pre name, parents_first pre (flat pre name n).
Proof.
  induction n as [m c|m t|m chr r|m|m|m ch IH] using node_rect'; intros pre name; rewrite flat_unfold;
    cbn [is_sock node_children flats foldr]; intros l x r' E; destruct l as [|y l];
    cbn in E; try done; try (by destruct l); try (by injection E as <- _; exists pre, name; auto).
  injection E as <- E.
  assert (parents_first (pre ++ [name]) (flats (pre ++ [name]) ch)) as Hf.
  { clear E. induction IH as [|[c n] ch Hn _ IHf]; [by intros [] ? ?|]. apply parents_app; [apply Hn|apply IHf]. }
  destruct (Hf l x r' E) as (q & c & -> & Hq). exists q, c. split; [done|]. right. destruct Hq as [->|(m' & ch' & Hin)].
  - exists m, ch. by left.
  - exists m', ch'. by right.
Qed.

Lemma flats_parents pre ch : parents_first pre (flats pre ch).
Proof. induction ch as [|[c n] ch IH]; [by intros [] ? ?|]. apply parents_app; [apply flat_parents|apply IH]. Qed.

(** ** Calls that do not fail *)
Section run.
Context (rooted : bool) (cwd : list bytes).
Abbreviation base := (base rooted cwd).
Abbreviation clear := (clear rooted cwd).
Abbreviation dirs_to := (dirs_to rooted cwd).
Abbreviation text := (path_text rooted).

Lemma sys_run {A : Type} (f : proc → result (A * FS)) (w : proc) : w_events w = [] →
  sys f w = match f w with
            | Ok (a, fs) => (Ok a, set_fs fs w) | Err e => (Err e, w) | Panic => (Panic, w) | Diverge => (Diverge, w) end.
Proof. intros He. unfold sys, pop_event. by rewrite He. Qed.

(** One inode changes. *)
Definition put (P : list bytes) (i : inode) (w : proc) : proc := set_fs (<[P := i]> (w_fs w)) w.

Lemma put_put P i j w : put P j (put P i w) = put P j w.
Proof. unfold put, set_fs. cbn. by rewrite insert_insert_eq. Qed.

(** The inode [i] is at [p], and real directories lead to it. *)
Definition at_inode (p : list bytes) (c : bytes) (i : inode) (w : proc) : Prop :=
  w_events w = [] ∧ w_cwd w = cwd ∧ dirs_to (w_fs w) p ∧ w_fs w !! (base ++ p ++ [c]) = Some i.

Lemma at_inode_put p c i j w : at_inode p c i w → at_inode p c j (put (base ++ p ++ [c]) j w).
Proof.
  intros (He & Hw & Hd & Hi). split_and!; [done|done| |cbn; by rewrite lookup_insert_eq].
  intros q d r ->. destruct (Hd q d r eq_refl) as (k & Hk & Hdir). exists k. split; [|done]. cbn. rewrite lookup_insert_ne; [done|].
  rewrite <- !app_assoc. intros E%app_inv_head. apply (f_equal length) in E. rewrite !length_app in E. cbn in E. lia.
Qed.

Lemma change_run follow p c i f w : Forall plain_name p → plain_name c → at_inode p c i w → (follow = true → i_link i = false) →
  sys (change follow (text (p ++ [c])) f) w = (Ok tt, put (base ++ p ++ [c]) (f i) w).
Proof.
  intros Hp Hc (He & Hw & Hd & Hi) Hl. rewrite sys_run by done. unfold change. rewrite Hw, (resolve_at rooted cwd _ follow p c i) by done.
  rsimpl. by rewrite Hi.
Qed.

(** The inode after the records were set. *)
Definition with_record (i : inode) (kv : bytes * bytes) : inode :=
  if HasPrefix kv.1 xattrPrefix then with_xattr (TrimPrefix kv.1 xattrPrefix) kv.2 i else i.

Lemma records_run p c recs : Forall plain_name p → plain_name c → ∀ i w, at_inode p c i w →
  set_records (text (p ++ [c])) recs w = (Ok tt, put (base ++ p ++ [c]) (foldl with_record i recs) w).
Proof.
  intros Hp Hc. induction recs as [|[k v] recs IH]; intros i w Hat; cbn [set_records foldl].
  { unfold put. destruct Hat as (_ & _ & _ & Hi). rewrite insert_id by done. by destruct w. }
  unfold with_record at 2. cbn [fst snd]. destruct (HasPrefix k xattrPrefix); cbn [negb]; [|by apply IH].
  unfold mbind, X_bind, tryX. unfold sys_lsetxattr. rewrite (change_run false p c i) by done.
  rewrite (IH (with_xattr (TrimPrefix k xattrPrefix) v i)) by (by eapply at_inode_put). by rewrite put_put.
Qed.

(** The inode with the metadata of a header, set by root. *)
Definition meta_inode (h : Header) (sym : bool) (i : inode) : inode :=
  let i := chowned (h_Uid h) (h_Gid h) i in
  let i := if sym then i else foldl with_record (chmoded (Z.land (h_Mode h) 0xFFF) i) (map_to_list (h_PAX h)) in
  with_mtime (h_ModTime h) i.

Lemma records_fmt recs : ∀ i, fmt (i_mode (foldl with_record i recs)) = fmt (i_mode i).
Proof. induction recs as [|kv recs IH]; intros i; cbn [foldl]; [done|]. rewrite IH. unfold with_record. by destruct (HasPrefix _ _). Qed.

Lemma link_fmt i j : fmt (i_mode i) = fmt (i_mode j) → i_link i = i_link j.
Proof. unfold i_link. by intros ->. Qed.

Lemma meta_run p c h sym i w : Forall plain_name p → plain_name c → at_inode p c i w → w_euid w = 0 → (sym = false → i_link i = false) →
  applyMeta (text (p ++ [c])) h sym w = (Ok tt, put (base ++ p ++ [c]) (meta_inode h sym i) w).
Proof.
  intros Hp Hc Hat Hu Hl. unfold applyMeta, mbind, X_bind, euid. rewrite Hu. cbn [Z.eqb]. unfold wrapX at 1, sys_lchown.
  rewrite (change_run false p c i) by done. cbn [wrap]. cbv beta iota. set (i1 := chowned (h_Uid h) (h_Gid h) i).
  pose proof (at_inode_put p c i i1 w Hat) as Hat1. assert (i_link i1 = i_link i) as El by apply link_fmt, chowned_fmt.
  unfold meta_inode, setMtime. fold i1. destruct sym.
  - cbn [mret X_ret]. unfold wrapX, sys_utimens. rewrite (change_run _ p c i1) by done. cbn. by rewrite put_put.
  - unfold wrapX at 1, sys_chmod. rewrite (change_run true p c i1); [|done..|by rewrite El; auto]. cbn [wrap]. cbv beta iota. rewrite put_put.
    set (i2 := chmoded _ i1). pose proof (at_inode_put p c i i2 w Hat) as Hat2. assert (i_link i2 = i_link i1) as El2 by apply link_fmt, chmoded_fmt.
    rewrite (records_run p c _ Hp Hc i2) by done. rewrite put_put. set (i3 := foldl _ i2 _).
    pose proof (at_inode_put p c i i3 w Hat) as Hat3. assert (i_link i3 = i_link i2) as El3 by apply link_fmt, records_fmt.
    unfold wrapX, sys_utimens. rewrite (change_run _ p c i3); [|done..|]. 2:{ intros _. rewrite El3, El2, El. auto. }
    cbn. by rewrite put_put.
Qed.

(** *** A new inode *)
Lemma put_added P c i j now fs w :
  put (P ++ [c]) j (set_fs (added (P ++ [c]) i now fs) w) = set_fs (added (P ++ [c]) j now fs) w.
Proof.
  unfold put, set_fs. cbn. f_equal. apply map_eq. intros q. destruct (decide (q = P ++ [c])) as [->|Hq].
  - by rewrite lookup_insert_eq, added_lookup.
  - rewrite lookup_insert_ne by done. unfold added. rewrite !touch_lookup, removelast_snoc. by rewrite !lookup_insert_ne.
Qed.

Definition ready (p : list bytes) (c : bytes) (w : proc) : Prop :=
  w_events w = [] ∧ w_cwd w = cwd ∧ dirs_to (w_fs w) p ∧ w_fs w !! (base ++ p ++ [c]) = None.

Definition adding (p : list bytes) (c : bytes) (i : inode) (w : proc) : proc :=
  set_fs (added (base ++ p ++ [c]) i (w_now w) (w_fs w)) w.

Lemma put_adding p c i j w : put (base ++ p ++ [c]) j (adding p c i w) = adding p c j w.
Proof. unfold adding. rewrite app_assoc. apply put_added. Qed.

Lemma ready_clear p c w : ready p c w → clear (w_fs w) (p ++ [c]).
Proof. intros (_ & _ & Hd & Hn). apply clear_snoc; [by apply dirs_clear|]. intros i Hi. congruence. Qed.

Lemma ready_added p c i w : ready p c w → at_inode p c i (adding p c i w).
Proof.
  intros (He & Hw & Hd & Hn). unfold adding. rewrite app_assoc in *. split_and!; [done|done| |cbn; rewrite app_assoc; apply added_lookup].
  eapply dirs_grow; [|exact Hd]. by apply added_grows.
Qed.

Definition new_inode (mode rdev : Z) (data : bytes) (w : proc) : inode :=
  mkInode mode (w_euid w) (w_egid w) (w_now w) rdev data ∅.

Lemma create_ready tr p c mode rdev data w : Forall plain_name p → plain_name c → ready p c w →
  create (slashed tr (text (p ++ [c]))) mode rdev data w =
    Ok (tt, added (base ++ p ++ [c]) (new_inode mode rdev data w) (w_now w) (w_fs w)).
Proof.
  intros Hp Hc Hr. pose proof (ready_clear _ _ _ Hr) as Hcl. destruct Hr as (He & Hw & Hd & Hn). unfold create. rewrite Hw.
  assert (resolve (w_fs w) cwd false (slashed tr (text (p ++ [c]))) = Ok (base ++ p ++ [c])) as ->.
  { assert (Forall plain_name (p ++ [c])) by (apply Forall_app; split; [done|by apply Forall_singleton]).
    rewrite resolve_base by (done || by destruct p). rewrite <- app_assoc, walk_dirs by done. cbn [app].
    rewrite walk_missing by (done || by rewrite <- app_assoc). rewrite <- app_assoc. by destruct tr. }
  rsimpl. rewrite Hn, bool_decide_eq_false_2 by (rewrite app_assoc; by destruct (base ++ p)). done.
Qed.

Lemma create_run p c (mode : proc → Z) rdev data w : Forall plain_name p → plain_name c → ready p c w →
  sys (λ w, create (text (p ++ [c])) (mode w) rdev data w) w = (Ok tt, adding p c (new_inode (mode w) rdev data w) w).
Proof.
  intros Hp Hc Hr. rewrite sys_run by (by destruct Hr). change (text (p ++ [c])) with (slashed false (text (p ++ [c]))).
  by rewrite create_ready.
Qed.

Lemma regular_run p c content w : Forall plain_name p → plain_name c → ready p c w →
  writeRegular (text (p ++ [c])) content None w =
    (Ok tt, adding p c (append_data content (w_now w) (new_inode (masked S_IFREG 0x180 w) 0 [] w)) w).
Proof.
  intros Hp Hc Hr. unfold writeRegular, mbind, X_bind, tryX, sys_creat_excl. rewrite create_run by done.
  set (i := new_inode _ _ _ _). pose proof (ready_added p c i w Hr) as Hat. destruct Hr as (He & Hw & _).
  unfold sys_write at 1, pop_event. change (w_events (adding p c i w)) with (w_events w). rewrite He.
  unfold change. change (w_cwd (adding p c i w)) with (w_cwd w). rewrite Hw.
  rewrite (resolve_at rooted cwd _ false p c i) by (done || by destruct Hat as (_ & _ & ? & ?)). rsimpl.
  destruct Hat as (_ & _ & _ & ->). cbn [mret X_ret]. unfold sys_close. rewrite sys_run by done. cbv beta iota. cbn [w_fs set_fs].
  pose proof (put_adding p c i (append_data content (w_now w) i) w) as E. unfold put in E. by rewrite <- E.
Qed.

(** *** Checks and directories *)
Lemma stat_dir fs follow tr p c i : Forall plain_name p → plain_name c → dirs_to fs (p ++ [c]) → fs !! (base ++ p ++ [c]) = Some i →
  lookup_path fs cwd follow (slashed tr (text (p ++ [c]))) = Ok i.
Proof.
  intros Hp Hc Hd Hi. assert (Forall plain_name (p ++ [c])) by (apply Forall_app; split; [done|by apply Forall_singleton]).
  unfold lookup_path. rewrite resolve_base by (done || by destruct p). rewrite walk_dirs by done.
  destruct tr; [rewrite walk_skip|rewrite walk_nil]; rsimpl; by rewrite Hi.
Qed.

Lemma dirs_last fs p c : dirs_to fs (p ++ [c]) → ∃ i, fs !! (base ++ p ++ [c]) = Some i ∧ i_dir i = true.
Proof. intros Hd. exact (Hd p c [] eq_refl). Qed.

(** A directory that exists. *)
Lemma MkdirAll_exists fuel tr p c mode w : w_events w = [] → w_cwd w = cwd → Forall plain_name p → plain_name c →
  dirs_to (w_fs w) (p ++ [c]) → MkdirAll (S fuel) (slashed tr (text (p ++ [c]))) mode w = (Ok tt, w).
Proof.
  intros He Hw Hp Hc Hd. destruct (dirs_last _ _ _ Hd) as (i & Hi & Hdir). cbn [MkdirAll]. unfold mbind, X_bind, tryX, sys_stat.
  rewrite sys_run by done. rewrite Hw, (stat_dir _ true tr p c i) by done. rsimpl. rewrite info_dir, Hdir. by destruct w.
Qed.

Lemma stat_missing fs follow tr p c : Forall plain_name p → plain_name c → dirs_to fs p → fs !! (base ++ p ++ [c]) = None →
  lookup_path fs cwd follow (slashed tr (text (p ++ [c]))) = Err ENOENT.
Proof.
  intros Hp Hc Hd Hn. assert (Forall plain_name (p ++ [c])) by (apply Forall_app; split; [done|by apply Forall_singleton]).
  unfold lookup_path. rewrite resolve_base by (done || by destruct p). rewrite <- app_assoc, walk_dirs by done. cbn [app].
  rewrite walk_missing by (done || by rewrite <- app_assoc). rewrite <- app_assoc. destruct tr; cbn; by rewrite Hn.
Qed.
Lemma closed_dirs fs p c i : fs_closed fs → fs !! (base ++ p ++ [c]) = Some i → dirs_to fs p.
Proof.
  intros Hcl Hi q d r ->. eapply (closed_parent fs (base ++ q ++ [d]) (r ++ [c]) i Hcl); [|by rewrite app_assoc; destruct (base ++ q)|by destruct r].
  by rewrite <- !app_assoc in *.
Qed.

(** The steps of [MkdirAll] when the directory is missing. *)
Lemma MkdirAll_step fuel tr p c mode w w2 :
  w_events w = [] → w_cwd w = cwd → Forall plain_name p → plain_name c →
  lookup_path (w_fs w) cwd true (slashed tr (text (p ++ [c]))) = Err ENOENT →
  (if (0 <? length (match p with [] => if rooted then [slash] else [] | _ => text p ++ [slash] end))%nat
   then MkdirAll fuel (match p with [] => if rooted then [slash] else [] | _ => text p ++ [slash] end) mode else mret tt) w = (Ok tt, w2) →
  ready p c w2 →
  MkdirAll (S fuel) (slashed tr (text (p ++ [c]))) mode w = (Ok tt, adding p c (new_inode (masked S_IFDIR mode w2) 0 [] w2) w2).
Proof.
  intros He Hw Hp Hc Hl Hpar Hr. cbn [MkdirAll]. rewrite parent_step by done. unfold mbind, X_bind, tryX, sys_stat.
  rewrite sys_run by done. rewrite Hw, Hl. rsimpl. destruct w as [fs cw eu eg um nw evs]. cbn in He, Hw. subst evs cw.
  rewrite Hpar. unfold sys_mkdir. rewrite sys_run by (by destruct Hr). by rewrite create_ready.
Qed.

Lemma MkdirAll_Ok fuel : ∀ p tr mode w, w_events w = [] → w_cwd w = cwd → Forall plain_name p → p ≠ [] → clear (w_fs w) p →
  fs_closed (w_fs w) → (∃ j, w_fs w !! base = Some j ∧ i_dir j = true) → (length p < fuel)%nat → (rooted = true → S (length p) < fuel)%nat →
  (MkdirAll fuel (slashed tr (text p)) mode w).1 = Ok tt.
Proof.
  induction fuel as [|fuel IH]; intros p tr mode w He Hw Hp Hne Hcl Hclosed Hb Hfu Hfr; [lia|].
  destruct p as [|c p _] using rev_ind; [done|]. apply Forall_app in Hp as [Hp Hc]. rewrite Forall_singleton in Hc.
  destruct (w_fs w !! (base ++ p ++ [c])) as [i|] eqn:Hlast.
  { rewrite MkdirAll_exists; [done..|]. apply dirs_snoc; [by eapply closed_dirs|]. exists i. split; [done|]. by eapply (Hcl p c []). }
  assert (∃ w2, (if (0 <? length (match p with [] => if rooted then [slash] else [] | _ => text p ++ [slash] end))%nat
   then MkdirAll fuel (match p with [] => if rooted then [slash] else [] | _ => text p ++ [slash] end) mode else mret tt) w = (Ok tt, w2) ∧
   same w w2 ∧ made rooted cwd p (w_fs w) (w_fs w2) ∧ dirs_to (w_fs w2) p) as (w2 & Hpar & Hs & Hm & Hd).
  { pose proof (clear_prefix _ _ _ _ _ Hcl) as Hcp. destruct p as [|d p].
    - exists w. split_and!; [|done|by apply made_refl|by intros [] ? ? ?]. destruct rooted eqn:Er; [|done]. cbn [length Nat.ltb Nat.leb].
      destruct fuel as [|fuel]; [cbn in Hfr; lia|]. destruct Hb as (j & Hj & Hdj). cbn [MkdirAll]. unfold mbind, X_bind, tryX, sys_stat.
      rewrite sys_run by done. change (lookup_path (w_fs w) (w_cwd w) true [slash]) with (match w_fs w !! [] with Some i => Ok i | None => Err ENOENT end).
      change (TarSafety.base true cwd) with (@nil bytes) in Hj. rewrite Hj. rsimpl. rewrite info_dir, Hdj. by destruct w.
    - assert ((0 <? length (text (d :: p) ++ [slash]))%nat = true) as -> by (apply Nat.ltb_lt; rewrite length_app; cbn; lia).
      rewrite length_app in Hfu, Hfr. cbn in Hfu, Hfr.
      pose proof (IH (d :: p) true mode w He Hw Hp ltac:(done) Hcp Hclosed Hb ltac:(cbn; lia) ltac:(cbn; lia)) as Hok.
      pose proof (MkdirAll_spec rooted cwd fuel (d :: p) true mode w Hp ltac:(done) Hcp Hw) as Hspec. unfold wp in Hspec.
      change (text (d :: p) ++ [slash]) with (slashed true (text (d :: p))).
      destruct (MkdirAll fuel (slashed true (text (d :: p))) mode w) as [r w2]. cbn in Hok, Hspec. subst r. exists w2.
      destruct Hspec as (? & ? & Hd). split_and!; [done..|by eapply Hd]. }
  assert (lookup_path (w_fs w) cwd true (slashed tr (text (p ++ [c]))) = Err ENOENT) as Hl.
  { unfold lookup_path. destruct (resolve_clear rooted cwd (w_fs w) true tr p c Hp Hc Hcl) as [[-> _]| ->]; [|done]. rsimpl. by rewrite Hlast. }
  assert (ready p c w2) as Hr.
  { split_and!; [|by rewrite (proj1 Hs)|done|].
    - destruct Hs as (_ & _ & _ & _ & _ & Hev). rewrite He in Hev. destruct (w_events w2) as [|o l]; [done|].
      by specialize (Hev o ltac:(left)) as ?%elem_of_nil.
    - by destruct (made_step rooted cwd p c _ _ Hcl Hm) as [-> _]. }
  by rewrite (MkdirAll_step fuel tr p c mode w w2 He Hw Hp Hc Hl Hpar Hr).
Qed.
End run.

(** ** Restoring an exported tree

    Run by root on a file system where nothing fails, extracting the archive of a
    tree makes exactly that tree: every inode has the type, mode, owner, time,
    attributes and content of its node, directories included. *)

(** ** The metadata of a node *)

(** What a header can give back: identities other than 2^32-1, the mode Linux gives
    links, device numbers of 63 bits. *)
Definition meta_restorable (n : node) : Prop :=
  n_uid (node_meta n) < 2 ^ 32 - 1 ∧ n_gid (node_meta n) < 2 ^ 32 - 1 ∧
  match n with NLink m _ => n_perm m = 0x1FF | NDev _ _ r => r < 2 ^ 63 | _ => True end.

Lemma HasPrefix_app p k : HasPrefix (p ++ k) p = true.
Proof. unfold HasPrefix. apply bool_decide_eq_true_2. by rewrite take_app_length. Qed.

Lemma TrimPrefix_app p k : TrimPrefix (p ++ k) p = k.
Proof. unfold TrimPrefix. rewrite HasPrefix_app. apply drop_app_length. Qed.

Lemma HasPrefix_split k p : HasPrefix k p = true → k = p ++ TrimPrefix k p.
Proof.
  intros E. unfold TrimPrefix. rewrite E. apply bool_decide_eq_true_1 in E. rewrite <- (take_drop (length p) k) at 1. by rewrite E.
Qed.

Lemma records_xattrs recs : NoDup recs.*1 → ∀ i k,
  i_xattrs (foldl with_record i recs) !! k =
  match (list_to_map recs : gmap bytes bytes) !! (xattrPrefix ++ k) with Some v => Some v | None => i_xattrs i !! k end.
Proof.
  induction recs as [|[q v] recs IH]; intros Hnd i k; [done|]. rewrite fmap_cons in Hnd. apply NoDup_cons in Hnd as [Hq Hnd].
  cbn [foldl]. rewrite IH by done. cbn [list_to_map foldr uncurry]. destruct (decide (q = xattrPrefix ++ k)) as [->|Hne].
  - rewrite lookup_insert_eq. rewrite not_elem_of_list_to_map_1 by done. unfold with_record. cbn [fst snd].
    rewrite HasPrefix_app, TrimPrefix_app. cbn. by rewrite lookup_insert_eq.
  - rewrite lookup_insert_ne by done. destruct (_ !! (xattrPrefix ++ k)); [done|]. unfold with_record. cbn [fst snd].
    destruct (HasPrefix q xattrPrefix) eqn:E; [|done]. cbn. rewrite lookup_insert_ne; [done|].
    intros <-. by apply Hne, HasPrefix_split.
Qed.

Lemma records_keep recs : ∀ i, let j := foldl with_record i recs in
  i_mode j = i_mode i ∧ i_uid j = i_uid i ∧ i_gid j = i_gid i ∧ i_rdev j = i_rdev i ∧ i_data j = i_data i.
Proof.
  induction recs as [|kv recs IH]; intros i; [done|]. cbn [foldl]. cbv zeta in *. destruct (IH (with_record i kv)) as (-> & -> & -> & -> & ->).
  unfold with_record. by destruct (HasPrefix _ _).
Qed.

Lemma chown_id_ok new old : 0 <= new < 2 ^ 32 - 1 → chown_id new old = new.
Proof. intros Hn. unfold chown_id. rewrite u32_small by (unfold is_u32; lia). by replace (new =? 2 ^ 32 - 1) with false by lia. Qed.

Section meta.
Context `{UnixDev}.

(** Applying the header of a node to an inode of its type makes the node. *)
Lemma meta_is name n i :
  meta_wf (node_meta n) → meta_restorable n → fmt (i_mode i) = node_type n → i_xattrs i = ∅ →
  match n with
  | NFile _ c => i_data i = c
  | NLink m t => i_data i = t ∧ i_mode i = Z.lor S_IFLNK 0x1FF ∧ n_xattrs m = ∅
  | NDev _ _ r => i_rdev i = r | _ => True end →
  inode_is (meta_inode (node_header name n) (node_link n) i) n.
Proof.
  intros (Hp & Hu & Hg & Ht & Hx) (Ru & Rg & Rn) Hf Hxs Hn. unfold is_u32 in *.
  assert (Z.land (n_perm (node_meta n)) 0xFFF = n_perm (node_meta n)) as Eperm.
  { change 0xFFF with (Z.ones 12). rewrite Z.land_ones by lia. apply Z.mod_small. cbn. lia. }
  unfold meta_inode, inode_is. cbn [node_header h_Uid h_Gid h_Mode h_PAX h_ModTime]. destruct (node_link n) eqn:El.
  - destruct n as [| |m t| | |]; try done. destruct Hn as (<- & Hm & Hx0). cbn in *.
    assert (i_dir i = false) as Hd by (unfold i_dir; by rewrite Hf). unfold node_mode. cbn [node_type node_meta]. rewrite Hd, Hm, Rn, !chown_id_ok by lia.
    split_and!; try done. congruence.
  - set (j := chmoded _ _). destruct (records_keep (map_to_list (pax_records (n_xattrs (node_meta n)))) j) as (E1 & E2 & E3 & E4 & E5).
    cbn [with_mtime i_mode i_uid i_gid i_mtime i_xattrs i_data i_rdev]. rewrite E1, E2, E3, E4, E5. cbn.
    rewrite !chown_id_ok by lia. split_and!; try done.
    + unfold node_mode, perm. rewrite Eperm. f_equal; [|done]. rewrite <- Hf. exact (chowned_fmt 0 0 i).
    + apply map_eq. intros k. rewrite records_xattrs by apply NoDup_fst_map_to_list. rewrite list_to_map_to_list, pax_records_lookup.
      cbn. rewrite Hxs, lookup_empty. by destruct (_ !! k).
    + destruct n; try done; naive_solver.
Qed.
End meta.

(** ** Trees without sockets *)
Fixpoint strip (n : node) : node :=
  match n with
  | NDir m ch => NDir m (foldr (λ p l, if is_sock p.2 then l else (p.1, strip p.2) :: l) [] ch)
  | _ => n
  end.
Definition strips (ch : list (bytes * node)) : list (bytes * node) :=
  foldr (λ p l, if is_sock p.2 then l else (p.1, strip p.2) :: l) [] ch.

Fixpoint restorable (n : node) : Prop :=
  meta_restorable n ∧ match n with NDir _ ch => foldr (λ p P, restorable p.2 ∧ P) True ch | _ => True end.

(** What the extraction of a tree needs of it. *)
Fixpoint fit (n : node) : Prop :=
  (node_wf n ∧ meta_restorable n ∧ is_sock n = false) ∧
  match n with NDir _ ch => foldr (λ p P, (plain_name p.1 ∧ fit p.2) ∧ P) True ch | _ => True end.

Lemma fold_Forall {A : Type} (P : A → Prop) l : foldr (λ p Q, P p ∧ Q) True l ↔ Forall P l.
Proof. induction l as [|a l IH]; cbn; [split; [constructor|done]|]. rewrite IH, Forall_cons. done. Qed.

Lemma strips_elem ch x : x ∈ strips ch ↔ ∃ n, (x.1, n) ∈ ch ∧ is_sock n = false ∧ x.2 = strip n.
Proof.
  induction ch as [|[c n] ch IH]; cbn [strips foldr fst snd].
  - split; [by intros ?%elem_of_nil|]. by intros (? & ?%elem_of_nil & _).
  - fold (strips ch). destruct (is_sock n) eqn:E; rewrite ?elem_of_cons, IH; split.
    + intros (n' & ? & ? & ?). exists n'. rewrite elem_of_cons. auto.
    + intros (n' & [[= _ ->]|?]%elem_of_cons & ? & ?); [congruence|eauto].
    + intros [->|(n' & ? & ? & ?)]; [exists n|exists n']; rewrite elem_of_cons; auto.
    + intros (n' & [[= <- ->]|?]%elem_of_cons & ? & ?); [left|right; eauto]. destruct x. by f_equal.
Qed.

Lemma strips_sorted ch : StronglySorted bytes_lt ch.*1 → StronglySorted bytes_lt (strips ch).*1.
Proof.
  induction ch as [|[c n] ch IH]; [done|]. rewrite fmap_cons. intros Hs. apply StronglySorted_inv in Hs as [Hs Hc].
  cbn [strips foldr fst snd] in *. fold (strips ch) in *. destruct (is_sock n); [by apply IH|]. rewrite fmap_cons. constructor; [by apply IH|].
  apply Forall_forall. intros d ([d' n'] & -> & (n0 & Hin & _)%strips_elem)%list_elem_of_fmap. rewrite Forall_forall in Hc. apply Hc.
  by eapply fst_elem.
Qed.

Lemma strip_meta n : node_meta (strip n) = node_meta n ∧ is_sock (strip n) = is_sock n.
Proof. by destruct n. Qed.

Lemma strip_fit `{UnixDev} n : ∀ pre name, node_wf n → exportable pre name n → restorable n → is_sock n = false → node_wf (strip n) ∧ fit (strip n).
Proof.
  induction n as [m c|m t|m chr r|m|m|m ch IH] using node_rect'; intros pre name Hwf Hexp Hres Hs; try done;
    try (by split; [exact Hwf|split; [split; [exact Hwf|split; [by destruct Hres|exact Hs]]|exact I]]).
  destruct Hwf as (Hm & Hsort & Hwf%fold_Forall), Hexp as [_ Hexp%fold_Forall], Hres as [Hres Hrs%fold_Forall].
  rewrite Forall_forall in IH, Hwf, Hexp, Hrs. cbn [strip]. fold (strips ch).
  assert (∀ x, x ∈ strips ch → plain_name x.1 ∧ node_wf x.2 ∧ fit x.2) as Hall.
  { intros [c n'] (n & Hin & Hns & E)%strips_elem. cbn in *. subst n'. destruct (Hexp _ Hin) as [[Hc _] He]. split; [done|].
    apply (IH (c, n) Hin (pre ++ [name]) c); [exact (Hwf _ Hin)|exact He|exact (Hrs _ Hin)|done]. }
  assert (node_wf (NDir m (strips ch))) as Hw.
  { split; [done|]. split; [by apply strips_sorted|]. apply fold_Forall, Forall_forall. intros x Hx. by apply (Hall x). }
  split; [done|]. split; [done|]. apply fold_Forall, Forall_forall. intros x Hx. destruct (Hall x Hx) as (? & _ & ?). done.
Qed.

Lemma fit_parts n : fit n → node_wf n ∧ meta_restorable n ∧ is_sock n = false.
Proof. by destruct n; intros [? _]. Qed.

Lemma fit_items n : fit n → ∀ pre name, Forall plain_name pre → plain_name name →
  Forall (λ x, Forall plain_name x.1 ∧ node_wf x.2 ∧ meta_restorable x.2 ∧ is_sock x.2 = false) (flat pre name n).
Proof.
  induction n as [m c|m t|m chr r|m|m|m ch IH] using node_rect'; intros Hf pre name Hp Hn; rewrite flat_unfold;
    destruct (fit_parts _ Hf) as (Hw & Hr & Hs); try done; cbn [is_sock node_children flats foldr];
    (constructor; [cbn [fst snd]; split_and!; try done; apply Forall_app; split; [done|by apply Forall_singleton]|try constructor]).
  destruct Hf as [_ Hf%fold_Forall]. rewrite Forall_forall in Hf, IH. apply Forall_forall. intros x (c & n & Hin & Hx)%flats_elem.
  destruct (Hf _ Hin) as [Hc Hfn]. assert (Forall plain_name (pre ++ [name])) as Hpn by (apply Forall_app; split; [done|by apply Forall_singleton]).
  exact (proj1 (Forall_forall _ _) (IH _ Hin Hfn (pre ++ [name]) c Hpn Hc) x Hx).
Qed.

Lemma strip_members `{UnixDev} n : ∀ pre name, node_members pre name (strip n) = node_members pre name n.
Proof.
  induction n as [m c|m t|m chr r|m|m|m ch IH] using node_rect'; intros pre name; try done. cbn [strip node_members]. f_equal.
  induction IH as [|[c n] ch Hn _ IHf]; [done|]. cbn [foldr fst snd] in *. destruct (is_sock n) eqn:E.
  - destruct n; try done.
  - cbn [foldr fst snd]. by rewrite Hn, IHf.
Qed.

Lemma strips_members `{UnixDev} pre ch : tree_members pre (strips ch) = tree_members pre ch.
Proof.
  induction ch as [|[c n] ch IH]; [done|]. cbn [tree_members strips foldr fst snd] in *. destruct (is_sock n) eqn:E.
  - by destruct n.
  - cbn [foldr fst snd]. rewrite strip_members. f_equal. exact IH.
Qed.

(** ** One member *)
Section restore.
Context `{UnixDev} `{!UnixDevLaws}.
Context (rooted : bool) (cwd dc : list bytes) (Hdc : Forall plain_name dc) (Hne : dc ≠ []).
Abbreviation base := (base rooted cwd).
Abbreviation clear := (clear rooted cwd).
Abbreviation dirs_to := (dirs_to rooted cwd).
Abbreviation ready := (ready rooted cwd).
Abbreviation adding := (adding rooted cwd).
Abbreviation text := (path_text rooted).
Abbreviation D := (base ++ dc).

Lemma names_text tr p : Forall plain_name p → p ≠ [] →
  split_slash (slashed tr (join_slash p)) = p ++ if tr then [[]] else [].
Proof.
  intros Hp Hn. assert (split_slash (join_slash p) = p) as E.
  { destruct p as [|c p]; [done|]. by apply (split_path_text false (c :: p)). }
  unfold slashed. destruct tr; [|by rewrite app_nil_r]. change [slash] with (slash :: []). by rewrite split_slash_app, E.
Qed.

Lemma names_in_text tr p : Forall plain_name p → p ≠ [] → names_in (slashed tr (join_slash p)) = p.
Proof.
  intros Hp Hn. unfold names_in. rewrite names_text, filter_app by done.
  replace (filter _ (if tr then [[]] else [])) with (@nil bytes) by (by destruct tr). rewrite app_nil_r.
  clear -Hp. induction Hp as [|c p Hc _ IH]; [done|]. rewrite filter_cons_True by (by destruct (plain_skip c Hc)). by rewrite IH.
Qed.

Lemma safeJoin_ok tr p : Forall plain_name p → p ≠ [] → safeJoin (text dc) (slashed tr (join_slash p)) = Ok (text (dc ++ p)).
Proof.
  intros Hp Hn. pose proof (names_text tr p Hp Hn) as Hsp.
  assert (Forall (λ c, comp_dotdot c = false) (split_slash (slashed tr (join_slash p)))) as Hdd.
  { rewrite Hsp. apply Forall_app. split; [|destruct tr; repeat constructor]. eapply Forall_impl; [exact Hp|]. intros c Hc. by destruct (plain_skip c Hc). }
  unfold safeJoin. assert (existsb (λ part, bool_decide (part = dotdot)) (split_slash (slashed tr (join_slash p))) = false) as ->.
  { apply not_true_iff_false. intros (c & Hin%list_elem_of_In & Hc)%existsb_exists. rewrite Forall_forall in Hdd. specialize (Hdd c Hin). apply bool_decide_eq_true_1 in Hc. by subst c. }
  rewrite Clean_rooted by done.
  rewrite names_in_text by done.
  rewrite Join_texts by done. rewrite HasPrefix_text by (done || by apply Forall_app).
  rewrite (bool_decide_eq_false_2 (p = [])) by done. cbn [negb]. by rewrite andb_false_r.
Qed.

Lemma reject_run fuel comps w : Forall plain_name comps → (length comps < fuel)%nat → w_events w = [] → w_cwd w = cwd →
  clear (w_fs w) (dc ++ comps) → reject_loop fuel (text dc) (text (dc ++ comps)) w = (Ok tt, w).
Proof.
  revert comps. induction fuel as [|fuel IH]; intros comps Hp Hf He Hw Hcl; [lia|]. cbn [reject_loop].
  rewrite HasPrefix_text by (done || by apply Forall_app). destruct comps as [|c comps _] using rev_ind.
  { by rewrite bool_decide_eq_true_2. }
  rewrite bool_decide_eq_false_2 by (by destruct comps). cbn [negb].
  apply Forall_app in Hp as [Hp Hc]. rewrite Forall_singleton in Hc. rewrite app_assoc in *. rewrite length_app in Hf. cbn in Hf.
  unfold mbind, X_bind, tryX, sys_stat. rewrite sys_run by done. rewrite Hw, Dir_text by (done || by apply Forall_app || by destruct dc).
  pose proof (IH comps Hp ltac:(lia) He Hw ltac:(by eapply clear_prefix)) as Hgo.
  destruct (resolve_clear rooted cwd (w_fs w) false false (dc ++ comps) c) as [[Hr _]|Hr]; [by apply Forall_app|done|done| |];
    unfold slashed in Hr; unfold lookup_path; rewrite Hr; rsimpl; [|done].
  destruct (w_fs w !! _) as [i|] eqn:Hi; [|done]. rsimpl. rewrite ?info_dir, (Hcl (dc ++ comps) c [] i eq_refl Hi).
  rewrite <- Hgo. by destruct w.
Qed.

Lemma join_length p : Forall plain_name p → (length p ≤ length (join_slash p))%nat.
Proof.
  induction p as [|c [|d p] IH]; intros Hp; [done| |]; apply Forall_cons in Hp as [Hc Hp].
  - cbn. destruct Hc as [Hc _]. destruct c; [done|cbn; lia].
  - change (join_slash (c :: d :: p)) with (c ++ slash :: join_slash (d :: p)). rewrite length_app. cbn [length].
    specialize (IH Hp). cbn [length] in IH. lia.
Qed.

Lemma text_length p : Forall plain_name p → p ≠ [] → (length p + (if rooted then 1 else 0) ≤ length (text p))%nat.
Proof.
  intros Hp Hn. pose proof (join_length p Hp) as Hl. destruct p as [|c p]; [done|]. unfold path_text. rewrite length_app.
  destruct rooted; cbn [length] in *; lia.
Qed.

(** What the first pass leaves of a node. *)
Definition made_is (i : inode) (n : node) : Prop :=
  if node_dir n then i_dir i = true ∧ i_xattrs i = ∅ else inode_is i n.

Lemma header_name name n : h_Name (node_header name n) = slashed (node_dir n) name.
Proof. by destruct n. Qed.

(** Making an inode and then its metadata. *)
Lemma made_run p c name n i (make : X unit) (dirs : list Header) w :
  Forall plain_name p → plain_name c → ready p c w → w_euid w = 0 → node_wf n → meta_restorable n →
  make w = (Ok tt, adding p c i w) → fmt (i_mode i) = node_type n → i_xattrs i = ∅ → node_dir n = false →
  match n with
  | NFile _ d => i_data i = d
  | NLink m t => i_data i = t ∧ i_mode i = Z.lor S_IFLNK 0x1FF ∧ n_xattrs m = ∅
  | NDev _ _ r => i_rdev i = r | _ => True end →
  ∃ j, (_ ← make; _ ← applyMeta (text (p ++ [c])) (node_header name n) (node_link n); mret dirs) w = (Ok dirs, adding p c j w) ∧ made_is j n.
Proof.
  intros Hp Hc Hr Hu Hwf Hres Hm Hf Hx Hd Hn. exists (meta_inode (node_header name n) (node_link n) i). split.
  - unfold mbind, X_bind. rewrite Hm. rewrite (meta_run rooted cwd p c _ _ i); [by rewrite put_adding|done..|by apply ready_added|done|].
    intros El. unfold i_link. rewrite Hf. by destruct n as [| | |? []| |].
  - unfold made_is. rewrite Hd. apply meta_is; [by apply node_wf_meta|done..].
Qed.
Lemma mask_type n m w : fmt (masked (node_type n) m w) = node_type n.
Proof. apply masked_fmt. by destruct n as [| | |? []| |]. Qed.

Lemma entry_run p c name n dirs w :
  Forall plain_name p → plain_name c → p ≠ [] → ready p c w → w_euid w = 0 → node_wf n → meta_restorable n → is_sock n = false →
  ∃ i, extract_entry (text (p ++ [c])) (node_header name n) (node_content n) None dirs w =
    (Ok (dirs ++ if node_dir n then [node_header name n] else []), adding p c i w) ∧ made_is i n.
Proof.
  intros Hp Hc Hpn Hr Hu Hwf Hres Hs. unfold extract_entry. destruct n as [m d|m ch|m t|m chr r|m|m]; [| | | | |done].
  all: cbn [node_header h_Typeflag node_content node_dir node_meta h_Mode h_Linkname h_Devmajor h_Devminor]; rewrite ?app_nil_r.
  - apply (made_run p c name (NFile m d) _ _ dirs w Hp Hc Hr Hu Hwf Hres (regular_run _ _ p c d w Hp Hc Hr)); [exact (mask_type (NFile m d) _ _)|done..].
  - destruct (exists_last Hpn) as (p0 & d & Ep). pose proof Hr as (He & Hw & Hd & Hn).
    assert (∃ f, length (text (p ++ [c])) = S f) as [f ->].
    { pose proof (text_length (p ++ [c]) ltac:(apply Forall_app; split; [done|by apply Forall_singleton]) ltac:(by destruct p)) as Hl. rewrite length_app in Hl. cbn in Hl.
      destruct (length (text (p ++ [c]))); [lia|eauto]. }
    unfold mbind, X_bind. pose proof (MkdirAll_step rooted cwd (S f) false p c 0x1C0 w w He Hw Hp Hc) as Hstep.
    unfold slashed in Hstep. rewrite Hstep; [|by apply (stat_missing rooted cwd _ true false)| |done].
    + eexists. split; [done|]. split; [|done]. unfold i_dir. cbn [i_mode new_inode]. by rewrite masked_fmt.
    + destruct p as [|x p]; [done|]. assert ((0 <? length (text (x :: p) ++ [slash]))%nat = true) as -> by (apply Nat.ltb_lt; rewrite length_app; cbn; lia).
      rewrite Ep in *. apply Forall_app in Hp as [Hp0 Hd0]. rewrite Forall_singleton in Hd0.
      exact (MkdirAll_exists rooted cwd f true p0 d 0x1C0 w He Hw Hp0 Hd0 Hd).
  - apply (made_run p c name (NLink m t) _ _ dirs w Hp Hc Hr Hu Hwf Hres (create_run _ _ p c (λ _, Z.lor S_IFLNK 0x1FF) 0 t w Hp Hc Hr));
      [done..|]. split_and!; [done..|]. by destruct Hwf.
  - set (mode := Z.lor _ _). set (dev := i64 _).
    assert (fmt mode = node_type (NDev m chr r)) as Hfm by (destruct chr; [exact (dev_fmt _ true)|exact (dev_fmt _ false)]).
    assert (dev = r) as Edev.
    { unfold dev. rewrite !u32_small by (apply Major_range || apply Minor_range). pose proof Hwf as [_ Hr64]. pose proof Hres as (_ & _ & ?).
      unfold is_u64 in *. rewrite Mkdev_Major_Minor by done. apply i64_small. lia. }
    destruct (made_run p c name (NDev m chr r) (new_inode (masked (fmt mode) mode w) dev [] w) (sys_mknod (text (p ++ [c])) mode dev) dirs w)
      as (j & Hj & His); try done.
    + unfold sys_mknod. rewrite sys_run by (by destruct Hr). rewrite Hu. cbn [Z.eqb].
      change (text (p ++ [c])) with (slashed false (text (p ++ [c]))). by rewrite (create_ready rooted cwd).
    + cbn [i_mode new_inode]. rewrite Hfm. apply mask_type.
    + exists j. split; [|done]. unfold mbind, X_bind, tryX in *. rewrite <- Hj.
      destruct chr; cbn [node_link]; by destruct (sys_mknod _ _ _ w) as [[] ?].
  - eapply (made_run p c name (NFifo m) (new_inode (masked S_IFIFO _ w) 0 [] w) _ dirs w Hp Hc Hr Hu Hwf Hres); [|exact (mask_type (NFifo m) _ _)|done..].
    unfold wrapX, sys_mkfifo. by rewrite (create_run _ _ p c (λ w, masked S_IFIFO _ w)) by done.
Qed.

Lemma member_run pre c n dirs w :
  Forall plain_name pre → plain_name c → ready (dc ++ pre) c w → w_euid w = 0 → node_wf n → meta_restorable n → is_sock n = false →
  let h := node_header (join_slash (pre ++ [c])) n in
  ∃ i, extract_member (text dc) (h, node_content n) None dirs w =
    (Ok (dirs ++ if node_dir n then [h] else []), adding (dc ++ pre) c i w) ∧ made_is i n.
Proof.
  intros Hp Hc Hr Hu Hwf Hres Hs h. unfold extract_member, h.
  assert (Forall plain_name (pre ++ [c])) as Hpc by (apply Forall_app; split; [done|by apply Forall_singleton]).
  rewrite header_name, safeJoin_ok by (done || by destruct pre). unfold liftX, mbind, X_bind at 1.
  unfold rejectSymlinkComponents, X_bind. pose proof Hr as (He & Hw & _).
  rewrite reject_run; [|done| |done|done|].
  - rewrite app_assoc. apply entry_run; try done; [by apply Forall_app|by destruct dc].
  - pose proof (text_length (dc ++ pre ++ [c]) ltac:(by apply Forall_app) ltac:(by destruct dc)) as Hl. rewrite !length_app in Hl. rewrite length_app. lia.
  - rewrite app_assoc. by apply ready_clear.
Qed.
(** ** The first pass *)
Definition item_ok (x : list bytes * node) : Prop :=
  Forall plain_name x.1 ∧ node_wf x.2 ∧ meta_restorable x.2 ∧ is_sock x.2 = false.

(** The items [l] were made, and nothing else. *)
Record passed (l : list (list bytes * node)) (fs : FS) : Prop := mkPassed {
  passed_dest : dirs_to fs dc;
  passed_in x : x ∈ l → ∃ i, fs !! (D ++ x.1) = Some i ∧ made_is i x.2;
  passed_dirs p m ch : (p, NDir m ch) ∈ l → dirs_to fs (dc ++ p);
  passed_out p : p ≠ [] → is_Some (fs !! (D ++ p)) → p ∈ l.*1;
}.

Lemma passed_ready l fs pre c : passed l fs → parent_in l [] (pre ++ [c]) → (pre ++ [c]) ∉ l.*1 →
  dirs_to fs (dc ++ pre) ∧ fs !! (base ++ (dc ++ pre) ++ [c]) = None.
Proof.
  intros Hk (q & d & E & Hq) Hn. apply app_inj_tail in E as [<- <-]. split.
  - destruct Hq as [->|(m & ch & Hin)]; [rewrite app_nil_r; by apply Hk|by eapply passed_dirs].
  - destruct (fs !! _) as [i|] eqn:Ei; [|done]. destruct Hn. apply (passed_out l fs Hk); [by destruct pre|].
    rewrite <- !app_assoc in *. eauto.
Qed.

Lemma D_inj p q : D ++ p = D ++ q → p = q.
Proof. apply app_inv_head. Qed.

Lemma D_snoc p pre c : D ++ p = (D ++ pre) ++ [c] → p = pre ++ [c].
Proof. rewrite <- (app_assoc D pre). apply D_inj. Qed.

Lemma passed_step l fs pre c n i now :
  passed l fs → Forall item_ok l → parent_in l [] (pre ++ [c]) → (pre ++ [c]) ∉ l.*1 → made_is i n → meta_wf (node_meta n) →
  passed (l ++ [(pre ++ [c], n)]) (added (base ++ (dc ++ pre) ++ [c]) i now fs).
Proof.
  intros Hk Hok Hpar Hn Hi Hwf. destruct (passed_ready l fs pre c Hk Hpar Hn) as [Hd Hnone].
  replace (base ++ (dc ++ pre) ++ [c]) with ((D ++ pre) ++ [c]) in * by (by rewrite <- !app_assoc).
  set (fs' := added _ i now fs). assert (grows fs fs') as Hg by (by apply added_grows).
  assert (fs' !! ((D ++ pre) ++ [c]) = Some i) as Hnew by apply added_lookup.
  split.
  - eapply dirs_grow; [exact Hg|apply Hk].
  - intros x [Hx|Hx%list_elem_of_singleton]%elem_of_app.
    2:{ subst x. exists i. cbn [fst snd]. by rewrite app_assoc. }
    destruct (passed_in l fs Hk x Hx) as (j & Hj & Hmade).
    assert (D ++ x.1 ≠ (D ++ pre) ++ [c]) as Hne1.
    { intros E%D_snoc. apply Hn. rewrite <- E. by apply list_elem_of_fmap_2. }
    destruct (decide (D ++ x.1 = D ++ pre)) as [E|Hne2]; [|exists j; split; [|done]; unfold fs'; by rewrite added_other].
    unfold fs', added. rewrite touch_lookup, removelast_snoc, lookup_insert_ne, decide_True, Hj by done.
    eexists. split; [done|]. pose proof (D_inj _ _ E) as <-. clear E. unfold made_is in *. destruct (node_dir x.2) eqn:Edir; [done|].
    exfalso. assert (i_dir j = true) as Hdj.
    { destruct (exists_last (l := dc ++ x.1)) as (q & d & E); [by destruct dc|]. rewrite E in Hd.
      destruct (Hd q d [] eq_refl) as (k & Hk' & ?). rewrite <- E, app_assoc in Hk'. by simplify_eq. }
    rewrite Forall_forall in Hok. destruct (Hok x Hx) as (_ & Hw & _). pose proof (inode_dir j x.2 (node_wf_meta _ Hw) Hmade) as [? _]. congruence.
  - intros p m ch [Hin|[= -> <-]%list_elem_of_singleton]%elem_of_app; [eapply dirs_grow; [exact Hg|by eapply passed_dirs]|].
    rewrite app_assoc. apply dirs_snoc; [by eapply dirs_grow|]. exists i. destruct Hi as [Hdi _]. split; [|done].
    by rewrite <- !app_assoc in *.
  - intros p Hp [j Hj]. rewrite fmap_app, elem_of_app. cbn [fmap list_fmap fst].
    destruct (decide (p = pre ++ [c])) as [->|Hpc]; [right; by left|left]. apply (passed_out l fs Hk p Hp).
    unfold fs', added in Hj. rewrite touch_lookup, removelast_snoc in Hj.
    rewrite lookup_insert_ne in Hj by (intros E; symmetry in E; by apply D_snoc in E).
    destruct (decide _); [apply fmap_Some in Hj as (? & ? & _)|]; eauto.
Qed.

Definition item_member (x : list bytes * node) : member * option error :=
  ((node_header (join_slash x.1) x.2, node_content x.2), None).
Definition item_dirs (l : list (list bytes * node)) : list (list bytes * node) := filter (λ x, node_dir x.2 = true) l.
Definition item_header (x : list bytes * node) : Header := node_header (join_slash x.1) x.2.

(** Nothing fails, and root acts. *)
Definition calm (w : proc) : Prop := w_events w = [] ∧ w_cwd w = cwd ∧ w_euid w = 0.

Lemma members_run r : ∀ l w, passed l (w_fs w) → calm w → parents_first [] (l ++ r) → NoDup (l ++ r).*1 → Forall item_ok (l ++ r) →
  ∃ w', extract_members (text dc) (item_member <$> r) None (item_header <$> item_dirs l) w =
    (Ok (item_header <$> item_dirs (l ++ r)), w') ∧ passed (l ++ r) (w_fs w') ∧ calm w'.
Proof.
  induction r as [|x r IH]; intros l w Hk Hcalm Hpar Hnd Hok.
  { exists w. by rewrite app_nil_r. }
  pose proof (Hpar l x r eq_refl) as Hp. destruct x as [p n]. cbn [fst] in Hp. pose proof Hp as (pre & c & -> & _).
  pose proof Hok as [Hokl [Hokx _]%Forall_cons]%Forall_app. destruct Hokx as (Hpl & Hwf & Hres & Hs). cbn [fst snd] in *.
  apply Forall_app in Hpl as [Hpre Hc]. rewrite Forall_singleton in Hc.
  assert ((pre ++ [c]) ∉ l.*1) as Hn.
  { rewrite fmap_app in Hnd. apply NoDup_app in Hnd as (_ & Hnd & _). intros Hin. apply (Hnd _ Hin). by left. }
  destruct (passed_ready l (w_fs w) pre c Hk Hp Hn) as [Hd Hnone]. destruct Hcalm as (He & Hw & Hu).
  destruct (member_run pre c n (item_header <$> item_dirs l) w Hpre Hc ltac:(done) Hu Hwf Hres Hs) as (i & Hrun & Hi).
  replace (l ++ (pre ++ [c], n) :: r) with ((l ++ [(pre ++ [c], n)]) ++ r) in * by (by rewrite <- app_assoc).
  destruct (IH (l ++ [(pre ++ [c], n)]) (adding (dc ++ pre) c i w)) as (w' & Hrest & Hk' & Hcalm'); [|done..|].
  { apply passed_step; [done..|by apply node_wf_meta]. }
  exists w'. split; [|done]. rewrite fmap_cons. cbn [extract_members item_member fst snd]. unfold mbind, X_bind. rewrite Hrun.
  rewrite <- Hrest. f_equal. unfold item_dirs. rewrite filter_app, fmap_app. f_equal.
  destruct (node_dir n) eqn:E; [rewrite filter_cons_True by done|rewrite filter_cons_False by (cbn; congruence)]; done.
Qed.
(** ** The second pass *)

(** All of [L] is there; the directories [todo] still lack their metadata. *)
Record finishing (L todo : list (list bytes * node)) (fs : FS) : Prop := mkFinishing {
  fin_in x : x ∈ L → ∃ i, fs !! (D ++ x.1) = Some i ∧
    (x.1 ∈ todo.*1 → i_dir i = true ∧ i_xattrs i = ∅) ∧ (x.1 ∉ todo.*1 → inode_is i x.2);
  fin_dirs p m ch : (p, NDir m ch) ∈ L → dirs_to fs (dc ++ p);
  fin_out p : p ≠ [] → is_Some (fs !! (D ++ p)) → p ∈ L.*1;
}.

Lemma passed_finishing L fs : NoDup L.*1 → passed L fs → finishing L (item_dirs L) fs.
Proof.
  intros Hnd Hk. split; [|apply Hk..]. intros [p n] Hx. destruct (passed_in L fs Hk _ Hx) as (i & Hi & Hm). exists i.
  split; [done|]. unfold made_is in Hm. cbn [fst snd] in *. split.
  - intros ([q n'] & -> & [Hd Hin]%list_elem_of_filter)%list_elem_of_fmap. cbn in *.
    rewrite (fst_unique L q n n' Hnd Hx Hin), Hd in Hm. done.
  - intros Hn. destruct (node_dir n) eqn:E; [|done]. destruct Hn. apply list_elem_of_fmap. exists (p, n). split; [done|].
    by apply list_elem_of_filter.
Qed.

Lemma grows_put fs P i j : fs !! P = Some i → fmt (i_mode j) = fmt (i_mode i) → grows fs (<[P := j]> fs).
Proof.
  intros Hi E q k Hk. destruct (decide (q = P)) as [->|Hq]; [|exists k; by rewrite lookup_insert_ne].
  simplify_eq. exists j. by rewrite lookup_insert_eq.
Qed.

Lemma meta_inode_fmt h i : fmt (i_mode (meta_inode h false i)) = fmt (i_mode i).
Proof. unfold meta_inode. cbn [with_mtime i_mode]. by rewrite records_fmt, chmoded_fmt, chowned_fmt. Qed.

Lemma finishing_step L x todo fs i : NoDup L.*1 → NoDup (x :: todo).*1 → item_ok x → node_dir x.2 = true →
  finishing L (x :: todo) fs → fs !! (D ++ x.1) = Some i → i_dir i = true → i_xattrs i = ∅ → x ∈ L →
  finishing L todo (<[D ++ x.1 := meta_inode (item_header x) false i]> fs).
Proof.
  intros HndL Hnd (Hp & Hwf & Hres & Hs) Hdir Hf Hi Hd Hx Hin. rewrite fmap_cons in Hnd. apply NoDup_cons in Hnd as [Hnx Hnd].
  set (j := meta_inode _ false i). assert (grows fs (<[D ++ x.1 := j]> fs)) as Hg by (apply (grows_put _ _ i); [done|apply meta_inode_fmt]).
  split.
  - intros y Hy. destruct (decide (x.1 = y.1)) as [E|Hne'].
    + assert (y = x) as ->. { destruct x as [a nx], y as [b ny]. cbn in E. subst b. by rewrite (fst_unique L a nx ny HndL Hin Hy). }
      exists j. rewrite lookup_insert_eq. split_and!; [done|by intros ?|]. intros _. unfold j, item_header.
      replace false with (node_link x.2) by (by destruct x.2). apply meta_is; [by apply node_wf_meta|done| |done|by destruct x.2].
      unfold i_dir in Hd. apply Z.eqb_eq in Hd. rewrite Hd. by destruct x.2.
    + destruct (fin_in L _ fs Hf y Hy) as (k & Hk & Hk1 & Hk2). exists k.
      rewrite lookup_insert_ne by (intros E%D_inj; done). rewrite fmap_cons in Hk1, Hk2. split_and!; [done| |].
      * intros Hyt. apply Hk1. by right.
      * intros Hyt. apply Hk2. intros [E|?]%elem_of_cons; [by rewrite E in Hne'|done].
  - intros p m ch Hpm. eapply dirs_grow; [exact Hg|by eapply fin_dirs].
  - intros p Hp' [k Hk]. apply (fin_out L _ fs Hf p Hp'). destruct (decide (p = x.1)) as [->|Hn]; [eauto|].
    rewrite lookup_insert_ne in Hk by (intros E%D_inj; by symmetry in E). eauto.
Qed.

Lemma dirs_run L todo : ∀ w, calm w → NoDup L.*1 → NoDup todo.*1 → Forall item_ok L → finishing L todo (w_fs w) →
  Forall (λ x, x ∈ L ∧ x.1 ≠ [] ∧ node_dir x.2 = true) todo →
  ∃ w', apply_dirs (text dc) (item_header <$> todo) w = (Ok tt, w') ∧ finishing L [] (w_fs w') ∧ calm w'.
Proof.
  induction todo as [|x todo IH]; intros w Hcalm HndL Hnd Hok Hf Hall; [by exists w|].
  apply Forall_cons in Hall as [(Hin & Hne1 & Hdir) Hall]. pose proof (proj1 (Forall_forall _ _) Hok x Hin) as Hokx.
  pose proof Hokx as (Hpl & Hwf & _). rewrite fmap_cons. cbn [apply_dirs]. unfold liftX, mbind, X_bind.
  unfold item_header at 1. rewrite header_name, safeJoin_ok by done.
  destruct (fin_in L _ _ Hf x Hin) as (i & Hi & Hi1 & _). destruct Hi1 as [Hd Hx]; [by left|].
  destruct (exists_last (l := dc ++ x.1)) as (p & c & E); [by destruct dc|].
  destruct Hcalm as (He & Hw & Hu). assert (Forall plain_name (p ++ [c])) as Hpc by (rewrite <- E; by apply Forall_app).
  apply Forall_app in Hpc as [Hp Hc]. rewrite Forall_singleton in Hc.
  assert (base ++ p ++ [c] = D ++ x.1) as EP by (by rewrite <- E, app_assoc).
  rewrite E, (meta_run rooted cwd p c _ _ i); [|done|done| |done|].
  - rewrite EP. apply IH; [done|done| |done| |done].
    + rewrite fmap_cons in Hnd. by apply NoDup_cons in Hnd as [_ ?].
    + by apply finishing_step.
  - split_and!; [done|done| |by rewrite EP]. destruct x as [q n]. destruct n as [|m ch| | | |]; try done.
    pose proof (fin_dirs L _ _ Hf q m ch Hin) as Hdq. cbn [fst] in E. rewrite E in Hdq. by eapply dirs_prefix.
  - intros _. unfold i_dir, i_link in *. apply Z.eqb_eq in Hd. by rewrite Hd.
Qed.
(** ** The tree *)
Lemma flat_has (R : list bytes) fs n : fit n → ∀ pre name,
  (∀ x, x ∈ flat pre name n → ∃ i, fs !! (R ++ x.1) = Some i ∧ inode_is i x.2) →
  (∀ q, is_Some (fs !! (R ++ pre ++ name :: q)) → (pre ++ name :: q) ∈ (flat pre name n).*1) →
  fs_has fs (R ++ pre ++ [name]) n.
Proof.
  induction n as [m c|m t|m chr r|m|m|m ch IH] using node_rect'; intros Hf pre name Hin Hout; destruct (fit_parts _ Hf) as (Hw & _ & Hs);
    rewrite flat_unfold in Hin, Hout; cbn [is_sock node_children flats foldr] in Hin, Hout;
    try (split; [|done]; exact (Hin (pre ++ [name], _) ltac:(left))); [done|].
  split; [exact (Hin (pre ++ [name], _) ltac:(left))|]. destruct Hf as [_ Hf%fold_Forall]. destruct Hw as (_ & Hsort & _).
  pose proof (sorted_nodup _ Hsort) as Hnd. rewrite Forall_forall in IH, Hf.
  assert (∀ q, is_Some (fs !! (R ++ pre ++ name :: q)) → q ≠ [] → (pre ++ name :: q) ∈ (flats (pre ++ [name]) ch).*1) as Hbelow.
  { intros q Hq Hqn. specialize (Hout q Hq). rewrite fmap_cons in Hout. apply elem_of_cons in Hout as [E|?]; [|done].
    apply app_inv_head in E. injection E as ->. done. }
  assert (∀ c n, (c, n) ∈ ch → fs_has fs (R ++ (pre ++ [name]) ++ [c]) n) as Hchild.
  { intros c n Hcn. destruct (Hf _ Hcn) as [Hc Hfn]. apply (IH _ Hcn Hfn).
    - intros x Hx. apply Hin. right. apply flats_elem. by exists c, n.
    - intros q Hq. apply (flats_child (pre ++ [name]) ch c n q Hnd Hcn). rewrite <- app_assoc in *. by apply Hbelow. }
  split.
  - intros c. rewrite <- !app_assoc. cbn [app]. split.
    + intros Hc. apply Hbelow in Hc; [|done]. apply list_elem_of_fmap in Hc as (x & E & Hx).
      destruct (flats_prefix _ _ _ Hx) as (c' & n & r & Hcn & Er). rewrite <- E, <- app_assoc in Er. apply app_inv_head in Er.
      injection Er as <- _. by eapply fst_elem.
    + intros ([c' n] & -> & Hcn)%list_elem_of_fmap. pose proof (Hchild _ _ Hcn) as Hh. rewrite <- app_assoc in Hh.
      destruct n; destruct Hh as [(i & Hi & _) _]; eauto.
  - apply fold_Forall, Forall_forall. intros [c n] Hcn. destruct (Hf _ Hcn) as [Hc _]. split; [done|]. cbn [fst snd].
    replace ((R ++ pre ++ [name]) ++ [c]) with (R ++ (pre ++ [name]) ++ [c]) by (by rewrite <- !app_assoc). by apply Hchild.
Qed.

(** The directory [p] holds exactly the children [ch]. *)
Definition holds (fs : FS) (p : list bytes) (ch : list (bytes * node)) : Prop :=
  (∀ c, is_Some (fs !! (p ++ [c])) ↔ c ∈ ch.*1) ∧ Forall (λ q, fs_has fs (p ++ [q.1]) q.2) ch.

Lemma finished_holds fs ch : NoDup ch.*1 → Forall (λ p, plain_name p.1 ∧ fit p.2) ch → finishing (flats [] ch) [] fs → holds fs D ch.
Proof.
  intros Hnd Hfit Hf. rewrite Forall_forall in Hfit.
  assert (∀ c n, (c, n) ∈ ch → fs_has fs (D ++ [c]) n) as Hchild.
  { intros c n Hcn. destruct (Hfit _ Hcn) as [Hc Hfn]. apply (flat_has D fs n Hfn [] c).
    - intros x Hx. destruct (fin_in _ _ _ Hf x) as (i & Hi & _ & His); [apply flats_elem; by exists c, n|]. exists i. split; [done|].
      apply His. by intros ?%elem_of_nil.
    - intros q Hq. apply (flats_child [] ch c n q Hnd Hcn). by apply (fin_out _ _ _ Hf). }
  split; [|apply Forall_forall; intros [c n] Hcn; by apply Hchild]. intros c. split.
  - intros Hc. apply (fin_out _ _ _ Hf) in Hc; [|done]. apply list_elem_of_fmap in Hc as (x & E & Hx).
    destruct (flats_prefix _ _ _ Hx) as (c' & n & r & Hcn & Er). rewrite <- E in Er. injection Er as <- _. by eapply fst_elem.
  - intros ([c' n] & -> & Hcn)%list_elem_of_fmap. pose proof (Hchild _ _ Hcn) as Hh. destruct n; destruct Hh as [(i & Hi & _) _]; eauto.
Qed.

Lemma Extract_restores ch w :
  calm w → fs_closed (w_fs w) → (∃ j, w_fs w !! base = Some j ∧ i_dir j = true) → clear (w_fs w) dc →
  (∀ p, p ≠ [] → w_fs w !! (D ++ p) = None) →
  NoDup ch.*1 → Forall (λ p, plain_name p.1 ∧ node_wf p.2 ∧ exportable [] p.1 p.2 ∧ restorable p.2) ch →
  ∃ w', Extract (text dc) ((λ m, (m, None)) <$> tree_members [] ch) None w = (Ok tt, w') ∧ holds (w_fs w') D (strips ch).
Proof.
  intros (He & Hw & Hu) Hcl Hb Hclear Hempty Hnd Hall. set (L := flats [] (strips ch)).
  assert (Forall (λ p, plain_name p.1 ∧ fit p.2) (strips ch)) as Hfit.
  { rewrite Forall_forall in Hall. apply Forall_forall. intros [c n'] (n & Hin & Hs & E)%strips_elem. cbn in *. subst n'.
    destruct (Hall _ Hin) as (? & ? & ? & ?). split; [done|]. by apply (strip_fit n [] c). }
  assert (NoDup (strips ch).*1) as Hnd'.
  { clear -Hnd. induction ch as [|[c n] ch IH]; [constructor|]. rewrite fmap_cons in Hnd. apply NoDup_cons in Hnd as [Hc Hnd].
    cbn [strips foldr fst snd]. fold (strips ch). destruct (is_sock n); [by apply IH|]. rewrite fmap_cons. constructor; [|by apply IH].
    intros ([c' n'] & E & (n0 & Hin & _)%strips_elem)%list_elem_of_fmap. cbn in *. subst c'. apply Hc. by eapply fst_elem. }
  assert (Forall item_ok L) as Hok.
  { apply Forall_forall. intros x (c & n & Hin & Hx)%flats_elem. rewrite Forall_forall in Hfit. destruct (Hfit _ Hin) as [Hc Hfn].
    exact (proj1 (Forall_forall _ _) (fit_items n Hfn [] c (Forall_nil_2 _) Hc) x Hx). }
  assert (NoDup L.*1) as HndL.
  { apply flats_nodup; [done|]. eapply Forall_impl; [exact Hfit|]. intros x [_ Hx]. by apply flat_nodup, wf_unique, fit_parts. }
  unfold Extract, mbind, X_bind.
  pose proof (MkdirAll_Ok rooted cwd (S (length (text dc))) dc false 0x1ED w He Hw Hdc Hne Hclear Hcl Hb
    ltac:(pose proof (text_length dc Hdc Hne); lia) ltac:(intros Hr; pose proof (text_length dc Hdc Hne) as Hl; rewrite Hr in Hl at 1; lia)) as Hmk.
  pose proof (MkdirAll_spec rooted cwd (S (length (text dc))) dc false 0x1ED w Hdc Hne Hclear Hw) as Hspec.
  unfold wp, slashed in Hmk, Hspec. destruct (MkdirAll _ (text dc) _ w) as [r w1]. cbn [fst snd] in Hmk, Hspec.
  subst r. destruct Hspec as (Hs & Hm & Hd). specialize (Hd tt eq_refl).
  assert (calm w1) as Hcalm.
  { destruct Hs as (Ec & Eu & _ & _ & _ & Hev). split_and!; [|congruence..]. rewrite He in Hev. destruct (w_events w1) as [|o l]; [done|].
    by specialize (Hev o ltac:(left)) as ?%elem_of_nil. }
  assert (passed [] (w_fs w1)) as Hk.
  { split; [done|by intros x ?%elem_of_nil|by intros p m c ?%elem_of_nil|]. intros p Hp [i Hi]. exfalso.
    destruct (made_frame _ _ _ _ _ Hm (D ++ p)) as (r & Er & _); [by rewrite Hi, Hempty|].
    apply (f_equal length) in Er. rewrite !length_app in Er. destruct p; [done|cbn in Er; lia]. }
  destruct (members_run L [] w1 Hk Hcalm) as (w2 & Hrun & Hk2 & Hcalm2); [apply flats_parents|done..|].
  destruct (dirs_run L (item_dirs L) w2 Hcalm2 HndL) as (w3 & Hrun3 & Hf3 & _); [|done|by apply passed_finishing| |].
  - eapply sublist_NoDup; [exact HndL|]. apply fmap_sublist, sublist_filter.
  - apply Forall_forall. intros x [Hdx Hx]%list_elem_of_filter. split_and!; [done| |done]. apply flats_elem in Hx as (c & n & _ & Hx).
    destruct (flat_prefix _ _ _ _ Hx) as [r ->]. done.
  - exists w3. rewrite <- strips_members, tree_members_flat, <- list_fmap_compose.
    change ((λ m, (m, None)) ∘ _ <$> flats [] (strips ch)) with (item_member <$> L). change (item_header <$> item_dirs []) with (@nil Header) in Hrun. change ([] ++ L) with L in Hrun. rewrite Hrun, Hrun3.
    split; [done|]. by apply finished_holds.
Qed.
End restore.
