(* ===== verification/TarSpec.v ===== *)
(** * The contracts of export and extraction, and applications

    An export of what an ingest stored is the archive of the tree; extracting that
    archive makes the tree; extracting any archive stays inside the destination. *)

From Stdlib Require Import Init.Byte.
From S2P Require Import Prelude Machine Key Cborx Chunkers FsEncode Instances FsTree FsBuild FsRead PackRecord PackStream Packstore Path Posix Ignore Ingest IngestPar IngestFacts PosixFacts IngestSpec Tar TarFacts PathFacts TarSafety TarRestore.
From Stdlib Require Import ZifyBool ZifyNat.
Local Open Scope Z_scope.

(** What survives a backup and its restoration: nodes that an archive can carry and that
    its extraction can make. *)
Definition portable `{UnixDev} (p : bytes * node) : Prop :=
  tar_name p.1 ∧ node_wf p.2 ∧ exportable [] p.1 p.2 ∧ restorable p.2.

(** A destination that can be extracted to: real directories lead to it as far as they
    exist, and it holds nothing. *)
Record free_dest (rooted : bool) (dc : list bytes) (w : proc) : Prop := mkFreeDest {
  fd_plain : Forall plain_name dc;
  fd_ne : dc ≠ [];
  fd_closed : fs_closed (w_fs w);
  fd_base : ∃ j, w_fs w !! base rooted (w_cwd w) = Some j ∧ i_dir j = true;
  fd_clear : clear rooted (w_cwd w) (w_fs w) dc;
  fd_empty p : p ≠ [] → w_fs w !! ((base rooted (w_cwd w) ++ dc) ++ p) = None;
}.

Section spec.
Context `{Blake3} `{Cbor} `{!CborLaws} `{!CborTotal} `{OS} `{GitIgnore} `{Cdc} `{!CdcLaws} `{UnixDev} `{!UnixDevLaws} `{Zstd}.

(** Exporting a stored directory writes its archive: one member per file,
    directory, link, pipe and device, parents first and names in order, each with the
    mode, owner, time, attributes, link target, device number and content that were
    stored; sockets are left out.  The objects may come from any store that serves
    them. *)
Theorem export_members (get : Key → result bytes) (log : list Object) k ch :
  serves get log → stored_children log k ch → StronglySorted bytes_lt ch.*1 →
  Forall (λ p, node_wf p.2 ∧ exportable [] p.1 p.2 ∧ tar_name p.1) ch →
  ∃ F, ∀ h fuel, (F ≤ h)%nat → (F ≤ fuel)%nat → tar_Write get h fuel k = Ok (tree_members [] ch).
Proof. intros Hget. exact (export_tree get log Hget k ch). Qed.


(** C5. An extraction is confined: whatever the archive holds, whoever runs it and
    whatever calls fail, it changes nothing outside the destination but the directories
    on the way to it, of which it makes the missing ones.  The destination is named in
    clean form without a link on the way, and a call reports a missing file only when it
    is missing.  Names that climb out, absolute names, links planted
    by earlier members and links that were in the destination before are all covered. *)
Theorem extract_confined rooted dc ms ends w q :
  Forall plain_name dc → dc ≠ [] → fs_closed (w_fs w) → ev_ok w →
  (base rooted (w_cwd w) ≠ [] → ∃ j, w_fs w !! base rooted (w_cwd w) = Some j ∧ i_dir j = true) →
  clear rooted (w_cwd w) (w_fs w) dc →
  ¬ base rooted (w_cwd w) ++ dc `prefix_of` q → ¬ q `prefix_of` base rooted (w_cwd w) ++ dc →
  w_fs (Extract (path_text rooted dc) ms ends w).2 !! q = w_fs w !! q.
Proof. intros Hdc Hne Hcl He Hb Hclear Hq1 Hq2. by apply (Extract_confined rooted (w_cwd w) dc). Qed.
End spec.

(** ** Destinations that are not in clean form *)

Lemma join_first p : Forall plain_name p → p ≠ [] → ∃ x r, join_slash p = x :: r ∧ x ≠ slash ∧ (x :: r) ≠ dot ∧ ∀ r', x :: r ≠ x2e :: slash :: r'.
Proof.
  intros Hp Hn. destruct p as [|c p]; [done|]. apply Forall_cons in Hp as [(H1 & H2 & H3 & H4) Hp]. destruct c as [|x c]; [done|].
  assert (∃ r, join_slash ((x :: c) :: p) = (x :: c) ++ r ∧ (r = [] ∨ ∃ r', r = slash :: r')) as (r & Er & Hr).
  { destruct p as [|d p]; [exists []; rewrite app_nil_r; auto|]. exists (slash :: join_slash (d :: p)). eauto. }
  exists x, (c ++ r). rewrite Er. split_and!; [done|set_solver| |].
  - intros [= -> E]. apply app_eq_nil in E as [-> _]. done.
  - intros r' [= -> E]. destruct c as [|y c]; [by destruct H2|]. injection E as -> E. apply H4. right. left.
Qed.

Lemma no_double t p : Forall plain_name p → p ≠ [] → HasPrefix (t ++ slash :: join_slash p) ((t ++ [slash]) ++ [slash]) = false.
Proof.
  intros Hp Hn. destruct (join_first p Hp Hn) as (x & r & -> & Hx & _). unfold HasPrefix. apply bool_decide_eq_false_2.
  rewrite !length_app, <- Nat.add_assoc, take_app_add. cbn. rewrite <- app_assoc. intros E%app_inv_head. by injection E.
Qed.

(** The check of [safeJoin] compares a cleaned path with the destination as it was
    given.  With a destination that is not in clean form, such as "out/", "." or "/", it
    refuses every entry, and so every extraction of a non-empty archive fails. *)
Theorem unclean_destination rooted dc p :
  Forall plain_name dc → dc ≠ [] → Forall plain_name p → p ≠ [] →
  safeJoin (path_text rooted dc ++ [slash]) (join_slash p) = Err (errors_New "refusing unsafe entry name %q") ∧
  safeJoin dot (join_slash p) = Err (errors_New "refusing unsafe entry name %q") ∧
  safeJoin [slash] (join_slash p) = Err (errors_New "refusing unsafe entry name %q").
Proof.
  intros Hdc Hne Hp Hn. unfold safeJoin. destruct (existsb _ _) eqn:Ex; [done|].
  assert (split_slash (join_slash p) = p) as Hsp by (by rewrite <- (app_nil_r p) at 2; apply (names_text false)).
  rewrite Clean_rooted by (rewrite Hsp; eapply Forall_impl; [exact Hp|]; intros c Hc; by destruct (plain_skip c Hc)).
  assert (names_in (join_slash p) = p) as -> by (by apply (names_in_text false)).
  rewrite (Join_stack _ rooted dc p); [|by destruct (path_text rooted dc)|rewrite is_rooted_app by (by apply path_text_ne); by apply path_text_rooted| |done].
  2:{ change [slash] with (slash :: []). rewrite split_slash_app, foldl_app, foldl_text by done. done. }
  rewrite (Join_stack dot false [] p), (Join_stack [slash] true [] p) by done.
  assert (match dc ++ p with [] => path_text rooted [] | _ => path_text rooted (dc ++ p) end = path_text rooted dc ++ slash :: join_slash p) as ->.
  { rewrite <- text_app by done. by destruct (dc ++ p). }
  cbn [app]. rewrite no_double by done. destruct (join_first p Hp Hn) as (x & r & E & Hx & Hd & Hdd).
  replace (match p with [] => path_text false [] | _ => path_text false p end) with (x :: r) by (rewrite <- E; by destruct p).
  replace (match p with [] => path_text true [] | _ => path_text true p end) with (slash :: x :: r) by (rewrite <- E; by destruct p).
  assert (HasPrefix (x :: r) (dot ++ [slash]) = false) as ->.
  { unfold HasPrefix. apply bool_decide_eq_false_2. destruct r as [|y r]; [done|]. intros [= -> ->]. by apply (Hdd r). }
  assert (HasPrefix (slash :: x :: r) [slash; slash] = false) as ->.
  { unfold HasPrefix. apply bool_decide_eq_false_2. cbn. by intros [= ->]. }
  rewrite !bool_decide_eq_false_2; [done|done|done|]. intros E'%app_inv_head. by rewrite E in E'.
Qed.

(** ** Applications *)
Section examples.
#[local] Existing Instance blake3_example.
#[local] Existing Instance cbor_example.
#[local] Existing Instance cbor_example_laws.
#[local] Existing Instance cbor_example_total.
#[local] Existing Instance zstd_example.
#[local] Existing Instance cdc_example.
#[local] Existing Instance cdc_example_laws.
#[local] Existing Instance dev_example.
#[local] Existing Instance dev_example_laws.
#[local] Existing Instance ignore_example.
#[local] Existing Instance os_example.

Lemma log_get_serves log : NoDup ((λ o, kb (obj_key o)) <$> log) → serves (log_get log) log.
Proof.
  intros Hnd o Ho. unfold log_get. destruct (list_find _ log) as [[i o']|] eqn:E.
  - apply list_find_Some in E as (Hi & Ek & _). apply list_elem_of_lookup in Ho as [j Hj]. f_equal.
    assert (i = j) as <-; [|by simplify_eq]. eapply (NoDup_lookup _ _ _ _ Hnd); rewrite list_lookup_fmap, ?Hi, ?Hj; [done|]. cbn. by rewrite Ek.
  - apply list_find_None in E. rewrite Forall_forall in E. by destruct (E o Ho).
Qed.

Lemma object_at (log : list Object) (i : nat) k : (λ o, kb (obj_key o)) <$> (log !! i) = Some (kb k) → mkObject k (default [] (obj_bytes <$> log !! i)) ∈ log.
Proof.
  destruct (log !! i) as [[k' d]|] eqn:E; [|done]. cbn. intros [= Hk]. apply Key_eq in Hk. subst k'. by eapply list_elem_of_lookup_2.
Qed.

(** The objects of a directory with a file and a link. *)
Definition file_objects : Key * list Object :=
  match buildFile emit_log chunker_example [[x68; x69]] [] with Ok r => r | _ => (to_key [], []) end.
Definition file_entry : Entry :=
  mkEntry [x66] (node_mode file_node) 1000 1000 1700000000123456789 (kb file_objects.1) [] [] [] [].
Definition link_entry : Entry :=
  mkEntry [x6c] (node_mode link_node) 1000 1000 1700000000123456789 [] [x66] [] [] [].
Definition stored_example : Key * list Object :=
  match build_dir emit_log chunker_example [file_entry; link_entry] file_objects.2 with Ok r => r | _ => (to_key [], []) end.

Lemma portable_example : Forall portable [([x66], file_node); ([x6c], link_node)].
Proof.
  destruct dir_node_wf as (_ & _ & Hf & Hl & _).
  repeat apply Forall_cons_2; [| |by apply Forall_nil_2]; unfold portable; cbn [fst snd];
    (split_and!; [split; [by apply plain_byte|by apply (bool_decide_unpack _)]|done|split; [split_and!; [apply map_Forall_empty|try done; by apply (bool_decide_unpack _)|vm_compute; discriminate]|done]|]);
    (split; [|done]); split_and!; cbn; lia || done.
Qed.

Lemma stored_children_example : stored_children stored_example.2 stored_example.1 [([x66], file_node); ([x6c], link_node)].
Proof.
  exists 1%nat, [file_entry; link_entry]. split.
  - left. split; [vm_compute; reflexivity|]. eexists. split; [apply (object_at _ 1)|]; vm_compute; reflexivity.
  - constructor; [|constructor; [|constructor]].
    + apply (stored_file _ _ _ _ [x68; x69] file_objects.1 1); [done|by left|done|vm_compute; reflexivity|vm_compute; reflexivity|].
      left. split; [vm_compute; reflexivity|]. pose proof (object_at stored_example.2 0 file_objects.1) as Ho.
      replace (default [] (obj_bytes <$> stored_example.2 !! 0%nat)) with [x68; x69] in Ho by (vm_compute; reflexivity).
      apply Ho. vm_compute. reflexivity.
    + constructor; [done|by left|done].
Qed.

Lemma export_members_witness :
  ∃ F, ∀ h fuel, (F ≤ h)%nat → (F ≤ fuel)%nat →
    tar_Write (log_get stored_example.2) h fuel stored_example.1 = Ok (tree_members [] [([x66], file_node); ([x6c], link_node)]).
Proof.
  apply (export_members (log_get stored_example.2) stored_example.2).
  - apply log_get_serves, (bool_decide_unpack _). vm_compute. exact I.
  - apply stored_children_example.
  - repeat constructor.
  - eapply Forall_impl; [exact portable_example|]. by intros p (? & ? & ? & _).
Defined.

(** A process of root with the file system of the ingested directory. *)
Definition root_proc (evs : list outcome) : proc := mkProc fs_example [] 0 0 0x12 0 evs.

Lemma fs_example_keys p i : fs_example !! p = Some i → p ∈ [[]; [[x64]]; [[x64]; [x66]]; [[x64]; [x6c]]; [[x64]; [x78]]].
Proof.
  intros Hi. assert (is_Some (fs_example !! p)) as Hs by eauto. clear Hi. unfold fs_example in Hs.
  rewrite !lookup_insert_is_Some', lookup_empty in Hs. rewrite !elem_of_cons. 
  destruct Hs as [<-|[<-|[<-|[<-|[<-|[? Hs]]]]]]; auto 10. done.
Qed.

Lemma fs_example_closed : fs_closed fs_example.
Proof.
  intros p c i Hi Hp. apply fs_example_keys in Hi. rewrite !elem_of_cons in Hi.
  assert (p = [[x64]]) as ->.
  { destruct p as [|a [|b p]]; [done| |].
    - destruct Hi as [E|[E|[E|[E|[E|E%elem_of_nil]]]]]; try discriminate E; try (by injection E as ->); done.
    - exfalso. destruct Hi as [E|[E|[E|[E|[E|E%elem_of_nil]]]]]; try discriminate E; try (injection E as -> -> E; by destruct p); done. }
  eexists. split; [vm_compute; reflexivity|reflexivity].
Qed.

Lemma free_example evs : free_dest true [[x72]] (root_proc evs).
Proof.
  split; cbn [root_proc w_fs w_cwd base].
  - constructor; [by apply plain_byte|constructor].
  - done.
  - exact fs_example_closed.
  - eexists. split; [vm_compute; reflexivity|reflexivity].
  - intros q c r i E Hi. destruct q as [|a q]; [|by destruct q]. injection E as <- <-. apply fs_example_keys in Hi.
    rewrite !elem_of_cons in Hi. destruct Hi as [E|[E|[E|[E|[E|E%elem_of_nil]]]]]; done.
  - intros p Hp. destruct (fs_example !! _) as [i|] eqn:Hi; [|done]. apply fs_example_keys in Hi.
    rewrite !elem_of_cons in Hi. destruct Hi as [E|[E|[E|[E|[E|E%elem_of_nil]]]]]; done.
Qed.


(** An archive that plants a link and writes through it, with failing calls. *)
Definition hostile : list (member * option error) :=
  let hdr name ty link := mkHeader name 0x1A4 0 0 0 ty 0 link 0 0 ∅ in
  [((hdr [x65] TypeSymlink [x2f; x64], []), None); ((hdr [x65; x2f; x66] TypeReg [], [x21]), None);
   ((hdr [x2e; x2e; x2f; x64; x2f; x66] TypeReg [], [x21]), None)].

Lemma extract_confined_witness :
  w_fs (Extract [x2f; x72] hostile None (root_proc [Fine; Fails (errors_New EPERM_) 0])).2 !! [[x64]; [x66]] =
  fs_example !! [[x64]; [x66]].
Proof.
  set (w := root_proc [Fine; Fails (errors_New EPERM_) 0]).
  destruct (free_example [Fine; Fails (errors_New EPERM_) 0]) as [Hdc Hne Hcl Hb Hclear _].
  apply (extract_confined true [[x72]] hostile None w [[x64]; [x66]]).
  - exact Hdc.
  - exact Hne.
  - exact Hcl.
  - intros e n Hin. cbn in Hin. apply elem_of_cons in Hin as [Hin|[Hin|Hin%elem_of_nil]%elem_of_cons]; [done| |done].
    injection Hin as -> ->. apply (bool_decide_unpack _). vm_compute. exact I.
  - intros ?. done.
  - exact Hclear.
  - intros [r E]. discriminate E.
  - intros [r E]. discriminate E.
Defined.
End examples.

Lemma unclean_destination_witness :
  safeJoin [x6f; x2f] [x66] = Err (errors_New "refusing unsafe entry name %q") ∧
  safeJoin [x2e] [x66] = Err (errors_New "refusing unsafe entry name %q") ∧
  safeJoin [x2f] [x66] = Err (errors_New "refusing unsafe entry name %q").
Proof.
  apply (unclean_destination false [[x6f]] [[x66]]); try done; (constructor; [by apply plain_byte|constructor]).
Defined.

(** An absolute name is accepted, and taken below the destination. *)
Example absolute_name : safeJoin [x6f] [x2f; x65] = Ok [x6f; x2f; x65].
Proof. vm_compute. reflexivity. Qed.
