(* ===== verification/AllowStore.v ===== *)
(** * Package [allowstore]: the allowed client keys ([allowstore.go])

    The keys are records in a Pebble database, mirrored by a map in memory and by the
    snapshot of the allowlist that every request is checked against.  Parsing a line
    of an authorized-keys file is the SSH library; records are JSON. *)

From Stdlib Require Import Init.Byte.
From S2P Require Import Prelude Machine Key Cborx Instances Sshsign Reference Refstore Auth AuthFacts.
From Stdlib Require Import ZifyBool ZifyNat.
Local Open Scope Z_scope.

Definition ascii_bytes (s : string) : bytes := String.list_byte_of_string s.

(** [strings.Join] *)
Fixpoint join_with (sep : bytes) (parts : list bytes) : bytes :=
  match parts with [] => [] | [p] => p | p :: parts => p ++ sep ++ join_with sep parts end.

(** What the package uses of [ssh] besides [SshKeys]: a line has a key, a comment,
    options and what follows it. *)
Class SshLine `{SshKeys} := {
  ParseKeyLine : bytes → result (PublicKey * bytes * list string * bytes);
  MarshalAuthorizedKey : PublicKey → bytes;
  key_Type : PublicKey → string;
}.
Class SshLineLaws `{SshLine} := {
  ParseKeyLine_safe line : safe (ParseKeyLine line);
  ParsePublicKey_Marshal p : ParsePublicKey (pk_Marshal p) = Ok p;
}.

Record record := mkRec { rc_Admin : bool; rc_Comment : bytes; rc_Caps : list string }.

(** The JSON of a record.  A comment that is not UTF-8 is stored with its invalid
    bytes replaced. *)
Class RecordJson := {
  rec_Marshal : record → result bytes;
  rec_Unmarshal : bytes → result record;
}.
Definition utf8_record (r : record) : Prop := Forall (λ c, utf8_ValidString (ascii_bytes c) = true) (rc_Caps r).
Class RecordJsonLaws `{RecordJson} := {
  rec_Marshal_safe r : safe (rec_Marshal r);
  rec_Unmarshal_Marshal r b : utf8_record r → rec_Marshal r = Ok b →
    ∃ r', rec_Unmarshal b = Ok r' ∧ rc_Admin r' = rc_Admin r ∧ rc_Caps r' = rc_Caps r ∧
      (utf8_ValidString (rc_Comment r) = true → r' = r);
}.

(** The effective capabilities of a record. *)
Definition rec_entry (r : record) : Entry :=
  if (length (rc_Caps r) =? 0)%nat then
    if rc_Admin r then mkAllow false false false false false true else FullAccess
  else match ParseCaps (rc_Caps r) with Ok e => e | _ => noAccess end.

(** A key as the admin pages show it. *)
Record KeyLine := mkKeyLine {
  kl_Line : bytes; kl_Type : string; kl_Fingerprint : bytes; kl_Comment : bytes; kl_Admin : bool; kl_Caps : list string;
}.

Section allowstore.
Context `{Pebble} `{SshLine} `{RecordJson}.

Record AStore := mkAStore { as_db : DB; as_recs : gmap bytes record; as_list : List }.

Definition swap (s : AStore) : AStore := mkAStore (as_db s) (as_recs s) (rec_entry <$> as_recs s).

(** One record of the scan. *)
Definition scan_step (kv : bytes * bytes) (recs : gmap bytes record) : result (gmap bytes record) :=
  _ ← wrap "allowstore: stored key does not parse" (ParsePublicKey kv.1);
  rec ← wrap "allowstore: decoding record" (rec_Unmarshal kv.2);
  _ ← wrap "allowstore: record for %s" (ParseCaps (rc_Caps rec));
  Ok (<[kv.1 := rec]> recs).

Definition as_Open (db : DB) : result AStore * DB :=
  let '(it, db) := db_Iter db in
  (l ← it; recs ← foldR scan_step l ∅; Ok (swap (mkAStore db recs ∅)), db).

Definition Current (s : AStore) : List := as_list s.

Definition makeKey (pub : PublicKey) (r : record) : KeyLine :=
  let flags := if rc_Admin r && (length (rc_Caps r) =? 0)%nat then [ascii_bytes "admin"]
               else if (0 <? length (rc_Caps r))%nat then [join_with [x2c] (ascii_bytes <$> rc_Caps r)] else [] in
  let parts := flags ++ [TrimSpace (MarshalAuthorizedKey pub)] ++ (if bool_decide (rc_Comment r = []) then [] else [rc_Comment r]) in
  mkKeyLine (join_with [x20] parts) (key_Type pub) (FingerprintSHA256 pub) (rc_Comment r) (rc_Admin r) (rc_Caps r).

(** In the order of the keys. *)
Definition key_le (a b : bytes * record) : Prop := bytes_le a.1 b.1.
#[local] Instance key_le_dec : RelDecision key_le := λ a b, bytes_le_dec a.1 b.1.

Definition as_List (s : AStore) : list KeyLine :=
  omap (λ '(wire, r), match ParsePublicKey wire with Ok pub => Some (makeKey pub r) | _ => None end)
    (merge_sort key_le (map_to_list (as_recs s))).

(** The record of a line. *)
Definition line_record (line : bytes) (admin : bool) : result (PublicKey * record) :=
  '(pub, comment, options, rest) ← wrap "parsing key" (ParseKeyLine line);
  if (0 <? length (TrimSpace rest))%nat then Err (errors_New "trailing content after the key: %q") else
  rec ← (if (0 <? length options)%nat then
           ent ← wrap "parsing key options" (ParseCaps options);
           Ok (mkRec (Admin ent) comment (Caps ent))
         else Ok (mkRec false comment []));
  Ok (pub, if admin then mkRec true comment [] else rec).

Definition as_Add (line : bytes) (admin : bool) (s : AStore) : result unit * AStore :=
  match ('(pub, rec) ← line_record line admin; val ← rec_Marshal rec; Ok (pub, rec, val)) with
  | Ok (pub, rec, val) =>
      let wire := pk_Marshal pub in
      match as_recs s !! wire with
      | Some _ => (Err (errors_New "key %s is already in the allowlist"), s)
      | None =>
          let '(r, db) := db_Set wire val (as_db s) in
          match r with
          | Ok _ => (Ok tt, swap (mkAStore db (<[wire := rec]> (as_recs s)) (as_list s)))
          | r => (wrap "storing key" r, mkAStore db (as_recs s) (as_list s))
          end
      end
  | Err e => (Err e, s)
  | Panic => (Panic, s)
  | Diverge => (Diverge, s)
  end.

(** [order] is the order in which the map is visited. *)
Fixpoint remove_in (order : list bytes) (fingerprint : bytes) (s : AStore) : result unit * AStore :=
  match order with
  | [] => (Err (errors_New "no key with fingerprint %s in the allowlist"), s)
  | wire :: order =>
      match ParsePublicKey wire with
      | Ok pub =>
          if negb (bool_decide (FingerprintSHA256 pub = fingerprint)) then remove_in order fingerprint s else
          let '(r, db) := db_Delete wire (as_db s) in
          match r with
          | Ok _ => (Ok tt, swap (mkAStore db (delete wire (as_recs s)) (as_list s)))
          | r => (wrap "deleting key" r, mkAStore db (as_recs s) (as_list s))
          end
      | _ => remove_in order fingerprint s
      end
  end.

Definition as_Remove (order : list bytes) (fingerprint : bytes) (s : AStore) : result unit * AStore :=
  remove_in order fingerprint s.

(** ** The store and its database *)

(** The database holds these records, and the snapshot is theirs. *)
Record mirrored (s : AStore) : Prop := mkMirrored {
  mir_list : as_list s = rec_entry <$> as_recs s;
  mir_keys : dom (db_map (as_db s)) = dom (as_recs s);
  mir_recs wire r : as_recs s !! wire = Some r →
    is_ok (ParsePublicKey wire) = true ∧ is_ok (ParseCaps (rc_Caps r)) = true ∧
    ∃ data r', db_map (as_db s) !! wire = Some data ∧ rec_Unmarshal data = Ok r' ∧ rc_Admin r' = rc_Admin r ∧ rc_Caps r' = rc_Caps r;
}.

(** An edit of the list. *)
Inductive edit := EAdd (line : bytes) (admin : bool) | ERemove (order : list bytes) (fingerprint : bytes).

Definition apply_edit (e : edit) (s : AStore) : result unit * AStore :=
  match e with EAdd line admin => as_Add line admin s | ERemove order fp => as_Remove order fp s end.

(** What an edit writes: the key, and its record unless the key is removed.  An edit that
    is refused writes nothing. *)
Fixpoint removed_key (order : list bytes) (fp : bytes) : option bytes :=
  match order with
  | [] => None
  | wire :: order =>
      match ParsePublicKey wire with
      | Ok pub => if bool_decide (FingerprintSHA256 pub = fp) then Some wire else removed_key order fp
      | _ => removed_key order fp
      end
  end.
Definition edit_write (e : edit) (s : AStore) : option (bytes * option record) :=
  match e with
  | EAdd line admin =>
      match line_record line admin with
      | Ok (pub, rec) => if is_ok (rec_Marshal rec) && bool_decide (as_recs s !! pk_Marshal pub = None) then Some (pk_Marshal pub, Some rec) else None
      | _ => None
      end
  | ERemove order fp => (λ k, (k, None)) <$> removed_key order fp
  end.

(** Edits one after the other, with the writes that failed since the last one of their
    key that did not: each of these may have reached the database or not. *)
Abbreviation failures := (gmap bytes (list (option record))).
Definition edit_step (e : edit) (x : AStore * failures) : AStore * failures :=
  let '(s, lost) := x in
  let '(r, s') := apply_edit e s in
  (s', match edit_write e s with
       | Some (k, c) => if is_ok r then delete k lost else <[k := c :: default [] (lost !! k)]> lost
       | None => lost
       end).
Definition edits (es : list edit) (s : AStore) : AStore * failures := foldl (λ x e, edit_step e x) (s, ∅) es.

Lemma same_entry r r' : rc_Admin r' = rc_Admin r → rc_Caps r' = rc_Caps r → rec_entry r' = rec_entry r.
Proof. unfold rec_entry. by intros -> ->. Qed.

Context `{!PebbleLaws} `{!SshLineLaws} `{!RecordJsonLaws}.

(** The names that [Caps] gives mean the same capabilities. *)
Lemma Caps_entry e : ∃ e', ParseCaps (Caps e) = Ok e' ∧ ∀ cap, Allows e' cap = Allows e cap.
Proof.
  destruct (Admin e) eqn:Ha.
  - exists (mkAllow false false false false false true). unfold Caps. rewrite Ha. split; [done|]. intros cap. unfold Allows. by rewrite Ha.
  - exists e. split; [|done]. destruct e as [[] [] [] [] [] []]; try done; reflexivity.
Qed.

Lemma Caps_utf8 e : Forall (λ c, utf8_ValidString (ascii_bytes c) = true) (Caps e).
Proof. destruct e as [[] [] [] [] [] []]; repeat constructor. Qed.

Lemma ParseCaps_some names e : ParseCaps names = Ok e → names ≠ [] → Caps e ≠ [].
Proof.
  unfold ParseCaps. intros Hp Hn Hc. destruct names as [|n names] using rev_ind; [done|]. clear IHnames Hn.
  rewrite foldR_app in Hp. apply bind_Ok in Hp as (e0 & _ & Hp). cbn in Hp. apply bind_Ok in Hp as (e1 & Hp & [= ->]). revert Hp Hc.
  unfold add_cap, Caps. repeat case_match; try done; by intros [= <-].
Qed.

(** What a line gives: a parsed key, and the capabilities that it names. *)
Lemma line_record_spec line admin pub rec : line_record line admin = Ok (pub, rec) →
  ∃ comment options rest, ParseKeyLine line = Ok (pub, comment, options, rest) ∧ utf8_record rec ∧
    is_ok (ParseCaps (rc_Caps rec)) = true ∧
    ∀ cap, Allows (rec_entry rec) cap =
      if admin then true else match options with [] => Allows FullAccess cap
                                               | _ => match ParseCaps options with Ok e => Allows e cap | _ => false end end.
Proof.
  intros ([[[p comment] options] rest] & Hl%wrap_Ok & Hr)%bind_Ok. destruct (0 <? length (TrimSpace rest))%nat; [done|].
  apply bind_Ok in Hr as (r0 & Hr0 & [= -> <-]). exists comment, options, rest. split; [done|]. destruct admin.
  { split_and!; [by constructor|done|]. by intros cap. }
  destruct options as [|o options]; cbn [length Nat.ltb Nat.leb] in Hr0.
  { injection Hr0 as <-. split_and!; [by constructor|done|]. by intros cap. }
  apply bind_Ok in Hr0 as (ent & He%wrap_Ok & [= <-]). destruct (Caps_entry ent) as (e' & He' & Hsame).
  split_and!; [apply Caps_utf8|cbn [rc_Caps]; by rewrite He'|]. intros cap. unfold rec_entry. cbn [rc_Caps rc_Admin].
  pose proof (ParseCaps_some _ _ He ltac:(done)) as Hne. assert ((length (Caps ent) =? 0)%nat = false) as -> by (by destruct (Caps ent)). rewrite He', He. apply Hsame.
Qed.

(** ** Edits *)

(** The database's entry of a key is that record, or neither is there. *)
Definition stands (k : bytes) (d : option bytes) (c : option record) : Prop :=
  match d, c with
  | None, None => True
  | Some data, Some r => is_ok (ParsePublicKey k) = true ∧ is_ok (ParseCaps (rc_Caps r)) = true ∧
      ∃ r', rec_Unmarshal data = Ok r' ∧ rc_Admin r' = rc_Admin r ∧ rc_Caps r' = rc_Caps r
  | _, _ => False
  end.

(** The entry of every key in the database is the record in memory or one of the failed
    writes. *)
Record tracked (s : AStore) (lost : failures) : Prop := mkTracked {
  tr_list : as_list s = rec_entry <$> as_recs s;
  tr_db k : ∃ c, c ∈ as_recs s !! k :: default [] (lost !! k) ∧ stands k (db_map (as_db s) !! k) c;
}.

Lemma mirrored_tracked s : mirrored s → tracked s ∅.
Proof.
  intros [Hl Hk Hr]. split; [done|]. intros k. exists (as_recs s !! k). split; [left|].
  destruct (as_recs s !! k) as [r|] eqn:E.
  - destruct (Hr k r E) as (? & ? & data & r' & -> & ?). split_and!; eauto.
  - destruct (db_map (as_db s) !! k) eqn:Ed; [|done]. apply elem_of_dom_2 in Ed. rewrite Hk, elem_of_dom, E in Ed. by destruct Ed.
Qed.

(** One write to the database, and the memory after it. *)
Record edited (s : AStore) (k : bytes) (c : option record) (r : result unit) (s' : AStore) : Prop := mkEdited {
  ed_list : as_list s' = (if is_ok r then rec_entry <$> as_recs s' else as_list s);
  ed_recs : as_recs s' = (if is_ok r then partial_alter (λ _, c) k (as_recs s) else as_recs s);
  ed_other k' : k' ≠ k → db_map (as_db s') !! k' = db_map (as_db s) !! k';
  ed_db : stands k (db_map (as_db s') !! k) c ∨ is_ok r = false ∧ db_map (as_db s') = db_map (as_db s);
}.

Lemma Add_edited line admin s :
  match edit_write (EAdd line admin) s with
  | Some (k, c) => edited s k c (as_Add line admin s).1 (as_Add line admin s).2 ∧
      ∃ pub rec, line_record line admin = Ok (pub, rec) ∧ k = pk_Marshal pub ∧ c = Some rec ∧ as_recs s !! k = None
  | None => is_ok (as_Add line admin s).1 = false ∧ (as_Add line admin s).2 = s
  end.
Proof.
  unfold as_Add, edit_write. destruct (line_record line admin) as [[pub rec]|e| |] eqn:Hline; try done. rsimpl.
  destruct (rec_Marshal rec) as [val|e| |] eqn:Hm; try done. rsimpl. cbn [is_ok andb].
  case_bool_decide as Hold; [|by destruct (as_recs s !! pk_Marshal pub)]. rewrite Hold.
  pose proof (db_Set_law (pk_Marshal pub) val (as_db s)) as Hset. destruct (db_Set _ _ _) as [r db']. destruct Hset as (_ & Hdb & Hok).
  destruct (line_record_spec _ _ _ _ Hline) as (cm & op & re & _ & Hutf & Hcaps & _).
  destruct (rec_Unmarshal_Marshal rec val Hutf Hm) as (r' & Hu & Ha & Hc & _). split; [|by exists pub, rec].
  assert (∀ k', k' ≠ pk_Marshal pub → db_map db' !! k' = db_map (as_db s) !! k') as Hother.
  { intros k' Hne. destruct Hdb as [-> | ->]; [done|]. by apply lookup_insert_ne. }
  assert (db_map db' = <[pk_Marshal pub := val]> (db_map (as_db s)) → stands (pk_Marshal pub) (db_map db' !! pk_Marshal pub) (Some rec)) as Hstand.
  { intros ->. rewrite lookup_insert_eq. cbn. rewrite ParsePublicKey_Marshal. split_and!; eauto. }
  destruct r as [[]|e| |]; (split; cbn [fst snd swap wrap as_list as_recs as_db is_ok]; [done|done|done|]);
    [by left; apply Hstand, Hok|by destruct Hdb as [?|?]; [right|left; apply Hstand]..].
Qed.

Lemma Remove_edited order fp s :
  match edit_write (ERemove order fp) s with
  | Some (k, c) => edited s k c (as_Remove order fp s).1 (as_Remove order fp s).2 ∧ c = None ∧
      ∃ pub, k ∈ order ∧ ParsePublicKey k = Ok pub ∧ FingerprintSHA256 pub = fp
  | None => is_ok (as_Remove order fp s).1 = false ∧ (as_Remove order fp s).2 = s
  end.
Proof.
  unfold as_Remove, edit_write. induction order as [|wire order IH]; [done|]. cbn [remove_in removed_key].
  assert (match (λ k, (k, None : option record)) <$> removed_key order fp with
    | Some (k, c) => edited s k c (remove_in order fp s).1 (remove_in order fp s).2 ∧ c = None ∧
        ∃ pub, k ∈ wire :: order ∧ ParsePublicKey k = Ok pub ∧ FingerprintSHA256 pub = fp
    | None => is_ok (remove_in order fp s).1 = false ∧ (remove_in order fp s).2 = s end) as Hnext.
  { destruct (removed_key order fp) as [k|]; cbn in *; [|done]. destruct IH as (? & ? & pub & ? & ?). split_and!; try done. exists pub. split; [by right|done]. }
  clear IH. destruct (ParsePublicKey wire) as [pub|e| |] eqn:Hp; [|exact Hnext..]. case_bool_decide as Hfp; cbn [negb]; [|exact Hnext].
  clear Hnext. cbn [fmap option_fmap option_map].
  pose proof (db_Delete_law wire (as_db s)) as Hdel. destruct (db_Delete _ _) as [r db']. destruct Hdel as (_ & Hdb & Hok).
  split; [|split; [done|exists pub; by split_and!; [left|..]]].
  assert (∀ k', k' ≠ wire → db_map db' !! k' = db_map (as_db s) !! k') as Hother.
  { intros k' Hne. destruct Hdb as [-> | ->]; [done|]. by apply lookup_delete_ne. }
  assert (db_map db' = delete wire (db_map (as_db s)) → stands wire (db_map db' !! wire) None) as Hstand by (intros ->; by rewrite lookup_delete_eq).
  destruct r as [[]|e| |]; (split; cbn [fst snd swap wrap as_list as_recs as_db is_ok]; [done|done|done|]);
    [by left; apply Hstand, Hok|by destruct Hdb as [?|?]; [right|left; apply Hstand]..].
Qed.

Lemma edit_edited e s :
  match edit_write e s with
  | Some (k, c) => edited s k c (apply_edit e s).1 (apply_edit e s).2
  | None => is_ok (apply_edit e s).1 = false ∧ (apply_edit e s).2 = s
  end.
Proof.
  destruct e as [line admin|order fp].
  - pose proof (Add_edited line admin s) as Ha. destruct (edit_write _ s) as [[k c]|]; [apply Ha|exact Ha].
  - pose proof (Remove_edited order fp s) as Hr. destruct (edit_write _ s) as [[k c]|]; [apply Hr|exact Hr].
Qed.

Lemma step_tracked e s lost : tracked s lost → tracked (edit_step e (s, lost)).1 (edit_step e (s, lost)).2.
Proof.
  intros [Hl Hdb]. unfold edit_step. pose proof (edit_edited e s) as He. destruct (apply_edit e s) as [r s']. cbn [fst snd] in *.
  destruct (edit_write e s) as [[k c]|]; [|by destruct He as [_ ->]]. destruct He as [El Er Eo Ed].
  split; [rewrite El; destruct (is_ok r); [done|by rewrite Er]|]. intros k'. destruct (decide (k' = k)) as [->|Hne].
  - rewrite Er. destruct (is_ok r).
    + rewrite lookup_partial_alter_eq, lookup_delete_eq. exists c. split; [left|]. by destruct Ed as [?|[? _]].
    + rewrite lookup_insert_eq. cbn [default from_option id]. destruct Ed as [?|[_ Ed]]; [exists c; split; [right; left|done]|].
      rewrite Ed. destruct (Hdb k) as (c' & Hin & Hs). exists c'. split; [|done].
      apply elem_of_cons in Hin as [->|Hin]; [left|by right; right].
  - rewrite Eo by done. destruct (Hdb k') as (c' & Hin & Hs). exists c'. split; [|done]. rewrite Er.
    destruct (is_ok r); [by rewrite lookup_partial_alter_ne, lookup_delete_ne|by rewrite lookup_insert_ne].
Qed.

Lemma edits_tracked es s : mirrored s → tracked (edits es s).1 (edits es s).2.
Proof.
  intros Hm%mirrored_tracked. unfold edits. generalize (∅ : failures) Hm. clear Hm. revert s.
  induction es as [|e es IH]; intros s lost Hm; [done|]. cbn [foldl]. pose proof (step_tracked e s lost Hm) as Hs.
  destruct (edit_step e (s, lost)) as [s1 lost1]. by apply IH.
Qed.

(** Without a failed write nothing is in doubt. *)
Lemma edits_certain es s k : (∀ es1 e es2, es = es1 ++ e :: es2 → is_ok (apply_edit e (edits es1 s).1).1 = true ∨
    ∀ c, edit_write e (edits es1 s).1 ≠ Some (k, c)) → (edits es s).2 !! k = None.
Proof.
  induction es as [|e es IH] using rev_ind; intros Hall; [done|]. unfold edits in *. rewrite foldl_app. cbn [foldl].
  assert ((foldl (λ x e, edit_step e x) (s, ∅) es).2 !! k = None) as Hnone.
  { apply IH. intros es1 e' es2 ->. apply (Hall es1 e' (es2 ++ [e])). by rewrite <- app_assoc. }
  specialize (Hall es e [] eq_refl). destruct (foldl _ _ es) as [s1 lost1]. cbn [fst snd] in *. unfold edit_step.
  destruct (apply_edit e s1) as [r s2]. cbn [fst snd] in *. destruct (edit_write e s1) as [[k' c]|]; [|done].
  destruct (decide (k' = k)) as [->|Hne].
  - destruct Hall as [->|Hall]; [by rewrite lookup_delete_eq|by destruct (Hall c)].
  - destruct (is_ok r); [by rewrite lookup_delete_ne|by rewrite lookup_insert_ne].
Qed.

(** ** Opening the database again *)
Lemma scan_step_ok k d r m : is_ok (ParsePublicKey k) = true → rec_Unmarshal d = Ok r → is_ok (ParseCaps (rc_Caps r)) = true →
  scan_step (k, d) m = Ok (<[k := r]> m).
Proof.
  intros [a Ha]%is_ok_true Hu [e He]%is_ok_true. unfold scan_step. cbn [fst snd].
  apply bind_Ok. exists a. split; [by apply wrap_Ok|]. apply bind_Ok. exists r. split; [by apply wrap_Ok|].
  apply bind_Ok. exists e. split; [by apply wrap_Ok|done].
Qed.

Lemma scan_fold l : ∀ m0, NoDup l.*1 →
  (∀ k d, (k, d) ∈ l → is_ok (ParsePublicKey k) = true ∧ ∃ r, rec_Unmarshal d = Ok r ∧ is_ok (ParseCaps (rc_Caps r)) = true) →
  ∃ recs, foldR scan_step l m0 = Ok recs ∧ ∀ k,
    (∀ d, (k, d) ∈ l → ∃ r, rec_Unmarshal d = Ok r ∧ recs !! k = Some r) ∧ (k ∉ l.*1 → recs !! k = m0 !! k).
Proof.
  induction l as [|[k d] l IH]; intros m0 Hnd Hall.
  { exists m0. split; [done|]. intros k. split; [by intros d ?%elem_of_nil|done]. }
  rewrite fmap_cons in Hnd. apply NoDup_cons in Hnd as [Hk Hnd]. destruct (Hall k d ltac:(left)) as (Hp & r & Hu & Hc).
  destruct (IH (<[k := r]> m0) Hnd) as (recs & Hf & Hrecs); [intros k' d' Hin; apply Hall; by right|]. exists recs. split.
  - cbn [foldR]. by rewrite (scan_step_ok k d r).
  - intros k'. destruct (Hrecs k') as [Hin Hout]. split.
    + intros d' [[= -> ->]|Hd]%elem_of_cons; [|by apply Hin]. exists r. split; [done|]. cbn in Hk. by rewrite Hout, lookup_insert_eq.
    + rewrite fmap_cons. intros Hn. apply not_elem_of_cons in Hn as [Hne Hn]. cbn in Hne. rewrite Hout by done. by rewrite lookup_insert_ne.
Qed.

(** Opening finds for every key a record in memory or a failed write. *)
Lemma Open_tracked s lost : tracked s lost →
  (∃ e, (as_Open (as_db s)).1 = Err e ∧ (db_Iter (as_db s)).1 = Err e) ∨
  ∃ s', (as_Open (as_db s)).1 = Ok s' ∧ mirrored s' ∧
    ∀ k, ∃ c, c ∈ as_recs s !! k :: default [] (lost !! k) ∧ Current s' !! k = rec_entry <$> c.
Proof.
  intros [_ Hdb]. unfold as_Open. pose proof (db_Iter_law (as_db s)) as Hi. destruct (db_Iter (as_db s)) as [it db'].
  destruct Hi as (Hs & Hm & Hit). destruct it as [l|e| |]; [|left; by exists e|by destruct Hs..]. right.
  destruct (Hit l eq_refl) as [Hperm _].
  assert (∀ k d, (k, d) ∈ l ↔ db_map (as_db s) !! k = Some d) as Hin by (intros k d; by rewrite Hperm, elem_of_map_to_list).
  assert (NoDup l.*1) as Hnd by (rewrite Hperm; apply NoDup_fst_map_to_list).
  destruct (scan_fold l ∅ Hnd) as (recs & Hf & Hrecs).
  { intros k d Hd%Hin. destruct (Hdb k) as (c & _ & Hst). rewrite Hd in Hst. destruct c as [r|]; [|done].
    destruct Hst as (? & Hc & r' & ? & ? & Hcs). split; [done|]. exists r'. by rewrite Hcs. }
  assert (∀ k, match db_map (as_db s) !! k with Some d => ∃ r, rec_Unmarshal d = Ok r ∧ recs !! k = Some r | None => recs !! k = None end) as Hget.
  { intros k. destruct (Hrecs k) as [Hget Hout]. destruct (db_map (as_db s) !! k) as [d|] eqn:Ed; [by apply Hget, Hin|].
    rewrite Hout, lookup_empty; [done|]. intros ([k' d] & -> & Hd)%list_elem_of_fmap. apply Hin in Hd. cbn in *. congruence. }
  exists (swap (mkAStore db' recs ∅)). cbn [fst]. rsimpl. rewrite Hf. rsimpl. split; [done|]. split; [split|]; cbn [swap as_list as_recs as_db].
  - done.
  - rewrite Hm. apply set_eq. intros k. rewrite !elem_of_dom. specialize (Hget k).
    destruct (db_map (as_db s) !! k); [destruct Hget as (? & _ & ->)|rewrite Hget]; split; by intros [? [=]].
  - intros k r Hkr. specialize (Hget k). destruct (Hdb k) as (c & _ & Hst). rewrite Hm. destruct (db_map (as_db s) !! k) as [d|]; [|congruence].
    destruct Hget as (r1 & Hu & Hr1). assert (r1 = r) as -> by congruence. destruct c as [r0|]; [|done].
    destruct Hst as (Hp & Hc & r' & Hu' & _ & Hcs). assert (r' = r) as -> by congruence. rewrite Hcs. split_and!; [done..|]. by exists d, r.
  - intros k. destruct (Hdb k) as (c & Hc & Hst). exists c. split; [done|]. unfold Current. cbn [swap as_list as_recs].
    pose proof (lookup_fmap rec_entry recs k) as E. specialize (Hget k). destruct (db_map (as_db s) !! k) as [d|], c as [r|]; try done.
    + destruct Hget as (r1 & Hu & Hr1). destruct Hst as (_ & _ & r' & Hu' & Ha & Hcs). assert (r' = r1) as -> by congruence.
      rewrite Hr1 in E. etrans; [exact E|]. cbn. f_equal. by apply same_entry.
    + rewrite Hget in E. exact E.
Qed.

(** C30. The allowlist that requests are checked against is durable.  Start from a
    store that mirrors its database, and make any edits, of which any may fail and reach
    the database all the same.  Then an accepted line lists its key, which was not
    listed, with exactly the capabilities the line names, or all of them for an admin;
    removing by fingerprint drops one key with that fingerprint; all other keys stay as
    they are; and an edit that reports an error changes no one's access.  Opening the
    database again fails with the error of its iterator, or gives for every key the
    entry that the allowlist had, unless writes of that key failed since the last one
    that did not: then it may give the outcome of one of these instead.  The store that
    is opened mirrors its database again. *)
Theorem allowlist_durable s0 es : mirrored s0 →
  let '(s, lost) := edits es s0 in
  (∀ line admin, let '(r, s') := as_Add line admin s in
     (r ≠ Ok tt → Current s' = Current s) ∧
     (r = Ok tt → ∃ pub comment options rest e,
        ParseKeyLine line = Ok (pub, comment, options, rest) ∧ Current s !! pk_Marshal pub = None ∧
        Current s' = <[pk_Marshal pub := e]> (Current s) ∧
        ∀ cap, Allows e cap = if admin then true else match options with [] => Allows FullAccess cap
                 | _ => match ParseCaps options with Ok e => Allows e cap | _ => false end end)) ∧
  (∀ order fp, let '(r, s') := as_Remove order fp s in
     (r ≠ Ok tt → Current s' = Current s) ∧
     (r = Ok tt → ∃ wire pub,
        wire ∈ order ∧ ParsePublicKey wire = Ok pub ∧ FingerprintSHA256 pub = fp ∧ Current s' = delete wire (Current s))) ∧
  ((∃ e, (as_Open (as_db s)).1 = Err e ∧ (db_Iter (as_db s)).1 = Err e) ∨
   ∃ s', (as_Open (as_db s)).1 = Ok s' ∧ mirrored s' ∧
     ∀ k, Current s' !! k = Current s !! k ∨ ∃ c, c ∈ default [] (lost !! k) ∧ Current s' !! k = rec_entry <$> c) ∧
  (∀ k, (∀ es1 e es2, es = es1 ++ e :: es2 → is_ok (apply_edit e (edits es1 s0).1).1 = true ∨
      ∀ c, edit_write e (edits es1 s0).1 ≠ Some (k, c)) → lost !! k = None).
Proof.
  intros Hmir. pose proof (edits_tracked es s0 Hmir) as Htr. pose proof (edits_certain es s0) as Hcert.
  destruct (edits es s0) as [s lost]. cbn [fst snd] in *. pose proof Htr as [Hl _]. unfold Current.
  assert (∀ k c r s', edited s k c r s' → (r ≠ Ok tt → as_list s' = as_list s) ∧
    (r = Ok tt → as_list s' = match c with Some rec => <[k := rec_entry rec]> (as_list s) | None => delete k (as_list s) end)) as Hcur.
  { intros k c r s' [El Er _ _]. split; [destruct r as [[]|e| |]; try done|intros ->]. cbn [is_ok] in *. rewrite El, Er, Hl. destruct c as [rec|].
    - exact (fmap_insert rec_entry (as_recs s) k rec).
    - exact (fmap_delete rec_entry (as_recs s) k). }
  split_and!; [| | |done].
  - intros line admin. pose proof (Add_edited line admin s) as Ha. destruct (as_Add line admin s) as [r s']. cbn [fst snd] in Ha.
    destruct (edit_write _ s) as [[k c]|]; [|destruct Ha as [Hr ->]; split; [done|by intros ->]].
    destruct Ha as (Hed & pub & rec & Hline & -> & -> & Hnone). destruct (Hcur _ _ _ _ Hed) as [Hf Hok]. split; [done|]. intros Hr.
    destruct (line_record_spec _ _ _ _ Hline) as (cm & op & re & Hp & _ & _ & Hcaps). exists pub, cm, op, re, (rec_entry rec).
    split_and!; [done| |by apply Hok|done]. rewrite Hl. etrans; [apply lookup_fmap|]. by rewrite Hnone.
  - intros order fp. pose proof (Remove_edited order fp s) as Ha. destruct (as_Remove order fp s) as [r s']. cbn [fst snd] in Ha.
    destruct (edit_write _ s) as [[k c]|]; [|destruct Ha as [Hr ->]; split; [done|by intros ->]].
    destruct Ha as (Hed & -> & pub & Hin & Hp & Hfp). destruct (Hcur _ _ _ _ Hed) as [Hf Hok]. split; [done|]. intros Hr.
    exists k, pub. split_and!; [done..|]. by apply Hok.
  - destruct (Open_tracked s lost Htr) as [?|(s' & Ho & Hm & Hk)]; [by left|right]. exists s'. split_and!; [done..|]. intros k.
    destruct (Hk k) as (c & [->|Hin]%elem_of_cons & Hc); [left|right; by exists c]. etrans; [exact Hc|]. rewrite Hl. symmetry. apply lookup_fmap.
Qed.
End allowstore.

(** ** An application *)
Section example.
#[local] Existing Instance pebble_example.
#[local] Existing Instance pebble_example_laws.

(** Keys of one byte; the rest of a line is its comment. *)
Definition keys_example : SshKeys := {|
  PublicKey := bytes;
  ParsePublicKey b := Ok b;
  pk_Marshal k := k;
  FingerprintSHA256 k := k;
  ParseAuthorizedKey b := Ok (b, []);
|}.
#[local] Existing Instance keys_example.

Definition line_example : SshLine := {|
  ParseKeyLine b := match b with [] => Err (errors_New "ssh: no key found") | k :: c => Ok ([k], c, ["read"%string], []) end;
  MarshalAuthorizedKey k := k;
  key_Type _ := "ssh-ed25519"%string;
|}.
#[local] Existing Instance line_example.
#[local] Instance line_example_laws : SshLineLaws.
Proof. split; [intros []; by split|done]. Qed.

(** A record as its flag, its capabilities and its comment. *)
Definition put_rec (r : record) : bytes :=
  (if rc_Admin r then x01 else x00) :: put_list put_string (rc_Caps r) ++ rc_Comment r.
Definition get_rec (b : bytes) : result record :=
  match b with
  | [] => Err (errors_New "unexpected end of JSON input")
  | f :: b => match get_list get_string (length b) b with
              | Some (caps, c) => Ok (mkRec (bool_decide (f = x01)) c caps)
              | None => Err (errors_New "invalid JSON") end
  end.
Definition json_example : RecordJson := {| rec_Marshal r := Ok (put_rec r); rec_Unmarshal := get_rec |}.
#[local] Existing Instance json_example.
#[local] Instance json_example_laws : RecordJsonLaws.
Proof.
  split; [by split|]. intros r b _ [= <-]. exists r. split_and!; try done. cbn [rec_Unmarshal json_example put_rec get_rec].
  rewrite get_put_list; [|apply Forall_true; apply get_put_string|rewrite length_app; lia]. destruct r as [[] c caps]; reflexivity.
Qed.

(** An empty store. *)
Definition store_example : AStore := mkAStore (∅, []) ∅ ∅.

(** One key is added and adding another fails; opening the database again lists the
    first. *)
Definition failing_example : AStore := mkAStore (∅, [true; false]) ∅ ∅.
Definition edits_example : list edit := [EAdd [x41; x62] false; EAdd [x42] true].

Lemma failing_mirrored : mirrored failing_example.
Proof. split; [done|done|]. intros wire r Hw. exfalso. exact (lookup_empty_Some wire r Hw). Qed.

Lemma allowlist_durable_witness :
  let s := (edits edits_example failing_example).1 in
  (edits edits_example failing_example).2 !! [x42] = Some [Some (mkRec true [] [])] ∧
  Current s !! [x41] = Some (mkAllow true false false false false false) ∧ Current s !! [x42] = None ∧
  ∃ s', (as_Open (as_db s)).1 = Ok s' ∧ mirrored s' ∧ Current s' !! [x41] = Current s !! [x41].
Proof.
  assert ((edits edits_example failing_example).2 !! [x41] = None) as Hl by (vm_compute; reflexivity).
  assert (is_ok (db_Iter (as_db (edits edits_example failing_example).1)).1 = true) as Hi by (vm_compute; reflexivity).
  split; [vm_compute; reflexivity|]. split; [vm_compute; reflexivity|]. split; [vm_compute; reflexivity|].
  pose proof (allowlist_durable failing_example edits_example failing_mirrored) as Hd.
  destruct (edits edits_example failing_example) as [s lost]. cbn [fst snd] in *.
  destruct Hd as (_ & _ & [(e & _ & He)|(s' & Ho & Hm & Hk)] & _); [by rewrite He in Hi|]. exists s'. split_and!; [done..|].
  destruct (Hk [x41]) as [?|(c & Hin & _)]; [done|]. rewrite Hl in Hin. by apply elem_of_nil in Hin.
Defined.
End example.
