(* ===== verification/Remotes.v ===== *)
(** * Package [remotes]: the registered remotes ([remotes.go])

    A map from names to addresses and pinned server keys, kept in memory and in a JSON
    file that is replaced by renaming.  A write or a rename may fail; a write that fails
    may leave a part of the temporary file. *)

From Stdlib Require Import Init.Byte.
From S2P Require Import Prelude Machine Key Cborx Instances Sshsign Reference Auth Remote Posix.
From Stdlib Require Import ZifyBool ZifyNat.
Local Open Scope Z_scope.

Definition ErrExists : string := "remote already exists".
Definition ErrNotFound : string := "remote not found".
Definition ErrInvalid : string := "invalid remote".

Record RemoteEntry := mkRemote { rm_URL : bytes; rm_ServerKey : bytes }.
Record Named := mkNamed { nm_Name : bytes; nm_Remote : RemoteEntry }.

(** The JSON of the map. *)
Class RemotesJson := {
  rem_Marshal : gmap bytes RemoteEntry → result bytes;
  rem_Unmarshal : bytes → result (gmap bytes RemoteEntry);
}.

(** JSON carries text, and keys in base64: a map of text survives. *)
Definition text_remotes (m : gmap bytes RemoteEntry) : Prop :=
  map_Forall (λ name rem, utf8_ValidString name = true ∧ utf8_ValidString (rm_URL rem) = true) m.
Class RemotesJsonLaws `{RemotesJson} := {
  rem_Marshal_safe m : safe (rem_Marshal m);
  rem_Unmarshal_Marshal m b : text_remotes m → rem_Marshal m = Ok b → rem_Unmarshal b = Ok m;
}.

(** The file, the temporary file, and how the next calls turn out. *)
Record rdisk := mkRdisk { rd_file : option bytes; rd_tmp : option bytes; rd_events : list (option (error * nat)) }.

Definition rd_pop (d : rdisk) : option (error * nat) * rdisk :=
  match rd_events d with
  | [] => (None, d)
  | e :: evs => (e, mkRdisk (rd_file d) (rd_tmp d) evs)
  end.

Definition rd_WriteFile (b : bytes) (d : rdisk) : result unit * rdisk :=
  match rd_pop d with
  | (None, d) => (Ok tt, mkRdisk (rd_file d) (Some b) (rd_events d))
  | (Some (e, n), d) => (Err e, mkRdisk (rd_file d) (Some (take n b)) (rd_events d))
  end.
Definition rd_Rename (d : rdisk) : result unit * rdisk :=
  match rd_pop d with
  | (None, d) => match rd_tmp d with
                 | Some b => (Ok tt, mkRdisk (Some b) None (rd_events d))
                 | None => (Err ENOENT, d)
                 end
  | (Some (e, _), d) => (Err e, d)
  end.
Definition rd_ReadFile (d : rdisk) : result bytes * rdisk :=
  match rd_pop d with
  | (None, d) => (match rd_file d with Some b => Ok b | None => Err ENOENT end, d)
  | (Some (e, _), d) => (Err e, d)
  end.

Section remotes.
Context `{NetUrl} `{RemotesJson}.

Record Registry := mkRegistry { rg_disk : rdisk; rg_remotes : gmap bytes RemoteEntry }.

Definition rg_Open (d : rdisk) : result Registry :=
  let '(r, d) := rd_ReadFile d in
  match r with
  | Err e => if bool_decide (errors_Is e ErrNotExist) then Ok (mkRegistry d ∅) else Err (Errorf "reading remotes file" e)
  | Ok b => m ← wrap "parsing %s" (rem_Unmarshal b); Ok (mkRegistry d m)
  | Panic => Panic
  | Diverge => Diverge
  end.

Fixpoint rg_runes (rs : list Z) : result unit :=
  match rs with
  | [] => Ok tt
  | c :: rs => if (c =? 47) || (c <? 33) || (c =? 127) then Err (Errorf "name %q contains an invalid character" (errors_New ErrInvalid))
               else rg_runes rs
  end.

Definition url_valid (u : result URL) : bool :=
  match u with
  | Ok u => (String.eqb (u_Scheme u) "http" || String.eqb (u_Scheme u) "https") && negb (bool_decide (u_Host u = []))
  | _ => false
  end.

Definition rg_validate (name : bytes) (rem : RemoteEntry) : result unit :=
  if bool_decide (name = []) || (zlen name >? 64) then Err (Errorf "name must be 1-64 bytes" (errors_New ErrInvalid)) else
  _ ← rg_runes (runes name);
  if negb (url_valid (url_Parse (rm_URL rem))) then Err (Errorf "URL %q must be http(s)://host[:port][/path]" (errors_New ErrInvalid)) else
  if (length (rm_ServerKey rem) =? 0)%nat then Err (Errorf "no pinned server key" (errors_New ErrInvalid)) else
  Ok tt.

Definition rg_save (m : gmap bytes RemoteEntry) (d : rdisk) : result unit * rdisk :=
  match rem_Marshal m with
  | Ok b =>
      let '(r, d) := rd_WriteFile b d in
      match r with
      | Ok _ => rd_Rename d
      | r => (r, d)
      end
  | Err e => (Err e, d)
  | Panic => (Panic, d)
  | Diverge => (Diverge, d)
  end.

Definition rg_Add (name : bytes) (rem : RemoteEntry) (r : Registry) : result unit * Registry :=
  match rg_validate name rem with
  | Ok _ =>
      match rg_remotes r !! name with
      | Some _ => (Err (Errorf "%w: %s" (errors_New ErrExists)), r)
      | None =>
          let m := <[name := rem]> (rg_remotes r) in
          let '(res, d) := rg_save m (rg_disk r) in
          match res with
          | Ok _ => (Ok tt, mkRegistry d m)
          | _ => (res, mkRegistry d (delete name m))
          end
      end
  | res => (res, r)
  end.

Definition rg_Remove (name : bytes) (r : Registry) : result unit * Registry :=
  match rg_remotes r !! name with
  | None => (Err (Errorf "%w: %s" (errors_New ErrNotFound)), r)
  | Some rem =>
      let m := delete name (rg_remotes r) in
      let '(res, d) := rg_save m (rg_disk r) in
      match res with
      | Ok _ => (Ok tt, mkRegistry d m)
      | _ => (res, mkRegistry d (<[name := rem]> m))
      end
  end.

Definition rg_Get (name : bytes) (r : Registry) : option RemoteEntry := rg_remotes r !! name.

Definition rem_le (a b : bytes * RemoteEntry) : Prop := bytes_le a.1 b.1.
#[local] Instance rem_le_dec : RelDecision rem_le := λ a b, bytes_le_dec a.1 b.1.

Definition rg_All (r : Registry) : list Named :=
  (λ '(n, rem), mkNamed n rem) <$> merge_sort rem_le (map_to_list (rg_remotes r)).

Definition rg_Resolve (name : bytes) (r : Registry) : result (bytes * RemoteEntry) :=
  if negb (bool_decide (name = [])) then
    match rg_remotes r !! name with
    | None => Err (Errorf "%w: %s" (errors_New ErrNotFound))
    | Some rem => Ok (name, rem)
    end
  else match map_to_list (rg_remotes r) with
       | [] => Err (errors_New "no remotes registered — run 'amber-store remote add NAME URL' first")
       | [(n, rem)] => Ok (n, rem)
       | _ => Err (errors_New "several remotes registered — name one explicitly")
       end.

(** ** The registry and its file *)
Definition saved (r : Registry) : Prop :=
  match rd_file (rg_disk r) with Some b => rem_Unmarshal b = Ok (rg_remotes r) | None => rg_remotes r = ∅ end.
Definition all_valid (m : gmap bytes RemoteEntry) : Prop := map_Forall (λ name rem, rg_validate name rem = Ok tt) m.
Definition registry_ok (r : Registry) : Prop := saved r ∧ all_valid (rg_remotes r) ∧ text_remotes (rg_remotes r).

Context `{!RemotesJsonLaws}.

Lemma save_spec m d : let '(r, d') := rg_save m d in
  safe r ∧ (r ≠ Ok tt → rd_file d' = rd_file d) ∧
  (r = Ok tt → text_remotes m → ∃ b, rd_file d' = Some b ∧ rem_Unmarshal b = Ok m).
Proof.
  unfold rg_save. pose proof (rem_Marshal_safe m) as Hs. destruct (rem_Marshal m) as [b|e| |] eqn:Hm; [|by split_and!|by destruct Hs..].
  unfold rd_WriteFile, rd_pop. destruct d as [file tmp [|[[e n]|] evs]]; cbn.
  - split_and!; [done|done|]. intros _ Ht. exists b. split; [done|]. by apply rem_Unmarshal_Marshal.
  - by split_and!.
  - unfold rd_Rename, rd_pop. cbn. destruct evs as [|[[e n]|] evs]; cbn; split_and!; try done; intros _ Ht; exists b;
      (split; [done|]); by apply rem_Unmarshal_Marshal.
Qed.

Lemma saved_disk d d' m : rd_file d' = rd_file d → saved (mkRegistry d m) → saved (mkRegistry d' m).
Proof. unfold saved. cbn. by intros ->. Qed.

Lemma Add_registry name rem r : registry_ok r → utf8_ValidString name = true → utf8_ValidString (rm_URL rem) = true →
  let '(res, r') := rg_Add name rem r in
  safe res ∧ registry_ok r' ∧ (res ≠ Ok tt → rg_remotes r' = rg_remotes r) ∧
  (res = Ok tt → rg_validate name rem = Ok tt ∧ rg_remotes r !! name = None ∧ rg_remotes r' = <[name := rem]> (rg_remotes r)).
Proof.
  intros (Hsv & Hval & Ht) Hu1 Hu2. unfold rg_Add. assert (safe (rg_validate name rem)) as Hvs.
  { unfold rg_validate. destruct (_ || _); [by split|]. apply safe_bind; [|intros; repeat case_match; by split].
    induction (runes name) as [|c l IH]; cbn; [by split|]. destruct (_ || _); [by split|done]. }
  destruct (rg_validate name rem) as [[]|e| |] eqn:Hv; [|by split_and!|by destruct Hvs..].
  destruct (rg_remotes r !! name) as [old|] eqn:Ho; [by split_and!|].
  pose proof (save_spec (<[name := rem]> (rg_remotes r)) (rg_disk r)) as Hspec. destruct (rg_save _ _) as [res d].
  destruct Hspec as (Hs & Hfail & Hok). assert (text_remotes (<[name := rem]> (rg_remotes r))) as Ht' by (by apply map_Forall_insert_2).
  destruct res as [[]|e| |]; [| |by destruct Hs..].
  - destruct (Hok eq_refl Ht') as (b & Hb & Hub). split_and!; [done| |done|done]. split_and!; [|by apply map_Forall_insert_2|done].
    unfold saved. cbn. by rewrite Hb.
  - rewrite delete_insert_id by done. split_and!; [done| |done|done]. split_and!; [|done|done].
    eapply saved_disk; [by apply Hfail|]. by destruct r.
Qed.

Lemma Remove_registry name r : registry_ok r →
  let '(res, r') := rg_Remove name r in
  safe res ∧ registry_ok r' ∧ (res ≠ Ok tt → rg_remotes r' = rg_remotes r) ∧
  (res = Ok tt → is_Some (rg_remotes r !! name) ∧ rg_remotes r' = delete name (rg_remotes r)).
Proof.
  intros (Hsv & Hval & Ht). unfold rg_Remove. destruct (rg_remotes r !! name) as [rem|] eqn:Ho; [|by split_and!].
  pose proof (save_spec (delete name (rg_remotes r)) (rg_disk r)) as Hspec. destruct (rg_save _ _) as [res d].
  destruct Hspec as (Hs & Hfail & Hok). assert (text_remotes (delete name (rg_remotes r))) as Ht' by (by apply map_Forall_delete).
  destruct res as [[]|e| |]; [| |by destruct Hs..].
  - destruct (Hok eq_refl Ht') as (b & Hb & Hub). split_and!; [done| |done|by eauto]. split_and!; [|by apply map_Forall_delete|done].
    unfold saved. cbn. by rewrite Hb.
  - rewrite insert_delete_id by done. split_and!; [done| |done|done]. split_and!; [|done|done].
    eapply saved_disk; [by apply Hfail|]. by destruct r.
Qed.
(** ** Sequences of edits *)
Inductive rg_op := RAdd (name : bytes) (rem : RemoteEntry) | RRemove (name : bytes).
Definition rg_step (r : Registry) (o : rg_op) : Registry :=
  match o with RAdd name rem => (rg_Add name rem r).2 | RRemove name => (rg_Remove name r).2 end.
Definition text_op (o : rg_op) : Prop :=
  match o with RAdd name rem => utf8_ValidString name = true ∧ utf8_ValidString (rm_URL rem) = true | RRemove _ => True end.

Lemma step_registry r o : registry_ok r → text_op o → registry_ok (rg_step r o).
Proof.
  intros Hr Ho. destruct o as [name rem|name]; cbn [rg_step].
  - destruct Ho as [Hu1 Hu2]. pose proof (Add_registry name rem r Hr Hu1 Hu2) as Ha. destruct (rg_Add name rem r) as [res r']. by destruct Ha as (_ & ? & _).
  - pose proof (Remove_registry name r Hr) as Ha. destruct (rg_Remove name r) as [res r']. by destruct Ha as (_ & ? & _).
Qed.

(** C40. The registry survives restarts and failures: after any edits that add remotes
    with names and addresses that are UTF-8 ([text_op]; JSON replaces the invalid bytes
    of others, see validate_not_text), whatever writes and renames fail, the file holds exactly the remotes in memory, each with a valid
    name, an address of a server and a pinned key, and opening the file gives them
    back.  An edit that reports an error changes nothing.  What [Resolve] selects is
    registered: the named remote, or without a name the only one. *)
Theorem registry_durable ops r : registry_ok r → Forall text_op ops →
  let r' := foldl rg_step r ops in
  all_valid (rg_remotes r') ∧
  (∀ tmp, ∃ d, rg_Open (mkRdisk (rd_file (rg_disk r')) tmp []) = Ok (mkRegistry d (rg_remotes r'))) ∧
  (∀ o, match o with RAdd name rem => (rg_Add name rem r').1 | RRemove name => (rg_Remove name r').1 end ≠ Ok tt → text_op o →
     rg_remotes (rg_step r' o) = rg_remotes r') ∧
  (∀ name n rem, rg_Resolve name r' = Ok (n, rem) →
     rg_remotes r' !! n = Some rem ∧ (name ≠ [] → n = name) ∧ (name = [] → rg_remotes r' = {[n := rem]})).
Proof.
  intros Hr Hops. assert (registry_ok (foldl rg_step r ops)) as Hr'.
  { revert r Hr. induction Hops as [|o ops Ho _ IH]; intros r Hr; [done|]. cbn [foldl]. apply IH. by apply step_registry. }
  cbv zeta. set (r' := foldl rg_step r ops) in *. pose proof Hr' as (Hsv & Hval & Ht). split_and!; [done| | |].
  - intros tmp. unfold rg_Open, rd_ReadFile, rd_pop, saved in *. cbn. destruct (rd_file (rg_disk r')) as [b|].
    + cbn. rewrite Hsv. cbn. eauto.
    + cbn. rewrite Hsv. eauto.
  - intros o Hfail Ho. destruct o as [name rem|name]; cbn [rg_step].
    + destruct Ho as [Hu1 Hu2]. pose proof (Add_registry name rem r' Hr' Hu1 Hu2) as Ha. destruct (rg_Add name rem r') as [res r2].
      destruct Ha as (_ & _ & Hf & _). by apply Hf.
    + pose proof (Remove_registry name r' Hr') as Ha. destruct (rg_Remove name r') as [res r2]. destruct Ha as (_ & _ & Hf & _). by apply Hf.
  - intros name n rem. unfold rg_Resolve. case_bool_decide as Hn; cbn [negb].
    + destruct (map_to_list (rg_remotes r')) as [|[n' rem'] [|x l]] eqn:El; try done. intros [= -> ->].
      assert (rg_remotes r' = {[n := rem]}) as Em.
      { rewrite <- (list_to_map_to_list (rg_remotes r')), El. cbn. apply insert_empty. }
      split_and!; [rewrite Em; apply lookup_singleton_eq|done|done].
    + destruct (rg_remotes r' !! name) as [rem'|] eqn:Er; [|done]. intros [= <- <-]. by split_and!.
Qed.
End remotes.

(** ** An application *)
Section example.
#[local] Instance url_example : NetUrl := {| url_Parse u := Ok (mkURL "https" u u) |}.

Definition put_remotes (m : gmap bytes RemoteEntry) : bytes :=
  put_list (λ p : bytes * RemoteEntry, put_bytes p.1 ++ put_bytes (rm_URL p.2) ++ put_bytes (rm_ServerKey p.2)) (map_to_list m).
Definition get_remote (b : bytes) : option ((bytes * RemoteEntry) * bytes) :=
  '(n, b) ← get_bytes b; '(u, b) ← get_bytes b; '(k, b) ← get_bytes b; Some ((n, mkRemote u k), b).
#[local] Instance remotes_json_example : RemotesJson := {|
  rem_Marshal m := Ok (put_remotes m);
  rem_Unmarshal b := match get_list get_remote (length b) b with
                     | Some (l, _) => Ok (list_to_map l) | None => Err (errors_New "invalid JSON") end;
|}.

#[local] Instance remotes_json_example_laws : RemotesJsonLaws.
Proof.
  split; [by split|]. intros m b _ [= <-]. cbn [rem_Unmarshal remotes_json_example]. unfold put_remotes.
  rewrite <- (app_nil_r (put_list _ _)) at 2. rewrite get_put_list; [by rewrite list_to_map_to_list| |done].
  apply Forall_true. intros [n [u k]] r. cbn [fst snd rm_URL rm_ServerKey]. rewrite <- !app_assoc. unfold get_remote. do 3 (rewrite get_put_bytes; cbn). done.
Qed.

Definition remote_example : RemoteEntry := mkRemote [x68] [x4b].

(** A name that is not UTF-8 passes the checks, and JSON cannot store it. *)
Example validate_not_text : rg_validate [xff] remote_example = Ok tt ∧ utf8_ValidString [xff] = false.
Proof. vm_compute. done. Qed.

(** The second edit fails at its rename. *)
Lemma registry_durable_witness :
  let r := mkRegistry (mkRdisk None None [None; None; None; Some (EINVAL, 0%nat)]) ∅ in
  let r' := foldl rg_step r [RAdd [x61] remote_example; RRemove [x61]] in
  rg_remotes r' = {[ [x61] := remote_example ]} ∧
  ∃ d, rg_Open (mkRdisk (rd_file (rg_disk r')) None []) = Ok (mkRegistry d (rg_remotes r')).
Proof.
  intros r r'. split; [vm_compute; reflexivity|].
  destruct (registry_durable [RAdd [x61] remote_example; RRemove [x61]] r) as (_ & Hopen & _).
  - split_and!; [done|apply map_Forall_empty|apply map_Forall_empty].
  - repeat constructor.
  - exact (Hopen None).
Defined.
End example.
