(* ===== verification/Daemon.v ===== *)
(** * Package [daemon]: the handlers of the local daemon
    ([daemon.go], [refs.go], [remotesync.go], [remotes.go], [gc.go])

    A handler is a function from the parts of a request to an answer and the next state
    of the daemon.  Reads of a walk may see later states of the store: [at_ k] is the
    store when [k] is read.  What the remote server answers, how the parallel writer is
    scheduled and how JSON is written are arguments; logging is left out. *)

From Stdlib Require Import Init.Byte.
From S2P Require Import Prelude Machine Key Chunkers FsEncode FsTree FsRead FsWalk PackRecord PackStream Footer Packstore Compact Parallel Inbox Text Sshsign Reference Refstore Gc Auth Server Routes Sync Remote Ingest Tar Remotes.
From Stdlib Require Import ZifyBool ZifyNat.
Local Open Scope Z_scope.

Definition StatusBadRequest : Z := 400.
Definition StatusBadGateway : Z := 502.
Definition maxRefRecord : Z := 2 ^ 20.

Record lsEntry := mkLs {
  ls_Name : bytes; ls_Mode : Z; ls_UID : Z; ls_GID : Z; ls_MtimeNs : Z; ls_Size : Z; ls_Key : bytes; ls_LinkTarget : bytes; ls_Rdev : list Z;
}.
Record refLine := mkRefLine { rl_Name : bytes; rl_Key : bytes; rl_User : bytes; rl_CreatedAt : Z; rl_Signed : bool }.

(** The last event of a push or a pull. *)
Inductive syncEvent :=
| EvPush (st : PushStats)
| EvPull (root : Key) (st : PullStats)
| EvError (e : error).

(** An answer: a response, a response that was begun and cut off, or the events of a
    push or pull (after its progress). *)
Inductive answer :=
| Plain (status : Z) (contentType : string) (body : bytes)
| Broken (contentType : string)
| Events (ev : syncEvent).

(** One line of the remote's listing of references. *)
Record RefInfo := mkRefInfo { ri_Name : bytes; ri_Key : bytes; ri_User : bytes; ri_CreatedAt : bytes; ri_Signed : bool }.

Class DaemonJson `{Float64} := {
  json_ingest : WriteStats → bytes;
  json_ls : lsEntry → bytes;
  json_ref : refLine → bytes;
  json_info : RefInfo → bytes;
  json_names : list bytes → bytes;
  json_status : Status_ → bytes;
  json_cycle : CycleStats → bytes;
  json_remote : bytes * bytes * bytes → bytes;
  json_preflight : bytes * bytes → bytes;
  json_public_key : bytes → result bytes;     (* the member public_key of a body *)
  tar_bytes : list member → bytes;            (* the archive as bytes *)
  ParseFloat : bytes → result float64;
  f_above1 : float64 → bool;
  f_minus1 : float64;
}.

(** The calls of a client of the remote server. *)
Record rcalls := mkRcalls {
  rc_GetRef : bytes → reply bytes;
  rc_PutRef : bytes → bytes → reply unit;
  rc_ListRefs : reply (list RefInfo);
  rc_Missing : list Key → result (list Key);
  rc_Push : list bytes → result unit;
  rc_Reachable : Key → result (list Key);
  rc_Fetch : list Key → result (list Object);
}.

(** [strconv.ParseUint(s, 10, 64)] *)
Definition ParseUint (s : bytes) : result Z :=
  if (length s =? 0)%nat then Err (errors_New ErrSyntax) else
  match digits_val s 0 with
  | None => Err (errors_New ErrSyntax)
  | Some v => if v >=? 2 ^ 64 then Err (errors_New ErrRange) else Ok v
  end.

Definition parseHexKey (s : bytes) : result Key := raw ← wrap "invalid key %q" (hex_DecodeString s); Key.Parse raw.

(** [?jobs=] and [?batch_bytes=] *)
Definition syncOpts (jobs batch : bytes) : result SyncOpts :=
  j ← (if bool_decide (jobs = []) then Ok 0 else
         match ParseInt jobs with Ok n => if n <=? 0 then Err (errors_New "invalid jobs %q") else Ok n | _ => Err (errors_New "invalid jobs %q") end);
  b ← (if bool_decide (batch = []) then Ok 0 else
         match ParseUint batch with Ok n => if n =? 0 then Err (errors_New "invalid batch_bytes %q") else Ok n | _ => Err (errors_New "invalid batch_bytes %q") end);
  Ok (mkSyncOpts b j 0).

Section daemon.
Context `{Blake3} `{Fuse} `{Zstd} `{Cbor} `{RefCbor} `{Pebble} `{SshSig} `{SshKeys} `{NetUrl} `{RemotesJson} `{Float64} `{!DaemonJson}.
Context (render : error → bytes).

Record daemon := mkDaemon {
  dm_coll : Collector;                      (* with the object store and the references *)
  dm_registry : Registry;
  dm_default : option Signer;
  dm_signers : gmap bytes Signer;
}.

Definition dm_store (d : daemon) : Store := c_objects (dm_coll d).
Definition dm_refs (d : daemon) : DB := c_refs (dm_coll d).
Definition put_coll (c : Collector) (d : daemon) : daemon := mkDaemon c (dm_registry d) (dm_default d) (dm_signers d).
Definition put_stores (s : Store) (db : DB) (d : daemon) : daemon :=
  let c := dm_coll d in put_coll (mkCollector s db (c_opts c) (c_last c) (c_lastErr c) (c_running c)) d.
Definition put_registry (r : Registry) (d : daemon) : daemon := mkDaemon (dm_coll d) r (dm_default d) (dm_signers d).

Definition httpError (status : Z) (e : error) : answer := Plain status "text/plain; charset=utf-8" (render e ++ [x0a]).
(** The status of a result that is not [Ok]; a handler that panics is cut off. *)
Definition failed {A} (status : Z) (r : result A) : answer :=
  match r with Err e => httpError status e | _ => Broken "text/plain; charset=utf-8" end.

(** ** Objects *)
Definition d_postObjects (procs : nat) (sched : list event) (body : bytes) (d : daemon) : answer * daemon :=
  let '(x, s) := WriteParallel procs sched (pack_seq body) verify_opts (dm_store d) in
  let d := put_stores s (dm_refs d) d in
  (match x with
   | Ok (stats, None) => Plain StatusOK "application/json" (json_ingest stats)
   | Ok (_, Some e) =>
       if bool_decide (errors_Is e ErrMalformed) || bool_decide (errors_Is e ErrVerify)
       then httpError StatusUnprocessableEntity e else httpError StatusInternalServerError e
   | r => failed StatusInternalServerError r
   end, d).

(** [Has] for a root, and then the handler [k]. *)
Definition with_root (root : Key) (notFound : string) (k : daemon → answer) (d : daemon) : answer * daemon :=
  let '(has, s) := Has root (dm_store d) in
  let d := put_stores s (dm_refs d) d in
  (match has with
   | Ok true => k d
   | Ok false => httpError StatusNotFound (errors_New notFound)
   | r => failed StatusInternalServerError r
   end, d).

Definition dir_key (k : Key) : bool := (Type_ k =? DirLeaf) || (Type_ k =? DirNode).

Section walks.
Context (at_ : Key → Store) (fuel : nat).
Definition store_get (k : Key) : result bytes := fst (Packstore.Get k (at_ k)).

(** [?path=]: the key it resolves to. *)
Definition with_path (root : Key) (path : bytes) (k : Key → answer) : answer :=
  if bool_decide (path = []) then k root else
  match ResolvePath store_get fuel root path with
  | Ok sub => k sub
  | Err e => if bool_decide (errors_Is e FsRead.ErrNotFound) then httpError StatusNotFound e
             else if bool_decide (errors_Is e FsRead.ErrNotDir) then httpError StatusBadRequest e
             else httpError StatusInternalServerError e
  | r => failed StatusInternalServerError r
  end.

Definition getTar (keyHex path : bytes) (d : daemon) : answer * daemon :=
  match parseHexKey keyHex with
  | Ok root =>
      if negb (dir_key root) then (httpError StatusBadRequest (errors_New "key is not a directory object"), d) else
      with_root root "root object not found" (λ _, with_path root path (λ k,
        match tar_Write store_get fuel fuel k with
        | Ok ms => Plain StatusOK "application/x-tar" (tar_bytes ms)
        | _ => Broken "application/x-tar"
        end)) d
  | r => (failed StatusBadRequest r, d)
  end.

Definition getContentKeys (pick : list error → error) (keyHex path : bytes) (d : daemon) : answer * daemon :=
  match parseHexKey keyHex with
  | Ok root =>
      with_root root "root object not found" (λ _,
        if negb (bool_decide (path = [])) && negb (dir_key root) then httpError StatusBadRequest (errors_New "key is not a directory object") else
        with_path root path (λ k,
          match ReachableKeys pick store_get fuel k with
          | Ok keys => Plain StatusOK "text/plain; charset=utf-8" (concat ((λ k, hex_EncodeToString (kb k) ++ [x0a]) <$> keys))
          | r => failed StatusInternalServerError r
          end)) d
  | r => (failed StatusBadRequest r, d)
  end.

(** One line of a listing. *)
Definition ls_line (ent : FsEncode.Entry) : result lsEntry :=
  '(k, size) ← (if (0 <? length (ContentKey ent))%nat then ck ← Key.Parse (ContentKey ent); Ok (hex_EncodeToString (kb ck), Length ck) else Ok ([], 0));
  let link := (0 <? length (LinkTarget ent))%nat in
  Ok (mkLs (Name ent) (Mode ent) (UID ent) (GID ent) (Mtime ent) (if link then zlen (LinkTarget ent) else size) k
        (if link then LinkTarget ent else []) (Rdev ent)).

Definition ls_step (ent : FsEncode.Entry) (lines : list lsEntry) : result (list lsEntry) := le ← ls_line ent; Ok (lines ++ [le]).

Definition getLs (keyHex path : bytes) (d : daemon) : answer * daemon :=
  match parseHexKey keyHex with
  | Ok root =>
      if negb (dir_key root) then (httpError StatusBadRequest (errors_New "key is not a directory object"), d) else
      with_root root "directory object not found" (λ _, with_path root path (λ k,
        match CollectEntries store_get fuel k with
        | Ok entries =>
            match foldR ls_step entries [] with
            | Ok lines => Plain StatusOK "application/x-ndjson" (concat (json_ls <$> lines))
            | r => failed StatusInternalServerError r
            end
        | r => failed StatusInternalServerError r
        end)) d
  | r => (failed StatusBadRequest r, d)
  end.

(** The length of the content is in the key and declared in the header, so a body that
    ends early is noticed.  Content whose length is not that of its key, which no ingest
    makes, is left out: the server of [net/http] would cut it or break off. *)
Definition getFile (keyHex : bytes) (d : daemon) : answer * daemon :=
  match parseHexKey keyHex with
  | Ok k =>
      if negb (Type_ k =? Blob) && negb (Type_ k =? FileNode)
      then (httpError StatusBadRequest (errors_New "key is not a file-content object"), d) else
      with_root k "file object not found" (λ _,
        match WriteContent store_get write_append fuel k [] with
        | Ok body => Plain StatusOK "application/octet-stream" body
        | _ => Broken "application/octet-stream"
        end) d
  | r => (failed StatusBadRequest r, d)
  end.

(** ** Garbage collection *)
Definition gcWhy (keyHex : bytes) (d : daemon) : answer * daemon :=
  match parseHexKey keyHex with
  | Ok k =>
      let '(r, db) := Why store_get fuel k (dm_refs d) in
      (match r with
       | Ok names => Plain StatusOK "application/json" (json_names names)
       | r => failed StatusInternalServerError r
       end, put_stores (dm_store d) db d)
  | r => (failed StatusUnprocessableEntity r, d)
  end.
End walks.

Definition gcStatus (ctx : nat → option error) (fuel : nat) (sealedAt : Z → Z) (now : Z) (d : daemon) : answer * daemon :=
  let '(r, c) := Gc.Status ctx fuel sealedAt now (dm_coll d) in
  (match r with
   | Ok st => Plain StatusOK "application/json" (json_status st)
   | r => failed StatusInternalServerError r
   end, put_coll c d).

Definition gcRun (env : cycle_env) (fuel : nat) (garbage : bytes) (d : daemon) : answer * daemon :=
  let bad := (httpError StatusUnprocessableEntity (errors_New "garbage must be a fraction <= 1"), d) in
  let run g :=
    let '(r, c) := Run env fuel g (dm_coll d) in
    (match r with
     | Ok stats => Plain StatusOK "application/json" (json_cycle stats)
     | Err e => if bool_decide (errors_Is e ErrCycleRunning) then httpError StatusConflict e else httpError StatusInternalServerError e
     | r => failed StatusInternalServerError r
     end, put_coll c d) in
  if bool_decide (garbage = []) then run f_minus1 else
  match ParseFloat garbage with
  | Ok v => if f_above1 v then bad else run v
  | _ => bad
  end.

(** ** References *)

(** The record of a body that was read: its root. *)
Definition d_putRef_record (name body : bytes) : answer + Key :=
  if zlen body >? maxRefRecord then inl (httpError StatusUnprocessableEntity (errors_New "reference record too large")) else
  match Decode body with
  | Ok rec =>
      if negb (bool_decide (ref_Name rec = name))
      then inl (httpError StatusUnprocessableEntity (errors_New "record name does not match query name")) else
      match Key.Parse (ref_Key rec) with
      | Ok k => inr k
      | r => inl (failed StatusUnprocessableEntity r)
      end
  | r => inl (failed StatusUnprocessableEntity r)
  end.

(** [prepare] is [PrepareRef]. *)
Definition d_putRef (prepare : Key → M unit) (q body : bytes) (d : daemon) : answer * daemon :=
  match refName q with
  | Ok name =>
      let body := take (Z.to_nat (maxRefRecord + 1)) body in
      match d_putRef_record name body with
      | inl a => (a, d)
      | inr k =>
          let '(r, s) := prepare k (dm_store d) in
          match r with
          | Ok _ =>
              let '(r, db) := Refstore.Put name body (dm_refs d) in
              (match r with Ok _ => Plain StatusNoContent "" [] | r => failed StatusInternalServerError r end, put_stores s db d)
          | Err e => (httpError (prepare_status e)
                        (prepare_error "referenced content is incomplete: %s — store objects before the ref" e), put_stores s (dm_refs d) d)
          | r => (failed StatusInternalServerError r, put_stores s (dm_refs d) d)
          end
      end
  | r => (failed StatusUnprocessableEntity r, d)
  end.

Definition ref_line (r : Record_) : result refLine :=
  ref ← Decode (rec_Data r);
  k ← Key.Parse (ref_Key ref);
  Ok (mkRefLine (ref_Name ref) (hex_EncodeToString (kb k)) (ref_User ref) (ref_CreatedAt ref) (0 <? length (ref_Signature ref))%nat).

Definition listRefs (d : daemon) : answer * daemon :=
  let '(r, db) := Refstore.All (dm_refs d) in
  (match (recs ← r; foldR (λ r lines, l ← ref_line r; Ok (lines ++ [l])) recs []) with
   | Ok lines => Plain StatusOK "application/x-ndjson" (concat (json_ref <$> lines))
   | r => failed StatusInternalServerError r
   end, put_stores (dm_store d) db d).

Definition d_getRefs (q : bytes) (d : daemon) : answer * daemon :=
  if bool_decide (q = []) then listRefs d else
  match refName q with
  | Ok name =>
      let '(r, db) := Refstore.Get name (dm_refs d) in
      (match r with
       | Ok data => Plain StatusOK "application/cbor" data
       | Err e => if bool_decide (errors_Is e Refstore.ErrNotFound) then httpError StatusNotFound (errors_New "reference not found")
                  else httpError StatusInternalServerError e
       | r => failed StatusInternalServerError r
       end, put_stores (dm_store d) db d)
  | r => (failed StatusUnprocessableEntity r, d)
  end.

Definition d_deleteRef (q : bytes) (d : daemon) : answer * daemon :=
  match refName q with
  | Ok name =>
      let '(r, db) := Refstore.Delete name (dm_refs d) in
      (match r with
       | Ok _ => Plain StatusNoContent "" []
       | Err e => if bool_decide (errors_Is e Refstore.ErrNotFound) then httpError StatusNotFound (errors_New "reference not found")
                  else httpError StatusInternalServerError e
       | r => failed StatusInternalServerError r
       end, put_stores (dm_store d) db d)
  | r => (failed StatusUnprocessableEntity r, d)
  end.

(** ** Remotes *)
Definition signerFor (name : bytes) (d : daemon) : result Signer :=
  match dm_signers d !! name with
  | Some s => Ok s
  | None => match dm_default d with Some s => Ok s | None => Err (errors_New "no remote signing key configured") end
  end.

(** The client of [?remote=], or the status of a refusal. *)
Definition remoteFor (remote : bytes) (d : daemon) : answer + Client :=
  match rg_Resolve remote (dm_registry d) with
  | Ok (name, rem) =>
      match (signer ← signerFor name d; remote_New (rm_URL rem) signer (rm_ServerKey rem)) with
      | Ok cl => inr cl
      | r => inl (failed StatusUnprocessableEntity r)
      end
  | Err e => inl (httpError (if bool_decide (errors_Is e Remotes.ErrNotFound) then StatusNotFound else StatusUnprocessableEntity) e)
  | r => inl (failed StatusUnprocessableEntity r)
  end.

(** [identity] is what [FetchIdentity] of the address gives. *)
Definition remotePreflight (identity : bytes → result bytes) (u : bytes) : answer :=
  if bool_decide (u = []) then httpError StatusUnprocessableEntity (errors_New "missing url query parameter") else
  match (pubWire ← identity u; pub ← ParsePublicKey pubWire; Ok (pubWire, pub)) with
  | Ok (pubWire, pub) => Plain StatusOK "application/json" (json_preflight (b64_EncodeToString pubWire, FingerprintSHA256 pub))
  | r => failed StatusBadGateway r
  end.

Definition putRemote (name u body : bytes) (d : daemon) : answer * daemon :=
  if bool_decide (name = []) || bool_decide (u = [])
  then (httpError StatusUnprocessableEntity (errors_New "missing name or url query parameter"), d) else
  match (text ← json_public_key body; pubWire ← b64_DecodeString text;
         _ ← wrap "public_key is not a valid SSH key" (ParsePublicKey pubWire); Ok pubWire) with
  | Ok pubWire =>
      let '(r, reg) := rg_Add name (mkRemote u pubWire) (dm_registry d) in
      (match r with
       | Ok _ => Plain StatusNoContent "" []
       | Err e => if bool_decide (errors_Is e ErrExists) then httpError StatusConflict e
                  else if bool_decide (errors_Is e ErrInvalid) then httpError StatusUnprocessableEntity e
                  else httpError StatusInternalServerError e
       | r => failed StatusInternalServerError r
       end, put_registry reg d)
  | r => (failed StatusUnprocessableEntity r, d)
  end.

Definition listRemotes (d : daemon) : answer :=
  Plain StatusOK "application/x-ndjson"
    (concat ((λ n, json_remote (nm_Name n, rm_URL (nm_Remote n),
        match ParsePublicKey (rm_ServerKey (nm_Remote n)) with
        | Ok pub => FingerprintSHA256 pub
        | _ => String.list_byte_of_string "(invalid key)" end)) <$> rg_All (dm_registry d))).

Definition deleteRemote (name : bytes) (d : daemon) : answer * daemon :=
  if bool_decide (name = []) then (httpError StatusUnprocessableEntity (errors_New "missing name query parameter"), d) else
  let '(r, reg) := rg_Remove name (dm_registry d) in
  (match r with
   | Ok _ => Plain StatusNoContent "" []
   | Err e => if bool_decide (errors_Is e Remotes.ErrNotFound) then httpError StatusNotFound e else httpError StatusInternalServerError e
   | r => failed StatusInternalServerError r
   end, put_registry reg d).

(** ** Push and pull *)
Section sync.
Context (calls : Client → rcalls).
Context (pick : list error → error) (at_ : Key → Store) (fuel : nat).

(** The record of a local reference that can be pushed: it is signed. *)
Definition push_record (raw : bytes) : answer + Key :=
  match Decode raw with
  | Ok rec =>
      if (length (ref_Signature rec) =? 0)%nat || (length (ref_PublicKey rec) =? 0)%nat
      then inl (httpError StatusUnprocessableEntity (errors_New "reference is not signed — configure a signing key and re-create it")) else
      match Key.Parse (ref_Key rec) with
      | Ok root => inr root
      | r => inl (failed StatusUnprocessableEntity r)
      end
  | r => inl (failed StatusInternalServerError r)
  end.

Definition remotePush (arrange : list Key → list Key) (order : list (list Key) → list (list Key)) (remote jobs batch name : bytes) (d : daemon) :
    answer * daemon :=
  match remoteFor remote d with
  | inl a => (a, d)
  | inr cl =>
      match syncOpts jobs batch with
      | Ok opts =>
          if bool_decide (name = []) then (httpError StatusUnprocessableEntity (errors_New "missing name query parameter"), d) else
          let '(raw, db) := Refstore.Get name (dm_refs d) in
          let d := put_stores (dm_store d) db d in
          match raw with
          | Ok raw =>
              match push_record raw with
              | inl a => (a, d)
              | inr root =>
                  let rc := calls cl in
                  let '(r, s) := Push pick fuel (store_get at_) (rc_Missing rc) arrange order (rc_Push rc) root opts (dm_store d) in
                  let d := put_stores s (dm_refs d) d in
                  (match r with
                   | Ok stats =>
                       match to_result (rc_PutRef rc name raw) with
                       | Ok _ => Events (EvPush stats)
                       | Err e => Events (EvError e)
                       | _ => Broken "application/x-ndjson"
                       end
                   | Err e => Events (EvError e)
                   | _ => Broken "application/x-ndjson"
                   end, d)
              end
          | Err e => (if bool_decide (errors_Is e Refstore.ErrNotFound) then httpError StatusNotFound (errors_New "reference not found")
                      else httpError StatusInternalServerError e, d)
          | r => (failed StatusInternalServerError r, d)
          end
      | r => (failed StatusUnprocessableEntity r, d)
      end
  end.

(** The remote's record of a name, verified. *)
Definition fetchAndVerifyRemoteRef (rc : rcalls) (name : bytes) : answer + (bytes * Reference) :=
  if bool_decide (name = []) then inl (httpError StatusUnprocessableEntity (errors_New "missing name query parameter")) else
  match to_result (rc_GetRef rc name) with
  | Ok raw =>
      match Decode raw with
      | Ok rec =>
          if (length (ref_Signature rec) =? 0)%nat || (length (ref_PublicKey rec) =? 0)%nat
          then inl (httpError StatusBadGateway (errors_New "remote returned an unsigned reference")) else
          match SignaturePayload rec with
          | Ok payload =>
              match Sshsign.Verify payload (ref_Signature rec) (ref_PublicKey rec) with
              | Ok _ => inr (raw, rec)
              | r => inl (failed StatusBadGateway (wrap "remote reference signature does not verify" r))
              end
          | r => inl (failed StatusInternalServerError r)
          end
      | r => inl (failed StatusBadGateway (wrap "remote returned an invalid reference" r))
      end
  | Err e => inl (httpError (if bool_decide (errors_Is e ErrRefNotFound) then StatusNotFound else StatusBadGateway) e)
  | r => inl (failed StatusBadGateway r)
  end.

Definition remoteLsRefs (remote : bytes) (d : daemon) : answer :=
  match remoteFor remote d with
  | inl a => a
  | inr cl =>
      match to_result (rc_ListRefs (calls cl)) with
      | Ok infos => Plain StatusOK "application/x-ndjson" (concat (json_info <$> infos))
      | r => failed StatusBadGateway r
      end
  end.

(** [missing] is [store.Missing] and [prepare] is [PrepareRef]; the pull is the events
    of [order], at most [turns] turns. *)
Definition remotePull (turns procs : nat) (missing : list Key → M (list Key)) (order : nat → list (list Key) → list (list Key * list event))
    (prepare : Key → M unit) (remote jobs batch name : bytes) (d : daemon) : answer * daemon :=
  match remoteFor remote d with
  | inl a => (a, d)
  | inr cl =>
      match syncOpts jobs batch with
      | Ok opts =>
          let rc := calls cl in
          match fetchAndVerifyRemoteRef rc name with
          | inl a => (a, d)
          | inr (raw, rec) =>
              match Key.Parse (ref_Key rec) with
              | Ok root =>
                  let '(r, s) := Pull turns fuel procs (rc_Reachable rc) missing (rc_Fetch rc) order root opts (dm_store d) in
                  match r with
                  | Ok stats =>
                      let '(r, s) := prepare root s in
                      match r with
                      | Ok _ =>
                          let '(r, db) := Refstore.Put name raw (dm_refs d) in
                          (match r with
                           | Ok _ => Events (EvPull root stats)
                           | Err e => Events (EvError e)
                           | _ => Broken "application/x-ndjson"
                           end, put_stores s db d)
                      | Err e => (Events (EvError e), put_stores s (dm_refs d) d)
                      | _ => (Broken "application/x-ndjson", put_stores s (dm_refs d) d)
                      end
                  | Err e => (Events (EvError e), put_stores s (dm_refs d) d)
                  | _ => (Broken "application/x-ndjson", put_stores s (dm_refs d) d)
                  end
              | r => (failed StatusBadGateway r, d)
              end
          end
      | r => (failed StatusUnprocessableEntity r, d)
      end
  end.
End sync.
End daemon.
