(* ===== verification/DaemonFacts.v ===== *)
(** * The local daemon: guarantees

    A reference is published only for a complete tree, by a local client as well as by
    a pull; the archive of a stored directory and the content of a stored
    file are those of the tree. *)

From Stdlib Require Import Init.Byte.
From S2P Require Import Prelude Machine Key Chunkers FsEncode Instances FsTree FsRead FsWalk PackRecord PackStream Footer FooterFacts Packstore PackstoreRep PackstoreFacts Compact PackstoreSpec Parallel Inbox InboxProtocol InboxSpec Text Sshsign Reference Refstore Gc GcProtocol GcFacts Auth Server Routes Sync Remote Path Posix Ingest IngestFacts PosixFacts Tar TarFacts Remotes Daemon.
From Stdlib Require Import ZifyBool ZifyNat.
Local Open Scope Z_scope.

#[local] Existing Instance InboxProtocol.verified_inv.

(** ** References *)
Section refs.
Context `{Blake3} `{Fuse} `{Zstd} `{Cbor} `{RefCbor} `{Pebble} `{!PebbleLaws} `{SshSig} `{SshKeys} `{NetUrl} `{RemotesJson} `{Float64} `{!DaemonJson}.
Context (render : error → bytes).

(** The daemon's store is open and holds [c]. *)
Definition holding (d : daemon) (c : gmap Key bytes) : Prop := contents (dm_store d) c ∧ closed (dm_store d) = false.

Lemma PrepareRef_contents pick fuel at_ root s c r s' : contents s c → closed s = false →
  PrepareRef pick fuel at_ root s = (r, s') → contents s' c ∧ closed s' = false.
Proof.
  intros Hcs Hc. unfold PrepareRef. destruct (CheckComplete _ _ _ _ _) as [keys|e| |]; try (by intros [= _ <-]).
  unfold ObserveKeys, modM. intros [= _ <-]. destruct (negb (capturing s)); [done|]. destruct (grey s); [|done].
  split; [by apply (contents_frame s)|done].
Qed.

(** A verified record of the remote. *)
Lemma fetch_verified rc name raw rec : fetchAndVerifyRemoteRef render rc name = inr (raw, rec) →
  rc_GetRef rc name = inr raw ∧ name ≠ [] ∧ Decode raw = Ok rec ∧
  ∃ payload, SignaturePayload rec = Ok payload ∧ signed_by (ref_PublicKey rec) payload (ref_Signature rec) RefNamespace.
Proof.
  unfold fetchAndVerifyRemoteRef. case_bool_decide as Hn; [done|]. destruct (rc_GetRef rc name) as [[e|n m|]|raw'] eqn:Hg; cbn [to_result]; [done..|].
  destruct (Decode raw') as [rec'|e| |] eqn:Hd; try done. destruct (_ || _); [done|].
  destruct (SignaturePayload rec') as [payload|e| |] eqn:Hp; try done.
  destruct (Sshsign.Verify payload (ref_Signature rec') (ref_PublicKey rec')) as [k|e| |] eqn:Hv; try done.
  intros [= <- <-]. split_and!; [done..|]. exists payload. split; [done|]. by apply VerifyNamespace_Ok in Hv as [_ ?].
Qed.

(** The outcome of a pull that ends well. *)
Lemma pull_published calls pick at_ fuel turns procs missing order remote jobs batch name d d' c root stats :
  (0 < procs)%nat →
  (∀ cl ks objs, rc_Fetch (calls cl) ks = Ok objs → Forall (λ o, Validate (obj_key o) = Ok tt) objs) →
  (∀ n bs b sched, (b, sched) ∈ order n bs → ∀ o, put_by_others (others_in sched) o) →
  (∀ ks r s1, missing ks (dm_store d) = (r, s1) → contents s1 c ∧ closed s1 = false) →
  holding d c →
  remotePull render calls fuel turns procs missing order (PrepareRef pick fuel at_) remote jobs batch name d = (Events (EvPull root stats), d') →
  ∃ cl raw rec c', remoteFor render remote d = inr cl ∧ rc_GetRef (calls cl) name = inr raw ∧ name ≠ [] ∧
    Decode raw = Ok rec ∧ Key.Parse (ref_Key rec) = Ok root ∧
    (∃ payload, SignaturePayload rec = Ok payload ∧ signed_by (ref_PublicKey rec) payload (ref_Signature rec) RefNamespace) ∧
    db_map (dm_refs d') = <[name := raw]> (db_map (dm_refs d)) ∧ holding d' c' ∧ dom c ⊆ dom c' ∧ complete c' root.
Proof.
  intros Hprocs Hfetch Horder Hmiss [Hcs Hc]. unfold remotePull. destruct (remoteFor render remote d) as [a|cl] eqn:Hrf.
  { intros [= -> _]. exfalso. revert Hrf. unfold remoteFor, failed. repeat case_match; done. }
  destruct (syncOpts jobs batch) as [opts|e| |]; [|done..].
  destruct (fetchAndVerifyRemoteRef render (calls cl) name) as [a|[raw rec]] eqn:Hf.
  { intros [= -> _]. exfalso. revert Hf. unfold fetchAndVerifyRemoteRef, failed. repeat case_match; done. }
  destruct (fetch_verified _ _ _ _ Hf) as (Hg & Hn & Hdec & Hsig).
  destruct (Key.Parse (ref_Key rec)) as [k|e| |] eqn:Hk; [|done..].
  destruct (Pull _ _ _ _ _ _ _ _ _ _) as [[st|e| |] s1] eqn:Hp; [|done..].
  destruct (Pull_kept procs Hprocs (rc_Fetch (calls cl)) order (Hfetch cl) Horder turns fuel (rc_Reachable (calls cl)) missing k opts (dm_store d) c st s1
    Hcs Hc Hmiss Hp) as (c' & Hcs1 & Hc1 & Hdom & Hcomp).
  destruct (PrepareRef pick fuel at_ k s1) as [r2 s2] eqn:Hpr. destruct (PrepareRef_contents _ _ _ _ _ c' _ _ Hcs1 Hc1 Hpr) as [Hcs2 Hc2].
  destruct r2 as [[]|e| |]; [|done..].
  pose proof (Put_law name raw (dm_refs d)) as Hput. destruct (Refstore.Put name raw (dm_refs d)) as [r3 db3]. destruct Hput as (_ & _ & Hok).
  destruct r3 as [[]|e| |]; [|done..]. intros [= <- <- <-]. exists cl, raw, rec, c'. split_and!; try done. by apply Hok.
Qed.

(** A reference that is stored for a client: the answer is 204. *)
Lemma putRef_ok prepare q body d ct b d' : d_putRef render prepare q body d = (Plain StatusNoContent ct b, d') →
  ∃ rec root, zlen body <= maxRefRecord ∧ Decode body = Ok rec ∧ ref_Name rec = q ∧ q ≠ [] ∧ ValidateName q = Ok tt ∧ Key.Parse (ref_Key rec) = Ok root ∧
    prepare root (dm_store d) = (Ok tt, dm_store d') ∧ db_map (dm_refs d') = <[q := body]> (db_map (dm_refs d)).
Proof.
  unfold d_putRef. destruct (refName q) as [name|e| |] eqn:Hq; [|done..].
  assert (name = q ∧ q ≠ [] ∧ ValidateName q = Ok tt) as (-> & Hne & Hv).
  { unfold refName in Hq. case_bool_decide; [done|]. apply bind_Ok in Hq as ([] & Hv & [= <-]). done. }
  set (b0 := take (Z.to_nat (maxRefRecord + 1)) body). destruct (d_putRef_record render q b0) as [a|k] eqn:Hrec.
  { intros [= -> _]. exfalso. revert Hrec. unfold d_putRef_record, failed, httpError. repeat case_match; done. }
  unfold d_putRef_record in Hrec. destruct (zlen b0 >? maxRefRecord) eqn:Elen; [done|].
  assert (b0 = body) as Eb. { unfold b0 in *. apply take_ge. rewrite length_take in Elen. lia. }
  rewrite Eb in *. clear b0 Eb. destruct (Decode body) as [rec|e| |] eqn:Hdec; [|done..].
  case_bool_decide as Hname; [|done]. cbn [negb] in Hrec. destruct (Key.Parse (ref_Key rec)) as [k'|e| |] eqn:Hk; [|done..]. injection Hrec as ->.
  destruct (prepare k (dm_store d)) as [r2 s2] eqn:Hpr. destruct r2 as [[]|e| |]; [| |done..]. 2:{ unfold httpError, prepare_status. by case_match. }
  pose proof (Put_law q body (dm_refs d)) as Hput. destruct (Refstore.Put q body (dm_refs d)) as [r3 db3]. destruct Hput as (_ & _ & Hok).
  destruct r3 as [[]|e| |]; [|done..]. intros [= _ _ <-]. exists rec, k. split_and!; try done; [lia|]. by apply Hok.
Qed.

(** A reference of a local client. *)
Lemma put_published pick at_ fuel q body d d' c :
  (∀ k, contents (at_ k) c ∧ closed (at_ k) = false) → holding d c →
  d_putRef render (PrepareRef pick fuel at_) q body d = (Plain StatusNoContent "" [], d') →
  ∃ rec root, zlen body <= maxRefRecord ∧ Decode body = Ok rec ∧ ref_Name rec = q ∧ ValidateName q = Ok tt ∧ Key.Parse (ref_Key rec) = Ok root ∧
    db_map (dm_refs d') = <[q := body]> (db_map (dm_refs d)) ∧ holding d' c ∧ complete c root.
Proof.
  intros Hat [Hcs Hc] Hput. destruct (putRef_ok _ _ _ _ _ _ _ Hput) as (rec & k & Hlen & Hdec & Hname & _ & Hv & Hk & Hpr & Hdb).
  pose proof (PrepareRef_contents _ _ _ _ _ c _ _ Hcs Hc Hpr) as Hhold. apply PrepareRef_Ok in Hpr as (keys & Hcc & _).
  assert (answered c (λ k, (Packstore.Get k (at_ k)).1) (λ k, (Has k (at_ k)).1)) as Hans.
  { intros x. destruct (Hat x) as [Hcx Hox]. split.
    - destruct (Packstore.Get x (at_ x)) as [r s'] eqn:Hg. cbn [fst]. intros y ->. by eapply (Get_answer _ c x _ _ Hcx Hox Hg).
    - rewrite (Has_answer _ c x Hcx Hox). unfold chas. by rewrite Ok_eq, bool_decide_eq_true. }
  destruct (CheckComplete_complete c pick _ _ fuel k keys Hans Hcc) as [Hcomp _]. by exists rec, k.
Qed.
End refs.

(** ** Archives and files *)
Lemma hex_digits b : hex_digit (hex_char (b2z b / 16)) = Some (b2z b / 16) ∧ hex_digit (hex_char (b2z b mod 16)) = Some (b2z b mod 16).
Proof. destruct b; vm_compute; by split. Qed.

Lemma hex_Decode_Encode b : hex_DecodeString (hex_EncodeToString b) = Ok b.
Proof.
  unfold hex_EncodeToString. induction b as [|x b IH]; [done|]. rewrite fmap_cons. cbn [concat app hex_DecodeString].
  destruct (hex_digits x) as [-> ->]. rewrite IH. rsimpl. f_equal. f_equal.
  rewrite <- (z2b_b2z x) at 3. f_equal. pose proof (Z.div_mod (b2z x) 16). lia.
Qed.

Lemma parseHexKey_hex k : Validate k = Ok tt → parseHexKey (hex_EncodeToString (kb k)) = Ok k.
Proof. intros Hv. unfold parseHexKey. rewrite hex_Decode_Encode. cbn. by apply Parse_Ok. Qed.

(** The children of the directory at a path. *)
Fixpoint subdir (ch : list (bytes * node)) (p : list bytes) : option (list (bytes * node)) :=
  match p with
  | [] => Some ch
  | c :: p => match list_find (λ q : bytes * node, q.1 = c) ch with
              | Some (_, (_, NDir _ ch')) => subdir ch' p
              | _ => None
              end
  end.

(** A directory of well-formed nodes in the order of their names, and one that an archive
    can carry. *)
Definition ordered (ch : list (bytes * node)) : Prop := StronglySorted bytes_lt ch.*1 ∧ Forall (λ p, node_wf p.2) ch.
Definition archived `{UnixDev} (ch : list (bytes * node)) : Prop :=
  StronglySorted bytes_lt ch.*1 ∧ Forall (λ p, node_wf p.2 ∧ exportable [] p.1 p.2 ∧ tar_name p.1) ch.

Lemma fold_split {A : Type} (P Q : A → Prop) l : foldr (λ p R, (P p ∧ Q p) ∧ R) True l ↔ Forall (λ p, P p ∧ Q p) l.
Proof. induction l as [|a l IH]; cbn; [split; [constructor|done]|]. rewrite IH, Forall_cons. done. Qed.

Lemma fold_one {A : Type} (P : A → Prop) l : foldr (λ p R, P p ∧ R) True l ↔ Forall P l.
Proof. induction l as [|a l IH]; cbn; [split; [constructor|done]|]. rewrite IH, Forall_cons. done. Qed.

Lemma ordered_dir m ch : node_wf (NDir m ch) → ordered ch.
Proof. by intros (_ & Hs & Hwf%fold_one). Qed.

Lemma archived_ordered `{UnixDev} ch : archived ch → ordered ch.
Proof. intros [Hs Hall]. split; [done|]. eapply Forall_impl; [exact Hall|]. by intros p []. Qed.

Lemma find_entry `{Cbor} `{UnixDev} log es ch c i q n :
  Forall2 (λ e p, stored log e p.1 p.2) es ch → list_find (λ q : bytes * node, q.1 = c) ch = Some (i, (q, n)) →
  ∃ e, list_find (λ e, Name e = c) es = Some (i, e) ∧ stored log e q n.
Proof.
  intros Hst. revert i. induction Hst as [|e [c0 n0] es ch He _ IH]; intros i; cbn; [done|].
  assert (Name e = c0) as En by (by inversion He as [? ? ? ? ? ? Hent|? ? ? ? ? ? ? Hent|? ? ? ? Hent|? ? ? ? ? Hent|? ? ? Hent|? ? ? Hent]; destruct Hent). 
  cbn in He. rewrite En. destruct (decide (c0 = c)) as [->|Hne].
  - intros [= <- <- <-]. by exists e.
  - destruct (list_find _ ch) as [[j [q' n']]|] eqn:E; [|done]. cbn. intros [= <- -> ->]. destruct (IH j eq_refl) as (e' & -> & He'). by exists e'.
Qed.

Section serving.
Context `{Cbor} `{UnixDev} `{!UnixDevLaws} (get : Key → result bytes) (log : list Object).
Hypothesis get_log : serves get log.

(** The keys of the directories on a path. *)
Lemma resolve_stored p : ∀ k ch ch', Forall plain_name p → stored_children log k ch → ordered ch → subdir ch p = Some ch' →
  ∃ k' F, stored_children log k' ch' ∧ ordered ch' ∧ ∀ fuel, (F ≤ fuel)%nat → foldR (resolve_comp get fuel) p k = Ok k'.
Proof.
  induction p as [|c p IH]; intros k ch ch' Hp Hst Har Hsub.
  { injection Hsub as <-. by exists k, O. }
  apply Forall_cons in Hp as [Hc Hp]. cbn [subdir] in Hsub.
  destruct (list_find _ ch) as [[i [q n]]|] eqn:Hfind; [|done]. destruct n as [|m sub| | | |]; try done.
  destruct Hst as (h & es & Ht & Hes). destruct (find_entry log es ch c i q (NDir m sub) Hes Hfind) as (e & He & Hste).
  assert ((q, NDir m sub) ∈ ch) as Hin by (apply list_find_Some in Hfind as (Hi & _); by eapply list_elem_of_lookup_2).
  destruct Har as [Hs Hall]. rewrite Forall_forall in Hall. pose proof (Hall _ Hin) as Hwf. cbn [snd] in *.
  inversion Hste as [|? ? ? ? k1 h1 es1 Hent Hxs Hck Hv Ht1 Hes1| | | |]; subst.
  destruct (IH k1 sub ch' Hp ltac:(by exists h1, es1) (ordered_dir m sub Hwf) Hsub) as (k' & F & Hst' & Har' & HF).
  exists k', (F + h)%nat. split_and!; [done|done|]. intros fuel Hfuel. cbn [foldR].
  assert (resolve_comp get fuel c k = Ok k1) as ->; [|rsimpl; apply HF; lia].
  unfold resolve_comp. destruct (plain_skip c Hc) as [-> ->].
  rewrite (LookupEntry_spec get log get_log fuel k es c); [|eapply dir_tree_mono; [exact Ht|lia|done]|].
  2:{ unfold names_sorted. by rewrite (stored_names log es ch Hes). }
  unfold lookup_spec. rewrite He. rsimpl. destruct Hent as (_ & Hmode & _). rewrite Hmode, node_mode_type by (by apply (node_wf_meta _ Hwf)).
  cbn. rewrite Hck. by rewrite (proj2 (Parse_Ok (kb k1) k1)).
Qed.

Lemma ResolvePath_names fuel k p : Forall plain_name p → p ≠ [] → ResolvePath get fuel k (join_slash p) = foldR (resolve_comp get fuel) p k.
Proof.
  intros Hp Hn. unfold ResolvePath. f_equal. destruct p as [|c p]; [done|]. by apply (split_path_text false (c :: p)).
Qed.

Lemma stored_root k ch : stored_children log k ch → dir_key k = true ∧ ∃ data, mkObject k data ∈ log.
Proof.
  intros ([|h] & es & Ht & _); [done|]. unfold dir_key. destruct Ht as [(-> & data & Hin & _)|(-> & data & _ & _ & Hin & _)]; split; try done; eauto.
Qed.
End serving.

Section answers.
Context `{Blake3} `{Fuse} `{Zstd} `{Cbor} `{RefCbor} `{Pebble} `{SshSig} `{SshKeys} `{NetUrl} `{RemotesJson} `{Float64} `{!DaemonJson}
  `{UnixDev} `{!UnixDevLaws}.
Context (render : error → bytes).

(** The store stays as it is while it is read, and reads do not fail. *)
Definition still (at_ : Key → Store) (c : gmap Key bytes) : Prop := ∀ k, contents (at_ k) c ∧ closed (at_ k) = false ∧ quiet (at_ k).

Lemma store_serves at_ c log : still at_ c → (∀ o, o ∈ log → c !! obj_key o = Some (obj_bytes o)) → serves (store_get at_) log.
Proof.
  intros Hat Hlog o Ho. destruct (Hat (obj_key o)) as (Hcs & Hc & Hq). unfold store_get.
  destruct (Packstore.Get (obj_key o) (at_ (obj_key o))) as [r s'] eqn:Hg. cbn. destruct (Get_answer _ c _ _ _ Hcs Hc Hg) as (_ & _ & Hok & _).
  by apply Hok, Hlog.
Qed.

Lemma with_root_found root nf k d c data : holding d c → c !! root = Some data →
  ∃ d', with_root render root nf k d = (k d', d').
Proof.
  intros [Hcs Hc] Hd. unfold with_root. rewrite (Has_contents (dm_store d) c root Hcs Hc). unfold chas.
  rewrite bool_decide_eq_true_2 by eauto. eauto.
Qed.

(** The directory that [?path=] names. *)
Lemma with_path_stored at_ c log k ch p ch' :
  still at_ c → (∀ o, o ∈ log → c !! obj_key o = Some (obj_bytes o)) →
  stored_children log k ch → ordered ch → Forall plain_name p → subdir ch p = Some ch' →
  ∃ k' F, stored_children log k' ch' ∧ ordered ch' ∧
    ∀ fuel kont, (F ≤ fuel)%nat → with_path render at_ fuel k (join_slash p) kont = kont k'.
Proof.
  intros Hat Hlog Hst Har Hp Hsub. pose proof (store_serves at_ c log Hat Hlog) as Hget.
  destruct (resolve_stored (store_get at_) log Hget p k ch ch' Hp Hst Har Hsub) as (k' & F & Hst' & Har' & HF).
  exists k', F. split_and!; [done|done|]. intros fuel kont Hfuel. unfold with_path. destruct p as [|c0 p].
  - rewrite bool_decide_eq_true_2 by done. specialize (HF fuel Hfuel). cbn in HF. by injection HF as <-.
  - rewrite bool_decide_eq_false_2.
    + rewrite ResolvePath_names by done. by rewrite HF.
    + apply Forall_cons in Hp as [Hc0 Hp]. destruct Hc0 as [Hne _]. destruct c0; [done|]. by destruct p.
Qed.

Lemma getTar_stored at_ c log k ch p ch' :
  still at_ c → (∀ o, o ∈ log → c !! obj_key o = Some (obj_bytes o)) →
  stored_children log k ch → Validate k = Ok tt → ordered ch → Forall plain_name p → subdir ch p = Some ch' → archived ch' →
  ∃ F, ∀ d fuel, holding d c → (F ≤ fuel)%nat →
    (getTar render at_ fuel (hex_EncodeToString (kb k)) (join_slash p) d).1 = Plain StatusOK "application/x-tar" (tar_bytes (tree_members [] ch')).
Proof.
  intros Hat Hlog Hst Hv Har Hp Hsub [Hs' Hall']. pose proof (store_serves at_ c log Hat Hlog) as Hget.
  destruct (with_path_stored at_ c log k ch p ch' Hat Hlog Hst Har Hp Hsub) as (k' & F1 & Hst' & _ & HF1).
  destruct (export_tree (store_get at_) log Hget k' ch' Hst' Hs' Hall') as [F2 HF2].
  destruct (stored_root log k ch Hst) as [Hty [data Hin]]. exists (F1 + F2)%nat. intros d fuel Hd Hfuel.
  unfold getTar. rewrite parseHexKey_hex, Hty by done. cbn [negb].
  destruct (with_root_found k "root object not found"
    (λ _, with_path render at_ fuel k (join_slash p) (λ k, match tar_Write (store_get at_) fuel fuel k with
        | Ok ms => Plain StatusOK "application/x-tar" (tar_bytes ms) | _ => Broken "application/x-tar" end)) d c data Hd (Hlog _ Hin)) as [d' ->].
  cbn [fst]. rewrite HF1 by lia. by rewrite HF2 by lia.
Qed.

Lemma getFile_stored at_ d c log k h content :
  holding d c → still at_ c → (∀ o, o ∈ log → c !! obj_key o = Some (obj_bytes o)) → file_tree h log k content → Validate k = Ok tt →
  ∀ fuel, (h ≤ fuel)%nat → (getFile render at_ fuel (hex_EncodeToString (kb k)) d).1 = Plain StatusOK "application/octet-stream" content.
Proof.
  intros Hd Hat Hlog Ht Hv fuel Hf. pose proof (store_serves at_ c log Hat Hlog) as Hget. unfold getFile. rewrite parseHexKey_hex by done.
  assert ((Type_ k = Blob ∨ Type_ k = FileNode) ∧ ∃ data, mkObject k data ∈ log) as [Hty [data Hin]].
  { destruct h as [|h]; [done|]. destruct Ht as [(-> & Hin)|(-> & data & kids & Hin & _)]; split; eauto. }
  assert (negb (Type_ k =? Blob) && negb (Type_ k =? FileNode) = false) as -> by (by destruct Hty as [-> | ->]).
  destruct (with_root_found k "file object not found" (λ _, match WriteContent (store_get at_) write_append fuel k [] with
        | Ok body => Plain StatusOK "application/octet-stream" body | _ => Broken "application/octet-stream" end) d c data Hd (Hlog _ Hin)) as [d' ->].
  cbn [fst]. rewrite (WriteContent_spec (store_get at_) log fuel k content Hget) by (by eapply file_tree_mono). done.
Qed.
End answers.
