(* ===== verification/DaemonSpec.v ===== *)
(** * The local daemon: its guarantees, and a run of each *)

From Stdlib Require Import Init.Byte.
From S2P Require Import Prelude Machine Key Chunkers FsEncode Instances FsTree FsRead FsWalk PackRecord PackStream Footer FooterFacts Packstore PackstoreRep PackstoreFacts Compact PackstoreSpec Parallel Inbox InboxProtocol InboxSpec Text Sshsign Reference Refstore Gc GcProtocol GcFacts Auth AuthFacts Server ServerSpec Routes Sync Remote SyncLive Path Posix Ingest IngestFacts PosixFacts IngestSpec Tar TarFacts TarSpec Remotes Daemon DaemonFacts.
From Stdlib Require Import ZifyBool ZifyNat.
Local Open Scope Z_scope.

#[local] Existing Instance InboxProtocol.verified_inv.

Section claims.
Context `{Blake3} `{Fuse} `{Zstd} `{Cbor} `{RefCbor} `{Pebble} `{SshSig} `{SshKeys} `{NetUrl} `{RemotesJson} `{Float64} `{!DaemonJson}.
Context (render : error → bytes).

(** C11. The daemon publishes a reference only over a complete tree.  When [PUT /v1/refs]
    answers 204, the body is a record of at most 1 MiB, under its own valid name, and
    every object below its root is in the store that the check reads.  When a pull
    reports success, the record under [name] is what the remote answered, it carries a
    valid signature over its content by its own key, nothing that was stored is gone,
    and the store holds every object below its root; whatever the remote sends and
    whatever other writers store while the pull runs. *)
Theorem daemon_refs_complete `{!PebbleLaws} pick at_ fuel d d' c :
  holding d c →
  (∀ q body, (∀ k, contents (at_ k) c ∧ closed (at_ k) = false) →
    d_putRef render (PrepareRef pick fuel at_) q body d = (Plain StatusNoContent "" [], d') →
    ∃ rec root, zlen body <= maxRefRecord ∧ Decode body = Ok rec ∧ ref_Name rec = q ∧ ValidateName q = Ok tt ∧ Key.Parse (ref_Key rec) = Ok root ∧
      db_map (dm_refs d') = <[q := body]> (db_map (dm_refs d)) ∧ holding d' c ∧ complete c root) ∧
  (∀ calls turns procs missing order remote jobs batch name root stats,
    (0 < procs)%nat →
    (∀ cl ks objs, rc_Fetch (calls cl) ks = Ok objs → Forall (λ o, Validate (obj_key o) = Ok tt) objs) →
    (∀ n bs b sched, (b, sched) ∈ order n bs → ∀ o, put_by_others (others_in sched) o) →
    (∀ ks r s1, missing ks (dm_store d) = (r, s1) → contents s1 c ∧ closed s1 = false) →
    remotePull render calls fuel turns procs missing order (PrepareRef pick fuel at_) remote jobs batch name d = (Events (EvPull root stats), d') →
    ∃ cl raw rec c', remoteFor render remote d = inr cl ∧ rc_GetRef (calls cl) name = inr raw ∧ name ≠ [] ∧
      Decode raw = Ok rec ∧ Key.Parse (ref_Key rec) = Ok root ∧
      (∃ payload, SignaturePayload rec = Ok payload ∧ signed_by (ref_PublicKey rec) payload (ref_Signature rec) RefNamespace) ∧
      db_map (dm_refs d') = <[name := raw]> (db_map (dm_refs d)) ∧ holding d' c' ∧ dom c ⊆ dom c' ∧ complete c' root).
Proof.
  intros Hd. split.
  - intros q body Hat. by apply put_published.
  - intros calls turns procs missing order remote jobs batch name root stats Hp Hf Ho Hm.
    by apply (pull_published render calls pick at_ fuel turns procs missing order remote jobs batch name d d' c root stats).
Qed.

(** What the daemon serves is what is stored: for a tree whose objects are in the
    store, [GET /v1/tar] of its root and of any path of directories in it answers 200
    with exactly the members of the directory at that path, in order, and [GET
    /v1/file] of a file's key answers 200 with exactly the file's content.  The fuel
    is the height of the trees. *)
Theorem daemon_serves `{UnixDev} `{!UnixDevLaws} at_ d c log :
  holding d c → still at_ c → (∀ o, o ∈ log → c !! obj_key o = Some (obj_bytes o)) →
  (∀ k ch p ch', stored_children log k ch → Validate k = Ok tt → ordered ch → Forall plain_name p → subdir ch p = Some ch' → archived ch' →
    ∃ F, ∀ fuel, (F ≤ fuel)%nat →
      (getTar render at_ fuel (hex_EncodeToString (kb k)) (join_slash p) d).1 =
        Plain StatusOK "application/x-tar" (tar_bytes (tree_members [] ch'))) ∧
  (∀ k h content, file_tree h log k content → Validate k = Ok tt → ∀ fuel, (h ≤ fuel)%nat →
    (getFile render at_ fuel (hex_EncodeToString (kb k)) d).1 = Plain StatusOK "application/octet-stream" content).
Proof.
  intros Hd Hat Hlog. split.
  - intros k ch p ch' Hst Hv Har Hp Hsub Har'. destruct (getTar_stored render at_ c log k ch p ch' Hat Hlog Hst Hv Har Hp Hsub Har') as [F HF].
    exists F. intros fuel. by apply HF.
  - intros k h content. by apply (getFile_stored render at_ d c log k h content).
Qed.
End claims.

(** ** Applications *)
Section examples.
#[local] Existing Instance zstd_example.
#[local] Existing Instance blake3_example.
#[local] Existing Instance cbor_example.
#[local] Existing Instance refcbor_example.
#[local] Existing Instance pebble_example.
#[local] Existing Instance pebble_example_laws.
#[local] Existing Instance sshsig_example.
#[local] Existing Instance sshkeys_example.
#[local] Existing Instance dev_example.
#[local] Existing Instance dev_example_laws.

#[local] Instance url_example : NetUrl := {| url_Parse u := Ok (mkURL "https" u u) |}.
#[local] Instance json_example : RemotesJson := {| rem_Marshal _ := Ok []; rem_Unmarshal _ := Ok ∅ |}.
(** Percent in place of floating point. *)
#[local] Instance percent_example : Float64 := {|
  float64 := Z; f_zero := 0; f_half := 50; f_tenth := 10; f_lt0 f := f <? 0; f_le0 f := f <=? 0;
  f_ratio a b := 100 * a / b; f_reaches f dead total := 100 * dead >=? f * total |}.
#[local] Instance daemon_json_example : DaemonJson := {|
  json_ingest _ := []; json_ls _ := []; json_ref _ := []; json_info := ri_Name; json_names l := concat l; json_status _ := []; json_cycle _ := []; json_remote _ := [];
  json_preflight _ := []; json_public_key b := Ok b; tar_bytes ms := concat (h_Name <$> (fst <$> ms)); ParseFloat _ := Err (errors_New "syntax");
  f_above1 f := f >? 100; f_minus1 := -100 |}.

(** A daemon with an empty store, one remote and a signing key. *)
Definition daemon_of (st : Store) : daemon :=
  mkDaemon (mkCollector st (∅, []) (mkOptions 0 0 0 0 0 0) None None false)
    (mkRegistry (mkRdisk None None []) {[ [x6f] := mkRemote [x68] [x05] ]}) (Some [x02]) ∅.

(** The record of the tree of [root_example] under [name], signed by the key [02]. *)
Definition tree_record (name : bytes) : bytes :=
  let r sig := mkReference name (kb root_example) [x75] 5 sig [x02] in
  put_ref (r (put_sig ([x02], ns_bytes RefNamespace, put_ref (r [])))).
(** The remote answers every name with the record of [a]. *)
Definition calls_example (_ : Client) : rcalls :=
  mkRcalls (λ _, inr (tree_record [x61])) (λ _ _, inr tt) (inr []) (λ _, Ok []) (λ _, Ok tt) (λ _, Ok (obj_key <$> log_example)) fetch_example.
Section pulls.
#[local] Existing Instance fuse_example.
Definition daemon_pull (name : bytes) : answer * daemon :=
  remotePull render_example calls_example 5 2 4 (Missing pick_example 4) order_example
    (PrepareRef pick_example 5 (λ _, snd pull_example)) [] [] [] name (daemon_of empty_example).

Lemma daemon_pull_run name : name ∈ [[x61]; [x62]] → daemon_pull name = (Events (EvPull root_example (mkPullStats 3 201)), (daemon_pull name).2).
Proof.
  intros Hn. rewrite (surjective_pairing (daemon_pull name)) at 1. f_equal. rewrite !elem_of_cons, elem_of_nil in Hn.
  destruct Hn as [->|[->|[]]]; vm_compute; reflexivity.
Qed.

Lemma daemon_refs_complete_witness :
  ∃ c', holding (daemon_pull [x61]).2 c' ∧ complete c' root_example ∧
    db_map (dm_refs (daemon_pull [x61]).2) !! [x61] = Some (tree_record [x61]).
Proof.
  destruct (daemon_refs_complete render_example pick_example (λ _, snd pull_example) 5 (daemon_of empty_example) (daemon_pull [x61]).2 ∅
    (conj contents_empty eq_refl)) as [_ Hpull].
  destruct (Hpull calls_example 2%nat 4%nat (Missing pick_example 4) order_example [] [] [] [x61] root_example (mkPullStats 3 201)
    ltac:(lia) (λ _, fetch_valid) order_valid missing_keeps (daemon_pull_run [x61] ltac:(left))) as (cl & raw & rec & c' & _ & Hg & _ & _ & _ & _ & Hdb & Hh & _ & Hc).
  exists c'. split_and!; [exact Hh|exact Hc|]. rewrite Hdb, lookup_insert_eq. injection Hg as <-. reflexivity.
Defined.

(** The name that a pull stores under is the one that was asked for, also when the
    signed record of the remote is that of another reference. *)
Example pull_other_name :
  (daemon_pull [x62]).1 = Events (EvPull root_example (mkPullStats 3 201)) ∧
  db_map (dm_refs (daemon_pull [x62]).2) !! [x62] = Some (tree_record [x61]).
Proof. split; vm_compute; reflexivity. Qed.
(** The daemon itself refuses such a record from a client. *)
Example put_other_name :
  d_putRef_record render_example [x62] (tree_record [x61]) =
    inl (httpError render_example StatusUnprocessableEntity (errors_New "record name does not match query name")).
Proof. vm_compute. reflexivity. Qed.

End pulls.

(** A store that objects are written to, one by one. *)
Section reads.
#[local] Existing Instance fuse_open.
Definition put_all (log : list Object) (s : Store) : Store := foldl (λ s o, snd (Packstore.Put (obj_key o) (obj_bytes o) s)) s log.

Lemma put_all_contents log : ∀ s c, contents s c → closed s = false → Packstore.failed s = None → healthy s →
  Forall verified_object log → NoDup (obj_key <$> log) → (∀ o, o ∈ log → c !! obj_key o = None) →
  ∃ c', contents (put_all log s) c' ∧ closed (put_all log s) = false ∧ quiet (put_all log s) ∧
    (∀ k d, c !! k = Some d → c' !! k = Some d) ∧ ∀ o, o ∈ log → c' !! obj_key o = Some (obj_bytes o).
Proof.
  induction log as [|o log IH]; intros s c Hcs Hc Hf Hh Hv Hnd Hnew.
  { exists c. split_and!; try done; [apply Hh|]. by intros o ?%elem_of_nil. }
  apply Forall_cons in Hv as [(Hval & Hver & Hmax) Hv]. rewrite fmap_cons in Hnd. apply NoDup_cons in Hnd as [Hno Hnd].
  pose proof (Put_spec s c _ _ Hcs Hc Hf Hval Hver) as Hp. unfold wp in Hp. cbn [put_all foldl]. destruct (observed_same (obj_key o) s) as (_ & _ & _ & Hf' & Hc' & Hio).
  destruct (Packstore.Put (obj_key o) (obj_bytes o) s) as [r s1]. destruct Hp as (_ & Hb & Hok & c1 & Hc1 & _ & Hput). cbn [fst snd] in *.
  destruct Hok as (-> & Hq1 & Hf1); [unfold healthy, quiet in *; by rewrite Hio|congruence|done|]. rewrite Hput in Hc1 by done. clear Hput.
  unfold put_absent in Hc1. rewrite (Hnew o) in Hc1 by left.
  destruct (IH s1 (<[obj_key o := obj_bytes o]> c) Hc1) as (c' & Hcs' & Hcl' & Hq' & Hold & Hall); try done.
  - unfold base in Hb. simpl in Hb. congruence.
  - intros o' Ho'. rewrite lookup_insert_ne; [apply Hnew; by right|]. intros E. apply Hno. rewrite E. by apply list_elem_of_fmap_2.
  - exists c'. split_and!; try done.
    + intros k d Hk. apply Hold. rewrite lookup_insert_ne; [done|]. intros <-. rewrite (Hnew o) in Hk by left. done.
    + intros o' [->|Ho']%elem_of_cons; [apply Hold, lookup_insert_eq|by apply Hall].
Qed.

Lemma verified_all log :
  forallb (λ o, is_ok (Validate (obj_key o)) && is_ok (verifyObject (obj_key o) (obj_bytes o)) && (zlen (obj_bytes o) <=? MaxPayload)) log = true →
  Forall verified_object log.
Proof.
  rewrite forallb_forall, Forall_forall. intros Hall o Ho%list_elem_of_In. specialize (Hall o Ho). unfold verified_object.
  destruct (Validate (obj_key o)) as [[]|e| |], (verifyObject (obj_key o) (obj_bytes o)) as [[]|e'| |]; try done. cbn in Hall. split_and!; [done..|lia].
Qed.

Definition stored_store : Store := put_all TarSpec.stored_example.2 empty_example.

Lemma stored_store_holds : ∃ c, contents stored_store c ∧ closed stored_store = false ∧ quiet stored_store ∧
  ∀ o, o ∈ TarSpec.stored_example.2 → c !! obj_key o = Some (obj_bytes o).
Proof.
  destruct (put_all_contents TarSpec.stored_example.2 empty_example ∅ (good_contents _ _ _ good_empty) eq_refl eq_refl) as (c & Hcs & Hc & Hq & _ & Hlog).
  - split; [apply Forall_nil_2|apply fuse_open_builds].
  - apply verified_all. vm_compute. reflexivity.
  - apply (bool_decide_unpack _). vm_compute. exact I.
  - intros o _. apply lookup_empty.
  - exists c. exact (conj Hcs (conj Hc (conj Hq Hlog))).
Qed.

Lemma archived_example : archived [([x66], file_node); ([x6c], link_node)].
Proof. split; [repeat constructor|]. eapply Forall_impl; [exact portable_example|]. by intros p (? & ? & ? & _). Qed.

Lemma daemon_serves_witness :
  ∃ F, ∀ fuel, (F ≤ fuel)%nat →
    (getTar render_example (λ _, stored_store) fuel (hex_EncodeToString (kb TarSpec.stored_example.1)) [] (daemon_of stored_store)).1 =
      Plain StatusOK "application/x-tar" [x66; x6c].
Proof.
  destruct stored_store_holds as (c & Hcs & Hc & Hq & Hlog).
  destruct (daemon_serves render_example (λ _, stored_store) (daemon_of stored_store) c TarSpec.stored_example.2
    (conj Hcs Hc) (λ _, conj Hcs (conj Hc Hq)) Hlog) as [Htar _].
  destruct (Htar TarSpec.stored_example.1 [([x66], file_node); ([x6c], link_node)] [] [([x66], file_node); ([x6c], link_node)]
    stored_children_example ltac:(vm_compute; reflexivity) (archived_ordered _ archived_example) ltac:(constructor) eq_refl archived_example) as [F HF].
  exists F. intros fuel Hf. change (join_slash []) with (@nil byte) in HF. rewrite (HF fuel Hf). reflexivity.
Defined.
End reads.
End examples.
