(* ===== verification/Client.v ===== *)
(** * Package [client]: the client of the local daemon
    ([client.go], [refs.go], [gc.go], [remote.go]), and the daemon's table of routes

    A call writes a method, a target and a body, and reads a response; what happens in
    between is any function [Do].  [d_serve] is the daemon behind such a connection: it
    splits the target, decodes the query and runs the handler.  JSON is the class
    [ClientJson]; the address of a request is fixed and dialing is left out. *)

From Stdlib Require Import Init.Byte.
From S2P Require Import Prelude Machine Key Chunkers FsEncode FsTree FsRead FsWalk PackRecord PackStream Footer Packstore Compact Parallel Inbox Text Sshsign Reference Refstore Gc Auth Server Routes Sync Remote Ingest Tar Remotes Daemon.
From Stdlib Require Import ZifyBool ZifyNat.
Local Open Scope Z_scope.

(** A result that is not [Ok], at another type. *)
Definition err_of {A B} (r : result A) : result B := match r with Err e => Err e | Diverge => Diverge | _ => Panic end.

(** ** Targets and queries *)

(** [url.QueryUnescape] *)
Fixpoint QueryUnescape (s : bytes) : result bytes :=
  match s with
  | [] => Ok []
  | c :: s =>
      if bool_decide (c = x25) then
        match s with
        | a :: b :: s =>
            match hex_digit a, hex_digit b with
            | Some x, Some y => rest ← QueryUnescape s; Ok (z2b (16 * x + y) :: rest)
            | _, _ => Err (errors_New "invalid URL escape")
            end
        | _ => Err (errors_New "invalid URL escape")
        end
      else rest ← QueryUnescape s; Ok ((if bool_decide (c = x2b) then x20 else c) :: rest)
  end.

(** [strings.Cut] at a byte. *)
Fixpoint cut (sep : byte) (s : bytes) : bytes * option bytes :=
  match s with
  | [] => ([], None)
  | c :: s => if bool_decide (c = sep) then ([], Some s) else let '(a, b) := cut sep s in (c :: a, b)
  end.

(** [strings.Split] at a byte. *)
Fixpoint split_at (sep : byte) (s : bytes) : list bytes :=
  match s with
  | [] => [[]]
  | c :: s => if bool_decide (c = sep) then [] :: split_at sep s
              else match split_at sep s with p :: ps => (c :: p) :: ps | [] => [[c]] end
  end.

(** One pair of a query; a pair that is malformed is left out. *)
Definition query_pair (p : bytes) : option (bytes * bytes) :=
  if bool_decide (p = []) || bool_decide (x3b ∈ p) then None else
  let '(k, v) := cut x3d p in
  match QueryUnescape k, QueryUnescape (default [] v) with
  | Ok k, Ok v => Some (k, v)
  | _, _ => None
  end.

(** [r.URL.Query()] and its [Get]. *)
Definition url_Query (q : bytes) : list (bytes * bytes) := omap query_pair (split_at x26 q).
Definition query_Get (name : string) (q : list (bytes * bytes)) : bytes :=
  match list_find (λ p : bytes * bytes, p.1 = str name) q with Some (_, p) => p.2 | None => [] end.

(** ** The routes of the daemon ([NewWithRemotes]) *)
Inductive droute :=
| RObjects | RTar (key : bytes) | RFile (key : bytes) | RLs (key : bytes) | RContentKeys (key : bytes)
| RPutRef | RGetRefs | RDeleteRef | RGcStatus | RGcRun | RGcWhy
| RPreflight | RPutRemote | RListRemotes | RDeleteRemote | RPush | RPull | RRemoteRefs.

(** A path of plain segments.  The mux itself answers a request that matches no route,
    and serves HEAD where there is GET; the client sends neither. *)
Definition d_route (method path : bytes) : option droute :=
  let at_ := λ (m : string) (p : list string), bool_decide (method = str m ∧ split_slash path = [] :: (str <$> p)) in
  match split_slash path with
  | [e; v; kind; key] =>
      if bool_decide (e = [] ∧ v = str "v1" ∧ key ≠ [] ∧ method = str "GET") then
        if bool_decide (kind = str "tar") then Some (RTar key) else
        if bool_decide (kind = str "file") then Some (RFile key) else
        if bool_decide (kind = str "ls") then Some (RLs key) else
        if bool_decide (kind = str "content-keys") then Some (RContentKeys key) else
        if at_ "GET" ["v1"; "gc"; "status"]%string then Some RGcStatus else
        if at_ "GET" ["v1"; "gc"; "why"]%string then Some RGcWhy else
        if at_ "GET" ["v1"; "remote"; "refs"]%string then Some RRemoteRefs else None
      else
        if at_ "POST" ["v1"; "gc"; "run"]%string then Some RGcRun else
        if at_ "POST" ["v1"; "remotes"; "preflight"]%string then Some RPreflight else
        if at_ "POST" ["v1"; "remote"; "push"]%string then Some RPush else
        if at_ "POST" ["v1"; "remote"; "pull"]%string then Some RPull else None
  | _ =>
      if at_ "POST" ["v1"; "objects"]%string then Some RObjects else
      if at_ "PUT" ["v1"; "refs"]%string then Some RPutRef else
      if at_ "GET" ["v1"; "refs"]%string then Some RGetRefs else
      if at_ "DELETE" ["v1"; "refs"]%string then Some RDeleteRef else
      if at_ "PUT" ["v1"; "remotes"]%string then Some RPutRemote else
      if at_ "GET" ["v1"; "remotes"]%string then Some RListRemotes else
      if at_ "DELETE" ["v1"; "remotes"]%string then Some RDeleteRemote else None
  end.

(** ** Responses *)
Record dresp := mkDresp { ds_Status : Z; ds_Body : bytes; ds_ReadErr : option error }.

(** A value of a JSON stream with what follows it, the end of the stream, or an error. *)
Inductive decoded (A : Type) :=
| Value (a : A) (rest : bytes)
| EndOfStream
| BadJson (e : error).
Arguments Value {A}. Arguments EndOfStream {A}. Arguments BadJson {A}.

(** An event of a push or a pull, as the client reads it. *)
Record cevent := mkCevent { ev_Done : Z; ev_Total : Z; ev_Push : option PushStats; ev_Pull : option PullStats; ev_Key : bytes; ev_Error : bytes }.
Record RemoteInfo := mkRemoteInfo { rmi_Name : bytes; rmi_URL : bytes; rmi_Fingerprint : bytes }.
Record PreflightInfo := mkPreflight { pf_PublicKey : bytes; pf_Fingerprint : bytes; pf_KeyType : bytes }.

Class ClientJson `{Float64} := {
  d_Stats : bytes → option error → result WriteStats;   (* [Decode] of a body, with the error that ends it *)
  d_Status : bytes → option error → result Status_;
  d_Cycle : bytes → option error → result CycleStats;
  d_names : bytes → option error → result (list bytes);
  d_preflight : bytes → option error → result PreflightInfo;
  d_Entry : bytes → option error → decoded lsEntry;
  d_RefInfo : bytes → option error → decoded RefInfo;
  d_RemoteInfo : bytes → option error → decoded RemoteInfo;
  d_event : bytes → result cevent;
  json_public : bytes → result bytes;                    (* the object with the member public_key *)
  json_event : syncEvent → bytes;                        (* written by the daemon *)
  f_ge0 : float64 → bool;
  FormatFloat : float64 → bytes;
}.

(** ** The daemon behind a connection *)
Section serve.
Context `{Blake3} `{Fuse} `{Zstd} `{Cbor} `{RefCbor} `{Pebble} `{SshSig} `{SshKeys} `{NetUrl} `{RemotesJson} `{Float64} `{!DaemonJson} `{!ClientJson}.
Context (render : error → bytes).

(** What a request meets: how its reads, its writes and its calls turn out. *)
Record denv := mkDenv {
  de_at : Key → Store;
  de_fuel : nat;
  de_pick : list error → error;
  de_procs : nat;
  de_sched : list event;
  de_prepare : Key → M unit;
  de_ctx : nat → option error;
  de_sealedAt : Z → Z;
  de_now : Z;
  de_cycle : cycle_env;
  de_calls : Remote.Client → rcalls;
  de_identity : bytes → result bytes;
  de_arrange : list Key → list Key;
  de_order : list (list Key) → list (list Key);
  de_turns : nat;
  de_missing : list Key → M (list Key);
  de_pull_order : nat → list (list Key) → list (list Key * list event);
  de_progress : list bytes;            (* the progress lines before the last event *)
  de_cut : bytes;                      (* what arrives of a response that is cut off *)
}.

Definition d_handle (env : denv) (r : droute) (q : list (bytes * bytes)) (body : bytes) (d : daemon) : answer * daemon :=
  let arg := λ name, query_Get name q in
  match r with
  | RObjects => d_postObjects render (de_procs env) (de_sched env) body d
  | RTar k => getTar render (de_at env) (de_fuel env) k (arg "path") d
  | RFile k => getFile render (de_at env) (de_fuel env) k d
  | RLs k => getLs render (de_at env) (de_fuel env) k (arg "path") d
  | RContentKeys k => getContentKeys render (de_at env) (de_fuel env) (de_pick env) k (arg "path") d
  | RPutRef => d_putRef render (de_prepare env) (arg "name") body d
  | RGetRefs => d_getRefs render (arg "name") d
  | RDeleteRef => d_deleteRef render (arg "name") d
  | RGcStatus => gcStatus render (de_ctx env) (de_fuel env) (de_sealedAt env) (de_now env) d
  | RGcRun => gcRun render (de_cycle env) (de_fuel env) (arg "garbage") d
  | RGcWhy => gcWhy render (de_at env) (de_fuel env) (arg "key") d
  | RPreflight => (remotePreflight render (de_identity env) (arg "url"), d)
  | RPutRemote => putRemote render (arg "name") (arg "url") body d
  | RListRemotes => (listRemotes d, d)
  | RDeleteRemote => deleteRemote render (arg "name") d
  | RPush => remotePush render (de_calls env) (de_pick env) (de_at env) (de_fuel env) (de_arrange env) (de_order env)
               (arg "remote") (arg "jobs") (arg "batch_bytes") (arg "name") d
  | RPull => remotePull render (de_calls env) (de_fuel env) (de_turns env) (de_procs env) (de_missing env) (de_pull_order env) (de_prepare env)
               (arg "remote") (arg "jobs") (arg "batch_bytes") (arg "name") d
  | RRemoteRefs => (remoteLsRefs render (de_calls env) (arg "remote") d, d)
  end.

(** What the client sees of an answer. *)
Definition on_wire (env : denv) (a : answer) : result dresp :=
  match a with
  | Plain status _ body => Ok (mkDresp status body None)
  | Events ev => Ok (mkDresp StatusOK (concat ((λ l, l ++ [x0a]) <$> de_progress env) ++ json_event ev) None)
  | Broken ct =>
      if String.eqb ct "text/plain; charset=utf-8" then Err (errors_New "EOF")
      else Ok (mkDresp StatusOK (de_cut env) (Some (errors_New "unexpected EOF")))
  end.

Definition d_serve (env : denv) (method target body : bytes) (d : daemon) : result dresp * daemon :=
  let '(path, q) := cut x3f target in
  match d_route method path with
  | Some r => let '(a, d) := d_handle env r (url_Query (default [] q)) body d in (on_wire env a, d)
  | None => (Ok (mkDresp StatusNotFound [] None), d)
  end.
End serve.

(** ** The calls *)
Definition client_ErrRefNotFound : string := "reference not found".
Definition ErrRemoteRefNotFound : string := "remote reference not found".
Definition client_ErrCycleRunning : string := "a gc cycle is already running".

Section client.
Context `{Float64} `{!ClientJson} `{RefCbor}.
Context {W : Type} (Do : bytes → bytes → bytes → W → result dresp * W).

(** A request whose response must have the status [want]. *)
Definition request {A} (method target body : bytes) (on : dresp → result A) (w : W) : result A * W :=
  let '(r, w) := Do method target body w in
  (match r with Ok resp => on resp | r => err_of (wrap "contacting daemon at %s" r) end, w).
Definition expect {A} (want : Z) (msg : string) (k : dresp → result A) (resp : dresp) : result A :=
  if negb (ds_Status resp =? want) then Err (errors_New msg) else k resp.

(** The values of a stream until its end. *)
Fixpoint decode_loop {A} (dec : bytes → option error → decoded A) (msg : string) (fuel : nat) (b : bytes) (rerr : option error) (acc : list A) :
    result (list A) :=
  match fuel with
  | O => Diverge
  | S fuel =>
      match dec b rerr with
      | Value a rest => decode_loop dec msg fuel rest rerr (acc ++ [a])
      | EndOfStream => Ok acc
      | BadJson e => Err (Errorf msg e)
      end
  end.
Definition decode_stream {A} (dec : bytes → option error → decoded A) (msg : string) (resp : dresp) : result (list A) :=
  decode_loop dec msg (S (length (ds_Body resp))) (ds_Body resp) (ds_ReadErr resp) [].

(** [bufio.Scanner] over lines, with a buffer of [limit] bytes: the lines and the error
    that ended them. *)
Fixpoint scan_tokens (limit : nat) (ls : list bytes) (rerr : option error) : list bytes * option error :=
  match ls with
  | [] => ([], rerr)
  | [l] => if (length l =? 0)%nat then ([], rerr) else if (limit <=? length l)%nat then ([], Some (errors_New "bufio.Scanner: token too long")) else ([drop_cr l], rerr)
  | l :: ls =>
      if (limit <=? length l)%nat then ([], Some (errors_New "bufio.Scanner: token too long"))
      else let '(ts, e) := scan_tokens limit ls rerr in (drop_cr l :: ts, e)
  end.
Definition scan_lines (limit : nat) (resp : dresp) : list bytes * option error := scan_tokens limit (split_at x0a (ds_Body resp)) (ds_ReadErr resp).

Definition path_query (path : bytes) : bytes := if bool_decide (path = []) then [] else str "?path=" ++ QueryEscape path.
Definition hex_key (k : Key) : bytes := hex_EncodeToString (kb k).

(** [client.go] *)
Definition c_Ingest (body : bytes) : W → result WriteStats * W :=
  request (str "POST") (str "/v1/objects") body (expect StatusOK "ingest failed: %s: %s" (λ resp,
    wrap "decoding ingest response" (d_Stats (ds_Body resp) (ds_ReadErr resp)))).

Definition c_Ls (k : Key) (path : bytes) : W → result (list lsEntry) * W :=
  request (str "GET") (str "/v1/ls/" ++ hex_key k ++ path_query path) []
    (expect StatusOK "ls request failed: %s: %s" (decode_stream d_Entry "decoding ls response")).

Definition c_ContentKeys (k : Key) (path : bytes) : W → result (list bytes) * W :=
  request (str "GET") (str "/v1/content-keys/" ++ hex_key k ++ path_query path) []
    (expect StatusOK "content-keys request failed: %s: %s" (λ resp,
      match scan_lines (Z.to_nat 65536) resp with
      | (_, Some e) => Err (Errorf "reading content-keys response" e)
      | (ls, None) => Ok (filter (λ l, l ≠ []) ls)
      end)).

(** A body that the caller reads, with the error that ends it. *)
Definition c_Tar (k : Key) (path : bytes) : W → result (bytes * option error) * W :=
  request (str "GET") (str "/v1/tar/" ++ hex_key k ++ path_query path) []
    (expect StatusOK "tar request failed: %s: %s" (λ resp, Ok (ds_Body resp, ds_ReadErr resp))).
Definition c_File (ck : Key) : W → result (bytes * option error) * W :=
  request (str "GET") (str "/v1/file/" ++ hex_key ck) []
    (expect StatusOK "file request failed: %s: %s" (λ resp, Ok (ds_Body resp, ds_ReadErr resp))).

(** [refs.go] *)
Definition refsURL (name : bytes) : bytes := str "/v1/refs" ++ (if bool_decide (name = []) then [] else str "?name=" ++ QueryEscape name).

Definition c_PutRef (rec : Reference) (w : W) : result unit * W :=
  match Encode rec with
  | Ok body => request (str "PUT") (refsURL (ref_Name rec)) body (expect StatusNoContent "put-ref failed: %s: %s" (λ _, Ok tt)) w
  | r => (err_of r, w)
  end.

(** [io.ReadAll] of at most [n] bytes *)
Definition read_at_most (n : Z) (resp : dresp) : result bytes :=
  if zlen (ds_Body resp) <? n then match ds_ReadErr resp with Some e => Err e | None => Ok (ds_Body resp) end
  else Ok (take (Z.to_nat n) (ds_Body resp)).

Definition c_GetRef (name : bytes) : W → result Reference * W :=
  request (str "GET") (refsURL name) [] (λ resp,
    if ds_Status resp =? StatusNotFound then Err (Errorf "reference %q" (errors_New client_ErrRefNotFound)) else
    expect StatusOK "get-ref failed: %s: %s" (λ resp,
      body ← wrap "reading get-ref response" (read_at_most (2 ^ 20) resp);
      wrap "get-ref" (Decode body)) resp).

Definition c_ListRefs : W → result (list RefInfo) * W :=
  request (str "GET") (refsURL []) [] (expect StatusOK "list-refs failed: %s: %s" (decode_stream d_RefInfo "decoding list-refs response")).

Definition c_DeleteRef (name : bytes) : W → result unit * W :=
  request (str "DELETE") (refsURL name) [] (λ resp,
    if ds_Status resp =? StatusNotFound then Err (Errorf "reference %q" (errors_New client_ErrRefNotFound)) else
    expect StatusNoContent "delete-ref failed: %s: %s" (λ _, Ok tt) resp).

(** [gc.go] *)
Definition c_GCStatus : W → result Status_ * W :=
  request (str "GET") (str "/v1/gc/status") [] (expect StatusOK "gc-status failed: %s: %s" (λ resp,
    wrap "decoding gc status" (d_Status (ds_Body resp) (ds_ReadErr resp)))).

Definition c_GCRun (garbage : float64) : W → result CycleStats * W :=
  request (str "POST") (str "/v1/gc/run" ++ (if f_ge0 garbage then str "?garbage=" ++ QueryEscape (FormatFloat garbage) else [])) [] (λ resp,
    if ds_Status resp =? StatusConflict then Err (errors_New client_ErrCycleRunning) else
    expect StatusOK "gc-run failed: %s: %s" (λ resp, wrap "decoding gc stats" (d_Cycle (ds_Body resp) (ds_ReadErr resp))) resp).

Definition c_GCWhy (k : Key) : W → result (list bytes) * W :=
  request (str "GET") (str "/v1/gc/why?key=" ++ hex_key k) [] (expect StatusOK "gc-why failed: %s: %s" (λ resp,
    wrap "decoding gc why" (d_names (ds_Body resp) (ds_ReadErr resp)))).

(** [remote.go] *)
Definition c_RemotePreflight (u : bytes) : W → result PreflightInfo * W :=
  request (str "POST") (str "/v1/remotes/preflight?url=" ++ QueryEscape u) [] (expect StatusOK "preflight failed: %s: %s" (λ resp,
    info ← wrap "decoding preflight response" (d_preflight (ds_Body resp) (ds_ReadErr resp));
    pubWire ← b64_DecodeString (pf_PublicKey info);
    Ok (mkPreflight pubWire (pf_Fingerprint info) (pf_KeyType info)))).

Definition c_RemoteAdd (name u publicKey : bytes) (w : W) : result unit * W :=
  match json_public (b64_EncodeToString publicKey) with
  | Ok body => request (str "PUT") (str "/v1/remotes?name=" ++ QueryEscape name ++ str "&url=" ++ QueryEscape u) body
                 (expect StatusNoContent "remote add failed: %s: %s" (λ _, Ok tt)) w
  | r => (err_of r, w)
  end.

Definition c_RemoteRemove (name : bytes) : W → result unit * W :=
  request (str "DELETE") (str "/v1/remotes?name=" ++ QueryEscape name) [] (expect StatusNoContent "remote rm failed: %s: %s" (λ _, Ok tt)).

Definition c_RemoteList : W → result (list RemoteInfo) * W :=
  request (str "GET") (str "/v1/remotes") [] (expect StatusOK "remote ls failed: %s: %s" (decode_stream d_RemoteInfo "decoding remote listing")).

(** One line of a sync: the last event so far and the progress that was shown. *)
Definition sync_line (line : bytes) (st : option cevent * list (Z * Z)) : result (option cevent * list (Z * Z)) :=
  let '(lst, shown) := st in
  if (length (TrimSpace line) =? 0)%nat then Ok st else
  ev ← wrap "decoding sync event" (d_event line);
  if negb (bool_decide (ev_Error ev = [])) then Err (errors_New "sync failed: %s") else
  match ev_Push ev, ev_Pull ev with
  | None, None => Ok (lst, shown ++ [(ev_Done ev, ev_Total ev)])
  | _, _ => Ok (Some ev, shown)
  end.

Definition sync_stream (resp : dresp) : result cevent :=
  let '(ls, serr) := scan_lines (Z.to_nat (2 ^ 20)) resp in
  '(lst, _) ← foldR sync_line ls (None, []);
  match serr with
  | Some e => Err e
  | None => match lst with Some ev => Ok ev | None => Err (errors_New "sync stream ended without a final event (connection cut?)") end
  end.

Definition runSync (pathQuery : bytes) : W → result cevent * W :=
  request (str "POST") pathQuery [] (λ resp,
    if negb (ds_Status resp =? StatusOK)
    then Err (if ds_Status resp =? StatusNotFound then Errorf "%w: %s" (errors_New ErrRemoteRefNotFound) else errors_New "sync failed: %s: %s")
    else sync_stream resp).

(** The members of a query, in the order of their names. *)
Fixpoint join_and (parts : list bytes) : bytes :=
  match parts with [] => [] | [p] => p | p :: parts => p ++ [x26] ++ join_and parts end.
Definition pair_text (name : string) (v : bytes) : bytes := str name ++ [x3d] ++ QueryEscape v.
Definition syncQuery (remote name : bytes) (jobs batchBytes : Z) : bytes :=
  str "?" ++ join_and ((if batchBytes >? 0 then [pair_text "batch_bytes" (FormatInt batchBytes)] else []) ++
                       (if jobs >? 0 then [pair_text "jobs" (FormatInt jobs)] else []) ++ [pair_text "name" name] ++
                       (if bool_decide (remote = []) then [] else [pair_text "remote" remote])).

Definition c_RemotePush (remote name : bytes) (jobs batchBytes : Z) (w : W) : result PushStats * W :=
  let '(r, w) := runSync (str "/v1/remote/push" ++ syncQuery remote name jobs batchBytes) w in
  (ev ← r; match ev_Push ev with Some st => Ok st | None => Err (errors_New "sync stream ended without push stats") end, w).

Definition c_RemotePull (remote name : bytes) (jobs batchBytes : Z) (w : W) : result (PullStats * bytes) * W :=
  let '(r, w) := runSync (str "/v1/remote/pull" ++ syncQuery remote name jobs batchBytes) w in
  (ev ← r; match ev_Pull ev with Some st => Ok (st, ev_Key ev) | None => Err (errors_New "sync stream ended without pull stats") end, w).

Definition c_RemoteLsRefs (remote : bytes) : W → result (list RefInfo) * W :=
  request (str "GET") (str "/v1/remote/refs" ++ (if bool_decide (remote = []) then [] else str "?" ++ pair_text "remote" remote)) []
    (expect StatusOK "remote ls-refs failed: %s: %s" (decode_stream d_RefInfo "decoding remote ref listing")).
End client.
