(* ===== verification/ClientFacts.v ===== *)
(** * The client of the daemon: what it sends is what the daemon reads *)

From Stdlib Require Import Init.Byte.
From S2P Require Import Prelude Machine Key Chunkers FsEncode FsTree FsRead FsWalk PackRecord PackStream Footer Packstore PackstoreRep PackstoreFacts Compact Parallel Inbox InboxProtocol Text Sshsign Reference Refstore Gc Auth Server Routes Sync Remote Path Posix Ingest IngestFacts PosixFacts Tar TarFacts Remotes Daemon DaemonFacts Client.
From Stdlib Require Import ZifyBool ZifyNat.
Local Open Scope Z_scope.

(** ** Queries *)
Lemma upper_digits b : hex_digit (upper_hex (b2z b / 16)) = Some (b2z b / 16) ∧ hex_digit (upper_hex (b2z b mod 16)) = Some (b2z b mod 16).
Proof. destruct b; vm_compute; by split. Qed.

(** The bytes of an escaped string. *)
Definition escaped_byte (c : byte) : bool := unreserved c || bool_decide (c = x2b) || bool_decide (c = x25).

Lemma upper_unreserved b : unreserved (upper_hex (b2z b / 16)) = true ∧ unreserved (upper_hex (b2z b mod 16)) = true.
Proof. destruct b; vm_compute; by split. Qed.

Lemma QueryEscape_bytes s : Forall (λ c, escaped_byte c = true) (QueryEscape s).
Proof.
  unfold QueryEscape. induction s as [|c s IH]; [constructor|]. rewrite fmap_cons. cbn [concat]. apply Forall_app. split; [|done].
  destruct (unreserved c) eqn:E; [repeat constructor; unfold escaped_byte; by rewrite E|]. case_bool_decide; [by repeat constructor|].
  destruct (upper_unreserved c) as [H1 H2]. repeat constructor; unfold escaped_byte; rewrite ?H1, ?H2; done.
Qed.

Lemma QueryUnescape_Escape s : QueryUnescape (QueryEscape s) = Ok s.
Proof.
  unfold QueryEscape. induction s as [|c s IH]; [done|]. rewrite fmap_cons. cbn [concat].
  destruct (unreserved c) eqn:E.
  - cbn [app QueryUnescape]. rewrite bool_decide_eq_false_2 by (intros ->; done). rewrite IH. rsimpl.
    rewrite bool_decide_eq_false_2 by (intros ->; done). done.
  - case_bool_decide as Hc.
    + subst c. cbn [app QueryUnescape]. rewrite bool_decide_eq_false_2 by done. rewrite IH. done.
    + cbn [app QueryUnescape]. rewrite bool_decide_eq_true_2 by done. destruct (upper_digits c) as [-> ->]. rewrite IH. rsimpl. f_equal. f_equal.
      rewrite <- (z2b_b2z c) at 3. f_equal. pose proof (Z.div_mod (b2z c) 16). lia.
Qed.

Lemma cut_no sep a : sep ∉ a → cut sep a = (a, None).
Proof. induction a as [|c a IH]; [done|]. intros [Hne Hni]%not_elem_of_cons. cbn. rewrite bool_decide_eq_false_2 by done. by rewrite IH. Qed.

Lemma cut_at sep a b : sep ∉ a → cut sep (a ++ sep :: b) = (a, Some b).
Proof.
  induction a as [|c a IH]; cbn; [by rewrite bool_decide_eq_true_2|]. intros [Hne Hni]%not_elem_of_cons. rewrite bool_decide_eq_false_2 by done. by rewrite IH.
Qed.

Lemma split_at_no sep a : sep ∉ a → split_at sep a = [a].
Proof. induction a as [|c a IH]; [done|]. intros [Hne Hni]%not_elem_of_cons. cbn. rewrite bool_decide_eq_false_2 by done. by rewrite IH. Qed.

Lemma split_at_cons sep a b : sep ∉ a → split_at sep (a ++ sep :: b) = a :: split_at sep b.
Proof.
  induction a as [|c a IH]; cbn; [by rewrite bool_decide_eq_true_2|]. intros [Hne Hni]%not_elem_of_cons. rewrite bool_decide_eq_false_2 by done. by rewrite IH.
Qed.

Lemma escaped_no c s : escaped_byte c = false → c ∉ QueryEscape s.
Proof. intros Hc Hin. pose proof (QueryEscape_bytes s) as Hf. rewrite Forall_forall in Hf. specialize (Hf c Hin). congruence. Qed.

(** A member of a query that the client wrote. *)
Lemma query_pair_text name v : Forall (λ c, unreserved c = true) (str name) → query_pair (pair_text name v) = Some (str name, v).
Proof.
  intros Hn. unfold query_pair, pair_text. rewrite bool_decide_eq_false_2 by (by destruct (str name)).
  assert (∀ c, unreserved c = false → c ∉ str name) as Hno. { intros c Hc Hin. rewrite Forall_forall in Hn. specialize (Hn c Hin). congruence. }
  rewrite bool_decide_eq_false_2. 2:{ cbn [app]. rewrite !elem_of_app, elem_of_cons. intros [Hin|[Hin|Hin]]; [exact (Hno x3b eq_refl Hin)|done|exact (escaped_no x3b v eq_refl Hin)]. }
  cbn [orb app]. rewrite cut_at by (by apply Hno). cbn [default from_option id]. rewrite QueryUnescape_Escape.
  assert (∀ s, Forall (λ c, unreserved c = true) s → QueryUnescape s = Ok s) as Hplain.
  { clear. induction s as [|c s IH]; [done|]. intros [Hc Hs]%Forall_cons. cbn. rewrite bool_decide_eq_false_2 by (intros ->; done). rewrite IH by done. rsimpl.
    rewrite bool_decide_eq_false_2 by (intros ->; done). done. }
  by rewrite Hplain.
Qed.

Lemma pair_text_no c name v : Forall (λ c, unreserved c = true) (str name) → escaped_byte c = false → c ≠ x3d → c ∉ pair_text name v.
Proof.
  intros Hn Hc Hne. unfold pair_text. cbn [app]. rewrite elem_of_app, elem_of_cons. intros [Hin|[Hin|Hin]]; [|done|exact (escaped_no c v Hc Hin)].
  rewrite Forall_forall in Hn. specialize (Hn c Hin). unfold escaped_byte in Hc. by rewrite Hn in Hc.
Qed.

(** The members of a query are read back. *)
Lemma url_Query_text (ps : list (string * bytes)) : Forall (λ q, Forall (λ c, unreserved c = true) (str q.1)) ps →
  url_Query (join_and ((λ q : string * bytes, pair_text q.1 q.2) <$> ps)) = (λ q, (str q.1, q.2)) <$> ps.
Proof.
  intros Hps. unfold url_Query. induction ps as [|[n v] ps IH]; [done|]. apply Forall_cons in Hps as [Hn Hps]. rewrite fmap_cons. cbn [fst snd] in *.
  destruct ps as [|q ps].
  - cbn [fmap list_fmap join_and]. rewrite split_at_no by (by apply pair_text_no). cbn. by rewrite query_pair_text.
  - change (join_and (pair_text n v :: ((λ q : string * bytes, pair_text q.1 q.2) <$> q :: ps))) with
      (pair_text n v ++ x26 :: join_and ((λ q : string * bytes, pair_text q.1 q.2) <$> q :: ps)).
    rewrite split_at_cons by (by apply pair_text_no). cbn [omap list_omap]. rewrite query_pair_text by done. by rewrite IH.
Qed.

(** ** Requests *)
Section served.
Context `{Blake3} `{Fuse} `{Zstd} `{Cbor} `{RefCbor} `{Pebble} `{SshSig} `{SshKeys} `{NetUrl} `{RemotesJson} `{Float64} `{!DaemonJson} `{!ClientJson}.
Context (render : error → bytes).

Lemma serve_plain env m p r body d : d_route m p = Some r → x3f ∉ p →
  d_serve render env m p body d = let '(a, d) := d_handle render env r [] body d in (on_wire env a, d).
Proof. intros Hr Hp. unfold d_serve. rewrite cut_no, Hr by done. done. Qed.

Lemma serve_query env m p r ps body d : d_route m p = Some r → x3f ∉ p → ps ≠ [] → Forall (λ q : string * bytes, Forall (λ c, unreserved c = true) (str q.1)) ps →
  d_serve render env m (p ++ x3f :: join_and ((λ q : string * bytes, pair_text q.1 q.2) <$> ps)) body d =
    let '(a, d) := d_handle render env r ((λ q, (str q.1, q.2)) <$> ps) body d in (on_wire env a, d).
Proof.
  intros Hr Hp Hne Hps. unfold d_serve. rewrite cut_at, Hr by done. cbn [default from_option id]. by rewrite url_Query_text.
Qed.

(** ** References *)
Context `{!PebbleLaws}.

Lemma serve_ref env m r name body d : d_route m (str "/v1/refs") = Some r → name ≠ [] →
  d_serve render env m (refsURL name) body d = let '(a, d) := d_handle render env r [(str "name", name)] body d in (on_wire env a, d).
Proof.
  intros Hr Hn. unfold refsURL. rewrite bool_decide_eq_false_2 by done.
  apply (serve_query env m (str "/v1/refs") r [("name"%string, name)] body d Hr); [|done|by repeat constructor]. by apply (bool_decide_unpack _).
Qed.

Lemma ref_get env name body d : name ≠ [] → ValidateName name = Ok tt → zlen body <= maxRefRecord → db_map (dm_refs d) !! name = Some body →
  (c_GetRef (d_serve render env) name d).1 = (body ← Ok body; wrap "get-ref" (Decode body)) ∨
  ∃ e, (c_GetRef (d_serve render env) name d).1 = Err e ∧ ¬ errors_Is e client_ErrRefNotFound.
Proof.
  intros Hn Hv Hlen Hdb. unfold c_GetRef, request. rewrite (serve_ref env _ RGetRefs) by done. cbn [d_handle]. unfold query_Get. cbn [list_find fst].
  rewrite decide_True by done. cbn [snd]. unfold d_getRefs. rewrite bool_decide_eq_false_2 by done. unfold refName. rewrite bool_decide_eq_false_2, Hv by done. rsimpl.
  pose proof (Get_law name (dm_refs d)) as Hg. destruct (Refstore.Get name (dm_refs d)) as [r db']. destruct Hg as (Hs & _ & Hok & Hnf & _).
  destruct r as [b|e| |]; [|..|by destruct Hs]; [left|right|by destruct Hs].
  - specialize (Hok b eq_refl). rewrite Hdb in Hok. injection Hok as <-. cbn [on_wire ds_Status fst expect].
    unfold expect. cbn [ds_Status negb]. change (StatusOK =? StatusNotFound) with false. change (negb (StatusOK =? StatusOK)) with false. cbn [negb].
    unfold read_at_most. cbn [ds_Body ds_ReadErr]. destruct (zlen body <? 2 ^ 20) eqn:E; [done|]. rewrite take_ge; [done|]. unfold maxRefRecord in Hlen. lia.
  - specialize (Hnf e eq_refl). rewrite bool_decide_eq_false_2 by (intros Hc; by rewrite (Hnf Hc) in Hdb). cbn. eexists. split; [done|].
    unfold errors_Is. cbn. intros Hin. apply list_elem_of_singleton in Hin. done.
Qed.
End served.

(** ** What JSON carries

    A value is read back from what the daemon writes for it, when its text is UTF-8.
    The line of an event has no line break of its own and is not empty. *)
Definition utf8_entry (e : lsEntry) : Prop := utf8_ValidString (ls_Name e) = true ∧ utf8_ValidString (ls_LinkTarget e) = true.

Definition client_event (text : bytes) (ev : syncEvent) : cevent :=
  match ev with
  | EvPush st => mkCevent 0 0 (Some st) None [] []
  | EvPull root st => mkCevent 0 0 None (Some st) (hex_EncodeToString (kb root)) []
  | EvError _ => mkCevent 0 0 None None [] text
  end.

(** [line] is a line of the stream that decodes to [ev]. *)
Definition event_line `{Float64} `{!ClientJson} (line : bytes) (ev : cevent) : Prop :=
  (x0a ∉ line) ∧ (last line ≠ Some x0d) ∧ (TrimSpace line ≠ []) ∧ d_event line = Ok ev.

Class ClientJsonLaws `{Float64} `{!DaemonJson} `{!ClientJson} : Prop := {
  d_Entry_value e rest rerr : utf8_entry e → d_Entry (json_ls e ++ rest) rerr = Value e rest;
  d_Entry_end : d_Entry [] None = EndOfStream;
  json_ls_ne e : json_ls e ≠ [];
  json_event_line ev : ∃ line text, json_event ev = line ++ [x0a] ∧ event_line line (client_event text ev);
}.

Section streams.
Context `{Float64} `{!DaemonJson} `{!ClientJson} `{!ClientJsonLaws}.

Lemma decode_entries msg es : ∀ fuel acc, Forall utf8_entry es → (length (concat (json_ls <$> es)) < fuel)%nat →
  decode_loop d_Entry msg fuel (concat (json_ls <$> es)) None acc = Ok (acc ++ es).
Proof.
  induction es as [|e es IH]; intros [|fuel] acc Hu Hf; try lia.
  - cbn. by rewrite d_Entry_end, app_nil_r.
  - apply Forall_cons in Hu as [He Hu]. rewrite fmap_cons in *. cbn [concat decode_loop] in *. rewrite d_Entry_value by done.
    rewrite length_app in Hf. pose proof (json_ls_ne e) as Hne. destruct (json_ls e) eqn:E; [done|]. cbn [length] in Hf.
    rewrite IH by (done || lia). by rewrite <- app_assoc.
Qed.

Lemma split_lines ls rest : Forall (λ l, x0a ∉ l) ls → split_at x0a (concat ((λ l, l ++ [x0a]) <$> ls) ++ rest) = ls ++ split_at x0a rest.
Proof.
  induction ls as [|l ls IH]; [done|]. intros [Hl Hls]%Forall_cons. rewrite fmap_cons. cbn [concat]. rewrite <- !app_assoc. cbn [app].
  rewrite split_at_cons by done. cbn. by rewrite IH.
Qed.

(** The lines of progress before the last event. *)
Definition progress_line (line : bytes) : Prop := ∃ ev, event_line line ev ∧ ev_Push ev = None ∧ ev_Pull ev = None ∧ ev_Error ev = [].

Lemma scan_tokens_prefix limit ls line ts : (∀ l, l ∈ ls ++ [line] → last l ≠ Some x0d) →
  scan_tokens limit (ls ++ [line; []]) None = (ts, None) → ts = ls ++ [line].
Proof.
  assert (∀ l : bytes, last l ≠ Some x0d → drop_cr l = l) as Hcr.
  { intros l Hl. unfold drop_cr. destruct (rev l) as [|c r] eqn:E; [by rewrite <- (rev_involutive l), E|].
    rewrite bool_decide_eq_false_2; [done|]. intros ->. apply Hl. rewrite <- (rev_involutive l), E. cbn. apply last_snoc. }
  revert ts. induction ls as [|l ls IH]; intros ts Hl.
  - cbn. destruct (limit <=? length line)%nat; [done|]. intros [= <-]. rewrite Hcr; [done|]. apply Hl. by left.
  - cbn [app scan_tokens]. destruct (ls ++ [line; []]) as [|l1 l2] eqn:E; [by destruct ls|]. rewrite <- E in *. clear E.
    destruct (limit <=? length l)%nat; [done|]. destruct (scan_tokens limit (ls ++ [line; []]) None) as [ts' e] eqn:Es. intros [= <- ->].
    rewrite (IH ts') by (done || intros x Hx; apply Hl; by right). rewrite Hcr; [done|]. apply Hl. by left.
Qed.

Lemma sync_line_event line ev lst shown : event_line line ev →
  sync_line line (lst, shown) =
    (if negb (bool_decide (ev_Error ev = [])) then Err (errors_New "sync failed: %s") else
     match ev_Push ev, ev_Pull ev with None, None => Ok (lst, shown ++ [(ev_Done ev, ev_Total ev)]) | _, _ => Ok (Some ev, shown) end).
Proof. intros (_ & _ & Hne & Hd). unfold sync_line. destruct (TrimSpace line) eqn:E; [done|]. cbn [length Nat.eqb]. by rewrite Hd. Qed.

Lemma sync_progress ls : ∀ lst shown, Forall progress_line ls →
  ∃ shown', foldR sync_line ls (lst, shown) = Ok (lst, shown').
Proof.
  induction ls as [|l ls IH]; intros lst shown Hls; [by exists shown|]. apply Forall_cons in Hls as [(ev & Hev & Hpu & Hpl & He) Hls].
  cbn [foldR]. rewrite (sync_line_event l ev) by done. rewrite He, Hpu, Hpl, bool_decide_eq_true_2 by done. cbn [negb]. rsimpl. by apply IH.
Qed.

(** A sync that succeeds ends with the last event of the daemon. *)
Lemma sync_stream_last progress ev cev : Forall progress_line progress →
  sync_stream (mkDresp StatusOK (concat ((λ l, l ++ [x0a]) <$> progress) ++ json_event ev) None) = Ok cev →
  cev = client_event [] ev ∧ match ev with EvError _ => False | _ => True end.
Proof.
  intros Hp Hs. unfold sync_stream, scan_lines in Hs. cbn [ds_Body ds_ReadErr] in Hs. destruct (json_event_line ev) as (line & text & Hj & Hev). pose proof Hev as (Hnl & Hcr & _). rewrite Hj in Hs.
  rewrite split_lines in Hs by (eapply Forall_impl; [exact Hp|]; by intros l (? & (? & _) & _)).
  rewrite split_at_cons in Hs by done. cbn [split_at] in Hs.
  destruct (scan_tokens _ _ _) as [ts serr] eqn:Et. apply bind_Ok in Hs as ([lst shown] & Hf & Hs). destruct serr as [e|]; [done|].
  apply scan_tokens_prefix in Et as ->.
  2:{ intros l [Hl|Hl%list_elem_of_singleton]%elem_of_app; [|by subst l]. rewrite Forall_forall in Hp. by destruct (Hp l Hl) as (? & (_ & ? & _) & _). }
  rewrite foldR_app in Hf. destruct (sync_progress progress None [] Hp) as [shown' Hsp]. rewrite Hsp in Hf. cbn [foldR mbind result_bind] in Hf.
  rewrite (sync_line_event line (client_event text ev)) in Hf by done. destruct ev as [st|root st|e]; cbn in Hf.
  - injection Hf as <- <-. by injection Hs as <-.
  - injection Hf as <- <-. by injection Hs as <-.
  - case_bool_decide; cbn in Hf; [|done]. injection Hf as <- <-. done.
Qed.

(** A stream that is cut off is never a success. *)
Lemma scan_tokens_cut limit ls e : ∃ e', (scan_tokens limit ls (Some e)).2 = Some e'.
Proof.
  induction ls as [|l ls IH]; [by exists e|]. cbn [scan_tokens]. destruct ls as [|l' ls]; [repeat case_match; eauto|].
  case_match; [eauto|]. by destruct (scan_tokens limit (l' :: ls) (Some e)).
Qed.
Lemma sync_stream_cut b e ev : sync_stream (mkDresp StatusOK b (Some e)) ≠ Ok ev.
Proof.
  unfold sync_stream, scan_lines. cbn [ds_Body ds_ReadErr]. destruct (scan_tokens_cut (Z.to_nat (2 ^ 20)) (split_at x0a b) e) as [e' He].
  destruct (scan_tokens _ _ _) as [ls serr]. cbn [snd] in He. subst serr. intros ([lst shown] & _ & Hs)%bind_Ok. done.
Qed.
End streams.

(** ** Trees *)

(** A line of a listing shows a node of a stored tree. *)
Definition ls_shows `{Cbor} `{UnixDev} (log : list Object) (e : lsEntry) (name : bytes) (n : node) : Prop :=
  ls_Name e = name ∧ ls_Mode e = node_mode n ∧ ls_UID e = n_uid (node_meta n) ∧ ls_GID e = n_gid (node_meta n) ∧ ls_MtimeNs e = n_mtime (node_meta n) ∧
  match n with
  | NFile _ c => ls_LinkTarget e = [] ∧ ls_Rdev e = [] ∧ ls_Size e = zlen c ∧
      ∃ k h, ls_Key e = hex_EncodeToString (kb k) ∧ Validate k = Ok tt ∧ Length k = zlen c ∧ file_tree h log k c
  | NDir _ ch => ls_LinkTarget e = [] ∧ ls_Rdev e = [] ∧ ∃ k, ls_Key e = hex_EncodeToString (kb k) ∧ Validate k = Ok tt ∧ stored_children log k ch
  | NLink _ t => ls_LinkTarget e = t ∧ ls_Rdev e = [] ∧ ls_Size e = zlen t
  | NDev _ _ r => ls_LinkTarget e = [] ∧ ls_Rdev e = [Major r; Minor r]
  | _ => ls_LinkTarget e = [] ∧ ls_Rdev e = []
  end.

Lemma ls_line_shows `{Cbor} `{UnixDev} log ent name n : stored log ent name n → ∃ le, ls_line ent = Ok le ∧ ls_shows log le name n.
Proof.
  assert (∀ k, Validate k = Ok tt → Key.Parse (kb k) = Ok k) as Hparse by (intros k Hk; by apply Parse_Ok).
  assert (∀ k, (0 <? length (kb k))%nat = true) as Hlen by (intros k; by rewrite length_kb).
  intros Hst. destruct Hst as [e name m c k h Hent Hx Hck Hv Hl Ht|e name m ch k h es Hent Hx Hck Hv Ht Hes|e name m t Hent Hx Hl|
    e name m chr r Hent Hx Hr|e name m Hent Hx|e name m Hent Hx]; destruct Hent as (Hn & Hm & Hu & Hg & Hmt & Hrest); unfold ls_line.
  - destruct Hrest as [Hlt Hrd]. rewrite Hck, Hlen, (Hparse k Hv), Hlt, Hrd. rsimpl. eexists. split; [done|]. split_and!; cbn; try done. exists k, h. done.
  - destruct Hrest as [Hlt Hrd]. rewrite Hck, Hlen, (Hparse k Hv), Hlt, Hrd. rsimpl. eexists. split; [done|]. split_and!; cbn; try done. exists k. split_and!; try done. by exists h, es.
  - destruct Hrest as [Hck Hrd]. rewrite Hck, Hrd. cbn [length Nat.ltb Nat.leb mbind result_bind]. rewrite Hl. eexists. split; [done|]. split_and!; cbn; try done; destruct t; done.
  - destruct Hrest as [Hck Hlt]. rewrite Hck, Hlt, Hr. cbn. eexists. split; [done|]. by split_and!.
  - destruct Hrest as (Hck & Hlt & Hrd). rewrite Hck, Hlt, Hrd. cbn. eexists. split; [done|]. by split_and!.
  - destruct Hrest as (Hck & Hlt & Hrd). rewrite Hck, Hlt, Hrd. cbn. eexists. split; [done|]. by split_and!.
Qed.

Lemma ls_lines_shows `{Cbor} `{UnixDev} log es ch : ∀ acc, Forall2 (λ e p, stored log e p.1 p.2) es ch →
  ∃ lines, foldR ls_step es acc = Ok (acc ++ lines) ∧ Forall2 (λ e p, ls_shows log e p.1 p.2) lines ch.
Proof.
  intros acc Hst. revert acc. induction Hst as [|e p es ch He _ IH]; intros acc; [exists []; rewrite app_nil_r; by split|].
  destruct (ls_line_shows log e p.1 p.2 He) as (le & Hle & Hsh). cbn [foldR].
  assert (ls_step e acc = Ok (acc ++ [le])) as -> by (unfold ls_step; by rewrite Hle). rsimpl.
  destruct (IH (acc ++ [le])) as (lines & Hl & HF). exists (le :: lines). split; [|by constructor]. rewrite Hl. by rewrite <- app_assoc.
Qed.

(** The text of a tree's directory. *)
Definition utf8_node (p : bytes * node) : Prop :=
  utf8_ValidString p.1 = true ∧ match p.2 with NLink _ t => utf8_ValidString t = true | _ => True end.

Lemma shows_utf8 `{Cbor} `{UnixDev} log lines ch : Forall2 (λ e p, ls_shows log e p.1 p.2) lines ch → Forall utf8_node ch → Forall utf8_entry lines.
Proof.
  induction 1 as [|e [name n] lines ch Hsh _ IH]; [constructor|]. intros [[Hn Ht] Hch]%Forall_cons. constructor; [|by apply IH].
  destruct Hsh as (Hname & _ & _ & _ & _ & Hrest). unfold utf8_entry. cbn [fst snd] in *. rewrite Hname. split; [done|].
  destruct n; [destruct Hrest as (-> & _)|destruct Hrest as (-> & _)|destruct Hrest as (-> & _)|destruct Hrest as (-> & _)|destruct Hrest as (-> & _)|destruct Hrest as (-> & _)]; done.
Qed.

Section trees.
Context `{Blake3} `{Fuse} `{Zstd} `{Cbor} `{RefCbor} `{Pebble} `{SshSig} `{SshKeys} `{NetUrl} `{RemotesJson} `{Float64} `{!DaemonJson} `{!ClientJson}
  `{UnixDev} `{!UnixDevLaws}.
Context (render : error → bytes) `{!ClientJsonLaws}.
#[local] Existing Instance InboxProtocol.verified_inv.

Lemma hex_no c k : hex_digit c = None → c ∉ hex_EncodeToString (kb k).
Proof.
  intros Hc Hin. unfold hex_EncodeToString in Hin. apply list_elem_of_In, in_concat in Hin as (l & Hin & Hl). apply list_elem_of_In in Hin, Hl.
  apply list_elem_of_fmap in Hin as (b & -> & _).
  destruct (hex_digits b) as [Hd1 Hd2]. rewrite !elem_of_cons, elem_of_nil in Hl. destruct Hl as [->|[->|[]]]; congruence.
Qed.

(** A request for an object by its key. *)
Lemma serve_key env kind mk k q body d :
  (∀ key, key ≠ [] → x2f ∉ key → d_route (str "GET") (str kind ++ key) = Some (mk key)) → (x3f ∉ str kind) →
  d_serve render env (str "GET") (str kind ++ hex_key k ++ path_query q) body d =
    let '(a, d) := d_handle render env (mk (hex_key k)) (if bool_decide (q = []) then [] else [(str "path", q)]) body d in (on_wire env a, d).
Proof.
  intros Hr Hk. unfold path_query. assert (hex_key k ≠ []) as Hne. { unfold hex_key, hex_EncodeToString. destruct (kb k) eqn:E; [|done]. pose proof (length_kb k) as Hl. by rewrite E in Hl. }
  assert (d_route (str "GET") (str kind ++ hex_key k) = Some (mk (hex_key k))) as Hroute by (apply Hr; [done|by apply hex_no]).
  assert (x3f ∉ str kind ++ hex_key k) as Hno by (rewrite elem_of_app; intros [?|?]; [done|by eapply (hex_no x3f)]).
  case_bool_decide as Hq.
  - rewrite app_nil_r. by apply serve_plain.
  - rewrite app_assoc. apply (serve_query render env (str "GET") _ _ [("path"%string, q)] body d Hroute); [done|done|by repeat constructor].
Qed.

Lemma query_path q : query_Get "path" (if bool_decide (q = []) then [] else [(str "path", q)]) = q.
Proof. case_bool_decide as Hq; [by subst q|]. unfold query_Get. cbn [list_find fst]. by rewrite decide_True. Qed.

Lemma route_key kind mk key : (kind, mk) ∈ [("/v1/tar/"%string, RTar); ("/v1/file/"%string, RFile); ("/v1/ls/"%string, RLs); ("/v1/content-keys/"%string, RContentKeys)] →
  key ≠ [] → x2f ∉ key → d_route (str "GET") (str kind ++ key) = Some (mk key).
Proof.
  intros Hin Hne Hno. assert (∀ a b : bytes, (x2f ∉ a) → (x2f ∉ b) → split_slash (x2f :: a ++ x2f :: b ++ x2f :: key) = [[]; a; b; key]) as Hsplit.
  { intros a b Ha Hb. change (x2f :: a ++ x2f :: b ++ x2f :: key) with ([] ++ slash :: a ++ slash :: b ++ slash :: key).
    rewrite split_slash_cons by (by intros ?%elem_of_nil). rewrite !split_slash_cons, split_slash_no by done. done. }
  rewrite !elem_of_cons, elem_of_nil in Hin.
  destruct Hin as [[= -> ->]|[[= -> ->]|[[= -> ->]|[[= -> ->]|[]]]]].
  - change (str "/v1/tar/" ++ key) with (x2f :: str "v1" ++ x2f :: str "tar" ++ x2f :: key). unfold d_route. rewrite Hsplit by (by apply (bool_decide_unpack _)).
    rewrite bool_decide_eq_true_2 by done. by rewrite bool_decide_eq_true_2.
  - change (str "/v1/file/" ++ key) with (x2f :: str "v1" ++ x2f :: str "file" ++ x2f :: key). unfold d_route. rewrite Hsplit by (by apply (bool_decide_unpack _)).
    rewrite bool_decide_eq_true_2 by done. rewrite bool_decide_eq_false_2 by done. by rewrite bool_decide_eq_true_2.
  - change (str "/v1/ls/" ++ key) with (x2f :: str "v1" ++ x2f :: str "ls" ++ x2f :: key). unfold d_route. rewrite Hsplit by (by apply (bool_decide_unpack _)).
    rewrite bool_decide_eq_true_2 by done. do 2 rewrite bool_decide_eq_false_2 by done. by rewrite bool_decide_eq_true_2.
  - change (str "/v1/content-keys/" ++ key) with (x2f :: str "v1" ++ x2f :: str "content-keys" ++ x2f :: key). unfold d_route. rewrite Hsplit by (by apply (bool_decide_unpack _)).
    rewrite bool_decide_eq_true_2 by done. do 3 rewrite bool_decide_eq_false_2 by done. by rewrite bool_decide_eq_true_2.
Qed.

(** The listing of a stored directory: its height is enough fuel, and it is the same
    whenever the daemon holds the tree. *)
Definition holds_log (at_ : Key → Store) (log : list Object) (d : daemon) : Prop :=
  ∃ c, holding d c ∧ still at_ c ∧ ∀ o, o ∈ log → c !! obj_key o = Some (obj_bytes o).

Lemma getLs_dir log k ch : stored_children log k ch → Validate k = Ok tt → StronglySorted bytes_lt ch.*1 →
  ∃ lines h, Forall2 (λ e p, ls_shows log e p.1 p.2) lines ch ∧ ∀ at_ d fuel, holds_log at_ log d → (h ≤ fuel)%nat →
    (getLs render at_ fuel (hex_EncodeToString (kb k)) [] d).1 = Plain StatusOK "application/x-ndjson" (concat (json_ls <$> lines)).
Proof.
  intros Hst Hv Hs. destruct (stored_root log k ch Hst) as [Hty [data Hin]]. pose proof Hst as (h & es & Ht & Hes).
  destruct (ls_lines_shows log es ch [] Hes) as (lines & Hl & Hsh).
  exists lines, h. split; [done|]. intros at_ d fuel (c & Hd & Hat & Hlog) Hfuel. pose proof (store_serves at_ c log Hat Hlog) as Hget.
  unfold getLs. rewrite parseHexKey_hex, Hty by done. cbn [negb].
  destruct (with_root_found render k "directory object not found" (λ _, with_path render at_ fuel k [] (λ k,
        match CollectEntries (store_get at_) fuel k with
        | Ok entries => match foldR ls_step entries [] with
            | Ok lines => Plain StatusOK "application/x-ndjson" (concat (json_ls <$> lines)) | r => Daemon.failed render StatusInternalServerError r end
        | r => Daemon.failed render StatusInternalServerError r end)) d c data Hd (Hlog _ Hin)) as [d' ->].
  cbn [fst]. unfold with_path. rewrite bool_decide_eq_true_2 by done. unfold CollectEntries.
  rewrite (collectEntries_spec (store_get at_) log Hget fuel k es); [cbn [app] in *; by rewrite Hl|eapply dir_tree_mono; [exact Ht|lia|done]|].
  cbn. unfold names_sorted. by rewrite (stored_names log es ch Hes).
Qed.

Lemma c_Ls_dir log k ch : stored_children log k ch → Validate k = Ok tt → StronglySorted bytes_lt ch.*1 → Forall utf8_node ch →
  ∃ lines h, Forall2 (λ e p, ls_shows log e p.1 p.2) lines ch ∧
    ∀ env d, holds_log (de_at env) log d → (h ≤ de_fuel env)%nat → (c_Ls (d_serve render env) k [] d).1 = Ok lines.
Proof.
  intros Hst Hv Hs Hu. destruct (getLs_dir log k ch Hst Hv Hs) as (lines & h & Hsh & HF).
  exists lines, h. split; [done|]. intros env d Hd Hfuel. unfold c_Ls, request.
  rewrite (serve_key env "/v1/ls/" RLs k [] [] d); [|intros key ? ?; apply route_key; [rewrite !elem_of_cons; auto|done|done]|by apply (bool_decide_unpack _)].
  cbn [d_handle]. rewrite query_path. specialize (HF (de_at env) d (de_fuel env) Hd Hfuel). unfold hex_key.
  destruct (getLs render (de_at env) (de_fuel env) _ _ d) as [a d']. cbn [fst] in HF. subst a. cbn [on_wire fst]. unfold expect. cbn [ds_Status].
  change (negb (StatusOK =? StatusOK)) with false. cbv iota. unfold decode_stream. cbn [ds_Body ds_ReadErr]. rewrite decode_entries; [done| |lia].
  by eapply shows_utf8.
Qed.

Lemma c_File_stored log k h content : file_tree h log k content → Validate k = Ok tt →
  ∀ env d, holds_log (de_at env) log d → (h ≤ de_fuel env)%nat → (c_File (d_serve render env) k d).1 = Ok (content, None).
Proof.
  intros Ht Hv env d (c & Hd & Hat & Hlog) Hfuel. unfold c_File, request. replace (hex_key k) with (hex_key k ++ path_query []) by (by rewrite app_nil_r).
  rewrite (serve_key env "/v1/file/" RFile k [] [] d); [|intros key ? ?; apply route_key; [rewrite !elem_of_cons; auto|done|done]|by apply (bool_decide_unpack _)].
  cbn [d_handle]. pose proof (getFile_stored render (de_at env) d c log k h content Hd Hat Hlog Ht Hv (de_fuel env) Hfuel) as HF. unfold hex_key.
  destruct (getFile render (de_at env) (de_fuel env) _ d) as [a d']. cbn [fst] in HF. subst a. done.
Qed.
End trees.
