(* ===== verification/ClientSpec.v ===== *)
(** * The client of the daemon: its guarantees *)

From Stdlib Require Import Init.Byte.
From S2P Require Import Prelude Machine Key Chunkers FsEncode Instances FsTree FsRead FsWalk PackRecord PackStream Footer FooterFacts Packstore PackstoreRep PackstoreFacts Compact PackstoreSpec Parallel Inbox InboxProtocol InboxSpec Text Sshsign Reference Refstore Gc GcProtocol GcFacts Auth AuthFacts Server ServerSpec Routes Sync Remote SyncLive Path Posix Ingest IngestFacts PosixFacts IngestSpec Tar TarFacts TarSpec Remotes Daemon DaemonFacts DaemonSpec Client ClientFacts.
From Stdlib Require Import ZifyBool ZifyNat.
Local Open Scope Z_scope.

#[local] Existing Instance InboxProtocol.verified_inv.

Section claims.
Context `{Blake3} `{Fuse} `{Zstd} `{Cbor} `{RefCbor} `{Pebble} `{!PebbleLaws} `{SshSig} `{SshKeys} `{NetUrl} `{RemotesJson} `{Float64} `{!DaemonJson} `{!ClientJson}.
Context (render : error → bytes).

Lemma query_name name : query_Get "name" [(str "name", name)] = name.
Proof. unfold query_Get. cbn [list_find fst]. by rewrite decide_True. Qed.

Lemma put_ref_stored env rec d d' : c_PutRef (d_serve render env) rec d = (Ok tt, d') →
  ∃ body, Encode rec = Ok body ∧ zlen body <= maxRefRecord ∧ ValidateName (ref_Name rec) = Ok tt ∧ ref_Name rec ≠ [] ∧
    db_map (dm_refs d') = <[ref_Name rec := body]> (db_map (dm_refs d)) ∧
    ∃ root, de_prepare env root (dm_store d) = (Ok tt, dm_store d').
Proof.
  unfold c_PutRef. destruct (Encode rec) as [body|e| |] eqn:He; [|done..]. intros Hp. exists body. split; [done|].
  assert (ref_Name rec ≠ []) as Hn.
  { intros Hn. unfold Encode in He. apply bind_Ok in He as ([] & Hv & _). unfold ref_validate in Hv. rewrite Hn in Hv. done. }
  unfold request in Hp. rewrite (serve_ref render env _ RPutRef) in Hp by done. cbn [d_handle] in Hp. rewrite query_name in Hp.
  destruct (d_putRef render (de_prepare env) (ref_Name rec) body d) as [a d1] eqn:Hput. injection Hp as Hr <-.
  destruct a as [st ct b|ct|ev]; cbn [on_wire] in Hr; [|by destruct (String.eqb ct _)|by unfold expect in Hr].
  unfold expect in Hr. cbn [ds_Status] in Hr. destruct (st =? StatusNoContent) eqn:Hst; [|done]. apply Z.eqb_eq in Hst as ->.
  apply putRef_ok in Hput as (rec' & root & Hlen & _ & _ & _ & Hv & _ & Hprep & Hdb). split_and!; try done. by exists root.
Qed.

Lemma delete_ref_gone env name d d' : name ≠ [] → c_DeleteRef (d_serve render env) name d = (Ok tt, d') →
  ValidateName name = Ok tt ∧ is_Some (db_map (dm_refs d) !! name) ∧ db_map (dm_refs d') = delete name (db_map (dm_refs d)).
Proof.
  intros Hn. unfold c_DeleteRef, request. rewrite (serve_ref render env _ RDeleteRef) by done. cbn [d_handle]. rewrite query_name.
  unfold d_deleteRef, refName. rewrite bool_decide_eq_false_2 by done. destruct (ValidateName name) as [[]|e| |] eqn:Hv; [|done..]. rsimpl.
  pose proof (Delete_law name (dm_refs d)) as Hd. destruct (Refstore.Delete name (dm_refs d)) as [r db]. destruct Hd as [(_ & _ & Hok) Hin].
  destruct r as [[]|e| |]; [|case_bool_decide; cbn; done|cbn; done..]. intros [= <-]. split_and!; [done|by apply Hin|by apply Hok].
Qed.

Lemma get_ref_absent env name d : name ≠ [] → ValidateName name = Ok tt → db_map (dm_refs d) !! name = None →
  ∃ e, (c_GetRef (d_serve render env) name d).1 = Err e.
Proof.
  intros Hn Hv Hdb. unfold c_GetRef, request. rewrite (serve_ref render env _ RGetRefs) by done. cbn [d_handle]. rewrite query_name.
  unfold d_getRefs, refName. rewrite !bool_decide_eq_false_2, Hv by done. rsimpl.
  pose proof (Get_law name (dm_refs d)) as Hg. destruct (Refstore.Get name (dm_refs d)) as [r db']. destruct Hg as (_ & _ & _ & _ & Hnone).
  destruct (Hnone Hdb) as [e ->]. case_bool_decide; cbn; eauto.
Qed.

(** C31. References through the client and the daemon: when [PutRef] of a record
    succeeds, [GetRef] of its name, on any later connection with the references as they
    are, returns exactly that record, or an error that does not say that it is absent;
    when [DeleteRef] succeeds the name was there and is gone, and [GetRef] returns an
    error.  The name travels in the query, whatever bytes it has. *)
Theorem client_refs env env' rec d d' :
  ref_wf rec →
  (c_PutRef (d_serve render env) rec d = (Ok tt, d') →
    (c_GetRef (d_serve render env') (ref_Name rec) d').1 = Ok rec ∨
    ∃ e, (c_GetRef (d_serve render env') (ref_Name rec) d').1 = Err e ∧ ¬ errors_Is e client_ErrRefNotFound) ∧
  (∀ name, name ≠ [] → c_DeleteRef (d_serve render env) name d = (Ok tt, d') →
    is_Some (db_map (dm_refs d) !! name) ∧ db_map (dm_refs d') = delete name (db_map (dm_refs d)) ∧
    ∃ e, (c_GetRef (d_serve render env') name d').1 = Err e).
Proof.
  intros Hwf. split.
  - intros (body & He & Hlen & Hv & Hn & Hdb & _)%put_ref_stored.
    destruct (ref_get render env' (ref_Name rec) body d' Hn Hv Hlen) as [Hg|Hg]; [by rewrite Hdb, lookup_insert_eq| |by right].
    left. rewrite Hg. rsimpl. by rewrite (Decode_Encode rec body Hwf He).
  - intros name Hn Hd. destruct (delete_ref_gone env name d d' Hn Hd) as (Hv & Hin & Hdb). split_and!; [done..|].
    apply get_ref_absent; [done..|]. by rewrite Hdb, lookup_delete_eq.
Qed.

(** A sync whose answer is an error is never a success, and neither is one that is cut off. *)
Lemma pull_answer calls fuel turns procs missing order prepare remote jobs batch name d :
  match (remotePull render calls fuel turns procs missing order prepare remote jobs batch name d).1 with
  | Plain status _ _ => status ≠ StatusOK | Broken _ => True | Events ev => True end.
Proof.
  unfold remotePull. destruct (remoteFor render remote d) as [a|cl] eqn:Hrf.
  { cbn [fst]. revert Hrf. unfold remoteFor, failed, httpError. repeat case_match; intros ?; simplify_eq; done. }
  destruct (syncOpts jobs batch) as [opts|e| |]; [|done..].
  destruct (fetchAndVerifyRemoteRef render (calls cl) name) as [a|[raw rec]] eqn:Hf.
  { cbn [fst]. revert Hf. unfold fetchAndVerifyRemoteRef, failed, httpError. repeat case_match; intros ?; simplify_eq; done. }
  destruct (Key.Parse (ref_Key rec)) as [root|e| |]; [|done..].
  destruct (Pull _ _ _ _ _ _ _ _ _ _) as [[stats|e| |] s]; [|done..].
  destruct (prepare root s) as [[[]|e| |] s']; [|done..]. by destruct (Refstore.Put name raw (dm_refs d)) as [[[]|e| |] db].
Qed.
(** The query of a sync, and what the daemon reads in it. *)
Definition sync_params (remote name : bytes) (jobs batchBytes : Z) : list (string * bytes) :=
  (if batchBytes >? 0 then [("batch_bytes"%string, FormatInt batchBytes)] else []) ++
  (if jobs >? 0 then [("jobs"%string, FormatInt jobs)] else []) ++ [("name"%string, name)] ++
  (if bool_decide (remote = []) then [] else [("remote"%string, remote)]).
Definition given (n : Z) : bytes := if n >? 0 then FormatInt n else [].

Lemma syncQuery_params remote name jobs batch :
  syncQuery remote name jobs batch = x3f :: join_and ((λ q : string * bytes, pair_text q.1 q.2) <$> sync_params remote name jobs batch).
Proof. unfold syncQuery, sync_params. by destruct (batch >? 0), (jobs >? 0), (bool_decide (remote = [])). Qed.

Lemma sync_params_read remote name jobs batch :
  let q := (λ q : string * bytes, (str q.1, q.2)) <$> sync_params remote name jobs batch in
  query_Get "remote" q = remote ∧ query_Get "name" q = name ∧ query_Get "jobs" q = given jobs ∧ query_Get "batch_bytes" q = given batch.
Proof.
  unfold sync_params, given. destruct (batch >? 0), (jobs >? 0); (case_bool_decide; [subst remote|]); by split_and!.
Qed.

Lemma serve_sync env m p r remote name jobs batch d : d_route m p = Some r → x3f ∉ p →
  d_serve render env m (p ++ syncQuery remote name jobs batch) [] d =
    let '(a, d) := d_handle render env r ((λ q : string * bytes, (str q.1, q.2)) <$> sync_params remote name jobs batch) [] d in (on_wire env a, d).
Proof.
  intros Hr Hp. rewrite syncQuery_params. apply serve_query; [done..| |]; unfold sync_params.
  - by destruct (batch >? 0), (jobs >? 0).
  - destruct (batch >? 0), (jobs >? 0), (bool_decide (remote = [])); by repeat constructor.
Qed.

(** A pull that the client reports is one whose last event the daemon wrote. *)
Lemma c_RemotePull_event `{!ClientJsonLaws} env remote name jobs batch stats key d d' :
  Forall progress_line (de_progress env) → c_RemotePull (d_serve render env) remote name jobs batch d = (Ok (stats, key), d') →
  ∃ root, key = hex_EncodeToString (kb root) ∧
    remotePull render (de_calls env) (de_fuel env) (de_turns env) (de_procs env) (de_missing env) (de_pull_order env) (de_prepare env)
      remote (given jobs) (given batch) name d = (Events (EvPull root stats), d').
Proof.
  intros Hp. unfold c_RemotePull, runSync, request. rewrite (serve_sync env _ _ RPull) by (try done; by apply (bool_decide_unpack _)).
  cbn [d_handle]. destruct (sync_params_read remote name jobs batch) as (-> & -> & -> & ->).
  pose proof (pull_answer (de_calls env) (de_fuel env) (de_turns env) (de_procs env) (de_missing env) (de_pull_order env) (de_prepare env) remote (given jobs) (given batch) name d) as Ha.
  destruct (remotePull _ _ _ _ _ _ _ _ _ _ _ _ _) as [a d1]. cbn [fst] in Ha. intros [= Hr <-]. apply bind_Ok in Hr as (cev & Hr & Hst).
  destruct a as [st ct b|ct|ev]; cbn [on_wire] in Hr.
  - cbn [ds_Status] in Hr. by rewrite (proj2 (Z.eqb_neq _ _) Ha) in Hr.
  - destruct (String.eqb ct _); [done|]. by apply sync_stream_cut in Hr.
  - cbn [ds_Status] in Hr. change (negb (StatusOK =? StatusOK)) with false in Hr. cbv iota in Hr. apply sync_stream_last in Hr as [-> Hev]; [|done].
    destruct ev as [ps|root ps|e]; [done| |done]. injection Hst as <- <-. by exists root.
Qed.

(** C12. A pull that the client reports as done is done.  When [RemotePull] returns
    statistics and a key, then whatever the remote sent, whatever other writers stored
    and however the event stream was split up, the daemon's record under [name] is the
    one that the remote answered, its root is the key that the client is given, it
    carries a valid signature over its content, nothing that was stored is gone, and
    every object below that root is in the daemon's store. *)
Theorem client_pull `{!PebbleLaws} `{!ClientJsonLaws} env pick at_ remote name jobs batch stats key d d' c :
  holding d c → Forall progress_line (de_progress env) → de_prepare env = PrepareRef pick (de_fuel env) at_ → (0 < de_procs env)%nat →
  (∀ cl ks objs, rc_Fetch (de_calls env cl) ks = Ok objs → Forall (λ o, Validate (obj_key o) = Ok tt) objs) →
  (∀ n bs b sched, (b, sched) ∈ de_pull_order env n bs → ∀ o, put_by_others (others_in sched) o) →
  (∀ ks r s1, de_missing env ks (dm_store d) = (r, s1) → contents s1 c ∧ closed s1 = false) →
  c_RemotePull (d_serve render env) remote name jobs batch d = (Ok (stats, key), d') →
  ∃ cl raw rec root c', remoteFor render remote d = inr cl ∧ rc_GetRef (de_calls env cl) name = inr raw ∧
    Decode raw = Ok rec ∧ Key.Parse (ref_Key rec) = Ok root ∧ key = hex_EncodeToString (kb root) ∧
    (∃ payload, SignaturePayload rec = Ok payload ∧ signed_by (ref_PublicKey rec) payload (ref_Signature rec) RefNamespace) ∧
    db_map (dm_refs d') = <[name := raw]> (db_map (dm_refs d)) ∧ holding d' c' ∧ dom c ⊆ dom c' ∧ complete c' root.
Proof.
  intros Hd Hp Hprep Hprocs Hf Ho Hm Hpull. destruct (c_RemotePull_event env remote name jobs batch stats key d d' Hp Hpull) as (root & Hk & Hev).
  rewrite Hprep in Hev. destruct (pull_published render _ _ _ _ _ _ _ _ _ _ _ _ _ _ _ _ _ Hprocs Hf Ho Hm Hd Hev)
    as (cl & raw & rec & c' & Hcl & Hg & _ & Hdec & Hroot & Hsig & Hdb & Hh & Hdom & Hc). by exists cl, raw, rec, root, c'.
Qed.
End claims.

(** ** Applications *)

(** A text for JSON: the digits of a number that stands for the value. *)
Fixpoint pos_text (p : positive) : bytes :=
  match p with xH => [x2e] | xO p => x30 :: pos_text p | xI p => x31 :: pos_text p end.
Fixpoint text_pos (b : bytes) : option (positive * bytes) :=
  match b with
  | x2e :: b => Some (xH, b)
  | x30 :: b => '(p, b) ← text_pos b; Some (xO p, b)
  | x31 :: b => '(p, b) ← text_pos b; Some (xI p, b)
  | _ => None
  end.
Lemma text_pos_text p b : text_pos (pos_text p ++ b) = Some (p, b).
Proof. induction p as [p IH|p IH|]; cbn; [by rewrite IH..|done]. Qed.

Section text.
Context {A B} `{Countable B} (flat : A → B) (unflat : B → A) (unflat_flat : ∀ a, unflat (flat a) = a).

Definition value_text (a : A) : bytes := pos_text (encode (flat a)).
Definition text_value (b : bytes) : option (A * bytes) := '(p, b) ← text_pos b; v ← decode p; Some (unflat v, b).
Definition text_stream (b : bytes) (rerr : option error) : decoded A :=
  match b, rerr with
  | [], None => EndOfStream
  | _, _ => match text_value b with Some (a, x0a :: rest) => Value a rest | _ => BadJson (errors_New "unexpected EOF") end
  end.

Lemma text_value_text a b : text_value (value_text a ++ b) = Some (a, b).
Proof. unfold text_value, value_text. rewrite text_pos_text. cbn. rewrite decode_encode. cbn. by rewrite unflat_flat. Qed.

Lemma pos_text_bytes p : Forall (λ c, c = x2e ∨ c = x30 ∨ c = x31) (pos_text p).
Proof. induction p; cbn; constructor; auto. Qed.
Lemma value_text_ne a : value_text a ≠ [].
Proof. unfold value_text. by destruct (encode (flat a)). Qed.
Lemma TrimSpace_text p : TrimSpace (pos_text p) = pos_text p.
Proof.
  assert (∀ c : byte, c = x2e ∨ c = x30 ∨ c = x31 → ∀ l fuel,
    trim_from fuel spaces (c :: l) = c :: l ∧ trim_from fuel ((@rev byte) <$> spaces) (c :: l) = c :: l) as Htrim.
  { by intros c [->|[->| ->]] l [|fuel]. }
  pose proof (pos_text_bytes p) as Hb. unfold TrimSpace.
  assert (trim_from (length (pos_text p)) spaces (pos_text p) = pos_text p) as ->.
  { destruct Hb as [|c l Hc _]; [done|]. by apply Htrim. }
  cbv zeta. destruct (rev (pos_text p)) as [|c r] eqn:E; [by rewrite <- (rev_involutive (pos_text p)), E; destruct (length _)|].
  rewrite (proj2 (Htrim c ltac:(rewrite Forall_forall in Hb; apply Hb, list_elem_of_In, in_rev; rewrite E; by left) r _)).
  by rewrite <- E, rev_involutive.
Qed.
Lemma value_text_no a c : c ≠ x2e → c ≠ x30 → c ≠ x31 → c ∉ value_text a.
Proof. intros H1 H2 H3 Hin. pose proof (pos_text_bytes (encode (flat a))) as Hf. rewrite Forall_forall in Hf. by destruct (Hf c Hin) as [->|[->| ->]]. Qed.
End text.

Definition ls_tuple (e : lsEntry) := (ls_Name e, ls_Mode e, ls_UID e, ls_GID e, ls_MtimeNs e, ls_Size e, ls_Key e, ls_LinkTarget e, ls_Rdev e).
Definition tuple_ls (t : bytes * Z * Z * Z * Z * Z * bytes * bytes * list Z) : lsEntry :=
  let '(a, b, c, d, e, f, g, h, i) := t in mkLs a b c d e f g h i.
Definition event_tuple (e : cevent) : Z * Z * option (Z * Z * Z) * option (Z * Z) * bytes * bytes :=
  (ev_Done e, ev_Total e, (λ s, (ObjectsTotal s, ObjectsPushed s, BytesPushed s)) <$> ev_Push e, (λ s, (ObjectsFetched s, BytesFetched s)) <$> ev_Pull e, ev_Key e, ev_Error e).
Definition tuple_event (t : Z * Z * option (Z * Z * Z) * option (Z * Z) * bytes * bytes) : cevent :=
  let '(a, b, c, d, e, f) := t in
  mkCevent a b ((λ s : Z * Z * Z, let '(x, y, z) := s in mkPushStats x y z) <$> c) ((λ s : Z * Z, let '(x, y) := s in mkPullStats x y) <$> d) e f.
Lemma tuple_ls_tuple e : tuple_ls (ls_tuple e) = e.
Proof. by destruct e. Qed.
Lemma tuple_event_tuple e : tuple_event (event_tuple e) = e.
Proof. by destruct e as [? ? [[]|] [[]|] ? ?]. Qed.

Section examples.
#[local] Existing Instance zstd_example.
#[local] Existing Instance blake3_example.
#[local] Existing Instance cbor_example.
#[local] Existing Instance refcbor_example.
#[local] Existing Instance pebble_example.
#[local] Existing Instance pebble_example_laws.
#[local] Existing Instance sshsig_example.
#[local] Existing Instance sshkeys_example.
#[local] Existing Instance url_example.
#[local] Existing Instance json_example.
#[local] Existing Instance percent_example.

#[local] Instance text_daemon : DaemonJson := {|
  json_ingest _ := []; json_ls e := value_text ls_tuple e ++ [x0a]; json_ref _ := []; json_info := ri_Name; json_names l := concat l; json_status _ := [];
  json_cycle _ := []; json_remote _ := []; json_preflight _ := []; json_public_key b := Ok b; tar_bytes ms := concat (h_Name <$> (fst <$> ms));
  ParseFloat _ := Err (errors_New "syntax"); f_above1 f := f >? 100; f_minus1 := -100 |}.

Definition no_json {A} : result A := Err (errors_New "unexpected EOF").
#[local] Instance text_client : ClientJson := {|
  d_Stats _ _ := no_json; d_Status _ _ := no_json; d_Cycle _ _ := no_json; d_names _ _ := no_json; d_preflight _ _ := no_json;
  d_Entry := text_stream tuple_ls;
  d_RefInfo _ _ := BadJson (errors_New "unexpected EOF"); d_RemoteInfo _ _ := BadJson (errors_New "unexpected EOF");
  d_event b := match text_value tuple_event b with Some (ev, []) => Ok ev | _ => no_json end;
  json_public b := Ok b; json_event ev := value_text event_tuple (client_event [] ev) ++ [x0a]; f_ge0 f := f >=? 0; FormatFloat := FormatInt |}.

#[local] Instance text_laws : ClientJsonLaws.
Proof.
  split.
  - intros e rest rerr _. cbn. rewrite <- app_assoc. unfold text_stream. rewrite (text_value_text _ _ tuple_ls_tuple).
    pose proof (value_text_ne ls_tuple e) as Hne. destruct (value_text ls_tuple e); [done|]. by destruct rerr.
  - done.
  - intros e. cbn. by destruct (value_text ls_tuple e).
  - intros ev. exists (value_text event_tuple (client_event [] ev)), []. split; [done|]. set (t := value_text event_tuple _).
    assert (∀ c, c ≠ x2e → c ≠ x30 → c ≠ x31 → c ∉ t) as Hno by (intros c; apply value_text_no). split_and!.
    + by apply Hno.
    + intros Hl. apply last_Some in Hl as [l Hl]. apply (Hno x0d); [done..|]. rewrite Hl. set_solver.
    + intros Hs. pose proof (value_text_ne event_tuple (client_event [] ev)) as Hne. fold t in Hne.
      unfold t, value_text in Hs. by rewrite TrimSpace_text in Hs.
    + cbn. rewrite <- (app_nil_r t). unfold t. by rewrite (text_value_text _ _ tuple_event_tuple).
Qed.

(** The circumstances of the calls of the examples: a store as the pull leaves it. *)
#[local] Existing Instance fuse_example.
Definition env_example : denv :=
  mkDenv (λ _, snd pull_example) 5 pick_example 4 [] (PrepareRef pick_example 5 (λ _, snd pull_example)) (λ _, None) (λ _, 0) 0
    (mkEnv (λ _, None) None None (λ _, true) [] id) calls_example (λ _, no_json) id id 2 (Missing pick_example 4) order_example
    [value_text event_tuple (mkCevent 1 3 None None [] [])] [].

Lemma progress_example : Forall progress_line (de_progress env_example).
Proof.
  repeat constructor. exists (mkCevent 1 3 None None [] []). split_and!; [|done..]. split_and!.
  - by apply value_text_no.
  - by vm_compute.
  - intros Hs. unfold value_text in Hs. rewrite TrimSpace_text in Hs. by destruct (encode _).
  - cbn. rewrite <- (app_nil_r (value_text event_tuple _)). by rewrite (text_value_text _ _ tuple_event_tuple).
Qed.

Definition client_pull_example : result (PullStats * bytes) * daemon :=
  c_RemotePull (d_serve render_example env_example) [] [x61] 0 0 (daemon_of empty_example).
Lemma client_pull_run : client_pull_example = (Ok (mkPullStats 3 201, hex_EncodeToString (kb root_example)), client_pull_example.2).
Proof. rewrite (surjective_pairing client_pull_example) at 1. refine (f_equal2 pair _ eq_refl). vm_compute. reflexivity. Qed.

Lemma client_pull_witness :
  ∃ c', holding client_pull_example.2 c' ∧ complete c' root_example ∧
    db_map (dm_refs client_pull_example.2) !! [x61] = Some (tree_record [x61]).
Proof.
  destruct (client_pull render_example env_example pick_example (λ _, snd pull_example) [] [x61] 0 0 (mkPullStats 3 201)
    (hex_EncodeToString (kb root_example)) (daemon_of empty_example) client_pull_example.2 ∅
    (conj contents_empty eq_refl) progress_example eq_refl ltac:(cbn; lia) (λ _, fetch_valid) order_valid missing_keeps client_pull_run)
    as (cl & raw & rec & root & c' & _ & Hg & Hdec & Hroot & _ & _ & Hdb & Hh & _ & Hc).
  injection Hg as <-. assert (root = root_example) as ->.
  { apply (f_equal (λ r : result Reference, r ← r; Key.Parse (ref_Key r))) in Hdec. cbn [mbind result_bind] in Hdec. rewrite Hroot in Hdec.
    assert (Ok root = Ok root_example) as [= ->]; [|done]. rewrite <- Hdec. vm_compute. reflexivity. }
  exists c'. split_and!; [exact Hh|exact Hc|]. rewrite Hdb, lookup_insert_eq. reflexivity.
Defined.

(** A record that is put, read and deleted. *)
Definition tree_ref : Reference :=
  let r sig := mkReference [x61] (kb root_example) [x75] 5 sig [x02] in r (put_sig ([x02], ns_bytes RefNamespace, put_ref (r []))).
#[local] Abbreviation put_example := (c_PutRef (d_serve render_example env_example) tree_ref (daemon_of empty_example)).
Lemma put_example_run : put_example = (Ok tt, put_example.2).
Proof. rewrite (surjective_pairing put_example) at 1. refine (f_equal2 pair _ eq_refl). vm_compute. reflexivity. Qed.

Lemma client_refs_witness :
  (c_GetRef (d_serve render_example env_example) (ref_Name tree_ref) put_example.2).1 = Ok tree_ref ∨
  ∃ e, (c_GetRef (d_serve render_example env_example) (ref_Name tree_ref) put_example.2).1 = Err e ∧ ¬ errors_Is e client_ErrRefNotFound.
Proof.
  destruct (client_refs render_example env_example env_example tree_ref (daemon_of empty_example) put_example.2 ltac:(unfold ref_wf; cbn; lia)) as [Hput _].
  exact (Hput put_example_run).
Defined.
Definition delete_example : result unit * daemon := c_DeleteRef (d_serve render_example env_example) [x61] put_example.2.
Example client_delete_run : delete_example.1 = Ok tt.
Proof. vm_compute. reflexivity. Qed.
Example client_get_deleted :
  (c_GetRef (d_serve render_example env_example) [x61] delete_example.2).1 = Err (Errorf "reference %q" (errors_New client_ErrRefNotFound)).
Proof. vm_compute. reflexivity. Qed.
End examples.
