(* ===== verification/Mount.v ===== *)
(** * The read-only mount ([cmd/amber-store/fuse_linux.go], [memfd_linux.go])

    A file is materialized in an anonymous file in memory when it is opened, shared by
    all openers of the same content, and kept for a while after its last close.  The
    parts of [acquire] between which the lock is not held are separate definitions, and
    so are steps that opens and closes of other files come between.  Backings are cells
    of a heap: an entry of the cache, an element of the idle list and an open handle may
    be the same cell.  The kernel and the FUSE library are not modelled. *)

From Stdlib Require Import Init.Byte.
From S2P Require Import Prelude Machine Key Chunkers FsEncode FsRead Inbox Text Sshsign Reference Auth Server Routes Posix Ingest Daemon Client.
From Stdlib Require Import ZifyBool ZifyNat.
Local Open Scope Z_scope.

(** ** Anonymous files *)

(** The open descriptors with the content of their files, and how the next calls turn
    out: an error comes with the number of bytes that were written before it. *)
Record memory := mkMemory { mem_fds : gmap nat bytes; mem_next : nat; mem_events : list (option (error * nat)) }.

Definition mem_pop (m : memory) : option (error * nat) * memory :=
  match mem_events m with
  | [] => (None, m)
  | e :: es => (e, mkMemory (mem_fds m) (mem_next m) es)
  end.
Definition mem_set (fd : nat) (content : bytes) (m : memory) : memory := mkMemory (<[fd := content]> (mem_fds m)) (mem_next m) (mem_events m).
Definition mem_close (fd : nat) (m : memory) : memory := mkMemory (delete fd (mem_fds m)) (mem_next m) (mem_events m).

Definition MemfdCreate (m : memory) : result nat * memory :=
  let '(e, m) := mem_pop m in
  match e with
  | Some (e, _) => (Err e, m)
  | None => (Ok (mem_next m), mkMemory (<[mem_next m := []]> (mem_fds m)) (S (mem_next m)) (mem_events m))
  end.

Definition mem_Truncate (fd : nat) (size : Z) (m : memory) : result unit * memory :=
  let '(e, m) := mem_pop m in
  match e with
  | Some (e, _) => (Err e, m)
  | None => (Ok tt, mem_set fd (replicate (Z.to_nat size) x00) m)
  end.

(** Bytes written from the start of a file. *)
Definition overwrite (data old : bytes) : bytes := data ++ drop (length data) old.

(** [io.Copy(f, r)]: the reader gives [body] and then [rerr], or its end. *)
Definition mem_Copy (fd : nat) (body : bytes) (rerr : option error) (m : memory) : result Z * memory :=
  let '(e, m) := mem_pop m in
  let old := default [] (mem_fds m !! fd) in
  match e with
  | Some (e, n) => (Err e, mem_set fd (overwrite (take n body) old) m)
  | None => (match rerr with Some e => Err e | None => Ok (zlen body) end, mem_set fd (overwrite body old) m)
  end.

Definition mem_Seek (m : memory) : result unit * memory :=
  let '(e, m) := mem_pop m in (match e with Some (e, _) => Err e | None => Ok tt end, m).

Definition newMemfd (size : Z) (body : bytes) (rerr : option error) (m : memory) : result nat * memory :=
  let '(r, m) := MemfdCreate m in
  match r with
  | Ok fd =>
      let '(r, m) := if size >? 0 then mem_Truncate fd size m else (Ok tt, m) in
      match wrap "sizing memfd to %d bytes" r with
      | Ok _ =>
          let '(r, m) := mem_Copy fd body rerr m in
          match wrap "filling memfd" r with
          | Ok n =>
              if negb (n =? size) then (Err (errors_New "short content: got %d bytes, want %d"), mem_close fd m) else
              let '(r, m) := mem_Seek m in
              match wrap "rewinding memfd" r with
              | Ok _ => (Ok fd, m)
              | r => (err_of r, mem_close fd m)
              end
          | r => (err_of r, mem_close fd m)
          end
      | r => (err_of r, mem_close fd m)
      end
  | r => (err_of (wrap "memfd_create" r), m)
  end.

(** ** The cache of materialized files *)
Record backing := mkBacking { b_fd : nat; b_k : Key; b_size : Z; b_refs : Z; b_el : bool (* is in the idle list *) }.

Record backingCache := mkCache {
  bc_maxIdle : Z;
  bc_heap : gmap nat backing;
  bc_next : nat;                 (* the next cell *)
  bc_byKey : gmap Key nat;
  bc_idle : list nat;            (* front: most recently released *)
  bc_idleSize : Z;
  bc_mem : memory;
}.

Definition newBackingCache (maxIdle : Z) (m : memory) : backingCache := mkCache maxIdle ∅ 0 ∅ [] 0 m.

Definition bc_set_mem (m : memory) (c : backingCache) : backingCache :=
  mkCache (bc_maxIdle c) (bc_heap c) (bc_next c) (bc_byKey c) (bc_idle c) (bc_idleSize c) m.
Definition bc_set_cell (id : nat) (b : backing) (c : backingCache) : backingCache :=
  mkCache (bc_maxIdle c) (<[id := b]> (bc_heap c)) (bc_next c) (bc_byKey c) (bc_idle c) (bc_idleSize c) (bc_mem c).
Definition bc_set_idle (idle : list nat) (size : Z) (c : backingCache) : backingCache :=
  mkCache (bc_maxIdle c) (bc_heap c) (bc_next c) (bc_byKey c) idle size (bc_mem c).
(** [delete(c.byKey, b.k); b.f.Close()] *)
Definition bc_drop (b : backing) (c : backingCache) : backingCache :=
  mkCache (bc_maxIdle c) (bc_heap c) (bc_next c) (delete (b_k b) (bc_byKey c)) (bc_idle c) (bc_idleSize c) (mem_close (b_fd b) (bc_mem c)).

Definition set_refs (n : Z) (b : backing) : backing := mkBacking (b_fd b) (b_k b) (b_size b) n (b_el b).
Definition set_el (el : bool) (b : backing) : backing := mkBacking (b_fd b) (b_k b) (b_size b) (b_refs b) el.

(** [c.idle.Remove(b.el); b.el = nil; c.idleSize -= b.size] *)
Definition idle_remove (id : nat) (b : backing) (c : backingCache) : backingCache :=
  bc_set_cell id (set_el false b) (bc_set_idle (filter (λ x, x ≠ id) (bc_idle c)) (i64 (bc_idleSize c - b_size b)) c).

Definition reuseLocked (id : nat) (c : backingCache) : backingCache :=
  match bc_heap c !! id with
  | None => c
  | Some b =>
      if (b_refs b =? 0) && b_el b
      then bc_set_cell id (set_refs (b_refs b + 1) (set_el false b)) (idle_remove id b c)
      else bc_set_cell id (set_refs (b_refs b + 1) b) c
  end.

(** [acquire] before it releases the lock. *)
Definition acquire_first (ck : Key) (c : backingCache) : option nat * backingCache :=
  match bc_byKey c !! ck with
  | Some id => (Some id, reuseLocked id c)
  | None => (None, c)
  end.

(** The file, from what the daemon sends for it. *)
Definition acquire_fetch (ck : Key) (file : result (bytes * option error)) (c : backingCache) : result nat * backingCache :=
  match file with
  | Ok (body, rerr) => let '(r, m) := newMemfd (i64 (Length ck)) body rerr (bc_mem c) in (r, bc_set_mem m c)
  | r => (err_of r, c)
  end.

(** [acquire] after it takes the lock again. *)
Definition acquire_last (ck : Key) (fd : nat) (c : backingCache) : nat * backingCache :=
  match bc_byKey c !! ck with
  | Some id => (id, reuseLocked id (bc_set_mem (mem_close fd (bc_mem c)) c))
  | None =>
      let id := bc_next c in
      (id, mkCache (bc_maxIdle c) (<[id := mkBacking fd ck (i64 (Length ck)) 1 false]> (bc_heap c)) (S id) (<[ck := id]> (bc_byKey c))
             (bc_idle c) (bc_idleSize c) (bc_mem c))
  end.

(** [acquire]; [others] is what other opens and closes do to the cache while it does
    not hold the lock. *)
Definition acquire (others : backingCache → backingCache) (file : Key → result (bytes * option error)) (ck : Key) (c : backingCache) :
    result nat * backingCache :=
  match acquire_first ck c with
  | (Some id, c) => (Ok id, c)
  | (None, c) =>
      match acquire_fetch ck (file ck) c with
      | (Ok fd, c) => let '(id, c) := acquire_last ck fd (others c) in (Ok id, c)
      | (r, c) => (r, c)
      end
  end.

Fixpoint evictLocked (fuel : nat) (c : backingCache) : backingCache :=
  match fuel with
  | O => c
  | S fuel =>
      if bc_idleSize c >? bc_maxIdle c then
        match last (bc_idle c) with
        | None => c
        | Some id =>
            match bc_heap c !! id with
            | None => c
            | Some b => evictLocked fuel (bc_drop b (idle_remove id b c))
            end
        end
      else c
  end.

Definition bc_release (id : nat) (c : backingCache) : backingCache :=
  match bc_heap c !! id with
  | None => c
  | Some b =>
      let b := set_refs (b_refs b - 1) b in
      let c := bc_set_cell id b c in
      if b_refs b >? 0 then c else
      if (bc_maxIdle c <=? 0) || (b_size b >? bc_maxIdle c) then bc_drop b c else
      let c := bc_set_cell id (set_el true b) (bc_set_idle (id :: bc_idle c) (i64 (bc_idleSize c + b_size b)) c) in
      evictLocked (S (length (bc_idle c))) c
  end.

Definition closeAll (c : backingCache) : backingCache :=
  let m := foldr (λ id m, match bc_heap c !! id with Some b => mem_close (b_fd b) m | None => m end) (bc_mem c) (map_to_list (bc_byKey c)).*2 in
  mkCache (bc_maxIdle c) (bc_heap c) (bc_next c) ∅ [] 0 m.

(** ** Nodes *)
Definition EIO : error := errors_New "input/output error".
Definition EROFS : error := errors_New "read-only file system".
Definition EFBIG : error := errors_New "file too large".

Record Attr := mkAttr { at_Mode : Z; at_Uid : Z; at_Gid : Z; at_Mtime : Z; at_Mtimensec : Z; at_Size : Z; at_Nlink : Z; at_Rdev : Z }.

Definition parseContentKey (s : bytes) : result Key := raw ← wrap "invalid content key %q" (hex_DecodeString s); Key.Parse raw.

Section nodes.
Context `{UnixDev}.

(** The access and change times are the modification time. *)
Definition fillAttr (e : lsEntry) : Attr :=
  let mode := u32 (ls_Mode e) in
  let ty := Z.land mode S_IFMT in
  let sized := (ty =? S_IFREG) || (ty =? S_IFLNK) in
  mkAttr mode (u32 (ls_UID e)) (u32 (ls_GID e))
    (if ls_MtimeNs e >? 0 then ls_MtimeNs e / 1000000000 else 0)
    (if ls_MtimeNs e >? 0 then ls_MtimeNs e mod 1000000000 else 0)
    (if sized then ls_Size e else 0)
    (if ty =? S_IFDIR then 2 else 1)
    (match ls_Rdev e with [major; minor] => u32 (Mkdev (u32 major) (u32 minor)) | _ => 0 end).

(** The state of a mount. *)
Record amberFS := mkAmberFS { fs_cache : backingCache; fs_maxFileSize : Z; fs_dirCache : gmap Key (list lsEntry); fs_fallbackReads : Z }.

(** [ls] is the client's listing of a directory. *)
Context (ls : Key → result (list lsEntry)).

Definition fs_entries (dirKey : Key) (f : amberFS) : result (list lsEntry) * amberFS :=
  match fs_dirCache f !! dirKey with
  | Some es => (Ok es, f)
  | None =>
      match ls dirKey with
      | Ok es => (Ok es, mkAmberFS (fs_cache f) (fs_maxFileSize f) (<[dirKey := es]> (fs_dirCache f)) (fs_fallbackReads f))
      | r => (r, f)
      end
  end.

(** The entries of the directory of a node. *)
Definition node_entries (ent : lsEntry) (f : amberFS) : result (list lsEntry) * amberFS :=
  match parseContentKey (ls_Key ent) with
  | Ok dirKey => let '(r, f) := fs_entries dirKey f in (match r with Err _ => Err EIO | r => r end, f)
  | Err _ => (Err EIO, f)
  | r => (err_of r, f)
  end.

(** A node is the entry that its directory has for it. *)
Definition Lookup (ent : lsEntry) (name : bytes) (f : amberFS) : result (lsEntry * Attr) * amberFS :=
  let '(r, f) := node_entries ent f in
  (match r with
   | Ok es => match list_find (λ e, ls_Name e = name) es with Some (_, e) => Ok (e, fillAttr e) | None => Err ENOENT end
   | r => err_of r
   end, f).

Definition Readdir (ent : lsEntry) (f : amberFS) : result (list (bytes * Z)) * amberFS :=
  let '(r, f) := node_entries ent f in
  (match r with
   | Ok es => Ok ((λ e, (ls_Name e, Z.land (u32 (ls_Mode e)) S_IFMT)) <$> es)
   | r => err_of r
   end, f).

Definition Getattr (ent : lsEntry) : Attr := fillAttr ent.
Definition Readlink (ent : lsEntry) : bytes := ls_LinkTarget ent.

Definition O_ACCMODE : Z := 3.
Definition O_RDONLY : Z := 0.

(** An open handle is the cell of its backing. *)
Definition fs_Open (others : backingCache → backingCache) (file : Key → result (bytes * option error)) (ent : lsEntry) (flags : Z) (f : amberFS) :
    result nat * amberFS :=
  if negb (Z.land flags O_ACCMODE =? O_RDONLY) then (Err EROFS, f) else
  match parseContentKey (ls_Key ent) with
  | Ok ck =>
      if (fs_maxFileSize f >? 0) && (i64 (Length ck) >? fs_maxFileSize f) then (Err EFBIG, f) else
      let '(r, c) := acquire others file ck (fs_cache f) in
      (match r with Err _ => Err EIO | r => r end, mkAmberFS c (fs_maxFileSize f) (fs_dirCache f) (fs_fallbackReads f))
  | Err _ => (Err EIO, f)
  | r => (err_of r, f)
  end.

(** What the kernel reads from the descriptor of a handle, directly or through [Read]:
    at most [n] bytes from [off]; a closed descriptor gives an error. *)
Definition handle_read (id : nat) (off n : nat) (c : backingCache) : result bytes :=
  match bc_heap c !! id with
  | Some b => match mem_fds (bc_mem c) !! b_fd b with
              | Some content => Ok (take n (drop off content))
              | None => Err (errors_New "bad file descriptor")
              end
  | None => Panic
  end.

Definition fs_Read (id : nat) (off n : nat) (f : amberFS) : result bytes * amberFS :=
  (handle_read id off n (fs_cache f), mkAmberFS (fs_cache f) (fs_maxFileSize f) (fs_dirCache f) (i64 (fs_fallbackReads f + 1))).

Definition fs_Release (id : nat) (f : amberFS) : amberFS :=
  mkAmberFS (bc_release id (fs_cache f)) (fs_maxFileSize f) (fs_dirCache f) (fs_fallbackReads f).

(** ** The directory to mount *)
Definition resolve_dir (comp : bytes) (k : Key) : result Key :=
  if bool_decide (comp = []) then Ok k else
  if negb (dir_key k) then Err (errors_New "path component %q: parent is not a directory") else
  es ← ls k;
  match list_find (λ e, ls_Name e = comp) es with
  | Some (_, e) => wrap "path component %q" (parseContentKey (ls_Key e))
  | None => Err (errors_New "path %q not found: no entry %q")
  end.

Definition resolveDirKey (root : Key) (subpath : bytes) : result Key := foldR resolve_dir (split_slash subpath) root.
End nodes.

(** The root of a mount. *)
Definition mount_root (uid gid : Z) (rootKey : Key) : lsEntry :=
  mkLs [] (Z.lor S_IFDIR 0x1ED) uid gid 0 0 (hex_EncodeToString (kb rootKey)) [] [].
Definition mountAmber (maxFileSize cacheBytes : Z) (m : memory) : amberFS := mkAmberFS (newBackingCache cacheBytes m) maxFileSize ∅ 0.

(** ** The cache of materialized files: its invariant

    Opens and closes interleave as the steps of [mt_step].  What every step preserves:
    a cached backing has an open descriptor with the bytes of its key, its count is the
    number of its handles, the idle list holds exactly the backings without handles and
    stays within its bound, and every descriptor that is open belongs to one backing or
    to one open that is under way. *)

(** ** Anonymous files *)
Definition mem_fresh (m : memory) : Prop := ∀ fd, is_Some (mem_fds m !! fd) → (fd < mem_next m)%nat.

Lemma mem_pop_same m : mem_fds (mem_pop m).2 = mem_fds m ∧ mem_next (mem_pop m).2 = mem_next m.
Proof. unfold mem_pop. by destruct (mem_events m). Qed.

Lemma fresh_none m : mem_fresh m → mem_fds m !! mem_next m = None.
Proof. intros Hf. destruct (mem_fds m !! mem_next m) as [x|] eqn:E; [|done]. specialize (Hf (mem_next m)). rewrite E in Hf. specialize (Hf ltac:(by eexists)). lia. Qed.

Definition mem_post (size : Z) (body : bytes) (rerr : option error) (m : memory) (r : result nat) (m' : memory) : Prop :=
  (mem_next m ≤ mem_next m')%nat ∧
  match r with
  | Ok fd => rerr = None ∧ zlen body = size ∧ fd = mem_next m ∧ (fd < mem_next m')%nat ∧ mem_fds m' = <[fd := body]> (mem_fds m)
  | Err _ => mem_fds m' = mem_fds m
  | _ => False
  end.

(** A materialized file has exactly the bytes that were read; a failure leaves no
    descriptor behind. *)
Lemma newMemfd_spec size body rerr m : mem_fresh m →
  mem_post size body rerr m (newMemfd size body rerr m).1 (newMemfd size body rerr m).2.
Proof.
  intros Hfr. pose proof (fresh_none m Hfr) as Hnone. unfold newMemfd, MemfdCreate.
  pose proof (mem_pop_same m) as Hp. destruct (mem_pop m) as [e0 m0]. cbn [snd] in Hp. destruct Hp as [Hf0 Hn0].
  destruct e0 as [[e0 n0]|]; [split; cbn; [lia|done]|]. set (fd := mem_next m0) in *.
  set (m1 := mkMemory (<[fd := []]> (mem_fds m0)) (S fd) (mem_events m0)).
  assert (∀ m', mem_next m' = S fd → (∃ x, mem_fds m' = <[fd := x]> (mem_fds m)) → ∀ e, mem_post size body rerr m (Err e) (mem_close fd m')) as Hfail.
  { intros m' Hn' [x Hx] e. unfold mem_post, mem_close. cbn. split; [lia|]. rewrite Hx. apply delete_insert_id. congruence. }
  assert (mem_next m1 = S fd ∧ ∃ x, mem_fds m1 = <[fd := x]> (mem_fds m) ∧ (length x <= Z.to_nat size)%nat) as Hm1.
  { split; [done|]. exists []. split; [cbn; congruence|cbn; lia]. }
  assert (∀ rm, rm = (if size >? 0 then mem_Truncate fd size m1 else (Ok tt, m1)) →
    mem_next rm.2 = S fd ∧ (∃ x, mem_fds rm.2 = <[fd := x]> (mem_fds m) ∧ (length x <= Z.to_nat size)%nat) ∧ safe rm.1) as Htr.
  { intros rm ->. destruct (size >? 0); [|by destruct Hm1 as [? ?]]. unfold mem_Truncate.
    pose proof (mem_pop_same m1) as Hp. destruct (mem_pop m1) as [[[e n]|] m2]; cbn in Hp |- *; destruct Hp as [Hf2 Hn2]; destruct Hm1 as [_ (x & Hx & Hl)]; cbn in Hx.
    - split_and!; [done| |done..]. exists x. by rewrite Hf2.
    - split_and!; [done| |done..]. rewrite Hf2. exists (replicate (Z.to_nat size) x00). rewrite Hx, insert_insert_eq, length_replicate. done. }
  specialize (Htr _ eq_refl). destruct (if size >? 0 then _ else _) as [r2 m2]. cbn [fst snd] in Htr.
  destruct Htr as (Hn2 & (x2 & Hx2 & Hl2) & Hs2).
  destruct r2 as [[]|e2| |]; [|cbn [wrap err_of fst snd]; apply Hfail; eauto|by destruct Hs2..]. cbn [wrap].
  unfold mem_Copy. pose proof (mem_pop_same m2) as Hp. destruct (mem_pop m2) as [[[e3 n3]|] m3]; cbn [snd] in Hp; destruct Hp as [Hf3 Hn3].
  { cbn [wrap err_of fst snd]. apply Hfail; cbn; [lia|]. rewrite Hf3, Hx2, insert_insert_eq. eauto. }
  rewrite Hf3, Hx2, lookup_insert_eq. cbn [default from_option id].
  assert (∀ y, mem_next (mem_set fd y m3) = S fd ∧ mem_fds (mem_set fd y m3) = <[fd := y]> (mem_fds m)) as Hset.
  { intros y. cbn. rewrite Hf3, Hx2, insert_insert_eq. split; [lia|done]. }
  destruct rerr as [e4|]; cbn [wrap err_of fst snd].
  { apply Hfail; [apply Hset|]. destruct (Hset (overwrite body x2)) as [_ ->]. eauto. }
  destruct (negb (zlen body =? size)) eqn:Hz. { apply Hfail; [apply Hset|]. destruct (Hset (overwrite body x2)) as [_ ->]. eauto. }
  unfold mem_Seek. destruct (Hset (overwrite body x2)) as [Hn4 Hf4]. pose proof (mem_pop_same (mem_set fd (overwrite body x2) m3)) as Hp.
  destruct (mem_pop (mem_set _ _ _)) as [[[e5 n5]|] m5]; cbn [snd] in Hp; destruct Hp as [Hf5 Hn5]; cbn [wrap err_of fst snd].
  { apply Hfail; [lia|]. rewrite Hf5, Hf4. eauto. }
  split; [lia|]. split_and!; [done|lia|lia|lia|]. rewrite Hf5, Hf4. f_equal. unfold overwrite. rewrite drop_ge, app_nil_r; [done|]. lia.
Qed.

(** ** Opens and closes *)
Section cache.
(** What the daemon may send for a key. *)
Context (delivers : Key → bytes → Prop).

(** The cache, the opens that do not hold the lock, with the descriptor that they have
    filled, and the open handles with the key that each was opened for. *)
Record mount := mkMount { mt_cache : backingCache; mt_pending : list (Key * option nat); mt_handles : list (Key * nat) }.

Inductive mt_step : mount → mount → Prop :=
| mt_hit c P H k id c' : acquire_first k c = (Some id, c') → mt_step (mkMount c P H) (mkMount c' P ((k, id) :: H))
| mt_miss c P H k c' : acquire_first k c = (None, c') → mt_step (mkMount c P H) (mkMount c' ((k, None) :: P) H)
| mt_fetch c P1 P2 H k body rerr fd c' :
    (rerr = None → delivers k body) → acquire_fetch k (Ok (body, rerr)) c = (Ok fd, c') →
    mt_step (mkMount c (P1 ++ (k, None) :: P2) H) (mkMount c' (P1 ++ (k, Some fd) :: P2) H)
| mt_fail c P1 P2 H k file e c' : acquire_fetch k file c = (Err e, c') →
    mt_step (mkMount c (P1 ++ (k, None) :: P2) H) (mkMount c' (P1 ++ P2) H)
| mt_last c P1 P2 H k fd id c' : acquire_last k fd c = (id, c') →
    mt_step (mkMount c (P1 ++ (k, Some fd) :: P2) H) (mkMount c' (P1 ++ P2) ((k, id) :: H))
| mt_close c P H1 H2 k id : mt_step (mkMount c P (H1 ++ (k, id) :: H2)) (mkMount (bc_release id c) P (H1 ++ H2)).

(** ** The invariant *)
Definition good_fd (m : memory) (k : Key) (fd : nat) : Prop :=
  ∃ content, mem_fds m !! fd = Some content ∧ zlen content = i64 (Length k) ∧ delivers k content.
Definition uses (id : nat) (H : list (Key * nat)) : Z := Z.of_nat (length (filter (λ p, p.2 = id) H)).

Definition fd_of (heap : gmap nat backing) (id : nat) : nat := default 0%nat (b_fd <$> heap !! id).
Definition size_of (heap : gmap nat backing) (id : nat) : Z := default 0 (b_size <$> heap !! id).
Definition cached_fds (heap : gmap nat backing) (byKey : gmap Key nat) : list nat := (λ p, fd_of heap p.2) <$> map_to_list byKey.
Definition pending_fds (P : list (Key * option nat)) : list nat := omap snd P.
Definition sizes (heap : gmap nat backing) (ids : list nat) : Z := foldr (λ id n, size_of heap id + n) 0 ids.

Record cell_ok (m : memory) (idle : list nat) (H : list (Key * nat)) (k : Key) (id : nat) (b : backing) : Prop := mkCell {
  cell_key : b_k b = k;
  cell_size : b_size b = i64 (Length k);
  cell_fd : good_fd m k (b_fd b);
  cell_refs : b_refs b = uses id H;
  cell_el : b_el b = true ↔ id ∈ idle;
  cell_idle : id ∈ idle ↔ b_refs b = 0;
}.

Record cache_ok (c : backingCache) (P : list (Key * option nat)) (H : list (Key * nat)) : Prop := mkCacheOk {
  co_cell k id : bc_byKey c !! k = Some id → ∃ b, bc_heap c !! id = Some b ∧ cell_ok (bc_mem c) (bc_idle c) H k id b;
  co_handle k id : (k, id) ∈ H → bc_byKey c !! k = Some id;
  co_idle id : id ∈ bc_idle c → ∃ k, bc_byKey c !! k = Some id;
  co_nodup : NoDup (bc_idle c);
  co_sum : bc_idleSize c = sizes (bc_heap c) (bc_idle c);
  co_range : bc_idleSize c < 2 ^ 63;
  co_pending k fd : (k, Some fd) ∈ P → good_fd (bc_mem c) k fd;
  co_fds : (map_to_list (mem_fds (bc_mem c))).*1 ≡ₚ cached_fds (bc_heap c) (bc_byKey c) ++ pending_fds P;
  co_mem : mem_fresh (bc_mem c);
  co_next id : is_Some (bc_heap c !! id) → (id < bc_next c)%nat;
}.

(** ** Lists of descriptors *)
Lemma cached_delete heap byKey k id : byKey !! k = Some id →
  cached_fds heap byKey ≡ₚ fd_of heap id :: cached_fds heap (delete k byKey).
Proof. intros Hk. unfold cached_fds. by rewrite <- (map_to_list_delete byKey k id Hk). Qed.

Lemma cached_insert heap byKey k id : byKey !! k = None →
  cached_fds heap (<[k := id]> byKey) ≡ₚ fd_of heap id :: cached_fds heap byKey.
Proof. intros Hk. unfold cached_fds. by rewrite map_to_list_insert. Qed.

Lemma cached_ext heap heap' byKey : (∀ k id, byKey !! k = Some id → fd_of heap' id = fd_of heap id) → cached_fds heap' byKey = cached_fds heap byKey.
Proof. intros Hext. apply list_fmap_ext. intros i [k id] Hi. apply list_elem_of_lookup_2, elem_of_map_to_list in Hi. eauto. Qed.

Lemma cached_in heap byKey k id : byKey !! k = Some id → fd_of heap id ∈ cached_fds heap byKey.
Proof. intros Hk. rewrite (cached_delete _ _ _ _ Hk). left. Qed.

Lemma pending_mid P1 k o P2 : pending_fds (P1 ++ (k, o) :: P2) ≡ₚ option_list o ++ pending_fds (P1 ++ P2).
Proof. unfold pending_fds. rewrite !omap_app. cbn. destruct o as [fd|]; cbn; [|done]. by rewrite Permutation_middle. Qed.

Lemma pending_in P k fd : (k, Some fd) ∈ P → fd ∈ pending_fds P.
Proof. intros Hin. apply list_elem_of_omap. by exists (k, Some fd). Qed.

Lemma fds_insert (m : memory) (fd : nat) content : mem_fds m !! fd = None →
  (map_to_list (<[fd := content]> (mem_fds m))).*1 ≡ₚ fd :: (map_to_list (mem_fds m)).*1.
Proof. intros Hn. by rewrite map_to_list_insert. Qed.

Lemma fds_delete (m : memory) (fd : nat) : is_Some (mem_fds m !! fd) →
  (map_to_list (mem_fds m)).*1 ≡ₚ fd :: (map_to_list (delete fd (mem_fds m))).*1.
Proof. intros [x Hx]. by rewrite <- (map_to_list_delete (mem_fds m) fd x Hx). Qed.

Lemma good_close m k fd fd' : fd ≠ fd' → good_fd m k fd → good_fd (mem_close fd' m) k fd.
Proof. intros Hne (x & Hx & Hr). exists x. split; [|done]. cbn. by rewrite lookup_delete_ne. Qed.

Lemma good_same m m' k fd : (∀ fd x, mem_fds m !! fd = Some x → mem_fds m' !! fd = Some x) → good_fd m k fd → good_fd m' k fd.
Proof. intros Hs (x & Hx & Hr). exists x. split; [by apply Hs|done]. Qed.

Lemma uses_cons k id id' H : uses id' ((k, id) :: H) = uses id' H + (if decide (id' = id) then 1 else 0).
Proof. unfold uses. rewrite filter_cons. cbn [snd]. destruct (decide (id' = id)) as [->|Hne]; destruct (decide _); cbn; (congruence || lia). Qed.

Lemma uses_mid k id id' H1 H2 : uses id' (H1 ++ (k, id) :: H2) = uses id' (H1 ++ H2) + (if decide (id' = id) then 1 else 0).
Proof. unfold uses. rewrite !filter_app, !length_app. pose proof (uses_cons k id id' H2) as E. unfold uses in E. lia. Qed.

Lemma uses_pos k id H : (k, id) ∈ H → 0 < uses id H.
Proof. intros (H1 & H2 & ->)%list_elem_of_split. rewrite uses_mid, decide_True by done. unfold uses. lia. Qed.

Lemma sizes_ext heap heap' ids : (∀ id, size_of heap' id = size_of heap id) → sizes heap' ids = sizes heap ids.
Proof. intros He. unfold sizes. induction ids as [|id ids IH]; cbn; [done|]. by rewrite He, IH. Qed.

Lemma size_same heap id b b' : heap !! id = Some b → b_size b' = b_size b → ∀ x, size_of (<[id := b']> heap) x = size_of heap x.
Proof. intros Hb Hs x. unfold size_of. destruct (decide (x = id)) as [->|Hne]; [by rewrite lookup_insert_eq, Hb; cbn|by rewrite lookup_insert_ne]. Qed.

Lemma fd_same heap id b b' : heap !! id = Some b → b_fd b' = b_fd b → ∀ x, fd_of (<[id := b']> heap) x = fd_of heap x.
Proof. intros Hb Hs x. unfold fd_of. destruct (decide (x = id)) as [->|Hne]; [by rewrite lookup_insert_eq, Hb; cbn|by rewrite lookup_insert_ne]. Qed.

Lemma filter_other (id : nat) (ids : list nat) : id ∉ ids → filter (λ x, x ≠ id) ids = ids.
Proof.
  induction ids as [|x ids IH]; [done|]. intros [Hne Hni]%not_elem_of_cons. rewrite filter_cons, decide_True by done. by rewrite IH.
Qed.

Lemma sizes_filter heap id ids : NoDup ids → id ∈ ids → sizes heap (filter (λ x, x ≠ id) ids) = sizes heap ids - size_of heap id.
Proof.
  induction ids as [|x ids IH]; [by intros _ ?%elem_of_nil|]. intros [Hx Hnd]%NoDup_cons. rewrite filter_cons. cbn [sizes foldr].
  intros [->|Hin]%elem_of_cons.
  - rewrite decide_False by (intros Hc; by apply Hc). rewrite filter_other by done. unfold sizes. lia.
  - rewrite decide_True by (intros ->; done). cbn [sizes foldr]. specialize (IH Hnd Hin). unfold sizes in *. lia.
Qed.

(** ** Updates of one backing *)
Lemma cell_unique c P H k k' id : cache_ok c P H → bc_byKey c !! k = Some id → bc_byKey c !! k' = Some id → k = k'.
Proof.
  intros Hok Hk Hk'. destruct (co_cell _ _ _ Hok _ _ Hk) as (b & Hb & Hc). destruct (co_cell _ _ _ Hok _ _ Hk') as (b' & Hb' & Hc').
  rewrite Hb in Hb'. injection Hb' as <-. rewrite <- (cell_key _ _ _ _ _ _ Hc). apply Hc'.
Qed.

Lemma size_pos c P H k id : cache_ok c P H → bc_byKey c !! k = Some id → 0 <= size_of (bc_heap c) id.
Proof.
  intros Hok Hk. destruct (co_cell _ _ _ Hok _ _ Hk) as (b & Hb & Hc). unfold size_of. rewrite Hb. cbn.
  rewrite (cell_size _ _ _ _ _ _ Hc). destruct (cell_fd _ _ _ _ _ _ Hc) as (x & _ & <- & _). lia.
Qed.

Lemma sizes_pos c P H ids : cache_ok c P H → (∀ id, id ∈ ids → ∃ k, bc_byKey c !! k = Some id) → 0 <= sizes (bc_heap c) ids.
Proof.
  intros Hok. induction ids as [|id ids IH]; intros Hin; cbn; [lia|]. destruct (Hin id ltac:(left)) as [k Hk].
  pose proof (size_pos _ _ _ _ _ Hok Hk). specialize (IH ltac:(intros; apply Hin; by right)). unfold sizes in *. lia.
Qed.

(** A change of the count of a backing and of its place in the idle list. *)
Lemma update_ok c P H H' k id b b' idle' size' :
  cache_ok c P H → bc_byKey c !! k = Some id → bc_heap c !! id = Some b →
  b_fd b' = b_fd b → b_k b' = b_k b → b_size b' = b_size b →
  b_refs b' = uses id H' → (b_el b' = true ↔ id ∈ idle') → (id ∈ idle' ↔ b_refs b' = 0) →
  (∀ x, x ≠ id → uses x H' = uses x H ∧ (x ∈ idle' ↔ x ∈ bc_idle c)) →
  (∀ k' x, (k', x) ∈ H' → bc_byKey c !! k' = Some x) → NoDup idle' → size' = sizes (bc_heap c) idle' → size' < 2 ^ 63 →
  cache_ok (mkCache (bc_maxIdle c) (<[id := b']> (bc_heap c)) (bc_next c) (bc_byKey c) idle' size' (bc_mem c)) P H'.
Proof.
  intros Hok Hk Hb Hfd Hbk Hsz Hrefs Hel Hidle Hoth HH Hnd Hsum Hlt. destruct (co_cell _ _ _ Hok _ _ Hk) as (b0 & Hb0 & Hc).
  rewrite Hb in Hb0. injection Hb0 as <-. split; cbn; try apply Hok; try done.
  - intros k' x Hx. destruct (decide (x = id)) as [->|Hne].
    + rewrite (cell_unique _ _ _ _ _ _ Hok Hx Hk). exists b'. rewrite lookup_insert_eq. split; [done|]. destruct Hc. split; try done; congruence.
    + rewrite lookup_insert_ne by done. destruct (co_cell _ _ _ Hok _ _ Hx) as (b1 & Hb1 & Hc1). exists b1. split; [done|].
      destruct (Hoth x Hne) as [Hu Hi]. destruct Hc1. split; try done; by rewrite ?Hu, ?Hi.
  - intros x Hx. destruct (decide (x = id)) as [->|Hne]; [eauto|]. apply (co_idle _ _ _ Hok). by apply (Hoth x Hne).
  - rewrite Hsum. symmetry. apply sizes_ext, (size_same _ _ b); done.
  - rewrite (cached_ext (bc_heap c)); [apply Hok|]. intros. by apply (fd_same _ _ b).
  - intros x Hx. apply (co_next _ _ _ Hok). destruct (decide (x = id)) as [->|Hne]; [eauto|]. by rewrite lookup_insert_ne in Hx.
Qed.

(** A backing without handles that is closed. *)
Lemma drop_ok c P H H' k id b heap' idle' size' :
  cache_ok c P H → bc_byKey c !! k = Some id → bc_heap c !! id = Some b →
  (∀ x, x ≠ id → heap' !! x = bc_heap c !! x) → (is_Some (heap' !! id)) →
  uses id H' = 0 → (∀ x, x ≠ id → uses x H' = uses x H ∧ (x ∈ idle' ↔ x ∈ bc_idle c)) → id ∉ idle' →
  (∀ k' x, (k', x) ∈ H' → bc_byKey c !! k' = Some x) → NoDup idle' → size' = sizes (bc_heap c) idle' → size' < 2 ^ 63 →
  cache_ok (mkCache (bc_maxIdle c) heap' (bc_next c) (delete k (bc_byKey c)) idle' size' (mem_close (b_fd b) (bc_mem c))) P H'.
Proof.
  intros Hok Hk Hb Hheap Hid Huse Hoth Hnid HH Hnd Hsum Hlt. pose proof (co_fds _ _ _ Hok) as Hperm.
  assert (fd_of (bc_heap c) id = b_fd b) as Hfd by (unfold fd_of; by rewrite Hb).
  rewrite (cached_delete _ _ _ _ Hk), Hfd in Hperm. cbn [app] in Hperm.
  pose proof (NoDup_fst_map_to_list (mem_fds (bc_mem c))) as Hnodup. rewrite Hperm in Hnodup. apply NoDup_cons in Hnodup as [Hnew Hnodup].
  assert (is_Some (mem_fds (bc_mem c) !! b_fd b)) as Hopen.
  { destruct (co_cell _ _ _ Hok _ _ Hk) as (b0 & Hb0 & Hc). rewrite Hb in Hb0. injection Hb0 as <-. destruct (cell_fd _ _ _ _ _ _ Hc) as (x & -> & _). eauto. }
  assert (∀ k' x, delete k (bc_byKey c) !! k' = Some x → x ≠ id ∧ bc_byKey c !! k' = Some x ∧ fd_of (bc_heap c) x ≠ b_fd b) as Hrest.
  { intros k' x Hx. pose proof Hx as Hx'. apply lookup_delete_Some in Hx as [Hne Hx]. split_and!; [|done|].
    - intros ->. by rewrite (cell_unique _ _ _ _ _ _ Hok Hk Hx) in Hne.
    - intros E. apply Hnew, elem_of_app. left. rewrite <- E. by apply (cached_in _ _ k'). }
  split; cbn; try done.
  - intros k' x Hx. destruct (Hrest k' x Hx) as (Hne & Hx' & Hfdne). rewrite Hheap by done.
    destruct (co_cell _ _ _ Hok _ _ Hx') as (b1 & Hb1 & Hc1). exists b1. split; [done|]. destruct (Hoth x Hne) as [Hu Hi]. destruct Hc1.
    split; try done; rewrite ?Hu, ?Hi; try done. apply good_close; [|done]. unfold fd_of in Hfdne. by rewrite Hb1 in Hfdne.
  - intros k' x Hin. apply lookup_delete_Some. split; [|by apply HH]. intros <-. apply HH in Hin as Hx. rewrite Hk in Hx. injection Hx as <-.
    apply uses_pos in Hin. lia.
  - intros x Hx. assert (x ≠ id) as Hne by (intros ->; done). destruct (co_idle _ _ _ Hok x) as [k' Hk']; [by apply (Hoth x Hne)|].
    exists k'. apply lookup_delete_Some. split; [|done]. intros <-. congruence.
  - rewrite Hsum. clear -Hheap Hnid. unfold sizes. induction idle' as [|x l IH]; cbn; [done|].
    apply not_elem_of_cons in Hnid as [Hne Hnid]. rewrite (IH Hnid). f_equal. unfold size_of. by rewrite Hheap.
  - intros k' fd Hin. apply good_close; [|by apply (co_pending _ _ _ Hok)]. intros ->. apply Hnew, elem_of_app. right. by eapply pending_in.
  - rewrite (fds_delete _ _ Hopen) in Hperm. apply Permutation_cons_inv in Hperm. rewrite Hperm. f_equiv.
    rewrite (cached_ext (bc_heap c) heap'); [done|]. intros k' x Hx. destruct (Hrest k' x Hx) as (Hne & _ & _). unfold fd_of. by rewrite Hheap.
  - intros fd [y Hy]. apply (co_mem _ _ _ Hok). cbn in Hy. apply lookup_delete_Some in Hy as [_ Hy]. eauto.
  - intros x Hx. apply (co_next _ _ _ Hok). destruct (decide (x = id)) as [->|Hne]; [eauto|]. by rewrite <- Hheap.
Qed.

(** ** The operations *)
Definition within (c : backingCache) : Prop := bc_idleSize c <= Z.max 0 (bc_maxIdle c).

Lemma idle_elem (x id : nat) (l : list nat) : x ∈ filter (λ x, x ≠ id) l ↔ x ≠ id ∧ x ∈ l.
Proof. by rewrite list_elem_of_filter. Qed.

Lemma reuse_ok c P H k id : cache_ok c P H → bc_byKey c !! k = Some id →
  cache_ok (reuseLocked id c) P ((k, id) :: H) ∧ bc_idleSize (reuseLocked id c) <= bc_idleSize c ∧ bc_maxIdle (reuseLocked id c) = bc_maxIdle c.
Proof.
  intros Hok Hk. destruct (co_cell _ _ _ Hok _ _ Hk) as (b & Hb & Hc). unfold reuseLocked. rewrite Hb.
  pose proof (cell_el _ _ _ _ _ _ Hc) as Hel. pose proof (cell_idle _ _ _ _ _ _ Hc) as Hidle. pose proof (cell_refs _ _ _ _ _ _ Hc) as Hrefs.
  assert (∀ k' x, (k', x) ∈ (k, id) :: H → bc_byKey c !! k' = Some x) as HH.
  { intros k' x [[= -> ->]|Hin]%elem_of_cons; [done|by apply (co_handle _ _ _ Hok)]. }
  assert (uses id ((k, id) :: H) = b_refs b + 1) as Hu by (rewrite uses_cons, decide_True by done; lia).
  assert (0 <= uses id H) by (unfold uses; lia).
  destruct ((b_refs b =? 0) && b_el b) eqn:E.
  - assert (id ∈ bc_idle c) as Hin by (apply Hidle; lia). pose proof (sizes_filter (bc_heap c) id (bc_idle c) (co_nodup _ _ _ Hok) Hin) as Hs.
    pose proof (co_range _ _ _ Hok). pose proof (co_sum _ _ _ Hok) as Hsum. pose proof (size_pos _ _ _ _ _ Hok Hk).
    assert (size_of (bc_heap c) id = b_size b) as Hsz by (unfold size_of; by rewrite Hb).
    pose proof (sizes_pos _ _ _ (filter (λ x, x ≠ id) (bc_idle c)) Hok ltac:(intros x [_ Hx]%idle_elem; by apply (co_idle _ _ _ Hok))).
    assert (i64 (bc_idleSize c - b_size b) = sizes (bc_heap c) (filter (λ x, x ≠ id) (bc_idle c))) as Hi by (rewrite i64_small; lia).
    unfold idle_remove, bc_set_cell, bc_set_idle. cbn. rewrite insert_insert_eq. split; [|split; [rewrite Hi; lia|done]].
    apply (update_ok c P H _ k id b); cbn; try done.
    + split; [done|]. by intros [? _]%idle_elem.
    + rewrite idle_elem. lia.
    + intros x Hne. rewrite uses_cons, decide_False, idle_elem by done. split; [lia|naive_solver].
    + apply NoDup_filter, Hok.
    + rewrite Hi. lia.
  - split; [|done]. apply (update_ok c P H _ k id b); cbn; try done; try apply Hok.
    + split; [|lia]. intros Hin. pose proof (proj2 Hel Hin) as Ht. apply Hidle in Hin. rewrite Ht, Hin in E. done.
    + intros x Hne. rewrite uses_cons, decide_False by done. split; [lia|done].
Qed.

(** Eviction ends with the idle files within their bound. *)
Lemma evict_ok n : ∀ c P H, cache_ok c P H → (length (bc_idle c) < n)%nat → 0 < bc_maxIdle c →
  cache_ok (evictLocked n c) P H ∧ within (evictLocked n c) ∧ bc_maxIdle (evictLocked n c) = bc_maxIdle c.
Proof.
  induction n as [|n IH]; intros c P H Hok Hlen Hmax; [lia|]. cbn [evictLocked]. destruct (bc_idleSize c >? bc_maxIdle c) eqn:E.
  2:{ split; [done|]. split; [unfold within; lia|done]. }
  pose proof (co_sum _ _ _ Hok) as Hsum. pose proof (co_range _ _ _ Hok).
  destruct (last (bc_idle c)) as [id|] eqn:Hl. 2:{ apply last_None in Hl. rewrite Hl in Hsum. cbn in Hsum. lia. }
  assert (id ∈ bc_idle c) as Hin by (by apply last_Some_elem_of). destruct (co_idle _ _ _ Hok id Hin) as [k Hk].
  destruct (co_cell _ _ _ Hok _ _ Hk) as (b & Hb & Hc). rewrite Hb.
  pose proof (sizes_filter (bc_heap c) id (bc_idle c) (co_nodup _ _ _ Hok) Hin) as Hs. pose proof (size_pos _ _ _ _ _ Hok Hk).
  assert (size_of (bc_heap c) id = b_size b) as Hsz by (unfold size_of; by rewrite Hb).
  pose proof (sizes_pos _ _ _ (filter (λ x, x ≠ id) (bc_idle c)) Hok ltac:(intros x [_ Hx]%idle_elem; by apply (co_idle _ _ _ Hok))).
  assert (i64 (bc_idleSize c - b_size b) = sizes (bc_heap c) (filter (λ x, x ≠ id) (bc_idle c))) as Hi by (rewrite i64_small; lia).
  assert (length (filter (λ x, x ≠ id) (bc_idle c)) < length (bc_idle c))%nat as Hshort.
  { apply list_elem_of_split in Hin as (l1 & l2 & El). rewrite El, filter_app, filter_cons, decide_False by (intros Hx; by apply Hx).
    rewrite !length_app. cbn. pose proof (length_filter (λ x, x ≠ id) l1). pose proof (length_filter (λ x, x ≠ id) l2). lia. }
  unfold bc_drop, idle_remove, bc_set_cell, bc_set_idle. cbn. rewrite (cell_key _ _ _ _ _ _ Hc). refine (IH (mkCache _ _ _ _ _ _ _) P H _ _ _); cbn; [|lia|done].
  apply (drop_ok c P H H k id b); try done.
  - intros x Hne. by rewrite lookup_insert_ne.
  - rewrite lookup_insert_eq. eauto.
  - rewrite <- (cell_refs _ _ _ _ _ _ Hc). by apply (cell_idle _ _ _ _ _ _ Hc).
  - intros x Hne. rewrite idle_elem. naive_solver.
  - by intros [? _]%idle_elem.
  - apply Hok.
  - apply NoDup_filter, Hok.
  - lia.
Qed.

Lemma release_ok c P H1 H2 k id : cache_ok c P (H1 ++ (k, id) :: H2) → within c → bc_maxIdle c < 2 ^ 62 →
  cache_ok (bc_release id c) P (H1 ++ H2) ∧ within (bc_release id c) ∧ bc_maxIdle (bc_release id c) = bc_maxIdle c.
Proof.
  intros Hok Hw Hmax. assert (bc_byKey c !! k = Some id) as Hk by (apply (co_handle _ _ _ Hok), elem_of_app; right; left).
  destruct (co_cell _ _ _ Hok _ _ Hk) as (b & Hb & Hc). unfold bc_release. rewrite Hb. cbn [b_refs set_refs b_size bc_maxIdle bc_set_cell].
  pose proof (cell_el _ _ _ _ _ _ Hc) as Hel. pose proof (cell_idle _ _ _ _ _ _ Hc) as Hidle. pose proof (cell_refs _ _ _ _ _ _ Hc) as Hrefs.
  rewrite uses_mid, decide_True in Hrefs by done. assert (0 <= uses id (H1 ++ H2)) by (unfold uses; lia).
  assert (id ∉ bc_idle c) as Hni by (rewrite Hidle; lia).
  assert (∀ k' x, (k', x) ∈ H1 ++ H2 → bc_byKey c !! k' = Some x) as HH.
  { intros k' x Hin. apply (co_handle _ _ _ Hok). rewrite elem_of_app, elem_of_cons in *. naive_solver. }
  assert (∀ x, x ≠ id → uses x (H1 ++ H2) = uses x (H1 ++ (k, id) :: H2)) as Huse.
  { intros x Hne. rewrite uses_mid, decide_False by done. lia. }
  pose proof (co_sum _ _ _ Hok) as Hsum. pose proof (co_range _ _ _ Hok). pose proof (size_pos _ _ _ _ _ Hok Hk).
  assert (size_of (bc_heap c) id = b_size b) as Hsz by (unfold size_of; by rewrite Hb).
  destruct (b_refs b - 1 >? 0) eqn:E1.
  { split; [|split; [exact Hw|done]]. apply (update_ok c P (H1 ++ (k, id) :: H2) (H1 ++ H2) k id b); cbn; try done; try apply Hok; [lia|rewrite Hidle; lia|]. intros x Hne. by rewrite Huse. }
  destruct ((bc_maxIdle c <=? 0) || (b_size b >? bc_maxIdle c)) eqn:E2.
  { unfold bc_drop, bc_set_cell. cbn. rewrite (cell_key _ _ _ _ _ _ Hc). split; [|split; [exact Hw|done]].
    apply (drop_ok c P (H1 ++ (k, id) :: H2) (H1 ++ H2) k id b); try done; try apply Hok.
    - intros x Hne. by rewrite lookup_insert_ne.
    - rewrite lookup_insert_eq. eauto.
    - lia.
    - intros x Hne. by rewrite Huse. }
  unfold bc_set_cell, bc_set_idle. cbn [bc_idle bc_idleSize bc_heap bc_next bc_byKey bc_mem bc_maxIdle]. rewrite insert_insert_eq. unfold within in Hw.
  pose proof (sizes_pos _ _ _ (bc_idle c) Hok ltac:(apply Hok)). assert (i64 (bc_idleSize c + b_size b) = bc_idleSize c + b_size b) as Hi by (rewrite i64_small; lia).
  rewrite Hi.
  match goal with |- context [evictLocked ?n ?c'] => destruct (evict_ok n c' P (H1 ++ H2)) as (? & ? & ?); [|cbn; lia|cbn; lia|by split_and!] end.
  apply (update_ok c P (H1 ++ (k, id) :: H2) (H1 ++ H2) k id b); cbn; try done.
  - lia.
  - split; [intros _; left|done].
  - split; [lia|intros _; left].
  - intros x Hne. rewrite Huse, elem_of_cons by done. naive_solver.
  - apply NoDup_cons. split; [done|apply Hok].
  - unfold sizes in *. lia.
  - lia.
Qed.

(** The opens under way and the descriptors change, the cache does not. *)
Lemma mem_ok c P P' H m : cache_ok c P H → mem_fresh m →
  (∀ k id, bc_byKey c !! k = Some id → good_fd (bc_mem c) k (fd_of (bc_heap c) id) → good_fd m k (fd_of (bc_heap c) id)) →
  (∀ k fd, (k, Some fd) ∈ P' → good_fd m k fd) →
  (map_to_list (mem_fds m)).*1 ≡ₚ cached_fds (bc_heap c) (bc_byKey c) ++ pending_fds P' →
  cache_ok (bc_set_mem m c) P' H.
Proof.
  intros Hok Hfr Hgood Hpend Hperm. split; cbn; try apply Hok; try done.
  intros k id Hk. destruct (co_cell _ _ _ Hok _ _ Hk) as (b & Hb & Hc). exists b. split; [done|]. specialize (Hgood k id Hk).
  unfold fd_of in Hgood. rewrite Hb in Hgood. cbn in Hgood. destruct Hc. split; try done. by apply Hgood.
Qed.

Lemma fetch_ok c P1 P2 H k body rerr fd c' : cache_ok c (P1 ++ (k, None) :: P2) H → (rerr = None → delivers k body) →
  acquire_fetch k (Ok (body, rerr)) c = (Ok fd, c') → cache_ok c' (P1 ++ (k, Some fd) :: P2) H ∧ bc_set_mem (bc_mem c') c = c'.
Proof.
  intros Hok Hdel. unfold acquire_fetch. pose proof (newMemfd_spec (i64 (Length k)) body rerr (bc_mem c) (co_mem _ _ _ Hok)) as Hm.
  destruct (newMemfd _ _ _ _) as [r m]. cbn [fst snd] in Hm. intros [= -> <-]. destruct Hm as (Hn & -> & Hlen & -> & Hlt & Hfds). split; [|done].
  pose proof (fresh_none _ (co_mem _ _ _ Hok)) as Hnone.
  assert (∀ x fd, good_fd (bc_mem c) x fd → good_fd m x fd) as Hkeep.
  { intros x fd. apply good_same. intros fd' y Hy. rewrite Hfds, lookup_insert_ne; [done|]. intros <-. congruence. }
  apply (mem_ok c (P1 ++ (k, None) :: P2)); [done| | | |].
  - intros fd [y Hy]. rewrite Hfds in Hy. apply lookup_insert_Some in Hy as [[<- _]|[_ Hy]]; [lia|].
    pose proof (co_mem _ _ _ Hok fd ltac:(eauto)). lia.
  - intros k' id' _. apply Hkeep.
  - intros k' fd Hin. rewrite elem_of_app, elem_of_cons in Hin. destruct Hin as [Hin|[[= -> ->]|Hin]].
    + apply Hkeep, (co_pending _ _ _ Hok), elem_of_app. by left.
    + exists body. rewrite Hfds, lookup_insert_eq. eauto.
    + apply Hkeep, (co_pending _ _ _ Hok), elem_of_app. by right; right.
  - rewrite Hfds, fds_insert by done. rewrite (co_fds _ _ _ Hok), !pending_mid. cbn. by rewrite Permutation_middle.
Qed.

Lemma fetch_fail_ok c P1 P2 H k file e c' : cache_ok c (P1 ++ (k, None) :: P2) H → acquire_fetch k file c = (Err e, c') →
  cache_ok c' (P1 ++ P2) H ∧ bc_set_mem (bc_mem c') c = c'.
Proof.
  intros Hok Hf. assert (∃ m, c' = bc_set_mem m c ∧ (mem_next (bc_mem c) ≤ mem_next m)%nat ∧ mem_fds m = mem_fds (bc_mem c)) as (m & -> & Hn & Hfds).
  { unfold acquire_fetch in Hf. destruct file as [[body rerr]|e'| |]; try done.
    - pose proof (newMemfd_spec (i64 (Length k)) body rerr (bc_mem c) (co_mem _ _ _ Hok)) as Hm. destruct (newMemfd _ _ _ _) as [r m].
      injection Hf as -> <-. exists m. by destruct Hm.
    - injection Hf as _ <-. exists (bc_mem c). by destruct c. }
  split; [|done]. apply (mem_ok c (P1 ++ (k, None) :: P2)); [done| | | |].
  - intros fd Hy. rewrite Hfds in Hy. pose proof (co_mem _ _ _ Hok fd Hy). lia.
  - intros k' id' _. apply good_same. by rewrite Hfds.
  - intros k' fd Hin. apply (good_same (bc_mem c)); [by rewrite Hfds|]. apply (co_pending _ _ _ Hok). rewrite elem_of_app, elem_of_cons in *. tauto.
  - rewrite Hfds, (co_fds _ _ _ Hok), pending_mid. done.
Qed.

Lemma last_ok c P1 P2 H k fd id c' : cache_ok c (P1 ++ (k, Some fd) :: P2) H → acquire_last k fd c = (id, c') →
  cache_ok c' (P1 ++ P2) ((k, id) :: H) ∧ bc_idleSize c' <= bc_idleSize c ∧ bc_maxIdle c' = bc_maxIdle c.
Proof.
  intros Hok. assert ((k, Some fd) ∈ P1 ++ (k, Some fd) :: P2) as Hin by (apply elem_of_app; right; left).
  pose proof (co_pending _ _ _ Hok _ _ Hin) as Hgood. pose proof (co_fds _ _ _ Hok) as Hperm. rewrite pending_mid in Hperm. change (option_list (Some fd)) with [fd] in Hperm. cbn [app] in Hperm.
  rewrite <- Permutation_middle in Hperm. pose proof (NoDup_fst_map_to_list (mem_fds (bc_mem c))) as Hnd. rewrite Hperm in Hnd.
  apply NoDup_cons in Hnd as [Hnew _].
  assert (∀ k' fd', (k', Some fd') ∈ P1 ++ P2 → (k', Some fd') ∈ P1 ++ (k, Some fd) :: P2) as Hsub.
  { intros k' fd'. rewrite !elem_of_app, elem_of_cons. tauto. }
  unfold acquire_last. destruct (bc_byKey c !! k) as [id'|] eqn:Hk; intros [= <- <-].
  - apply (reuse_ok (bc_set_mem (mem_close fd (bc_mem c)) c)); [|done]. apply (mem_ok c (P1 ++ (k, Some fd) :: P2)); [done| | | |].
    + intros x [y Hy]. apply (co_mem _ _ _ Hok). cbn in Hy. apply lookup_delete_Some in Hy as [_ Hy]. eauto.
    + intros k' id0 Hk'. apply good_close. intros <-. apply Hnew, elem_of_app. left. by eapply cached_in.
    + intros k' fd' Hin'. apply good_close; [|by apply (co_pending _ _ _ Hok), Hsub]. intros <-. apply Hnew, elem_of_app. right. by eapply pending_in.
    + destruct Hgood as (x & Hx & _). rewrite (fds_delete _ fd) in Hperm by eauto. by apply Permutation_cons_inv in Hperm.
  - pose proof (co_next _ _ _ Hok) as Hnext. assert (bc_heap c !! bc_next c = None) as Hfresh.
    { destruct (bc_heap c !! bc_next c) eqn:E; [|done]. specialize (Hnext (bc_next c) ltac:(eauto)). lia. }
    assert (∀ k' x, bc_byKey c !! k' = Some x → x ≠ bc_next c) as Hcell.
    { intros k' x Hx. destruct (co_cell _ _ _ Hok _ _ Hx) as (b & Hb & _). intros ->. congruence. }
    assert (∀ k' x, (k', x) ∈ H → x ≠ bc_next c) as Hhand by (intros k' x Hx; eapply Hcell; by apply (co_handle _ _ _ Hok)).
    assert (∀ x, x ∈ bc_idle c → x ≠ bc_next c) as Hidle. { intros x Hx. destruct (co_idle _ _ _ Hok x Hx) as [k' Hk']. eauto. }
    split; [|done]. split; cbn; try apply Hok.
    + intros k' x Hx. apply lookup_insert_Some in Hx as [[<- <-]|[Hne Hx]].
      * exists (mkBacking fd k (i64 (Length k)) 1 false). rewrite lookup_insert_eq. split; [done|]. split; cbn; try done.
        -- rewrite uses_cons, decide_True by done. assert (uses (bc_next c) H = 0) as ->; [|done]. unfold uses.
           destruct (filter _ H) as [|[k' x] l] eqn:E; [done|]. assert ((k', x) ∈ filter (λ p : Key * nat, p.2 = bc_next c) H) as Hx by (rewrite E; left).
           apply list_elem_of_filter in Hx as [Hx Hx']. by destruct (Hhand k' x Hx').
        -- split; [done|]. intros Hx. by destruct (Hidle _ Hx).
        -- split; [|lia]. intros Hx. by destruct (Hidle _ Hx).
      * rewrite lookup_insert_ne by (intros E; by apply (Hcell k' x)). destruct (co_cell _ _ _ Hok _ _ Hx) as (b & Hb & Hc). exists b. split; [done|].
        destruct Hc. split; try done. rewrite uses_cons, decide_False by (by apply (Hcell k' x)). lia.
    + intros k' x [[= -> ->]|Hx]%elem_of_cons; [apply lookup_insert_eq|]. apply (co_handle _ _ _ Hok) in Hx. rewrite lookup_insert_ne; [done|congruence].
    + intros x Hx. destruct (co_idle _ _ _ Hok x Hx) as [k' Hk']. exists k'. rewrite lookup_insert_ne; [done|congruence].
    + rewrite (co_sum _ _ _ Hok). clear -Hidle. unfold sizes. induction (bc_idle c) as [|x l IH]; cbn; [done|].
      rewrite IH by (intros y Hy; apply Hidle; by right). f_equal. unfold size_of. rewrite lookup_insert_ne; [done|]. intros E. by apply (Hidle x ltac:(left)).
    + intros k' fd' Hin'. by apply (co_pending _ _ _ Hok), Hsub.
    + rewrite Hperm, cached_insert by done. unfold fd_of at 1. rewrite lookup_insert_eq. cbn.
      rewrite (cached_ext (bc_heap c) (<[bc_next c := mkBacking fd k (i64 (Length k)) 1 false]> (bc_heap c))); [done|]. intros k' x Hx. unfold fd_of. rewrite lookup_insert_ne; [done|]. intros E. by apply (Hcell k' x).
    + intros x [y Hy]. apply lookup_insert_Some in Hy as [[<- _]|[_ Hy]]; [lia|]. specialize (Hnext x ltac:(eauto)). lia.
Qed.

(** ** Every interleaving *)
Definition mount_ok (maxIdle : Z) (w : mount) : Prop :=
  cache_ok (mt_cache w) (mt_pending w) (mt_handles w) ∧ within (mt_cache w) ∧ bc_maxIdle (mt_cache w) = maxIdle.

Lemma step_ok maxIdle w w' : maxIdle < 2 ^ 62 → mount_ok maxIdle w → mt_step w w' → mount_ok maxIdle w'.
Proof.
  intros Hmax (Hok & Hw & Hm) Hs. destruct Hs as [c P H k id c' Hf|c P H k c' Hf|c P1 P2 H k body rerr fd c' Hd Hf|c P1 P2 H k file e c' Hf|
    c P1 P2 H k fd id c' Hf|c P H1 H2 k id]; cbn [mt_cache mt_pending mt_handles] in *.
  - unfold acquire_first in Hf. destruct (bc_byKey c !! k) as [id'|] eqn:Hk; [|done]. injection Hf as -> <-.
    destruct (reuse_ok c P H k id Hok Hk) as (? & ? & ?). split; [done|]. unfold within in *. cbn. split; [lia|congruence].
  - unfold acquire_first in Hf. destruct (bc_byKey c !! k) as [id'|] eqn:Hk; [done|]. injection Hf as <-. split; [|done].
    destruct Hok. split; cbn; try done. intros k' fd [[=]|Hin]%elem_of_cons. eauto.
  - destruct (fetch_ok _ _ _ _ _ _ _ _ _ Hok Hd Hf) as [? E]. split; [done|]. cbn. rewrite <- E. done.
  - destruct (fetch_fail_ok _ _ _ _ _ _ _ _ Hok Hf) as [? E]. split; [done|]. cbn. rewrite <- E. done.
  - destruct (last_ok _ _ _ _ _ _ _ _ Hok Hf) as (? & ? & ?). split; [done|]. unfold within in *. cbn. split; [lia|congruence].
  - destruct (release_ok _ _ _ _ _ _ Hok Hw ltac:(lia)) as (? & ? & ?). split; [done|]. split; [done|]. cbn. congruence.
Qed.

Lemma start_ok maxIdle m : mem_fds m = ∅ → mount_ok maxIdle (mkMount (newBackingCache maxIdle m) [] []).
Proof.
  intros Hm. split; [|split; [unfold within; cbn; lia|done]]. split; cbn; try done.
  - by intros k id ?%elem_of_nil.
  - by intros id ?%elem_of_nil.
  - constructor.
  - by intros k fd ?%elem_of_nil.
  - by rewrite Hm, map_to_list_empty.
  - intros fd [x Hx]. by rewrite Hm, lookup_empty in Hx.
  - by intros id [x Hx].
Qed.

Lemma reach_ok maxIdle m w : mem_fds m = ∅ → maxIdle < 2 ^ 62 →
  rtc mt_step (mkMount (newBackingCache maxIdle m) [] []) w → mount_ok maxIdle w.
Proof.
  intros Hm Hmax Hr. pose proof (start_ok maxIdle m Hm) as H0. induction Hr as [|w1 w2 w3 Hs _ IH]; [done|]. by eapply IH, step_ok.
Qed.

(** ** The memory in use *)
Definition sum_of {A : Type} (f : A → Z) (l : list A) : Z := foldr (λ a n, f a + n) 0 l.
Definition mem_total (m : memory) : Z := sum_of (λ p : nat * bytes, zlen p.2) (map_to_list (mem_fds m)).
Definition key_size (k : Key) : Z := i64 (Length k).

Lemma sum_app {A : Type} (f : A → Z) l1 l2 : sum_of f (l1 ++ l2) = sum_of f l1 + sum_of f l2.
Proof. induction l1 as [|a l1 IH]; cbn; [done|]. unfold sum_of in *. lia. Qed.

Lemma sum_perm {A : Type} (f : A → Z) l1 l2 : l1 ≡ₚ l2 → sum_of f l1 = sum_of f l2.
Proof. induction 1; cbn in *; unfold sum_of in *; cbn in *; lia. Qed.

Lemma sum_fmap {A B : Type} (g : A → B) (f : B → Z) (f' : A → Z) l : (∀ a, a ∈ l → f (g a) = f' a) → sum_of f (g <$> l) = sum_of f' l.
Proof.
  induction l as [|a l IH]; intros He; cbn; [done|]. rewrite (He a ltac:(left)). specialize (IH ltac:(intros; apply He; by right)). unfold sum_of in *. lia.
Qed.

Lemma idle_keys c P H : cache_ok c P H →
  (map_to_list (bc_byKey c)).*1 ≡ₚ ((λ id, default (to_key []) (b_k <$> bc_heap c !! id)) <$> bc_idle c) ++ remove_dups H.*1.
Proof.
  intros Hok. assert (∀ k id, bc_byKey c !! k = Some id → default (to_key []) (b_k <$> bc_heap c !! id) = k) as Hbk.
  { intros k id Hk. destruct (co_cell _ _ _ Hok _ _ Hk) as (b & -> & Hc). cbn. apply Hc. }
  assert (∀ k id, bc_byKey c !! k = Some id → id ∈ bc_idle c ↔ k ∉ H.*1) as Hidle.
  { intros k id Hk. destruct (co_cell _ _ _ Hok _ _ Hk) as (b & Hb & Hc). rewrite (cell_idle _ _ _ _ _ _ Hc), (cell_refs _ _ _ _ _ _ Hc). split.
    - intros Hu Hin. apply list_elem_of_fmap in Hin as ([k' id'] & -> & Hin). pose proof (co_handle _ _ _ Hok _ _ Hin) as Hk'. cbn in Hk.
      rewrite Hk' in Hk. injection Hk as ->. apply uses_pos in Hin. lia.
    - intros Hni. unfold uses. destruct (filter _ H) as [|[k' x] l] eqn:E; [done|]. exfalso.
      assert ((k', x) ∈ filter (λ p : Key * nat, p.2 = id) H) as Hx by (rewrite E; left). apply list_elem_of_filter in Hx as [Hx Hin]. cbn in Hx. subst x.
      apply Hni, list_elem_of_fmap. exists (k', id). split; [|done]. eapply cell_unique; [exact Hok|exact Hk|]. by apply (co_handle _ _ _ Hok). }
  apply NoDup_Permutation; [apply NoDup_fst_map_to_list| |].
  - apply NoDup_app. split_and!; [|..|apply NoDup_remove_dups].
    + apply NoDup_fmap_2_strong; [|apply Hok]. intros x y Hx Hy E. destruct (co_idle _ _ _ Hok x Hx) as [k Hk]. destruct (co_idle _ _ _ Hok y Hy) as [k' Hk'].
      rewrite (Hbk _ _ Hk), (Hbk _ _ Hk') in E. subst k'. congruence.
    + intros k Hin. apply list_elem_of_fmap in Hin as (id & -> & Hin). destruct (co_idle _ _ _ Hok id Hin) as [k Hk].
      rewrite (Hbk _ _ Hk), elem_of_remove_dups. by apply (Hidle k id Hk).
  - intros k. rewrite elem_of_app, elem_of_remove_dups. split.
    + intros Hin. apply list_elem_of_fmap in Hin as ([k' id] & -> & Hin%elem_of_map_to_list). cbn. destruct (decide (k' ∈ H.*1)) as [Hh|Hh]; [by right|left].
      apply list_elem_of_fmap. exists id. split; [symmetry; by apply Hbk|by apply (Hidle _ _ Hin)].
    + intros [Hin|Hin]; apply list_elem_of_fmap in Hin as (x & -> & Hin).
      * destruct (co_idle _ _ _ Hok x Hin) as [k Hk]. rewrite (Hbk _ _ Hk). apply list_elem_of_fmap. exists (k, x). by split; [|apply elem_of_map_to_list].
      * destruct x as [k id]. apply (co_handle _ _ _ Hok) in Hin. apply list_elem_of_fmap. exists (k, id). by split; [|apply elem_of_map_to_list].
Qed.

(** The keys of the opens that have filled their file. *)
Definition pending_keys (P : list (Key * option nat)) : list Key := omap (λ p, (λ _, p.1) <$> p.2) P.

(** What is in memory: the idle files, each open file once, and the files of opens
    that are under way. *)
Lemma memory_used c P H : cache_ok c P H →
  mem_total (bc_mem c) = bc_idleSize c + sum_of key_size (remove_dups H.*1) + sum_of key_size (pending_keys P).
Proof.
  intros Hok. set (len fd := zlen (default [] (mem_fds (bc_mem c) !! fd))).
  assert (mem_total (bc_mem c) = sum_of len (map_to_list (mem_fds (bc_mem c))).*1) as ->.
  { unfold mem_total. symmetry. apply sum_fmap. intros [fd x] Hin%elem_of_map_to_list. unfold len. cbn. by rewrite Hin. }
  rewrite (sum_perm _ _ _ (co_fds _ _ _ Hok)), sum_app.
  assert (∀ k fd, good_fd (bc_mem c) k fd → len fd = key_size k) as Hlen. { intros k fd (x & Hx & Hl & _). unfold len. by rewrite Hx. }
  assert (sum_of len (pending_fds P) = sum_of key_size (pending_keys P)) as ->.
  { pose proof (co_pending _ _ _ Hok) as Hp. clear -Hp Hlen. unfold pending_fds. induction P as [|[k [fd|]] P IH]; cbn; [done|..].
    - rewrite (Hlen k fd) by (apply Hp; left). unfold sum_of in IH. rewrite IH; [done|]. intros k' fd' Hin. apply Hp. by right.
    - apply IH. intros k' fd' Hin. apply Hp. by right. }
  assert (sum_of len (cached_fds (bc_heap c) (bc_byKey c)) = sum_of key_size (map_to_list (bc_byKey c)).*1) as ->.
  { unfold cached_fds. rewrite (sum_fmap fst key_size (λ p, key_size p.1)) by done. apply sum_fmap. intros [k id] Hin%elem_of_map_to_list. cbn.
    destruct (co_cell _ _ _ Hok _ _ Hin) as (b & Hb & Hc). unfold fd_of. rewrite Hb. apply Hlen, Hc. }
  rewrite (sum_perm _ _ _ (idle_keys _ _ _ Hok)), sum_app. f_equal. f_equal. rewrite (co_sum _ _ _ Hok). unfold sizes.
  apply (sum_fmap _ key_size (size_of (bc_heap c))). intros id Hin. destruct (co_idle _ _ _ Hok id Hin) as [k Hk].
  destruct (co_cell _ _ _ Hok _ _ Hk) as (b & Hb & Hc). unfold size_of. rewrite Hb. cbn. rewrite (cell_size _ _ _ _ _ _ Hc), (cell_key _ _ _ _ _ _ Hc). done.
Qed.

(** The bytes behind a handle. *)
Lemma handle_content c P H k id : cache_ok c P H → (k, id) ∈ H →
  ∃ content, delivers k content ∧ zlen content = key_size k ∧ ∀ off n, handle_read id off n c = Ok (take n (drop off content)).
Proof.
  intros Hok Hin%(co_handle _ _ _ Hok). destruct (co_cell _ _ _ Hok _ _ Hin) as (b & Hb & Hc). destruct (cell_fd _ _ _ _ _ _ Hc) as (x & Hx & Hl & Hd).
  exists x. split_and!; [done|done|]. intros off n. unfold handle_read. by rewrite Hb, Hx.
Qed.

Lemma close_lookup (heap : gmap nat backing) (ids : list nat) m fd x :
  mem_fds (foldr (λ id m, match heap !! id with Some b => mem_close (b_fd b) m | None => m end) m ids) !! fd = Some x →
  mem_fds m !! fd = Some x ∧ ∀ id b, id ∈ ids → heap !! id = Some b → b_fd b ≠ fd.
Proof.
  induction ids as [|id ids IH]; cbn [foldr]; intros Hx.
  { split; [done|]. by intros id b ?%elem_of_nil. }
  destruct (heap !! id) as [b|] eqn:Hb; [unfold mem_close at 1 in Hx; cbn [mem_fds] in Hx; apply lookup_delete_Some in Hx as [Hne Hx]|];
    (destruct (IH Hx) as [Hm Hoth]; split; [done|]; intros id' b' [->|Hin]%elem_of_cons Hb'; [congruence|by eapply Hoth]).
Qed.

(** Unmounting leaves no descriptor open. *)
Lemma closeAll_ok c H : cache_ok c [] H → mem_fds (bc_mem (closeAll c)) = ∅.
Proof.
  intros Hok. apply map_eq. intros fd. rewrite lookup_empty. destruct (mem_fds (bc_mem (closeAll c)) !! fd) as [x|] eqn:Hx; [|done]. exfalso.
  apply close_lookup in Hx as [Hx Hcl].
  assert (fd ∈ (map_to_list (mem_fds (bc_mem c))).*1) as Hin. { apply list_elem_of_fmap. exists (fd, x). by split; [|apply elem_of_map_to_list]. }
  rewrite (co_fds _ _ _ Hok), app_nil_r in Hin. apply list_elem_of_fmap in Hin as ([k id] & E & Hin). cbn in E.
  pose proof Hin as Hk%elem_of_map_to_list. destruct (co_cell _ _ _ Hok _ _ Hk) as (b & Hb & _). unfold fd_of in E. rewrite Hb in E. cbn in E.
  apply (Hcl id b); [|done..]. apply list_elem_of_fmap. by exists (k, id).
Qed.
End cache.

(** ** The read-only mount: its guarantees *)

(** C26. Whatever files are opened and closed, in whatever interleaving of the parts of
    the opens, and whatever fetches and system calls fail: every open handle reads
    exactly the bytes that the daemon delivered for the key it was opened for; memory
    holds the idle files, each file that is open once, however often it is open, and
    the files of opens under way, and nothing else; the idle files stay within the
    bound of [--cache-bytes]; and unmounting leaves no descriptor open. *)
Theorem mount_cache delivers maxIdle m w :
  mem_fds m = ∅ → maxIdle < 2 ^ 62 → rtc (mt_step delivers) (mkMount (newBackingCache maxIdle m) [] []) w →
  let c := mt_cache w in
  (∀ k id, (k, id) ∈ mt_handles w →
    ∃ content, delivers k content ∧ zlen content = key_size k ∧ ∀ off n, handle_read id off n c = Ok (take n (drop off content))) ∧
  mem_total (bc_mem c) = bc_idleSize c + sum_of key_size (remove_dups (mt_handles w).*1) + sum_of key_size (pending_keys (mt_pending w)) ∧
  bc_idleSize c <= Z.max 0 maxIdle ∧
  (mt_pending w = [] → mem_fds (bc_mem (closeAll c)) = ∅).
Proof.
  intros Hm Hmax Hr c. destruct (reach_ok delivers maxIdle m w Hm Hmax Hr) as (Hok & Hw & Hmi). fold c in Hok, Hw, Hmi. split_and!.
  - intros k id Hin. by apply (handle_content delivers c (mt_pending w) (mt_handles w)).
  - by apply (memory_used delivers).
  - unfold within in Hw. by rewrite Hmi in Hw.
  - intros Hp. rewrite Hp in Hok. by eapply closeAll_ok.
Qed.

(** ** An application *)

(** The key of a blob of two bytes. *)
Definition small_key (b : byte) : Key := to_key ([x00; x02] ++ replicate 30 b).
Definition small_delivers (k : Key) (body : bytes) : Prop := zlen body = key_size k.

(** Two opens of one file race: both fetch it, the second gives its copy up. *)
Definition race_start : mount := mkMount (newBackingCache 10 (mkMemory ∅ 0 [])) [] [].
Definition race_end : mount :=
  let k := small_key x2a in
  let c := bc_set_mem (newMemfd 2 [x68; x69] None (mkMemory ∅ 0 [])).2 (mt_cache race_start) in
  let c := bc_set_mem (newMemfd 2 [x68; x69] None (bc_mem c)).2 c in
  mkMount (acquire_last k 1 (acquire_last k 0 c).2).2 [] [(k, 0%nat); (k, 0%nat)].

Lemma race_steps : rtc (mt_step small_delivers) race_start race_end.
Proof.
  set (k := small_key x2a). unfold race_start.
  eapply rtc_l; [apply (mt_miss _ _ [] [] k); vm_compute; reflexivity|]. eapply rtc_l; [apply (mt_miss _ _ _ [] k); vm_compute; reflexivity|].
  eapply rtc_l; [eapply (mt_fetch _ _ [(k, None)] [] [] k [x68; x69] None); [intros _; vm_compute; reflexivity|vm_compute; reflexivity]|].
  eapply rtc_l; [eapply (mt_fetch _ _ [] [(k, Some 0%nat)] [] k [x68; x69] None); [intros _; vm_compute; reflexivity|vm_compute; reflexivity]|].
  eapply rtc_l; [eapply (mt_last _ _ [(k, Some 1%nat)] [] [] k 0); vm_compute; reflexivity|].
  eapply rtc_l; [eapply (mt_last _ _ [] [] _ k 1); vm_compute; reflexivity|]. 
  apply rtc_refl.
Qed.

Lemma mount_cache_witness :
  handle_read 0 0 8 (mt_cache race_end) = Ok [x68; x69] ∧ mem_total (bc_mem (mt_cache race_end)) = 2.
Proof.
  split; [vm_compute; reflexivity|].
  destruct (mount_cache small_delivers 10 (mkMemory ∅ 0 []) race_end eq_refl ltac:(lia) race_steps) as (_ & Hmem & _). rewrite Hmem. vm_compute. reflexivity.
Defined.
