(* ===== verification/MountTree.v ===== *)
(** * The read-only mount of a stored tree

    The mount over the client and the daemon: every path of a tree that the daemon
    holds leads to a node with the attributes, the names, the target or the content
    that the tree has there. *)

From Stdlib Require Import Init.Byte.
From S2P Require Import Prelude Machine Key Chunkers FsEncode Instances FsTree FsRead FsWalk PackRecord PackStream Footer FooterFacts Packstore PackstoreRep PackstoreFacts Compact PackstoreSpec Parallel Inbox InboxProtocol InboxSpec Text Sshsign Reference Refstore Gc GcProtocol GcFacts Auth AuthFacts Server ServerSpec Routes Sync Remote SyncLive Path Posix Ingest IngestFacts PosixFacts IngestSpec Tar TarFacts TarSpec Remotes Daemon DaemonFacts DaemonSpec Client ClientFacts ClientSpec Mount.
From Stdlib Require Import ZifyBool ZifyNat.
Local Open Scope Z_scope.

#[local] Existing Instance InboxProtocol.verified_inv.

(** ** The tree as a file system shows it *)
Section node.
Context `{UnixDev}.

(** What [stat] gives for a node.  Times before 1970 are shown as its start, and of the
    number of a device 32 bits. *)
Definition node_attr (n : node) : Attr :=
  let m := node_meta n in
  let t := Z.max 0 (n_mtime m) in
  mkAttr (node_mode n) (n_uid m) (n_gid m) (t / 1000000000) (t mod 1000000000)
    (match n with NFile _ c => zlen c | NLink _ t => zlen t | _ => 0 end)
    (match n with NDir _ _ => 2 | _ => 1 end)
    (match n with NDev _ _ r => u32 r | _ => 0 end).

(** The node at a path. *)
Fixpoint node_at (n : node) (p : list bytes) : option node :=
  match p with
  | [] => Some n
  | c :: p => match n with
              | NDir _ ch => match list_find (λ q : bytes * node, q.1 = c) ch with Some (_, q) => node_at q.2 p | None => None end
              | _ => None
              end
  end.

(** Names and targets are UTF-8, which is what JSON carries. *)
Definition utf8_tree (n : node) : Prop := ∀ p m ch, node_at n p = Some (NDir m ch) → Forall utf8_node ch.

Lemma fillAttr_shows `{!UnixDevLaws} `{Cbor} log e name n : ls_shows log e name n → node_wf n → fillAttr e = node_attr n.
Proof.
  intros (_ & Hm & Hu & Hg & Ht & Hrest) Hwf. pose proof (node_wf_meta n Hwf) as Hmeta. pose proof (node_mode_range n Hmeta) as Hr.
  pose proof (node_mode_type n Hmeta) as Hty. pose proof Hmeta as (_ & Hur & Hgr & _). unfold fillAttr, node_attr.
  rewrite Hm, Hu, Hg, Ht, !(u32_small _ Hur), !(u32_small _ Hgr), !(u32_small (node_mode n)) by done. rewrite Hty.
  assert (∀ (f : Z → Z) (t : Z), f 0 = 0 → (if t >? 0 then f t else 0) = f (Z.max 0 t)) as Htime.
  { intros f t Hf. destruct (t >? 0) eqn:E; [by rewrite Z.max_r by lia|]. by rewrite Z.max_l by lia. }
  rewrite (Htime (λ t, t / 1000000000)), (Htime (λ t, t mod 1000000000)) by done. clear Htime.
  destruct n as [m c|m ch|m t|m chr r|m|m]; cbn [node_type node_meta].
  - by destruct Hrest as (_ & -> & -> & _).
  - by destruct Hrest as (_ & -> & _).
  - by destruct Hrest as (_ & -> & ->).
  - destruct Hrest as (_ & ->). rewrite (u32_small (Major r)), (u32_small (Minor r)) by (apply Major_range || apply Minor_range).
    destruct Hwf as (_ & Hrd). rewrite Mkdev_Major_Minor by done. by destruct chr.
  - by destruct Hrest as (_ & ->).
  - by destruct Hrest as (_ & ->).
Qed.
End node.

(** The entry of a name in a listing. *)
Lemma find_shows `{Cbor} `{UnixDev} log name lines ch : Forall2 (λ e p, ls_shows log e p.1 p.2) lines ch →
  match list_find (λ q : bytes * node, q.1 = name) ch with
  | Some (i, q) => ∃ e, list_find (λ e, ls_Name e = name) lines = Some (i, e) ∧ ls_shows log e q.1 q.2
  | None => list_find (λ e, ls_Name e = name) lines = None
  end.
Proof.
  induction 1 as [|e q lines ch Hsh _ IH]; [done|]. cbn [list_find]. pose proof Hsh as (Hn & _). rewrite Hn.
  destruct (decide (q.1 = name)) as [E|E]; [by exists e|].
  destruct (list_find (λ q : bytes * node, q.1 = name) ch) as [[i q']|]; cbn.
  - destruct IH as (e' & -> & He'). by exists e'.
  - by rewrite IH.
Qed.

(** ** The mount over the daemon *)

(** The path from a node, one [Lookup] for each name. *)
Fixpoint fs_walk `{UnixDev} (ls : Key → result (list lsEntry)) (ent : lsEntry) (p : list bytes) (f : amberFS) : result lsEntry * amberFS :=
  match p with
  | [] => (Ok ent, f)
  | c :: p => let '(r, f) := Lookup ls ent c f in
              match r with Ok (ent, _) => fs_walk ls ent p f | r => (err_of r, f) end
  end.

(** What is kept of listings is what the daemon sent. *)
Definition dirs_ok (ls : Key → result (list lsEntry)) (f : amberFS) : Prop := map_Forall (λ k es, ls k = Ok es) (fs_dirCache f).

Lemma dirs_ok_start ls maxFileSize cacheBytes m : dirs_ok ls (mountAmber maxFileSize cacheBytes m).
Proof. apply map_Forall_empty. Qed.

(** Only the listings that are kept change. *)
Definition same_files (f f' : amberFS) : Prop :=
  fs_cache f' = fs_cache f ∧ fs_maxFileSize f' = fs_maxFileSize f ∧ fs_fallbackReads f' = fs_fallbackReads f.

Lemma fs_entries_ok ls k es f : dirs_ok ls f → ls k = Ok es → ∃ f', fs_entries ls k f = (Ok es, f') ∧ dirs_ok ls f' ∧ same_files f f'.
Proof.
  intros Hok Hk. unfold fs_entries. destruct (fs_dirCache f !! k) as [es'|] eqn:E.
  - pose proof (Hok k es' E) as Hk'. cbn in Hk'. exists f. split; [congruence|]. by split.
  - rewrite Hk. eexists. split; [done|]. split; [|done]. by apply map_Forall_insert_2.
Qed.

Section over.
Context `{Blake3} `{Fuse} `{Zstd} `{Cbor} `{RefCbor} `{Pebble} `{SshSig} `{SshKeys} `{NetUrl} `{RemotesJson} `{Float64} `{!DaemonJson} `{!ClientJson} `{UnixDev} `{!UnixDevLaws}.
Context (render : error → bytes) `{!ClientJsonLaws}.

(** The answers of the daemon to the mount, each in circumstances of its own: whenever
    it is asked it holds the objects of the tree, and its reads have [F] of fuel. *)
Definition answers {A} (call : denv → Key → daemon → result A * daemon) (log : list Object) (F : nat) (ans : Key → result A) : Prop :=
  ∀ k, ∃ env d, holds_log (de_at env) log d ∧ (F ≤ de_fuel env)%nat ∧ ans k = (call env k d).1.
Definition ls_answers := answers (λ env k, c_Ls (d_serve render env) k []).
Definition file_answers := answers (λ env k, c_File (d_serve render env) k).

Lemma node_entries_stored log ent k ch : ls_Key ent = hex_EncodeToString (kb k) → stored_children log k ch → Validate k = Ok tt →
  StronglySorted bytes_lt ch.*1 → Forall utf8_node ch →
  ∃ lines h, Forall2 (λ e p, ls_shows log e p.1 p.2) lines ch ∧
    ∀ F ls f, (h ≤ F)%nat → ls_answers log F ls → dirs_ok ls f → ∃ f', node_entries ls ent f = (Ok lines, f') ∧ dirs_ok ls f' ∧ same_files f f'.
Proof.
  intros Hk Hst Hv Hs Hu. destruct (c_Ls_dir render log k ch Hst Hv Hs Hu) as (lines & h & Hsh & Hls).
  exists lines, h. split; [done|]. intros F ls f HF Hans Hok. unfold node_entries.
  assert (parseContentKey (ls_Key ent) = Ok k) as ->. { unfold parseContentKey. rewrite Hk, hex_Decode_Encode. cbn. by apply Parse_Ok. }
  destruct (Hans k) as (env & d & Hd & Hfuel & Hak). destruct (fs_entries_ok ls k lines f Hok) as (f' & -> & ? & ?).
  { rewrite Hak. apply Hls; [done|lia]. }
  by exists f'.
Qed.

Lemma utf8_child m ch i q : utf8_tree (NDir m ch) → list_find (λ r : bytes * node, r.1 = q.1) ch = Some (i, q) → utf8_tree q.2.
Proof. intros Hu Hf p m' ch' Hat. apply (Hu (q.1 :: p) m' ch'). cbn. by rewrite Hf. Qed.

Lemma wf_child m ch q : node_wf (NDir m ch) → q ∈ ch → node_wf q.2.
Proof. intros (_ & _ & Hwf%fold_one) Hq. rewrite Forall_forall in Hwf. by apply Hwf. Qed.

Lemma walk_stored log p : ∀ ent m ch k n, ls_Key ent = hex_EncodeToString (kb k) → stored_children log k ch → Validate k = Ok tt →
  node_wf (NDir m ch) → utf8_tree (NDir m ch) → node_at (NDir m ch) p = Some n → p ≠ [] →
  ∃ e name F0, ls_shows log e name n ∧ node_wf n ∧ utf8_tree n ∧
    ∀ F ls f, (F0 ≤ F)%nat → ls_answers log F ls → dirs_ok ls f → ∃ f', fs_walk ls ent p f = (Ok e, f') ∧ dirs_ok ls f' ∧ same_files f f'.
Proof.
  induction p as [|c p IH]; [done|]. intros ent m ch k n Hk Hst Hv Hwf Hu Hat _. pose proof Hwf as (_ & Hs & _). cbn [node_at] in Hat.
  destruct (node_entries_stored log ent k ch Hk Hst Hv Hs (Hu [] m ch eq_refl)) as (lines & h & Hsh & Hent).
  pose proof (find_shows log c lines ch Hsh) as Hfind. destruct (list_find _ ch) as [[i q]|] eqn:Hq; [|done].
  destruct Hfind as (e & He & Hshow). pose proof Hq as Hq'. apply list_find_Some in Hq' as (Hi & <- & _).
  assert (node_wf q.2) as Hwf' by (eapply wf_child; [exact Hwf|by eapply list_elem_of_lookup_2]). pose proof (utf8_child m ch i q Hu Hq) as Hu'.
  assert (∀ F ls f, (h ≤ F)%nat → ls_answers log F ls → dirs_ok ls f →
    ∃ f', Lookup ls ent q.1 f = (Ok (e, fillAttr e), f') ∧ dirs_ok ls f' ∧ same_files f f') as Hlook.
  { intros F ls f HF Hans Hok. destruct (Hent F ls f HF Hans Hok) as (f' & Hne & Hok' & Hsame). exists f'. unfold Lookup. rewrite Hne, He. done. }
  destruct p as [|c' p].
  - injection Hat as <-. exists e, q.1, h. split_and!; [done..|]. intros F ls f HF Hans Hok. destruct (Hlook F ls f HF Hans Hok) as (f' & Hl & Hrest).
    exists f'. cbn [fs_walk]. by rewrite Hl.
  - destruct q as [name q]. cbn [fst snd] in *. destruct q as [m' c0|m' ch'|m' t|m' chr r|m'|m']; try done.
    destruct Hshow as (_ & _ & _ & _ & _ & _ & _ & k' & Hk' & Hv' & Hst').
    destruct (IH e m' ch' k' n Hk' Hst' Hv' Hwf' Hu' Hat) as (e' & name' & F0 & Hsh' & Hwfn & Hun & Hwalk); [done|].
    exists e', name', (h + F0)%nat. split_and!; [done..|]. intros F ls f HF Hans Hok. destruct (Hlook F ls f ltac:(lia) Hans Hok) as (f1 & Hl & Hok1 & Hs1).
    destruct (Hwalk F ls f1 ltac:(lia) Hans Hok1) as (f' & Hw & Hok' & Hs'). exists f'. cbn [fs_walk] in *. rewrite Hl. split_and!; [done..|].
    unfold same_files in *. destruct Hs1 as (? & ? & ?), Hs' as (? & ? & ?). split_and!; congruence.
Qed.

(** The names of a directory, and those that it does not have. *)
Lemma readdir_stored log ent m ch k : ls_Key ent = hex_EncodeToString (kb k) → stored_children log k ch → Validate k = Ok tt →
  node_wf (NDir m ch) → utf8_tree (NDir m ch) →
  ∃ F0, ∀ F ls f, (F0 ≤ F)%nat → ls_answers log F ls → dirs_ok ls f →
    (Readdir ls ent f).1 = Ok ((λ q, (q.1, node_type q.2)) <$> ch) ∧ ∀ name, name ∉ ch.*1 → (Lookup ls ent name f).1 = Err ENOENT.
Proof.
  intros Hk Hst Hv Hwf Hu. pose proof Hwf as (_ & Hs & _). destruct (node_entries_stored log ent k ch Hk Hst Hv Hs (Hu [] m ch eq_refl)) as (lines & h & Hsh & Hent).
  exists h. intros F ls f HF Hans Hok. destruct (Hent F ls f HF Hans Hok) as (f' & Hne & _). unfold Readdir, Lookup. rewrite Hne. cbn [fst]. split.
  - f_equal. assert (∀ q, q ∈ ch → node_wf q.2) as Hall by (intros q Hq; by eapply wf_child). clear -Hsh Hall.
    induction Hsh as [|e q lines ch Hsh _ IH]; [done|]. rewrite !fmap_cons, IH by (intros; apply Hall; by right). f_equal.
    destruct Hsh as (-> & -> & _). pose proof (node_wf_meta q.2 (Hall q ltac:(left))) as Hm. pose proof (node_mode_range q.2 Hm).
    rewrite u32_small by done. by rewrite node_mode_type.
  - intros name Hno. pose proof (find_shows log name lines ch Hsh) as Hfind. destruct (list_find _ ch) as [[i q]|] eqn:Hq.
    + apply list_find_Some in Hq as (Hi & <- & _). destruct Hno. apply list_elem_of_fmap. exists q. split; [done|]. by eapply list_elem_of_lookup_2.
    + by rewrite Hfind.
Qed.

(** A file whose body arrives whole can be opened when memory can be had. *)
Lemma newMemfd_quiet size body m : mem_events m = [] → zlen body = size → ∃ fd m', newMemfd size body None m = (Ok fd, m').
Proof.
  destruct m as [fds next evs]. cbn. intros -> <-. unfold newMemfd, MemfdCreate, mem_Truncate, mem_Copy, mem_Seek, mem_pop. cbn.
  destruct (zlen body >? 0); cbn; rewrite Z.eqb_refl; cbn; eauto.
Qed.

Lemma acquire_quiet (delivers : Key → bytes → Prop) file ck body c P H' :
  cache_ok delivers c P H' → mem_events (bc_mem c) = [] → file ck = Ok (body, None) → delivers ck body → zlen body = key_size ck →
  ∃ cell c', acquire id file ck c = (Ok cell, c') ∧ cache_ok delivers c' P ((ck, cell) :: H').
Proof.
  intros Hok He Hf Hd Hlen. unfold acquire, acquire_first. destruct (bc_byKey c !! ck) as [id|] eqn:Hk.
  { destruct (reuse_ok delivers c P H' ck id Hok Hk) as (Hok' & _). eauto. }
  assert (cache_ok delivers c ((ck, None) :: P) H') as Hok1.
  { destruct Hok. split; try done. intros k' fd [[=]|Hin]%elem_of_cons. eauto. }
  rewrite Hf. destruct (acquire_fetch ck (Ok (body, None)) c) as [r c1] eqn:Hfetch.
  assert (∃ fd, r = Ok fd) as [fd ->].
  { unfold acquire_fetch in Hfetch. destruct (newMemfd_quiet (i64 (Length ck)) body (bc_mem c) He Hlen) as (fd & m' & Hm). rewrite Hm in Hfetch. injection Hfetch as <- _. eauto. }
  destruct (fetch_ok delivers c [] P H' ck body None fd c1 Hok1 (λ _, Hd) Hfetch) as [Hok2 _].
  destruct (acquire_last ck fd c1) as [id c2] eqn:Hlast. destruct (last_ok delivers c1 [] P H' ck fd id c2 Hok2 Hlast) as (Hok3 & _).
  exists id, c2. split; [|done]. cbn. by rewrite Hlast.
Qed.

(** Opening and reading a file. *)
Lemma open_stored log e name m content : ls_shows log e name (NFile m content) → zlen content < 2 ^ 63 →
  ∃ F0, ∀ F file f maxIdle mem P H', (F0 ≤ F)%nat → file_answers log F file →
    mem_fds mem = ∅ → maxIdle < 2 ^ 62 →
    rtc (mt_step (λ k body, file k = Ok (body, None))) (mkMount (newBackingCache maxIdle mem) [] []) (mkMount (fs_cache f) P H') →
    mem_events (bc_mem (fs_cache f)) = [] → fs_maxFileSize f <= 0 ∨ zlen content <= fs_maxFileSize f →
    ∃ cell f', fs_Open id file e O_RDONLY f = (Ok cell, f') ∧ ∀ off n, (fs_Read cell off n f').1 = Ok (take n (drop off content)).
Proof.
  intros (_ & _ & _ & _ & _ & _ & _ & _ & k & h & Hk & Hv & Hl & Ht) Hlen. exists h. intros F file f maxIdle mem P H' HF Hans Hmem Hmax Hr He Hsz.
  destruct (reach_ok _ maxIdle mem _ Hmem Hmax Hr) as (Hok & _). cbn [mt_cache mt_pending mt_handles] in Hok.
  destruct (Hans k) as (env & d & Hd & Hfuel & Hfk). rewrite (c_File_stored render log k h content Ht Hv env d Hd ltac:(lia)) in Hfk.
  assert (key_size k = zlen content) as Hks. { unfold key_size. rewrite Hl, i64_small by lia. done. }
  destruct (acquire_quiet (λ k body, file k = Ok (body, None)) file k content (fs_cache f) P H' Hok He Hfk Hfk (eq_sym Hks)) as (cell & c' & Hacq & Hok').
  unfold fs_Open. change (negb (Z.land O_RDONLY O_ACCMODE =? O_RDONLY)) with false. cbv iota.
  assert (parseContentKey (ls_Key e) = Ok k) as ->. { unfold parseContentKey. rewrite Hk, hex_Decode_Encode. cbn. by apply Parse_Ok. }
  fold (key_size k). assert ((fs_maxFileSize f >? 0) && (key_size k >? fs_maxFileSize f) = false) as -> by lia. rewrite Hacq.
  eexists cell, _. split; [done|]. intros off n. cbn [fs_Read fst fs_cache].
  destruct (handle_content _ c' P ((k, cell) :: H') k cell Hok' ltac:(left)) as (content' & Hd' & _ & Hread). rewrite Hread.
  assert (content' = content) as -> by congruence. done.
Qed.

(** What the entry [e] of a node [n] gives in the mount [f]. *)
Definition shows_node (ls : Key → result (list lsEntry)) (file : Key → result (bytes * option error)) (e : lsEntry) (n : node) (f : amberFS) : Prop :=
  match n with
  | NDir _ ch' => (Readdir ls e f).1 = Ok ((λ q, (q.1, node_type q.2)) <$> ch') ∧
                  ∀ name, name ∉ ch'.*1 → (Lookup ls e name f).1 = Err ENOENT
  | NLink _ t => Readlink e = t
  | NFile _ content => ∀ maxIdle mem P H',
      mem_fds mem = ∅ → maxIdle < 2 ^ 62 →
      rtc (mt_step (λ k body, file k = Ok (body, None))) (mkMount (newBackingCache maxIdle mem) [] []) (mkMount (fs_cache f) P H') →
      mem_events (bc_mem (fs_cache f)) = [] → fs_maxFileSize f <= 0 ∨ zlen content <= fs_maxFileSize f →
      ∃ cell f', fs_Open id file e O_RDONLY f = (Ok cell, f') ∧ ∀ off n, (fs_Read cell off n f').1 = Ok (take n (drop off content))
  | _ => True
  end.

(** C22. The mount shows the tree.  For a tree that the daemon holds, with names and
    targets that are UTF-8, every path leads, by one [Lookup] for each name and
    whatever listings are kept from before, to a node with the mode, owner, time, size
    and device number of the tree's node; a directory lists exactly its names with
    their types and has no other name; a link has its target; and a file that the size
    limit admits opens and reads as its content, from every cache of files that opens
    and closes can lead to.  The fuel is the height of the trees on the way. *)
Theorem mount_tree log k m ch p n uid gid :
  stored_children log k ch → Validate k = Ok tt → node_wf (NDir m ch) → utf8_tree (NDir m ch) → node_at (NDir m ch) p = Some n →
  ∃ F0, ∀ F ls file f, (F0 ≤ F)%nat → ls_answers log F ls → file_answers log F file → dirs_ok ls f →
  ∃ e f', fs_walk ls (mount_root uid gid k) p f = (Ok e, f') ∧ dirs_ok ls f' ∧ same_files f f' ∧ (p ≠ [] → Getattr e = node_attr n) ∧
    shows_node ls file e n f'.
Proof.
  intros Hst Hv Hwf Hu Hat. destruct p as [|c p].
  - injection Hat as <-. destruct (readdir_stored log (mount_root uid gid k) m ch k eq_refl Hst Hv Hwf Hu) as [F0 HF0].
    exists F0. intros F ls file f HF Hls _ Hok. exists (mount_root uid gid k), f. split_and!; [done..|]. by eapply HF0.
  - destruct (walk_stored log (c :: p) (mount_root uid gid k) m ch k n eq_refl Hst Hv Hwf Hu Hat) as (e & name & F1 & Hsh & Hwfn & Hun & Hwalk); [done|].
    assert (∃ F2, ∀ F ls file f, (F2 ≤ F)%nat → ls_answers log F ls → file_answers log F file → dirs_ok ls f → shows_node ls file e n f) as [F2 HF2].
    2:{ exists (F1 + F2)%nat. intros F ls file f HF Hls Hfile Hok. destruct (Hwalk F ls f ltac:(lia) Hls Hok) as (f' & Hw & Hok' & Hsame).
        exists e, f'. split_and!; [done..|intros _; by eapply fillAttr_shows|]. apply (HF2 F); [lia|done..]. }
    destruct n as [m' content|m' ch'|m' t|m' chr r|m'|m']; try by exists 0%nat.
    + destruct Hwfn as [_ Hlen]. destruct (open_stored log e name m' content Hsh Hlen) as [F2 HF2]. exists F2. intros F ls file f HF _ Hfile _ maxIdle mem P H' ????. by eapply HF2.
    + pose proof Hsh as (_ & _ & _ & _ & _ & _ & _ & k' & Hk' & Hv' & Hst'). destruct (readdir_stored log e m' ch' k' Hk' Hst' Hv' Hwfn Hun) as [F2 HF2].
      exists F2. intros F ls file f HF Hls _ Hok. by eapply HF2.
    + exists 0%nat. intros. by destruct Hsh as (_ & _ & _ & _ & _ & Ht & _).
Qed.
End over.

(** ** An application *)
Section examples.
#[local] Existing Instance zstd_example.
#[local] Existing Instance blake3_example.
#[local] Existing Instance cbor_example.
#[local] Existing Instance refcbor_example.
#[local] Existing Instance pebble_example.
#[local] Existing Instance pebble_example_laws.
#[local] Existing Instance sshsig_example.
#[local] Existing Instance sshkeys_example.
#[local] Existing Instance dev_example.
#[local] Existing Instance dev_example_laws.
#[local] Existing Instance url_example.
#[local] Existing Instance json_example.
#[local] Existing Instance percent_example.
#[local] Existing Instance text_daemon.
#[local] Existing Instance text_client.
#[local] Existing Instance text_laws.
#[local] Existing Instance fuse_open.

Definition mounted_node : node := NDir meta_example [([x66], file_node); ([x6c], link_node)].
Definition mounted_env (F : nat) : denv :=
  mkDenv (λ _, stored_store) F pick_example 4 [] (λ _ s, (Ok tt, s)) (λ _, None) (λ _, 0) 0
    (mkEnv (λ _, None) None None (λ _, true) [] id) calls_example (λ _, no_json) id id 2 (λ ks s, (Ok ks, s)) (λ _ _, []) [] [].

Lemma mounted_wf : node_wf mounted_node.
Proof.
  pose proof portable_example as Hp. apply Forall_cons in Hp as [(_ & Hf & _) Hp]. apply Forall_cons in Hp as [(_ & Hl & _) _].
  split; [exact (node_wf_meta _ Hf)|]. split; [repeat constructor|]. cbn [foldr fst snd]. exact (conj Hf (conj Hl I)).
Qed.

Lemma mounted_utf8 : utf8_tree mounted_node.
Proof.
  intros [|c p] m ch Hat.
  - injection Hat as _ <-. repeat constructor.
  - unfold mounted_node in Hat. cbn [node_at list_find fst snd] in Hat. destruct (decide ([x66] = c)); [by destruct p|]. cbn in Hat.
    destruct (decide ([x6c] = c)); cbn in Hat; [by destruct p|done].
Qed.

Lemma mounted_holds : holds_log (λ _, stored_store) stored_example.2 (daemon_of stored_store).
Proof. destruct stored_store_holds as (c & Hcs & Hc & Hq & Hlog). exists c. exact (conj (conj Hcs Hc) (conj (λ _, conj Hcs (conj Hc Hq)) Hlog)). Qed.

Lemma mount_tree_witness :
  ∃ F ls file e f, fs_walk ls (mount_root 0 0 stored_example.1) [[x66]] (mountAmber 0 100 (mkMemory ∅ 0 [])) = (Ok e, f) ∧
    ls stored_example.1 = (c_Ls (d_serve render_example (mounted_env F)) stored_example.1 [] (daemon_of stored_store)).1 ∧
    Getattr e = node_attr file_node ∧
    ∃ cell f', fs_Open id file e O_RDONLY f = (Ok cell, f') ∧ (fs_Read cell 0 10 f').1 = Ok [x68; x69].
Proof.
  destruct (mount_tree render_example stored_example.2 stored_example.1 meta_example [([x66], file_node); ([x6c], link_node)] [[x66]] file_node 0 0
    stored_children_example ltac:(vm_compute; reflexivity) mounted_wf mounted_utf8 eq_refl) as [F HF].
  set (ls := λ k, (c_Ls (d_serve render_example (mounted_env F)) k [] (daemon_of stored_store)).1).
  set (file := λ k, (c_File (d_serve render_example (mounted_env F)) k (daemon_of stored_store)).1).
  destruct (HF F ls file (mountAmber 0 100 (mkMemory ∅ 0 [])) (le_n F)) as (e & f & Hw & _ & (Hc & Hm & _) & Hattr & Hshow).
  - intros k. exists (mounted_env F), (daemon_of stored_store). exact (conj mounted_holds (conj (le_n F) eq_refl)).
  - intros k. exists (mounted_env F), (daemon_of stored_store). exact (conj mounted_holds (conj (le_n F) eq_refl)).
  - apply dirs_ok_start.
  - exists F, ls, file, e, f. split; [exact Hw|]. split; [reflexivity|]. split; [by apply Hattr|].
    destruct (Hshow 100 (mkMemory ∅ 0 []) [] [] eq_refl ltac:(lia)) as (cell & f' & Ho & Hr).
    + rewrite Hc. apply rtc_refl.
    + rewrite Hc. reflexivity.
    + left. rewrite Hm. cbn. lia.
    + exists cell, f'. split; [exact Ho|]. rewrite (Hr 0%nat 10%nat). reflexivity.
Defined.
End examples.
