(* ===== verification/Admin.v ===== *)
(** * Package [admin]: the pages of the operator ([admin.go], [browse.go])

    A request is answered from the sessions, the allowed keys and the references.  An
    answer is kept as the value that is encoded: the members of the JSON object, the
    headers that matter and the content.  [now] is the monotonic clock that
    [time.Now] carries; the pause after a failed login and the log are left out. *)

From Stdlib Require Import Init.Byte.
From S2P Require Import Prelude Machine Key Chunkers FsEncode FsTree FsRead FsWalk PackRecord PackStream Footer Packstore PackstoreRep PackstoreFacts Compact Parallel Inbox InboxProtocol Text Sshsign Reference Refstore Gc Auth Server Routes Sync Remote Path Posix Ingest IngestFacts PosixFacts Tar TarFacts PathFacts AllowStore Daemon DaemonFacts Client ClientFacts.
From Stdlib Require Import ZifyBool ZifyNat.
Local Open Scope Z_scope.

Definition SessionCookie : string := "amber_admin_session".
Definition sessionTTL : Z := 12 * 3600 * 1000000000.
Definition maxBody : Z := 64 * 1024.
Definition defaultTreeLimit : Z := 500.
Definition maxTreeLimit : Z := 1000.

(** ** Text *)

(** The length of the sequence that starts a string; 0 when none does. *)
Definition rune_len (s : bytes) : nat :=
  match s with
  | [] => 0
  | b0 :: s1 =>
      let x := b2z b0 in
      if x <? 128 then 1 else
      match s1 with
      | [] => 0
      | b1 :: s2 =>
          if in_range 194 223 x && cont b1 then 2 else
          match s2 with
          | [] => 0
          | b2 :: s3 =>
              if in_range 224 239 x && second3 x (b2z b1) && cont b2 then 3 else
              match s3 with
              | [] => 0
              | b3 :: _ => if in_range 240 244 x && second4 x (b2z b1) && cont b2 && cont b3 then 4 else 0
              end
          end
      end
  end.

(** [strings.ToValidUTF8]: a run of invalid bytes becomes one replacement. *)
Fixpoint valid_loop (fuel : nat) (s repl : bytes) (invalid : bool) : bytes :=
  match fuel, s with
  | S fuel, c :: rest =>
      match rune_len s with
      | O => (if invalid then [] else repl) ++ valid_loop fuel rest repl true
      | n => take n s ++ valid_loop fuel (drop n s) repl false
      end
  | _, _ => []
  end.
Definition ToValidUTF8 (s repl : bytes) : bytes := valid_loop (length s) s repl false.

(** The part after the last separator. *)
Fixpoint after_last (sep : byte) (s : bytes) : bytes :=
  match s with
  | [] => []
  | c :: s => if bool_decide (c = sep) && negb (bool_decide (sep ∈ s)) then s else if bool_decide (sep ∈ s) then after_last sep s else c :: s
  end.

Definition fileBaseName (s : bytes) : bytes :=
  let base := ToValidUTF8 (after_last x2f s) [x5f] in
  if bool_decide (base = []) then str "file" else base.

(** [path.Ext]: from the last dot of the last element. *)
Fixpoint rev_ext (r acc : bytes) : bytes :=
  match r with
  | [] => []
  | c :: r => if bool_decide (c = x2f) then [] else if bool_decide (c = x2e) then x2e :: acc else rev_ext r (c :: acc)
  end.
Definition path_Ext (s : bytes) : bytes := rev_ext (rev s) [].

(** ** Entries *)
Definition entryKind (mode : Z) : string :=
  let ty := Z.land mode S_IFMT in
  if ty =? S_IFDIR then "dir" else if ty =? S_IFREG then "file" else if ty =? S_IFLNK then "symlink" else
  if ty =? S_IFIFO then "fifo" else if ty =? S_IFCHR then "char" else if ty =? S_IFBLK then "block" else
  if ty =? S_IFSOCK then "socket" else "unknown".

Record treeEntry := mkTreeEntry {
  te_Name : bytes; te_Kind : string; te_Size : Z; te_Mode : Z; te_Mtime : Z; te_Target : bytes; te_NameInvalid : bool;
}.

(** U+FFFD *)
Definition replacement : bytes := [xef; xbf; xbd].

Definition entryJSON (e : FsEncode.Entry) : treeEntry :=
  let invalid := negb (utf8_ValidString (Name e)) in
  mkTreeEntry (if invalid then ToValidUTF8 (Name e) replacement else Name e) (entryKind (Mode e))
    (if (length (ContentKey e) =? 32)%nat then match Key.Parse (ContentKey e) with Ok ck => Length ck | _ => 0 end else 0)
    (Mode e) (Mtime e) (ToValidUTF8 (LinkTarget e) replacement) invalid.

Definition refKind (k : Key) : string :=
  if (Type_ k =? DirLeaf) || (Type_ k =? DirNode) then "dir"
  else if (Type_ k =? Blob) || (Type_ k =? FileNode) then "file" else "invalid".

Record refInfo := mkRefInfo { rf_Name : bytes; rf_Key : bytes; rf_User : bytes; rf_CreatedAt : Z; rf_Kind : string }.

(** ** Requests and answers *)
Record areq := mkAreq {
  aq_Method : bytes; aq_Path : bytes; aq_Query : bytes;
  aq_Origin : bytes; aq_Host : bytes;      (* the headers; empty when absent *)
  aq_Cookie : option bytes;                (* the cookie of the session *)
  aq_Body : bytes; aq_BodyErr : option error;
}.

Inductive aanswer :=
| ANoContent                                     (* 204 *)
| ASession (token : bytes)                       (* 204 with the cookie of a session *)
| AFail (status : Z) (e : error)
| AKeys (keys : list KeyLine)
| ARefs (refs : list refInfo)
| ADir (entries : list treeEntry) (more : bool) (next : option bytes)
| AStat (st : treeEntry)
| AFile (ctype : bytes) (length_ : Z) (disposition : string) (filename content : bytes)
| AArchive (format : string) (filename : bytes) (members : list member)
| AAbort                                         (* cut off after the headers *)
| AUi (path : bytes) | AIndex (content : bytes) | ARedirect | AMux.

(** JSON and what the standard library knows of file types. *)
Class AdminLib := {
  sha256 : bytes → bytes;
  d_login : bytes → result bytes;                (* the member [password] *)
  d_addKey : bytes → result (bytes * bool);      (* [line] and [admin] *)
  TypeByExtension : bytes → bytes;
  DetectContentType : bytes → bytes;
}.

(** What a request meets: the clock, the random bytes of a token, the order in which
    the map of keys is visited, and the files of the pages. *)
Record aenv := mkAenv {
  ae_now : Z;
  ae_rand : result bytes;
  ae_order : list bytes;
  ae_ui : bytes → bool;
  ae_index : option bytes;
}.

Section admin.
Context `{Cbor} `{RefCbor} `{Pebble} `{SshLine} `{RecordJson} `{UnixDev} `{NetUrl} `{AdminLib}.

(** The password is kept as its hash. *)
Record ahandler := mkAhandler {
  ad_password : bytes;
  ad_keys : AStore;
  ad_refs : DB;
  ad_sessions : gmap bytes Z;      (* token -> expiry *)
}.
Definition set_sessions (s : gmap bytes Z) (h : ahandler) : ahandler := mkAhandler (ad_password h) (ad_keys h) (ad_refs h) s.
Definition set_keys (k : AStore) (h : ahandler) : ahandler := mkAhandler (ad_password h) k (ad_refs h) (ad_sessions h).
Definition set_refdb (db : DB) (h : ahandler) : ahandler := mkAhandler (ad_password h) (ad_keys h) db (ad_sessions h).

Definition admin_New (password : bytes) (keys : AStore) (refs : DB) : result ahandler :=
  if bool_decide (password = []) then Err (errors_New "admin UI requires a password")
  else Ok (mkAhandler (sha256 password) keys refs ∅).

(** A handler that panics is cut off. *)
Definition a_failed {A} (status : Z) (r : result A) : aanswer := match r with Err e => AFail status e | _ => AAbort end.

(** ** Sessions *)
Definition a_handler : Type := areq → ahandler → aanswer * ahandler.

(** [o != "" && o != "null"] and a host other than that of the request. *)
Definition crossOrigin (r : areq) : bool :=
  negb (bool_decide (aq_Origin r = [])) && negb (bool_decide (aq_Origin r = str "null")) &&
  match url_Parse (aq_Origin r) with Ok u => negb (bool_decide (u_Host u = aq_Host r)) | _ => true end.
Definition sameOrigin (next : a_handler) : a_handler := λ r h,
  if crossOrigin r then (AFail StatusForbidden (errors_New "cross-origin request rejected"), h) else next r h.

Definition sessionValid (now : Z) (token : bytes) (h : ahandler) : bool * ahandler :=
  match ad_sessions h !! token with
  | None => (false, h)
  | Some exp => if now >? exp then (false, set_sessions (delete token (ad_sessions h)) h) else (true, h)
  end.

Definition authed (now : Z) (next : a_handler) : a_handler := λ r h,
  let '(ok, h) := match aq_Cookie r with Some c => sessionValid now c h | None => (false, h) end in
  if ok : bool then next r h else (AFail StatusUnauthorized (errors_New "not logged in"), h).

(** [io.ReadAll] of a body of at most [maxBody] bytes; what follows is not read. *)
Definition a_body (r : areq) : result bytes :=
  if zlen (aq_Body r) <? maxBody then match aq_BodyErr r with Some e => Err e | None => Ok (aq_Body r) end
  else Ok (take (Z.to_nat maxBody) (aq_Body r)).

Definition login (env : aenv) : a_handler := λ r h,
  match (b ← a_body r; d_login b) with
  | Ok password =>
      if negb (bool_decide (sha256 password = ad_password h)) then (AFail StatusUnauthorized (errors_New "wrong password"), h) else
      match ae_rand env with
      | Ok tok =>
          let token := hex_EncodeToString tok in
          let live := filter (λ p : bytes * Z, ¬ ae_now env > p.2) (ad_sessions h) in
          (ASession token, set_sessions (<[token := ae_now env + sessionTTL]> live) h)
      | r => (a_failed StatusInternalServerError r, h)
      end
  | _ => (AFail StatusBadRequest (errors_New "malformed login request"), h)
  end.

Definition logout : a_handler := λ r h,
  (ANoContent, match aq_Cookie r with Some c => set_sessions (delete c (ad_sessions h)) h | None => h end).

(** ** Keys *)
Definition listKeys : a_handler := λ r h, (AKeys (as_List (ad_keys h)), h).

Definition addKey : a_handler := λ r h,
  match (b ← a_body r; d_addKey b) with
  | Ok (line, admin) =>
      let '(res, ks) := as_Add line admin (ad_keys h) in
      (match res with Ok _ => ANoContent | r => a_failed StatusBadRequest r end, set_keys ks h)
  | _ => (AFail StatusBadRequest (errors_New "malformed request"), h)
  end.

Definition removeKey (env : aenv) : a_handler := λ r h,
  let fp := query_Get "fingerprint" (url_Query (aq_Query r)) in
  if bool_decide (fp = []) then (AFail StatusBadRequest (errors_New "missing fingerprint"), h) else
  let '(res, ks) := as_Remove (ae_order env) fp (ad_keys h) in
  (match res with Ok _ => ANoContent | r => a_failed StatusNotFound r end, set_keys ks h).

(** ** References *)
Definition ref_info (rec : Record_) : result refInfo :=
  match Decode (rec_Data rec) with
  | Ok ref =>
      match Key.Parse (ref_Key ref) with
      | Ok k => Ok (mkRefInfo (rec_Name rec) (hex_EncodeToString (kb k)) (ref_User ref) (ref_CreatedAt ref) (refKind k))
      | Err _ => Ok (mkRefInfo (rec_Name rec) [] [] 0 "invalid")
      | r => err_of r
      end
  | Err _ => Ok (mkRefInfo (rec_Name rec) [] [] 0 "invalid")
  | r => err_of r
  end.

Definition a_listRefs : a_handler := λ r h,
  let '(recs, db) := Refstore.All (ad_refs h) in
  (match recs with
   | Ok recs => match foldR (λ rec out, i ← ref_info rec; Ok (out ++ [i])) recs [] with Ok out => ARefs out | _ => AAbort end
   | r => a_failed StatusInternalServerError r
   end, set_refdb db h).

(** ** Trees *)

(** The object that is addressed (the zero key for an entry without content) and, below
    the root, the entry that has its metadata. *)
Record browseTarget := mkTarget { bt_key : Key; bt_entry : option FsEncode.Entry }.
Definition zero_key : Key := to_key (replicate 32 x00).

Definition hasComponents (path : bytes) : bool := existsb (λ c, negb (comp_skip c)) (split_slash path).

(** The objects: a read may fail, and errors of the store say when one is not there. *)
Context (get : Key → result bytes) (fuel : nat).

Definition dir_type (k : Key) : bool := (Type_ k =? DirLeaf) || (Type_ k =? DirNode).
Definition file_type (k : Key) : bool := (Type_ k =? Blob) || (Type_ k =? FileNode).

Definition store_status (e : error) : Z := if bool_decide (errors_Is e ErrObjectNotFound) then StatusNotFound else StatusInternalServerError.

(** Below the record of a reference. *)
Definition resolve_record (rec path : bytes) : aanswer + browseTarget :=
  match wrap "stored reference is malformed" (Decode rec) with
  | Ok ref =>
      match wrap "stored reference key" (Key.Parse (ref_Key ref)) with
      | Ok root =>
          if existsb comp_dotdot (split_slash path) then inl (AFail StatusBadRequest (errors_New "(..) is not supported in paths")) else
          if negb (dir_type root) then
            if negb (file_type root) then inl (AFail StatusBadRequest (errors_New "reference %q does not point at browsable content")) else
            if hasComponents path then inl (AFail StatusBadRequest (errors_New "reference %q does not point at a directory")) else
            inr (mkTarget root None)
          else
            match ResolveEntry get fuel root path with
            | Ok None => inr (mkTarget root None)
            | Ok (Some ent) =>
                if (0 <? length (ContentKey ent))%nat then
                  match wrap "entry content key" (Key.Parse (ContentKey ent)) with
                  | Ok k => inr (mkTarget k (Some ent))
                  | r => inl (a_failed StatusInternalServerError r)
                  end
                else inr (mkTarget zero_key (Some ent))
            | Err e =>
                inl (AFail (if bool_decide (errors_Is e FsRead.ErrNotDir) then StatusBadRequest
                            else if bool_decide (errors_Is e FsRead.ErrNotFound) || bool_decide (errors_Is e ErrObjectNotFound) then StatusNotFound
                            else StatusInternalServerError) e)
            | r => inl (a_failed StatusInternalServerError r)
            end
      | r => inl (a_failed StatusInternalServerError r)
      end
  | r => inl (a_failed StatusInternalServerError r)
  end.

Definition resolveTarget (r : areq) (h : ahandler) : (aanswer + browseTarget) * ahandler :=
  let q := url_Query (aq_Query r) in
  let name := query_Get "ref" q in
  if bool_decide (name = []) then (inl (AFail StatusBadRequest (errors_New "missing ref parameter")), h) else
  let '(rec, db) := Refstore.Get name (ad_refs h) in
  (match rec with
   | Ok rec => resolve_record rec (query_Get "path" q)
   | Err e => inl (if bool_decide (errors_Is e Refstore.ErrNotFound) then AFail StatusNotFound (errors_New "reference %q not found")
                   else AFail StatusInternalServerError e)
   | r => inl (a_failed StatusInternalServerError r)
   end, set_refdb db h).

(** A handler of a resolved target. *)
Definition with_target (k : browseTarget → aanswer) : a_handler := λ r h,
  let '(t, h) := resolveTarget r h in (match t with inl a => a | inr t => k t end, h).

(** The number of entries that is asked for. *)
Definition tree_limit (s : bytes) : option Z :=
  if bool_decide (s = []) then Some defaultTreeLimit else
  match ParseInt s with Ok n => if n <? 1 then None else Some (Z.min n maxTreeLimit) | _ => None end.

(** One page of the entries of a directory. *)
Definition treeDir (q : list (bytes * bytes)) (dir : Key) : aanswer :=
  match tree_limit (query_Get "limit" q) with
  | None => AFail StatusBadRequest (errors_New "limit must be a positive integer")
  | Some limit =>
      match ListEntries get fuel dir (query_Get "after" q) limit with
      | Ok (entries, more) =>
          if more : bool then
            match last entries with
            | Some e => ADir (entryJSON <$> entries) true (Some (QueryEscape (Name e)))
            | None => AAbort
            end
          else ADir (entryJSON <$> entries) false None
      | Err e => AFail (store_status e) e
      | r => a_failed StatusInternalServerError r
      end
  end.

Definition is_dir_entry (e : FsEncode.Entry) : bool := Z.land (Mode e) S_IFMT =? S_IFDIR.

Definition tree : a_handler := λ r,
  with_target (λ t,
    match bt_entry t with
    | None => if dir_type (bt_key t) then treeDir (url_Query (aq_Query r)) (bt_key t)
              else AStat (mkTreeEntry [] "file" (Length (bt_key t)) 0 0 [] false)
    | Some e => if is_dir_entry e then treeDir (url_Query (aq_Query r)) (bt_key t) else AStat (entryJSON e)
    end) r.

(** ** Content *)
Fixpoint firstBytes (n : nat) (fuel : nat) (k : Key) : result bytes :=
  match fuel with
  | O => Diverge
  | S fuel =>
      data ← get k;
      if Type_ k =? Blob then Ok (take n data)
      else if Type_ k =? FileNode then
        children ← DecodeFileNode data;
        match children with [] => Ok [] | ck :: _ => firstBytes n fuel ck end
      else Err (errors_New "%s is not a file-content object (type %v)")
  end.

(** The bytes that are written; an error ends them. *)
Fixpoint writeFileContent (fuel : nat) (k : Key) (w : bytes) : result bytes :=
  match fuel with
  | O => Diverge
  | S fuel =>
      data ← get k;
      if Type_ k =? Blob then Ok (w ++ data)
      else if Type_ k =? FileNode then
        children ← DecodeFileNode data;
        foldR (λ ck w, writeFileContent fuel ck w) children w
      else Err (errors_New "%s is not a file-content object (type %v)")
  end.

Definition raw_filename (q : list (bytes * bytes)) (t : browseTarget) : aanswer + bytes :=
  match bt_entry t with
  | None => if negb (file_type (bt_key t)) then inl (AFail StatusBadRequest (errors_New "not a file"))
            else inr (fileBaseName (query_Get "ref" q))
  | Some e =>
      if Z.land (Mode e) S_IFMT =? S_IFREG then
        if negb (file_type (bt_key t)) then inl (AFail StatusInternalServerError (errors_New "file entry does not reference file content"))
        else inr (fileBaseName (Name e))
      else inl (AFail StatusBadRequest (errors_New "not a regular file"))
  end.

Definition raw : a_handler := λ r,
  let q := url_Query (aq_Query r) in
  with_target (λ t,
    match raw_filename q t with
    | inl a => a
    | inr filename =>
        match get (bt_key t) with
        | Ok _ =>
            let ctype := TypeByExtension (path_Ext filename) in
            match (if bool_decide (ctype = []) then head ← firstBytes 512 fuel (bt_key t); Ok (DetectContentType head) else Ok ctype) with
            | Ok ctype =>
                match writeFileContent fuel (bt_key t) [] with
                | Ok content => AFile ctype (Length (bt_key t)) (if bool_decide (query_Get "dl" q = []) then "inline" else "attachment") filename content
                | _ => AAbort
                end
            | Err e => AFail (store_status e) e
            | r => a_failed StatusInternalServerError r
            end
        | Err e => AFail (store_status e) e
        | r => a_failed StatusInternalServerError r
        end
    end) r.

Definition archive : a_handler := λ r h,
  let q := url_Query (aq_Query r) in
  let format := if bool_decide (query_Get "format" q = []) then str "tar" else query_Get "format" q in
  if negb (bool_decide (format = str "tar")) && negb (bool_decide (format = str "tgz"))
  then (AFail StatusBadRequest (errors_New "format must be tar or tgz"), h) else
  with_target (λ t,
    if match bt_entry t with Some e => negb (is_dir_entry e) | None => false end then AFail StatusBadRequest (errors_New "not a directory") else
    if negb (dir_type (bt_key t)) then AFail StatusBadRequest (errors_New "not a directory") else
    match get (bt_key t) with
    | Ok _ =>
        let base := fileBaseName (default (query_Get "ref" q) (last (filter (λ c, comp_skip c = false) (split_slash (query_Get "path" q))))) in
        let gz := bool_decide (format = str "tgz") in
        match tar_Write get fuel fuel (bt_key t) with
        | Ok members => AArchive (if gz then "tgz" else "tar") (base ++ str (if gz then ".tar.gz" else ".tar")) members
        | _ => AAbort
        end
    | Err e => AFail (store_status e) e
    | r => a_failed StatusInternalServerError r
    end) r h.

(** ** The pages themselves *)
Definition serveUI (env : aenv) : a_handler := λ r h,
  let p := drop (length (str "/admin/")) (aq_Path r) in
  (if negb (bool_decide (p = [])) && ae_ui env p then AUi p else
   match ae_index env with
   | Some b => AIndex b
   | None => AFail StatusInternalServerError (errors_New "admin UI is missing from this build")
   end, h).

(** [New]: the table of routes.  A pattern with GET serves HEAD too. *)
Definition admin_serve (env : aenv) (r : areq) : ahandler → aanswer * ahandler :=
  let now := ae_now env in
  let at_ := λ (m p : string), (bool_decide (aq_Method r = str m) || (String.eqb m "GET" && bool_decide (aq_Method r = str "HEAD"))) &&
                               bool_decide (aq_Path r = str p) in
  if at_ "POST" "/admin/api/login" then sameOrigin (login env) r else
  if at_ "POST" "/admin/api/logout" then sameOrigin logout r else
  if at_ "GET" "/admin/api/session" then authed now (λ _ h, (ANoContent, h)) r else
  if at_ "GET" "/admin/api/keys" then authed now listKeys r else
  if at_ "POST" "/admin/api/keys" then sameOrigin (authed now addKey) r else
  if at_ "DELETE" "/admin/api/keys" then sameOrigin (authed now (removeKey env)) r else
  if at_ "GET" "/admin/api/refs" then authed now a_listRefs r else
  if at_ "GET" "/admin/api/tree" then authed now tree r else
  if at_ "GET" "/admin/api/raw" then authed now raw r else
  if at_ "GET" "/admin/api/archive" then authed now archive r else
  if (bool_decide (aq_Method r = str "GET") || bool_decide (aq_Method r = str "HEAD")) && bool_decide (take (length (str "/admin/")) (aq_Path r) = str "/admin/")
  then serveUI env r else
  if at_ "GET" "/admin" then λ h, (ARedirect, h) else λ h, (AMux, h).
End admin.

(** ** The pages of the operator: sessions and what they protect *)

Section sessions.
Context `{Cbor} `{RefCbor} `{Pebble} `{SshLine} `{RecordJson} `{UnixDev} `{NetUrl} `{AdminLib}.

(** ** Histories *)

(** A request and what it met. *)
Record visit := mkVisit { vi_get : Key → result bytes; vi_fuel : nat; vi_env : aenv; vi_req : areq }.
Definition vi_now (v : visit) : Z := ae_now (vi_env v).
Definition vi_serve (v : visit) : ahandler → aanswer * ahandler := admin_serve (vi_get v) (vi_fuel v) (vi_env v) (vi_req v).

(** The states of a handler whose password has the hash [pw], with the requests so far;
    between them the keys and references may change by other ways. *)
Inductive runs (pw : bytes) : list visit → ahandler → Prop :=
| runs_new h : ad_password h = pw → ad_sessions h = ∅ → runs pw [] h
| runs_other hist h h' : runs pw hist h → ad_password h' = ad_password h → ad_sessions h' = ad_sessions h → runs pw hist h'
| runs_visit hist h v : runs pw hist h → runs pw (hist ++ [v]) (vi_serve v h).2.

Definition posts (path : string) (r : areq) : bool := bool_decide (aq_Method r = str "POST") && bool_decide (aq_Path r = str path).

(** A login that issues the token [c], and a logout that gives it up. *)
Definition logs_in (pw : bytes) (v : visit) (c : bytes) : Prop :=
  posts "/admin/api/login" (vi_req v) = true ∧ crossOrigin (vi_req v) = false ∧
  (∃ password, (b ← a_body (vi_req v); d_login b) = Ok password ∧ sha256 password = pw) ∧
  ∃ tok, ae_rand (vi_env v) = Ok tok ∧ c = hex_EncodeToString tok.
Definition logs_out (v : visit) (c : bytes) : Prop :=
  posts "/admin/api/logout" (vi_req v) = true ∧ crossOrigin (vi_req v) = false ∧ aq_Cookie (vi_req v) = Some c.

(** The token [c] opens the pages at [now]: it was issued by a login with the password,
    at most twelve hours ago, and was not given up since. *)
Definition admitted (pw : bytes) (hist : list visit) (c : bytes) (now : Z) : Prop :=
  ∃ h1 v h2, hist = h1 ++ v :: h2 ∧ logs_in pw v c ∧ now <= vi_now v + sessionTTL ∧ Forall (λ v, ¬ logs_out v c) h2.

(** ** What a request does to the sessions *)
Definition same_doors (h h' : ahandler) : Prop := ad_password h' = ad_password h ∧ ad_sessions h' = ad_sessions h.

Lemma with_target_doors get fuel k r h : same_doors h (with_target get fuel k r h).2.
Proof.
  unfold with_target, resolveTarget. case_bool_decide; [done|]. by destruct (Refstore.Get _ _).
Qed.

(** Handlers behind a session leave sessions alone. *)
Lemma handler_doors get fuel env r h next :
  next ∈ [(λ _ h, (ANoContent, h)); listKeys; addKey; removeKey env; a_listRefs; tree get fuel; raw get fuel; archive get fuel] →
  same_doors h (next r h).2.
Proof.
  rewrite !elem_of_cons, elem_of_nil. intros [->|[->|[->|[->|[->|[->|[->|[->|[]]]]]]]]].
  - done.
  - done.
  - unfold addKey. destruct (b ← a_body r; d_addKey b) as [[line admin]|e| |]; [|done..]. by destruct (as_Add _ _ _).
  - unfold removeKey. case_bool_decide; [done|]. by destruct (as_Remove _ _ _).
  - unfold a_listRefs. by destruct (Refstore.All _).
  - apply with_target_doors.
  - apply with_target_doors.
  - unfold archive. case_match; [done|]. apply with_target_doors.
Qed.

(** The sessions after [authed] has looked. *)
Definition looked (now : Z) (r : areq) (s : gmap bytes Z) : gmap bytes Z :=
  match aq_Cookie r with
  | Some c => match s !! c with Some exp => if now >? exp then delete c s else s | None => s end
  | None => s
  end.
Definition in_session (now : Z) (r : areq) (h : ahandler) : bool :=
  match aq_Cookie r with
  | Some c => match ad_sessions h !! c with Some exp => negb (now >? exp) | None => false end
  | None => false
  end.

Lemma authed_in now next r h : in_session now r h = true → authed now next r h = next r h.
Proof.
  unfold in_session, authed, sessionValid. destruct (aq_Cookie r) as [c|]; [|done]. destruct (ad_sessions h !! c) as [exp|]; [|done].
  by destruct (now >? exp).
Qed.
Lemma authed_out now next r h : in_session now r h = false →
  authed now next r h = (AFail StatusUnauthorized (errors_New "not logged in"), set_sessions (looked now r (ad_sessions h)) h).
Proof.
  unfold in_session, authed, sessionValid, looked. destruct h as [pw ks db s]. cbn. destruct (aq_Cookie r) as [c|]; [|done].
  destruct (s !! c) as [exp|]; [|done]. by destruct (now >? exp).
Qed.
Lemma in_session_looked now r h : in_session now r h = true → looked now r (ad_sessions h) = ad_sessions h.
Proof.
  unfold in_session, looked. destruct (aq_Cookie r) as [c|]; [|done]. destruct (ad_sessions h !! c) as [exp|]; [|done]. by destruct (now >? exp).
Qed.

(** The routes. *)
Definition protected (get : Key → result bytes) (fuel : nat) (env : aenv) : list (bool * string * string * a_handler) :=
  [(false, "GET", "/admin/api/session", λ _ h, (ANoContent, h)); (false, "GET", "/admin/api/keys", listKeys);
   (true, "POST", "/admin/api/keys", addKey); (true, "DELETE", "/admin/api/keys", removeKey env);
   (false, "GET", "/admin/api/refs", a_listRefs); (false, "GET", "/admin/api/tree", tree get fuel);
   (false, "GET", "/admin/api/raw", raw get fuel); (false, "GET", "/admin/api/archive", archive get fuel)]%string.

(** What each request amounts to. *)
Inductive visit_kind (v : visit) (h : ahandler) : aanswer * ahandler → Prop :=
| kind_login : posts "/admin/api/login" (vi_req v) = true → visit_kind v h (sameOrigin (login (vi_env v)) (vi_req v) h)
| kind_logout : posts "/admin/api/logout" (vi_req v) = true → visit_kind v h (sameOrigin logout (vi_req v) h)
| kind_protected edits m p next : (edits, m, p, next) ∈ protected (vi_get v) (vi_fuel v) (vi_env v) → aq_Path (vi_req v) = str p →
    (edits = true → aq_Method (vi_req v) = str m) → (edits = false → aq_Method (vi_req v) = str "GET" ∨ aq_Method (vi_req v) = str "HEAD") →
    visit_kind v h ((if edits : bool then sameOrigin (authed (vi_now v) next) else authed (vi_now v) next) (vi_req v) h)
| kind_page a : posts "/admin/api/login" (vi_req v) = false → posts "/admin/api/logout" (vi_req v) = false → (∃ p, a = AUi p) ∨ (∃ b, a = AIndex b) ∨ a = ARedirect ∨ a = AMux ∨
    a = AFail StatusInternalServerError (errors_New "admin UI is missing from this build") → visit_kind v h (a, h).

Lemma visit_cases v h : visit_kind v h (vi_serve v h).
Proof.
  unfold vi_serve, admin_serve. cbv zeta. set (m := aq_Method (vi_req v)). set (p := aq_Path (vi_req v)).
  cbn [String.eqb Ascii.eqb Bool.eqb andb]. rewrite ?orb_false_r.
  repeat match goal with
  | |- visit_kind _ _ ((if ?b then _ else _) _) => destruct b eqn:?
  end.
  1: by apply kind_login. 1: by apply kind_logout.
  all: repeat match goal with Hb : _ && _ = true |- _ => apply andb_prop in Hb as [?Hm ?Hp] end.
  all: try match goal with Hm : _ = true, Hp : bool_decide (_ = str _) = true |- visit_kind _ _ (authed _ ?n _ _) =>
    apply bool_decide_eq_true_1 in Hp; apply orb_prop in Hm;
    eapply (kind_protected v h false "GET" _ n); [unfold protected; rewrite !elem_of_cons; tauto|exact Hp|done|
      intros _; destruct Hm as [Hm|Hm]; apply bool_decide_eq_true_1 in Hm; tauto] end.
  all: try match goal with Hm : _ = true, Hp : bool_decide (_ = str _) = true |- visit_kind _ _ (sameOrigin (authed _ ?n) _ _) =>
    apply bool_decide_eq_true_1 in Hp; apply bool_decide_eq_true_1 in Hm;
    eapply (kind_protected v h true _ _ n); [unfold protected; rewrite !elem_of_cons; tauto|exact Hp|intros _; exact Hm|done] end.
  - unfold serveUI. apply kind_page; [done..|]. case_match; [eauto|]. case_match; eauto 6.
  - apply kind_page; auto.
  - apply kind_page; auto.
Qed.

(** Neither a login nor a logout. *)
Lemma protected_path get fuel env edits m p next : (edits, m, p, next) ∈ protected get fuel env → str p ≠ str "/admin/api/login" ∧ str p ≠ str "/admin/api/logout".
Proof. unfold protected. rewrite !elem_of_cons, elem_of_nil. intros Hin. repeat destruct Hin as [[= -> -> -> ->]|Hin]; try done. Qed.

Lemma protected_doors v h edits m p next : (edits, m, p, next) ∈ protected (vi_get v) (vi_fuel v) (vi_env v) → same_doors h (next (vi_req v) h).2.
Proof.
  intros Hin. apply (handler_doors (vi_get v) (vi_fuel v) (vi_env v)). revert Hin. unfold protected. rewrite !elem_of_cons, !elem_of_nil.
  intros Hin. repeat destruct Hin as [[= -> -> -> ->]|Hin]; tauto.
Qed.

Lemma posts_path path r : posts path r = true → aq_Path r = str path.
Proof. unfold posts. intros [_ Hp]%andb_prop. by apply bool_decide_eq_true_1 in Hp. Qed.

(** A request other than a login or a logout drops at most the session that it came with,
    when it has run out. *)
Definition keeps (v : visit) (s s' : gmap bytes Z) : Prop :=
  ∀ c, s' !! c = s !! c ∨ (s' !! c = None ∧ ∃ exp, s !! c = Some exp ∧ vi_now v > exp).

Lemma looked_keeps v s : keeps v s (looked (vi_now v) (vi_req v) s).
Proof.
  intros c. unfold looked. destruct (aq_Cookie (vi_req v)) as [c'|]; [|by left]. destruct (s !! c') as [exp|] eqn:Hs; [|by left].
  destruct (vi_now v >? exp) eqn:E; [|by left]. destruct (decide (c' = c)) as [->|Hne]; [|left; by apply lookup_delete_ne].
  right. rewrite lookup_delete_eq. split; [done|]. exists exp. split; [done|]. lia.
Qed.

Lemma visit_sessions v h : let s := ad_sessions h in let s' := ad_sessions (vi_serve v h).2 in
  ad_password (vi_serve v h).2 = ad_password h ∧
  ((∃ c, logs_in (ad_password h) v c ∧ (∀ c', logs_in (ad_password h) v c' → c' = c) ∧ (∀ c', ¬ logs_out v c') ∧
      s' = <[c := vi_now v + sessionTTL]> (filter (λ p : bytes * Z, ¬ vi_now v > p.2) s)) ∨
   (∃ c, logs_out v c ∧ (∀ c', logs_out v c' → c' = c) ∧ (∀ c', ¬ logs_in (ad_password h) v c') ∧ s' = delete c s) ∨
   ((∀ c, ¬ logs_in (ad_password h) v c ∧ ¬ logs_out v c) ∧ keeps v s s')).
Proof.
  intros s s'. subst s s'.
  assert (∀ path, aq_Path (vi_req v) = str path → str path ≠ str "/admin/api/login" → ∀ c, ¬ logs_in (ad_password h) v c) as Hni.
  { intros path Hp Hne c (Hl%posts_path & _). congruence. }
  assert (∀ path, aq_Path (vi_req v) = str path → str path ≠ str "/admin/api/logout" → ∀ c, ¬ logs_out v c) as Hno.
  { intros path Hp Hne c (Hl%posts_path & _). congruence. }
  destruct (visit_cases v h) as [Hl|Hl|edits m p next Hin Hp Hm Hg|a Hl Hlo _].
  - pose proof (Hno _ (posts_path _ _ Hl) ltac:(done)) as Hno'. unfold sameOrigin. destruct (crossOrigin (vi_req v)) eqn:Hc.
    { split; [done|]. right; right. split; [|by left]. intros c. split; [|apply Hno']. intros (_ & Hc' & _). congruence. }
    unfold login. destruct (b ← a_body (vi_req v); d_login b) as [password|e| |] eqn:Hb.
    2-4: split; [done|]; right; right; split; [|by left]; intros c; split; [|apply Hno']; intros (_ & _ & (pw & Hpw & _) & _); congruence.
    case_bool_decide as Hpw; cbn [negb].
    2:{ split; [done|]. right; right. split; [|by left]. intros c. split; [|apply Hno']. intros (_ & _ & (pw & Hb' & Hpw') & _). congruence. }
    destruct (ae_rand (vi_env v)) as [tok|e| |] eqn:Hr.
    2-4: split; [done|]; right; right; split; [|by left]; intros c; split; [|apply Hno']; intros (_ & _ & _ & tok & Hr' & _); congruence.
    split; [done|]. left. exists (hex_EncodeToString tok). split_and!; [|intros c' (_ & _ & _ & tok' & Hr' & ->); congruence|done|done].
    split_and!; [done|done|by exists password|by exists tok].
  - pose proof (Hni _ (posts_path _ _ Hl) ltac:(done)) as Hni'. unfold sameOrigin. destruct (crossOrigin (vi_req v)) eqn:Hc.
    { split; [done|]. right; right. split; [|by left]. intros c. split; [apply Hni'|]. intros (_ & Hc' & _). congruence. }
    unfold logout. destruct (aq_Cookie (vi_req v)) as [c|] eqn:Hck.
    2:{ split; [done|]. right; right. split; [|by left]. intros c. split; [apply Hni'|]. intros (_ & _ & Hc'). congruence. }
    split; [done|]. right; left. exists c. split_and!; [done|intros c' (_ & _ & Hc'); congruence|done|done].
  - destruct (protected_path _ _ _ _ _ _ _ Hin) as [H1' H2']. pose proof (protected_doors v h edits m p next Hin) as [Hd1 Hd2].
    assert (∀ c, ¬ logs_in (ad_password h) v c ∧ ¬ logs_out v c) as Hneither by (intros c; split; [by eapply Hni|by eapply Hno]).
    assert (ad_password (authed (vi_now v) next (vi_req v) h).2 = ad_password h ∧
      keeps v (ad_sessions h) (ad_sessions (authed (vi_now v) next (vi_req v) h).2)) as [Hp' Hk].
    { destruct (in_session (vi_now v) (vi_req v) h) eqn:Hs.
      - rewrite authed_in by done. rewrite Hd2. split; [done|by left].
      - rewrite authed_out by done. split; [done|]. apply looked_keeps. }
    destruct edits; [unfold sameOrigin; destruct (crossOrigin (vi_req v))|]; (split; [done|]; right; right; split; [done|]); try done. by left.
  - split; [done|]. right; right. split; [|by left]. intros c. split; intros (Hl' & _); congruence.
Qed.

(** ** The sessions are those of the logins *)
Lemma runs_password pw hist h : runs pw hist h → ad_password h = pw.
Proof. induction 1 as [h Hp _|hist h h' _ IH Hp _|hist h v _ IH]; [done|congruence|]. by destruct (visit_sessions v h) as [-> _]. Qed.

(** [c] was issued for [exp] and not given up since. *)
Definition issued (pw : bytes) (hist : list visit) (c : bytes) (exp : Z) : Prop :=
  ∃ h1 v h2, hist = h1 ++ v :: h2 ∧ logs_in pw v c ∧ exp = vi_now v + sessionTTL ∧ Forall (λ v, ¬ logs_out v c) h2.

Lemma issued_snoc pw hist v c exp : issued pw hist c exp → ¬ logs_out v c → issued pw (hist ++ [v]) c exp.
Proof.
  intros (h1 & u & h2 & -> & Hin & He & Hf) Hv. exists h1, u, (h2 ++ [v]). split_and!; [by rewrite <- app_assoc|done|done|]. apply Forall_app. auto.
Qed.

Lemma sessions_issued pw hist h : runs pw hist h → ∀ c exp, ad_sessions h !! c = Some exp → issued pw hist c exp.
Proof.
  induction 1 as [h _ Hs|hist h h' _ IH _ Hs|hist h v Hr IH]; intros c exp Hc.
  - by rewrite Hs, lookup_empty in Hc.
  - apply IH. congruence.
  - destruct (visit_sessions v h) as [_ Hcases]. rewrite (runs_password pw hist h Hr) in Hcases.
    destruct Hcases as [(c' & Hin & _ & Hno & Hs)|[(c' & Ho & Huniq & _ & Hs)|(Hno & Hk)]].
    + rewrite Hs in Hc. apply lookup_insert_Some in Hc as [[<- <-]|[_ Hc]]; [by exists hist, v, []|].
      apply map_lookup_filter_Some in Hc as [Hc _]. by apply issued_snoc; [apply IH|].
    + rewrite Hs in Hc. apply lookup_delete_Some in Hc as [Hne Hc]. apply issued_snoc; [by apply IH|]. intros Ho'. by destruct Hne, (Huniq c Ho').
    + destruct (Hk c) as [Heq|[Hn _]]; [|congruence]. apply issued_snoc; [apply IH; congruence|apply Hno].
Qed.

(** Under a clock that does not go back, a session stays until it runs out. *)
Lemma issued_sessions pw hist h : runs pw hist h → ∀ c now, Forall (λ v, vi_now v <= now) hist → StronglySorted Z.le (vi_now <$> hist) →
  admitted pw hist c now → ∃ exp, ad_sessions h !! c = Some exp ∧ now <= exp.
Proof.
  induction 1 as [h _ _|hist h h' _ IH _ Hs|hist h v Hr IH]; intros c now Hnow Hsort Had.
  - destruct Had as ([] & v & h2 & ? & _); done.
  - rewrite Hs. by apply IH.
  - apply Forall_app in Hnow as [Hnow Hv]. apply Forall_cons in Hv as [Hv _]. rewrite fmap_app in Hsort.
    apply StronglySorted_app in Hsort as (Hlast & Hsort & _).
    destruct (visit_sessions v h) as [_ Hcases]. rewrite (runs_password pw hist h Hr) in Hcases.
    destruct Had as (h1 & u & h2 & Heq & Hin & Hexp & Hf). destruct h2 as [|w h2 _] using rev_ind.
    + apply app_inj_tail in Heq as [-> ->]. destruct Hcases as [(c' & Hin' & Huniq & _ & Hs)|[(c' & _ & _ & Hno & _)|(Hno & _)]].
      * rewrite (Huniq c Hin), Hs, lookup_insert_eq. eauto.
      * by destruct (Hno c).
      * by destruct (Hno c).
    + rewrite app_comm_cons, app_assoc in Heq. apply app_inj_tail in Heq as [-> ->]. apply Forall_app in Hf as [Hf Hw]. apply Forall_cons in Hw as [Hw _].
      assert (vi_now u <= vi_now w) as Huw.
      { rewrite fmap_app, fmap_cons in Hlast. apply (Hlast (vi_now u) (vi_now w)); [|by left]. apply elem_of_app. right. by left. }
      destruct (IH c now Hnow Hsort) as (exp & Hc & He); [by exists h1, u, h2|].
      destruct Hcases as [(c' & _ & _ & _ & Hs)|[(c' & Ho & Huniq & _ & Hs)|(_ & Hk)]].
      * rewrite Hs. destruct (decide (c' = c)) as [->|Hne]; [rewrite lookup_insert_eq; eexists; split; [done|lia]|].
        rewrite lookup_insert_ne by done. exists exp. split; [|done]. apply map_lookup_filter_Some. split; [done|]. cbn. lia.
      * rewrite Hs. rewrite lookup_delete_ne; [eauto|]. intros ->. done.
      * destruct (Hk c) as [->|[_ (exp' & Hc' & Hlt)]]; [eauto|]. assert (exp' = exp) as -> by congruence. lia.
Qed.

Lemma in_session_iff pw hist h v : runs pw hist h → StronglySorted Z.le (vi_now <$> hist ++ [v]) →
  in_session (vi_now v) (vi_req v) h = true ↔ ∃ c, aq_Cookie (vi_req v) = Some c ∧ admitted pw hist c (vi_now v).
Proof.
  intros Hr Hsort. rewrite fmap_app in Hsort. apply StronglySorted_app in Hsort as (Hlast & Hsort & _). unfold in_session. split.
  - destruct (aq_Cookie (vi_req v)) as [c|]; [|done]. destruct (ad_sessions h !! c) as [exp|] eqn:Hc; [|done]. intros Hn. exists c. split; [done|].
    destruct (sessions_issued pw hist h Hr c exp Hc) as (h1 & u & h2 & -> & Hin & -> & Hf). exists h1, u, h2. split_and!; [done|done|lia|done].
  - intros (c & -> & Had). destruct (issued_sessions pw hist h Hr c (vi_now v)) as (exp & -> & He); [|done..|lia].
    apply Forall_forall. intros u Hu. apply (Hlast (vi_now u) (vi_now v)); [by apply list_elem_of_fmap_2|by left].
Qed.

(** Without a clock: a session comes from a login. *)
Lemma in_session_admitted pw hist h v : runs pw hist h → in_session (vi_now v) (vi_req v) h = true →
  ∃ c, aq_Cookie (vi_req v) = Some c ∧ admitted pw hist c (vi_now v).
Proof.
  unfold in_session. intros Hr. destruct (aq_Cookie (vi_req v)) as [c|]; [|done]. destruct (ad_sessions h !! c) as [exp|] eqn:Hc; [|done].
  intros Hn. exists c. split; [done|]. destruct (sessions_issued pw hist h Hr c exp Hc) as (h1 & u & h2 & -> & Hin & -> & Hf). exists h1, u, h2. split_and!; [done|done|lia|done].
Qed.
End sessions.
