(* ===== verification/AdminSpec.v ===== *)
(** * The pages of the operator: their guarantees *)

From Stdlib Require Import Init.Byte.
From S2P Require Import Prelude Machine Key Chunkers FsEncode Instances FsTree FsRead FsWalk PackRecord PackStream Footer Packstore PackstoreRep PackstoreFacts Compact Parallel Inbox InboxProtocol Text Sshsign Reference Refstore Gc Auth Server Routes Sync Remote Path Posix Ingest IngestFacts PosixFacts IngestSpec Tar TarFacts PathFacts TarSpec AllowStore Daemon DaemonFacts Client ClientFacts Admin.
From Stdlib Require Import ZifyBool ZifyNat.
Local Open Scope Z_scope.

Section access.
Context `{Cbor} `{RefCbor} `{Pebble} `{SshLine} `{RecordJson} `{UnixDev} `{NetUrl} `{AdminLib}.

(** Answers that show something of the store or of the keys. *)
Definition discloses (a : aanswer) : Prop :=
  match a with AKeys _ | ARefs _ | ADir _ _ _ | AStat _ | AFile _ _ _ _ _ | AArchive _ _ _ => True | _ => False end.

(** Only a login gives a token. *)
Definition no_token (a : aanswer) : Prop := match a with ASession _ => False | _ => True end.

Lemma a_failed_plain {A} status (r : result A) : no_token (a_failed status r).
Proof. by destruct r. Qed.

Lemma with_target_keeps get fuel k r h : ad_keys (with_target get fuel k r h).2 = ad_keys h.
Proof. unfold with_target, resolveTarget. case_bool_decide; [done|]. by destruct (Refstore.Get _ _). Qed.

Lemma with_target_plain get fuel k r h : (∀ t, no_token (k t)) → no_token (with_target get fuel k r h).1.
Proof.
  intros Hk. unfold with_target, resolveTarget. case_bool_decide; [done|]. destruct (Refstore.Get _ _) as [rec db]. cbn [fst].
  assert (∀ t : aanswer + browseTarget, match t with inl a => no_token a | inr _ => True end → no_token (match t with inl a => a | inr t => k t end)) as Ht.
  { intros [a|t]; [done|]. intros _. apply Hk. }
  apply Ht. destruct rec as [rec|e| |]; [|by case_bool_decide|done..]. unfold resolve_record.
  destruct (wrap _ (Decode rec)) as [ref|e| |]; [|done..]. destruct (wrap _ (Key.Parse _)) as [root|e| |]; [|done..].
  destruct (existsb comp_dotdot _); [done|]. destruct (negb (dir_type root)); [destruct (negb (file_type root)); [done|]; by match goal with |- context [hasComponents ?p] => destruct (hasComponents p) end|].
  destruct (ResolveEntry _ _ _ _) as [[ent|]|e| |]; [|done..]. destruct (0 <? _)%nat; [|done]. by destruct (wrap _ _).
Qed.

Lemma treeDir_plain get fuel q k : no_token (treeDir get fuel q k).
Proof. unfold treeDir. repeat (case_match; try done; try apply a_failed_plain). Qed.

Lemma handler_plain v h edits m p next : (edits, m, p, next) ∈ protected (vi_get v) (vi_fuel v) (vi_env v) →
  no_token (next (vi_req v) h).1 ∧ (edits = false → ad_keys (next (vi_req v) h).2 = ad_keys h).
Proof.
  unfold protected. rewrite !elem_of_cons, elem_of_nil. intros Hin. repeat destruct Hin as [[= -> -> -> ->]|Hin]; try done.
  - unfold addKey. split; [|done]. destruct (b ← a_body (vi_req v); d_addKey b) as [[line admin]|e| |]; [|done..].
    destruct (as_Add _ _ _) as [[[]|e| |] ks]; done.
  - unfold removeKey. split; [|done]. case_bool_decide; [done|]. destruct (as_Remove _ _ _) as [[[]|e| |] ks]; done.
  - unfold a_listRefs. destruct (Refstore.All _) as [[l|e| |] db]; split; try done. cbn [fst]. by case_match.
  - split; [|intros _; apply with_target_keeps]. apply with_target_plain. intros t. repeat (case_match; try done; try apply treeDir_plain).
  - split; [|intros _; apply with_target_keeps]. apply with_target_plain. intros t. unfold raw_filename.
    repeat (case_match; simplify_eq; try done; try apply a_failed_plain).
  - unfold archive. case_match; [done|]. split; [|intros _; apply with_target_keeps]. apply with_target_plain. intros t.
    repeat (case_match; try done; try apply a_failed_plain).
Qed.

(** The methods and path of the routes that edit keys. *)
Lemma edit_route get fuel env m p next : (true, m, p, next) ∈ protected get fuel env → p = "/admin/api/keys"%string ∧ (m = "POST" ∨ m = "DELETE")%string.
Proof. unfold protected. rewrite !elem_of_cons, elem_of_nil. intros Hin. repeat destruct Hin as [[= -> -> ->]|Hin]; try done; auto. Qed.

Lemma admin_effect v h : let '(a, h') := vi_serve v h in
  (discloses a ∨ ad_keys h' ≠ ad_keys h ∨ ad_refs h' ≠ ad_refs h → in_session (vi_now v) (vi_req v) h = true) ∧
  (ad_keys h' ≠ ad_keys h → crossOrigin (vi_req v) = false ∧ aq_Path (vi_req v) = str "/admin/api/keys" ∧
     (aq_Method (vi_req v) = str "POST" ∨ aq_Method (vi_req v) = str "DELETE")) ∧
  (∀ c, a = ASession c → logs_in (ad_password h) v c).
Proof.
  destruct (visit_cases v h) as [Hl|Hl|edits m p next Hin Hp Hm Hg|a Hl Hlo Ha].
  - unfold sameOrigin. destruct (crossOrigin (vi_req v)) eqn:Hc; [by split_and!; [naive_solver| |]|]. unfold login.
    destruct (b ← a_body (vi_req v); d_login b) as [password|e| |] eqn:Hb; [|by split_and!; [naive_solver| |]..].
    case_bool_decide as Hpw; cbn [negb]; [|by split_and!; [naive_solver| |]].
    destruct (ae_rand (vi_env v)) as [tok|e| |] eqn:Hr; [|by split_and!; [naive_solver| |]..].
    split_and!; [naive_solver|done|]. intros c [= <-]. split_and!; [done|done|by exists password|by exists tok].
  - unfold sameOrigin. destruct (crossOrigin (vi_req v)) eqn:Hc; [by split_and!; [naive_solver| |]|]. unfold logout.
    destruct (aq_Cookie (vi_req v)); split_and!; try done; naive_solver.
  - destruct (handler_plain v h edits m p next Hin) as [Hplain Hkeys].
    assert (∀ a h', authed (vi_now v) next (vi_req v) h = (a, h') →
      (discloses a ∨ ad_keys h' ≠ ad_keys h ∨ ad_refs h' ≠ ad_refs h → in_session (vi_now v) (vi_req v) h = true) ∧
      (edits = false → ad_keys h' = ad_keys h) ∧ no_token a) as Hauth.
    { intros a h' Ha. destruct (in_session (vi_now v) (vi_req v) h) eqn:Hs.
      - rewrite authed_in in Ha by done. rewrite Ha in Hplain, Hkeys. by split_and!.
      - rewrite authed_out in Ha by done. injection Ha as <- <-. split_and!; [naive_solver|done|done]. }
    assert (∀ a, no_token a → ∀ c, a = ASession c → logs_in (ad_password h) v c) as Hno by (intros a Ha c ->; done).
    destruct edits; [unfold sameOrigin; destruct (crossOrigin (vi_req v)) eqn:Hc; [by split_and!; [naive_solver| |]|]|];
      destruct (authed (vi_now v) next (vi_req v) h) as [a h'] eqn:Ha; destruct (Hauth a h' eq_refl) as (H1' & H2' & H3');
      (split_and!; [exact H1'| |by apply Hno]).
    + intros _. destruct (edit_route _ _ _ _ _ _ Hin) as [-> Hm']. split_and!; [done|done|]. rewrite (Hm eq_refl). destruct Hm' as [->| ->]; auto.
    + intros Hne. by destruct Hne, (H2' eq_refl).
  - split_and!; [naive_solver|done|naive_solver].
Qed.

(** C16. Who sees and edits what on the pages of the operator.  After any requests, and
    whatever changes the keys and references meanwhile: an answer shows something of the
    store or of the keys, and a request changes a key or reads a reference, only when
    its cookie is a token that a login with a password of the configured hash was given
    at most twelve hours before and that no logout gave up since; keys change only by
    POST and DELETE of their own path, never from another origin (a request without an
    origin, or with the origin "null", passes as it does in the code); only such a login
    gives a token; and with a clock that does not go back every such token is admitted
    until it runs out. *)
Theorem admin_access pw hist h v a h' :
  runs pw hist h → vi_serve v h = (a, h') →
  let inside := ∃ c, aq_Cookie (vi_req v) = Some c ∧ admitted pw hist c (vi_now v) in
  (discloses a ∨ ad_keys h' ≠ ad_keys h ∨ ad_refs h' ≠ ad_refs h → inside) ∧
  (ad_keys h' ≠ ad_keys h → crossOrigin (vi_req v) = false ∧ aq_Path (vi_req v) = str "/admin/api/keys" ∧
     (aq_Method (vi_req v) = str "POST" ∨ aq_Method (vi_req v) = str "DELETE")) ∧
  (∀ c, a = ASession c → logs_in pw v c) ∧
  (StronglySorted Z.le (vi_now <$> hist ++ [v]) → aq_Method (vi_req v) = str "GET" → aq_Path (vi_req v) = str "/admin/api/session" →
     (a = ANoContent ↔ inside)).
Proof.
  intros Hr Ha inside. subst inside. pose proof (admin_effect v h) as He. rewrite Ha in He. destruct He as (Hin & Hed & Htok).
  rewrite (runs_password pw hist h Hr) in Htok. split_and!; [|done|done|].
  - intros Hd. by apply (in_session_admitted pw hist h v Hr), Hin.
  - intros Hsort Hm Hp. rewrite <- (in_session_iff pw hist h v Hr Hsort). unfold vi_serve, admin_serve in Ha. rewrite Hm, Hp in Ha.
    change (authed (vi_now v) (λ _ h, (ANoContent, h)) (vi_req v) h = (a, h')) in Ha. destruct (in_session (vi_now v) (vi_req v) h) eqn:Hs.
    + rewrite authed_in in Ha by done. by injection Ha as <- _.
    + rewrite authed_out in Ha by done. by injection Ha as <- _.
Qed.
End access.

(** ** An application *)
Section examples.
#[local] Existing Instance zstd_example.
#[local] Existing Instance blake3_example.
#[local] Existing Instance cbor_example.
#[local] Existing Instance refcbor_example.
#[local] Existing Instance pebble_example.
#[local] Existing Instance keys_example.
#[local] Existing Instance line_example.
#[local] Existing Instance AllowStore.json_example.
#[local] Existing Instance dev_example.

#[local] Instance host_url : NetUrl := {| url_Parse u := Ok (mkURL "https" u u) |}.
#[local] Instance admin_example : AdminLib := {|
  sha256 b := b; d_login b := Ok b; d_addKey b := Ok (b, false); TypeByExtension _ := []; DetectContentType _ := str "text/plain" |}.

Definition hour : Z := 3600 * 1000000000.
Definition visit_at (t : Z) (method path : string) (cookie : option bytes) (origin body : bytes) : visit :=
  mkVisit (λ _, Err (errors_New ErrObjectNotFound)) 1 (mkAenv t (Ok [xab]) [] (λ _, false) None)
    (mkAreq (str method) (str path) [] origin (str "host") cookie body None).
Definition token_example : bytes := hex_EncodeToString [xab].
Definition handler_example : ahandler := mkAhandler (str "secret") store_example (∅, []) ∅.

(** A login, a key added an hour later, and one from another site. *)
Definition login_visit : visit := visit_at 0 "POST" "/admin/api/login" None [] (str "secret").
Definition add_visit : visit := visit_at hour "POST" "/admin/api/keys" (Some token_example) (str "host") [x07].
Definition other_visit : visit := visit_at hour "POST" "/admin/api/keys" (Some token_example) (str "elsewhere") [x07].
Definition inside_example : ahandler := (vi_serve login_visit handler_example).2.

Lemma inside_runs : runs (str "secret") [login_visit] inside_example.
Proof. apply (runs_visit _ []). by apply runs_new. Qed.

Lemma admin_access_witness :
  admitted (str "secret") [login_visit] token_example hour ∧ ad_keys (vi_serve add_visit inside_example).2 ≠ ad_keys inside_example.
Proof.
  assert (ad_keys (vi_serve add_visit inside_example).2 ≠ ad_keys inside_example) as Hne.
  { intros Heq. apply (f_equal (λ s, as_recs s !! [x07])) in Heq. vm_compute in Heq. discriminate Heq. }
  split; [|exact Hne].
  destruct (admin_access (str "secret") [login_visit] inside_example add_visit _ _ inside_runs (surjective_pairing _)) as (Hin & _).
  destruct (Hin (or_intror (or_introl Hne))) as (c & Hc & Had). injection Hc as <-. exact Had.
Defined.

Example add_elsewhere : (vi_serve other_visit inside_example).1 = AFail StatusForbidden (errors_New "cross-origin request rejected").
Proof. vm_compute. reflexivity. Qed.
Example session_ends :
  (vi_serve (visit_at (12 * hour) "GET" "/admin/api/session" (Some token_example) [] []) inside_example).1 = ANoContent ∧
  (vi_serve (visit_at (12 * hour + 1) "GET" "/admin/api/session" (Some token_example) [] []) inside_example).1 =
    AFail StatusUnauthorized (errors_New "not logged in").
Proof. split; vm_compute; reflexivity. Qed.
End examples.
