(* ===== verification/AdminTree.v ===== *)
(** * The pages of the operator over a stored tree *)

From Stdlib Require Import Init.Byte.
From S2P Require Import Prelude Machine Key Chunkers FsEncode Instances FsTree FsRead FsWalk PackRecord PackStream Footer Packstore PackstoreRep PackstoreFacts Compact Parallel Inbox InboxProtocol Text Sshsign Reference Refstore Gc Auth Server Routes Sync Remote Path Posix Ingest IngestFacts PosixFacts IngestSpec Tar TarFacts PathFacts TarSpec AllowStore Daemon DaemonFacts Client ClientFacts ClientSpec Mount MountTree Admin AdminSpec.
From Stdlib Require Import ZifyBool ZifyNat.
Local Open Scope Z_scope.

Section browse.
Context `{Cbor} `{UnixDev}.
Context (get : Key → result bytes) (log : list Object) (Hget : serves get log).

(** ** The entry of a path *)

(** The directory that the loop of [ResolveEntry] looks in next. *)
Definition next_dir (st : Key * option FsEncode.Entry) : result Key :=
  match st.2 with
  | Some c => if negb (Z.land (Mode c) S_IFMT =? S_IFDIR) then Err (Errorf "fstree: %q" (errors_New FsRead.ErrNotDir))
              else wrap "fstree: %q: content key" (Key.Parse (ContentKey c))
  | None => Ok st.1
  end.

Lemma stored_next_dir name m ch e dir : stored log e name (NDir m ch) → node_wf (NDir m ch) →
  ∃ k, next_dir (dir, Some e) = Ok k ∧ stored_children log k ch ∧ ContentKey e = kb k ∧ Validate k = Ok tt.
Proof.
  intros Hst Hwf. inversion Hst as [|? ? ? ? k h es Hent Hxs Hck Hv Ht Hes| | | |]; subst. exists k. split_and!; [|by exists h, es|done|done].
  unfold next_dir. cbn [snd]. destruct Hent as (_ & Hm & _). rewrite Hm, node_mode_type by (by apply (node_wf_meta _ Hwf)). cbn.
  rewrite Hck. by rewrite (proj2 (Parse_Ok (kb k) k)).
Qed.

Lemma resolve_entry_stored p : ∀ st k m ch n, next_dir st = Ok k → stored_children log k ch → node_wf (NDir m ch) → Forall plain_name p → p ≠ [] →
  node_at (NDir m ch) p = Some n →
  ∃ e name F, stored log e name n ∧ node_wf n ∧ last p = Some name ∧
    ∀ fuel, (F ≤ fuel)%nat → ∃ dir, foldR (resolve_entry_comp get fuel) p st = Ok (dir, Some e).
Proof.
  induction p as [|c p IH]; [done|]. intros [dir cur] k m ch n Hdir Hst Hwf Hp _ Hat. apply Forall_cons in Hp as [Hc Hp]. cbn [node_at] in Hat.
  destruct (list_find _ ch) as [[i [q n1]]|] eqn:Hfind; [|done]. cbn [snd] in Hat. destruct Hst as (h & es & Ht & Hes).
  destruct (find_entry log es ch c i q n1 Hes Hfind) as (e & He & Hste). pose proof Hfind as (Hi & Hq & _)%list_find_Some. cbn in Hq. subst q.
  assert (node_wf n1) as Hwf1 by (apply (wf_child m ch (c, n1) Hwf); by eapply list_elem_of_lookup_2). pose proof Hwf as (_ & Hs & _).
  assert (∀ fuel, (h ≤ fuel)%nat → resolve_entry_comp get fuel c (dir, cur) = Ok (k, Some e)) as Hstep.
  { intros fuel Hfuel. unfold resolve_entry_comp. destruct (plain_skip c Hc) as [-> ->]. unfold next_dir in Hdir. cbn [fst snd] in Hdir. rewrite Hdir. rsimpl.
    rewrite (LookupEntry_spec get log Hget fuel k es c); [|eapply dir_tree_mono; [exact Ht|lia|done]|].
    2:{ unfold names_sorted. by rewrite (stored_names log es ch Hes). }
    unfold lookup_spec. by rewrite He. }
  destruct p as [|c' p].
  - injection Hat as <-. exists e, c, h. split_and!; [done..|]. intros fuel Hfuel. exists k. cbn [foldR]. by rewrite Hstep.
  - destruct n1 as [|m1 ch1| | | |]; try done. destruct (stored_next_dir c m1 ch1 e k Hste Hwf1) as (k1 & Hk1 & Hst1 & _).
    destruct (IH (k, Some e) k1 m1 ch1 n Hk1 Hst1 Hwf1 Hp ltac:(done) Hat) as (e' & name & F & Hst' & Hwf' & Hl & HF).
    exists e', name, (h + F)%nat. split_and!; [done..|]. intros fuel Hfuel. destruct (HF fuel ltac:(lia)) as [dir' Hd]. exists dir'.
    cbn [foldR] in *. rewrite Hstep by lia. rsimpl. exact Hd.
Qed.

(** ** Content *)
Lemma writeFileContent_spec h k c : file_tree h log k c → ∀ fuel, (h ≤ fuel)%nat → ∀ w, writeFileContent get fuel k w = Ok (w ++ c).
Proof.
  revert k c. induction h as [|h IH]; intros k c Ht [|fuel] Hf w; try done; [lia|]. simpl in Ht. cbn [writeFileContent].
  destruct Ht as [(Hty & Hin)|(Hty & data & kids & Hin & Hdec & HF & ->)];
    rewrite (serves_elem _ _ _ _ Hget Hin); rsimpl; rewrite Hty; simpl Z.eqb; cbv iota; [done|].
  rewrite Hdec. rsimpl. clear Hdec Hin. revert w.
  induction HF as [|[ck cc] kids Ht _ IHF]; intros w; simpl in *; [by rewrite app_nil_r|].
  rewrite (IH _ _ Ht) by lia. rsimpl. rewrite IHF. by rewrite app_assoc.
Qed.

(** The bytes that a type is guessed from are the first of the content. *)
Lemma firstBytes_spec n h k c : file_tree h log k c → ∀ fuel, (h ≤ fuel)%nat → ∃ head, firstBytes get n fuel k = Ok head ∧ head `prefix_of` c.
Proof.
  revert k c. induction h as [|h IH]; intros k c Ht [|fuel] Hf; try done; [lia|]. simpl in Ht. cbn [firstBytes].
  destruct Ht as [(Hty & Hin)|(Hty & data & kids & Hin & Hdec & HF & ->)];
    rewrite (serves_elem _ _ _ _ Hget Hin); rsimpl; rewrite Hty; simpl Z.eqb; cbv iota.
  - eexists. split; [done|]. exists (drop n c). by rewrite take_drop.
  - rewrite Hdec. rsimpl. destruct HF as [|[ck cc] kids Ht _]; [exists []; split; [done|apply prefix_nil]|]. cbn [fmap list_fmap fst] in *.
    destruct (IH _ _ Ht fuel ltac:(lia)) as (head & Hh & Hpre). exists head. split; [done|]. cbn [concat snd]. by apply prefix_app_r.
Qed.

(** ** Entries *)
Definition kind_of (n : node) : string :=
  match n with NFile _ _ => "file" | NDir _ _ => "dir" | NLink _ _ => "symlink" | NDev _ chr _ => if chr then "char" else "block" | NFifo _ => "fifo" | NSock _ => "socket" end.

(** A JSON entry for a node: names and targets that are not UTF-8 are replaced, and such
    names marked. *)
Definition shows_json (te : treeEntry) (name : bytes) (n : node) : Prop :=
  te_Name te = (if utf8_ValidString name then name else ToValidUTF8 name replacement) ∧ te_NameInvalid te = negb (utf8_ValidString name) ∧
  te_Kind te = kind_of n ∧ te_Mode te = node_mode n ∧ te_Mtime te = n_mtime (node_meta n) ∧
  te_Target te = ToValidUTF8 (match n with NLink _ t => t | _ => [] end) replacement ∧
  match n with NFile _ c => te_Size te = zlen c | NDir _ _ => True | _ => te_Size te = 0 end.

Lemma entryKind_node n : meta_wf (node_meta n) → entryKind (node_mode n) = kind_of n.
Proof. intros Hm. unfold entryKind. rewrite node_mode_type by done. by destruct n as [| | |? [] ?| |]. Qed.

Lemma entryJSON_shows e name n : stored log e name n → node_wf n → shows_json (entryJSON e) name n.
Proof.
  intros Hst Hwf. pose proof (entryKind_node n (node_wf_meta n Hwf)) as Hk. unfold shows_json, entryJSON.
  assert (∀ k, Validate k = Ok tt → Key.Parse (kb k) = Ok k) as Hparse by (intros k Hk'; by apply Parse_Ok).
  destruct Hst as [e name m c k h Hent Hx Hck Hv Hl Ht|e name m ch k h es Hent Hx Hck Hv Ht Hes|e name m t Hent Hx Hl|
    e name m chr r Hent Hx Hr|e name m Hent Hx|e name m Hent Hx]; destruct Hent as (-> & -> & _ & _ & -> & Hrest); cbn [te_Name te_NameInvalid te_Kind te_Mode te_Mtime te_Target te_Size];
    rewrite Hk.
  - destruct Hrest as [-> _]. rewrite Hck, length_kb, (Hparse k Hv). split_and!; try done. by destruct (utf8_ValidString name).
  - destruct Hrest as [-> _]. split_and!; try done. by destruct (utf8_ValidString name).
  - destruct Hrest as [-> _]. rewrite Hl. split_and!; try done. by destruct (utf8_ValidString name).
  - destruct Hrest as [-> ->]. split_and!; try done. by destruct (utf8_ValidString name).
  - destruct Hrest as (-> & -> & _). split_and!; try done. by destruct (utf8_ValidString name).
  - destruct Hrest as (-> & -> & _). split_and!; try done. by destruct (utf8_ValidString name).
Qed.

(** What a target is, for a node. *)
Definition target_of (t : browseTarget) (n : node) : Prop :=
  match n with
  | NFile _ c => Validate (bt_key t) = Ok tt ∧ Length (bt_key t) = zlen c ∧ ∃ h, file_tree h log (bt_key t) c
  | NDir _ ch => Validate (bt_key t) = Ok tt ∧ stored_children log (bt_key t) ch
  | _ => True
  end ∧
  match bt_entry t with
  | Some e => ∃ name, stored log e name n
  | None => match n with NDir _ _ => True | _ => False end
  end.
End browse.

(** ** Pages *)
Section pages.
Context `{Cbor} `{UnixDev}.
Context (get : Key → result bytes) (log : list Object) (Hget : serves get log).

(** The children after a name. *)
Definition rest (after : bytes) (ch : list (bytes * node)) : list (bytes * node) := filter (λ q, bytes_lt after q.1) ch.

Lemma later_rest after es ch : Forall2 (λ e p, stored log e p.1 p.2) es ch → Forall2 (λ e p, stored log e p.1 p.2) (later after es) (rest after ch).
Proof.
  unfold later, rest. induction 1 as [|e [nm nd] es ch Hst _ IH]; [constructor|]. destruct (stored_is _ _ _ _ Hst) as [(Hn & _) _]. cbn [fst snd] in *.
  destruct (decide (bytes_lt after nm)) as [Hlt|Hlt].
  - rewrite !filter_cons_True by (cbn; congruence). by constructor.
  - rewrite !filter_cons_False by (cbn; congruence). done.
Qed.

Lemma treeDir_stored k m ch : stored_children log k ch → node_wf (NDir m ch) →
  ∃ F, ∀ fuel q limit, (F ≤ fuel)%nat → tree_limit (query_Get "limit" q) = Some limit → ∃ tes,
    let page := take (Z.to_nat limit) (rest (query_Get "after" q) ch) in
    let more := bool_decide (limit < zlen (rest (query_Get "after" q) ch)) in
    treeDir get fuel q k = ADir tes more (if more then Some (QueryEscape (default [] (fst <$> last page))) else None) ∧
    Forall2 (λ te p, shows_json te p.1 p.2) tes page.
Proof.
  intros (h & es & Ht & Hes) Hwf. exists h. intros fuel q limit Hfuel Hlim. set (after := query_Get "after" q).
  assert (0 < limit) as Hpos.
  { revert Hlim. unfold tree_limit. case_bool_decide; [by intros [= <-]|]. destruct (ParseInt _) as [n|e| |]; [|done..]. destruct (n <? 1) eqn:E; [done|]. intros [= <-]. unfold maxTreeLimit. lia. }
  pose proof (later_rest after es ch Hes) as Hrest. pose proof (Forall2_length _ _ _ Hrest) as Hlen.
  set (entries := take (Z.to_nat limit) (later after es)).
  assert (Forall2 (λ e p, stored log e p.1 p.2) entries (take (Z.to_nat limit) (rest after ch))) as Hpage by (by apply Forall2_take).
  exists (entryJSON <$> entries). cbn zeta. unfold treeDir. rewrite Hlim. fold after.
  assert (ListEntries get fuel k after limit = Ok (entries, bool_decide (limit < zlen (later after es)))) as ->.
  { unfold ListEntries. replace (limit <=? 0) with false by lia. pose proof Hwf as (_ & Hs & _).
    erewrite listInto_spec; [|exact Hget|eapply dir_tree_mono; [exact Ht|lia|done]| |simpl; lia].
    2:{ unfold names_sorted. by rewrite (stored_names log es ch Hes). }
    unfold page. simpl length. rewrite Nat.sub_0_r, app_nil_l. do 2 f_equal. apply bool_decide_ext. lia. }
  assert (bool_decide (limit < zlen (later after es)) = bool_decide (limit < zlen (rest after ch))) as -> by (apply bool_decide_ext; lia).
  split.
  - case_bool_decide as Hmore; [|done]. destruct (last entries) as [e|] eqn:Hl.
    + f_equal. f_equal. f_equal. apply last_Some in Hl as [l Hl]. rewrite Hl in Hpage. apply Forall2_app_inv_l in Hpage as (l1 & l2 & _ & Hl2 & ->).
      inversion Hl2 as [|? [nm nd] ? l3 Hst Hnil]; subst. inversion Hnil; subst. rewrite last_snoc. cbn. by destruct (stored_is _ _ _ _ Hst) as [(-> & _) _].
    + apply last_None in Hl. subst entries. destruct (later after es) as [|e l]; [cbn in Hlen; lia|]. destruct (Z.to_nat limit) eqn:E; [lia|done].
  - assert (∀ p, p ∈ ch → node_wf p.2) as Hall by (intros p Hp; by eapply wf_child).
    assert (∀ p, p ∈ take (Z.to_nat limit) (rest after ch) → node_wf p.2) as Hall'.
    { intros p Hp. apply Hall. apply elem_of_take in Hp as (i & Hi & _). apply list_elem_of_lookup_2 in Hi. by apply list_elem_of_filter in Hi as [_ Hi]. }
    clear -Hpage Hall'. induction Hpage as [|e p entries page Hst _ IH]; [constructor|]. rewrite fmap_cons. constructor; [|apply IH; intros; apply Hall'; by right].
    apply (entryJSON_shows log); [done|]. apply Hall'. by left.
Qed.
End pages.

(** ** Requests *)
Section requests.
Context `{Cbor} `{UnixDev} `{RefCbor} `{Pebble} `{SshLine} `{RecordJson} `{NetUrl} `{AdminLib}.
Context (get : Key → result bytes) (log : list Object) (Hget : serves get log).

(** The parameters of a request, in its query. *)
Definition asks (r : areq) (ps : list (string * bytes)) : Prop :=
  Forall (λ q, Forall (λ c, unreserved c = true) (str q.1)) ps ∧ aq_Query r = join_and ((λ q : string * bytes, pair_text q.1 q.2) <$> ps).
Definition param (name : string) (ps : list (string * bytes)) : bytes := query_Get name ((λ q : string * bytes, (str q.1, q.2)) <$> ps).

Lemma asks_param r ps name : asks r ps → query_Get name (url_Query (aq_Query r)) = param name ps.
Proof. intros [Hps ->]. by rewrite url_Query_text. Qed.

(** A reference to the root of a tree. *)
Record points (db : DB) (name : bytes) (root : Key) : Prop := mkPoints {
  pt_name : name ≠ [];
  pt_rec : ∃ rec ref, (Refstore.Get name db).1 = Ok rec ∧ Decode rec = Ok ref ∧ Key.Parse (ref_Key ref) = Ok root;
}.

Lemma split_names p : Forall plain_name p → p ≠ [] → split_slash (join_slash p) = p.
Proof. intros Hp Hne. destruct p as [|c p]; [done|]. exact (split_path_text false (c :: p) Hp Hne). Qed.

Lemma plain_no_dotdot p : Forall plain_name p → existsb comp_dotdot (split_slash (join_slash p)) = false.
Proof.
  intros Hp. destruct p as [|c p]; [done|]. rewrite split_names by done. apply not_true_iff_false. intros (x & Hx & Hd)%existsb_exists.
  rewrite Forall_forall in Hp. destruct (plain_skip x (Hp x ltac:(by apply list_elem_of_In))) as [_ Hd']. congruence.
Qed.

Lemma with_target_stored root m ch p n : stored_children log root ch → Validate root = Ok tt → node_wf (NDir m ch) → Forall plain_name p → node_at (NDir m ch) p = Some n →
  ∃ t F, target_of log t n ∧ node_wf n ∧ (∀ name, last p = Some name → ∃ e, bt_entry t = Some e ∧ stored log e name n) ∧
    ∀ fuel k r h ps name, (F ≤ fuel)%nat → asks r ps → param "ref" ps = name → param "path" ps = join_slash p → points (ad_refs h) name root →
      (with_target get fuel k r h).1 = k t.
Proof.
  intros Hst Hv Hwf Hp Hat.
  assert (∃ t F, target_of log t n ∧ node_wf n ∧ (∀ name, last p = Some name → ∃ e, bt_entry t = Some e ∧ stored log e name n) ∧
    ∀ fuel, (F ≤ fuel)%nat → ∃ cur, ResolveEntry get fuel root (join_slash p) = Ok cur ∧ bt_entry t = cur ∧
      match cur with Some e => (if (0 <? length (ContentKey e))%nat then wrap "entry content key" (Key.Parse (ContentKey e)) else Ok zero_key) = Ok (bt_key t) | None => bt_key t = root end)
    as (t & F & Ht & Hwfn & Hlast & Hres).
  { destruct p as [|c p].
    - injection Hat as <-. exists (mkTarget root None), 0%nat. split_and!; [by split|done|done|]. intros fuel _. exists None. by split_and!.
    - destruct (resolve_entry_stored get log Hget (c :: p) (root, None) root m ch n eq_refl Hst Hwf Hp ltac:(done) Hat) as (e & name & F & Hste & Hwfn & Hl & HF).
      assert (∃ k, (if (0 <? length (ContentKey e))%nat then wrap "entry content key" (Key.Parse (ContentKey e)) else Ok zero_key) = Ok k ∧
        match n with
        | NFile _ c => Validate k = Ok tt ∧ Length k = zlen c ∧ ∃ h, file_tree h log k c
        | NDir _ ch => Validate k = Ok tt ∧ stored_children log k ch
        | _ => True end) as (k0 & Hk0 & Hn).
      { destruct Hste as [e name' m' c' k' h Hent Hx Hck Hv' Hl' Ht|e name' m' ch' k' h es Hent Hx Hck Hv' Ht Hes|e name' m' t Hent Hx Hl'|
          e name' m' chr r Hent Hx Hr|e name' m' Hent Hx|e name' m' Hent Hx].
        - exists k'. rewrite Hck, length_kb, (proj2 (Parse_Ok (kb k') k')) by done. split; [done|]. split_and!; [done..|by exists h].
        - exists k'. rewrite Hck, length_kb, (proj2 (Parse_Ok (kb k') k')) by done. split; [done|]. split; [done|by exists h, es].
        - destruct Hent as (_ & _ & _ & _ & _ & -> & _). by exists zero_key.
        - destruct Hent as (_ & _ & _ & _ & _ & -> & _). by exists zero_key.
        - destruct Hent as (_ & _ & _ & _ & _ & -> & _). by exists zero_key.
        - destruct Hent as (_ & _ & _ & _ & _ & -> & _). by exists zero_key. }
      exists (mkTarget k0 (Some e)), F. split_and!; [split; [done|by exists name]|done|intros name' Hl'; exists e; split; [done|congruence]|].
      intros fuel Hfuel. exists (Some e). split_and!; [|done|done]. unfold ResolveEntry. rewrite split_names by done.
      destruct (HF fuel Hfuel) as [dir ->]. done. }
  exists t, F. split_and!; [done..|]. intros fuel k r h ps name Hfuel Has Hname Hpath [Hne (rec & ref & Hrec & Hdec & Hroot)].
  unfold with_target, resolveTarget. rewrite !(asks_param r ps) by done. rewrite Hname, Hpath, bool_decide_eq_false_2 by done.
  destruct (Refstore.Get name (ad_refs h)) as [rec' db]. cbn [fst] in *. subst rec'. unfold resolve_record. rewrite Hdec. cbn [wrap]. rewrite Hroot. cbn [wrap].
  rewrite plain_no_dotdot by done. destruct (stored_root log root ch Hst) as [Hty _]. unfold dir_key in Hty.
  assert (dir_type root = true) as -> by (unfold dir_type; exact Hty). cbn [negb].
  destruct (Hres fuel Hfuel) as (cur & -> & Hcur & Hk). destruct t as [kt et]. cbn [bt_key bt_entry] in *. subst et. destruct cur as [e|]; [|by subst kt].
  destruct (0 <? _)%nat; [by rewrite Hk|]. by injection Hk as ->.
Qed.

(** ** Following the pages *)

(** The parameters that name a path, with the size of a page as text. *)
Definition path_params (name : bytes) (p : list bytes) (l : bytes) : list (string * bytes) :=
  [("ref", name); ("path", join_slash p); ("limit", l)]%string.
(** The query of the page that [next] leads to. *)
Definition page_query (ps : list (string * bytes)) (next : option bytes) : bytes :=
  join_and ((λ q : string * bytes, pair_text q.1 q.2) <$> ps) ++ match next with Some nx => str "&after=" ++ nx | None => [] end.

(** A request to [path] whose cookie is that of a session. *)
Definition opens (path : string) (env : aenv) (r : areq) (h : ahandler) : Prop :=
  aq_Method r = str "GET" ∧ aq_Path r = str path ∧ in_session (ae_now env) r h = true.

Lemma serve_opened path next fuel env r h :
  (path, next) ∈ [("/admin/api/tree", tree get fuel); ("/admin/api/raw", raw get fuel); ("/admin/api/archive", archive get fuel)]%string →
  opens path env r h → admin_serve get fuel env r h = next r h.
Proof.
  intros Hin (Hm & Hp & Hs). unfold admin_serve. rewrite Hm, Hp.
  rewrite !elem_of_cons, elem_of_nil in Hin. destruct Hin as [[= -> ->]|[[= -> ->]|[[= -> ->]|[]]]].
  - change (authed (ae_now env) (tree get fuel) r h = tree get fuel r h). by apply authed_in.
  - change (authed (ae_now env) (raw get fuel) r h = raw get fuel r h). by apply authed_in.
  - change (authed (ae_now env) (archive get fuel) r h = archive get fuel r h). by apply authed_in.
Qed.

Lemma serve_tree fuel env r h : opens "/admin/api/tree" env r h → admin_serve get fuel env r h = tree get fuel r h.
Proof. apply serve_opened. left. Qed.
Lemma serve_raw fuel env r h : opens "/admin/api/raw" env r h → admin_serve get fuel env r h = raw get fuel r h.
Proof. apply serve_opened. right. left. Qed.
Lemma serve_archive fuel env r h : opens "/admin/api/archive" env r h → admin_serve get fuel env r h = archive get fuel r h.
Proof. apply serve_opened. right. right. left. Qed.

(** The pages of a directory, each requested with the [next] of the one before, in the
    circumstances and the state that the handler has then. *)
Fixpoint follow (fuel n i : nat) (req : bytes → areq) (envs : nat → aenv) (hs : nat → ahandler) (ps : list (string * bytes)) (next : option bytes) : option (list (list treeEntry)) :=
  match n with
  | O => None
  | S n =>
      match (admin_serve get fuel (envs i) (req (page_query ps next)) (hs i)).1 with
      | ADir tes true (Some nx) => pages ← follow fuel n (S i) req envs hs ps (Some nx); Some (tes :: pages)
      | ADir tes false None => Some [tes]
      | _ => None
      end
  end.

Lemma join_and_snoc ps p : ps ≠ [] → join_and (ps ++ [p]) = join_and ps ++ [x26] ++ p.
Proof.
  induction ps as [|q ps IH]; [done|]. intros _. destruct ps as [|q' ps]; [done|]. change (q ++ [x26] ++ join_and ((q' :: ps) ++ [p]) = (q ++ [x26] ++ join_and (q' :: ps)) ++ [x26] ++ p).
  rewrite IH by done. by rewrite <- !app_assoc.
Qed.

Definition page_params (name : bytes) (p : list bytes) (l : bytes) (after : option bytes) : list (string * bytes) :=
  path_params name p l ++ (match after with Some a => [("after"%string, a)] | None => [] end).

Lemma page_asks req name p l after : (∀ q, aq_Query (req q) = q) →
  asks (req (page_query (path_params name p l) (QueryEscape <$> after))) (page_params name p l after).
Proof.
  intros Hreq. split; [destruct after; by repeat constructor|]. rewrite Hreq. unfold page_query, page_params. destruct after as [a|]; cbn [fmap option_fmap option_map].
  - rewrite fmap_app. symmetry. apply (join_and_snoc _ (pair_text "after" a)). done.
  - by rewrite !app_nil_r.
Qed.

Lemma page_param name p l after : let ps := page_params name p l after in
  param "ref" ps = name ∧ param "path" ps = join_slash p ∧ param "limit" ps = l ∧ param "after" ps = default [] after.
Proof. by destruct after. Qed.

Lemma rest_sorted after ch : StronglySorted bytes_lt ch.*1 → StronglySorted bytes_lt (rest after ch).*1.
Proof.
  intros Hs. induction ch as [|[nm nd] ch IH]; [constructor|]. rewrite fmap_cons in Hs. apply StronglySorted_inv in Hs as [Hs Hall]. unfold rest.
  destruct (decide (bytes_lt after nm)) as [Hlt|Hlt]; [rewrite filter_cons_True by done|rewrite filter_cons_False by done; by apply IH].
  rewrite fmap_cons. constructor; [by apply IH|]. rewrite Forall_forall in Hall |- *. intros x Hx. apply Hall.
  apply list_elem_of_fmap in Hx as (q & -> & Hq). apply list_elem_of_filter in Hq as [_ Hq]. by apply list_elem_of_fmap_2.
Qed.

(** After the last name of a page comes what the page left. *)
Lemma rest_last after ch n nm nd : StronglySorted bytes_lt ch.*1 → last (take n (rest after ch)) = Some (nm, nd) →
  rest nm ch = drop n (rest after ch).
Proof.
  intros Hs Hl. assert (bytes_lt after nm) as Han.
  { apply last_Some in Hl as [l Hl]. assert ((nm, nd) ∈ take n (rest after ch)) as Hin by (rewrite Hl; set_solver).
    apply elem_of_take in Hin as (j & Hj & _). apply list_elem_of_lookup_2 in Hj. by apply list_elem_of_filter in Hj as [? _]. }
  assert (rest nm (rest after ch) = rest nm ch) as <-.
  { unfold rest. rewrite list_filter_filter. apply list_filter_iff. intros q. split; [tauto|]. intros Hq. split; [done|]. by eapply bytes_lt_trans. }
  pose proof (rest_sorted after ch Hs) as Hs'. revert Hs' Hl. generalize (rest after ch). clear. intros ch Hs Hl.
  rewrite <- (take_drop n ch) in Hs |- * at 1. apply last_Some in Hl as [l Hl]. rewrite Hl in Hs |- *.
  rewrite !fmap_app in Hs. apply StronglySorted_app in Hs as (Hlr & Hsl & Hsr). apply StronglySorted_app in Hsl as (Hll & _ & _).
  unfold rest. rewrite !filter_app.
  assert (filter (λ q : bytes * node, bytes_lt nm q.1) (drop n ch) = drop n ch) as ->.
  { apply filter_all. intros q Hq. apply Hlr; [apply elem_of_app; right; by left|by apply list_elem_of_fmap_2]. }
  assert (filter (λ q : bytes * node, bytes_lt nm q.1) [(nm, nd)] = []) as ->.
  { rewrite filter_cons_False; [done|]. cbn. apply bytes_lt_irrefl. }
  assert (filter (λ q : bytes * node, bytes_lt nm q.1) l = []) as ->; [|done].
  apply filter_none. intros q Hq Hlt. assert (bytes_lt q.1 nm) as Hlt' by (apply Hll; [by apply list_elem_of_fmap_2|by left]).
  apply (bytes_lt_irrefl nm). by eapply bytes_lt_trans.
Qed.

(** The rest of a directory, from a name on. *)
Lemma follow_rest root m ch p mp ch' name l limit : stored_children log root ch → Validate root = Ok tt → node_wf (NDir m ch) → Forall plain_name p →
  node_at (NDir m ch) p = Some (NDir mp ch') → tree_limit l = Some limit →
  ∃ F, ∀ fuel req envs hs, (F ≤ fuel)%nat → (∀ q, aq_Query (req q) = q) → (∀ i q, opens "/admin/api/tree" (envs i) (req q) (hs i)) →
    (∀ i, points (ad_refs (hs i)) name root) →
    ∀ n i after, (length (rest (default [] after) ch') < n)%nat →
      ∃ pages, follow fuel n i req envs hs (path_params name p l) (QueryEscape <$> after) = Some pages ∧
        Forall2 (λ te p, shows_json te p.1 p.2) (concat pages) (rest (default [] after) ch') ∧ Forall (λ tes, zlen tes <= limit) pages.
Proof.
  intros Hst Hv Hwf Hp Hat Hlim.
  destruct (with_target_stored root m ch p (NDir mp ch') Hst Hv Hwf Hp Hat) as (t & F1 & [[Hvk Hstk] Hent] & Hwfn & _ & Htree).
  destruct (treeDir_stored get log Hget (bt_key t) mp ch' Hstk Hwfn) as [F2 Hdir]. exists (F1 + F2)%nat. intros fuel req envs hs Hfuel Hreq Hopen Hpt.
  assert (0 < limit) as Hpos.
  { revert Hlim. unfold tree_limit. case_bool_decide; [by intros [= <-]|]. destruct (ParseInt _) as [n|e| |]; [|done..]. destruct (n <? 1) eqn:E; [done|]. intros [= <-]. unfold maxTreeLimit. lia. }
  assert (∀ r, match bt_entry t with
    | None => if dir_type (bt_key t) then treeDir get fuel (url_Query (aq_Query r)) (bt_key t) else AStat (mkTreeEntry [] "file" (Length (bt_key t)) 0 0 [] false)
    | Some e => if is_dir_entry e then treeDir get fuel (url_Query (aq_Query r)) (bt_key t) else AStat (entryJSON e)
    end = treeDir get fuel (url_Query (aq_Query r)) (bt_key t)) as Hsel.
  { intros r. destruct (bt_entry t) as [e|].
    - destruct Hent as [nm Hste]. destruct (stored_is _ _ _ _ Hste) as [(_ & Hm & _) _]. unfold is_dir_entry.
      rewrite Hm, node_mode_type by (by apply (node_wf_meta _ Hwfn)). done.
    - destruct (stored_root log (bt_key t) ch' Hstk) as [Hty _]. unfold dir_key in Hty. unfold dir_type. by rewrite Hty. }
  induction n as [|n IH]; intros i after Hn; [lia|].
  set (q := page_query (path_params name p l) (QueryEscape <$> after)).
  pose proof (page_asks req name p l after Hreq) as Hask. fold q in Hask. destruct (page_param name p l after) as (Hname & Hpath & Hl & Hafter).
  destruct (Hdir fuel (url_Query (aq_Query (req q))) limit ltac:(lia)) as (tes & Hd & Hshow).
  { by rewrite (asks_param _ _ _ Hask), Hl. }
  rewrite (asks_param _ _ _ Hask), Hafter in Hd, Hshow. set (r := rest (default [] after) ch') in *.
  assert ((admin_serve get fuel (envs i) (req q) (hs i)).1 = treeDir get fuel (url_Query (aq_Query (req q))) (bt_key t)) as Htr.
  { rewrite serve_tree by done. unfold tree. rewrite (Htree fuel _ (req q) (hs i) _ name ltac:(lia) Hask Hname Hpath (Hpt i)). apply Hsel. }
  rewrite Hd in Htr. cbn [follow]. fold q. rewrite Htr. assert (zlen tes <= limit) as Hlen.
  { apply Forall2_length in Hshow. rewrite length_take in Hshow. lia. }
  case_bool_decide as Hmore.
  - destruct (last (take (Z.to_nat limit) r)) as [[nm nd]|] eqn:Hlast.
    2:{ apply last_None in Hlast. destruct r; [cbn in Hmore; lia|]. destruct (Z.to_nat limit) eqn:E; [lia|done]. }
    cbn [fmap option_fmap option_map fst default from_option id]. pose proof (rest_last (default [] after) ch' (Z.to_nat limit) nm nd ltac:(by destruct Hwfn as (_ & ? & _)) Hlast) as Hnext.
    destruct (IH (S i) (Some nm)) as (pages & Hf & Hsh & Hall).
    { change (default [] (Some nm)) with nm. rewrite Hnext. fold r. rewrite length_drop. lia. }
    change (default [] (Some nm)) with nm in Hsh. change (QueryEscape <$> Some nm) with (Some (QueryEscape nm)) in Hf. rewrite Hf. eexists. split; [done|]. split; [|by constructor].
    cbn [concat]. rewrite Hnext in Hsh. fold r in Hsh. rewrite <- (take_drop (Z.to_nat limit) r). by apply Forall2_app.
  - rewrite take_ge in Hshow by lia. eexists. split; [done|]. split; [cbn [concat]; by rewrite app_nil_r|by repeat constructor].
Qed.

Lemma rest_all ch : Forall (λ q : bytes * node, q.1 ≠ []) ch → rest [] ch = ch.
Proof.
  intros Hne. apply filter_all. intros q Hq. rewrite Forall_forall in Hne. specialize (Hne q Hq). by destruct (q.1).
Qed.

Lemma file_root h k c : file_tree h log k c → file_type k = true ∧ ∃ data, get k = Ok data.
Proof.
  destruct h as [|h]; [done|]. unfold file_type. intros [(-> & Hin)|(-> & data & kids & Hin & _)]; split; try done; rewrite (serves_elem _ _ _ _ Hget Hin); eauto.
Qed.

(** A request for the path [p] below the reference [name]. *)
Definition at_path (name : bytes) (p : list bytes) (r : areq) (ps : list (string * bytes)) : Prop :=
  asks r ps ∧ param "ref" ps = name ∧ param "path" ps = join_slash p.

(** C25. The pages show what is stored.  For a reference to the root of a stored tree and
    any path of it, requests with the cookie of a session are answered so: the pages of a
    directory at [/admin/api/tree], each requested with the [next] of the one before, end,
    hold at most as many entries as asked for and together show exactly its children in
    order, whatever bytes are in their names (which are not empty); what is not a directory is shown there with
    its metadata; [/admin/api/raw] sends a file as its content with its length, and
    refuses anything else; and [/admin/api/archive] of a directory sends exactly the
    members of its tree, if an archive can carry each of its nodes ([exportable]: names
    and targets without zero bytes, attribute names without '=', device numbers of seven
    octal digits, at most 1 MiB of extended header), as it breaks off at one that it
    cannot.  Reads of the store and of the references do not fail; the fuel is the height of the trees. *)
Theorem admin_browse `{!UnixDevLaws} root m ch p n name :
  stored_children log root ch → Validate root = Ok tt → node_wf (NDir m ch) → Forall plain_name p → node_at (NDir m ch) p = Some n →
  match n with
  | NDir _ ch' =>
      (∀ l limit, tree_limit l = Some limit → Forall (λ q : bytes * node, q.1 ≠ []) ch' →
        ∃ F, ∀ fuel req envs hs, (F ≤ fuel)%nat → (∀ q, aq_Query (req q) = q) → (∀ i q, opens "/admin/api/tree" (envs i) (req q) (hs i)) →
          (∀ i, points (ad_refs (hs i)) name root) →
          ∃ pages, follow fuel (S (length ch')) 0 req envs hs (path_params name p l) None = Some pages ∧
            Forall2 (λ te q, shows_json te q.1 q.2) (concat pages) ch' ∧ Forall (λ tes, zlen tes <= limit) pages) ∧
      (Forall (λ q, exportable [] q.1 q.2 ∧ tar_name q.1) ch' →
        ∃ F, ∀ fuel env r h ps, (F ≤ fuel)%nat → opens "/admin/api/archive" env r h → at_path name p r ps → points (ad_refs h) name root →
        param "format" ps ∈ [[]; str "tar"; str "tgz"] →
        ∃ format file, (admin_serve get fuel env r h).1 = AArchive format file (tree_members [] ch'))
  | _ =>
      ∃ F, ∀ fuel env r h ps, (F ≤ fuel)%nat → at_path name p r ps → points (ad_refs h) name root →
        (opens "/admin/api/tree" env r h →
         ∃ te c, (admin_serve get fuel env r h).1 = AStat te ∧ last p = Some c ∧ shows_json te c n) ∧
        (opens "/admin/api/raw" env r h →
         match n with
         | NFile _ content => ∃ ctype file, (admin_serve get fuel env r h).1 =
             AFile ctype (zlen content) (if bool_decide (param "dl" ps = []) then "inline" else "attachment") file content
         | _ => ∃ e, (admin_serve get fuel env r h).1 = AFail StatusBadRequest e
         end)
  end.
Proof.
  intros Hst Hv Hwf Hp Hat.
  destruct (with_target_stored root m ch p n Hst Hv Hwf Hp Hat) as (t & F1 & [Hkey Hent] & Hwfn & Hlast & Htgt).
  assert (match n with NDir _ _ => True | _ => ∃ e c, bt_entry t = Some e ∧ last p = Some c ∧ stored log e c n end) as Hentry.
  { destruct n; try done; (destruct (last p) as [c|] eqn:Hl; [destruct (Hlast c eq_refl) as (e & ? & ?); by exists e, c|];
      apply last_None in Hl; subst p; injection Hat as ?; discriminate). }
  assert (∀ e c, stored log e c n → Z.land (Mode e) S_IFMT = node_type n) as Hmode.
  { intros e c Hste. destruct (stored_is _ _ _ _ Hste) as [(_ & -> & _) _]. by apply node_mode_type, node_wf_meta. }
  assert (∀ e c, stored log e c n → shows_json (entryJSON e) c n) as Hjson by (intros e c Hste; by apply (entryJSON_shows log)).
  destruct n as [mf content|md ch'|ml tg|mv chr rv|mo|ms].
  2:{ split.
    - intros l limit Hlim Hne. destruct (follow_rest root m ch p md ch' name l limit Hst Hv Hwf Hp Hat Hlim) as [F HF]. exists F.
      intros fuel req envs hs Hfuel Hreq Hopen Hpt. destruct (HF fuel req envs hs Hfuel Hreq Hopen Hpt (S (length ch')) 0%nat None) as (pages & Hf & Hsh & Hall);
        change (default [] None) with (@nil byte) in *; rewrite rest_all in * by done; [lia|]. by exists pages.
    - intros Hexp. destruct Hkey as [Hvk Hstk]. destruct (ordered_dir md ch' Hwfn) as [Hs Hwfs].
      assert (Forall (λ q, node_wf q.2 ∧ exportable [] q.1 q.2 ∧ tar_name q.1) ch') as Hall by (by apply Forall_and).
      destruct (export_tree get log Hget (bt_key t) ch' Hstk Hs Hall) as [F2 HF2]. exists (F1 + F2)%nat. intros fuel env r h ps Hfuel Hopen (Hask & Hname & Hpath) Hpt Hfmt.
      rewrite serve_archive by done. unfold archive. rewrite (asks_param _ _ "format" Hask). set (f := if bool_decide (param "format" ps = []) then str "tar" else param "format" ps).
      assert (negb (bool_decide (f = str "tar")) && negb (bool_decide (f = str "tgz")) = false) as ->.
      { subst f. rewrite !elem_of_cons, elem_of_nil in Hfmt. destruct Hfmt as [->|[->|[->|[]]]]; done. }
      rewrite (Htgt fuel _ r h ps name ltac:(lia) Hask Hname Hpath Hpt).
      assert (match bt_entry t with Some e => negb (is_dir_entry e) | None => false end = false) as ->.
      { destruct (bt_entry t) as [e|]; [|done]. destruct Hent as [c Hste]. unfold is_dir_entry. by rewrite (Hmode e c Hste). }
      destruct (stored_root log (bt_key t) ch' Hstk) as [Hty [data Hin]]. unfold dir_key in Hty. unfold dir_type. rewrite Hty. cbn [negb].
      rewrite (serves_elem _ _ _ _ Hget Hin). rewrite HF2 by lia. eauto. }
  1:{ destruct Hentry as (e & c & He & Hl & Hste). destruct Hkey as (Hvk & Hlen & h0 & Ht). destruct (file_root h0 (bt_key t) content Ht) as [Hft [data Hg]].
    exists (F1 + h0)%nat. intros fuel env r h ps Hfuel (Hask & Hname & Hpath) Hpt. split; intros Hopen.
    - rewrite serve_tree by done. unfold tree. rewrite (Htgt fuel _ r h ps name ltac:(lia) Hask Hname Hpath Hpt), He. exists (entryJSON e), c. unfold is_dir_entry. rewrite (Hmode e c Hste). by split_and!; [|done|apply Hjson].
    - rewrite serve_raw by done. unfold raw. rewrite (Htgt fuel _ r h ps name ltac:(lia) Hask Hname Hpath Hpt). unfold raw_filename. rewrite He, (Hmode e c Hste), Hft, Hg. change (node_type _ =? S_IFREG) with true. cbv iota. cbn [negb].
      rewrite (asks_param _ _ "dl" Hask). destruct (firstBytes_spec get log Hget 512 h0 _ _ Ht fuel ltac:(lia)) as (head & Hhead & _).
      rewrite Hhead, (writeFileContent_spec get log Hget h0 _ _ Ht fuel ltac:(lia)), Hlen. cbn [app]. case_bool_decide; rsimpl; eauto. }
  all: destruct Hentry as (e & c & He & Hl & Hste); exists F1; intros fuel env r h ps Hfuel (Hask & Hname & Hpath) Hpt;
    (split; intros Hopen; [rewrite serve_tree by done|rewrite serve_raw by done]; unfold tree, raw; rewrite (Htgt fuel _ r h ps name ltac:(lia) Hask Hname Hpath Hpt);
     [rewrite He|]; unfold raw_filename, is_dir_entry; rewrite ?He, (Hmode e c Hste);
     [exists (entryJSON e), c; split_and!; [try (destruct chr); done|done|by apply Hjson]|try (destruct chr); eauto]).
Qed.
End requests.

(** ** An application *)
Section examples.
#[local] Existing Instance zstd_example.
#[local] Existing Instance blake3_example.
#[local] Existing Instance cbor_example.
#[local] Existing Instance refcbor_example.
#[local] Existing Instance pebble_example.
#[local] Existing Instance keys_example.
#[local] Existing Instance line_example.
#[local] Existing Instance AllowStore.json_example.
#[local] Existing Instance dev_example.
#[local] Existing Instance dev_example_laws.
#[local] Existing Instance host_url.
#[local] Existing Instance admin_example.

Definition browse_ref : bytes := put_ref (mkReference [x61] (kb stored_example.1) [x75] 5 [] []).
Definition browse_handler : ahandler := mkAhandler [] store_example ({[ [x61] := browse_ref ]}, []) ({[ [x63] := 200 ]}).
Definition browse_env : aenv := mkAenv 100 (Ok [xab]) [] (λ _, false) None.
Definition file_params : list (string * bytes) := [("ref", [x61]); ("path", [x66])]%string.
Definition root_params : list (string * bytes) := [("ref", [x61]); ("path", [])]%string.
Definition browse_request (path : string) (query : bytes) : areq := mkAreq (str "GET") (str path) query [] [] (Some [x63]) [] None.
Definition params_text (ps : list (string * bytes)) : bytes := join_and ((λ q : string * bytes, pair_text q.1 q.2) <$> ps).

Lemma browse_points : points (ad_refs browse_handler) [x61] stored_example.1.
Proof.
  split; [done|]. exists browse_ref, (mkReference [x61] (kb stored_example.1) [x75] 5 [] []).
  split_and!; [vm_compute; reflexivity|vm_compute; reflexivity|vm_compute; reflexivity].
Qed.

(** The file of the stored directory, the directory in pages of one entry, and its
    archive, as a session sees them. *)
Lemma admin_browse_witness :
  ∃ fuel,
    (∃ ctype file, (admin_serve (log_get stored_example.2) fuel browse_env (browse_request "/admin/api/raw" (params_text file_params)) browse_handler).1 =
       AFile ctype 2 "inline" file [x68; x69]) ∧
    (∃ pages, follow (log_get stored_example.2) fuel 3 0 (browse_request "/admin/api/tree") (λ _, browse_env) (λ _, browse_handler)
       (path_params [x61] [] (str "1")) None = Some pages ∧ length (concat pages) = 2%nat ∧ Forall (λ tes, zlen tes <= 1) pages) ∧
    ∃ format file, (admin_serve (log_get stored_example.2) fuel browse_env (browse_request "/admin/api/archive" (params_text root_params)) browse_handler).1 =
      AArchive format file (tree_members [] [([x66], file_node); ([x6c], link_node)]).
Proof.
  assert (serves (log_get stored_example.2) stored_example.2) as Hget by (apply log_get_serves, (bool_decide_unpack _); vm_compute; exact I).
  destruct (admin_browse (log_get stored_example.2) stored_example.2 Hget stored_example.1 meta_example
    [([x66], file_node); ([x6c], link_node)] [[x66]] file_node [x61] stored_children_example ltac:(vm_compute; reflexivity) mounted_wf
    ltac:(constructor; [split_and!; [done..|by apply (bool_decide_unpack _)]|constructor]) eq_refl) as [F1 HF1].
  destruct (admin_browse (log_get stored_example.2) stored_example.2 Hget stored_example.1 meta_example
    [([x66], file_node); ([x6c], link_node)] [] (NDir meta_example [([x66], file_node); ([x6c], link_node)]) [x61] stored_children_example
    ltac:(vm_compute; reflexivity) mounted_wf ltac:(constructor) eq_refl) as [Hpages Harchive].
  destruct (Hpages (str "1") 1 ltac:(vm_compute; reflexivity) ltac:(repeat constructor; done)) as [F2 HF2].
  destruct Harchive as [F3 HF3]; [eapply Forall_impl; [exact portable_example|]; by intros q (? & _ & ? & _)|].
  exists (F1 + F2 + F3)%nat. split; [|split].
  - destruct (HF1 (F1 + F2 + F3)%nat browse_env (browse_request "/admin/api/raw" (params_text file_params)) browse_handler file_params ltac:(lia)) as [_ Hraw];
      [split; [split; [repeat constructor|reflexivity]|split; reflexivity]|apply browse_points|].
    apply Hraw. split_and!; reflexivity.
  - destruct (HF2 (F1 + F2 + F3)%nat (browse_request "/admin/api/tree") (λ _, browse_env) (λ _, browse_handler) ltac:(lia)) as (pages & Hf & Hsh & Hall);
      [done|intros; split_and!; reflexivity|intros; apply browse_points|].
    exists pages. split; [exact Hf|]. split; [by apply Forall2_length in Hsh|exact Hall].
  - apply (HF3 (F1 + F2 + F3)%nat browse_env _ browse_handler root_params ltac:(lia)).
    + split_and!; reflexivity.
    + split; [split; [repeat constructor|reflexivity]|split; reflexivity].
    + apply browse_points.
    + left.
Defined.
End examples.
