(* ===== verification/Embedded.v ===== *)
(** * Packages [identity] and [embedded]: a store in a process of its own
    ([identity.go], [embedded.go])

    The identity of a store is a key pair in two files.  An embedded store has the
    objects, references and remotes that the daemon would have, and syncs with remote
    servers through clients that it keeps.  What a client of a remote answers is
    [calls], which also carries the grant of each request. *)

From Stdlib Require Import Init.Byte.
From S2P Require Import Prelude Machine Key Chunkers FsEncode Instances FsTree FsRead FsWalk PackRecord PackStream Footer FooterFacts Packstore PackstoreRep PackstoreFacts Compact PackstoreSpec Parallel Inbox InboxProtocol InboxSpec Text Sshsign Reference Refstore Gc GcProtocol GcFacts Auth AuthFacts Server ServerSpec Routes Sync Remote Path Posix AllowStore Remotes Daemon DaemonFacts DaemonSpec Client ClientSpec.
From Stdlib Require Import ZifyBool ZifyNat.
Local Open Scope Z_scope.

(** ** The identity *)

(** What the package uses of [ssh] and [ed25519]. *)
Class SshIdentity `{SshSig} := {
  PrivateKey : Type;
  GenerateKey : bytes → result PrivateKey;         (* from random bytes *)
  MarshalPEM : PrivateKey → result bytes;          (* with the comment *)
  NewSignerFromKey : PrivateKey → result Signer;
  ParsePrivateKey : bytes → result Signer;
  PassphraseMissing : error → bool;
  AuthorizedKey : Signer → bytes;                  (* the line of its public key *)
}.
Class SshIdentityLaws `{SshIdentity} := {
  ParsePrivateKey_Marshal priv b : MarshalPEM priv = Ok b → ParsePrivateKey b = NewSignerFromKey priv;
  NewSigner_Ok priv b : MarshalPEM priv = Ok b → is_ok (NewSignerFromKey priv) = true;
}.

Definition Comment : bytes := str "amber-store".

(** The files [identity], [identity.tmp] and [identity.pub], and how the next calls turn
    out: an error comes with the number of bytes that were written before it. *)
Record idisk := mkIdisk { id_key : option bytes; id_tmp : option bytes; id_pub : option bytes; id_events : list (option (error * nat)) }.
Definition id_pop (d : idisk) : option (error * nat) * idisk :=
  match id_events d with
  | [] => (None, d)
  | e :: evs => (e, mkIdisk (id_key d) (id_tmp d) (id_pub d) evs)
  end.

(** A call that reads or makes nothing that is kept. *)
Definition id_call (d : idisk) : result unit * idisk :=
  let '(e, d) := id_pop d in (match e with Some (e, _) => Err e | None => Ok tt end, d).
Definition id_ReadFile (d : idisk) : result bytes * idisk :=
  let '(e, d) := id_pop d in
  (match e with Some (e, _) => Err e | None => match id_key d with Some b => Ok b | None => Err ENOENT end end, d).
Definition id_Stat (d : idisk) : result unit * idisk :=
  let '(e, d) := id_pop d in
  (match e with Some (e, _) => Err e | None => match id_pub d with Some _ => Ok tt | None => Err ENOENT end end, d).
Definition id_WriteTmp (b : bytes) (d : idisk) : result unit * idisk :=
  let '(e, d) := id_pop d in
  match e with
  | Some (e, n) => (Err e, mkIdisk (id_key d) (Some (take n b)) (id_pub d) (id_events d))
  | None => (Ok tt, mkIdisk (id_key d) (Some b) (id_pub d) (id_events d))
  end.
Definition id_WritePub (b : bytes) (d : idisk) : result unit * idisk :=
  let '(e, d) := id_pop d in
  match e with
  | Some (e, n) => (Err e, mkIdisk (id_key d) (id_tmp d) (Some (take n b)) (id_events d))
  | None => (Ok tt, mkIdisk (id_key d) (id_tmp d) (Some b) (id_events d))
  end.
Definition id_Rename (d : idisk) : result unit * idisk :=
  let '(e, d) := id_pop d in
  match e with
  | Some (e, _) => (Err e, d)
  | None => match id_tmp d with
            | Some b => (Ok tt, mkIdisk (Some b) None (id_pub d) (id_events d))
            | None => (Err ENOENT, d)
            end
  end.

(** [bytes.TrimRight(line, "\n")] *)
Fixpoint trim_newlines (r : bytes) : bytes := match r with c :: r' => if bool_decide (c = x0a) then trim_newlines r' else r | [] => [] end.
Definition TrimRightNewline (l : bytes) : bytes := rev (trim_newlines (rev l)).

Section identity.
Context `{SshIdentity}.

Definition pub_line (s : Signer) : bytes := TrimRightNewline (AuthorizedKey s) ++ [x20] ++ Comment ++ [x0a].
Definition writePub (s : Signer) (d : idisk) : result unit * idisk :=
  let '(r, d) := id_WritePub (pub_line s) d in (wrap "writing %s" r, d).

Definition id_load (b : bytes) (d : idisk) : result Signer * idisk :=
  match ParsePrivateKey b with
  | Ok signer =>
      let '(st, d) := id_Stat d in
      match st with
      | Err e => if bool_decide (errors_Is e ErrNotExist) then
                   let '(r, d) := writePub signer d in (match r with Ok _ => Ok signer | r => err_of r end, d)
                 else (Ok signer, d)
      | _ => (Ok signer, d)
      end
  | Err e => (if PassphraseMissing e
              then Err (errors_New "identity %s is passphrase-protected; auto-managed store identities must be unencrypted — configure the key explicitly instead")
              else Err (Errorf "parsing identity %s" e), d)
  | r => (r, d)
  end.

Definition id_create (rand : bytes) (d : idisk) : result Signer * idisk :=
  match (priv ← wrap "generating identity" (GenerateKey rand); b ← wrap "encoding identity" (MarshalPEM priv); Ok (priv, b)) with
  | Ok (priv, b) =>
      let '(r, d) := id_WriteTmp b d in
      match wrap "writing identity" r with
      | Ok _ =>
          let '(r, d) := id_Rename d in
          match wrap "writing identity" r with
          | Ok _ =>
              match wrap "building signer" (NewSignerFromKey priv) with
              | Ok signer => let '(r, d) := writePub signer d in (match r with Ok _ => Ok signer | r => err_of r end, d)
              | r => (r, d)
              end
          | r => (err_of r, d)
          end
      | r => (err_of r, d)
      end
  | r => (err_of r, d)
  end.

Definition LoadOrCreate (rand : bytes) (d : idisk) : result Signer * idisk :=
  let '(r, d) := id_call d in
  match wrap "creating store directory" r with
  | Ok _ =>
      let '(r, d) := id_ReadFile d in
      match r with
      | Ok b => id_load b d
      | Err e => if bool_decide (errors_Is e ErrNotExist) then id_create rand d else (Err (Errorf "reading identity %s" e), d)
      | r => (err_of r, d)
      end
  | r => (err_of r, d)
  end.

(** *** What stays *)
Lemma id_pop_same d : let d' := (id_pop d).2 in id_key d' = id_key d ∧ id_tmp d' = id_tmp d ∧ id_pub d' = id_pub d.
Proof. unfold id_pop. by destruct (id_events d). Qed.

Lemma writePub_spec s d r d' : writePub s d = (r, d') → id_key d' = id_key d ∧ safe r ∧ (r = Ok tt → id_pub d' = Some (pub_line s)).
Proof.
  unfold writePub, id_WritePub. destruct (id_pop_same d) as (Hk & _). destruct (id_pop d) as [[[e n]|] d1]; cbn in *; intros [= <- <-]; by split_and!.
Qed.

Lemma id_load_spec b d r d' : id_load b d = (r, d') → id_key d' = id_key d ∧ (∀ s, r = Ok s → ParsePrivateKey b = Ok s) ∧
  (∀ s, r = Ok s → id_pub d = None → id_events d = [] → id_pub d' = Some (pub_line s)).
Proof.
  unfold id_load. destruct (ParsePrivateKey b) as [signer|e| |]; [|destruct (PassphraseMissing e); intros [= <- <-]; by split_and!|intros [= <- <-]; by split_and!..].
  assert (∀ d1, id_key d1 = id_key d → (let '(r, d) := writePub signer d1 in (match r with Ok _ => Ok signer | r => err_of r end, d)) = (r, d') →
    id_key d' = id_key d ∧ (∀ s, r = Ok s → Ok signer = Ok s) ∧ ∀ s, r = Ok s → id_pub d = None → id_events d = [] → id_pub d' = Some (pub_line s)) as Hheal.
  { intros d1 Hk1. destruct (writePub signer d1) as [r1 d2] eqn:Hw. apply writePub_spec in Hw as (Hk2 & Hsafe & Hpub). intros [= <- <-].
    split; [congruence|]. destruct r1 as [[]|? | |]; (split; [done|]); try done. intros s [= <-] _ _. by apply Hpub. }
  unfold id_Stat. destruct (id_pop_same d) as (Hk & _ & Hp). assert (id_events d = [] → id_pop d = (None, d)) as Hquiet by (intros E; unfold id_pop; by rewrite E).
  destruct (id_pop d) as [[[e n]|] d1]; cbn in *.
  - case_bool_decide; [by apply Hheal|]. intros [= <- <-]. split_and!; [done|done|]. intros s _ _ Hq. by specialize (Hquiet Hq).
  - destruct (id_pub d1) as [p|] eqn:Ep.
    + intros [= <- <-]. split_and!; [done|done|]. intros s _ Hn. congruence.
    + rewrite bool_decide_eq_true_2 by (unfold errors_Is; apply (bool_decide_unpack _); vm_compute; exact I). by apply Hheal.
Qed.

Context `{!SshIdentityLaws}.

Lemma id_create_spec rand d r d' : id_create rand d = (r, d') →
  (id_key d' = id_key d ∨ ∃ priv b, GenerateKey rand = Ok priv ∧ MarshalPEM priv = Ok b ∧ id_key d' = Some b) ∧
  (∀ s, r = Ok s → (∃ b, id_key d' = Some b ∧ ParsePrivateKey b = Ok s) ∧ id_pub d' = Some (pub_line s)).
Proof.
  unfold id_create. destruct (GenerateKey rand) as [priv|e| |] eqn:Hg; [|intros [= <- <-]; by split; [left|]..]. cbn [wrap mbind result_bind].
  destruct (MarshalPEM priv) as [b|e| |] eqn:Hm; [|intros [= <- <-]; by split; [left|]..]. cbn [wrap mbind result_bind].
  unfold id_WriteTmp. destruct (id_pop_same d) as (Hk & _). destruct (id_pop d) as [[[e n]|] d1]; cbn [snd] in Hk; [intros [= <- <-]; by split; [left|]|].
  cbn [wrap]. set (d2 := mkIdisk _ _ _ _). unfold id_Rename. destruct (id_pop_same d2) as (Hk2 & Ht2 & Hp2).
  destruct (id_pop d2) as [[[e n]|] d3]; cbn [snd] in *; [intros [= <- <-]; split; [left; rewrite Hk2; exact Hk|done]|]. rewrite Ht2. cbn [id_tmp d2 wrap].
  set (d4 := mkIdisk _ _ _ _). destruct (NewSignerFromKey priv) as [s|e| |] eqn:Hs; [|intros [= <- <-]; split; [right; eauto|done]..]. cbn [wrap].
  destruct (writePub s d4) as [r1 d5] eqn:Hw. apply writePub_spec in Hw as (Hk5 & Hsafe & Hpub). intros [= <- <-]. split; [right; exists priv, b; by rewrite Hk5|].
  intros s' Hs'. destruct r1 as [[]|? | |]; try done. injection Hs' as <-. split; [|by apply Hpub]. exists b. split; [by rewrite Hk5|]. by rewrite (ParsePrivateKey_Marshal priv).
Qed.

(** Failing calls: none says of a file that is there that it is not. *)
Definition faults (d : idisk) : Prop := Forall (λ e, match e with Some (e, _) => ¬ errors_Is e ErrNotExist | None => True end) (id_events d).

Lemma faults_pop d : faults d → faults (id_pop d).2 ∧ match (id_pop d).1 with Some (e, _) => ¬ errors_Is e ErrNotExist | None => True end.
Proof. unfold faults, id_pop. destruct (id_events d) as [|e evs] eqn:E; cbn; [by rewrite E|]. by intros [? ?]%Forall_cons. Qed.

Lemma LoadOrCreate_spec rand d r d' : faults d → LoadOrCreate rand d = (r, d') →
  match id_key d with
  | Some b => id_key d' = Some b ∧ ∀ s, r = Ok s → ParsePrivateKey b = Ok s
  | None => (id_key d' = None ∨ ∃ priv b, GenerateKey rand = Ok priv ∧ MarshalPEM priv = Ok b ∧ id_key d' = Some b) ∧
            ∀ s, r = Ok s → (∃ b, id_key d' = Some b ∧ ParsePrivateKey b = Ok s) ∧ id_pub d' = Some (pub_line s)
  end.
Proof.
  intros Hf. unfold LoadOrCreate, id_call. destruct (id_pop_same d) as (Hk & _). destruct (faults_pop d Hf) as [Hf1 _].
  assert (∀ d0 e, id_key d0 = id_key d → (Err e : result Signer, d0) = (r, d') → match id_key d with
    | Some b => id_key d' = Some b ∧ ∀ s, r = Ok s → ParsePrivateKey b = Ok s
    | None => (id_key d' = None ∨ ∃ priv b, GenerateKey rand = Ok priv ∧ MarshalPEM priv = Ok b ∧ id_key d' = Some b) ∧
              ∀ s, r = Ok s → (∃ b, id_key d' = Some b ∧ ParsePrivateKey b = Ok s) ∧ id_pub d' = Some (pub_line s)
    end) as Hfail.
  { intros d0 e Hk0 [= <- <-]. destruct (id_key d); split; auto; done. }
  destruct (id_pop d) as [[[e n]|] d1]; cbn [fst snd wrap] in *; [by eapply Hfail|].
  unfold id_ReadFile. destruct (id_pop_same d1) as (Hk1 & _). destruct (faults_pop d1 Hf1) as [_ He]. destruct (id_pop d1) as [[[e n]|] d2]; cbn [fst snd] in *.
  { rewrite bool_decide_eq_false_2 by done. apply Hfail. congruence. }
  rewrite Hk1, Hk. destruct (id_key d) as [b|] eqn:Hkey.
  - intros (Hk' & Hp & _)%id_load_spec. split; [congruence|done].
  - rewrite bool_decide_eq_true_2 by (unfold errors_Is; apply (bool_decide_unpack _); vm_compute; exact I). intros [Hc Hok]%id_create_spec. split; [|done].
    destruct Hc as [Hc|Hc]; [left; congruence|by right].
Qed.

(** The identity of a store stays.  Whatever calls fail, an existing key file is never
    changed, and where there is none the file is either still absent or the whole of the
    generated key; when an identity is returned, its key is the one in the file, every
    later call that succeeds returns the same identity, and a new identity has its
    public half in its file. *)
Theorem identity_stays rand d r d' : faults d → LoadOrCreate rand d = (r, d') →
  (∀ b, id_key d = Some b → id_key d' = Some b) ∧
  (id_key d = None → id_key d' = None ∨ ∃ priv b, GenerateKey rand = Ok priv ∧ MarshalPEM priv = Ok b ∧ id_key d' = Some b) ∧
  (∀ s, r = Ok s →
    (∃ b, id_key d' = Some b ∧ ParsePrivateKey b = Ok s) ∧ (id_key d = None → id_pub d' = Some (pub_line s)) ∧
    ∀ rand' d1 s' d2, faults d1 → id_key d1 = id_key d' → LoadOrCreate rand' d1 = (Ok s', d2) → s' = s).
Proof.
  intros Hf Hl. pose proof (LoadOrCreate_spec rand d r d' Hf Hl) as Hs.
  assert (∀ s b, id_key d' = Some b → ParsePrivateKey b = Ok s →
    ∀ rand' d1 s' d2, faults d1 → id_key d1 = id_key d' → LoadOrCreate rand' d1 = (Ok s', d2) → s' = s) as Hsame.
  { intros s b Hb Hp rand' d1 s' d2 Hf1 Hk Hl1. pose proof (LoadOrCreate_spec rand' d1 (Ok s') d2 Hf1 Hl1) as Hs1. rewrite Hk, Hb in Hs1.
    destruct Hs1 as [_ Hs1]. specialize (Hs1 s' eq_refl). congruence. }
  destruct (id_key d) as [b|]; split_and!; try done.
  - intros b' [= <-]. apply Hs.
  - intros s Hr. destruct Hs as [Hb Hp]. split_and!; [exists b; auto|done|]. by eapply Hsame; [exact Hb|apply Hp].
  - intros _. apply Hs.
  - intros s Hr. destruct Hs as [_ Hok]. destruct (Hok s Hr) as [(b & Hb & Hp) Hpub]. split_and!; [by exists b|done|]. by eapply Hsame.
Qed.
End identity.

(** ** The embedded store *)
Section embedded.
Context `{Blake3} `{Fuse} `{Zstd} `{Cbor} `{RefCbor} `{Pebble} `{SshSig} `{SshKeys} `{NetUrl} `{RemotesJson}.

(** A client that is kept, with the registration it was made from. *)
Record cachedClient := mkCached { cc_rem : RemoteEntry; cc_rc : Remote.Client }.

Record estore := mkEstore {
  es_Objects : Store;
  es_Refs : DB;
  es_Remotes : Registry;
  es_signer : Signer;
  es_clients : gmap bytes cachedClient;
}.
Definition es_put_objects (st : Store) (s : estore) : estore := mkEstore st (es_Refs s) (es_Remotes s) (es_signer s) (es_clients s).
Definition es_put_refs (db : DB) (s : estore) : estore := mkEstore (es_Objects s) db (es_Remotes s) (es_signer s) (es_clients s).

Definition RemoteClient (name : bytes) (s : estore) : result Remote.Client * estore :=
  match rg_Resolve name (es_Remotes s) with
  | Ok (canonical, rem) =>
      match es_clients s !! canonical with
      | Some cc =>
          if bool_decide (rm_URL (cc_rem cc) = rm_URL rem) && bool_decide (rm_ServerKey (cc_rem cc) = rm_ServerKey rem) then (Ok (cc_rc cc), s) else
          match remote_New (rm_URL rem) (es_signer s) (rm_ServerKey rem) with
          | Ok rc => (Ok rc, mkEstore (es_Objects s) (es_Refs s) (es_Remotes s) (es_signer s) (<[canonical := mkCached rem rc]> (es_clients s)))
          | r => (r, s)
          end
      | None =>
          match remote_New (rm_URL rem) (es_signer s) (rm_ServerKey rem) with
          | Ok rc => (Ok rc, mkEstore (es_Objects s) (es_Refs s) (es_Remotes s) (es_signer s) (<[canonical := mkCached rem rc]> (es_clients s)))
          | r => (r, s)
          end
      end
  | r => (err_of r, s)
  end.

(** What the remotes answer, to each client; [wipe] is the call that empties a server. *)
Context (calls : Remote.Client → rcalls) (wipe : Remote.Client → reply unit).
(** How a walk, the answers and the uploads turn out. *)
Context (pick : list error → error) (fuel : nat).

Definition e_PushTree_at (at_ : Key → Store) (arrange : list Key → list Key) (order : list (list Key) → list (list Key))
    (remote : bytes) (root : Key) (opts : SyncOpts) (s : estore) : result PushStats * estore :=
  let '(r, s) := RemoteClient remote s in
  match r with
  | Ok rc =>
      let '(r, st) := Push pick fuel (store_get at_) (rc_Missing (calls rc)) arrange order (rc_Push (calls rc)) root opts (es_Objects s) in
      (r, es_put_objects st s)
  | r => (err_of r, s)
  end.

Definition e_Push (at_ : Key → Store) (arrange : list Key → list Key) (order : list (list Key) → list (list Key))
    (remote refName : bytes) (opts : SyncOpts) (s : estore) : result PushStats * estore :=
  let '(r, s) := RemoteClient remote s in
  match r with
  | Ok rc =>
      let '(raw, db) := Refstore.Get refName (es_Refs s) in
      let s := es_put_refs db s in
      match (raw ← wrap "reading local reference %q" raw; rec ← wrap "local reference %q" (DecodeVerified raw);
             root ← wrap "local reference %q" (Key.Parse (ref_Key rec)); Ok (raw, root)) with
      | Ok (raw, root) =>
          let '(r, st) := Push pick fuel (store_get at_) (rc_Missing (calls rc)) arrange order (rc_Push (calls rc)) root opts (es_Objects s) in
          (match r with
           | Ok stats => _ ← to_result (rc_PutRef (calls rc) refName raw); Ok stats
           | r => r
           end, es_put_objects st s)
      | r => (err_of r, s)
      end
  | r => (err_of r, s)
  end.

(** [missing] is [store.Missing]; the pull is the events of [order], at most [turns]
    turns. *)
Definition e_PullTree (turns procs : nat) (missing : list Key → M (list Key)) (order : nat → list (list Key) → list (list Key * list event))
    (remote : bytes) (root : Key) (opts : SyncOpts) (s : estore) : result PullStats * estore :=
  let '(r, s) := RemoteClient remote s in
  match r with
  | Ok rc =>
      let '(r, st) := Pull turns fuel procs (rc_Reachable (calls rc)) missing (rc_Fetch (calls rc)) order root opts (es_Objects s) in
      (r, es_put_objects st s)
  | r => (err_of r, s)
  end.

Definition e_Pull (turns procs : nat) (missing : list Key → M (list Key)) (order : nat → list (list Key) → list (list Key * list event))
    (remote refName : bytes) (opts : SyncOpts) (s : estore) : result (Key * PullStats) * estore :=
  let '(r, s) := RemoteClient remote s in
  match r with
  | Ok rc =>
      match (raw ← to_result (rc_GetRef (calls rc) refName); rec ← wrap "remote reference %q" (DecodeVerified raw);
             root ← wrap "remote reference %q" (Key.Parse (ref_Key rec)); Ok (raw, root)) with
      | Ok (raw, root) =>
          let '(r, st) := Pull turns fuel procs (rc_Reachable (calls rc)) missing (rc_Fetch (calls rc)) order root opts (es_Objects s) in
          let s := es_put_objects st s in
          match r with
          | Ok stats =>
              let '(r, db) := Refstore.Put refName raw (es_Refs s) in
              (match wrap "writing local reference %q" r with Ok _ => Ok (root, stats) | r => err_of r end, es_put_refs db s)
          | r => (err_of r, s)
          end
      | r => (err_of r, s)
      end
  | r => (err_of r, s)
  end.

Definition e_RemoteWipe (remote : bytes) (s : estore) : result unit * estore :=
  let '(r, s) := RemoteClient remote s in (rc ← r; to_result (wipe rc), s).

Definition e_PublishRef (remote record : bytes) (s : estore) : result unit * estore :=
  match DecodeVerified record with
  | Ok rec => let '(r, s) := RemoteClient remote s in (rc ← r; to_result (rc_PutRef (calls rc) (ref_Name rec) record), s)
  | r => (err_of r, s)
  end.

Definition e_ListRemoteRefs (remote : bytes) (s : estore) : result (list RefInfo) * estore :=
  let '(r, s) := RemoteClient remote s in (rc ← r; to_result (rc_ListRefs (calls rc)), s).

(** [Open], from what opening the stores gives. *)
Definition e_Open `{!SshIdentity} (signer : option Signer) (rand : bytes) (d : idisk) (objects : result Store) (refs : result DB) (remotes : rdisk) :
    result estore * idisk :=
  let '(r, d) := LoadOrCreate rand d in
  (ident ← r; st ← objects; db ← refs; reg ← rg_Open remotes; Ok (mkEstore st db reg (default ident signer) ∅), d).

(** *** The clients that are kept *)

(** A kept client is what its registration makes. *)
Definition clients_ok (s : estore) : Prop :=
  map_Forall (λ _ cc, remote_New (rm_URL (cc_rem cc)) (es_signer s) (rm_ServerKey (cc_rem cc)) = Ok (cc_rc cc)) (es_clients s).

(** A client made afresh. *)
Definition fresh_client (name : bytes) (s : estore) : result Remote.Client :=
  '(_, rem) ← rg_Resolve name (es_Remotes s); remote_New (rm_URL rem) (es_signer s) (rm_ServerKey rem).

Lemma RemoteClient_spec name s : clients_ok s → let '(r, s') := RemoteClient name s in
  r = fresh_client name s ∧ clients_ok s' ∧ es_Objects s' = es_Objects s ∧ es_Refs s' = es_Refs s ∧ es_Remotes s' = es_Remotes s ∧ es_signer s' = es_signer s.
Proof.
  intros Hok. unfold RemoteClient, fresh_client. destruct (rg_Resolve name (es_Remotes s)) as [[canonical rem]|e| |]; [|by split_and!..]. cbn [mbind result_bind].
  assert (let '(r, s') := match remote_New (rm_URL rem) (es_signer s) (rm_ServerKey rem) with
    | Ok rc => (Ok rc, mkEstore (es_Objects s) (es_Refs s) (es_Remotes s) (es_signer s) (<[canonical := mkCached rem rc]> (es_clients s))) | r => (r, s) end in
    r = remote_New (rm_URL rem) (es_signer s) (rm_ServerKey rem) ∧ clients_ok s' ∧ es_Objects s' = es_Objects s ∧ es_Refs s' = es_Refs s ∧ es_Remotes s' = es_Remotes s ∧ es_signer s' = es_signer s) as Hnew.
  { destruct (remote_New _ _ _) as [rc|e| |] eqn:Hrc; [|by split_and!..]. split_and!; try done. unfold clients_ok. cbn. by apply map_Forall_insert_2. }
  destruct (es_clients s !! canonical) as [cc|] eqn:Hcc; [|exact Hnew]. destruct (bool_decide _ && bool_decide _) eqn:E; [|exact Hnew].
  apply andb_prop in E as [E1%bool_decide_eq_true_1 E2%bool_decide_eq_true_1]. split_and!; try done. rewrite <- E1, <- E2. symmetry. by apply (Hok canonical cc).
Qed.

(** *** The states of an embedded store *)
Record e_env := mkEenv {
  ee_at : Key → Store; ee_arrange : list Key → list Key; ee_order : list (list Key) → list (list Key);
  ee_turns : nat; ee_procs : nat; ee_missing : list Key → M (list Key); ee_pull_order : nat → list (list Key) → list (list Key * list event);
}.

Inductive e_step (s : estore) : estore → Prop :=
| es_client name : e_step s (RemoteClient name s).2
| es_push env remote name opts : e_step s (e_Push (ee_at env) (ee_arrange env) (ee_order env) remote name opts s).2
| es_pushtree env remote root opts : e_step s (e_PushTree_at (ee_at env) (ee_arrange env) (ee_order env) remote root opts s).2
| es_pull env remote name opts : e_step s (e_Pull (ee_turns env) (ee_procs env) (ee_missing env) (ee_pull_order env) remote name opts s).2
| es_pulltree env remote root opts : e_step s (e_PullTree (ee_turns env) (ee_procs env) (ee_missing env) (ee_pull_order env) remote root opts s).2
| es_wipe remote : e_step s (e_RemoteWipe remote s).2
| es_publish remote record : e_step s (e_PublishRef remote record s).2
| es_list remote : e_step s (e_ListRemoteRefs remote s).2
| es_local st db reg : e_step s (mkEstore st db reg (es_signer s) (es_clients s)).    (* the stores are edited directly *)

Lemma client_ok name s r s' : clients_ok s → RemoteClient name s = (r, s') → clients_ok s'.
Proof. intros Hok Hr. pose proof (RemoteClient_spec name s Hok) as Hs. rewrite Hr in Hs. by destruct Hs as (_ & ? & _). Qed.

Lemma step_clients s s' : clients_ok s → e_step s s' → clients_ok s'.
Proof.
  intros Hok Hs. destruct Hs as [name|env remote name opts|env remote root opts|env remote name opts|env remote root opts|remote|remote record|remote|st db reg].
  - destruct (RemoteClient name s) as [r s1] eqn:Hr. by eapply client_ok.
  - unfold e_Push. destruct (RemoteClient remote s) as [r s1] eqn:Hr. pose proof (client_ok _ _ _ _ Hok Hr). destruct r as [rc|e| |]; [|done..].
    destruct (Refstore.Get name (es_Refs s1)) as [raw db]. destruct (raw ← _; _) as [[raw' root]|e| |]; [|done..]. by destruct (Push _ _ _ _ _ _ _ _ _ _).
  - unfold e_PushTree_at. destruct (RemoteClient remote s) as [r s1] eqn:Hr. pose proof (client_ok _ _ _ _ Hok Hr). destruct r as [rc|e| |]; [|done..].
    by destruct (Push _ _ _ _ _ _ _ _ _ _).
  - unfold e_Pull. destruct (RemoteClient remote s) as [r s1] eqn:Hr. pose proof (client_ok _ _ _ _ Hok Hr). destruct r as [rc|e| |]; [|done..].
    destruct (raw ← _; _) as [[raw' root]|e| |]; [|done..]. destruct (Pull _ _ _ _ _ _ _ _ _ _) as [[st|e| |] s2]; [|done..]. by destruct (Refstore.Put _ _ _).
  - unfold e_PullTree. destruct (RemoteClient remote s) as [r s1] eqn:Hr. pose proof (client_ok _ _ _ _ Hok Hr). destruct r as [rc|e| |]; [|done..].
    by destruct (Pull _ _ _ _ _ _ _ _ _ _).
  - unfold e_RemoteWipe. destruct (RemoteClient remote s) as [r s1] eqn:Hr. by eapply client_ok.
  - unfold e_PublishRef. destruct (DecodeVerified record) as [rec|e| |]; [|done..]. destruct (RemoteClient remote s) as [r s1] eqn:Hr. by eapply client_ok.
  - unfold e_ListRemoteRefs. destruct (RemoteClient remote s) as [r s1] eqn:Hr. by eapply client_ok.
  - done.
Qed.

Context `{!PebbleLaws}.
#[local] Existing Instance InboxProtocol.verified_inv.

(** C28. An embedded store.  After any operations, with the remotes, references and
    objects edited in between in any way, the client for a remote is the one that would
    be made afresh from its registration as it is now.  When [Pull] succeeds, the record
    under the name is what that remote answered, it carries a valid signature over its
    content, its root is the key that is returned, nothing that was stored is gone and
    every object below the root is stored, whatever the remote sends and other writers
    store; when [Push] succeeds, the local record is signed and was put on that remote
    under the name. *)
Theorem embedded_sync s0 s : es_clients s0 = ∅ → rtc e_step s0 s →
  (∀ name, (RemoteClient name s).1 = fresh_client name s) ∧
  (∀ turns procs missing order remote name opts root stats s' c,
    (0 < procs)%nat → contents (es_Objects s) c → closed (es_Objects s) = false →
    (∀ cl ks objs, rc_Fetch (calls cl) ks = Ok objs → Forall (λ o, Validate (obj_key o) = Ok tt) objs) →
    (∀ n bs b sched, (b, sched) ∈ order n bs → ∀ o, put_by_others (others_in sched) o) →
    (∀ ks r s1, missing ks (es_Objects s) = (r, s1) → contents s1 c ∧ closed s1 = false) →
    e_Pull turns procs missing order remote name opts s = (Ok (root, stats), s') →
    ∃ cl raw rec c', fresh_client remote s = Ok cl ∧ rc_GetRef (calls cl) name = inr raw ∧ DecodeVerified raw = Ok rec ∧ Key.Parse (ref_Key rec) = Ok root ∧
      db_map (es_Refs s') = <[name := raw]> (db_map (es_Refs s)) ∧ contents (es_Objects s') c' ∧ dom c ⊆ dom c' ∧ complete c' root) ∧
  (∀ at_ arrange order remote name opts stats s', e_Push at_ arrange order remote name opts s = (Ok stats, s') →
    ∃ cl raw rec root, fresh_client remote s = Ok cl ∧ db_map (es_Refs s) !! name = Some raw ∧ DecodeVerified raw = Ok rec ∧ Key.Parse (ref_Key rec) = Ok root ∧
      (Push pick fuel (store_get at_) (rc_Missing (calls cl)) arrange order (rc_Push (calls cl)) root opts (es_Objects s)).1 = Ok stats ∧
      is_ok (to_result (rc_PutRef (calls cl) name raw)) = true).
Proof.
  intros H0' Hr. assert (clients_ok s) as Hok.
  { assert (clients_ok s0) as Hs by (unfold clients_ok; rewrite H0'; apply map_Forall_empty). clear H0'. induction Hr as [|x y z Hxy _ IH]; [done|]. apply IH. by eapply step_clients. }
  split; [|split].
  - intros name. pose proof (RemoteClient_spec name s Hok) as Hs. destruct (RemoteClient name s) as [r s']. by destruct Hs as [-> _].
  - intros turns procs missing order remote name opts root stats s' c Hp Hcs Hc Hf Ho Hm. unfold e_Pull.
    pose proof (RemoteClient_spec remote s Hok) as Hs. destruct (RemoteClient remote s) as [r s1]. destruct Hs as (-> & _ & Hobj & Href & _).
    destruct (fresh_client remote s) as [cl|e| |]; [|done..].
    destruct (raw ← to_result _; _) as [[raw root']|e| |] eqn:Hrec; [|done..]. apply bind_Ok in Hrec as (raw' & Hg & Hrec). apply bind_Ok in Hrec as (rec & Hd%wrap_Ok & Hrec).
    apply bind_Ok in Hrec as (root1 & Hk%wrap_Ok & Hrec). injection Hrec as -> ->.
    destruct (Pull _ _ _ _ _ _ _ _ _ _) as [[st|e| |] s2] eqn:Hpull; [|done..]. rewrite Hobj in Hpull.
    destruct (Pull_kept procs Hp (rc_Fetch (calls cl)) order (Hf cl) Ho turns fuel (rc_Reachable (calls cl)) missing root' opts (es_Objects s) c st s2 Hcs Hc Hm Hpull)
      as (c' & Hcs' & _ & Hdom & Hcomp).
    pose proof (Put_law name raw (es_Refs (es_put_objects s2 s1))) as Hput. cbn [es_Refs es_put_objects] in Hput. rewrite Href in Hput. cbn [es_Refs es_put_objects]. rewrite Href.
    destruct (Refstore.Put name raw (es_Refs s)) as [r3 db3]. destruct Hput as (_ & _ & Hok3). destruct r3 as [[]|e| |]; [|done..]. intros [= <- <- <-].
    exists cl, raw, rec, c'. split_and!; try done; [|by apply Hok3]. destruct (rc_GetRef (calls cl) name) as [[e|n m|]|x]; cbn in Hg; try done. congruence.
  - intros at_ arrange order remote name opts stats s'. unfold e_Push.
    pose proof (RemoteClient_spec remote s Hok) as Hs. destruct (RemoteClient remote s) as [r s1]. destruct Hs as (-> & _ & Hobj & Href & _).
    destruct (fresh_client remote s) as [cl|e| |]; [|done..]. rewrite Href. pose proof (Get_law name (es_Refs s)) as Hget.
    destruct (Refstore.Get name (es_Refs s)) as [raw db]. destruct Hget as (_ & _ & Hval & _).
    destruct (raw ← wrap _ raw; _) as [[raw' root']|e| |] eqn:Hrec; [|done..]. apply bind_Ok in Hrec as (raw1 & Hg%wrap_Ok & Hrec). apply bind_Ok in Hrec as (rec & Hd%wrap_Ok & Hrec).
    apply bind_Ok in Hrec as (root1 & Hk%wrap_Ok & Hrec). injection Hrec as -> ->. cbn [es_Objects es_put_refs]. rewrite Hobj.
    destruct (Push _ _ _ _ _ _ _ _ _ _) as [[st|e| |] s2] eqn:Hpush; [|done..]. intros [= Hr' _]. apply bind_Ok in Hr' as ([] & Hput & [= <-]).
    exists cl, raw', rec, root'. split_and!; try done; [by apply Hval|by rewrite Hpush|by rewrite Hput].
Qed.
End embedded.

(** ** Applications *)
Section examples.
#[local] Existing Instance fuse_example.
#[local] Existing Instance zstd_example.
#[local] Existing Instance blake3_example.
#[local] Existing Instance cbor_example.
#[local] Existing Instance refcbor_example.
#[local] Existing Instance pebble_example.
#[local] Existing Instance pebble_example_laws.
#[local] Existing Instance sshsig_example.
#[local] Existing Instance sshkeys_example.
#[local] Existing Instance url_example.
#[local] Existing Instance json_example.
#[local] Existing Instance InboxProtocol.verified_inv.

(** A store with one remote, which has the tree of the pull. *)
Definition embedded_example : estore :=
  mkEstore empty_example (∅, []) (mkRegistry (mkRdisk None None []) {[ [x6f] := mkRemote [x68] [x05] ]}) [x02] ∅.
#[local] Abbreviation embedded_pull := (e_Pull calls_example 5 2 4 (Missing pick_example 4) order_example [] [x61] (mkSyncOpts 0 0 0) embedded_example).

Lemma embedded_pull_run : embedded_pull = (Ok (root_example, mkPullStats 3 201), embedded_pull.2).
Proof. rewrite (surjective_pairing embedded_pull) at 1. refine (f_equal2 pair _ eq_refl). vm_compute. reflexivity. Qed.

Lemma embedded_sync_witness :
  ∃ c', contents (es_Objects embedded_pull.2) c' ∧ complete c' root_example ∧ db_map (es_Refs embedded_pull.2) !! [x61] = Some (tree_record [x61]).
Proof.
  destruct (embedded_sync calls_example (λ _, inr tt) pick_example 5 embedded_example embedded_example eq_refl (rtc_refl _ _)) as (_ & Hpull & _).
  destruct (Hpull 2%nat 4%nat (Missing pick_example 4) order_example [] [x61] (mkSyncOpts 0 0 0) root_example (mkPullStats 3 201) embedded_pull.2 ∅
    ltac:(lia) contents_empty eq_refl (λ _, fetch_valid) order_valid missing_keeps embedded_pull_run) as (cl & raw & rec & c' & _ & Hg & _ & _ & Hdb & Hcs & _ & Hc).
  injection Hg as <-. exists c'. split_and!; [exact Hcs|exact Hc|]. rewrite Hdb, lookup_insert_eq. reflexivity.
Defined.

(** Keys of one byte; a marshalled key is the byte after a mark. *)
#[local] Instance identity_example : SshIdentity := {|
  PrivateKey := bytes; GenerateKey rand := Ok rand; MarshalPEM priv := Ok (x2d :: priv); NewSignerFromKey priv := Ok priv;
  ParsePrivateKey b := match b with x2d :: priv => Ok priv | _ => Err (errors_New "ssh: no key found") end;
  PassphraseMissing _ := false; AuthorizedKey s := s ++ [x0a] |}.
#[local] Instance identity_example_laws : SshIdentityLaws.
Proof. split; [by intros priv b [= <-]|done]. Qed.

Definition no_space : option (error * nat) := Some (errors_New "no space left on device", 3%nat).
Definition new_disk (evs : list (option (error * nat))) : idisk := mkIdisk None None None evs.

Lemma identity_stays_witness : ∃ d', LoadOrCreate [x07] (new_disk []) = (Ok ([x07] : Signer), d') ∧ id_key d' = Some [x2d; x07] ∧ id_pub d' = Some (pub_line ([x07] : Signer)).
Proof.
  destruct (LoadOrCreate [x07] (new_disk [])) as [r d'] eqn:Hl. assert (r = Ok [x07] ∧ id_key d' = Some [x2d; x07]) as [-> Hk] by (vm_compute in Hl; by simplify_eq).
  exists d'. destruct (identity_stays [x07] (new_disk []) _ d' (Forall_nil_2 _) Hl) as (_ & _ & Hok).
  destruct (Hok _ eq_refl) as (_ & Hpub & _). exact (conj eq_refl (conj Hk (Hpub eq_refl))).
Defined.

(** A write of the public half that fails leaves a part of it, which later calls take
    for the whole. *)
Example partial_pub_stays :
  let d := (LoadOrCreate [x07] (new_disk [None; None; None; None; no_space])).2 in
  let '(r, d') := LoadOrCreate [x08] d in r = Ok [x07] ∧ id_pub d' = Some (take 3 (pub_line [x07])) ∧ take 3 (pub_line [x07]) ≠ pub_line [x07].
Proof. vm_compute. split_and!; [reflexivity|reflexivity|discriminate]. Qed.
End examples.
