(* ===== verification/Browse.v ===== *)
(** * The browser of the terminal ([cmd/amber-store/browse*.go]): model and updates

    The browser is a function from a model and a message to the next model and a
    command.  A command runs besides it and answers with one message; commands that are
    under way answer in any order.  The terminal, its input line and the program loop
    (Bubble Tea) are not modelled: a message, a key press and a text input are the class
    [Terminal].  Go's value receivers copy the model, and only its latest copy is ever
    used, so the slice of frames that copies share is modelled as a list. *)

From Stdlib Require Import Init.Byte.
From coqutil Require Import Datatypes.RecordSetters.
From S2P Require Import Prelude Machine Key Chunkers FsEncode FsRead PackRecord Footer Packstore Inbox Text Sshsign Reference Refstore Gc Auth Server Routes Remote Posix Ingest Remotes Daemon Client Admin.
From Stdlib Require Import ZifyBool ZifyNat.
Import TriangleBracketNotations.
Local Open Scope Z_scope.

(** ** What the browser uses of its libraries *)

(** A key press with its name; a line of input; [strings.ToLower] for the tables of
    Unicode; CBOR as JSON for both libraries. *)
Class Terminal := {
  keymsg : Type;
  key_String : keymsg → bytes;
  tinput : Type;
  ti_New : bytes → tinput;                (* with its prompt *)
  ti_Value : tinput → bytes;
  ti_SetValue : bytes → tinput → tinput;
  ti_CursorEnd : tinput → tinput;
  ti_Focus : tinput → tinput;
  ti_Blur : tinput → tinput;
  ti_Update : keymsg → tinput → tinput;
  ti_View : tinput → bytes;
  ToLower : bytes → bytes;
}.

(** An input that is emptied is empty, and focus does not edit. *)
Class TerminalLaws `{Terminal} := {
  ti_New_law : ∀ p, ti_Value (ti_New p) = [];
  ti_SetValue_law : ∀ t, ti_Value (ti_SetValue [] t) = [];
  ti_Focus_law : ∀ t, ti_Value (ti_Focus t) = ti_Value t;
  ti_Blur_law : ∀ t, ti_Value (ti_Blur t) = ti_Value t;
  ToLower_law : ToLower [] = [];
}.

(** A value as the CBOR library decodes it into [any].  The pairs of a map come in the
    order in which it is ranged over. *)
#[warnings="-register-all"]
Inductive cval :=
| CBytes (b : bytes)
| CText (s : bytes)
| CMapAny (ps : list (cval * cval))
| CMapText (ps : list (bytes * cval))
| CArray (vs : list cval)
| CTag (number : Z) (content : cval)
| CScalar (text : bytes).

Class CborText := {
  cbor_Unmarshal : bytes → result cval;
  fmt_v : cval → bytes;                   (* fmt.Sprintf with %v *)
  MarshalIndent : cval → result bytes;
}.

(** ** CBOR as JSON ([browse_cbor.go]) *)
Section cbor.
Context `{CborText}.

Definition keyString (k : cval) : bytes :=
  match k with
  | CText t => t
  | CBytes t => hex_EncodeToString t
  | t => fmt_v t
  end.

(** [m[k] = v] for each pair: the last one with a key is kept. *)
Definition set_pair (k : bytes) (v : cval) (m : list (bytes * cval)) : list (bytes * cval) :=
  filter (λ p, p.1 ≠ k) m ++ [(k, v)].

Fixpoint toJSONable (v : cval) : cval :=
  match v with
  | CBytes t => CText (hex_EncodeToString t)
  | CMapAny ps => CMapText (foldl (λ m p, set_pair p.1 p.2 m) [] ((λ p : cval * cval, (keyString p.1, toJSONable p.2)) <$> ps))
  | CMapText ps => CMapText ((λ p : bytes * cval, (p.1, toJSONable p.2)) <$> ps)
  | CArray vs => CArray (toJSONable <$> vs)
  | CTag _ content => toJSONable content
  | _ => v
  end.

Definition cborToJSON (data : bytes) : result bytes := v ← cbor_Unmarshal data; MarshalIndent (toJSONable v).
End cbor.

(** ** Strings *)
Definition newline : byte := x0a.
Definition tab : byte := x09.

(** [strings.Contains] *)
Fixpoint Contains (s q : bytes) : bool :=
  bool_decide (q `prefix_of` s) || match s with [] => false | _ :: s => Contains s q end.

(** ** The way a file is shown ([browse_detect.go]) *)
Inductive viewMode := modeText | modeHex | modeJSON.
#[export] Instance viewMode_eq_dec : EqDecision viewMode.
Proof. solve_decision. Defined.
Definition viewMode_String (m : viewMode) : string := match m with modeText => "TEXT" | modeHex => "HEX" | modeJSON => "JSON" end.

Definition control_rune (r : Z) : bool := (r <? 0x20) && negb ((r =? 9) || (r =? 10) || (r =? 13)).
Definition isTextual (data : bytes) : bool :=
  let sample := take (Z.to_nat 8192) data in
  if bool_decide (sample = []) then true else
  if negb (utf8_ValidString sample) then false else
  let rs := runes sample in
  if existsb (Z.eqb 0) rs then false else
  zlen (filter (λ r, control_rune r = true) rs) * 100 <=? zlen sample * 30.

Definition detectMode `{CborText} (data : bytes) : viewMode :=
  if isTextual data then modeText else
  match cborToJSON data with Ok _ => modeJSON | _ => modeHex end.

(** ** One file ([browse_file.go]) *)
Record fileView := mkFileView {
  fv_name : bytes;
  fv_size : Z;
  fv_data : bytes;
  fv_truncated : bool;
  fv_mode : viewMode;
  fv_top : Z;                             (* first visible body line *)
  fv_textLines : list bytes;
  fv_jsonLines : list bytes;
  fv_jsonBuilt : bool;
  fv_jsonErr : option error;
}.
Definition no_file : fileView := mkFileView [] 0 [] false modeText 0 [] [] false None.

Section file.
Context `{CborText}.

Definition buildJSON (fv : fileView) : fileView :=
  if fv_jsonBuilt fv then fv else
  let fv := fv <| fv_jsonBuilt := true |> in
  if fv_truncated fv then fv <| fv_jsonErr := Some (errors_New "file truncated at cap — cannot decode CBOR (export to view full)") |> else
  match cborToJSON (fv_data fv) with
  | Ok s => fv <| fv_jsonLines := split_at newline s |>
  | Err e => fv <| fv_jsonErr := Some e |>
  | _ => fv
  end.

Definition newFileView (name : bytes) (size : Z) (data : bytes) (truncated : bool) : fileView :=
  let fv := no_file <| fv_name := name |> <| fv_size := size |> <| fv_data := data |> <| fv_truncated := truncated |>
              <| fv_textLines := split_at newline data |> <| fv_mode := detectMode data |> in
  if bool_decide (fv_mode fv = modeJSON) then buildJSON fv else fv.

Definition setMode (m : viewMode) (fv : fileView) : fileView :=
  let fv := if bool_decide (m = modeJSON) then buildJSON fv else fv in
  fv <| fv_mode := m |> <| fv_top := 0 |>.

Definition lineCount (fv : fileView) : Z :=
  match fv_mode fv with
  | modeText => zlen (fv_textLines fv)
  | modeJSON => if fv_jsonErr fv is Some _ then 1 else zlen (fv_jsonLines fv)
  | modeHex => (zlen (fv_data fv) + 15) / 16
  end.

(** The lines below the header. *)
Definition file_body (height : Z) : Z := let body := height - 2 in if body <? 1 then 1 else body.

Definition scroll (delta height : Z) (fv : fileView) : fileView :=
  let top := fv_top fv + delta in
  let maxTop := lineCount fv - file_body height in
  let maxTop := if maxTop <? 0 then 0 else maxTop in
  let top := if top >? maxTop then maxTop else top in
  fv <| fv_top := if top <? 0 then 0 else top |>.
End file.

(** ** The model ([browse_model.go]) *)
Inductive modelMode := modeList | modeFile | modeExport | modeRefs.
#[export] Instance modelMode_eq_dec : EqDecision modelMode.
Proof. solve_decision. Defined.

Record frame := mkFrame { fr_key : Key; fr_name : bytes; fr_cursor : Z }.

(** What the browser asks of the daemon, and what it is answered. *)
Record bstore := mkBstore {
  bs_Ls : Key → result (list lsEntry);
  bs_File : Key → result (bytes * option error);
  bs_Tar : Key → result (bytes * option error);
  bs_ListRefs : result (list RefInfo);
}.

Section browse.
Context `{Terminal} `{CborText}.
Context (render : error → bytes).

Record browseModel := mkBrowse {
  bm_cwd : bytes;
  bm_maxView : Z;
  bm_stack : list frame;                  (* the top is the last one *)
  bm_entries : list lsEntry;
  bm_cursor : Z;
  bm_listTop : Z;
  bm_width : Z;
  bm_height : Z;
  bm_mode : modelMode;
  bm_status : bytes;
  bm_file : fileView;
  bm_fileKey : Key;
  bm_input : tinput;
  bm_exportIsDir : bool;
  bm_exportKey : Key;
  bm_exportName : bytes;
  bm_refs : list RefInfo;
  bm_filter : tinput;
  bm_refCursor : Z;
  bm_refFiltering : bool;
  bm_dirFilter : tinput;
  bm_filtering : bool;
  bm_rootKey : Key;
  bm_rootName : bytes;
}.

Definition isFileKey (k : Key) : bool := (Type_ k =? Blob) || (Type_ k =? FileNode).

(** [dump.go] *)
Definition cmd_parseHexKey (s : bytes) : result Key := wrap "invalid key %q" (raw ← hex_DecodeString s; Key.Parse raw).
Definition parseKeyPath (s : bytes) : result (Key * bytes) :=
  let '(keyPart, path) := cut x2f s in
  k ← cmd_parseHexKey keyPart; Ok (k, default [] path).

(** [spec.go]: KEY[/PATH] or ref:NAME[@PATH], the name looked up by [getRef]. *)
Definition resolveSpec `{RefCbor} (getRef : bytes → result Reference) (s : bytes) : result (Key * bytes) :=
  if bool_decide (str "ref:" `prefix_of` s) then
    let '(name, path) := cut x40 (drop 4 s) in
    _ ← wrap "invalid reference spec %q" (ValidateName name);
    rec ← getRef name;
    k ← wrap "reference %q: stored key" (Key.Parse (ref_Key rec));
    Ok (k, default [] path)
  else parseKeyPath s.

Definition newTextInput (prompt : string) : tinput := ti_New (str prompt).

Definition empty_model (cwd : bytes) (maxView : Z) (mode : modelMode) : browseModel :=
  mkBrowse cwd maxView [] [] 0 0 0 0 mode [] no_file zero_key (newTextInput "export to: ") false zero_key []
    [] (newTextInput "filter: ") 0 false (newTextInput "filter: ") false zero_key [].

Definition newBrowseModel (cwd : bytes) (maxView : Z) (root : Key) (rootName : bytes) : browseModel :=
  let m := (empty_model cwd maxView modeList) <| bm_rootKey := root |> <| bm_rootName := rootName |> in
  if isFileKey root then m <| bm_mode := modeFile |> else m <| bm_stack := [mkFrame root rootName 0] |>.

Definition newRefPickerModel (cwd : bytes) (maxView : Z) : browseModel := empty_model cwd maxView modeRefs.

Definition cur (m : browseModel) : result frame := match last (bm_stack m) with Some f => Ok f | None => Panic end.

(** ** Messages and commands *)
Record loadedFile := mkLoaded { lf_key : Key; lf_name : bytes; lf_size : Z; lf_data : bytes; lf_truncated : bool }.

Inductive msg :=
| WindowSizeMsg (width height : Z)
| dirLoadedMsg (r : error + list lsEntry)
| fileLoadedMsg (r : error + loadedFile)
| exportDoneMsg (path : bytes) (err : option error)
| refsLoadedMsg (r : error + list RefInfo)
| KeyMsg (k : keymsg)
| OtherMsg.                               (* such as the blinking of an input *)

Inductive cmd :=
| NoCmd
| Quit
| loadDir (k : Key)
| badFile (e : error)                     (* a file whose key does not parse *)
| fetchFile (k : Key) (name : bytes) (size : Z)
| loadRefs
| exportCmd (isDir : bool) (k : Key) (path : bytes)
| InputCmd.                               (* a command of an input *)

Definition Init (m : browseModel) : result cmd :=
  if bool_decide (bm_mode m = modeRefs) then Ok loadRefs else
  if isFileKey (bm_rootKey m) then Ok (fetchFile (bm_rootKey m) (bm_rootName m) (Length (bm_rootKey m))) else
  f ← cur m; Ok (loadDir (fr_key f)).

Definition loadFile (e : lsEntry) : cmd :=
  match cmd_parseHexKey (ls_Key e) with
  | Ok k => fetchFile k (ls_Name e) (ls_Size e)
  | Err err => badFile err
  | _ => NoCmd
  end.

(** *** Where exports are written ([browse_export.go]) *)

(** The files, and how the next calls turn out: an error comes with the number of bytes
    that were written before it. *)
Record edisk := mkEdisk { ed_files : gmap bytes bytes; ed_events : list (option (error * nat)) }.
Definition ed_pop (d : edisk) : option (error * nat) * edisk :=
  match ed_events d with
  | [] => (None, d)
  | e :: es => (e, mkEdisk (ed_files d) es)
  end.

(** [os.OpenFile] with O_CREATE and O_EXCL *)
Definition ed_Create (path : bytes) (d : edisk) : result unit * edisk :=
  let '(e, d) := ed_pop d in
  match e with
  | Some (e, _) => (Err e, d)
  | None => if bool_decide (is_Some (ed_files d !! path)) then (Err EEXIST, d) else (Ok tt, mkEdisk (<[path := []]> (ed_files d)) (ed_events d))
  end.
Definition ed_Remove (path : bytes) (d : edisk) : edisk :=
  let '(e, d) := ed_pop d in
  match e with
  | Some _ => d
  | None => mkEdisk (delete path (ed_files d)) (ed_events d)
  end.
(** [io.Copy(f, rc)]: the stream gives [body] and then [rerr], or its end. *)
Definition ed_Copy (path body : bytes) (rerr : option error) (d : edisk) : result unit * edisk :=
  let '(e, d) := ed_pop d in
  match e with
  | Some (e, n) => (Err e, mkEdisk (<[path := take n body]> (ed_files d)) (ed_events d))
  | None => (match rerr with Some e => Err e | None => Ok tt end, mkEdisk (<[path := body]> (ed_files d)) (ed_events d))
  end.

Definition run_export (st : bstore) (isDir : bool) (k : Key) (path : bytes) (d : edisk) : result msg * edisk :=
  let '(r, d) := ed_Create path d in
  match r with
  | Ok _ =>
      match (if isDir then bs_Tar st k else bs_File st k) with
      | Ok (body, rerr) =>
          let '(r, d) := ed_Copy path body rerr d in
          match r with
          | Ok _ => (Ok (exportDoneMsg path None), d)
          | Err e => (Ok (exportDoneMsg path (Some e)), ed_Remove path d)
          | r => (err_of r, d)
          end
      | Err e => (Ok (exportDoneMsg path (Some e)), ed_Remove path d)
      | r => (err_of r, d)
      end
  | Err e => (Ok (exportDoneMsg path (Some e)), d)
  | r => (err_of r, d)
  end.

(** *** What commands answer *)

(** [io.ReadAll] of at most [limit] bytes *)
Definition read_limited (limit : Z) (body : bytes) (rerr : option error) : result bytes :=
  if zlen body <? limit then match rerr with Some e => Err e | None => Ok body end else Ok (take (Z.to_nat limit) body).

(** [answered]: an error is part of the message. *)
Definition answered {A} (r : result A) : result (error + A) :=
  match r with Ok a => Ok (inr a) | Err e => Ok (inl e) | Panic => Panic | Diverge => Diverge end.

Definition run_fetchFile (st : bstore) (cap : Z) (k : Key) (name : bytes) (size : Z) : result msg :=
  r ← answered ('(body, rerr) ← bs_File st k; read_limited (i64 (cap + 1)) body rerr);
  match r with
  | inl e => Ok (fileLoadedMsg (inl e))
  | inr data =>
      if zlen data >? cap then
        if cap <? 0 then Panic else Ok (fileLoadedMsg (inr (mkLoaded k name size (take (Z.to_nat cap) data) true)))
      else Ok (fileLoadedMsg (inr (mkLoaded k name size data false)))
  end.

(** The message of a command that is run, if it has one that [Update] sees. *)
Definition run_cmd (st : bstore) (cap : Z) (c : cmd) (d : edisk) : option (result msg) * edisk :=
  match c with
  | NoCmd | Quit => (None, d)
  | loadDir k => (Some (r ← answered (bs_Ls st k); Ok (dirLoadedMsg r)), d)
  | badFile e => (Some (Ok (fileLoadedMsg (inl e))), d)
  | fetchFile k name size => (Some (run_fetchFile st cap k name size), d)
  | loadRefs => (Some (r ← answered (bs_ListRefs st); Ok (refsLoadedMsg r)), d)
  | exportCmd isDir k path => let '(r, d) := run_export st isDir k path d in (Some r, d)
  | InputCmd => (Some (Ok OtherMsg), d)
  end.

(** ** Updates *)
Definition entryIsDir (e : lsEntry) : bool := Z.land (ls_Mode e) S_IFMT =? S_IFDIR.
Definition entryIsReg (e : lsEntry) : bool := Z.land (ls_Mode e) S_IFMT =? S_IFREG.

Definition matching {A} (name : A → bytes) (value : bytes) (l : list A) : list A :=
  let q := ToLower value in
  if bool_decide (q = []) then l else filter (λ a, Contains (ToLower (name a)) q = true) l.
Definition visibleEntries (m : browseModel) : list lsEntry := matching ls_Name (ti_Value (bm_dirFilter m)) (bm_entries m).
Definition filteredRefs (m : browseModel) : list RefInfo := matching ri_Name (ti_Value (bm_filter m)) (bm_refs m).

Definition update : Type := result (browseModel * cmd).
Definition stay (m : browseModel) : update := Ok (m, NoCmd).

Definition gotoRefs (m : browseModel) : browseModel * cmd :=
  (m <| bm_mode := modeRefs |> <| bm_refCursor := 0 |> <| bm_refFiltering := false |>
     <| bm_filter := ti_Blur (ti_SetValue [] (bm_filter m)) |>, loadRefs).

Definition joinCwd (cwd name : bytes) : bytes := cwd ++ str "/" ++ name.
Definition beginExport (isDir : bool) (k : Key) (name : bytes) (m : browseModel) : browseModel :=
  let def := if isDir then name ++ str ".tar" else name in
  m <| bm_exportIsDir := isDir |> <| bm_exportKey := k |> <| bm_exportName := name |>
    <| bm_input := ti_Focus (ti_CursorEnd (ti_SetValue (joinCwd (bm_cwd m) def) (bm_input m))) |> <| bm_mode := modeExport |>.

(** [m.stack[len(m.stack)-1].cursor = m.cursor] *)
Definition save_cursor (m : browseModel) : result browseModel :=
  match last (bm_stack m) with
  | Some f => Ok (m <| bm_stack := removelast (bm_stack m) ++ [mkFrame (fr_key f) (fr_name f) (bm_cursor m)] |>)
  | None => Panic
  end.

Definition openEntry (e : lsEntry) (m : browseModel) : update :=
  if entryIsDir e then
    match cmd_parseHexKey (ls_Key e) with
    | Ok k =>
        m ← save_cursor m;
        Ok (m <| bm_stack := bm_stack m ++ [mkFrame k (ls_Name e) 0] |>, loadDir k)
    | Err err => stay (m <| bm_status := render err |>)
    | r => err_of r
    end
  else if entryIsReg e then Ok (m, loadFile e) else stay m.

Definition set_dirFilter (v : bytes) (m : browseModel) : browseModel :=
  m <| bm_filtering := false |> <| bm_dirFilter := ti_SetValue v (ti_Blur (bm_dirFilter m)) |>.

(** The cursor after it is moved in a list of [n] lines. *)
Definition cursor_down (n c : Z) : Z := if c <? n - 1 then c + 1 else c.
Definition cursor_up (c : Z) : Z := if c >? 0 then c - 1 else c.
Definition cursor_end (n : Z) : Z := if n - 1 <? 0 then 0 else n - 1.
Definition cursor_kept (n c : Z) : Z := if c >=? n then 0 else c.

(** The key is one of the names. *)
Definition is_key (k : keymsg) (names : list string) : bool := bool_decide (key_String k ∈ str <$> names).

Definition updateListFilterKey (k : keymsg) (m : browseModel) : update :=
  if is_key k ["ctrl+c"] then Ok (m, Quit) else
  if is_key k ["esc"] then stay ((set_dirFilter [] m) <| bm_cursor := 0 |>) else
  if is_key k ["enter"] then
    if bool_decide (visibleEntries m = []) then stay m else
    e ← index (visibleEntries m) (bm_cursor m); openEntry e m
  else
  if is_key k ["up"] then stay (m <| bm_cursor ::= cursor_up |>) else
  if is_key k ["down"] then stay (m <| bm_cursor ::= cursor_down (zlen (visibleEntries m)) |>) else
  let m := m <| bm_dirFilter ::= ti_Update k |> in
  Ok (m <| bm_cursor ::= cursor_kept (zlen (visibleEntries m)) |>, InputCmd).

Definition updateListKey (k : keymsg) (m : browseModel) : update :=
  if bm_filtering m then updateListFilterKey k m else
  let ve := visibleEntries m in
  if is_key k ["ctrl+c"; "q"] then Ok (m, Quit) else
  if is_key k ["/"; "f"] then stay (m <| bm_filtering := true |> <| bm_dirFilter ::= ti_Focus |>) else
  if is_key k ["down"; "j"] then stay (m <| bm_cursor ::= cursor_down (zlen ve) |>) else
  if is_key k ["up"; "k"] then stay (m <| bm_cursor ::= cursor_up |>) else
  if is_key k ["home"] then stay (m <| bm_cursor := 0 |>) else
  if is_key k ["end"] then stay (m <| bm_cursor := cursor_end (zlen ve) |>) else
  if is_key k ["enter"; "l"; "right"] then
    if bool_decide (ve = []) then stay m else
    e ← index ve (bm_cursor m); openEntry e m
  else
  if is_key k ["esc"; "backspace"; "h"; "left"] then
    if (1 <? length (bm_stack m))%nat then
      let m := m <| bm_stack := removelast (bm_stack m) |> in
      f ← cur m; Ok (m, loadDir (fr_key f))
    else Ok (gotoRefs m)
  else
  if is_key k ["e"] then
    if bool_decide (ve = []) then stay m else
    e ← index ve (bm_cursor m);
    match cmd_parseHexKey (ls_Key e) with
    | Ok key => stay (beginExport (entryIsDir e) key (ls_Name e) m)
    | Err err => stay (m <| bm_status := render err |>)
    | r => err_of r
    end
  else stay m.

Definition updateFileKey (k : keymsg) (m : browseModel) : update :=
  let h := bm_height m in
  if is_key k ["ctrl+c"] then Ok (m, Quit) else
  if is_key k ["q"; "esc"; "backspace"; "h"; "left"] then
    if bool_decide (bm_stack m = []) then Ok (gotoRefs m) else stay (m <| bm_mode := modeList |>)
  else
  if is_key k ["t"] then stay (m <| bm_file ::= setMode modeText |>) else
  if is_key k ["x"] then stay (m <| bm_file ::= setMode modeHex |>) else
  if is_key k ["j"] then stay (m <| bm_file ::= setMode modeJSON |>) else
  if is_key k ["down"] then stay (m <| bm_file ::= scroll 1 h |>) else
  if is_key k ["up"] then stay (m <| bm_file ::= scroll (-1) h |>) else
  if is_key k ["pgdown"; " "] then stay (m <| bm_file ::= scroll (h - 1) h |>) else
  if is_key k ["pgup"] then stay (m <| bm_file ::= scroll (- (h - 1)) h |>) else
  if is_key k ["home"] then stay (m <| bm_file ::= scroll (- 2 ^ 30) h |>) else
  if is_key k ["end"] then stay (m <| bm_file ::= scroll (2 ^ 30) h |>) else
  if is_key k ["e"] then stay (beginExport false (bm_fileKey m) (fv_name (bm_file m)) m) else stay m.

Definition updateExportKey (k : keymsg) (m : browseModel) : update :=
  if is_key k ["esc"; "ctrl+c"] then stay (m <| bm_input ::= ti_Blur |> <| bm_mode := modeList |>) else
  if is_key k ["enter"] then
    let path := ti_Value (bm_input m) in
    Ok (m <| bm_input ::= ti_Blur |> <| bm_mode := modeList |>, exportCmd (bm_exportIsDir m) (bm_exportKey m) path)
  else Ok (m <| bm_input ::= ti_Update k |>, InputCmd).

(** [browse_refs.go] *)
Definition openRef (m : browseModel) : update :=
  let fr := filteredRefs m in
  if bool_decide (fr = []) then stay m else
  sel ← index fr (bm_refCursor m);
  match cmd_parseHexKey (ri_Key sel) with
  | Ok k =>
      let m := m <| bm_filter ::= ti_Blur |> <| bm_refFiltering := false |> in
      let name := str "ref:" ++ ri_Name sel in
      if isFileKey k then Ok (m <| bm_stack := [] |>, fetchFile k name (Length k)) else
      Ok (m <| bm_stack := [mkFrame k name 0] |> <| bm_mode := modeList |>, loadDir k)
  | Err err => stay (m <| bm_status := render err |>)
  | r => err_of r
  end.

Definition updateRefsFilterKey (k : keymsg) (m : browseModel) : update :=
  if is_key k ["ctrl+c"] then Ok (m, Quit) else
  if is_key k ["esc"] then
    stay (m <| bm_refFiltering := false |> <| bm_filter := ti_SetValue [] (ti_Blur (bm_filter m)) |> <| bm_refCursor := 0 |>)
  else
  if is_key k ["enter"] then openRef m else
  if is_key k ["up"] then stay (m <| bm_refCursor ::= cursor_up |>) else
  if is_key k ["down"] then stay (m <| bm_refCursor ::= cursor_down (zlen (filteredRefs m)) |>) else
  let m := m <| bm_filter ::= ti_Update k |> in
  Ok (m <| bm_refCursor ::= cursor_kept (zlen (filteredRefs m)) |>, InputCmd).

Definition updateRefsKey (k : keymsg) (m : browseModel) : update :=
  if bm_refFiltering m then updateRefsFilterKey k m else
  if is_key k ["ctrl+c"; "q"; "esc"] then Ok (m, Quit) else
  if is_key k ["/"; "f"] then stay (m <| bm_refFiltering := true |> <| bm_filter ::= ti_Focus |>) else
  if is_key k ["down"; "j"] then stay (m <| bm_refCursor ::= cursor_down (zlen (filteredRefs m)) |>) else
  if is_key k ["up"; "k"] then stay (m <| bm_refCursor ::= cursor_up |>) else
  if is_key k ["home"] then stay (m <| bm_refCursor := 0 |>) else
  if is_key k ["end"] then stay (m <| bm_refCursor := cursor_end (zlen (filteredRefs m)) |>) else
  if is_key k ["enter"] then openRef m else stay m.

Definition updateKey (k : keymsg) (m : browseModel) : update :=
  match bm_mode m with
  | modeList => updateListKey k m
  | modeFile => updateFileKey k m
  | modeExport => updateExportKey k m
  | modeRefs => updateRefsKey k m
  end.

Definition Update (x : msg) (m : browseModel) : update :=
  match x with
  | WindowSizeMsg w h => stay (m <| bm_width := w |> <| bm_height := h |>)
  | dirLoadedMsg (inl e) => stay (m <| bm_status := render e |>)
  | dirLoadedMsg (inr entries) =>
      let m := set_dirFilter [] (m <| bm_entries := entries |>) in
      f ← cur m;
      stay (m <| bm_cursor := cursor_kept (zlen entries) (fr_cursor f) |> <| bm_listTop := 0 |> <| bm_status := [] |>)
  | fileLoadedMsg (inl e) =>
      let m := m <| bm_status := render e |> in
      if bool_decide (bm_stack m = []) then Ok (gotoRefs m) else stay (m <| bm_mode := modeList |>)
  | fileLoadedMsg (inr f) =>
      stay (m <| bm_file := newFileView (lf_name f) (lf_size f) (lf_data f) (lf_truncated f) |>
              <| bm_fileKey := lf_key f |> <| bm_mode := modeFile |>)
  | exportDoneMsg path err =>
      stay (m <| bm_status := match err with Some e => str "export failed: " ++ render e | None => str "exported to " ++ path end |>)
  | refsLoadedMsg (inl e) => stay (m <| bm_status := render e |>)
  | refsLoadedMsg (inr refs) => stay (m <| bm_refs := refs |> <| bm_refCursor := 0 |>)
  | KeyMsg k => updateKey k m
  | OtherMsg => stay m
  end.

(** ** A session *)

(** The model and the commands under way. *)
Record session := mkSession { se_model : browseModel; se_pending : list cmd }.

(** What comes from the terminal. *)
Definition from_terminal (x : msg) : Prop := match x with WindowSizeMsg _ _ | KeyMsg _ | OtherMsg => True | _ => False end.

(** The next message: one from the terminal, or the answer of any of the commands under
    way, for which the store answers one of [stores]. *)
Inductive incoming (stores : bstore → Prop) (s : session) : msg → list cmd → Prop :=
| in_terminal x : from_terminal x → incoming stores s x (se_pending s)
| in_answer i c st d x : se_pending s !! i = Some c → stores st → (run_cmd st (bm_maxView (se_model s)) c d).1 = Some (Ok x) →
    incoming stores s x (delete i (se_pending s)).

Inductive b_step (stores : bstore → Prop) (s : session) : session → Prop :=
| step_update x pending m c : incoming stores s x pending → Update x (se_model s) = Ok (m, c) → b_step stores s (mkSession m (pending ++ [c])).

(** One input and everything it leads to, each command answered before the next input. *)
Fixpoint settle (n : nat) (st : bstore) (m : browseModel) (c : cmd) (d : edisk) : result browseModel * edisk :=
  let '(r, d) := run_cmd st (bm_maxView m) c d in
  match r with
  | None => (Ok m, d)
  | Some r =>
      match n with
      | O => (Diverge, d)
      | S n => match (x ← r; Update x m) with Ok (m, c) => settle n st m c d | r => (err_of r, d) end
      end
  end.
Definition input (st : bstore) (x : msg) (m : browseModel) (d : edisk) : result browseModel * edisk :=
  match Update x m with Ok (m, c) => settle 3 st m c d | r => (err_of r, d) end.
Fixpoint inputs (st : bstore) (xs : list msg) (m : browseModel) (d : edisk) : result browseModel * edisk :=
  match xs with
  | [] => (Ok m, d)
  | x :: xs => match input st x m d with (Ok m, d) => inputs st xs m d | r => r end
  end.

(** A session from its start. *)
Definition run_session (st : bstore) (m : browseModel) (xs : list msg) (d : edisk) : result browseModel * edisk :=
  match Init m with
  | Ok c => match settle 3 st m c d with (Ok m, d) => inputs st xs m d | r => r end
  | r => (err_of r, d)
  end.
End browse.
