(* ===== verification/BrowseFacts.v ===== *)
(** * The browser: what its updates keep, and where they panic *)

From Stdlib Require Import Init.Byte.
From coqutil Require Import Datatypes.RecordSetters.
From S2P Require Import Prelude Machine Key Chunkers FsEncode FsRead PackRecord Footer Packstore Inbox Text Sshsign Reference Refstore Gc Auth Server Routes Remote Posix Ingest Remotes Daemon Client Admin Browse.
From Stdlib Require Import ZifyBool ZifyNat.
Import TriangleBracketNotations.
Local Open Scope Z_scope.

(** Fields of an updated record. *)
Ltac fields := cbn [apply_update constant bm_cwd bm_maxView bm_stack bm_entries bm_cursor bm_listTop bm_width bm_height bm_mode bm_status bm_file
  bm_fileKey bm_input bm_exportIsDir bm_exportKey bm_exportName bm_refs bm_filter bm_refCursor bm_refFiltering bm_dirFilter bm_filtering bm_rootKey bm_rootName]; unfold constant.

Section facts.
Context `{Terminal} `{CborText} `{!TerminalLaws}.
Context (render : error → bytes).

(** ** Cursors *)
Definition in_list {A} (c : Z) (l : list A) : Prop := 0 <= c < Z.max 1 (zlen l).

Lemma cursor_down_in {A} c (l : list A) : in_list c l → in_list (cursor_down (zlen l) c) l.
Proof. unfold in_list, cursor_down. case_match; lia. Qed.
Lemma cursor_up_in {A} c (l : list A) : in_list c l → in_list (cursor_up c) l.
Proof. unfold in_list, cursor_up. case_match; lia. Qed.
Lemma cursor_end_in {A} (l : list A) : in_list (cursor_end (zlen l)) l.
Proof. unfold in_list, cursor_end. case_match; lia. Qed.
Lemma cursor_kept_in {A} c (l : list A) : 0 <= c → in_list (cursor_kept (zlen l) c) l.
Proof. unfold in_list, cursor_kept. case_match; lia. Qed.
Lemma cursor_zero_in {A} (l : list A) : in_list 0 l.
Proof. unfold in_list. lia. Qed.
Lemma index_in {A} c (l : list A) : in_list c l → l ≠ [] → ∃ a, index l c = Ok a ∧ l !! Z.to_nat c = Some a.
Proof.
  unfold in_list, index. intros Hc Hne. assert (0 < zlen l) by (destruct l; [done|cbn; lia]).
  destruct (lookup_lt_is_Some_2 l (Z.to_nat c)) as [a Ha]; [lia|]. exists a. replace (0 <=? c) with true by lia. by rewrite Ha.
Qed.

Lemma matching_nil {A} (name : A → bytes) l : matching name [] l = l.
Proof. unfold matching. rewrite ToLower_law. by rewrite bool_decide_eq_true_2. Qed.

Record cursors_ok (m : browseModel) : Prop := {
  co_cursor : in_list (bm_cursor m) (visibleEntries m);
  co_refCursor : in_list (bm_refCursor m) (filteredRefs m);
  co_frames : Forall (λ f, 0 <= fr_cursor f) (bm_stack m);
}.

(** The updates of one group of fields. *)
Lemma cursors_same m m' : cursors_ok m → bm_cursor m' = bm_cursor m → bm_entries m' = bm_entries m → ti_Value (bm_dirFilter m') = ti_Value (bm_dirFilter m) →
  bm_refCursor m' = bm_refCursor m → bm_refs m' = bm_refs m → ti_Value (bm_filter m') = ti_Value (bm_filter m) → bm_stack m' = bm_stack m → cursors_ok m'.
Proof. intros [Hc Hr Hf] E1 E2 E3 E4 E5 E6 E7. split; unfold visibleEntries, filteredRefs in *; by rewrite ?E1, ?E2, ?E3, ?E4, ?E5, ?E6, ?E7. Qed.

Lemma gotoRefs_cursors m : cursors_ok m → cursors_ok (gotoRefs m).1.
Proof. intros [Hc _ Hf]. split; [exact Hc|apply cursor_zero_in|exact Hf]. Qed.

Lemma removelast_Forall {A} (P : A → Prop) l : Forall P l → Forall P (removelast l).
Proof. intros Hl. destruct l as [|a l _] using rev_ind; [done|]. rewrite removelast_last. by apply Forall_app in Hl as [? _]. Qed.

Lemma openEntry_cursors e m m' c : cursors_ok m → openEntry render e m = Ok (m', c) → cursors_ok m'.
Proof.
  intros Hm. unfold openEntry, save_cursor. destruct (entryIsDir e).
  - destruct (cmd_parseHexKey _) as [k|err| |]; [|intros [= <- _]; by eapply cursors_same|done..].
    destruct (last (bm_stack m)) as [f|]; [|done]. intros [= <- _]. destruct Hm as [Hc Hr Hf]. split; [done..|]. fields.
    pose proof (co_cursor m ltac:(by split)) as [? _]. repeat apply Forall_app_2; [by apply removelast_Forall|by repeat constructor|by repeat constructor].
  - destruct (entryIsReg e); by intros [= <- _].
Qed.

Lemma openRef_cursors m m' c : cursors_ok m → openRef render m = Ok (m', c) → cursors_ok m'.
Proof.
  intros Hm. unfold openRef. case_bool_decide as Hne; [by intros [= <- _]|].
  destruct (index_in _ _ (co_refCursor m Hm) Hne) as (sel & -> & _). cbn [mbind result_bind].
  destruct (cmd_parseHexKey _) as [k|err| |]; [|intros [= <- _]; by eapply cursors_same|done..].
  destruct Hm as [Hc Hr _]. unfold filteredRefs in Hr. rewrite <- (ti_Blur_law (bm_filter m)) in Hr.
  destruct (isFileKey k); intros [= <- _]; (split; [exact Hc|exact Hr|by repeat constructor]).
Qed.

(** One branch for each key. *)
Local Ltac on_key := match goal with |- context [is_key ?k ?l] => destruct (is_key k l) end.

Lemma list_cursors k m m' c : cursors_ok m → updateListKey render k m = Ok (m', c) → cursors_ok m'.
Proof.
  intros Hm. pose proof Hm as [Hc Hr Hf]. unfold updateListKey. destruct (bm_filtering m).
  - unfold updateListFilterKey, stay, set_dirFilter.
    on_key; [by intros [= <- _]|]. on_key; [intros [= <- _]; split; [apply cursor_zero_in|done..]|].
    on_key. { case_bool_decide as Hne; [by intros [= <- _]|]. destruct (index_in _ _ Hc Hne) as (e & -> & _). by apply openEntry_cursors. }
    on_key; [intros [= <- _]; split; [by apply cursor_up_in|done..]|]. on_key; [intros [= <- _]; split; [by apply cursor_down_in|done..]|].
    intros [= <- _]. split; [apply cursor_kept_in; fields; apply Hc|done..].
  - unfold stay. on_key; [by intros [= <- _]|].
    on_key. { intros [= <- _]. eapply cursors_same; [exact Hm|done..| |done|done|done|done]. apply ti_Focus_law. }
    on_key; [intros [= <- _]; split; [by apply cursor_down_in|done..]|]. on_key; [intros [= <- _]; split; [by apply cursor_up_in|done..]|].
    on_key; [intros [= <- _]; split; [apply cursor_zero_in|done..]|]. on_key; [intros [= <- _]; split; [apply cursor_end_in|done..]|].
    on_key. { case_bool_decide as Hne; [by intros [= <- _]|]. destruct (index_in _ _ Hc Hne) as (e & -> & _). by apply openEntry_cursors. }
    on_key. { destruct (1 <? _)%nat; [|intros [= <- _]; by apply gotoRefs_cursors]. destruct (cur _) as [f|err| |]; [|done..].
              intros [= <- _]. split; [done..|]. by apply removelast_Forall. }
    on_key; [|by intros [= <- _]]. case_bool_decide as Hne; [by intros [= <- _]|]. destruct (index_in _ _ Hc Hne) as (e & -> & _). cbn [mbind result_bind].
    destruct (cmd_parseHexKey _) as [key|err| |]; [..|done|done]; intros [= <- _]; by eapply cursors_same.
Qed.

Lemma refs_cursors k m m' c : cursors_ok m → updateRefsKey render k m = Ok (m', c) → cursors_ok m'.
Proof.
  intros Hm. pose proof Hm as [Hc Hr Hf]. unfold updateRefsKey, stay. destruct (bm_refFiltering m).
  - unfold updateRefsFilterKey, stay.
    on_key; [by intros [= <- _]|]. on_key; [intros [= <- _]; split; [done|apply cursor_zero_in|done]|]. on_key; [by apply openRef_cursors|].
    on_key; [intros [= <- _]; split; [done|by apply cursor_up_in|done]|]. on_key; [intros [= <- _]; split; [done|by apply cursor_down_in|done]|].
    intros [= <- _]. split; [done|apply cursor_kept_in; fields; apply Hr|done].
  - on_key; [by intros [= <- _]|]. on_key. { intros [= <- _]. eapply cursors_same; [exact Hm|done..| |done]. apply ti_Focus_law. }
    on_key; [intros [= <- _]; split; [done|by apply cursor_down_in|done]|]. on_key; [intros [= <- _]; split; [done|by apply cursor_up_in|done]|].
    on_key; [intros [= <- _]; split; [done|apply cursor_zero_in|done]|]. on_key; [intros [= <- _]; split; [done|apply cursor_end_in|done]|].
    on_key; [by apply openRef_cursors|]. by intros [= <- _].
Qed.

Lemma file_cursors k m m' c : cursors_ok m → updateFileKey k m = Ok (m', c) → cursors_ok m'.
Proof.
  intros Hm. unfold updateFileKey, stay. on_key; [by intros [= <- _]|].
  on_key. { case_bool_decide; intros [= <- _]; [by apply gotoRefs_cursors|by eapply cursors_same]. }
  repeat (on_key; [intros [= <- _]; by eapply cursors_same|]). by intros [= <- _].
Qed.

Lemma export_cursors k m m' c : cursors_ok m → updateExportKey k m = Ok (m', c) → cursors_ok m'.
Proof. intros Hm. unfold updateExportKey, stay. repeat on_key; intros [= <- _]; by eapply cursors_same. Qed.

Lemma Update_cursors x m m' c : cursors_ok m → Update render x m = Ok (m', c) → cursors_ok m'.
Proof.
  intros Hm. destruct x as [w h|[e|es]|[e|f]|path err|[e|rs]|k|]; cbn [Update]; unfold stay; try (intros [= <- _]; by eapply cursors_same).
  - destruct (cur _) as [f|e| |] eqn:Hcur; [|done..]. intros [= <- _]. unfold cur in Hcur.
    destruct (last _) as [f'|] eqn:Hl; [|done]. injection Hcur as <-. destruct Hm as [Hc Hr Hf]. split; [|exact Hr|exact Hf].
    unfold visibleEntries, set_dirFilter. fields. rewrite ti_SetValue_law, matching_nil. apply cursor_kept_in.
    rewrite Forall_forall in Hf. apply Hf. change (last (bm_stack m) = Some f') in Hl. apply last_Some in Hl as [l ->]. apply elem_of_app. right. by left.
  - case_bool_decide; intros Hg; [|injection Hg as <- _; by eapply cursors_same].
    assert (m' = (gotoRefs (m <| bm_status := render e |>)).1) as -> by (by injection Hg as <- _). apply gotoRefs_cursors. by eapply cursors_same.
  - intros [= <- _]. destruct Hm as [Hc Hr Hf]. split; [done|apply cursor_zero_in|done].
  - unfold updateKey. destruct (bm_mode m); [by apply list_cursors|by apply file_cursors|by apply export_cursors|by apply refs_cursors].
Qed.

Lemma start_cursors cwd maxView mode : cursors_ok (empty_model cwd maxView mode).
Proof. split; [apply cursor_zero_in..|constructor]. Qed.

Lemma new_cursors cwd maxView root name : cursors_ok (newBrowseModel cwd maxView root name).
Proof.
  unfold newBrowseModel. destruct (isFileKey root); [by apply (cursors_same (empty_model cwd maxView modeList)); [apply start_cursors|..]|].
  destruct (start_cursors cwd maxView modeList) as [Hc Hr _]. split; [exact Hc|exact Hr|]. by repeat constructor.
Qed.

(** ** Panics *)
Lemma is_key_disjoint k l1 l2 : is_key k l1 = true → forallb (λ a, negb (existsb (String.eqb a) l2)) l1 = true → is_key k l2 = false.
Proof.
  unfold is_key. intros Hk%bool_decide_eq_true_1 Hd. apply bool_decide_eq_false_2. intros Hk2.
  apply list_elem_of_fmap in Hk as (a & Ha & Hin), Hk2 as (b & Hb & Hin2). rewrite Ha in Hb.
  assert (a = b) as <- by (rewrite <- (String.string_of_list_byte_of_string a), <- (String.string_of_list_byte_of_string b); by f_equal).
  rewrite forallb_forall in Hd. specialize (Hd a ltac:(by apply list_elem_of_In)). apply negb_true_iff in Hd.
  assert (existsb (String.eqb a) l2 = true) as He; [|congruence]. apply existsb_exists. exists a. split; [by apply list_elem_of_In|apply String.eqb_refl].
Qed.

(** A key that opens what the cursor is at. *)
Definition opens (k : keymsg) (m : browseModel) : bool := if bm_filtering m then is_key k ["enter"%string] else is_key k ["enter"; "l"; "right"]%string.

(** The message needs the top of an empty stack. *)
Definition stuck (x : msg) (m : browseModel) : Prop :=
  bm_stack m = [] ∧
  ((∃ es, x = dirLoadedMsg (inr es)) ∨
   ∃ k e key, x = KeyMsg k ∧ bm_mode m = modeList ∧ opens k m = true ∧ visibleEntries m !! Z.to_nat (bm_cursor m) = Some e ∧
     entryIsDir e = true ∧ cmd_parseHexKey (ls_Key e) = Ok key).

Definition outcome (u : update) (P : Prop) : Prop := match u with Ok _ => ¬ P | Panic => P | _ => False end.

Lemma hex_Decode_safe s : safe (hex_DecodeString s).
Proof.
  revert s. fix IH 1. intros [|a [|b s]]; [by split..|]. cbn [hex_DecodeString]. destruct (hex_digit a), (hex_digit b); try by split.
  specialize (IH s). by destruct (hex_DecodeString s) as [| | |]; destruct IH.
Qed.

Lemma parse_cases s : (∃ k, cmd_parseHexKey s = Ok k) ∨ ∃ e, cmd_parseHexKey s = Err e.
Proof.
  unfold cmd_parseHexKey. destruct (hex_Decode_safe s) as [Hp Hd]. destruct (hex_DecodeString s) as [raw|e| |]; [|right; by eexists|done..].
  cbn [mbind result_bind]. destruct (Parse_safe raw) as [Hp' Hd']. destruct (Key.Parse raw) as [k|e| |]; [left; by eexists|right; by eexists|done..].
Qed.

Lemma openEntry_outcome e m : outcome (openEntry render e m) (bm_stack m = [] ∧ entryIsDir e = true ∧ ∃ key, cmd_parseHexKey (ls_Key e) = Ok key).
Proof.
  unfold openEntry, save_cursor. destruct (entryIsDir e).
  - destruct (parse_cases (ls_Key e)) as [[k ->]|[err ->]]; [|intros (_ & _ & k & [=])].
    destruct (last (bm_stack m)) as [f|] eqn:Hl; cbn.
    + intros [Hs _]. by rewrite Hs in Hl.
    + apply last_None in Hl. eauto.
  - destruct (entryIsReg e); by intros (_ & [=] & _).
Qed.

Lemma openRef_outcome m : cursors_ok m → outcome (openRef render m) False.
Proof.
  intros Hm. unfold openRef. case_bool_decide as Hne; [by intros []|]. destruct (index_in _ _ (co_refCursor m Hm) Hne) as (sel & -> & _). cbn [mbind result_bind].
  destruct (parse_cases (ri_Key sel)) as [[k ->]|[err ->]]; [|by intros []]. destruct (isFileKey k); by intros [].
Qed.

(** Opening what the cursor is at. *)
Lemma open_selected_outcome m : cursors_ok m →
  outcome (if bool_decide (visibleEntries m = []) then stay m else e ← index (visibleEntries m) (bm_cursor m); openEntry render e m)
    (bm_stack m = [] ∧ ∃ e key, visibleEntries m !! Z.to_nat (bm_cursor m) = Some e ∧ entryIsDir e = true ∧ cmd_parseHexKey (ls_Key e) = Ok key).
Proof.
  intros Hm. case_bool_decide as Hne; [rewrite Hne; by intros (_ & e & key & [=] & _)|].
  destruct (index_in _ _ (co_cursor m Hm) Hne) as (e & -> & He). cbn [mbind result_bind]. pose proof (openEntry_outcome e m) as Ho. unfold outcome in *.
  destruct (openEntry render e m); [|done| |done].
  - intros (Hs & e' & key & He' & Hd & Hk). apply Ho. rewrite He in He'. injection He' as <-. eauto.
  - destruct Ho as (Hs & Hd & key & Hk). eauto 10.
Qed.

Lemma outcome_iff u (P Q : Prop) : outcome u P → (P ↔ Q) → outcome u Q.
Proof. unfold outcome. destruct u; tauto. Qed.

Lemma list_outcome k m : cursors_ok m → bm_mode m = modeList → outcome (updateListKey render k m) (stuck (KeyMsg k) m).
Proof.
  intros Hm Hmode.
  assert (∀ u, opens k m = false → outcome u False → outcome u (stuck (KeyMsg k) m)) as Hno.
  { intros u Ho Hu. eapply outcome_iff; [exact Hu|]. split; [done|]. intros (_ & [[es [=]]|(k' & e & key & [= <-] & _ & Hop & _)]). congruence. }
  assert (opens k m = true → stuck (KeyMsg k) m ↔ bm_stack m = [] ∧
    ∃ e key, visibleEntries m !! Z.to_nat (bm_cursor m) = Some e ∧ entryIsDir e = true ∧ cmd_parseHexKey (ls_Key e) = Ok key) as Hyes.
  { intros Ho. unfold stuck. split.
    - intros (Hs & [[es [=]]|(k' & e & key & [= <-] & _ & _ & Hrest)]). eauto.
    - intros (Hs & e & key & He & Hd & Hk). split; [done|]. right. by exists k, e, key. }
  unfold updateListKey, updateListFilterKey, opens, stay in *. destruct (bm_filtering m).
  - destruct (is_key k ["ctrl+c"%string]) eqn:E1; [apply Hno; [by eapply is_key_disjoint|by intros []]|].
    destruct (is_key k ["esc"%string]) eqn:E2; [apply Hno; [by eapply is_key_disjoint|by intros []]|].
    destruct (is_key k ["enter"%string]) eqn:E3. { eapply outcome_iff; [by apply open_selected_outcome|]. symmetry. by apply Hyes. }
    destruct (is_key k ["up"%string]); [by apply Hno; [|intros []]|]. destruct (is_key k ["down"%string]); by apply Hno; [|intros []].
  - destruct (is_key k ["ctrl+c"; "q"]%string) eqn:E1; [apply Hno; [by eapply is_key_disjoint|by intros []]|].
    destruct (is_key k ["/"; "f"]%string) eqn:E2; [apply Hno; [by eapply is_key_disjoint|by intros []]|].
    destruct (is_key k ["down"; "j"]%string) eqn:E3; [apply Hno; [by eapply is_key_disjoint|by intros []]|].
    destruct (is_key k ["up"; "k"]%string) eqn:E4; [apply Hno; [by eapply is_key_disjoint|by intros []]|].
    destruct (is_key k ["home"]%string) eqn:E5; [apply Hno; [by eapply is_key_disjoint|by intros []]|].
    destruct (is_key k ["end"]%string) eqn:E6; [apply Hno; [by eapply is_key_disjoint|by intros []]|].
    destruct (is_key k ["enter"; "l"; "right"]%string) eqn:E7. { eapply outcome_iff; [by apply open_selected_outcome|]. symmetry. by apply Hyes. }
    apply Hno; [done|]. on_key.
    { destruct (1 <? length (bm_stack m))%nat eqn:E; [|by intros []]. apply Nat.ltb_lt in E. unfold cur. fields.
      destruct (bm_stack m) as [|f l _] using rev_ind; [cbn in E; lia|]. rewrite length_app in E. cbn in E. rewrite removelast_last.
      destruct (last l) as [f'|] eqn:Hl; [by intros []|]. apply last_None in Hl. subst l. cbn in E. lia. }
    on_key; [|by intros []]. case_bool_decide as Hne; [by intros []|]. destruct (index_in _ _ (co_cursor m Hm) Hne) as (e & -> & _). cbn [mbind result_bind].
    destruct (parse_cases (ls_Key e)) as [[key ->]|[err ->]]; by intros [].
Qed.

Lemma refs_outcome k m : cursors_ok m → outcome (updateRefsKey render k m) False.
Proof.
  intros Hm. unfold updateRefsKey, updateRefsFilterKey, stay. destruct (bm_refFiltering m).
  - on_key; [by intros []|]. on_key; [by intros []|]. on_key; [by apply openRef_outcome|]. repeat (on_key; [by intros []|]). by intros [].
  - repeat (on_key; [first [by intros []|by apply openRef_outcome]|]). by intros [].
Qed.
Lemma file_outcome k m : outcome (updateFileKey k m) False.
Proof. unfold updateFileKey, stay. repeat (on_key; [first [by intros []|by case_bool_decide; intros []]|]). by intros []. Qed.
Lemma export_outcome k m : outcome (updateExportKey k m) False.
Proof. unfold updateExportKey, stay. repeat (on_key; [by intros []|]). by intros []. Qed.

Lemma Update_outcome x m : cursors_ok m → outcome (Update render x m) (stuck x m).
Proof.
  intros Hm. assert (∀ u, outcome u False → (∀ es, x ≠ dirLoadedMsg (inr es)) → (∀ k, x = KeyMsg k → bm_mode m ≠ modeList) → outcome u (stuck x m)) as Hno.
  { intros u Hu Hd Hk. eapply outcome_iff; [exact Hu|]. split; [done|]. intros (_ & [[es Hes]|(k & e & key & Hx & Hl & _)]); [by eapply Hd|by eapply Hk]. }
  destruct x as [w h|[e|es]|[e|f]|path err|[e|rs]|k|]; cbn [Update]; unfold stay; try (apply Hno; [by intros []|done..]).
  - unfold cur, set_dirFilter. fields. fold (bm_stack m). destruct (last (bm_stack m)) as [f|] eqn:Hl; cbn.
    + intros [Hs _]. by rewrite Hs in Hl.
    + apply last_None in Hl. split; [done|]. left. by eexists.
  - apply Hno; [case_bool_decide; by intros []|done..].
  - unfold updateKey. destruct (bm_mode m) eqn:Hmode; [by apply list_outcome|..]; (apply Hno; [|done|intros ? _; congruence]).
    + apply file_outcome.
    + apply export_outcome.
    + by apply refs_outcome.
Qed.

(** ** Sessions among directories *)
Definition no_file_ref (r : RefInfo) : Prop := ∀ k, cmd_parseHexKey (ri_Key r) = Ok k → isFileKey k = false.

(** A command that answers with a directory or a file. *)
Definition is_load (c : cmd) : bool := match c with loadDir _ | badFile _ | fetchFile _ _ _ => true | _ => false end.

Record in_dirs (m : browseModel) (pending : list cmd) : Prop := {
  id_refs : Forall no_file_ref (bm_refs m);
  id_stack : bm_stack m ≠ [] ∨ bm_mode m = modeRefs ∧ Forall (λ c, is_load c = false) pending;
}.

(** The message brings only references to directories, and with an empty stack it is
    neither a directory nor a file. *)
Definition dir_message (x : msg) (m : browseModel) : Prop :=
  match x with
  | refsLoadedMsg (inr rs) => Forall no_file_ref rs
  | dirLoadedMsg _ | fileLoadedMsg _ => bm_stack m ≠ []
  | _ => True
  end.

Lemma stack_snoc {A} (l : list A) a : l ++ [a] ≠ [].
Proof. by destruct l. Qed.

Lemma openEntry_dirs e m m' c : bm_stack m ≠ [] → openEntry render e m = Ok (m', c) → bm_stack m' ≠ [] ∧ bm_refs m' = bm_refs m.
Proof.
  intros Hs. unfold openEntry, save_cursor, stay. destruct (entryIsDir e).
  - destruct (cmd_parseHexKey _) as [k|err| |]; [|by intros [= <- _]|done..]. destruct (last _); [|done]. intros [= <- _]. split; [apply stack_snoc|done].
  - destruct (entryIsReg e); by intros [= <- _].
Qed.

Lemma openRef_dirs m m' c : cursors_ok m → Forall no_file_ref (bm_refs m) → openRef render m = Ok (m', c) →
  (bm_stack m' ≠ [] ∨ bm_stack m' = bm_stack m ∧ bm_mode m' = bm_mode m ∧ is_load c = false) ∧ bm_refs m' = bm_refs m.
Proof.
  intros Hm Hr. unfold openRef, stay. case_bool_decide as Hne; [intros [= <- <-]; by split; [right|]|].
  destruct (index_in _ _ (co_refCursor m Hm) Hne) as (sel & -> & Hsel). cbn [mbind result_bind].
  assert (no_file_ref sel) as Hno.
  { rewrite Forall_forall in Hr. apply Hr. apply list_elem_of_lookup_2 in Hsel. unfold filteredRefs, matching in Hsel.
    case_bool_decide; [done|]. by apply list_elem_of_filter in Hsel as [_ ?]. }
  destruct (cmd_parseHexKey _) as [k|err| |] eqn:Hk; [|intros [= <- <-]; by split; [right|]|done..].
  rewrite (Hno k Hk). intros [= <- <-]. split; [by left|done].
Qed.

(** What an update leaves of a session among directories. *)
Definition dirs_kept (m m' : browseModel) (c : cmd) : Prop :=
  Forall no_file_ref (bm_refs m') ∧
  (bm_stack m ≠ [] → bm_stack m' ≠ []) ∧
  (bm_stack m = [] → bm_mode m = modeRefs → bm_stack m' ≠ [] ∨ bm_mode m' = modeRefs ∧ is_load c = false).

Lemma dirs_same m m' c : Forall no_file_ref (bm_refs m) → bm_refs m' = bm_refs m → bm_stack m' = bm_stack m → bm_mode m' = bm_mode m → is_load c = false → dirs_kept m m' c.
Proof. intros Hr E1 E2 E3 Hc. unfold dirs_kept. rewrite E1, E2, E3. auto. Qed.
Lemma dirs_stack m m' c : Forall no_file_ref (bm_refs m) → bm_refs m' = bm_refs m → (bm_stack m ≠ [] → bm_stack m' ≠ []) → bm_mode m ≠ modeRefs → dirs_kept m m' c.
Proof. intros Hr E1 E2 E3. unfold dirs_kept. rewrite E1. split_and!; done. Qed.

Lemma list_dirs k m m' c : bm_mode m = modeList → Forall no_file_ref (bm_refs m) → updateListKey render k m = Ok (m', c) → dirs_kept m m' c.
Proof.
  intros Hmode Hr Hu. assert (bm_refs m' = bm_refs m ∧ (bm_stack m ≠ [] → bm_stack m' ≠ [])) as [Hra Hrb]; [|apply dirs_stack; [done..|by rewrite Hmode]].
  assert (∀ l i, (if bool_decide (l = []) then stay m else e ← index l i; openEntry render e m) = Ok (m', c) →
    bm_refs m' = bm_refs m ∧ (bm_stack m ≠ [] → bm_stack m' ≠ [])) as Hopen.
  { intros l i. case_bool_decide; [by intros [= <- _]|]. destruct (index l i) as [e| | |]; [|done..]. cbn [mbind result_bind]. intros Ho.
    destruct (bm_stack m) as [|f l'] eqn:E; [|destruct (openEntry_dirs e m m' c) as [? ->]; [by rewrite E|done..]].
    split; [|done]. revert Ho. unfold openEntry, save_cursor, stay. rewrite E. destruct (entryIsDir e).
    - by destruct (cmd_parseHexKey _) as [key|err| |]; [..|intros [= <- _]| |].
    - destruct (entryIsReg e); by intros [= <- _]. }
  revert Hu. unfold updateListKey, updateListFilterKey, stay in *. destruct (bm_filtering m).
  - on_key; [by intros [= <- _]|]. on_key; [by intros [= <- _]|]. on_key; [apply Hopen|]. repeat (on_key; [by intros [= <- _]|]). by intros [= <- _].
  - on_key; [by intros [= <- _]|]. on_key; [by intros [= <- _]|]. on_key; [by intros [= <- _]|]. on_key; [by intros [= <- _]|].
    on_key; [by intros [= <- _]|]. on_key; [by intros [= <- _]|]. on_key; [apply Hopen|]. on_key.
    { destruct (1 <? length (bm_stack m))%nat; [|by intros [= <- _]]. unfold cur. fields. destruct (last _) as [f|] eqn:Hl; [|done]. intros [= <- _].
      split; [done|]. intros _. fields. intros Hn. change (removelast (bm_stack m) = []) in Hn. fold (bm_stack m) in Hl. by rewrite Hn in Hl. }
    on_key; [|by intros [= <- _]]. case_bool_decide; [by intros [= <- _]|]. destruct (index _ _) as [e| | |]; [|done..]. cbn [mbind result_bind].
    destruct (cmd_parseHexKey _); [by intros [= <- _]|by intros [= <- _]|done..].
Qed.

Lemma refs_dirs k m m' c : cursors_ok m → Forall no_file_ref (bm_refs m) → updateRefsKey render k m = Ok (m', c) → dirs_kept m m' c.
Proof.
  intros Hm Hr. assert (openRef render m = Ok (m', c) → dirs_kept m m' c) as Hopen.
  { intros Ho. destruct (openRef_dirs m m' c Hm Hr Ho) as [Hs E]. unfold dirs_kept. rewrite E. split; [done|].
    destruct Hs as [Hs|(E1 & E2 & E3)]; [by split; [|left]|]. rewrite E1, E2. auto. }
  unfold updateRefsKey, updateRefsFilterKey, stay. destruct (bm_refFiltering m).
  - on_key; [by intros [= <- <-]; apply dirs_same|]. on_key; [by intros [= <- <-]; apply dirs_same|]. on_key; [apply Hopen|].
    repeat (on_key; [by intros [= <- <-]; apply dirs_same|]). by intros [= <- <-]; apply dirs_same.
  - repeat (on_key; [first [by intros [= <- <-]; apply dirs_same|apply Hopen]|]). by intros [= <- <-]; apply dirs_same.
Qed.

Lemma Update_dirs x m m' c : cursors_ok m → Forall no_file_ref (bm_refs m) → dir_message x m → Update render x m = Ok (m', c) → dirs_kept m m' c.
Proof.
  intros Hm Hr Hx. destruct x as [w h|[e|es]|[e|f]|path err|[e|rs]|k|]; cbn [Update dir_message] in *; unfold stay;
    try (intros [= <- <-]; by apply dirs_same).
  - unfold cur. destruct (last _); [|done]. intros [= <- <-]. by apply dirs_same.
  - rewrite bool_decide_eq_false_2 by done. intros [= <- <-]. split_and!; done.
  - intros [= <- <-]. split_and!; done.
  - intros [= <- <-]. split_and!; [done..|]. intros ? ?. by right.
  - unfold updateKey. destruct (bm_mode m) eqn:Hmode; [by apply list_dirs|..|by apply refs_dirs].
    + intros Hu. apply dirs_stack; [done|..|by rewrite Hmode]; revert Hu; unfold updateFileKey, stay.
      * on_key; [by intros [= <- _]|]. on_key; [case_bool_decide; by intros [= <- _]|]. repeat (on_key; [by intros [= <- _]|]). by intros [= <- _].
      * on_key; [by intros [= <- _]|]. on_key; [case_bool_decide; by intros [= <- _]|]. repeat (on_key; [by intros [= <- _]|]). by intros [= <- _].
    + intros Hu. apply dirs_stack; [done|..|by rewrite Hmode]; revert Hu; unfold updateExportKey, stay; repeat (on_key; [by intros [= <- _]|]); by intros [= <- _].
Qed.

(** ** Reachable sessions *)
Inductive started : session → Prop :=
| started_root cwd maxView root name c :
    Init (newBrowseModel cwd maxView root name) = Ok c → started (mkSession (newBrowseModel cwd maxView root name) [c])
| started_refs cwd maxView : started (mkSession (newRefPickerModel cwd maxView) [loadRefs]).

Lemma reached_cursors stores s0 s : started s0 → rtc (b_step render stores) s0 s → cursors_ok (se_model s).
Proof.
  intros H0' Hr. assert (cursors_ok (se_model s0)) as Hs by (destruct H0'; [apply new_cursors|apply start_cursors]). clear H0'.
  induction Hr as [s|s s1 s2 Hstep _ IH]; [done|]. apply IH. destruct Hstep as [x pending m c _ Hu]. by eapply Update_cursors.
Qed.

(** A session over directories: it is not opened at a file, and no listing of references
    has one to a file. *)
Definition over_dirs (stores : bstore → Prop) (s0 : session) : Prop :=
  bm_mode (se_model s0) ≠ modeFile ∧ ∀ st rs, stores st → bs_ListRefs st = Ok rs → Forall no_file_ref rs.

Lemma started_dirs s0 : started s0 → bm_mode (se_model s0) ≠ modeFile → in_dirs (se_model s0) (se_pending s0).
Proof.
  intros Hs Hm. destruct Hs as [cwd maxView root name c Hi|cwd maxView]; cbn [se_model se_pending] in *.
  - unfold newBrowseModel in *. destruct (isFileKey root); [by destruct Hm|]. split; [by constructor|]. by left.
  - split; [by constructor|]. right. split; [done|]. by repeat constructor.
Qed.

Lemma incoming_dir stores s x pending : (∀ st rs, stores st → bs_ListRefs st = Ok rs → Forall no_file_ref rs) →
  in_dirs (se_model s) (se_pending s) → incoming stores s x pending →
  dir_message x (se_model s) ∧ (bm_stack (se_model s) = [] → ∀ c, is_load c = false → Forall (λ c, is_load c = false) (pending ++ [c])).
Proof.
  intros Href [_ Hst] Hin.
  assert (∀ c l, (bm_stack (se_model s) = [] → Forall (λ c, is_load c = false) l) → bm_stack (se_model s) = [] → is_load c = false → Forall (λ c, is_load c = false) (l ++ [c])) as Hall.
  { intros c l Hl Hs Hc. apply Forall_app. split; [by apply Hl|by repeat constructor]. }
  destruct Hin as [x Hx|i c st d x Hi Hst' Hrun].
  - split; [by destruct x as [| | | |[]| |]|]. intros Hs c Hc. apply Hall; [|done..]. intros _. by destruct Hst as [?|[_ ?]].
  - split.
    + assert (∀ a, c = loadRefs → (answered (bs_ListRefs st) ≫= λ r, Ok (@refsLoadedMsg _ r)) = Ok a → dir_message a (se_model s)) as Hrefs.
      { intros a _ Ha. destruct (bs_ListRefs st) as [rs|e| |] eqn:E; try done; injection Ha as <-; [by eapply Href|done]. }
      assert (is_load c = true → bm_stack (se_model s) ≠ []) as Hload.
      { intros Hc. destruct Hst as [?|[_ Hf]]; [done|]. rewrite Forall_forall in Hf. specialize (Hf c ltac:(by eapply list_elem_of_lookup_2)). cbn in Hf. congruence. }
      destruct c as [| |k|e|k name size| |b k path|]; cbn in Hrun; try done.
      * injection Hrun as Hrun. destruct (answered _) as [r| | |]; try done. injection Hrun as <-. by apply Hload.
      * injection Hrun as <-. by apply Hload.
      * injection Hrun as Hrun. unfold run_fetchFile in Hrun. destruct (answered _) as [[e|data]| | |]; try done; cbn in Hrun.
        -- injection Hrun as <-. by apply Hload.
        -- destruct (zlen data >? _); [destruct (_ <? 0); [done|]|]; injection Hrun as <-; by apply Hload.
      * injection Hrun as Hrun. by apply Hrefs.
      * destruct (run_export st b k path d) as [r d'] eqn:He. injection Hrun as ->. revert He. unfold run_export.
        destruct (ed_Create path d) as [[u|e| |] d1]; try done; [|by intros [= <- _]].
        destruct (if b then bs_Tar st k else bs_File st k) as [[body rerr]|e| |]; try done; [|by intros [= <- _]].
        destruct (ed_Copy path body rerr d1) as [[u'|e| |] d2]; try done; by intros [= <- _].
      * by injection Hrun as <-.
    + intros Hs c' Hc'. apply Hall; [|done..]. intros _. destruct Hst as [?|[_ Hf]]; [done|]. by apply Forall_delete.
Qed.

Lemma step_dirs stores s s' : cursors_ok (se_model s) → (∀ st rs, stores st → bs_ListRefs st = Ok rs → Forall no_file_ref rs) →
  in_dirs (se_model s) (se_pending s) → b_step render stores s s' → in_dirs (se_model s') (se_pending s').
Proof.
  intros Hm Href Hd Hstep. destruct Hstep as [x pending m c Hin Hu]. destruct (incoming_dir stores s x pending Href Hd Hin) as [Hx Hp].
  destruct (Update_dirs x _ m c Hm (id_refs _ _ Hd) Hx Hu) as (Hr & Hk1 & Hk2). split; [done|]. cbn [se_model se_pending].
  destruct (id_stack _ _ Hd) as [Hs|[Hs Hl]]; [left; by apply Hk1|].
  destruct (decide (bm_stack (se_model s) = [])) as [E|E]; [|left; by apply Hk1]. destruct (Hk2 E Hs) as [?|[? Hc]]; [by left|]. right. split; [done|]. by apply Hp.
Qed.

Lemma reached_dirs stores s0 s : started s0 → over_dirs stores s0 → rtc (b_step render stores) s0 s → in_dirs (se_model s) (se_pending s).
Proof.
  intros H0' [Hm Href] Hr. pose proof (started_dirs s0 H0' Hm) as Hd. assert (cursors_ok (se_model s0)) as Hc by (destruct H0'; [apply new_cursors|apply start_cursors]).
  clear H0' Hm. induction Hr as [s|s s1 s2 Hstep _ IH]; [done|]. apply IH.
  - by eapply step_dirs.
  - destruct Hstep as [x pending m c _ Hu]. by eapply Update_cursors.
Qed.

Lemma in_dirs_not_stuck stores s x pending : (∀ st rs, stores st → bs_ListRefs st = Ok rs → Forall no_file_ref rs) →
  in_dirs (se_model s) (se_pending s) → incoming stores s x pending → ¬ stuck x (se_model s).
Proof.
  intros Href Hd Hin (Hs & Hx). destruct (incoming_dir stores s x pending Href Hd Hin) as [Hmsg _]. destruct Hx as [[es ->]|(k & e & key & -> & Hmode & _)]; [done|].
  destruct (id_stack _ _ Hd) as [?|[? _]]; [done|congruence].
Qed.

(** What a command answers when the store does. *)
Definition answers_all (st : bstore) : Prop :=
  (∀ k, safe (bs_Ls st k)) ∧ (∀ k, safe (bs_File st k)) ∧ (∀ k, safe (bs_Tar st k)) ∧ safe (bs_ListRefs st).

Lemma answered_safe {A} (r : result A) : safe r → ∃ a, answered r = Ok a.
Proof. destruct r; intros [? ?]; try done; by eexists. Qed.

Lemma ed_Create_safe path d : safe (ed_Create path d).1.
Proof. unfold ed_Create. destruct (ed_pop d) as [[[e n]|] d']; [by split|]. case_bool_decide; by split. Qed.
Lemma ed_Copy_safe path body rerr d : safe (ed_Copy path body rerr d).1.
Proof. unfold ed_Copy. destruct (ed_pop d) as [[[e n]|] d']; [by split|]. destruct rerr; by split. Qed.

Lemma run_export_answers st isDir k path d : (∀ k, safe (bs_File st k)) → (∀ k, safe (bs_Tar st k)) →
  ∃ err, (run_export st isDir k path d).1 = Ok (exportDoneMsg path err).
Proof.
  intros Hf Ht. unfold run_export. destruct (ed_Create_safe path d) as [Hp Hd]. destruct (ed_Create path d) as [[u|e| |] d1]; cbn in Hp, Hd; try done; [|by eexists].
  assert (safe (if isDir then bs_Tar st k else bs_File st k)) as [Hp1 Hd1] by (destruct isDir; auto).
  destruct (if isDir then bs_Tar st k else bs_File st k) as [[body rerr]|e| |]; try done; [|by eexists].
  destruct (ed_Copy_safe path body rerr d1) as [Hp2 Hd2]. destruct (ed_Copy path body rerr d1) as [[u'|e| |] d2]; cbn in Hp2, Hd2; try done; by eexists.
Qed.

Lemma run_cmd_answers st cap c d : answers_all st → 0 <= cap → match (run_cmd st cap c d).1 with Some r => ∃ x, r = Ok x | None => True end.
Proof.
  intros Hst Hcap. pose proof Hst as (Hl & Hf & Ht & Hr). destruct c as [| |k|e|k name size| |b k path|]; cbn; try done; try by eexists.
  - destruct (answered_safe _ (Hl k)) as [a ->]. by eexists.
  - unfold run_fetchFile. destruct (answered_safe ('(body, rerr) ← bs_File st k; read_limited (i64 (cap + 1)) body rerr)) as [[e|data] ->]; cbn; try by eexists.
    + destruct (Hf k) as [Hp Hd]. destruct (bs_File st k) as [[body rerr]|e| |]; try done. cbn. unfold read_limited. destruct (zlen body <? _); [destruct rerr|]; by split.
    + destruct (zlen data >? cap); [replace (cap <? 0) with false by lia|]; by eexists.
  - destruct (answered_safe _ Hr) as [a ->]. by eexists.
  - destruct (run_export_answers st b k path d Hf Ht) as [err He]. destruct (run_export st b k path d) as [r d']. cbn in He. subst r. by eexists.
Qed.

(** C37. Where the browser can stop with a panic.  After any messages, whatever the
    terminal sends, whatever the store answers and in whatever order the commands under
    way answer: the cursors are within the lists that are shown; the next message
    panics exactly when the stack of directories is empty and the message is the
    listing of a directory or the key that opens a directory of the list, which is the
    one that the cursor is at; a session that is not opened at a file and never sees a
    reference to a file does not panic at all; and no command panics while the store
    answers and the cap on what is fetched is not negative. *)
Theorem browse_panics stores s0 s x pending :
  started s0 → rtc (b_step render stores) s0 s → incoming stores s x pending →
  let m := se_model s in
  in_list (bm_cursor m) (visibleEntries m) ∧ in_list (bm_refCursor m) (filteredRefs m) ∧
  (Update render x m = Panic ↔ stuck x m) ∧
  (¬ stuck x m → ∃ m' c, Update render x m = Ok (m', c)) ∧
  (over_dirs stores s0 → ¬ stuck x m) ∧
  (∀ st c d, answers_all st → 0 <= bm_maxView m → match (run_cmd st (bm_maxView m) c d).1 with Some r => ∃ x, r = Ok x | None => True end).
Proof.
  intros H0' Hr Hin m. subst m. pose proof (reached_cursors stores s0 s H0' Hr) as Hc. pose proof (Update_outcome x _ Hc) as Ho. unfold outcome in Ho.
  split_and!; [apply Hc|apply Hc|..].
  - destruct (Update render x (se_model s)); [|done|by split|done]. split; [discriminate|]. intros Hs. by destruct Ho.
  - intros Hn. destruct (Update render x (se_model s)) as [[m1 c1]|e| |]; [by exists m1, c1|done|by destruct Hn|done].
  - intros Hov. eapply in_dirs_not_stuck; [apply Hov|by eapply reached_dirs|done].
  - intros st c d Hst Hcap. by apply run_cmd_answers.
Qed.
End facts.

(** ** Applications *)

(** Keys are their names, an input is its text, and letters are lowered in ASCII. *)
Definition ascii_lower (s : bytes) : bytes := (λ c, if (65 <=? b2z c) && (b2z c <=? 90) then z2b (b2z c + 32) else c) <$> s.
Definition terminal_example : Terminal := {|
  keymsg := bytes; key_String := id; tinput := bytes; ti_New := λ _, []; ti_Value := id; ti_SetValue := λ v _, v; ti_CursorEnd := id;
  ti_Focus := id; ti_Blur := id; ti_Update := λ k t, t ++ k; ti_View := id; ToLower := ascii_lower;
|}.
#[local] Existing Instance terminal_example.
Lemma terminal_example_laws : TerminalLaws.
Proof. by split. Qed.
#[local] Existing Instance terminal_example_laws.
Definition cbor_text_example : CborText := {| cbor_Unmarshal := λ _, Err (errors_New "EOF"); fmt_v := λ _, []; MarshalIndent := λ _, Ok [] |}.
#[local] Existing Instance cbor_text_example.

Definition no_text : error → bytes := λ _, [].
Definition dir_a : Key := to_key ([x20; x01; x0a] ++ replicate 29 x00).
Definition dir_b : Key := to_key ([x20; x01; x0b] ++ replicate 29 x00).
Definition file_c : Key := to_key ([x00; x02; x0c] ++ replicate 29 x00).
Definition entry_of (name : string) (mode : Z) (k : Key) : lsEntry := mkLs (str name) mode 0 0 0 0 (hex_EncodeToString (kb k)) [] [].
Definition ref_of (name : string) (k : Key) : RefInfo := Daemon.mkRefInfo (str name) (hex_EncodeToString (kb k)) [] [] false.

(** A directory with a directory in it, and a reference to each of it and of a file. *)
Definition browsed (refs : list RefInfo) : bstore := mkBstore
  (λ k, if bool_decide (k = dir_a) then Ok [entry_of "sub" 0x41ED dir_b] else Ok [entry_of "note" 0x81A4 file_c])
  (λ _, Ok (str "hi", None)) (λ _, Ok ([], None)) (Ok refs).
Definition keys_of (l : list string) : list msg := KeyMsg <$> (str <$> l).

Definition opened_refs (refs : list RefInfo) : browseModel :=
  match settle no_text 3 (browsed refs) (newRefPickerModel (str "/tmp") 100) loadRefs (mkEdisk ∅ []) with (Ok m, _) => m | _ => newRefPickerModel [] 0 end.

(** Leaving the export prompt of a file that was opened from the list of references
    leads to the list of the directory that was shown before, without its stack: the
    key that opens an entry stops the browser. *)
Example export_prompt_panics :
  (inputs no_text (browsed [ref_of "a" dir_a; ref_of "c" file_c]) (keys_of ["enter"; "esc"; "down"; "enter"; "e"; "esc"; "enter"])
     (opened_refs [ref_of "a" dir_a; ref_of "c" file_c]) (mkEdisk ∅ [])).1 = Panic.
Proof. vm_compute. reflexivity. Qed.

(** The listing of a directory that arrives after a reference to a file is opened. *)
Example late_listing_panics :
  let '(m, c) := match (m ← (inputs no_text (browsed []) (keys_of ["down"]) (opened_refs [ref_of "a" dir_a; ref_of "c" file_c]) (mkEdisk ∅ [])).1;
                        Update no_text (KeyMsg (str "enter")) m) with Ok p => p | _ => (newRefPickerModel [] 0, NoCmd) end in
  bm_stack m = [] ∧ (c = fetchFile file_c (str "ref:c") 2) ∧ Update no_text (dirLoadedMsg (inr [])) m = Panic.
Proof. vm_compute. split_and!; reflexivity. Qed.

(** A directory is opened and left again before it is listed.  When its listing is the
    second to arrive, it is shown under the path of its parent. *)
Example late_listing_shown :
  let step := λ x r, '(m, _) ← r; Update no_text x m in
  let start := (newBrowseModel (str "/tmp") 100 dir_a (str "root"), NoCmd) in
  let ls := λ k, match bs_Ls (browsed []) k with Ok es => dirLoadedMsg (inr es) | _ => OtherMsg end in
  match step (ls dir_b) (step (ls dir_a) (step (KeyMsg (str "esc")) (step (KeyMsg (str "enter")) (step (ls dir_a) (Ok start))))) with
  | Ok (m, _) => bm_stack m = [mkFrame dir_a (str "root") 0] ∧ bm_entries m = [entry_of "note" 0x81A4 file_c]
  | _ => False
  end.
Proof. vm_compute. split; reflexivity. Qed.

Lemma browse_panics_witness :
  let m := newBrowseModel (str "/tmp") 100 dir_a (str "root") in
  let s := mkSession m [loadDir dir_a] in
  let stores := λ st, st = browsed [ref_of "a" dir_a] in
  incoming stores s (dirLoadedMsg (inr [entry_of "sub" 0x41ED dir_b])) [] ∧ ¬ stuck (dirLoadedMsg (inr [entry_of "sub" 0x41ED dir_b])) m.
Proof.
  assert (incoming (λ st, st = browsed [ref_of "a" dir_a]) (mkSession (newBrowseModel (str "/tmp") 100 dir_a (str "root")) [loadDir dir_a])
    (dirLoadedMsg (inr [entry_of "sub" 0x41ED dir_b])) []) as Hin.
  { exact (in_answer _ (mkSession (newBrowseModel (str "/tmp") 100 dir_a (str "root")) [loadDir dir_a]) 0 (loadDir dir_a) (browsed [ref_of "a" dir_a]) (mkEdisk ∅ []) _ eq_refl eq_refl eq_refl). }
  split; [exact Hin|].
  destruct (browse_panics no_text (λ st, st = browsed [ref_of "a" dir_a]) (mkSession (newBrowseModel (str "/tmp") 100 dir_a (str "root")) [loadDir dir_a])
    (mkSession (newBrowseModel (str "/tmp") 100 dir_a (str "root")) [loadDir dir_a])
    (dirLoadedMsg (inr [entry_of "sub" 0x41ED dir_b])) []) as (_ & _ & _ & _ & Hov & _);
    [by apply started_root|apply rtc_refl|exact Hin|].
  apply Hov. split; [by vm_compute|]. intros st rs -> [= <-]. constructor; [|constructor]. intros k Hk. vm_compute in Hk. injection Hk as <-. by vm_compute.
Defined.
