(* ===== verification/BrowseTree.v ===== *)
(** * The browser over a stored tree

    A session in which the answers to a key arrive before the next one shows what the
    daemon stores: the entries of the directory that the path of the stack leads to, and
    the content of its files. *)

From Stdlib Require Import Init.Byte.
From coqutil Require Import Datatypes.RecordSetters.
From S2P Require Import Prelude Machine Key Chunkers FsEncode Instances FsTree FsRead FsWalk PackRecord PackStream Footer FooterFacts Packstore PackstoreRep PackstoreFacts Compact PackstoreSpec Parallel Inbox InboxProtocol InboxSpec Text Sshsign Reference Refstore Gc GcProtocol GcFacts Auth AuthFacts Server ServerSpec Routes Sync Remote SyncLive Path Posix Ingest IngestFacts PosixFacts IngestSpec Tar TarFacts TarSpec Remotes Daemon DaemonFacts DaemonSpec Client ClientFacts ClientSpec Mount MountTree Admin Browse BrowseFacts.
From Stdlib Require Import ZifyBool ZifyNat.
Import TriangleBracketNotations.
Local Open Scope Z_scope.

#[local] Existing Instance InboxProtocol.verified_inv.

(** ** What a store offers of a tree *)
Section offers.
Context `{Cbor} `{UnixDev} (log : list Object) (st : bstore).

(** The object of a node is what the store answers for the key. *)
Inductive offers : Key → node → Prop :=
| offers_dir k m ch lines : bs_Ls st k = Ok lines → Forall2 (λ e q, ls_shows log e q.1 q.2) lines ch →
    (∀ i e q k', lines !! i = Some e → ch !! i = Some q → ls_Key e = hex_EncodeToString (kb k') → offers k' q.2) → offers k (NDir m ch)
| offers_file k m content : bs_File st k = Ok (content, None) → offers k (NFile m content)
| offers_link k m t : offers k (NLink m t)
| offers_dev k m chr r : offers k (NDev m chr r)
| offers_fifo k m : offers k (NFifo m)
| offers_sock k m : offers k (NSock m).

Definition node_file (n : node) : bool := match n with NFile _ _ => true | _ => false end.

Lemma parse_hex k : Validate k = Ok tt → cmd_parseHexKey (hex_EncodeToString (kb k)) = Ok k.
Proof. intros Hv. unfold cmd_parseHexKey. rewrite hex_Decode_Encode. cbn. by rewrite (proj2 (Parse_Ok _ _) (conj eq_refl Hv)). Qed.

(** The type of an entry, and the key of one with content. *)
Lemma entry_type `{!UnixDevLaws} e name n : ls_shows log e name n → node_wf n → entryIsDir e = node_dir n ∧ entryIsReg e = node_file n.
Proof.
  intros (_ & Hm & _) Hwf. unfold entryIsDir, entryIsReg. rewrite Hm, node_mode_type by by apply node_wf_meta. by destruct n as [| | |? []| |].
Qed.

Lemma entry_key e name n : ls_shows log e name n → node_dir n || node_file n = true →
  ∃ k, ls_Key e = hex_EncodeToString (kb k) ∧ cmd_parseHexKey (ls_Key e) = Ok k.
Proof.
  intros (_ & _ & _ & _ & _ & Hrest) Hn. destruct n as [m c|m ch| | | |]; try done.
  - destruct Hrest as (_ & _ & _ & k & h & Hk & Hv & _). exists k. rewrite Hk. split; [done|]. by apply parse_hex.
  - destruct Hrest as (_ & _ & k & Hk & Hv & _). exists k. rewrite Hk. split; [done|]. by apply parse_hex.
Qed.

(** *** Children *)
Lemma child_at m ch q : StronglySorted bytes_lt ch.*1 → q ∈ ch → node_at (NDir m ch) [q.1] = Some q.2.
Proof.
  cbn [node_at]. induction ch as [|a ch IH]; [by intros _ ?%elem_of_nil|]. rewrite fmap_cons. intros [Hs Hlt]%StronglySorted_inv Hq. cbn [list_find].
  apply elem_of_cons in Hq as [->|Hq]; [by rewrite decide_True|]. rewrite decide_False.
  - specialize (IH Hs Hq). destruct (list_find _ ch) as [[i p]|]; [done|done].
  - intros E. rewrite Forall_forall in Hlt. apply (bytes_lt_irrefl q.1). rewrite <- E at 1. apply Hlt. by apply list_elem_of_fmap_2.
Qed.

Lemma node_at_app n p q n' : node_at n p = Some n' → node_at n (p ++ q) = node_at n' q.
Proof.
  revert n. induction p as [|c p IH]; intros n; [by intros [= ->]|]. cbn [app node_at]. destruct n as [|m ch| | | |]; try done.
  destruct (list_find _ ch) as [[i r]|]; [|done]. apply IH.
Qed.

(** *** The stack *)
Definition frame_id (f : frame) : Key * bytes := (fr_key f, fr_name f).

(** The frames of a stack lead from a root to a node. *)
Context (roots : list (Key * node)).
Inductive inside : list (Key * bytes) → node → Prop :=
| inside_root k n name : (k, n) ∈ roots → inside [(k, name)] n
| inside_sub ids m ch k name n : inside ids (NDir m ch) → node_at (NDir m ch) [name] = Some n → offers k n → inside (ids ++ [(k, name)]) n.

Definition good_roots : Prop := Forall (λ r, isFileKey r.1 = false ∧ node_dir r.2 = true ∧ node_wf r.2 ∧ offers r.1 r.2) roots.

Lemma wf_at m ch name n : node_wf (NDir m ch) → node_at (NDir m ch) [name] = Some n → node_wf n.
Proof.
  intros Hwf. cbn. destruct (list_find _ ch) as [[i q]|] eqn:E; [|done]. intros [= <-]. apply list_find_Some in E as (Hi & _). eapply wf_child; [exact Hwf|].
  by eapply list_elem_of_lookup_2.
Qed.

Lemma inside_top ids n : good_roots → inside ids n → node_wf n ∧ ∃ ids' k name, ids = ids' ++ [(k, name)] ∧ offers k n.
Proof.
  intros Hg. unfold good_roots in Hg. rewrite Forall_forall in Hg. induction 1 as [k n name Hin|ids m ch k name n _ [Hwf _] Hat Ho].
  - destruct (Hg _ Hin) as (_ & _ & Hwf & Ho). split; [done|]. by exists [], k, name.
  - split; [by eapply wf_at|]. by exists ids, k, name.
Qed.

Lemma inside_path ids n : inside ids n → ∃ k0 n0 name0 rest, ids = (k0, name0) :: rest ∧ (k0, n0) ∈ roots ∧ node_at n0 rest.*2 = Some n.
Proof.
  induction 1 as [k n name Hin|ids m ch k name n _ (k0 & n0 & name0 & rest & -> & Hin & Hat) Hn Ho].
  - by exists k, n, name, [].
  - exists k0, n0, name0, (rest ++ [(k, name)]). split_and!; [done..|]. rewrite fmap_app. by rewrite (node_at_app _ _ _ _ Hat).
Qed.

Lemma inside_up ids x n : inside (ids ++ [x]) n → ids ≠ [] → ∃ m ch, inside ids (NDir m ch).
Proof.
  intros Hi Hne. remember (ids ++ [x]) as l eqn:E. destruct Hi as [k n name Hin|ids' m ch k name n Hi _ _].
  - symmetry in E. by apply app_eq_unit in E as [[? _]|[_ ?]].
  - apply app_inj_tail in E as [-> _]. by exists m, ch.
Qed.
End offers.

(** ** Sessions whose commands are answered in turn *)
Section sessions.
Context `{Terminal} `{!TerminalLaws} `{CborText} `{Cbor} `{UnixDev} `{!UnixDevLaws}.
Context (render : error → bytes) (log : list Object) (st : bstore) (roots : list (Key * node)) (refs : list RefInfo) (cap : Z).
Context (Hroots : good_roots log st roots) (Hcap : 0 <= cap < 2 ^ 63 - 1).
Context (Hlist : bs_ListRefs st = Ok refs) (Hrefs : Forall (λ r, ∃ t, t ∈ roots ∧ cmd_parseHexKey (ri_Key r) = Ok t.1) refs).
Context (Hfile : ∀ k, safe (bs_File st k)) (Htar : ∀ k, safe (bs_Tar st k)).

(** The entries are those of the directory that the stack leads to. *)
Definition place (m : browseModel) (mm : nmeta) (ch : list (bytes * node)) : Prop :=
  inside log st roots (frame_id <$> bm_stack m) (NDir mm ch) ∧ ∃ f, last (bm_stack m) = Some f ∧ bs_Ls st (fr_key f) = Ok (bm_entries m).

(** The view of a file has its content, as much as the cap admits. *)
Definition file_shows (fv : fileView) (name content : bytes) : Prop :=
  fv_name fv = name ∧ fv_size fv = zlen content ∧ fv_data fv = take (Z.to_nat cap) content ∧ fv_truncated fv = (cap <? zlen content) ∧
  fv_textLines fv = split_at newline (fv_data fv).
Definition viewing (m : browseModel) (d : node) : Prop :=
  ∃ name mf content, node_at d [name] = Some (NFile mf content) ∧ file_shows (bm_file m) name content ∧ bs_File st (bm_fileKey m) = Ok (content, None).

(** What would be exported is an entry of the directory. *)
Definition exporting (m : browseModel) (d : node) : Prop :=
  ∃ n, node_at d [bm_exportName m] = Some n ∧ bm_exportIsDir m = node_dir n ∧ (node_dir n || node_file n = true → offers log st (bm_exportKey m) n).

Record session_ok (m : browseModel) : Prop := {
  so_cursors : cursors_ok m;
  so_cap : bm_maxView m = cap;
  so_refs : bm_refs m = [] ∨ bm_refs m = refs;
}.
Definition shows_mode (m : browseModel) (d : node) : Prop :=
  match bm_mode m with modeFile => viewing m d | modeExport => exporting m d | _ => True end.
Definition showing (m : browseModel) : Prop :=
  session_ok m ∧
  if bool_decide (bm_mode m = modeRefs) then bm_refs m = refs else ∃ mm ch, place m mm ch ∧ shows_mode m (NDir mm ch).

(** The model with the command that an update gives. *)
Definition ready (m : browseModel) (c : cmd) : Prop :=
  match c with
  | loadDir k => session_ok m ∧ bm_mode m = modeList ∧ ∃ mm ch f, inside log st roots (frame_id <$> bm_stack m) (NDir mm ch) ∧ last (bm_stack m) = Some f ∧ fr_key f = k
  | fetchFile k name size => session_ok m ∧ ∃ mm ch mf content, place m mm ch ∧ node_at (NDir mm ch) [name] = Some (NFile mf content) ∧
      size = zlen content ∧ bs_File st k = Ok (content, None)
  | badFile _ => False
  | loadRefs => session_ok m ∧ bm_mode m = modeRefs
  | _ => showing m
  end.

(** The entries of the directory that is shown. *)
Lemma place_entries m mm ch : place m mm ch → node_wf (NDir mm ch) ∧ Forall2 (λ e q, ls_shows log e q.1 q.2) (bm_entries m) ch ∧
  ∀ i e q k', bm_entries m !! i = Some e → ch !! i = Some q → ls_Key e = hex_EncodeToString (kb k') → offers log st k' q.2.
Proof.
  intros (Hin & f & Hl & Hls). destruct (inside_top log st roots _ _ Hroots Hin) as (Hwf & ids' & k & name & Hids & Ho). split; [done|].
  apply last_Some in Hl as [fs Hfs]. rewrite Hfs, fmap_app in Hids. apply app_inj_tail in Hids as [_ Hids]. unfold frame_id in Hids. injection Hids as Hk _.
  inversion Ho as [k' m' ch' lines Hls' Hsh Hoff| | | | |]; subst. rewrite Hls' in Hls. injection Hls as ->. done.
Qed.

(** An entry that is visible. *)
Lemma visible_child m mm ch i e : place m mm ch → visibleEntries m !! i = Some e →
  ∃ q, q ∈ ch ∧ ls_shows log e q.1 q.2 ∧ node_wf q.2 ∧ node_at (NDir mm ch) [ls_Name e] = Some q.2 ∧
    ∀ k', ls_Key e = hex_EncodeToString (kb k') → offers log st k' q.2.
Proof.
  intros Hp Hv. destruct (place_entries m mm ch Hp) as (Hwf & Hsh & Hoff).
  assert (e ∈ bm_entries m) as Hin.
  { apply list_elem_of_lookup_2 in Hv. unfold visibleEntries, matching in Hv. case_bool_decide; [done|]. by apply list_elem_of_filter in Hv as [_ ?]. }
  apply list_elem_of_lookup in Hin as [j Hj]. destruct (Forall2_lookup_l _ _ _ _ _ Hsh Hj) as (q & Hq & Hshow).
  exists q. pose proof (list_elem_of_lookup_2 _ _ _ Hq) as Hqin. pose proof Hshow as (Hname & _). pose proof Hwf as (_ & Hs & _).
  split_and!; [done|done|by eapply wf_child|by rewrite Hname; apply child_at|]. intros k' Hk'. by eapply Hoff.
Qed.

(** Changes of a model that keep what it shows. *)
Lemma ok_same m m' : session_ok m → cursors_ok m' → bm_maxView m' = bm_maxView m → bm_refs m' = bm_refs m → session_ok m'.
Proof. intros [_ Hv Hr] Hc E1 E2. split; [done|by rewrite E1|by rewrite E2]. Qed.
Lemma place_same m m' mm ch : place m mm ch → frame_id <$> bm_stack m' = frame_id <$> bm_stack m → bm_entries m' = bm_entries m → place m' mm ch.
Proof.
  intros (Hin & f & Hl & Hls) E1 E2. split; [by rewrite E1|]. assert (frame_id <$> last (bm_stack m') = frame_id <$> last (bm_stack m)) as E.
  { by rewrite <- !fmap_last, E1. }
  rewrite Hl in E. destruct (last (bm_stack m')) as [f'|]; [|done]. exists f'. split; [done|]. unfold frame_id in E. injection E as Ek _. by rewrite Ek, E2.
Qed.

(** A command that answers nothing that is shown. *)
Definition idle_cmd (c : cmd) : bool := match c with NoCmd | Quit | InputCmd | exportCmd _ _ _ => true | _ => false end.
Lemma ready_idle m c : idle_cmd c = true → showing m → ready m c.
Proof. by destruct c. Qed.

Lemma showing_list m mm ch : session_ok m → bm_mode m = modeList → place m mm ch → showing m.
Proof. intros Ho Hm Hp. split; [done|]. rewrite Hm. exists mm, ch. split; [done|]. unfold shows_mode. by rewrite Hm. Qed.

Lemma showing_place m : showing m → bm_mode m ≠ modeRefs → ∃ mm ch, place m mm ch ∧ shows_mode m (NDir mm ch).
Proof. intros [_ Hs] Hm. by rewrite bool_decide_eq_false_2 in Hs. Qed.

Lemma showing_same m m' : showing m → cursors_ok m' → bm_maxView m' = bm_maxView m → bm_refs m' = bm_refs m → bm_mode m' = bm_mode m → bm_stack m' = bm_stack m →
  bm_entries m' = bm_entries m → bm_file m' = bm_file m → bm_fileKey m' = bm_fileKey m → bm_exportName m' = bm_exportName m →
  bm_exportIsDir m' = bm_exportIsDir m → bm_exportKey m' = bm_exportKey m → showing m'.
Proof.
  intros [Ho Hs] Hc E1 E2 E3 E4 E5 E6 E7 E8 E9 E10. split; [by eapply ok_same|]. rewrite E3. case_bool_decide; [by rewrite E2|].
  destruct Hs as (mm & ch & Hp & Hmode). exists mm, ch. split; [eapply place_same; [exact Hp|by rewrite E4|done]|].
  unfold shows_mode, viewing, exporting in *. by rewrite E3, E6, E7, E8, E9, E10.
Qed.

(** The model is changed in nothing that is shown; or nothing but the command counts. *)
Local Ltac kept := intros [= <- <-]; apply ready_idle; [done|]; by eapply showing_same.

Lemma open_ready m m' c i e : showing m → bm_mode m = modeList → visibleEntries m !! i = Some e → openEntry render e m = Ok (m', c) → cursors_ok m' → ready m' c.
Proof.
  intros Hs Hmode He Ho Hc'. pose proof Hs as [Hok _]. destruct (showing_place m Hs) as (mm & ch & Hp & _); [congruence|].
  destruct (visible_child m mm ch i e Hp He) as (q & Hq & Hsh & Hwf & Hat & Hoff). destruct (entry_type log e q.1 q.2 Hsh Hwf) as [Hd Hr].
  revert Ho. unfold openEntry, save_cursor, stay. rewrite Hd, Hr. destruct (node_dir q.2) eqn:Ed.
  - destruct (entry_key log e q.1 q.2 Hsh) as (k & Hk & ->); [by rewrite Ed|]. destruct (last (bm_stack m)) as [f|] eqn:Hl; [|done]. intros [= <- <-].
    split; [by eapply ok_same|]. split; [exact Hmode|]. apply last_Some in Hl as [fs Hfs]. destruct q as [nm q]. destruct q as [|m1 ch1| | | |]; try done.
    eexists m1, ch1, _. split; [|split; [apply last_snoc|done]]. fields. rewrite fmap_app. eapply inside_sub; [|exact Hat|by apply Hoff].
    destruct Hp as [Hin _]. rewrite Hfs in *. rewrite removelast_last, !fmap_app in *. exact Hin.
  - destruct (node_file q.2) eqn:Ef; [|kept]. intros [= <- <-]. unfold loadFile. destruct (entry_key log e q.1 q.2 Hsh) as (k & Hk & ->); [by rewrite Ed, Ef|].
    destruct q as [nm q]. destruct q as [m1 content| | | | |]; try done. split; [done|]. exists mm, ch, m1, content. split_and!; [done|done|by destruct Hsh as (_ & _ & _ & _ & _ & _ & _ & ? & _)|].
    specialize (Hoff k Hk). by inversion Hoff.
Qed.

Lemma gotoRefs_ready m : session_ok m → ready (gotoRefs m).1 (gotoRefs m).2.
Proof. intros Ho. split; [|done]. eapply ok_same; [exact Ho|by apply gotoRefs_cursors, Ho|done..]. Qed.

Lemma export_ready m mm ch n key : session_ok m → place m mm ch → ∀ name, node_at (NDir mm ch) [name] = Some n →
  (node_dir n || node_file n = true → offers log st key n) → showing (beginExport (node_dir n) key name m).
Proof.
  intros Ho Hp name Hat Hoff. split; [eapply ok_same; [exact Ho| |done..]; by eapply cursors_same; [apply Ho|..]|]. cbn [bm_mode]. unfold beginExport. cbv zeta. fields. cbn [bool_decide decide decide_rel].
  exists mm, ch. split; [by eapply place_same|]. by exists n.
Qed.

(** One branch for each key. *)
Local Ltac on_key := match goal with |- context [is_key ?k ?l] => destruct (is_key k l) end.

Lemma selected_ready m m' c : showing m → bm_mode m = modeList → cursors_ok m' →
  (if bool_decide (visibleEntries m = []) then stay m else e ← index (visibleEntries m) (bm_cursor m); openEntry render e m) = Ok (m', c) → ready m' c.
Proof.
  intros Hs Hmode Hc'. case_bool_decide as Hne; [intros [= <- <-]; by apply ready_idle|].
  destruct (index_in _ _ (co_cursor _ (so_cursors _ (proj1 Hs))) Hne) as (e & -> & He). cbn [mbind result_bind]. intros Ho. by eapply open_ready.
Qed.

Lemma list_ready k m m' c : showing m → bm_mode m = modeList → updateListKey render k m = Ok (m', c) → ready m' c.
Proof.
  intros Hs Hmode Hu. pose proof Hs as [Hok _]. pose proof (list_cursors render k m m' c (so_cursors _ Hok) Hu) as Hc'. revert Hu.
  unfold updateListKey. destruct (bm_filtering m).
  - unfold updateListFilterKey, stay. on_key; [kept|]. on_key; [kept|]. on_key; [by apply selected_ready|]. repeat (on_key; [kept|]). kept.
  - unfold stay. on_key; [kept|]. on_key; [kept|]. on_key; [kept|]. on_key; [kept|]. on_key; [kept|]. on_key; [kept|]. on_key; [by apply selected_ready|].
    on_key.
    { destruct (1 <? length (bm_stack m))%nat eqn:E; [|intros Hg; injection Hg as <- <-; by apply gotoRefs_ready].
      apply Nat.ltb_lt in E. unfold cur. fields. destruct (last (removelast _)) as [f|] eqn:Hl; [|done]. intros [= <- <-].
      destruct (showing_place m Hs) as (mm & ch & (Hin & _) & _); [congruence|].
      split; [by eapply ok_same|]. split; [exact Hmode|].
      assert (∃ fs f', bm_stack m = fs ++ [f']) as (fs & f' & Hfs).
      { clear -E. destruct (bm_stack m) as [|f' fs _] using rev_ind; [cbn in E; lia|by exists fs, f']. }
      rewrite Hfs, fmap_app in Hin. destruct (inside_up log st roots _ _ _ Hin) as (mm' & ch' & Hin').
      { intros Hn%fmap_nil_inv. rewrite Hfs, Hn in E. cbn in E. lia. }
      exists mm', ch', f. split; [|done]. change (inside log st roots (frame_id <$> removelast (bm_stack m)) (NDir mm' ch')). by rewrite Hfs, removelast_last. }
    on_key; [|kept]. case_bool_decide as Hne; [kept|].
    destruct (index_in _ _ (co_cursor _ (so_cursors _ Hok)) Hne) as (e & -> & He). cbn [mbind result_bind].
    destruct (showing_place m Hs) as (mm & ch & Hp & _); [congruence|]. destruct (visible_child m mm ch _ e Hp He) as (q & Hq & Hsh & Hwf & Hat & Hoff).
    destruct (cmd_parseHexKey (ls_Key e)) as [key|err| |] eqn:Hk; [|kept|done..]. intros [= <- <-]. apply ready_idle; [done|].
    destruct (entry_type log e q.1 q.2 Hsh Hwf) as [-> _]. eapply export_ready; [done..|]. intros Hn. destruct (entry_key log e q.1 q.2 Hsh Hn) as (k' & Hk' & Hp').
    rewrite Hk in Hp'. injection Hp' as ->. by apply Hoff.
Qed.

(** Text lines, name and content of a file do not change. *)
Definition same_file (a b : fileView) : Prop :=
  fv_name a = fv_name b ∧ fv_size a = fv_size b ∧ fv_data a = fv_data b ∧ fv_truncated a = fv_truncated b ∧ fv_textLines a = fv_textLines b.
Lemma buildJSON_same fv : same_file (buildJSON fv) fv.
Proof.
  unfold buildJSON. destruct (fv_jsonBuilt fv); [done|]. cbv zeta. destruct fv as [n s d t mo tp tl jl jb je]. cbn.
  destruct t; [done|]. destruct (cborToJSON d); done.
Qed.
Lemma setMode_same mo fv : same_file (setMode mo fv) fv.
Proof. unfold setMode. cbv zeta. case_bool_decide; [|by destruct fv]. pose proof (buildJSON_same fv) as Hj. by destruct (buildJSON fv). Qed.
Lemma scroll_same delta h fv : same_file (scroll delta h fv) fv.
Proof. by destruct fv. Qed.

Lemma same_file_shows a b name content : same_file a b → file_shows b name content → file_shows a name content.
Proof. intros (E1 & E2 & E3 & E4 & E5). unfold file_shows. by rewrite E1, E2, E3, E4, E5. Qed.

Lemma file_changed m m' : showing m → bm_mode m = modeFile → cursors_ok m' → bm_maxView m' = bm_maxView m → bm_refs m' = bm_refs m → bm_mode m' = bm_mode m →
  bm_stack m' = bm_stack m → bm_entries m' = bm_entries m → same_file (bm_file m') (bm_file m) → bm_fileKey m' = bm_fileKey m → showing m'.
Proof.
  intros Hs Hmode Hc E1 E2 E3 E4 E5 Hf E6. pose proof Hs as [Hok _]. destruct (showing_place m Hs) as (mm & ch & Hp & Hm); [congruence|].
  split; [by eapply ok_same|]. rewrite E3, Hmode. cbn. exists mm, ch. split; [eapply place_same; [exact Hp|by rewrite E4|done]|].
  unfold shows_mode in *. rewrite E3, Hmode in *. destruct Hm as (name & mf & content & Hat & Hsh & Hb). exists name, mf, content.
  split_and!; [done|by eapply same_file_shows|by rewrite E6].
Qed.

Lemma file_ready k m m' c : showing m → bm_mode m = modeFile → updateFileKey k m = Ok (m', c) → ready m' c.
Proof.
  intros Hs Hmode Hu. pose proof Hs as [Hok _]. pose proof (file_cursors k m m' c (so_cursors _ Hok) Hu) as Hc'. revert Hu.
  destruct (showing_place m Hs) as (mm & ch & Hp & Hm); [congruence|]. unfold shows_mode in Hm. rewrite Hmode in Hm.
  unfold updateFileKey, stay. on_key; [kept|]. on_key.
  { case_bool_decide; [intros Hg; injection Hg as <- <-; by apply gotoRefs_ready|]. intros [= <- <-]. apply ready_idle; [done|].
    eapply showing_list; [by eapply ok_same|done|by eapply place_same]. }
  do 3 (on_key; [intros [= <- <-]; apply ready_idle; [done|]; eapply file_changed; [done..|apply setMode_same|done]|]).
  do 6 (on_key; [intros [= <- <-]; apply ready_idle; [done|]; eapply file_changed; [done..|apply scroll_same|done]|]).
  on_key; [|kept]. intros [= <- <-]. apply ready_idle; [done|]. destruct Hm as (name & mf & content & Hat & (Hn & _) & Hb).
  eapply (export_ready m mm ch (NFile mf content)); [done..|by rewrite Hn|]. intros _. by constructor.
Qed.

Lemma export_key_ready k m m' c : showing m → bm_mode m = modeExport → updateExportKey k m = Ok (m', c) → ready m' c.
Proof.
  intros Hs Hmode Hu. pose proof Hs as [Hok _]. pose proof (export_cursors k m m' c (so_cursors _ Hok) Hu) as Hc'. revert Hu.
  destruct (showing_place m Hs) as (mm & ch & Hp & _); [congruence|]. unfold updateExportKey, stay.
  on_key; [intros [= <- <-]; apply ready_idle; [done|]; eapply showing_list; [by eapply ok_same|done|by eapply place_same]|].
  on_key; [intros [= <- <-]; apply ready_idle; [done|]; eapply showing_list; [by eapply ok_same|done|by eapply place_same]|]. kept.
Qed.

(** A reference that is listed leads to a root. *)
Lemma openRef_ready m m' c : showing m → bm_mode m = modeRefs → cursors_ok m' → openRef render m = Ok (m', c) → ready m' c.
Proof.
  intros Hs Hmode Hc'. pose proof Hs as [Hok Hr]. rewrite bool_decide_eq_true_2 in Hr by done. unfold openRef, stay. case_bool_decide as Hne; [kept|].
  destruct (index_in _ _ (co_refCursor _ (so_cursors _ Hok)) Hne) as (sel & -> & Hsel). cbn [mbind result_bind].
  assert (sel ∈ refs) as Hin.
  { rewrite <- Hr. apply list_elem_of_lookup_2 in Hsel. unfold filteredRefs, matching in Hsel. case_bool_decide; [done|]. by apply list_elem_of_filter in Hsel as [_ ?]. }
  rewrite Forall_forall in Hrefs. destruct (Hrefs sel Hin) as ([k n] & Ht & ->). unfold good_roots in Hroots. rewrite Forall_forall in Hroots.
  destruct (Hroots _ Ht) as (Hk & Hd & Hwf & Hoff). cbn [fst snd] in *. rewrite Hk. intros [= <- <-].
  destruct n as [|mm ch| | | |]; try done. split; [by eapply ok_same|]. split; [done|]. eexists mm, ch, _. split; [|split; [done|done]]. by apply inside_root.
Qed.

Lemma refs_ready k m m' c : showing m → bm_mode m = modeRefs → updateRefsKey render k m = Ok (m', c) → ready m' c.
Proof.
  intros Hs Hmode Hu. pose proof Hs as [Hok _]. pose proof (refs_cursors render k m m' c (so_cursors _ Hok) Hu) as Hc'. revert Hu.
  unfold updateRefsKey. destruct (bm_refFiltering m).
  - unfold updateRefsFilterKey, stay. on_key; [kept|]. on_key; [kept|]. on_key; [by apply openRef_ready|]. repeat (on_key; [kept|]). kept.
  - unfold stay. on_key; [kept|]. on_key; [kept|]. on_key; [kept|]. on_key; [kept|]. on_key; [kept|]. on_key; [kept|]. on_key; [by apply openRef_ready|]. kept.
Qed.

Lemma Update_ready x m : from_terminal x → showing m → ∃ m' c, Update render x m = Ok (m', c) ∧ ready m' c.
Proof.
  intros Hx Hs. pose proof Hs as [Hok _]. pose proof (Update_outcome render x m (so_cursors _ Hok)) as Ho. unfold outcome in Ho.
  destruct (Update render x m) as [[m' c]|e| |] eqn:Hu; [|done| |done].
  2:{ destruct Ho as (Hst & [[es ->]|(k & e & key & -> & Hmode & _)]); [done|]. destruct (showing_place m Hs) as (mm & ch & (_ & f & Hl & _) & _); [congruence|].
      by rewrite Hst in Hl. }
  exists m', c. split; [done|]. pose proof (Update_cursors render x m m' c (so_cursors _ Hok) Hu) as Hc'. revert Hu.
  destruct x as [w h| | | | |k|]; try done; cbn [Update]; unfold stay; [kept| |kept].
  unfold updateKey. destruct (bm_mode m) eqn:Hmode; [by apply list_ready|by apply file_ready|by apply export_key_ready|by apply refs_ready].
Qed.

(** *** What commands bring *)
Lemma settle_idle n m c d : idle_cmd c = true → showing m → ∃ m' d', settle render (S n) st m c d = (Ok m', d') ∧ showing m'.
Proof.
  intros Hc Hs. destruct c as [| | | | | |isDir k path|]; try done; cbn [settle run_cmd].
  - by exists m, d.
  - by exists m, d.
  - destruct (run_export st isDir k path d) as [r d1] eqn:Hr. assert (∃ err, r = Ok (exportDoneMsg path err)) as [err ->].
    { pose proof (run_export_answers st isDir k path d Hfile Htar) as He. by rewrite Hr in He. }
    cbn [mbind result_bind Update stay]. eexists _, d1. split; [by destruct n|]. eapply showing_same; [exact Hs|eapply cursors_same; [apply Hs|done..]|done..].
  - cbn. exists m, d. split; [by destruct n|done].
Qed.

Lemma settle_refs n m d : session_ok m → bm_mode m = modeRefs → ∃ m' d', settle render (S n) st m loadRefs d = (Ok m', d') ∧ showing m'.
Proof.
  intros Hok Hmode. cbn [settle run_cmd]. rewrite Hlist. cbn [answered mbind result_bind Update stay]. eexists _, d. split; [by destruct n|].
  split; [|by rewrite bool_decide_eq_true_2]. pose proof Hok as [Hc Hv _]. split; [|done|by right].
  eapply (Update_cursors render (refsLoadedMsg (inr refs))); [exact Hc|done].
Qed.

Lemma settle_dir n m k d : ready m (loadDir k) → ∃ m' d', settle render (S n) st m (loadDir k) d = (Ok m', d') ∧ showing m'.
Proof.
  intros (Hok & Hmode & mm & ch & f & Hin & Hl & <-). cbn [settle run_cmd].
  assert (∃ lines, bs_Ls st (fr_key f) = Ok lines) as [lines Hls].
  { destruct (inside_top log st roots _ _ Hroots Hin) as (_ & ids' & k & name & Hids & Ho). apply last_Some in Hl as [fs Hfs]. rewrite Hfs, fmap_app in Hids.
    apply app_inj_tail in Hids as [_ Hids]. injection Hids as Hk _. inversion Ho; subst. by eexists. }
  rewrite Hls. cbn [answered mbind result_bind]. destruct (Update render (dirLoadedMsg (inr lines)) m) as [[m' c]|e| |] eqn:Hu.
  - pose proof (Update_cursors render _ m m' c (so_cursors _ Hok) Hu) as Hc'. revert Hu. cbn [Update]. unfold cur.
    change (bm_stack (set_dirFilter [] m <| bm_entries := lines |>)) with (bm_stack m). rewrite Hl. cbn [mbind result_bind]. unfold stay. intros [= <- <-].
    eexists _, d. split; [by destruct n|]. eapply (showing_list _ mm ch); [by eapply ok_same|exact Hmode|]. split; [exact Hin|]. by exists f.
  - revert Hu. cbn [Update]. unfold cur. change (bm_stack (set_dirFilter [] m <| bm_entries := lines |>)) with (bm_stack m). by rewrite Hl.
  - revert Hu. cbn [Update]. unfold cur. change (bm_stack (set_dirFilter [] m <| bm_entries := lines |>)) with (bm_stack m). by rewrite Hl.
  - revert Hu. cbn [Update]. unfold cur. change (bm_stack (set_dirFilter [] m <| bm_entries := lines |>)) with (bm_stack m). by rewrite Hl.
Qed.

(** What is fetched of a file. *)
Lemma fetch_capped k name size content : bs_File st k = Ok (content, None) →
  run_fetchFile st cap k name size = Ok (fileLoadedMsg (inr (mkLoaded k name size (take (Z.to_nat cap) content) (cap <? zlen content)))).
Proof.
  intros Hf. unfold run_fetchFile. rewrite Hf. cbn [mbind result_bind]. unfold read_limited. rewrite i64_small by lia.
  destruct (zlen content <? cap + 1) eqn:E; cbn [answered mbind result_bind].
  - replace (zlen content >? cap) with false by lia. replace (cap <? zlen content) with false by lia. by rewrite take_ge by lia.
  - assert (zlen (take (Z.to_nat (cap + 1)) content) = cap + 1) as ->. { rewrite length_take. lia. }
    replace (cap + 1 >? cap) with true by lia. replace (cap <? 0) with false by lia. replace (cap <? zlen content) with true by lia.
    rewrite take_take. by replace (Z.to_nat cap `min` Z.to_nat (cap + 1))%nat with (Z.to_nat cap) by lia.
Qed.

Lemma new_file_shows name content : file_shows (newFileView name (zlen content) (take (Z.to_nat cap) content) (cap <? zlen content)) name content.
Proof.
  unfold newFileView. cbv zeta. assert (∀ fv, file_shows fv name content → file_shows (if bool_decide (fv_mode fv = modeJSON) then buildJSON fv else fv) name content) as Hb.
  { intros fv Hf. case_bool_decide; [|done]. eapply same_file_shows; [apply buildJSON_same|done]. }
  by apply Hb.
Qed.

Lemma settle_file n m k name size d : ready m (fetchFile k name size) → ∃ m' d', settle render (S n) st m (fetchFile k name size) d = (Ok m', d') ∧ showing m'.
Proof.
  intros (Hok & mm & ch & mf & content & Hp & Hat & -> & Hf). cbn [settle run_cmd]. rewrite (so_cap _ Hok), (fetch_capped k name _ content Hf).
  cbn [mbind result_bind]. change (Update render (fileLoadedMsg _) m) with (@Ok (browseModel * cmd)
    (m <| bm_file := newFileView name (zlen content) (take (Z.to_nat cap) content) (cap <? zlen content) |> <| bm_fileKey := k |> <| bm_mode := modeFile |>, NoCmd)).
  cbn iota beta. eexists _, d. split; [by destruct n|]. split; [eapply ok_same; [exact Hok|eapply cursors_same; [apply Hok|done..]|done..]|].
  cbn [bool_decide decide decide_rel]. fields. cbn. exists mm, ch. split; [by eapply place_same|]. exists name, mf, content. split_and!; [done|apply new_file_shows|done].
Qed.

Lemma settle_ready m c d : ready m c → ∃ m' d', settle render 3 st m c d = (Ok m', d') ∧ showing m'.
Proof.
  intros Hr. destruct c as [| |k|e|k name size| |isDir k path|]; [by apply settle_idle|by apply settle_idle|by apply settle_dir|done|by apply settle_file| |by apply settle_idle..].
  destruct Hr as [Hok Hm]. by apply settle_refs.
Qed.

Lemma input_shows x m d : from_terminal x → showing m → ∃ m' d', input render st x m d = (Ok m', d') ∧ showing m'.
Proof. intros Hx Hs. destruct (Update_ready x m Hx Hs) as (m' & c & Hu & Hr). unfold input. rewrite Hu. by apply settle_ready. Qed.
End sessions.

(** ** The store of the daemon *)
Section over.
Context `{Terminal} `{!TerminalLaws} `{CborText}.
Context `{Blake3} `{Fuse} `{Zstd} `{Cbor} `{RefCbor} `{Pebble} `{SshSig} `{SshKeys} `{NetUrl} `{RemotesJson} `{Float64} `{!DaemonJson} `{!ClientJson} `{UnixDev} `{!UnixDevLaws}.
Context (render : error → bytes) `{!ClientJsonLaws}.

Definition tar_answers log := answers (λ env k, c_Tar (d_serve render env) k []) log.

(** What the browser is answered by the daemon. *)
Definition daemon_store (log : list Object) (F : nat) (st : bstore) : Prop :=
  ls_answers render log F (bs_Ls st) ∧ file_answers render log F (bs_File st) ∧ tar_answers log F (bs_Tar st).

(** A request for a stream gets an answer. *)
Lemma stream_safe env method target msg d :
  safe (request (d_serve render env) method target [] (expect StatusOK msg (λ resp, Ok (ds_Body resp, ds_ReadErr resp))) d).1.
Proof.
  assert (∀ r : result dresp, safe r → safe (match r with Ok resp => expect StatusOK msg (λ resp, Ok (ds_Body resp, ds_ReadErr resp)) resp
    | r => err_of (wrap "contacting daemon at %s" r) end)) as Hr.
  { intros r [Hp Hd]. destruct r as [resp|e| |]; [|by split|done..]. unfold expect. by destruct (negb _). }
  unfold request, d_serve. destruct (cut x3f target) as [path q]. destruct (d_route method path) as [r|]; [|apply (Hr (Ok (mkDresp StatusNotFound [] None))); by split].
  destruct (d_handle _ _ _ _ _ d) as [a d']. apply (Hr (on_wire env a)). unfold on_wire. destruct a as [status ct body|ct|ev]; [by split| |by split]. destruct (String.eqb _ _); by split.
Qed.

Lemma daemon_store_safe log F st : daemon_store log F st → (∀ k, safe (bs_File st k)) ∧ ∀ k, safe (bs_Tar st k).
Proof.
  intros (_ & Hf & Ht). split; intros k.
  - destruct (Hf k) as (env & d & _ & _ & ->). apply stream_safe.
  - destruct (Ht k) as (env & d & _ & _ & ->). apply stream_safe.
Qed.

(** Enough fuel for every object of a tree. *)
Definition offered (log : list Object) (n : node) : Prop :=
  match n with
  | NDir _ ch => ∀ k, stored_children log k ch → Validate k = Ok tt → node_wf n → utf8_tree n → ∃ F0, ∀ F st, (F0 ≤ F)%nat → daemon_store log F st → offers log st k n
  | NFile _ c => ∀ k h, file_tree h log k c → Validate k = Ok tt → ∃ F0, ∀ F st, (F0 ≤ F)%nat → daemon_store log F st → offers log st k n
  | _ => True
  end.

Lemma utf8_below m ch q : StronglySorted bytes_lt ch.*1 → q ∈ ch → utf8_tree (NDir m ch) → utf8_tree q.2.
Proof. intros Hs Hq Hu p m' ch' Hat. apply (Hu ([q.1] ++ p) m' ch'). by rewrite (node_at_app _ _ _ _ (child_at m ch q Hs Hq)). Qed.

(** One child, and all of them. *)
Lemma child_offered log e name n : ls_shows log e name n → offered log n → node_wf n → utf8_tree n →
  ∃ F0, ∀ F st k', (F0 ≤ F)%nat → daemon_store log F st → ls_Key e = hex_EncodeToString (kb k') → offers log st k' n.
Proof.
  intros Hsh Ho Hwf Hu. destruct n as [m c|m ch|m t|m chr r|m|m]; try by (exists 0%nat; intros; constructor).
  - destruct Hsh as (_ & _ & _ & _ & _ & _ & _ & _ & k & h & Hk & Hv & _ & Ht). destruct (Ho k h Ht Hv) as [F0 HF]. exists F0.
    intros F st k' Hle Hst Hk'. rewrite Hk in Hk'. apply hex_inj, Key_eq in Hk' as <-. by apply (HF F).
  - destruct Hsh as (_ & _ & _ & _ & _ & _ & _ & k & Hk & Hv & Hst). destruct (Ho k Hst Hv Hwf Hu) as [F0 HF]. exists F0.
    intros F st k' Hle Hs Hk'. rewrite Hk in Hk'. apply hex_inj, Key_eq in Hk' as <-. by apply (HF F).
Qed.

Lemma children_offered log lines ch : Forall2 (λ e q, ls_shows log e q.1 q.2) lines ch → Forall (λ q, offered log q.2 ∧ node_wf q.2 ∧ utf8_tree q.2) ch →
  ∃ F0, ∀ F st, (F0 ≤ F)%nat → daemon_store log F st → ∀ i e q k', lines !! i = Some e → ch !! i = Some q → ls_Key e = hex_EncodeToString (kb k') → offers log st k' q.2.
Proof.
  induction 1 as [|e q lines ch Hsh _ IH]; [exists 0%nat; by intros|]. intros [(Ho & Hwf & Hu) Hall]%Forall_cons. destruct (IH Hall) as [F1 H1'].
  destruct (child_offered log e q.1 q.2 Hsh Ho Hwf Hu) as [F2 H2']. exists (F1 + F2)%nat. intros F st Hle Hst [|i] e' q' k' He Hq Hk.
  - injection He as <-. injection Hq as <-. apply (H2' F); [lia|done..].
  - apply (H1' F st ltac:(lia) Hst i e' q' k' He Hq Hk).
Qed.

Lemma all_offered log n : offered log n.
Proof.
  induction n as [m c|m t|m chr r|m|m|m ch Hch] using node_rect'; try done.
  - intros k h Ht Hv. exists h. intros F st Hle (_ & Hf & _). constructor. destruct (Hf k) as (env & d & Hd & Hfuel & ->).
    eapply c_File_stored; [done..|lia].
  - intros k Hst Hv Hwf Hu. pose proof Hwf as (_ & Hs & _). destruct (c_Ls_dir render log k ch Hst Hv Hs (Hu [] m ch eq_refl)) as (lines & h & Hsh & Hls).
    destruct (children_offered log lines ch Hsh) as [F1 H1'].
    { rewrite Forall_forall in Hch |- *. intros q Hq. split_and!; [by apply Hch|by eapply wf_child|by eapply utf8_below]. }
    exists (h + F1)%nat. intros F st Hle Hst'. pose proof Hst' as (Hl & _). destruct (Hl k) as (env & d & Hd & Hfuel & Hk).
    eapply offers_dir; [rewrite Hk; apply Hls; [done|lia]|done|]. by apply (H1' F st ltac:(lia)).
Qed.

(** A root with the tree that is stored under it. *)
Definition stored_tree (log : list Object) (r : Key * node) : Prop :=
  ∃ m ch, r.2 = NDir m ch ∧ stored_children log r.1 ch ∧ Validate r.1 = Ok tt ∧ node_wf r.2.

Lemma roots_offered log roots : Forall (stored_tree log) roots → Forall (λ r, utf8_tree r.2) roots →
  ∃ F0, ∀ F st, (F0 ≤ F)%nat → daemon_store log F st → good_roots log st roots.
Proof.
  intros Hroots Hutf. induction Hroots as [|[k n] roots (m & ch & Hn & Hst & Hv & Hwf) _ IH]; [exists 0%nat; constructor|].
  apply Forall_cons in Hutf as [Hu Hutf]. destruct (IH Hutf) as [F1 H1']. cbn [fst snd] in *. subst n.
  destruct (all_offered log (NDir m ch) k Hst Hv Hwf Hu) as [F2 H2']. exists (F1 + F2)%nat. intros F st Hle Hs.
  constructor; [|apply (H1' F st); [lia|done]]. cbn [fst snd]. split_and!; [|done|done|apply (H2' F st); [lia|done]].
  destruct (stored_root log k ch Hst) as [Hd _]. unfold dir_key in Hd. unfold isFileKey. apply orb_prop in Hd as [E%Z.eqb_eq|E%Z.eqb_eq]; by rewrite E.
Qed.

(** A session is opened at a root or at the list of references. *)
Definition starts (roots : list (Key * node)) (cap : Z) (m : browseModel) : Prop :=
  (∃ cwd k n name, (k, n) ∈ roots ∧ m = newBrowseModel cwd cap k name) ∨ ∃ cwd, m = newRefPickerModel cwd cap.

(** What the screen is made from. *)
Definition shown (log : list Object) (st : bstore) (roots : list (Key * node)) (refs : list RefInfo) (cap : Z) (m : browseModel) : Prop :=
  if bool_decide (bm_mode m = modeRefs) then bm_refs m = refs ∧ in_list (bm_refCursor m) (filteredRefs m) else
  ∃ f fs n0 mm ch, bm_stack m = f :: fs ∧ (fr_key f, n0) ∈ roots ∧ node_at n0 (fr_name <$> fs) = Some (NDir mm ch) ∧
    Forall2 (λ e q, ls_shows log e q.1 q.2) (bm_entries m) ch ∧ in_list (bm_cursor m) (visibleEntries m) ∧
    match bm_mode m with
    | modeFile => ∃ name mf content, node_at (NDir mm ch) [name] = Some (NFile mf content) ∧ file_shows cap (bm_file m) name content
    | modeExport => ∃ n, node_at (NDir mm ch) [bm_exportName m] = Some n ∧ bm_exportIsDir m = node_dir n ∧
                         match n with NFile _ content => bs_File st (bm_exportKey m) = Ok (content, None) | _ => True end
    | _ => True
    end.

Lemma showing_shown log st roots refs cap m : good_roots log st roots → showing log st roots refs cap m → shown log st roots refs cap m.
Proof.
  intros Hg [Hok Hs]. unfold shown. case_bool_decide as Hmode; [split; [done|apply Hok]|]. destruct Hs as (mm & ch & Hp & Hm).
  destruct (place_entries log st roots Hg m mm ch Hp) as (_ & Hsh & _). destruct Hp as (Hin & _). destruct (inside_path log st roots _ _ Hin) as (k0 & n0 & name0 & rest & E & Hr & Hat).
  destruct (bm_stack m) as [|f fs] eqn:Hfs; [done|]. rewrite fmap_cons in E. injection E as <- <- <-. exists f, fs, n0, mm, ch.
  split_and!; [done|done|by rewrite <- Hat, <- list_fmap_compose|done|apply Hok|]. unfold shows_mode in Hm. destruct (bm_mode m); try done.
  - destruct Hm as (name & mf & content & ? & ? & _). by exists name, mf, content.
  - destruct Hm as (n & Hn & Hd & Ho). exists n. split_and!; [done..|]. destruct n as [mf content| | | | |]; try done. specialize (Ho eq_refl). by inversion Ho.
Qed.

Lemma start_shows log st roots refs cap m d : good_roots log st roots → 0 <= cap < 2 ^ 63 - 1 → bs_ListRefs st = Ok refs → (∀ k, safe (bs_File st k)) → (∀ k, safe (bs_Tar st k)) →
  starts roots cap m → ∃ c m' d', Init m = Ok c ∧ settle render 3 st m c d = (Ok m', d') ∧ showing log st roots refs cap m'.
Proof.
  intros Hg Hcap Hl Hf Ht [(cwd & k & n & name & Hin & ->)|(cwd & ->)].
  - pose proof Hg as Hg'. unfold good_roots in Hg'. rewrite Forall_forall in Hg'. destruct (Hg' _ Hin) as (Hk & Hd & _). cbn [fst snd] in *.
    destruct n as [|mm ch| | | |]; try done. exists (loadDir k).
    assert (Init (newBrowseModel cwd cap k name) = Ok (loadDir k)) as Hi. { unfold Init, newBrowseModel. rewrite Hk. transitivity (if isFileKey k then Ok (fetchFile k name (Length k)) else Ok (loadDir k)); [reflexivity|by rewrite Hk]. }
    destruct (settle_ready render log st roots refs cap Hg Hcap Hl Hf Ht (newBrowseModel cwd cap k name) (loadDir k) d) as (m' & d' & Hs & Hsh).
    { split; [split; [apply new_cursors|unfold newBrowseModel; by rewrite Hk|left; unfold newBrowseModel; by rewrite Hk]|].
      unfold newBrowseModel. rewrite Hk. split; [done|]. exists mm, ch, (mkFrame k name 0). split_and!; [by apply inside_root|done|done]. }
    exists m', d'. by split_and!.
  - exists loadRefs. destruct (settle_ready render log st roots refs cap Hg Hcap Hl Hf Ht (newRefPickerModel cwd cap) loadRefs d) as (m' & d' & Hs & Hsh).
    { split; [|done]. split; [apply start_cursors|done|by left]. }
    exists m', d'. by split_and!.
Qed.

(** C23. The browser shows what is stored.  The trees have names and link targets that are
    UTF-8 (the daemon's JSON replaces what is not), the cap on what is viewed is not
    negative and below 2^63-1, and the daemon's store stays as it is and its reads do not
    fail.  Then in a session that is opened at a stored tree or at the list of references,
    each of them to a stored tree, whatever keys are pressed and however the terminal is
    resized, each answer arriving before the next key: nothing panics; the entries that are listed are those of the directory that
    the path of the stack leads to in its tree; a file that is viewed is an entry of
    that directory with its name, its length and its content up to the cap, marked as
    truncated exactly when it is longer; and what the export prompt would write is an
    entry of it.  The fuel is the height of the trees. *)
Theorem browse_tree log roots refs cap m0 :
  Forall (stored_tree log) roots → Forall (λ r, utf8_tree r.2) roots → Forall (λ r, ∃ t, t ∈ roots ∧ cmd_parseHexKey (ri_Key r) = Ok t.1) refs → 0 <= cap < 2 ^ 63 - 1 → starts roots cap m0 →
  ∃ F0, ∀ F st xs d, (F0 ≤ F)%nat → daemon_store log F st → bs_ListRefs st = Ok refs → Forall from_terminal xs →
    ∃ m d', run_session render st m0 xs d = (Ok m, d') ∧ shown log st roots refs cap m.
Proof.
  intros Hroots Hutf Hrefs Hcap Hm0. destruct (roots_offered log roots Hroots Hutf) as [F0 HF]. exists F0. intros F st xs d Hle Hst Hl Hxs.
  pose proof (HF F st Hle Hst) as Hg. destruct (daemon_store_safe log F st Hst) as [Hf Ht].
  destruct (start_shows log st roots refs cap m0 d Hg Hcap Hl Hf Ht Hm0) as (c & m & d1 & Hi & Hs & Hsh). unfold run_session. rewrite Hi, Hs.
  clear Hm0 Hi Hs. revert m d1 Hsh. induction Hxs as [|x xs Hx _ IH]; intros m d1 Hsh; [exists m, d1; split; [done|by apply showing_shown]|].
  cbn [inputs]. destruct (input_shows render log st roots refs cap Hg Hcap Hl Hrefs Hf Ht x m d1 Hx Hsh) as (m' & d2 & -> & Hsh'). by apply IH.
Qed.
End over.

(** ** An application *)
Section examples.
#[local] Existing Instance zstd_example.
#[local] Existing Instance blake3_example.
#[local] Existing Instance cbor_example.
#[local] Existing Instance refcbor_example.
#[local] Existing Instance pebble_example.
#[local] Existing Instance pebble_example_laws.
#[local] Existing Instance sshsig_example.
#[local] Existing Instance sshkeys_example.
#[local] Existing Instance dev_example.
#[local] Existing Instance dev_example_laws.
#[local] Existing Instance url_example.
#[local] Existing Instance json_example.
#[local] Existing Instance percent_example.
#[local] Existing Instance text_daemon.
#[local] Existing Instance text_client.
#[local] Existing Instance text_laws.
#[local] Existing Instance fuse_open.
#[local] Existing Instance terminal_example.
#[local] Existing Instance terminal_example_laws.
#[local] Existing Instance cbor_text_example.

Definition browsed_daemon (F : nat) : bstore := mkBstore
  (λ k, (c_Ls (d_serve render_example (mounted_env F)) k [] (daemon_of stored_store)).1)
  (λ k, (c_File (d_serve render_example (mounted_env F)) k (daemon_of stored_store)).1)
  (λ k, (c_Tar (d_serve render_example (mounted_env F)) k [] (daemon_of stored_store)).1) (Ok []).

Lemma browse_tree_witness :
  let root := stored_example.1 in
  let roots := [(root, mounted_node)] in
  ∃ F m d, run_session render_example (browsed_daemon F) (newBrowseModel (str "/tmp") 100 root (str "root")) (keys_of ["down"; "up"; "enter"; "e"])
             (mkEdisk ∅ []) = (Ok m, d) ∧ shown stored_example.2 (browsed_daemon F) roots [] 100 m.
Proof.
  destruct (browse_tree render_example stored_example.2 [(stored_example.1, mounted_node)] [] 100 (newBrowseModel (str "/tmp") 100 stored_example.1 (str "root"))) as [F HF].
  - constructor; [|constructor]. exists meta_example, [([x66], file_node); ([x6c], link_node)].
    split; [reflexivity|]. split; [exact stored_children_example|]. split; [vm_compute; reflexivity|exact mounted_wf].
  - constructor; [exact mounted_utf8|constructor].
  - constructor.
  - lia.
  - left. exists (str "/tmp"), stored_example.1, mounted_node, (str "root"). split; [constructor|reflexivity].
  - exists F. destruct (HF F (browsed_daemon F) (keys_of ["down"; "up"; "enter"; "e"]) (mkEdisk ∅ []) (le_n F)) as (m & d & Hr & Hs).
    + split; [|split]; intros k; exists (mounted_env F), (daemon_of stored_store); exact (conj mounted_holds (conj (le_n F) eq_refl)).
    + reflexivity.
    + repeat constructor.
    + exists m, d. exact (conj Hr Hs).
Defined.
End examples.
