(* ===== verification/BrowseFits.v ===== *)
(** * What the browser draws ([browse_model.go], [browse_refs.go], [browse_file.go], [browse_hex.go], [ls.go]) *)

From Stdlib Require Import Init.Byte.
From coqutil Require Import Datatypes.RecordSetters.
From S2P Require Import Prelude Machine Key Chunkers FsEncode FsTree FsRead FsWalk PackRecord PackStream Footer Packstore PackstoreRep PackstoreFacts Compact Parallel Inbox InboxProtocol Text Sshsign Reference Refstore Gc Auth Server Routes Sync Remote Path Posix Ingest IngestFacts PosixFacts Tar TarFacts AllowStore Remotes Daemon DaemonFacts Client ClientFacts Admin Browse BrowseFacts.
From Stdlib Require Import ZifyBool ZifyNat.
Import TriangleBracketNotations.
Local Open Scope Z_scope.

(** What is used of [time]: a layout applied to a time, and months added to one. *)
Class Calendar := { time_Format : string → Z → bytes; AddMonths : Z → Z → Z }.

(** ** Runes and columns *)

(** [string(r)] for a rune that [range] gives. *)
Definition encode_rune (r : Z) : bytes :=
  if r <? 0x80 then [z2b r] else
  if r <? 0x800 then [z2b (0xC0 + r / 64); z2b (0x80 + r mod 64)] else
  if r <? 0x10000 then [z2b (0xE0 + r / 4096); z2b (0x80 + r / 64 mod 64); z2b (0x80 + r mod 64)] else
  [z2b (0xF0 + r / 262144); z2b (0x80 + r / 4096 mod 64); z2b (0x80 + r / 64 mod 64); z2b (0x80 + r mod 64)].
Definition encode_runes (rs : list Z) : bytes := concat (encode_rune <$> rs).

Definition space : byte := x20.
Definition blanks (n : Z) : bytes := replicate (Z.to_nat n) space.

(** [%-*s] and [%*s]: the width counts runes. *)
Definition pad_right (w : Z) (s : bytes) : bytes := s ++ blanks (w - zlen (runes s)).
Definition pad_left (w : Z) (s : bytes) : bytes := blanks (w - zlen (runes s)) ++ s.

Fixpoint expand_loop (rs : list Z) (col : Z) : list Z :=
  match rs with
  | [] => []
  | r :: rs => if r =? 9 then let n := 8 - col mod 8 in replicate (Z.to_nat n) 32 ++ expand_loop rs (col + n)
               else r :: expand_loop rs (col + 1)
  end.
Definition expandTabs (s : bytes) : bytes := if bool_decide (tab ∈ s) then encode_runes (expand_loop (runes s) 0) else s.

Definition fit_line (w : Z) (line : bytes) : bytes :=
  let line := expandTabs line in
  if w >? 0 then
    let r := runes line in if zlen r >? w then encode_runes (take (Z.to_nat w) r) else line
  else line.
Definition fitLines (s : bytes) (w : Z) : bytes := join_with [newline] (fit_line w <$> split_at newline s).

Definition hr (width : Z) : bytes := concat (replicate (Z.to_nat (if width <? 1 then 1 else width)) [xe2; x94; x80]).

(** ** Entries ([ls.go]) *)
Definition sizeString (e : lsEntry) : bytes :=
  match ls_Rdev e with
  | [a; b] => FormatInt a ++ [x2c] ++ FormatInt b
  | _ => FormatInt (ls_Size e)
  end.

Definition setBit (mode : Z) (pos : nat) (bit : Z) (withX withoutX : byte) (b : bytes) : bytes :=
  if Z.land mode bit =? 0 then b else <[pos := if bool_decide (b !! pos = Some x78) then withX else withoutX]> b.

Definition modeString (mode : Z) : bytes :=
  let ty := Z.land mode S_IFMT in
  let c0 := if ty =? S_IFDIR then x64 else if ty =? S_IFLNK then x6c else if ty =? S_IFCHR then x63 else if ty =? S_IFBLK then x62 else
            if ty =? S_IFIFO then x70 else if ty =? S_IFSOCK then x73 else if ty =? S_IFREG then x2d else x3f in
  let b := c0 :: imap (λ i c, if Z.testbit mode (8 - Z.of_nat i) then c else x2d) (str "rwxrwxrwx") in
  setBit mode 9 0x200 x74 x54 (setBit mode 6 0x400 x73 x53 (setBit mode 3 0x800 x73 x53 b)).

Definition formatMtime `{Calendar} (t now : Z) : bytes :=
  if (now <? t) || (t <? AddMonths now (-6)) then time_Format "Jan _2  2006" t else time_Format "Jan _2 15:04" t.

Definition widest {A} (f : A → bytes) (w : Z) (l : list A) : Z := foldl (λ w a, Z.max w (zlen (f a))) w l.

Definition renderLs `{Calendar} (entries : list lsEntry) (now : Z) (showKeys : bool) : bytes :=
  let uidW := widest (λ e, FormatInt (ls_UID e)) 0 entries in
  let gidW := widest (λ e, FormatInt (ls_GID e)) 0 entries in
  let sizeW := widest sizeString 0 entries in
  concat ((λ e,
    let name := ls_Name e ++ (if bool_decide (ls_LinkTarget e = []) then [] else str " -> " ++ ls_LinkTarget e)
                          ++ (if showKeys && negb (bool_decide (ls_Key e = [])) then space :: ls_Key e else []) in
    modeString (ls_Mode e) ++ [space] ++ pad_left uidW (FormatInt (ls_UID e)) ++ [space] ++ pad_left gidW (FormatInt (ls_GID e)) ++ [space] ++
    pad_left sizeW (sizeString e) ++ [space] ++ formatMtime (ls_MtimeNs e) now ++ [space] ++ name ++ [newline]) <$> entries).

(** ** A file *)
Definition hex_pair (c : byte) : bytes := [hex_char (b2z c / 16); hex_char (b2z c mod 16)].

(** [%08x] *)
Fixpoint hex_digits (fuel : nat) (z : Z) (acc : bytes) : bytes :=
  match fuel with
  | O => acc
  | S fuel => if z =? 0 then acc else hex_digits fuel (z / 16) (hex_char (z mod 16) :: acc)
  end.
Definition hex8 (z : Z) : bytes := let d := hex_digits 16 z [] in replicate (8 - length d) x30 ++ d.

Definition printable (c : byte) : bool := (0x20 <=? b2z c) && (b2z c <? 0x7f).
Definition hexDumpLine (offset : Z) (b : bytes) : bytes :=
  hex8 offset ++ blanks 2 ++
  concat ((λ i, match b !! i with Some c => hex_pair c ++ [space] | None => blanks 3 end ++ (if (i =? 7)%nat then [space] else [])) <$> seq 0 16) ++
  [space; x7c] ++ ((λ c, if printable c then c else x2e) <$> b) ++ [x7c].

Definition window (lines : list bytes) (top n : Z) : result (list bytes) :=
  if top >=? zlen lines then Ok [] else
  let hi := top + n in slice lines top (if hi >? zlen lines then zlen lines else hi).

(** The indexes of [for i := lo; i < hi; i++]. *)
Definition range (lo hi : Z) : list Z := (λ j, lo + Z.of_nat j) <$> seq 0 (Z.to_nat (hi - lo)).

Definition hex_rows (data : bytes) (top body total : Z) : result (list bytes) :=
  foldR (λ i lines,
    let hi := (i + 1) * 16 in
    b ← slice data (i * 16) (if hi >? zlen data then zlen data else hi);
    Ok (lines ++ [hexDumpLine (i * 16) b])) (range top (Z.min (top + body) total)) [].

Section view.
Context `{Terminal} `{CborText} `{Calendar}.
Context (render : error → bytes).

Definition file_lines (fv : fileView) (body : Z) : result (list bytes) :=
  match fv_mode fv with
  | modeText => window (fv_textLines fv) (fv_top fv) body
  | modeJSON => match fv_jsonErr fv with Some e => Ok [render e] | None => window (fv_jsonLines fv) (fv_top fv) body end
  | modeHex => hex_rows (fv_data fv) (fv_top fv) body (lineCount fv)
  end.

Definition render_file (fv : fileView) (width height : Z) : result bytes :=
  let header := fv_name fv ++ blanks 2 ++ FormatInt (fv_size fv) ++ str " bytes  [" ++ str (viewMode_String (fv_mode fv)) ++ str "]" ++
                (if fv_truncated fv then str "  (truncated)" else []) in
  lines ← file_lines fv (file_body height);
  Ok (join_with [newline] ([header; hr width] ++ lines)).

(** ** The lists *)
Definition listName (e : lsEntry) : bytes := if entryIsDir e then ls_Name e ++ [x2f] else ls_Name e.
Definition listSize (e : lsEntry) : bytes := if entryIsDir e then str "-" else sizeString e.

(** The first row that is drawn. *)
Definition list_top (cursor listTop body : Z) : Z :=
  let top := if cursor <? listTop then cursor else listTop in
  if cursor >=? top + body then cursor - body + 1 else top.

(** The rows from [top] on, as many as there is room for. *)
Definition list_rows {A} (row : Z → A → bytes) (top body : Z) (l : list A) : result bytes :=
  foldR (λ i out, a ← index l i; Ok (out ++ row i a)) (range top (Z.min (top + body) (zlen l))) [].

Definition list_body (height : Z) (filtering : bool) : Z :=
  let body := if filtering then height - 4 - 1 else height - 4 in if body <? 1 then 1 else body.
Definition list_window (m : browseModel) : Z * Z :=
  let body := list_body (bm_height m) (bm_filtering m) in (list_top (bm_cursor m) (bm_listTop m) body, body).

Definition cursor_mark (i cursor : Z) : bytes := if i =? cursor then str "> " else str "  ".
Definition list_row (now cursor nameW sizeW : Z) (i : Z) (e : lsEntry) : bytes :=
  cursor_mark i cursor ++ pad_right nameW (listName e) ++ blanks 2 ++ pad_left sizeW (listSize e) ++ blanks 2 ++
  pad_right 12 (formatMtime (ls_MtimeNs e) now) ++ blanks 2 ++ modeString (ls_Mode e) ++
  (if bool_decide (ls_LinkTarget e = []) then [] else str "  -> " ++ ls_LinkTarget e) ++ [newline].

Definition viewList (now : Z) (m : browseModel) : result bytes :=
  let entries := visibleEntries m in
  let nameW := widest listName 4 entries in
  let sizeW := widest listSize 4 entries in
  let '(top, body) := list_window m in
  rows ← list_rows (list_row now (bm_cursor m) nameW sizeW) top body entries;
  Ok (join_with [x2f] (fr_name <$> bm_stack m) ++ [newline] ++
      (if bm_filtering m then ti_View (bm_dirFilter m) ++ [newline] else []) ++ hr (bm_width m) ++ [newline] ++
      blanks 2 ++ pad_right nameW (str "NAME") ++ blanks 2 ++ pad_left sizeW (str "SIZE") ++ blanks 2 ++ pad_right 12 (str "MODIFIED") ++ str "  MODE" ++ [newline] ++
      rows ++ (if bm_filtering m && bool_decide (entries = []) then str "  (no matching entries)" ++ [newline] else []) ++
      (if bool_decide (bm_status m = []) then [] else [newline] ++ bm_status m)).

(** [browse_refs.go] *)
Definition refs_body (height : Z) (filtering : bool) : Z :=
  let body := if filtering then height - 3 - 1 else height - 3 in if body <? 1 then 1 else body.
Definition refs_top (cursor body : Z) : Z := if cursor >=? body then cursor - body + 1 else 0.
Definition refs_window (m : browseModel) : Z * Z :=
  let body := refs_body (bm_height m) (bm_refFiltering m) in (refs_top (bm_refCursor m) body, body).
Definition ref_row (cursor nameW : Z) (i : Z) (r : RefInfo) : bytes :=
  cursor_mark i cursor ++ pad_right nameW (ri_Name r) ++ blanks 2 ++ ri_User r ++ blanks 2 ++ ri_CreatedAt r ++ [newline].

Definition viewRefs (m : browseModel) : result bytes :=
  let fr := filteredRefs m in
  let '(top, body) := refs_window m in
  let head := str "references" ++ [newline] ++ (if bm_refFiltering m then ti_View (bm_filter m) ++ [newline] else []) ++ hr (bm_width m) ++ [newline] in
  if bool_decide (fr = []) then
    Ok (head ++ str "  (no matching references)" ++ (if bool_decide (bm_status m = []) then [] else [newline; newline] ++ bm_status m))
  else
    rows ← list_rows (ref_row (bm_refCursor m) (widest ri_Name 0 fr)) top body fr;
    Ok (head ++ rows ++ (if bool_decide (bm_status m = []) then [] else [newline] ++ bm_status m)).

Definition viewBody (now : Z) (m : browseModel) : result bytes :=
  match bm_mode m with
  | modeFile => render_file (bm_file m) (bm_width m) (bm_height m)
  | modeExport => l ← viewList now m; Ok (l ++ [newline] ++ ti_View (bm_input m))
  | modeRefs => viewRefs m
  | modeList => viewList now m
  end.

Definition View (now : Z) (m : browseModel) : result bytes := s ← viewBody now m; Ok (fitLines s (bm_width m)).
End view.

(** ** What the browser draws fits the terminal *)

(** ** Runes *)
Definition valid_rune (r : Z) : Prop := 0 <= r < 0xD800 ∨ 0xE000 <= r < 0x110000.

Lemma valid2 x y : in_range 194 223 x = true → in_range 128 191 y = true → 128 <= (x mod 32) * 64 + y mod 64 < 0x800.
Proof.
  unfold in_range. intros Hx Hy. assert (x mod 32 = x - 192) as -> by (Z.to_euclidean_division_equations; lia).
  assert (y mod 64 = y - 128) as -> by (Z.to_euclidean_division_equations; lia). lia.
Qed.

Lemma valid3 x y z : in_range 224 239 x = true → second3 x y = true → in_range 128 191 z = true →
  128 <= (x mod 16) * 4096 + (y mod 64) * 64 + z mod 64 ∧ valid_rune ((x mod 16) * 4096 + (y mod 64) * 64 + z mod 64).
Proof.
  intros Hx Hy Hz. destruct (high3 x y z Hx Hy) as [_ Hh]. split; [done|]. unfold valid_rune, second3, in_range in *.
  assert (x mod 16 = x - 224) as -> by (Z.to_euclidean_division_equations; lia).
  assert (y mod 64 = y - 128) as -> by (destruct (x =? 224), (x =? 237); Z.to_euclidean_division_equations; lia).
  assert (z mod 64 = z - 128) as -> by (Z.to_euclidean_division_equations; lia).
  destruct (x =? 224) eqn:E; [lia|]. destruct (x =? 237) eqn:E'; lia.
Qed.

Lemma valid4 x y z w : in_range 240 244 x = true → second4 x y = true → in_range 128 191 z = true → in_range 128 191 w = true →
  128 <= (x mod 8) * 262144 + (y mod 64) * 4096 + (z mod 64) * 64 + w mod 64 ∧ valid_rune ((x mod 8) * 262144 + (y mod 64) * 4096 + (z mod 64) * 64 + w mod 64).
Proof.
  intros Hx Hy Hz Hw. destruct (high4 x y z w Hx Hy) as [_ Hh]. split; [done|]. unfold valid_rune, second4, in_range in *.
  assert (x mod 8 = x - 240) as -> by (Z.to_euclidean_division_equations; lia).
  assert (y mod 64 = y - 128) as -> by (destruct (x =? 240), (x =? 244); Z.to_euclidean_division_equations; lia).
  assert (z mod 64 = z - 128) as -> by (Z.to_euclidean_division_equations; lia).
  assert (w mod 64 = w - 128) as -> by (Z.to_euclidean_division_equations; lia).
  destruct (x =? 240) eqn:E; [lia|]. destruct (x =? 244) eqn:E'; lia.
Qed.

(** The first rune of a string, and the bytes that it is read from. *)
Record first_rune (s pre rest : bytes) (r : Z) : Prop := {
  fr_split : s = pre ++ rest;
  fr_some : pre ≠ [];
  fr_runes : runes s = r :: runes rest;
  fr_valid : valid_rune r;
  fr_ascii : r < 128 → ∃ c, pre = [c] ∧ b2z c = r;
  fr_high : 128 <= r → Forall (λ c, 128 <= b2z c) pre;
}.

Lemma runes_first b s : ∃ pre rest r, first_rune (b :: s) pre rest r.
Proof.
  assert (valid_rune RuneError) as Herr by (unfold valid_rune, RuneError; lia).
  cbn. destruct (b2z b <? 128) eqn:E0.
  { exists [b], s, (b2z b). split; try done; [cbn [runes]; by rewrite E0|pose proof (b2z_range b); unfold valid_rune; lia|by exists b|intros; lia]. }
  assert (128 <= b2z b) as H0 by lia.
  assert (∀ rest, runes (b :: s) = RuneError :: runes rest → s = rest → ∃ pre rest r, first_rune (b :: s) pre rest r) as Hbad.
  { intros rest Hr <-. exists [b], s, RuneError. split; try done. by repeat constructor. }
  destruct s as [|b1 s2]; [apply (Hbad []); [cbn [runes]; by rewrite E0|done]|].
  destruct (in_range 194 223 (b2z b) && cont b1) eqn:E1.
  { apply andb_prop in E1 as [Hx Hc]. pose proof (valid2 _ _ Hx Hc) as Hv. exists [b; b1], s2, ((b2z b mod 32) * 64 + b2z b1 mod 64).
    split; try done; [cbn [runes]; by rewrite E0, Hx, Hc|unfold valid_rune; lia|intros; lia|intros _; repeat constructor; [done|by apply cont_high]]. }
  destruct s2 as [|b2 s3]; [apply (Hbad [b1]); [cbn [runes]; by rewrite E0, E1|done]|].
  destruct (in_range 224 239 (b2z b) && second3 (b2z b) (b2z b1) && cont b2) eqn:E2.
  { rewrite !andb_true_iff in E2. destruct E2 as [[Hx Hy] Hc]. destruct (valid3 _ _ _ Hx Hy Hc) as [Hh Hv]. destruct (high3 _ _ (b2z b2) Hx Hy) as [Hb1 _].
    eexists [b; b1; b2], s3, _. split; [done|done|cbn [runes]; rewrite E0, E1, Hx, Hy, Hc; done|done|intros; lia|].
    intros _. repeat constructor; [done|done|by apply cont_high]. }
  destruct s3 as [|b3 s4]; [apply (Hbad [b1; b2]); [cbn [runes]; by rewrite E0, E1, E2|done]|].
  destruct (in_range 240 244 (b2z b) && second4 (b2z b) (b2z b1) && cont b2 && cont b3) eqn:E3; [|apply (Hbad (b1 :: b2 :: b3 :: s4)); [|done]; cbn [runes]; by rewrite E0, E1, E2, E3].
  rewrite !andb_true_iff in E3. destruct E3 as [[[Hx Hy] Hc] Hd]. destruct (valid4 _ _ _ _ Hx Hy Hc Hd) as [Hh Hv]. destruct (high4 _ _ (b2z b2) (b2z b3) Hx Hy) as [Hb1 _].
  eexists [b; b1; b2; b3], s4, _. split; [done|done|cbn [runes]; rewrite E0, E1, E2, Hx, Hy, Hc, Hd; done|done|intros; lia|].
  intros _. repeat constructor; [done|done|by apply cont_high|by apply cont_high].
Qed.

(** Induction along the runes of a string. *)
Lemma runes_rect (P : bytes → Prop) : P [] → (∀ s pre rest r, first_rune s pre rest r → P rest → P s) → ∀ s, P s.
Proof.
  intros Hnil Hstep s. induction s as [s IH] using (induction_ltof1 _ length). unfold ltof in IH. destruct s as [|b s]; [done|].
  destruct (runes_first b s) as (pre & rest & r & Hf). apply (Hstep _ _ _ _ Hf). apply IH. rewrite (fr_split _ _ _ _ Hf), length_app.
  pose proof (fr_some _ _ _ _ Hf). destruct pre; [done|]. cbn. lia.
Qed.

Lemma runes_valid s : Forall valid_rune (runes s).
Proof. induction s as [|s pre rest r Hf IH] using runes_rect; [constructor|]. rewrite (fr_runes _ _ _ _ Hf). constructor; [apply Hf|done]. Qed.

Lemma runes_ascii b s : b2z b < 128 → b ∉ s → b2z b ∉ runes s.
Proof.
  intros Hb. induction s as [|s pre rest r Hf IH] using runes_rect; [intros _; apply not_elem_of_nil|]. rewrite (fr_runes _ _ _ _ Hf), (fr_split _ _ _ _ Hf).
  rewrite not_elem_of_app. intros [Hp Hrest] [E|Hin]%elem_of_cons; [|by apply IH]. destruct (fr_ascii _ _ _ _ Hf) as (c & -> & Hc); [lia|].
  apply Hp. rewrite <- E in Hc. apply b2z_inj in Hc as ->. by left.
Qed.

(** *** Writing runes *)
Lemma z2b_small z : 0 <= z < 256 → b2z (z2b z) = z.
Proof. intros. rewrite b2z_z2b. by apply Z.mod_small. Qed.

(** The digits of a rune to the base 64. *)
Lemma digits64 r : 0 <= r → ∃ q t, r = 64 * q + t ∧ 0 <= t < 64 ∧ 0 <= q ∧ r / 64 = q ∧ r mod 64 = t.
Proof. intros Hr. exists (r / 64), (r mod 64). pose proof (Z.div_mod r 64). pose proof (Z.mod_pos_bound r 64). pose proof (Z.div_pos r 64). repeat split; lia. Qed.

Lemma add_mod a n q : 0 <= q < n → a mod n = 0 → (a + q) mod n = q.
Proof. intros Hq Ha. rewrite <- Z.add_mod_idemp_l, Ha by lia. by apply Z.mod_small. Qed.

Lemma cont_z2b t : 0 <= t < 64 → cont (z2b (0x80 + t)) = true ∧ b2z (z2b (0x80 + t)) = 128 + t ∧ (128 + t) mod 64 = t.
Proof. intros Ht. unfold cont. rewrite z2b_small by lia. unfold in_range. split_and!; [lia|done|by apply add_mod]. Qed.

Lemma encode2 r rest : 0x80 <= r < 0x800 → runes (encode_rune r ++ rest) = r :: runes rest.
Proof.
  intros Hr. unfold encode_rune. replace (r <? 0x80) with false by lia. replace (r <? 0x800) with true by lia.
  destruct (digits64 r) as (q & t & E & Ht & Hq & -> & ->); [lia|]. cbn [app runes]. rewrite (z2b_small (0xC0 + q)) by lia. change 0xC0 with 192.
  replace (192 + q <? 128) with false by lia. destruct (cont_z2b t Ht) as (-> & -> & ->). unfold in_range. replace ((194 <=? 192 + q) && (192 + q <=? 223)) with true by lia.
  cbn [andb]. rewrite (add_mod 192 32 q) by (done || lia). f_equal. lia.
Qed.

Lemma encode3 r rest : 0x800 <= r < 0x10000 → valid_rune r → runes (encode_rune r ++ rest) = r :: runes rest.
Proof.
  intros Hr Hv. unfold encode_rune. replace (r <? 0x80) with false by lia. replace (r <? 0x800) with false by lia. replace (r <? 0x10000) with true by lia.
  replace (r / 4096) with (r / 64 / 64) by (by rewrite Z.div_div). destruct (digits64 r) as (q & t & E & Ht & Hq & -> & ->); [lia|].
  destruct (digits64 q Hq) as (p & u & Eq & Hu & Hp & -> & ->). cbn [app runes]. rewrite (z2b_small (0xE0 + p)) by lia. change 0xE0 with 224.
  replace (224 + p <? 128) with false by lia. destruct (cont_z2b t Ht) as (-> & -> & ->), (cont_z2b u Hu) as (-> & -> & ->).
  assert (in_range 194 223 (224 + p) = false) as -> by (unfold in_range; lia). cbn [andb].
  assert (in_range 224 239 (224 + p) = true) as -> by (unfold in_range; lia). cbn [andb]. unfold second3.
  assert ((if 224 + p =? 224 then in_range 160 191 (128 + u) else if 224 + p =? 237 then in_range 128 159 (128 + u) else in_range 128 191 (128 + u)) = true) as Hs.
  { unfold in_range, valid_rune in *. destruct (224 + p =? 224) eqn:E1; [lia|]. destruct (224 + p =? 237) eqn:E2; lia. }
  rewrite Hs. cbn [andb]. rewrite (add_mod 224 16 p) by (done || lia). f_equal. lia.
Qed.

Lemma encode4 r rest : 0x10000 <= r < 0x110000 → runes (encode_rune r ++ rest) = r :: runes rest.
Proof.
  intros Hr. unfold encode_rune. replace (r <? 0x80) with false by lia. replace (r <? 0x800) with false by lia. replace (r <? 0x10000) with false by lia.
  replace (r / 262144) with (r / 64 / 64 / 64) by (by rewrite !Z.div_div). replace (r / 4096) with (r / 64 / 64) by (by rewrite Z.div_div).
  destruct (digits64 r) as (q & t & E & Ht & Hq & -> & ->); [lia|]. destruct (digits64 q Hq) as (p & u & Eq & Hu & Hp & -> & ->).
  destruct (digits64 p Hp) as (o & v & Ep & Hv & Ho & -> & ->). cbn [app runes]. rewrite (z2b_small (0xF0 + o)) by lia. change 0xF0 with 240.
  replace (240 + o <? 128) with false by lia. destruct (cont_z2b t Ht) as (-> & -> & ->), (cont_z2b u Hu) as (-> & -> & ->), (cont_z2b v Hv) as (-> & -> & ->).
  assert (in_range 194 223 (240 + o) = false) as -> by (unfold in_range; lia). cbn [andb].
  assert (in_range 224 239 (240 + o) = false) as -> by (unfold in_range; lia). cbn [andb].
  assert (in_range 240 244 (240 + o) = true) as -> by (unfold in_range; lia). cbn [andb]. unfold second4.
  assert ((if 240 + o =? 240 then in_range 144 191 (128 + v) else if 240 + o =? 244 then in_range 128 143 (128 + v) else in_range 128 191 (128 + v)) = true) as Hs.
  { unfold in_range in *. destruct (240 + o =? 240) eqn:E1; [lia|]. destruct (240 + o =? 244) eqn:E2; lia. }
  rewrite Hs. cbn [andb]. rewrite (add_mod 240 8 o) by (done || lia). f_equal. lia.
Qed.

Lemma runes_encode r rest : valid_rune r → runes (encode_rune r ++ rest) = r :: runes rest.
Proof.
  intros Hv. destruct (r <? 0x80) eqn:E1.
  - unfold encode_rune. rewrite E1. cbn [app runes]. unfold valid_rune in Hv. rewrite z2b_small by lia. by rewrite E1.
  - destruct (r <? 0x800) eqn:E2; [apply encode2; lia|]. destruct (r <? 0x10000) eqn:E3; [apply encode3; [lia|done]|]. apply encode4. unfold valid_rune in Hv. lia.
Qed.

Lemma runes_encode_all rs : Forall valid_rune rs → runes (encode_runes rs) = rs.
Proof. unfold encode_runes. induction 1 as [|r rs Hr _ IH]; [done|]. rewrite fmap_cons. cbn [concat]. by rewrite runes_encode, IH. Qed.

Lemma encode_ascii b r : valid_rune r → b2z b < 128 → b ∈ encode_rune r → b2z b = r.
Proof.
  intros Hv Hb. unfold encode_rune. pose proof (b2z_range b).
  assert (∀ z, b = z2b z → 0 <= z < 256 → b2z b = z) as Hz by (intros z -> ?; by rewrite z2b_small).
  assert (∀ z, b = z2b (0x80 + z mod 64) → False) as Hc.
  { intros z Ez. pose proof (Z.mod_pos_bound z 64). specialize (Hz _ Ez). lia. }
  unfold valid_rune in Hv. destruct (r <? 0x80) eqn:E1; [|destruct (r <? 0x800) eqn:E2; [|destruct (r <? 0x10000) eqn:E3]];
    rewrite ?elem_of_cons, elem_of_nil; intros Hin.
  - destruct Hin as [E|[]]. rewrite E. by apply z2b_small; lia.
  - destruct Hin as [E|[E|[]]]; [|by apply Hc in E]. specialize (Hz _ E). assert (0 <= r / 64 < 32) by (split; [apply Z.div_pos; lia|apply Z.div_lt_upper_bound; lia]). lia.
  - destruct Hin as [E|[E|[E|[]]]]; [|by apply Hc in E..]. specialize (Hz _ E). assert (0 <= r / 4096 < 16) by (split; [apply Z.div_pos; lia|apply Z.div_lt_upper_bound; lia]). lia.
  - destruct Hin as [E|[E|[E|[E|[]]]]]; [|by apply Hc in E..]. specialize (Hz _ E). assert (0 <= r / 262144 < 8) by (split; [apply Z.div_pos; lia|apply Z.div_lt_upper_bound; lia]). lia.
Qed.

Lemma encode_no b rs : Forall valid_rune rs → b2z b < 128 → b2z b ∉ rs → b ∉ encode_runes rs.
Proof.
  unfold encode_runes. intros Hv Hb Hno Hin. apply list_elem_of_In, in_concat in Hin as (l & Hl & Hin). apply list_elem_of_In in Hl, Hin.
  apply list_elem_of_fmap in Hl as (r & -> & Hr). apply Hno. rewrite Forall_forall in Hv. by rewrite (encode_ascii b r (Hv r Hr) Hb Hin).
Qed.

(** ** Lines *)
Lemma split_at_pieces sep s : Forall (λ l, sep ∉ l) (split_at sep s) ∧ split_at sep s ≠ [].
Proof.
  induction s as [|c s [IH Hne]]; cbn [split_at]; [split; [|done]; repeat constructor; apply not_elem_of_nil|].
  case_bool_decide as Hc; [split; [|done]; constructor; [apply not_elem_of_nil|done]|].
  destruct (split_at sep s) as [|p ps]; [done|]. apply Forall_cons in IH as [Hp Hps]. split; [|done]. constructor; [|done].
  rewrite not_elem_of_cons. by split; [intros ->|].
Qed.

Lemma split_join_with sep ls : ls ≠ [] → Forall (λ l, sep ∉ l) ls → split_at sep (join_with [sep] ls) = ls.
Proof.
  intros Hne Hls. induction Hls as [|l ls Hl _ IH]; [done|]. destruct ls as [|l' ls]; [by apply split_at_no|].
  change (join_with [sep] (l :: l' :: ls)) with (l ++ sep :: join_with [sep] (l' :: ls)). rewrite split_at_cons by done. by rewrite IH.
Qed.

Lemma expand_elem rs : ∀ col r, r ∈ expand_loop rs col → r = 32 ∨ r ∈ rs ∧ r ≠ 9.
Proof.
  induction rs as [|a rs IH]; intros col r; cbn [expand_loop]; [by intros ?%elem_of_nil|]. destruct (a =? 9) eqn:E.
  - intros [Hin|Hin]%elem_of_app; [left; by apply elem_of_replicate in Hin as [-> _]|]. destruct (IH _ _ Hin) as [?|[? ?]]; [by left|]. right. split; [by right|done].
  - intros [->|Hin]%elem_of_cons; [right; split; [by left|lia]|]. destruct (IH _ _ Hin) as [?|[? ?]]; [by left|]. right. split; [by right|done].
Qed.

Lemma expand_valid rs col : Forall valid_rune rs → Forall valid_rune (expand_loop rs col).
Proof. rewrite !Forall_forall. intros Hv r Hr. destruct (expand_elem rs col r Hr) as [->|[? _]]; [unfold valid_rune; lia|by apply Hv]. Qed.

Lemma expandTabs_no_tab s : tab ∉ expandTabs s.
Proof.
  unfold expandTabs. case_bool_decide; [|done]. apply encode_no; [apply expand_valid, runes_valid|by vm_compute|].
  intros Hin. change (b2z tab) with 9 in Hin. by apply expand_elem in Hin as [?|[_ ?]].
Qed.

Lemma expandTabs_newline s : newline ∉ s → newline ∉ expandTabs s.
Proof.
  intros Hs. unfold expandTabs. case_bool_decide; [|done]. apply encode_no; [apply expand_valid, runes_valid|by vm_compute|].
  intros Hin. apply expand_elem in Hin as [?|[Hin _]]; [done|]. by apply (runes_ascii newline s) in Hin; [|by vm_compute|].
Qed.

(** A part of the runes of a line. *)
Lemma fit_line_spec w s : (tab ∉ fit_line w s) ∧ (newline ∉ s → newline ∉ fit_line w s) ∧ (0 < w → zlen (runes (fit_line w s)) <= w).
Proof.
  unfold fit_line. cbv zeta. pose proof (expandTabs_no_tab s) as Ht. pose proof (expandTabs_newline s) as Hn.
  destruct (w >? 0) eqn:E; [|split_and!; [done|done|intros; lia]]. destruct (_ >? w) eqn:E'; [|split_and!; [done|done|intros; lia]].
  assert (Forall valid_rune (take (Z.to_nat w) (runes (expandTabs s)))) as Hv by apply Forall_take, runes_valid.
  assert (∀ b, b2z b < 128 → b ∉ expandTabs s → b ∉ encode_runes (take (Z.to_nat w) (runes (expandTabs s)))) as Hb.
  { intros b Hb Hno. apply encode_no; [done..|]. intros Hin. apply (runes_ascii b (expandTabs s) Hb Hno).
    rewrite <- (take_drop (Z.to_nat w) (runes (expandTabs s))). apply elem_of_app. by left. }
  split_and!.
  - apply Hb; [by vm_compute|done].
  - intros Hs. apply Hb; [by vm_compute|auto].
  - intros _. rewrite runes_encode_all by done. rewrite length_take. lia.
Qed.

Lemma fitLines_fits s w : Forall (λ l, (tab ∉ l) ∧ (0 < w → zlen (runes l) <= w)) (split_at newline (fitLines s w)).
Proof.
  unfold fitLines. destruct (split_at_pieces newline s) as [Hp Hne]. rewrite split_join_with.
  - apply Forall_fmap, Forall_forall. intros l _. destruct (fit_line_spec w l) as (? & _ & ?). done.
  - intros E%fmap_nil_inv. done.
  - apply Forall_fmap. eapply Forall_impl; [exact Hp|]. intros l Hl. destruct (fit_line_spec w l) as (_ & ? & _). auto.
Qed.

(** ** Windows *)
Lemma elem_of_range i lo hi : i ∈ range lo hi ↔ lo <= i < hi.
Proof.
  unfold range. rewrite list_elem_of_fmap. setoid_rewrite elem_of_seq. split.
  - intros (j & -> & Hj). lia.
  - intros Hi. exists (Z.to_nat (i - lo)). lia.
Qed.

Lemma list_top_in cursor body : 0 <= cursor → 1 <= body → 0 <= list_top cursor 0 body <= cursor ∧ cursor < list_top cursor 0 body + body.
Proof. intros. unfold list_top. replace (cursor <? 0) with false by lia. destruct (cursor >=? 0 + body) eqn:E; lia. Qed.
Lemma refs_top_in cursor body : 0 <= cursor → 1 <= body → 0 <= refs_top cursor body <= cursor ∧ cursor < refs_top cursor body + body.
Proof. intros. unfold refs_top. destruct (cursor >=? body) eqn:E; lia. Qed.
Lemma list_body_pos h f : 1 <= list_body h f.
Proof. unfold list_body. destruct f; destruct (_ <? 1) eqn:E; lia. Qed.
Lemma refs_body_pos h f : 1 <= refs_body h f.
Proof. unfold refs_body. destruct f; destruct (_ <? 1) eqn:E; lia. Qed.
Lemma file_body_pos h : 1 <= file_body h.
Proof. unfold file_body. destruct (_ <? 1) eqn:E; lia. Qed.

Lemma index_range {A} (l : list A) i : 0 <= i < zlen l → ∃ a, index l i = Ok a ∧ l !! Z.to_nat i = Some a.
Proof. intros Hi. apply index_in; [unfold in_list; lia|]. intros ->; cbn in Hi; lia. Qed.

(** The rows that are drawn. *)
Lemma list_rows_Ok {A} (row : Z → A → bytes) top body (l : list A) : 0 <= top → ∃ out, list_rows row top body l = Ok out.
Proof.
  intros Ht. unfold list_rows. destruct (foldR_inv (λ i, 0 <= i < zlen l) (λ _, True) (λ i out, a ← index l i; Ok (out ++ row i a))
    (range top (Z.min (top + body) (zlen l))) []) as (out & -> & _); [| |done|by exists out].
  - intros i out Hi _. destruct (index_range l i Hi) as (a & -> & _). by eexists.
  - apply Forall_forall. intros i Hi%elem_of_range. lia.
Qed.

Lemma list_rows_cursor {A} (row : Z → A → bytes) top body (l : list A) c out :
  0 <= top <= c → c < top + body → c < zlen l → list_rows row top body l = Ok out → ∃ a pre post, l !! Z.to_nat c = Some a ∧ out = pre ++ row c a ++ post.
Proof.
  intros Ht Hb Hc. unfold list_rows. destruct (index_range l c ltac:(lia)) as (a & Ha & Hl).
  assert (range top (Z.min (top + body) (zlen l)) = range top c ++ c :: range (c + 1) (Z.min (top + body) (zlen l))) as ->.
  { unfold range. replace (Z.to_nat (Z.min (top + body) (zlen l) - top)) with (Z.to_nat (c - top) + S (Z.to_nat (Z.min (top + body) (zlen l) - (c + 1))))%nat by lia.
    rewrite seq_app, fmap_app. f_equal. cbn [seq fmap list_fmap]. f_equal; [lia|]. apply list_eq. intros j. rewrite !list_lookup_fmap.
    destruct (decide (j < Z.to_nat (Z.min (top + body) (zlen l) - (c + 1)))%nat).
    - rewrite !lookup_seq_lt by lia. cbn. f_equal. lia.
    - by rewrite !lookup_seq_ge by lia. }
  rewrite foldR_app. destruct (foldR _ (range top c) []) as [pre| | |] eqn:E1; [|done..]. cbn [mbind result_bind foldR]. rewrite Ha. cbn [mbind result_bind].
  assert (∀ js acc res, foldR (λ i out, a ← index l i; Ok (out ++ row i a)) js acc = Ok res → ∃ post, res = acc ++ post) as Hpost.
  { induction js as [|i js IH]; intros acc res; cbn [foldR]; [intros [= <-]; exists []; by rewrite app_nil_r|].
    destruct (index l i) as [x| | |]; [|done..]. cbn [mbind result_bind]. intros (post & ->)%IH. exists (row i x ++ post). by rewrite <- app_assoc. }
  intros (post & ->)%Hpost. exists a, pre, post. by rewrite <- app_assoc.
Qed.

Lemma foldR_rows {A B} (f : A → result B) (g : A → B) (h : A → B → bytes) l : (∀ i, i ∈ l → f i = Ok (g i)) →
  ∀ acc, foldR (λ i lines, b ← f i; Ok (lines ++ [h i b])) l acc = Ok (acc ++ ((λ i, h i (g i)) <$> l)).
Proof.
  induction l as [|i l IH]; intros Hf acc; [by rewrite app_nil_r|]. cbn [foldR]. rewrite Hf by (by left). cbn [mbind result_bind].
  rewrite IH by (intros; apply Hf; by right). by rewrite <- app_assoc.
Qed.

(** Sixteen bytes to a line. *)
Definition hex_line (data : bytes) (i : Z) : bytes := hexDumpLine (i * 16) (take 16 (drop (Z.to_nat (i * 16)) data)).
Definition hex_all (data : bytes) : list bytes := hex_line data <$> range 0 ((zlen data + 15) / 16).

Lemma length_range lo hi : zlen (range lo hi) = Z.max 0 (hi - lo).
Proof. unfold range. rewrite length_fmap, length_seq. lia. Qed.

Lemma range_window lo hi n : 0 <= lo → 0 <= n → range lo (Z.min (lo + n) hi) = take (Z.to_nat n) (drop (Z.to_nat lo) (range 0 hi)).
Proof.
  intros Hlo Hn. apply list_eq. intros j. unfold range.
  destruct (decide (j < Z.to_nat n)%nat).
  - rewrite lookup_take_lt, lookup_drop by done. rewrite !list_lookup_fmap. destruct (decide (j < Z.to_nat (Z.min (lo + n) hi - lo))%nat).
    + rewrite !lookup_seq_lt by lia. cbn. f_equal. lia.
    + by rewrite !lookup_seq_ge by lia.
  - rewrite lookup_take_ge by lia. rewrite list_lookup_fmap. by rewrite lookup_seq_ge by lia.
Qed.

Lemma hex_rows_window data top body : 0 <= top → 0 <= body →
  hex_rows data top body ((zlen data + 15) / 16) = Ok (take (Z.to_nat body) (drop (Z.to_nat top) (hex_all data))).
Proof.
  intros Ht Hb. unfold hex_rows. cbv zeta.
  rewrite (foldR_rows _ (λ i, take 16 (drop (Z.to_nat (i * 16)) data)) (λ i b, hexDumpLine (i * 16) b)).
  - rewrite app_nil_l. unfold hex_all. rewrite <- fmap_drop, <- fmap_take, <- range_window by done. done.
  - intros i Hi%elem_of_range. assert (i * 16 < zlen data) as Hlt.
    { assert (i + 1 <= (zlen data + 15) / 16) as Hi' by lia. pose proof (Z.mul_div_le (zlen data + 15) 16). lia. }
    rewrite slice_ok; [|lia|destruct (_ >? _) eqn:E; lia|destruct (_ >? _) eqn:E; lia]. f_equal. destruct (_ >? _) eqn:E.
    + rewrite !take_ge; [done|rewrite length_drop; lia|rewrite length_drop; lia].
    + f_equal. lia.
Qed.

Lemma window_is lines top body : 0 <= top → 0 <= body → window lines top body = Ok (take (Z.to_nat body) (drop (Z.to_nat top) lines)).
Proof.
  intros Ht Hb. unfold window. destruct (top >=? zlen lines) eqn:E; [by rewrite drop_ge, take_nil by lia|]. cbv zeta.
  rewrite slice_ok; [|lia|destruct (_ >? _) eqn:E'; lia|destruct (_ >? _) eqn:E'; lia]. f_equal. destruct (_ >? _) eqn:E'.
  - rewrite !take_ge; [done|rewrite length_drop; lia|rewrite length_drop; lia].
  - f_equal. lia.
Qed.

(** ** Sessions *)
Section fits.
Context `{Terminal} `{CborText} `{Calendar} `{!TerminalLaws}.
Context (render : error → bytes).

Definition all_lines (fv : fileView) : list bytes :=
  match fv_mode fv with
  | modeText => fv_textLines fv
  | modeJSON => match fv_jsonErr fv with Some e => [render e] | None => fv_jsonLines fv end
  | modeHex => hex_all (fv_data fv)
  end.

Lemma all_lines_count fv : zlen (all_lines fv) = lineCount fv.
Proof.
  unfold all_lines, lineCount. destruct (fv_mode fv); [done| |by destruct (fv_jsonErr fv)].
  unfold hex_all. rewrite length_fmap, length_range. assert (0 <= (zlen (fv_data fv) + 15) / 16) by (apply Z.div_pos; lia). lia.
Qed.

Definition file_ok (fv : fileView) : Prop := 0 <= fv_top fv <= Z.max 0 (lineCount fv - 1).

Lemma file_lines_window fv body : file_ok fv → 1 <= body → file_lines render fv body = Ok (take (Z.to_nat body) (drop (Z.to_nat (fv_top fv)) (all_lines fv))).
Proof.
  unfold file_ok, file_lines, all_lines, lineCount. intros Hok Hb. destruct (fv_mode fv).
  - apply window_is; lia.
  - apply hex_rows_window; lia.
  - destruct (fv_jsonErr fv) as [e|]; [|apply window_is; lia]. replace (fv_top fv) with 0 by lia. replace (Z.to_nat body) with (S (Z.to_nat (body - 1))) by lia. cbn. by destruct (Z.to_nat (body - 1)).
Qed.

Lemma scroll_ok delta h fv : file_ok (scroll delta h fv).
Proof.
  pose proof (file_body_pos h). assert (∀ t, lineCount (fv <| fv_top := t |>) = lineCount fv) as Hl by done. unfold scroll, file_ok. cbv zeta. rewrite Hl.
  cbn [fv_top apply_update constant]. unfold constant.
  repeat case_match; lia.
Qed.

(** The end of a file. *)
Lemma scroll_end h fv : file_ok fv → lineCount fv <= 2 ^ 30 → fv_top (scroll (2 ^ 30) h fv) = Z.max 0 (lineCount fv - file_body h).
Proof.
  pose proof (file_body_pos h). unfold scroll, file_ok. intros Hok Hc. cbv zeta. cbn [fv_top apply_update constant]. unfold constant.
  repeat case_match; lia.
Qed.

Lemma setMode_ok mo fv : file_ok (setMode mo fv).
Proof. unfold setMode, file_ok. cbv zeta. cbn [fv_top apply_update constant]. unfold constant. lia. Qed.

Lemma new_file_ok name size data t : file_ok (newFileView name size data t).
Proof.
  assert (∀ fv, fv_top (buildJSON fv) = fv_top fv) as Hb.
  { intros fv. unfold buildJSON. destruct (fv_jsonBuilt fv); [done|]. cbv zeta. destruct fv as [n s d tr mo tp tl jl jb je]. cbn. destruct tr; [done|]. by destruct (cborToJSON d). }
  unfold newFileView, file_ok. cbv zeta. case_bool_decide; rewrite ?Hb; cbn [fv_top apply_update constant]; unfold constant, no_file; cbn [fv_top]; lia.
Qed.

(** *** What the updates keep *)
Definition view_ok (m : browseModel) : Prop := file_ok (bm_file m) ∧ bm_listTop m = 0.

Lemma view_same m m' : view_ok m → bm_file m' = bm_file m → bm_listTop m' = bm_listTop m → view_ok m'.
Proof. intros [Hf Ht] E1 E2. split; [by rewrite E1|by rewrite E2]. Qed.

Local Ltac on_key := match goal with |- context [is_key ?k ?l] => destruct (is_key k l) end.
Local Ltac kept := intros [= <- _]; by eapply view_same.

Lemma openEntry_view e m m' c : view_ok m → openEntry render e m = Ok (m', c) → view_ok m'.
Proof.
  intros Hm. unfold openEntry, save_cursor, stay. destruct (entryIsDir e).
  - destruct (cmd_parseHexKey _) as [k|err| |]; [|kept|done..]. destruct (last _); [kept|done].
  - destruct (entryIsReg e); kept.
Qed.

Lemma selected_view m m' c l i : view_ok m → (if bool_decide (l = []) then Ok (m, NoCmd) else e ← index l i; openEntry render e m) = Ok (m', c) → view_ok m'.
Proof. intros Hm. case_bool_decide; [kept|]. destruct (index l i) as [e| | |]; [|done..]. by apply openEntry_view. Qed.

Lemma openRef_view m m' c : view_ok m → openRef render m = Ok (m', c) → view_ok m'.
Proof.
  intros Hm. unfold openRef, stay. case_bool_decide; [kept|]. destruct (index _ _) as [sel| | |]; [|done..]. cbn [mbind result_bind].
  destruct (cmd_parseHexKey _) as [k|err| |]; [|kept|done..]. destruct (isFileKey k); kept.
Qed.

Lemma gotoRefs_view m m' c : view_ok m → Ok (gotoRefs m) = Ok (m', c) → view_ok m'.
Proof. intros Hm. kept. Qed.

Lemma key_view k m m' c : view_ok m → updateKey render k m = Ok (m', c) → view_ok m'.
Proof.
  intros Hm. unfold updateKey. destruct (bm_mode m).
  - unfold updateListKey, updateListFilterKey, stay. destruct (bm_filtering m).
    + do 2 (on_key; [kept|]). on_key; [by apply selected_view|]. do 2 (on_key; [kept|]). kept.
    + do 6 (on_key; [kept|]). on_key; [by apply selected_view|].
      on_key; [destruct (1 <? _)%nat; [destruct (cur _) as [f| | |]; [kept|done..]|by apply gotoRefs_view]|].
      on_key; [|kept]. case_bool_decide; [kept|]. destruct (index _ _) as [e| | |]; [|done..]. cbn [mbind result_bind].
      destruct (cmd_parseHexKey _) as [key|err| |]; [kept|kept|done..].
  - unfold updateFileKey, stay. on_key; [kept|]. on_key; [case_bool_decide; [by apply gotoRefs_view|kept]|].
    do 3 (on_key; [intros [= <- _]; split; [apply setMode_ok|by destruct Hm]|]).
    do 6 (on_key; [intros [= <- _]; split; [apply scroll_ok|by destruct Hm]|]). on_key; kept.
  - unfold updateExportKey, stay. do 2 (on_key; [kept|]). kept.
  - unfold updateRefsKey, updateRefsFilterKey, stay. destruct (bm_refFiltering m).
    + do 2 (on_key; [kept|]). on_key; [by apply openRef_view|]. do 2 (on_key; [kept|]). kept.
    + do 6 (on_key; [kept|]). on_key; [by apply openRef_view|]. kept.
Qed.

Lemma Update_view x m m' c : view_ok m → Update render x m = Ok (m', c) → view_ok m'.
Proof.
  intros Hm. destruct x as [w h|[e|es]|[e|f]|path err|[e|rs]|k|]; cbn [Update]; unfold stay; try kept; [..|by apply key_view].
  - destruct (cur _) as [f|e| |]; [|done..]. intros [= <- _]. split; [apply Hm|done].
  - case_bool_decide; [apply gotoRefs_view; by eapply view_same|kept].
  - intros [= <- _]. split; [apply new_file_ok|apply Hm].
Qed.

Lemma reached_view stores s0 s : started s0 → rtc (b_step render stores) s0 s → view_ok (se_model s).
Proof.
  intros H0' Hr. assert (view_ok (se_model s0)) as Hs.
  { assert (∀ cwd v mo, view_ok (empty_model cwd v mo)) as He by (intros; split; [unfold file_ok; cbn; lia|done]).
    destruct H0' as [cwd v root name c _|cwd v]; [|apply He]. cbn [se_model]. unfold newBrowseModel. destruct (isFileKey root); (eapply view_same; [apply (He cwd v modeList)|done..]). }
  clear H0'. induction Hr as [s|s s1 s2 Hstep _ IH]; [done|]. apply IH. destruct Hstep as [x pending m c _ Hu]. by eapply Update_view.
Qed.

(** *** Drawing *)

(** [r] is drawn in [out]. *)
Definition drawn (r out : bytes) : Prop := ∃ pre post, out = pre ++ r ++ post.
Lemma drawn_after r a b : drawn r b → drawn r (a ++ b).
Proof. intros (pre & post & ->). exists (a ++ pre), post. by rewrite app_assoc. Qed.
Lemma drawn_before r a b : drawn r a → drawn r (a ++ b).
Proof. intros (pre & post & ->). exists pre, (post ++ b). by rewrite !app_assoc. Qed.

Definition entry_row (now : Z) (m : browseModel) (e : lsEntry) : bytes :=
  list_row now (bm_cursor m) (widest listName 4 (visibleEntries m)) (widest listSize 4 (visibleEntries m)) (bm_cursor m) e.
Definition reference_row (m : browseModel) (r : RefInfo) : bytes := ref_row (bm_refCursor m) (widest ri_Name 0 (filteredRefs m)) (bm_refCursor m) r.

(** The rows of a window that the cursor is in. *)
Lemma rows_drawn {A} (row : Z → A → bytes) top body (l : list A) c : 0 <= top <= c → c < top + body →
  ∃ out, list_rows row top body l = Ok out ∧ ∀ a, l !! Z.to_nat c = Some a → drawn (row c a) out.
Proof.
  intros Ht Hb. destruct (list_rows_Ok row top body l (proj1 Ht)) as [out Hout]. exists out. split; [done|]. intros a Ha.
  assert (c < zlen l) as Hlt by (apply lookup_lt_Some in Ha; lia).
  destruct (list_rows_cursor row top body l c out Ht Hb Hlt Hout) as (a' & pre & post & Ha' & ->). rewrite Ha in Ha'. injection Ha' as <-. by exists pre, post.
Qed.

Lemma viewList_Ok now m : cursors_ok m → view_ok m → ∃ out, viewList now m = Ok out ∧
  ∀ e, visibleEntries m !! Z.to_nat (bm_cursor m) = Some e → drawn (entry_row now m e) out.
Proof.
  intros Hc [_ Ht]. unfold viewList, list_window. rewrite Ht. pose proof (list_body_pos (bm_height m) (bm_filtering m)) as Hb. pose proof (co_cursor m Hc) as Hin. unfold in_list in Hin.
  destruct (list_top_in (bm_cursor m) _ ltac:(lia) Hb) as [Htop Htop'].
  destruct (rows_drawn (list_row now (bm_cursor m) (widest listName 4 (visibleEntries m)) (widest listSize 4 (visibleEntries m))) _ _ (visibleEntries m) _ Htop Htop') as (out & -> & Hd).
  cbn [mbind result_bind]. eexists. split; [done|]. intros e He. do 13 apply drawn_after. by apply drawn_before, Hd.
Qed.

Lemma viewRefs_Ok m : cursors_ok m → ∃ out, viewRefs m = Ok out ∧
  ∀ r, filteredRefs m !! Z.to_nat (bm_refCursor m) = Some r → drawn (reference_row m r) out.
Proof.
  intros Hc. unfold viewRefs, refs_window. pose proof (refs_body_pos (bm_height m) (bm_refFiltering m)) as Hb. pose proof (co_refCursor m Hc) as Hin. unfold in_list in Hin.
  case_bool_decide as Hne; [eexists; split; [done|]; intros r; by rewrite Hne|].
  destruct (refs_top_in (bm_refCursor m) _ ltac:(lia) Hb) as [Htop Htop'].
  destruct (rows_drawn (ref_row (bm_refCursor m) (widest ri_Name 0 (filteredRefs m))) _ _ (filteredRefs m) _ Htop Htop') as (out & -> & Hd).
  cbn [mbind result_bind]. eexists. split; [done|]. intros r Hr. apply drawn_after. by apply drawn_before, Hd.
Qed.

(** The lines of a file that are in the window. *)
Definition file_window (fv : fileView) (height : Z) : list bytes :=
  take (Z.to_nat (file_body height)) (drop (Z.to_nat (fv_top fv)) (all_lines fv)).

(** C39. What is drawn fits and does not fail.  In every state that messages in any order
    lead to, drawing does not panic; no line of the screen has a tab or, when the size of
    the terminal is known, more runes than the terminal has columns (a rune that takes
    two columns counts as one: see double_width); the list of a directory, also below the export prompt, has the row of
    the entry at the cursor, and the list of references that of the reference at the
    cursor, whatever the height; and a file is drawn as its header and a window of its
    lines, which scrolling keeps inside the file and the end key moves to its last
    line. *)
Theorem browse_fits stores s0 s now :
  started s0 → rtc (b_step render stores) s0 s →
  let m := se_model s in let fv := bm_file m in
  ∃ out body, View render now m = Ok out ∧ viewBody render now m = Ok body ∧
    Forall (λ l, (tab ∉ l) ∧ (0 < bm_width m → zlen (runes l) <= bm_width m)) (split_at newline out) ∧
    (bm_mode m = modeList ∨ bm_mode m = modeExport → ∀ e, visibleEntries m !! Z.to_nat (bm_cursor m) = Some e → drawn (entry_row now m e) body) ∧
    (bm_mode m = modeRefs → ∀ r, filteredRefs m !! Z.to_nat (bm_refCursor m) = Some r → drawn (reference_row m r) body) ∧
    (bm_mode m = modeFile → ∃ header, body = join_with [newline] (header :: hr (bm_width m) :: file_window fv (bm_height m))) ∧
    (∀ delta h, 0 <= fv_top (scroll delta h fv) <= Z.max 0 (lineCount fv - 1)) ∧
    (∀ h, lineCount fv <= 2 ^ 30 → lineCount fv <= fv_top (scroll (2 ^ 30) h fv) + file_body h).
Proof.
  intros H0' Hr m fv. subst m fv. pose proof (reached_cursors render stores s0 s H0' Hr) as Hc. pose proof (reached_view stores s0 s H0' Hr) as Hv. set (m := se_model s) in *.
  assert (∃ body, viewBody render now m = Ok body ∧
    (bm_mode m = modeList ∨ bm_mode m = modeExport → ∀ e, visibleEntries m !! Z.to_nat (bm_cursor m) = Some e → drawn (entry_row now m e) body) ∧
    (bm_mode m = modeRefs → ∀ r, filteredRefs m !! Z.to_nat (bm_refCursor m) = Some r → drawn (reference_row m r) body) ∧
    (bm_mode m = modeFile → ∃ header, body = join_with [newline] (header :: hr (bm_width m) :: file_window (bm_file m) (bm_height m)))) as (body & Hbody & H1' & H2' & H3').
  { destruct (viewList_Ok now m Hc Hv) as (l & Hl & Hld), (viewRefs_Ok m Hc) as (r & Hrf & Hrd). unfold viewBody. destruct (bm_mode m).
    - exists l. by split_and!.
    - unfold render_file. rewrite (file_lines_window (bm_file m) (file_body (bm_height m)) (proj1 Hv) (file_body_pos _)). cbn [mbind result_bind].
      eexists. split_and!; [done|by intros [?|?]|done|]. intros _. by eexists.
    - rewrite Hl. cbn [mbind result_bind]. eexists. split_and!; [done| |done|done]. intros _ e He. by apply drawn_before, Hld.
    - exists r. split_and!; [done|by intros [?|?]|done|done]. }
  exists (fitLines body (bm_width m)), body. split_and!; [unfold View; by rewrite Hbody|done|apply fitLines_fits|done|done|done| |].
  - intros delta h. apply scroll_ok.
  - intros h Hlc. rewrite scroll_end; [|apply Hv|done]. pose proof (file_body_pos h). lia.
Qed.
End fits.

(** ** Applications *)
#[local] Existing Instance terminal_example.
#[local] Existing Instance terminal_example_laws.
#[local] Existing Instance cbor_text_example.
Definition calendar_example : Calendar := {| time_Format := λ l _, str l; AddMonths := λ t n, t + n * 2592000000000000 |}.
#[local] Existing Instance calendar_example.

(** The lines for entries are the height less four: breadcrumb, rule, column header and
    status.  The status is written below an empty line, so a list that fills the
    terminal has one line more than the terminal when there is a status. *)
Example status_overflows :
  let m := match Update no_text (dirLoadedMsg (inr (replicate 3 (entry_of "x" 0x41ED dir_a)))) (newBrowseModel (str "/tmp") 100 dir_a (str "root"))
           with Ok (m, _) => m <| bm_height := 6 |> <| bm_status := str "exported to /tmp/x.tar" |> | _ => newRefPickerModel [] 0 end in
  match View no_text 0 m with Ok out => length (split_at newline out) = 7%nat | _ => False end.
Proof. vm_compute. reflexivity. Qed.

(** Four characters of two columns each pass a terminal of four columns as they are. *)
Example double_width : fit_line 4 (concat (replicate 4 [xe6; x97; xa5])) = concat (replicate 4 [xe6; x97; xa5]).
Proof. vm_compute. reflexivity. Qed.

Lemma browse_fits_witness :
  let m := newBrowseModel (str "/tmp") 100 dir_a (str "root") in
  ∃ out, View no_text 0 m = Ok out ∧ Forall (λ l, tab ∉ l) (split_at newline out).
Proof.
  destruct (browse_fits no_text (λ _, True) (mkSession (newBrowseModel (str "/tmp") 100 dir_a (str "root")) [loadDir dir_a])
    (mkSession (newBrowseModel (str "/tmp") 100 dir_a (str "root")) [loadDir dir_a]) 0 ltac:(by apply started_root) ltac:(apply rtc_refl)) as (out & body & Hv & _ & Hl & _).
  exists out. split; [exact Hv|]. eapply Forall_impl; [exact Hl|]. intros l [Ht _]. exact Ht.
Defined.
