(* ===== verification/Commands.v ===== *)
(** * The commands of [amber-store] ([userconfig.go], [socketpath.go], [sshsign.go], [cmd/amber-store])

    A command reads its arguments, the environment and the file system and calls the
    daemon; what it prints is the value it returns.  The file system is the one of
    Posix.v, and each of its calls may fail.  An agent and a terminal answer as
    [uenv] says.  Flags are arguments; the table of commands is left out. *)

From Stdlib Require Import Init.Byte.
From S2P Require Import Prelude Machine Key Chunkers FsEncode Instances FsRead PackRecord PackStream Packstore Parallel Inbox Text Sshsign Reference Refstore Gc Auth Server Routes Sync Remote Path Posix Ignore Ingest Tar TarFacts PathFacts TarSafety TarRestore AllowStore Remotes Daemon Client Admin Embedded Browse BrowseFits.
From Stdlib Require Import ZifyBool ZifyNat.
Local Open Scope Z_scope.

(** ** Files *)
Definition i_reg (i : inode) : bool := fmt (i_mode i) =? S_IFREG.

Definition sys_read_file (path : bytes) : X bytes := sys (λ w, b ← read_file (w_fs w) (w_cwd w) path; Ok (b, w_fs w)).

(** [open] for writing with [O_CREAT] and [O_TRUNC]; what is open is the inode.  A device
    or pipe keeps no content.  A name that does not exist is made if the path then leads to
    it, which it does not when it ends in a slash. *)
Definition truncated (now : Z) (i : inode) : inode :=
  if i_reg i then mkInode (i_mode i) (i_uid i) (i_gid i) now (i_rdev i) [] (i_xattrs i) else i.
Definition open_trunc (path : bytes) (mode : Z) (w : proc) : result (list bytes * FS) :=
  p ← resolve (w_fs w) (w_cwd w) true path;
  match w_fs w !! p with
  | Some i => if i_dir i then Err EISDIR else Ok (p, <[p := truncated (w_now w) i]> (w_fs w))
  | None =>
      let new := mkInode (masked S_IFREG mode w) (w_euid w) (w_egid w) (w_now w) 0 [] ∅ in
      let fs := touch (removelast p) (w_now w) (<[p := new]> (w_fs w)) in
      if bool_decide (p ≠ [] ∧ resolve fs (w_cwd w) true path = Ok p) then Ok (p, fs) else Err EISDIR
  end.
Definition sys_open_trunc (path : bytes) (mode : Z) : X (list bytes) := sys (open_trunc path mode).

(** [write] on it; a call that fails may have written a part. *)
Definition write_at (p : list bytes) (data : bytes) (w : proc) : proc :=
  set_fs (alter (λ i, if i_reg i then append_data data (w_now w) i else i) p (w_fs w)) w.
Definition sys_write_at (p : list bytes) (data : bytes) : X unit := λ w,
  match pop_event w with
  | (Fails e n, w) => (Err e, write_at p (take n data) w)
  | (Fine, w) => (Ok tt, write_at p data w)
  end.

(** [os.WriteFile] *)
Definition WriteFile (path data : bytes) (mode : Z) : X unit :=
  p ← sys_open_trunc path mode;
  r ← tryX (sys_write_at p data);
  c ← tryX sys_close;
  match r, c with
  | inr e, _ => failX e
  | inl _, inr e => failX e
  | inl _, inl _ => mret tt
  end.

(** ** The user *)
Record uenv `{SshSig} := mkUenv {
  Getenv : string → bytes;
  Getwd : result bytes;
  net_Dial : bytes → result unit;                      (* to the agent *)
  agent_Signers : bytes → result (list Signer);
  TTYPrompt : bytes → result bytes;
  u_Now : Z;
}.

(** [os.UserConfigDir] *)
Definition UserConfigDir (getenv : string → bytes) : result bytes :=
  let dir := getenv "XDG_CONFIG_HOME"%string in
  if bool_decide (dir = []) then
    let home := getenv "HOME"%string in
    if bool_decide (home = []) then Err (errors_New "neither $XDG_CONFIG_HOME nor $HOME are defined") else Ok (home ++ str "/.config")
  else if IsAbs dir then Ok dir else Err (errors_New "path in $XDG_CONFIG_HOME is relative").

(** ** [userconfig.go] *)
Definition ErrNotConfigured : string := "no user configured — run 'amber-store config-user <name>' first".

Record Config := mkConfig { cfg_User : bytes; cfg_SigningKey : bytes }.

Class UserJson := {
  cfg_MarshalIndent : Config → result bytes;
  cfg_Unmarshal : bytes → result Config;
}.
Class UserJsonLaws `{UserJson} := {
  cfg_Unmarshal_safe b : safe (cfg_Unmarshal b);
  cfg_Unmarshal_Marshal c b : utf8_ValidString (cfg_User c) = true → utf8_ValidString (cfg_SigningKey c) = true →
    cfg_MarshalIndent c = Ok b → cfg_Unmarshal (b ++ [x0a]) = Ok c;
}.

Section userconfig.
Context `{UserJson} (getenv : string → bytes).

Definition cfg_Path : result bytes :=
  let p := getenv "AMBER_STORE_CONFIG"%string in
  if negb (bool_decide (p = [])) then Ok p else
  dir ← wrap "resolving user config dir" (UserConfigDir getenv);
  Ok (Join dir (str "amber-store/config.json")).

Definition cfg_Load : X Config :=
  p ← liftX cfg_Path;
  r ← tryX (sys_read_file p);
  match r with
  | inr e => failX (if bool_decide (errors_Is e ErrNotExist) then errors_New ErrNotConfigured else e)
  | inl b =>
      cfg ← liftX (wrap "parsing %s" (cfg_Unmarshal b));
      if bool_decide (cfg_User cfg = []) then failX (errors_New ErrNotConfigured) else mret cfg
  end.

Definition cfg_Save (cfg : Config) : X unit :=
  p ← liftX cfg_Path;
  _ ← MkdirAll (S (length (Dir p))) (Dir p) 0x1C0;
  b ← liftX (cfg_MarshalIndent cfg);
  WriteFile p (b ++ [x0a]) 0x180.
End userconfig.

(** ** [socketpath.go] *)
Definition EnvVar : string := "AMBER_STORE_SOCKET".

(** The process runs as one user: its effective identity. *)
Definition fallbackDir (uid : Z) : bytes := Join (str "/tmp") (str "amber-store-" ++ FormatInt uid).

Definition private_info (uid : Z) (fi : FileInfo) : result unit :=
  if negb (info_IsDir fi) then Err (errors_New "is not a directory") else
  if negb (st_uid fi =? uid) then Err (errors_New "is owned by uid %d, not by us (uid %d)") else
  if negb (Z.land (st_mode fi) 0x3F =? 0) then Err (errors_New "has mode %04o, must not be accessible by group or others") else
  Ok tt.

Definition preparePrivateDir (dir : bytes) : X unit :=
  r ← tryX (sys_mkdir dir 0x1C0);
  match r with
  | inr e => if bool_decide (errors_Is e ErrExist) then mret tt else failX e
  | inl _ => mret tt
  end;;
  fi ← sys_stat false dir;
  uid ← euid;
  liftX (private_info uid fi).

Definition socket_Resolve (getenv : string → bytes) (flag : bytes) : X bytes :=
  if negb (bool_decide (flag = [])) then mret flag else
  let env := getenv EnvVar in
  if negb (bool_decide (env = [])) then mret env else
  let xdg := getenv "XDG_RUNTIME_DIR"%string in
  if IsAbs xdg then mret (Join xdg (str "amber-store.sock")) else
  uid ← euid;
  _ ← wrapX "default socket directory %s: %w (set --socket or %s)" (preparePrivateDir (fallbackDir uid));
  mret (Join (fallbackDir uid) (str "sock")).

(** ** Signing keys ([sshsign.go]) *)

(** What is used of [ssh] and [pem] for key files besides [SshIdentity] and [SshKeys]. *)
Class KeyFiles `{SshIdentity} `{SshKeys} := {
  ParsePrivateKeyWithPassphrase : bytes → bytes → result Signer;
  pem_Decode : bytes → option (bytes * bytes);            (* the type and the content of a block *)
  unmarshal_header : bytes → result bytes;                (* the public key in the header of a private key *)
  unmarshal_algo : bytes → result bytes;                  (* the name of a public key's type *)
}.
(** Parsing returns; the wire form of a key that was parsed has at least its type, and
    so has a signature. *)
Class KeyFilesLaws `{KeyFiles} := {
  ParseAuthorizedKey_ne b pub opts : ParseAuthorizedKey b = Ok (pub, opts) → pk_Marshal pub ≠ [];
  ParsePrivateKey_ne b s : ParsePrivateKey b = Ok s → signer_PublicKey s ≠ [];
  ParsePassphrase_ne b p s : ParsePrivateKeyWithPassphrase b p = Ok s → signer_PublicKey s ≠ [];
  sig_Marshal_ne s : sig_Marshal s ≠ [];
}.

Section signing.
Context `{KeyFiles}.

Definition openssh_magic : bytes := str "openssh-key-v1" ++ [x00].

(** The error for the key of a security key. *)
Definition skKeyError (b : bytes) : result unit :=
  match pem_Decode b with
  | Some (ty, content) =>
      if negb (bool_decide (ty = str "OPENSSH PRIVATE KEY")) || negb (HasPrefix content openssh_magic) then Ok tt else
      match (pub ← unmarshal_header (drop (length openssh_magic) content); unmarshal_algo pub) with
      | Ok algo =>
          if HasPrefix algo (str "sk-")
          then Err (errors_New "signing key %s is a FIDO2 security-key (%s) private key, which cannot be used directly — load it into an ssh-agent and configure the .pub path instead")
          else Ok tt
      | _ => Ok tt
      end
  | None => Ok tt
  end.

(** The connection to the agent is closed when the signature is made; a signer of the
    agent is the value. *)
Definition agentSigner (u : uenv) (pub : PublicKey) : result Signer :=
  let sock := Getenv u "SSH_AUTH_SOCK"%string in
  if bool_decide (sock = []) then Err (errors_New "signing key is a public key, but no ssh-agent is available ($SSH_AUTH_SOCK is not set)") else
  _ ← wrap "connecting to ssh-agent" (net_Dial u sock);
  signers ← wrap "listing ssh-agent keys" (agent_Signers u sock);
  match list_find (λ s, signer_PublicKey s = pk_Marshal pub) signers with
  | Some (_, s) => Ok s
  | None => Err (errors_New "signing key %s is not loaded in the ssh-agent")
  end.

(** [Signer]; [prompt] is asked for the passphrase of an encrypted key. *)
Definition file_signer (u : uenv) (prompt : bytes → result bytes) (keyPath b : bytes) : result Signer :=
  match ParseAuthorizedKey b with
  | Ok (pub, _) => agentSigner u pub
  | _ =>
      _ ← skKeyError b;
      match ParsePrivateKey b with
      | Err e =>
          if negb (PassphraseMissing e) then Err (Errorf "parsing signing key %s" e) else
          pass ← wrap "reading passphrase for %s" (prompt keyPath);
          wrap "decrypting signing key %s" (ParsePrivateKeyWithPassphrase b pass)
      | r => r
      end
  end.
Definition sshsign_Signer (u : uenv) (prompt : bytes → result bytes) (keyPath : bytes) : X Signer :=
  b ← wrapX "reading signing key" (sys_read_file keyPath);
  liftX (file_signer u prompt keyPath b).

Definition check_key (b : bytes) : result unit :=
  match ParseAuthorizedKey b with
  | Ok _ => Ok tt
  | _ =>
      _ ← skKeyError b;
      match ParsePrivateKey b with
      | Err e => if PassphraseMissing e then Ok tt else Err (Errorf "signing key %s" e)
      | r => _ ← r; Ok tt
      end
  end.
Definition CheckKeyFile (path : bytes) : X unit :=
  b ← wrapX "reading signing key" (sys_read_file path);
  liftX (check_key b).

(** [sign.go] *)
Definition with_key (rec : Reference) (pk : bytes) : Reference :=
  mkReference (ref_Name rec) (ref_Key rec) (ref_User rec) (ref_CreatedAt rec) (ref_Signature rec) pk.
Definition with_sig (rec : Reference) (sig : bytes) : Reference :=
  mkReference (ref_Name rec) (ref_Key rec) (ref_User rec) (ref_CreatedAt rec) sig (ref_PublicKey rec).
Definition sign_record `{RefCbor} (signer : Signer) (rec : Reference) : result Reference :=
  let rec := with_key rec (signer_PublicKey signer) in
  payload ← SignaturePayload rec;
  sig ← SignWith signer payload;
  Ok (with_sig rec sig).
Definition signReference `{RefCbor} (u : uenv) (rec : Reference) (keyPath : bytes) : X Reference :=
  signer ← sshsign_Signer u (TTYPrompt u) keyPath;
  liftX (sign_record signer rec).

(** [remoteIdentitySigner] of [serve.go]: nothing may wait for a passphrase. *)
Definition remoteIdentitySigner (u : uenv) (path : bytes) : X Signer :=
  sshsign_Signer u (λ _, Err (errors_New "key %s is passphrase-protected; load it into the ssh-agent and configure the .pub path instead")) path.

(** [parseRemoteKeys] of [daemon.go]: the default signer and those of single remotes. *)
Fixpoint parseRemoteKeys (u : uenv) (entries : list bytes) (def : option Signer) (over : gmap bytes Signer) :
    X (option Signer * gmap bytes Signer) :=
  match entries with
  | [] => mret (def, over)
  | e :: entries =>
      let '(name, path) := match cut x3d e with (name, Some path) => (name, path) | (_, None) => ([], e) end in
      signer ← wrapX "--remote-key %s" (remoteIdentitySigner u path);
      if bool_decide (name = []) then
        match def with
        | Some _ => failX (errors_New "--remote-key: only one default (NAME-less) key is allowed")
        | None => parseRemoteKeys u entries (Some signer) over
        end
      else
        match over !! name with
        | Some _ => failX (errors_New "--remote-key: duplicate override for remote %q")
        | None => parseRemoteKeys u entries def (<[name := signer]> over)
        end
  end.
End signing.

(** ** Commands *)

(** Reading an archive: its members, each with the error that ends its content, and the
    error that ends the archive.  Of the records of a member those of attributes are
    kept; the extraction skips the others. *)
Class TarReader := { tar_read : bytes → option error → list (member * option error) * option error }.
Class TarReaderLaws `{Float64} `{!DaemonJson} `{!TarReader} := {
  tar_read_bytes `{Cbor} get h fuel k ms : tar_Write get h fuel k = Ok ms → tar_read (tar_bytes ms) None = ((λ m, (m, None)) <$> ms, None);
}.

(** [reader.ReadString('\n')]: the text up to a newline, or all of it with an error. *)
Definition ReadLine (input : bytes) (ends : option error) : bytes * option error :=
  match cut x0a input with
  | (line, Some _) => (line ++ [x0a], None)
  | (line, None) => (line, Some (default (errors_New "EOF") ends))
  end.
(** [strings.ToLower] on ASCII; no other rune becomes one of the letters that the answer
    is compared with. *)
Definition lower_byte (b : byte) : byte := if in_range 65 90 (b2z b) then z2b (b2z b + 32) else b.
Definition confirmed (answer : bytes) : bool :=
  let a := lower_byte <$> TrimSpace answer in bool_decide (a = str "y") || bool_decide (a = str "yes").

Section commands.
Context `{KeyFiles} `{!SshLine} `{RefCbor} `{UserJson} `{Float64} `{!ClientJson}.
Context {W : Type} (Do : bytes → bytes → bytes → bytes → W → result dresp * W).   (* the daemon at a socket *)

(** A command changes the file system and what the daemon keeps. *)
Definition Cmd (A : Type) : Type := proc * W → result A * (proc * W).
#[export] Instance Cmd_ret : MRet Cmd := λ A a s, (Ok a, s).
#[export] Instance Cmd_bind : MBind Cmd := λ A B f m s,
  match m s with
  | (Ok a, s) => f a s
  | (Err e, s) => (Err e, s)
  | (Panic, s) => (Panic, s)
  | (Diverge, s) => (Diverge, s)
  end.
Definition locally {A} (m : X A) : Cmd A := λ s, let '(r, w) := m s.1 in (r, (w, s.2)).
Definition remotely {A} (m : W → result A * W) : Cmd A := λ s, let '(r, d) := m s.2 in (r, (s.1, d)).
Definition pure_ {A} (r : result A) : Cmd A := λ s, (r, s).
Definition wrapC {A} (msg : string) (m : Cmd A) : Cmd A := λ s, let '(r, s) := m s in (wrap msg r, s).
Definition fail_ {A} (msg : string) : Cmd A := pure_ (Err (errors_New msg)).

Context (u : uenv).

(** The client for a socket is the socket. *)
Definition daemonClient (socket : bytes) : Cmd bytes := locally (socket_Resolve (Getenv u) socket).

(** [ref.go] *)
Definition new_record (name : bytes) (k : Key) (user : bytes) : Reference := mkReference name (kb k) user (u_Now u) [] [].

Definition refCreate (socket : bytes) (args : list bytes) : Cmd unit :=
  match args with
  | [name; key] =>
      _ ← pure_ (ValidateName name);
      ucfg ← locally (cfg_Load (Getenv u));
      k ← pure_ (cmd_parseHexKey key);
      let rec := new_record name k (cfg_User ucfg) in
      rec ← (if negb (bool_decide (cfg_SigningKey ucfg = []))
             then locally (wrapX "signing reference %q" (signReference u rec (cfg_SigningKey ucfg))) else mret rec);
      cl ← daemonClient socket;
      remotely (c_PutRef (Do cl) rec)
  | _ => fail_ "ref create requires NAME KEY arguments, got %d"
  end.

Definition tabbed (cols : list bytes) : bytes := join_with [x09] cols ++ [x0a].
Definition ref_columns (info : RefInfo) : bytes := tabbed [ri_Name info; ri_Key info; ri_User info; ri_CreatedAt info].

Definition refLs (socket : bytes) (args : list bytes) : Cmd bytes :=
  match args with
  | [] =>
      cl ← daemonClient socket;
      infos ← remotely (c_ListRefs (Do cl));
      mret (concat (ref_columns <$> infos))
  | _ => fail_ "ref ls takes no arguments, got %d"
  end.

(** The document that [ref show] prints; empty members are left out. *)
Record refShowOutput := mkShow { sh_Name : bytes; sh_Key : bytes; sh_User : bytes; sh_CreatedAt : bytes; sh_Signature : bytes; sh_PublicKey : bytes }.
Definition formatPublicKey (b : bytes) : bytes :=
  if (length b =? 0)%nat then [] else
  match ParsePublicKey b with
  | Ok pub => TrimSpace (MarshalAuthorizedKey pub)
  | _ => hex_EncodeToString b
  end.
Definition refShow `{Calendar} (socket : bytes) (args : list bytes) : Cmd refShowOutput :=
  match args with
  | [name] =>
      cl ← daemonClient socket;
      rec ← remotely (c_GetRef (Do cl) name);
      k ← pure_ (Key.Parse (ref_Key rec));
      mret (mkShow (ref_Name rec) (hex_key k) (ref_User rec) (time_Format "2006-01-02T15:04:05.999999999Z07:00" (ref_CreatedAt rec))
              (hex_EncodeToString (ref_Signature rec)) (formatPublicKey (ref_PublicKey rec)))
  | _ => fail_ "ref show requires exactly one NAME argument, got %d"
  end.

(** What [ref verify-signature] does with the record; the line it prints names the
    reference, the user and the key. *)
Definition check_signature (rec : Reference) : result (bytes * bytes) :=
  if (length (ref_Signature rec) =? 0)%nat then Err (errors_New "reference %q is not signed") else
  if (length (ref_PublicKey rec) =? 0)%nat then Err (errors_New "reference %q carries no public key") else
  payload ← SignaturePayload rec;
  pub ← wrap "reference %q: invalid signature" (Sshsign.Verify payload (ref_Signature rec) (ref_PublicKey rec));
  Ok (ref_User rec, pub).
Definition refVerifySignature (socket : bytes) (args : list bytes) : Cmd (bytes * bytes) :=
  match args with
  | [name] =>
      cl ← daemonClient socket;
      rec ← remotely (c_GetRef (Do cl) name);
      pure_ (check_signature rec)
  | _ => fail_ "ref verify-signature requires exactly one NAME argument, got %d"
  end.

Definition refRm (socket : bytes) (args : list bytes) : Cmd unit :=
  match args with
  | [name] => cl ← daemonClient socket; remotely (c_DeleteRef (Do cl) name)
  | _ => fail_ "ref rm requires exactly one NAME argument, got %d"
  end.

(** [config_user.go]; [signingKey] is the flag, if it is set.  The answer is the path of
    the file. *)
Definition filepath_Abs (path : bytes) : result bytes :=
  if IsAbs path then Ok (Clean path) else wd ← Getwd u; Ok (Join wd path).
Definition configUser (signingKey : option bytes) (args : list bytes) : X bytes :=
  match args with
  | [name] =>
      _ ← liftX (wrap "invalid user name" (ValidateUser name));
      r ← tryX (cfg_Load (Getenv u));
      cfg ← (match r with
             | inl cfg => mret cfg
             | inr e => if bool_decide (errors_Is e ErrNotConfigured) then mret (mkConfig [] []) else failX e
             end);
      key ← (match signingKey with
             | None => mret (cfg_SigningKey cfg)
             | Some [] => mret []
             | Some path => abs ← liftX (filepath_Abs path); _ ← CheckKeyFile abs; mret abs
             end);
      _ ← cfg_Save (Getenv u) (mkConfig name key);
      liftX (cfg_Path (Getenv u))
  | _ => failX (errors_New "config-user requires exactly one NAME argument, got %d")
  end.

(** [remote.go] *)
Definition remoteAndName (args : list bytes) : result (bytes * bytes) :=
  match args with
  | [name] => Ok ([], name)
  | [remote; name] => Ok (remote, name)
  | _ => Err (errors_New "%s requires [REMOTE] NAME arguments, got %d")
  end.

(** [input] is what the user types, [ends] an error that reading it ends with. *)
Definition confirm (yes : bool) (input : bytes) (ends : option error) : result unit :=
  if yes then Ok tt else
  let '(answer, err) := ReadLine input ends in
  match err with
  | Some e => if bool_decide (e = errors_New "EOF") then assert_or (confirmed answer) (errors_New "remote add aborted: server key not confirmed")
              else Err (Errorf "reading confirmation" e)
  | None => assert_or (confirmed answer) (errors_New "remote add aborted: server key not confirmed")
  end.
Definition remoteAdd (socket : bytes) (yes : bool) (input : bytes) (ends : option error) (args : list bytes) : Cmd bytes :=
  match args with
  | [name; url] =>
      cl ← daemonClient socket;
      info ← remotely (c_RemotePreflight (Do cl) url);
      _ ← pure_ (confirm yes input ends);
      _ ← remotely (c_RemoteAdd (Do cl) name url (pf_PublicKey info));
      mret (str "remote " ++ name ++ str " added (" ++ url ++ str ")" ++ [x0a])
  | _ => fail_ "remote add requires NAME URL arguments, got %d"
  end.
Definition remoteRm (socket : bytes) (args : list bytes) : Cmd unit :=
  match args with
  | [name] => cl ← daemonClient socket; remotely (c_RemoteRemove (Do cl) name)
  | _ => fail_ "remote rm requires exactly one NAME argument, got %d"
  end.
Definition remoteLs (socket : bytes) : Cmd bytes :=
  cl ← daemonClient socket;
  infos ← remotely (c_RemoteList (Do cl));
  mret (concat ((λ i, tabbed [rmi_Name i; rmi_URL i; rmi_Fingerprint i]) <$> infos)).

Definition cmd_push (socket : bytes) (jobs batchBytes : Z) (args : list bytes) : Cmd bytes :=
  '(remote, refName) ← pure_ (remoteAndName args);
  cl ← daemonClient socket;
  stats ← remotely (c_RemotePush (Do cl) remote refName jobs batchBytes);
  mret (str "pushed " ++ refName ++ str ": " ++ FormatInt (ObjectsPushed stats) ++ str " objects (" ++ FormatInt (BytesPushed stats) ++
        str " bytes), " ++ FormatInt (i64 (ObjectsTotal stats - ObjectsPushed stats)) ++ str " already present" ++ [x0a]).
Definition cmd_pull (socket : bytes) (jobs batchBytes : Z) (args : list bytes) : Cmd bytes :=
  '(remote, refName) ← pure_ (remoteAndName args);
  cl ← daemonClient socket;
  '(stats, rootKey) ← remotely (c_RemotePull (Do cl) remote refName jobs batchBytes);
  mret (str "pulled " ++ refName ++ str ": " ++ FormatInt (ObjectsFetched stats) ++ str " objects (" ++ FormatInt (BytesFetched stats) ++
        str " bytes), root " ++ rootKey ++ [x0a]).
Definition remoteLsRefs_ (socket : bytes) (args : list bytes) : Cmd bytes :=
  if (1 <? length args)%nat then fail_ "remote ls-refs takes at most one REMOTE argument, got %d" else
  cl ← daemonClient socket;
  infos ← remotely (c_RemoteLsRefs (Do cl) (default [] (head args)));
  mret (concat (ref_columns <$> infos)).

(** [gc.go]: the lines of [gc why]. *)
Definition lines_of (l : list bytes) : bytes := concat ((λ s, s ++ [x0a]) <$> l).
Definition gcWhyCmd (socket : bytes) (args : list bytes) : Cmd bytes :=
  match args with
  | [key] =>
      k ← pure_ (cmd_parseHexKey key);
      cl ← daemonClient socket;
      names ← remotely (c_GCWhy (Do cl) k);
      mret (match names with [] => lines_of [str "unreferenced"] | _ => lines_of names end)
  | _ => fail_ "gc why requires exactly one KEY argument, got %d"
  end.

(** [content_keys.go], [load.go], [dump.go] and [restore.go].  A spec is resolved with the
    daemon's references. *)
Definition spec (cl s : bytes) : Cmd (Key * bytes) := λ st,
  let name := fst (cut x40 (drop 4 s)) in
  let '(rec, d) := if bool_decide (str "ref:" `prefix_of` s) && is_ok (ValidateName name)
                   then c_GetRef (Do cl) name st.2 else (Ok (mkReference [] [] [] 0 [] []), st.2) in
  (resolveSpec (λ _, rec) s, (st.1, d)).

Definition runContentKeys (socket : bytes) (args : list bytes) : Cmd bytes :=
  match args with
  | [s] =>
      cl ← daemonClient socket;
      '(k, path) ← spec cl s;
      keys ← remotely (c_ContentKeys (Do cl) k path);
      mret (lines_of keys)
  | _ => fail_ "content-keys requires exactly one KEY[/PATH] argument, got %d"
  end.

(** The pack is read when it is opened; reading it during the upload does not fail. *)
Definition runLoad (socket : bytes) (args : list bytes) : Cmd WriteStats :=
  match args with
  | [file] =>
      body ← locally (sys_read_file file);
      cl ← daemonClient socket;
      remotely (c_Ingest (Do cl) body)
  | _ => fail_ "load requires exactly one FILE argument, got %d"
  end.

(** [io.Copy] of a body into the file, which is closed in any case; without a file the
    answer is what is written to the terminal. *)
Definition dump_file (output body : bytes) (rerr : option error) : X unit :=
  p ← sys_open_trunc output 0x1B6;
  r ← tryX (_ ← sys_write_at p body; match rerr with Some e => failX e | None => mret tt end);
  match r with
  | inr e => _ ← tryX sys_close; failX e
  | inl _ => sys_close
  end.
Definition runDump (socket output : bytes) (args : list bytes) : Cmd bytes :=
  match args with
  | [s] =>
      cl ← daemonClient socket;
      '(k, path) ← spec cl s;
      '(body, rerr) ← remotely (c_Tar (Do cl) k path);
      if negb (bool_decide (output = [])) then _ ← locally (dump_file output body rerr); mret [] else
      match rerr with Some e => pure_ (Err e) | None => mret body end
  | _ => fail_ "dump requires exactly one KEY[/PATH] argument, got %d"
  end.

Definition runRestore `{UnixDev} `{!TarReader} (socket : bytes) (args : list bytes) : Cmd unit :=
  match args with
  | [s; outDir] =>
      cl ← daemonClient socket;
      '(k, path) ← spec cl s;
      '(body, rerr) ← remotely (c_Tar (Do cl) k path);
      let '(ms, ends) := tar_read body rerr in
      locally (Extract outDir ms ends)
  | _ => fail_ "restore requires exactly two arguments KEY[/PATH] and DIR, got %d"
  end.

Definition runLs `{Calendar} (socket : bytes) (keys : bool) (args : list bytes) : Cmd bytes :=
  match args with
  | [s] =>
      cl ← daemonClient socket;
      '(k, path) ← spec cl s;
      entries ← remotely (c_Ls (Do cl) k path);
      mret (renderLs entries (u_Now u) keys)
  | _ => fail_ "ls requires exactly one KEY[/PATH] argument, got %d"
  end.

(** [runIngest] of [ingest.go], without [--output].  [os w] is how the reads of a walk in
    the process [w] turn out, [broken] what the daemon makes of an upload that breaks off
    because the walk failed. *)
Section ingest.
Context `{Blake3} `{Cbor} `{Zstd} `{GitIgnore} `{Cdc} `{UnixDev}.
Context (os : proc → OS) (sched : bytes → list nat) (fuel first : nat) (partial : list Object) (broken : W → W).

Definition reading {A} (f : OS → result A) : Cmd A := λ s, (f (os s.1), s).

(** The pack that the walk writes with the reads [o]. *)
Definition pack_of (o : OS) (path : bytes) (isDir : bool) (ign : option Matcher) (cc : chunkConfig) : result (Key * bytes) :=
  writePack write_all sched fuel [] path isDir ign cc partial.

Definition upload (cl path : bytes) (isDir : bool) (ign : option Matcher) (cc : chunkConfig) : Cmd Key := λ s,
  match pack_of (os s.1) path isDir ign cc with
  | Ok (root, out) => let '(r, d) := c_Ingest (Do cl) out s.2 in (match r with Ok _ => Ok root | r => err_of r end, (s.1, d))
  | r => (err_of r, (s.1, broken s.2))
  end.

Definition runIngest (socket : bytes) (cc : chunkConfig) (noIgnore noProgress : bool) (args : list bytes) : Cmd bytes :=
  match args with
  | [refName; path] =>
      _ ← pure_ (ValidateName refName);
      isDir ← wrapC "PATH argument" (reading (λ o, @ingestStat o path));
      ucfg ← locally (cfg_Load (Getenv u));
      ign ← (if isDir && negb noIgnore then reading (λ o, Some <$> @Root o _ path) else mret None);
      _ ← (if noProgress then mret (0, 0) else
           if isDir then reading (λ o, @scanTree o _ fuel first path ign)
           else reading (λ o, info ← @os_Stat o path; Ok (1, st_size info)));
      cl ← daemonClient socket;
      root ← upload cl path isDir ign cc;
      let rec := new_record refName root (cfg_User ucfg) in
      rec ← (if negb (bool_decide (cfg_SigningKey ucfg = []))
             then locally (wrapX "tree stored (root %s) but signing reference %q failed: %w" (signReference u rec (cfg_SigningKey ucfg))) else mret rec);
      _ ← wrapC "tree stored (root %s) but creating reference %q failed: %w" (remotely (c_PutRef (Do cl) rec));
      mret (hex_key root ++ [x0a])
  | _ => fail_ "ingest requires NAME PATH arguments, got %d"
  end.
End ingest.
End commands.

(** ** The commands: files that are written are read back, keys sign, commands compose *)

(** ** Calls go on in the same directory *)
Definition stays {A} (m : X A) : Prop := ∀ w, same w (m w).2.

Lemma stays_ret {A} (a : A) : stays (mret a).
Proof. by intros w. Qed.
Lemma stays_lift {A} (r : result A) : stays (liftX r).
Proof. by intros w. Qed.
Lemma stays_bind {A B} (m : X A) (f : A → X B) : stays m → (∀ a, stays (f a)) → stays (m ≫= f).
Proof.
  intros Hm Hf w. specialize (Hm w). unfold mbind, X_bind. destruct (m w) as [[a|e| |] w1]; [|done..]. etrans; [exact Hm|apply Hf].
Qed.
Lemma stays_try {A} (m : X A) : stays m → stays (tryX m).
Proof. intros Hm w. specialize (Hm w). unfold tryX. by destruct (m w) as [[a|e| |] w1]. Qed.
Lemma stays_wrap {A} msg (m : X A) : stays m → stays (wrapX msg m).
Proof. intros Hm w. specialize (Hm w). unfold wrapX. by destruct (m w). Qed.
Lemma stays_sys {A} (f : proc → result (A * FS)) : stays (sys f).
Proof.
  intros w. destruct (sys_spec f w) as (w1 & Hs & _ & [(e & n & _ & ->)| ->]); [done|]. by destruct (f w1) as [[a fs]|e| |].
Qed.
Lemma stays_write p data : stays (sys_write_at p data).
Proof.
  intros w. unfold sys_write_at. destruct (pop_spec w) as (o & w1 & -> & Hs & _ & _). by destruct o.
Qed.
#[export] Hint Resolve stays_ret stays_lift stays_bind stays_try stays_wrap stays_sys stays_write : amber.

Ltac stays_tac := repeat first
  [ apply stays_ret | apply stays_lift | apply stays_sys | apply stays_write | apply stays_try | apply stays_wrap
  | apply stays_bind; [|intros ?] | case_match ].

Lemma stays_MkdirAll fuel path mode : stays (MkdirAll fuel path mode).
Proof. revert path. induction fuel as [|fuel IH]; intros path; cbn [MkdirAll]; stays_tac. apply IH. Qed.

(** A step of a computation that ends well. *)
Lemma xbind_Ok {A B} (m : X A) (f : A → X B) w b w' : (m ≫= f) w = (Ok b, w') → ∃ a w1, m w = (Ok a, w1) ∧ f a w1 = (Ok b, w').
Proof. unfold mbind, X_bind. destruct (m w) as [[a|e| |] w1]; [|done..]. eauto. Qed.
Lemma xlift_Ok {A} (r : result A) w a w' : liftX r w = (Ok a, w') → r = Ok a ∧ w' = w.
Proof. by intros [= -> <-]. Qed.
Lemma xret_Ok {A} (x : A) w a w' : (mret x : X A) w = (Ok a, w') → a = x ∧ w' = w.
Proof. by intros [= <- <-]. Qed.
Lemma xwrap_Ok {A} msg (m : X A) w a w' : wrapX msg m w = (Ok a, w') → m w = (Ok a, w').
Proof. unfold wrapX. by destruct (m w) as [[x|e| |] w1]. Qed.
Lemma xtry_Ok {A} (m : X A) w r w' : tryX m w = (Ok r, w') → m w = (match r with inl a => Ok a | inr e => Err e end, w').
Proof. unfold tryX. destruct (m w) as [[a|e| |] w1]; by intros [= <- <-]. Qed.
Lemma xsys_Ok {A} (f : proc → result (A * FS)) w a w' : sys f w = (Ok a, w') →
  ∃ w1 fs, same w w1 ∧ w_fs w1 = w_fs w ∧ f w1 = Ok (a, fs) ∧ w' = set_fs fs w1.
Proof.
  destruct (sys_spec f w) as (w1 & Hs & Hf & [(e & n & _ & ->)| ->]); [done|].
  destruct (f w1) as [[x fs]|e| |] eqn:E; intros [= -> <-]. by exists w1, fs.
Qed.

(** ** Paths lead to the same names while links and directories stay *)
Definition same_name (i j : inode) : Prop := i_dir i = i_dir j ∧ i_link i = i_link j ∧ (i_link i = true → i_data i = i_data j).
Definition same_names (fs fs' : FS) : Prop :=
  ∀ q, match fs !! q, fs' !! q with Some i, Some j => same_name i j | None, None => True | _, _ => False end.

Lemma walk_names fs fs' : same_names fs fs' → ∀ links follow comps cur, walk links fs' follow cur comps = walk links fs follow cur comps.
Proof.
  intros Hn links follow. induction links as [|links IH]; intros comps; induction comps as [|c rest IHc]; intros cur; cbn [walk]; try done;
    destruct (comp_skip c); [apply IHc|..|apply IHc|]; (destruct (comp_dotdot c); [apply IHc|]);
    specialize (Hn (cur ++ [c])); destruct (fs !! (cur ++ [c])) as [i|], (fs' !! (cur ++ [c])) as [j|]; try done;
    destruct Hn as (Hd & Hl & Hdata); rewrite <- Hl, <- Hd; destruct (i_link i); try done;
    try (destruct (i_dir i); [apply IHc|done]); try (by rewrite <- Hdata by done).
  destruct (negb follow && bool_decide (rest = [])); [done|]. rewrite <- Hdata by done. apply IH.
Qed.

Lemma resolve_names fs fs' cwd follow path : same_names fs fs' → resolve fs' cwd follow path = resolve fs cwd follow path.
Proof. intros Hn. unfold resolve. destruct path; [done|]. by apply walk_names. Qed.

Lemma names_insert fs p i j : fs !! p = Some i → same_name i j → same_names fs (<[p := j]> fs).
Proof.
  intros Hi Hj q. destruct (decide (q = p)) as [->|Hne].
  - by rewrite Hi, lookup_insert_eq.
  - rewrite lookup_insert_ne by done. by destruct (fs !! q).
Qed.
Lemma names_refl i : same_name i i.
Proof. by split_and!. Qed.

Lemma reg_kind i : i_reg i = true → i_dir i = false ∧ i_link i = false.
Proof. unfold i_reg, i_dir, i_link. intros ->%Z.eqb_eq. done. Qed.

Definition written (data : bytes) (now : Z) (i : inode) : inode := if i_reg i then append_data data now i else i.
Lemma written_name data now i : same_name i (written data now i).
Proof. unfold written. destruct (i_reg i) eqn:E; [|done]. destruct (reg_kind i E) as [_ Hl]. split_and!; [done..|congruence]. Qed.
Lemma truncated_name now i : same_name i (truncated now i).
Proof. unfold truncated. destruct (i_reg i) eqn:E; [|done]. destruct (reg_kind i E) as [_ Hl]. split_and!; [done..|congruence]. Qed.

(** ** [WriteFile] *)

(** After the file is open the path leads to it, and it is empty if it keeps content. *)
Lemma open_trunc_Ok path mode w p fs : open_trunc path mode w = Ok (p, fs) →
  resolve fs (w_cwd w) true path = Ok p ∧ ∃ i, fs !! p = Some i ∧ (i_reg i = true → i_data i = []).
Proof.
  unfold open_trunc. intros (q & Hq & Ho)%bind_Ok. destruct (w_fs w !! q) as [i|] eqn:Hi.
  - destruct (i_dir i); [done|]. injection Ho as -> <-. split.
    + rewrite (resolve_names (w_fs w)); [done|]. eapply names_insert; [exact Hi|apply truncated_name].
    + eexists. split; [apply lookup_insert_eq|]. unfold truncated. destruct (i_reg i) eqn:E; [done|congruence].
  - case_bool_decide as Hc; [|done]. destruct Hc as [Hne Hr]. injection Ho as -> <-. split; [done|].
    rewrite touch_lookup, lookup_insert_eq, decide_False; [by eexists|].
    intros E. destruct p as [|c p _] using rev_ind; [done|]. rewrite removelast_snoc in E. by apply snoc_ne in E.
Qed.

Lemma WriteFile_Ok path data mode w w' : WriteFile path data mode w = (Ok tt, w') →
  same w w' ∧ ∃ p i, resolve (w_fs w') (w_cwd w') true path = Ok p ∧ w_fs w' !! p = Some i ∧ (i_reg i = true → i_data i = data).
Proof.
  intros Hw. split; [change w' with (Ok tt, w').2; rewrite <- Hw; assert (stays (WriteFile path data mode)) as Hs by (unfold WriteFile, failX, sys_close; stays_tac); apply Hs|].
  unfold WriteFile in Hw. apply xbind_Ok in Hw as (p & w1 & Ho & Hw). apply xsys_Ok in Ho as (w0 & fs & Hs0 & Hf0 & Ho & ->).
  apply open_trunc_Ok in Ho as (Hr & i & Hi & Hempty).
  apply xbind_Ok in Hw as (r & w2 & Hwr%xtry_Ok & Hw). apply xbind_Ok in Hw as (c & w3 & Hc%xtry_Ok & Hw).
  destruct r as [[]|e]; [|by destruct c]. destruct c as [[]|e]; [|done]. apply xret_Ok in Hw as [_ ->].
  apply xsys_Ok in Hc as (w4 & fs4 & Hs4 & Hf4 & [= <-] & ->).
  unfold sys_write_at in Hwr. destruct (pop_spec (set_fs fs w0)) as (o & w5 & Hp & Hs5 & Hf5 & _). rewrite Hp in Hwr. destruct o as [|e n]; [|done].
  injection Hwr as <-. cbn [w_fs w_cwd set_fs] in *. rewrite Hf4. cbn [write_at set_fs w_fs]. rewrite Hf5. 
  assert (w_cwd w4 = w_cwd w0) as Hcwd by (rewrite (proj1 Hs4); exact (proj1 Hs5)). rewrite Hcwd.
  assert (alter (λ i, if i_reg i then append_data data (w_now w5) i else i) p fs = <[p := written data (w_now w5) i]> fs) as ->.
  { by apply map_eq; intros q; destruct (decide (q = p)) as [->|Hne]; [rewrite lookup_alter_eq, lookup_insert_eq, Hi|rewrite lookup_alter_ne, lookup_insert_ne by done]. }
  exists p, (written data (w_now w5) i). split_and!.
  - rewrite (resolve_names fs); [done|]. eapply names_insert; [exact Hi|apply written_name].
  - apply lookup_insert_eq.
  - unfold written. destruct (i_reg i) eqn:E; [|congruence]. intros _. cbn. by rewrite Hempty.
Qed.

(** ** The configuration *)
Section userconfig.
Context `{UserJson} `{!UserJsonLaws} (getenv : string → bytes).

Lemma read_file_fs path w : w_fs (sys_read_file path w).2 = w_fs w ∧ same w (sys_read_file path w).2.
Proof.
  unfold sys_read_file. destruct (sys_spec (λ w, b ← read_file (w_fs w) (w_cwd w) path; Ok (b, w_fs w)) w) as (w1 & Hs & Hf & [(e & n & _ & ->)| ->]); [done|].
  destruct (read_file (w_fs w1) (w_cwd w1) path) as [b|e| |]; done.
Qed.
Lemma read_file_Ok path w b w' : sys_read_file path w = (Ok b, w') → read_file (w_fs w) (w_cwd w) path = Ok b.
Proof.
  intros (w1 & fs & Hs & Hf & Hr & ->)%xsys_Ok. rewrite Hf, (proj1 Hs) in Hr. by apply bind_Ok in Hr as (b' & ? & [= <- _]).
Qed.

Lemma Load_fs w : w_fs (cfg_Load getenv w).2 = w_fs w ∧ same w (cfg_Load getenv w).2.
Proof.
  unfold cfg_Load, mbind, X_bind, liftX, tryX. destruct (cfg_Path getenv) as [p|e| |]; [|done..].
  pose proof (read_file_fs p w) as Hr. destruct (sys_read_file p w) as [[b|e| |] w1]; [|done..]. cbn [snd] in Hr.
  destruct (wrap _ (cfg_Unmarshal b)) as [cfg|e| |]; [|exact Hr..]. case_bool_decide; exact Hr.
Qed.

(** What is saved is loaded. *)
Lemma Save_Load cfg p w w' : cfg_Save getenv cfg w = (Ok tt, w') → cfg_Path getenv = Ok p →
  utf8_ValidString (cfg_User cfg) = true → utf8_ValidString (cfg_SigningKey cfg) = true → cfg_User cfg ≠ [] →
  ∀ w2 i, w_fs w2 = w_fs w' → w_cwd w2 = w_cwd w' → w_events w2 = [] → lookup_path (w_fs w') (w_cwd w') true p = Ok i → i_reg i = true →
    cfg_Load getenv w2 = (Ok cfg, w2).
Proof.
  intros Hs Hp Hu Hk Hne w2 i Hfs Hcwd Hev Hl Hreg. unfold cfg_Save in Hs. rewrite Hp in Hs.
  apply xbind_Ok in Hs as (p' & w0 & [[= <-] ->]%xlift_Ok & Hs). apply xbind_Ok in Hs as ([] & w1 & _ & Hs).
  apply xbind_Ok in Hs as (b & w3 & [Hb ->]%xlift_Ok & Hs). apply WriteFile_Ok in Hs as (_ & P & j & Hr & Hj & Hdata).
  unfold lookup_path in Hl. rewrite Hr in Hl. cbn [mbind result_bind] in Hl. rewrite Hj in Hl. injection Hl as ->.
  unfold cfg_Load. rewrite Hp. unfold mbind, X_bind, liftX, tryX. unfold sys_read_file. rewrite sys_run by done. rewrite Hfs, Hcwd.
  unfold read_file, lookup_path. rewrite Hr. cbn [mbind result_bind]. rewrite Hj. cbn [mbind result_bind]. rewrite (proj1 (reg_kind i Hreg)), Hdata by done.
  cbn [mbind result_bind]. rewrite (cfg_Unmarshal_Marshal cfg b) by done. cbn [wrap]. rewrite bool_decide_eq_false_2 by done. rewrite <- Hfs. by destruct w2.
Qed.
End userconfig.

Section config_user.
Context `{KeyFiles} `{UserJson} `{!UserJsonLaws} (u : uenv).

(** The key that a run of [config-user] stores. *)
Definition chosen_key (flag : option bytes) (w : proc) (key : bytes) : Prop :=
  match flag with
  | None => match (cfg_Load (Getenv u) w).1 with
            | Ok cfg => key = cfg_SigningKey cfg
            | Err e => errors_Is e ErrNotConfigured ∧ key = []
            | _ => False
            end
  | Some [] => key = []
  | Some path => filepath_Abs u path = Ok key ∧ ∃ b, read_file (w_fs w) (w_cwd w) key = Ok b ∧ check_key b = Ok tt
  end.

Lemma configUser_Ok flag args w p w' : configUser u flag args w = (Ok p, w') →
  ∃ name key w1, args = [name] ∧ ValidateUser name = Ok tt ∧ cfg_Path (Getenv u) = Ok p ∧ chosen_key flag w key ∧
    cfg_Save (Getenv u) (mkConfig name key) w1 = (Ok tt, w').
Proof.
  unfold configUser. destruct args as [|name [|? ?]]; [done| |done]. intros Hc.
  apply xbind_Ok in Hc as ([] & w0 & [Hv%wrap_Ok ->]%xlift_Ok & Hc). apply xbind_Ok in Hc as (r & w1 & Hr & Hc).
  apply xtry_Ok in Hr. pose proof (Load_fs (Getenv u) w) as [Hf1 Hs1]. rewrite Hr in Hf1, Hs1. cbn [snd] in Hf1, Hs1.
  apply xbind_Ok in Hc as (cfg & w2 & Hcfg & Hc).
  assert (w2 = w1 ∧ match r with inl c => cfg = c | inr e => errors_Is e ErrNotConfigured ∧ cfg = mkConfig [] [] end) as [-> Hold].
  { destruct r as [c|e]; [by apply xret_Ok in Hcfg as [-> ->]|]. case_bool_decide as He; [|done]. by apply xret_Ok in Hcfg as [-> ->]. }
  apply xbind_Ok in Hc as (key & w3 & Hkey & Hc). apply xbind_Ok in Hc as ([] & w4 & Hsave & [Hp ->]%xlift_Ok).
  exists name, key, w3. split_and!; try done. unfold chosen_key. destruct flag as [[|c path]|].
  - by apply xret_Ok in Hkey as [-> _].
  - apply xbind_Ok in Hkey as (abs & w5 & [Ha ->]%xlift_Ok & Hkey). apply xbind_Ok in Hkey as ([] & w6 & Hk & [-> ->]%xret_Ok).
    split; [done|]. unfold CheckKeyFile in Hk. apply xbind_Ok in Hk as (b & w7 & Hb%xwrap_Ok & [Hck _]%xlift_Ok).
    apply read_file_Ok in Hb. rewrite Hf1, (proj1 Hs1) in Hb. by exists b.
  - apply xret_Ok in Hkey as [-> _]. rewrite Hr. cbn [fst]. destruct r as [c|e]; [by rewrite Hold|]. by destruct Hold as [? ->].
Qed.
End config_user.

(** ** The socket *)

(** A socket in the directory under /tmp is one that no other user can replace. *)
Lemma Resolve_private getenv flag w p w' : socket_Resolve getenv flag w = (Ok p, w') →
  p = flag ∨ p = getenv EnvVar ∨ (IsAbs (getenv "XDG_RUNTIME_DIR"%string) = true ∧ p = Join (getenv "XDG_RUNTIME_DIR"%string) (str "amber-store.sock")) ∨
  ∃ dir i, p = Join dir (str "sock") ∧ lookup_path (w_fs w') (w_cwd w') false dir = Ok i ∧
    i_dir i = true ∧ i_uid i = w_euid w' ∧ Z.land (i_mode i) 0x3F = 0.
Proof.
  unfold socket_Resolve. destruct (negb (bool_decide (flag = []))); [intros [= <- _]; by left|].
  destruct (negb _); [intros [= <- _]; by right; left|]. destruct (IsAbs _) eqn:Hx; [intros [= <- _]; right; right; by left|].
  intros (uid & w1 & Hu & Hr)%xbind_Ok. injection Hu as <- <-. apply xbind_Ok in Hr as ([] & w2 & Hp%xwrap_Ok & Hr). apply xret_Ok in Hr as [-> ->].
  right. right. right. exists (fallbackDir (w_euid w)). unfold preparePrivateDir in Hp.
  apply xbind_Ok in Hp as (r & w3 & _ & Hp). apply xbind_Ok in Hp as ([] & w3' & _ & Hp). apply xbind_Ok in Hp as (fi & w4 & Hst & Hp).
  apply xsys_Ok in Hst as (w5 & fs & _ & _ & Hl & ->). apply bind_Ok in Hl as (i & Hl & [= <- <-]).
  apply xbind_Ok in Hp as (uid & w6 & Hu & Hp). injection Hu as <- <-. apply xlift_Ok in Hp as [Hp ->].
  unfold private_info in Hp. destruct (info_IsDir _) eqn:Hd; [|done]. destruct (st_uid _ =? _) eqn:Hu; [|done]. destruct (Z.land _ _ =? 0) eqn:Hm; [|done].
  exists i. split_and!; [done|exact Hl|done|by apply Z.eqb_eq in Hu|by apply Z.eqb_eq in Hm].
Qed.

(** ** Signing *)
Section signing.
Context `{KeyFiles} `{!KeyFilesLaws} `{!SshSigLaws} `{RefCbor}.

Lemma file_signer_key u prompt path b s : file_signer u prompt path b = Ok s → signer_PublicKey s ≠ [].
Proof.
  unfold file_signer. set (rest := _ ← skKeyError b; _).
  assert (rest = Ok s → signer_PublicKey s ≠ []) as Hrest.
  { intros ([] & _ & Hp)%bind_Ok. destruct (ParsePrivateKey b) as [s'|e'| |] eqn:Hpk; [injection Hp as <-; by eapply ParsePrivateKey_ne| |done..].
    destruct (negb _); [done|]. apply bind_Ok in Hp as (pass & _ & Hp%wrap_Ok). by eapply ParsePassphrase_ne. }
  destruct (ParseAuthorizedKey b) as [[pub opts]|e| |] eqn:Hk; [|exact Hrest..].
  unfold agentSigner. case_bool_decide; [done|]. intros ([] & _ & (ss & _ & Hf)%bind_Ok)%bind_Ok.
  destruct (list_find _ ss) as [[i s']|] eqn:Hl; [|done]. injection Hf as <-. apply list_find_Some in Hl as (_ & -> & _). by eapply ParseAuthorizedKey_ne.
Qed.

(** What [signReference] makes of a record. *)
Lemma sign_record_Ok signer rec rec' : signer_PublicKey signer ≠ [] → sign_record signer rec = Ok rec' →
  ref_Name rec' = ref_Name rec ∧ ref_Key rec' = ref_Key rec ∧ ref_User rec' = ref_User rec ∧ ref_CreatedAt rec' = ref_CreatedAt rec ∧
  check_signature rec' = Ok (ref_User rec, ref_PublicKey rec').
Proof.
  intros Hne. unfold sign_record. intros (payload & Hp & (sig & Hs & [= <-])%bind_Ok)%bind_Ok. split_and!; try done.
  unfold check_signature. cbn [ref_Signature ref_PublicKey with_sig with_key ref_User].
  assert (sig ≠ []) as Hsig. { pose proof Hs as (x & _ & [= <-])%bind_Ok. apply sig_Marshal_ne. }
  destruct (length sig =? 0)%nat eqn:E1; [by destruct sig|]. destruct (length (signer_PublicKey signer) =? 0)%nat eqn:E2; [by destruct (signer_PublicKey signer)|].
  change (SignaturePayload (with_sig (with_key rec (signer_PublicKey signer)) sig)) with (SignaturePayload (with_key rec (signer_PublicKey signer))).
  rewrite Hp. cbn [mbind result_bind]. unfold Sshsign.Verify. by rewrite (Verify_Sign signer payload _ sig Hs).
Qed.

Lemma check_DecodeVerified rec body x : Decode body = Ok rec → check_signature rec = Ok x → DecodeVerified body = Ok rec.
Proof.
  intros Hd. unfold check_signature, DecodeVerified. rewrite Hd. cbn [mbind result_bind].
  destruct (length (ref_Signature rec) =? 0)%nat; [done|]. destruct (length (ref_PublicKey rec) =? 0)%nat; [done|]. cbn [orb].
  intros (payload & -> & (pub & Hv%wrap_Ok & _)%bind_Ok)%bind_Ok. cbn [mbind result_bind]. by rewrite Hv.
Qed.

(** The record that a command makes for a user. *)
Definition made_for (u : uenv) (cfg : Config) (name : bytes) (k : Key) (rec : Reference) : Prop :=
  ref_Name rec = name ∧ ref_Key rec = kb k ∧ ref_User rec = cfg_User cfg ∧ ref_CreatedAt rec = u_Now u ∧
  if decide (cfg_SigningKey cfg = []) then ref_Signature rec = [] ∧ ref_PublicKey rec = []
  else check_signature rec = Ok (cfg_User cfg, ref_PublicKey rec).

Lemma unsigned_made u cfg name k : cfg_SigningKey cfg = [] → made_for u cfg name k (new_record u name k (cfg_User cfg)).
Proof. intros Hk. unfold made_for. rewrite decide_True by exact Hk. split_and!; reflexivity. Qed.

Lemma signReference_made u cfg name k w rec w' : cfg_SigningKey cfg ≠ [] →
  signReference u (new_record u name k (cfg_User cfg)) (cfg_SigningKey cfg) w = (Ok rec, w') → made_for u cfg name k rec.
Proof.
  intros Hne Hs. unfold signReference in Hs. apply xbind_Ok in Hs as (signer & w1 & Hk & [Hr ->]%xlift_Ok).
  unfold sshsign_Signer in Hk. apply xbind_Ok in Hk as (b & w2 & _ & [Hf%file_signer_key ->]%xlift_Ok).
  unfold made_for. rewrite decide_False by done. by apply (sign_record_Ok signer (new_record u name k (cfg_User cfg))).
Qed.
End signing.

(** ** Commands *)
Section cmd.
Context {W A B : Type}.
Lemma cbind_Ok (m : Cmd (W := W) A) (f : A → Cmd (W := W) B) s b s' : (m ≫= f) s = (Ok b, s') → ∃ a s1, m s = (Ok a, s1) ∧ f a s1 = (Ok b, s').
Proof. unfold mbind, Cmd_bind. destruct (m s) as [[a|e| |] s1]; [|done..]. eauto. Qed.
Lemma locally_Ok (m : X A) (s s' : proc * W) a : locally m s = (Ok a, s') → m s.1 = (Ok a, s'.1) ∧ s'.2 = s.2.
Proof. unfold locally. destruct (m s.1) as [r w]. by intros [= -> <-]. Qed.
Lemma remotely_Ok (m : W → result A * W) (s s' : proc * W) a : remotely m s = (Ok a, s') → m s.2 = (Ok a, s'.2) ∧ s'.1 = s.1.
Proof. unfold remotely. destruct (m s.2) as [r w]. by intros [= -> <-]. Qed.
Lemma pure_Ok (r : result A) (s s' : proc * W) a : pure_ r s = (Ok a, s') → r = Ok a ∧ s' = s.
Proof. by intros [= -> <-]. Qed.
Lemma cret_Ok (x : A) (s s' : proc * W) a : (mret x : Cmd A) s = (Ok a, s') → a = x ∧ s' = s.
Proof. by intros [= <- <-]. Qed.
Lemma wrapC_Ok msg (m : Cmd A) (s s' : proc * W) a : wrapC msg m s = (Ok a, s') → m s = (Ok a, s').
Proof. unfold wrapC. by destruct (m s) as [[x|e| |] s1]. Qed.
End cmd.
