(* ===== verification/CommandsSpec.v ===== *)
(** * The commands: their guarantees

    Signed references, the configuration that a user keeps, and a backup from the
    command line: what [ingest] stores under a name, [restore] of that name makes again. *)

From Stdlib Require Import Init.Byte.
From S2P Require Import Prelude Machine Key Chunkers FsEncode Instances FsTree FsRead FsWalk PackRecord PackStream Footer FooterFacts Packstore PackstoreRep PackstoreFacts Compact PackstoreSpec Parallel Inbox InboxProtocol InboxSpec Text Sshsign Reference Refstore Gc GcProtocol GcFacts Auth AuthFacts Server ServerSpec Routes Sync Remote SyncLive Path Posix Ignore Ingest IngestPar IngestFacts PosixFacts IngestSpec Tar TarFacts PathFacts TarSafety TarRestore TarSpec AllowStore Remotes Daemon DaemonFacts DaemonSpec Client ClientFacts ClientSpec Admin Embedded Browse BrowseFits Commands.
From Stdlib Require Import ZifyBool ZifyNat.
Local Open Scope Z_scope.

#[local] Existing Instance InboxProtocol.verified_inv.

(** ** What the daemon does for a command *)
Section served.
Context `{Blake3} `{Fuse} `{Zstd} `{Cbor} `{RefCbor} `{Pebble} `{!PebbleLaws} `{SshSig} `{SshKeys} `{NetUrl} `{RemotesJson} `{Float64} `{!DaemonJson} `{!ClientJson}.
Context (render : error → bytes).











End served.

Section claims.
Context `{Blake3} `{Fuse} `{Zstd} `{Cbor} `{!CborLaws} `{!CborTotal} `{RefCbor} `{Pebble} `{!PebbleLaws} `{SshSig} `{SshKeys} `{NetUrl} `{RemotesJson} `{Float64} `{!DaemonJson} `{!ClientJson}
  `{UnixDev} `{!UnixDevLaws} `{!TarReader} `{!TarReaderLaws}.
Context (render : error → bytes).

(** *** Restoring *)


(** A command that is told which socket to use. *)
Lemma daemonClient_flag {W} u socket (s : proc * W) : socket ≠ [] → daemonClient u socket s = (Ok socket, s).
Proof. intros Hs. unfold daemonClient, locally, socket_Resolve. rewrite bool_decide_eq_false_2 by done. by destruct s. Qed.




(** *** Ingesting *)
Context `{!SshIdentity} `{!KeyFiles} `{!KeyFilesLaws} `{!SshSigLaws} `{UserJson} `{!UserJsonLaws} `{GitIgnore} `{Cdc} `{!CdcLaws}.

(** What a walk reads in a process, when no read fails. *)
Definition os_here (w : proc) : OS := os_of (w_fs w) (w_cwd w).



Section ingest.
Context (env : denv) (u : uenv) (sched : bytes → list nat) (fuel first : nat) (partial : list Object) (broken : daemon → daemon).
Context (pick : list error → error) (fuel' : nat) (at_ : Key → Store) (c : gmap Key bytes).
Hypothesis prepare_env : de_prepare env = PrepareRef pick fuel' at_.
Hypothesis procs_env : (0 < de_procs env)%nat.
Hypothesis others_env : ∀ o, put_by_others (others_in (de_sched env)) o.





End ingest.

(** *** References *)

(** C17. A reference that is to be signed is signed, or it is not made.  When
    [amber-store ref create NAME KEY] ends well, the daemon stores under the name the
    record of that key for the user of the configuration.  If the configuration has a
    signing key, the stored record passes the check of signed records, and from then on
    [amber-store ref verify-signature NAME] answers with that user and the key that has
    signed, unless the daemon fails to read the record; without a signing key the record
    has no signature. *)
Theorem ref_create_signed env u socket args w d w1 d1 : - 2 ^ 63 <= u_Now u < 2 ^ 63 →
  refCreate (λ _, d_serve render env) u socket args (w, d) = (Ok tt, (w1, d1)) →
  ∃ name key cfg k rec body, args = [name; key] ∧ (cfg_Load (Getenv u) w).1 = Ok cfg ∧ cmd_parseHexKey key = Ok k ∧
    made_for u cfg name k rec ∧ Encode rec = Ok body ∧ db_map (dm_refs d1) = <[name := body]> (db_map (dm_refs d)) ∧
    (cfg_SigningKey cfg ≠ [] → DecodeVerified body = Ok rec ∧
      ∀ env2 u2 socket2 w2 d2, socket2 ≠ [] → db_map (dm_refs d2) !! name = Some body →
        let verified := (refVerifySignature (λ _, d_serve render env2) u2 socket2 [name] (w2, d2)).1 in
        verified = Ok (cfg_User cfg, ref_PublicKey rec) ∨
        ∃ e, (c_GetRef (d_serve render env2) name d2).1 = Err e ∧ ¬ errors_Is e client_ErrRefNotFound ∧ verified = Err e).
Proof.
  intros Hnow Hrun. destruct args as [|name [|key [|? ?]]]; try discriminate Hrun. unfold refCreate in Hrun.
  apply cbind_Ok in Hrun as ([] & s1 & [Hv ->]%pure_Ok & Hrun). apply cbind_Ok in Hrun as (cfg & [w2 d2] & [Hcfg Hd2]%locally_Ok & Hrun).
  apply cbind_Ok in Hrun as (k & s3 & [Hk ->]%pure_Ok & Hrun). cbn [fst snd] in *. subst d2.
  apply cbind_Ok in Hrun as (rec & [w4 d4] & Hsig & Hrun).
  assert (d4 = d ∧ made_for u cfg name k rec) as [-> Hmade].
  { case_bool_decide as Hs; cbn [negb] in Hsig.
    - apply cret_Ok in Hsig as [-> [= _ ->]]. split; [reflexivity|]. by apply unsigned_made.
    - apply locally_Ok in Hsig as [Hsr%xwrap_Ok Hd4]. split; [exact Hd4|]. by eapply signReference_made. }
  apply cbind_Ok in Hrun as (cl & [w5 d5] & [_ Hd5]%locally_Ok & [Hput _]%remotely_Ok). cbn [fst snd] in *. subst d5.
  apply put_ref_stored in Hput as (body & He & Hlen & _ & _ & Hdb & _). pose proof Hmade as (Hname & _ & _ & Hat & Hsigned). rewrite Hname in Hdb.
  exists name, key, cfg, k, rec, body. split; [reflexivity|]. split; [by rewrite Hcfg|]. split; [exact Hk|]. split; [exact Hmade|]. split; [exact He|]. split; [exact Hdb|].
  intros Hne. rewrite decide_False in Hsigned by exact Hne.
  assert (Decode body = Ok rec) as Hdec by (apply Decode_Encode; [unfold ref_wf; rewrite Hat; exact Hnow|exact He]).
  split; [by eapply check_DecodeVerified|]. intros env2 u2 socket2 w6 d6 Hsock Hbody.
  unfold refVerifySignature, mbind, Cmd_bind. rewrite daemonClient_flag by exact Hsock. unfold remotely. cbn [fst snd].
  assert (name ≠ []) as Hn by (by intros ->).
  destruct (ref_get render env2 name body d6 Hn Hv Hlen Hbody) as [Hg|(e & Hg & Hnf)]; destruct (c_GetRef (d_serve render env2) name d6) as [x d7]; cbn [fst snd] in *; subst x.
  - left. cbn [mbind result_bind]. rewrite Hdec. exact Hsigned.
  - right. exists e. by split_and!.
Qed.

(** *** The configuration *)

(** C34. [config-user] keeps the signing key unless it is told another.  When it ends well,
    the name is a valid user name, the signing key that it stores is the one of the flag,
    made absolute and checked to be a key, the one that was configured before when there
    is no flag, and none for an empty flag; and the commands that run afterwards read
    exactly this name and key from the file, if the configuration is a regular file that
    nobody has changed since, reading it does not fail, and the path of the key is UTF-8:
    JSON stores another path with its invalid bytes replaced. *)
Theorem config_user u flag args w p w' : configUser u flag args w = (Ok p, w') →
  ∃ name key, args = [name] ∧ ValidateUser name = Ok tt ∧ cfg_Path (Getenv u) = Ok p ∧ chosen_key u flag w key ∧
    ∀ w2 i, w_fs w2 = w_fs w' → w_cwd w2 = w_cwd w' → w_events w2 = [] → lookup_path (w_fs w') (w_cwd w') true p = Ok i → i_reg i = true →
      utf8_ValidString key = true → cfg_Load (Getenv u) w2 = (Ok (mkConfig name key), w2).
Proof.
  intros (name & key & w1 & -> & Hv & Hp & Hkey & Hsave)%configUser_Ok. exists name, key. split_and!; [reflexivity|exact Hv|exact Hp|exact Hkey|].
  apply ValidateUser_Ok in Hv as (Hlen & Hu & _). intros w2 i Hfs Hcwd Hev Hl Hreg Hk.
  refine (Save_Load (Getenv u) (mkConfig name key) p w1 w' Hsave Hp Hu Hk _ w2 i Hfs Hcwd Hev Hl Hreg). cbn [cfg_User]. intros ->. cbn in Hlen. lia.
Qed.
End claims.

(** ** Applications *)
Section examples.
#[local] Existing Instance zstd_example.
#[local] Existing Instance blake3_example.
#[local] Existing Instance cbor_example.
#[local] Existing Instance cbor_example_laws.
#[local] Existing Instance cbor_example_total.
#[local] Existing Instance refcbor_example.
#[local] Existing Instance pebble_example.
#[local] Existing Instance pebble_example_laws.
#[local] Existing Instance sshsig_example.
#[local] Existing Instance sshsig_example_laws.
#[local] Existing Instance sshkeys_example.
#[local] Existing Instance url_example.
#[local] Existing Instance json_example.
#[local] Existing Instance percent_example.
#[local] Existing Instance dev_example.
#[local] Existing Instance dev_example_laws.
#[local] Existing Instance cdc_example.
#[local] Existing Instance cdc_example_laws.
#[local] Existing Instance ignore_example.
#[local] Existing Instance fuse_open.

(** An archive as text: its members one by one, each after a mark. *)
Definition flag_of (n : nat) : typeflag :=
  match n with 0 => TypeReg | 1 => TypeDir | 2 => TypeSymlink | 3 => TypeFifo | 4 => TypeChar | 5 => TypeBlock | _ => TypeOther end%nat.
Definition of_flag (t : typeflag) : nat :=
  match t with TypeReg => 0 | TypeDir => 1 | TypeSymlink => 2 | TypeFifo => 3 | TypeChar => 4 | TypeBlock => 5 | TypeOther => 6 end%nat.
Definition member_tuple (m : member) :=
  let h := m.1 in
  (h_Name h, h_Mode h, h_Uid h, h_Gid h, h_ModTime h, of_flag (h_Typeflag h), h_Size h, h_Linkname h, h_Devmajor h, h_Devminor h, map_to_list (h_PAX h), m.2).
Definition tuple_member (t : bytes * Z * Z * Z * Z * nat * Z * bytes * Z * Z * list (bytes * bytes) * bytes) : member :=
  let '(a, b, c, d, e, f, g, h, i, j, k, l) := t in (mkHeader a b c d e (flag_of f) g h i j (list_to_map k), l).
Lemma tuple_member_tuple m : tuple_member (member_tuple m) = m.
Proof. destruct m as [[? ? ? ? ? t ? ? ? ? pax] c]. unfold tuple_member, member_tuple. cbn. rewrite list_to_map_to_list. by destruct t. Qed.

#[local] Instance archive_daemon : DaemonJson := {|
  json_ingest _ := []; json_ls _ := []; json_ref _ := []; json_info := ri_Name; json_names l := concat l; json_status _ := [];
  json_cycle _ := []; json_remote _ := []; json_preflight _ := []; json_public_key b := Ok b; tar_bytes ms := value_text (λ l, member_tuple <$> l) ms;
  ParseFloat _ := Err (errors_New "syntax"); f_above1 f := f >? 100; f_minus1 := -100 |}.
#[local] Instance archive_client : ClientJson := {|
  d_Stats _ _ := Ok (mkStats 0 0 0); d_Status _ _ := no_json; d_Cycle _ _ := no_json; d_names _ _ := no_json; d_preflight _ _ := no_json;
  d_Entry _ _ := EndOfStream; d_RefInfo _ _ := EndOfStream; d_RemoteInfo _ _ := EndOfStream;
  d_event _ := no_json; json_public b := Ok b; json_event _ := []; f_ge0 f := f >=? 0; FormatFloat := FormatInt |}.
#[local] Instance archive_reader : TarReader := {| tar_read b rerr :=
  match text_value (λ l, tuple_member <$> l) b with
  | Some (ms, _) => ((λ m, (m, None)) <$> ms, rerr)
  | None => ([], Some (errors_New "archive/tar: invalid tar header"))
  end |}.
#[local] Instance archive_reader_laws : TarReaderLaws.
Proof.
  split. intros _ get h fuel k ms _. unfold tar_read, archive_reader, tar_bytes, archive_daemon. rewrite <- (app_nil_r (value_text _ ms)).
  rewrite text_value_text; [done|]. intros l. rewrite <- list_fmap_compose. rewrite <- (list_fmap_id l) at 2. apply list_fmap_ext. intros _ m _. apply tuple_member_tuple.
Qed.

(** Keys of one byte, in files that hold their public key; an agent holds the key [02]. *)
#[local] Instance no_files : SshIdentity := {|
  PrivateKey := bytes; GenerateKey rand := Ok rand; MarshalPEM priv := Ok priv; NewSignerFromKey priv := Ok priv;
  ParsePrivateKey _ := Err (errors_New "ssh: no key found"); PassphraseMissing _ := false; AuthorizedKey s := s ++ [x0a] |}.
#[local] Instance public_files : KeyFiles := {|
  ParsePrivateKeyWithPassphrase _ _ := Err (errors_New "ssh: no key found"); pem_Decode _ := None;
  unmarshal_header _ := Err (errors_New "ssh: short read"); unmarshal_algo _ := Err (errors_New "ssh: short read") |}.
#[local] Instance public_files_laws : KeyFilesLaws.
Proof.
  split; try done.
  - intros b pub opts. cbn. case_bool_decide; [done|]. by intros [= <- _].
  - intros [[[|c k] ns] p]; done.
Qed.

(** A configuration as two byte strings. *)
#[local] Instance user_json_example : UserJson := {|
  cfg_MarshalIndent c := Ok (put_bytes (cfg_User c) ++ put_bytes (cfg_SigningKey c));
  cfg_Unmarshal b := match get_bytes b with
                     | Some (name, b) => match get_bytes b with Some (key, _) => Ok (mkConfig name key) | None => Err (errors_New "unexpected end of JSON input") end
                     | None => Err (errors_New "unexpected end of JSON input")
                     end |}.
#[local] Instance user_json_laws : UserJsonLaws.
Proof.
  split.
  - intros b. cbn. by repeat case_match.
  - intros [name key] b _ _ [= <-]. cbn. rewrite <- app_assoc. do 2 rewrite get_put_bytes. done.
Qed.

(** The user [u] with the configuration "/c", in a file system with the directory "/d". *)
Definition user_example : uenv :=
  mkUenv _ (λ v, if decide (v = "AMBER_STORE_CONFIG"%string) then [x2f; x63] else if decide (v = "SSH_AUTH_SOCK"%string) then [x61] else [])
    (Ok [x2f]) (λ _, Ok tt) (λ _, Ok [[x02] : Signer]) (λ _, Err (errors_New "no terminal")) 5.
Definition config_text (key : bytes) : bytes := put_bytes [x75] ++ put_bytes key ++ [x0a].
Definition fs_user (key : bytes) : FS :=
  <[ [[x63]] := inode_of file_node (config_text key) ]> (<[ [[x6b]] := inode_of file_node [x02] ]> fs_example).
Definition user_proc (key : bytes) : proc := mkProc (fs_user key) [] 0 0 0x12 0 [].

Definition env_commands (at_ : Store) : denv :=
  mkDenv (λ _, at_) 9 pick_example 2 (replicate 4 (Distribute false) ++ replicate 16 (Work 0 false) ++ [Work 1 false])
    (PrepareRef pick_example 9 (λ _, at_)) (λ _, None) (λ _, 0) 0
    (mkEnv (λ _, None) None None (λ _, true) [] id) calls_example (λ _, no_json) id id 2 (Missing pick_example 4) order_example [] [].

(** The upload, and with the store that it leaves the command. *)
Definition two_first (_ : bytes) : list nat := [1%nat; 0%nat].
Definition uploaded : Store :=
  dm_store (upload (λ _, d_serve render_example (env_commands empty_example)) os_here two_first 5 [] id
    [x73] [x2f; x64] true None cc_example (user_proc [x2f; x6b], daemon_of empty_example)).2.2.
Definition ingest_example : result bytes * (proc * daemon) :=
  runIngest (λ _, d_serve render_example (env_commands uploaded)) user_example os_here two_first 5 5 [] id
    [x73] cc_example true false [[x61]; path_text true [[x64]]] (user_proc [x2f; x6b], daemon_of empty_example).





Definition printed_of (r : result bytes) : bytes := match r with Ok b => b | _ => [] end.


(** Another name for the tree, signed by the agent's key. *)
Definition named_example : result unit * (proc * daemon) :=
  refCreate (λ _, d_serve render_example (env_commands uploaded)) user_example [x73] [[x62]; take 64 (printed_of ingest_example.1)] (user_proc [x2f; x6b], ingest_example.2.2).
Lemma named_ok {A} (x : result unit * (A * daemon)) : is_ok x.1 = true → x = (Ok tt, (x.2.1, x.2.2)).
Proof. by destruct x as [[[]|e| |] [w d]]. Qed.

Lemma ref_create_signed_witness :
  ∃ rec body, db_map (dm_refs named_example.2.2) !! [x62] = Some body ∧ DecodeVerified body = Ok rec ∧
    let verified := (refVerifySignature (λ _, d_serve render_example (env_commands uploaded)) user_example [x73] [[x62]] (root_proc [], named_example.2.2)).1 in
    verified = Ok ([x75], ref_PublicKey rec) ∨ ∃ e, verified = Err e.
Proof.
  destruct (ref_create_signed render_example (env_commands uploaded) user_example [x73] [[x62]; take 64 (printed_of ingest_example.1)] (user_proc [x2f; x6b])
    ingest_example.2.2 named_example.2.1 named_example.2.2) as (name & key & cfg & k & rec & body & Hargs & Hcfg & _ & _ & _ & Hdb & Hsigned).
  - cbn. lia.
  - apply named_ok. vm_compute. reflexivity.
  - pose proof (f_equal head Hargs : Some [x62] = Some name) as Hn. injection Hn as <-. assert (cfg = mkConfig [x75] [x2f; x6b]) as ->.
    { assert (Ok cfg = Ok (mkConfig [x75] [x2f; x6b])) as [= ->]; [|reflexivity]. rewrite <- Hcfg. vm_compute. reflexivity. }
    destruct (Hsigned ltac:(discriminate)) as [Hdec Hver]. exists rec, body. split; [rewrite Hdb; apply lookup_insert_eq|]. split; [exact Hdec|].
    destruct (Hver (env_commands uploaded) user_example [x73] (root_proc []) named_example.2.2 ltac:(discriminate)) as [Hv|(e & _ & _ & Hv)].
    + rewrite Hdb. apply lookup_insert_eq.
    + left. exact Hv.
    + right. exists e. exact Hv.
Defined.

(** The user takes the name [v] and a key by its relative path, and then another name. *)
Definition configured (flag : option bytes) (name : bytes) (w : proc) : result bytes * proc := configUser user_example flag [name] w.
Example config_keeps : (cfg_Load (Getenv user_example) (configured None [x77] (configured (Some [x6b]) [x76] (user_proc [])).2).2).1 = Ok (mkConfig [x77] [x2f; x6b]).
Proof. vm_compute. reflexivity. Qed.

Lemma config_user_witness :
  let w := (configured (Some [x6b]) [x76] (user_proc [])).2 in cfg_Load (Getenv user_example) w = (Ok (mkConfig [x76] [x2f; x6b]), w).
Proof.
  set (w := (configured (Some [x6b]) [x76] (user_proc [])).2).
  destruct (config_user user_example (Some [x6b]) [[x76]] (user_proc []) [x2f; x63] w) as (name & key & Hargs & _ & _ & [Habs _] & Hload).
  - rewrite (surjective_pairing (configUser _ _ _ _)). refine (f_equal2 pair _ eq_refl). vm_compute. reflexivity.
  - injection Hargs as <-. assert (key = [x2f; x6b]) as -> by (vm_compute in Habs; by injection Habs as <-).
    destruct (lookup_path (w_fs w) (w_cwd w) true [x2f; x63]) as [i|e| |] eqn:Hl; [|vm_compute in Hl; discriminate Hl..].
    apply (Hload w i); [reflexivity|reflexivity|vm_compute; reflexivity|reflexivity| |vm_compute; reflexivity].
    assert (is_ok (i ← lookup_path (w_fs w) (w_cwd w) true [x2f; x63]; if i_reg i then Ok tt else Err []) = true) as Hreg by (vm_compute; reflexivity).
    rewrite Hl in Hreg. cbn [mbind result_bind] in Hreg. by destruct (i_reg i).
Defined.
End examples.
